(* ===== verification/_CoqProject ===== *)
-Q . S2P
Prelude.v
Hash.v
Uint.v
Target.v
Interval.v
ReachStore.v
Reachability.v
ReachSim.v
ReachTree.v
ReachQuery.v
ReachDag.v
ReachInsert.v
ReachCount.v
ReachPropagate.v
ReachReindex.v
ReachReclaim.v
ReachWalk.v
ReachAdd.v
ReachConcentrate.v
ReachAdvance.v
ReachMain.v
ReachService.v
Relations.v
Headers.v
GhostdagStore.v
Ghostdag.v
GhostdagInv.v
GhostdagMerge.v
GhostdagColor.v
GhostdagRun.v
Window.v
WindowProof.v
Difficulty.v
DifficultyProof.v
Stores.v
Depth.v
SelectedChain.v
DepthProof.v
Parents.v
ParentsProof.v
Errors.v
HeaderProcessor.v
HeaderInv.v
HeaderValidate.v
HeaderCommit.v
HeaderRun.v
HeaderMain.v
HeaderTheorems.v
Tx.v
Utxo.v
UtxoProof.v
Hashing.v
HashingProof.v
Merkle.v
Database.v
DatabaseProof.v
TxValidator.v
TxValidatorProof.v
Coinbase.v
CoinbaseProof.v
BodyProcessor.v
BodyProof.v
BodyTheorems.v
Tasks.v
TasksProof.v
TasksTheorems.v
U3072.v
MuHash.v
VirtualStores.v
VirtualProcessor.v
VirtualUtxo.v
VirtualCalc.v
VirtualChain.v
VirtualMain.v
VirtualParents.v
VirtualUpdate.v
VirtualHistory.v
VirtualTheorems.v
Addresses.v
Notifier.v
