(* ===== verification/Prelude.v ===== *)
(** * Rusty-Kaspa: a verification development

    Rusty-Kaspa is a node of a proof-of-work block DAG.  A header that arrives is
    related to the blocks already known (its parents, an index that answers
    ancestry queries), coloured by the GHOSTDAG protocol, and checked against what
    the windows of recent blocks prescribe (median time, difficulty).  This
    development models that part of the node as executable Rocq programs and proves
    what makes it correct.  File names of the code are relative to [src/].

    ** How the code is represented

    - Rust control flow: the monad [outcome] of [Prelude.v].  [Err] is a returned
      error, [Panic] a failed [unwrap], [assert!], index or overflow check (the
      checked arithmetic of [add64], [sub64], [mul64]), [Fuel] a loop that was cut.
      Code that changes a store is a function from the state to an outcome and the
      next state ([prog]).
    - Traits are type classes ([ReachabilityStore], [ReachabilityService],
      [RelationsStoreReader], [HeaderStoreReader], [GhostdagStoreReader],
      [BlockWindowCacheReader]); what an implementation promises is a second class
      of laws ([StoreLaws], [ServiceLaws], [GhostdagStoreLaws] and so on), proved
      for each implementation and used by the clients.
    - Hashes are numbers below 2^256, [u64] and the like are [Z] with the checks
      written out, wide integers are lists of 64-bit limbs, hash maps are [gmap].
    - Loops take a bound [fuel].  It is a parameter of the model only: every theorem
      about a result gives a bound that is enough in terms of the number of blocks
      in the store, and concludes that the outcome is not [Fuel].

    ** Files

    - [Prelude]: outcomes, programs, checked arithmetic, loop rules, tactics, hints.
    - [Hash]: [crypto/hashes/src/lib.rs], [consensus/core/src/blockhash.rs].
    - [Uint]: [math/src/uint.rs].  [Target]: [math/src/lib.rs], [calc_work].
    - [Interval]: [processes/reachability/interval.rs], floats included.
    - [ReachStore]: [model/stores/reachability.rs] (memory, database, staging).
    - [Reachability]: [processes/reachability/{extensions,inquirer,reindex,tree}.rs].
    - [ReachSim]: the algorithms do the same on every lawful store.
    - [ReachTree], [ReachQuery], [ReachDag]: stores as trees with nested intervals,
      the queries, the future covering sets.
    - [ReachInsert], [ReachCount], [ReachPropagate], [ReachReindex], [ReachReclaim],
      [ReachWalk], [ReachAdd], [ReachConcentrate], [ReachAdvance]: one stage each of
      the insertion of a block and of the reindexing.
    - [ReachMain]: the entry points against the DAG; histories of calls.
    - [ReachService]: [model/services/reachability.rs] with the chain iterators.
    - [Relations], [Headers], [GhostdagStore]: the stores of the same names.
    - [Ghostdag]: [processes/ghostdag/{protocol,mergeset,ordering}.rs];
      [GhostdagInv], [GhostdagMerge], [GhostdagColor], [GhostdagRun]: its proof.
    - [Window]: [processes/traversal_manager.rs], [processes/past_median_time.rs],
      [model/stores/block_window_cache.rs]; [WindowProof]: its proof.
    - [Difficulty]: [processes/difficulty.rs]; [DifficultyProof]: its proof.
    - [Stores]: the small stores (statuses, DAA, depth, tips, pruning points).
    - [Depth]: [processes/block_depth.rs], [processes/pruning.rs]; [SelectedChain],
      [DepthProof]: its proof.
    - [Parents]: [processes/parents_builder.rs]; [ParentsProof]: its proof.
    - [Errors]: [consensus/core/src/errors/], [consensus/src/params.rs].
    - [HeaderProcessor]: [pipeline/header_processor/]; [HeaderInv],
      [HeaderValidate], [HeaderCommit], [HeaderRun], [HeaderMain]: its proof;
      [HeaderTheorems]: its properties, with a run on the main network.
    - [Tx]: [consensus/core/src/{tx,subnets,block,coinbase}.rs]; [Utxo]:
      [consensus/core/src/utxo/]; [UtxoProof]: its proof.
    - [Hashing]: [consensus/core/src/hashing/], [sign.rs]; [HashingProof]: its proof;
      [Merkle]: [crypto/merkle/src/lib.rs] with its proof.
    - [Database]: [model/stores/database/]; [DatabaseProof]: its proof.
    - [TxValidator]: [processes/transaction_validator/], [processes/mass.rs];
      [TxValidatorProof]: its proof.
    - [Coinbase]: [processes/coinbase.rs]; [CoinbaseProof]: its proof.
    - [BodyProcessor]: [pipeline/body_processor/], the store of block transactions;
      [BodyProof]: its proof; [BodyTheorems]: its properties and the
      composition of the header and the body processor.
    - [Tasks]: [pipeline/deps_manager.rs] with the worker loops of the processors;
      [TasksProof]: its invariant; [TasksTheorems]: its properties.
    - [U3072], [MuHash]: [crypto/muhash/] and the multisets of the UTXO set, with their
      proofs.
    - [VirtualStores]: the stores of the virtual state; [VirtualProcessor]:
      [pipeline/virtual_processor/]; [VirtualUtxo], [VirtualCalc]: its
      UTXO states and their verification; [VirtualChain]: the valid chains;
      [VirtualMain]: the invariant and the walk between chains; [VirtualParents]: the
      choice of parents; [VirtualUpdate]: [resolve_virtual] as a whole;
      [VirtualHistory]: the three processors together; [VirtualTheorems]: the
      properties, with a run on the main network.
    - [Addresses]: [crypto/addresses/], with its proof.
    - [Notifier]: [rpc/core/src/notify/], with its proof.

    ** What the theorems show

    - Reachability: initialisation, [add_block] and [hint_virtual_selected_parent]
      keep the store an index of the DAG ([ReachMain.dag_inv]) on every store of the
      interface, end within a number of turns bounded by the number of blocks,
      succeed when the parent has room, and under the invariant every query of the
      inquirer and of the service is the ancestry of the DAG.  The three stores are
      equivalent and a staging store commits exactly what it showed.
    - GHOSTDAG: on a DAG that satisfies [GhostdagInv.gd_dag] the protocol returns the
      greedy k-cluster colouring of the mergeset, with the anticone sizes, the score
      and the work, without panicking, and storing the result keeps the invariant.
    - Windows and difficulty: the bounded heap with its caches returns the blocks of
      greatest blue work; median time, DAA score and difficulty depend on the DAG
      alone; the new target is the exact formula, without overflow.
    - Wide integers: each limb algorithm computes the arithmetic of the number it
      stands for; the overflow flag of the product is shown to miss overflows.
    - Stores: children and parents agree, single header fields agree with the full
      header whatever is cached, the stores of GHOSTDAG data agree.
    - Depth and pruning: the roots and the pruning point a header must respect are the
      chain blocks that the definitions prescribe, found without a panic.
    - Levels: the parents of a header at every proof level are the maximal blocks of that
      level in its past.
    - Header processor: [HeaderInv.hp_inv] says that all stores describe one DAG; the
      genesis establishes it, [process_header] keeps it, accepts only headers that meet
      all rules, and a refused header leaves the stores alone.  The proof composes the
      theorems of all the components above.
    - UTXO: differences compose, subtract and reverse as the changes of a UTXO set they
      stand for, in any iteration order of the hash maps; layered views show the set.
    - Hashing: the serialisations are injective, so hashes, ids, merkle roots commit to
      their objects up to a collision among the hashed bytes; the reuse of partial
      signature hashes changes nothing; signing produces signatures that verify.
    - Transactions: the validators accept exactly the transactions that meet the rules;
      the fee is exact; coinbase payloads round-trip, the expected coinbase pays the
      rewards, the emission of the main network stays below the supply limit.
    - Database: the cached access refines a map whatever the cache evicts.
    - Bodies: the body processor accepts exactly the bodies that meet the rules, keeps
      the invariant, and a history of headers and bodies keeps bodies below headers.
    - Tasks: in every interleaving of the workers no block is processed twice at once
      or before its pending parents, and all queued blocks are finished; the processors
      are those of headers and bodies, and a panic of one is explicit.
    - Multisets: the hash of a multiset does not depend on the order or the grouping of
      additions and removals, and its stored form reads back.
    - Virtual state: [VirtualChain.valid_chain] defines the valid chain blocks and their
      UTXO sets by recursion over the selected chain, without stores or differences.
      The calculation and the verification of a block decide it on any view; the walk
      between chains reaches exactly these sets; coins are created by subsidies alone;
      and [resolve_virtual] keeps the invariant [VirtualHistory.node_inv] in every
      interleaving with the header and the body processor.  The code crashes on a block
      of the chain with a bad signature, which the body processor does not refuse: these
      panics are part of the statements ([VirtualChain.crashes]).  Hypotheses, collected
      in [VirtualChain.world_ok] and [VirtualHistory.resolvable]: no collision of
      transaction ids and hashes among the blocks, subsidies within the supply, numbers
      with room for one more block, and a selected tip above the pruning candidate (the
      code does not check finality).
    - Addresses: texts round-trip, every outcome of the decoding is characterised, the
      panics included, and the checksum detects every change of up to eight
      consecutive characters.
    - Notifications: in every interleaving of the steps of clients and tasks an open
      channel receives what its listeners subscribed to, in order; stopping ends,
      whatever clients do meanwhile, and delivers what was issued before.  Changes of
      UTXOs are excepted: their subscriptions can get lost.

    ** Bounds and hypotheses

    - Scores, works, sizes and timestamps are assumed to fit their machine types
      where the code adds them ([GhostdagRun.room], [DifficultyProof.data_ok]);
      [k] is below 255, which the arithmetic [k + 1] in [KType] needs.
    - Locks: a call that holds a lock sees one state of the store; the chain
      iterators, which take the lock at every step, are given a state per step.

    ** Not modelled

    - RocksDB itself and bincode: the database is a map of byte strings and the
      serialisation a parameter with its round trip.  The stores outside [Database]
      are the key-value contents that the cached access gives access to.
    - Digests, secp256k1 and the proof-of-work hash: calls of external packages or
      assembly code, parameters of the definitions that use them.
    - Threads and channels, except as the interleavings of steps in [Tasks] and
      [Notifier].
    - RPC, the simulator, the runtime services, the bindings: I/O and glue. *)

From Stdlib Require Export ZArith Lia.
From stdpp Require Export base gmap sorting numbers option list.
Export list_basics.list list_relations.list list_monad.list list_misc.list.

#[global] Open Scope Z_scope.
#[global] Set Default Goal Selector "!".

(** ** Outcomes

    The result of running a piece of the program: a value, a Rust [Err], a panic
    (an [unwrap] on an error, a failed assertion, an arithmetic overflow in a
    build with overflow checks, an index out of range), or [Fuel], which stands
    for a loop that was cut before it ended.  [Fuel] is never a behaviour of the
    program; theorems that say that an operation returns exclude it. *)

Inductive outcome (E A : Type) : Type :=
| Ok (a : A)
| Err (e : E)
| Panic
| Fuel.
Arguments Ok {E A} a.
Arguments Err {E A} e.
Arguments Panic {E A}.
Arguments Fuel {E A}.

#[global] Instance outcome_ret E : MRet (outcome E) := λ _ a, Ok a.
#[global] Instance outcome_bind E : MBind (outcome E) := λ _ _ k o,
  match o with
  | Ok a => k a
  | Err e => Err e
  | Panic => Panic
  | Fuel => Fuel
  end.

(** [x.unwrap()] on a [Result], and on an [Option]. *)
Definition unwrap {E E' A} (o : outcome E A) : outcome E' A :=
  match o with Ok a => Ok a | Err _ => Panic | Panic => Panic | Fuel => Fuel end.
Definition unwrap_opt {E A} (o : option A) : outcome E A :=
  match o with Some a => Ok a | None => Panic end.
Definition assert {E} (b : bool) : outcome E unit := if b then Ok tt else Panic.
Definition map_err_o {E E' A} (f : E → E') (o : outcome E A) : outcome E' A :=
  match o with Ok a => Ok a | Err e => Err (f e) | Panic => Panic | Fuel => Fuel end.

(** ** Stateful computations

    [M S E A] runs on a state [S]; the state after an error is kept, as the
    mutations made through a [&mut] reference before an [Err] are. *)

Definition M (S E A : Type) : Type := S → outcome E A * S.

#[global] Instance M_ret S E : MRet (M S E) := λ _ a s, (Ok a, s).
#[global] Instance M_bind S E : MBind (M S E) := λ _ _ k m s,
  match m s with
  | (Ok a, s') => k a s'
  | (Err e, s') => (Err e, s')
  | (Panic, s') => (Panic, s')
  | (Fuel, s') => (Fuel, s')
  end.

#[global] Instance M_fmap S E : FMap (M S E) := λ _ _ f m, a ← m; mret (f a).

Definition lift {S E A} (o : outcome E A) : M S E A := λ s, (o, s).
Definition fail {S E A} (e : E) : M S E A := λ s, (Err e, s).
Definition get {S E} : M S E S := λ s, (Ok s, s).
Definition modify {S E} (f : S → S) : M S E unit := λ s, (Ok tt, f s).
Definition map_err {S E E' A} (f : E → E') (m : M S E A) : M S E' A :=
  λ s, let '(o, s') := m s in (map_err_o f o, s').

(** A Rust [loop]: the body either asks for another turn ([inl]) or leaves the
    loop with a value ([inr]). *)
Fixpoint loop {S E A B} (fuel : nat) (body : A → M S E (A + B)) (a : A) : M S E B :=
  match fuel with
  | O => λ s, (Fuel, s)
  | Datatypes.S n => r ← body a; match r with inl a' => loop n body a' | inr b => mret b end
  end.

(** [for x in l { f(x)?; }]. *)
Fixpoint for_each {S E X} (l : list X) (f : X → M S E unit) : M S E unit :=
  match l with
  | [] => mret tt
  | x :: l' => f x;; for_each l' f
  end.

(** [for x in l] with an accumulator and an early exit. *)
Fixpoint for_fold {S E X A} (l : list X) (f : A → X → M S E A) (a : A) : M S E A :=
  match l with
  | [] => mret a
  | x :: l' => a' ← f a x; for_fold l' f a'
  end.

(** [l.iter().map(f).collect::<Result<Vec<_>>>()]. *)
Fixpoint map_each {S E X Y} (l : list X) (f : X → M S E Y) : M S E (list Y) :=
  match l with
  | [] => mret []
  | x :: l' => y ← f x; ys ← map_each l' f; mret (y :: ys)
  end.

(** The same loops without a state. *)
Fixpoint omap_each {E X Y} (f : X → outcome E Y) (l : list X) : outcome E (list Y) :=
  match l with
  | [] => mret []
  | x :: l' => y ← f x; ys ← omap_each f l'; mret (y :: ys)
  end.
Fixpoint ofold {E X A} (f : A → X → outcome E A) (a : A) (l : list X) : outcome E A :=
  match l with
  | [] => mret a
  | x :: l' => a' ← f a x; ofold f a' l'
  end.
Fixpoint oloop {E A B} (fuel : nat) (body : A → outcome E (A + B)) (a : A) : outcome E B :=
  match fuel with
  | O => Fuel
  | Datatypes.S n => r ← body a; match r with inl a' => oloop n body a' | inr b => mret b end
  end.

(** ** Machine integers

    A [u64] is a [Z] between [0] and [u64_max].  The arithmetic below is the
    arithmetic of a build with overflow checks: an operation that leaves the
    range panics.  A run that does not panic is also the run of a build without
    them, where the same operations wrap. *)

Definition u8_max : Z := 255.
Definition u16_max : Z := 65535.
Definition u32_max : Z := 4294967295.
Definition u64_max : Z := 18446744073709551615.

Definition checked {E} (max z : Z) : outcome E Z :=
  if (0 <=? z) && (z <=? max) then Ok z else Panic.
Definition add64 {E} (a b : Z) : outcome E Z := checked u64_max (a + b).
Definition sub64 {E} (a b : Z) : outcome E Z := checked u64_max (a - b).
Definition mul64 {E} (a b : Z) : outcome E Z := checked u64_max (a * b).

Definition u64_ok (z : Z) : Prop := 0 ≤ z ≤ u64_max.

Definition zsum (l : list Z) : Z := foldr Z.add 0 l.

(** [iter().sum::<u64>()]: the additions are made from the left and checked. *)
Fixpoint sum64_from {E} (acc : Z) (l : list Z) : outcome E Z :=
  match l with
  | [] => Ok acc
  | x :: l' => acc' ← add64 acc x; sum64_from acc' l'
  end.
Definition sum64 {E} (l : list Z) : outcome E Z := sum64_from 0 l.

(** ** Running to a result

    [runs m s Q]: from [s], [m] ends with a value (no error, no panic, enough
    fuel), and value and final state satisfy [Q]. *)

Definition runs {S E A} (m : M S E A) (s : S) (Q : A → S → Prop) : Prop :=
  match m s with (Ok a, s') => Q a s' | _ => False end.

Section runs_rules.
Context {S E : Type}.

Lemma runs_ret {A} (a : A) s (Q : A → S → Prop) : Q a s → runs (E:=E) (mret a) s Q.
Proof. done. Qed.

Lemma runs_bind {A B} (m : M S E A) (k : A → M S E B) s Q :
  runs m s (λ a s', runs (k a) s' Q) → runs (m ≫= k) s Q.
Proof. unfold runs, mbind, M_bind. by destruct (m s) as [[] ?]. Qed.

Lemma runs_mono {A} (m : M S E A) s (P Q : A → S → Prop) :
  runs m s P → (∀ a s', P a s' → Q a s') → runs m s Q.
Proof. unfold runs. destruct (m s) as [[] ?]; eauto. Qed.

Lemma runs_lift {A} (o : outcome E A) a s (Q : A → S → Prop) :
  o = Ok a → Q a s → runs (lift o) s Q.
Proof. by intros ->. Qed.

Lemma runs_get s (Q : S → S → Prop) : Q s s → runs (E:=E) get s Q.
Proof. done. Qed.

Lemma runs_map_err {E' A} (f : E' → E) (m : M S E' A) s Q :
  runs m s Q → runs (map_err f m) s Q.
Proof. unfold runs, map_err. by destruct (m s) as [[] ?]. Qed.

Lemma runs_elim {A} (m : M S E A) s Q :
  runs m s Q → ∃ a s', m s = (Ok a, s') ∧ Q a s'.
Proof. unfold runs. destruct (m s) as [[] ?]; naive_solver. Qed.

Lemma runs_intro {A} (m : M S E A) s a s' (Q : A → S → Prop) :
  m s = (Ok a, s') → Q a s' → runs m s Q.
Proof. unfold runs. by intros ->. Qed.

(** Loops: an invariant on the loop variable and the state, and a natural
    measure that every turn decreases and that the fuel bounds. *)
Lemma runs_loop {A B} (I : A → S → Prop) (mu : A → S → nat)
    (body : A → M S E (A + B)) (Q : B → S → Prop) fuel a s :
  (∀ a s, I a s → runs (body a) s (λ r s', match r with
     | inl a' => I a' s' ∧ (mu a' s' < mu a s)%nat
     | inr b => Q b s' end)) →
  I a s → (mu a s < fuel)%nat → runs (loop fuel body a) s Q.
Proof.
  intros Hb. revert a s. induction fuel as [|n IH]; intros a s HI Hmu; [lia|].
  simpl. apply runs_bind. eapply runs_mono; [apply Hb, HI|].
  intros [a'|b] s'; simpl; [|by apply runs_ret].
  intros [HI' Hlt]. apply IH; [done|lia].
Qed.

(** The same with a measure that is not computed from the loop variable. *)
Lemma runs_loop_ghost {A B} (I : nat → A → S → Prop)
    (body : A → M S E (A + B)) (Q : B → S → Prop) fuel n a s :
  (∀ n a s, I n a s → runs (body a) s (λ r s', match r with
     | inl a' => ∃ n', I n' a' s' ∧ (n' < n)%nat
     | inr b => Q b s' end)) →
  I n a s → (n < fuel)%nat → runs (loop fuel body a) s Q.
Proof.
  intros Hb. revert n a s. induction fuel as [|f IH]; intros n a s HI Hmu; [lia|].
  simpl. apply runs_bind. eapply runs_mono; [eapply Hb, HI|].
  intros [a'|b] s'; simpl; [|by apply runs_ret].
  intros (n' & HI' & Hlt). eapply IH; [exact HI'|lia].
Qed.

Lemma runs_for_each {X} (I : list X → S → Prop) (l : list X) (f : X → M S E unit) s Q :
  (∀ x l' s, I (x :: l') s → runs (f x) s (λ _ s', I l' s')) →
  (∀ s, I [] s → Q tt s) →
  I l s → runs (for_each l f) s Q.
Proof.
  intros Hf HQ. revert s. induction l as [|x l IH]; intros s HI; simpl.
  - by apply runs_ret, HQ.
  - apply runs_bind. eapply runs_mono; [by apply Hf|]. intros ? s' ?. by apply IH.
Qed.
End runs_rules.

(** ** Safety

    [safe m s Q]: from [s], [m] ends within its fuel, and if it ends with a value
    (neither an error nor a panic), value and final state satisfy [Q]. *)

Definition safe {S E A} (m : M S E A) (s : S) (Q : A → S → Prop) : Prop :=
  match m s with (Ok a, s') => Q a s' | (Fuel, _) => False | _ => True end.

Section safe_rules.
Context {S E : Type}.

Lemma runs_safe {A} (m : M S E A) s Q : runs m s Q → safe m s Q.
Proof. unfold runs, safe. by destruct (m s) as [[] ?]. Qed.

Lemma safe_ret {A} (a : A) s (Q : A → S → Prop) : Q a s → safe (E:=E) (mret a) s Q.
Proof. done. Qed.

Lemma safe_bind {A B} (m : M S E A) (k : A → M S E B) s Q :
  safe m s (λ a s', safe (k a) s' Q) → safe (m ≫= k) s Q.
Proof. unfold safe, mbind, M_bind. by destruct (m s) as [[] ?]. Qed.

Lemma safe_mono {A} (m : M S E A) s (P Q : A → S → Prop) :
  safe m s P → (∀ a s', P a s' → Q a s') → safe m s Q.
Proof. unfold safe. destruct (m s) as [[] ?]; eauto. Qed.

Lemma safe_fail {A} (e : E) s (Q : A → S → Prop) : safe (fail e) s Q.
Proof. done. Qed.

Lemma safe_lift {A} (o : outcome E A) s (Q : A → S → Prop) :
  o ≠ Fuel → (∀ a, o = Ok a → Q a s) → safe (lift o) s Q.
Proof. unfold safe, lift. destruct o; naive_solver. Qed.

Lemma safe_elim {A} (m : M S E A) s Q a s' : safe m s Q → m s = (Ok a, s') → Q a s'.
Proof. unfold safe. intros HQ Hm. by rewrite Hm in HQ. Qed.

Lemma safe_no_fuel {A} (m : M S E A) s Q : safe m s Q → fst (m s) ≠ Fuel.
Proof. unfold safe. by destruct (m s) as [[] ?]. Qed.

Lemma safe_loop {A B} (I : nat → A → S → Prop)
    (body : A → M S E (A + B)) (Q : B → S → Prop) fuel n a s :
  (∀ n a s, I n a s → safe (body a) s (λ r s', match r with
     | inl a' => ∃ n', I n' a' s' ∧ (n' < n)%nat
     | inr b => Q b s' end)) →
  I n a s → (n < fuel)%nat → safe (loop fuel body a) s Q.
Proof.
  intros Hb. revert n a s. induction fuel as [|f IH]; intros n a s HI Hmu; [lia|].
  simpl. apply safe_bind. eapply safe_mono; [eapply Hb, HI|].
  intros [a'|b] s'; simpl; [|by apply safe_ret].
  intros (n' & HI' & Hlt). eapply IH; [exact HI'|lia].
Qed.

Lemma safe_for_each {X} (I : list X → S → Prop) (l : list X) (f : X → M S E unit) s Q :
  (∀ x l' s, I (x :: l') s → safe (f x) s (λ _ s', I l' s')) →
  (∀ s, I [] s → Q tt s) →
  I l s → safe (for_each l f) s Q.
Proof.
  intros Hf HQ. revert s. induction l as [|x l IH]; intros s HI; simpl.
  - by apply safe_ret, HQ.
  - apply safe_bind. eapply safe_mono; [by apply Hf|]. intros ? s' ?. by apply IH.
Qed.
End safe_rules.

(** ** Checks

    [checks m s Q]: from [s], [m] ends with a value such that value and final state
    satisfy [Q], or refuses with an error; it neither panics nor runs out of fuel. *)

Definition checks {S E A} (m : M S E A) (s : S) (Q : A → S → Prop) : Prop :=
  match m s with (Ok a, s') => Q a s' | (Err _, _) => True | _ => False end.

Section checks_rules.
Context {S E : Type}.

Lemma checks_ret {A} (a : A) s (Q : A → S → Prop) : Q a s → checks (E:=E) (mret a) s Q.
Proof. done. Qed.

Lemma checks_bind {A B} (m : M S E A) (k : A → M S E B) s Q :
  checks m s (λ a s', checks (k a) s' Q) → checks (m ≫= k) s Q.
Proof. unfold checks, mbind, M_bind. by destruct (m s) as [[] ?]. Qed.

Lemma checks_mono {A} (m : M S E A) s (P Q : A → S → Prop) :
  checks m s P → (∀ a s', P a s' → Q a s') → checks m s Q.
Proof. unfold checks. destruct (m s) as [[] ?]; eauto. Qed.

Lemma checks_fail {A} (e : E) s (Q : A → S → Prop) : checks (fail e) s Q.
Proof. done. Qed.

Lemma checks_get s (Q : S → S → Prop) : Q s s → checks (E:=E) get s Q.
Proof. done. Qed.

Lemma checks_modify f s (Q : unit → S → Prop) : Q tt (f s) → checks (E:=E) (modify f) s Q.
Proof. done. Qed.

Lemma checks_lift {A} (o : outcome E A) a s (Q : A → S → Prop) : o = Ok a → Q a s → checks (lift o) s Q.
Proof. by intros ->. Qed.

Lemma checks_for_each {X} (I : list X → S → Prop) (l : list X) (f : X → M S E unit) s Q :
  (∀ pre x s, pre ++ [x] `prefix_of` l → I pre s → checks (f x) s (λ _ s', I (pre ++ [x]) s')) →
  (∀ s, I l s → Q tt s) →
  I [] s → checks (for_each l f) s Q.
Proof.
  intros Hf HQ. assert (∀ rest pre s, pre ++ rest = l → I pre s → checks (for_each rest f) s Q) as Hgen.
  { intros rest. induction rest as [|x rest IH]; intros pre s' Heq HI; simpl.
    - apply checks_ret, HQ. by rewrite <- Heq, app_nil_r.
    - apply checks_bind. eapply checks_mono; [apply (Hf pre); [|done]|].
      + exists rest. by rewrite <- app_assoc.
      + intros [] s'' HI'. apply (IH (pre ++ [x])); [by rewrite <- app_assoc|done]. }
  by apply Hgen.
Qed.
End checks_rules.

(** ** Pure loops that end with a value *)

Section pure_loops.
Context {E : Type}.

Lemma oloop_ok {A B} (I : nat → A → Prop) (body : A → outcome E (A + B)) (Q : B → Prop) fuel n a :
  (∀ n a, I n a → ∃ r, body a = Ok r ∧ match r with
     | inl a' => ∃ n', I n' a' ∧ (n' < n)%nat
     | inr b => Q b end) →
  I n a → (n < fuel)%nat → ∃ b, oloop fuel body a = Ok b ∧ Q b.
Proof.
  intros Hb. revert n a. induction fuel as [|f IH]; intros n a HI Hn; [lia|]. simpl.
  destruct (Hb n a HI) as ([a'|b] & -> & Hr); cbn [mbind outcome_bind mret outcome_ret]; [|eauto].
  destruct Hr as (n' & HI' & Hlt). apply (IH n'); [done|lia].
Qed.

(** The invariant of a fold says what was consumed. *)
Lemma ofold_ok {X A} (I : list X → A → Prop) (f : A → X → outcome E A) a l :
  I [] a →
  (∀ pre x a, pre ++ [x] `prefix_of` l → I pre a → ∃ a', f a x = Ok a' ∧ I (pre ++ [x]) a') →
  ∃ a', ofold f a l = Ok a' ∧ I l a'.
Proof.
  intros HI Hf. assert (∀ pre a, I pre a → ∀ rest, pre ++ rest = l →
    ∃ a', ofold f a rest = Ok a' ∧ I l a') as Hgen.
  { intros pre b Hb rest. revert pre b Hb. induction rest as [|x rest IH]; intros pre b Hb Heq; simpl.
    - rewrite app_nil_r in Heq. subst. eauto.
    - destruct (Hf pre x b) as (b' & -> & Hb'); [|done|].
      { exists rest. by rewrite <- app_assoc. }
      apply (IH _ _ Hb'). by rewrite <- app_assoc. }
  by apply (Hgen [] a).
Qed.
End pure_loops.

(** ** Simulation

    [sim abs m m']: [m] on a concrete state and [m'] on the abstract state give
    the same result and end in related states. *)

Definition sim {T U} (abs : T → U) {E A} (m : M T E A) (m' : M U E A) : Prop :=
  ∀ s, m' (abs s) = (fst (m s), abs (snd (m s))).

Create HintDb sim discriminated.

Section sim_rules.
Context {T U : Type} (abs : T → U).

Lemma sim_ret {E A} (a : A) : sim abs (E:=E) (mret a) (mret a).
Proof. done. Qed.
Lemma sim_lift {E A} (o : outcome E A) : sim abs (lift o) (lift o).
Proof. done. Qed.
Lemma sim_fail {E A} (e : E) : sim abs (A:=A) (fail e) (fail e).
Proof. done. Qed.
Lemma sim_bind {E A B} (m : M T E A) m' (k : A → M T E B) k' :
  sim abs m m' → (∀ a, sim abs (k a) (k' a)) → sim abs (m ≫= k) (m' ≫= k').
Proof.
  intros Hm Hk s. unfold mbind, M_bind. rewrite Hm.
  destruct (m s) as [[a| | |] s1]; simpl; [apply Hk|done..].
Qed.
Lemma sim_fmap {E A B} (f : A → B) (m : M T E A) m' :
  sim abs m m' → sim abs (f <$> m) (f <$> m').
Proof. intros. unfold fmap, M_fmap. apply sim_bind; [done|]. intros; apply sim_ret. Qed.
Lemma sim_map_err {E E' A} (f : E → E') (m : M T E A) m' :
  sim abs m m' → sim abs (map_err f m) (map_err f m').
Proof. intros Hm s. unfold map_err. rewrite Hm. by destruct (m s). Qed.
Lemma sim_loop {E A B} fuel (body : A → M T E (A + B)) body' a :
  (∀ a, sim abs (body a) (body' a)) → sim abs (loop fuel body a) (loop fuel body' a).
Proof.
  intros Hb. revert a. induction fuel as [|n IH]; intros a; [done|]. simpl.
  apply sim_bind; [done|]. intros [?|?]; [apply IH|apply sim_ret].
Qed.
Lemma sim_for_each {E X} (l : list X) (f : X → M T E unit) f' :
  (∀ x, sim abs (f x) (f' x)) → sim abs (for_each l f) (for_each l f').
Proof.
  intros Hf. induction l as [|x l IH]; simpl; [apply sim_ret|]. by apply sim_bind.
Qed.
Lemma sim_for_fold {E X A} (l : list X) (f : A → X → M T E A) f' a :
  (∀ a x, sim abs (f a x) (f' a x)) → sim abs (for_fold l f a) (for_fold l f' a).
Proof.
  intros Hf. revert a. induction l as [|x l IH]; intros a; simpl; [apply sim_ret|].
  by apply sim_bind.
Qed.
Lemma sim_map_each {E X Y} (l : list X) (f : X → M T E Y) f' :
  (∀ x, sim abs (f x) (f' x)) → sim abs (map_each l f) (map_each l f').
Proof.
  intros Hf. induction l as [|x l IH]; simpl; [apply sim_ret|].
  apply sim_bind; [done|]. intros y. apply sim_bind; [done|]. intros; apply sim_ret.
Qed.
End sim_rules.

#[export] Hint Resolve sim_ret sim_lift sim_fail sim_bind sim_fmap sim_map_err
  sim_loop sim_for_each sim_for_fold sim_map_each : sim.

(** ** Hint databases and tactics *)

Create HintDb kaspa discriminated.
#[export] Hint Resolve runs_ret runs_get : kaspa.

(** Reduce checked arithmetic whose operands are known to stay in range. *)
Lemma checked_ok {E} max z : 0 ≤ z ≤ max → checked (E:=E) max z = Ok z.
Proof.
  intros [??]. unfold checked.
  by rewrite (proj2 (Z.leb_le 0 z)), (proj2 (Z.leb_le z max)).
Qed.
Lemma checked_inv {E} max z r : checked (E:=E) max z = Ok r → r = z ∧ 0 ≤ z ≤ max.
Proof.
  unfold checked. destruct (Z.leb_spec 0 z), (Z.leb_spec z max); simpl; intros [=]; subst; lia.
Qed.
Lemma ok_inj {E A} (x y : A) : Ok (E:=E) x = Ok y → x = y.
Proof. by intros [= ->]. Qed.

Lemma add64_ok {E} a b : 0 ≤ a + b ≤ u64_max → add64 (E:=E) a b = Ok (a + b).
Proof. apply checked_ok. Qed.
Lemma sub64_ok {E} a b : 0 ≤ a - b ≤ u64_max → sub64 (E:=E) a b = Ok (a - b).
Proof. apply checked_ok. Qed.
Lemma mul64_ok {E} a b : 0 ≤ a * b ≤ u64_max → mul64 (E:=E) a b = Ok (a * b).
Proof. apply checked_ok. Qed.

Ltac zify_u64 := unfold u64_ok, u64_max, u32_max, u16_max, u8_max in *.

(** One step of forward execution of a pure computation: the checked operation
    at the head is in range. *)
Ltac step_arith :=
  first
    [ rewrite add64_ok by (zify_u64; lia)
    | rewrite sub64_ok by (zify_u64; lia)
    | rewrite mul64_ok by (zify_u64; lia) ];
  cbn [mbind outcome_bind mret outcome_ret].

(** Turn boolean comparisons of [Z] in the context into propositions. *)
(** Linear arithmetic with division and remainder by constants. *)
Ltac euclid := Z.to_euclidean_division_equations; lia.

Ltac zbool :=
  repeat match goal with
  | H : (_ <=? _) = true |- _ => apply Z.leb_le in H
  | H : (_ <=? _) = false |- _ => apply Z.leb_gt in H
  | H : (_ <? _) = true |- _ => apply Z.ltb_lt in H
  | H : (_ <? _) = false |- _ => apply Z.ltb_ge in H
  | H : (_ =? _) = true |- _ => apply Z.eqb_eq in H
  | H : (_ =? _) = false |- _ => apply Z.eqb_neq in H
  | H : (_ && _)%bool = true |- _ => apply andb_true_iff in H as [? ?]
  | H : (_ || _)%bool = false |- _ => apply orb_false_iff in H as [? ?]
  end.

(** ** Lists *)

Lemma fmap_self {A} (f : A → A) (l : list A) : (∀ x, x ∈ l → f x = x) → f <$> l = l.
Proof.
  intros Hf. rewrite <- (list_fmap_id l) at 2. apply list_fmap_ext.
  intros i x Hx%list_elem_of_lookup_2. by apply Hf.
Qed.

(** ** Sums *)

Lemma zsum_cons x l : zsum (x :: l) = x + zsum l.
Proof. done. Qed.
Lemma zsum_app l k : zsum (l ++ k) = zsum l + zsum k.
Proof. induction l; simpl; lia. Qed.
Lemma zsum_nonneg l : Forall (λ x, 0 ≤ x) l → 0 ≤ zsum l.
Proof. induction 1; simpl; lia. Qed.

Lemma sum64_from_ok {E} acc l :
  Forall (λ x, 0 ≤ x) l → 0 ≤ acc → acc + zsum l ≤ u64_max →
  sum64_from (E:=E) acc l = Ok (acc + zsum l).
Proof.
  revert acc. induction l as [|x l IH]; intros acc Hl ? Hmax; simpl in *.
  - by rewrite Z.add_0_r.
  - inversion Hl as [|?? Hx Hl']; subst. pose proof (zsum_nonneg l Hl').
    step_arith. rewrite IH by (auto; lia). f_equal; lia.
Qed.
Lemma sum64_ok {E} l :
  Forall (λ x, 0 ≤ x) l → zsum l ≤ u64_max → sum64 (E:=E) l = Ok (zsum l).
Proof. intros. unfold sum64. by rewrite sum64_from_ok by (auto; lia). Qed.
