(* ===== verification/Hash.v ===== *)
(** * Block hashes

    [crypto/hashes/src/lib.rs] ([Hash] and its order) and
    [consensus/core/src/blockhash.rs] (the reserved hashes). *)

From S2P Require Import Prelude.

(** A [Hash] is an array of 32 bytes; it is represented by the number the bytes
    spell in big-endian order, so that the derived lexicographic order of the
    arrays is the order of the numbers (see [of_bytes_lt]). *)
Definition Hash : Type := N.

#[global] Instance Hash_eq_dec : EqDecision Hash := _.
#[global] Instance Hash_countable : Countable Hash := _.

Module Hashes.

Definition HASH_SIZE : nat := 32.

(** [Hash::from_bytes]: the accumulated big-endian value. *)
Definition of_bytes_from (acc : N) (bytes : list N) : N :=
  foldl (λ a b, a * 256 + b)%N acc bytes.
Definition from_bytes (bytes : list N) : Hash := of_bytes_from 0 bytes.

(** [Hash::as_bytes]. *)
Fixpoint to_bytes (n : nat) (h : N) : list N :=
  match n with
  | O => []
  | S n' => to_bytes n' (h / 256)%N ++ [(h mod 256)%N]
  end.
Definition as_bytes (h : Hash) : list N := to_bytes HASH_SIZE h.

(** [Hash::from_slice]: the length is checked. *)
Definition from_slice {E} (bytes : list N) : outcome E Hash :=
  if (length bytes =? HASH_SIZE)%nat then Ok (from_bytes bytes) else Panic.

(** A [u64] as its eight little-endian bytes, and back. *)
Fixpoint le_bytes (n : nat) (w : N) : list N :=
  match n with
  | O => []
  | S n' => (w mod 256)%N :: le_bytes n' (w / 256)%N
  end.
Fixpoint of_le_bytes (bytes : list N) : N :=
  match bytes with
  | [] => 0
  | b :: bytes' => b + 256 * of_le_bytes bytes'
  end%N.

(** [chunks_exact(8)] on the 32 bytes. *)
Definition chunks8 (bytes : list N) : list (list N) :=
  [take 8 bytes; take 8 (drop 8 bytes); take 8 (drop 16 bytes); take 8 (drop 24 bytes)].
Definition to_le_u64 (h : Hash) : list N := of_le_bytes <$> chunks8 (as_bytes h).
Definition from_le_u64 (arr : list N) : Hash := from_bytes (mjoin (le_bytes 8 <$> arr)).
Definition from_u64_word (word : N) : Hash := from_le_u64 [0; 0; 0; word]%N.

(** The derived [Ord]: lexicographic on the bytes. *)
Fixpoint lex_compare (l k : list N) : comparison :=
  match l, k with
  | [], [] => Eq
  | [], _ => Lt
  | _, [] => Gt
  | a :: l', b :: k' => match (a ?= b)%N with Eq => lex_compare l' k' | c => c end
  end.
Definition cmp (a b : Hash) : comparison := (a ?= b)%N.

(** ** Reserved hashes *)
Definition NONE : Hash := from_bytes (replicate HASH_SIZE 0%N).
Definition VIRTUAL : Hash := from_bytes (replicate HASH_SIZE 255%N).
Definition ORIGIN : Hash := from_bytes (replicate HASH_SIZE 254%N).

Definition is_none (h : Hash) : bool := bool_decide (h = NONE).
Definition is_virtual (h : Hash) : bool := bool_decide (h = VIRTUAL).
Definition is_origin (h : Hash) : bool := bool_decide (h = ORIGIN).

(** ** The representation *)

Definition bytes_ok (l : list N) : Prop := Forall (λ b, (b < 256)%N) l.

Lemma of_bytes_from_snoc acc l b :
  of_bytes_from acc (l ++ [b]) = (of_bytes_from acc l * 256 + b)%N.
Proof. unfold of_bytes_from. by rewrite foldl_app. Qed.

Lemma pow_length_snoc (l : list N) b :
  (256 ^ N.of_nat (length (l ++ [b])) = 256 * 256 ^ N.of_nat (length l))%N.
Proof.
  rewrite length_app. simpl. rewrite Nat.add_1_r, Nat2N.inj_succ. apply N.pow_succ_r'.
Qed.

Lemma of_bytes_from_lin acc l :
  of_bytes_from acc l = (acc * 256 ^ N.of_nat (length l) + of_bytes_from 0 l)%N.
Proof.
  revert acc. induction l as [|b l IH] using rev_ind; intros acc.
  { cbn. rewrite N.mul_1_r. lia. }
  rewrite !of_bytes_from_snoc, pow_length_snoc, (IH acc). ring.
Qed.

Lemma from_bytes_bound l :
  bytes_ok l → ((from_bytes l : N) < 256 ^ N.of_nat (length l))%N.
Proof.
  unfold from_bytes. induction l as [|b l IH] using rev_ind; [done|].
  intros [Hl Hb]%Forall_app. apply (proj1 (Forall_singleton _ _)) in Hb. simpl in Hb.
  rewrite of_bytes_from_snoc, pow_length_snoc. specialize (IH Hl). lia.
Qed.

Lemma to_bytes_from_bytes l :
  bytes_ok l → to_bytes (length l) (from_bytes l) = l.
Proof.
  unfold from_bytes. induction l as [|b l IH] using rev_ind; [done|].
  intros [Hl Hb]%Forall_app. apply (proj1 (Forall_singleton _ _)) in Hb. simpl in Hb.
  rewrite of_bytes_from_snoc, length_app, Nat.add_comm. simpl.
  rewrite N.div_add_l, (N.div_small b), N.add_0_r by lia.
  rewrite (N.add_comm _ b), N.Div0.mod_add, N.mod_small by lia. by rewrite IH.
Qed.

Lemma length_to_bytes n h : length (to_bytes n h) = n.
Proof. revert h. induction n; intros h; simpl; [done|]. rewrite length_app, IHn. simpl. lia. Qed.

Lemma to_bytes_ok n h : bytes_ok (to_bytes n h).
Proof.
  revert h. induction n as [|n IH]; intros h; simpl; [constructor|].
  apply Forall_app; split; [apply IH|]. apply Forall_singleton, N.mod_lt. lia.
Qed.

Lemma from_bytes_to_bytes n h : (h < 256 ^ N.of_nat n)%N → from_bytes (to_bytes n h) = h.
Proof.
  revert h. induction n as [|n IH]; intros h Hh; [apply N.lt_1_r in Hh; by subst|].
  simpl to_bytes. unfold from_bytes in *. rewrite of_bytes_from_snoc.
  rewrite Nat2N.inj_succ, N.pow_succ_r' in Hh.
  rewrite IH by (apply N.Div0.div_lt_upper_bound; lia).
  simpl. pose proof (N.div_mod h 256). lia.
Qed.

Lemma from_bytes_cons a l : from_bytes (a :: l) = of_bytes_from a l.
Proof. done. Qed.

Lemma lex_compare_from_bytes l k :
  length l = length k → bytes_ok l → bytes_ok k →
  lex_compare l k = (from_bytes l ?= from_bytes k)%N.
Proof.
  revert k. induction l as [|a l IH]; intros [|b k] Hlen Hl Hk; try done.
  injection Hlen as Hlen. apply Forall_cons_1 in Hl as [Ha Hl].
  apply Forall_cons_1 in Hk as [Hb Hk].
  rewrite !from_bytes_cons, (of_bytes_from_lin a l), (of_bytes_from_lin b k), Hlen.
  pose proof (from_bytes_bound l Hl) as Bl. pose proof (from_bytes_bound k Hk) as Bk.
  rewrite Hlen in Bl. simpl. rewrite (IH k Hlen Hl Hk). unfold from_bytes in *.
  set (p := (256 ^ N.of_nat (length k))%N) in *.
  set (x := of_bytes_from 0 l) in *. set (y := of_bytes_from 0 k) in *.
  destruct (N.compare_spec a b) as [->|Hlt|Hgt].
  - destruct (N.compare_spec x y), (N.compare_spec (b * p + x) (b * p + y)); auto; lia.
  - symmetry. apply N.compare_lt_iff. nia.
  - symmetry. apply N.compare_gt_iff. nia.
Qed.

(** The numeric representation of hashes is faithful: reading 32 bytes as a
    number and writing it back is the identity in both directions, and the order
    of the numbers is the lexicographic order of the byte arrays, which is the
    order the derived [Ord] gives the blocks. *)
Theorem hash_representation :
  (∀ l, length l = HASH_SIZE → bytes_ok l → as_bytes (from_bytes l) = l)
  ∧ (∀ h, (h < 256 ^ 32)%N → from_bytes (as_bytes h) = h)
  ∧ (∀ a b, (a < 256 ^ 32)%N → (b < 256 ^ 32)%N →
       cmp a b = lex_compare (as_bytes a) (as_bytes b)).
Proof.
  unfold as_bytes, cmp. split_and!.
  - intros l <-. apply to_bytes_from_bytes.
  - intros h. apply (from_bytes_to_bytes 32).
  - intros a b Ha Hb.
    rewrite lex_compare_from_bytes by (rewrite ?length_to_bytes; auto using to_bytes_ok).
    by rewrite !(from_bytes_to_bytes HASH_SIZE).
Qed.

End Hashes.
