(* ===== verification/Uint.v ===== *)
(** * Fixed-width unsigned integers

    [math/src/uint.rs]: the types that [construct_uint!] makes ([Uint192],
    [Uint256], [Uint320], [Uint3072]), on arrays of 64-bit limbs with the least
    significant limb first.  A value is the list of its limbs, and the number of
    limbs is a parameter.  [val] gives the number it stands for; the theorems show
    that the limb algorithms compute the arithmetic of that number. *)

From S2P Require Import Prelude.

(** ** Words *)

Definition B : Z := 2 ^ 64.

Definition word_ok (x : Z) : Prop := 0 ≤ x < B.

(** [u64::overflowing_add] and [u64::overflowing_sub]. *)
Definition word_add (a b : Z) : Z * bool := ((a + b) mod B, B <=? a + b).
Definition word_sub (a b : Z) : Z * bool := ((a - b) mod B, a - b <? 0).

(** [<<] and [>>] of a [u64] by less than 64. *)
Definition word_shl (a s : Z) : Z := (Z.shiftl a s) mod B.
Definition word_shr (a s : Z) : Z := Z.shiftr a s.
Definition word_not (a : Z) : Z := B - 1 - a.

(** [u64::leading_zeros]. *)
Definition leading_zeros (a : Z) : Z := if a =? 0 then 64 else 63 - Z.log2 a.

Module Uint.

(** The limbs, least significant first. *)
Definition Uint : Type := list Z.

Definition val (a : Uint) : Z := foldr (λ x acc, x + B * acc) 0 a.

(** [self.0[i]]; the accesses below are all in range. *)
Definition limb (a : Uint) (i : nat) : Z := nth i a 0.

(** A value of the type with [n] limbs. *)
Definition wf (n : nat) (a : Uint) : Prop := length a = n ∧ Forall word_ok a.

Section ops.
Context (n : nat).  (* [LIMBS] *)

Definition ZERO : Uint := replicate n 0.
Definition MAX : Uint := replicate n (B - 1).
Definition BITS : Z := 64 * Z.of_nat n.

Definition from_u64 (x : Z) : Uint := <[0%nat := x]> ZERO.
Definition from_u128 (x : Z) : Uint := <[1%nat := Z.shiftr x 64]> (<[0%nat := x mod B]> ZERO).
Definition as_u128 (a : Uint) : Z := Z.lor (limb a 0%nat) (Z.shiftl (limb a 1%nat) 64).
Definition as_u64 (a : Uint) : Z := limb a 0%nat.
Definition is_zero (a : Uint) : bool := forallb (λ x, x =? 0) a.

(** The scan for the highest non-zero limb, from limb [i] downwards. *)
Fixpoint bits_from (a : Uint) (i : nat) : Z :=
  match i with
  | O => 0
  | S i' =>
      let word := limb a i' in
      if negb (word =? 0) then 64 * (Z.of_nat i' + 1) - leading_zeros word else bits_from a i'
  end.
Definition bits (a : Uint) : Z := bits_from a n.

(** Limb [i] of the shifted arrays. *)
Definition shl_limb (a : Uint) (left_words : nat) (left_shifts : Z) (i : nat) : Z :=
  let ret := if (left_words <=? i)%nat then word_shl (limb a (i - left_words)%nat) left_shifts else 0 in
  if (0 <? left_shifts) && (left_words + 1 <=? i)%nat then
    Z.lor ret (word_shr (limb a (i - 1 - left_words)%nat) (64 - left_shifts))
  else ret.
Definition overflowing_shl (a : Uint) (s : Z) : Uint * bool :=
  let overflows := BITS <=? s in
  let s := s mod BITS in
  (shl_limb a (Z.to_nat (s / 64)) (s mod 64) <$> seq 0 n, overflows).
Definition wrapping_shl (a : Uint) (s : Z) : Uint := fst (overflowing_shl a s).

Definition shr_limb (a : Uint) (left_words : nat) (left_shifts : Z) (i : nat) : Z :=
  let ret := if (i + left_words <? n)%nat then word_shr (limb a (i + left_words)%nat) left_shifts else 0 in
  if (0 <? left_shifts) && (i + left_words + 1 <? n)%nat then
    Z.lor ret (word_shl (limb a (i + left_words + 1)%nat) (64 - left_shifts))
  else ret.
Definition overflowing_shr (a : Uint) (s : Z) : Uint * bool :=
  let overflows := BITS <=? s in
  let s := s mod BITS in
  (shr_limb a (Z.to_nat (s / 64)) (s mod 64) <$> seq 0 n, overflows).

Definition carrying_add_u64 (lhs rhs : Z) (carry : bool) : Z * bool :=
  let '(a, b) := word_add lhs rhs in
  let '(c, d) := word_add a (Z.b2z carry) in
  (c, negb (eqb b d)).
Fixpoint add_limbs (a b : Uint) (carry : bool) : Uint * bool :=
  match a, b with
  | x :: a', y :: b' =>
      let '(z, carry_out) := carrying_add_u64 x y carry in
      let '(r, c) := add_limbs a' b' carry_out in (z :: r, c)
  | _, _ => (a, carry)
  end.
Definition overflowing_add (a b : Uint) : Uint * bool := add_limbs a b false.

(** The carry after the first limb ripples while it is set. *)
Fixpoint ripple (a : Uint) (carry : bool) : Uint * bool :=
  match a with
  | x :: a' =>
      if negb carry then (a, carry)
      else let '(z, c) := word_add x 1 in let '(r, c') := ripple a' c in (z :: r, c')
  | [] => ([], carry)
  end.
Definition overflowing_add_u64 (a : Uint) (other : Z) : Uint * bool :=
  match a with
  | x :: a' => let '(z, c) := word_add x other in let '(r, c') := ripple a' c in (z :: r, c')
  | [] => ([], false)
  end.

Definition borrowing_sub_u64 (lhs rhs : Z) (borrow : bool) : Z * bool :=
  let '(a, b) := word_sub lhs rhs in
  let '(c, d) := word_sub a (Z.b2z borrow) in
  (c, negb (eqb b d)).
Fixpoint sub_limbs (a b : Uint) (borrow : bool) : Uint * bool :=
  match a, b with
  | x :: a', y :: b' =>
      let '(z, borrow_out) := borrowing_sub_u64 x y borrow in
      let '(r, c) := sub_limbs a' b' borrow_out in (z :: r, c)
  | _, _ => (a, borrow)
  end.
Definition overflowing_sub (a b : Uint) : Uint * bool := sub_limbs a b false.

Fixpoint mul_u64_limbs (a : Uint) (other carry : Z) : Uint * Z :=
  match a with
  | x :: a' =>
      let m := carry + other * x in
      let '(r, c) := mul_u64_limbs a' other (Z.land (Z.shiftr m 64) u64_max) in
      (m mod B :: r, c)
  | [] => ([], carry)
  end.
Definition carrying_mul_u64 (a : Uint) (other : Z) : Uint * Z := mul_u64_limbs a other 0.
Definition overflowing_mul_u64 (a : Uint) (other : Z) : Uint * bool :=
  let '(this, carry) := carrying_mul_u64 a other in (this, negb (carry =? 0)).

(** The [while] loop for one limb [y] of [other]: [res] is [result[j..]]. *)
Fixpoint mul_row (a : Uint) (y : Z) (res : Uint) (carry : Z) : Uint * Z :=
  match res, a with
  | r :: res', x :: a' =>
      let m := x * y + r + carry in
      let '(l, c) := mul_row a' y res' (Z.shiftr m 64) in (m mod B :: l, c)
  | _, _ => (res, carry)
  end.
(** The [for j] loop; row [j] leaves [result[..j]] as it is. *)
Fixpoint mul_rows (a other res : Uint) (carry_out : bool) : Uint * bool :=
  match other with
  | y :: other' =>
      let '(res', carry) := mul_row a y res 0 in
      let carry_out := carry_out || negb (carry =? 0) in
      match res' with
      | r :: rest => let '(l, c) := mul_rows a other' rest carry_out in (r :: l, c)
      | [] => ([], carry_out)
      end
  | [] => (res, carry_out)
  end.
Definition overflowing_mul (a other : Uint) : Uint * bool := mul_rows a other ZERO false.

(** From the most significant limb down. *)
Fixpoint div_rem_u64_limbs (a : Uint) (other : Z) : Uint * Z :=
  match a with
  | [] => ([], 0)
  | d :: a' =>
      let '(q, rem) := div_rem_u64_limbs a' other in
      let m := Z.lor (Z.shiftl rem 64) d in
      ((m / other) mod B :: q, (m mod other) mod B)
  end.
(** A division by zero of a [u128] panics. *)
Definition div_rem_u64 {E} (a : Uint) (other : Z) : outcome E (Uint * Z) :=
  if (other =? 0) && negb (n =? 0)%nat then Panic else Ok (div_rem_u64_limbs a other).

(** [Ord]: [Iterator::cmp] of the limbs, most significant first. *)
Fixpoint lex_cmp (a b : list Z) : comparison :=
  match a, b with
  | [], [] => Eq
  | [], _ => Lt
  | _, [] => Gt
  | x :: a', y :: b' => match x ?= y with Eq => lex_cmp a' b' | c => c end
  end.
Definition cmp (a b : Uint) : comparison := lex_cmp (reverse a) (reverse b).
Definition ge (a b : Uint) : bool := match cmp a b with Lt => false | _ => true end.

(** The operators: the debug assertions are on. *)
Definition checked_op {E A} (r : A * bool) : outcome E A :=
  if snd r then Panic else Ok (fst r).
Definition add {E} (a b : Uint) : outcome E Uint := checked_op (overflowing_add a b).
Definition add_u64 {E} (a : Uint) (b : Z) : outcome E Uint := checked_op (overflowing_add_u64 a b).
Definition sub {E} (a b : Uint) : outcome E Uint := checked_op (overflowing_sub a b).
Definition mul {E} (a b : Uint) : outcome E Uint := checked_op (overflowing_mul a b).
Definition mul_u64 {E} (a : Uint) (b : Z) : outcome E Uint := checked_op (overflowing_mul_u64 a b).
Definition shl {E} (a : Uint) (s : Z) : outcome E Uint := checked_op (overflowing_shl a s).
Definition shr {E} (a : Uint) (s : Z) : outcome E Uint := checked_op (overflowing_shr a s).

(** The long division: one bit of the quotient, and the loop for the shifts from
    [shift] down to 0. *)
Definition div_step {E} (shift : nat) (sub_copy shift_copy ret : Uint) : outcome E (Uint * Uint) :=
  if ge sub_copy shift_copy then
    let shift_index := (shift / 64)%nat in
    let shift_val := Z.of_nat (shift mod 64)%nat in
    let ret := <[shift_index := Z.lor (limb ret shift_index) (Z.shiftl 1 shift_val)]> ret in
    sub_copy ← sub sub_copy shift_copy; mret (ret, sub_copy)
  else mret (ret, sub_copy).
Fixpoint div_loop {E} (shift : nat) (sub_copy shift_copy ret : Uint) : outcome E (Uint * Uint) :=
  '(ret, sub_copy) ← div_step shift sub_copy shift_copy ret;
  shift_copy ← shr shift_copy 1;
  match shift with
  | O => mret (ret, sub_copy)
  | S shift' => div_loop shift' sub_copy shift_copy ret
  end.
Definition div_rem {E} (a other : Uint) : outcome E (Uint * Uint) :=
  let my_bits := bits a in
  let your_bits := bits other in
  assert (negb (your_bits =? 0));;
  if my_bits <? your_bits then mret (ZERO, a)
  else
    let shift := my_bits - your_bits in
    shift_copy ← shl other shift;
    div_loop (Z.to_nat shift) a shift_copy ZERO.

Definition div {E} (a b : Uint) : outcome E Uint := '(q, _) ← div_rem a b; mret q.
Definition rem {E} (a b : Uint) : outcome E Uint := '(_, r) ← div_rem a b; mret r.
Definition div_u64 {E} (a : Uint) (b : Z) : outcome E Uint := '(q, _) ← div_rem_u64 a b; mret q.
Definition rem_u64 {E} (a : Uint) (b : Z) : outcome E Z := '(_, r) ← div_rem_u64 a b; mret r.

Definition bitand (a b : Uint) : Uint := zip_with Z.land a b.
Definition bitxor (a b : Uint) : Uint := zip_with Z.lxor a b.
Definition bitor (a b : Uint) : Uint := zip_with Z.lor a b.
Definition not (a : Uint) : Uint := word_not <$> a.

(** [Sum] and [Product]. *)
Fixpoint fold_op {E} (op : Uint → Uint → outcome E Uint) (first : Uint) (l : list Uint)
    : outcome E Uint :=
  match l with
  | [] => mret first
  | b :: l' => s ← op first b; fold_op op s l'
  end.
Definition sum {E} (l : list Uint) : outcome E Uint :=
  match l with [] => mret ZERO | first :: l' => fold_op add first l' end.
Definition product {E} (l : list Uint) : outcome E Uint :=
  match l with [] => mret (from_u64 1) | first :: l' => fold_op mul first l' end.

(** Comparisons with [u64] and [u128]. *)
Definition eq_u64 (a : Uint) (other : Z) : bool :=
  let bigger := existsb (λ x, negb (x =? 0)) (drop 1 a) in
  negb bigger && (limb a 0%nat =? other).
Definition cmp_u64 (a : Uint) (other : Z) : comparison :=
  let bigger := existsb (λ x, negb (x =? 0)) (drop 1 a) in
  if bigger then Gt else limb a 0%nat ?= other.
Definition eq_u128 (a : Uint) (other : Z) : bool :=
  let bigger := existsb (λ x, negb (x =? 0)) (drop 2 a) in
  negb bigger && (limb a 0%nat =? other mod B) && (limb a 1%nat =? Z.shiftr other 64).
Definition cmp_u128 (a : Uint) (other : Z) : comparison :=
  let bigger := existsb (λ x, negb (x =? 0)) (drop 2 a) in
  if bigger then Gt else as_u128 a ?= other.

Inductive TryFromIntError : Type := OutOfRange.
Definition try_into_u128 (a : Uint) : outcome TryFromIntError Z :=
  if existsb (λ x, negb (x =? 0)) (drop 2 a) then Err OutOfRange else Ok (as_u128 a).

(** Bytes. *)
Fixpoint le_bytes (k : nat) (w : Z) : list Z :=
  match k with O => [] | S k' => w mod 256 :: le_bytes k' (w / 256) end.
Fixpoint of_le_bytes (l : list Z) : Z :=
  match l with [] => 0 | b :: l' => b + 256 * of_le_bytes l' end.
(** [chunks_exact(8)], [k] of them. *)
Fixpoint chunks_exact (k : nat) (l : list Z) : list (list Z) :=
  match k with O => [] | S k' => take 8 l :: chunks_exact k' (drop 8 l) end.
Definition to_le_bytes (a : Uint) : list Z := mjoin (le_bytes 8 <$> a).
Definition from_le_bytes (bytes : list Z) : Uint := of_le_bytes <$> chunks_exact n bytes.
Definition to_be_bytes (a : Uint) : list Z := mjoin ((reverse ∘ le_bytes 8) <$> reverse a).
Definition from_be_bytes (bytes : list Z) : Uint :=
  reverse ((of_le_bytes ∘ reverse) <$> chunks_exact n bytes).

(** [iter_be_bits]: bit [i], from the most significant. *)
Definition be_bit (a : Uint) (i : nat) : bool :=
  let word := (i / 64)%nat in
  let subbit := Z.of_nat (i mod 64) in
  negb (Z.land (limb a (n - word - 1)%nat) (Z.shiftl 1 (64 - subbit - 1)) =? 0).
Definition iter_be_bits (a : Uint) : list bool := be_bit a <$> seq 0 (64 * n).
End ops.

(** ** Words and values *)

Lemma B_val : B = 18446744073709551616.
Proof. done. Qed.
Ltac words := unfold word_ok in *; rewrite ?B_val in *; Z.to_euclidean_division_equations; lia.

Lemma val_cons x a : val (x :: a) = x + B * val a.
Proof. done. Qed.

Lemma pow_S (k : nat) : B ^ Z.of_nat (S k) = B * B ^ Z.of_nat k.
Proof. rewrite Nat2Z.inj_succ, Z.pow_succ_r by lia. done. Qed.
Lemma pow_0 : B ^ Z.of_nat 0 = 1.
Proof. done. Qed.
Lemma pow_pos (k : nat) : 0 < B ^ Z.of_nat k.
Proof. apply Z.pow_pos_nonneg; [done|lia]. Qed.

Lemma val_bound a : Forall word_ok a → 0 ≤ val a < B ^ Z.of_nat (length a).
Proof.
  induction 1 as [|x a Hx _ IH]; [done|]. rewrite val_cons. cbn [length]. rewrite pow_S.
  revert IH. generalize (B ^ Z.of_nat (length a)) (val a). intros P v Hv. words.
Qed.

Lemma val_app a b : val (a ++ b) = val a + B ^ Z.of_nat (length a) * val b.
Proof.
  induction a as [|x a IH]; cbn [app length].
  - rewrite pow_0. change (val []) with 0. lia.
  - rewrite !val_cons, IH, pow_S. ring.
Qed.

Lemma wf_cons k x a : wf (S k) (x :: a) ↔ word_ok x ∧ wf k a.
Proof. unfold wf. simpl. rewrite Forall_cons. naive_solver lia. Qed.

Lemma wf_zero k : wf k (ZERO k).
Proof. split; [apply length_replicate|]. apply Forall_replicate. done. Qed.

Lemma val_zero k : val (ZERO k) = 0.
Proof. induction k as [|k IH]; [done|]. unfold ZERO in *. cbn [replicate]. rewrite val_cons, IH. done. Qed.

Lemma val_inj k a b : wf k a → wf k b → val a = val b → a = b.
Proof.
  revert a b. induction k as [|k IH]; intros [|x a] [|y b] Ha Hb Hv;
    try (by destruct Ha as [? _]); try (by destruct Hb as [? _]).
  apply wf_cons in Ha as [Hx Ha], Hb as [Hy Hb]. rewrite !val_cons in Hv.
  assert (x = y ∧ val a = val b) as [-> Hab] by words. f_equal. by apply IH.
Qed.

(** ** Addition and subtraction *)

Lemma carrying_add_ok x y c z d :
  word_ok x → word_ok y → carrying_add_u64 x y c = (z, d) →
  word_ok z ∧ z + B * Z.b2z d = x + y + Z.b2z c.
Proof.
  intros Hx Hy. unfold carrying_add_u64, word_add. intros [= <- <-].
  destruct c, (B <=? x + y) eqn:E1; simpl Z.b2z;
    match goal with |- context [B <=? ?e] => destruct (B <=? e) eqn:E2 end; zbool; simpl; words.
Qed.

Lemma add_limbs_ok a b c r d :
  length a = length b → Forall word_ok a → Forall word_ok b → add_limbs a b c = (r, d) →
  wf (length a) r ∧ val r + B ^ Z.of_nat (length a) * Z.b2z d = val a + val b + Z.b2z c.
Proof.
  revert b c r d. induction a as [|x a IH]; intros [|y b] c r d Hl Ha Hb; try done.
  - intros [= <- <-]. split; [by split|]. cbn [length]. rewrite pow_0. change (val []) with 0. lia.
  - cbn [add_limbs length]. apply Forall_cons in Ha as [Hx Ha], Hb as [Hy Hb].
    destruct (carrying_add_u64 x y c) as [z co] eqn:Ez. destruct (add_limbs a b co) as [r' d'] eqn:Er.
    intros [= <- <-]. destruct (carrying_add_ok _ _ _ _ _ Hx Hy Ez) as [Hz Hzc].
    destruct (IH b co r' d') as [Hr Hv]; [simpl in Hl; lia|done..|].
    split; [by apply wf_cons|]. rewrite !val_cons, pow_S. revert Hv. generalize (B ^ Z.of_nat (length a)). intros; nia.
Qed.

Lemma borrowing_sub_ok x y c z d :
  word_ok x → word_ok y → borrowing_sub_u64 x y c = (z, d) →
  word_ok z ∧ z - B * Z.b2z d = x - y - Z.b2z c.
Proof.
  intros Hx Hy. unfold borrowing_sub_u64, word_sub. intros [= <- <-].
  destruct c, (x - y <? 0) eqn:E1; simpl Z.b2z;
    match goal with |- context [?e <? 0] => destruct (e <? 0) eqn:E2 end; zbool; simpl; words.
Qed.

Lemma sub_limbs_ok a b c r d :
  length a = length b → Forall word_ok a → Forall word_ok b → sub_limbs a b c = (r, d) →
  wf (length a) r ∧ val r - B ^ Z.of_nat (length a) * Z.b2z d = val a - val b - Z.b2z c.
Proof.
  revert b c r d. induction a as [|x a IH]; intros [|y b] c r d Hl Ha Hb; try done.
  - intros [= <- <-]. split; [by split|]. cbn [length]. rewrite pow_0. change (val []) with 0. lia.
  - cbn [sub_limbs length]. apply Forall_cons in Ha as [Hx Ha], Hb as [Hy Hb].
    destruct (borrowing_sub_u64 x y c) as [z co] eqn:Ez. destruct (sub_limbs a b co) as [r' d'] eqn:Er.
    intros [= <- <-]. destruct (borrowing_sub_ok _ _ _ _ _ Hx Hy Ez) as [Hz Hzc].
    destruct (IH b co r' d') as [Hr Hv]; [simpl in Hl; lia|done..|].
    split; [by apply wf_cons|]. rewrite !val_cons, pow_S. revert Hv. generalize (B ^ Z.of_nat (length a)). intros; nia.
Qed.

Lemma ripple_ok a c r d :
  Forall word_ok a → ripple a c = (r, d) →
  wf (length a) r ∧ val r + B ^ Z.of_nat (length a) * Z.b2z d = val a + Z.b2z c.
Proof.
  revert c r d. induction a as [|x a IH]; intros c r d Ha; cbn [ripple length].
  { intros [= <- <-]. split; [by split|]. cbn [length]. rewrite pow_0. change (val []) with 0. lia. }
  destruct c; cbn [negb].
  2: { intros [= <- <-]. split; [by split|]. cbn [Z.b2z]. lia. }
  apply Forall_cons in Ha as [Hx Ha]. unfold word_add.
  destruct (ripple a (B <=? x + 1)) as [r' d'] eqn:Er. intros [= <- <-].
  destruct (IH _ _ _ Ha Er) as [Hr Hv]. split; [apply wf_cons; split; [words|done]|].
  rewrite !val_cons, pow_S. destruct (B <=? x + 1) eqn:E; zbool; cbn [Z.b2z] in *;
    [assert ((x + 1) mod B = x + 1 - B) by words|assert ((x + 1) mod B = x + 1) by words]; lia.
Qed.

Lemma add_u64_limbs_ok k a y r d :
  wf (S k) a → word_ok y → overflowing_add_u64 a y = (r, d) →
  wf (S k) r ∧ val r + B ^ Z.of_nat (S k) * Z.b2z d = val a + y.
Proof.
  intros Ha Hy. destruct a as [|x a]; [by destruct Ha|]. apply wf_cons in Ha as [Hx [<- Ha]].
  cbn [overflowing_add_u64]. unfold word_add.
  destruct (ripple a (B <=? x + y)) as [r' d'] eqn:Er. intros [= <- <-].
  destruct (ripple_ok _ _ _ _ Ha Er) as [Hr Hv]. split; [apply wf_cons; split; [words|done]|].
  rewrite !val_cons, pow_S. destruct (B <=? x + y) eqn:E; zbool; cbn [Z.b2z] in *;
    [assert ((x + y) mod B = x + y - B) by words|assert ((x + y) mod B = x + y) by words]; lia.
Qed.

(** ** Multiplication *)

Lemma shiftr_B m : Z.shiftr m 64 = m / B.
Proof. by rewrite Z.shiftr_div_pow2. Qed.
Lemma land_word m : Z.land m u64_max = m mod B.
Proof. change u64_max with (Z.ones 64). by rewrite Z.land_ones. Qed.

Lemma divmod_B m : m = B * (m / B) + m mod B ∧ 0 ≤ m mod B < B.
Proof. split; [apply Z.div_mod; done|by apply Z.mod_pos_bound]. Qed.

Lemma mul_u64_limbs_ok a y c r d :
  Forall word_ok a → word_ok y → word_ok c → mul_u64_limbs a y c = (r, d) →
  wf (length a) r ∧ word_ok d ∧ val r + B ^ Z.of_nat (length a) * d = val a * y + c.
Proof.
  intros Ha Hy. revert c r d. induction Ha as [|x a Hx _ IH]; intros c r d Hc; cbn [mul_u64_limbs length].
  { intros [= <- <-]. rewrite pow_0. change (val []) with 0. split_and!; [by split|apply Hc..|lia]. }
  rewrite shiftr_B, land_word. set (m := c + y * x). destruct (divmod_B m) as [Hm Hmb].
  assert (word_ok (m / B)) as Hq.
  { unfold word_ok in *. subst m. split; [apply Z.div_pos; nia|]. apply Z.div_lt_upper_bound; nia. }
  assert ((m / B) mod B = m / B) as -> by (apply Z.mod_small; apply Hq).
  destruct (mul_u64_limbs a y (m / B)) as [r' d'] eqn:Er. intros [= <- <-].
  destruct (IH _ _ _ Hq Er) as (Hr & Hd & Hv). split_and!; [by apply wf_cons|apply Hd..|].
  rewrite !val_cons, pow_S. subst m. revert Hv Hm.
  generalize (B ^ Z.of_nat (length a)) ((c + y * x) / B) ((c + y * x) mod B). intros; nia.
Qed.

Lemma mul_row_ok a y res c r d :
  (length res ≤ length a)%nat → Forall word_ok a → Forall word_ok res → word_ok y → word_ok c →
  mul_row a y res c = (r, d) →
  wf (length res) r ∧ word_ok d
  ∧ val r + B ^ Z.of_nat (length res) * d = val res + val (take (length res) a) * y + c.
Proof.
  revert a c r d. induction res as [|z res IH]; intros a c r d Hl Ha Hres Hy Hc.
  { destruct a; intros [= <- <-]; cbn [length take]; rewrite pow_0; change (val []) with 0;
      (split_and!; [by split|apply Hc..|lia]). }
  destruct a as [|x a]; [simpl in Hl; lia|]. cbn [mul_row length take].
  apply Forall_cons in Ha as [Hx Ha], Hres as [Hz Hres].
  rewrite shiftr_B. set (m := x * y + z + c). destruct (divmod_B m) as [Hm Hmb].
  assert (word_ok (m / B)) as Hq.
  { unfold word_ok in *. subst m. split; [apply Z.div_pos; nia|]. apply Z.div_lt_upper_bound; nia. }
  destruct (mul_row a y res (m / B)) as [r' d'] eqn:Er. intros [= <- <-].
  destruct (IH a (m / B) r' d') as (Hr & Hd & Hv); [simpl in Hl; lia|done..|].
  split_and!; [by apply wf_cons|apply Hd..|].
  rewrite !val_cons, pow_S. subst m. revert Hv Hm.
  generalize (B ^ Z.of_nat (length res)) ((x * y + z + c) / B) ((x * y + z + c) mod B). intros; nia.
Qed.

(** The part of the product that the rows leave out, as a multiple of the
    modulus: limb products with [i + j >= LIMBS], and the carries out of rows. *)
Lemma val_take_drop k a : (k ≤ length a)%nat →
  val a = val (take k a) + B ^ Z.of_nat k * val (drop k a).
Proof.
  intros Hk. rewrite <- (take_drop k a) at 1. rewrite val_app, length_take. do 4 f_equal. lia.
Qed.

Lemma mul_rows_ok a other res c r d :
  (length res ≤ length a)%nat → length other = length res →
  Forall word_ok a → Forall word_ok other → Forall word_ok res →
  mul_rows a other res c = (r, d) →
  wf (length res) r ∧ ∃ q, 0 ≤ q ∧ (d = true → c = true ∨ 0 < q)
    ∧ val r + B ^ Z.of_nat (length res) * q = val res + val a * val other.
Proof.
  intros Hl Ho Ha Hother. revert res c r d Hl Ho.
  induction Hother as [|y other Hy _ IH]; intros res c r d Hl Ho Hres.
  { destruct res; [|done]. intros [= <- <-]. split; [by split|]. exists 0.
    cbn [length]. rewrite pow_0. change (val []) with 0. split_and!; auto; lia. }
  cbn [mul_rows]. destruct (mul_row a y res 0) as [res' carry] eqn:Erow.
  destruct (mul_row_ok a y res 0 res' carry) as (Hr' & Hcarry & Hv); [done..|].
  destruct Hr' as [Hlen Hok]. destruct res' as [|r0 rest]; [destruct res; simpl in *; lia|].
  destruct (mul_rows a other rest _) as [l d'] eqn:Erows. intros [= <- <-].
  apply Forall_cons in Hok as [Hr0 Hok].
  destruct (IH rest (c || negb (carry =? 0)) l d') as (Hl' & q & Hq & Hflag & Hvq);
    [simpl in *; lia|simpl in *; lia|done..|].
  rewrite <- Hlen in *. cbn [length] in *. split; [by apply wf_cons|].
  pose proof (val_take_drop (S (length rest)) a Hl) as Hsplit.
  pose proof (val_bound (drop (S (length rest)) a) (Forall_drop _ _ _ Ha)) as [Hd0 _].
  exists (carry + q + val (drop (S (length rest)) a) * y).
  unfold word_ok in Hcarry, Hy. split_and!; [nia| |].
  - intros Hd'. destruct (Hflag Hd') as [Hc|]; [|nia]. apply orb_true_iff in Hc as [->|Hc]; [by left|].
    right. apply negb_true_iff, Z.eqb_neq in Hc. nia.
  - rewrite !val_cons in *. rewrite pow_S in *. revert Hv Hvq Hsplit.
    generalize (B ^ Z.of_nat (length rest)) (val (take (S (length rest)) a))
      (val (drop (S (length rest)) a)) (val l) (val rest) (val a) (val other) (val res). intros; nia.
Qed.

(** ** Division by a word *)

Lemma bit_above x s i : 0 ≤ x < 2 ^ s → s ≤ i → Z.testbit x i = false.
Proof.
  intros [H0 H1] Hi. destruct (decide (x = 0)) as [->|]; [apply Z.bits_0|].
  apply Z.bits_above_log2; [done|]. apply Z.lt_le_trans with s; [|done].
  apply Z.log2_lt_pow2; lia.
Qed.
Lemma word_bit_high x i : word_ok x → 64 ≤ i → Z.testbit x i = false.
Proof. apply bit_above. Qed.

Lemma lor_shl_add r x s : 0 ≤ s → 0 ≤ x < 2 ^ s → Z.lor (Z.shiftl r s) x = r * 2 ^ s + x.
Proof.
  intros Hs Hx. rewrite <- Z.shiftl_mul_pow2, <- Z.add_lor_land by done.
  assert (Z.land (Z.shiftl r s) x = 0) as ->; [|lia]. apply Z.bits_inj'. intros i Hi.
  rewrite Z.land_spec, Z.bits_0, Z.shiftl_spec by done. destruct (decide (i < s)).
  - by rewrite Z.testbit_neg_r by lia.
  - rewrite (bit_above x s i), andb_false_r by lia. done.
Qed.

Lemma div_rem_u64_limbs_ok a y q r :
  Forall word_ok a → 0 < y → word_ok y → div_rem_u64_limbs a y = (q, r) →
  wf (length a) q ∧ 0 ≤ r < y ∧ val a = val q * y + r.
Proof.
  intros Ha Hy0 Hy. revert q r. induction Ha as [|x a Hx _ IH]; intros q r; cbn [div_rem_u64_limbs length].
  { intros [= <- <-]. split_and!; [by split|done..|done]. }
  destruct (div_rem_u64_limbs a y) as [q' r'] eqn:E. destruct (IH _ _ eq_refl) as (Hq & Hr & Hv).
  rewrite lor_shl_add by first [exact Hx|lia]. change (2 ^ 64) with B.
  set (m := r' * B + x). intros [= <- <-].
  assert (0 ≤ m / y < B) as Hd.
  { unfold word_ok in *. split; [apply Z.div_pos; nia|]. apply Z.div_lt_upper_bound; nia. }
  pose proof (Z.mod_pos_bound m y Hy0) as Hmod.
  rewrite (Z.mod_small (m / y)), (Z.mod_small (m mod y)) by (unfold word_ok in *; lia).
  split_and!; [by apply wf_cons|lia..|]. rewrite !val_cons, Hv.
  pose proof (Z.div_mod m y ltac:(lia)) as Hm. subst m. nia.
Qed.

(** ** Order *)

Lemma lex_cmp_snoc a b x y :
  length a = length b →
  lex_cmp (a ++ [x]) (b ++ [y]) = match lex_cmp a b with Eq => x ?= y | c => c end.
Proof.
  revert b. induction a as [|z a IH]; intros [|w b] Hl; try done; simpl.
  - by destruct (x ?= y).
  - destruct (z ?= w); [apply IH; simpl in Hl; lia|done..].
Qed.

Lemma cmp_ok k a b : wf k a → wf k b → cmp a b = (val a ?= val b).
Proof.
  unfold cmp. revert a b. induction k as [|k IH]; intros [|x a] [|y b] Ha Hb;
    try (by destruct Ha as [? _]); try (by destruct Hb as [? _]).
  apply wf_cons in Ha as [Hx Ha], Hb as [Hy Hb]. rewrite !reverse_cons, lex_cmp_snoc.
  2: { rewrite !length_reverse. by destruct Ha as [-> _], Hb as [-> _]. }
  rewrite (IH a b Ha Hb), !val_cons. destruct (Z.compare_spec (val a) (val b)) as [->|Hlt|Hlt].
  - destruct (Z.compare_spec x y) as [->|?|?]; symmetry;
      [apply Z.compare_refl|apply Z.compare_lt_iff; lia|apply Z.compare_gt_iff; lia].
  - symmetry. apply Z.compare_lt_iff. words.
  - symmetry. apply Z.compare_gt_iff. words.
Qed.

Lemma ge_ok k a b : wf k a → wf k b → ge a b = (val b <=? val a).
Proof.
  intros Ha Hb. unfold ge. rewrite (cmp_ok k) by done. rewrite Z.leb_compare, Z.compare_antisym.
  by destruct (val b ?= val a).
Qed.

(** ** Bits *)

Lemma word_of_bits x : 0 ≤ x → (∀ i, 64 ≤ i → Z.testbit x i = false) → word_ok x.
Proof.
  intros Hx Hb. assert (x = x mod 2 ^ 64) as ->; [|by apply Z.mod_pos_bound].
  apply Z.bits_inj'. intros i Hi. destruct (decide (i < 64)).
  - by rewrite Z.mod_pow2_bits_low.
  - rewrite Z.mod_pow2_bits_high, Hb by lia. done.
Qed.
Lemma lor_ok x y : word_ok x → word_ok y → word_ok (Z.lor x y).
Proof.
  intros Hx Hy. apply word_of_bits; [apply Z.lor_nonneg; unfold word_ok in *; lia|].
  intros i Hi. by rewrite Z.lor_spec, !word_bit_high.
Qed.
Lemma shl_word_ok x s : word_ok (word_shl x s).
Proof. by apply Z.mod_pos_bound. Qed.
Lemma shr_word_ok x s : word_ok x → 0 ≤ s → word_ok (word_shr x s).
Proof.
  intros Hx Hs. apply word_of_bits; [apply Z.shiftr_nonneg, Hx|].
  intros i Hi. unfold word_shr. rewrite Z.shiftr_spec, word_bit_high by (done || lia). done.
Qed.
Lemma shl_word_bit x s k : 0 ≤ k < 64 → Z.testbit (word_shl x s) k = Z.testbit x (k - s).
Proof.
  intros Hk. unfold word_shl. change B with (2 ^ 64). rewrite Z.mod_pow2_bits_low by lia.
  rewrite Z.shiftl_spec by lia. done.
Qed.
Lemma shr_word_bit x s k : 0 ≤ k → Z.testbit (word_shr x s) k = Z.testbit x (k + s).
Proof. intros Hk. unfold word_shr. by rewrite Z.shiftr_spec. Qed.

Lemma val_testbit a i :
  Forall word_ok a → 0 ≤ i → Z.testbit (val a) i = Z.testbit (limb a (Z.to_nat (i / 64))) (i mod 64).
Proof.
  intros Ha. revert i. induction Ha as [|x a Hx Ha IH]; intros i Hi.
  { change (val []) with 0. unfold limb. destruct (Z.to_nat _); by rewrite !Z.bits_0. }
  rewrite val_cons, Z.add_comm, Z.mul_comm. change B with (2 ^ 64).
  rewrite <- (lor_shl_add (val a) x 64) by done.
  rewrite Z.lor_spec, Z.shiftl_spec by done. destruct (decide (i < 64)) as [Hlt|Hge].
  - rewrite (Z.testbit_neg_r _ (i - 64)) by lia. rewrite Z.div_small, Z.mod_small by lia. done.
  - rewrite (word_bit_high x i Hx), orb_false_r, IH by lia.
    assert (i / 64 = (i - 64) / 64 + 1) as -> by (Z.to_euclidean_division_equations; lia).
    assert (i mod 64 = (i - 64) mod 64) as -> by (Z.to_euclidean_division_equations; lia).
    rewrite Z2Nat.inj_add by (try apply Z.div_pos; lia). rewrite Nat.add_comm. done.
Qed.

Lemma limb_ok a j : Forall word_ok a → word_ok (limb a j).
Proof.
  intros Ha. revert j. induction Ha as [|x a Hx _ IH]; intros [|j]; unfold limb in *; simpl; done.
Qed.
Lemma limb_out a j : (length a ≤ j)%nat → limb a j = 0.
Proof. intros. by apply nth_overflow. Qed.

(** A value given limb by limb, by its bits. *)
Section by_limb.
Context (n : nat) (f : nat → Z) (Hf : ∀ j, word_ok (f j)).

Lemma limbs_wf : wf n (f <$> seq 0 n).
Proof using Hf.
  split; [by rewrite length_fmap, length_seq|]. apply Forall_fmap, Forall_true. intros. apply Hf.
Qed.
Lemma limb_fmap j : (j < n)%nat → limb (f <$> seq 0 n) j = f j.
Proof using.
  intros Hj. apply nth_lookup_Some. rewrite list_lookup_fmap, lookup_seq_lt by done. done.
Qed.
Lemma limbs_val v :
  (∀ i, 0 ≤ i < BITS n → Z.testbit (f (Z.to_nat (i / 64))) (i mod 64) = Z.testbit v i) →
  val (f <$> seq 0 n) = v mod 2 ^ BITS n.
Proof using Hf.
  intros Hv. destruct limbs_wf as [Hl Hw]. apply Z.bits_inj'. intros i Hi. unfold BITS in *.
  rewrite val_testbit by done. destruct (decide (i < 64 * Z.of_nat n)).
  - rewrite Z.mod_pow2_bits_low, <- Hv by lia. rewrite limb_fmap; [done|].
    apply Nat2Z.inj_lt. rewrite Z2Nat.id by (apply Z.div_pos; lia). apply Z.div_lt_upper_bound; lia.
  - rewrite Z.mod_pow2_bits_high by lia. rewrite limb_out; [apply Z.bits_0|].
    rewrite Hl. apply Nat2Z.inj_le. rewrite Z2Nat.id by (apply Z.div_pos; lia).
    apply Z.div_le_lower_bound; lia.
Qed.
End by_limb.

Section shifts.
Context (n : nat) (a : Uint) (Ha : wf n a).

Lemma val_bit_at j k : 0 ≤ k < 64 → Z.testbit (val a) (64 * Z.of_nat j + k) = Z.testbit (limb a j) k.
Proof using Ha.
  intros Hk. rewrite val_testbit by (apply Ha || lia).
  assert ((64 * Z.of_nat j + k) / 64 = Z.of_nat j) as -> by (Z.to_euclidean_division_equations; lia).
  assert ((64 * Z.of_nat j + k) mod 64 = k) as -> by (Z.to_euclidean_division_equations; lia).
  by rewrite Nat2Z.id.
Qed.

Lemma index_parts i : 0 ≤ i < BITS n →
  i = 64 * Z.of_nat (Z.to_nat (i / 64)) + i mod 64 ∧ (Z.to_nat (i / 64) < n)%nat ∧ 0 ≤ i mod 64 < 64.
Proof using.
  intros Hi. unfold BITS in Hi. assert (0 ≤ i / 64) by (apply Z.div_pos; lia).
  rewrite Z2Nat.id by done. split_and!; [by apply Z.div_mod| |apply Z.mod_pos_bound; lia..].
  apply Nat2Z.inj_lt. rewrite Z2Nat.id by done. apply Z.div_lt_upper_bound; lia.
Qed.

Context (s : Z) (Hs : 0 ≤ s < BITS n).
Abbreviation lw := (Z.to_nat (s / 64)).
Abbreviation ls := (s mod 64).

Lemma shift_parts : s = 64 * Z.of_nat lw + ls ∧ 0 ≤ ls < 64.
Proof using Hs.
  rewrite Z2Nat.id by (apply Z.div_pos; lia). split; [by apply Z.div_mod|by apply Z.mod_pos_bound].
Qed.

Lemma shl_limb_ok j : word_ok (shl_limb a lw ls j).
Proof using Ha Hs.
  destruct shift_parts as [_ Hls]. destruct Ha as [_ Hw]. unfold shl_limb.
  assert (word_ok (if (lw <=? j)%nat then word_shl (limb a (j - lw)) ls else 0)) as Hlo.
  { destruct (_ <=? _)%nat; [apply shl_word_ok|done]. }
  destruct (_ && _); [|done]. apply lor_ok; [done|]. apply shr_word_ok; [by apply limb_ok|lia].
Qed.

Lemma shl_limb_bit j k : (j < n)%nat → 0 ≤ k < 64 →
  Z.testbit (shl_limb a lw ls j) k = Z.testbit (val a) (64 * Z.of_nat j + k - s).
Proof using Ha Hs.
  intros Hj Hk. destruct shift_parts as [Hsp Hls]. unfold shl_limb.
  destruct (Nat.leb_spec lw j) as [Hle|Hlt].
  2: { rewrite (proj2 (Nat.leb_gt _ _)), andb_false_r by lia. rewrite Z.bits_0.
       rewrite Z.testbit_neg_r; [done|lia]. }
  destruct (decide (ls ≤ k)).
  - replace (64 * Z.of_nat j + k - s) with (64 * Z.of_nat (j - lw) + (k - ls)) by lia.
    rewrite val_bit_at by lia. destruct (_ && _).
    + rewrite Z.lor_spec, shl_word_bit, shr_word_bit by lia.
      rewrite (word_bit_high (limb a (j - 1 - lw))), orb_false_r by (lia || apply limb_ok, Ha). done.
    + by rewrite shl_word_bit.
  - rewrite (proj2 (Z.ltb_lt 0 ls)) by lia. simpl.
    destruct (Nat.leb_spec (lw + 1) j) as [Hle'|Hgt].
    + replace (64 * Z.of_nat j + k - s) with (64 * Z.of_nat (j - 1 - lw) + (k + (64 - ls))) by lia.
      rewrite val_bit_at by lia. rewrite Z.lor_spec, shl_word_bit, shr_word_bit by lia.
      rewrite (Z.testbit_neg_r _ (k - ls)) by lia. done.
    + rewrite shl_word_bit by done. rewrite !Z.testbit_neg_r by lia. done.
Qed.

Lemma shr_limb_ok j : word_ok (shr_limb n a lw ls j).
Proof using Ha Hs.
  destruct shift_parts as [_ Hls]. destruct Ha as [_ Hw]. unfold shr_limb.
  assert (word_ok (if (j + lw <? n)%nat then word_shr (limb a (j + lw)) ls else 0)) as Hlo.
  { destruct (_ <? _)%nat; [apply shr_word_ok; [by apply limb_ok|lia]|done]. }
  destruct (_ && _); [|done]. apply lor_ok; [done|]. apply shl_word_ok.
Qed.

Lemma shr_limb_bit j k : (j < n)%nat → 0 ≤ k < 64 →
  Z.testbit (shr_limb n a lw ls j) k = Z.testbit (val a) (64 * Z.of_nat j + k + s).
Proof using Ha Hs.
  intros Hj Hk. destruct shift_parts as [Hsp Hls]. unfold shr_limb.
  assert (∀ i, (n ≤ i)%nat → limb a i = 0) as Hout.
  { intros i Hi. apply limb_out. by destruct Ha as [-> _]. }
  assert ((if (j + lw <? n)%nat then word_shr (limb a (j + lw)) ls else 0) = word_shr (limb a (j + lw)) ls) as ->.
  { destruct (Nat.ltb_spec (j + lw) n); [done|]. rewrite Hout by done. unfold word_shr. by rewrite Z.shiftr_0_l. }
  assert (Z.testbit (if (0 <? ls) && (j + lw + 1 <? n)%nat
      then Z.lor (word_shr (limb a (j + lw)) ls) (word_shl (limb a (j + lw + 1)) (64 - ls))
      else word_shr (limb a (j + lw)) ls) k
    = Z.testbit (limb a (j + lw)) (k + ls) || Z.testbit (limb a (j + lw + 1)) (k - (64 - ls))) as ->.
  { destruct (Z.ltb_spec 0 ls); simpl; [destruct (Nat.ltb_spec (j + lw + 1) n)|].
    - by rewrite Z.lor_spec, shr_word_bit, shl_word_bit by lia.
    - rewrite shr_word_bit, (Hout (j + lw + 1)%nat), Z.bits_0, orb_false_r by lia. done.
    - rewrite shr_word_bit, (Z.testbit_neg_r _ (k - _)), orb_false_r by lia. done. }
  destruct (decide (k + ls < 64)).
  - replace (64 * Z.of_nat j + k + s) with (64 * Z.of_nat (j + lw) + (k + ls)) by lia.
    rewrite val_bit_at, (Z.testbit_neg_r _ (k - _)), orb_false_r by lia. done.
  - replace (64 * Z.of_nat j + k + s) with (64 * Z.of_nat (j + lw + 1) + (k - (64 - ls))) by lia.
    rewrite val_bit_at by lia. rewrite (word_bit_high (limb a (j + lw))); [done|apply limb_ok, Ha|lia].
Qed.

Lemma overflowing_shl_ok :
  ∃ r, overflowing_shl n a s = (r, false) ∧ wf n r ∧ val r = (val a * 2 ^ s) mod 2 ^ BITS n.
Proof using Ha Hs.
  eexists. unfold overflowing_shl. rewrite (Z.mod_small s) by done.
  rewrite (proj2 (Z.leb_gt _ _)) by lia. split; [reflexivity|].
  split; [apply limbs_wf, shl_limb_ok|]. apply limbs_val; [apply shl_limb_ok|].
  intros i Hi. destruct (index_parts i Hi) as (Hip & Hj & Hk).
  rewrite shl_limb_bit by done. rewrite <- Hip, Z.mul_pow2_bits by lia. done.
Qed.

Lemma overflowing_shr_ok :
  ∃ r, overflowing_shr n a s = (r, false) ∧ wf n r ∧ val r = val a / 2 ^ s.
Proof using Ha Hs.
  eexists. unfold overflowing_shr. rewrite (Z.mod_small s) by done.
  rewrite (proj2 (Z.leb_gt _ _)) by lia. split; [reflexivity|].
  split; [apply limbs_wf, shr_limb_ok|]. rewrite (limbs_val n _ shr_limb_ok (val a / 2 ^ s)).
  - apply Z.mod_small. destruct Ha as [Hl Hw]. pose proof (val_bound a Hw) as Hb. rewrite Hl in Hb.
    unfold BITS, B in *. rewrite Z.pow_mul_r by lia. split; [apply Z.div_pos; lia|].
    apply Z.div_lt_upper_bound; [lia|]. nia.
  - intros i Hi. destruct (index_parts i Hi) as (Hip & Hj & Hk).
    rewrite shr_limb_bit by done. rewrite <- Hip, Z.div_pow2_bits by lia. done.
Qed.
End shifts.

(** ** Long division *)

(** The number of bits of a number. *)
Definition nbits (v : Z) : Z := if v =? 0 then 0 else Z.log2 v + 1.

Lemma nbits_bounds v : 0 ≤ v → 0 ≤ nbits v ∧ v < 2 ^ nbits v ∧ (0 < v → 2 ^ (nbits v - 1) ≤ v).
Proof.
  intros Hv. unfold nbits. destruct (Z.eqb_spec v 0) as [->|]; [done|].
  destruct (Z.log2_spec v ltac:(lia)) as [Hlo Hhi]. pose proof (Z.log2_nonneg v).
  split_and!; [lia|by rewrite Z.add_1_r|]. by rewrite Z.add_simpl_r.
Qed.

Lemma take_limb a j : (j < length a)%nat → take (S j) a = take j a ++ [limb a j].
Proof.
  intros Hj. apply take_S_r. unfold limb. destruct (lookup_lt_is_Some_2 a j Hj) as [x Hx].
  rewrite Hx. f_equal. symmetry. by apply nth_lookup_Some.
Qed.

Lemma bits_from_ok a i : Forall word_ok a → (i ≤ length a)%nat → bits_from a i = nbits (val (take i a)).
Proof.
  intros Ha. induction i as [|i IH]; intros Hi; [done|]. cbn [bits_from].
  rewrite take_limb, val_app by lia. pose proof (limb_ok a i Ha) as Hw.
  set (w := limb a i) in *. rewrite length_take_le, val_cons by lia. change (val []) with 0.
  replace (w + B * 0) with w by lia. destruct (Z.eqb_spec w 0) as [Hw0|Hw0]; cbn [negb].
  { rewrite IH by lia. f_equal. rewrite Hw0. lia. }
  pose proof (val_bound (take i a) (Forall_take _ _ _ Ha)) as Hlo. rewrite length_take_le in Hlo by lia.
  unfold B in *. rewrite <- Z.pow_mul_r in * by lia. unfold word_ok, B in *.
  unfold leading_zeros, nbits. rewrite (proj2 (Z.eqb_neq w 0)) by done.
  rewrite (proj2 (Z.eqb_neq _ 0)) by nia.
  rewrite (Z.log2_unique (val (take i a) + 2 ^ (64 * Z.of_nat i) * w) (64 * Z.of_nat i + Z.log2 w)); [lia|pose proof (Z.log2_nonneg w); lia|].
  destruct (Z.log2_spec w ltac:(lia)) as [H1 H2]. pose proof (Z.log2_nonneg w).
  rewrite <- Z.add_succ_r, !Z.pow_add_r by lia. nia.
Qed.

Lemma bits_ok n a : wf n a → bits n a = nbits (val a).
Proof. intros [<- Ha]. unfold bits. rewrite bits_from_ok by done. by rewrite firstn_all. Qed.

Lemma val_insert a j x :
  (j < length a)%nat → val (<[j := x]> a) = val a + B ^ Z.of_nat j * (x - limb a j).
Proof.
  revert j. induction a as [|y a IH]; intros [|j] Hj; try (simpl in Hj; lia).
  - cbn [insert list_insert]. rewrite !val_cons, pow_0. unfold limb. simpl. lia.
  - change (<[S j := x]> (y :: a)) with (y :: <[j := x]> a). change (limb (y :: a) (S j)) with (limb a j).
    rewrite !val_cons, IH, pow_S by (simpl in Hj; lia). ring.
Qed.

Lemma wf_insert n a j x : wf n a → word_ok x → wf n (<[j := x]> a).
Proof. intros [Hl Ha] Hx. split; [by etrans; [apply length_insert|]|by apply Forall_insert]. Qed.

Section division.
Context {E : Type} (n : nat).

Lemma sub_ok a b : wf n a → wf n b → val b ≤ val a →
  ∃ r, sub (E:=E) a b = Ok r ∧ wf n r ∧ val r = val a - val b.
Proof.
  intros [Hl Ha] [Hl' Hb] Hle. unfold sub, overflowing_sub.
  destruct (sub_limbs a b false) as [r d] eqn:Es.
  destruct (sub_limbs_ok a b false r d) as [Hr Hv]; [congruence|done..|]. rewrite Hl in Hr, Hv.
  pose proof (val_bound _ (proj2 Hr)) as Hb1. rewrite (proj1 Hr) in Hb1.
  pose proof (pow_pos n). exists r. destruct d; cbn [Z.b2z] in Hv; [nia|].
  split_and!; [done|done|lia].
Qed.

Lemma shr_1_ok a : wf n a → (0 < n)%nat →
  ∃ r, shr (E:=E) n a 1 = Ok r ∧ wf n r ∧ val r = val a / 2.
Proof.
  intros Ha Hn. destruct (overflowing_shr_ok n a Ha 1) as (r & Hr & Hw & Hv); [unfold BITS; lia|].
  exists r. unfold shr. rewrite Hr. auto.
Qed.

(** Setting a bit that is clear adds its power of two. *)
Lemma set_bit_ok ret (shift : nat) :
  wf n ret → (shift < 64 * n)%nat → Z.testbit (val ret) (Z.of_nat shift) = false →
  let j := (shift / 64)%nat in
  let ret' := <[j := Z.lor (limb ret j) (Z.shiftl 1 (Z.of_nat (shift mod 64)))]> ret in
  wf n ret' ∧ val ret' = val ret + 2 ^ Z.of_nat shift.
Proof.
  intros Hr Hs Hbit j ret'. set (k := Z.of_nat (shift mod 64)).
  assert (0 ≤ k < 64) as Hk by (unfold k; pose proof (Nat.mod_upper_bound shift 64); lia).
  assert (Z.of_nat shift = 64 * Z.of_nat j + k) as Hsp.
  { unfold j, k. rewrite Nat2Z.inj_div, Nat2Z.inj_mod. by apply Z.div_mod. }
  assert (j < n)%nat as Hj by lia. rewrite Hsp, (val_bit_at n ret Hr j k Hk) in Hbit.
  assert (Z.lor (limb ret j) (Z.shiftl 1 k) = limb ret j + 2 ^ k) as Hlor.
  { rewrite Z.shiftl_1_l, <- Z.add_lor_land.
    assert (Z.land (limb ret j) (2 ^ k) = 0) as ->; [|lia]. apply Z.bits_inj'. intros i Hi.
    rewrite Z.land_spec, Z.bits_0, Z.pow2_bits_eqb by lia.
    destruct (Z.eqb_spec k i) as [<-|]; [by rewrite Hbit|by rewrite andb_false_r]. }
  split.
  - apply wf_insert; [done|]. apply lor_ok; [apply limb_ok, Hr|]. rewrite Z.shiftl_1_l. split.
    + apply Z.pow_nonneg; lia.
    + unfold B. apply Z.pow_lt_mono_r; lia.
  - unfold ret'. rewrite val_insert by (by destruct Hr as [-> _]). fold k. rewrite Hlor, Hsp, Z.pow_add_r by lia.
    unfold B. rewrite <- Z.pow_mul_r by lia. ring.
Qed.

Lemma div_step_ok (shift : nat) sc sh ret V :
  wf n sc → wf n sh → wf n ret → 0 < V → (shift < 64 * n)%nat →
  val sh = V * 2 ^ Z.of_nat shift → val sc < V * 2 ^ (Z.of_nat shift + 1) →
  (2 ^ (Z.of_nat shift + 1) | val ret) →
  ∃ q r, div_step (E:=E) shift sc sh ret = Ok (q, r) ∧ wf n q ∧ wf n r
    ∧ val r < V * 2 ^ Z.of_nat shift ∧ (2 ^ Z.of_nat shift | val q)
    ∧ val q * V + val r = val ret * V + val sc.
Proof.
  intros Hsc Hsh Hret HV Hlt Hvsh Hvsc Hdiv. unfold div_step. rewrite (ge_ok n) by done.
  set (z := Z.of_nat shift) in *. assert (0 ≤ z) by lia. assert (0 < 2 ^ z) by (apply Z.pow_pos_nonneg; lia).
  rewrite Z.pow_add_r, Z.pow_1_r in * by lia. destruct (Z.leb_spec (val sh) (val sc)) as [Hge|Hlt'].
  - destruct (set_bit_ok ret shift Hret Hlt) as [Hw Hv].
    { destruct Hdiv as [d ->]. fold z. replace (d * (2 ^ z * 2)) with (2 * d * 2 ^ z) by ring.
      rewrite Z.mul_pow2_bits, Z.sub_diag by lia. apply Z.testbit_even_0. }
    destruct (sub_ok sc sh Hsc Hsh Hge) as (r & Hr & Hwr & Hvr). cbv zeta. rewrite Hr. cbn [mbind outcome_bind].
    eexists _, r. split; [reflexivity|]. split_and!; [done|done|lia| |].
    + rewrite Hv. apply Z.divide_add_r; [|done]. destruct Hdiv as [d ->]. exists (d * 2). ring.
    + rewrite Hv. fold z. nia.
  - exists ret, sc. split_and!; [done..|lia| |done]. destruct Hdiv as [d ->]. exists (d * 2). ring.
Qed.

Lemma div_loop_ok (shift : nat) sc sh ret V :
  wf n sc → wf n sh → wf n ret → 0 < V → (shift < 64 * n)%nat →
  val sh = V * 2 ^ Z.of_nat shift → val sc < V * 2 ^ (Z.of_nat shift + 1) →
  (2 ^ (Z.of_nat shift + 1) | val ret) →
  ∃ q r, div_loop (E:=E) n shift sc sh ret = Ok (q, r) ∧ wf n q ∧ wf n r ∧ val r < V
    ∧ val q * V + val r = val ret * V + val sc.
Proof.
  revert sc sh ret. induction shift as [|shift IH]; intros sc sh ret Hsc Hsh Hret HV Hlt Hvsh Hvsc Hdiv;
    destruct (div_step_ok _ sc sh ret V Hsc Hsh Hret HV Hlt Hvsh Hvsc Hdiv)
      as (q & r & Hstep & Hq & Hr & Hb & Hd & Hv);
    destruct (shr_1_ok sh Hsh ltac:(lia)) as (sh' & Hshr & Hsh' & Hvsh');
    cbn [div_loop]; rewrite Hstep; cbn [mbind outcome_bind]; rewrite Hshr; cbn [mbind outcome_bind].
  - exists q, r. split_and!; [done..| |done]. simpl in Hb. lia.
  - rewrite Nat2Z.inj_succ, <- Z.add_1_r in *.
    destruct (IH r sh' q) as (q' & r' & Hrun & Hq' & Hr' & Hb' & Hv'); try done; [lia| |].
    + rewrite Hvsh', Hvsh, Z.pow_add_r, Z.pow_1_r, Z.mul_assoc by lia. by rewrite Z.div_mul.
    + exists q', r'. split_and!; [done..|]. lia.
Qed.

Lemma div_rem_value a b : wf n a → wf n b → 0 < val b →
  ∃ q r, div_rem (E:=E) n a b = Ok (q, r) ∧ wf n q ∧ wf n r
    ∧ val q = val a / val b ∧ val r = val a mod val b.
Proof.
  intros Ha Hb Hpos. unfold div_rem. rewrite (bits_ok n a Ha), (bits_ok n b Hb).
  pose proof (val_bound a (proj2 Ha)) as Hab. rewrite (proj1 Ha) in Hab.
  destruct (nbits_bounds (val a)) as (Ha0 & Ha1 & Ha2); [lia|].
  destruct (nbits_bounds (val b)) as (Hb0 & Hb1 & Hb2); [lia|]. specialize (Hb2 Hpos).
  set (x := nbits (val a)) in *. set (y := nbits (val b)) in *.
  assert (0 < y) as Hy.
  { destruct (decide (y = 0)) as [Hy|]; [|lia]. rewrite Hy in Hb1. simpl in Hb1. lia. }
  rewrite (proj2 (Z.eqb_neq y 0)) by lia. cbn [negb assert mbind outcome_bind].
  destruct (Z.ltb_spec x y) as [Hlt|Hge].
  { exists (ZERO n), a. assert (val a < val b).
    { apply Z.lt_le_trans with (2 ^ x); [done|]. etrans; [|exact Hb2]. apply Z.pow_le_mono_r; lia. }
    split_and!; [done|apply wf_zero|done|by rewrite val_zero, Z.div_small by lia|by rewrite Z.mod_small by lia]. }
  assert (x ≤ BITS n) as Hx.
  { unfold BITS. apply Z.le_ngt. intros Hgt. assert (0 < val a) as Hpa.
    { destruct (decide (val a = 0)) as [H0|]; [|lia]. unfold x, nbits in Hgt. rewrite H0 in Hgt. simpl in Hgt. lia. }
    specialize (Ha2 Hpa). unfold B in Hab. rewrite <- Z.pow_mul_r in Hab by lia.
    pose proof (Z.pow_le_mono_r 2 (64 * Z.of_nat n) (x - 1)). lia. }
  assert (val b * 2 ^ (x - y) < 2 ^ BITS n) as Hfit.
  { apply Z.lt_le_trans with (2 ^ y * 2 ^ (x - y)).
    - apply Z.mul_lt_mono_pos_r; [apply Z.pow_pos_nonneg; lia|done].
    - rewrite <- Z.pow_add_r by lia. apply Z.pow_le_mono_r; lia. }
  destruct (overflowing_shl_ok n b Hb (x - y)) as (sh & Hsh & Hwsh & Hvsh); [lia|].
  unfold shl. rewrite Hsh. cbn [checked_op mbind outcome_bind fst snd].
  rewrite Z.mod_small in Hvsh by (split; [apply Z.mul_nonneg_nonneg; [lia|apply Z.pow_nonneg; lia]|done]).
  destruct (div_loop_ok (Z.to_nat (x - y)) a sh (ZERO n) (val b)) as (q & r & Hrun & Hq & Hr & Hlt & Hv);
    try done; rewrite ?Z2Nat.id by lia; [apply wf_zero|unfold BITS in *; lia|done| |rewrite val_zero; apply Z.divide_0_r|].
  { apply Z.lt_le_trans with (2 ^ x); [done|]. replace x with ((y - 1) + (x - y + 1)) at 1 by lia.
    rewrite Z.pow_add_r by lia. apply Z.mul_le_mono_nonneg_r; [apply Z.pow_nonneg; lia|done]. }
  exists q, r. pose proof (val_bound r (proj2 Hr)) as [Hr0 _]. rewrite val_zero in Hv.
  split_and!; [done..| |].
  - apply (Z.div_unique_pos _ _ _ (val r)); lia.
  - apply (Z.mod_unique_pos _ _ (val q)); lia.
Qed.

Lemma div_rem_zero a b : wf n a → wf n b → val b = 0 → div_rem (E:=E) n a b = Panic.
Proof. intros Ha Hb H0. unfold div_rem. rewrite (bits_ok n b Hb), H0. done. Qed.
End division.

(** ** Bitwise operators *)

Lemma val_not n a : wf n a → wf n (not a) ∧ val (not a) = B ^ Z.of_nat n - 1 - val a.
Proof.
  unfold not. revert a. induction n as [|n IH]; intros [|x a] Ha; try by destruct Ha.
  apply wf_cons in Ha as [Hx Ha]. destruct (IH a Ha) as [Hw Hv]. rewrite fmap_cons, !val_cons, Hv, pow_S.
  split; [|unfold word_not; ring]. apply wf_cons. split; [|done]. unfold word_not. words.
Qed.

Section bitwise.
Context (f : Z → Z → Z) (g : bool → bool → bool).
Context (Hf : ∀ x y i, 0 ≤ i → Z.testbit (f x y) i = g (Z.testbit x i) (Z.testbit y i)).
Context (Hpos : ∀ x y, 0 ≤ x → 0 ≤ y → 0 ≤ f x y) (Hg : g false false = false).

Lemma bitwise_word x y : word_ok x → word_ok y → word_ok (f x y).
Proof using Hf Hpos Hg.
  intros Hx Hy. apply word_of_bits; [apply Hpos; [apply Hx|apply Hy]|].
  intros i Hi. rewrite Hf, !word_bit_high by (done || lia). exact Hg.
Qed.

Lemma bitwise_wf n a b : wf n a → wf n b → wf n (zip_with f a b).
Proof using Hf Hpos Hg.
  revert a b. induction n as [|n IH]; intros [|x a] [|y b] Ha Hb; try (by destruct Ha); try (by destruct Hb).
  apply wf_cons in Ha as [Hx Ha], Hb as [Hy Hb]. apply wf_cons. split; [by apply bitwise_word|by apply IH].
Qed.

Lemma bitwise_limb n a b j : wf n a → wf n b → (j < n)%nat →
  limb (zip_with f a b) j = f (limb a j) (limb b j).
Proof using.
  revert a b j. induction n as [|n IH]; intros a b j Ha Hb Hj; [lia|].
  destruct a as [|x a], b as [|y b]; try (by destruct Ha); try (by destruct Hb).
  apply wf_cons in Ha as [_ Ha], Hb as [_ Hb]. destruct j as [|j]; [done|].
  exact (IH a b j Ha Hb ltac:(lia)).
Qed.

Lemma bitwise_val n a b : wf n a → wf n b → val (zip_with f a b) = f (val a) (val b).
Proof using Hf Hpos Hg.
  intros Ha Hb. pose proof (bitwise_wf n a b Ha Hb) as Hw. apply Z.bits_inj'. intros i Hi.
  rewrite Hf, !val_testbit by (done || apply Ha || apply Hb || apply Hw).
  set (j := Z.to_nat (i / 64)). destruct (decide (j < n)%nat) as [Hj|Hj].
  - rewrite (bitwise_limb n) by done. apply Hf, Z.mod_pos_bound. lia.
  - rewrite (limb_out (zip_with f a b)), (limb_out a), (limb_out b), !Z.bits_0
      by (rewrite ?(proj1 Ha), ?(proj1 Hb), ?(proj1 Hw); lia). by rewrite Hg.
Qed.
End bitwise.

(** ** Bytes *)

Definition bytes_ok (l : list Z) : Prop := Forall (λ x, 0 ≤ x < 256) l.

Lemma le_bytes_length k w : length (le_bytes k w) = k.
Proof. revert w. induction k as [|k IH]; intros w; simpl; auto. Qed.

Lemma le_bytes_ok k w : bytes_ok (le_bytes k w).
Proof.
  revert w. induction k as [|k IH]; intros w; simpl; constructor; [|apply IH].
  by apply Z.mod_pos_bound.
Qed.

Lemma of_le_bytes_le k w : 0 ≤ w < 256 ^ Z.of_nat k → of_le_bytes (le_bytes k w) = w.
Proof.
  revert w. induction k as [|k IH]; intros w Hw; [simpl in *; lia|].
  rewrite Nat2Z.inj_succ, Z.pow_succ_r in Hw by lia. cbn [le_bytes of_le_bytes]. rewrite IH.
  - pose proof (Z.div_mod w 256). lia.
  - split; [apply Z.div_pos; lia|]. apply Z.div_lt_upper_bound; lia.
Qed.

Lemma le_of_le_bytes l : bytes_ok l → le_bytes (length l) (of_le_bytes l) = l.
Proof.
  induction 1 as [|x l Hx _ IH]; [done|]. cbn [length le_bytes of_le_bytes]. f_equal.
  - rewrite Z.mul_comm, Z.mod_add by done. by apply Z.mod_small.
  - rewrite Z.mul_comm, Z.div_add, Z.div_small, Z.add_0_l by done. done.
Qed.

Lemma of_le_bytes_word l : length l = 8%nat → bytes_ok l → word_ok (of_le_bytes l).
Proof.
  intros Hl Hb. unfold bytes_ok in Hb. do 8 (destruct l as [|? l]; [done|]). destruct l; [|done].
  rewrite !Forall_cons in Hb. unfold word_ok. rewrite B_val. simpl. lia.
Qed.

Lemma chunks_join (ls : list (list Z)) :
  Forall (λ l, length l = 8%nat) ls → chunks_exact (length ls) (mjoin ls) = ls.
Proof.
  induction 1 as [|l ls Hl _ IH]; [done|]. cbn [length chunks_exact mjoin list_join].
  rewrite take_app_length', drop_app_length' by done. f_equal. exact IH.
Qed.

Lemma join_chunks n (l : list Z) :
  length l = (8 * n)%nat →
  mjoin (chunks_exact n l) = l ∧ Forall (λ c, length c = 8%nat) (chunks_exact n l).
Proof.
  revert l. induction n as [|n IH]; intros l Hl; [by destruct l|]. cbn [chunks_exact mjoin list_join].
  destruct (IH (drop 8 l)) as [Hj Hc]; [rewrite length_drop; lia|].
  split; [|constructor; [rewrite length_take; lia|done]].
  change (take 8 l ++ mjoin (chunks_exact n (drop 8 l)) = l). rewrite Hj. apply take_drop.
Qed.

Lemma mjoin_app {A} (l k : list (list A)) : mjoin (l ++ k) = mjoin l ++ mjoin k.
Proof. induction l as [|x l IH]; [done|]. simpl. by rewrite IH, app_assoc. Qed.

(** ** Sums *)

Lemma add_value {E} n a b : wf n a → wf n b → val a + val b < B ^ Z.of_nat n →
  ∃ r, add (E:=E) a b = Ok r ∧ wf n r ∧ val r = val a + val b.
Proof.
  intros Ha Hb Hlt. unfold add, checked_op, overflowing_add. destruct (add_limbs a b false) as [r d] eqn:Hr.
  destruct (add_limbs_ok a b false r d) as [Hw Hv]; [destruct Ha, Hb; congruence|apply Ha|apply Hb|done|].
  rewrite (proj1 Ha) in Hw, Hv. pose proof (val_bound r (proj2 Hw)). pose proof (pow_pos n).
  exists r. destruct d; cbn [Z.b2z fst snd] in *; [nia|]. split_and!; [done|done|lia].
Qed.

Lemma sum_value {E} n l : Forall (wf n) l → zsum (val <$> l) < B ^ Z.of_nat n →
  ∃ r, sum (E:=E) n l = Ok r ∧ wf n r ∧ val r = zsum (val <$> l).
Proof.
  intros Hl Hlt. assert (∀ l, Forall (wf n) l → 0 ≤ zsum (val <$> l)) as Hpos.
  { intros k Hk. apply zsum_nonneg, Forall_fmap. eapply Forall_impl; [done|]. intros x [_ Hx]. by apply val_bound. }
  assert (∀ l first, Forall (wf n) l → wf n first → val first + zsum (val <$> l) < B ^ Z.of_nat n →
    ∃ r, fold_op (E:=E) add first l = Ok r ∧ wf n r ∧ val r = val first + zsum (val <$> l)) as Hfold.
  { clear l Hl Hlt. induction l as [|x l IH]; intros first Hl Hf Hlt.
    { exists first. split_and!; [done|done|]. change (zsum (val <$> [])) with 0. lia. }
    apply Forall_cons in Hl as [Hx Hl]. rewrite fmap_cons, zsum_cons in *. pose proof (Hpos l Hl).
    cbn [fold_op]. destruct (add_value (E:=E) n first x Hf Hx) as (s & -> & Hs & Hvs); [lia|].
    cbn [mbind outcome_bind]. destruct (IH s Hl Hs) as (r & -> & Hr & Hvr); [lia|]. exists r. split_and!; [done|done|lia]. }
  destruct l as [|x l]; [exists (ZERO n); split_and!; [done|apply wf_zero|apply val_zero]|].
  apply Forall_cons in Hl as [Hx Hl]. rewrite fmap_cons, zsum_cons in *. by apply Hfold.
Qed.

Lemma div_u64_value {E} n a y : wf n a → word_ok y → 0 < y →
  ∃ q, div_u64 (E:=E) n a y = Ok q ∧ wf n q ∧ val q = val a / y.
Proof.
  intros Ha Hy Hpos. unfold div_u64, div_rem_u64. rewrite (proj2 (Z.eqb_neq y 0)) by lia. cbn [andb].
  destruct (div_rem_u64_limbs a y) as [q r] eqn:Eq.
  destruct (div_rem_u64_limbs_ok a y q r (proj2 Ha) Hpos Hy Eq) as (Hq & Hr & Hv).
  rewrite (proj1 Ha) in Hq. exists q. split_and!; [done|done|]. apply (Z.div_unique_pos _ _ _ r); lia.
Qed.

Lemma mul_u64_value {E} n a y : wf n a → word_ok y → val a * y < B ^ Z.of_nat n →
  ∃ r, mul_u64 (E:=E) a y = Ok r ∧ wf n r ∧ val r = val a * y.
Proof.
  intros [Hla Ha] Hy Hlt. unfold mul_u64, checked_op, overflowing_mul_u64, carrying_mul_u64.
  destruct (mul_u64_limbs a y 0) as [r c] eqn:Er.
  destruct (mul_u64_limbs_ok a y 0 r c) as (Hr & Hc & Hv); [done..|]. rewrite Hla in Hr, Hv.
  pose proof (val_bound r (proj2 Hr)) as Hbr. pose proof (pow_pos n). unfold word_ok in Hc.
  assert (c = 0) as -> by nia. exists r. split_and!; [done|done|lia].
Qed.

(** ** Properties *)

(** Addition and subtraction of two values of [n] limbs, and the addition of
    a [u64], are exact modulo the range, and the flag they return says exactly
    whether the exact result leaves the range. *)
Theorem add_sub_exact (n : nat) (a b : Uint) (y : Z) :
  wf (S n) a → wf (S n) b → word_ok y →
  (∃ r, overflowing_add a b = (r, B ^ Z.of_nat (S n) <=? val a + val b) ∧ wf (S n) r
        ∧ val r = (val a + val b) mod B ^ Z.of_nat (S n))
  ∧ (∃ r, overflowing_add_u64 a y = (r, B ^ Z.of_nat (S n) <=? val a + y) ∧ wf (S n) r
        ∧ val r = (val a + y) mod B ^ Z.of_nat (S n))
  ∧ (∃ r, overflowing_sub a b = (r, val a <? val b) ∧ wf (S n) r
        ∧ val r = (val a - val b) mod B ^ Z.of_nat (S n)).
Proof.
  intros Ha Hb Hy. set (P := B ^ Z.of_nat (S n)).
  assert (∀ x, wf (S n) x → 0 ≤ val x < P) as Hbound.
  { intros x [Hl Hw]. unfold P. rewrite <- Hl. by apply val_bound. }
  assert (B ≤ P) as HBP by (unfold P; rewrite pow_S; pose proof (pow_pos n); unfold B; lia).
  pose proof (Hbound a Ha). pose proof (Hbound b Hb). split_and!.
  - unfold overflowing_add. destruct (add_limbs a b false) as [r d] eqn:E.
    destruct (add_limbs_ok a b false r d) as [Hr Hv]; [destruct Ha, Hb; congruence|apply Ha|apply Hb|done|].
    rewrite (proj1 Ha) in Hr, Hv. fold P in Hv. pose proof (Hbound r Hr). exists r.
    destruct d; cbn [Z.b2z] in Hv; (split_and!; [|done|]).
    + f_equal. symmetry. apply Z.leb_le. lia.
    + apply (Z.mod_unique_pos _ _ 1); lia.
    + f_equal. symmetry. apply Z.leb_gt. lia.
    + symmetry. rewrite Z.mod_small; lia.
  - destruct (overflowing_add_u64 a y) as [r d] eqn:E.
    destruct (add_u64_limbs_ok n a y r d Ha Hy E) as [Hr Hv]. fold P in Hv. pose proof (Hbound r Hr).
    exists r. unfold word_ok in Hy. destruct d; cbn [Z.b2z] in Hv; (split_and!; [|done|]).
    + f_equal. symmetry. apply Z.leb_le. lia.
    + apply (Z.mod_unique_pos _ _ 1); lia.
    + f_equal. symmetry. apply Z.leb_gt. lia.
    + symmetry. rewrite Z.mod_small; lia.
  - unfold overflowing_sub. destruct (sub_limbs a b false) as [r d] eqn:E.
    destruct (sub_limbs_ok a b false r d) as [Hr Hv]; [destruct Ha, Hb; congruence|apply Ha|apply Hb|done|].
    rewrite (proj1 Ha) in Hr, Hv. fold P in Hv. pose proof (Hbound r Hr). exists r.
    destruct d; cbn [Z.b2z] in Hv; (split_and!; [|done|]).
    + f_equal. symmetry. apply Z.ltb_lt. lia.
    + apply (Z.mod_unique_pos _ _ (-1)); lia.
    + f_equal. symmetry. apply Z.ltb_ge. lia.
    + symmetry. rewrite Z.mod_small; lia.
Qed.

Lemma add_sub_exact_witness :
  (∃ r, overflowing_add [B - 1; B - 1] [1; 0] = (r, B ^ 2 <=? val [B - 1; B - 1] + val [1; 0]) ∧ wf 2 r
        ∧ val r = (val [B - 1; B - 1] + val [1; 0]) mod B ^ 2)
  ∧ (∃ r, overflowing_add_u64 [B - 1; B - 1] 5 = (r, B ^ 2 <=? val [B - 1; B - 1] + 5) ∧ wf 2 r
        ∧ val r = (val [B - 1; B - 1] + 5) mod B ^ 2)
  ∧ (∃ r, overflowing_sub [B - 1; B - 1] [1; 0] = (r, val [B - 1; B - 1] <? val [1; 0]) ∧ wf 2 r
        ∧ val r = (val [B - 1; B - 1] - val [1; 0]) mod B ^ 2).
Proof.
  apply (add_sub_exact 1 [B - 1; B - 1] [1; 0] 5);
    [split; [done|repeat constructor; done]..|done].
Defined.

(** The product of two values of [n] limbs is exact modulo the range, and an
    overflow flag that is set is right; multiplication by a [u64] is exact: value,
    carry and flag. *)
Theorem mul_exact (n : nat) (a b : Uint) (y : Z) :
  wf n a → wf n b → word_ok y →
  (∃ r d, overflowing_mul n a b = (r, d) ∧ wf n r ∧ val r = (val a * val b) mod B ^ Z.of_nat n
        ∧ (d = true → B ^ Z.of_nat n ≤ val a * val b))
  ∧ (∃ r c, carrying_mul_u64 a y = (r, c) ∧ wf n r ∧ word_ok c
        ∧ val r + B ^ Z.of_nat n * c = val a * y
        ∧ overflowing_mul_u64 a y = (r, B ^ Z.of_nat n <=? val a * y)).
Proof.
  intros [Hla Ha] [Hlb Hb] Hy. set (P := B ^ Z.of_nat n). pose proof (pow_pos n) as HP. fold P in HP. split.
  - unfold overflowing_mul. destruct (mul_rows a b (ZERO n) false) as [r d] eqn:E. exists r, d.
    destruct (mul_rows_ok a b (ZERO n) false r d) as (Hr & q & Hq & Hflag & Hv);
      rewrite ?(proj1 (wf_zero n)) in *; [lia|done|done|done|apply wf_zero|done|].
    rewrite val_zero in Hv. fold P in Hv. pose proof (val_bound r (proj2 Hr)) as Hbr.
    rewrite (proj1 Hr) in Hbr. fold P in Hbr. split_and!; [done|done| |].
    + apply (Z.mod_unique_pos _ _ q); lia.
    + intros Hd. destruct (Hflag Hd); [done|]. nia.
  - unfold overflowing_mul_u64, carrying_mul_u64. destruct (mul_u64_limbs a y 0) as [r c] eqn:E.
    destruct (mul_u64_limbs_ok a y 0 r c) as (Hr & Hc & Hv); [done..|]. rewrite Hla in Hr, Hv. fold P in Hv.
    exists r, c. split_and!; [done|done|apply Hc..|lia|]. f_equal.
    pose proof (val_bound r (proj2 Hr)) as Hbr. rewrite (proj1 Hr) in Hbr. fold P in Hbr.
    unfold word_ok in Hc. destruct (Z.eqb_spec c 0) as [->|]; symmetry; [apply Z.leb_gt; lia|apply Z.leb_le; nia].
Qed.

Lemma mul_exact_witness :
  (∃ r d, overflowing_mul 2 [7; 3] [0; B - 1] = (r, d) ∧ wf 2 r
        ∧ val r = (val [7; 3] * val [0; B - 1]) mod B ^ 2
        ∧ (d = true → B ^ 2 ≤ val [7; 3] * val [0; B - 1]))
  ∧ (∃ r c, carrying_mul_u64 [7; 3] (B - 1) = (r, c) ∧ wf 2 r ∧ word_ok c
        ∧ val r + B ^ 2 * c = val [7; 3] * (B - 1)
        ∧ overflowing_mul_u64 [7; 3] (B - 1) = (r, B ^ 2 <=? val [7; 3] * (B - 1))).
Proof.
  apply (mul_exact 2 [7; 3] [0; B - 1] (B - 1));
    [split; [done|repeat constructor; done]..|done].
Defined.

(** The flag of the product of two values does not report every overflow: limb
    products of rank at least [LIMBS] are skipped without being tested, so the
    product of [2^192] with itself in 256 bits gives 0 with the flag clear, and the
    operator [*] returns 0 instead of failing its debug assertion. *)
Theorem mul_flag_misses_overflow :
  let a := [0; 0; 0; 1] in
  wf 4 a ∧ B ^ 4 ≤ val a * val a ∧ overflowing_mul 4 a a = (ZERO 4, false)
  ∧ mul (E:=unit) 4 a a = Ok (ZERO 4).
Proof. cbv zeta. split_and!; [split; [done|repeat constructor; done]|by vm_compute..]. Qed.

(** The bitwise long division and the division by a [u64] return the quotient
    and the remainder; division by zero panics. *)
Theorem division_exact {E} (n : nat) (a b : Uint) (y : Z) :
  wf n a → wf n b → word_ok y →
  (0 < val b → ∃ q r, div_rem (E:=E) n a b = Ok (q, r) ∧ wf n q ∧ wf n r
       ∧ val q = val a / val b ∧ val r = val a mod val b)
  ∧ (val b = 0 → div_rem (E:=E) n a b = Panic)
  ∧ (0 < y → ∃ q, div_rem_u64 (E:=E) n a y = Ok (q, val a mod y) ∧ wf n q ∧ val q = val a / y).
Proof.
  intros Ha Hb Hy. split_and!.
  - by apply div_rem_value.
  - by apply div_rem_zero.
  - intros Hpos. unfold div_rem_u64. rewrite (proj2 (Z.eqb_neq y 0)) by lia. simpl.
    destruct (div_rem_u64_limbs a y) as [q r] eqn:Eq.
    destruct (div_rem_u64_limbs_ok a y q r (proj2 Ha) Hpos Hy Eq) as (Hq & Hr & Hv).
    rewrite (proj1 Ha) in Hq. exists q. split_and!; [|done|].
    + do 2 f_equal. apply (Z.mod_unique_pos _ _ (val q)); lia.
    + apply (Z.div_unique_pos _ _ _ r); lia.
Qed.

Lemma division_exact_witness :
  ∃ q r, div_rem (E:=unit) 2 [7; 3] [5; 0] = Ok (q, r) ∧ wf 2 q ∧ wf 2 r
    ∧ val q = val [7; 3] / val [5; 0] ∧ val r = val [7; 3] mod val [5; 0].
Proof.
  apply (division_exact 2 [7; 3] [5; 0] 5); [split; [done|repeat constructor; done]..|done|done].
Defined.

(** Shifts, bit length, order and the bitwise operators on limbs are those of
    the numbers the limbs stand for. *)
Theorem bit_operations_exact (n : nat) (a b : Uint) (s : Z) :
  wf n a → wf n b → 0 ≤ s < BITS n →
  (∃ r, overflowing_shl n a s = (r, false) ∧ wf n r ∧ val r = (val a * 2 ^ s) mod 2 ^ BITS n)
  ∧ (∃ r, overflowing_shr n a s = (r, false) ∧ wf n r ∧ val r = val a / 2 ^ s)
  ∧ bits n a = (if val a =? 0 then 0 else Z.log2 (val a) + 1)
  ∧ cmp a b = (val a ?= val b)
  ∧ val (bitand a b) = Z.land (val a) (val b)
  ∧ val (bitor a b) = Z.lor (val a) (val b)
  ∧ val (bitxor a b) = Z.lxor (val a) (val b)
  ∧ val (not a) = B ^ Z.of_nat n - 1 - val a.
Proof.
  intros Ha Hb Hs. split_and!.
  - by apply overflowing_shl_ok.
  - by apply overflowing_shr_ok.
  - by apply bits_ok.
  - by apply (cmp_ok n).
  - apply (bitwise_val _ andb) with (n := n); try done; [intros; by apply Z.land_spec|].
    intros. apply Z.land_nonneg. by left.
  - apply (bitwise_val _ orb) with (n := n); try done; [intros; by apply Z.lor_spec|].
    intros. by apply Z.lor_nonneg.
  - apply (bitwise_val _ xorb) with (n := n); try done; [intros; by apply Z.lxor_spec|].
    intros. by apply Z.lxor_nonneg.
  - by apply val_not.
Qed.

Lemma bit_operations_exact_witness :
  bits 2 [7; 3] = (if val [7; 3] =? 0 then 0 else Z.log2 (val [7; 3]) + 1)
  ∧ cmp [7; 3] [9; 3] = (val [7; 3] ?= val [9; 3]).
Proof.
  destruct (bit_operations_exact 2 [7; 3] [9; 3] 65) as (_ & _ & Hb & Hc & _);
    [split; [done|repeat constructor; done]..|done|]. split; [exact Hb|exact Hc].
Defined.

(** C35: the integers of the macro are closed under their operations.  On values of [n]
    limbs every operation returns [n] limbs that are words, and these spell the exact
    result modulo the range: sums and differences with exact flags, products, quotient
    and remainder (division by zero panics), shifts and the bitwise operators. *)
Theorem operations_typed {E} (n : nat) (a b : Uint) (s : Z) : wf (S n) a → wf (S n) b → 0 ≤ s < BITS (S n) →
  let R := B ^ Z.of_nat (S n) in
  (∃ r, overflowing_add a b = (r, R <=? val a + val b) ∧ wf (S n) r ∧ val r = (val a + val b) mod R)
  ∧ (∃ r, overflowing_sub a b = (r, val a <? val b) ∧ wf (S n) r ∧ val r = (val a - val b) mod R)
  ∧ (∃ r d, overflowing_mul (S n) a b = (r, d) ∧ wf (S n) r ∧ val r = (val a * val b) mod R)
  ∧ (val b = 0 → div_rem (E:=E) (S n) a b = Panic)
  ∧ (val b ≠ 0 → ∃ q r, div_rem (E:=E) (S n) a b = Ok (q, r) ∧ wf (S n) q ∧ wf (S n) r
      ∧ val q = val a / val b ∧ val r = val a mod val b)
  ∧ (∃ r, overflowing_shl (S n) a s = (r, false) ∧ wf (S n) r ∧ val r = (val a * 2 ^ s) mod 2 ^ BITS (S n))
  ∧ (∃ r, overflowing_shr (S n) a s = (r, false) ∧ wf (S n) r ∧ val r = val a / 2 ^ s)
  ∧ (wf (S n) (bitand a b) ∧ val (bitand a b) = Z.land (val a) (val b))
  ∧ (wf (S n) (bitor a b) ∧ val (bitor a b) = Z.lor (val a) (val b))
  ∧ (wf (S n) (bitxor a b) ∧ val (bitxor a b) = Z.lxor (val a) (val b))
  ∧ (wf (S n) (not a) ∧ val (not a) = R - 1 - val a).
Proof.
  intros Ha Hb Hs R. destruct (add_sub_exact n a b 0 Ha Hb) as (H1 & _ & H2); [done|].
  destruct (mul_exact (S n) a b 0 Ha Hb) as ((r & d & H3 & H4 & H5 & _) & _); [done|].
  destruct (bit_operations_exact (S n) a b s Ha Hb Hs) as (H6 & H7 & _ & _ & H8 & H9 & H10 & H11).
  destruct (division_exact (E:=E) (S n) a b 0 Ha Hb) as (Hd & Hz & _); [done|].
  split_and!; try done; [by exists r, d| | | | |by apply val_not].
  - intros Hv. assert (0 ≤ val b) as H0 by apply (val_bound b (proj2 Hb)). apply Hd. lia.
  - apply (bitwise_wf _ andb); try done; [intros; by apply Z.land_spec|]. intros. apply Z.land_nonneg. by left.
  - apply (bitwise_wf _ orb); try done; [intros; by apply Z.lor_spec|]. intros. by apply Z.lor_nonneg.
  - apply (bitwise_wf _ xorb); try done; [intros; by apply Z.lxor_spec|]. intros. by apply Z.lxor_nonneg.
Qed.

Lemma operations_typed_witness :
  (∃ r, overflowing_add [B - 1; B - 1] [1; 5] = (r, true) ∧ wf 2 r)
  ∧ (wf 2 (bitand [B - 1; B - 1] [1; 5]) ∧ val (bitand [B - 1; B - 1] [1; 5]) = Z.land (val [B - 1; B - 1]) (val [1; 5])).
Proof.
  destruct (operations_typed (E:=unit) 1 [B - 1; B - 1] [1; 5] 65) as ((r & Hr & Hw & _) & _ & _ & _ & _ & _ & _ & Hand & _);
    [split; [done|repeat constructor; done]..|done|]. split; [exists r; split; [exact Hr|exact Hw]|exact Hand].
Defined.

(** The byte encodings round-trip in both directions, and the big-endian bytes
    are the little-endian bytes reversed. *)
Theorem bytes_roundtrip (n : nat) (a : Uint) (bytes : list Z) :
  wf n a → length bytes = (8 * n)%nat → bytes_ok bytes →
  from_le_bytes n (to_le_bytes a) = a ∧ to_le_bytes (from_le_bytes n bytes) = bytes
  ∧ from_be_bytes n (to_be_bytes a) = a ∧ to_be_bytes a = reverse (to_le_bytes a).
Proof.
  intros [Hl Ha] Hlen Hb.
  assert (∀ x, x ∈ a → of_le_bytes (le_bytes 8 x) = x) as Hx.
  { intros x Hin. apply of_le_bytes_le. rewrite Forall_forall in Ha. exact (Ha x Hin). }
  split_and!.
  - unfold from_le_bytes, to_le_bytes. rewrite <- Hl, <- (length_fmap (le_bytes 8) a), chunks_join.
    + rewrite <- list_fmap_compose. apply fmap_self. intros. by apply Hx.
    + apply Forall_fmap, Forall_true. intros. apply le_bytes_length.
  - unfold from_le_bytes, to_le_bytes. destruct (join_chunks n bytes Hlen) as [Hj Hc].
    assert (Forall bytes_ok (chunks_exact n bytes)) as Hcb.
    { apply Forall_forall. intros c Hin. apply Forall_forall. intros x Hxc. unfold bytes_ok in Hb.
      rewrite Forall_forall in Hb. apply Hb. rewrite <- Hj. apply list_elem_of_join. eauto. }
    rewrite <- list_fmap_compose, fmap_self; [done|]. intros c Hin.
    rewrite Forall_forall in Hcb, Hc. pose proof (le_of_le_bytes c (Hcb c Hin)) as Hcc.
    rewrite (Hc c Hin) in Hcc. exact Hcc.
  - unfold from_be_bytes, to_be_bytes.
    rewrite <- Hl, <- (length_reverse a), <- (length_fmap (reverse ∘ le_bytes 8) (reverse a)), chunks_join.
    + rewrite <- list_fmap_compose, fmap_self; [apply reverse_involutive|].
      intros x Hin. rewrite elem_of_reverse in Hin. unfold compose. rewrite reverse_involutive. exact (Hx x Hin).
    + apply Forall_fmap, Forall_true. intros. unfold compose. rewrite length_reverse. apply le_bytes_length.
  - unfold to_be_bytes, to_le_bytes. clear. induction a as [|x a IH]; [done|].
    rewrite reverse_cons, fmap_app, mjoin_app, IH. cbn [fmap list_fmap mjoin list_join].
    rewrite app_nil_r, reverse_app. done.
Qed.

Lemma bytes_roundtrip_witness :
  from_le_bytes 1 (to_le_bytes [515]) = [515] ∧ to_le_bytes (from_le_bytes 1 [1; 2; 3; 4; 5; 6; 7; 8]) = [1; 2; 3; 4; 5; 6; 7; 8]
  ∧ from_be_bytes 1 (to_be_bytes [515]) = [515] ∧ to_be_bytes [515] = reverse (to_le_bytes [515]).
Proof.
  apply (bytes_roundtrip 1 [515] [1; 2; 3; 4; 5; 6; 7; 8]);
    [split; [done|repeat constructor; done]|done|repeat constructor; done].
Defined.
End Uint.
