(* ===== verification/Target.v ===== *)
(** * Difficulty targets and work

    [math/src/lib.rs] (the compact encoding of a target and the conversions
    between widths) and [calc_work] of [consensus/src/processes/difficulty.rs]. *)

From S2P Require Import Prelude Uint.
Import Uint (Uint, val, wf).

Definition LIMBS_192 : nat := 3.
Definition LIMBS_256 : nat := 4.
Definition LIMBS_320 : nat := 5.

Definition u32_of (z : Z) : Z := z mod 2 ^ 32.

(** [Uint256::from_compact_target_bits]; [bits] is a [u32]. *)
Definition compact_parts (bits : Z) : Z * Z :=
  let unshifted_expt := Z.shiftr bits 24 in
  if unshifted_expt <=? 3 then
    (Z.shiftr (Z.land bits 0xFFFFFF) (8 * (3 - unshifted_expt)), 0)
  else (Z.land bits 0xFFFFFF, 8 * (Z.shiftr bits 24 - 3)).
Definition from_compact_target_bits {E} (bits : Z) : outcome E Uint :=
  let '(mant, expt) := compact_parts bits in
  if 0x7FFFFF <? mant then mret (Uint.ZERO LIMBS_256)
  else Uint.shl LIMBS_256 (Uint.from_u64 LIMBS_256 mant) expt.

(** [Uint256::compact_target_bits]: the [u64] shift to the left drops no bit that
    the conversion to [u32] keeps. *)
Definition compact_target_bits {E} (a : Uint) : outcome E Z :=
  let size := (Uint.bits LIMBS_256 a + 7) / 8 in
  compact ← (if size <=? 3 then
      mret (u32_of (word_shl (Uint.as_u64 a) (8 * (3 - size))))
    else
      bn ← Uint.shr LIMBS_256 a (8 * (size - 3)); mret (u32_of (Uint.as_u64 bn)));
  let '(compact, size) :=
    if negb (Z.land compact 0x00800000 =? 0) then (Z.shiftr compact 8, size + 1) else (compact, size) in
  mret (Z.lor compact (u32_of (Z.shiftl size 24))).

(** [From<Uint256> for Uint320] and the two [TryFrom]s. *)
Definition uint320_from_uint256 (a : Uint) : Uint := a ++ [0].
Definition uint256_try_from_uint320 (a : Uint) : outcome Uint.TryFromIntError Uint :=
  if negb (Uint.limb a 4 =? 0) then Err Uint.OutOfRange else Ok (take 4 a).
Definition uint192_try_from_uint256 (a : Uint) : outcome Uint.TryFromIntError Uint :=
  if negb (Uint.limb a 3 =? 0) then Err Uint.OutOfRange else Ok (take 3 a).

(** [calc_work]. *)
Definition calc_work {E} (bits : Z) : outcome E Uint :=
  target ← from_compact_target_bits bits;
  target_plus_one ← Uint.add_u64 target 1;
  q ← Uint.div LIMBS_256 (Uint.not target) target_plus_one;
  res ← Uint.add_u64 q 1;
  unwrap (uint192_try_from_uint256 res).

(** ** Reference values *)

(** The target a compact encoding stands for. *)
Definition target_of (bits : Z) : Z :=
  let e := bits / 2 ^ 24 in
  let m := bits mod 2 ^ 24 in
  let mant := if e <=? 3 then m / 2 ^ (8 * (3 - e)) else m in
  if 0x7FFFFF <? mant then 0 else mant * 2 ^ (8 * Z.max 0 (e - 3)).

Lemma from_u64_ok n x : word_ok x → wf (S n) (Uint.from_u64 (S n) x) ∧ val (Uint.from_u64 (S n) x) = x.
Proof.
  intros Hx. unfold Uint.from_u64. change (<[0%nat := x]> (Uint.ZERO (S n))) with (x :: Uint.ZERO n).
  split; [apply Uint.wf_cons; split; [done|apply Uint.wf_zero]|].
  rewrite Uint.val_cons, Uint.val_zero. lia.
Qed.

Lemma compact_parts_ok bits : 0 ≤ bits < 2 ^ 32 →
  ∃ mant expt, compact_parts bits = (mant, expt) ∧ 0 ≤ mant < 2 ^ 24 ∧ 0 ≤ expt
    ∧ mant = (if bits / 2 ^ 24 <=? 3 then (bits mod 2 ^ 24) / 2 ^ (8 * (3 - bits / 2 ^ 24)) else bits mod 2 ^ 24)
    ∧ expt = 8 * Z.max 0 (bits / 2 ^ 24 - 3).
Proof.
  intros Hb. unfold compact_parts. rewrite !Z.shiftr_div_pow2 by done.
  change 0xFFFFFF with (Z.ones 24). rewrite !Z.land_ones by done.
  pose proof (Z.mod_pos_bound bits (2 ^ 24) ltac:(done)) as Hm.
  assert (0 ≤ bits / 2 ^ 24) by (apply Z.div_pos; lia).
  destruct (Z.leb_spec (bits / 2 ^ 24) 3) as [Hle|Hgt]; eexists _, _; (split; [reflexivity|]).
  - rewrite Z.shiftr_div_pow2 by lia. split_and!; [apply Z.div_pos; [lia|apply Z.pow_pos_nonneg; lia]| |done|done|lia].
    apply Z.le_lt_trans with (bits mod 2 ^ 24); [|lia]. apply Z.div_le_upper_bound; [apply Z.pow_pos_nonneg; lia|].
    assert (1 ≤ 2 ^ (8 * (3 - bits / 2 ^ 24))) by (apply Z.lt_pred_le, Z.pow_pos_nonneg; lia). nia.
  - split_and!; lia.
Qed.

(** Decoding gives the target, and panics exactly on a shift out of the width. *)
Lemma from_compact_ok {E} bits : 0 ≤ bits < 2 ^ 32 → bits / 2 ^ 24 ≤ 32 →
  ∃ t, from_compact_target_bits (E:=E) bits = Ok t ∧ wf 4 t ∧ val t = target_of bits
    ∧ target_of bits < 2 ^ 255.
Proof.
  intros Hb He. unfold from_compact_target_bits, target_of.
  destruct (compact_parts_ok bits Hb) as (mant & expt & -> & Hm & Hexp & Hmv & Hev).
  rewrite <- Hmv, <- Hev. destruct (Z.ltb_spec 0x7FFFFF mant) as [Hbig|Hsmall].
  { exists (Uint.ZERO 4). split_and!; [done|apply Uint.wf_zero|apply Uint.val_zero|done]. }
  destruct (from_u64_ok 3 mant) as [Hw Hv]; [unfold word_ok; rewrite Uint.B_val; lia|].
  destruct (Uint.overflowing_shl_ok 4 _ Hw expt) as (t & Ht & Hwt & Hvt); [unfold Uint.BITS; lia|].
  assert (mant * 2 ^ expt < 2 ^ 255) as Hlt.
  { apply Z.lt_le_trans with (2 ^ 23 * 2 ^ expt).
    - apply Z.mul_lt_mono_pos_r; [apply Z.pow_pos_nonneg; lia|]. simpl. lia.
    - rewrite <- Z.pow_add_r by lia. apply Z.pow_le_mono_r; lia. }
  exists t. unfold Uint.shl. change (Uint.from_u64 LIMBS_256 mant) with (Uint.from_u64 4 mant).
  change LIMBS_256 with 4%nat. rewrite Ht. split_and!; [done|done| |done].
  rewrite Hvt, Hv. apply Z.mod_small. split; [apply Z.mul_nonneg_nonneg; [lia|apply Z.pow_nonneg; lia]|].
  etrans; [exact Hlt|]. done.
Qed.

(** ** Encoding *)

(** The mantissa before normalisation: the three leading bytes. *)
Definition leading (v : Z) : Z :=
  let size := (Uint.nbits v + 7) / 8 in
  if size <=? 3 then v * 2 ^ (8 * (3 - size)) else v / 2 ^ (8 * (size - 3)).

(** The compact encoding of a number. *)
Definition compact_of (v : Z) : Z :=
  let size := (Uint.nbits v + 7) / 8 in
  let m := leading v in
  if m <? 2 ^ 23 then m + size * 2 ^ 24 else m / 2 ^ 8 + (size + 1) * 2 ^ 24.

Section encode.
Context (v : Z) (Hv : 0 ≤ v < 2 ^ 256).
Abbreviation size := ((Uint.nbits v + 7) / 8).

Lemma size_bounds : 0 ≤ size ≤ 32 ∧ v < 2 ^ (8 * size) ∧ (0 < v → 2 ^ (8 * (size - 1)) ≤ v ∧ 1 ≤ size).
Proof using Hv.
  destruct (Uint.nbits_bounds v ltac:(lia)) as (Hn & Hlt & Hle). set (b := Uint.nbits v) in *.
  assert (b ≤ 256) as Hb.
  { apply Z.le_ngt. intros Hgt. destruct (decide (v = 0)) as [H0|].
    - unfold b, Uint.nbits in Hgt. rewrite H0 in Hgt. done.
    - specialize (Hle ltac:(lia)). pose proof (Z.pow_le_mono_r 2 256 (b - 1)). lia. }
  assert (8 * ((b + 7) / 8) ≤ b + 7 ∧ b ≤ 8 * ((b + 7) / 8) ∧ 0 ≤ (b + 7) / 8 ≤ 32) as (H1 & H2 & H3) by euclid.
  split; [lia|]. split.
  - apply Z.lt_le_trans with (2 ^ b); [done|]. apply Z.pow_le_mono_r; lia.
  - intros Hpos. assert (0 < b) as Hb0.
    { unfold b, Uint.nbits. destruct (Z.eqb_spec v 0); [lia|]. pose proof (Z.log2_nonneg v). lia. }
    split; [|euclid]. etrans; [|by apply Hle]. apply Z.pow_le_mono_r; lia.
Qed.

Lemma leading_bounds : 0 ≤ leading v < 2 ^ 24 ∧ (0 < v → 2 ^ 16 ≤ leading v).
Proof using Hv.
  destruct size_bounds as (Hs & Hlt & Hge). unfold leading.
  destruct (Z.leb_spec size 3) as [Hle|Hgt].
  - assert (0 < 2 ^ (8 * (3 - size))) by (apply Z.pow_pos_nonneg; lia). split; [split; [nia|]|].
    + apply Z.lt_le_trans with (2 ^ (8 * size) * 2 ^ (8 * (3 - size))); [nia|].
      rewrite <- Z.pow_add_r by lia. apply Z.pow_le_mono_r; lia.
    + intros Hpos. destruct (Hge Hpos). etrans; [|apply Z.mul_le_mono_nonneg_r; [lia|eassumption]].
      rewrite <- Z.pow_add_r by lia. apply Z.pow_le_mono_r; lia.
  - assert (0 < 2 ^ (8 * (size - 3))) by (apply Z.pow_pos_nonneg; lia). split; [split|].
    + apply Z.div_pos; lia.
    + apply Z.div_lt_upper_bound; [done|]. rewrite <- Z.pow_add_r by lia.
      apply Z.lt_le_trans with (2 ^ (8 * size)); [done|]. apply Z.pow_le_mono_r; lia.
    + intros Hpos. destruct (Hge Hpos). apply Z.div_le_lower_bound; [done|].
      rewrite <- Z.pow_add_r by lia. etrans; [|eassumption]. apply Z.pow_le_mono_r; lia.
Qed.

(** Decoding a mantissa and a size. *)
Lemma target_of_parts m s :
  0 ≤ m < 2 ^ 23 → 0 ≤ s →
  target_of (m + s * 2 ^ 24)
  = if s <=? 3 then m / 2 ^ (8 * (3 - s)) else m * 2 ^ (8 * (s - 3)).
Proof using.
  intros Hm Hs. unfold target_of.
  rewrite Z.div_add, Z.div_small, Z.add_0_l, Z.mod_add, Z.mod_small by lia.
  destruct (Z.leb_spec s 3).
  - assert (0 < 2 ^ (8 * (3 - s))) by (apply Z.pow_pos_nonneg; lia).
    assert (m / 2 ^ (8 * (3 - s)) ≤ m) by (apply Z.div_le_upper_bound; nia).
    destruct (Z.ltb_spec 0x7FFFFF (m / 2 ^ (8 * (3 - s)))); [lia|].
    rewrite Z.max_l by lia. simpl. lia.
  - destruct (Z.ltb_spec 0x7FFFFF m); [lia|]. rewrite Z.max_r by lia. done.
Qed.

(** The encoding rounds down, by less than one part in 2^15, and is exact on
    numbers of at most 23 bits. *)
Lemma compact_of_precise :
  0 ≤ compact_of v < 2 ^ 32 ∧ compact_of v / 2 ^ 24 ≤ 33
  ∧ target_of (compact_of v) ≤ v ∧ (v - target_of (compact_of v)) * 2 ^ 15 ≤ v
  ∧ (v < 2 ^ 23 → target_of (compact_of v) = v).
Proof using Hv.
  destruct size_bounds as (Hs & Hlt & Hge). destruct leading_bounds as [Hm Hmlo].
  assert (∃ m s, compact_of v = m + s * 2 ^ 24 ∧ 0 ≤ m < 2 ^ 23 ∧ 0 ≤ s ≤ 33
    ∧ (0 < v → 2 ^ 15 ≤ m)
    ∧ (s ≤ 3 → m = v * 2 ^ (8 * (3 - s)))
    ∧ (3 < s → m = v / 2 ^ (8 * (s - 3)) ∧ 2 ^ 23 ≤ v)) as (m & s & -> & Hm' & Hs' & Hlo & Hsmall & Hbig).
  { unfold compact_of. destruct (Z.ltb_spec (leading v) (2 ^ 23)) as [Hclear|Hset].
    - exists (leading v), size. split_and!; try lia; intros Hc; unfold leading in *.
      + rewrite (proj2 (Z.leb_le _ _)) by lia. done.
      + rewrite (proj2 (Z.leb_gt _ _)) by lia. destruct (decide (v = 0)) as [H0|].
        { rewrite H0 in Hc. done. }
        destruct (Hge ltac:(lia)) as [Hp _]. split; [done|]. etrans; [|exact Hp]. apply Z.pow_le_mono_r; lia.
    - exists (leading v / 2 ^ 8), (size + 1). split_and!; try lia; try euclid.
      + intros Hc. unfold leading. rewrite (proj2 (Z.leb_le _ _)) by lia.
        replace (8 * (3 - size)) with (8 * (3 - (size + 1)) + 8) by lia.
        rewrite Z.pow_add_r, Z.mul_assoc, Z.div_mul by lia. done.
      + intros Hc. unfold leading. destruct (Z.leb_spec size 3) as [Hle|Hgt].
        * assert (size = 3) as Hs3 by lia. unfold leading in Hset. rewrite Hs3 in *. simpl in *. split; [f_equal; lia|lia].
        * unfold leading in Hset. rewrite Z.div_div by (try apply Z.pow_nonzero; lia).
          rewrite <- Z.pow_add_r by lia. split; [do 2 f_equal; lia|].
          rewrite (proj2 (Z.leb_gt _ _)) in Hset by lia. etrans; [exact Hset|].
          apply Z.div_le_upper_bound; [apply Z.pow_pos_nonneg; lia|].
          assert (1 ≤ 2 ^ (8 * (size - 3))) by (apply Z.lt_pred_le, Z.pow_pos_nonneg; lia). nia. }
  split; [lia|]. split; [euclid|]. rewrite target_of_parts by lia.
  destruct (Z.leb_spec s 3) as [Hle|Hgt].
  - rewrite (Hsmall Hle), Z.div_mul by (apply Z.pow_nonzero; lia). split_and!; lia.
  - destruct (Hbig Hgt) as [Hmv H23]. set (u := 2 ^ (8 * (s - 3))) in *.
    assert (0 < u) by (apply Z.pow_pos_nonneg; lia). specialize (Hlo ltac:(lia)).
    pose proof (Z.div_mod v u ltac:(lia)). pose proof (Z.mod_pos_bound v u ltac:(lia)).
    rewrite <- Hmv in *. split_and!; nia.
Qed.

Lemma compact_code {E} a : wf 4 a → val a = v → compact_target_bits (E:=E) a = Ok (compact_of v).
Proof using Hv.
  intros Ha Hav. destruct size_bounds as (Hs & Hlt & Hge). destruct leading_bounds as [Hm _].
  unfold compact_target_bits. change LIMBS_256 with 4%nat. rewrite (Uint.bits_ok 4 a Ha), Hav.
  assert (∀ x, wf 4 x → val x < 2 ^ 32 → u32_of (Uint.as_u64 x) = val x) as Hu32.
  { intros x Hx Hx32. destruct x as [|w x]; [by destruct Hx|]. apply Uint.wf_cons in Hx as [Hw Hx].
    pose proof (Uint.val_bound x (proj2 Hx)). rewrite Uint.val_cons in *. unfold Uint.as_u64, Uint.limb. simpl.
    unfold u32_of, word_ok in *. rewrite Uint.B_val in *. rewrite Z.mod_small; lia. }
  assert ((if size <=? 3 then mret (u32_of (word_shl (Uint.as_u64 a) (8 * (3 - size))))
    else bn ← Uint.shr 4 a (8 * (size - 3)); mret (u32_of (Uint.as_u64 bn))) = Ok (E:=E) (leading v)) as ->.
  { unfold leading in *. revert Hm. destruct (Z.leb_spec size 3) as [Hle|Hgt]; intros Hm.
    - assert (v < 2 ^ 32) as Hv32.
      { apply Z.lt_le_trans with (2 ^ (8 * size)); [done|]. apply Z.pow_le_mono_r; lia. }
      assert (Uint.as_u64 a = v) as ->.
      { rewrite <- Hav in Hv32 |- *. destruct a as [|w x]; [by destruct Ha|]. apply Uint.wf_cons in Ha as [Hw Hx].
        pose proof (Uint.val_bound x (proj2 Hx)). rewrite Uint.val_cons in *. unfold Uint.as_u64, Uint.limb. simpl.
        unfold word_ok in *. rewrite Uint.B_val in *. lia. }
      unfold word_shl, u32_of. rewrite Z.shiftl_mul_pow2 by lia. revert Hm. generalize (v * 2 ^ (8 * (3 - size))).
      intros w Hw. rewrite Uint.B_val, !(Z.mod_small w) by lia. done.
    - destruct (Uint.overflowing_shr_ok 4 a Ha (8 * (size - 3))) as (bn & Hbn & Hwf & Hval);
        [unfold Uint.BITS; lia|].
      unfold Uint.shr. rewrite Hbn. cbn [Uint.checked_op mbind outcome_bind fst snd]. rewrite Hav in Hval.
      rewrite Hu32 by (done || lia). by rewrite Hval. }
  cbn [mbind outcome_bind]. unfold compact_of.
  assert (Z.land (leading v) 0x800000 = if leading v <? 2 ^ 23 then 0 else 2 ^ 23) as ->.
  { change 0x800000 with (2 ^ 23). apply Z.bits_inj'. intros i Hi. rewrite Z.land_spec, Z.pow2_bits_eqb by done.
    destruct (Z.ltb_spec (leading v) (2 ^ 23)) as [Hc|Hc]; rewrite ?Z.bits_0, ?Z.pow2_bits_eqb by done;
      destruct (Z.eqb_spec 23 i) as [<-|]; rewrite ?andb_false_r, ?andb_true_r; try done.
    - apply (Uint.bit_above _ 23); lia.
    - apply Z.testbit_true; [done|]. rewrite <- (Z.div_unique_pos (leading v) (2 ^ 23) 1 (leading v - 2 ^ 23)); [done|lia..]. }
  assert (∀ m z, 0 ≤ m < 2 ^ 24 → 0 ≤ z ≤ 33 → Z.lor m (u32_of (Z.shiftl z 24)) = m + z * 2 ^ 24) as Hlor.
  { intros m z Hmz Hz. unfold u32_of. rewrite Z.lor_comm, (Z.mod_small (Z.shiftl z 24)).
    - rewrite Uint.lor_shl_add by lia. lia.
    - rewrite Z.shiftl_mul_pow2 by done. lia. }
  destruct (Z.ltb_spec (leading v) (2 ^ 23)) as [Hc|Hc].
  - change (negb (0 =? 0)) with false. cbv beta iota. by rewrite Hlor by lia.
  - change (negb (2 ^ 23 =? 0)) with true. cbv beta iota. rewrite Z.shiftr_div_pow2 by done.
    rewrite Hlor; [done|euclid|lia].
Qed.
End encode.

(** ** Work *)

(** A checked addition of 1. *)
Lemma add_one {E} n a : wf (S n) a →
  (val a + 1 < B ^ Z.of_nat (S n) → ∃ r, Uint.add_u64 (E:=E) a 1 = Ok r ∧ wf (S n) r ∧ val r = val a + 1)
  ∧ (B ^ Z.of_nat (S n) ≤ val a + 1 → Uint.add_u64 (E:=E) a 1 = Panic).
Proof.
  intros Ha. unfold Uint.add_u64. destruct (Uint.overflowing_add_u64 a 1) as [r d] eqn:Hadd.
  destruct (Uint.add_u64_limbs_ok n a 1 r d Ha ltac:(done) Hadd) as [Hr Hv].
  pose proof (Uint.val_bound r (proj2 Hr)) as Hb. rewrite (proj1 Hr) in Hb.
  unfold Uint.checked_op. simpl. destruct d; cbn [Z.b2z] in Hv; (split; [intros Hlt|intros Hge]); try lia; [done|].
  exists r. split_and!; [done..|lia].
Qed.

Lemma narrow_192 a : wf 4 a →
  (val a < 2 ^ 192 → ∃ r, uint192_try_from_uint256 a = Ok r ∧ wf 3 r ∧ val r = val a)
  ∧ (2 ^ 192 ≤ val a → uint192_try_from_uint256 a = Err Uint.OutOfRange).
Proof.
  intros Ha. destruct a as [|x0 [|x1 [|x2 [|x3 [|? ?]]]]]; try by destruct Ha.
  destruct Ha as [_ Ha]. rewrite !Forall_cons in Ha. destruct Ha as (H0 & H1 & H2 & H3 & _).
  assert (val [x0; x1; x2; x3] = val [x0; x1; x2] + 2 ^ 192 * x3) as Hval.
  { rewrite !Uint.val_cons. change (val []) with 0. unfold B. ring. }
  assert (wf 3 [x0; x1; x2]) as Hw by (split; [done|do 3 (apply Forall_cons_2; [done|]); constructor]).
  pose proof (Uint.val_bound _ (proj2 Hw)) as Hb. change (B ^ Z.of_nat (length [x0; x1; x2])) with (2 ^ 192) in Hb.
  unfold word_ok in H3. unfold uint192_try_from_uint256, Uint.limb. cbn [nth].
  destruct (Z.eqb_spec x3 0) as [->|Hne]; cbn [negb]; split; intros Hc; try lia; [|done].
  exists [x0; x1; x2]. split_and!; [done|done|lia].
Qed.

Lemma narrow_256 a : wf 5 a →
  (val a < 2 ^ 256 → ∃ r, uint256_try_from_uint320 a = Ok r ∧ wf 4 r ∧ val r = val a)
  ∧ (2 ^ 256 ≤ val a → uint256_try_from_uint320 a = Err Uint.OutOfRange).
Proof.
  intros Ha. destruct a as [|x0 [|x1 [|x2 [|x3 [|x4 [|? ?]]]]]]; try by destruct Ha.
  destruct Ha as [_ Ha]. rewrite !Forall_cons in Ha. destruct Ha as (H0 & H1 & H2 & H3 & H4 & _).
  assert (val [x0; x1; x2; x3; x4] = val [x0; x1; x2; x3] + 2 ^ 256 * x4) as Hval.
  { rewrite !Uint.val_cons. change (val []) with 0. unfold B. ring. }
  assert (wf 4 [x0; x1; x2; x3]) as Hw by (split; [done|do 4 (apply Forall_cons_2; [done|]); constructor]).
  pose proof (Uint.val_bound _ (proj2 Hw)) as Hb. change (B ^ Z.of_nat (length [x0; x1; x2; x3])) with (2 ^ 256) in Hb.
  unfold word_ok in H4. unfold uint256_try_from_uint320, Uint.limb. cbn [nth].
  destruct (Z.eqb_spec x4 0) as [->|Hne]; cbn [negb]; split; intros Hc; try lia; [|done].
  exists [x0; x1; x2; x3]. split_and!; [done|done|lia].
Qed.

Lemma calc_work_value {E} bits : 0 ≤ bits < 2 ^ 32 → bits / 2 ^ 24 ≤ 32 →
  let work := 2 ^ 256 / (target_of bits + 1) in
  (work < 2 ^ 192 → ∃ w, calc_work (E:=E) bits = Ok w ∧ wf 3 w ∧ val w = work ∧ 1 ≤ work)
  ∧ (2 ^ 192 ≤ work → calc_work (E:=E) bits = Panic).
Proof.
  intros Hb He work. destruct (from_compact_ok (E:=E) bits Hb He) as (t & Ht & Hwt & Hvt & Hlt).
  pose proof (Uint.val_bound t (proj2 Hwt)) as Htb. rewrite (proj1 Hwt), Hvt in Htb.
  change (B ^ Z.of_nat 4) with (2 ^ 256) in Htb. set (T := target_of bits) in *.
  unfold calc_work. rewrite Ht. cbn [mbind outcome_bind].
  destruct (add_one (E:=E) 3 t Hwt) as [Hadd _]. destruct Hadd as (t1 & Ht1 & Hwt1 & Hvt1).
  { rewrite Hvt. change (B ^ Z.of_nat 4) with (2 ^ 256). lia. }
  rewrite Ht1. cbn [mbind outcome_bind]. destruct (Uint.val_not 4 t Hwt) as [Hwn Hvn].
  destruct (Uint.div_rem_value (E:=E) 4 (Uint.not t) t1 Hwn Hwt1) as (q & r & Hdiv & Hwq & _ & Hvq & _); [lia|].
  unfold Uint.div. change LIMBS_256 with 4%nat. rewrite Hdiv. cbn [mbind outcome_bind mret outcome_ret].
  rewrite Hvn, Hvt1, Hvt in Hvq. change (B ^ Z.of_nat 4) with (2 ^ 256) in Hvq.
  assert (val q + 1 = work) as Hwork.
  { unfold work. rewrite Hvq, <- (Z.div_add _ 1) by lia. f_equal. lia. }
  destruct (add_one (E:=E) 3 q Hwq) as [Hok Hover]. change (B ^ Z.of_nat 4) with (2 ^ 256) in *.
  rewrite Hwork in *. destruct (decide (work < 2 ^ 256)) as [Hfit|Hnofit].
  - destruct (Hok Hfit) as (res & Hres & Hwres & Hvres). rewrite Hres. cbn [mbind outcome_bind].
    destruct (narrow_192 res Hwres) as [Hn1 Hn2]. rewrite Hvres in Hn1, Hn2. split; intros Hc.
    + destruct (Hn1 Hc) as (w & -> & Hw & Hvw). exists w. split_and!; try done.
      unfold work. apply Z.div_le_lower_bound; lia.
    + rewrite (Hn2 Hc). done.
  - rewrite (Hover ltac:(lia)). split; [lia|done].
Qed.

(** ** Properties *)

(** [compact_target_bits] encodes any 256-bit target in 32 bits; the encoding
    stands for a target that is not larger, that differs by at most one part in
    2^15, and that is the same when the target has at most 23 bits. *)
Theorem compact_encoding_precise {E} (a : Uint) :
  wf 4 a →
  ∃ c, compact_target_bits (E:=E) a = Ok c ∧ 0 ≤ c < 2 ^ 32
    ∧ target_of c ≤ val a ∧ (val a - target_of c) * 2 ^ 15 ≤ val a
    ∧ (val a < 2 ^ 23 → target_of c = val a).
Proof.
  intros Ha. pose proof (Uint.val_bound a (proj2 Ha)) as Hb. rewrite (proj1 Ha) in Hb.
  change (B ^ Z.of_nat 4) with (2 ^ 256) in Hb. exists (compact_of (val a)).
  destruct (compact_of_precise (val a) Hb) as (Hc & _ & Hrest). split_and!; try apply Hrest; try apply Hc.
  by apply compact_code.
Qed.

Lemma compact_encoding_precise_witness :
  ∃ c, compact_target_bits (E:=unit) [0; 12345678901; 0; 0] = Ok c ∧ 0 ≤ c < 2 ^ 32
    ∧ target_of c ≤ val [0; 12345678901; 0; 0]
    ∧ (val [0; 12345678901; 0; 0] - target_of c) * 2 ^ 15 ≤ val [0; 12345678901; 0; 0]
    ∧ (val [0; 12345678901; 0; 0] < 2 ^ 23 → target_of c = val [0; 12345678901; 0; 0]).
Proof.
  apply (compact_encoding_precise [0; 12345678901; 0; 0]); split; [done|repeat constructor; done].
Defined.

(** [from_compact_target_bits] decodes every encoding whose exponent is at most
    32 to the target it stands for, which has at most 255 bits. *)
Theorem compact_decoding_exact {E} (bits : Z) :
  0 ≤ bits < 2 ^ 32 → bits / 2 ^ 24 ≤ 32 →
  ∃ t, from_compact_target_bits (E:=E) bits = Ok t ∧ wf 4 t ∧ val t = target_of bits
    ∧ target_of bits < 2 ^ 255.
Proof. apply from_compact_ok. Qed.

Lemma compact_decoding_exact_witness :
  ∃ t, from_compact_target_bits (E:=unit) 0x1d00ffff = Ok t ∧ wf 4 t ∧ val t = target_of 0x1d00ffff
    ∧ target_of 0x1d00ffff < 2 ^ 255.
Proof. apply (compact_decoding_exact 0x1d00ffff); done. Defined.

(** [calc_work] is the integer part of 2^256 divided by the target plus one,
    at least 1, whenever that fits in 192 bits, and panics otherwise. *)
Theorem calc_work_exact {E} (bits : Z) :
  0 ≤ bits < 2 ^ 32 → bits / 2 ^ 24 ≤ 32 →
  let work := 2 ^ 256 / (target_of bits + 1) in
  (work < 2 ^ 192 → ∃ w, calc_work (E:=E) bits = Ok w ∧ wf 3 w ∧ val w = work ∧ 1 ≤ work)
  ∧ (2 ^ 192 ≤ work → calc_work (E:=E) bits = Panic).
Proof. apply calc_work_value. Qed.

Lemma calc_work_exact_witness :
  let work := 2 ^ 256 / (target_of 0x1d00ffff + 1) in
  (work < 2 ^ 192 → ∃ w, calc_work (E:=unit) 0x1d00ffff = Ok w ∧ wf 3 w ∧ val w = work ∧ 1 ≤ work)
  ∧ (2 ^ 192 ≤ work → calc_work (E:=unit) 0x1d00ffff = Panic).
Proof. apply (calc_work_exact 0x1d00ffff); done. Defined.
