(* ===== verification/Interval.v ===== *)
(** * Reachability intervals

    [consensus/src/processes/reachability/interval.rs]: the [Interval] struct, its
    constructors and resizing operations, and the three ways of splitting an
    interval between the children of a tree block.  The floating-point steps of
    [split_fraction] and [split_exponential] are modelled bit for bit: [f32] by
    its rounding to 24 significant bits, [f64] by the IEEE-754 operations of
    [SpecFloat] at precision 53. *)

From Corelib Require Import SpecFloat.
From S2P Require Import Prelude.

(** ** [f32]: scaled integers with 24 significant bits

    The value of [F32 m e] is [m * 2 ^ e].  The exponents that occur here (those
    of a [u64] times a constant) are far from the limits of the format. *)
Module Float32.

Record f32 : Type := F32 { mant : Z; expo : Z }.

(** Round [m * 2 ^ e] to 24 significant bits, ties to even. *)
Definition round (m e : Z) : f32 :=
  if m <? 2 ^ 24 then F32 m e
  else
    let d := Z.log2 m - 23 in
    let q := m / 2 ^ d in
    let r := m mod 2 ^ d in
    let half := 2 ^ (d - 1) in
    let up := (half <? r) || ((r =? half) && Z.odd q) in
    F32 (if up then q + 1 else q) (e + d).

(** [n as f32] for a [u64]. *)
Definition of_u64 (n : Z) : f32 := round n 0.
Definition mul (x y : f32) : f32 := round (mant x * mant y) (expo x + expo y).
Definition half : f32 := F32 1 (-1).

(** [f32::ceil], whose value is an integer. *)
Definition ceil (x : f32) : Z :=
  if 0 <=? expo x then mant x * 2 ^ expo x
  else - ((- mant x) / 2 ^ (- expo x)).

(** [x as u64] for a non-negative integral value: the cast saturates. *)
Definition as_u64 (z : Z) : Z := Z.min z u64_max.

End Float32.

(** ** [f64] *)
Module Float64.

Definition f64 : Type := spec_float.
Definition norm (m e : Z) : f64 := binary_normalize 53 1024 m e false.
Definition of_u64 (n : Z) : f64 := norm n 0.
Definition zero : f64 := S754_zero false.
Definition one : f64 := norm 1 0.
Definition add (x y : f64) : f64 := SFadd 53 1024 x y.
Definition mul (x y : f64) : f64 := SFmul 53 1024 x y.
Definition div (x y : f64) : f64 := SFdiv 53 1024 x y.

(** [2f64.powf(k as f64)] for a [u64] exponent: exact up to the largest binary
    exponent, infinite above it. *)
Definition pow2 (k : Z) : f64 :=
  if k <=? 1023 then norm 1 k else S754_infinity false.

(** [f64::round(x) as u64]: half away from zero, then the saturating cast, which
    sends NaN and the negative values to 0. *)
Definition round_as_u64 (x : f64) : Z :=
  match x with
  | S754_finite false m e =>
      Z.min (if 0 <=? e then Zpos m * 2 ^ e
             else (Zpos m + 2 ^ (- e - 1)) / 2 ^ (- e)) u64_max
  | S754_infinity false => u64_max
  | _ => 0
  end.

End Float64.

Module Interval.

Record Interval : Type := mk { start : Z; end_ : Z }.

#[global] Instance Interval_eq_dec : EqDecision Interval.
Proof. solve_decision. Defined.

Section ops.
Context {E : Type}.

Definition new (start end_ : Z) : outcome E Interval :=
  before ← sub64 start 1;
  assert (before <=? end_);;
  assert (0 <? start);;
  assert (end_ <? u64_max);;
  mret (mk start end_).

Definition empty : outcome E Interval := new 1 0.
Definition maximal : outcome E Interval := new 1 (u64_max - 1).

Definition size (self : Interval) : outcome E Z :=
  e ← add64 (end_ self) 1; sub64 e (start self).

Definition is_empty (self : Interval) : outcome E bool :=
  n ← size self; mret (n =? 0).

Definition increase (self : Interval) (offset : Z) : outcome E Interval :=
  s ← add64 (start self) offset; e ← add64 (end_ self) offset; new s e.
Definition decrease (self : Interval) (offset : Z) : outcome E Interval :=
  s ← sub64 (start self) offset; e ← sub64 (end_ self) offset; new s e.
Definition increase_start (self : Interval) (offset : Z) : outcome E Interval :=
  s ← add64 (start self) offset; new s (end_ self).
Definition decrease_start (self : Interval) (offset : Z) : outcome E Interval :=
  s ← sub64 (start self) offset; new s (end_ self).
Definition increase_end (self : Interval) (offset : Z) : outcome E Interval :=
  e ← add64 (end_ self) offset; new (start self) e.
Definition decrease_end (self : Interval) (offset : Z) : outcome E Interval :=
  e ← sub64 (end_ self) offset; new (start self) e.

Definition split_fraction (self : Interval) (fraction : Float32.f32)
    : outcome E (Interval * Interval) :=
  n ← size self;
  let left_size :=
    Float32.as_u64 (Float32.ceil (Float32.mul (Float32.of_u64 n) fraction)) in
  m ← add64 (start self) left_size;
  m1 ← sub64 m 1;
  left ← new (start self) m1;
  right ← new m (end_ self);
  mret (left, right).

Definition split_half (self : Interval) : outcome E (Interval * Interval) :=
  split_fraction self Float32.half.

(** The closure of [split_exact], run over the sizes from a moving start. *)
Fixpoint split_from (start : Z) (sizes : list Z) : outcome E (list Interval) :=
  match sizes with
  | [] => mret []
  | size :: sizes' =>
      next ← add64 start size;
      last ← sub64 next 1;
      interval ← new start last;
      rest ← split_from next sizes';
      mret (interval :: rest)
  end.

Definition split_exact (self : Interval) (sizes : list Z) : outcome E (list Interval) :=
  total ← sum64 sizes;
  n ← size self;
  assert (total =? n);;
  split_from (start self) sizes.

Definition exponential_fractions (sizes : list Z) : list Float64.f64 :=
  let max_size := foldr Z.max 0 sizes in
  let fractions :=
    (λ s, Float64.div Float64.one (Float64.pow2 (max_size - s))) <$> sizes in
  let fractions_sum := foldl Float64.add Float64.zero fractions in
  (λ item, Float64.div item fractions_sum) <$> fractions.

(** The loop over the enumerated fractions; [last] is [exp_fractions.len() - 1],
    [i] the index, [remaining_bias] and [biased_sizes] the mutable locals. *)
Fixpoint bias_loop (total_bias : Float64.f64) (sizes : list Z) (last i : nat)
    (remaining_bias : Z) (biased_sizes : list Z) (fractions : list Float64.f64)
    : outcome E (list Z) :=
  match fractions with
  | [] => mret biased_sizes
  | fraction :: fractions' =>
      let bias :=
        if (i =? last)%nat then remaining_bias
        else Z.min remaining_bias
               (Float64.round_as_u64 (Float64.mul total_bias fraction)) in
      size_i ← unwrap_opt (sizes !! i);
      biased ← add64 size_i bias;
      remaining' ← sub64 remaining_bias bias;
      bias_loop total_bias sizes last (S i) remaining' (biased_sizes ++ [biased]) fractions'
  end.

Definition split_exponential (self : Interval) (sizes : list Z)
    : outcome E (list Interval) :=
  interval_size ← size self;
  sizes_sum ← sum64 sizes;
  assert (sizes_sum <=? interval_size);;
  assert (0 <? sizes_sum);;
  if interval_size =? sizes_sum then split_exact self sizes
  else
    remaining_bias ← sub64 interval_size sizes_sum;
    let total_bias := Float64.of_u64 remaining_bias in
    let exp_fractions := exponential_fractions sizes in
    biased_sizes ← bias_loop total_bias sizes (length exp_fractions - 1) 0
                     remaining_bias [] exp_fractions;
    split_exact self biased_sizes.
End ops.

Definition contains (self other : Interval) : bool :=
  (start self <=? start other) && (end_ other <=? end_ self).
Definition strictly_contains (self other : Interval) : bool :=
  (start self <=? start other) && (end_ other <? end_ self).

(** ** Well-formed intervals *)

(** What [Interval::new] accepts: possibly empty, inside the [u64] margins. *)
Definition valid (i : Interval) : Prop :=
  1 ≤ start i ∧ start i ≤ end_ i + 1 ∧ end_ i < u64_max.

(** The number of points, as a mathematical integer. *)
Definition card (i : Interval) : Z := end_ i + 1 - start i.

(** [tiles s l e]: the intervals of [l], in order and without gaps, cover the
    points from [s] to [e] exactly. *)
Fixpoint tiles (s : Z) (l : list Interval) (e : Z) : Prop :=
  match l with
  | [] => s = e + 1
  | i :: l' => start i = s ∧ s ≤ end_ i + 1 ∧ tiles (end_ i + 1) l' e
  end.

(** ** Lemmas *)

Section lemmas.
Context {E : Type}.
Implicit Types i j : Interval.

Lemma new_ok s e : valid (mk s e) → new (E:=E) s e = Ok (mk s e).
Proof.
  intros (Hs & He & Hm); simpl in *. unfold new. step_arith.
  rewrite (proj2 (Z.leb_le _ _)), (proj2 (Z.ltb_lt 0 s)), (proj2 (Z.ltb_lt e _)) by lia.
  done.
Qed.

Lemma new_inv s e i : new (E:=E) s e = Ok i → i = mk s e ∧ valid i.
Proof.
  unfold new. destruct (sub64 s 1) as [b| | |] eqn:Hb; try done.
  apply checked_inv in Hb as [-> ?]. unfold assert; cbn [mbind outcome_bind].
  destruct (Z.leb_spec (s - 1) e), (Z.ltb_spec 0 s), (Z.ltb_spec e u64_max);
    intros [=]; subst; (split; [done|unfold valid; simpl; lia]).
Qed.

Lemma size_ok i : valid i → size (E:=E) i = Ok (card i).
Proof. intros (? & ? & ?). unfold size, card. by repeat step_arith. Qed.

Lemma is_empty_ok i : valid i → is_empty (E:=E) i = Ok (card i =? 0).
Proof. intros Hv. unfold is_empty. by rewrite size_ok. Qed.

Lemma decrease_end_ok i n :
  valid i → 0 ≤ n ≤ card i → decrease_end (E:=E) i n = Ok (mk (start i) (end_ i - n)).
Proof.
  unfold valid, card. intros ??. unfold decrease_end. step_arith.
  apply new_ok. unfold valid; simpl; lia.
Qed.

Lemma tiles_app s l k e m : tiles s l m → tiles (m + 1) k e → tiles s (l ++ k) e.
Proof.
  revert s. induction l as [|i l IH]; intros s; simpl.
  - by intros ->.
  - intros (? & ? & ?) ?. auto.
Qed.

Lemma tiles_le s l e : tiles s l e → s ≤ e + 1.
Proof.
  revert s. induction l as [|i l IH]; intros s; simpl; [lia|].
  intros (<- & ? & Ht%IH). lia.
Qed.

(** Every tile lies between the two ends. *)
Lemma tiles_bounds s l e j :
  tiles s l e → j ∈ l → s ≤ start j ∧ end_ j ≤ e ∧ start j ≤ end_ j + 1.
Proof.
  revert s. induction l as [|i l IH]; intros s; simpl; [by intros _ ?%elem_of_nil|].
  intros (<- & ? & Ht) [->|Hj]%elem_of_cons.
  - apply tiles_le in Ht. lia.
  - specialize (IH _ Ht Hj). lia.
Qed.

(** Tiles do not overlap: an earlier tile ends before a later one starts. *)
Lemma tiles_ordered s l e x y (j k : Interval) :
  tiles s l e → l !! x = Some j → l !! y = Some k → (x < y)%nat → end_ j < start k.
Proof.
  revert s x y. induction l as [|i l IH]; intros s [|x] [|y]; simpl; try done; try lia.
  - intros (? & ? & Ht) [= ->] Hk%list_elem_of_lookup_2 _.
    pose proof (tiles_bounds _ _ _ _ Ht Hk). lia.
  - intros (? & ? & Ht) ???. eapply IH; eauto. lia.
Qed.

(** Half of a [u64] size, through [f32]: between 1 and the size. *)
Lemma half_size_bounds n :
  1 ≤ n ≤ u64_max →
  1 ≤ Float32.as_u64 (Float32.ceil (Float32.mul (Float32.of_u64 n) Float32.half)) ≤ n.
Proof.
  intros Hn. unfold Float32.as_u64, Float32.mul.
  remember (Float32.ceil _) as z eqn:Hz. enough (1 ≤ z ≤ n) by (zify_u64; lia).
  unfold Float32.of_u64 in Hz. remember (Float32.round n 0) as x eqn:Hx.
  unfold Float32.round in Hx. destruct (Z.ltb_spec n (2 ^ 24)) as [Hs|Hb]; subst x z.
  - simpl. unfold Float32.round. rewrite Z.mul_1_r, (proj2 (Z.ltb_lt _ _) Hs).
    unfold Float32.ceil; simpl. change (Z.pow_pos 2 1) with 2.
    Z.div_mod_to_equations. lia.
  - set (d := Z.log2 n - 23). simpl.
    assert (1 ≤ d) as Hd.
    { unfold d. pose proof (Z.log2_le_mono (2 ^ 24) n Hb) as Hl.
      rewrite Z.log2_pow2 in Hl by lia. lia. }
    set (q := n / 2 ^ d). set (up := (_ || _)%bool).
    assert (2 ^ 23 ≤ q < 2 ^ 24) as Hq.
    { destruct (Z.log2_spec n) as [Hl1 Hl2]; [lia|].
      replace (Z.log2 n) with (23 + d) in Hl1 by lia.
      replace (Z.succ (Z.log2 n)) with (24 + d) in Hl2 by lia.
      rewrite Z.pow_add_r in Hl1, Hl2 by lia. unfold q.
      assert (0 < 2 ^ d) by (apply Z.pow_pos_nonneg; lia).
      split; [apply Z.div_le_lower_bound; lia|apply Z.div_lt_upper_bound; lia]. }
    assert (q * 2 ^ d ≤ n) as Hqn.
    { unfold q. rewrite Z.mul_comm. apply Z.mul_div_le. apply Z.pow_pos_nonneg; lia. }
    replace (2 ^ d) with (2 * 2 ^ (d - 1)) in Hqn
      by (rewrite <- Z.pow_succ_r by lia; f_equal; lia).
    assert (1 ≤ 2 ^ (d - 1)) as Hp by (assert (0 < 2 ^ (d - 1)) by (apply Z.pow_pos_nonneg; lia); lia).
    set (m := if up then q + 1 else q). assert (q ≤ m ≤ q + 1) as Hm by (destruct up; lia).
    enough (Float32.ceil (Float32.round (m * 1) (0 + d + -1)) = m * 2 ^ (d - 1)) as -> by nia.
    rewrite Z.mul_1_r. replace (0 + d + -1) with (d - 1) by lia.
    unfold Float32.round. destruct (Z.ltb_spec m (2 ^ 24)).
    + unfold Float32.ceil; simpl. by rewrite (proj2 (Z.leb_le 0 (d - 1))) by lia.
    + assert (m = 2 ^ 24) as -> by lia. unfold Float32.ceil.
      change (Z.log2 (2 ^ 24) - 23) with 1. change (2 ^ 24 / 2 ^ 1) with (2 ^ 23).
      change (((2 ^ (1 - 1) <? 2 ^ 24 mod 2 ^ 1)
        || ((2 ^ 24 mod 2 ^ 1 =? 2 ^ (1 - 1)) && Z.odd (2 ^ 23)))%bool) with false.
      simpl. rewrite (proj2 (Z.leb_le 0 (d - 1 + 1))) by lia.
      rewrite Z.pow_add_r by lia. lia.
Qed.

Lemma split_half_ok i :
  valid i → start i ≤ end_ i →
  ∃ l r, split_half (E:=E) i = Ok (l, r) ∧ tiles (start i) [l; r] (end_ i)
         ∧ valid l ∧ valid r ∧ 0 < card l.
Proof.
  intros Hv Hne. pose proof Hv as (? & ? & ?). unfold split_half, split_fraction.
  rewrite size_ok by done. cbn [mbind outcome_bind].
  destruct (half_size_bounds (card i)) as [Hlo Hhi]; [unfold card; lia|].
  revert Hlo Hhi. generalize (Float32.as_u64 (Float32.ceil
    (Float32.mul (Float32.of_u64 (card i)) Float32.half))) as n.
  unfold card. intros n ??. do 2 step_arith.
  rewrite !new_ok by (unfold valid; simpl; lia). cbn [mbind outcome_bind].
  eexists _, _. split; [done|]. unfold valid, card; simpl. lia.
Qed.

Lemma split_from_ok st sizes :
  1 ≤ st → Forall (λ x, 0 ≤ x) sizes → st + zsum sizes ≤ u64_max →
  ∃ l, split_from (E:=E) st sizes = Ok l ∧ tiles st l (st + zsum sizes - 1)
       ∧ card <$> l = sizes.
Proof.
  revert st. induction sizes as [|n sizes IH]; intros st Hst Hl Hmax; simpl in *.
  - exists []. simpl. split_and!; [done|lia|done].
  - inversion Hl as [|?? Hn Hl']; subst. pose proof (zsum_nonneg _ Hl').
    do 2 step_arith. rewrite new_ok by (unfold valid; simpl; lia).
    cbn [mbind outcome_bind].
    destruct (IH (st + n)) as (l & -> & Ht & Hc); [lia|done|lia|].
    exists (mk st (st + n - 1) :: l). split_and!; [done| |].
    + simpl. split_and!; [done|lia|].
      replace (st + n - 1 + 1) with (st + n) by lia.
      by replace (st + (n + zsum sizes) - 1) with (st + n + zsum sizes - 1) by lia.
    + rewrite fmap_cons, Hc. f_equal. unfold card; simpl. lia.
Qed.

Lemma split_exact_ok i sizes :
  valid i → Forall (λ x, 0 ≤ x) sizes → zsum sizes = card i →
  ∃ l, split_exact (E:=E) i sizes = Ok l ∧ tiles (start i) l (end_ i)
       ∧ card <$> l = sizes.
Proof.
  intros Hv Hl Hs. unfold split_exact.
  pose proof Hv as (? & ? & ?). unfold card in Hs.
  rewrite sum64_ok by (auto; lia). cbn [mbind outcome_bind].
  rewrite size_ok by done. cbn [mbind outcome_bind]. unfold card.
  rewrite Hs, Z.eqb_refl. cbn.
  destruct (split_from_ok (start i) sizes) as (l & -> & Ht & Hc); [lia|done|lia|].
  exists l. split_and!; [done| |done].
  by replace (end_ i) with (start i + zsum sizes - 1) by lia.
Qed.

Lemma round_as_u64_nonneg x : 0 ≤ Float64.round_as_u64 x.
Proof.
  unfold Float64.round_as_u64. destruct x as [[]|[]| |[] m e]; try (zify_u64; lia).
  destruct (Z.leb_spec 0 e); (apply Z.min_glb; [|zify_u64; lia]).
  - apply Z.mul_nonneg_nonneg; [lia|by apply Z.pow_nonneg].
  - assert (0 ≤ 2 ^ (- e - 1)) by (by apply Z.pow_nonneg).
    apply Z.div_pos; [lia|]. apply Z.pow_pos_nonneg; lia.
Qed.

(** Whatever the fractions are, the biased sizes dominate the sizes and the
    whole remaining bias is handed out. *)
Lemma bias_loop_ok tb sizes last (i : nat) rem acc fr :
  Forall (λ x, 0 ≤ x) sizes → 0 ≤ rem →
  (i + length fr = length sizes)%nat → last = (length sizes - 1)%nat →
  fr ≠ [] → zsum (drop i sizes) + rem ≤ u64_max →
  ∃ l, bias_loop (E:=E) tb sizes last i rem acc fr = Ok (acc ++ l)
       ∧ Forall2 Z.le (drop i sizes) l
       ∧ zsum l = zsum (drop i sizes) + rem.
Proof.
  intros Hs. revert i rem acc.
  induction fr as [|f fr IH]; intros i rem acc Hrem Hlen Hlast Hne Hmax; [done|].
  simpl in *. destruct (lookup_lt_is_Some_2 sizes i) as [n Hn]; [lia|].
  rewrite Hn. cbn [unwrap_opt mbind outcome_bind].
  rewrite (drop_S _ _ _ Hn) in Hmax |- *. simpl in Hmax.
  pose proof (Forall_lookup_1 _ _ _ _ Hs Hn) as Hn0. simpl in Hn0.
  assert (0 ≤ zsum (drop (S i) sizes)) as Hd by (apply zsum_nonneg, Forall_drop, Hs).
  destruct fr as [|f' fr].
  - assert (i = last) as -> by (simpl in *; lia). rewrite Nat.eqb_refl.
    do 2 step_arith. simpl. exists [n + rem]. split_and!; [done| |].
    + rewrite drop_ge by lia. constructor; [lia|constructor].
    + rewrite drop_ge by lia. simpl. lia.
  - assert ((i =? last)%nat = false) as -> by (apply Nat.eqb_neq; simpl in *; lia).
    set (b := Z.min rem _). assert (0 ≤ b ≤ rem) as [??].
    { pose proof (round_as_u64_nonneg (Float64.mul tb f)). lia. }
    do 2 step_arith.
    destruct (IH (S i) (rem - b) (acc ++ [n + b])) as (l & -> & Hf & Hz);
      [lia|simpl in *; lia|done|done|lia|].
    exists ((n + b) :: l). split_and!.
    + by rewrite <- app_assoc.
    + constructor; [lia|done].
    + simpl. lia.
Qed.

Lemma split_exponential_ok i sizes :
  valid i → Forall (λ x, 0 ≤ x) sizes → 0 < zsum sizes ≤ card i →
  ∃ l, split_exponential (E:=E) i sizes = Ok l ∧ tiles (start i) l (end_ i)
       ∧ Forall2 (λ n j, n ≤ card j) sizes l.
Proof.
  intros Hv Hs Hsum. pose proof Hv as (? & ? & ?). unfold card in Hsum.
  unfold split_exponential. rewrite size_ok by done. cbn [mbind outcome_bind].
  rewrite sum64_ok by (auto; lia). cbn [mbind outcome_bind]. unfold assert.
  rewrite (proj2 (Z.leb_le (zsum sizes) (card i))), (proj2 (Z.ltb_lt 0 (zsum sizes)))
    by (unfold card; lia).
  cbn [mbind outcome_bind]. destruct (Z.eqb_spec (card i) (zsum sizes)) as [Heq|Hne].
  { destruct (split_exact_ok i sizes) as (l & -> & Ht & <-); [done..|].
    exists l. split_and!; [done..|].
    apply Forall2_fmap_l. apply Forall_Forall2_diag, Forall_true. intros; simpl; lia. }
  unfold card in Hne. rewrite sub64_ok by (zify_u64; unfold card; lia).
  cbn [mbind outcome_bind].
  set (fr := exponential_fractions sizes). set (tb := Float64.of_u64 _).
  assert (length fr = length sizes) as Hlen.
  { unfold fr, exponential_fractions. by rewrite !length_fmap. }
  assert (fr ≠ []) as Hfr.
  { intros Hfr. rewrite Hfr in Hlen. destruct sizes; [simpl in *; lia|done]. }
  destruct (bias_loop_ok tb sizes (length fr - 1) 0 (card i - zsum sizes) [] fr)
    as (bs & -> & Hle & Hz); [done|unfold card; lia|lia|lia|done|rewrite drop_0; unfold card; lia|].
  rewrite drop_0 in *. cbn [mbind outcome_bind app].
  destruct (split_exact_ok i bs) as (l & -> & Ht & Hc); [done| |lia|].
  { apply Forall_lookup_2. intros k b Hb.
    destruct (Forall2_lookup_r _ _ _ _ _ Hle Hb) as (n & Hn & ?).
    pose proof (Forall_lookup_1 _ _ _ _ Hs Hn). simpl in *. lia. }
  exists l. split_and!; [done..|].
  subst bs. exact (proj1 (Forall2_fmap_r card Z.le sizes l) Hle).
Qed.
(** The assertions of [split_exponential]. *)
Lemma split_exponential_panic i sizes :
  valid i → Forall (λ x, 0 ≤ x) sizes → zsum sizes ≤ u64_max →
  zsum sizes = 0 ∨ card i < zsum sizes → split_exponential (E:=E) i sizes = Panic.
Proof.
  intros Hv Hs Hmax Hbad. unfold split_exponential. rewrite size_ok by done.
  cbn [mbind outcome_bind]. rewrite sum64_ok by done. cbn [mbind outcome_bind]. unfold assert.
  destruct (Z.leb_spec (zsum sizes) (card i)); [|done]. cbn [mbind outcome_bind].
  by destruct (Z.ltb_spec 0 (zsum sizes)); [lia|].
Qed.

(** No operation on intervals loops. *)
Lemma checked_no_fuel max z : checked (E:=E) max z ≠ Fuel.
Proof. unfold checked. by destruct (_ && _). Qed.
Lemma new_no_fuel s e : new (E:=E) s e ≠ Fuel.
Proof.
  unfold new. destruct (sub64 s 1) eqn:Hb; try done; [|by apply checked_no_fuel in Hb].
  unfold assert; cbn [mbind outcome_bind].
  by destruct (_ <=? _), (_ <? _), (_ <? _).
Qed.
End lemmas.

(** ** Properties *)

(** [split_exact] on a well-formed interval and sizes that do not overflow
    either returns consecutive intervals that cover the interval exactly and have
    exactly the requested sizes, or, when the sizes do not add up to the size of
    the interval, fails its assertion. *)
Theorem split_exact_total (i : Interval) (sizes : list Z) :
  valid i → Forall (λ x, 0 ≤ x) sizes → zsum sizes ≤ u64_max →
  (zsum sizes = card i →
     ∃ l, split_exact (E:=Empty_set) i sizes = Ok l
          ∧ tiles (start i) l (end_ i) ∧ card <$> l = sizes)
  ∧ (zsum sizes ≠ card i → split_exact (E:=Empty_set) i sizes = Panic).
Proof.
  intros Hv Hs Hmax. split; [by intros; apply split_exact_ok|].
  intros Hne. unfold split_exact. rewrite sum64_ok by done. cbn [mbind outcome_bind].
  rewrite size_ok by done. cbn [mbind outcome_bind].
  by rewrite (proj2 (Z.eqb_neq _ _)).
Qed.

Lemma split_exact_total_witness :
  ∃ l, split_exact (E:=Empty_set) (mk 1 50) [5; 10; 15; 20] = Ok l ∧ tiles 1 l 50
       ∧ card <$> l = [5; 10; 15; 20].
Proof.
  apply (split_exact_total (mk 1 50) [5; 10; 15; 20]);
    [unfold valid; simpl; zify_u64; lia|repeat constructor; lia|vm_compute; done|done].
Defined.

(** [split_exponential] hands out a whole well-formed interval: when the
    requested sizes are not all zero and fit, it returns one interval per size, in
    order, without gap or overlap, covering the interval, each at least as large
    as its size, whatever the rounding of the floating-point bias; otherwise it
    fails an assertion. *)
Theorem split_exponential_total (i : Interval) (sizes : list Z) :
  valid i → Forall (λ x, 0 ≤ x) sizes → zsum sizes ≤ u64_max →
  (0 < zsum sizes ≤ card i →
     ∃ l, split_exponential (E:=Empty_set) i sizes = Ok l
          ∧ tiles (start i) l (end_ i) ∧ Forall2 (λ n j, n ≤ card j) sizes l)
  ∧ (zsum sizes = 0 ∨ card i < zsum sizes →
     split_exponential (E:=Empty_set) i sizes = Panic).
Proof.
  intros Hv Hs Hmax. split; intros; [by apply split_exponential_ok|by apply split_exponential_panic].
Qed.

Lemma split_exponential_total_witness :
  ∃ l, split_exponential (E:=Empty_set) (mk 1 100) [10; 15; 25] = Ok l ∧ tiles 1 l 100
       ∧ Forall2 (λ n j, n ≤ card j) [10; 15; 25] l.
Proof.
  apply (split_exponential_total (mk 1 100) [10; 15; 25]);
    [unfold valid; simpl; zify_u64; lia|repeat constructor; lia|vm_compute; done|].
  unfold card; simpl; lia.
Defined.

(** [split_half], although it computes the middle in single precision, never
    overflows: a well-formed non-empty interval is cut in two consecutive
    well-formed parts of which the left one (the one given to a new tree child) is
    not empty; an empty interval is returned on both sides. *)
Theorem split_half_total (i : Interval) :
  valid i →
  (start i ≤ end_ i →
     ∃ l r, split_half (E:=Empty_set) i = Ok (l, r) ∧ tiles (start i) [l; r] (end_ i)
            ∧ valid l ∧ valid r ∧ 0 < card l)
  ∧ (start i = end_ i + 1 → split_half (E:=Empty_set) i = Ok (i, i)).
Proof.
  intros Hv. split; [by intros; apply split_half_ok|].
  intros He. destruct i as [s e]; simpl in *. subst s. pose proof Hv as (? & ? & ?); simpl in *.
  unfold split_half, split_fraction. rewrite size_ok by done. cbn [mbind outcome_bind].
  unfold card; simpl. rewrite Z.sub_diag.
  change (Float32.as_u64 (Float32.ceil (Float32.mul (Float32.of_u64 0) Float32.half))) with 0.
  do 2 step_arith. rewrite Z.add_0_r, Z.add_simpl_r, !new_ok by (unfold valid; simpl; lia).
  done.
Qed.

Lemma split_half_total_witness :
  ∃ l r, split_half (E:=Empty_set) (mk 1 (u64_max - 1)) = Ok (l, r)
         ∧ tiles 1 [l; r] (u64_max - 1) ∧ valid l ∧ valid r ∧ 0 < card l.
Proof.
  apply (split_half_total (mk 1 (u64_max - 1))); unfold valid; simpl; zify_u64; lia.
Defined.

End Interval.
