(* ===== verification/ReachStore.v ===== *)
(** * Reachability stores

    [consensus/src/model/stores/reachability.rs]: the data kept per block, the
    reader and writer traits, and the three implementations (in memory, database,
    and staging over a database), with [consensus/src/model/stores/errors.rs] and
    the error type of [consensus/src/processes/reachability/mod.rs].

    The traits are the class [ReachabilityStore]; [StoreLaws] is what an
    implementation promises to the algorithms: it behaves as the in-memory store
    that holds its contents. *)

From S2P Require Import Prelude Hash Interval.
Import Interval (Interval).

(** ** Errors *)

(** The prefixes and item keys of the other stores. *)
Inductive StorePrefix : Type :=
| GHOSTDAG_PREFIX | COMPACT_GHOSTDAG_PREFIX | PARENTS_PREFIX | CHILDREN_PREFIX
| HEADERS_STORE_PREFIX | COMPACT_HEADER_DATA_STORE_PREFIX
| STATUSES_PREFIX | MERGESET_NON_DAA_PREFIX | DEPTH_PREFIX | PAST_PRUNING_POINTS_PREFIX
| HEADERS_SELECTED_TIP_NAME | PRUNING_POINT_KEY | BODY_TIPS_NAME
| BLOCK_TRANSACTIONS_PREFIX | UTXO_DIFFS_PREFIX | UTXO_MULTISETS_PREFIX | ACCEPTANCE_DATA_PREFIX
| VIRTUAL_UTXO_SET_PREFIX | VIRTUAL_STATE_KEY.

(** [DbKey]: a store prefix with a hash, with an index, with other bytes, or alone. *)
Inductive DbKey : Type :=
| DataKey (hash : Hash)      (* STORE_PREFIX ++ hash *)
| ReindexRootKey             (* REINDEX_ROOT_KEY *)
| PrefixedKey (prefix : StorePrefix) (hash : Hash)
| IndexKey (prefix : StorePrefix) (index : Z)
| BytesKey (prefix : StorePrefix) (key : list N)
| ItemKey (prefix : StorePrefix).

(** The text of a key: the hash or the index that was printed. *)
Inductive KeyText : Type := HashText (hash : Hash) | IndexText (index : Z).

Inductive StoreError : Type :=
| KeyNotFound (key : DbKey)
| KeyAlreadyExists (key : KeyText)
| DbError
| DeserializationError.

Inductive ReachabilityError : Type :=
| StoreErr (e : StoreError)
| DataOverflow
| DataInconsistency
| BadQuery.

Definition is_key_not_found (e : ReachabilityError) : bool :=
  match e with StoreErr (KeyNotFound _) => true | _ => false end.

(** [ReachabilityResultExtensions::unwrap_option]. *)
Definition unwrap_option {E A} (r : outcome ReachabilityError A) : outcome E (option A) :=
  match r with
  | Ok value => Ok (Some value)
  | Err err => if is_key_not_found err then Ok None else Panic
  | Panic => Panic
  | Fuel => Fuel
  end.

(** The [?] operator on a store result inside a reachability computation. *)
Definition try {S A} (m : M S StoreError A) : M S ReachabilityError A := map_err StoreErr m.

(** ** Data *)

Record ReachabilityData : Type := mkData {
  children : list Hash;
  parent : Hash;
  interval : Interval;
  height : Z;
  future_covering_set : list Hash;
}.

#[global] Instance ReachabilityData_eq_dec : EqDecision ReachabilityData.
Proof. solve_decision. Defined.

Definition ReachabilityData_new (parent : Hash) (interval : Interval) (height : Z)
    : ReachabilityData :=
  mkData [] parent interval height [].

Definition with_interval (i : Interval) (d : ReachabilityData) : ReachabilityData :=
  mkData (children d) (parent d) i (height d) (future_covering_set d).
Definition push_child (c : Hash) (d : ReachabilityData) : ReachabilityData :=
  mkData (children d ++ [c]) (parent d) (interval d) (height d) (future_covering_set d).
Definition with_fcs (l : list Hash) (d : ReachabilityData) : ReachabilityData :=
  mkData (children d) (parent d) (interval d) (height d) l.

(** [Vec::insert]: panics past the end. *)
Definition vec_insert {E A} (l : list A) (index : nat) (x : A) : outcome E (list A) :=
  if (index <=? length l)%nat then Ok (take index l ++ x :: drop index l) else Panic.

(** ** The traits *)

Class ReachabilityStore (T : Type) : Type := {
  has : Hash → M T StoreError bool;
  get_interval : Hash → M T StoreError Interval;
  get_parent : Hash → M T StoreError Hash;
  get_children : Hash → M T StoreError (list Hash);
  get_future_covering_set : Hash → M T StoreError (list Hash);
  init : Hash → Interval → M T StoreError unit;
  insert_block : Hash → Hash → Interval → Z → M T StoreError unit;
  set_interval : Hash → Interval → M T StoreError unit;
  append_child : Hash → Hash → M T StoreError Z;
  insert_future_covering_item : Hash → Hash → nat → M T StoreError unit;
  get_height : Hash → M T StoreError Z;
  set_reindex_root : Hash → M T StoreError unit;
  get_reindex_root : M T StoreError Hash;
}.

(** ** The in-memory store *)
Module Memory.

Record MemoryReachabilityStore : Type := mk {
  map : gmap Hash ReachabilityData;
  reindex_root : option Hash;
}.

Definition new : MemoryReachabilityStore := mk ∅ None.

Definition with_map (f : gmap Hash ReachabilityData → gmap Hash ReachabilityData)
    (s : MemoryReachabilityStore) : MemoryReachabilityStore :=
  mk (f (map s)) (reindex_root s).

Abbreviation MM := (M MemoryReachabilityStore StoreError).

(** [get_data]. *)
Definition get_data (hash : Hash) : MM ReachabilityData := λ s,
  match map s !! hash with
  | Some data => (Ok data, s)
  | None => (Err (KeyNotFound (DataKey hash)), s)
  end.

(** [get_data_mut] followed by an assignment through the reference. *)
Definition update (hash : Hash) (f : ReachabilityData → ReachabilityData) : MM unit :=
  get_data hash;; modify (with_map (alter f hash)).

Definition insert_ (hash parent : Hash) (interval : Interval) (height : Z) : MM unit := λ s,
  match map s !! hash with
  | None => (Ok tt, with_map (insert hash (ReachabilityData_new parent interval height)) s)
  | Some _ => (Err (KeyAlreadyExists (HashText hash)), s)
  end.

Definition set_reindex_root_ (root : Hash) : MM unit :=
  modify (λ s, mk (map s) (Some root)).

#[global] Instance memory_store : ReachabilityStore MemoryReachabilityStore := {
  has hash := λ s, (Ok (bool_decide (is_Some (map s !! hash))), s);
  get_interval hash := interval <$> get_data hash;
  get_parent hash := parent <$> get_data hash;
  get_children hash := children <$> get_data hash;
  get_future_covering_set hash := future_covering_set <$> get_data hash;
  init origin capacity :=
    insert_ origin Hashes.NONE capacity 0;; set_reindex_root_ origin;
  insert_block := insert_;
  set_interval hash i := update hash (with_interval i);
  append_child hash child :=
    data ← get_data hash; update hash (push_child child);; mret (height data);
  insert_future_covering_item hash fci index :=
    data ← get_data hash;
    l ← lift (vec_insert (future_covering_set data) index fci);
    update hash (with_fcs l);
  get_height hash := height <$> get_data hash;
  set_reindex_root := set_reindex_root_;
  get_reindex_root := λ s,
    match reindex_root s with
    | Some root => (Ok root, s)
    | None => (Err (KeyNotFound ReindexRootKey), s)
    end;
}.

End Memory.

(** ** The database store

    The contents that [CachedDbAccess] and [CachedDbItem] give access to: reads
    and writes go through [read] and [write]. *)
Module Db.

Record DbReachabilityStore : Type := mk {
  access : gmap Hash ReachabilityData;
  reindex_root : option Hash;
}.

Abbreviation DM := (M DbReachabilityStore StoreError).

Definition access_has (hash : Hash) : DM bool := λ s,
  (Ok (bool_decide (is_Some (access s !! hash))), s).
Definition read (hash : Hash) : DM ReachabilityData := λ s,
  match access s !! hash with
  | Some data => (Ok data, s)
  | None => (Err (KeyNotFound (DataKey hash)), s)
  end.
Definition write (hash : Hash) (data : ReachabilityData) : DM unit :=
  modify (λ s, mk (<[hash := data]> (access s)) (reindex_root s)).
Definition write_root (root : Hash) : DM unit :=
  modify (λ s, mk (access s) (Some root)).
Definition read_root : DM Hash := λ s,
  match reindex_root s with
  | Some root => (Ok root, s)
  | None => (Err (KeyNotFound ReindexRootKey), s)
  end.

#[global] Instance db_store : ReachabilityStore DbReachabilityStore := {
  has := access_has;
  get_interval hash := interval <$> read hash;
  get_parent hash := parent <$> read hash;
  get_children hash := children <$> read hash;
  get_future_covering_set hash := future_covering_set <$> read hash;
  init origin capacity :=
    b ← access_has origin;
    lift (assert (negb b));;
    write origin (ReachabilityData_new Hashes.NONE capacity 0);;
    write_root origin;
  insert_block hash parent i h :=
    b ← access_has hash;
    if b : bool then fail (KeyAlreadyExists (HashText hash))
    else write hash (ReachabilityData_new parent i h);
  set_interval hash i := data ← read hash; write hash (with_interval i data);
  append_child hash child :=
    data ← read hash; write hash (push_child child data);; mret (height data);
  insert_future_covering_item hash fci index :=
    data ← read hash;
    l ← lift (vec_insert (future_covering_set data) index fci);
    write hash (with_fcs l data);
  get_height hash := height <$> read hash;
  set_reindex_root := write_root;
  get_reindex_root := read_root;
}.

End Db.

(** ** The staging store

    Writes are kept aside, over a database store that is only read, until
    [commit]. *)
Module Staging.

Record StagingReachabilityStore : Type := mk {
  store_read : Db.DbReachabilityStore;
  staging_writes : gmap Hash ReachabilityData;
  staging_reindex_root : option Hash;
}.

Abbreviation SM := (M StagingReachabilityStore StoreError).

Definition new (store_read : Db.DbReachabilityStore) : StagingReachabilityStore :=
  mk store_read ∅ None.

Definition stage (hash : Hash) (data : ReachabilityData) : SM unit :=
  modify (λ s, mk (store_read s) (<[hash := data]> (staging_writes s)) (staging_reindex_root s)).

(** Run a read of the underlying database store. *)
Definition read_db {A} (m : Db.DM A) : SM A := λ s,
  let '(o, db) := m (store_read s) in
  (o, mk db (staging_writes s) (staging_reindex_root s)).

(** The staged record if there is one, the stored record otherwise. *)
Definition lookup (hash : Hash) : SM ReachabilityData :=
  s ← get;
  match staging_writes s !! hash with
  | Some data => mret data
  | None => read_db (Db.read hash)
  end.

(** The common shape of the setters: change the staged record in place, or stage
    a changed clone of the stored one. *)
Definition update {A} (hash : Hash)
    (f : ReachabilityData → outcome StoreError (ReachabilityData * A)) : SM A :=
  s ← get;
  match staging_writes s !! hash with
  | Some data => p ← lift (f data); stage hash (p.1);; mret (p.2)
  | None => data ← read_db (Db.read hash); p ← lift (f data); stage hash (p.1);; mret (p.2)
  end.

Definition insert_ (hash parent : Hash) (i : Interval) (h : Z) : SM unit :=
  b ← read_db (Db.access_has hash);
  if b : bool then fail (KeyAlreadyExists (HashText hash))
  else
    s ← get;
    match staging_writes s !! hash with
    | None => stage hash (ReachabilityData_new parent i h)
    | Some _ => fail (KeyAlreadyExists (HashText hash))
    end.

Definition set_reindex_root_ (root : Hash) : SM unit :=
  modify (λ s, mk (store_read s) (staging_writes s) (Some root)).

#[global] Instance staging_store : ReachabilityStore StagingReachabilityStore := {
  has hash :=
    s ← get;
    if bool_decide (is_Some (staging_writes s !! hash)) then mret true
    else read_db (Db.access_has hash);
  get_interval hash := interval <$> lookup hash;
  get_parent hash := parent <$> lookup hash;
  get_children hash := children <$> lookup hash;
  get_future_covering_set hash := future_covering_set <$> lookup hash;
  init origin capacity :=
    insert_ origin Hashes.NONE capacity 0;; set_reindex_root_ origin;
  insert_block := insert_;
  set_interval hash i := update hash (λ d, Ok (with_interval i d, tt));
  append_child hash child := update hash (λ d, Ok (push_child child d, height d));
  insert_future_covering_item hash fci index :=
    update hash (λ d, l ← vec_insert (future_covering_set d) index fci; Ok (with_fcs l d, tt));
  get_height hash := height <$> lookup hash;
  set_reindex_root := set_reindex_root_;
  get_reindex_root :=
    s ← get;
    match staging_reindex_root s with
    | Some root => mret root
    | None => read_db Db.read_root
    end;
}.

(** [commit]: the staged records and the staged root are written to the database
    store, in the iteration order of the map. *)
Definition commit (s : StagingReachabilityStore) : outcome StoreError unit * Db.DbReachabilityStore :=
  (for_each (map_to_list (staging_writes s)) (λ kv, Db.write kv.1 kv.2);;
   match staging_reindex_root s with
   | Some root => Db.write_root root
   | None => mret tt
   end) (store_read s).

End Staging.

(** ** What an implementation promises *)

Class StoreLaws (T : Type) `{ReachabilityStore T} : Type := {
  abs : T → Memory.MemoryReachabilityStore;
  sim_has h : sim abs (has h) (has h);
  sim_get_interval h : sim abs (get_interval h) (get_interval h);
  sim_get_parent h : sim abs (get_parent h) (get_parent h);
  sim_get_children h : sim abs (get_children h) (get_children h);
  sim_get_fcs h : sim abs (get_future_covering_set h) (get_future_covering_set h);
  (* [init] is only called on a store that does not have the origin *)
  sim_init h i s :
    Memory.map (abs s) !! h = None →
    init h i (abs s) = (fst (init h i s), abs (snd (init h i s)));
  sim_insert h p i n : sim abs (insert_block h p i n) (insert_block h p i n);
  sim_set_interval h i : sim abs (set_interval h i) (set_interval h i);
  sim_append_child h c : sim abs (append_child h c) (append_child h c);
  sim_insert_fci h f n :
    sim abs (insert_future_covering_item h f n) (insert_future_covering_item h f n);
  sim_get_height h : sim abs (get_height h) (get_height h);
  sim_set_root h : sim abs (set_reindex_root h) (set_reindex_root h);
  sim_get_root : sim abs get_reindex_root get_reindex_root;
}.

#[export] Hint Resolve sim_has sim_get_interval sim_get_parent sim_get_children
  sim_get_fcs sim_insert sim_set_interval sim_append_child sim_insert_fci
  sim_get_height sim_set_root sim_get_root : sim.

(** ** The laws hold *)

Lemma alter_as_insert {A} (f : A → A) (m : gmap Hash A) h d :
  m !! h = Some d → alter f h m = <[h := f d]> m.
Proof.
  intros Hd. apply map_eq. intros k. rewrite lookup_alter, lookup_insert.
  case_decide; subst; [by rewrite Hd|done].
Qed.

Ltac unfold_store :=
  unfold sim, Memory.update, Memory.get_data, Memory.insert_, Memory.set_reindex_root_,
    Memory.with_map, Db.read, Db.write, Db.access_has, Db.write_root, Db.read_root,
    Staging.lookup, Staging.update, Staging.insert_, Staging.read_db, Staging.stage,
    Staging.set_reindex_root_, fmap, M_fmap, mbind, M_bind, mret, M_ret, modify, get,
    lift, fail in *; simpl in *.

#[export] Instance memory_laws : StoreLaws Memory.MemoryReachabilityStore.
Proof.
  refine {| abs := λ s, s |}; intros; try intros s; by destruct (_ : _ * _).
Defined.

Definition db_abs (s : Db.DbReachabilityStore) : Memory.MemoryReachabilityStore :=
  Memory.mk (Db.access s) (Db.reindex_root s).

(** One case of a law: split on the record of the block and compare. *)
Ltac law_case m h :=
  let E := fresh "E" in
  destruct (m !! h) as [?|] eqn:E; simpl; rewrite ?E; simpl;
  try done; try (by rewrite (alter_as_insert _ _ _ _ E)).

#[export] Instance db_laws : StoreLaws Db.DbReachabilityStore.
Proof.
  refine {| abs := db_abs |}; intros; unfold sim; simpl; unfold_store; unfold db_abs; simpl;
    try (intros [m r]; simpl); try done; try (law_case m h).
  - (* init *) destruct s as [m r]; simpl in *. by rewrite H.
  - (* insert_future_covering_item *)
    destruct (vec_insert _ _ _); [|done..]. by rewrite (alter_as_insert _ _ _ _ E).
  - (* get_reindex_root *) by destruct r.
Defined.

(** The contents of a staging store: the staged records over the stored ones. *)
Definition staging_abs (s : Staging.StagingReachabilityStore) : Memory.MemoryReachabilityStore :=
  Memory.mk (Staging.staging_writes s ∪ Db.access (Staging.store_read s))
    (match Staging.staging_reindex_root s with
     | Some root => Some root
     | None => Db.reindex_root (Staging.store_read s)
     end).

Lemma staging_lookup (w m : gmap Hash ReachabilityData) h :
  (w ∪ m) !! h = match w !! h with Some d => Some d | None => m !! h end.
Proof. rewrite lookup_union. by destruct (w !! h), (m !! h). Qed.

(** The readers go through [lookup], the setters through [update]. *)
Lemma sim_staging_lookup h : sim staging_abs (Staging.lookup h) (Memory.get_data h).
Proof.
  intros [[m r] w r']. unfold_store. unfold staging_abs; simpl. rewrite staging_lookup.
  destruct (w !! h); [done|]. unfold Db.read; simpl. by destruct (m !! h).
Qed.

Lemma sim_staging_update {A} h f (m' : Memory.MM A) :
  (∀ s, m' s = match Memory.map s !! h with
               | Some d =>
                   match f d with
                   | Ok (d', a) => (Ok a, Memory.with_map (<[h := d']>) s)
                   | Err e => (Err e, s)
                   | Panic => (Panic, s)
                   | Fuel => (Fuel, s)
                   end
               | None => (Err (KeyNotFound (DataKey h)), s)
               end) →
  sim staging_abs (Staging.update h f) m'.
Proof.
  intros Hm [[m r] w r']. rewrite Hm. clear Hm. unfold_store. unfold staging_abs; simpl.
  rewrite staging_lookup. destruct (w !! h) as [d|] eqn:Ew.
  - destruct (f d) as [[d' a]| | |]; simpl; try done.
    unfold Memory.with_map; simpl. by rewrite insert_union_l.
  - unfold Db.read; simpl. destruct (m !! h) as [d|] eqn:Em; simpl; [|done].
    destruct (f d) as [[d' a]| | |]; simpl; try done.
    unfold Memory.with_map; simpl. by rewrite insert_union_l.
Qed.

Lemma sim_staging_insert h p i n :
  sim staging_abs (Staging.insert_ h p i n) (Memory.insert_ h p i n).
Proof.
  intros [[m r] w r']. unfold_store. unfold Db.access_has; simpl. unfold staging_abs; simpl.
  rewrite staging_lookup. destruct (w !! h) as [d|] eqn:Ew, (m !! h) as [d'|] eqn:Em;
    simpl; rewrite ?Ew; try done.
  unfold Memory.with_map; simpl. by rewrite insert_union_l.
Qed.

#[export] Instance staging_laws : StoreLaws Staging.StagingReachabilityStore.
Proof.
  refine {| abs := staging_abs |}; intros; simpl;
    try (apply sim_fmap, sim_staging_lookup);
    try (apply sim_staging_update; intros [m' r']; unfold_store; unfold Memory.with_map;
         destruct (m' !! h) as [d|] eqn:E; simpl; rewrite ?E; simpl; try done;
         by rewrite (alter_as_insert _ _ _ _ E)).
  - (* has *) intros [[m r] w r']. unfold_store. unfold staging_abs; simpl.
    rewrite staging_lookup. destruct (w !! h) as [d|] eqn:Ew; simpl; [done|].
    unfold Db.access_has; simpl. by destruct (m !! h).
  - (* init *)
    apply (sim_bind _ _ _ _ _ (sim_staging_insert h Hashes.NONE i 0)). intros [] [[??]??]. done.
  - apply sim_staging_insert.
  - (* insert_future_covering_item *)
    apply sim_staging_update. intros [m' r']; unfold_store; unfold Memory.with_map.
    destruct (m' !! h) as [d|] eqn:E; simpl; rewrite ?E; simpl; [|done].
    destruct (vec_insert _ _ _); simpl; rewrite ?E; simpl; try done.
    by rewrite (alter_as_insert _ _ _ _ E).
  - (* set_reindex_root *) by intros [[??]??].
  - (* get_reindex_root *) intros [[m r] w [r'|]]; [done|]. unfold_store.
    unfold Db.read_root, staging_abs; simpl. by destruct r.
Defined.

(** ** Committing a staging store *)

Lemma for_each_write l (s : Db.DbReachabilityStore) :
  for_each l (λ kv, Db.write kv.1 kv.2) s =
  (Ok (E:=StoreError) tt,
   Db.mk (foldl (λ m kv, <[kv.1 := kv.2]> m) (Db.access s) l) (Db.reindex_root s)).
Proof.
  revert s. induction l as [|[k v] l IH]; intros [m r]; [done|].
  simpl. unfold mbind, M_bind, Db.write, modify. simpl. apply (IH (Db.mk _ _)).
Qed.

Lemma foldl_insert_lookup (l : list (Hash * ReachabilityData)) (m : gmap Hash ReachabilityData) :
  NoDup l.*1 →
  foldl (λ m kv, <[kv.1 := kv.2]> m) m l = list_to_map l ∪ m.
Proof.
  revert m. induction l as [|[k v] l IH]; intros m; simpl.
  - intros _. by rewrite (left_id_L ∅ (∪)).
  - intros [Hk Hl]%NoDup_cons. rewrite IH by done.
    assert ((list_to_map l : gmap Hash ReachabilityData) !! k = None) as Hn by by apply not_elem_of_list_to_map.
    rewrite <- insert_union_r by done. by rewrite insert_union_l.
Qed.

Lemma commit_ok (s : Staging.StagingReachabilityStore) :
  ∃ db, Staging.commit s = (Ok tt, db) ∧ db_abs db = staging_abs s.
Proof.
  destruct s as [[m r] w r']. unfold Staging.commit, mbind, M_bind. simpl.
  rewrite for_each_write. simpl. rewrite foldl_insert_lookup by apply NoDup_fst_map_to_list.
  rewrite list_to_map_to_list. unfold staging_abs, db_abs. simpl.
  destruct r' as [root|]; by eexists.
Qed.

(** Committing a staging store cannot fail, and publishes exactly the staged
    view: the database store holds afterwards the contents (records and reindex
    root) that the staging store showed to its readers. *)
Theorem staging_commit (s : Staging.StagingReachabilityStore) :
  ∃ db, Staging.commit s = (Ok tt, db) ∧ db_abs db = staging_abs s.
Proof. apply commit_ok. Qed.
