(* ===== verification/Reachability.v ===== *)
(** * The reachability algorithms

    [consensus/src/processes/reachability/]: [extensions.rs], [inquirer.rs],
    [reindex.rs] and [tree.rs], as programs over any store of the class
    [ReachabilityStore].  Loops take a bound [fuel] on their number of turns; a
    loop that is cut returns [Fuel], and the theorems show that the number of
    blocks in the store is enough. *)

From S2P Require Import Prelude Hash Interval ReachStore.
Import Interval (Interval, start, end_, contains, strictly_contains).

Definition DEFAULT_REINDEX_DEPTH : Z := 100.
Definition DEFAULT_REINDEX_SLACK : Z := 2 ^ 12.

Section algorithms.
Context {T : Type} `{ReachabilityStore T} (fuel : nat).

Abbreviation ST := (M T StoreError).
Abbreviation RT := (M T ReachabilityError).

(** ** [extensions.rs] *)

Definition interval_children_capacity (block : Hash) : ST Interval :=
  i ← get_interval block; lift (Interval.decrease_end i 1).

Definition interval_remaining_before (block : Hash) : ST Interval :=
  alloc_capacity ← interval_children_capacity block;
  children ← get_children block;
  match head children with
  | Some first_child =>
      first_alloc ← get_interval first_child;
      e ← lift (sub64 (start first_alloc) 1);
      lift (Interval.new (start alloc_capacity) e)
  | None => mret alloc_capacity
  end.

Definition interval_remaining_after (block : Hash) : ST Interval :=
  alloc_capacity ← interval_children_capacity block;
  children ← get_children block;
  match last children with
  | Some last_child =>
      last_alloc ← get_interval last_child;
      s ← lift (add64 (end_ last_alloc) 1);
      lift (Interval.new s (end_ alloc_capacity))
  | None => mret alloc_capacity
  end.

(** ** [inquirer.rs]: queries *)

Definition is_strict_chain_ancestor_of (this queried : Hash) : RT bool :=
  a ← try (get_interval this); b ← try (get_interval queried);
  mret (strictly_contains a b).

Definition is_chain_ancestor_of (this queried : Hash) : RT bool :=
  a ← try (get_interval this); b ← try (get_interval queried);
  mret (contains a b).

Inductive SearchOutput : Type :=
| NotFound (i : nat)
| Found (hash : Hash) (i : nat).

(** [intervals.windows(2).all(|w| w[0].end < w[1].start)] *)
Fixpoint windows_ordered (l : list Interval) : bool :=
  match l with
  | a :: ((b :: _) as l') => (end_ a <? start b) && windows_ordered l'
  | _ => true
  end.

(** A store read under [unwrap]. *)
Definition get_interval_unwrap (h : Hash) : RT Interval := λ s,
  let '(o, s') := get_interval h s in (unwrap o, s').

Definition assert_hashes_ordered (ordered_hashes : list Hash) : RT unit :=
  intervals ← map_each ordered_hashes get_interval_unwrap;
  lift (assert (windows_ordered intervals)).

(** [slice::binary_search_by_key] of the standard library, on the keys
    [store.get_interval(c).unwrap().start]; [inl i] is [Ok(i)], [inr i] is
    [Err(i)].  The state is [(size, left, right)] ([lo] and [hi] below). *)
Definition binary_search_by_start (point : Z) (hashes : list Hash) : RT (nat + nat) :=
  loop (S (length hashes))
    (λ '(size, lo, hi),
      if (lo <? hi)%nat then
        let mid := (lo + size / 2)%nat in
        c ← lift (unwrap_opt (hashes !! mid));
        i ← get_interval_unwrap c;
        match start i ?= point with
        | Eq => mret (inr (inl mid))
        | Lt => mret (inl ((hi - (mid + 1))%nat, (mid + 1)%nat, hi))
        | Gt => mret (inl ((mid - lo)%nat, lo, mid))
        end
      else mret (inr (inr lo)))
    (length hashes, 0%nat, length hashes).

Definition binary_search_descendant (ordered_hashes : list Hash) (descendant : Hash)
    : RT SearchOutput :=
  assert_hashes_ordered ordered_hashes;;
  d ← try (get_interval descendant);
  let point := end_ d in
  r ← binary_search_by_start point ordered_hashes;
  match r with
  | inl i => h ← lift (unwrap_opt (ordered_hashes !! i)); mret (Found h i)
  | inr i =>
      match i with
      | S i' =>
          h ← lift (unwrap_opt (ordered_hashes !! i'));
          b ← is_chain_ancestor_of h descendant;
          mret (if b : bool then Found h i' else NotFound i)
      | O => mret (NotFound i)
      end
  end.

Definition get_next_chain_ancestor_unchecked (descendant ancestor : Hash) : RT Hash :=
  children ← try (get_children ancestor);
  r ← binary_search_descendant children descendant;
  match r with
  | Found hash _ => mret hash
  | NotFound _ => fail BadQuery
  end.

Definition get_next_chain_ancestor (descendant ancestor : Hash) : RT Hash :=
  if bool_decide (descendant = ancestor) then fail BadQuery
  else
    b ← is_strict_chain_ancestor_of ancestor descendant;
    if b : bool then get_next_chain_ancestor_unchecked descendant ancestor
    else fail BadQuery.

Definition is_dag_ancestor_of (this queried : Hash) : RT bool :=
  b ← is_chain_ancestor_of this queried;
  if b : bool then mret true
  else
    fcs ← try (get_future_covering_set this);
    r ← binary_search_descendant fcs queried;
    match r with
    | Found _ _ => mret true
    | NotFound _ => mret false
    end.

(** ** [inquirer.rs]: updates of the DAG part *)

Definition insert_to_future_covering_set (merged_block new_block : Hash) : RT unit :=
  fcs ← try (get_future_covering_set merged_block);
  r ← binary_search_descendant fcs new_block;
  match r with
  | Found _ _ => fail DataInconsistency
  | NotFound i => try (insert_future_covering_item merged_block new_block i)
  end.

Definition add_dag_block (new_block : Hash) (mergeset : list Hash) : RT unit :=
  for_each mergeset (λ merged_block, insert_to_future_covering_set merged_block new_block).

Definition init_with_params (origin : Hash) (capacity : Interval) : RT unit :=
  b ← try (has origin);
  if b : bool then mret tt else try (init origin capacity).

Definition inquirer_init : RT unit :=
  capacity ← lift Interval.maximal; init_with_params Hashes.ORIGIN capacity.

(** ** [reindex.rs] *)

(** [ReindexOperationContext]: the store, the cache of subtree sizes, and the
    slack parameter (the depth parameter is stored but not used). *)
Record Ctx : Type := mkCtx {
  store : T;
  subtree_sizes : gmap Hash Z;
  depth : Z;
  slack : Z;
}.

Abbreviation CT := (M Ctx ReachabilityError).

Definition on_store {A} (m : M T ReachabilityError A) : CT A := λ c,
  let '(o, s') := m (store c) in
  (o, mkCtx s' (subtree_sizes c) (depth c) (slack c)).

Definition on_sizes (f : gmap Hash Z → gmap Hash Z) : CT unit :=
  modify (λ c, mkCtx (store c) (f (subtree_sizes c)) (depth c) (slack c)).

(** [self.subtree_sizes[&block]]: panics when missing. *)
Definition size_of (block : Hash) : CT Z :=
  c ← get; lift (unwrap_opt (subtree_sizes c !! block)).

(** [children.iter().map(|c| self.subtree_sizes[c])] *)
Definition sizes_of (blocks : list Hash) : CT (list Z) := map_each blocks size_of.

(** The inner [while current != block] loop of [count_subtrees], which pushes the
    information up; returns the updated [counts]. *)
Definition push_up (block : Hash) (current : Hash) (counts : gmap Hash Z)
    : CT (gmap Hash Z) :=
  loop fuel
    (λ '(current, counts),
      if bool_decide (current = block) then mret (inr counts)
      else
        current ← on_store (try (get_parent current));
        let count := default 0 (counts !! current) in
        children ← on_store (try (get_children current));
        count ← lift (add64 count 1);
        let counts := <[current := count]> counts in
        if count <? Z.of_nat (length children) then mret (inr counts)
        else
          sizes ← sizes_of children;
          subtree_sum ← lift (sum64 sizes);
          total ← lift (add64 subtree_sum 1);
          on_sizes (<[current := total]>);;
          mret (inl (current, counts)))
    (current, counts).

Definition count_subtrees (block : Hash) : CT unit :=
  c ← get;
  if bool_decide (is_Some (subtree_sizes c !! block)) then mret tt
  else
    loop fuel
      (λ '(queue, counts),
        match queue with
        | [] => mret (inr tt)
        | current :: queue =>
            children ← on_store (try (get_children current));
            c ← get;
            match children with
            | [] =>
                on_sizes (<[current := 1]>);;
                counts ← push_up block current counts;
                mret (inl (queue, counts))
            | _ :: _ =>
                if bool_decide (is_Some (subtree_sizes c !! current)) then
                  counts ← push_up block current counts;
                  mret (inl (queue, counts))
                else mret (inl (queue ++ children, counts))
            end
        end)
      ([block], ∅).

Definition propagate_interval (block : Hash) : CT unit :=
  count_subtrees block;;
  loop fuel
    (λ queue,
      match queue with
      | [] => mret (inr tt)
      | current :: queue =>
          children ← on_store (try (get_children current));
          match children with
          | [] => mret (inl queue)
          | _ :: _ =>
              sizes ← sizes_of children;
              interval ← on_store (try (interval_children_capacity current));
              intervals ← lift (Interval.split_exponential interval sizes);
              for_each (zip children intervals)
                (λ '(c, ci), on_store (try (set_interval c ci)));;
              mret (inl (queue ++ children))
          end
      end)
    [block].

(** The interval operations passed to [apply_interval_op] as function pointers. *)
Abbreviation IntervalOp := (Interval → Z → outcome ReachabilityError Interval).

Definition apply_interval_op (block : Hash) (offset : Z) (op : IntervalOp) : CT unit :=
  i ← on_store (try (get_interval block));
  i' ← lift (op i offset);
  on_store (try (set_interval block i')).

Definition apply_interval_op_and_propagate (block : Hash) (offset : Z) (op : IntervalOp)
    : CT unit :=
  i ← on_store (try (get_interval block));
  i' ← lift (op i offset);
  on_store (try (set_interval block i'));;
  propagate_interval block.

(** [split_children]: the children before and after the first occurrence of [pivot]. *)
Definition split_children (children : list Hash) (pivot : Hash)
    : outcome ReachabilityError (list Hash * list Hash) :=
  match list_find (pivot =.) children with
  | Some (index, _) => Ok (take index children, drop (S index) children)
  | None => Err DataInconsistency
  end.

(** The [for] loops of [offset_siblings_before] and [offset_siblings_after]: the
    operation [op_alloc] on the allocation block ends the loop. *)
Fixpoint offset_siblings_loop (allocation_block : Hash) (offset : Z)
    (op_alloc op_other : IntervalOp) (siblings : list Hash) : CT unit :=
  match siblings with
  | [] => mret tt
  | sibling :: siblings' =>
      if bool_decide (sibling = allocation_block) then
        apply_interval_op_and_propagate allocation_block offset op_alloc
      else
        apply_interval_op_and_propagate sibling offset op_other;;
        offset_siblings_loop allocation_block offset op_alloc op_other siblings'
  end.

Definition offset_siblings_before (allocation_block current : Hash) (offset : Z) : CT unit :=
  parent ← on_store (try (get_parent current));
  children ← on_store (try (get_children parent));
  '(siblings_before, _) ← lift (split_children children current);
  offset_siblings_loop allocation_block offset Interval.increase_end Interval.increase
    (reverse siblings_before).

Definition offset_siblings_after (allocation_block current : Hash) (offset : Z) : CT unit :=
  parent ← on_store (try (get_parent current));
  children ← on_store (try (get_children parent));
  '(_, siblings_after) ← lift (split_children children current);
  offset_siblings_loop allocation_block offset Interval.decrease_start Interval.decrease
    siblings_after.

(** The two mirrored reclaim functions differ in where the slack is read, in the
    operation on the chain blocks and in the side on which siblings are moved. *)
Record Side : Type := mkSide {
  remaining : Hash → ST Interval;
  shrink : IntervalOp;
  offset_siblings : Hash → Hash → Z → CT unit;
}.

(** First loop: walk up from the chosen child towards the reindex root, summing
    up the slack; returns the last block reached and [path_slack_alloc]. *)
Definition reclaim_walk_up (side : Side) (allocation_block chosen_child reindex_root : Hash)
    (required_allocation : Z) : CT (Hash * Z) :=
  loop fuel
    (λ '(current, slack_sum, path_len),
      if bool_decide (current = reindex_root) then
        c ← get;
        new_slack ← lift (mul64 (slack c) path_len);
        total ← lift (add64 required_allocation new_slack);
        offset ← lift (sub64 total slack_sum);
        apply_interval_op_and_propagate current offset (shrink side);;
        offset_siblings side allocation_block current offset;;
        mret (inr (current, slack c))
      else
        r ← on_store (try (remaining side current));
        slack_current ← lift (Interval.size r);
        slack_sum ← lift (add64 slack_sum slack_current);
        if required_allocation <=? slack_sum then
          excess ← lift (sub64 slack_sum required_allocation);
          offset ← lift (sub64 slack_current excess);
          apply_interval_op current offset (shrink side);;
          offset_siblings side allocation_block current offset;;
          mret (inr (current, 0))
        else
          next ← on_store (get_next_chain_ancestor_unchecked reindex_root current);
          path_len ← lift (add64 path_len 1);
          mret (inl (next, slack_sum, path_len)))
    (chosen_child, 0, 0).

(** Second loop: back down to the common ancestor, giving the slack away. *)
Definition reclaim_walk_down (side : Side) (allocation_block common_ancestor : Hash)
    (current : Hash) (path_slack_alloc : Z) : CT unit :=
  loop fuel
    (λ current,
      current ← on_store (try (get_parent current));
      if bool_decide (current = common_ancestor) then mret (inr tt)
      else
        r ← on_store (try (remaining side current));
        slack_current ← lift (Interval.size r);
        offset ← lift (sub64 slack_current path_slack_alloc);
        apply_interval_op current offset (shrink side);;
        offset_siblings side allocation_block current offset;;
        mret (inl current))
    current.

Definition reclaim_interval (side : Side)
    (allocation_block common_ancestor chosen_child reindex_root : Hash)
    (required_allocation : Z) : CT unit :=
  '(current, path_slack_alloc) ←
    reclaim_walk_up side allocation_block chosen_child reindex_root required_allocation;
  reclaim_walk_down side allocation_block common_ancestor current path_slack_alloc.

Definition side_before : Side :=
  mkSide interval_remaining_before Interval.increase_start offset_siblings_before.
Definition side_after : Side :=
  mkSide interval_remaining_after Interval.decrease_end offset_siblings_after.

Definition reclaim_interval_before := reclaim_interval side_before.
Definition reclaim_interval_after := reclaim_interval side_after.

Definition reindex_intervals_earlier_than_root
    (allocation_block reindex_root common_ancestor : Hash) (required_allocation : Z) : CT unit :=
  chosen_child ← on_store (get_next_chain_ancestor_unchecked reindex_root common_ancestor);
  block_interval ← on_store (try (get_interval allocation_block));
  chosen_interval ← on_store (try (get_interval chosen_child));
  if start block_interval <? start chosen_interval then
    reclaim_interval_before allocation_block common_ancestor chosen_child reindex_root
      required_allocation
  else
    reclaim_interval_after allocation_block common_ancestor chosen_child reindex_root
      required_allocation.

(** [reindex_intervals]: the loop leaves with [inl current] (the [break]) or with
    [inr r] (the early return in the middle of the loop). *)
Definition reindex_intervals (new_child reindex_root : Hash) : CT unit :=
  r ← loop fuel
    (λ current,
      current_interval ← on_store (try (get_interval current));
      count_subtrees current;;
      n ← lift (Interval.size current_interval);
      size ← size_of current;
      if size <=? n then mret (inr (inl current))
      else
        parent ← on_store (try (get_parent current));
        if Hashes.is_none parent then fail DataOverflow
        else if bool_decide (current = reindex_root) then fail DataOverflow
        else
          b ← on_store (is_strict_chain_ancestor_of parent reindex_root);
          if b : bool then
            size ← size_of current;
            reindex_intervals_earlier_than_root current reindex_root parent size;;
            mret (inr (inr tt))
          else mret (inl parent))
    new_child;
  match r with
  | inl current => propagate_interval current
  | inr _ => mret tt
  end.

(** The common start of the two [tighten_intervals] functions. *)
Definition count_sizes (blocks : list Hash) : CT (list Z) :=
  map_each blocks (λ block, count_subtrees block;; size_of block).

Definition set_and_propagate (l : list (Hash * Interval)) : CT unit :=
  for_each l (λ '(c, ci), on_store (try (set_interval c ci));; propagate_interval c).

Definition tighten_intervals_before (parent : Hash) (children_before : list Hash) : CT Z :=
  sizes ← count_sizes children_before;
  sum ← lift (sum64 sizes);
  i ← on_store (try (get_interval parent));
  c ← get;
  s ← lift (add64 (start i) (slack c));
  e ← lift (add64 s sum);
  e1 ← lift (sub64 e 1);
  interval_before ← lift (Interval.new s e1);
  l ← lift (Interval.split_exact interval_before sizes);
  set_and_propagate (zip children_before l);;
  mret sum.

Definition tighten_intervals_after (parent : Hash) (children_after : list Hash) : CT Z :=
  sizes ← count_sizes children_after;
  sum ← lift (sum64 sizes);
  i ← on_store (try (get_interval parent));
  c ← get;
  e ← lift (sub64 (end_ i) (slack c));
  s ← lift (sub64 e sum);
  e1 ← lift (sub64 e 1);
  interval_after ← lift (Interval.new s e1);
  l ← lift (Interval.split_exact interval_after sizes);
  set_and_propagate (zip children_after l);;
  mret sum.

Definition expand_interval_to_chosen (parent child : Hash)
    (siblings_before_subtrees_sum siblings_after_subtrees_sum : Z)
    (is_final_reindex_root : bool) : CT unit :=
  i ← on_store (try (get_interval parent));
  c ← get;
  s ← lift (add64 (start i) siblings_before_subtrees_sum);
  s ← lift (add64 s (slack c));
  e ← lift (sub64 (end_ i) siblings_after_subtrees_sum);
  e ← lift (sub64 e (slack c));
  e ← lift (sub64 e 1);
  allocation ← lift (Interval.new s e);
  current ← on_store (try (get_interval child));
  (if is_final_reindex_root && negb (contains allocation current) then
     s ← lift (add64 (start allocation) (slack c));
     e ← lift (sub64 (end_ allocation) (slack c));
     narrowed ← lift (Interval.new s e);
     on_store (try (set_interval child narrowed));;
     propagate_interval child
   else mret tt);;
  on_store (try (set_interval child allocation)).

Definition concentrate_interval (parent child : Hash) (is_final_reindex_root : bool) : CT unit :=
  children ← on_store (try (get_children parent));
  '(siblings_before, siblings_after) ← lift (split_children children child);
  before_sum ← tighten_intervals_before parent siblings_before;
  after_sum ← tighten_intervals_after parent siblings_after;
  expand_interval_to_chosen parent child before_sum after_sum is_final_reindex_root.

(** Run a reindex operation in a fresh context over the store. *)
Definition with_ctx {A} (reindex_depth reindex_slack : Z) (m : CT A) : RT A := λ s,
  let '(o, c) := m (mkCtx s ∅ reindex_depth reindex_slack) in (o, store c).

(** ** [tree.rs] *)

Definition add_tree_block (new_block parent : Hash) (reindex_depth reindex_slack : Z) : RT unit :=
  remaining ← try (interval_remaining_after parent);
  parent_height ← try (append_child parent new_block);
  empty ← lift (Interval.is_empty remaining);
  if empty : bool then
    h ← lift (add64 parent_height 1);
    try (insert_block new_block parent remaining h);;
    reindex_root ← try get_reindex_root;
    with_ctx reindex_depth reindex_slack (reindex_intervals new_block reindex_root)
  else
    '(allocated, _) ← lift (Interval.split_half remaining);
    h ← lift (add64 parent_height 1);
    try (insert_block new_block parent allocated h).

Definition find_common_tree_ancestor (block reindex_root : Hash) : RT Hash :=
  loop fuel
    (λ current,
      b ← is_chain_ancestor_of current reindex_root;
      if b : bool then mret (inr current)
      else p ← try (get_parent current); mret (inl p))
    block.

(** The last loop of [find_next_reindex_root]. *)
Definition advance_next (hint : Hash) (hint_height reindex_depth : Z) (next : Hash) : RT Hash :=
  loop fuel
    (λ next,
      child ← get_next_chain_ancestor_unchecked hint next;
      child_height ← try (get_height child);
      if hint_height <? child_height then fail DataInconsistency
      else
        diff ← lift (sub64 hint_height child_height);
        if diff <? reindex_depth then mret (inr next) else mret (inl child))
    next.

Definition find_next_reindex_root (current hint : Hash) (reindex_depth reindex_slack : Z)
    : RT (Hash * Hash) :=
  hint_height ← try (get_height hint);
  b ← is_chain_ancestor_of current hint;
  if b : bool then
    next ← advance_next hint hint_height reindex_depth current; mret (current, next)
  else
    current_height ← try (get_height current);
    stay ← (if hint_height <? current_height then mret true
            else diff ← lift (sub64 hint_height current_height);
                 mret (diff <? reindex_slack));
    if stay : bool then mret (current, current)
    else
      common ← find_common_tree_ancestor hint current;
      next ← advance_next hint hint_height reindex_depth common; mret (common, next).

Definition try_advancing_reindex_root (hint : Hash) (reindex_depth reindex_slack : Z) : RT unit :=
  current ← try get_reindex_root;
  '(ancestor, next) ← find_next_reindex_root current hint reindex_depth reindex_slack;
  if bool_decide (current = next) then mret tt
  else
    loop fuel
      (λ ancestor,
        if bool_decide (ancestor = next) then mret (inr tt)
        else
          child ← get_next_chain_ancestor_unchecked next ancestor;
          with_ctx reindex_depth reindex_slack
            (concentrate_interval ancestor child (bool_decide (child = next)));;
          mret (inl child))
      ancestor;;
    try (set_reindex_root next).

(** ** [inquirer.rs]: entry points *)

Definition add_block_with_params (new_block selected_parent : Hash) (mergeset : list Hash)
    (reindex_depth reindex_slack : option Z) : RT unit :=
  add_tree_block new_block selected_parent
    (default DEFAULT_REINDEX_DEPTH reindex_depth) (default DEFAULT_REINDEX_SLACK reindex_slack);;
  add_dag_block new_block mergeset.

Definition add_block (new_block selected_parent : Hash) (mergeset : list Hash) : RT unit :=
  add_block_with_params new_block selected_parent mergeset None None.

Definition hint_virtual_selected_parent (hint : Hash) : RT unit :=
  try_advancing_reindex_root hint DEFAULT_REINDEX_DEPTH DEFAULT_REINDEX_SLACK.

End algorithms.
