(* ===== verification/ReachSim.v ===== *)
(** * The algorithms do not depend on the store

    Every program of [Reachability.v], run on any store that keeps the promises of
    [StoreLaws] (the database store and the staging store among them), does what
    it does on the in-memory store with the same contents.  The properties of the
    algorithms can therefore be proved once, on the in-memory store. *)

From S2P Require Import Prelude Hash Interval ReachStore Reachability.

Section simulation.
Context {T : Type} `{StoreLaws T} (fuel : nat).

Abbreviation Mem := Memory.MemoryReachabilityStore.
Abbreviation asim := (sim (abs (T:=T))).

(** The abstraction of a reindex context. *)
Definition abs_ctx (c : Ctx (T:=T)) : Ctx (T:=Mem) :=
  mkCtx (abs (store c)) (subtree_sizes c) (depth c) (slack c).
Abbreviation csim := (sim abs_ctx).

(** Follow the structure of the program on both sides at once. *)
Ltac sim_step :=
  match goal with
  | |- sim _ (mbind _ _) (mbind _ _) => apply sim_bind
  | |- sim _ (loop _ _ _) (loop _ _ _) => apply sim_loop
  | |- sim _ (for_each _ _) (for_each _ _) => apply sim_for_each
  | |- sim _ (map_each _ _) (map_each _ _) => apply sim_map_each
  | |- sim _ (map_err _ _) (map_err _ _) => apply sim_map_err
  | |- sim _ (try _) (try _) => apply sim_map_err
  | |- sim _ (match ?x with _ => _ end) _ => destruct x
  | |- ∀ _, _ => intros ?
  | |- sim _ _ _ => solve [auto with sim nocore]
  end.
Ltac sim_tac := repeat (sim_step; cbn beta iota).

Lemma sim_unwrap_interval h : asim (get_interval_unwrap h) (get_interval_unwrap h).
Proof.
  intros s. unfold get_interval_unwrap. rewrite (sim_get_interval h s).
  by destruct (get_interval h s).
Qed.
#[local] Hint Resolve sim_unwrap_interval : sim.

Lemma sim_children_capacity b : asim (interval_children_capacity b) (interval_children_capacity b).
Proof. unfold interval_children_capacity. sim_tac. Qed.
#[local] Hint Resolve sim_children_capacity : sim.
Lemma sim_remaining_before b : asim (interval_remaining_before b) (interval_remaining_before b).
Proof. unfold interval_remaining_before. sim_tac. Qed.
Lemma sim_remaining_after b : asim (interval_remaining_after b) (interval_remaining_after b).
Proof. unfold interval_remaining_after. sim_tac. Qed.
#[local] Hint Resolve sim_remaining_before sim_remaining_after : sim.

Lemma sim_is_strict_chain_ancestor_of a b :
  asim (is_strict_chain_ancestor_of a b) (is_strict_chain_ancestor_of a b).
Proof. unfold is_strict_chain_ancestor_of. sim_tac. Qed.
Lemma sim_is_chain_ancestor_of a b : asim (is_chain_ancestor_of a b) (is_chain_ancestor_of a b).
Proof. unfold is_chain_ancestor_of. sim_tac. Qed.
#[local] Hint Resolve sim_is_strict_chain_ancestor_of sim_is_chain_ancestor_of : sim.

Lemma sim_binary_search_descendant l d :
  asim (binary_search_descendant l d) (binary_search_descendant l d).
Proof.
  unfold binary_search_descendant, assert_hashes_ordered, binary_search_by_start. sim_tac.
Qed.
#[local] Hint Resolve sim_binary_search_descendant : sim.

Lemma sim_next_unchecked d a :
  asim (get_next_chain_ancestor_unchecked d a) (get_next_chain_ancestor_unchecked d a).
Proof. unfold get_next_chain_ancestor_unchecked. sim_tac. Qed.
#[local] Hint Resolve sim_next_unchecked : sim.
Lemma sim_get_next_chain_ancestor d a :
  asim (get_next_chain_ancestor d a) (get_next_chain_ancestor d a).
Proof. unfold get_next_chain_ancestor. sim_tac. Qed.
Lemma sim_is_dag_ancestor_of a b : asim (is_dag_ancestor_of a b) (is_dag_ancestor_of a b).
Proof. unfold is_dag_ancestor_of. sim_tac. Qed.

Lemma sim_insert_to_fcs a b :
  asim (insert_to_future_covering_set a b) (insert_to_future_covering_set a b).
Proof. unfold insert_to_future_covering_set. sim_tac. Qed.
#[local] Hint Resolve sim_insert_to_fcs : sim.
Lemma sim_add_dag_block n l : asim (add_dag_block n l) (add_dag_block n l).
Proof. unfold add_dag_block. sim_tac. Qed.
#[local] Hint Resolve sim_add_dag_block : sim.

(** ** Reindexing *)

Lemma sim_on_store {A} (m : M T ReachabilityError A) m' :
  asim m m' → csim (on_store m) (on_store m').
Proof. intros Hm c. unfold on_store, abs_ctx. simpl. rewrite Hm. by destruct (m (store c)). Qed.
Lemma sim_on_sizes f : csim (on_sizes f) (on_sizes f).
Proof. done. Qed.
Lemma sim_size_of b : csim (size_of b) (size_of b).
Proof. done. Qed.
#[local] Hint Resolve sim_on_store sim_on_sizes sim_size_of : sim.

(** Reading the context: only the parts the abstraction keeps are used. *)
Lemma sim_get_ctx {A} (k : Ctx (T:=T) → M (Ctx (T:=T)) ReachabilityError A) k' :
  (∀ c, csim (k c) (k' (abs_ctx c))) → csim (get ≫= k) (get ≫= k').
Proof. intros Hk c. apply Hk. Qed.

Ltac ctx_step :=
  match goal with
  | |- sim _ (mbind _ get) (mbind _ get) => apply sim_get_ctx; intros ?; simpl
  | |- sim _ (on_store _) (on_store _) => apply sim_on_store
  | _ => sim_step
  end.
Ltac ctx_tac := repeat (ctx_step; cbn beta iota).

Lemma sim_push_up b h n : csim (push_up fuel b h n) (push_up fuel b h n).
Proof. unfold push_up, sizes_of. ctx_tac. Qed.
#[local] Hint Resolve sim_push_up : sim.
Lemma sim_count_subtrees b : csim (count_subtrees fuel b) (count_subtrees fuel b).
Proof. unfold count_subtrees. ctx_tac. Qed.
#[local] Hint Resolve sim_count_subtrees : sim.
Lemma sim_propagate_interval b : csim (propagate_interval fuel b) (propagate_interval fuel b).
Proof. unfold propagate_interval, sizes_of. ctx_tac. Qed.
#[local] Hint Resolve sim_propagate_interval : sim.
Lemma sim_apply_op b o op : csim (apply_interval_op b o op) (apply_interval_op b o op).
Proof. unfold apply_interval_op. ctx_tac. Qed.
Lemma sim_apply_op_propagate b o op :
  csim (apply_interval_op_and_propagate fuel b o op) (apply_interval_op_and_propagate fuel b o op).
Proof. unfold apply_interval_op_and_propagate. ctx_tac. Qed.
#[local] Hint Resolve sim_apply_op sim_apply_op_propagate : sim.
Lemma sim_offset_loop a o f g l :
  csim (offset_siblings_loop fuel a o f g l) (offset_siblings_loop fuel a o f g l).
Proof. induction l as [|x l IH]; simpl; ctx_tac. Qed.
#[local] Hint Resolve sim_offset_loop : sim.
Lemma sim_offset_before a c o :
  csim (offset_siblings_before fuel a c o) (offset_siblings_before fuel a c o).
Proof. unfold offset_siblings_before. ctx_tac. Qed.
Lemma sim_offset_after a c o :
  csim (offset_siblings_after fuel a c o) (offset_siblings_after fuel a c o).
Proof. unfold offset_siblings_after. ctx_tac. Qed.
#[local] Hint Resolve sim_offset_before sim_offset_after : sim.

Lemma sim_reclaim_before a c ch r n :
  csim (reclaim_interval_before fuel a c ch r n) (reclaim_interval_before fuel a c ch r n).
Proof.
  unfold reclaim_interval_before, reclaim_interval, reclaim_walk_up, reclaim_walk_down; simpl.
  ctx_tac.
Qed.
Lemma sim_reclaim_after a c ch r n :
  csim (reclaim_interval_after fuel a c ch r n) (reclaim_interval_after fuel a c ch r n).
Proof.
  unfold reclaim_interval_after, reclaim_interval, reclaim_walk_up, reclaim_walk_down; simpl.
  ctx_tac.
Qed.
#[local] Hint Resolve sim_reclaim_before sim_reclaim_after : sim.
Lemma sim_earlier_than_root a r c n :
  csim (reindex_intervals_earlier_than_root fuel a r c n)
       (reindex_intervals_earlier_than_root fuel a r c n).
Proof. unfold reindex_intervals_earlier_than_root. ctx_tac. Qed.
#[local] Hint Resolve sim_earlier_than_root : sim.
Lemma sim_reindex_intervals a r : csim (reindex_intervals fuel a r) (reindex_intervals fuel a r).
Proof. unfold reindex_intervals. ctx_tac. Qed.
#[local] Hint Resolve sim_reindex_intervals : sim.
Lemma sim_concentrate p c b :
  csim (concentrate_interval fuel p c b) (concentrate_interval fuel p c b).
Proof.
  unfold concentrate_interval, tighten_intervals_before, tighten_intervals_after,
    expand_interval_to_chosen, set_and_propagate, count_sizes. ctx_tac.
Qed.
#[local] Hint Resolve sim_concentrate : sim.
Lemma sim_with_ctx {A} d s (m : M (Ctx (T:=T)) ReachabilityError A) m' :
  csim m m' → asim (with_ctx d s m) (with_ctx d s m').
Proof.
  intros Hm st. unfold with_ctx. specialize (Hm (mkCtx st ∅ d s)).
  unfold abs_ctx in Hm at 1. simpl in Hm. rewrite Hm. by destruct (m _).
Qed.
#[local] Hint Resolve sim_with_ctx : sim.

(** ** Tree and entry points *)

Lemma sim_add_tree_block n p d s :
  asim (add_tree_block fuel n p d s) (add_tree_block fuel n p d s).
Proof. unfold add_tree_block. sim_tac. Qed.
#[local] Hint Resolve sim_add_tree_block : sim.
Lemma sim_find_common b r :
  asim (find_common_tree_ancestor fuel b r) (find_common_tree_ancestor fuel b r).
Proof. unfold find_common_tree_ancestor. sim_tac. Qed.
Lemma sim_advance_next h hh d n : asim (advance_next fuel h hh d n) (advance_next fuel h hh d n).
Proof. unfold advance_next. sim_tac. Qed.
#[local] Hint Resolve sim_find_common sim_advance_next : sim.
Lemma sim_find_next c h d s :
  asim (find_next_reindex_root fuel c h d s) (find_next_reindex_root fuel c h d s).
Proof. unfold find_next_reindex_root. sim_tac. Qed.
#[local] Hint Resolve sim_find_next : sim.
Lemma sim_try_advancing h d s :
  asim (try_advancing_reindex_root fuel h d s) (try_advancing_reindex_root fuel h d s).
Proof. unfold try_advancing_reindex_root. sim_tac. Qed.
Lemma sim_add_block n p l : asim (add_block fuel n p l) (add_block fuel n p l).
Proof. unfold add_block, add_block_with_params. sim_tac. Qed.
Lemma sim_init_with_params o i : asim (init_with_params o i) (init_with_params o i).
Proof.
  intros s. unfold init_with_params, try, map_err, mbind, M_bind.
  pose proof (sim_has o s) as Hh. destruct (has o s) as [r s'] eqn:E. simpl in Hh |- *.
  injection Hh as Hr Hs'. rewrite <- Hr. simpl. case_bool_decide as Hs; simpl.
  - by rewrite <- Hs'.
  - pose proof (sim_init o i s') as Hi. rewrite <- Hs' in Hi.
    specialize (Hi ltac:(by apply eq_None_not_Some)). simpl in Hi. rewrite Hi.
    by destruct (init o i s').
Qed.
#[local] Hint Resolve sim_try_advancing sim_add_block sim_init_with_params
  sim_get_next_chain_ancestor sim_is_dag_ancestor_of : sim.

End simulation.

(** ** Histories of calls *)

(** The calls consensus makes to the reachability module, and their results. *)
Inductive Call : Type :=
| Init
| AddBlock (new_block selected_parent : Hash) (mergeset : list Hash)
| HintVirtualSelectedParent (hint : Hash)
| IsChainAncestorOf (this queried : Hash)
| IsDagAncestorOf (this queried : Hash)
| GetNextChainAncestor (descendant ancestor : Hash).

Inductive Reply : Type :=
| Done
| Answer (b : bool)
| Block (h : Hash).

Definition perform {T} `{ReachabilityStore T} (fuel : nat) (c : Call)
    : M T ReachabilityError Reply :=
  match c with
  | Init => inquirer_init;; mret Done
  | AddBlock n p ms => add_block fuel n p ms;; mret Done
  | HintVirtualSelectedParent h => hint_virtual_selected_parent fuel h;; mret Done
  | IsChainAncestorOf a b => Answer <$> is_chain_ancestor_of a b
  | IsDagAncestorOf a b => Answer <$> is_dag_ancestor_of a b
  | GetNextChainAncestor d a => Block <$> get_next_chain_ancestor d a
  end.

(** A history of calls, up to the first error. *)
Definition perform_all {T} `{ReachabilityStore T} (fuel : nat) (calls : list Call)
    : M T ReachabilityError (list Reply) :=
  map_each calls (perform fuel).

(** C18: the database store and the staging store refine the in-memory store: any
    history of calls to the reachability module gives, on them, the replies (and
    the error, if one ends the history) that it gives on the in-memory store with
    the same contents, and leaves the same contents. *)
Theorem stores_refine_memory (fuel : nat) (calls : list Call) :
  sim db_abs (perform_all fuel calls) (perform_all fuel calls)
  ∧ sim staging_abs (perform_all fuel calls) (perform_all fuel calls).
Proof.
  assert (∀ T `{StoreLaws T}, sim (abs (T:=T)) (perform_all fuel calls) (perform_all fuel calls))
    as Hall.
  { intros T ??. apply sim_map_each. intros [|n p l|h|a b|a b|d a]; simpl.
    - apply sim_bind; [|auto with sim]. apply sim_bind; [apply sim_lift|].
      intros; apply sim_init_with_params.
    - apply sim_bind; [apply sim_add_block|auto with sim].
    - apply sim_bind; [apply sim_try_advancing|auto with sim].
    - apply sim_fmap, sim_is_chain_ancestor_of.
    - apply sim_fmap, sim_is_dag_ancestor_of.
    - apply sim_fmap, sim_get_next_chain_ancestor. }
  split; [apply (Hall _ _ db_laws)|apply (Hall _ _ staging_laws)].
Qed.
