(* ===== verification/ReachTree.v ===== *)
(** * The tree behind the reachability store

    The blocks of a reachability store form a tree (the selected-parent tree).
    This file relates a store to such a tree, states what it means for the
    intervals of the store to index it, and proves the facts about intervals that
    the queries rely on: an interval contains the point of a block exactly when
    its owner is a chain ancestor of the block. *)

From S2P Require Import Prelude Hash Interval ReachStore.
Import Interval (Interval, start, end_, valid, card, contains, strictly_contains).

(** ** Rose trees of blocks *)

#[local] Unset Elimination Schemes.

Inductive tree : Type := Node (h : Hash) (ks : list tree).

Definition root (t : tree) : Hash := match t with Node h _ => h end.
Definition kids (t : tree) : list tree := match t with Node _ ks => ks end.

Fixpoint nodes (t : tree) : list Hash :=
  match t with Node h ks => h :: (ks ≫= nodes) end.

Fixpoint tree_ind' (P : tree → Prop)
    (IH : ∀ h ks, Forall P ks → P (Node h ks)) (t : tree) : P t :=
  match t with
  | Node h ks => IH h ks
      ((fix go (l : list tree) : Forall P l :=
          match l with
          | [] => Forall_nil_2 P
          | k :: l' => Forall_cons_2 P k l' (tree_ind' P IH k) (go l')
          end) ks)
  end.

#[local] Set Elimination Schemes.

Inductive subtree (s : tree) : tree → Prop :=
| subtree_refl : subtree s s
| subtree_kid h ks k : k ∈ ks → subtree s k → subtree s (Node h ks).

(** [below t a b]: in the tree [t], [b] is in the subtree of [a]. *)
Definition below (t : tree) (a b : Hash) : Prop :=
  ∃ s, subtree s t ∧ root s = a ∧ b ∈ nodes s.

(** ** Stores that represent a tree *)

Abbreviation Data := (gmap Hash ReachabilityData).

(** The links: parents, children and heights. *)
#[local] Unset Elimination Schemes.

Inductive shape (D : Data) : Hash → Z → tree → Prop :=
| shape_node p n h ks d :
    D !! h = Some d → parent d = p → height d = n → children d = root <$> ks →
    Forall (shape D h (n + 1)) ks → shape D p n (Node h ks).

(** The interval of a block. *)
Definition ivl (D : Data) (h : Hash) : Interval :=
  match D !! h with Some d => interval d | None => Interval.mk 1 0 end.

(** [spread lo l hi]: the intervals of [l] are non-empty, in increasing order,
    disjoint, and between [lo] and [hi]. *)
Fixpoint spread (lo : Z) (l : list Interval) (hi : Z) : Prop :=
  match l with
  | [] => True
  | i :: l' => lo ≤ start i ∧ start i ≤ end_ i ∧ end_ i ≤ hi ∧ spread (end_ i + 1) l' hi
  end.

(** The intervals index the tree: a block's interval is non-empty, and leaves
    room for its own point (its end) after the disjoint intervals of its children. *)
Inductive indexed (D : Data) : tree → Prop :=
| indexed_node h ks :
    valid (ivl D h) → start (ivl D h) ≤ end_ (ivl D h) →
    spread (start (ivl D h)) (ivl D ∘ root <$> ks) (end_ (ivl D h) - 1) →
    Forall (indexed D) ks → indexed D (Node h ks).

#[local] Set Elimination Schemes.

(** A store represents the tree [t]. *)
Record represents (D : Data) (t : tree) : Prop := {
  rep_shape : shape D Hashes.NONE 0 t;
  rep_nodup : NoDup (nodes t);
  rep_dom : ∀ h, is_Some (D !! h) ↔ h ∈ nodes t;
  rep_none : Hashes.NONE ∉ nodes t;
  rep_size : Z.of_nat (length (nodes t)) ≤ u64_max;
}.

(** ** Facts about trees *)

Lemma root_in_nodes t : root t ∈ nodes t.
Proof. destruct t; simpl. left. Qed.
#[export] Hint Resolve root_in_nodes : kaspa.

Lemma nodes_node h ks x : x ∈ nodes (Node h ks) ↔ x = h ∨ ∃ k, k ∈ ks ∧ x ∈ nodes k.
Proof.
  simpl. rewrite elem_of_cons, list_elem_of_bind. split; intros [|(k & ? & ?)]; eauto.
Qed.

Lemma subtree_nodes s t : subtree s t → ∀ x, x ∈ nodes s → x ∈ nodes t.
Proof.
  induction 1 as [|h ks k Hk _ IH]; [done|]. intros x Hx. apply nodes_node. right. eauto.
Qed.

Lemma subtree_trans r s t : subtree r s → subtree s t → subtree r t.
Proof. intros Hr. induction 1; [done|]. econstructor; eauto. Qed.

Lemma below_refl t a : a ∈ nodes t → below t a a.
Proof.
  induction t as [h ks IH] using tree_ind'. intros [->|(k & Hk & Ha)]%nodes_node.
  - exists (Node h ks). split_and!; [constructor|done|]. apply (root_in_nodes (Node h ks)).
  - rewrite Forall_forall in IH. destruct (IH k Hk Ha) as (s & ? & ? & ?).
    exists s. split_and!; [|done..]. econstructor; eauto.
Qed.

Lemma below_root t b : b ∈ nodes t → below t (root t) b.
Proof. intros. exists t. split_and!; [constructor|done..]. Qed.

Lemma below_in t a b : below t a b → a ∈ nodes t ∧ b ∈ nodes t.
Proof.
  intros (s & Hs & <- & Hb). split; eapply subtree_nodes; eauto with kaspa.
Qed.

Lemma below_kid h ks k a b : k ∈ ks → below k a b → below (Node h ks) a b.
Proof. intros Hk (s & ? & ? & ?). exists s. split_and!; [|done..]. econstructor; eauto. Qed.

(** A hash belongs to one kid only. *)
Lemma NoDup_bind_unique {A B} (f : A → list B) (l : list A) i j a b x :
  NoDup (l ≫= f) → l !! i = Some a → l !! j = Some b → x ∈ f a → x ∈ f b → i = j.
Proof.
  revert i j. induction l as [|c l IH]; intros i j Hnd; [done|].
  simpl in Hnd. apply NoDup_app in Hnd as (_ & Hd & Hnd).
  destruct i as [|i], j as [|j]; simpl; intros Ha Hb Hxa Hxb; simplify_eq; [done| | |].
  - exfalso. apply (Hd x); [done|]. apply list_elem_of_bind.
    exists b. eauto using list_elem_of_lookup_2.
  - exfalso. apply (Hd x); [done|]. apply list_elem_of_bind.
    exists a. eauto using list_elem_of_lookup_2.
  - f_equal; eauto.
Qed.

Lemma NoDup_nodes_inv h ks :
  NoDup (nodes (Node h ks)) →
  (∀ k, k ∈ ks → h ∉ nodes k) ∧ (∀ k, k ∈ ks → NoDup (nodes k)) ∧ NoDup (ks ≫= nodes).
Proof.
  simpl. intros [Hh Hnd]%NoDup_cons. split_and!; [| |done].
  - intros k Hk Hin. apply Hh, list_elem_of_bind. eauto.
  - intros k Hk. clear Hh. induction ks as [|k' ks IH]; [by apply elem_of_nil in Hk|].
    simpl in Hnd. apply NoDup_app in Hnd as (? & _ & ?).
    apply elem_of_cons in Hk as [->|Hk]; auto.
Qed.

(** Inversion of [below] at a node whose root is not the ancestor. *)
Lemma below_node_inv h ks a b :
  below (Node h ks) a b → a ≠ h → ∃ k, k ∈ ks ∧ below k a b.
Proof.
  intros (s & Hs & Ha & Hb) Hne. inversion Hs as [|??? Hk]; subst; [done|].
  eexists; split; [done|]. by exists s.
Qed.

Lemma NoDup_subtree s t : subtree s t → NoDup (nodes t) → NoDup (nodes s).
Proof.
  induction 1 as [|h ks k Hk _ IH]; [done|].
  intros (_ & Hks & _)%NoDup_nodes_inv. auto.
Qed.

(** Blocks determine their subtrees. *)
Lemma subtree_unique t s1 s2 :
  NoDup (nodes t) → subtree s1 t → subtree s2 t → root s1 = root s2 → s1 = s2.
Proof.
  induction t as [h ks IH] using tree_ind'. intros Hnd H1 H2 Hr.
  pose proof (NoDup_nodes_inv _ _ Hnd) as (Hh & Hks & Hb). rewrite Forall_forall in IH.
  inversion H1 as [|? ? k1 Hk1 Hs1]; subst; inversion H2 as [|? ? k2 Hk2 Hs2]; subst; [done| | |].
  - exfalso. apply (Hh k2 Hk2). simpl in Hr. rewrite Hr.
    eapply subtree_nodes; eauto with kaspa.
  - exfalso. apply (Hh k1 Hk1). simpl in Hr. rewrite <- Hr.
    eapply subtree_nodes; eauto with kaspa.
  - apply list_elem_of_lookup in Hk1 as [i Hi], Hk2 as [j Hj].
    assert (i = j) as <-.
    { eapply (NoDup_bind_unique nodes); [done..| |].
      - eapply (subtree_nodes s1); eauto with kaspa.
      - rewrite Hr. eapply subtree_nodes; eauto with kaspa. }
    simplify_eq. eapply IH; eauto using list_elem_of_lookup_2.
Qed.

Lemma below_trans t a b c : NoDup (nodes t) → below t a b → below t b c → below t a c.
Proof.
  intros Hnd (s & Hs & Ha & Hb) (r & Hr & Hb' & Hc).
  destruct (below_refl s b Hb) as (r' & Hr' & Hb'' & _).
  assert (r' = r) as ->.
  { eapply subtree_unique; eauto using subtree_trans. congruence. }
  exists s. split_and!; [done..|]. by eapply subtree_nodes.
Qed.

(** ** Facts about intervals *)

Lemma spread_mono lo lo' l hi hi' : lo' ≤ lo → hi ≤ hi' → spread lo l hi → spread lo' l hi'.
Proof.
  revert lo lo'. induction l as [|i l IH]; intros lo lo' ??; simpl; [done|].
  intros (? & ? & ? & ?). split_and!; [lia..|]. eapply IH; eauto. lia.
Qed.

Lemma spread_bounds lo l hi i :
  spread lo l hi → i ∈ l → lo ≤ start i ∧ start i ≤ end_ i ∧ end_ i ≤ hi.
Proof.
  revert lo. induction l as [|j l IH]; intros lo; simpl; [by intros _ ?%elem_of_nil|].
  intros (? & ? & ? & Hs) [->|Hi]%elem_of_cons; [lia|]. specialize (IH _ Hs Hi). lia.
Qed.

Lemma spread_ordered lo l hi x y (i j : Interval) :
  spread lo l hi → l !! x = Some i → l !! y = Some j → (x < y)%nat → end_ i < start j.
Proof.
  revert lo x y. induction l as [|k l IH]; intros lo [|x] [|y]; simpl; try done; try lia.
  - intros (? & ? & ? & Hs) [= ->] Hj%list_elem_of_lookup_2 _.
    pose proof (spread_bounds _ _ _ _ Hs Hj). lia.
  - intros (? & ? & ? & Hs) ???. eapply IH; eauto. lia.
Qed.

Lemma spread_tight lo l hi j :
  spread lo l hi → last l = Some j → spread lo l (end_ j).
Proof.
  revert lo. induction l as [|i l IH]; intros lo; simpl; [done|].
  intros (? & ? & ? & Hs) Hl. destruct l as [|i' l'].
  - simpl in Hl. simplify_eq. split_and!; [lia..|done].
  - rewrite last_cons_cons in Hl. pose proof (IH _ Hs Hl) as Ht.
    apply last_Some_elem_of in Hl. pose proof (spread_bounds _ _ _ _ Hs Hl).
    split_and!; [lia..|done].
Qed.

Lemma spread_snoc lo l i hi :
  spread lo l (start i - 1) → start i ≤ end_ i → end_ i ≤ hi → lo ≤ start i →
  spread lo (l ++ [i]) hi.
Proof.
  revert lo. induction l as [|j l IH]; intros lo; simpl; [done|].
  intros (? & ? & ? & Hs) ???. split_and!; [lia..|]. apply IH; auto. lia.
Qed.

Lemma tiles_spread lo l hi :
  Interval.tiles lo l hi → Forall (λ i, 0 < card i) l → spread lo l hi.
Proof.
  revert lo. induction l as [|i l IH]; intros lo; simpl; [done|].
  intros (<- & ? & Ht) [Hi Hl]%Forall_cons_1. unfold card in Hi.
  pose proof (Interval.tiles_le _ _ _ Ht). split_and!; [lia..|auto].
Qed.

(** ** Intervals and subtrees *)

Section indexed.
Context (D : Data).
Abbreviation I := (ivl D).

Lemma indexed_subtree s t : subtree s t → indexed D t → indexed D s.
Proof.
  induction 1 as [|h ks k Hk _ IH]; [done|]. inversion 1 as [??? ? ? Hks]; subst.
  rewrite Forall_forall in Hks. auto.
Qed.

Lemma indexed_bounds t b :
  indexed D t → b ∈ nodes t →
  valid (I b) ∧ start (I (root t)) ≤ start (I b) ∧ start (I b) ≤ end_ (I b)
  ∧ end_ (I b) ≤ end_ (I (root t)) ∧ (b ≠ root t → end_ (I b) < end_ (I (root t))).
Proof.
  induction t as [h ks IH] using tree_ind'. inversion 1 as [? ? Hv Hne Hs Hks]; subst.
  rewrite Forall_forall in IH, Hks. intros [->|(k & Hk & Hb)]%nodes_node; simpl.
  - split_and!; [done|lia..|done].
  - destruct (IH k Hk (Hks k Hk) Hb) as (? & ? & ? & ? & _).
    assert (I (root k) ∈ (ivl D ∘ root) <$> ks) as Hin by (apply list_elem_of_fmap; eauto).
    pose proof (spread_bounds _ _ _ _ Hs Hin). split_and!; [done|lia..].
Qed.

(** Blocks below different kids have disjoint intervals, in the kids' order. *)
Lemma indexed_kids_ordered h ks i j k1 k2 a b :
  indexed D (Node h ks) → ks !! i = Some k1 → ks !! j = Some k2 → (i < j)%nat →
  a ∈ nodes k1 → b ∈ nodes k2 → end_ (I a) < start (I b).
Proof.
  inversion 1 as [? ? _ _ Hs Hks]; subst. intros H1 H2 Hij Ha Hb.
  rewrite Forall_forall in Hks.
  pose proof (indexed_bounds k1 a (Hks _ (list_elem_of_lookup_2 _ _ _ H1)) Ha) as (_ & _ & _ & ? & _).
  pose proof (indexed_bounds k2 b (Hks _ (list_elem_of_lookup_2 _ _ _ H2)) Hb) as (_ & ? & _).
  assert (end_ (I (root k1)) < start (I (root k2))); [|lia].
  eapply spread_ordered; [exact Hs| | |exact Hij]; by rewrite list_lookup_fmap, ?H1, ?H2.
Qed.

(** The point of [b] (the end of its interval) lies in the interval of [a]
    exactly when [b] is in the subtree of [a]. *)
Lemma point_below t a b :
  indexed D t → NoDup (nodes t) → a ∈ nodes t → b ∈ nodes t →
  (start (I a) ≤ end_ (I b) ≤ end_ (I a)) ↔ below t a b.
Proof.
  induction t as [h ks IH] using tree_ind'. intros Hi Hnd Ha Hb.
  pose proof (NoDup_nodes_inv _ _ Hnd) as (Hh & Hks & Hbind).
  rewrite Forall_forall in IH.
  destruct (decide (a = h)) as [->|Hah].
  { split; [intros _; by apply (below_root (Node h ks))|intros _].
    pose proof (indexed_bounds _ _ Hi Hb) as (? & ? & ? & ? & _). simpl in *. lia. }
  apply nodes_node in Ha as [->|(k & Hk & Ha)]; [done|].
  pose proof Hi as Hi'. inversion Hi' as [? ? _ _ Hsp Hiks]; subst. clear Hi'.
  rewrite Forall_forall in Hiks.
  apply list_elem_of_lookup in Hk as [i Hk].
  assert (below (Node h ks) a b ↔ below k a b) as ->.
  { split; [|apply below_kid; by eapply list_elem_of_lookup_2].
    intros (k' & Hk' & Hbl)%below_node_inv; [|done].
    pose proof (below_in _ _ _ Hbl) as [Ha' _].
    apply list_elem_of_lookup in Hk' as [j Hk'].
    assert (i = j) as <- by (eapply (NoDup_bind_unique nodes); eauto). by simplify_eq. }
  apply nodes_node in Hb as [->|(k' & Hk' & Hb)].
  - split; [|intros [_ Hb]%below_in; exfalso; eapply Hh; eauto using list_elem_of_lookup_2].
    pose proof (indexed_bounds (Node h ks) a Hi) as Hab.
    destruct Hab as (_ & _ & _ & _ & Hlt);
      [apply nodes_node; right; eauto using list_elem_of_lookup_2|].
    specialize (Hlt Hah). simpl in Hlt. lia.
  - apply list_elem_of_lookup in Hk' as [j Hk']. destruct (decide (i = j)) as [<-|Hij].
    + simplify_eq. eapply IH; eauto using list_elem_of_lookup_2.
    + split.
      * intros [??]. exfalso. destruct (decide (i < j)%nat).
        -- pose proof (indexed_kids_ordered _ _ i j _ _ _ _ Hi Hk Hk' ltac:(lia) Ha Hb).
           pose proof (indexed_bounds k' b (Hiks _ (list_elem_of_lookup_2 _ _ _ Hk')) Hb).
           lia.
        -- pose proof (indexed_kids_ordered _ _ j i _ _ _ _ Hi Hk' Hk ltac:(lia) Hb Ha). lia.
      * intros [_ Hb']%below_in. exfalso. apply Hij.
        eapply (NoDup_bind_unique nodes); eauto.
Qed.

Lemma below_contains t a b :
  indexed D t → below t a b → contains (I a) (I b) = true.
Proof.
  intros Hi (s & Hs & <- & Hb). pose proof (indexed_subtree _ _ Hs Hi) as Hi'.
  pose proof (indexed_bounds _ _ Hi' Hb) as (_ & ? & ? & ? & _).
  unfold contains. apply andb_true_iff. split; apply Z.leb_le; lia.
Qed.

Lemma contains_below t a b :
  indexed D t → NoDup (nodes t) → a ∈ nodes t → b ∈ nodes t →
  contains (I a) (I b) = true ↔ below t a b.
Proof.
  intros Hi Hnd Ha Hb. split; [|by apply below_contains].
  unfold contains. intros Hc; zbool. apply point_below; auto.
  pose proof (indexed_bounds _ _ Hi Hb) as (_ & _ & ? & _). lia.
Qed.

Lemma strictly_contains_below t a b :
  indexed D t → NoDup (nodes t) → a ∈ nodes t → b ∈ nodes t →
  strictly_contains (I a) (I b) = true ↔ below t a b ∧ a ≠ b.
Proof.
  intros Hi Hnd Ha Hb. rewrite <- (contains_below t a b) by done.
  unfold strictly_contains, contains. split.
  - intros Hc; zbool. split; [|intros ->; lia].
    apply andb_true_iff; split; apply Z.leb_le; lia.
  - intros [Hc Hne]. pose proof (proj1 (contains_below t a b Hi Hnd Ha Hb) Hc)
      as (s & Hs & <- & Hbs).
    pose proof (indexed_bounds _ _ (indexed_subtree _ _ Hs Hi) Hbs) as (_ & ? & _ & _ & Hlt).
    apply andb_true_iff; split; [apply Z.leb_le; lia|apply Z.ltb_lt, Hlt; congruence].
Qed.
End indexed.

(** ** Chains of parents *)

(** [chain D a b]: following the parent links from [b] one reaches [a] (in the
    words of the code, [a ∈ chain(b) ∪ {b}]). *)
Inductive chain (D : Data) (a : Hash) : Hash → Prop :=
| chain_refl : is_Some (D !! a) → chain D a a
| chain_step b d : D !! b = Some d → chain D a (parent d) → chain D a b.

Lemma chain_trans D a b c : chain D a b → chain D b c → chain D a c.
Proof. intros Hab. induction 1; [done|]. econstructor; eauto. Qed.

Lemma shape_chain D p n t b : shape D p n t → b ∈ nodes t → chain D (root t) b.
Proof.
  revert p n. induction t as [h ks IH] using tree_ind'; intros p n.
  inversion 1 as [? ? ? ? d Hd _ _ Hc Hks]; subst. rewrite Forall_forall in IH, Hks.
  intros [->|(k & Hk & Hb)]%nodes_node; simpl; [constructor; eauto|].
  eapply chain_trans; [|eapply IH; eauto].
  specialize (Hks k Hk). inversion Hks as [? ? h' ks' d' Hd' Hp' _ _ _]; subst. simpl.
  econstructor; [done|]. constructor; eauto.
Qed.

Lemma shape_subtree D p n s t : subtree s t → shape D p n t → ∃ p' n', shape D p' n' s.
Proof.
  intros Hs. revert p n. induction Hs as [|h ks k Hk _ IH]; intros p n; [eauto|].
  inversion 1 as [? ? ? ? d Hd _ _ Hc Hks]; subst. rewrite Forall_forall in Hks. eauto.
Qed.

Lemma shape_lookup D p n t : shape D p n t →
  ∃ d, D !! root t = Some d ∧ parent d = p ∧ height d = n ∧ children d = root <$> kids t.
Proof. inversion 1; subst; simpl; eauto. Qed.

(** The parent of a block of a tree: outside for the root, the block above otherwise. *)
Lemma shape_parent D p n t b d :
  shape D p n t → b ∈ nodes t → D !! b = Some d →
  (b = root t ∧ parent d = p) ∨ below t (parent d) b.
Proof.
  revert p n. induction t as [h ks IH] using tree_ind'; intros p n Hs Hb Hd.
  pose proof Hs as Hs'. inversion Hs' as [? ? ? ? d' Hd' Hp _ Hc Hks]; subst. clear Hs'.
  rewrite Forall_forall in IH, Hks.
  apply nodes_node in Hb as [->|(k & Hk & Hb)]; [left; simpl; by simplify_eq|].
  right. destruct (IH k Hk _ _ (Hks k Hk) Hb Hd) as [[-> ->]|?].
  - apply (below_root (Node h ks)). apply nodes_node. right. eauto.
  - by eapply below_kid.
Qed.

Lemma chain_below D t a b : represents D t → chain D a b ↔ below t a b.
Proof.
  intros [Hs Hnd Hdom Hnone _]. split.
  - induction 1 as [Ha|b d Hd _ IH]; [by apply below_refl, Hdom|].
    assert (b ∈ nodes t) as Hb by (apply Hdom; eauto).
    destruct (shape_parent _ _ _ _ _ _ Hs Hb Hd) as [[_ Hp]|?];
      [|by eapply below_trans].
    rewrite Hp in IH. apply below_in in IH as [_ ?]. done.
  - intros (s & Hsub & <- & Hb). destruct (shape_subtree _ _ _ _ _ Hsub Hs) as (? & ? & ?).
    by eapply shape_chain.
Qed.

(** ** The condition at one block *)

(** What [indexed] asks of the root of [t] and the intervals of its kids. *)
Definition node_ok (I : Hash → Interval) (t : tree) : Prop :=
  valid (I (root t)) ∧ start (I (root t)) ≤ end_ (I (root t))
  ∧ spread (start (I (root t))) (I ∘ root <$> kids t) (end_ (I (root t)) - 1).

Lemma indexed_iff D t : indexed D t ↔ ∀ s, subtree s t → node_ok (ivl D) s.
Proof.
  split.
  - intros Hi s Hs. apply (indexed_subtree D _ _ Hs) in Hi. by inversion Hi; subst.
  - induction t as [h ks IH] using tree_ind'. intros Hok. rewrite Forall_forall in IH.
    destruct (Hok (Node h ks)) as (? & ? & ?); [constructor|]. constructor; auto.
    apply Forall_forall. intros k Hk. apply IH; [done|].
    intros s Hs. apply Hok. econstructor; eauto.
Qed.

Lemma node_ok_ext I I' t :
  (∀ h, h = root t ∨ h ∈ root <$> kids t → I' h = I h) → node_ok I t → node_ok I' t.
Proof.
  intros HI (? & ? & Hs). unfold node_ok. rewrite (HI (root t)) by auto. split_and!; auto.
  replace (I' ∘ root <$> kids t) with (I ∘ root <$> kids t); [done|].
  apply list_fmap_ext. intros i k Hk%list_elem_of_lookup_2. simpl. symmetry. apply HI.
  right. apply list_elem_of_fmap. eauto.
Qed.

(** ** Changing data in place *)

(** The part of a block's data that [represents] is about. *)
Definition links (d : ReachabilityData) : Hash * list Hash * Z :=
  (parent d, children d, height d).

Lemma shape_links D D' p n t :
  (∀ h, h ∈ nodes t → links <$> D' !! h = links <$> D !! h) → shape D p n t → shape D' p n t.
Proof.
  revert p n. induction t as [h ks IH] using tree_ind'; intros p n HD.
  inversion 1 as [? ? ? ? d Hd Hp Hn Hc Hks]; subst. rewrite Forall_forall in IH, Hks.
  pose proof (HD h (root_in_nodes (Node h ks))) as Hh. rewrite Hd in Hh.
  destruct (D' !! h) as [d'|] eqn:Hd'; [|done]. simpl in Hh.
  injection Hh as Hp' Hc' Hn'. econstructor; eauto; [congruence|].
  apply Forall_forall. intros k Hk. apply IH; auto.
  intros x Hx. apply HD, nodes_node. eauto.
Qed.

Lemma represents_links D D' t :
  (∀ h, links <$> D' !! h = links <$> D !! h) → represents D t → represents D' t.
Proof.
  intros HD [Hs Hnd Hdom Hno Hsz]. split; auto; [eapply shape_links; eauto|].
  intros h. rewrite <- Hdom, <- (fmap_is_Some links (D' !! h)), HD. apply fmap_is_Some.
Qed.

Lemma indexed_ivl D D' t :
  (∀ h, h ∈ nodes t → ivl D' h = ivl D h) → indexed D t → indexed D' t.
Proof.
  induction t as [h ks IH] using tree_ind'. intros HD.
  inversion 1 as [? ? Hv Hne Hs Hks]; subst. rewrite Forall_forall in IH, Hks.
  pose proof (HD h (root_in_nodes (Node h ks))) as Hh. constructor; rewrite ?Hh; auto.
  - replace ((ivl D' ∘ root) <$> ks) with ((ivl D ∘ root) <$> ks); [done|].
    apply list_fmap_ext. intros i k Hk%list_elem_of_lookup_2. simpl. symmetry.
    apply HD, nodes_node. eauto with kaspa.
  - apply Forall_forall. intros k Hk. apply IH; auto.
    intros x Hx. apply HD, nodes_node. eauto.
Qed.

(** ** Well-formed stores *)

Definition wf_data (D : Data) : Prop := ∃ t, represents D t ∧ indexed D t.

(** ** An executable check

    [check_data D t] decides that [D] represents [t] and that its intervals index
    it; it is the validation that the tests of the repository make. *)

Fixpoint spread_b (lo : Z) (l : list Interval) (hi : Z) : bool :=
  match l with
  | [] => true
  | i :: l' => (lo <=? start i) && (start i <=? end_ i) && (end_ i <=? hi) && spread_b (end_ i + 1) l' hi
  end.

Fixpoint shape_b (D : Data) (p : Hash) (n : Z) (t : tree) : bool :=
  match t with
  | Node h ks =>
      match D !! h with
      | Some d => bool_decide (parent d = p) && (height d =? n)
                  && bool_decide (children d = root <$> ks) && forallb (shape_b D h (n + 1)) ks
      | None => false
      end
  end.

Fixpoint indexed_b (D : Data) (t : tree) : bool :=
  match t with
  | Node h ks =>
      let i := ivl D h in
      (1 <=? start i) && (start i <=? end_ i) && (end_ i <? u64_max)
      && spread_b (start i) (ivl D ∘ root <$> ks) (end_ i - 1) && forallb (indexed_b D) ks
  end.

Definition check_data (D : Data) (t : tree) : bool :=
  shape_b D Hashes.NONE 0 t && bool_decide (NoDup (nodes t))
  && bool_decide (dom D = list_to_set (nodes t)) && bool_decide (Hashes.NONE ∉ nodes t)
  && (Z.of_nat (length (nodes t)) <=? u64_max) && indexed_b D t.

Lemma spread_b_sound lo l hi : spread_b lo l hi = true → spread lo l hi.
Proof.
  revert lo. induction l as [|i l IH]; intros lo; simpl; [done|]. intros; zbool. auto.
Qed.

Lemma forallb_Forall_impl {A} (f : A → bool) (P : A → Prop) l :
  Forall (λ x, f x = true → P x) l → forallb f l = true → Forall P l.
Proof. induction 1; simpl; [by constructor|]. intros; zbool. constructor; auto. Qed.

Lemma shape_b_sound D p n t : shape_b D p n t = true → shape D p n t.
Proof.
  revert p n. induction t as [h ks IH] using tree_ind'; intros p n. simpl.
  destruct (D !! h) as [d|] eqn:Hd; [|done]. intros; zbool.
  repeat match goal with H : bool_decide _ = true |- _ => apply bool_decide_eq_true_1 in H end.
  econstructor; eauto. eapply forallb_Forall_impl; [|done].
  eapply Forall_impl; [exact IH|]. auto.
Qed.

Lemma indexed_b_sound D t : indexed_b D t = true → indexed D t.
Proof.
  induction t as [h ks IH] using tree_ind'. simpl. intros; zbool.
  constructor; [unfold valid; lia|lia|by apply spread_b_sound|].
  eapply forallb_Forall_impl; [|done]. eapply Forall_impl; [exact IH|]. auto.
Qed.

Lemma check_data_sound D t : check_data D t = true → represents D t ∧ indexed D t.
Proof.
  unfold check_data. intros; zbool.
  repeat match goal with H : bool_decide _ = true |- _ => apply bool_decide_eq_true_1 in H end.
  split; [|by apply indexed_b_sound]. split; auto using shape_b_sound.
  intros h. rewrite <- elem_of_dom.
  match goal with H : dom D = _ |- _ => rewrite H end. by rewrite elem_of_list_to_set.
Qed.

Lemma check_data_wf D t : check_data D t = true → wf_data D.
Proof. intros. exists t. by apply check_data_sound. Qed.
