(* ===== verification/ReachQuery.v ===== *)
(** * Correctness of the reachability queries

    The queries of [inquirer.rs], run on an in-memory store whose intervals index
    its tree, answer questions about chains of parents: proved for
    [is_chain_ancestor_of], [is_strict_chain_ancestor_of], the binary search,
    [get_next_chain_ancestor] and, in [ReachDag.v], for [is_dag_ancestor_of]. *)

From S2P Require Import Prelude Hash Interval ReachStore Reachability ReachTree.
Import Interval (Interval, start, end_, valid, card, contains, strictly_contains).

Abbreviation Mem := Memory.MemoryReachabilityStore.

(** ** Reads

    [reads m s a]: [m] returns [a] and does not change the state [s]. *)
Definition reads {S E A} (m : M S E A) (s : S) (a : A) : Prop := m s = (Ok a, s).

Lemma reads_bind {S E A B} (m : M S E A) (k : A → M S E B) s a b :
  reads m s a → reads (k a) s b → reads (m ≫= k) s b.
Proof. unfold reads, mbind, M_bind. by intros ->. Qed.
Lemma reads_ret {S E A} (a : A) (s : S) : reads (E:=E) (mret a) s a.
Proof. done. Qed.
Lemma reads_lift {S E A} (o : outcome E A) (s : S) a : o = Ok a → reads (lift o) s a.
Proof. by intros ->. Qed.
Lemma reads_try {S A} (m : M S StoreError A) s a : reads m s a → reads (try m) s a.
Proof. unfold reads, try, map_err. by intros ->. Qed.
Lemma reads_fmap {S E A B} (f : A → B) (m : M S E A) s a :
  reads m s a → reads (f <$> m) s (f a).
Proof. intros. unfold fmap, M_fmap. eapply reads_bind; [done|]. apply reads_ret. Qed.
Lemma reads_runs {S E A} (m : M S E A) s a (Q : A → S → Prop) :
  reads m s a → Q a s → runs m s Q.
Proof. intros. by eapply runs_intro. Qed.
#[export] Hint Resolve reads_ret reads_lift reads_try reads_fmap : kaspa.

Section memory_reads.
Context (s : Mem).
Abbreviation D := (Memory.map s).

Lemma mem_get_data h d : D !! h = Some d → reads (Memory.get_data h) s d.
Proof. unfold reads, Memory.get_data. by intros ->. Qed.

Lemma mem_get_interval h : is_Some (D !! h) → reads (get_interval h) s (ivl D h).
Proof.
  intros [d Hd]. unfold ivl. rewrite Hd.
  apply (reads_fmap interval (Memory.get_data h)), (mem_get_data _ _ Hd).
Qed.
Lemma mem_get_children h d : D !! h = Some d → reads (get_children h) s (children d).
Proof. intros Hd. apply (reads_fmap children (Memory.get_data h)), (mem_get_data _ _ Hd). Qed.
Lemma mem_get_parent h d : D !! h = Some d → reads (get_parent h) s (parent d).
Proof. intros Hd. apply (reads_fmap parent (Memory.get_data h)), (mem_get_data _ _ Hd). Qed.
Lemma mem_get_height h d : D !! h = Some d → reads (get_height h) s (height d).
Proof. intros Hd. apply (reads_fmap height (Memory.get_data h)), (mem_get_data _ _ Hd). Qed.
Lemma mem_get_fcs h d :
  D !! h = Some d → reads (get_future_covering_set h) s (future_covering_set d).
Proof.
  intros Hd. apply (reads_fmap future_covering_set (Memory.get_data h)), (mem_get_data _ _ Hd).
Qed.

Lemma mem_get_interval_unwrap h :
  is_Some (D !! h) → reads (get_interval_unwrap h) s (ivl D h).
Proof.
  intros Hh. unfold reads, get_interval_unwrap. by rewrite (mem_get_interval h Hh).
Qed.

Lemma mem_contains a b :
  is_Some (D !! a) → is_Some (D !! b) →
  reads (is_chain_ancestor_of a b) s (contains (ivl D a) (ivl D b)).
Proof.
  intros Ha Hb. unfold is_chain_ancestor_of.
  do 2 (eapply reads_bind; [apply reads_try, mem_get_interval; done|]). apply reads_ret.
Qed.
Lemma mem_strictly_contains a b :
  is_Some (D !! a) → is_Some (D !! b) →
  reads (is_strict_chain_ancestor_of a b) s (strictly_contains (ivl D a) (ivl D b)).
Proof.
  intros Ha Hb. unfold is_strict_chain_ancestor_of.
  do 2 (eapply reads_bind; [apply reads_try, mem_get_interval; done|]). apply reads_ret.
Qed.
End memory_reads.

(** ** The binary search *)

Section search.
Context (s : Mem).
Abbreviation D := (Memory.map s).

(** The hashes of an ordered list: known, with disjoint intervals in increasing
    order (the last may be empty). *)
Definition before (i j : Interval) : Prop := end_ i < start j ∧ start i < start j.

Definition ordered (l : list Hash) : Prop :=
  Forall (λ h, is_Some (D !! h)) l ∧ StronglySorted before (ivl D <$> l).

Lemma before_windows l : StronglySorted before l → windows_ordered l = true.
Proof.
  induction 1 as [|i [|j l] Hs IH Hi]; [done..|]. simpl in *.
  apply andb_true_iff. split; [|done]. apply Forall_cons_1 in Hi as [[Hi _] _]. by apply Z.ltb_lt.
Qed.

Lemma spread_sorted lo l hi : spread lo l hi → StronglySorted before l.
Proof.
  revert lo. induction l as [|i l IH]; intros lo; [constructor|].
  intros (? & ? & ? & Hs). constructor; [by eapply IH|]. apply Forall_forall. intros j Hj.
  pose proof (spread_bounds _ _ _ _ Hs Hj). unfold before. lia.
Qed.

Lemma ordered_assert l : ordered l → reads (assert_hashes_ordered l) s tt.
Proof.
  intros [Hin Hs]. unfold assert_hashes_ordered.
  apply (reads_bind _ _ _ (ivl D <$> l)).
  - clear Hs. induction Hin as [|h l Hh _ IH]; [done|]. simpl.
    eapply reads_bind; [by apply mem_get_interval_unwrap|].
    eapply reads_bind; [done|]. apply reads_ret.
  - apply reads_lift. unfold assert. by rewrite before_windows.
Qed.

Lemma sorted_lookup {A} (R : A → A → Prop) l i j a b :
  StronglySorted R l → l !! i = Some a → l !! j = Some b → (i < j)%nat → R a b.
Proof.
  intros Hs. revert i j. induction Hs as [|x l Hs IH Hx]; intros [|i] [|j]; try done; try lia.
  - simpl. intros [= <-] Hb%list_elem_of_lookup_2 _. rewrite Forall_forall in Hx. auto.
  - simpl. intros ???. eapply IH; eauto. lia.
Qed.

Lemma ordered_before l i j a b :
  ordered l → l !! i = Some a → l !! j = Some b → (i < j)%nat → before (ivl D a) (ivl D b).
Proof.
  intros [_ Hs] Ha Hb Hij. eapply (sorted_lookup _ _ i j); [exact Hs| | |done];
    by rewrite list_lookup_fmap, ?Ha, ?Hb.
Qed.

(** The standard binary search finds the key, or the only place for it. *)
Lemma binary_search_ok point l :
  ordered l →
  ∃ r, reads (binary_search_by_start point l) s r ∧
    match r with
    | inl i => ∃ h, l !! i = Some h ∧ start (ivl D h) = point
    | inr i => (i ≤ length l)%nat
        ∧ (∀ j h, l !! j = Some h → (j < i)%nat → start (ivl D h) < point)
        ∧ (∀ j h, l !! j = Some h → (i ≤ j)%nat → point < start (ivl D h))
    end.
Proof.
  intros Ho. enough (runs (binary_search_by_start point l) s (λ r s', s' = s ∧ match r with
    | inl i => ∃ h, l !! i = Some h ∧ start (ivl D h) = point
    | inr i => (i ≤ length l)%nat
        ∧ (∀ j h, l !! j = Some h → (j < i)%nat → start (ivl D h) < point)
        ∧ (∀ j h, l !! j = Some h → (i ≤ j)%nat → point < start (ivl D h))
    end)) as (r & s' & Hr & -> & HQ)%runs_elim by eauto.
  unfold binary_search_by_start.
  apply (runs_loop (λ '(size, lo, hi) s', s' = s ∧ size = (hi - lo)%nat ∧ (lo ≤ hi ≤ length l)%nat
    ∧ (∀ j h, l !! j = Some h → (j < lo)%nat → start (ivl D h) < point)
    ∧ (∀ j h, l !! j = Some h → (hi ≤ j)%nat → point < start (ivl D h)))
    (λ '(size, lo, hi) _, (hi - lo)%nat)).
  2: { split_and!; try done; try lia. intros j h ?%lookup_lt_Some ?. lia. }
  2: lia.
  intros [[size lo] hi] s' (-> & -> & Hb & Hlo & Hhi).
  destruct (Nat.ltb_spec lo hi) as [Hlt|Hge].
  - set (mid := (lo + (hi - lo) / 2)%nat).
    assert (lo ≤ mid < hi)%nat as Hmid.
    { unfold mid. pose proof (Nat.div_lt (hi - lo) 2). lia. }
    destruct (lookup_lt_is_Some_2 l mid) as [h Hh]; [lia|]. rewrite Hh.
    destruct Ho as [Hin Hsp]. pose proof (conj Hin Hsp : ordered l) as Ho.
    apply runs_bind, (reads_runs _ _ h); [by apply reads_lift|].
    apply runs_bind, (reads_runs _ _ (ivl D h)).
    { apply mem_get_interval_unwrap. by eapply Forall_lookup_1 in Hin. }
    destruct (Z.compare_spec (start (ivl D h)) point) as [Heq|Hl|Hg]; apply runs_ret.
    + split; [done|]. eauto.
    + split; [|lia]. split_and!; try done; try lia.
      intros j h' Hj Hjm. destruct (decide (j = mid)) as [->|]; [by simplify_eq|].
      destruct (ordered_before _ j mid _ _ Ho Hj Hh); lia.
    + split; [|lia]. split_and!; try done; try lia.
      intros j h' Hj Hjm. destruct (decide (j = mid)) as [->|]; [by simplify_eq|].
      destruct (ordered_before _ mid j _ _ Ho Hh Hj); lia.
  - assert (lo = hi) as -> by lia. apply runs_ret. split_and!; auto; lia.
Qed.
(** The search for the member of an ordered list whose interval holds that of
    [d], in terms of intervals only. *)
Lemma search_descendant_gen l d :
  ordered l → is_Some (D !! d) → start (ivl D d) ≤ end_ (ivl D d) →
  ∃ r, reads (binary_search_descendant l d) s r ∧
    match r with
    | Found h i => l !! i = Some h
        ∧ (contains (ivl D h) (ivl D d) = true ∨ start (ivl D h) = end_ (ivl D d))
    | NotFound i => (i ≤ length l)%nat ∧ (∀ h, h ∈ l → contains (ivl D h) (ivl D d) = false)
        ∧ (∀ j h, l !! j = Some h → (j < i)%nat → start (ivl D h) < end_ (ivl D d))
        ∧ (∀ j h, l !! j = Some h → (i ≤ j)%nat → end_ (ivl D d) < start (ivl D h))
    end.
Proof.
  intros Ho Hd Hne.
  assert (∀ j h, l !! j = Some h → is_Some (D !! h)) as Hl.
  { intros j h Hj. destruct Ho as [Hin _]. by eapply Forall_lookup_1 in Hin. }
  destruct (binary_search_ok (end_ (ivl D d)) l Ho) as (r & Hr & HQ).
  assert (∀ r', reads (match r with
     | inl i => h ← lift (unwrap_opt (l !! i)); mret (Found h i)
     | inr i => match i with
       | S i' => h ← lift (unwrap_opt (l !! i')); b ← is_chain_ancestor_of h d;
                 mret (if b : bool then Found h i' else NotFound i)
       | O => mret (NotFound i) end end) s r' →
     reads (binary_search_descendant l d) s r') as Hrun.
  { intros r' Hrd. unfold binary_search_descendant.
    eapply reads_bind; [by apply ordered_assert|].
    eapply reads_bind; [by apply reads_try, mem_get_interval|].
    eapply reads_bind; [exact Hr|]. exact Hrd. }
  destruct r as [i|[|i']].
  - destruct HQ as (h & Hh & Hst). exists (Found h i). split; [|auto]. apply Hrun.
    eapply reads_bind; [apply reads_lift; by rewrite Hh|]. apply reads_ret.
  - destruct HQ as (Hi & Hlo & Hhi). exists (NotFound 0).
    split; [apply Hrun, reads_ret|]. split_and!; try done.
    intros h [j Hj]%list_elem_of_lookup. specialize (Hhi j h Hj ltac:(lia)).
    unfold contains. apply andb_false_iff. left. apply Z.leb_gt. lia.
  - destruct HQ as (Hi & Hlo & Hhi). destruct (lookup_lt_is_Some_2 l i') as [h Hh]; [lia|].
    exists (if contains (ivl D h) (ivl D d) then Found h i' else NotFound (S i')). split.
    { apply Hrun. eapply reads_bind; [apply reads_lift; by rewrite Hh|].
      eapply reads_bind; [apply mem_contains; eauto|]. apply reads_ret. }
    destruct (contains (ivl D h) (ivl D d)) eqn:Hc; [auto|].
    split_and!; try done. intros h' [j Hj]%list_elem_of_lookup.
    destruct (decide (j = i')) as [->|Hne']; [by simplify_eq|].
    unfold contains. apply andb_false_iff. destruct (decide (j < i')%nat).
    + right. apply Z.leb_gt. destruct (ordered_before _ j i' _ _ Ho Hj Hh ltac:(lia)).
      specialize (Hlo i' h Hh ltac:(lia)). lia.
    + left. apply Z.leb_gt. specialize (Hhi j h' Hj ltac:(lia)). lia.
Qed.
End search.

(** ** Queries on a store that indexes a tree *)

Section tree_queries.
Context (s : Mem) (t : tree).
Abbreviation D := (Memory.map s).
Context (Hrep : represents D t) (Hidx : indexed D t).

Lemma node_known h : h ∈ nodes t → is_Some (D !! h).
Proof. apply (rep_dom _ _ Hrep). Qed.

(** The search for the member of an ordered list that is a chain ancestor. *)
Lemma search_descendant_ok l d :
  ordered s l → d ∈ nodes t →
  ∃ r, reads (binary_search_descendant l d) s r ∧
    match r with
    | Found h i => l !! i = Some h ∧ below t h d
    | NotFound i => (i ≤ length l)%nat ∧ (∀ h, h ∈ l → ¬ below t h d)
        ∧ (∀ j h, l !! j = Some h → (j < i)%nat → start (ivl D h) < end_ (ivl D d))
        ∧ (∀ j h, l !! j = Some h → (i ≤ j)%nat → end_ (ivl D d) < start (ivl D h))
    end.
Proof.
  intros Ho Hd. pose proof Hrep as [_ Hnd Hdom _ _].
  assert (∀ h, h ∈ l → h ∈ nodes t) as Hl.
  { intros h Hh. apply Hdom. destruct Ho as [Hin _]. rewrite Forall_forall in Hin. auto. }
  pose proof (indexed_bounds _ _ _ Hidx Hd) as (_ & _ & Hne & _).
  destruct (search_descendant_gen s l d Ho (node_known d Hd) Hne) as ([i|h i] & Hr & HQ);
    (eexists; split; [exact Hr|]); simpl in *.
  - destruct HQ as (? & Hno & ? & ?). split_and!; auto.
    intros h Hh Hb. apply (contains_below D) in Hb; auto. rewrite Hno in Hb; done.
  - destruct HQ as [Hh Hc]. split; [done|]. apply list_elem_of_lookup_2 in Hh.
    destruct Hc as [Hc|Hst]; [by apply (contains_below D t) in Hc; auto|].
    apply (point_below D); auto.
    pose proof (indexed_bounds _ _ _ Hidx (Hl h Hh)) as (_ & _ & ? & _). lia.
Qed.

(** The children of a block are ordered. *)
Lemma children_ordered h d :
  D !! h = Some d → ordered s (children d).
Proof.
  intros Hd. assert (h ∈ nodes t) as Hh by (apply (rep_dom _ _ Hrep); eauto).
  destruct (below_refl t h Hh) as ([h' ks] & Hsub & <- & _). simpl in Hd.
  pose proof (indexed_subtree D _ _ Hsub Hidx) as Hi.
  destruct (shape_subtree _ _ _ _ _ Hsub (rep_shape _ _ Hrep)) as (p & n & Hs).
  inversion Hs as [? ? ? ? d' Hd' _ _ Hc Hks]; subst. simplify_eq. rewrite Hc. split.
  - apply Forall_fmap, Forall_forall. intros k Hk. simpl. apply (rep_dom _ _ Hrep).
    eapply subtree_nodes; [exact Hsub|]. apply nodes_node. right. eauto with kaspa.
  - inversion Hi as [? ? Hv _ Hsp _]; subst. rewrite <- list_fmap_compose.
    by eapply spread_sorted.
Qed.

(** The child of an ancestor on the chain to a descendant. *)
Lemma child_towards a d da :
  D !! a = Some da → below t a d → a ≠ d →
  ∃ c dc, c ∈ children da ∧ below t c d ∧ D !! c = Some dc ∧ parent dc = a.
Proof.
  intros Ha (s' & Hsub & <- & Hd) Hne. destruct s' as [h ks]. simpl in *.
  destruct (shape_subtree _ _ _ _ _ Hsub (rep_shape _ _ Hrep)) as (p & n & Hs).
  inversion Hs as [? ? ? ? d' Hd' _ _ Hc Hks]; subst. simplify_eq.
  apply elem_of_cons in Hd as [->|(k & Hd & Hk)%list_elem_of_bind]; [done|].
  rewrite Forall_forall in Hks.
  destruct (shape_lookup _ _ _ _ (Hks k Hk)) as (dk & Hdk & Hp & _).
  exists (root k), dk. split_and!; [|by (exists k; split_and!;
    [eapply subtree_trans; [econstructor; [exact Hk|constructor]|exact Hsub]|done|done])|done|done].
  rewrite Hc. apply list_elem_of_fmap. eauto.
Qed.

Lemma children_below h d c : D !! h = Some d → c ∈ children d →
  below t h c ∧ ∃ dc, D !! c = Some dc ∧ parent dc = h.
Proof.
  intros Hd Hc. assert (h ∈ nodes t) as Hh by (apply (rep_dom _ _ Hrep); eauto).
  destruct (below_refl t h Hh) as ([h' ks] & Hsub & <- & _). simpl in Hd.
  destruct (shape_subtree _ _ _ _ _ Hsub (rep_shape _ _ Hrep)) as (p & n & Hs).
  inversion Hs as [? ? ? ? d' Hd' _ _ Hch Hks]; subst. simplify_eq. rewrite Hch in Hc.
  apply list_elem_of_fmap in Hc as (k & -> & Hk). rewrite Forall_forall in Hks. split.
  - exists (Node h' ks). split_and!; [done..|]. apply nodes_node. right. eauto with kaspa.
  - destruct (shape_lookup _ _ _ _ (Hks k Hk)) as (dk & ? & ? & _). eauto.
Qed.
End tree_queries.

(** ** A concrete store

    The store after initialisation and the first blocks of a small DAG; used to
    exercise the theorems. *)
Definition ex_run : M Mem ReachabilityError unit :=
  inquirer_init;;
  add_block 20 1%N Hashes.ORIGIN [];;
  add_block 20 2%N 1%N [];;
  add_block 20 3%N 1%N [];;
  add_block 20 4%N 2%N [3%N];;
  add_block 20 5%N 4%N [];;
  add_block 20 6%N 1%N [].
Definition ex_store : Mem := snd (ex_run Memory.new).
Definition ex_tree : tree :=
  Node Hashes.ORIGIN
    [Node 1%N [Node 2%N [Node 4%N [Node 5%N []]]; Node 3%N []; Node 6%N []]].

Lemma ex_store_check : check_data (Memory.map ex_store) ex_tree = true.
Proof. vm_compute. done. Qed.
Lemma ex_store_wf : wf_data (Memory.map ex_store).
Proof. exact (check_data_wf _ _ ex_store_check). Qed.

Lemma known_dec (s : Mem) h :
  bool_decide (is_Some (Memory.map s !! h)) = true → is_Some (Memory.map s !! h).
Proof. apply bool_decide_eq_true_1. Qed.

(** [get_next_chain_ancestor] on a strict chain ancestor. *)
Lemma next_chain_ancestor_ok (s : Mem) t descendant ancestor :
  represents (Memory.map s) t → indexed (Memory.map s) t →
  below t ancestor descendant → ancestor ≠ descendant →
  ∃ c dc, get_next_chain_ancestor descendant ancestor s = (Ok c, s)
    ∧ Memory.map s !! c = Some dc ∧ parent dc = ancestor ∧ below t c descendant.
Proof.
  intros Hr Hi Hb Hne. destruct (below_in _ _ _ Hb) as [Hat Hdt].
  pose proof Hr as [_ Hnd Hdom _ _]. apply Hdom in Hat as Ha, Hdt as Hd.
  pose proof (mem_strictly_contains s ancestor descendant Ha Hd) as Hstrict.
  unfold get_next_chain_ancestor. rewrite bool_decide_eq_false_2 by congruence.
  rewrite (proj2 (strictly_contains_below _ t _ _ Hi Hnd Hat Hdt)) in Hstrict by done.
  destruct Ha as [da Hda].
  destruct (search_descendant_ok s t Hr Hi (children da) descendant)
    as (r & Hrd & HQ); [by eapply children_ordered|done|].
  destruct (child_towards s t Hr ancestor descendant da Hda Hb Hne)
    as (c & dc & Hc & Hbc & Hdc & Hp).
  destruct r as [i|h i]; [destruct HQ as (_ & Hno & _); by destruct (Hno c)|].
  destruct HQ as [Hh Hbh]. apply list_elem_of_lookup_2 in Hh.
  destruct (children_below s t Hr ancestor da h Hda Hh) as [_ (dh & Hdh & Hph)].
  exists h, dh. split_and!; try done. eapply reads_bind; [exact Hstrict|]. simpl.
  unfold get_next_chain_ancestor_unchecked.
  eapply reads_bind; [by apply reads_try, mem_get_children|].
  eapply reads_bind; [exact Hrd|]. apply reads_ret.
Qed.

Lemma chain_query (s : Mem) t a b : represents (Memory.map s) t → indexed (Memory.map s) t →
  is_Some (Memory.map s !! a) → is_Some (Memory.map s !! b) →
  ∃ r, is_chain_ancestor_of a b s = (Ok r, s) ∧ (r = true ↔ below t a b).
Proof.
  intros Hr Hi Ha Hb. apply (rep_dom _ _ Hr) in Ha as Hat, Hb as Hbt.
  eexists. split; [by apply mem_contains|]. apply contains_below; try done. by apply rep_nodup in Hr.
Qed.

(** ** Properties *)

(** On a store whose intervals index its tree, [is_chain_ancestor_of] answers,
    for any two blocks of the store, whether the first is reached from the second
    by following parent links, and [is_strict_chain_ancestor_of] whether it is and
    the two differ; neither changes the store, fails or panics. *)
Theorem chain_queries_correct (s : Mem) (a b : Hash) :
  wf_data (Memory.map s) → is_Some (Memory.map s !! a) → is_Some (Memory.map s !! b) →
  (∃ r, is_chain_ancestor_of a b s = (Ok r, s) ∧ (r = true ↔ chain (Memory.map s) a b))
  ∧ (∃ r, is_strict_chain_ancestor_of a b s = (Ok r, s)
          ∧ (r = true ↔ chain (Memory.map s) a b ∧ a ≠ b)).
Proof.
  intros (t & Hr & Hi) Ha Hb. setoid_rewrite (chain_below _ t _ _ Hr).
  pose proof Hr as [_ Hnd Hdom _ _]. apply Hdom in Ha as Hat, Hb as Hbt. split; [by apply chain_query|].
  eexists. split; [by apply mem_strictly_contains|]. by apply strictly_contains_below.
Qed.

Lemma chain_queries_correct_witness :
  (∃ r, is_chain_ancestor_of 2%N 5%N ex_store = (Ok r, ex_store)
        ∧ (r = true ↔ chain (Memory.map ex_store) 2%N 5%N))
  ∧ (∃ r, is_strict_chain_ancestor_of 2%N 5%N ex_store = (Ok r, ex_store)
          ∧ (r = true ↔ chain (Memory.map ex_store) 2%N 5%N ∧ 2%N ≠ 5%N)).
Proof.
  apply (chain_queries_correct ex_store 2%N 5%N);
    [exact ex_store_wf|apply known_dec; vm_compute; done..].
Defined.

(** On a store whose intervals index its tree, [get_next_chain_ancestor]
    returns the child of [ancestor] on the chain to [descendant] when [ancestor]
    is a strict chain ancestor of it, found by binary search over the children,
    and [BadQuery] in all other cases; the store is not changed. *)
Theorem get_next_chain_ancestor_correct (s : Mem) (descendant ancestor : Hash) :
  wf_data (Memory.map s) →
  is_Some (Memory.map s !! descendant) → is_Some (Memory.map s !! ancestor) →
  (chain (Memory.map s) ancestor descendant ∧ ancestor ≠ descendant →
     ∃ c dc, get_next_chain_ancestor descendant ancestor s = (Ok c, s)
       ∧ Memory.map s !! c = Some dc ∧ parent dc = ancestor
       ∧ chain (Memory.map s) c descendant)
  ∧ (¬ (chain (Memory.map s) ancestor descendant ∧ ancestor ≠ descendant) →
     get_next_chain_ancestor descendant ancestor s = (Err BadQuery, s)).
Proof.
  intros (t & Hr & Hi) Hd Ha. setoid_rewrite (chain_below _ t _ _ Hr). split.
  - intros [Hb Hne]. by apply next_chain_ancestor_ok.
  - intros Hno. unfold get_next_chain_ancestor. case_bool_decide as Hde; [done|].
    unfold mbind, M_bind. rewrite (mem_strictly_contains s ancestor descendant Ha Hd).
    destruct (strictly_contains _ _) eqn:Hc; [|done]. exfalso. apply Hno.
    pose proof Hr as [_ Hnd Hdom _ _]. apply Hdom in Ha, Hd.
    by apply (strictly_contains_below _ t) in Hc.
Qed.

Lemma get_next_chain_ancestor_correct_witness :
  ∃ c dc, get_next_chain_ancestor 5%N 1%N ex_store = (Ok c, ex_store)
    ∧ Memory.map ex_store !! c = Some dc ∧ parent dc = 1%N
    ∧ chain (Memory.map ex_store) c 5%N.
Proof.
  apply (get_next_chain_ancestor_correct ex_store 5%N 1%N);
    [exact ex_store_wf|apply known_dec; vm_compute; done..|].
  split; [|done]. apply (chain_below _ ex_tree); [apply check_data_sound, ex_store_check|].
  exists (Node 1%N [Node 2%N [Node 4%N [Node 5%N []]]; Node 3%N []; Node 6%N []]).
  split_and!; [eapply subtree_kid; [left|constructor]|done|].
  apply list_elem_of_In. simpl. tauto.
Defined.
