(* ===== verification/ReachDag.v ===== *)
(** * Correctness of the DAG part of reachability

    A block's future covering set holds blocks outside its own subtree whose
    subtrees, with its own, make up its future.  This file states that invariant
    against the DAG given by the parents of every block, and proves that
    [is_dag_ancestor_of] decides reachability in the DAG and that [add_dag_block]
    keeps the invariant when a block is added to it. *)

From S2P Require Import Prelude Hash Interval ReachStore Reachability ReachTree ReachQuery.
Import Interval (Interval, start, end_, valid, card, contains, strictly_contains).

(** ** The order of incomparable blocks

    [left_of t a b]: [a] and [b] are below different children of some block, the
    child above [a] first. *)
Inductive left_of (t : tree) (a b : Hash) : Prop :=
| left_of_intro h ks i j k1 k2 :
    subtree (Node h ks) t → ks !! i = Some k1 → ks !! j = Some k2 → (i < j)%nat →
    a ∈ nodes k1 → b ∈ nodes k2 → left_of t a b.

Lemma left_of_kid h ks k a b : k ∈ ks → left_of k a b → left_of (Node h ks) a b.
Proof.
  intros Hk [h' ks' i j k1 k2 Hs ?????].
  apply (left_of_intro _ _ _ h' ks' i j k1 k2); eauto using subtree_kid.
Qed.

Lemma tree_cmp t a b : a ∈ nodes t → b ∈ nodes t →
  below t a b ∨ below t b a ∨ left_of t a b ∨ left_of t b a.
Proof.
  induction t as [h ks IH] using tree_ind'. rewrite Forall_forall in IH. intros Ha Hb.
  pose proof Ha as Ha'. apply nodes_node in Ha' as [->|(k1 & Hk1 & Ha1)].
  { left. by apply (below_root (Node h ks)). }
  pose proof Hb as Hb'. apply nodes_node in Hb' as [->|(k2 & Hk2 & Hb2)].
  { right; left. by apply (below_root (Node h ks)). }
  apply list_elem_of_lookup in Hk1 as [i Hi], Hk2 as [j Hj].
  destruct (Nat.lt_total i j) as [?|[->|?]].
  - right; right; left. apply (left_of_intro _ _ _ h ks i j k1 k2); auto using subtree_refl.
  - simplify_eq. apply list_elem_of_lookup_2 in Hi.
    destruct (IH _ Hi Ha1 Hb2) as [?|[?|[?|?]]]; eauto using below_kid, left_of_kid.
  - right; right; right. apply (left_of_intro _ _ _ h ks j i k2 k1); auto using subtree_refl.
Qed.

Section left_of_intervals.
Context (D : Data) (t : tree) (Hi : indexed D t).

Lemma left_of_lt a b : left_of t a b → end_ (ivl D a) < start (ivl D b).
Proof.
  intros [h ks i j k1 k2 Hs H1 H2 Hij Ha Hb].
  exact (indexed_kids_ordered D h ks i j k1 k2 a b (indexed_subtree D _ _ Hs Hi) H1 H2 Hij Ha Hb).
Qed.

Lemma lt_left_of a b :
  a ∈ nodes t → b ∈ nodes t → end_ (ivl D a) < start (ivl D b) → left_of t a b.
Proof.
  intros Ha Hb Hlt.
  pose proof (indexed_bounds _ _ _ Hi Ha) as (_ & _ & ? & _).
  pose proof (indexed_bounds _ _ _ Hi Hb) as (_ & _ & ? & _).
  destruct (tree_cmp t a b Ha Hb) as [Hc|[Hc|[Hc|Hc]]]; [exfalso|exfalso|done|exfalso].
  - apply (below_contains D t) in Hc; [|done]. unfold contains in Hc. zbool. lia.
  - apply (below_contains D t) in Hc; [|done]. unfold contains in Hc. zbool. lia.
  - apply left_of_lt in Hc. lia.
Qed.

Lemma incomparable_left a b :
  a ∈ nodes t → b ∈ nodes t → ¬ below t a b → ¬ below t b a →
  left_of t a b ∨ left_of t b a.
Proof. intros Ha Hb ??. destruct (tree_cmp t a b) as [?|[?|?]]; tauto. Qed.
End left_of_intervals.

(** A list of blocks in tree order. *)
Definition in_order (t : tree) (l : list Hash) : Prop :=
  Forall (λ h, h ∈ nodes t) l ∧ StronglySorted (left_of t) l.

Lemma in_order_ordered (s : Mem) t l :
  represents (Memory.map s) t → indexed (Memory.map s) t → in_order t l → ordered s l.
Proof.
  intros Hr Hi [Hin Hs]. split.
  { eapply Forall_impl; [exact Hin|]. intros h. apply (rep_dom _ _ Hr). }
  induction Hs as [|h l Hs IH Hlt]; [constructor|].
  apply Forall_cons_1 in Hin as [Hh Hin]. rewrite fmap_cons. constructor; [by apply IH|].
  apply Forall_fmap, Forall_forall. intros h' Hh'. rewrite Forall_forall in Hlt.
  pose proof (left_of_lt _ _ Hi _ _ (Hlt _ Hh')).
  pose proof (indexed_bounds _ _ _ Hi Hh) as (_ & _ & ? & _). simpl. unfold before. lia.
Qed.

(** Insertion keeps the order, when the new element is between its neighbours. *)
Lemma in_order_insert t l i x :
  in_order t l → x ∈ nodes t →
  (∀ j h, l !! j = Some h → (j < i)%nat → left_of t h x) →
  (∀ j h, l !! j = Some h → (i ≤ j)%nat → left_of t x h) →
  in_order t (take i l ++ x :: drop i l).
Proof.
  intros [Hin Hs] Hx. revert i. induction Hs as [|h l Hs IH Hlt]; intros i Hlo Hhi.
  { rewrite take_nil, drop_nil. split; [by repeat constructor|].
    apply (SSorted_cons _ (SSorted_nil _)). constructor. }
  apply Forall_cons_1 in Hin as [Hh Hin]. destruct i as [|i]; simpl.
  - split; [by repeat constructor|]. constructor; [by constructor|].
    apply Forall_forall. intros y [j Hj]%list_elem_of_lookup. eapply (Hhi j); [exact Hj|lia].
  - destruct (IH Hin i) as [Hin' Hs'].
    { intros j y Hj ?. apply (Hlo (S j) y); [done|lia]. }
    { intros j y Hj ?. apply (Hhi (S j) y); [done|lia]. }
    split; [by constructor|]. constructor; [done|]. rewrite Forall_forall in Hlt |- *.
    intros y [Hy|[->|Hy]%elem_of_cons]%elem_of_app.
    + apply Hlt. eapply elem_of_take in Hy as (? & ? & _). by eapply list_elem_of_lookup_2.
    + apply (Hlo O); [done|lia].
    + apply Hlt. apply list_elem_of_lookup in Hy as [j Hj]. rewrite lookup_drop in Hj.
      by eapply list_elem_of_lookup_2.
Qed.

(** ** The invariant *)

(** [R x y] is meant to be: [x] is [y] or an ancestor of [y] in the DAG. *)
Record covers (D : Data) (t : tree) (R : Hash → Hash → Prop) : Prop := {
  cov_order : ∀ x d, D !! x = Some d → in_order t (future_covering_set d);
  cov_reach : ∀ x y d, D !! x = Some d → y ∈ nodes t →
    R x y ↔ below t x y ∨ ∃ f, f ∈ future_covering_set d ∧ below t f y;
}.

(** ** The query *)

Lemma is_dag_ancestor_of_ok (s : Mem) t R x y :
  represents (Memory.map s) t → indexed (Memory.map s) t → covers (Memory.map s) t R →
  x ∈ nodes t → y ∈ nodes t →
  ∃ r, reads (is_dag_ancestor_of x y) s r ∧ (r = true ↔ R x y).
Proof.
  intros Hr Hi Hc Hx Hy. pose proof Hr as [_ Hnd Hdom _ _].
  assert (is_Some (Memory.map s !! x)) as Hxs by by apply Hdom.
  assert (is_Some (Memory.map s !! y)) as Hys by by apply Hdom.
  pose proof (mem_contains s x y Hxs Hys) as Hchain. destruct Hxs as [d Hd].
  setoid_rewrite (cov_reach _ _ _ Hc x y d Hd Hy).
  destruct (contains _ _) eqn:Hcon.
  - exists true. split; [|split; [intros _|done]].
    + eapply reads_bind; [exact Hchain|]. apply reads_ret.
    + left. by apply (contains_below _ t) in Hcon.
  - destruct (search_descendant_ok s t Hr Hi (future_covering_set d) y)
      as (r & Hrd & HQ); [|done|].
    { eapply in_order_ordered; eauto using cov_order. }
    exists (match r with Found _ _ => true | NotFound _ => false end). split.
    + eapply reads_bind; [exact Hchain|]. simpl.
      eapply reads_bind; [by apply reads_try, mem_get_fcs|].
      eapply reads_bind; [exact Hrd|]. destruct r; apply reads_ret.
    + destruct r as [i|h i].
      * destruct HQ as (_ & Hno & _). split; [done|].
        intros [Hb|(f & Hf & Hb)]; [|by destruct (Hno f Hf)].
        apply (contains_below (Memory.map s) t) in Hb; auto. congruence.
      * destruct HQ as [Hh Hb]. split; [intros _|done].
        right. exists h. split; [by eapply list_elem_of_lookup_2|done].
Qed.

(** ** The update *)

Lemma mem_update h (f : ReachabilityData → ReachabilityData) (s : Mem) d :
  Memory.map s !! h = Some d →
  Memory.update h f s
  = (Ok tt, Memory.mk (<[h := f d]> (Memory.map s)) (Memory.reindex_root s)).
Proof.
  intros Hd. unfold Memory.update, mbind, M_bind. rewrite (mem_get_data s h d Hd).
  unfold modify, Memory.with_map. do 2 f_equal. by apply alter_alt_Some.
Qed.

Section insert_fcs.
Context (t : tree) (n : Hash) (Hn : n ∈ nodes t) (Hleaf : ∀ y, below t n y → y = n).

Definition linked (R : Hash → Hash → Prop) (l : list Hash) (x y : Hash) : Prop :=
  R x y ∨ (y = n ∧ x ∈ l).

Lemma insert_to_fcs_ok (s : Mem) R x :
  represents (Memory.map s) t → indexed (Memory.map s) t → covers (Memory.map s) t R →
  x ∈ nodes t → ¬ R x n →
  runs (insert_to_future_covering_set x n) s (λ _ s',
    represents (Memory.map s') t ∧ indexed (Memory.map s') t
    ∧ covers (Memory.map s') t (linked R [x]) ∧ Memory.reindex_root s' = Memory.reindex_root s).
Proof.
  intros Hr Hi Hc Hx HR. destruct (proj2 (rep_dom _ _ Hr x) Hx) as [d Hd].
  pose proof (cov_order _ _ _ Hc x d Hd) as Hord.
  rewrite (cov_reach _ _ _ Hc x n d Hd Hn) in HR.
  destruct (search_descendant_ok s t Hr Hi (future_covering_set d) n)
    as (r & Hrd & HQ); [eapply in_order_ordered; eauto|done|].
  destruct r as [i|h i].
  2: { destruct HQ as [Hh Hb]. exfalso. apply HR. right. exists h.
       split; [by eapply list_elem_of_lookup_2|done]. }
  destruct HQ as (Hlen & Hno & Hlo & Hhi).
  set (l' := take i (future_covering_set d) ++ n :: drop i (future_covering_set d)).
  eapply (runs_intro _ _ tt).
  { unfold insert_to_future_covering_set, mbind, M_bind.
    rewrite (reads_try _ _ _ (mem_get_fcs s x d Hd)), Hrd. unfold try, map_err. simpl.
    unfold mbind, M_bind. rewrite (mem_get_data s x d Hd).
    unfold vec_insert. rewrite (proj2 (Nat.leb_le _ _)) by done. simpl.
    by rewrite (mem_update x _ s d Hd). }
  simpl. assert (in_order t l') as Hord'.
  { apply in_order_insert; auto.
    - intros j h Hj Hlt. destruct Hord as [Hin _]. pose proof (Forall_lookup_1 _ _ _ _ Hin Hj).
      destruct (incomparable_left t h n) as [?|Hl]; auto.
      + apply Hno. by eapply list_elem_of_lookup_2.
      + intros ->%Hleaf. apply HR. right. exists n. split; [by eapply list_elem_of_lookup_2|].
        by apply below_refl.
      + specialize (Hlo j h Hj Hlt). apply (left_of_lt _ _ Hi) in Hl. lia.
    - intros j h Hj Hge. destruct Hord as [Hin _]. pose proof (Forall_lookup_1 _ _ _ _ Hin Hj) as Hh.
      apply (lt_left_of _ _ Hi); eauto. }
  split_and!; [| | |done].
  - eapply represents_links; [|exact Hr]. intros h. destruct (decide (h = x)) as [->|].
    + by rewrite Hd, lookup_insert_eq.
    + by rewrite lookup_insert_ne.
  - eapply indexed_ivl; [|exact Hi]. intros h _. unfold ivl. destruct (decide (h = x)) as [->|].
    + by rewrite Hd, lookup_insert_eq.
    + by rewrite lookup_insert_ne.
  - split.
    + intros y dy. destruct (decide (y = x)) as [->|].
      * rewrite lookup_insert_eq. by intros [= <-].
      * rewrite lookup_insert_ne by done. apply (cov_order _ _ _ Hc).
    + intros a b da. unfold linked. rewrite list_elem_of_singleton. destruct (decide (a = x)) as [->|].
      * rewrite lookup_insert_eq. intros [= <-] Hb. rewrite (cov_reach _ _ _ Hc x b d Hd Hb).
        simpl. fold l'. assert (∀ f, f ∈ l' ↔ f = n ∨ f ∈ future_covering_set d) as Hl'.
        { intros f. unfold l'. rewrite <- (take_drop i (future_covering_set d)) at 3.
          rewrite !elem_of_app, elem_of_cons. tauto. }
        setoid_rewrite Hl'. pose proof (below_refl t n Hn). naive_solver.
      * rewrite lookup_insert_ne by done. intros Hda Hb.
        rewrite (cov_reach _ _ _ Hc a b da Hda Hb). naive_solver.
Qed.

Lemma covers_iff D R R' :
  (∀ x y, R x y ↔ R' x y) → covers D t R → covers D t R'.
Proof.
  intros HR [Ho Hc]. split; [done|]. intros. rewrite <- HR. eauto.
Qed.

Lemma add_dag_block_ok (s : Mem) R mergeset :
  represents (Memory.map s) t → indexed (Memory.map s) t → covers (Memory.map s) t R →
  NoDup mergeset → (∀ x, x ∈ mergeset → x ∈ nodes t ∧ ¬ R x n) →
  runs (add_dag_block n mergeset) s (λ _ s',
    represents (Memory.map s') t ∧ indexed (Memory.map s') t
    ∧ covers (Memory.map s') t (linked R mergeset)
    ∧ Memory.reindex_root s' = Memory.reindex_root s).
Proof.
  intros Hr Hi Hc Hnd Hm. unfold add_dag_block.
  apply (runs_for_each (λ l s', represents (Memory.map s') t ∧ indexed (Memory.map s') t
    ∧ Memory.reindex_root s' = Memory.reindex_root s
    ∧ ∃ done, mergeset = done ++ l ∧ covers (Memory.map s') t (linked R done))).
  - intros x l s' (Hr' & Hi' & Hroot & done & -> & Hc').
    apply NoDup_app in Hnd as (_ & Hdis & _).
    destruct (Hm x) as [Hx HR]; [rewrite elem_of_app, elem_of_cons; tauto|].
    eapply runs_mono; [apply (insert_to_fcs_ok s' (linked R done) x); auto|].
    + intros [?|[_ Hin]]; [done|]. apply (Hdis x Hin). left.
    + intros _ s2 (? & ? & Hcov & Hroot2). split_and!; auto; [congruence|].
      exists (done ++ [x]). split; [by rewrite <- app_assoc|].
      eapply covers_iff; [|exact Hcov]. intros a b. unfold linked.
      rewrite elem_of_app. tauto.
  - intros s' (? & ? & ? & done & -> & ?). rewrite app_nil_r. auto.
  - split_and!; auto. exists []. split; [done|].
    eapply covers_iff; [|exact Hc]. intros a b. unfold linked. rewrite elem_of_nil. tauto.
Qed.
End insert_fcs.
