(* ===== verification/ReachInsert.v ===== *)
(** * Adding a block to the reachability tree

    What the insertion of a leaf does to the tree, to the order of its blocks and
    to the covering sets, and the branch of [add_tree_block] that finds room for
    the new block in the interval of its parent. *)

From S2P Require Import Prelude Hash Interval ReachStore Reachability ReachTree ReachQuery ReachDag.
Import Interval (Interval, start, end_, valid, card, contains, strictly_contains).

(** ** Grafting a leaf *)

(** [graft p n t]: the leaf [n] becomes the last child of [p]. *)
Fixpoint graft (p n : Hash) (t : tree) : tree :=
  match t with
  | Node h ks => Node h (map (graft p n) ks ++ if bool_decide (h = p) then [Node n []] else [])
  end.

Lemma graft_root p n t : root (graft p n t) = root t.
Proof. by destruct t. Qed.

Lemma graft_kids p n t : p ∉ nodes t → graft p n t = t.
Proof.
  induction t as [h ks IH] using tree_ind'. intros Hp. simpl.
  rewrite bool_decide_eq_false_2 by (intros ->; apply Hp, nodes_node; auto).
  rewrite app_nil_r. f_equal. rewrite Forall_forall in IH.
  rewrite <- (list_fmap_id ks) at 2. apply list_fmap_ext.
  intros i k Hk%list_elem_of_lookup_2. apply IH; [done|].
  intros Hin. apply Hp, nodes_node. eauto.
Qed.

Lemma graft_kids_notin p n ks : (∀ k, k ∈ ks → p ∉ nodes k) → map (graft p n) ks = ks.
Proof.
  intros Hp. rewrite <- (list_fmap_id ks) at 2. apply list_fmap_ext.
  intros i k Hk%list_elem_of_lookup_2. by apply graft_kids, Hp.
Qed.

(** Where the grafting happens among the kids of a block. *)
Lemma graft_node p n h ks :
  NoDup (nodes (Node h ks)) → p ∈ nodes (Node h ks) →
  (h = p ∧ graft p n (Node h ks) = Node h (ks ++ [Node n []]))
  ∨ (h ≠ p ∧ ∃ l1 k l2, ks = l1 ++ k :: l2 ∧ p ∈ nodes k
     ∧ graft p n (Node h ks) = Node h (l1 ++ graft p n k :: l2)).
Proof.
  intros Hnd Hp. apply NoDup_nodes_inv in Hnd as (Hh & Hks & Hb).
  destruct (decide (h = p)) as [->|Hne].
  - left. split; [done|]. simpl. by rewrite bool_decide_eq_true_2, graft_kids_notin.
  - right. split; [done|]. apply nodes_node in Hp as [->|(k & Hk & Hp)]; [done|].
    apply list_elem_of_split in Hk as (l1 & l2 & ->). exists l1, k, l2. split_and!; [done..|].
    simpl. rewrite bool_decide_eq_false_2, app_nil_r by done.
    rewrite fmap_app, fmap_cons. rewrite bind_app in Hb. simpl in Hb.
    apply NoDup_app in Hb as (_ & H1 & H2). apply NoDup_app in H2 as (_ & H2 & _).
    rewrite !graft_kids_notin; [done|..]; intros k' Hk' Hp'.
    + apply (H2 p Hp), list_elem_of_bind. eauto.
    + apply (H1 p); [apply list_elem_of_bind; eauto|]. rewrite elem_of_app. auto.
Qed.

Lemma graft_nodes p n t :
  NoDup (nodes t) → p ∈ nodes t → nodes (graft p n t) ≡ₚ n :: nodes t.
Proof.
  induction t as [h ks IH] using tree_ind'. intros Hnd Hp.
  destruct (graft_node p n h ks Hnd Hp) as [[-> ->]|(Hne & l1 & k & l2 & -> & Hk & ->)].
  - simpl. rewrite bind_app. simpl. rewrite (Permutation_app_comm _ [n]). simpl.
    apply Permutation_swap.
  - apply Forall_app in IH as [_ [IH _]%Forall_cons_1].
    apply NoDup_nodes_inv in Hnd as (_ & Hks & _).
    simpl. rewrite !bind_app. simpl. rewrite IH; [|apply Hks; rewrite elem_of_app, elem_of_cons; auto|done].
    simpl. rewrite <- (Permutation_middle (l1 ≫= nodes)). apply Permutation_swap.
Qed.

Lemma graft_elem p n t x :
  NoDup (nodes t) → p ∈ nodes t → x ∈ nodes (graft p n t) ↔ x = n ∨ x ∈ nodes t.
Proof. intros Hnd Hp. by rewrite (graft_nodes p n t Hnd Hp), elem_of_cons. Qed.

Lemma graft_mono p n t x : x ∈ nodes t → x ∈ nodes (graft p n t).
Proof.
  induction t as [h ks IH] using tree_ind'. rewrite Forall_forall in IH.
  intros [->|(k & Hk & Hx)]%nodes_node; simpl; [left|].
  apply nodes_node. right. exists (graft p n k). split; [|auto].
  apply elem_of_app. left. apply list_elem_of_fmap. eauto.
Qed.

Lemma graft_subtree p n s t : subtree s t → subtree (graft p n s) (graft p n t).
Proof.
  induction 1 as [|h ks k Hk _ IH]; [constructor|]. simpl. eapply subtree_kid; [|exact IH].
  apply elem_of_app. left. apply list_elem_of_fmap. eauto.
Qed.

Lemma graft_left_of p n t a b : left_of t a b → left_of (graft p n t) a b.
Proof.
  intros [h ks i j k1 k2 Hs H1 H2 Hij Ha Hb]. apply (graft_subtree p n) in Hs. simpl in Hs.
  eapply (left_of_intro _ _ _ _ _ i j (graft p n k1) (graft p n k2)); [exact Hs|..];
    auto using graft_mono; apply lookup_app_l_Some; rewrite list_lookup_fmap;
    [by rewrite H1|by rewrite H2].
Qed.

Lemma graft_in_order p n t l : in_order t l → in_order (graft p n t) l.
Proof.
  intros [Hin Hs]. split.
  - eapply Forall_impl; [exact Hin|]. eauto using graft_mono.
  - induction Hs as [|x l Hs IH Hx]; [constructor|]. apply Forall_cons_1 in Hin as [_ Hin].
    constructor; [by apply IH|]. eapply Forall_impl; [exact Hx|]. apply graft_left_of.
Qed.

Lemma graft_subtree_inv p n s' t :
  subtree s' (graft p n t) → s' = Node n [] ∨ ∃ s, subtree s t ∧ s' = graft p n s.
Proof.
  induction t as [h ks IH] using tree_ind'. rewrite Forall_forall in IH. simpl.
  inversion 1 as [|? ? k' Hk' Hs]; subst; [right; eexists; split; [constructor|done]|].
  apply elem_of_app in Hk' as [Hk'|Hk'].
  - apply list_elem_of_fmap in Hk' as (k & -> & Hk).
    destruct (IH k Hk Hs) as [?|(s & ? & ->)]; [by left|]. right. eauto using subtree_kid.
  - case_bool_decide; [|by apply elem_of_nil in Hk']. apply list_elem_of_singleton in Hk' as ->.
    inversion Hs as [|??? Hk]; [by left|by apply elem_of_nil in Hk].
Qed.

Lemma graft_kid_roots p n t :
  root <$> kids (graft p n t) = (root <$> kids t) ++ if bool_decide (root t = p) then [n] else [].
Proof.
  destruct t as [h ks]. simpl. rewrite fmap_app. f_equal; [|by case_bool_decide].
  rewrite <- list_fmap_compose. apply list_fmap_ext. intros i k _. apply graft_root.
Qed.

Lemma node_ok_graft I p n t :
  node_ok I t →
  (root t = p → spread (start (I p)) ((I ∘ root <$> kids t) ++ [I n]) (end_ (I p) - 1)) →
  node_ok I (graft p n t).
Proof.
  intros (Hv & Hne & Hs) Hp. unfold node_ok. rewrite graft_root. split_and!; [done..|].
  rewrite (list_fmap_compose root I), graft_kid_roots, fmap_app, <- (list_fmap_compose root I).
  case_bool_decide as Hr; [|by rewrite app_nil_r]. rewrite Hr in *. by apply Hp.
Qed.

(** ** The data of a store after an insertion *)

(** [D'] is [D] with the new leaf [n] under [p]; intervals are left open. *)
Record grafted (D D' : Data) (p n : Hash) : Prop := {
  gr_fresh : D !! n = None;
  gr_leaf : ∃ dn, D' !! n = Some dn ∧ parent dn = p ∧ children dn = []
                  ∧ future_covering_set dn = []
                  ∧ ∀ dp, D !! p = Some dp → height dn = height dp + 1;
  gr_parent : ∀ dp, D !! p = Some dp → ∃ dp', D' !! p = Some dp' ∧ parent dp' = parent dp
                  ∧ children dp' = children dp ++ [n] ∧ height dp' = height dp
                  ∧ future_covering_set dp' = future_covering_set dp;
  gr_other : ∀ h, h ≠ n → h ≠ p → links <$> D' !! h = links <$> D !! h
                  ∧ future_covering_set <$> D' !! h = future_covering_set <$> D !! h;
}.

Section grafted.
Context (D D' : Data) (p n : Hash) (Hg : grafted D D' p n).

Lemma grafted_shape q m t :
  shape D q m t → NoDup (nodes t) → p ∈ nodes t → n ∉ nodes t → shape D' q m (graft p n t).
Proof.
  revert q m. induction t as [h ks IH] using tree_ind'; intros q m Hs Hnd Hp Hn.
  inversion Hs as [? ? ? ? d Hd Hq Hm Hc Hks]; subst.
  pose proof (NoDup_nodes_inv _ _ Hnd) as (Hh & Hndk & Hb). rewrite Forall_forall in Hks.
  assert (∀ k, k ∈ ks → p ∉ nodes k → shape D' h (height d + 1) k) as Hother.
  { intros k Hk Hpk. eapply shape_links; [|by apply Hks].
    intros x Hx. apply (gr_other _ _ _ _ Hg); [|congruence].
    intros ->. apply Hn, nodes_node. eauto. }
  destruct (graft_node p n h ks Hnd Hp) as [[-> ->]|(Hne & l1 & k & l2 & -> & Hk & ->)].
  - destruct (gr_parent _ _ _ _ Hg d Hd) as (d' & Hd' & Hq' & Hc' & Hm' & _).
    destruct (gr_leaf _ _ _ _ Hg) as (dn & Hdn & Hpn & Hcn & _ & Hhn).
    econstructor; eauto; [by rewrite Hc', Hc, fmap_app|].
    rewrite <- Hm'. apply Forall_app. split; [|apply Forall_singleton].
    + apply Forall_forall. intros k Hk. rewrite Hm'. apply Hother; auto.
    + econstructor; eauto. rewrite Hm'. auto.
  - destruct (gr_other _ _ _ _ Hg h) as [Hl _]; [intros ->; apply Hn, nodes_node; auto|done|].
    rewrite Hd in Hl. destruct (D' !! h) as [d'|] eqn:Hd'; [|done].
    simpl in Hl. injection Hl as Hl1 Hl2 Hl3. econstructor; eauto.
    { rewrite Hl2, Hc, !fmap_app, !fmap_cons. by rewrite graft_root. }
    assert (∀ k', k' ∈ l1 ++ l2 → p ∉ nodes k') as Hnot.
    { rewrite bind_app in Hb. simpl in Hb. apply NoDup_app in Hb as (_ & H1 & H2).
      apply NoDup_app in H2 as (_ & H2 & _). intros k' Hk' Hp'.
      apply elem_of_app in Hk' as [Hk'|Hk'].
      - apply (H1 p); [apply list_elem_of_bind; eauto|]. rewrite elem_of_app. auto.
      - apply (H2 p Hk), list_elem_of_bind. eauto. }
    apply Forall_app in IH as [_ [IH _]%Forall_cons_1].
    rewrite <- ?Hl3 in *. apply Forall_app. split; [|apply Forall_cons; split].
    + apply Forall_forall. intros k' Hk'. apply Hother; [|apply Hnot]; rewrite elem_of_app; auto.
    + apply IH; [apply Hks|apply Hndk|done|]; rewrite ?elem_of_app, ?elem_of_cons; auto.
      intros Hnk. apply Hn, nodes_node. right. exists k. rewrite elem_of_app, elem_of_cons. auto.
    + apply Forall_forall. intros k' Hk'. apply Hother; [|apply Hnot];
        rewrite elem_of_app, ?elem_of_cons; auto.
Qed.

Lemma grafted_dom h : is_Some (D !! p) → is_Some (D' !! h) ↔ h = n ∨ is_Some (D !! h).
Proof.
  intros [dp Hdp]. destruct (gr_leaf _ _ _ _ Hg) as (dn & Hdn & _).
  destruct (gr_parent _ _ _ _ Hg dp Hdp) as (dp' & Hdp' & _).
  destruct (decide (h = n)) as [->|Hn]; [rewrite Hdn; naive_solver|].
  destruct (decide (h = p)) as [->|Hp]; [rewrite Hdp', Hdp; naive_solver|].
  destruct (gr_other _ _ _ _ Hg h Hn Hp) as [Hl _].
  rewrite <- (fmap_is_Some links (D' !! h)), Hl, fmap_is_Some. naive_solver.
Qed.

Lemma grafted_represents t :
  represents D t → p ∈ nodes t → n ≠ Hashes.NONE →
  Z.of_nat (length (nodes t)) < u64_max → represents D' (graft p n t).
Proof.
  intros [Hs Hnd Hdom Hno Hsz] Hp Hnone Hlt.
  assert (n ∉ nodes t) as Hn.
  { rewrite <- Hdom, (gr_fresh _ _ _ _ Hg). by intros [? ?]. }
  split.
  - by apply grafted_shape.
  - rewrite graft_nodes by done. by apply NoDup_cons.
  - intros h. rewrite graft_elem, grafted_dom by (done || by apply Hdom). by rewrite Hdom.
  - rewrite graft_elem by done. intros [?|?]; congruence.
  - rewrite graft_nodes by done. simpl. lia.
Qed.

Lemma grafted_parent h d :
  D !! h = Some d → ∃ d', D' !! h = Some d' ∧ parent d' = parent d
    ∧ future_covering_set d' = future_covering_set d.
Proof.
  intros Hd. destruct (decide (h = n)) as [->|Hn].
  { by rewrite (gr_fresh _ _ _ _ Hg) in Hd. }
  destruct (decide (h = p)) as [->|Hp].
  { destruct (gr_parent _ _ _ _ Hg d Hd) as (d' & ? & ? & _ & _ & ?). eauto. }
  destruct (gr_other _ _ _ _ Hg h Hn Hp) as [Hl Hf]. rewrite Hd in Hl, Hf.
  destruct (D' !! h) as [d'|]; [|done]. simpl in *.
  injection Hl as Hl _ _. injection Hf as Hf. eauto.
Qed.
End grafted.

Section grafted_tree.
Context (D D' : Data) (p n : Hash) (Hg : grafted D D' p n) (t : tree).
Context (Hr : represents D t) (Hr' : represents D' (graft p n t)) (Hp : p ∈ nodes t).

Lemma graft_fresh : n ∉ nodes t.
Proof. rewrite <- (rep_dom _ _ Hr), (gr_fresh _ _ _ _ Hg). by intros [? ?]. Qed.

Lemma graft_below_old a b : b ∈ nodes t → below (graft p n t) a b ↔ below t a b.
Proof.
  intros Hb. rewrite <- (chain_below D' _ _ _ Hr'), <- (chain_below D _ _ _ Hr). split.
  - intros Hc. revert Hb. induction Hc as [Ha|b d' Hd' Hc IH]; intros Hb.
    + apply chain_refl, (rep_dom _ _ Hr), Hb.
    + destruct (proj2 (rep_dom _ _ Hr b) Hb) as [d Hd].
      destruct (grafted_parent D D' p n Hg b d Hd) as (d2 & Hd2 & Hpar & _). simplify_eq.
      rewrite Hpar in *. eapply chain_step; [exact Hd|]. apply IH.
      destruct (shape_parent _ _ _ _ _ _ (rep_shape _ _ Hr) Hb Hd) as [[_ Hroot]|Hbl];
        [|by apply below_in in Hbl as [? _]].
      exfalso. rewrite Hroot in Hc. apply (chain_below D' _ _ _ Hr'), below_in in Hc as [_ Hc].
      by apply (rep_none _ _ Hr') in Hc.
  - clear Hb. induction 1 as [[d Hd]|b d Hd _ IH];
      destruct (grafted_parent D D' p n Hg _ d Hd) as (d2 & Hd2 & Hpar & _).
    + apply chain_refl. eauto.
    + eapply chain_step; [exact Hd2|]. by rewrite Hpar.
Qed.

Lemma graft_below_new a : below (graft p n t) a n ↔ a = n ∨ below t a p.
Proof.
  rewrite <- (graft_below_old a p Hp), <- !(chain_below D' _ _ _ Hr').
  destruct (gr_leaf _ _ _ _ Hg) as (dn & Hdn & Hpar & _). split.
  - inversion 1 as [|? d Hd Hc]; [by left|]. right. simplify_eq. done.
  - intros [->|Hc]; [apply chain_refl; eauto|]. eapply chain_step; [exact Hdn|]. by rewrite Hpar.
Qed.

Lemma graft_leaf y : below (graft p n t) n y → y = n.
Proof.
  intros Hb. pose proof (below_in _ _ _ Hb) as [_ Hy].
  apply graft_elem in Hy as [?|Hy]; [done| |by apply (rep_nodup _ _ Hr)|done].
  apply graft_below_old in Hb; [|done]. apply below_in in Hb as [Hn _].
  by destruct graft_fresh.
Qed.

(** The relation [R] with [n] added above [p] only. *)
Definition extended (R : Hash → Hash → Prop) (x y : Hash) : Prop :=
  if decide (y = n) then x = n ∨ R x p else x ≠ n ∧ R x y.

Lemma grafted_covers R : covers D t R → covers D' (graft p n t) (extended R).
Proof.
  intros [Ho Hc]. destruct (gr_leaf _ _ _ _ Hg) as (dn & Hdn & _ & _ & Hfn & _).
  assert (∀ x d', D' !! x = Some d' → x ≠ n →
    ∃ d, D !! x = Some d ∧ future_covering_set d' = future_covering_set d) as Hold.
  { intros x d' Hd' Hx. assert (is_Some (D !! x)) as [d Hd].
    { destruct (proj1 (grafted_dom D D' p n Hg x (proj2 (rep_dom _ _ Hr p) Hp))); eauto. done. }
    destruct (grafted_parent D D' p n Hg x d Hd) as (d2 & ? & _ & ?). simplify_eq. eauto. }
  split.
  - intros x d' Hd'. destruct (decide (x = n)) as [->|Hx].
    + simplify_eq. rewrite Hfn. split; constructor.
    + destruct (Hold x d' Hd' Hx) as (d & Hd & ->). apply graft_in_order. eauto.
  - intros x y d' Hd' Hy. unfold extended.
    apply graft_elem in Hy as [->|Hy]; [| |by apply (rep_nodup _ _ Hr)|done].
    + rewrite decide_True by done. rewrite graft_below_new. destruct (decide (x = n)) as [->|Hx].
      { tauto. }
      destruct (Hold x d' Hd' Hx) as (d & Hd & ->). rewrite (Hc x p d Hd Hp).
      setoid_rewrite graft_below_new. destruct (Ho x d Hd) as [Hin _].
      rewrite Forall_forall in Hin. pose proof graft_fresh. naive_solver.
    + assert (y ≠ n) as Hyn by (intros ->; by destruct graft_fresh).
      rewrite decide_False by done. setoid_rewrite (graft_below_old _ y Hy).
      destruct (decide (x = n)) as [->|Hx].
      * simplify_eq. rewrite Hfn. setoid_rewrite elem_of_nil. split; [tauto|].
        intros [[Hb _]%below_in|(? & ? & _)]; [|done]. by destruct graft_fresh.
      * destruct (Hold x d' Hd' Hx) as (d & Hd & ->). rewrite <- (Hc x y d Hd Hy). tauto.
Qed.
End grafted_tree.

(** ** The store operations of an insertion *)

Section insertion.
Context (s : Mem) (t : tree) (p n : Hash) (dp : ReachabilityData).
Abbreviation D := (Memory.map s).
Context (Hr : represents D t) (Hi : indexed D t) (Hdp : D !! p = Some dp).

Lemma insertion_parent : p ∈ nodes t.
Proof using Hr Hdp. apply (rep_dom _ _ Hr). eauto. Qed.

(** The block's own subtree, with its kids read from the store. *)
Lemma insertion_subtree :
  ∃ ks, subtree (Node p ks) t ∧ children dp = root <$> ks ∧ node_ok (ivl D) (Node p ks).
Proof using Hr Hi Hdp.
  destruct (below_refl t p insertion_parent) as ([h ks] & Hsub & <- & _). simpl in *.
  destruct (shape_subtree _ _ _ _ _ Hsub (rep_shape _ _ Hr)) as (q & m & Hs).
  destruct (shape_lookup _ _ _ _ Hs) as (d & Hd & _ & _ & Hc). simpl in *. simplify_eq.
  exists ks. split_and!; [done..|]. by apply (indexed_iff D t).
Qed.

(** The first point that is free after the children. *)
Definition free_from : Z :=
  match last (children dp) with Some c => end_ (ivl D c) + 1 | None => start (ivl D p) end.

Lemma free_from_spread :
  valid (Interval.mk free_from (end_ (ivl D p) - 1)) ∧ start (ivl D p) ≤ free_from
  ∧ spread (start (ivl D p)) (ivl D <$> children dp) (free_from - 1).
Proof using Hr Hi Hdp.
  destruct insertion_subtree as (ks & Hsub & Hc & (Hv & Hne & Hs)). simpl in *.
  rewrite (list_fmap_compose root (ivl D)), <- Hc in Hs. destruct Hv as (? & ? & ?).
  unfold free_from, valid. simpl. destruct (last (children dp)) as [c|] eqn:Hl.
  - assert (last (ivl D <$> children dp) = Some (ivl D c)) as Hl' by by rewrite fmap_last, Hl.
    pose proof (spread_bounds _ _ _ _ Hs (last_Some_elem_of _ _ Hl')).
    apply (spread_tight _ _ _ _ Hs) in Hl'. split_and!; try lia.
    by replace (end_ (ivl D c) + 1 - 1) with (end_ (ivl D c)) by lia.
  - apply last_None in Hl. rewrite Hl. split_and!; simpl; try done; lia.
Qed.

Lemma remaining_after_ok :
  reads (interval_remaining_after p) s (Interval.mk free_from (end_ (ivl D p) - 1)).
Proof using Hr Hi Hdp.
  destruct insertion_subtree as (ks & Hsub & Hc & (Hv & Hne & Hs)). simpl in *.
  pose proof Hv as (? & ? & ?). unfold interval_remaining_after.
  destruct free_from_spread as (Hvf & Hle & Hsp).
  apply (reads_bind _ _ _ (Interval.mk (start (ivl D p)) (end_ (ivl D p) - 1))).
  { eapply reads_bind; [apply mem_get_interval; eauto|].
    apply reads_lift, Interval.decrease_end_ok; [done|]. unfold card. lia. }
  eapply reads_bind; [by apply mem_get_children|].
  unfold free_from in *. destruct (last (children dp)) as [c|] eqn:Hl; [|apply reads_ret].
  apply (reads_bind _ _ _ (ivl D c)).
  { apply mem_get_interval, (rep_dom _ _ Hr).
    apply last_Some_elem_of in Hl. rewrite Hc in Hl.
    apply list_elem_of_fmap in Hl as (k & -> & Hk). eapply subtree_nodes; [exact Hsub|].
    apply nodes_node. eauto with kaspa. }
  destruct Hvf as (? & ? & ?). simpl in *.
  eapply reads_bind; [apply reads_lift, add64_ok; zify_u64; lia|].
  by apply reads_lift, Interval.new_ok.
Qed.

(** The data after [append_child] and [insert]. *)
Definition inserted (i : Interval) : Data :=
  <[n := ReachabilityData_new p i (height dp + 1)]> (<[p := push_child n dp]> D).

Context (Hfresh : D !! n = None).

Lemma inserted_grafted i : grafted D (inserted i) p n.
Proof using Hdp Hfresh.
  assert (n ≠ p) as Hnp by congruence. unfold inserted. split.
  - done.
  - eexists. rewrite lookup_insert_eq. split_and!; [done..|]. intros. by simplify_eq.
  - intros ? ?. simplify_eq. eexists. rewrite lookup_insert_ne, lookup_insert_eq by done. done.
  - intros h ??. by rewrite !lookup_insert_ne.
Qed.

Lemma inserted_new i : ivl (inserted i) n = i.
Proof. unfold ivl, inserted. by rewrite lookup_insert_eq. Qed.

Lemma inserted_old i h : h ≠ n → ivl (inserted i) h = ivl D h.
Proof using Hdp.
  intros Hh. unfold ivl, inserted. rewrite lookup_insert_ne by done.
  destruct (decide (h = p)) as [->|]; [by rewrite lookup_insert_eq, Hdp|by rewrite lookup_insert_ne].
Qed.

(** All blocks but the new one and its parent keep their condition. *)
Lemma inserted_node_ok i s' :
  subtree s' (graft p n t) → root s' ≠ n → root s' ≠ p → node_ok (ivl (inserted i)) s'.
Proof using Hr Hi Hdp Hfresh.
  intros Hs' Hn Hp. destruct (graft_subtree_inv _ _ _ _ Hs') as [->|(s0 & Hs0 & ->)]; [done|].
  rewrite graft_root in *. apply node_ok_graft; [|done].
  eapply node_ok_ext; [|by apply (indexed_iff D t)]. intros h Hh. apply inserted_old. intros ->.
  assert (n ∈ nodes t) as Hin; [|apply (rep_dom _ _ Hr) in Hin as [? ?]; congruence].
  eapply subtree_nodes; [exact Hs0|]. destruct s0 as [h ks]; simpl in *.
  destruct Hh as [->|(k & -> & Hk)%list_elem_of_fmap]; [left|].
  apply nodes_node. eauto with kaspa.
Qed.

Lemma inserted_indexed i :
  valid i → start i ≤ end_ i → start i = free_from → end_ i < end_ (ivl D p) →
  indexed (inserted i) (graft p n t).
Proof using Hr Hi Hdp Hfresh.
  intros Hv Hne Hst Hend. apply indexed_iff. intros s' Hs'.
  destruct (decide (root s' = n)) as [Hn|Hn]; [|destruct (decide (root s' = p)) as [Hp|Hp]].
  - destruct (graft_subtree_inv _ _ _ _ Hs') as [->|(s0 & Hs0 & ->)].
    + unfold node_ok. simpl. by rewrite inserted_new.
    + rewrite graft_root in Hn. exfalso.
      assert (root s0 ∈ nodes t) as Hin by (eapply subtree_nodes; eauto with kaspa).
      rewrite Hn in Hin. apply (rep_dom _ _ Hr) in Hin as [? ?]. congruence.
  - destruct (graft_subtree_inv _ _ _ _ Hs') as [->|(s0 & Hs0 & ->)]; [done|].
    rewrite graft_root in *. destruct insertion_subtree as (ks & Hsub & Hc & Hok).
    assert (s0 = Node p ks) as -> by (eapply subtree_unique; eauto using rep_nodup).
    assert (∀ h, h = p ∨ h ∈ root <$> ks → ivl (inserted i) h = ivl D h) as Hsame.
    { intros h Hh. apply inserted_old. intros ->. simpl in *.
      destruct Hh as [?|Hh]; [done|]. apply list_elem_of_fmap in Hh as (k & -> & Hk).
      destruct (proj2 (rep_dom _ _ Hr (root k))); [|congruence].
      eapply subtree_nodes; [exact Hsub|]. apply nodes_node. eauto with kaspa. }
    apply node_ok_graft; [by eapply node_ok_ext|]. intros _. simpl kids.
    rewrite (list_fmap_compose root _ ks), <- Hc, inserted_new, (inserted_old _ p) by congruence.
    replace (ivl (inserted i) <$> children dp) with (ivl D <$> children dp).
    2: { apply list_fmap_ext. intros j h Hh%list_elem_of_lookup_2. symmetry. apply Hsame.
         right. by rewrite <- Hc. }
    destruct free_from_spread as (_ & ? & Hsp). apply spread_snoc; try lia. by rewrite Hst.
  - by apply inserted_node_ok.
Qed.

(** The two store writes of [add_tree_block]. *)
Lemma append_child_ok :
  append_child p n s = (Ok (height dp), Memory.mk (<[p := push_child n dp]> D) (Memory.reindex_root s)).
Proof using Hdp.
  simpl. unfold mbind, M_bind. rewrite (mem_get_data s p dp Hdp).
  by rewrite (mem_update p _ s dp Hdp).
Qed.

Lemma insert_block_ok i :
  insert_block n p i (height dp + 1)
    (Memory.mk (<[p := push_child n dp]> D) (Memory.reindex_root s))
  = (Ok tt, Memory.mk (inserted i) (Memory.reindex_root s)).
Proof using Hdp Hfresh.
  simpl. unfold Memory.insert_. simpl. by rewrite lookup_insert_ne by congruence; rewrite Hfresh.
Qed.
End insertion.
