(* ===== verification/ReachCount.v ===== *)
(** * Counting subtrees

    [count_subtrees] of [reindex.rs] computes the sizes of all subtrees of a block
    by a breadth-first traversal that pushes completed sizes up.  The comment on it
    gives a recursive definition and says that the two are equivalent; here the
    traversal is shown to end and to leave, for every block of the subtree, the
    number of blocks below it. *)

From S2P Require Import Prelude Hash Interval ReachStore Reachability ReachTree ReachQuery ReachDag.

Abbreviation RCtx := (@Ctx Mem).

(** ** Reads of the store in a reindex context *)

Lemma runs_on_store {A} (m : M Mem ReachabilityError A) (c : RCtx) a Q :
  reads m (store c) a → Q a c → runs (on_store m) c Q.
Proof. unfold reads, runs, on_store. intros ->. by destruct c. Qed.

Lemma tree_node t x : x ∈ nodes t → ∃ ks, subtree (Node x ks) t.
Proof. intros (s & Hs & <- & _)%below_refl. destruct s. eauto. Qed.

Section represents_reads.
Context (s : Mem) (t : tree) (Hr : represents (Memory.map s) t).

Lemma read_children x ks : subtree (Node x ks) t → reads (get_children x) s (root <$> ks).
Proof.
  intros Hs. destruct (shape_subtree _ _ _ _ _ Hs (rep_shape _ _ Hr)) as (p & n & Hsh).
  destruct (shape_lookup _ _ _ _ Hsh) as (d & Hd & _ & _ & Hc). simpl in *. rewrite <- Hc.
  by apply mem_get_children.
Qed.

Lemma read_parent x ks k : subtree (Node x ks) t → k ∈ ks → reads (get_parent (root k)) s x.
Proof.
  intros Hs Hk. destruct (shape_subtree _ _ _ _ _ Hs (rep_shape _ _ Hr)) as (p & n & Hsh).
  inversion Hsh as [? ? ? ? d Hd _ _ Hc Hks]; subst. rewrite Forall_forall in Hks.
  destruct (shape_lookup _ _ _ _ (Hks k Hk)) as (dk & Hdk & <- & _). by apply mem_get_parent.
Qed.

Lemma read_interval x : x ∈ nodes t → reads (get_interval x) s (ivl (Memory.map s) x).
Proof. intros Hx. by apply mem_get_interval, (rep_dom _ _ Hr). Qed.
End represents_reads.

(** The block above a block that is not the root. *)
Lemma tree_parent t x : x ∈ nodes t → x ≠ root t →
  ∃ p ks k, subtree (Node p ks) t ∧ k ∈ ks ∧ root k = x.
Proof.
  induction t as [h ks IH] using tree_ind'. rewrite Forall_forall in IH.
  intros [->|(k & Hk & Hx)]%nodes_node Hne; [done|].
  destruct (decide (x = root k)) as [->|Hxk]; [exists h, ks, k; split_and!; [constructor|done..]|].
  destruct (IH k Hk Hx Hxk) as (p & ks' & k' & Hs & ? & ?).
  exists p, ks', k'. split_and!; [|done..]. by eapply subtree_kid.
Qed.

(** The kids of a block have different roots. *)
Lemma kid_roots_nodup h ks : NoDup (nodes (Node h ks)) → NoDup (root <$> ks).
Proof.
  intros (_ & _ & Hb)%NoDup_nodes_inv. induction ks as [|k ks IH]; [constructor|].
  simpl in *. apply NoDup_app in Hb as (_ & Hd & Hb). apply NoDup_cons. split; [|by apply IH].
  intros (k' & Hr & Hk')%list_elem_of_fmap. apply (Hd (root k)); [apply root_in_nodes|].
  apply list_elem_of_bind. exists k'. rewrite Hr. auto with kaspa.
Qed.

(** ** The invariant on the sizes *)

Definition tsize (t : tree) : Z := Z.of_nat (length (nodes t)).

Lemma tsize_node h ks : tsize (Node h ks) = 1 + zsum (tsize <$> ks).
Proof.
  change (Z.of_nat (S (length (ks ≫= nodes))) = 1 + zsum (tsize <$> ks)).
  rewrite Nat2Z.inj_succ, <- Z.add_1_l. f_equal.
  induction ks as [|k ks IH]; [done|]. rewrite bind_cons, fmap_cons.
  rewrite length_app, Nat2Z.inj_add, IH. done.
Qed.
Lemma tsize_pos t : 1 ≤ tsize t.
Proof. destruct t. unfold tsize. simpl. lia. Qed.
Lemma tsize_subtree s t : subtree s t → tsize s ≤ tsize t.
Proof.
  induction 1 as [|h ks k Hk _ IH]; [lia|]. rewrite tsize_node.
  apply list_elem_of_split in Hk as (l1 & l2 & ->). rewrite fmap_app, fmap_cons, zsum_app, zsum_cons.
  assert (∀ l, 0 ≤ zsum (tsize <$> l)) as Hnn.
  { intros l. apply zsum_nonneg, Forall_fmap, Forall_forall. intros x _. simpl.
    pose proof (tsize_pos x). lia. }
  pose proof (Hnn l1). pose proof (Hnn l2). lia.
Qed.

(** The recorded sizes are right, and closed under descendants. *)
Definition sizes_ok (t : tree) (m : gmap Hash Z) : Prop :=
  ∀ h z, m !! h = Some z →
    ∃ s, subtree s t ∧ root s = h ∧ z = tsize s ∧ ∀ x, x ∈ nodes s → is_Some (m !! x).

Lemma sizes_ok_empty t : sizes_ok t ∅.
Proof. intros h z Hz. by rewrite lookup_empty in Hz. Qed.

Lemma sizes_ok_lookup t m s :
  NoDup (nodes t) → sizes_ok t m → subtree s t → is_Some (m !! root s) → m !! root s = Some (tsize s).
Proof.
  intros Hnd Hm Hs [z Hz]. rewrite Hz. destruct (Hm _ _ Hz) as (s' & Hs' & Hr & -> & _).
  by rewrite (subtree_unique t s' s).
Qed.

Lemma sizes_ok_insert t m h ks :
  NoDup (nodes t) → sizes_ok t m → subtree (Node h ks) t →
  (∀ k, k ∈ ks → is_Some (m !! root k)) → sizes_ok t (<[h := tsize (Node h ks)]> m).
Proof.
  intros Hnd Hm Hs Hks x z Hz. destruct (decide (x = h)) as [->|Hne].
  - rewrite lookup_insert_eq in Hz. injection Hz as <-.
    exists (Node h ks). split_and!; [done..|]. intros y Hy.
    destruct (decide (y = h)) as [->|?]; [rewrite lookup_insert_eq; eauto|].
    rewrite lookup_insert_ne by done. apply nodes_node in Hy as [->|(k & Hk & Hy)]; [done|].
    destruct (Hks k Hk) as [zk Hzk]. destruct (Hm _ _ Hzk) as (s & Hs' & Hr & _ & Hall).
    assert (s = k) as ->; [|auto].
    eapply subtree_unique; eauto. eapply subtree_trans; [|exact Hs].
    eapply subtree_kid; [exact Hk|constructor].
  - rewrite lookup_insert_ne in Hz by done. destruct (Hm _ _ Hz) as (s & ? & ? & ? & Hall).
    exists s. split_and!; try done. intros y Hy. destruct (decide (y = h)) as [->|?].
    + rewrite lookup_insert_eq. eauto.
    + rewrite lookup_insert_ne; auto.
Qed.

(** ** Facts about kids *)

Lemma kid_subtree h ks k t : subtree (Node h ks) t → k ∈ ks → subtree k t.
Proof. intros Hs Hk. eapply subtree_trans; [|exact Hs]. eapply subtree_kid; [exact Hk|constructor]. Qed.

Lemma kid_tsize h ks k t : subtree (Node h ks) t → k ∈ ks → tsize k < tsize t.
Proof.
  intros Hs Hk. apply tsize_subtree in Hs. rewrite tsize_node in Hs.
  apply list_elem_of_split in Hk as (l1 & l2 & ->).
  rewrite fmap_app, fmap_cons, zsum_app, zsum_cons in Hs.
  assert (∀ l, 0 ≤ zsum (tsize <$> l)) as Hnn.
  { intros l. apply zsum_nonneg, Forall_fmap, Forall_forall. intros x _. simpl.
    pose proof (tsize_pos x). lia. }
  pose proof (Hnn l1). pose proof (Hnn l2). lia.
Qed.

Lemma proper_subtree s t : subtree s t → s = t ∨ tsize s < tsize t.
Proof.
  inversion 1 as [|h ks k Hk Hs]; subst; [by left|right].
  pose proof (kid_tsize h ks k (Node h ks) (subtree_refl _) Hk).
  pose proof (tsize_subtree _ _ Hs). lia.
Qed.

Lemma kid_not_root h ks k t :
  NoDup (nodes t) → subtree (Node h ks) t → k ∈ ks → root k ≠ root t.
Proof.
  intros Hnd Hs Hk Hr. pose proof (kid_tsize _ _ _ _ Hs Hk).
  assert (k = t) as -> by (eapply subtree_unique; eauto using kid_subtree, subtree_refl). lia.
Qed.

Lemma kid_ne h ks k t : NoDup (nodes t) → subtree (Node h ks) t → k ∈ ks → root k ≠ h.
Proof.
  intros Hnd Hs Hk <-. apply NoDup_subtree in Hs as Hs'; [|done].
  apply NoDup_nodes_inv in Hs' as (Hh & _). apply (Hh k Hk). apply root_in_nodes.
Qed.

(** A block has one parent. *)
Lemma parent_unique t p ks k p' ks' k' :
  NoDup (nodes t) → subtree (Node p ks) t → subtree (Node p' ks') t → k ∈ ks → k' ∈ ks' →
  root k = root k' → p = p' ∧ ks = ks'.
Proof.
  induction t as [h l IH] using tree_ind'. intros Hnd Hs Hs' Hk Hk' Hr.
  rewrite Forall_forall in IH.
  pose proof (NoDup_nodes_inv _ _ Hnd) as (Hh & Hnl & Hb).
  assert (k = k') as <- by (eapply (subtree_unique (Node h l)); eauto using kid_subtree).
  assert (∀ a b, a ∈ l → b ∈ l → root k ∈ nodes a → root k ∈ nodes b → a = b) as Huniq.
  { intros a b [i Hi]%list_elem_of_lookup [j Hj]%list_elem_of_lookup Ha Hb'.
    assert (i = j) as <- by (eapply (NoDup_bind_unique nodes); eauto). congruence. }
  inversion Hs as [|? ? a Ha Hsa]; inversion Hs' as [|? ? a' Ha' Hsa']; simplify_eq.
  - done.
  - exfalso. eapply (kid_not_root _ _ k a'); eauto. f_equal. apply Huniq; auto with kaspa.
    eapply subtree_nodes; [by eapply kid_subtree|]. auto with kaspa.
  - exfalso. eapply (kid_not_root _ _ k a); eauto. f_equal. apply Huniq; auto with kaspa.
    eapply subtree_nodes; [by eapply kid_subtree|]. auto with kaspa.
  - assert (a = a') as <-; [|eapply IH; eauto].
    apply Huniq; auto; (eapply subtree_nodes; [by eapply kid_subtree|]; auto with kaspa).
Qed.

(** Counting the kids whose root is in a set. *)
Definition counted (C : gset Hash) (ks : list tree) : nat :=
  length (filter (λ k, root k ∈ C) ks).

Lemma counted_cons C k ks :
  counted C (k :: ks) = ((if decide (root k ∈ C) then 1 else 0) + counted C ks)%nat.
Proof. unfold counted. rewrite filter_cons. by destruct (decide _). Qed.

Lemma counted_ext C C' ks :
  (∀ k, k ∈ ks → root k ∈ C ↔ root k ∈ C') → counted C ks = counted C' ks.
Proof.
  induction ks as [|k ks IH]; intros HC; [done|]. rewrite !counted_cons.
  rewrite IH by (intros; apply HC; by right).
  pose proof (HC k ltac:(left)) as Hk. repeat case_decide; naive_solver.
Qed.

Lemma counted_le C ks : (counted C ks ≤ length ks)%nat.
Proof. apply length_filter. Qed.

Lemma counted_all C ks : counted C ks = length ks → ∀ k, k ∈ ks → root k ∈ C.
Proof.
  intros Hc k Hk. destruct (decide (root k ∈ C)) as [?|Hn]; [done|].
  pose proof (length_filter_lt (λ k, root k ∈ C) ks k Hk Hn). unfold counted in Hc. lia.
Qed.

Lemma counted_add C k ks :
  NoDup (root <$> ks) → k ∈ ks → root k ∉ C →
  counted (C ∪ {[root k]}) ks = S (counted C ks).
Proof.
  intros Hnd Hk HC. induction ks as [|k' ks IH]; [by apply elem_of_nil in Hk|].
  rewrite fmap_cons in Hnd. apply NoDup_cons in Hnd as [Hn Hnd]. rewrite !counted_cons.
  destruct (decide (root k' = root k)) as [He|Hne].
  - rewrite decide_True, decide_False by set_solver. simpl. f_equal.
    apply counted_ext. intros k2 Hk2. assert (root k2 ≠ root k); [|set_solver].
    rewrite <- He. intros Heq. apply Hn. rewrite <- Heq. apply list_elem_of_fmap. eauto.
  - apply elem_of_cons in Hk as [->|Hk]; [done|]. rewrite (IH Hnd Hk).
    rewrite (decide_ext (root k' ∈ C ∪ {[root k]}) (root k' ∈ C)) by set_solver.
    destruct (decide _); lia.
Qed.

(** ** The traversal

    The blocks of the subtree [s0] reached so far are in the queue [Q], in [W]
    (waiting for some of their children), or in [F] (finished: their size is
    recorded); [C] are the finished blocks that their parents have counted. *)

Section count.
Context (t : tree) (st : Mem) (dep sl : Z) (s0 : tree).
Context (Hr : represents (Memory.map st) t) (Hs0 : subtree s0 t).
Abbreviation ctx m := (mkCtx st m dep sl).

Record counting (Q : list Hash) (cnt m : gmap Hash Z) (W F C : gset Hash) : Prop := {
  cn_sizes : sizes_ok t m;
  cn_in x : x ∈ Q ∨ x ∈ W ∨ x ∈ F → x ∈ nodes s0;
  cn_block : root s0 ∈ Q ∨ root s0 ∈ W ∨ root s0 ∈ F;
  cn_nodup : NoDup Q;
  cn_disj x : x ∈ Q → (x ∉ W) ∧ (x ∉ F);
  cn_disj' x : x ∈ W → x ∉ F;
  cn_F x : x ∈ F → is_Some (m !! x);
  cn_kids h ks k : h ∈ W → subtree (Node h ks) s0 → k ∈ ks →
    root k ∈ Q ∨ root k ∈ W ∨ root k ∈ F;
  cn_count h ks : h ∈ W → subtree (Node h ks) s0 →
    default 0 (cnt !! h) = Z.of_nat (counted C ks) ∧ ((counted C ks < length ks)%nat);
  cn_up p ks k : subtree (Node p ks) s0 → k ∈ ks → root k ∈ Q ∨ root k ∈ W → p ∈ W;
  cn_upF p ks k : subtree (Node p ks) s0 → k ∈ ks → root k ∈ F → p ∈ W ∨ p ∈ F;
  cn_fresh x : x ∉ W → x ∉ F → cnt !! x = None;
}.

Lemma count_nodup : NoDup (nodes s0).
Proof using Hr Hs0. eapply NoDup_subtree; [exact Hs0|apply (rep_nodup _ _ Hr)]. Qed.

Lemma count_size (X : gset Hash) :
  (∀ x, x ∈ X → x ∈ nodes s0) → (size X ≤ length (nodes s0))%nat.
Proof.
  intros HX. rewrite <- (size_list_to_set (C:=gset Hash) (nodes s0)) by apply count_nodup.
  apply subseteq_size. intros x Hx. apply elem_of_list_to_set. auto.
Qed.

Lemma count_length_le : (length (nodes s0) ≤ length (nodes t))%nat.
Proof using Hs0. pose proof (tsize_subtree _ _ Hs0). unfold tsize in *. lia. Qed.

(** A finished block that is not yet counted is counted by its parent. *)
Lemma counting_count Q cnt m W F p ks k :
  counting Q cnt m W F (F ∖ {[root k]}) → root k ∈ F → p ∈ W →
  subtree (Node p ks) s0 → k ∈ ks →
  counted F ks = S (counted (F ∖ {[root k]}) ks)
  ∧ (∀ h ks', h ≠ p → subtree (Node h ks') s0 →
       counted F ks' = counted (F ∖ {[root k]}) ks').
Proof using Hr Hs0.
  intros HI HF Hp Hs Hk. split.
  - rewrite <- (counted_add _ k); [|eapply kid_roots_nodup, NoDup_subtree;
      [exact Hs|apply count_nodup]|done|set_solver].
    apply counted_ext. intros k' _. rewrite elem_of_union, elem_of_difference, elem_of_singleton.
    destruct (decide (root k' = root k)) as [->|]; tauto.
  - intros h ks' Hne Hs'. apply counted_ext. intros k' Hk'.
    assert (root k' ≠ root k); [|set_solver]. intros Heq. apply Hne.
    by destruct (parent_unique s0 h ks' k' p ks k count_nodup Hs' Hs Hk' Hk Heq).
Qed.

(** The sizes of the kids, when all are recorded. *)
Lemma size_of_ok m k c :
  sizes_ok t m → subtree_sizes c = m → subtree k t → is_Some (m !! root k) →
  reads (size_of (T:=Mem) (root k)) c (tsize k).
Proof using Hr.
  intros Hm Hc Hk Hin. unfold size_of. eapply reads_bind; [done|]. simpl. rewrite Hc.
  by rewrite (sizes_ok_lookup t m k (rep_nodup _ _ Hr) Hm Hk Hin).
Qed.

Lemma sizes_of_ok m ks c :
  sizes_ok t m → subtree_sizes c = m → (∀ k, k ∈ ks → subtree k t ∧ is_Some (m !! root k)) →
  reads (sizes_of (T:=Mem) (root <$> ks)) c (tsize <$> ks).
Proof using Hr.
  intros Hm Hc Hks. unfold sizes_of. induction ks as [|k ks IH]; [done|].
  destruct (Hks k) as [Hk Hin]; [left|]. simpl.
  eapply reads_bind; [by eapply size_of_ok|].
  eapply reads_bind; [apply IH; intros; apply Hks; by right|]. apply reads_ret.
Qed.

Lemma sum_sizes ks h : subtree (Node h ks) t → sum64 (E:=ReachabilityError) (tsize <$> ks)
  = Ok (tsize (Node h ks) - 1) ∧ tsize (Node h ks) ≤ u64_max.
Proof using Hr.
  intros Hs. pose proof (tsize_subtree _ _ Hs). pose proof (rep_size _ _ Hr) as Hsz.
  change (tsize t ≤ u64_max) in Hsz. rewrite tsize_node in *. split; [|lia].
  rewrite sum64_ok; [f_equal; lia| |lia].
  apply Forall_fmap, Forall_forall. intros k _. simpl. pose proof (tsize_pos k). lia.
Qed.

Lemma counting_finish Q cnt m W F p ks k z :
  counting Q cnt m W F (F ∖ {[root k]}) → root k ∈ F → p ∈ W →
  subtree (Node p ks) s0 → k ∈ ks → counted F ks = length ks →
  counting Q (<[p := z]> cnt) (<[p := tsize (Node p ks)]> m) (W ∖ {[p]}) (F ∪ {[p]})
    ((F ∪ {[p]}) ∖ {[p]}).
Proof using Hr Hs0.
  intros HI HF Hp Hs Hk Hall. pose proof (counting_count _ _ _ _ _ _ _ _ HI HF Hp Hs Hk) as [_ Hoth].
  pose proof (counted_all _ _ Hall) as Hkids.
  assert (p ∉ F) as HpF by (by eapply cn_disj').
  assert ((F ∪ {[p]}) ∖ {[p]} = F) as -> by set_solver. destruct HI. split.
  - apply sizes_ok_insert; eauto using rep_nodup, subtree_trans.
  - intros x Hx. apply cn_in0. set_solver.
  - destruct (decide (root s0 = p)); set_solver.
  - done.
  - intros x Hx. pose proof (cn_disj0 x Hx). destruct (decide (x = p)); set_solver.
  - intros x Hx. pose proof (cn_disj'0 x). set_solver.
  - intros x Hx. destruct (decide (x = p)) as [->|]; [rewrite lookup_insert_eq; eauto|].
    rewrite lookup_insert_ne by done. apply cn_F0. set_solver.
  - intros h ks' k' Hh Hs' Hk'. pose proof (cn_kids0 h ks' k' ltac:(set_solver) Hs' Hk').
    destruct (decide (root k' = p)); set_solver.
  - intros h ks' Hh Hs'. assert (h ≠ p) as Hne by set_solver.
    rewrite lookup_insert_ne by done. rewrite (Hoth h ks' Hne Hs').
    apply cn_count0; [set_solver|done].
  - intros q ks' k' Hs' Hk' Hx. assert (q ∈ W) by (apply (cn_up0 q ks' k'); set_solver).
    assert (q ≠ p); [|set_solver]. intros ->.
    assert (Node p ks' = Node p ks) as [= ->] by (eapply subtree_unique; eauto using count_nodup).
    specialize (Hkids k' Hk'). destruct Hx as [Hx|Hx]; [pose proof (cn_disj0 _ Hx)|pose proof (cn_disj'0 (root k'))]; set_solver.
  - intros q ks' k' Hs' Hk' Hx. assert (q ∈ W ∨ q ∈ F); [|destruct (decide (q = p)); set_solver].
    destruct (decide (root k' = p)) as [He|]; [|apply (cn_upF0 q ks' k'); set_solver].
    left. apply (cn_up0 q ks' k' Hs' Hk'). rewrite He. auto.
  - intros x HxW HxF. rewrite lookup_insert_ne by set_solver. apply cn_fresh0; set_solver.
Qed.

Lemma counting_stop Q cnt m W F p ks k z :
  counting Q cnt m W F (F ∖ {[root k]}) → root k ∈ F → p ∈ W →
  subtree (Node p ks) s0 → k ∈ ks → z = Z.of_nat (counted F ks) → (counted F ks < length ks)%nat →
  counting Q (<[p := z]> cnt) m W F F.
Proof using Hr Hs0.
  intros HI HF Hp Hs Hk -> Hlt. pose proof (counting_count _ _ _ _ _ _ _ _ HI HF Hp Hs Hk) as [_ Hoth].
  destruct HI. split; auto.
  - intros h ks' Hh Hs'. destruct (decide (h = p)) as [->|Hne].
    + assert (Node p ks' = Node p ks) as [= ->] by (eapply subtree_unique; eauto using count_nodup).
      by rewrite lookup_insert_eq.
    + rewrite lookup_insert_ne by done. rewrite (Hoth h ks' Hne Hs'). auto.
  - intros x HxW HxF. rewrite lookup_insert_ne by set_solver. auto.
Qed.

(** Taking a block from the queue that is finished at once. *)
Lemma counting_leaf Q cnt m m' W F x :
  counting (x :: Q) cnt m W F F → sizes_ok t m' → is_Some (m' !! x) →
  (∀ y, is_Some (m !! y) → is_Some (m' !! y)) →
  counting Q cnt m' W (F ∪ {[x]}) ((F ∪ {[x]}) ∖ {[x]}).
Proof using Hr Hs0.
  intros HI Hm' Hx Hmono. destruct (cn_disj _ _ _ _ _ _ HI x) as [HxW HxF]; [left|].
  pose proof (cn_nodup _ _ _ _ _ _ HI) as [HxQ HndQ]%NoDup_cons.
  assert ((F ∪ {[x]}) ∖ {[x]} = F) as -> by set_solver. destruct HI. split; auto.
  - intros y Hy. apply cn_in0. set_solver.
  - set_solver.
  - intros y Hy. pose proof (cn_disj0 y ltac:(by right)). set_solver.
  - intros y Hy. pose proof (cn_disj'0 y Hy). set_solver.
  - intros y [Hy| ->%elem_of_singleton]%elem_of_union; auto.
  - intros h ks k Hh Hs Hk. pose proof (cn_kids0 h ks k Hh Hs Hk). set_solver.
  - intros p ks k Hs Hk Hq. apply (cn_up0 p ks k Hs Hk). set_solver.
  - intros p ks k Hs Hk [Hq|Hq%elem_of_singleton]%elem_of_union.
    + pose proof (cn_upF0 p ks k Hs Hk Hq). set_solver.
    + left. apply (cn_up0 p ks k Hs Hk). set_solver.
  - intros y HyW HyF. apply cn_fresh0; set_solver.
Qed.

(** Taking a block from the queue whose children are queued. *)
Lemma counting_expand Q cnt m W F x ks :
  counting (x :: Q) cnt m W F F → subtree (Node x ks) s0 → ks ≠ [] →
  counting (Q ++ (root <$> ks)) cnt m (W ∪ {[x]}) F F.
Proof using Hr Hs0.
  intros HI Hs Hne. destruct (cn_disj _ _ _ _ _ _ HI x) as [HxW HxF]; [left|].
  pose proof (cn_nodup _ _ _ _ _ _ HI) as [HxQ HndQ]%NoDup_cons.
  assert (∀ k, k ∈ ks → (root k ∉ x :: Q) ∧ (root k ∉ W) ∧ (root k ∉ F)) as Hnew.
  { intros k Hk. split_and!; intros Hin.
    - apply HxW, (cn_up _ _ _ _ _ _ HI x ks k); auto.
    - apply HxW, (cn_up _ _ _ _ _ _ HI x ks k); auto.
    - destruct (cn_upF _ _ _ _ _ _ HI x ks k); auto. }
  assert (∀ y, y ∈ root <$> ks → ∃ k, k ∈ ks ∧ y = root k) as Hroots.
  { intros y (k & -> & Hk)%list_elem_of_fmap. eauto. }
  assert (counted F ks = 0%nat) as H0.
  { rewrite (counted_ext F ∅ ks); [clear; induction ks; [done|rewrite counted_cons, IHks; done]|].
    intros k Hk. destruct (Hnew k Hk) as (_ & _ & ?). set_solver. }
  destruct HI. split; auto.
  - intros y [[Hy|(k & Hk & ->)%Hroots]%elem_of_app|Hy]; [apply cn_in0; set_solver| |apply cn_in0; set_solver].
    eapply subtree_nodes; [exact Hs|]. apply nodes_node. eauto with kaspa.
  - set_solver.
  - apply NoDup_app. split_and!; [done| |].
    + intros y Hy (k & Hk & ->)%Hroots. destruct (Hnew k Hk) as [? _]. set_solver.
    + eapply kid_roots_nodup, NoDup_subtree; [exact Hs|apply count_nodup].
  - intros y [Hy|(k & Hk & ->)%Hroots]%elem_of_app.
    + pose proof (cn_disj0 y ltac:(by right)). set_solver.
    + destruct (Hnew k Hk) as (? & ? & ?). set_solver.
  - intros y [Hy| ->%elem_of_singleton]%elem_of_union; auto.
  - intros h ks' k Hh Hs' Hk. apply elem_of_union in Hh as [Hh| ->%elem_of_singleton].
    + pose proof (cn_kids0 h ks' k Hh Hs' Hk). set_solver.
    + assert (Node x ks' = Node x ks) as [= ->] by (eapply subtree_unique; eauto using count_nodup).
      left. apply elem_of_app. right. apply list_elem_of_fmap. eauto.
  - intros h ks' Hh Hs'. apply elem_of_union in Hh as [Hh| ->%elem_of_singleton]; [auto|].
    assert (Node x ks' = Node x ks) as [= ->] by (eapply subtree_unique; eauto using count_nodup).
    rewrite cn_fresh0, H0 by done. split; [done|]. destruct ks; [done|simpl; lia].
  - intros p ks' k Hs' Hk Hq. rewrite elem_of_union, elem_of_singleton.
    destruct (decide (p = x)) as [->|Hpx]; [by right|left].
    destruct Hq as [[Hq|(k2 & Hk2 & He)%Hroots]%elem_of_app|Hq]; [apply (cn_up0 p ks' k); set_solver| |].
    + destruct (parent_unique s0 p ks' k x ks k2 count_nodup Hs' Hs Hk Hk2 He). done.
    + apply (cn_up0 p ks' k); set_solver.
  - intros p ks' k Hs' Hk Hq. pose proof (cn_upF0 p ks' k Hs' Hk Hq). set_solver.
  - intros y HyW HyF. apply cn_fresh0; set_solver.
Qed.

(** When the queue is empty, nothing waits. *)
Lemma counting_end cnt m W F : counting [] cnt m W F F → is_Some (m !! root s0).
Proof using Hr Hs0.
  intros HI. assert (∀ s, subtree s s0 → root s ∉ W) as HW.
  { intros s. induction s as [h ks IH] using tree_ind'. intros Hs Hh. simpl in Hh.
    rewrite Forall_forall in IH. destruct (cn_count _ _ _ _ _ _ HI h ks Hh Hs) as [_ Hlt].
    assert (counted F ks = length ks); [|lia].
    assert (∀ k, k ∈ ks → root k ∈ F) as Hall.
    { intros k Hk. pose proof (cn_kids _ _ _ _ _ _ HI h ks k Hh Hs Hk).
      pose proof (IH k Hk (kid_subtree _ _ _ _ Hs Hk)). set_solver. }
    clear -Hall. induction ks as [|k ks IH]; [done|]. rewrite counted_cons.
    rewrite decide_True by (apply Hall; left). simpl. f_equal. apply IH.
    intros; apply Hall; by right. }
  apply (cn_F _ _ _ _ _ _ HI). pose proof (cn_block _ _ _ _ _ _ HI).
  pose proof (HW s0 (subtree_refl _)). set_solver.
Qed.

Context (fuel : nat) (Hfuel : (length (nodes t) < fuel)%nat).

Lemma push_up_ok Q cnt m W F cur :
  counting Q cnt m W F (F ∖ {[cur]}) → cur ∈ F →
  (∀ p ks k, subtree (Node p ks) s0 → k ∈ ks → root k = cur → p ∈ W) →
  runs (push_up fuel (root s0) cur cnt) (ctx m) (λ cnt' c',
    ∃ m' W' F', c' = ctx m' ∧ counting Q cnt' m' W' F' F' ∧ W' ∪ F' = W ∪ F).
Proof using Hr Hs0 Hfuel.
  intros HI HF Hup. unfold push_up.
  apply (runs_loop_ghost (λ n '(cur, cnt) c, ∃ m' W' F', c = ctx m'
    ∧ counting Q cnt m' W' F' (F' ∖ {[cur]}) ∧ cur ∈ F'
    ∧ (∀ p ks k, subtree (Node p ks) s0 → k ∈ ks → root k = cur → p ∈ W')
    ∧ W' ∪ F' = W ∪ F ∧ n = size W') _ _ _ (size W)); [|by exists m, W, F|].
  2: { pose proof (count_size W ltac:(intros x ?; apply (cn_in _ _ _ _ _ _ HI); auto)).
       pose proof count_length_le. lia. }
  clear dependent cur cnt m. intros n [cur cnt] c (m & W' & F' & -> & HI & HF & Hup & HWF & ->).
  case_bool_decide as Hb.
  - apply runs_ret. exists m, W', F'. split_and!; [done| |done].
    destruct HI. split; auto. intros h ks Hh Hs.
    rewrite (counted_ext F' (F' ∖ {[cur]}) ks); [auto|]. intros k Hk.
    rewrite elem_of_difference, elem_of_singleton, Hb.
    pose proof (kid_not_root h ks k s0 count_nodup Hs Hk). tauto.
  - destruct (tree_parent s0 cur) as (p & ks & k & Hs & Hk & <-);
      [apply (cn_in _ _ _ _ _ _ HI); auto|done|].
    pose proof (Hup p ks k Hs Hk eq_refl) as Hp.
    assert (subtree (Node p ks) t) as Hst by eauto using subtree_trans.
    apply runs_bind, (runs_on_store _ _ p); [by apply reads_try; eapply read_parent|].
    apply runs_bind, (runs_on_store _ _ (root <$> ks)); [by apply reads_try, (read_children st t)|].
    destruct (cn_count _ _ _ _ _ _ HI p ks Hp Hs) as [-> Hlt].
    destruct (counting_count _ _ _ _ _ _ _ _ HI HF Hp Hs Hk) as [Hcnt _].
    destruct (sum_sizes ks p Hst) as [Hsum Hmax].
    assert (Z.of_nat (length ks) ≤ u64_max).
    { rewrite tsize_node in Hmax. enough (Z.of_nat (length ks) ≤ zsum (tsize <$> ks)) by lia.
      clear. induction ks as [|k ks IH]; [done|]. rewrite fmap_cons, zsum_cons. simpl length.
      pose proof (tsize_pos k). lia. }
    apply runs_bind, (runs_lift _ (Z.of_nat (counted F' ks))).
    { rewrite add64_ok by lia. f_equal. lia. }
    rewrite length_fmap. destruct (Z.ltb_spec (Z.of_nat (counted F' ks)) (Z.of_nat (length ks))).
    + apply runs_ret. exists m, W', F'. split_and!; [done| |done].
      eapply counting_stop; eauto. lia.
    + assert (counted F' ks = length ks) as Hall by (pose proof (counted_le F' ks); lia).
      pose proof (counted_all _ _ Hall) as Hkids.
      apply runs_bind. eapply reads_runs.
      { eapply (sizes_of_ok m); [apply HI|done|]. intros k' Hk'.
        split; [by eapply kid_subtree|]. apply (cn_F _ _ _ _ _ _ HI), Hkids, Hk'. }
      apply runs_bind, (runs_lift _ _ _ _ Hsum).
      apply runs_bind, (runs_lift _ (tsize (Node p ks))).
      { rewrite add64_ok by (pose proof (tsize_pos (Node p ks)); lia). f_equal. lia. }
      apply runs_bind. apply runs_ret. exists (size (W' ∖ {[p]})). split.
      * exists (<[p := tsize (Node p ks)]> m), (W' ∖ {[p]}), (F' ∪ {[p]}). split_and!; auto.
        -- eapply counting_finish; eauto.
        -- set_solver.
        -- intros q ks' k' Hs' Hk' Hrk. assert (q ∈ W') as Hq.
           { apply (cn_up _ _ _ _ _ _ HI q ks' k' Hs' Hk'). rewrite Hrk. auto. }
           pose proof (kid_ne q ks' k' s0 count_nodup Hs' Hk'). set_solver.
        -- rewrite <- HWF. apply leibniz_equiv. intros x.
           destruct (decide (x = p)) as [->|]; set_solver.
      * rewrite size_difference, size_singleton by set_solver.
        assert (size W' ≠ 0%nat); [|lia]. apply size_non_empty_iff. set_solver.
Qed.

Lemma count_loop_ok m :
  sizes_ok t m → m !! root s0 = None →
  runs (count_subtrees fuel (root s0)) (ctx m) (λ _ c',
    ∃ m', c' = ctx m' ∧ sizes_ok t m' ∧ is_Some (m' !! root s0)).
Proof using Hr Hs0 Hfuel.
  intros Hm Hnone. unfold count_subtrees. apply runs_bind, runs_get. simpl.
  rewrite bool_decide_eq_false_2 by (rewrite Hnone; by intros [? ?]).
  apply (runs_loop_ghost (λ n '(Q, cnt) c, ∃ m' W F, c = ctx m' ∧ counting Q cnt m' W F F
    ∧ (n + size (W ∪ F) = length (nodes s0))%nat) _ _ _ (length (nodes s0))).
  2: { exists m, ∅, ∅. split_and!; [done| |rewrite (union_empty_l_L ∅), size_empty; lia].
       split; try set_solver.
       - intros x [->%list_elem_of_singleton|?]; [apply root_in_nodes|set_solver].
       - apply NoDup_singleton.
       - intros p ks k Hs Hk [Hk'%list_elem_of_singleton|?]; [|set_solver].
         by destruct (kid_not_root p ks k s0 count_nodup Hs Hk). }
  2: { pose proof count_length_le. lia. }
  intros n [Q cnt] c (m' & W & F & -> & HI & Hn). destruct Q as [|x Q].
  { apply runs_ret. exists m'. split_and!; [done|apply HI|by eapply counting_end]. }
  assert (x ∈ nodes s0) as Hx by (apply (cn_in _ _ _ _ _ _ HI); left; left).
  destruct (cn_disj _ _ _ _ _ _ HI x) as [HxW HxF]; [left|].
  destruct (tree_node s0 x Hx) as [ks Hs].
  assert (subtree (Node x ks) t) as Hst by eauto using subtree_trans.
  assert (∀ W' F' : gset Hash, (∀ y, y ∈ W' ∪ F' ↔ y ∈ W ∪ F ∪ {[x]}) →
    (∀ y, y ∈ W' ∪ F' → y ∈ nodes s0) →
    ∃ n', (n' + size (W' ∪ F') = length (nodes s0))%nat ∧ (n' < n)%nat) as Hmeasure.
  { intros W' F' Heq Hin. pose proof (count_size (W' ∪ F') Hin).
    assert (W' ∪ F' = W ∪ F ∪ {[x]}) as Hset by (apply leibniz_equiv; intros y; apply Heq).
    assert (size (W' ∪ F') = size (W ∪ F) + 1)%nat as Hsz.
    { rewrite Hset, (size_union (W ∪ F) {[x]}), size_singleton; [done|].
      intros y Hy ->%elem_of_singleton. apply elem_of_union in Hy as [?|?]; done. }
    exists (n - 1)%nat. lia. }
  apply runs_bind, (runs_on_store _ _ (root <$> ks)); [by apply reads_try, (read_children st t)|].
  apply runs_bind, runs_get.
  assert (∀ m2, sizes_ok t m2 → is_Some (m2 !! x) → (∀ y, is_Some (m' !! y) → is_Some (m2 !! y)) →
    runs (counts ← push_up fuel (root s0) x cnt; mret (inl (B:=unit) (Q, counts))) (ctx m2) (λ r s',
      match r with
      | inl a' => ∃ n', (λ n '(Q, cnt) c, ∃ m' W F, c = ctx m' ∧ counting Q cnt m' W F F
          ∧ (n + size (W ∪ F) = length (nodes s0))%nat) n' a' s' ∧ (n' < n)%nat
      | inr _ => ∃ m', s' = ctx m' ∧ sizes_ok t m' ∧ is_Some (m' !! root s0)
      end)) as Hpush.
  { intros m2 Hm2 Hx2 Hmono. apply runs_bind.
    eapply runs_mono; [eapply (push_up_ok Q cnt m2 W (F ∪ {[x]}) x)|].
    - by eapply counting_leaf.
    - set_solver.
    - intros p ks' k Hs' Hk' Hrk. apply (cn_up _ _ _ _ _ _ HI p ks' k); auto. left. rewrite Hrk. left.
    - intros cnt' c' (m3 & W3 & F3 & -> & HI3 & HWF). apply runs_ret. simpl.
      destruct (Hmeasure W3 F3) as (n' & ? & ?); [rewrite HWF; set_solver| |].
      + intros y Hy. apply (cn_in _ _ _ _ _ _ HI3). set_solver.
      + exists n'. split; [|done]. by exists m3, W3, F3. }
  destruct ks as [|k ks]; simpl fmap; cbv iota.
  - apply runs_bind. apply (Hpush (<[x := 1]> m')).
    + apply (sizes_ok_insert t m' x []); [apply (rep_nodup _ _ Hr)|apply HI|done|].
      by intros k ?%elem_of_nil.
    + rewrite lookup_insert_eq. eauto.
    + intros y ?. destruct (decide (x = y)) as [->|]; [rewrite lookup_insert_eq; eauto|].
      by rewrite lookup_insert_ne.
  - simpl. case_bool_decide as Hin.
    + apply Hpush; [apply HI|done..].
    + apply runs_ret. destruct (Hmeasure (W ∪ {[x]}) F) as (n' & ? & ?); [set_solver| |].
      { intros y Hy. destruct (decide (y = x)) as [->|]; [done|].
        apply (cn_in _ _ _ _ _ _ HI). set_solver. }
      exists n'. split; [|done]. exists m', (W ∪ {[x]}), F. split_and!; [done| |done].
      by apply (counting_expand Q cnt m' W F x (k :: ks)).
Qed.

(** [count_subtrees] ends, records the size of [block], and keeps the recorded
    sizes right; the store is not changed. *)
Lemma count_subtrees_ok m :
  sizes_ok t m →
  runs (count_subtrees fuel (root s0)) (ctx m) (λ _ c',
    ∃ m', c' = ctx m' ∧ sizes_ok t m' ∧ is_Some (m' !! root s0)).
Proof using Hr Hs0 Hfuel.
  intros Hm. destruct (m !! root s0) as [z|] eqn:Hz; [|by apply count_loop_ok].
  unfold count_subtrees. apply runs_bind, runs_get. simpl.
  rewrite bool_decide_eq_true_2 by (rewrite Hz; eauto). apply runs_ret. exists m. eauto.
Qed.
End count.
