(* ===== verification/ReachPropagate.v ===== *)
(** * Propagating intervals

    [propagate_interval] of [reindex.rs] gives new intervals to all blocks below a
    block whose own interval is large enough for its subtree.  It is shown to end
    with the whole subtree indexed and to touch nothing else. *)

From S2P Require Import Prelude Hash Interval ReachStore Reachability ReachTree ReachQuery ReachDag ReachCount.
Import Interval (Interval, start, end_, valid, card, contains, strictly_contains).

(** ** Changes of intervals only *)

(** The data of a block but its interval. *)
Definition fixed (d : ReachabilityData) : Hash * list Hash * Z * list Hash :=
  (links d, future_covering_set d).

Definition reindexed (D D' : Data) : Prop := ∀ h, fixed <$> D' !! h = fixed <$> D !! h.

#[global] Instance reindexed_preorder : PreOrder reindexed.
Proof. split; [done|]. intros D1 D2 D3 H1 H2 h. by rewrite H2, H1. Qed.

Lemma reindexed_represents D D' t : reindexed D D' → represents D t → represents D' t.
Proof.
  intros HD. apply represents_links. intros h. specialize (HD h).
  destruct (D !! h), (D' !! h); simpl in *; try done. unfold fixed in HD. congruence.
Qed.

Lemma reindexed_covers D D' t R : reindexed D D' → covers D t R → covers D' t R.
Proof.
  intros HD [Ho Hc].
  assert (∀ x d', D' !! x = Some d' → ∃ d, D !! x = Some d
    ∧ future_covering_set d' = future_covering_set d) as Hfcs.
  { intros x d' Hd'. specialize (HD x). rewrite Hd' in HD.
    destruct (D !! x) as [d|]; [|done]. exists d. split; [done|].
    simpl in HD. unfold fixed in HD. congruence. }
  split.
  - intros x d' (d & Hd & ->)%Hfcs. eauto.
  - intros x y d' (d & Hd & ->)%Hfcs. eauto.
Qed.

(** Steps of a reindex operation: only intervals of blocks in [P] change. *)
Record moves (t : tree) (P : Hash → Prop) (c c' : RCtx) : Prop := {
  mv_data : reindexed (Memory.map (store c)) (Memory.map (store c'));
  mv_root : Memory.reindex_root (store c') = Memory.reindex_root (store c);
  mv_sizes : sizes_ok t (subtree_sizes c) → sizes_ok t (subtree_sizes c');
  mv_depth : depth c' = depth c;
  mv_slack : slack c' = slack c;
  mv_ivl x : ¬ P x → ivl (Memory.map (store c')) x = ivl (Memory.map (store c)) x;
}.

Lemma moves_refl t P c : moves t P c c.
Proof. by split. Qed.

Lemma moves_trans t (P1 P2 P : Hash → Prop) c1 c2 c3 :
  moves t P1 c1 c2 → moves t P2 c2 c3 → (∀ x, P1 x ∨ P2 x → P x) → moves t P c1 c3.
Proof.
  intros [D1 R1 S1 E1 K1 I1] [D2 R2 S2 E2 K2 I2] HP. split; [|congruence|auto|congruence..|].
  - etrans; [exact D1|exact D2].
  - intros x Hx. rewrite I2, I1; [done|intros ?; apply Hx, HP; auto..].
Qed.

Lemma moves_weaken t (P P' : Hash → Prop) c c' :
  moves t P c c' → (∀ x, P x → P' x) → moves t P' c c'.
Proof. intros Hm HP. eapply moves_trans; [exact Hm|apply (moves_refl t P)|]. naive_solver. Qed.

Abbreviation data c := (Memory.map (store c)).

Lemma set_interval_runs t (c : RCtx) h i (Q : unit → RCtx → Prop) :
  is_Some (data c !! h) →
  (∀ c', moves t (.= h) c c' → subtree_sizes c' = subtree_sizes c → ivl (data c') h = i → Q tt c') →
  runs (on_store (try (set_interval h i))) c Q.
Proof.
  intros [d Hd] HQ.
  eapply (runs_intro _ _ tt).
  { unfold on_store, try, map_err. simpl. by rewrite (mem_update h _ (store c) d Hd). }
  apply HQ; [|done|by unfold ivl; simpl; rewrite lookup_insert_eq].
  split; simpl; try done.
  - intros x. destruct (decide (x = h)) as [->|]; [by rewrite lookup_insert_eq, Hd|].
    by rewrite lookup_insert_ne.
  - intros x Hx. unfold ivl. by rewrite lookup_insert_ne.
Qed.

Lemma set_intervals_runs t (l : list (Hash * Interval)) (c : RCtx) (Q : unit → RCtx → Prop) :
  NoDup (fst <$> l) → Forall (λ h, is_Some (data c !! h)) (fst <$> l) →
  (∀ c', moves t (λ x, x ∈ fst <$> l) c c' → subtree_sizes c' = subtree_sizes c →
     Forall (λ p, ivl (data c') p.1 = p.2) l → Q tt c') →
  runs (for_each l (λ '(h, i), on_store (try (set_interval h i)))) c Q.
Proof.
  revert c. induction l as [|[h i] l IH]; intros c Hnd Hin HQ; simpl.
  - apply runs_ret, HQ; [apply moves_refl|done|constructor].
  - rewrite fmap_cons in *. apply NoDup_cons in Hnd as [Hh Hnd].
    apply Forall_cons_1 in Hin as [Hd Hin]. simpl in *.
    apply runs_bind, (set_interval_runs t); [done|]. intros c1 Hm1 Hs1 Hi1.
    apply IH; [done| |].
    + eapply Forall_impl; [exact Hin|]. intros x Hx.
      rewrite <- (fmap_is_Some fixed), (mv_data _ _ _ _ Hm1), fmap_is_Some. done.
    + intros c2 Hm2 Hs2 Hl. apply HQ; [|congruence|].
      * eapply moves_trans; [exact Hm1|exact Hm2|]. intros x. rewrite elem_of_cons. tauto.
      * constructor; [|done]. simpl. by rewrite (mv_ivl _ _ _ _ Hm2).
Qed.

(** ** The traversal *)

Section propagate.
Context (t : tree) (s0 : tree) (Hs0 : subtree s0 t) (Hnd : NoDup (nodes t)).

(** A subtree whose root has room for it. *)
Definition roomy (I : Hash → Interval) (k : tree) : Prop :=
  subtree k s0 ∧ valid (I (root k)) ∧ tsize k ≤ card (I (root k)).

(** The subtrees [ts] are still to be done; the rest of [s0] is. *)
Record propagating (ts : list tree) (I : Hash → Interval) : Prop := {
  pr_roomy : Forall (roomy I) ts;
  pr_nodup : NoDup (ts ≫= nodes);
  pr_done s : subtree s s0 → node_ok I s ∨ ∃ k, k ∈ ts ∧ subtree s k;
}.

Lemma propagating_leaf I h ts :
  propagating (Node h [] :: ts) I → propagating ts I.
Proof.
  intros [Hro Hn Hd]. apply Forall_cons_1 in Hro as [(Hs & Hv & Hc) Hro].
  simpl in Hn. apply NoDup_cons in Hn as [_ Hn]. split; auto.
  intros s Hss. destruct (Hd s Hss) as [?|(k & [->|Hk]%elem_of_cons & Hsk)]; eauto.
  left. inversion Hsk as [|??? Hk]; [|by apply elem_of_nil in Hk].
  unfold card in Hc. pose proof (tsize_pos (Node h [])). split_and!; simpl in *; auto; lia.
Qed.

Lemma propagating_node I I' h ks ts l :
  propagating (Node h ks :: ts) I →
  (∀ x, x ∉ root <$> ks → I' x = I x) → Forall2 (λ k i, I' (root k) = i) ks l →
  Interval.tiles (start (I h)) l (end_ (I h) - 1) →
  Forall2 (λ n i, n ≤ card i) (tsize <$> ks) l →
  propagating (ts ++ ks) I'.
Proof using Hs0 Hnd.
  intros [Hro Hn Hd] Hsame Hset Ht Hcard. rewrite bind_cons in Hn.
  apply Forall_cons_1 in Hro as [(Hs & Hv & Hc) Hro]. simpl in *.
  assert (NoDup (nodes s0)) as Hnd0 by eauto using NoDup_subtree.
  apply NoDup_cons in Hn as [Hhn Hn]. apply NoDup_app in Hn as (Hnk & Hdis & Hnts).
  assert (∀ k, k ∈ ks → ∃ i, i ∈ l ∧ I' (root k) = i ∧ tsize k ≤ card i) as Hkid.
  { intros k [j Hj]%list_elem_of_lookup. destruct (Forall2_lookup_l _ _ _ _ _ Hset Hj) as (i & Hi & HI').
    exists i. split_and!; [by eapply list_elem_of_lookup_2|done|].
    apply (Forall2_lookup_lr _ _ _ j (tsize k) i Hcard); [|done].
    by rewrite list_lookup_fmap, Hj. }
  assert (I' <$> (root <$> ks) = l) as Hl.
  { clear -Hset. induction Hset; [done|]. rewrite !fmap_cons. congruence. }
  split.
  - apply Forall_app. split.
    + apply Forall_forall. intros k Hk. rewrite Forall_forall in Hro.
      destruct (Hro k Hk) as (? & ? & ?). unfold roomy. rewrite Hsame; [done|].
      intros (k' & He & Hk')%list_elem_of_fmap. apply (Hdis (root k)).
      * apply list_elem_of_bind. exists k'. rewrite He. auto with kaspa.
      * apply list_elem_of_bind. exists k. auto with kaspa.
    + apply Forall_forall. intros k Hk. destruct (Hkid k Hk) as (i & Hi & Hi' & Hsz).
      unfold roomy. rewrite Hi'. split_and!; [by eapply kid_subtree| |done].
      pose proof (Interval.tiles_bounds _ _ _ _ Ht Hi). destruct Hv as (? & ? & ?).
      unfold valid. lia.
  - rewrite bind_app. apply NoDup_app. split_and!; auto.
    intros x Hx Hx'. by apply (Hdis x).
  - intros s Hss. destruct (decide (root s = h)) as [Hsh|Hsh].
    { assert (s = Node h ks) as -> by (eapply subtree_unique; eauto). left.
      assert (h ∉ root <$> ks) as Hhk.
      { intros (k & He & Hk)%list_elem_of_fmap. by destruct (kid_ne h ks k s0). }
      unfold node_ok. simpl. rewrite (Hsame h Hhk), (list_fmap_compose root I'), Hl.
      split_and!; [done|unfold card in Hc; pose proof (tsize_pos (Node h ks)); lia|].
      apply tiles_spread; [done|]. clear -Hcard. induction ks in l, Hcard |- *;
        inversion Hcard; subst; constructor; eauto. pose proof (tsize_pos a). lia. }
    destruct (decide (root s ∈ root <$> ks)) as [(k & Hk & Hin)%list_elem_of_fmap|Hsk].
    { right. exists k. split; [apply elem_of_app; auto|].
      assert (s = k) as ->; [|constructor]. eapply subtree_unique; eauto using kid_subtree. }
    destruct (Hd s Hss) as [Hok|(k & [->|Hk]%elem_of_cons & Hsub)].
    + left. eapply node_ok_ext; [|exact Hok]. intros x [->|Hx]; [auto|]. apply Hsame.
      intros (k' & -> & Hk')%list_elem_of_fmap. apply Hsh. destruct s as [hs kss]. simpl in *.
      apply list_elem_of_fmap in Hx as (k2 & He & Hk2).
      by destruct (parent_unique s0 hs kss k2 h ks k' Hnd0 Hss Hs Hk2 Hk').
    + right. inversion Hsub as [|? ? k Hk Hsk2]; subst; [done|].
      exists k. split; [apply elem_of_app; auto|done].
    + right. exists k. split; [apply elem_of_app; auto|done].
Qed.
End propagate.

Lemma capacity_read (s : Mem) h :
  is_Some (Memory.map s !! h) → valid (ivl (Memory.map s) h) →
  start (ivl (Memory.map s) h) ≤ end_ (ivl (Memory.map s) h) →
  reads (interval_children_capacity h) s
    (Interval.mk (start (ivl (Memory.map s) h)) (end_ (ivl (Memory.map s) h) - 1)).
Proof.
  intros Hh Hv Hne. unfold interval_children_capacity.
  eapply reads_bind; [by apply mem_get_interval|].
  apply reads_lift, Interval.decrease_end_ok; [done|]. unfold card. lia.
Qed.

Lemma bind_single (t : tree) : [t] ≫= nodes = nodes t.
Proof. simpl. apply app_nil_r. Qed.

Section propagate_loop.
Context (t : tree) (fuel : nat) (Hfuel : (length (nodes t) < fuel)%nat).

Definition indexes (s0 : tree) (c : RCtx) : Prop :=
  ∀ s, subtree s s0 → node_ok (ivl (data c)) s.

Lemma moves_represents P c c' :
  moves t P c c' → represents (data c) t → represents (data c') t.
Proof. intros Hm. apply reindexed_represents, (mv_data _ _ _ _ Hm). Qed.

(** Counting, in the vocabulary of [moves]. *)
Lemma count_moves (c : RCtx) s0 (Q : unit → RCtx → Prop) :
  represents (data c) t → sizes_ok t (subtree_sizes c) → subtree s0 t →
  (∀ c', moves t (λ _, False) c c' → store c' = store c → sizes_ok t (subtree_sizes c') →
     is_Some (subtree_sizes c' !! root s0) → Q tt c') →
  runs (count_subtrees fuel (root s0)) c Q.
Proof using Hfuel.
  destruct c as [st m dep sl]. simpl. intros Hr Hm Hs HQ.
  eapply runs_mono; [by apply (count_subtrees_ok t st dep sl s0 Hr Hs fuel Hfuel m)|].
  intros [] c' (m' & -> & Hm' & Hin). by apply HQ.
Qed.

(** The sizes of a counted subtree are all known. *)
Lemma sizes_known m s0 k :
  NoDup (nodes t) → sizes_ok t m → subtree s0 t → is_Some (m !! root s0) → subtree k s0 →
  subtree k t ∧ is_Some (m !! root k).
Proof.
  intros Hnd Hm Hs [z Hz] Hk. split; [by eapply subtree_trans|].
  destruct (Hm _ _ Hz) as (s' & Hs' & Hr & _ & Hall).
  assert (s' = s0) as -> by (eapply subtree_unique; eauto).
  apply Hall. eapply subtree_nodes; eauto with kaspa.
Qed.

Lemma propagate_interval_ok (c : RCtx) s0 :
  represents (data c) t → sizes_ok t (subtree_sizes c) → subtree s0 t →
  valid (ivl (data c) (root s0)) → tsize s0 ≤ card (ivl (data c) (root s0)) →
  runs (propagate_interval fuel (root s0)) c (λ _ c',
    moves t (λ x, x ∈ nodes s0 ∧ x ≠ root s0) c c' ∧ sizes_ok t (subtree_sizes c')
    ∧ indexes s0 c').
Proof using Hfuel.
  intros Hr Hm Hs0 Hv Hroom. pose proof (rep_nodup _ _ Hr) as Hnd. unfold propagate_interval.
  apply runs_bind, (count_moves c s0); auto. intros c1 Hm1 Hst1 Hsz1 Hin1.
  apply (runs_loop_ghost (λ n q c', ∃ ts, q = root <$> ts
    ∧ moves t (λ x, x ∈ nodes s0 ∧ x ≠ root s0) c c' ∧ subtree_sizes c' = subtree_sizes c1
    ∧ propagating s0 ts (ivl (data c')) ∧ n = length (ts ≫= nodes))
    _ _ _ (length (nodes s0))).
  2: { exists [s0]. rewrite bind_single. split_and!; try done.
       - by apply (moves_weaken _ _ _ _ _ Hm1).
       - rewrite Hst1. split.
         + apply Forall_singleton. unfold roomy. eauto using subtree_refl.
         + rewrite bind_single. by eapply NoDup_subtree.
         + intros s Hs. right. exists s0. split; [left|done]. }
  2: { pose proof (tsize_subtree _ _ Hs0). unfold tsize in *. lia. }
  clear Hst1. intros n q c2 (ts & -> & Hm2 & Hsz2 & Hp & ->).
  destruct ts as [|[h ks] ts]; simpl fmap; cbv iota.
  { apply runs_ret. split_and!; [done|by rewrite Hsz2|]. intros s Hs.
    destruct (pr_done _ _ _ Hp s Hs) as [?|(k & ?%elem_of_nil & _)]; done. }
  assert (represents (data c2) t) as Hr2 by eauto using moves_represents.
  pose proof (pr_roomy _ _ _ Hp) as [(Hs & Hvh & Hch) _]%Forall_cons_1. simpl in Hvh, Hch.
  assert (subtree (Node h ks) t) as Hst by eauto using subtree_trans.
  apply runs_bind, (runs_on_store _ _ (root <$> ks)); [by apply reads_try, (read_children _ t)|].
  destruct (decide (ks = [])) as [->|Hne].
  { simpl fmap. cbv iota. apply runs_ret. exists (length (ts ≫= nodes)).
    split; [|exact (Nat.lt_succ_diag_r _)]. exists ts. split_and!; auto. by eapply propagating_leaf. }
  destruct (root <$> ks) as [|y ys] eqn:Hks; [by destruct ks|]. rewrite <- Hks. clear y ys Hks.
  assert (∀ k, k ∈ ks → subtree k t ∧ is_Some (subtree_sizes c1 !! root k)) as Hknown.
  { intros k Hk. apply (sizes_known _ s0); auto. exact (kid_subtree _ _ _ _ Hs Hk). }
  apply runs_bind. eapply reads_runs.
  { eapply (sizes_of_ok t (store c2)); [done|exact Hsz1|done|exact Hknown]. }
  rewrite tsize_node in Hch. destruct (sum_sizes t (store c2) Hr2 ks h Hst) as [_ Hmax].
  rewrite tsize_node in Hmax.
  assert (∀ l, Forall (λ x, 0 ≤ x) (tsize <$> l)) as Hnn.
  { intros l. apply Forall_fmap, Forall_forall. intros k _. simpl. pose proof (tsize_pos k). lia. }
  assert (0 < zsum (tsize <$> ks)) as Hpos.
  { destruct ks as [|k ks]; [done|]. rewrite fmap_cons, zsum_cons.
    pose proof (tsize_pos k). pose proof (zsum_nonneg _ (Hnn ks)). lia. }
  pose proof Hvh as (? & ? & ?). unfold card in Hch.
  apply runs_bind. eapply runs_on_store.
  { apply reads_try, capacity_read; [|done|lia]. apply (rep_dom _ _ Hr2).
    eapply subtree_nodes; [exact Hst|]. left. }
  destruct (Interval.split_exponential_ok (E:=ReachabilityError)
    (Interval.mk (start (ivl (data c2) h)) (end_ (ivl (data c2) h) - 1)) (tsize <$> ks))
    as (l & Hl & Ht & Hcl); [unfold valid; simpl; lia|done|unfold card; simpl; lia|].
  apply runs_bind, (runs_lift _ _ _ _ Hl). simpl in Ht.
  pose proof (Forall2_length _ _ _ Hcl) as Hlen. rewrite length_fmap in Hlen.
  assert (fst <$> zip (root <$> ks) l = root <$> ks) as Hfst.
  { apply fst_zip. rewrite length_fmap. lia. }
  apply runs_bind, (set_intervals_runs t).
  { rewrite Hfst. eapply kid_roots_nodup, NoDup_subtree; eauto. }
  { rewrite Hfst. apply Forall_fmap, Forall_forall. intros k Hk. simpl. apply (rep_dom _ _ Hr2).
    destruct (Hknown k Hk) as [Hkt _]. eapply subtree_nodes; eauto with kaspa. }
  intros c3 Hm3 Hsz3 Hset. rewrite Hfst in Hm3. apply runs_ret.
  exists (length ((ts ++ ks) ≫= nodes)). split.
  - exists (ts ++ ks). split_and!; [by rewrite fmap_app| |congruence| |done].
    + eapply moves_trans; [exact Hm2|exact Hm3|]. intros x [?|(k & -> & Hk)%list_elem_of_fmap]; [done|].
      split; [|eapply kid_not_root; eauto using NoDup_subtree].
      eapply subtree_nodes; [exact Hs|]. apply nodes_node. eauto with kaspa.
    + eapply (propagating_node t); eauto.
      * intros x Hx. by apply (mv_ivl _ _ _ _ Hm3).
      * clear -Hset Hlen. induction ks as [|k ks IH] in l, Hset, Hlen |- *; destruct l; try done.
        simpl in Hset. apply Forall_cons_1 in Hset as [? ?]. constructor; auto.
  - rewrite bind_app, bind_cons, !length_app. simpl. lia.
Qed.

(** Without room the propagation fails an assertion, so it is safe to try. *)
Lemma propagate_interval_safe (c : RCtx) s0 :
  represents (data c) t → sizes_ok t (subtree_sizes c) → subtree s0 t →
  valid (ivl (data c) (root s0)) → (kids s0 = [] → 1 ≤ card (ivl (data c) (root s0))) →
  safe (propagate_interval fuel (root s0)) c (λ _ c',
    moves t (λ x, x ∈ nodes s0 ∧ x ≠ root s0) c c' ∧ sizes_ok t (subtree_sizes c')
    ∧ indexes s0 c').
Proof using Hfuel.
  intros Hr Hm Hs0 Hv Hleaf. pose proof (rep_nodup _ _ Hr) as Hnd.
  destruct (decide (tsize s0 ≤ card (ivl (data c) (root s0)))) as [|Hsmall].
  { by apply runs_safe, propagate_interval_ok. }
  unfold propagate_interval. apply safe_bind, runs_safe, (count_moves c s0); auto.
  intros c1 Hm1 Hst1 Hsz1 Hin1. destruct fuel as [|f] eqn:Hf; [lia|]. clear Hf.
  destruct s0 as [h ks]. simpl loop. simpl root in *. simpl kids in *.
  assert (ks ≠ []) as Hne.
  { intros ->. apply Hsmall. rewrite tsize_node. simpl. auto. }
  assert (represents (data c1) t) as Hr1 by (by rewrite Hst1).
  apply safe_bind, safe_bind, runs_safe.
  apply (runs_on_store _ _ (root <$> ks)); [by apply reads_try, (read_children _ t)|].
  destruct (root <$> ks) as [|y ys] eqn:Hks; [by destruct ks|]. rewrite <- Hks. clear y ys Hks.
  apply safe_bind, runs_safe. eapply reads_runs.
  { eapply (sizes_of_ok t (store c1)); [done|exact Hsz1|done|]. intros k Hk.
    apply (sizes_known _ (Node h ks)); auto. exact (kid_subtree _ _ _ _ (subtree_refl _) Hk). }
  destruct (sum_sizes t (store c1) Hr1 ks h Hs0) as [_ Hmax].
  rewrite tsize_node in Hmax, Hsmall. rewrite <- Hst1 in *.
  apply safe_bind. unfold on_store, try, map_err, interval_children_capacity.
  unfold mbind, M_bind, safe at 1. rewrite (read_interval (store c1) t Hr1 h)
    by (eapply subtree_nodes; [exact Hs0|left]).
  unfold lift. destruct (Interval.decrease_end _ 1) as [i| | |] eqn:Hi; simpl; [|done..|].
  2: { unfold Interval.decrease_end, sub64, mbind, outcome_bind in Hi.
       destruct (checked _ _) eqn:Hc; try done; [|by apply Interval.checked_no_fuel in Hc].
       by apply Interval.new_no_fuel in Hi. }
  unfold Interval.decrease_end, sub64, mbind, outcome_bind in Hi.
  destruct (checked _ _) eqn:Hc; try done. apply checked_inv in Hc as [-> ?].
  apply Interval.new_inv in Hi as [-> Hvi].
  unfold safe, mbind, M_bind, lift. rewrite Interval.split_exponential_panic; [done|done| |lia|].
  - apply Forall_fmap, Forall_forall. intros k _. simpl. pose proof (tsize_pos k). lia.
  - right. unfold card in *. simpl. lia.
Qed.
End propagate_loop.
