(* ===== verification/ReachReindex.v ===== *)
(** * Moving intervals of siblings

    The parts of [reindex.rs] that the reclaim operations share: the operations on
    one interval with the propagation that follows, the loop over the siblings of
    a block, and what they do to the layout of the children of a block. *)

From S2P Require Import Prelude Hash Interval ReachStore Reachability ReachTree ReachQuery ReachDag ReachCount ReachPropagate.
Import Interval (Interval, start, end_, valid, card, contains, strictly_contains).

(** ** Frames *)

Lemma indexes_ext k (c c' : RCtx) :
  (∀ x, x ∈ nodes k → ivl (data c') x = ivl (data c) x) → indexes k c → indexes k c'.
Proof.
  intros HI Hi s Hs. eapply node_ok_ext; [|by apply Hi]. intros x Hx.
  apply HI. eapply subtree_nodes; [exact Hs|]. destruct s as [h ks].
  simpl in Hx. apply nodes_node.
  destruct Hx as [->|(k' & -> & Hk)%list_elem_of_fmap]; eauto with kaspa.
Qed.

Lemma indexes_frame t P k c c' :
  moves t P c c' → (∀ x, x ∈ nodes k → ¬ P x) → indexes k c → indexes k c'.
Proof. intros Hm HP. apply indexes_ext. intros x Hx. apply (mv_ivl _ _ _ _ Hm). auto. Qed.

(** The only way into a subtree from outside is through its root. *)
Lemma outside_kids t s0 s x :
  NoDup (nodes t) → subtree s0 t → subtree s t → root s ∉ nodes s0 →
  x ∈ root <$> kids s → x ∈ nodes s0 → x = root s0.
Proof.
  intros Hnd H0 Hs Hout (k & -> & Hk)%list_elem_of_fmap Hin.
  destruct (decide (root k = root s0)) as [|Hne]; [done|]. exfalso. apply Hout.
  destruct (tree_parent s0 (root k) Hin Hne) as (p & ks & k' & Hp & Hk' & He).
  destruct s as [h l]. simpl in *.
  destruct (parent_unique t p ks k' h l k) as [-> _]; eauto using subtree_trans.
  eapply subtree_nodes; [exact Hp|left].
Qed.

(** Blocks outside a subtree whose inner intervals change are not affected. *)
Lemma node_ok_outside t s0 s c c' :
  NoDup (nodes t) → moves t (λ x, x ∈ nodes s0 ∧ x ≠ root s0) c c' →
  subtree s0 t → subtree s t → root s ∉ nodes s0 →
  node_ok (ivl (data c)) s → node_ok (ivl (data c')) s.
Proof.
  intros Hnd Hm H0 Hs Hout. apply node_ok_ext. intros x Hx. apply (mv_ivl _ _ _ _ Hm).
  intros [Hin Hne]. destruct Hx as [->|Hx]; [done|].
  apply Hne. by eapply outside_kids.
Qed.

Lemma subtree_or_outside t s0 s :
  NoDup (nodes t) → subtree s0 t → subtree s t → root s ∈ nodes s0 → subtree s s0.
Proof.
  intros Hnd H0 Hs Hin. destruct (tree_node _ _ Hin) as [ks Hks].
  assert (s = Node (root s) ks) as ->; [|done].
  eapply subtree_unique; eauto using subtree_trans.
Qed.

(** ** The child towards a descendant *)

Lemma next_chain_ok (s : Mem) t h ks k b :
  represents (Memory.map s) t → subtree (Node h ks) t →
  StronglySorted before (ivl (Memory.map s) ∘ root <$> ks) → k ∈ ks → b ∈ nodes t →
  start (ivl (Memory.map s) (root k)) ≤ start (ivl (Memory.map s) b) →
  start (ivl (Memory.map s) b) ≤ end_ (ivl (Memory.map s) b) →
  end_ (ivl (Memory.map s) b) ≤ end_ (ivl (Memory.map s) (root k)) →
  reads (get_next_chain_ancestor_unchecked b h) s (root k).
Proof.
  intros Hr Hs Hsort Hk Hb H1 H2 H3.
  assert (ordered s (root <$> ks)) as Ho.
  { split; [|by rewrite <- list_fmap_compose]. apply Forall_fmap, Forall_forall.
    intros k' Hk'. apply (rep_dom _ _ Hr). eapply subtree_nodes; [by eapply kid_subtree|].
    auto with kaspa. }
  destruct (search_descendant_gen s (root <$> ks) b Ho) as (r & Hrd & HQ);
    [by apply (rep_dom _ _ Hr)|done|].
  assert (r = Found (root k) match r with Found _ i => i | NotFound i => i end) as Hfound.
  { destruct r as [i|h' i].
    - destruct HQ as (_ & Hno & _). exfalso. apply (Bool.eq_true_false_abs _
        (proj2 (andb_true_iff _ _) (conj (proj2 (Z.leb_le _ _) H1) (proj2 (Z.leb_le _ _) H3)))).
      apply Hno, list_elem_of_fmap. eauto.
    - f_equal. destruct HQ as [Hi Hc]. apply list_elem_of_lookup in Hk as [j Hj].
      assert ((root <$> ks) !! j = Some (root k)) as Hj' by by rewrite list_lookup_fmap, Hj.
      destruct (Nat.lt_total i j) as [Hlt|[->|Hlt]]; [|congruence|].
      + destruct (ordered_before _ _ _ _ _ _ Ho Hi Hj' Hlt).
        destruct Hc as [Hc|Hc]; [unfold contains in Hc; zbool|]; lia.
      + destruct (ordered_before _ _ _ _ _ _ Ho Hj' Hi Hlt).
        destruct Hc as [Hc|Hc]; [unfold contains in Hc; zbool|]; lia. }
  unfold get_next_chain_ancestor_unchecked.
  eapply reads_bind; [by apply reads_try, (read_children s t)|].
  eapply reads_bind; [exact Hrd|]. rewrite Hfound. apply reads_ret.
Qed.

(** ** Interval operations *)

Definition shifts (op : Interval → Z → outcome ReachabilityError Interval) (ds de : Z → Z) : Prop :=
  ∀ i o j, op i o = Ok j → start j = start i + ds o ∧ end_ j = end_ i + de o ∧ valid j.

Ltac interval_op :=
  repeat match goal with
  | H : (_ ≫= _) = Ok _ |- _ => unfold mbind, outcome_bind in H
  | H : match checked ?m ?z with _ => _ end = Ok _ |- _ =>
      let Hc := fresh in destruct (checked (E:=ReachabilityError) m z) eqn:Hc; try done;
      apply checked_inv in Hc as [-> ?]
  | H : Interval.new _ _ = Ok _ |- _ => apply Interval.new_inv in H as [-> ?]
  end.

Lemma increase_shifts : shifts Interval.increase (λ o, o) (λ o, o).
Proof. intros i o j. unfold Interval.increase, add64. intros Hj. interval_op. simpl. auto. Qed.
Lemma decrease_shifts : shifts Interval.decrease Z.opp Z.opp.
Proof. intros i o j. unfold Interval.decrease, sub64. intros Hj. interval_op. simpl. auto. Qed.
Lemma increase_start_shifts : shifts Interval.increase_start (λ o, o) (λ _, 0).
Proof.
  intros i o j. unfold Interval.increase_start, add64. intros Hj. interval_op. simpl.
  split_and!; [done|lia|done].
Qed.
Lemma decrease_start_shifts : shifts Interval.decrease_start Z.opp (λ _, 0).
Proof.
  intros i o j. unfold Interval.decrease_start, sub64. intros Hj. interval_op. simpl.
  split_and!; [done|lia|done].
Qed.
Lemma increase_end_shifts : shifts Interval.increase_end (λ _, 0) (λ o, o).
Proof.
  intros i o j. unfold Interval.increase_end, add64. intros Hj. interval_op. simpl.
  split_and!; [lia|done|done].
Qed.
Lemma decrease_end_shifts : shifts Interval.decrease_end (λ _, 0) Z.opp.
Proof.
  intros i o j. unfold Interval.decrease_end, sub64. intros Hj. interval_op. simpl.
  split_and!; [lia|done|done].
Qed.

Lemma op_no_fuel (op : Interval → Z → outcome ReachabilityError Interval) :
  op ∈ [Interval.increase; Interval.decrease; Interval.increase_start;
        Interval.decrease_start; Interval.increase_end; Interval.decrease_end] →
  ∀ i o, op i o ≠ Fuel.
Proof.
  rewrite !elem_of_cons, elem_of_nil.
  intros [->|[->|[->|[->|[->|[->|[]]]]]]] i o;
    unfold Interval.increase, Interval.decrease, Interval.increase_start,
      Interval.decrease_start, Interval.increase_end, Interval.decrease_end,
      add64, sub64, mbind, outcome_bind;
    repeat (match goal with |- context [checked ?m ?z] =>
      let Hc := fresh in destruct (checked (E:=ReachabilityError) m z) eqn:Hc;
        try done; try by apply Interval.checked_no_fuel in Hc end);
    apply Interval.new_no_fuel.
Qed.

(** ** One block *)

Section moving.
Context (t : tree) (fuel : nat) (Hfuel : (length (nodes t) < fuel)%nat).
Abbreviation I c := (ivl (data c)).
Abbreviation Op := (Interval → Z → outcome ReachabilityError Interval).

(** The state of a reindex operation over [t]. *)
Definition ready (c : RCtx) : Prop := represents (data c) t ∧ sizes_ok t (subtree_sizes c).

Lemma moves_ready P c c' : moves t P c c' → ready c → ready c'.
Proof. intros Hm [Hr Hs]. split; [by eapply moves_represents|by apply (mv_sizes _ _ _ _ Hm)]. Qed.

Lemma apply_op_safe (op : Op) ds de (c : RCtx) h off (Q : unit → RCtx → Prop) :
  shifts op ds de → op ∈ [Interval.increase; Interval.decrease; Interval.increase_start;
    Interval.decrease_start; Interval.increase_end; Interval.decrease_end] →
  ready c → h ∈ nodes t →
  (∀ c', moves t (.= h) c c' → subtree_sizes c' = subtree_sizes c →
     start (I c' h) = start (I c h) + ds off → end_ (I c' h) = end_ (I c h) + de off →
     valid (I c' h) → Q tt c') →
  safe (apply_interval_op h off op) c Q.
Proof.
  intros Hsh Hop [Hr Hsz] Hh HQ. unfold apply_interval_op.
  apply safe_bind, runs_safe. eapply runs_on_store; [by apply reads_try, (read_interval _ t)|].
  apply safe_bind, safe_lift; [by apply op_no_fuel|]. intros i Hi.
  apply runs_safe, (set_interval_runs t); [by apply (rep_dom _ _ Hr)|].
  intros c' Hm Hs He. destruct (Hsh _ _ _ Hi) as (? & ? & ?). apply HQ; by rewrite ?He.
Qed.

Lemma apply_op_propagate_safe (op : Op) ds de (c : RCtx) k off (Q : unit → RCtx → Prop) :
  shifts op ds de → op ∈ [Interval.increase; Interval.decrease; Interval.increase_start;
    Interval.decrease_start; Interval.increase_end; Interval.decrease_end] →
  ready c → subtree k t →
  (kids k = [] → 1 ≤ card (I c (root k)) + de off - ds off) →
  (∀ c', moves t (λ x, x ∈ nodes k) c c' → ready c' →
     start (I c' (root k)) = start (I c (root k)) + ds off →
     end_ (I c' (root k)) = end_ (I c (root k)) + de off →
     valid (I c' (root k)) → indexes k c' → Q tt c') →
  safe (apply_interval_op_and_propagate fuel (root k) off op) c Q.
Proof using Hfuel.
  intros Hsh Hop Hrd Hk Hleaf HQ. unfold apply_interval_op_and_propagate.
  pose proof Hrd as [Hr Hsz].
  assert (root k ∈ nodes t) as Hkt by (eapply subtree_nodes; eauto with kaspa).
  apply safe_bind, runs_safe. eapply runs_on_store; [by apply reads_try, (read_interval _ t)|].
  apply safe_bind, safe_lift; [by apply op_no_fuel|]. intros i Hi.
  apply safe_bind, runs_safe, (set_interval_runs t); [by apply (rep_dom _ _ Hr)|].
  intros c1 Hm1 Hs1 He1. destruct (Hsh _ _ _ Hi) as (Hst & Hen & Hv).
  pose proof (moves_ready _ _ _ Hm1 Hrd) as [Hr1 Hsz1].
  eapply safe_mono; [apply (propagate_interval_safe t fuel Hfuel c1 k); auto; rewrite He1|].
  - done.
  - intros Hkids. specialize (Hleaf Hkids). unfold card in *. lia.
  - intros [] c2 (Hm2 & Hsz2 & Hix).
    assert (I c2 (root k) = i) as Hi2.
    { rewrite (mv_ivl _ _ _ _ Hm2), He1; [done|]. by intros [_ ?]. }
    apply HQ; rewrite ?Hi2; auto.
    + eapply moves_trans; [exact Hm1|exact Hm2|]. intros x [Hx|[? _]]; [|done].
      subst x. auto with kaspa.
    + split; [by eapply moves_represents|done].
Qed.

(** ** The siblings *)

(** After the loop over the siblings [ls], each of them is shifted and indexed. *)
Definition shifted (d : Z) (ls : list tree) (c c' : RCtx) : Prop :=
  moves t (λ x, ∃ k, k ∈ ls ∧ x ∈ nodes k) c c' ∧ ready c'
  ∧ Forall (λ k, start (I c' (root k)) = start (I c (root k)) + d
                 ∧ end_ (I c' (root k)) = end_ (I c (root k)) + d ∧ indexes k c') ls.

Lemma offset_loop_safe (A : Hash) (op_alloc op : Op) ds (ls : list tree) rest c off Q :
  shifts op ds ds → op ∈ [Interval.increase; Interval.decrease; Interval.increase_start;
    Interval.decrease_start; Interval.increase_end; Interval.decrease_end] →
  ready c → (A ∉ root <$> ls) → Forall (λ k, subtree k t ∧ 1 ≤ card (I c (root k))) ls →
  NoDup (ls ≫= nodes) →
  (∀ c', shifted (ds off) ls c c' →
     safe (offset_siblings_loop fuel A off op_alloc op rest) c' Q) →
  safe (offset_siblings_loop fuel A off op_alloc op ((root <$> ls) ++ rest)) c Q.
Proof using Hfuel.
  intros Hsh Hop. revert c. induction ls as [|k ls IH]; intros c Hrd HA Hls Hnd HQ; simpl.
  { apply HQ. split_and!; [apply moves_refl|done|constructor]. }
  rewrite fmap_cons in HA. rewrite bind_cons in Hnd.
  apply Forall_cons_1 in Hls as [[Hk Hkc] Hls]. apply NoDup_app in Hnd as (_ & Hdis & Hnd).
  assert (∀ k', k' ∈ ls → ∀ x, x ∈ nodes k' → x ∉ nodes k) as Hapart.
  { intros k' Hk' x Hx Hx'. apply (Hdis x Hx'), list_elem_of_bind. eauto. }
  rewrite bool_decide_eq_false_2 by (intros <-; apply HA; left).
  apply safe_bind, (apply_op_propagate_safe op ds ds); auto; [intros _; lia|].
  intros c1 Hm1 Hrd1 Hst1 Hen1 Hv1 Hix1. apply IH; auto.
  - intros ?. apply HA. by right.
  - apply Forall_forall. intros k' Hk'. rewrite Forall_forall in Hls.
    rewrite (mv_ivl _ _ _ _ Hm1) by (eapply Hapart; eauto with kaspa). auto.
  - intros c2 (Hm2 & Hrd2 & Hl2). apply HQ.
    assert (∀ x, x ∈ nodes k → ¬ (∃ k', k' ∈ ls ∧ x ∈ nodes k')) as Hk2.
    { intros x Hx (k' & Hk' & Hx'). by eapply Hapart. }
    split_and!; [|done|].
    + eapply moves_trans; [exact Hm1|exact Hm2|]. intros x [?|(k' & ? & ?)]; [exists k|exists k'];
        rewrite elem_of_cons; auto.
    + constructor.
      * rewrite (mv_ivl _ _ _ _ Hm2) by (apply Hk2; auto with kaspa).
        split_and!; [done..|]. by eapply indexes_frame.
      * rewrite Forall_forall in Hl2 |- *. intros k' Hk'. destruct (Hl2 k' Hk') as (-> & -> & ?).
        rewrite (mv_ivl _ _ _ _ Hm1); [done|]. eapply Hapart; eauto with kaspa.
Qed.
End moving.
