(* ===== verification/ReachReclaim.v ===== *)
(** * Reclaiming interval space

    [reclaim_interval_before] and [reclaim_interval_after] of [reindex.rs] make
    room for an allocation block under the common ancestor of the block and the
    reindex root, by walking the chain to the reindex root and moving the siblings
    on one side of it.  The two are handled at once: what differs between them is
    the class [SideOk] below. *)

From S2P Require Import Prelude Hash Interval ReachStore Reachability ReachTree ReachQuery ReachDag ReachCount ReachPropagate ReachReindex.
Import Interval (Interval, start, end_, valid, card, contains, strictly_contains).

(** ** Layouts

    [layout lo l hi]: as [spread], but intervals may be empty. *)
Fixpoint layout (lo : Z) (l : list Interval) (hi : Z) : Prop :=
  match l with
  | [] => True
  | i :: l' => lo ≤ start i ∧ start i ≤ end_ i + 1 ∧ end_ i ≤ hi ∧ layout (end_ i + 1) l' hi
  end.

Definition nonempty (i : Interval) : Prop := start i ≤ end_ i.

Lemma spread_layout lo l hi : spread lo l hi ↔ layout lo l hi ∧ Forall nonempty l.
Proof.
  revert lo. induction l as [|i l IH]; intros lo; simpl; [by split; auto|].
  rewrite Forall_cons, IH. unfold nonempty at 2. split; intuition lia.
Qed.

Lemma layout_mono lo lo' l hi hi' : lo' ≤ lo → hi ≤ hi' → layout lo l hi → layout lo' l hi'.
Proof.
  revert lo lo'. induction l as [|i l IH]; intros lo lo' ??; simpl; [done|].
  intros (? & ? & ? & ?). split_and!; [lia..|]. eapply IH; eauto. lia.
Qed.

Lemma layout_app lo l1 l2 m hi :
  layout lo l1 m → layout (m + 1) l2 hi → m ≤ hi → lo ≤ m + 1 → layout lo (l1 ++ l2) hi.
Proof.
  revert lo. induction l1 as [|i l1 IH]; intros lo; simpl.
  - intros _ ???. eapply layout_mono; [| |done]; lia.
  - intros (? & ? & ? & ?) ???. split_and!; [lia..|]. apply IH; auto. lia.
Qed.

Lemma layout_app_inv lo l1 l2 hi :
  layout lo (l1 ++ l2) hi → ∃ m, lo ≤ m + 1 ∧ layout lo l1 m ∧ layout (m + 1) l2 hi
    ∧ (l1 = [] → m = lo - 1).
Proof.
  revert lo. induction l1 as [|i l1 IH]; intros lo; simpl.
  - intros Hl. exists (lo - 1). split_and!; [lia|done| |done].
    by replace (lo - 1 + 1) with lo by lia.
  - intros (? & ? & ? & (m & ? & ? & ? & Hm)%IH). exists m. split_and!; try done; try lia.
Qed.

Definition shift (d : Z) (i : Interval) : Interval := Interval.mk (start i + d) (end_ i + d).

Lemma layout_shift lo l hi d : layout lo l hi → layout (lo + d) (shift d <$> l) (hi + d).
Proof.
  revert lo. induction l as [|i l IH]; intros lo; simpl; [done|].
  intros (? & ? & ? & ?%IH). split_and!; [lia..|].
  eapply layout_mono; [| |done]; lia.
Qed.

Lemma interval_eq (i j : Interval) : start i = start j → end_ i = end_ j → i = j.
Proof. destruct i, j; simpl. congruence. Qed.

(** The four moves: one interval is shrunk by [off], its siblings on the other
    side of the gap follow, up to the interval that grows, if any. *)
Lemma layout_before lo l x r hi off :
  layout lo (l ++ x :: r) hi → 0 ≤ off → start x + off ≤ end_ x + 1 →
  layout (lo + off) ((shift off <$> l) ++ Interval.mk (start x + off) (end_ x) :: r) hi.
Proof.
  intros (m & ? & Hl & (? & ? & ? & Hr) & _)%layout_app_inv ??.
  apply (layout_app _ _ _ (m + off)); [by apply layout_shift| |lia..].
  simpl. split_and!; [lia..|done].
Qed.

Lemma layout_before_alloc lo l1 a l2 x r hi off :
  layout lo (l1 ++ a :: l2 ++ x :: r) hi → 0 ≤ off → start x + off ≤ end_ x + 1 →
  layout lo (l1 ++ Interval.mk (start a) (end_ a + off)
    :: (shift off <$> l2) ++ Interval.mk (start x + off) (end_ x) :: r) hi.
Proof.
  intros (m & ? & Hl & (? & ? & ? & Hr) & _)%layout_app_inv ??.
  pose proof Hr as Hr'. apply (layout_before _ _ _ _ _ off) in Hr'; [|done..].
  assert (end_ a + off ≤ hi).
  { apply layout_app_inv in Hr as (m' & ? & _ & (? & ? & ? & _) & _). lia. }
  apply (layout_app _ _ _ m); [done| |lia..]. simpl. split_and!; [lia..|].
  eapply layout_mono; [| |exact Hr']; lia.
Qed.

Lemma layout_after lo l x r hi off :
  layout lo (l ++ x :: r) hi → 0 ≤ off → start x ≤ end_ x - off + 1 →
  layout lo (l ++ Interval.mk (start x) (end_ x - off) :: (shift (- off) <$> r)) (hi - off).
Proof.
  intros (m & ? & Hl & (? & ? & ? & Hr) & _)%layout_app_inv ??.
  apply (layout_app _ _ _ m); [done| |lia..]. simpl. split_and!; [lia..|].
  apply (layout_shift _ _ _ (- off)) in Hr. eapply layout_mono; [| |exact Hr]; lia.
Qed.

Lemma layout_after_alloc lo l x r1 a r2 hi off :
  layout lo (l ++ x :: r1 ++ a :: r2) hi → 0 ≤ off → start x ≤ end_ x - off + 1 →
  layout lo (l ++ Interval.mk (start x) (end_ x - off)
    :: (shift (- off) <$> r1) ++ Interval.mk (start a - off) (end_ a) :: r2) hi.
Proof.
  intros (m & ? & Hl & (? & ? & ? & Hr) & _)%layout_app_inv ??.
  apply layout_app_inv in Hr as (m' & ? & Hr1 & (? & ? & ? & Hr2) & _).
  apply (layout_app _ _ _ m); [done| |lia..]. simpl. split_and!; [lia..|].
  apply (layout_shift _ _ _ (- off)) in Hr1.
  apply (layout_app _ _ _ (m' - off)); [|simpl; split_and!; [lia..|done]|lia..].
  eapply layout_mono; [| |exact Hr1]; lia.
Qed.

Lemma nonempty_shift d l : Forall nonempty l → Forall nonempty (shift d <$> l).
Proof.
  intros Hl. apply Forall_fmap. eapply Forall_impl; [exact Hl|].
  unfold nonempty; simpl. lia.
Qed.

(** ** The two sides *)

(** How a side moves intervals: the siblings in the order in which they are
    visited, the siblings on the other side, the free space of a block on that side, the effect of the shrinking
    operation and of the growing of the allocation block, the shift of siblings. *)
Record Geometry : Type := mkGeometry {
  g_near : list tree → list tree → list tree;
  g_far : list tree → list tree → list tree;
  g_slack : (Hash → Interval) → tree → Z;
  g_shrink : Z → Interval → Interval;
  g_grow : Z → Interval → Interval;
  g_dir : Z → Z;
}.

Definition geom_before : Geometry := {|
  g_near l r := reverse l;
  g_far l r := r;
  g_slack I s := match head (kids s) with
    | Some k => start (I (root k)) - start (I (root s))
    | None => end_ (I (root s)) - start (I (root s)) end;
  g_shrink off i := Interval.mk (start i + off) (end_ i);
  g_grow off i := Interval.mk (start i) (end_ i + off);
  g_dir off := off |}.

Definition geom_after : Geometry := {|
  g_near l r := r;
  g_far l r := l;
  g_slack I s := match last (kids s) with
    | Some k => end_ (I (root s)) - 1 - end_ (I (root k))
    | None => end_ (I (root s)) - start (I (root s)) end;
  g_shrink off i := Interval.mk (start i) (end_ i - off);
  g_grow off i := Interval.mk (start i - off) (end_ i);
  g_dir off := - off |}.

(** The effect of a level on the intervals: [x] is shrunk, the siblings [near] it
    are shifted, [a], if any, has grown, the siblings [far] stay. *)
Record level (g : Geometry) (I I' : Hash → Interval) (x : tree) (off : Z)
    (near : list tree) (a : option tree) (far : list tree) : Prop := {
  lv_x : I' (root x) = g_shrink g off (I (root x));
  lv_near k : k ∈ near → I' (root k) = shift (g_dir g off) (I (root k));
  lv_grow k : a = Some k → I' (root k) = g_grow g off (I (root k));
  lv_far k : k ∈ far → I' (root k) = I (root k);
}.

Lemma fmap_same (I I' : Hash → Interval) (ks : list tree) :
  (∀ k, k ∈ ks → I' (root k) = I (root k)) → I' ∘ root <$> ks = I ∘ root <$> ks.
Proof. intros HI. apply list_fmap_ext. intros i k Hk%list_elem_of_lookup_2. by apply HI. Qed.

Lemma fmap_shift (I I' : Hash → Interval) (ks : list tree) d :
  (∀ k, k ∈ ks → I' (root k) = shift d (I (root k))) →
  I' ∘ root <$> ks = shift d <$> (I ∘ root <$> ks).
Proof.
  intros HI. rewrite <- list_fmap_compose. apply list_fmap_ext.
  intros i k Hk%list_elem_of_lookup_2. by apply HI.
Qed.

Lemma nonempty_fmap (I : Hash → Interval) ks :
  Forall nonempty (I ∘ root <$> ks) ↔ ∀ k, k ∈ ks → nonempty (I (root k)).
Proof. by rewrite Forall_fmap, Forall_forall. Qed.

(** What a level does to the layout of the children. *)
Class SideLayout (g : Geometry) : Prop := {
  sl_split l r k : k ∈ l ++ r ↔ k ∈ g_near g l r ∨ k ∈ g_far g l r;
  sl_disj l r k : NoDup (l ++ r) → k ∈ g_near g l r → k ∉ g_far g l r;
  sl_nodup l r : NoDup l → NoDup r → NoDup (g_near g l r);
  sl_ext I I' s : (∀ h, h = root s ∨ h ∈ root <$> kids s → I' h = I h) →
    g_slack g I' s = g_slack g I s;
  sl_none I I' q l x r off :
    layout (start (I q)) (I ∘ root <$> (l ++ x :: r)) (end_ (I q) - 1) →
    0 ≤ off → nonempty (I' (root x)) → I' q = I q →
    level g I I' x off (g_near g l r) None (g_far g l r) →
    layout (start (I' q)) (I' ∘ root <$> (l ++ x :: r)) (end_ (I' q) - 1)
    ∧ g_slack g I' (Node q (l ++ x :: r)) = g_slack g I (Node q (l ++ x :: r)) + off;
  sl_alloc I I' l x r off lo hi n1 a n2 :
    layout lo (I ∘ root <$> (l ++ x :: r)) hi → 0 ≤ off → nonempty (I' (root x)) →
    g_near g l r = n1 ++ a :: n2 →
    level g I I' x off n1 (Some a) (n2 ++ g_far g l r) →
    layout lo (I' ∘ root <$> (l ++ x :: r)) hi;
}.

#[global] Instance side_layout_before : SideLayout geom_before.
Proof.
  split.
  - intros l r k. simpl. by rewrite elem_of_app, elem_of_reverse.
  - intros l r k (_ & Hd & _)%NoDup_app Hk. simpl in *. apply Hd. by rewrite <- elem_of_reverse.
  - intros l r Hl _. simpl. by rewrite reverse_Permutation.
  - intros I I' [h ks] HI. simpl in *. rewrite (HI h) by auto.
    destruct ks as [|k ks]; simpl; [done|]. rewrite (HI (root k)); [done|right; left].
  - intros I I' q l x r off Hl Hoff Hx Hq [Lx Ln _ Lf]. simpl in *. rewrite Hq.
    rewrite !fmap_app, !fmap_cons in *.
    rewrite (fmap_same I I' r) by auto.
    rewrite (fmap_shift I I' l off) by (intros k Hk; apply Ln; by rewrite elem_of_reverse).
    simpl. rewrite Lx in *. unfold nonempty in Hx. simpl in Hx.
    pose proof (layout_before _ _ _ _ _ off Hl Hoff ltac:(simpl; lia)) as Hl'. split.
    + eapply layout_mono; [| |exact Hl']; lia.
    + destruct l as [|k l]; simpl; [rewrite Lx; simpl; lia|].
      rewrite (Ln k) by (rewrite elem_of_reverse; left). simpl. lia.
  - intros I I' l x r off lo hi n1 a n2 Hl Hoff Hx Hn [Lx Ln Lg Lf]. simpl in *.
    apply (f_equal reverse) in Hn. rewrite reverse_involutive, reverse_app, reverse_cons in Hn.
    subst l. rewrite <- !app_assoc in *. simpl in *.
    rewrite !fmap_app, !fmap_cons, !fmap_app, !fmap_cons in *.
    rewrite (fmap_same I I' r) by (intros; apply Lf, elem_of_app; auto).
    rewrite (fmap_same I I' (reverse n2))
      by (intros k Hk; apply Lf, elem_of_app; rewrite elem_of_reverse in Hk; auto).
    rewrite (fmap_shift I I' (reverse n1) off) by (intros k Hk; apply Ln; by rewrite <- elem_of_reverse).
    simpl. rewrite (Lg a eq_refl). rewrite Lx in *. unfold nonempty in Hx. simpl in Hx.
    apply layout_before_alloc; [done|done|simpl; lia].
Qed.

#[global] Instance side_layout_after : SideLayout geom_after.
Proof.
  split.
  - intros l r k. simpl. rewrite elem_of_app. tauto.
  - intros l r k (_ & Hd & _)%NoDup_app Hk Hk'. by apply (Hd k).
  - done.
  - intros I I' [h ks] HI. simpl in *. rewrite (HI h) by auto.
    destruct (last ks) as [k|] eqn:Hk; [|done]. rewrite (HI (root k)); [done|].
    right. apply list_elem_of_fmap. exists k. eauto using last_Some_elem_of.
  - intros I I' q l x r off Hl Hoff Hx Hq [Lx Ln _ Lf]. simpl in *. rewrite Hq.
    rewrite !fmap_app, !fmap_cons in *.
    rewrite (fmap_same I I' l) by auto. rewrite (fmap_shift I I' r (- off)) by auto.
    simpl. rewrite Lx in *. unfold nonempty in Hx. simpl in Hx.
    pose proof (layout_after _ _ _ _ _ off Hl Hoff ltac:(simpl; lia)) as Hl'. split.
    + eapply layout_mono; [| |exact Hl']; lia.
    + rewrite !last_app. rewrite last_cons. destruct (last r) as [k|] eqn:Hk; simpl.
      * rewrite (Ln k) by (by apply last_Some_elem_of). simpl. lia.
      * rewrite Lx. simpl. lia.
  - intros I I' l x r off lo hi n1 a n2 Hl Hoff Hx Hn [Lx Ln Lg Lf]. simpl in *. subst r.
    rewrite !fmap_app, !fmap_cons, !fmap_app, !fmap_cons in *.
    rewrite (fmap_same I I' l) by (intros; apply Lf, elem_of_app; auto).
    rewrite (fmap_same I I' n2) by (intros; apply Lf, elem_of_app; auto).
    rewrite (fmap_shift I I' n1 (- off)) by auto.
    simpl. rewrite (Lg a eq_refl). rewrite Lx in *. unfold nonempty in Hx. simpl in Hx.
    apply layout_after_alloc; [done|done|simpl; lia].
Qed.

(** ** The operations of a side *)

Lemma split_children_ok (l : list tree) x (r : list tree) :
  NoDup (root <$> (l ++ x :: r)) →
  split_children (root <$> (l ++ x :: r)) (root x) = Ok (root <$> l, root <$> r).
Proof.
  intros Hnd. unfold split_children. rewrite fmap_app, fmap_cons in *.
  assert (list_find (root x =.) ((root <$> l) ++ root x :: (root <$> r))
    = Some (length (root <$> l), root x)) as ->.
  { apply list_find_Some. split_and!; [by apply list_lookup_middle|done|].
    intros j y Hy Hj <-. apply NoDup_app in Hnd as (_ & Hd & _).
    rewrite lookup_app_l in Hy by done. apply list_elem_of_lookup_2 in Hy.
    apply (Hd _ Hy). left. }
  by rewrite take_app_length, <- (Nat.add_1_r (length _)), <- drop_drop, drop_app_length.
Qed.

Section sides.
Context (t : tree) (fuel : nat) (Hfuel : (length (nodes t) < fuel)%nat).
Abbreviation I c := (ivl (data c)).

Class SideOps (side : Side) (g : Geometry) : Prop := {
  so_remaining (c : RCtx) s :
    ready t c → subtree s t → node_ok (I c) s →
    0 ≤ g_slack g (I c) s ∧ ∃ r, reads (remaining side (root s)) (store c) r
      ∧ Interval.size (E:=ReachabilityError) r = Ok (g_slack g (I c) s);
  so_shrink_op : shrink side ∈ [Interval.increase; Interval.decrease; Interval.increase_start;
    Interval.decrease_start; Interval.increase_end; Interval.decrease_end];
  so_shrink : ∃ ds de, shifts (shrink side) ds de
    ∧ ∀ i off, Interval.mk (start i + ds off) (end_ i + de off) = g_shrink g off i;
  so_shrink_node J J' s off :
    node_ok J s → 0 ≤ off ≤ g_slack g J s → J' (root s) = g_shrink g off (J (root s)) →
    valid (J' (root s)) → (∀ k, k ∈ kids s → J' (root k) = J (root k)) →
    node_ok J' s;
  so_none A (c : RCtx) q l x r off Q :
    ready t c → subtree (Node q (l ++ x :: r)) t → (A ∉ root <$> g_near g l r) →
    Forall (λ k, 1 ≤ card (I c (root k))) (g_near g l r) →
    (∀ c', shifted t (g_dir g off) (g_near g l r) c c' → Q tt c') →
    safe (offset_siblings side A (root x) off) c Q;
  so_alloc sA (c : RCtx) q l x r off n1 n2 Q :
    ready t c → subtree (Node q (l ++ x :: r)) t → g_near g l r = n1 ++ sA :: n2 →
    Forall (λ k, 1 ≤ card (I c (root k))) n1 →
    (kids sA = [] → 1 ≤ card (I c (root sA)) + off) →
    (∀ c1 c2, shifted t (g_dir g off) n1 c c1 → moves t (λ x, x ∈ nodes sA) c1 c2 → ready t c2 →
       I c2 (root sA) = g_grow g off (I c (root sA)) → indexes sA c2 → Q tt c2) →
    safe (offset_siblings side (root sA) (root x) off) c Q;
}.

(** Siblings and the reads that [offset_siblings] starts with. *)
Section reads.
Context (c : RCtx) (q : Hash) (l : list tree) (x : tree) (r : list tree).
Context (Hrd : ready t c) (Hs : subtree (Node q (l ++ x :: r)) t).

Lemma siblings_nodup : NoDup ((l ++ x :: r) ≫= nodes).
Proof using Hrd Hs.
  destruct Hrd as [Hr _]. eapply NoDup_subtree in Hs; [|apply (rep_nodup _ _ Hr)].
  by apply NoDup_nodes_inv in Hs as (_ & _ & ?).
Qed.

Lemma siblings_subtree k : k ∈ l ++ x :: r → subtree k t.
Proof using Hs. intros Hk. exact (kid_subtree _ _ _ _ Hs Hk). Qed.

Lemma offset_reads {A} (k : list Hash * list Hash → M RCtx ReachabilityError A) Q :
  safe (k (root <$> l, root <$> r)) c Q →
  safe (parent ← on_store (try (get_parent (root x)));
        children ← on_store (try (get_children parent));
        p ← lift (split_children children (root x)); k p) c Q.
Proof using Hrd Hs.
  destruct Hrd as [Hr _]. intros HQ.
  assert (x ∈ l ++ x :: r) as Hx by (rewrite elem_of_app, elem_of_cons; auto).
  apply safe_bind, runs_safe. eapply runs_on_store; [by apply reads_try; eapply read_parent|].
  apply safe_bind, runs_safe. eapply runs_on_store; [by apply reads_try; eapply read_children|].
  apply safe_bind, safe_lift; rewrite split_children_ok;
    try (eapply kid_roots_nodup, NoDup_subtree; [exact Hs|apply (rep_nodup _ _ Hr)]); [done|].
  by intros ? [= <-].
Qed.

(** The allocation block among the siblings that are visited. *)
Lemma offset_alloc_safe sA n1 n2 (op_alloc op : Interval → Z → outcome ReachabilityError Interval)
    ds da ea off Q :
  (∀ k, k ∈ n1 ++ sA :: n2 → k ∈ l ++ x :: r) → NoDup ((n1 ++ sA :: n2) ≫= nodes) →
  shifts op ds ds → op ∈ [Interval.increase; Interval.decrease; Interval.increase_start;
    Interval.decrease_start; Interval.increase_end; Interval.decrease_end] →
  shifts op_alloc da ea → op_alloc ∈ [Interval.increase; Interval.decrease; Interval.increase_start;
    Interval.decrease_start; Interval.increase_end; Interval.decrease_end] →
  ea off - da off = off →
  Forall (λ k, 1 ≤ card (I c (root k))) n1 →
  (kids sA = [] → 1 ≤ card (I c (root sA)) + off) →
  (∀ c1 c2, shifted t (ds off) n1 c c1 → moves t (λ x, x ∈ nodes sA) c1 c2 → ready t c2 →
     I c2 (root sA) = Interval.mk (start (I c (root sA)) + da off) (end_ (I c (root sA)) + ea off) →
     indexes sA c2 → Q tt c2) →
  safe (offset_siblings_loop fuel (root sA) off op_alloc op (root <$> (n1 ++ sA :: n2))) c Q.
Proof using Hrd Hs Hfuel.
  intros Hin Hnd Hop1 Hop2 Ha1 Ha2 Hoff Hn1 Hleaf HQ. rewrite fmap_app, fmap_cons.
  rewrite bind_app, bind_cons in Hnd. apply NoDup_app in Hnd as (Hnd1 & Hdis & Hnd2).
  assert (root sA ∉ n1 ≫= nodes) as HsA.
  { intros HA. apply (Hdis _ HA), elem_of_app. left. apply root_in_nodes. }
  apply (offset_loop_safe t fuel Hfuel _ _ _ ds); auto.
  - intros (k & He & Hk)%list_elem_of_fmap. apply HsA, list_elem_of_bind. exists k.
    rewrite He. auto with kaspa.
  - apply Forall_forall. intros k Hk. rewrite Forall_forall in Hn1. split; [|auto].
    apply siblings_subtree, Hin, elem_of_app; auto.
  - intros c1 Hsh. pose proof Hsh as (Hm1 & Hrd1 & _). simpl. rewrite bool_decide_eq_true_2 by done.
    assert (I c1 (root sA) = I c (root sA)) as Hsame.
    { apply (mv_ivl _ _ _ _ Hm1). intros (k & Hk & Hx). apply HsA, list_elem_of_bind. eauto. }
    apply (apply_op_propagate_safe t fuel Hfuel _ da ea); auto.
    + apply siblings_subtree, Hin, elem_of_app. right; left.
    + intros Hk. rewrite Hsame. specialize (Hleaf Hk). lia.
    + intros c2 Hm2 Hrd2 Hst Hen Hv Hix. eapply HQ; eauto.
      rewrite Hsame in *. by apply interval_eq.
Qed.
End reads.

Lemma node_kids J s : node_ok J s →
  spread (start (J (root s))) (J ∘ root <$> kids s) (end_ (J (root s)) - 1).
Proof. by intros (_ & _ & ?). Qed.

Lemma spread_head lo i l hi : spread lo (i :: l) hi → spread (start i) (i :: l) hi.
Proof. simpl. intuition lia. Qed.

Lemma capacity_known (c : RCtx) s :
  ready t c → subtree s t → node_ok (I c) s →
  reads (interval_children_capacity (root s)) (store c)
    (Interval.mk (start (I c (root s))) (end_ (I c (root s)) - 1)).
Proof.
  intros [Hr _] Hs (Hv & Hne & _). apply capacity_read; [|done..].
  apply (rep_dom _ _ Hr). eapply subtree_nodes; eauto with kaspa.
Qed.

Lemma kid_interval_read (c : RCtx) s k :
  ready t c → subtree s t → k ∈ kids s → reads (get_interval (root k)) (store c) (I c (root k)).
Proof.
  intros [Hr _] Hs Hk. apply (read_interval _ t Hr). destruct s as [h ks].
  eapply subtree_nodes; [exact Hs|]. apply nodes_node. eauto with kaspa.
Qed.

#[global] Instance side_ops_before : SideOps (side_before fuel) geom_before.
Proof using Hfuel.
  split.
  - intros c [h ks] Hrd Hs Hok. pose proof Hok as (Hv & Hne & Hsp). pose proof Hv as (? & ? & ?).
    assert (reads (get_children h) (store c) (root <$> ks)) as Hch
      by (apply (read_children _ t); [apply Hrd|done]).
    pose proof (capacity_known c _ Hrd Hs Hok) as Hcap. destruct ks as [|k ks]; simpl in *.
    + split; [lia|]. eexists. split.
      * eapply reads_bind; [exact Hcap|]. eapply reads_bind; [exact Hch|]. apply reads_ret.
      * rewrite Interval.size_ok by (unfold valid; simpl; lia). f_equal. unfold card; simpl; lia.
    + destruct Hsp as (? & ? & ? & _). split; [lia|].
      exists (Interval.mk (start (I c h)) (start (I c (root k)) - 1)). split.
      * eapply reads_bind; [exact Hcap|]. eapply reads_bind; [exact Hch|]. simpl.
        eapply reads_bind; [apply (kid_interval_read c (Node h (k :: ks)) k); [done..|left]|].
        eapply reads_bind; [apply reads_lift, sub64_ok; zify_u64; lia|].
        apply reads_lift, Interval.new_ok. unfold valid; simpl; lia.
      * rewrite Interval.size_ok by (unfold valid; simpl; lia). f_equal. unfold card; simpl; lia.
  - rewrite !elem_of_cons. auto.
  - exists (λ o, o), (λ _, 0). split; [apply increase_start_shifts|].
    intros i off. simpl. f_equal. lia.
  - intros J J' [h ks] off Hok Hoff HJ Hv Hk. pose proof (node_kids _ _ Hok) as Hsp.
    destruct Hok as (_ & Hne & _). unfold node_ok. rewrite HJ in *. simpl in *.
    rewrite (fmap_same J J' ks Hk). split; [done|]. destruct ks as [|k ks]; simpl in *; [split; [lia|done]|].
    intuition lia.
  - intros A c q l x r off Q Hrd Hs HA Hcard HQ. simpl in *. unfold offset_siblings_before.
    apply (offset_reads c q l x r Hrd Hs (λ p, _)). simpl.
    rewrite <- fmap_reverse, <- (app_nil_r (root <$> reverse l)).
    apply (offset_loop_safe t fuel Hfuel _ _ _ (λ o, o)); auto.
    + apply increase_shifts.
    + rewrite !elem_of_cons. auto.
    + apply Forall_forall. intros k Hk. rewrite Forall_forall in Hcard. split; [|auto].
      apply (siblings_subtree q l x r Hs). rewrite elem_of_reverse in Hk. rewrite elem_of_app. auto.
    + pose proof (siblings_nodup c q l x r Hrd Hs) as Hnd. rewrite bind_app in Hnd.
      apply NoDup_app in Hnd as [Hnd _]. by rewrite reverse_Permutation.
  - intros sA c q l x r off n1 n2 Q Hrd Hs Hn Hcard Hleaf HQ. simpl in *.
    unfold offset_siblings_before. apply (offset_reads c q l x r Hrd Hs (λ p, _)). simpl.
    rewrite <- fmap_reverse, Hn.
    apply (offset_alloc_safe c q l x r Hrd Hs sA n1 n2 _ _ (λ o, o) (λ _, 0) (λ o, o)); auto.
    + intros k Hk. rewrite <- Hn, elem_of_reverse in Hk. rewrite elem_of_app. auto.
    + rewrite <- Hn. pose proof (siblings_nodup c q l x r Hrd Hs) as Hnd. rewrite bind_app in Hnd.
      apply NoDup_app in Hnd as [Hnd _]. by rewrite reverse_Permutation.
    + apply increase_shifts.
    + rewrite !elem_of_cons. auto.
    + apply increase_end_shifts.
    + rewrite !elem_of_cons. tauto.
    + lia.
    + intros c1 c2 H1 H2 H3 H4 H5. eapply HQ; eauto. rewrite H4. f_equal. lia.
Qed.

#[global] Instance side_ops_after : SideOps (side_after fuel) geom_after.
Proof using Hfuel.
  split.
  - intros c [h ks] Hrd Hs Hok. pose proof Hok as (Hv & Hne & Hsp). pose proof Hv as (? & ? & ?).
    assert (reads (get_children h) (store c) (root <$> ks)) as Hch
      by (apply (read_children _ t); [apply Hrd|done]).
    pose proof (capacity_known c _ Hrd Hs Hok) as Hcap. simpl in *.
    destruct (last ks) as [k|] eqn:Hl.
    + apply last_Some_elem_of in Hl as Hk.
      assert (I c (root k) ∈ (I c ∘ root) <$> ks) as Hin by (apply list_elem_of_fmap; eauto).
      pose proof (spread_bounds _ _ _ _ Hsp Hin). split; [lia|].
      exists (Interval.mk (end_ (I c (root k)) + 1) (end_ (I c h) - 1)). split.
      * eapply reads_bind; [exact Hcap|]. eapply reads_bind; [exact Hch|]. rewrite fmap_last, Hl. simpl.
        eapply reads_bind; [by apply (kid_interval_read c (Node h ks) k)|].
        eapply reads_bind; [apply reads_lift, add64_ok; zify_u64; lia|].
        apply reads_lift, Interval.new_ok. unfold valid; simpl; lia.
      * rewrite Interval.size_ok by (unfold valid; simpl; lia). f_equal. unfold card; simpl; lia.
    + apply last_None in Hl as ->. split; [lia|]. eexists. split.
      * eapply reads_bind; [exact Hcap|]. eapply reads_bind; [exact Hch|]. apply reads_ret.
      * rewrite Interval.size_ok by (unfold valid; simpl; lia). f_equal. unfold card; simpl; lia.
  - rewrite !elem_of_cons. tauto.
  - exists (λ _, 0), Z.opp. split; [apply decrease_end_shifts|].
    intros i off. simpl. f_equal; lia.
  - intros J J' [h ks] off Hok Hoff HJ Hv Hk. pose proof (node_kids _ _ Hok) as Hsp.
    destruct Hok as (_ & Hne & _). unfold node_ok. rewrite HJ in *. simpl in *.
    rewrite (fmap_same J J' ks Hk). split; [done|].
    destruct (last ks) as [k|] eqn:Hl.
    + assert (last (J ∘ root <$> ks) = Some (J (root k))) as Hl' by by rewrite fmap_last, Hl.
      pose proof (spread_bounds _ _ _ _ Hsp (last_Some_elem_of _ _ Hl')).
      split; [lia|]. eapply spread_mono; [| |exact (spread_tight _ _ _ _ Hsp Hl')]; lia.
    + apply last_None in Hl as ->. simpl. split; [lia|done].
  - intros A c q l x r off Q Hrd Hs HA Hcard HQ. simpl in *. unfold offset_siblings_after.
    apply (offset_reads c q l x r Hrd Hs (λ p, _)). simpl.
    rewrite <- (app_nil_r (root <$> r)).
    apply (offset_loop_safe t fuel Hfuel _ _ _ Z.opp); auto.
    + apply decrease_shifts.
    + rewrite !elem_of_cons. auto.
    + apply Forall_forall. intros k Hk. rewrite Forall_forall in Hcard. split; [|auto].
      apply (siblings_subtree q l x r Hs). rewrite elem_of_app, elem_of_cons. auto.
    + pose proof (siblings_nodup c q l x r Hrd Hs) as Hnd. rewrite bind_app, bind_cons in Hnd.
      by apply NoDup_app in Hnd as (_ & _ & (_ & _ & ?)%NoDup_app).
  - intros sA c q l x r off n1 n2 Q Hrd Hs Hn Hcard Hleaf HQ. simpl in *.
    unfold offset_siblings_after. apply (offset_reads c q l x r Hrd Hs (λ p, _)). simpl. rewrite Hn.
    apply (offset_alloc_safe c q l x r Hrd Hs sA n1 n2 _ _ Z.opp Z.opp (λ _, 0)); auto.
    + intros k Hk. rewrite <- Hn in Hk. rewrite elem_of_app, elem_of_cons. auto.
    + rewrite <- Hn. pose proof (siblings_nodup c q l x r Hrd Hs) as Hnd. rewrite bind_app, bind_cons in Hnd.
      by apply NoDup_app in Hnd as (_ & _ & (_ & _ & ?)%NoDup_app).
    + apply decrease_shifts.
    + rewrite !elem_of_cons. auto.
    + apply decrease_start_shifts.
    + rewrite !elem_of_cons. tauto.
    + lia.
    + intros c1 c2 H1 H2 H3 H4 H5. eapply HQ; eauto. rewrite H4. f_equal. lia.
Qed.
End sides.
