(* ===== verification/ReachWalk.v ===== *)
(** * The walks of the reclaim operations

    The chain from the child of the common ancestor to the reindex root is walked
    up to find space and down to hand it on, level by level; at the end the whole
    tree is indexed again.  Proved for both sides through [SideOps] and
    [SideLayout]. *)

From S2P Require Import Prelude Hash Interval ReachStore Reachability ReachTree ReachQuery ReachDag ReachCount ReachPropagate ReachReindex ReachReclaim.
Import Interval (Interval, start, end_, valid, card, contains, strictly_contains).

Lemma kids_apart (ks : list tree) k k' y :
  NoDup (ks ≫= nodes) → k ∈ ks → k' ∈ ks → y ∈ nodes k → y ∈ nodes k' → k = k'.
Proof.
  intros Hnd [i Hi]%list_elem_of_lookup [j Hj]%list_elem_of_lookup Hy Hy'.
  assert (i = j) as <- by (eapply (NoDup_bind_unique nodes); eauto). congruence.
Qed.

Lemma NoDup_bind_nodes (ks : list tree) : NoDup (ks ≫= nodes) → NoDup ks.
Proof.
  induction ks as [|k ks IH]; [constructor|]. rewrite bind_cons.
  intros (_ & Hd & ?)%NoDup_app. apply NoDup_cons. split; [|auto]. intros Hk.
  apply (Hd (root k)); [apply root_in_nodes|]. apply list_elem_of_bind. eauto with kaspa.
Qed.

Section walk.
Context (t : tree).
Context (side : @Side Mem) (g : Geometry) `{Hops : !SideOps t side g} `{Hlay : !SideLayout g}.
Context (C : Hash) (ksC : list tree) (sA x0 : tree).
Context (HC : subtree (Node C ksC) t) (HsA : sA ∈ ksC) (Hx0 : x0 ∈ ksC) (Hne0 : x0 ≠ sA).
Context (Hnd : NoDup (nodes t)).
Abbreviation I c := (ivl (data c)).

(** Everything is indexed but the subtree of the allocation block, whose interval
    may be empty. *)
Record partial (c : RCtx) : Prop := {
  pa_ready : ready t c;
  pa_ok s : subtree s t → (root s ∉ nodes sA) → root s ≠ C → node_ok (I c) s;
  pa_valid : valid (I c C);
  pa_nonempty : nonempty (I c C);
  pa_layout : layout (start (I c C)) (I c ∘ root <$> ksC) (end_ (I c C) - 1);
  pa_kids k : k ∈ ksC → k ≠ sA → nonempty (I c (root k));
}.

Definition finished (c : RCtx) : Prop := ready t c ∧ indexes t c.

(** ** A level *)

Section levels.
Context (c c1 : RCtx) (q : Hash) (l : list tree) (x : tree) (r : list tree) (off : Z).
Abbreviation sq := (Node q (l ++ x :: r)).
Context (Hsq : subtree sq t) (Hrd1 : ready t c1).
Context (Hm1 : moves t (λ y, y ∈ nodes x) c c1).
Context (Hx1 : I c1 (root x) = g_shrink g off (I c (root x))) (Hix1 : indexes x c1).

Lemma level_nodup : NoDup ((l ++ x :: r) ≫= nodes).
Proof using Hsq Hnd.
  eapply NoDup_subtree in Hsq; [|done]. by apply NoDup_nodes_inv in Hsq as (_ & _ & ?).
Qed.

Lemma level_sibling k : k ∈ l ++ r → k ∈ l ++ x :: r ∧ k ≠ x.
Proof using Hsq Hnd.
  intros Hk. split; [rewrite elem_of_app, elem_of_cons in *; naive_solver|]. intros ->.
  pose proof (NoDup_bind_nodes _ level_nodup) as Hn.
  rewrite <- Permutation_middle in Hn. by apply NoDup_cons in Hn as [? _].
Qed.

Lemma level_x : x ∈ l ++ x :: r.
Proof using. rewrite elem_of_app, elem_of_cons; auto. Qed.

(** A sibling is not touched by what happens to [x]. *)
Lemma level_same k : k ∈ l ++ r → ∀ y, y ∈ nodes k → I c1 y = I c y.
Proof using Hsq Hnd Hm1.
  intros Hk y Hy. destruct (level_sibling k Hk) as [Hk' Hne]. apply (mv_ivl _ _ _ _ Hm1).
  intros Hyx. apply Hne. exact (kids_apart _ k x y level_nodup Hk' level_x Hy Hyx).
Qed.

(** Moving siblings [near] from [c1] on leaves the others. *)
Lemma level_frame near c2 d k :
  shifted t d near c1 c2 → (∀ k', k' ∈ near → k' ∈ l ++ x :: r) →
  k ∈ l ++ x :: r → k ∉ near → ∀ y, y ∈ nodes k → I c2 y = I c1 y.
Proof using Hsq Hnd.
  intros (Hm2 & _ & _) Hin Hk Hkn y Hy. apply (mv_ivl _ _ _ _ Hm2). intros (k' & Hk' & Hy').
  apply Hkn. by rewrite (kids_apart _ k k' y level_nodup Hk (Hin k' Hk') Hy Hy').
Qed.

Lemma level_moves near c2 (P : Hash → Prop) d :
  shifted t d near c1 c2 → (∀ k', k' ∈ near → k' ∈ l ++ x :: r) →
  (∀ k y, k ∈ l ++ x :: r → y ∈ nodes k → P y) → moves t P c c2.
Proof using Hsq Hnd Hm1.
  intros (Hm2 & _ & _) Hin HP. eapply moves_trans; [exact Hm1|exact Hm2|].
  intros y [Hy|(k & Hk & Hy)]; eauto using level_x.
Qed.

Lemma level_inside k y : k ∈ l ++ x :: r → y ∈ nodes k → y ∈ nodes sq ∧ y ≠ q.
Proof using Hsq Hnd.
  intros Hk Hy. split; [apply nodes_node; eauto|]. intros ->.
  eapply NoDup_subtree in Hsq; [|done]. apply NoDup_nodes_inv in Hsq as (Hq & _).
  by apply (Hq k).
Qed.

Lemma level_near k : k ∈ g_near g l r → k ∈ l ++ x :: r.
Proof using Hsq Hnd Hlay. intros Hk. apply level_sibling, (sl_split (g:=g)). auto. Qed.

Lemma level_card k : nonempty (I c (root k)) → k ∈ l ++ r → 1 ≤ card (I c1 (root k)).
Proof using Hsq Hnd Hm1.
  intros Hne Hk. rewrite (level_same k Hk) by auto with kaspa.
  unfold nonempty, card in *. lia.
Qed.

(** The layout of the siblings in [c], and in the final state. *)
Context (Hlo : layout (start (I c q)) (I c ∘ root <$> (l ++ x :: r)) (end_ (I c q) - 1)).
Context (Hoff : 0 ≤ off).

Lemma level_x_ok : node_ok (I c1) x.
Proof using Hix1. apply Hix1, subtree_refl. Qed.

Lemma level_node_ok c2 :
  valid (I c q) → nonempty (I c q) → I c2 q = I c q →
  layout (start (I c2 q)) (I c2 ∘ root <$> (l ++ x :: r)) (end_ (I c2 q) - 1) →
  (∀ k, k ∈ l ++ x :: r → indexes k c2) → indexes sq c2.
Proof using.
  intros Hv Hne Hq Hl2 Hkids s Hs. inversion Hs as [|? ? k Hk Hsk]; subst; [|by eapply Hkids].
  unfold node_ok. simpl. rewrite Hq in *. split_and!; [done..|]. apply spread_layout. split; [done|].
  apply nonempty_fmap. intros k Hk. by apply (Hkids k Hk k (subtree_refl _)).
Qed.

Lemma level_none_state c2 :
  (∀ k, k ∈ l ++ r → indexes k c) → shifted t (g_dir g off) (g_near g l r) c1 c2 →
  level g (I c) (I c2) x off (g_near g l r) None (g_far g l r)
  ∧ (∀ k, k ∈ l ++ x :: r → indexes k c2) ∧ nonempty (I c2 (root x)).
Proof using Hsq Hnd Hlay Hm1 Hx1 Hix1.
  intros Hold Hsh. pose proof Hsh as (Hm2 & Hrd2 & Hnear). rewrite Forall_forall in Hnear.
  pose proof level_near as Hin. pose proof (NoDup_bind_nodes _ level_nodup) as Hndl.
  assert (x ∉ g_near g l r) as Hxn.
  { intros Hx. assert (x ∈ l ++ r) as Hx' by (apply (sl_split (g:=g)); auto).
    by destruct (level_sibling x Hx') as [_ []]. }
  assert (NoDup (l ++ r)) as Hlr.
  { rewrite <- Permutation_middle in Hndl. by apply NoDup_cons in Hndl as [_ ?]. }
  assert (∀ k, k ∈ g_far g l r → k ∈ l ++ r ∧ k ∉ g_near g l r) as Hfar.
  { intros k Hk. split; [apply (sl_split (g:=g)); auto|]. intros Hk'. by apply (sl_disj (g:=g) l r k). }
  assert (I c2 (root x) = I c1 (root x)) as Hx2.
  { apply (level_frame _ c2 _ x Hsh Hin level_x Hxn). auto with kaspa. }
  split_and!; [split| |].
  - congruence.
  - intros k Hk. destruct (Hnear k Hk) as (Hst & Hen & _).
    assert (k ∈ l ++ r) as Hkl by (apply (sl_split (g:=g)); auto).
    rewrite (level_same k Hkl) in Hst, Hen by auto with kaspa. by apply interval_eq.
  - done.
  - intros k Hk. destruct (Hfar k Hk) as [Hkl Hkn].
    rewrite (level_frame _ c2 _ k Hsh Hin (proj1 (level_sibling k Hkl)) Hkn) by auto with kaspa.
    apply (level_same k Hkl). auto with kaspa.
  - intros k Hk. assert (k = x ∨ k ∈ l ++ r) as [->|Hkl]
      by (rewrite elem_of_app, elem_of_cons in *; naive_solver).
    { eapply indexes_ext; [|exact Hix1]. apply (level_frame _ c2 _ x Hsh Hin Hk Hxn). }
    pose proof (proj1 (sl_split (g:=g) l r k) Hkl) as [Hkn|Hkf]; [by apply Hnear|].
    eapply indexes_ext; [|by apply Hold]. intros y Hy.
    rewrite (level_frame _ c2 _ k Hsh Hin Hk (proj2 (Hfar k Hkf)) y Hy). by apply (level_same k).
  - rewrite Hx2. by destruct level_x_ok as (_ & ? & _).
Qed.

Lemma level_alloc_state a n1 n2 ca c2 :
  g_near g l r = n1 ++ a :: n2 → (∀ k, k ∈ l ++ r → k ≠ a → indexes k c) →
  shifted t (g_dir g off) n1 c1 ca → moves t (λ y, y ∈ nodes a) ca c2 →
  I c2 (root a) = g_grow g off (I c1 (root a)) → indexes a c2 →
  level g (I c) (I c2) x off n1 (Some a) (n2 ++ g_far g l r)
  ∧ (∀ k, k ∈ l ++ x :: r → indexes k c2) ∧ nonempty (I c2 (root x)).
Proof using Hsq Hnd Hlay Hm1 Hx1 Hix1.
  intros Hn Hold Hsh Hma Hga Hia. pose proof Hsh as (_ & _ & Hnear). rewrite Forall_forall in Hnear.
  pose proof (NoDup_bind_nodes _ level_nodup) as Hndl.
  assert (NoDup (l ++ r)) as Hlr.
  { rewrite <- Permutation_middle in Hndl. by apply NoDup_cons in Hndl as [_ ?]. }
  assert (NoDup (n1 ++ a :: n2)) as Hndn.
  { rewrite <- Hn. apply NoDup_app in Hlr as (? & _ & ?). by apply (sl_nodup (g:=g)). }
  assert (∀ k, k ∈ n1 ++ a :: n2 → k ∈ l ++ r) as Hnlr.
  { intros k Hk. apply (sl_split (g:=g)). rewrite Hn. auto. }
  assert (∀ k, k ∈ n1 → k ∈ l ++ x :: r) as Hin.
  { intros k Hk. apply level_sibling, Hnlr, elem_of_app. auto. }
  assert (a ∈ l ++ r) as Hal by (apply Hnlr; rewrite elem_of_app, elem_of_cons; auto).
  destruct (level_sibling a Hal) as [Hal' Hax].
  (* the siblings but [a] are not touched by the last step *)
  assert (∀ k, k ∈ l ++ x :: r → k ≠ a → ∀ y, y ∈ nodes k → I c2 y = I ca y) as Hlast.
  { intros k Hk Hka y Hy. apply (mv_ivl _ _ _ _ Hma). intros Hya. apply Hka.
    exact (kids_apart _ k a y level_nodup Hk Hal' Hy Hya). }
  assert (∀ k, k ∈ l ++ x :: r → k ≠ a → k ∉ n1 → ∀ y, y ∈ nodes k → I c2 y = I c1 y) as Hsame.
  { intros k Hk Hka Hk1 y Hy. rewrite (Hlast k Hk Hka y Hy). by apply (level_frame _ ca _ k Hsh Hin). }
  assert ((a ∉ n1) ∧ ∀ k, k ∈ n2 → k ≠ a ∧ (k ∉ n1)) as [Ha1 Hn2].
  { apply NoDup_app in Hndn as (_ & Hd & [Hd2 _]%NoDup_cons).
    split; [intros Ha; by apply (Hd a Ha); left|]. intros k Hk. split; [by intros ->|].
    intros Hk1. apply (Hd k Hk1). by right. }
  assert (∀ k, k ∈ n2 ++ g_far g l r → k ∈ l ++ r ∧ k ≠ a ∧ k ∉ n1) as Hfar.
  { intros k [Hk|Hk]%elem_of_app.
    - split; [apply Hnlr; rewrite elem_of_app, elem_of_cons; auto|auto].
    - split; [apply (sl_split (g:=g)); auto|].
      assert (k ∉ n1 ++ a :: n2) as Hk' by (rewrite <- Hn; intros Hk'; by apply (sl_disj (g:=g) l r k)).
      rewrite elem_of_app, elem_of_cons in Hk'. split; [intros ->|]; naive_solver. }
  assert (x ∉ n1) as Hx1n.
  { intros Hx. destruct (level_sibling x) as [_ []]; [|done]. apply Hnlr, elem_of_app. auto. }
  assert (I c2 (root x) = I c1 (root x)) as Hx2.
  { apply (Hsame x level_x (not_eq_sym Hax) Hx1n). auto with kaspa. }
  split_and!; [split| |].
  - congruence.
  - intros k Hk. assert (k ≠ a) as Hka by (intros ->; done).
    rewrite (Hlast k (Hin k Hk) Hka) by auto with kaspa. destruct (Hnear k Hk) as (Hst & Hen & _).
    assert (k ∈ l ++ r) as Hkl by (apply Hnlr, elem_of_app; auto).
    rewrite (level_same k Hkl) in Hst, Hen by auto with kaspa. by apply interval_eq.
  - intros k [= <-]. by rewrite Hga, (level_same a Hal) by auto with kaspa.
  - intros k Hk. destruct (Hfar k Hk) as (Hkl & Hka & Hk1).
    rewrite (Hsame k (proj1 (level_sibling k Hkl)) Hka Hk1) by auto with kaspa.
    apply (level_same k Hkl). auto with kaspa.
  - intros k Hk. assert (k = x ∨ k ∈ l ++ r) as [->|Hkl]
      by (rewrite elem_of_app, elem_of_cons in *; naive_solver).
    { eapply indexes_ext; [|exact Hix1]. apply (Hsame x Hk (not_eq_sym Hax) Hx1n). }
    pose proof (proj1 (sl_split (g:=g) l r k) Hkl) as Hcase. rewrite Hn in Hcase.
    assert (k = a ∨ k ∈ n1 ∨ k ∈ n2 ++ g_far g l r) as [->|[Hk1|Hk2]];
      [rewrite elem_of_app, elem_of_cons in Hcase; rewrite elem_of_app; tauto|done| |].
    + eapply indexes_ext; [apply (Hlast k Hk)|by apply Hnear]. by intros ->.
    + destruct (Hfar k Hk2) as (_ & Hka & Hk1). eapply indexes_ext; [|by apply (Hold k Hkl Hka)].
      intros y Hy. rewrite (Hsame k Hk Hka Hk1 y Hy). by apply (level_same k).
  - rewrite Hx2. by destruct level_x_ok as (_ & ? & _).
Qed.
End levels.

(** ** From level to level *)

Lemma partial_step c c2 sq :
  partial c → subtree sq t → (C ∉ nodes sq) → (∀ y, y ∈ nodes sq → y ∉ nodes sA) →
  moves t (λ y, y ∈ nodes sq ∧ y ≠ root sq) c c2 → indexes sq c2 → partial c2.
Proof using Hnd HC.
  intros [Hrd Hok Hv Hne Hl Hk] Hs HCs HAs Hm Hix.
  assert (I c2 C = I c C) as HIC by (apply (mv_ivl _ _ _ _ Hm); tauto).
  assert (∀ k, k ∈ ksC → I c2 (root k) = I c (root k)) as HIk.
  { intros k Hkk. apply (mv_ivl _ _ _ _ Hm). intros [Hin Hnr]. apply Hnr.
    apply (outside_kids t sq (Node C ksC)); auto. apply list_elem_of_fmap. eauto. }
  split; rewrite ?HIC; auto.
  - by eapply moves_ready.
  - intros s Hst HsA' HsC. destruct (decide (root s ∈ nodes sq)) as [Hin|Hout].
    + apply Hix. by apply (subtree_or_outside t).
    + eapply (node_ok_outside t sq); eauto.
  - by rewrite (fmap_same (I c) (I c2) ksC HIk).
  - intros k Hkk Hka. rewrite HIk by done. auto.
Qed.

Lemma partial_finish c c2 :
  partial c → moves t (λ y, y ∈ nodes (Node C ksC) ∧ y ≠ C) c c2 →
  indexes (Node C ksC) c2 → finished c2.
Proof using Hnd HC HsA.
  intros [Hrd Hok _ _ _ _] Hm Hix. split; [by eapply moves_ready|].
  intros s Hs. destruct (decide (root s ∈ nodes (Node C ksC))) as [Hin|Hout].
  - apply Hix. by apply (subtree_or_outside t).
  - eapply (node_ok_outside t (Node C ksC)); eauto. apply Hok; [done| |].
    + intros HA. apply Hout, nodes_node. eauto.
    + intros HsC. apply Hout. rewrite HsC. left.
Qed.

(** The chain from [x0]: the blocks above [x], the nearest first. *)
Inductive up_path : list tree → tree → Prop :=
| up_nil : up_path [] x0
| up_cons y l x : up_path l y → x ∈ kids y → up_path (y :: l) x.

Lemma up_subtree l x : up_path l x → subtree x x0.
Proof.
  induction 1 as [|[h ks] l x _ IH Hx]; [constructor|]. exact (kid_subtree _ _ _ _ IH Hx).
Qed.

Lemma up_length l x : up_path l x → tsize x + Z.of_nat (length l) ≤ tsize x0.
Proof.
  induction 1 as [|[h ks] l x _ IH Hx]; [simpl; lia|].
  pose proof (kid_tsize h ks x (Node h ks) (subtree_refl _) Hx). simpl length. lia.
Qed.

Lemma x0_subtree : subtree x0 t.
Proof using HC Hx0. exact (kid_subtree _ _ _ _ HC Hx0). Qed.

Lemma C_nodup : NoDup (nodes (Node C ksC)).
Proof using HC Hnd. by eapply NoDup_subtree. Qed.

Lemma x0_outside y : y ∈ nodes x0 → y ≠ C ∧ y ∉ nodes sA.
Proof using HC HsA Hx0 Hne0 Hnd.
  intros Hy. destruct (NoDup_nodes_inv _ _ C_nodup) as (HCk & _ & Hb).
  split; [intros ->; by apply (HCk x0)|]. intros HyA. apply Hne0.
  exact (kids_apart _ x0 sA y Hb Hx0 HsA Hy HyA).
Qed.

Lemma up_outside l x y : up_path l x → y ∈ nodes x → y ≠ C ∧ y ∉ nodes sA.
Proof using HC HsA Hx0 Hne0 Hnd.
  intros Hu%up_subtree Hy. apply x0_outside. by eapply subtree_nodes.
Qed.

Lemma up_node_ok c l x : partial c → up_path l x → indexes x c.
Proof using HC HsA Hx0 Hne0 Hnd.
  intros Hp Hu s Hs. apply (pa_ok _ Hp).
  - eapply subtree_trans; [exact Hs|]. eapply subtree_trans; [by eapply up_subtree|apply x0_subtree].
  - apply (up_outside l x); [done|]. eapply subtree_nodes; eauto with kaspa.
  - apply (up_outside l x); [done|]. eapply subtree_nodes; eauto with kaspa.
Qed.

Definition slacks (c : RCtx) (l : list tree) : Z := zsum (g_slack g (I c) <$> l).

(** A change inside a block of the chain does not change the slack above it. *)
Lemma slacks_frame c c2 y l :
  up_path l y → moves t (λ z, z ∈ nodes y ∧ z ≠ root y) c c2 → slacks c2 l = slacks c l.
Proof using HC Hx0 Hnd Hlay.
  intros Hu Hm. unfold slacks. f_equal. apply list_fmap_ext. intros i z Hz.
  assert (∀ z, z ∈ l → subtree z x0 ∧ root z ∉ nodes y) as Habove.
  { clear z i Hz Hm. induction Hu as [|[h ks] l x Hu IH Hx]; [by intros ? ?%elem_of_nil|].
    pose proof (up_subtree _ _ Hu) as Hsu.
    assert (NoDup (nodes x0)) as Hnd0 by (eapply NoDup_subtree; [apply x0_subtree|done]).
    assert (∀ w, w ∈ nodes x → w ∈ nodes (Node h ks)) as Hin by (intros; apply nodes_node; eauto).
    intros z [->|Hz]%elem_of_cons.
    - split; [done|]. simpl. eapply NoDup_subtree in Hsu; [|done].
      apply NoDup_nodes_inv in Hsu as (Hh & _). auto.
    - destruct (IH z Hz) as [? Hout]. split; [done|]. intros Hw. by apply Hout, Hin. }
  apply list_elem_of_lookup_2 in Hz. destruct (Habove z Hz) as [Hzs Hzo].
  apply (sl_ext (g:=g)). intros h Hh. apply (mv_ivl _ _ _ _ Hm). intros [Hin Hne].
  destruct Hh as [->|Hh]; [done|]. apply Hne.
  apply (outside_kids t y z); auto.
  - eapply subtree_trans; [by eapply up_subtree|apply x0_subtree].
  - eapply subtree_trans; [exact Hzs|apply x0_subtree].
Qed.

(** ** One level of the walk *)

Context (lC rC n1 n2 : list tree).
Context (HksC : ksC = lC ++ x0 :: rC) (HnearC : g_near g lC rC = n1 ++ sA :: n2).

(** Below the common ancestor the siblings of [x] just follow. *)
Lemma do_level_below c c1 y l x off :
  partial c → up_path l y → x ∈ kids y → moves t (λ z, z ∈ nodes x) c c1 → ready t c1 →
  0 ≤ off → I c1 (root x) = g_shrink g off (I c (root x)) → indexes x c1 →
  safe (offset_siblings side (root sA) (root x) off) c1 (λ _ c2,
    moves t (λ _, True) c c2 ∧ partial c2 ∧ slacks c2 (y :: l) = slacks c (y :: l) + off).
Proof using Hops Hlay HC HsA Hx0 Hne0 Hnd.
  intros Hp Hu Hx Hm1 Hrd1 Hoff Hx1 Hix1. destruct y as [q ks]. simpl in Hx.
  apply list_elem_of_split in Hx as (l1 & r1 & ->).
  assert (subtree (Node q (l1 ++ x :: r1)) t) as Hsq.
  { eapply subtree_trans; [by eapply up_subtree|apply x0_subtree]. }
  pose proof (up_node_ok c _ _ Hp Hu) as Hiy.
  destruct (Hiy _ (subtree_refl _)) as (Hvq & Hneq & Hspq). simpl in Hvq, Hneq, Hspq.
  apply spread_layout in Hspq as [Hlq Hneks]. rewrite nonempty_fmap in Hneks.
  assert (∀ k, k ∈ l1 ++ r1 → k ∈ l1 ++ x :: r1) as Hkin.
  { intros k. rewrite !elem_of_app, elem_of_cons. tauto. }
  apply (so_none t (SideOps:=Hops) _ _ q l1 x r1); auto.
  - intros (k & He & Hk)%list_elem_of_fmap.
    assert (k ∈ l1 ++ x :: r1) as Hk' by (apply Hkin, (sl_split (g:=g)); auto).
    destruct (up_outside _ _ (root k) Hu) as [_ HkA]; [apply nodes_node; eauto with kaspa|].
    apply HkA. rewrite <- He. auto with kaspa.
  - apply Forall_forall. intros k Hk. assert (k ∈ l1 ++ r1) as Hk' by (apply (sl_split (g:=g)); auto).
    eapply (level_card c c1); eauto.
  - intros c2 Hsh. destruct (level_none_state c c1 q l1 x r1 off Hsq Hm1 Hx1 Hix1 c2)
      as (Hlv & Hall & Hnx); [|done|].
    { intros k Hk s Hs. apply Hiy. eapply subtree_kid; eauto. }
    assert (moves t (λ z, z ∈ nodes (Node q (l1 ++ x :: r1)) ∧ z ≠ q) c c2) as Hm2.
    { eapply (level_moves c c1); eauto.
      - intros k Hk. apply Hkin, (sl_split (g:=g)). auto.
      - intros k z. by apply level_inside. }
    assert (I c2 q = I c q) as Hq by (apply (mv_ivl _ _ _ _ Hm2); tauto).
    destruct (sl_none (I c) (I c2) q l1 x r1 off Hlq Hoff Hnx Hq Hlv) as [Hl2 Hs2].
    split_and!; [by eapply moves_weaken| |].
    + eapply (partial_step c c2 (Node q (l1 ++ x :: r1))); eauto.
      * intros HCq. by destruct (up_outside _ _ C Hu HCq).
      * intros z Hz. by destruct (up_outside _ _ z Hu Hz).
      * eapply level_node_ok; eauto.
    + unfold slacks. rewrite !fmap_cons, !zsum_cons, Hs2. pose proof (slacks_frame c c2 _ _ Hu Hm2) as Hfr.
      unfold slacks in Hfr. lia.
Qed.

(** At the common ancestor the allocation block grows and everything is indexed. *)
Lemma do_level_top c c1 off :
  partial c → moves t (λ z, z ∈ nodes x0) c c1 → ready t c1 →
  1 ≤ off → I c1 (root x0) = g_shrink g off (I c (root x0)) → indexes x0 c1 →
  safe (offset_siblings side (root sA) (root x0) off) c1 (λ _ c2,
    moves t (λ _, True) c c2 ∧ finished c2).
Proof using Hops Hlay HC HsA Hx0 Hne0 Hnd HksC HnearC.
  intros Hp Hm1 Hrd1 Hoff Hx1 Hix1.
  assert (subtree (Node C (lC ++ x0 :: rC)) t) as HC' by (rewrite <- HksC; exact HC).
  assert (∀ k, k ∈ n1 ++ sA :: n2 → k ∈ lC ++ rC) as Hnlr.
  { intros k Hk. apply (sl_split (g:=g)). rewrite HnearC. auto. }
  assert (sA ∈ lC ++ rC) as HsA' by (apply Hnlr; rewrite elem_of_app, elem_of_cons; auto).
  assert (∀ k, k ∈ n1 → k ≠ sA) as Hn1.
  { intros k Hk ->. pose proof (NoDup_bind_nodes _ (level_nodup C lC x0 rC HC')) as Hndl.
    rewrite <- Permutation_middle in Hndl. apply NoDup_cons in Hndl as [_ Hndl].
    apply NoDup_app in Hndl as (? & _ & ?).
    assert (NoDup (g_near g lC rC)) as Hn by by apply (sl_nodup (g:=g)).
    rewrite HnearC in Hn. apply NoDup_app in Hn as (_ & Hd & _). apply (Hd sA Hk). left. }
  apply (so_alloc t (SideOps:=Hops) sA c1 C lC x0 rC off n1 n2); auto.
  - apply Forall_forall. intros k Hk. assert (k ∈ lC ++ rC) as Hk' by (apply Hnlr, elem_of_app; auto).
    eapply (level_card c c1); eauto. apply (pa_kids _ Hp); auto.
    rewrite HksC. by apply (level_sibling C lC x0 rC HC').
  - intros _. rewrite (level_same c c1 C lC x0 rC HC' Hm1 sA HsA') by auto with kaspa.
    enough (0 ≤ card (I c (root sA))) by lia.
    pose proof (pa_layout _ Hp) as Hl. apply list_elem_of_split in HsA as (l1 & l2 & Heq).
    rewrite Heq, fmap_app, fmap_cons in Hl.
    apply layout_app_inv in Hl as (m & _ & _ & (_ & ? & _) & _). unfold card. simpl in *. lia.
  - intros ca c2 Hsh Hma Hrd2 Hga Hia.
    destruct (level_alloc_state c c1 C lC x0 rC off HC' Hm1 Hx1 Hix1 sA n1 n2 ca c2)
      as (Hlv & Hall & Hnx); auto.
    { intros k Hk Hka s Hs. destruct (level_sibling C lC x0 rC HC' k Hk) as [Hk' _].
      rewrite <- HksC in Hk'. destruct (NoDup_nodes_inv _ _ C_nodup) as (HCk & _ & Hb).
      apply (pa_ok _ Hp).
      - eapply subtree_trans; [exact Hs|]. exact (kid_subtree _ _ _ _ HC Hk').
      - intros HA. apply Hka. apply (kids_apart _ k sA (root s) Hb Hk' HsA); [|done].
        eapply subtree_nodes; eauto with kaspa.
      - intros Hs'. apply (HCk k Hk'). rewrite <- Hs'. eapply subtree_nodes; eauto with kaspa. }
    assert (moves t (λ z, z ∈ nodes (Node C ksC) ∧ z ≠ C) c c2) as Hm2.
    { rewrite HksC. pose proof (λ k y, level_inside C lC x0 rC HC' k y) as Hins.
      eapply moves_trans; [eapply (level_moves c c1 C lC x0 rC HC' Hm1 n1 ca _ _ Hsh)| |].
      - intros k Hk. by apply (level_sibling C lC x0 rC HC'), Hnlr, elem_of_app; left.
      - exact Hins.
      - exact Hma.
      - intros z [Hz|Hz]; [done|]. apply (Hins sA); [by rewrite <- HksC|done]. }
    assert (I c2 C = I c C) as HqC by (apply (mv_ivl _ _ _ _ Hm2); tauto).
    split; [by eapply moves_weaken|]. apply (partial_finish c); auto.
    rewrite HksC. eapply (level_node_ok c C); eauto; [apply Hp..|]. rewrite HqC.
    pose proof (pa_layout _ Hp) as Hl. rewrite HksC in Hl.
    apply (sl_alloc (g:=g) (I c) (I c2) lC x0 rC off _ _ n1 sA n2); auto; lia.
Qed.

Lemma do_level c c1 l x off :
  partial c → up_path l x → moves t (λ z, z ∈ nodes x) c c1 → ready t c1 →
  0 ≤ off → (l = [] → 1 ≤ off) → I c1 (root x) = g_shrink g off (I c (root x)) → indexes x c1 →
  safe (offset_siblings side (root sA) (root x) off) c1 (λ _ c2,
    moves t (λ _, True) c c2 ∧ match l with
    | [] => finished c2
    | _ => partial c2 ∧ slacks c2 l = slacks c l + off end).
Proof using Hops Hlay HC HsA Hx0 Hne0 Hnd HksC HnearC.
  intros Hp Hu. inversion Hu as [|y l' ? Hu' Hx]; subst; intros.
  - apply do_level_top; auto.
  - by apply do_level_below.
Qed.

(** Shrinking a block of the chain by no more than its slack keeps it indexed. *)
Lemma shrink_safe c l x off (Q : unit → RCtx → Prop) :
  partial c → up_path l x → 0 ≤ off ≤ g_slack g (I c) x →
  (∀ c1, moves t (λ z, z ∈ nodes x) c c1 → ready t c1 →
     I c1 (root x) = g_shrink g off (I c (root x)) → indexes x c1 → Q tt c1) →
  safe (apply_interval_op (root x) off (shrink side)) c Q.
Proof using Hops HC HsA Hx0 Hne0 Hnd.
  intros Hp Hu Hoff HQ. destruct (so_shrink t (SideOps:=Hops)) as (ds & de & Hsh & Hg).
  assert (subtree x t) as Hxt.
  { eapply subtree_trans; [by eapply up_subtree|apply x0_subtree]. }
  assert (NoDup (nodes x)) as Hndx by by eapply NoDup_subtree.
  apply (apply_op_safe t (shrink side) ds de); auto; [apply (so_shrink_op t (SideOps:=Hops))|apply Hp| |].
  { eapply subtree_nodes; eauto with kaspa. }
  intros c1 Hm1 Hsz1 Hst Hen Hv.
  assert (I c1 (root x) = g_shrink g off (I c (root x))) as HI1
    by (rewrite <- Hg; by apply interval_eq).
  pose proof (up_node_ok c l x Hp Hu) as Hix.
  apply HQ; auto.
  - eapply moves_weaken; [exact Hm1|]. intros z ->. auto with kaspa.
  - eapply moves_ready; [exact Hm1|apply Hp].
  - intros s Hs. destruct x as [h ks]. inversion Hs as [|? ? k Hk Hsk]; subst.
    + apply (so_shrink_node t (SideOps:=Hops) (I c) (I c1) _ off); auto.
      intros k Hk. apply (mv_ivl _ _ _ _ Hm1). by apply (kid_ne h ks k (Node h ks) Hndx (subtree_refl _)).
    + eapply (indexes_frame t _ k); [exact Hm1| |by intros s' ?; apply Hix; eapply subtree_kid|exact Hsk].
      intros z Hz ->. apply NoDup_nodes_inv in Hndx as (Hh & _). by apply (Hh k).
Qed.

Context (fuel : nat) (Hfuel : (length (nodes t) < fuel)%nat).
Context (required : Z) (Hreq : 1 ≤ required).

(** What is known when the level of [x] has been done, [l] being the blocks above. *)
Definition level_done (l : list tree) (alloc : Z) (c : RCtx) : Prop :=
  match l with
  | [] => finished c
  | _ => partial c ∧ slacks c l - alloc * Z.of_nat (length l) = required
  end.

Lemma level_done_ready l alloc c : level_done l alloc c → ready t c.
Proof. destruct l; [by intros [? _]|]. intros [Hp _]. apply Hp. Qed.

Lemma walk_down_safe l x c0 c alloc :
  up_path l x → 0 ≤ alloc → level_done l alloc c → moves t (λ _, True) c0 c →
  safe (reclaim_walk_down fuel side (root sA) C (root x) alloc) c (λ _ c',
    moves t (λ _, True) c0 c' ∧ finished c').
Proof using Hops Hlay HC HsA Hx0 Hne0 Hnd HksC HnearC Hfuel Hreq.
  intros Hu Halloc Hd Hm. unfold reclaim_walk_down.
  apply (safe_loop (λ n cur c, ∃ l x, cur = root x ∧ up_path l x ∧ n = length l
    ∧ level_done l alloc c ∧ moves t (λ _, True) c0 c) _ _ _ (length l)).
  2: { by exists l, x. }
  2: { pose proof (up_length l x Hu). pose proof (tsize_pos x).
       pose proof (tsize_subtree _ _ x0_subtree). unfold tsize in *. lia. }
  clear dependent l x c. intros n cur c (l & x & -> & Hu & -> & Hd & Hm).
  pose proof (level_done_ready _ _ _ Hd) as [Hr _].
  inversion Hu as [|y l' ? Hu' Hx]; subst l.
  - subst x. apply safe_bind, runs_safe.
    eapply runs_on_store; [by apply reads_try, (read_parent _ t Hr C ksC)|].
    rewrite bool_decide_eq_true_2 by done. by apply safe_ret.
  - subst. destruct Hd as [Hp Hsum]. destruct y as [q ks]. simpl in Hx.
    assert (subtree (Node q ks) t) as Hy.
    { eapply subtree_trans; [by eapply up_subtree|apply x0_subtree]. }
    apply safe_bind, runs_safe.
    eapply runs_on_store; [by apply reads_try, (read_parent _ t Hr q ks x)|].
    rewrite bool_decide_eq_false_2.
    2: { destruct (up_outside _ _ q Hu'); [left|done]. }
    pose proof (up_node_ok _ _ _ Hp Hu' _ (subtree_refl _)) as Hok.
    destruct (so_remaining t (SideOps:=Hops) c (Node q ks) (pa_ready _ Hp) Hy Hok)
      as (Hsl & r & Hread & Hsize).
    apply safe_bind, runs_safe. eapply runs_on_store; [apply reads_try, Hread|].
    apply safe_bind, runs_safe. apply (runs_lift _ _ _ _ Hsize).
    apply safe_bind, safe_lift; [apply Interval.checked_no_fuel|]. intros off [-> Hoff]%checked_inv.
    apply safe_bind. apply (shrink_safe c l' (Node q ks)); auto; [lia|].
    intros c1 Hm1 Hrd1 HI1 Hix1. apply safe_bind.
    unfold slacks in Hsum. rewrite fmap_cons, zsum_cons in Hsum. simpl length in Hsum.
    eapply safe_mono; [apply (do_level c c1 l' (Node q ks)); auto; try lia|].
    { intros ->. simpl in *. lia. }
    intros [] c2 [Hm2 Hst2]. apply safe_ret. exists (length l'). split; [|simpl; lia].
    exists l', (Node q ks). split_and!; auto; [|by eapply moves_trans].
    destruct l' as [|z l'']; [done|]. destruct Hst2 as [Hp2 Hs2]. split; [done|].
    rewrite Hs2. unfold slacks. simpl length in *. lia.
Qed.

(** ** The walk up *)

Context (sR : tree) (HsR : subtree sR x0) (HkR : kids sR ≠ []).

Lemma up_next c l h ks :
  partial c → up_path l (Node h ks) → root sR ∈ nodes (Node h ks) → h ≠ root sR →
  ∃ k, k ∈ ks ∧ root sR ∈ nodes k
    ∧ reads (get_next_chain_ancestor_unchecked (root sR) h) (store c) (root k).
Proof using HC HsA Hx0 Hne0 Hnd HsR.
  intros Hp Hu Hin Hne. apply nodes_node in Hin as [?|(k & Hk & Hin)]; [done|].
  exists k. split_and!; [done..|]. pose proof (up_node_ok c l _ Hp Hu) as Hix.
  assert (indexed (data c) k) as Hik.
  { apply indexed_iff. intros s Hs. apply Hix. by eapply subtree_kid. }
  pose proof (indexed_bounds _ _ _ Hik Hin) as (_ & ? & ? & ? & _).
  destruct (Hix _ (subtree_refl _)) as (_ & _ & Hsp). simpl in Hsp.
  apply (next_chain_ok (store c) t h ks k); auto.
  - apply (pa_ready _ Hp).
  - eapply subtree_trans; [by eapply up_subtree|apply x0_subtree].
  - by eapply spread_sorted.
  - eapply subtree_nodes; [eapply subtree_trans; [exact HsR|apply x0_subtree]|]. auto with kaspa.
Qed.

Lemma walk_up_safe c :
  partial c → 0 ≤ slack c →
  safe (reclaim_walk_up fuel side (root sA) (root x0) (root sR) required) c (λ r c2,
    ∃ l x, r.1 = root x ∧ up_path l x ∧ 0 ≤ r.2 ∧ level_done l r.2 c2
      ∧ moves t (λ _, True) c c2).
Proof using Hops Hlay HC HsA Hx0 Hne0 Hnd HksC HnearC Hfuel Hreq HsR HkR.
  intros Hp Hslack. unfold reclaim_walk_up.
  apply (safe_loop (λ n '(cur, ssum, plen) c', c' = c ∧ ∃ l x, cur = root x ∧ up_path l x
    ∧ root sR ∈ nodes x ∧ ssum = slacks c l ∧ plen = Z.of_nat (length l) ∧ ssum < required
    ∧ n = length (nodes x)) _ _ _ (length (nodes x0))).
  2: { split; [done|]. exists [], x0. split_and!; [done|constructor| |done|done|simpl; lia|done].
       eapply subtree_nodes; eauto with kaspa. }
  2: { pose proof (tsize_subtree _ _ x0_subtree). unfold tsize in *. lia. }
  intros n [[cur ssum] plen] c' (-> & l & x & -> & Hu & Hin & -> & -> & Hlt & ->).
  assert (subtree x t) as Hxt.
  { eapply subtree_trans; [by eapply up_subtree|apply x0_subtree]. }
  case_bool_decide as Hroot.
  - assert (x = sR) as ->.
    { eapply subtree_unique; eauto. eapply subtree_trans; [exact HsR|apply x0_subtree]. }
    apply safe_bind, runs_safe, runs_get.
    apply safe_bind, safe_lift; [apply Interval.checked_no_fuel|]. intros ? [-> _]%checked_inv.
    apply safe_bind, safe_lift; [apply Interval.checked_no_fuel|]. intros ? [-> _]%checked_inv.
    apply safe_bind, safe_lift; [apply Interval.checked_no_fuel|]. intros off [-> Hoff]%checked_inv.
    destruct (so_shrink t (SideOps:=Hops)) as (ds & de & Hsh & Hg).
    apply safe_bind. apply (apply_op_propagate_safe t fuel Hfuel _ ds de);
      [done|apply (so_shrink_op t (SideOps:=Hops))|apply Hp|done|done|].
    intros c1 Hm1 Hrd1 Hst Hen Hv Hix1. apply safe_bind.
    eapply safe_mono; [apply (do_level c c1 l sR); auto; [lia| |]|].
    { intros ->. simpl in *. lia. }
    { rewrite <- Hg. by apply interval_eq. }
    intros [] c2 [Hm2 Hd2]. apply safe_ret. exists l, sR. split_and!; auto.
    destruct l as [|z l']; [done|]. destruct Hd2 as [Hp2 Hs2]. split; [done|].
      rewrite Hs2. cbn [snd]. lia.
  - pose proof (up_node_ok _ _ _ Hp Hu _ (subtree_refl _)) as Hok.
    destruct (so_remaining t (SideOps:=Hops) c x (pa_ready _ Hp) Hxt Hok) as (Hsl & r & Hread & Hsize).
    apply safe_bind, runs_safe. eapply runs_on_store; [apply reads_try, Hread|].
    apply safe_bind, runs_safe. apply (runs_lift _ _ _ _ Hsize).
    apply safe_bind, safe_lift; [apply Interval.checked_no_fuel|]. intros ? [-> _]%checked_inv.
    destruct (Z.leb_spec required (slacks c l + g_slack g (I c) x)).
    + apply safe_bind, safe_lift; [apply Interval.checked_no_fuel|]. intros ? [-> _]%checked_inv.
      apply safe_bind, safe_lift; [apply Interval.checked_no_fuel|]. intros off [-> Hoff]%checked_inv.
      apply safe_bind. apply (shrink_safe c l x); auto; [lia|].
      intros c1 Hm1 Hrd1 HI1 Hix1. apply safe_bind.
      eapply safe_mono; [apply (do_level c c1 l x); auto; [lia|]|].
      { intros ->. simpl in *. lia. }
      intros [] c2 [Hm2 Hd2]. apply safe_ret. exists l, x. split_and!; auto; [simpl; lia|].
      destruct l as [|z l']; [done|]. destruct Hd2 as [Hp2 Hs2]. split; [done|].
      rewrite Hs2. cbn [snd]. lia.
    + destruct x as [h ks]. destruct (up_next c l h ks Hp Hu Hin Hroot) as (k & Hk & Hin' & Hnext).
      apply safe_bind, runs_safe. eapply runs_on_store; [exact Hnext|].
      apply safe_bind, safe_lift; [apply Interval.checked_no_fuel|]. intros ? [-> _]%checked_inv.
      apply safe_ret. exists (length (nodes k)). split.
      * split; [done|]. exists (Node h ks :: l), k. split_and!; auto.
        -- by constructor.
        -- unfold slacks. rewrite fmap_cons, zsum_cons. lia.
        -- simpl length. lia.
      * pose proof (kid_tsize h ks k (Node h ks) (subtree_refl _) Hk). unfold tsize in *. lia.
Qed.

Lemma reclaim_interval_safe c :
  partial c → 0 ≤ slack c →
  safe (reclaim_interval fuel side (root sA) C (root x0) (root sR) required) c (λ _ c',
    moves t (λ _, True) c c' ∧ finished c').
Proof using Hops Hlay HC HsA Hx0 Hne0 Hnd HksC HnearC Hfuel Hreq HsR HkR.
  intros Hp Hslack. unfold reclaim_interval. apply safe_bind.
  eapply safe_mono; [by apply walk_up_safe|]. intros [cur alloc] c2 (l & x & Hcur & Hu & Ha & Hd & Hm).
  simpl in *. subst cur. by apply (walk_down_safe l).
Qed.
End walk.
