(* ===== verification/ReachAdd.v ===== *)
(** * Adding a block when its parent has no room

    [reindex_intervals] of [reindex.rs] and [add_tree_block] of [tree.rs]: whenever
    they return, the store represents the tree with the new leaf and its intervals
    index it. *)

From S2P Require Import Prelude Hash Interval ReachStore Reachability ReachTree ReachQuery ReachDag ReachInsert ReachCount ReachPropagate ReachReindex ReachReclaim ReachWalk.
Import Interval (Interval, start, end_, valid, card, contains, strictly_contains).

Section reindex.
Context (t0 : tree) (p n RR : Hash).
Abbreviation t := (graft p n t0).
Context (Hnd0 : NoDup (nodes t0)) (Hp : p ∈ nodes t0) (Hn : n ∉ nodes t0).
Context (HRR : RR ∈ nodes t0).
(** The reindex root is the root of the tree or has a child. *)
Context (HRRk : RR = root t0 ∨ ∃ ks, subtree (Node RR ks) t0 ∧ ks ≠ []).
Abbreviation I c := (ivl (data c)).

(** The new leaf [n] has an empty interval at the end of that of its parent. *)
Record fresh_leaf (c : RCtx) : Prop := {
  fl_ready : ready t c;
  fl_old : indexed (data c) t0;
  fl_new : I c n = Interval.mk (end_ (I c p)) (end_ (I c p) - 1);
}.

Lemma t_nodup : NoDup (nodes t).
Proof using Hnd0 Hp Hn. rewrite graft_nodes by done. by apply NoDup_cons. Qed.

Lemma in_t x : x ∈ nodes t ↔ x = n ∨ x ∈ nodes t0.
Proof using Hnd0 Hp. by apply graft_elem. Qed.

Lemma leaf_subtree s : subtree s t → root s = n → s = Node n [].
Proof using Hn.
  intros Hs Hr. destruct (graft_subtree_inv _ _ _ _ Hs) as [?|(s0 & Hs0 & ->)]; [done|].
  rewrite graft_root in Hr. exfalso. apply Hn. rewrite <- Hr.
  eapply subtree_nodes; eauto with kaspa.
Qed.

Lemma old_subtree s : subtree s t → root s ≠ n → ∃ s0, subtree s0 t0 ∧ s = graft p n s0.
Proof using.
  intros Hs Hr. destruct (graft_subtree_inv _ _ _ _ Hs) as [->|?]; [done|done].
Qed.

Lemma leaf_node_ok c s :
  fresh_leaf c → subtree s t → root s ≠ n → root s ≠ p → node_ok (I c) s.
Proof using.
  intros Hc Hs Hrn Hrp. destruct (old_subtree s Hs Hrn) as (s0 & Hs0 & ->).
  rewrite graft_root in *. apply node_ok_graft; [|done].
  by apply (proj1 (indexed_iff (data c) t0) (fl_old _ Hc)).
Qed.

(** The parent of the leaf: its other children are laid out before the leaf. *)
Lemma leaf_parent c ks :
  fresh_leaf c → subtree (Node p ks) t →
  ∃ ks0, root <$> ks = (root <$> ks0) ++ [n] ∧ subtree (Node p ks0) t0
    ∧ node_ok (I c) (Node p ks0).
Proof using Hn Hp.
  intros Hc Hs. destruct (old_subtree _ Hs) as ([h ks0] & Hs0 & Heq);
    [intros Hpn; apply Hn; by rewrite <- Hpn|].
  assert (h = p) as -> by (pose proof (f_equal root Heq) as Hh; by rewrite graft_root in Hh).
  exists ks0. split_and!; [|done|by apply (proj1 (indexed_iff (data c) t0) (fl_old _ Hc))].
  pose proof (f_equal (λ s, root <$> kids s) Heq) as Hk. cbv beta in Hk.
  rewrite graft_kid_roots in Hk. simpl in Hk. by rewrite bool_decide_eq_true_2 in Hk.
Qed.

(** The subtree of a block on the way from the leaf to the root. *)
Definition on_way (sc : tree) : Prop := subtree sc t ∧ n ∈ nodes sc.

Lemma leaf_parent_unique q ks k : subtree (Node q ks) t → k ∈ ks → root k = n → q = p.
Proof using Hn.
  intros Hq Hk Hr. assert (root (Node q ks) ≠ n) as Hqn.
  { simpl. intros Hqn. pose proof (leaf_subtree _ Hq Hqn) as [= _ Hks].
    rewrite Hks in Hk. by apply elem_of_nil in Hk. }
  destruct (old_subtree _ Hq Hqn) as ([h ks0] & Hs0 & Heq).
  pose proof (f_equal root Heq) as Hh. rewrite graft_root in Hh. simpl in Hh. subst h.
  destruct (decide (q = p)) as [|Hqp]; [done|]. exfalso. apply Hn.
  pose proof (f_equal (λ s, root <$> kids s) Heq) as Hks. cbv beta in Hks.
  rewrite graft_kid_roots in Hks. simpl in Hks. rewrite bool_decide_eq_false_2, app_nil_r in Hks by done.
  assert (n ∈ root <$> ks) as Hin' by (apply list_elem_of_fmap; eauto).
  rewrite Hks in Hin'. apply list_elem_of_fmap in Hin' as (k0 & -> & Hk0).
  eapply subtree_nodes; [exact Hs0|]. apply nodes_node. eauto with kaspa.
Qed.

Lemma on_way_parent sc : on_way sc → root sc ≠ n → p ∈ nodes sc.
Proof using Hn.
  intros [Hs Hin] Hne. destruct (tree_parent sc n Hin) as (q & ks & k & Hq & Hk & Hr); [done|].
  assert (subtree (Node q ks) t) as Hqt by eauto using subtree_trans.
  rewrite <- (leaf_parent_unique q ks k Hqt Hk Hr). eapply subtree_nodes; [exact Hq|left].
Qed.

(** Blocks that are not on the way keep their intervals in order. *)
Lemma leaf_outside c sc s :
  fresh_leaf c → on_way sc → root sc ≠ n → subtree s t → (root s ∉ nodes sc) → node_ok (I c) s.
Proof using Hn.
  intros Hc Hw Hne Hs Hout. apply (leaf_node_ok c s Hc Hs).
  - intros Hr. apply Hout. rewrite Hr. apply Hw.
  - intros Hr. apply Hout. rewrite Hr. by apply on_way_parent.
Qed.

Context (fuel : nat) (Hfuel : (length (nodes t) < fuel)%nat).

(** The first exit of the loop: the current block has room for its subtree. *)
Lemma reindex_here c sc :
  fresh_leaf c → on_way sc → root sc ≠ n → valid (I c (root sc)) → tsize sc ≤ card (I c (root sc)) →
  safe (propagate_interval fuel (root sc)) c (λ _ c', moves t (λ _, True) c c' ∧ finished t c').
Proof using Hfuel Hnd0 Hp Hn.
  intros Hc Hw Hne Hv Hroom. pose proof (fl_ready _ Hc) as [Hr Hsz]. destruct Hw as [Hs Hin].
  eapply safe_mono; [by apply runs_safe, (propagate_interval_ok t fuel Hfuel c sc)|].
  intros [] c' (Hm & Hsz' & Hix). split; [by eapply moves_weaken|].
  split; [split; [by eapply moves_represents|done]|]. intros s Hst.
  destruct (decide (root s ∈ nodes sc)) as [Hrs|Hout].
  - apply Hix. apply (subtree_or_outside t); auto using t_nodup.
  - eapply (node_ok_outside t sc); eauto using t_nodup. by apply (leaf_outside c sc).
Qed.

(** ** The second exit *)

Section earlier.
Context (c : RCtx) (C : Hash) (ksC : list tree) (sc : tree).
Context (Hc : fresh_leaf c) (Hw : on_way sc) (HRRs : RR ∉ nodes sc).
Context (HC : subtree (Node C ksC) t) (Hsc : sc ∈ ksC).

Lemma C_old : C ≠ n.
Proof using Hn Hsc HC.
  intros ->. pose proof (leaf_subtree _ HC eq_refl) as [= ->]. by apply elem_of_nil in Hsc.
Qed.

Lemma C_outside : C ∉ nodes sc.
Proof using Hnd0 Hp Hn HC Hsc.
  eapply NoDup_subtree in HC; [|apply t_nodup]. apply NoDup_nodes_inv in HC as (Hh & _). auto.
Qed.

(** The layout of the children of the common ancestor. *)
Lemma C_layout :
  valid (I c C) ∧ nonempty (I c C)
  ∧ layout (start (I c C)) (I c ∘ root <$> ksC) (end_ (I c C) - 1)
  ∧ StronglySorted before (I c ∘ root <$> ksC)
  ∧ (∀ k, k ∈ ksC → k ≠ sc → nonempty (I c (root k)))
  ∧ (nonempty (I c (root sc)) ∨ start (I c (root sc)) = end_ (I c C)).
Proof.
  destruct (decide (root sc = n)) as [Hcur|Hcur].
  - assert (C = p) as HCp by by apply (leaf_parent_unique C ksC sc).
    rewrite HCp in *. destruct (leaf_parent c ksC Hc HC) as (ks0 & Hks & Hs0 & (Hv & Hne & Hsp)).
    simpl in Hv, Hne, Hsp. rewrite (list_fmap_compose root (I c)) in Hsp.
    rewrite (list_fmap_compose root (I c)), Hks, fmap_app. simpl. rewrite (fl_new _ Hc).
    rewrite Hcur, (fl_new _ Hc). simpl. pose proof Hsp as Hsp2.
    apply spread_layout in Hsp2 as [Hl Hnek]. split_and!; auto.
    + apply (layout_app _ _ _ (end_ (I c p) - 1)); [done| |lia..]. simpl. split_and!; try done; lia.
    + pose proof (spread_sorted _ _ _ Hsp) as Hsort.
      assert (∀ i, i ∈ I c <$> (root <$> ks0) → before i (Interval.mk (end_ (I c p)) (end_ (I c p) - 1))) as Hlast.
      { intros i Hi. pose proof (spread_bounds _ _ _ _ Hsp Hi). unfold before. simpl. lia. }
      clear -Hsort Hlast. induction Hsort as [|i l Hs IH Hi]; simpl.
      * apply (SSorted_cons _ (SSorted_nil _)). constructor.
      * constructor; [apply IH; intros; apply Hlast; by right|].
        apply Forall_app. split; [done|]. apply Forall_singleton. apply Hlast. left.
    + intros k Hk Hks'. assert (root k ∈ (root <$> ks0) ++ [n]) as Hin
        by (rewrite <- Hks; apply list_elem_of_fmap; eauto).
      apply elem_of_app in Hin as [Hin|Hin%list_elem_of_singleton].
      * rewrite Forall_forall in Hnek. apply Hnek. apply list_elem_of_fmap. eauto.
      * exfalso. apply Hks'. eapply (subtree_unique t); [apply t_nodup| | |congruence];
          by eapply kid_subtree.
  - assert (node_ok (I c) (Node C ksC)) as (Hv & Hne & Hsp)
      by (apply (leaf_outside c sc); auto; apply C_outside). simpl in *.
    pose proof Hsp as Hsp2. apply spread_layout in Hsp2 as [Hl Hnek].
    rewrite nonempty_fmap in Hnek. split_and!; auto. by eapply spread_sorted.
Qed.

Lemma earlier_partial : partial t C ksC sc c.
Proof.
  destruct C_layout as (? & ? & ? & _ & ? & _). split; auto; [apply Hc|].
  intros s Hs Hout HsC. destruct (decide (root sc = n)) as [Hcur|Hcur].
  - apply (leaf_node_ok c s Hc Hs).
    + intros Hr. apply Hout. rewrite Hr. apply Hw.
    + rewrite <- (leaf_parent_unique C ksC sc); auto.
  - by apply (leaf_outside c sc).
Qed.

Context (HCR : below t0 C RR) (HCne : C ≠ RR) (Hreq : 1 ≤ tsize sc).

(** The child of the common ancestor towards the reindex root. *)
Lemma chosen_child : ∃ x0, x0 ∈ ksC ∧ RR ∈ nodes x0 ∧ x0 ≠ sc.
Proof using Hnd0 Hp Hn HC HCR HCne HRRs.
  destruct HCR as (s0 & Hs0 & Hr0 & Hin).
  assert (graft p n s0 = Node C ksC) as Heq.
  { eapply (subtree_unique t); [apply t_nodup|by apply graft_subtree|done|by rewrite graft_root]. }
  assert (RR ∈ nodes (Node C ksC)) as HinC by (rewrite <- Heq; by apply graft_mono).
  apply nodes_node in HinC as [?|(x0 & Hx0 & Hx)]; [congruence|].
  exists x0. split_and!; auto. by intros ->.
Qed.

Lemma root_subtree x0 : x0 ∈ ksC → RR ∈ nodes x0 → ∃ sR, subtree sR x0 ∧ root sR = RR ∧ kids sR ≠ [].
Proof.
  intros Hx0 Hin. destruct (tree_node x0 RR Hin) as [ks HsR].
  exists (Node RR ks). split_and!; auto. simpl.
  destruct HRRk as [Hroot|(ks0 & Hks0 & Hne)].
  - exfalso. destruct HCR as (s0 & Hs0 & Hr0 & Hin0).
    assert (subtree t0 s0) as Hsub by (apply (subtree_or_outside t0); auto; [constructor|by rewrite <- Hroot]).
    apply tsize_subtree in Hsub. destruct (proper_subtree _ _ Hs0) as [Heq|]; [|lia].
    apply HCne. by rewrite Hroot, <- Heq.
  - assert (subtree (Node RR ks) t) as HRt.
    { eapply subtree_trans; [exact HsR|]. exact (kid_subtree _ _ _ _ HC Hx0). }
    assert (graft p n (Node RR ks0) = Node RR ks) as Heq.
    { eapply (subtree_unique t); [apply t_nodup|by apply graft_subtree|done|by rewrite graft_root]. }
    injection Heq as Heq. rewrite <- Heq. destruct ks0; [done|]. simpl. done.
Qed.

Lemma earlier_safe :
  0 ≤ slack c →
  safe (reindex_intervals_earlier_than_root fuel (root sc) RR C (tsize sc)) c (λ _ c',
    moves t (λ _, True) c c' ∧ finished t c').
Proof.
  intros Hslack. destruct chosen_child as (x0 & Hx0 & Hin & Hne).
  destruct (root_subtree x0 Hx0 Hin) as (sR & HsR & HrR & HkR).
  pose proof earlier_partial as Hpar. destruct C_layout as (HvC & HneC & HlC & HsortC & HkC & Hemp).
  assert (indexes x0 c) as Hix0.
  { eapply (up_node_ok t C ksC sc x0 HC Hsc Hx0 Hne t_nodup c []); [done|constructor]. }
  assert (indexed (data c) x0) as Hi0 by (apply indexed_iff; exact Hix0).
  pose proof (indexed_bounds _ _ _ Hi0 Hin) as (_ & ? & ? & ? & _).
  pose proof (fl_ready _ Hc) as [Hr Hsz].
  assert (root x0 ∈ nodes t) as Hx0t.
  { eapply subtree_nodes; [exact (kid_subtree _ _ _ _ HC Hx0)|]. auto with kaspa. }
  assert (root sc ∈ nodes t) as Hsct.
  { eapply subtree_nodes; [exact (kid_subtree _ _ _ _ HC Hsc)|]. auto with kaspa. }
  unfold reindex_intervals_earlier_than_root. apply safe_bind, runs_safe.
  eapply runs_on_store.
  { apply (next_chain_ok (store c) t C ksC x0 RR); auto. apply in_t. auto. }
  apply safe_bind, runs_safe. eapply runs_on_store; [by apply reads_try, (read_interval _ t)|].
  apply safe_bind, runs_safe. eapply runs_on_store; [by apply reads_try, (read_interval _ t)|].
  pose proof (HkC x0 Hx0 Hne) as Hnx0. unfold nonempty in *.
  apply list_elem_of_split in Hx0 as (lC & rC & Heq).
  assert (sc ∈ lC ∨ sc ∈ rC) as Hside.
  { rewrite Heq in Hsc. apply elem_of_app in Hsc as [|[?|]%elem_of_cons]; naive_solver. }
  rewrite Heq, fmap_app, fmap_cons in HlC.
  apply layout_app_inv in HlC as (m & ? & HlL & (? & ? & ? & HlR) & _). simpl in *.
  assert (∀ lo hi l k, layout lo (I c ∘ root <$> l) hi → k ∈ l →
    lo ≤ start (I c (root k)) ∧ end_ (I c (root k)) ≤ hi ∧ start (I c (root k)) ≤ end_ (I c (root k)) + 1) as Hbd.
  { clear. intros lo hi l k Hl Hk. induction l as [|k' l IH] in lo, Hl, Hk |- *; [by apply elem_of_nil in Hk|].
    destruct Hl as (? & ? & ? & Hl). simpl in *. apply elem_of_cons in Hk as [->|Hk]; [lia|].
    specialize (IH _ Hl Hk). lia. }
  pose proof (side_ops_before t fuel Hfuel). pose proof (side_ops_after t fuel Hfuel).
  rewrite <- HrR. assert (x0 ∈ ksC) as Hx0 by (rewrite Heq, elem_of_app, elem_of_cons; auto).
  destruct Hside as [HL|HR].
  - pose proof (Hbd _ _ _ _ HlL HL).
    rewrite (proj2 (Z.ltb_lt _ _)) by lia.
    assert (sc ∈ reverse lC) as HL' by by rewrite elem_of_reverse.
    apply list_elem_of_split in HL' as (n1 & n2 & Hnear).
    apply (reclaim_interval_safe t (side_before fuel) geom_before C ksC sc x0 HC Hsc Hx0 Hne t_nodup
      lC rC n1 n2 Heq Hnear fuel Hfuel _ Hreq sR HsR HkR c Hpar Hslack).
  - pose proof (Hbd _ _ _ _ HlR HR).
    rewrite (proj2 (Z.ltb_ge _ _)) by lia.
    apply list_elem_of_split in HR as (n1 & n2 & Hnear).
    apply (reclaim_interval_safe t (side_after fuel) geom_after C ksC sc x0 HC Hsc Hx0 Hne t_nodup
      lC rC n1 n2 Heq Hnear fuel Hfuel _ Hreq sR HsR HkR c Hpar Hslack).
Qed.
End earlier.

(** ** The loop *)

Lemma on_way_valid c sc : fresh_leaf c → on_way sc → valid (I c (root sc)).
Proof.
  intros Hc [Hs _].
  pose proof (indexed_bounds _ _ _ (fl_old _ Hc) Hp) as ((? & ? & ?) & _).
  destruct (decide (root sc = n)) as [->|Hne].
  - rewrite (fl_new _ Hc). unfold valid. simpl. 
    pose proof (indexed_bounds _ _ _ (fl_old _ Hc) Hp) as (_ & _ & ? & _). lia.
  - assert (root sc ∈ nodes t) as Hin by (eapply subtree_nodes; eauto with kaspa).
    apply in_t in Hin as [?|Hin]; [done|]. by apply (indexed_bounds _ _ _ (fl_old _ Hc) Hin).
Qed.

Lemma count_fresh c sc (Q : unit → RCtx → Prop) :
  fresh_leaf c → subtree sc t →
  (∀ c', moves t (λ _, False) c c' → fresh_leaf c' → slack c' = slack c →
     is_Some (subtree_sizes c' !! root sc) → Q tt c') →
  runs (count_subtrees fuel (root sc)) c Q.
Proof using Hfuel.
  intros Hc Hs HQ. pose proof (fl_ready _ Hc) as [Hr Hsz].
  apply (count_moves t fuel Hfuel c sc); auto. intros c' Hm Hst Hsz' Hin.
  apply HQ; [done| |apply (mv_slack _ _ _ _ Hm)|done].
  split; rewrite ?Hst; [split; [by rewrite Hst|done]|apply Hc..].
Qed.

Lemma reindex_intervals_safe c :
  fresh_leaf c → 0 ≤ slack c →
  safe (reindex_intervals fuel n RR) c (λ _ c', moves t (λ _, True) c c' ∧ finished t c').
Proof using Hfuel Hnd0 Hp Hn HRR HRRk.
  intros Hc Hslack. unfold reindex_intervals. apply safe_bind.
  apply (safe_loop (λ m cur c', ∃ sc, cur = root sc ∧ on_way sc ∧ (RR ∉ nodes sc ∨ cur = RR)
    ∧ fresh_leaf c' ∧ moves t (λ _, True) c c' ∧ 0 ≤ slack c'
    ∧ (m + length (nodes sc) = length (nodes t))%nat) _ _ _ (length (nodes t) - 1)).
  2: { exists (Node n []). split_and!; auto.
       - assert (n ∈ nodes t) as Hnt by (apply in_t; auto).
         destruct (tree_node t n Hnt) as [ks Hks]. pose proof (leaf_subtree _ Hks eq_refl) as [= ->].
         split; [done|left].
       - left. simpl. rewrite list_elem_of_singleton. by intros ->.
       - apply moves_refl.
       - simpl. assert (length (nodes t) ≠ 0%nat); [|lia]. by destruct t0. }
  2: lia.
  intros m cur c1 (sc & -> & Hw & HRRs & Hc1 & Hm1 & Hsl1 & Hmeas). pose proof (fl_ready _ Hc1) as [Hr Hsz].
  assert (root sc ∈ nodes t) as Hsct by (destruct Hw as [Hs _]; eapply subtree_nodes; eauto with kaspa).
  pose proof (on_way_valid c1 sc Hc1 Hw) as Hv. pose proof Hw as [Hs Hin].
  apply safe_bind, runs_safe. eapply runs_on_store; [by apply reads_try, (read_interval _ t)|].
  apply safe_bind, runs_safe, (count_fresh c1 sc); auto. intros c2 Hm2 Hc2 Hsl2 Hin2.
  pose proof (fl_ready _ Hc2) as [Hr2 Hsz2].
  assert (I c1 (root sc) = I c2 (root sc)) as HI by (symmetry; apply (mv_ivl _ _ _ _ Hm2); tauto).
  rewrite HI in *. assert (moves t (λ _, True) c c2) as Hm12 by (by eapply moves_trans).
  assert (reads (size_of (T:=Mem) (root sc)) c2 (tsize sc)) as Hsize
    by (by apply (size_of_ok t (store c2) Hr2 (subtree_sizes c2))).
  apply safe_bind, runs_safe, (runs_lift _ _ _ _ (Interval.size_ok _ Hv)).
  apply safe_bind, runs_safe. eapply reads_runs; [exact Hsize|].
  destruct (Z.leb_spec (tsize sc) (card (I c2 (root sc)))) as [Hfit|Hfit].
  { apply safe_ret. eapply safe_mono; [apply (reindex_here c2 sc); auto|].
    - intros Hrn. rewrite Hrn, (fl_new _ Hc2) in Hfit. pose proof (tsize_pos sc).
      unfold card in Hfit. simpl in Hfit. lia.
    - intros [] c3 [Hm3 Hf]. split; [by eapply moves_trans|done]. }
  destruct (decide (root sc = root t)) as [Hroot|Hroot].
  { assert (reads (get_parent (root sc)) (store c2) Hashes.NONE) as Hpar.
    { rewrite Hroot. destruct (shape_lookup _ _ _ _ (rep_shape _ _ Hr2)) as (d & Hd & <- & _).
      by apply mem_get_parent. }
    apply safe_bind, runs_safe. eapply runs_on_store; [by apply reads_try|].
    apply safe_fail. }
  destruct (tree_parent t (root sc) Hsct Hroot) as (q & ks & k & Hq & Hk & Hkr).
  assert (k = sc) as -> by (eapply (subtree_unique t); eauto using t_nodup, kid_subtree).
  apply safe_bind, runs_safe.
  eapply runs_on_store; [by apply reads_try, (read_parent _ t Hr2 q ks sc)|].
  assert (q ∈ nodes t) as Hqt by (eapply subtree_nodes; [exact Hq|left]).
  unfold Hashes.is_none. rewrite bool_decide_eq_false_2.
  2: { intros ->. by apply (rep_none _ _ Hr2). }
  case_bool_decide as HcurR; [apply safe_fail|].
  destruct HRRs as [HRRs|?]; [|done].
  assert (q ∈ nodes t0) as Hq0.
  { apply in_t in Hqt as [->|?]; [|done]. by destruct (C_old n ks sc Hq Hk). }
  assert (is_Some (data c2 !! q) ∧ is_Some (data c2 !! RR)) as [Hdq HdR].
  { split; apply (rep_dom _ _ Hr2); [done|]. apply in_t. auto. }
  apply safe_bind, runs_safe. eapply runs_on_store; [by apply mem_strictly_contains|].
  destruct (strictly_contains _ _) eqn:Hsc.
  - apply (strictly_contains_below _ t0) in Hsc as [HqR Hne]; auto using fl_old.
    apply safe_bind, runs_safe. eapply reads_runs; [exact Hsize|]. apply safe_bind.
    eapply safe_mono; [apply (earlier_safe c2 q ks sc); auto; [apply tsize_pos|lia]|].
    intros [] c3 [Hm3 Hf3]. apply safe_ret, safe_ret. split; [by eapply moves_trans|done].
  - apply safe_ret. exists (length (nodes t) - length (nodes (Node q ks)))%nat.
    pose proof (kid_tsize q ks sc (Node q ks) (subtree_refl _) Hk) as Hgrow.
    pose proof (tsize_subtree _ _ Hq) as Hle. unfold tsize in Hgrow, Hle. split; [|lia].
    exists (Node q ks). split_and!; auto; [| |lia|lia].
    + split; [done|]. apply nodes_node. eauto.
    + destruct (decide (q = RR)) as [|Hqne]; [by right|left]. intros HinR.
      assert (strictly_contains (I c2 q) (I c2 RR) = true) as Hsc'; [|congruence].
      apply (strictly_contains_below _ t0); auto using fl_old. split; [|done].
      destruct (old_subtree _ Hq) as (s0 & Hs0 & Heq); [simpl; by intros ->|].
      exists s0. split_and!; [done|by rewrite <- (graft_root p n), <- Heq|].
      rewrite Heq in HinR. destruct (decide (p ∈ nodes s0)) as [Hps|Hps].
      * apply graft_elem in HinR as [HRn|?]; [exfalso; apply Hn; by rewrite <- HRn|done| |done].
        by eapply NoDup_subtree.
      * by rewrite graft_kids in HinR.
Qed.
End reindex.

(** ** [add_tree_block] *)

Lemma shape_height D q m t h d :
  shape D q m t → h ∈ nodes t → D !! h = Some d → m ≤ height d < m + tsize t.
Proof.
  revert q m. induction t as [h' ks IH] using tree_ind'; intros q m Hs Hh Hd.
  inversion Hs as [? ? ? ? d' Hd' _ Hm _ Hks]; subst. rewrite Forall_forall in IH, Hks.
  apply nodes_node in Hh as [->|(k & Hk & Hh)].
  - simplify_eq. pose proof (tsize_pos (Node h' ks)). lia.
  - pose proof (IH k Hk _ _ (Hks k Hk) Hh Hd).
    pose proof (kid_tsize h' ks k (Node h' ks) (subtree_refl _) Hk). lia.
Qed.

(** The reindex root is a block of the tree: the root, or a block with children. *)
Definition root_ok (t : tree) (s : Mem) : Prop :=
  ∃ r, Memory.reindex_root s = Some r ∧ r ∈ nodes t
    ∧ (r = root t ∨ ∃ ks, subtree (Node r ks) t ∧ ks ≠ []).

Lemma graft_root_ok p n t s s' :
  root_ok t s → Memory.reindex_root s' = Memory.reindex_root s → root_ok (graft p n t) s'.
Proof.
  intros (r & Hr & Hin & Hk) Hs'. exists r. split_and!; [congruence|by apply graft_mono|].
  rewrite graft_root. destruct Hk as [?|(ks & Hks & Hne)]; [by left|right].
  apply (graft_subtree p n) in Hks. simpl in Hks. eexists. split; [exact Hks|].
  by destruct ks.
Qed.

Section add.
Context (fuel : nat) (s : Mem) (t0 : tree) (p n : Hash) (dp : ReachabilityData).
Abbreviation D := (Memory.map s).
Abbreviation t := (graft p n t0).
Context (Hr : represents D t0) (Hi : indexed D t0) (Hroot : root_ok t0 s).
Context (Hdp : D !! p = Some dp) (Hfresh : D !! n = None) (Hnone : n ≠ Hashes.NONE).
Context (Hsize : tsize t0 < u64_max).

(** The outcome of a successful insertion. *)
Definition added (s' : Mem) : Prop :=
  represents (Memory.map s') t ∧ indexed (Memory.map s') t ∧ root_ok t s'
  ∧ ∀ R, covers D t0 R → covers (Memory.map s') t (extended p n R).

Lemma added_inserted i :
  represents (inserted s p n dp i) t
  ∧ ∀ R, covers D t0 R → covers (inserted s p n dp i) t (extended p n R).
Proof using Hr Hdp Hfresh Hnone Hsize.
  pose proof (inserted_grafted s p n dp Hdp Hfresh i) as Hg.
  assert (p ∈ nodes t0) as Hp by (apply (rep_dom _ _ Hr); eauto).
  assert (represents (inserted s p n dp i) t) as Hr' by (eapply grafted_represents; eauto).
  split; [done|]. intros R HR. eapply grafted_covers; eauto.
Qed.

Abbreviation remaining_interval := (Interval.mk (free_from s p dp) (end_ (ivl D p) - 1)).

(** There is room after the last child of the parent. *)
Lemma add_tree_block_room dep sl :
  free_from s p dp < end_ (ivl D p) →
  runs (add_tree_block fuel n p dep sl) s (λ _ s', added s').
Proof using Hr Hi Hroot Hdp Hfresh Hnone Hsize.
  intros Hroom. destruct (free_from_spread s t0 p dp Hr Hi Hdp) as (Hv & Hle & _).
  pose proof (remaining_after_ok s t0 p dp Hr Hi Hdp) as Hrem. unfold add_tree_block.
  apply runs_bind. eapply reads_runs; [by apply reads_try|].
  apply runs_bind. eapply runs_intro; [unfold try, map_err; by rewrite (append_child_ok s p n dp Hdp)|].
  apply runs_bind, (runs_lift _ _ _ _ (Interval.is_empty_ok _ Hv)).
  rewrite (proj2 (Z.eqb_neq _ _)) by (unfold card; simpl; lia).
  destruct (Interval.split_half_ok (E:=ReachabilityError) remaining_interval Hv)
    as (l & r & Hsplit & Htiles & Hvl & _ & Hcard); [simpl; lia|].
  apply runs_bind, (runs_lift _ _ _ _ Hsplit). simpl in Htiles.
  destruct Htiles as (Hst & ? & ? & ? & ?).
  assert (p ∈ nodes t0) as Hp by (apply (rep_dom _ _ Hr); eauto).
  pose proof (shape_height _ _ _ _ _ _ (rep_shape _ _ Hr) Hp Hdp) as Hh.
  apply runs_bind, (runs_lift _ (height dp + 1)); [apply add64_ok; lia|].
  eapply runs_intro; [unfold try, map_err; by rewrite (insert_block_ok s p n dp Hdp Hfresh)|].
  destruct (added_inserted l) as [Hr' Hcov]. split_and!; simpl; auto.
  - apply (inserted_indexed s t0 p n dp Hr Hi Hdp Hfresh); auto; unfold card in *; lia.
  - by eapply graft_root_ok.
Qed.

Context (Hfuel : (length (nodes t) < fuel)%nat).

Lemma add_tree_block_safe dep sl :
  0 ≤ sl → safe (add_tree_block fuel n p dep sl) s (λ _ s', added s').
Proof using All.
  intros Hsl. destruct (free_from_spread s t0 p dp Hr Hi Hdp) as (Hv & Hle & Hsp).
  destruct (decide (free_from s p dp < end_ (ivl D p))) as [|Hfull].
  { by apply runs_safe, add_tree_block_room. }
  pose proof (remaining_after_ok s t0 p dp Hr Hi Hdp) as Hrem. unfold add_tree_block.
  apply safe_bind, runs_safe. eapply reads_runs; [by apply reads_try|].
  apply safe_bind, runs_safe.
  eapply runs_intro; [unfold try, map_err; by rewrite (append_child_ok s p n dp Hdp)|].
  apply safe_bind, runs_safe, (runs_lift _ _ _ _ (Interval.is_empty_ok _ Hv)).
  pose proof Hv as (? & ? & ?). simpl in *.
  rewrite (proj2 (Z.eqb_eq _ _)) by (unfold card; simpl; lia).
  apply safe_bind, safe_lift; [apply Interval.checked_no_fuel|]. intros ? [-> _]%checked_inv.
  apply safe_bind, runs_safe.
  eapply runs_intro; [unfold try, map_err; by rewrite (insert_block_ok s p n dp Hdp Hfresh)|].
  destruct Hroot as (RR & HR & HRin & HRk). apply safe_bind, runs_safe.
  eapply (runs_intro _ _ RR); [unfold try, map_err; simpl; by rewrite HR|].
  destruct (added_inserted remaining_interval) as [Hr' Hcov].
  assert (p ∈ nodes t0) as Hp by (apply (rep_dom _ _ Hr); eauto).
  assert (n ∉ nodes t0) as Hn by (rewrite <- (rep_dom _ _ Hr), Hfresh; by intros [? ?]).
  assert (p ≠ n) as Hpn by congruence.
  set (c := mkCtx (Memory.mk (inserted s p n dp remaining_interval) (Some RR)) ∅ dep sl).
  assert (fresh_leaf t0 p n c) as Hc.
  { split; [split; [done|apply sizes_ok_empty]| |].
    - eapply indexed_ivl; [|exact Hi]. intros h Hh. apply inserted_old; [done|]. by intros ->.
    - simpl. rewrite inserted_new, inserted_old by done. f_equal. lia. }
  pose proof (reindex_intervals_safe t0 p n RR (rep_nodup _ _ Hr) Hp Hn HRin HRk fuel Hfuel c Hc Hsl) as Hsafe.
  unfold with_ctx, safe in *.
  match goal with |- context [reindex_intervals fuel n RR ?x] => change x with c end.
  destruct (reindex_intervals fuel n RR c) as [[[]| | |] c']; simpl; try done.
  destruct Hsafe as (Hm & [Hr2 _] & Hix). split_and!; [done|by apply indexed_iff| |].
  - eapply (graft_root_ok p n t0 s); [by exists RR|].
    rewrite HR. apply (mv_root _ _ _ _ Hm).
  - intros R HR'. eapply reindexed_covers; [apply (mv_data _ _ _ _ Hm)|]. by apply Hcov.
Qed.
End add.
