(* ===== verification/ReachConcentrate.v ===== *)
(** * Concentrating intervals and advancing the reindex root

    [concentrate_interval] of [reindex.rs] moves the free space of a block to its
    child towards the new reindex root; [try_advancing_reindex_root] of [tree.rs]
    does so along a chain.  Whenever they return, the intervals index the tree. *)

From S2P Require Import Prelude Hash Interval ReachStore Reachability ReachTree ReachQuery ReachDag ReachCount ReachPropagate ReachReindex ReachReclaim ReachWalk ReachAdd.
Import Interval (Interval, start, end_, valid, card, contains, strictly_contains).

Lemma sum64_from_inv {E} acc l z : sum64_from (E:=E) acc l = Ok z → z = acc + zsum l.
Proof.
  revert acc. induction l as [|x l IH]; intros acc; simpl; [intros [= <-]; lia|].
  unfold add64. destruct (checked u64_max (acc + x)) eqn:Hc; try done.
  apply checked_inv in Hc as [-> _]. intros ->%IH. unfold zsum. lia.
Qed.
Lemma sum64_from_no_fuel {E} acc l : sum64_from (E:=E) acc l ≠ Fuel.
Proof.
  revert acc. induction l as [|x l IH]; intros acc; simpl; [done|].
  unfold add64. destruct (checked u64_max (acc + x)) eqn:Hc; try done; [apply IH|].
  by apply Interval.checked_no_fuel in Hc.
Qed.

Lemma bind_then_ret {S E A B} (o : outcome E A) (m : A → M S E unit) (b : B) s (Q : B → S → Prop) :
  runs (l ← lift o; m l) s (λ _ s', Q b s') → safe (l ← lift o; m l;; mret b) s Q.
Proof.
  unfold runs, safe, mbind, M_bind, lift. destruct o as [a| | |]; simpl; try done.
  by destruct (m a s) as [[] ?].
Qed.

Lemma tiles_layout lo l hi : Interval.tiles lo l hi → layout lo l hi.
Proof.
  revert lo. induction l as [|i l IH]; intros lo; simpl; [done|].
  intros (<- & ? & Ht). pose proof (Interval.tiles_le _ _ _ Ht). split_and!; [lia..|auto].
Qed.

Section concentrate.
Context (t : tree) (fuel : nat) (Hfuel : (length (nodes t) < fuel)%nat).
Abbreviation I c := (ivl (data c)).

(** ** Setting and propagating a list of intervals *)

Lemma count_sizes_runs (ls : list tree) (c : RCtx) (Q : list Z → RCtx → Prop) :
  ready t c → Forall (λ k, subtree k t) ls →
  (∀ c', moves t (λ _, False) c c' → store c' = store c → ready t c' → Q (tsize <$> ls) c') →
  runs (count_sizes fuel (root <$> ls)) c Q.
Proof using Hfuel.
  revert c Q. unfold count_sizes. induction ls as [|k ls IH]; intros c Q Hrd Hls HQ; simpl.
  { apply runs_ret, HQ; [apply moves_refl|done..]. }
  apply Forall_cons_1 in Hls as [Hk Hls]. pose proof Hrd as [Hr Hsz].
  apply runs_bind, runs_bind, (count_moves t fuel Hfuel c k); auto. intros c1 Hm1 Hst1 Hsz1 Hin1.
  assert (ready t c1) as Hrd1 by (split; [by rewrite Hst1|done]).
  eapply reads_runs; [apply (size_of_ok t (store c1) (proj1 Hrd1) (subtree_sizes c1)); auto|].
  apply runs_bind, IH; auto. intros c2 Hm2 Hst2 Hrd2. apply runs_ret.
  apply HQ; [|congruence|done]. eapply moves_trans; [exact Hm1|exact Hm2|]. tauto.
Qed.

Lemma set_and_propagate_runs (ks : list tree) (is_ : list Interval) (c : RCtx) (Q : unit → RCtx → Prop) :
  ready t c → NoDup (ks ≫= nodes) →
  Forall2 (λ k i, subtree k t ∧ valid i ∧ tsize k ≤ card i) ks is_ →
  (∀ c', moves t (λ x, ∃ k, k ∈ ks ∧ x ∈ nodes k) c c' → ready t c' →
     I c' ∘ root <$> ks = is_ → (∀ k, k ∈ ks → indexes k c') → Q tt c') →
  runs (set_and_propagate fuel (zip (root <$> ks) is_)) c Q.
Proof using Hfuel.
  intros Hrd Hnd Hl. revert c Hrd Q. unfold set_and_propagate.
  induction Hl as [|k i ks is_ (Hk & Hv & Hsz) Hl IH]; intros c Hrd Q HQ; simpl.
  { apply runs_ret, HQ; [apply moves_refl|done|done|]. by intros k ?%elem_of_nil. }
  rewrite bind_cons in Hnd. apply NoDup_app in Hnd as (_ & Hdis & Hnd). pose proof Hrd as [Hr Hszs].
  assert (∀ k' x, k' ∈ ks → x ∈ nodes k' → x ∉ nodes k) as Hapart.
  { intros k' x Hk' Hx Hx'. apply (Hdis x Hx'), list_elem_of_bind. eauto. }
  apply runs_bind, runs_bind, (set_interval_runs t).
  { apply (rep_dom _ _ Hr). eapply subtree_nodes; eauto with kaspa. }
  intros c1 Hm1 Hsz1 Hi1. pose proof (moves_ready _ _ _ _ Hm1 Hrd) as [Hr1 Hszs1].
  eapply runs_mono; [apply (propagate_interval_ok t fuel Hfuel c1 k); auto; by rewrite Hi1|].
  intros [] c2 (Hm2 & Hsz2 & Hix2).
  assert (moves t (λ x, x ∈ nodes k) c c2) as Hm12.
  { eapply moves_trans; [exact Hm1|exact Hm2|]. intros x [->|[? _]]; auto with kaspa. }
  apply IH; [done|by eapply moves_ready|]. intros c3 Hm3 Hrd3 His3 Hix3.
  assert (∀ x, x ∈ nodes k → I c3 x = I c2 x) as Hk3.
  { intros x Hx. apply (mv_ivl _ _ _ _ Hm3). intros (k' & Hk' & Hx'). by apply (Hapart k' x). }
  apply HQ; [|done| |].
  - eapply moves_trans; [exact Hm12|exact Hm3|]. intros x [?|(k' & ? & ?)]; [exists k|exists k'];
      rewrite elem_of_cons; auto.
  - rewrite fmap_cons, His3. f_equal. simpl. rewrite Hk3 by auto with kaspa.
    rewrite (mv_ivl _ _ _ _ Hm2), Hi1; [done|]. by intros [_ ?].
  - intros k' [->|Hk']%elem_of_cons; [|auto]. by eapply indexes_ext.
Qed.

(** ** Tightening *)

Definition sizes (ls : list tree) : Z := zsum (tsize <$> ls).

Lemma sizes_nonneg ls : Forall (λ x, 0 ≤ x) (tsize <$> ls).
Proof. apply Forall_fmap, Forall_forall. intros k _. simpl. pose proof (tsize_pos k). lia. Qed.

(** The common part of the two functions: [lo] is where the children go. *)
Lemma tighten_runs (ls : list tree) (c : RCtx) lo (Q : unit → RCtx → Prop) :
  ready t c → NoDup (ls ≫= nodes) → Forall (λ k, subtree k t) ls →
  valid (Interval.mk lo (lo + sizes ls - 1)) →
  (∀ c', moves t (λ x, ∃ k, k ∈ ls ∧ x ∈ nodes k) c c' → ready t c' →
     layout lo (I c' ∘ root <$> ls) (lo + sizes ls - 1) → (∀ k, k ∈ ls → indexes k c') → Q tt c') →
  runs (l ← lift (Interval.split_exact (Interval.mk lo (lo + sizes ls - 1)) (tsize <$> ls));
        set_and_propagate fuel (zip (root <$> ls) l)) c Q.
Proof using Hfuel.
  intros Hrd Hnd Hls Hv HQ. pose proof Hv as (? & ? & ?). simpl in *.
  destruct (Interval.split_exact_ok (E:=ReachabilityError) _ (tsize <$> ls) Hv (sizes_nonneg ls))
    as (is_ & Hs & Ht & Hc); [unfold card, sizes in *; simpl; lia|].
  apply runs_bind, (runs_lift _ _ _ _ Hs). simpl in Ht.
  apply set_and_propagate_runs; auto.
  - assert (∀ i, i ∈ is_ → valid i) as Hvi.
    { intros i Hi. pose proof (Interval.tiles_bounds _ _ _ _ Ht Hi). unfold valid. lia. }
    clear -Hls Hc Hvi. induction ls as [|k ls IH] in is_, Hls, Hc, Hvi |- *; destruct is_ as [|i is_];
      try done. rewrite !fmap_cons in Hc. injection Hc as Hci Hc.
    apply Forall_cons_1 in Hls as [? ?]. constructor.
    + split_and!; [done|apply Hvi; left|lia].
    + apply IH; auto. intros; apply Hvi; by right.
  - intros c' Hm' Hrd' His Hix. apply HQ; auto. rewrite His. by apply tiles_layout.
Qed.

Lemma tighten_before_safe q ls (c : RCtx) (Q : Z → RCtx → Prop) :
  ready t c → q ∈ nodes t → NoDup (ls ≫= nodes) → Forall (λ k, subtree k t) ls →
  (∀ c', moves t (λ x, ∃ k, k ∈ ls ∧ x ∈ nodes k) c c' → ready t c' →
     layout (start (I c q) + slack c) (I c' ∘ root <$> ls) (start (I c q) + slack c + sizes ls - 1) →
     (∀ k, k ∈ ls → indexes k c') → Q (sizes ls) c') →
  safe (tighten_intervals_before fuel q (root <$> ls)) c Q.
Proof using Hfuel.
  intros Hrd Hq Hnd Hls HQ. unfold tighten_intervals_before.
  apply safe_bind, runs_safe, count_sizes_runs; auto. intros c1 Hm1 Hst1 Hrd1.
  apply safe_bind, safe_lift; [apply sum64_from_no_fuel|]. intros sum Hsum%sum64_from_inv.
  rewrite Z.add_0_l in Hsum. subst sum. fold (sizes ls).
  apply safe_bind, runs_safe. eapply runs_on_store; [apply reads_try, (read_interval _ t); [apply Hrd1|done]|].
  apply safe_bind, runs_safe, runs_get.
  do 3 (apply safe_bind, safe_lift; [apply Interval.checked_no_fuel|]; intros ? [-> _]%checked_inv).
  apply safe_bind, safe_lift; [apply Interval.new_no_fuel|]. intros i [-> Hv]%Interval.new_inv.
  apply bind_then_ret, tighten_runs; auto. rewrite Hst1, (mv_slack _ _ _ _ Hm1).
  intros c2 Hm2 Hrd2 Hl2 Hix2. apply HQ; auto. eapply moves_trans; [exact Hm1|exact Hm2|]. tauto.
Qed.

Lemma tighten_after_safe q ls (c : RCtx) (Q : Z → RCtx → Prop) :
  ready t c → q ∈ nodes t → NoDup (ls ≫= nodes) → Forall (λ k, subtree k t) ls →
  (∀ c', moves t (λ x, ∃ k, k ∈ ls ∧ x ∈ nodes k) c c' → ready t c' →
     layout (end_ (I c q) - slack c - sizes ls) (I c' ∘ root <$> ls) (end_ (I c q) - slack c - 1) →
     (∀ k, k ∈ ls → indexes k c') → Q (sizes ls) c') →
  safe (tighten_intervals_after fuel q (root <$> ls)) c Q.
Proof using Hfuel.
  intros Hrd Hq Hnd Hls HQ. unfold tighten_intervals_after.
  apply safe_bind, runs_safe, count_sizes_runs; auto. intros c1 Hm1 Hst1 Hrd1.
  apply safe_bind, safe_lift; [apply sum64_from_no_fuel|]. intros sum Hsum%sum64_from_inv.
  rewrite Z.add_0_l in Hsum. subst sum. fold (sizes ls).
  apply safe_bind, runs_safe. eapply runs_on_store; [apply reads_try, (read_interval _ t); [apply Hrd1|done]|].
  apply safe_bind, runs_safe, runs_get.
  do 3 (apply safe_bind, safe_lift; [apply Interval.checked_no_fuel|]; intros ? [-> _]%checked_inv).
  apply safe_bind, safe_lift; [apply Interval.new_no_fuel|]. intros i [-> Hv]%Interval.new_inv.
  rewrite Hst1, (mv_slack _ _ _ _ Hm1) in *.
  set (lo := end_ (I c q) - slack c - sizes ls) in *.
  assert (end_ (I c q) - slack c - 1 = lo + sizes ls - 1) as Hhi by (unfold lo; lia).
  rewrite Hhi in *.
  apply bind_then_ret, tighten_runs; auto.
  intros c2 Hm2 Hrd2 Hl2 Hix2. apply HQ; auto. eapply moves_trans; [exact Hm1|exact Hm2|]. tauto.
Qed.

(** ** One step towards the new root *)

(** The children of [sa] are in order, but may lie outside its interval, which may
    be empty; everything else is indexed if it is not. *)
Record broken (sa : tree) (c : RCtx) : Prop := {
  br_ready : ready t c;
  br_valid : valid (I c (root sa));
  br_kids k : k ∈ kids sa → indexes k c;
  br_sorted : StronglySorted before (I c ∘ root <$> kids sa);
  br_rest : nonempty (I c (root sa)) → ∀ s, subtree s t → (root s ∉ nodes sa) → node_ok (I c) s;
}.

Lemma node_indexes q ks c :
  valid (I c q) → nonempty (I c q) →
  layout (start (I c q)) (I c ∘ root <$> ks) (end_ (I c q) - 1) →
  (∀ k, k ∈ ks → indexes k c) → indexes (Node q ks) c.
Proof.
  intros Hv Hne Hl Hk s Hs. inversion Hs as [|? ? k Hkk Hsk]; subst; [|by eapply Hk].
  split_and!; [done..|]. apply spread_layout. split; [done|].
  apply nonempty_fmap. intros k Hkk. by apply (Hk k Hkk k (subtree_refl _)).
Qed.

(** Giving a block an interval that holds its old one. *)
Lemma widen_indexes x c c' :
  NoDup (nodes x) → indexes x c → (∀ y, y ∈ nodes x → y ≠ root x → I c' y = I c y) →
  valid (I c' (root x)) → start (I c' (root x)) ≤ start (I c (root x)) →
  end_ (I c (root x)) ≤ end_ (I c' (root x)) → indexes x c'.
Proof.
  destruct x as [h ks]. simpl. intros Hnd Hix Hsame Hv Hst Hen s Hs.
  pose proof (NoDup_nodes_inv _ _ Hnd) as (Hh & _ & _).
  assert (∀ k y, k ∈ ks → y ∈ nodes k → I c' y = I c y) as Hk.
  { intros k y Hk Hy. apply Hsame; [apply nodes_node; eauto|]. intros ->. by apply (Hh k). }
  inversion Hs as [|? ? k Hkk Hsk]; subst.
  - destruct (Hix _ (subtree_refl _)) as (_ & Hne & Hsp). simpl in *. split_and!; simpl; [done|lia|].
    rewrite (fmap_same (I c) (I c') ks) by (intros; eapply Hk; eauto with kaspa).
    eapply spread_mono; [| |exact Hsp]; lia.
  - eapply (indexes_ext k c); [by intros; eapply Hk| |exact Hsk].
    intros s' Hs'. apply Hix. by eapply subtree_kid.
Qed.

Lemma kids_inside x k y :
  NoDup (nodes x) → k ∈ kids x → y ∈ nodes k → y ∈ nodes x ∧ y ≠ root x.
Proof.
  destruct x as [h ks]. simpl. intros Hnd Hk Hy.
  pose proof (NoDup_nodes_inv _ _ Hnd) as (Hh & _ & _).
  split; [apply nodes_node; eauto|]. intros ->. by apply (Hh k).
Qed.

Section step.
Context (c : RCtx) (q : Hash) (l : list tree) (x : tree) (r : list tree) (final : bool).
Abbreviation sa := (Node q (l ++ x :: r)).
Context (Hsa : subtree sa t) (Hb : broken sa c) (Hslack : 0 ≤ slack c).
Context (Hfinal : final = true → kids x ≠ []).

Lemma step_nodup : NoDup ((l ++ x :: r) ≫= nodes) ∧ NoDup (nodes sa).
Proof.
  destruct (br_ready _ _ Hb) as [Hr _]. eapply NoDup_subtree in Hsa as Hn; [|apply (rep_nodup _ _ Hr)].
  split; [|done]. by apply NoDup_nodes_inv in Hn as (_ & _ & ?).
Qed.

Lemma step_inside k y : k ∈ l ++ x :: r → y ∈ nodes k → y ∈ nodes sa ∧ y ≠ q.
Proof.
  intros Hk Hy. split; [apply nodes_node; eauto|]. intros ->.
  destruct step_nodup as [_ Hn]. apply NoDup_nodes_inv in Hn as (Hq & _). by apply (Hq k).
Qed.

(** The end of [expand_interval_to_chosen]: the child gets [alloc]. *)
Lemma step_end c4 c5 alloc :
  moves t (λ y, y ∈ nodes sa ∧ y ≠ q) c c4 → ready t c4 → moves t (.= root x) c4 c5 →
  I c5 (root x) = alloc → valid alloc →
  layout (start (I c q) + slack c) (I c4 ∘ root <$> l) (start alloc - 1) →
  layout (end_ alloc + 1) (I c4 ∘ root <$> r) (end_ (I c q) - slack c - 1) →
  start alloc = start (I c q) + sizes l + slack c →
  end_ alloc = end_ (I c q) - sizes r - slack c - 1 →
  (∀ k, k ∈ l ++ r → indexes k c4) →
  (if final then indexes x c4 ∧ start alloc ≤ start (I c4 (root x))
      ∧ end_ (I c4 (root x)) ≤ end_ alloc
   else ∀ y, y ∈ nodes x → I c4 y = I c y) →
  moves t (λ _, True) c c5 ∧ ready t c5 ∧ if final then indexes t c5 else broken x c5.
Proof.
  intros Hm4 Hrd4 Hm5 Hx5 Hv Hl Hr Hst Hen Hkids Hx4. destruct step_nodup as [Hnk Hnsa].
  assert (∀ k, k ∈ l ++ r → k ∈ l ++ x :: r ∧ k ≠ x) as Hsib.
  { intros k Hk. split; [rewrite elem_of_app, elem_of_cons in *; naive_solver|]. intros ->.
    apply NoDup_bind_nodes in Hnk. rewrite <- Permutation_middle in Hnk. by apply NoDup_cons in Hnk as [? _]. }
  assert (x ∈ l ++ x :: r) as Hxin by (rewrite elem_of_app, elem_of_cons; auto).
  assert (∀ k y, k ∈ l ++ r → y ∈ nodes k → I c5 y = I c4 y) as Hsame.
  { intros k y Hk Hy. apply (mv_ivl _ _ _ _ Hm5). intros ->. destruct (Hsib k Hk) as [Hk' Hne].
    apply Hne. apply (kids_apart _ k x (root x) Hnk); auto with kaspa. }
  assert (moves t (λ y, y ∈ nodes sa ∧ y ≠ q) c c5) as Hm.
  { eapply moves_trans; [exact Hm4|exact Hm5|]. intros y [?| ->]; [done|].
    apply (step_inside x); auto with kaspa. }
  assert (I c5 q = I c q) as Hq5 by (apply (mv_ivl _ _ _ _ Hm); tauto).
  assert (0 ≤ sizes l ∧ 0 ≤ sizes r) as [? ?] by (split; apply zsum_nonneg, sizes_nonneg).
  pose proof Hv as (? & ? & ?). assert (nonempty (I c q)) as Hneq by (unfold nonempty; lia).
  pose proof (moves_ready _ _ _ _ Hm5 Hrd4) as Hrd5.
  assert (layout (start (I c5 q)) (I c5 ∘ root <$> (l ++ x :: r)) (end_ (I c5 q) - 1)) as Hlay.
  { rewrite Hq5, fmap_app, fmap_cons.
    rewrite (fmap_same (I c4) (I c5) l) by (intros; eapply Hsame; [rewrite elem_of_app; eauto|auto with kaspa]).
    rewrite (fmap_same (I c4) (I c5) r) by (intros; eapply Hsame; [rewrite elem_of_app; eauto|auto with kaspa]).
    apply (layout_app _ _ _ (start alloc - 1)); [eapply layout_mono; [| |exact Hl]; lia| |lia..].
    simpl. rewrite Hx5. split_and!; [lia..|]. eapply layout_mono; [| |exact Hr]; lia. }
  assert (∀ k, k ∈ l ++ r → indexes k c5) as Hk5.
  { intros k Hk. eapply (indexes_ext k c4); [by intros; eapply Hsame|]. by apply Hkids. }
  assert (∀ s, subtree s t → root s ∉ nodes sa → node_ok (I c5) s) as Hout.
  { intros s Hs Hso. eapply (node_ok_outside t sa s c); eauto; [apply (rep_nodup _ _ (proj1 Hrd5))|].
    by apply (br_rest _ _ Hb). }
  assert (indexes x c5 → indexes t c5) as Hall.
  { intros Hx s Hs. destruct (decide (root s ∈ nodes sa)) as [Hin|?]; [|by apply Hout].
    assert (indexes sa c5) as Hsa5.
    { apply node_indexes; rewrite ?Hq5; auto; [apply (br_valid _ _ Hb)|by rewrite <- Hq5|].
      intros k Hk. rewrite elem_of_app, elem_of_cons in Hk.
      destruct Hk as [Hk|[->|Hk]]; [apply Hk5|done|apply Hk5]; rewrite elem_of_app; auto. }
    apply Hsa5. apply (subtree_or_outside t); auto. apply (rep_nodup _ _ (proj1 Hrd5)). }
  split_and!; [by eapply moves_weaken|done|].
  assert (NoDup (nodes x)) as Hndx.
  { apply NoDup_nodes_inv in Hnsa as (_ & Hn & _). by apply Hn. }
  assert (∀ y, y ∈ nodes x → y ≠ root x → I c5 y = I c4 y) as Hxsame.
  { intros y _ Hy. by apply (mv_ivl _ _ _ _ Hm5). }
  destruct final.
  - apply Hall. destruct Hx4 as (Hix4 & ? & ?). apply (widen_indexes x c4 c5); auto; rewrite Hx5; auto.
  - pose proof (br_kids _ _ Hb x Hxin) as Hixc.
    assert (∀ y, y ∈ nodes x → y ≠ root x → I c5 y = I c y) as Hx5c.
    { intros y Hy Hne. rewrite Hxsame by done. by apply Hx4. }
    assert (∀ k y, k ∈ kids x → y ∈ nodes k → I c5 y = I c y) as Hkx.
    { intros k y Hk Hy. by apply Hx5c; eapply kids_inside. }
    split; auto.
    + by rewrite Hx5.
    + intros k Hk. eapply (indexes_ext k c); [by intros; eapply Hkx|].
      intros s Hs. apply Hixc. destruct x. by eapply subtree_kid.
    + rewrite (fmap_same (I c) (I c5) (kids x)) by (intros; eapply Hkx; eauto with kaspa).
      destruct (Hixc _ (subtree_refl _)) as (_ & _ & Hsp). by eapply spread_sorted.
    + intros Hne s Hs Hso. destruct (decide (root s ∈ nodes sa)) as [Hin|?]; [|by apply Hout].
      assert (subtree s sa) as Hssa by (apply (subtree_or_outside t); auto; apply (rep_nodup _ _ (proj1 Hrd5))).
      inversion Hssa as [|? ? k Hk Hsk]; subst.
      * split_and!; simpl; rewrite ?Hq5; [apply (br_valid _ _ Hb)|done|]. rewrite <- Hq5.
        apply spread_layout. split; [done|]. apply nonempty_fmap. intros k Hk.
        rewrite elem_of_app, elem_of_cons in Hk. destruct Hk as [Hk|[->|Hk]]; [|done|];
          apply (Hk5 k ltac:(rewrite elem_of_app; auto) k (subtree_refl _)).
      * rewrite elem_of_app, elem_of_cons in Hk. destruct Hk as [Hk|[->|Hk]].
        -- apply (Hk5 k); [rewrite elem_of_app; auto|done].
        -- exfalso. apply Hso. eapply subtree_nodes; eauto with kaspa.
        -- apply (Hk5 k); [rewrite elem_of_app; auto|done].
Qed.

Lemma concentrate_safe :
  safe (concentrate_interval fuel q (root x) final) c (λ _ c5,
    moves t (λ _, True) c c5 ∧ ready t c5 ∧ if final then indexes t c5 else broken x c5).
Proof.
  destruct step_nodup as [Hnk Hnsa]. pose proof (br_ready _ _ Hb) as Hrd. pose proof Hrd as [Hr _].
  assert (x ∈ l ++ x :: r) as Hxin by (rewrite elem_of_app, elem_of_cons; auto).
  assert (∀ k, k ∈ l ++ x :: r → subtree k t) as Hsub by (intros; by eapply kid_subtree).
  assert (q ∈ nodes t) as Hqt by (eapply subtree_nodes; [exact Hsa|left]).
  assert (NoDup (l ≫= nodes) ∧ NoDup (r ≫= nodes)) as [Hndl Hndr].
  { rewrite bind_app, bind_cons in Hnk. by apply NoDup_app in Hnk as (? & _ & (_ & _ & ?)%NoDup_app). }
  assert (Forall (λ k, subtree k t) l ∧ Forall (λ k, subtree k t) r) as [Hsl Hsr].
  { split; apply Forall_forall; intros k Hk; apply Hsub; rewrite elem_of_app, elem_of_cons; auto. }
  assert (∀ k k' y, k ∈ l ++ x :: r → k' ∈ l ++ x :: r → y ∈ nodes k → y ∈ nodes k' → k = k') as Hap.
  { intros k k' y H1 H2 H3 H4. exact (kids_apart _ k k' y Hnk H1 H2 H3 H4). }
  pose proof (NoDup_bind_nodes _ Hnk) as Hndk. apply NoDup_app in Hndk as (_ & Hdl & [Hxr _]%NoDup_cons).
  unfold concentrate_interval. apply safe_bind, runs_safe.
  eapply runs_on_store; [by apply reads_try; eapply read_children|].
  apply safe_bind, safe_lift; rewrite split_children_ok;
    try (eapply kid_roots_nodup; exact Hnsa); [done|]. intros ? [= <-]. cbv beta iota.
  apply safe_bind, (tighten_before_safe q l c); auto. intros c1 Hm1 Hrd1 Hl1 Hix1.
  assert (∀ y k, k ∈ x :: r → y ∈ nodes k → I c1 y = I c y) as Hsame1.
  { intros y k Hk Hy. apply (mv_ivl _ _ _ _ Hm1). intros (k' & Hk' & Hy').
    apply (Hdl k' Hk'). rewrite (Hap k' k y); auto; rewrite elem_of_app; auto. }
  assert (I c1 q = I c q) as Hq1.
  { apply (mv_ivl _ _ _ _ Hm1). intros (k & Hk & Hy). destruct (step_inside k q); auto.
    rewrite elem_of_app; auto. }
  apply safe_bind, (tighten_after_safe q r c1); auto. intros c2 Hm2 Hrd2 Hl2 Hix2.
  assert (∀ y k, k ∈ l ++ [x] → y ∈ nodes k → I c2 y = I c1 y) as Hsame2.
  { intros y k Hk Hy. apply (mv_ivl _ _ _ _ Hm2). intros (k' & Hk' & Hy').
    assert (k' = k) as ->.
    { apply (Hap k' k y); auto; rewrite elem_of_app, elem_of_cons in *; set_solver. }
    apply elem_of_app in Hk as [Hk|Hk%list_elem_of_singleton]; [apply (Hdl k Hk); by right|by subst]. }
  assert (I c2 q = I c q) as Hq2.
  { rewrite <- Hq1. apply (mv_ivl _ _ _ _ Hm2). intros (k & Hk & Hy). destruct (step_inside k q); auto.
    rewrite elem_of_app, elem_of_cons; auto. }
  rewrite Hq1, (mv_slack _ _ _ _ Hm1) in Hl2.
  assert (slack c2 = slack c) as Hslack2 by (by rewrite (mv_slack _ _ _ _ Hm2), (mv_slack _ _ _ _ Hm1)).
  assert (moves t (λ y, y ∈ nodes sa ∧ y ≠ q) c c2) as Hmc2.
  { eapply moves_trans; [exact Hm1|exact Hm2|]. intros y [(k & Hk & Hy)|(k & Hk & Hy)];
      apply (step_inside k); auto; rewrite elem_of_app, ?elem_of_cons; auto. }
  assert (∀ y, y ∈ nodes x → I c2 y = I c y) as Hxsame.
  { intros y Hy. rewrite (Hsame2 y x), (Hsame1 y x); auto; [left|rewrite elem_of_app, elem_of_cons; auto]. }
  assert (∀ k, k ∈ l ++ r → indexes k c2) as Hkids2.
  { intros k [Hk|Hk]%elem_of_app; [|auto]. eapply (indexes_ext k c1); [|auto].
    intros y Hy. apply (Hsame2 y k); auto. rewrite elem_of_app; auto. }
  assert (I c2 ∘ root <$> l = I c1 ∘ root <$> l) as Hll.
  { apply fmap_same. intros k Hk. apply (Hsame2 _ k); [rewrite elem_of_app; auto|auto with kaspa]. }
  unfold expand_interval_to_chosen.
  apply safe_bind, runs_safe. eapply runs_on_store; [apply reads_try, (read_interval _ t); [apply Hrd2|done]|].
  rewrite Hq2. apply safe_bind, runs_safe, runs_get. rewrite Hslack2.
  do 5 (apply safe_bind, safe_lift; [apply Interval.checked_no_fuel|]; intros ? [-> _]%checked_inv).
  apply safe_bind, safe_lift; [apply Interval.new_no_fuel|]. intros alloc [Halloc Hv]%Interval.new_inv.
  assert (root x ∈ nodes t) as Hxt by (eapply subtree_nodes; [by apply Hsub|auto with kaspa]).
  apply safe_bind, runs_safe. eapply runs_on_store; [apply reads_try, (read_interval _ t); [apply Hrd2|done]|].
  apply safe_bind.
  (* the rest, from the state after the optional propagation *)
  assert (∀ c4, moves t (λ y, y ∈ nodes x) c2 c4 → ready t c4 →
    (if final then indexes x c4 ∧ start alloc ≤ start (I c4 (root x))
      ∧ end_ (I c4 (root x)) ≤ end_ alloc else ∀ y, y ∈ nodes x → I c4 y = I c y) →
    safe (on_store (try (set_interval (root x) alloc))) c4 (λ _ c5,
      moves t (λ _, True) c c5 ∧ ready t c5 ∧ if final then indexes t c5 else broken x c5)) as Hend.
  { intros c4 Hm4 Hrd4 Hx4. apply runs_safe, (set_interval_runs t).
    { by apply (rep_dom _ _ (proj1 Hrd4)). }
    intros c5 Hm5 _ Hx5.
    assert (∀ k y, k ∈ l ++ r → y ∈ nodes k → I c4 y = I c2 y) as Hsame4.
    { intros k y Hk Hy. apply (mv_ivl _ _ _ _ Hm4). intros Hyx.
      assert (k ∈ l ++ x :: r) as Hk' by (rewrite elem_of_app, elem_of_cons in *; tauto).
      rewrite (Hap k x y Hk' Hxin Hy Hyx) in Hk.
      apply elem_of_app in Hk as [Hk|Hk]; [apply (Hdl x Hk); left|done]. }
    apply (step_end c4 c5 alloc); auto.
    - eapply moves_trans; [exact Hmc2|exact Hm4|]. intros y [?|?]; [done|]. by apply (step_inside x).
    - rewrite (fmap_same (I c2) (I c4) l), Hll.
      2: { intros k Hk. eapply (Hsame4 k); [rewrite elem_of_app; auto|auto with kaspa]. }
      eapply layout_mono; [| |exact Hl1]; [lia|]. subst alloc. simpl. lia.
    - rewrite (fmap_same (I c2) (I c4) r).
      2: { intros k Hk. eapply (Hsame4 k); [rewrite elem_of_app; auto|auto with kaspa]. }
      eapply layout_mono; [| |exact Hl2]; [|lia]. subst alloc. simpl. lia.
    - subst alloc. simpl. lia.
    - subst alloc. simpl. lia.
    - intros k Hk. eapply (indexes_ext k c2); [by intros; eapply Hsame4|]. auto. }
  assert (indexes x c2) as Hix2x.
  { eapply (indexes_ext x c); [exact Hxsame|]. apply (br_kids _ _ Hb), Hxin. }
  destruct final; simpl.
  - destruct (contains alloc (I c2 (root x))) eqn:Hcon; simpl.
    + apply safe_ret, Hend; [apply moves_refl|done|]. unfold contains in Hcon. zbool. auto.
    + do 2 (apply safe_bind, safe_lift; [apply Interval.checked_no_fuel|]; intros ? [-> _]%checked_inv).
      apply safe_bind, safe_lift; [apply Interval.new_no_fuel|]. intros narrow [Hnarrow Hvn]%Interval.new_inv.
      apply safe_bind, runs_safe, (set_interval_runs t); [by apply (rep_dom _ _ (proj1 Hrd2))|].
      intros c3 Hm3 _ Hx3. pose proof (moves_ready _ _ _ _ Hm3 Hrd2) as [Hr3 Hs3].
      eapply safe_mono; [apply (propagate_interval_safe t fuel Hfuel c3 x); auto; [by rewrite Hx3|]|].
      { intros Hk. by destruct (Hfinal eq_refl). }
      intros [] c4 (Hm4 & Hs4 & Hix4).
      assert (I c4 (root x) = narrow) as Hx4 by (rewrite (mv_ivl _ _ _ _ Hm4), Hx3; [done|]; by intros [_ ?]).
      apply Hend.
      * eapply moves_trans; [exact Hm3|exact Hm4|]. intros y [->|[? _]]; auto with kaspa.
      * split; [by eapply moves_represents|done].
      * rewrite Hx4, Hnarrow. simpl. split_and!; [done|lia..].
  - apply safe_ret, Hend; [apply moves_refl|done|done].
Qed.
End step.
End concentrate.
