(* ===== verification/ReachAdvance.v ===== *)
(** * Advancing the reindex root

    [find_next_reindex_root] and [try_advancing_reindex_root] of [tree.rs]. *)

From S2P Require Import Prelude Hash Interval ReachStore Reachability ReachTree ReachQuery ReachDag ReachCount ReachPropagate ReachReindex ReachReclaim ReachWalk ReachAdd ReachConcentrate.
Import Interval (Interval, start, end_, valid, card, contains, strictly_contains).

Section queries.
Context (t : tree) (fuel : nat) (Hfuel : (length (nodes t) < fuel)%nat).
Context (s : Mem) (Hr : represents (Memory.map s) t) (Hi : indexed (Memory.map s) t).
Abbreviation D := (Memory.map s).

Lemma next_chain_safe d a :
  d ∈ nodes t → a ∈ nodes t →
  safe (get_next_chain_ancestor_unchecked d a) s (λ c s', s' = s ∧
    ∃ ks k, subtree (Node a ks) t ∧ k ∈ ks ∧ c = root k ∧ d ∈ nodes k).
Proof using Hr Hi.
  intros Hd Ha. destruct (proj2 (rep_dom _ _ Hr a) Ha) as [da Hda].
  destruct (tree_node t a Ha) as [ks Hks].
  destruct (search_descendant_ok s t Hr Hi (children da) d) as (r & Hrd & HQ);
    [by eapply children_ordered|done|].
  unfold get_next_chain_ancestor_unchecked.
  apply safe_bind, runs_safe. eapply reads_runs; [by apply reads_try, mem_get_children|].
  apply safe_bind, runs_safe. eapply reads_runs; [exact Hrd|].
  destruct r as [i|h i]; [apply safe_fail|]. apply safe_ret. split; [done|].
  destruct HQ as [Hh (sh & Hsh & Hrh & Hdh)]. apply list_elem_of_lookup_2 in Hh.
  destruct (shape_subtree _ _ _ _ _ Hks (rep_shape _ _ Hr)) as (p & n & Hs).
  destruct (shape_lookup _ _ _ _ Hs) as (d' & Hd' & _ & _ & Hc). simpl in *. simplify_eq.
  rewrite Hc in Hh. apply list_elem_of_fmap in Hh as (k & Hk & Hkk). exists ks, k. split_and!; auto.
  assert (sh = k) as <-; [|done].
  eapply subtree_unique; [apply (rep_nodup _ _ Hr)|done|by eapply kid_subtree|done].
Qed.

(** [a] is a strict ancestor of [d], with a child towards it. *)
Definition above (a d : Hash) : Prop :=
  ∃ ks k, subtree (Node a ks) t ∧ k ∈ ks ∧ d ∈ nodes k.

Lemma height_read h : h ∈ nodes t → ∃ z, reads (get_height h) s z.
Proof using Hr.
  intros Hh. destruct (proj2 (rep_dom _ _ Hr h) Hh) as [d Hd]. eexists. by apply mem_get_height.
Qed.

Lemma advance_next_safe hint hh dep sn :
  hint ∈ nodes t → subtree sn t → hint ∈ nodes sn →
  safe (advance_next fuel hint hh dep (root sn)) s (λ r s', s' = s ∧ r ∈ nodes sn ∧ above r hint).
Proof using Hr Hi Hfuel.
  intros Hh Hsn Hin. unfold advance_next.
  apply (safe_loop (λ n next s', s' = s ∧ ∃ sx, next = root sx ∧ subtree sx sn ∧ hint ∈ nodes sx
    ∧ n = length (nodes sx)) _ _ _ (length (nodes sn))).
  2: { split; [done|]. exists sn. split_and!; auto using subtree_refl. }
  2: { pose proof (tsize_subtree _ _ Hsn). unfold tsize in *. lia. }
  intros n next s' (-> & sx & -> & Hsx & Hx & ->).
  assert (subtree sx t) as Hsxt by eauto using subtree_trans.
  apply safe_bind. eapply safe_mono; [apply (next_chain_safe hint (root sx)); auto|].
  { eapply subtree_nodes; eauto with kaspa. }
  intros c s' (-> & ks & k & Hks & Hk & -> & Hhk).
  assert (sx = Node (root sx) ks) as Hsx' by (eapply subtree_unique; eauto using rep_nodup).
  destruct (height_read (root k)) as [z Hz].
  { eapply subtree_nodes; [exact (kid_subtree _ _ _ _ Hks Hk)|]. auto with kaspa. }
  apply safe_bind, runs_safe. eapply reads_runs; [by apply reads_try|].
  destruct (hh <? z); [apply safe_fail|].
  apply safe_bind, safe_lift; [apply Interval.checked_no_fuel|]. intros diff _.
  destruct (diff <? dep); apply safe_ret.
  - split_and!; [done|eapply subtree_nodes; eauto with kaspa|]. exists ks, k. auto.
  - exists (length (nodes k)). split.
    + split; [done|]. exists k. split_and!; auto.
      eapply subtree_trans; [|exact Hsx]. rewrite Hsx'. eapply subtree_kid; [exact Hk|constructor].
    + pose proof (kid_tsize (root sx) ks k _ (subtree_refl _) Hk) as Hlt. rewrite <- Hsx' in Hlt.
      unfold tsize in Hlt. lia.
Qed.

Lemma find_common_safe block r :
  block ∈ nodes t → r ∈ nodes t →
  safe (find_common_tree_ancestor fuel block r) s (λ a s', s' = s ∧
    ∃ sx, subtree sx t ∧ root sx = a ∧ block ∈ nodes sx ∧ r ∈ nodes sx).
Proof using Hr Hi Hfuel.
  intros Hb Hrr. pose proof (rep_nodup _ _ Hr) as Hnd. unfold find_common_tree_ancestor.
  destruct (tree_node t block Hb) as [kb Hkb].
  apply (safe_loop (λ n cur s', s' = s ∧ ∃ sx, cur = root sx ∧ subtree sx t ∧ block ∈ nodes sx
    ∧ (n + length (nodes sx) = length (nodes t))%nat) _ _ _
    (length (nodes t) - length (nodes (Node block kb)))).
  2: { split; [done|]. exists (Node block kb). split_and!; [done|done|left|].
       pose proof (tsize_subtree _ _ Hkb). unfold tsize in *. lia. }
  2: lia.
  intros n cur s' (-> & sx & -> & Hsx & Hbx & Hn).
  assert (root sx ∈ nodes t) as Hxt by (eapply subtree_nodes; eauto with kaspa).
  assert (is_Some (D !! root sx) ∧ is_Some (D !! r)) as [? ?] by (split; by apply (rep_dom _ _ Hr)).
  apply safe_bind, runs_safe. eapply reads_runs; [by apply mem_contains|].
  destruct (contains _ _) eqn:Hc.
  - apply safe_ret. split; [done|]. exists sx. split_and!; auto.
    apply (contains_below D t) in Hc as (sy & Hsy & Hry & Hin); auto.
    assert (sy = sx) as <- by (eapply subtree_unique; eauto). done.
  - destruct (decide (root sx = root t)) as [Hroot|Hroot].
    { exfalso. assert (contains (ivl D (root sx)) (ivl D r) = true) as Hc'; [|congruence].
      apply (contains_below D t); auto. rewrite Hroot. by apply below_root. }
    destruct (tree_parent t (root sx) Hxt Hroot) as (q & ks & k & Hq & Hk & Hkr).
    assert (k = sx) as -> by (eapply subtree_unique; eauto using kid_subtree).
    apply safe_bind, runs_safe. eapply reads_runs; [by apply reads_try, (read_parent s t Hr q ks sx)|].
    apply safe_ret. pose proof (kid_tsize q ks sx _ (subtree_refl _) Hk) as Hlt.
    pose proof (tsize_subtree _ _ Hq) as Hle. unfold tsize in Hlt, Hle.
    exists (length (nodes t) - length (nodes (Node q ks)))%nat. split; [|lia].
    split; [done|]. exists (Node q ks). split_and!; [done|done|apply nodes_node; eauto|lia].
Qed.

Lemma find_next_safe cur hint dep sl :
  cur ∈ nodes t → hint ∈ nodes t →
  safe (find_next_reindex_root fuel cur hint dep sl) s (λ r s', s' = s ∧
    (r.2 = cur ∨ ∃ sx, subtree sx t ∧ root sx = r.1 ∧ r.2 ∈ nodes sx ∧ above r.2 hint)).
Proof using Hr Hi Hfuel.
  intros Hc Hh. unfold find_next_reindex_root. pose proof (rep_nodup _ _ Hr) as Hnd.
  destruct (height_read hint Hh) as [hh Hhh], (height_read cur Hc) as [ch Hch].
  assert (is_Some (D !! cur) ∧ is_Some (D !! hint)) as [? ?] by (split; by apply (rep_dom _ _ Hr)).
  apply safe_bind, runs_safe. eapply reads_runs; [by apply reads_try|].
  apply safe_bind, runs_safe. eapply reads_runs; [by apply mem_contains|].
  destruct (contains _ _) eqn:Hcon.
  - apply (contains_below D t) in Hcon as (sx & Hsx & Hrx & Hin); auto. subst cur.
    apply safe_bind. eapply safe_mono; [by apply (advance_next_safe hint hh dep sx)|].
    intros r s' (-> & Hrin & Hab). apply safe_ret. split; [done|]. right. exists sx. auto.
  - apply safe_bind, runs_safe. eapply reads_runs; [by apply reads_try|].
    apply safe_bind. apply (safe_mono _ _ (λ _ s', s' = s)).
    { destruct (hh <? ch); [by apply safe_ret|].
      apply safe_bind, safe_lift; [apply Interval.checked_no_fuel|]. intros ? _. by apply safe_ret. }
    intros stay s' ->. destruct stay; [apply safe_ret; auto|].
    apply safe_bind. eapply safe_mono; [by apply (find_common_safe hint cur)|].
    intros a s' (-> & sx & Hsx & <- & Hbx & _).
    apply safe_bind. eapply safe_mono; [by apply (advance_next_safe hint hh dep sx)|].
    intros r s' (-> & Hrin & Hab). apply safe_ret. split; [done|]. right. exists sx. auto.
Qed.
End queries.

(** ** Moving the root *)

Lemma safe_with_ctx {A} dep sl (m : M RCtx ReachabilityError A) s Q :
  safe m (mkCtx s ∅ dep sl) (λ a c, Q a (store c)) → safe (with_ctx dep sl m) s Q.
Proof. unfold safe, with_ctx. by destruct (m _) as [[] ?]. Qed.

Section advance.
Context (t : tree) (fuel : nat) (Hfuel : (length (nodes t) < fuel)%nat) (dep sl : Z) (Hsl : 0 ≤ sl).
Abbreviation ctx s := (mkCtx (T:=Mem) s ∅ dep sl).

Lemma indexed_broken s sx :
  represents (Memory.map s) t → indexed (Memory.map s) t → subtree sx t → broken t sx (ctx s).
Proof using.
  intros Hr Hi Hsx. pose proof (proj1 (indexed_iff _ _) Hi) as Hok.
  destruct (Hok sx Hsx) as (Hv & Hne & Hsp). split; simpl; auto.
  - split; [done|apply sizes_ok_empty].
  - intros k Hk z Hz. apply Hok. eapply subtree_trans; [exact Hz|]. destruct sx.
    exact (kid_subtree _ _ _ _ Hsx Hk).
  - by eapply spread_sorted.
Qed.

Lemma broken_fresh sx c : broken t sx c → broken t sx (ctx (store c)).
Proof using.
  intros [Hrd Hv Hk Hs Hrest]. split; auto. split; [apply Hrd|apply sizes_ok_empty].
Qed.

(** The loop of [try_advancing_reindex_root]. *)
Lemma advance_loop_safe s sx next hint :
  represents (Memory.map s) t → indexed (Memory.map s) t → subtree sx t → next ∈ nodes sx →
  above t next hint →
  safe (loop fuel (λ ancestor,
      if bool_decide (ancestor = next) then mret (inr tt)
      else
        child ← get_next_chain_ancestor_unchecked next ancestor;
        with_ctx dep sl (concentrate_interval fuel ancestor child (bool_decide (child = next)));;
        mret (inl child)) (root sx)) s (λ _ s',
    represents (Memory.map s') t ∧ indexed (Memory.map s') t
    ∧ reindexed (Memory.map s) (Memory.map s') ∧ Memory.reindex_root s' = Memory.reindex_root s).
Proof using Hfuel Hsl.
  intros Hr Hi Hsx Hin (kn & kk & Hkn & Hkk & _). pose proof (rep_nodup _ _ Hr) as Hnd.
  apply (safe_loop (λ n anc s', ∃ sy, anc = root sy ∧ subtree sy t ∧ next ∈ nodes sy
    ∧ n = length (nodes sy) ∧ reindexed (Memory.map s) (Memory.map s')
    ∧ Memory.reindex_root s' = Memory.reindex_root s
    ∧ if bool_decide (anc = next) then indexed (Memory.map s') t else broken t sy (ctx s'))
    _ _ _ (length (nodes sx))).
  2: { exists sx. split_and!; [done|done|done|done|reflexivity|done|]. case_bool_decide; [done|]. by apply indexed_broken. }
  2: { pose proof (tsize_subtree _ _ Hsx). unfold tsize in *. lia. }
  intros n anc s1 (sy & -> & Hsy & Hny & -> & Hre & Hroot & Hst).
  revert Hst. case_bool_decide as Hnext; intros Hst.
  { apply safe_ret. split_and!; [by eapply reindexed_represents|done..]. }
  destruct sy as [q ks]. simpl in Hnext. apply nodes_node in Hny as [?|(k & Hk & Hkin)]; [congruence|].
  pose proof (br_kids _ _ _ Hst k Hk) as Hixk.
  assert (indexed (Memory.map s1) k) as Hik by (apply indexed_iff; exact Hixk).
  pose proof (indexed_bounds _ _ _ Hik Hkin) as (_ & ? & ? & ? & _).
  pose proof (kid_subtree _ _ _ _ Hsy Hk) as Hkt.
  apply safe_bind, runs_safe. eapply reads_runs.
  { apply (next_chain_ok s1 t q ks k); [apply (br_ready _ _ _ Hst)|done|
      apply (br_sorted _ _ _ Hst)|done|eapply subtree_nodes; [exact Hkt|done]|done..]. }
  apply safe_bind, safe_with_ctx. apply list_elem_of_split in Hk as (l & r & ->).
  eapply safe_mono; [apply (concentrate_safe t fuel Hfuel (ctx s1) q l k r); auto|].
  { intros Hkn'%bool_decide_eq_true_1.
    assert (k = Node next kn) as -> by (eapply (subtree_unique t); eauto). simpl.
    intros ->. by apply elem_of_nil in Hkk. }
  intros [] c5 (Hm & Hrd & Hst5). apply safe_ret. exists (length (nodes k)). split.
  - exists k. split_and!; auto.
    + etrans; [exact Hre|apply (mv_data _ _ _ _ Hm)].
    + rewrite <- Hroot. apply (mv_root _ _ _ _ Hm).
    + case_bool_decide; [by apply indexed_iff|by apply broken_fresh].
  - pose proof (kid_tsize q (l ++ k :: r) k _ (subtree_refl _)) as Hlt. unfold tsize in Hlt.
    specialize (Hlt ltac:(rewrite elem_of_app, elem_of_cons; auto)). lia.
Qed.

Lemma try_advancing_safe s hint :
  represents (Memory.map s) t → indexed (Memory.map s) t → root_ok t s → hint ∈ nodes t →
  safe (try_advancing_reindex_root fuel hint dep sl) s (λ _ s',
    represents (Memory.map s') t ∧ indexed (Memory.map s') t ∧ root_ok t s'
    ∧ reindexed (Memory.map s) (Memory.map s')).
Proof using Hfuel Hsl.
  intros Hr Hi (cur & Hcur & Hcin & Hck) Hh. unfold try_advancing_reindex_root.
  apply safe_bind, runs_safe. eapply (runs_intro _ _ cur); [unfold try, map_err; simpl; by rewrite Hcur|].
  apply safe_bind. eapply safe_mono; [by apply (find_next_safe t fuel Hfuel s Hr Hi cur hint)|].
  intros [anc next] s' [-> Hnext]. simpl in Hnext. case_bool_decide as Hsame.
  { apply safe_ret. split_and!; auto; [by exists cur|done]. }
  destruct Hnext as [?|(sx & Hsx & <- & Hin & Hab)]; [congruence|].
  apply safe_bind. eapply safe_mono; [by apply (advance_loop_safe s sx next hint)|].
  intros [] s' (Hr' & Hi' & Hre & _). eapply runs_safe, runs_intro; [done|]. simpl.
  split_and!; auto. exists next. split_and!; [done|by eapply subtree_nodes|].
  destruct Hab as (ks & k & Hks & Hk & _). right. exists ks. split; [done|].
  intros ->. by apply elem_of_nil in Hk.
Qed.
End advance.
