(* ===== verification/ReachMain.v ===== *)
(** * Correctness of the reachability module

    The entry points of [inquirer.rs] against the DAG they index.  [Dag] gives the
    parents of every block; [dag_inv s P] says that the store [s] is a correct
    index of the DAG [P]: a tree of blocks, intervals that nest along it, and
    future covering sets that make up the rest of every block's future.  The
    entry points keep the invariant, and under it the query answers ancestry in
    the DAG; [reach_state] collects the stores a history of calls can produce. *)

From S2P Require Import Prelude Hash Interval ReachStore Reachability ReachSim ReachTree ReachQuery ReachDag ReachInsert ReachCount ReachPropagate ReachReindex ReachAdd ReachConcentrate ReachAdvance.
Import Interval (Interval, start, end_, valid, card, contains, strictly_contains).

(** ** The DAG *)

(** The parents of every block. *)
Abbreviation Dag := (gmap Hash (list Hash)).

(** [ancestor P x y]: [x] is [y], or is reached from [y] through parents. *)
Inductive ancestor (P : Dag) (x : Hash) : Hash → Prop :=
| anc_refl : ancestor P x x
| anc_step y ps p : P !! y = Some ps → p ∈ ps → ancestor P x p → ancestor P x y.

Definition closed (P : Dag) : Prop := ∀ y ps p, P !! y = Some ps → p ∈ ps → is_Some (P !! p).

Record dag_tree (s : Mem) (P : Dag) (t : tree) : Prop := {

  di_rep : represents (Memory.map s) t;
  di_idx : indexed (Memory.map s) t;
  di_root : root_ok t s;
  di_cov : covers (Memory.map s) t (ancestor P);
  di_dom : ∀ h, is_Some (P !! h) ↔ h ∈ nodes t;
  di_closed : closed P;
}.
Definition dag_inv (s : Mem) (P : Dag) : Prop := ∃ t, dag_tree s P t.

(** What consensus guarantees of a block it adds: the block is new, its parents
    are known, the selected parent is one of them, and the mergeset lists, once
    each, the blocks of its past that are not in the past of the selected parent. *)
Record valid_block (P : Dag) (n : Hash) (ps : list Hash) (sp : Hash) (ms : list Hash) : Prop := {
  vb_fresh : P !! n = None;
  vb_none : n ≠ Hashes.NONE;
  vb_known : ∀ p, p ∈ ps → is_Some (P !! p);
  vb_selected : sp ∈ ps;
  vb_nodup : NoDup ms;
  vb_mergeset : ∀ x p, p ∈ ps → ancestor P x p → ancestor P x sp ∨ x ∈ ms;
  vb_merged : ∀ x, x ∈ ms → (∃ p, p ∈ ps ∧ ancestor P x p) ∧ ¬ ancestor P x sp;
}.

Lemma ancestor_known P x y : closed P → is_Some (P !! y) → ancestor P x y → is_Some (P !! x).
Proof. intros HP Hy Ha. induction Ha; eauto. Qed.

Section insert_dag.
Context (P : Dag) (n : Hash) (ps : list Hash) (HP : closed P) (Hn : P !! n = None).
Context (Hps : ∀ p, p ∈ ps → is_Some (P !! p)).
Abbreviation P' := (<[n := ps]> P).

Lemma insert_closed : closed P'.
Proof using HP Hps.
  intros y qs q Hy Hq. apply lookup_insert_is_Some'. right.
  apply lookup_insert_Some in Hy as [[<- <-]|[_ Hy]]; eauto.
Qed.

Lemma ancestor_old x y : is_Some (P !! y) → ancestor P' x y ↔ ancestor P x y.
Proof.
  intros Hy. split.
  - intros Ha. revert Hy. induction Ha as [|y qs q Hq Hin _ IH]; intros Hy; [constructor|].
    rewrite lookup_insert_ne in Hq by (intros ->; rewrite Hn in Hy; by destruct Hy).
    econstructor; eauto.
  - clear Hy. induction 1 as [|y qs q Hq]; [constructor|]. econstructor; [|done..].
    rewrite lookup_insert_ne; congruence.
Qed.

Lemma ancestor_new x : ancestor P' x n ↔ x = n ∨ ∃ p, p ∈ ps ∧ ancestor P x p.
Proof.
  split.
  - inversion 1 as [|? qs q Hq Hin Ha]; [by left|]. right. rewrite lookup_insert_eq in Hq.
    injection Hq as Hq. rewrite <- Hq in Hin. exists q. split; [done|]. apply ancestor_old; auto.
  - intros [->|(p & Hp & Ha)]; [constructor|]. econstructor; [by rewrite lookup_insert_eq|done|].
    apply ancestor_old; auto.
Qed.
End insert_dag.

Lemma covers_iff_on t D R R' :
  represents D t → (∀ x y, x ∈ nodes t → y ∈ nodes t → R x y ↔ R' x y) →
  covers D t R → covers D t R'.
Proof.
  intros Hr HR [Ho Hc]. split; [done|]. intros x y d Hd Hy. rewrite <- HR; eauto.
  apply (rep_dom _ _ Hr). eauto.
Qed.

(** The relation that the two halves of [add_block] establish is ancestry in the
    DAG with the new block. *)
Lemma linked_ancestor P n ps sp ms x y :
  closed P → valid_block P n ps sp ms → x = n ∨ is_Some (P !! x) → y = n ∨ is_Some (P !! y) →
  linked n (extended sp n (ancestor P)) ms x y ↔ ancestor (<[n := ps]> P) x y.
Proof.
  intros HP [Hn _ Hps Hsp _ Hms Hmd] Hx Hy. unfold linked, extended.
  destruct (decide (y = n)) as [->|Hyn].
  - rewrite (ancestor_new P n ps HP Hn Hps). split.
    + intros [[->|Ha]|[_ Hin]]; [by left|right; eauto|right; by apply Hmd].
    + intros [->|(p & Hp & Ha)]; [auto|]. destruct (Hms x p Hp Ha); auto.
  - destruct Hy as [|Hy]; [done|]. rewrite (ancestor_old P n ps HP Hn x y Hy). split; [tauto|].
    intros Ha. left. split; [|done]. intros ->.
    apply (ancestor_known P n y HP Hy) in Ha as [? ?]. congruence.
Qed.

Lemma graft_leaf_only p n t y : n ∉ nodes t → below (graft p n t) n y → y = n.
Proof.
  intros Hn (s' & Hs & Hroot & Hy). apply graft_subtree_inv in Hs as [->|(s & Hs & ->)].
  - by apply list_elem_of_singleton in Hy.
  - rewrite graft_root in Hroot. destruct Hn. rewrite <- Hroot.
    eapply subtree_nodes; [exact Hs|]. apply root_in_nodes.
Qed.

(** ** Initialisation *)

Lemma init_dag_tree (s' : Mem) :
  inquirer_init Memory.new = (Ok tt, s') → dag_tree s' {[Hashes.ORIGIN := []]} (Node Hashes.ORIGIN []).
Proof.
  intros Hrun. assert (s' = snd (inquirer_init (T:=Mem) Memory.new)) as -> by by rewrite Hrun.
  set (s0 := snd (inquirer_init (T:=Mem) Memory.new)). clear Hrun.
  destruct (check_data_sound (Memory.map s0) (Node Hashes.ORIGIN [])) as [Hr Hi]; [by vm_compute|].
  assert (future_covering_set <$> Memory.map s0 !! Hashes.ORIGIN = Some []) as Hfcs by by vm_compute.
  assert (Memory.reindex_root s0 = Some Hashes.ORIGIN) as Hroot by by vm_compute.
  clearbody s0. generalize dependent Hashes.ORIGIN. intros o Hr Hi Hfcs Hroot.
  assert (∀ x d, Memory.map s0 !! x = Some d → x = o ∧ future_covering_set d = []) as Hone.
  { intros x d Hd. assert (x = o) as ->; [|by rewrite Hd in Hfcs; simplify_eq/=].
    apply list_elem_of_singleton, (rep_dom _ _ Hr). eauto. }
  split; [done|done| | | |].
  - exists o. split_and!; [done|left|by left].
  - split.
    + intros x d [_ ->]%Hone. split; constructor.
    + intros x y d [-> _]%Hone ->%list_elem_of_singleton. split; [|constructor].
      intros _. left. by apply below_refl, list_elem_of_singleton.
  - intros h. simpl. rewrite list_elem_of_singleton, lookup_singleton_is_Some. done.
  - intros y ps p Hy Hp. apply lookup_singleton_Some in Hy as [<- <-]. by apply elem_of_nil in Hp.
Qed.

(** ** Adding a block *)

Section add_block.
Context (s : Mem) (P : Dag) (t : tree) (n : Hash) (ps : list Hash) (sp : Hash) (ms : list Hash).
Context (HI : dag_tree s P t) (Hv : valid_block P n ps sp ms).

Lemma dag_size : size P = length (nodes t).
Proof using HI.
  rewrite <- size_dom, <- (size_list_to_set (C:=gset Hash) (nodes t)) by apply HI.
  f_equal. apply set_eq. intros h. rewrite elem_of_dom, elem_of_list_to_set. apply HI.
Qed.

Lemma selected_data : ∃ dp, Memory.map s !! sp = Some dp.
Proof using HI Hv.
  apply (rep_dom _ _ (di_rep _ _ _ HI)), (di_dom _ _ _ HI), (vb_known _ _ _ _ _ Hv), Hv.
Qed.

Lemma new_unknown : Memory.map s !! n = None.
Proof using HI Hv.
  destruct (Memory.map s !! n) eqn:E; [|done].
  assert (is_Some (P !! n)) as [? Hn].
  { apply (di_dom _ _ _ HI), (rep_dom _ _ (di_rep _ _ _ HI)). eauto. }
  rewrite (vb_fresh _ _ _ _ _ Hv) in Hn. done.
Qed.

(** The second half, after the block was added to the tree. *)
Lemma add_block_dag s1 :
  added s t sp n s1 →
  runs (add_dag_block n ms) s1 (λ _ s', dag_tree s' (<[n := ps]> P) (graft sp n t)).
Proof using HI Hv.
  intros (Hr & Hi & Hroot & Hcov). specialize (Hcov _ (di_cov _ _ _ HI)).
  destruct selected_data as [dp Hdp]. pose proof (di_rep _ _ _ HI) as Hr0.
  assert (sp ∈ nodes t) as Hsp by (apply (rep_dom _ _ Hr0); eauto).
  assert (∀ h, h ∈ nodes (graft sp n t) ↔ h = n ∨ is_Some (P !! h)) as Hnodes.
  { intros h. rewrite graft_elem, (di_dom _ _ _ HI); [done|apply Hr0|done]. }
  assert (∀ x, x ∈ ms → is_Some (P !! x)) as Hms.
  { intros x Hx. destruct (vb_merged _ _ _ _ _ Hv x Hx) as [(p & Hp & Ha) _].
    eapply ancestor_known; [apply HI| |exact Ha]. by eapply vb_known. }
  assert (n ∉ nodes t) as Hn.
  { rewrite <- (rep_dom _ _ Hr0), new_unknown. by intros [? ?]. }
  eapply runs_mono; [apply (add_dag_block_ok (graft sp n t) n) with (R := extended sp n (ancestor P))|].
  - apply Hnodes. by left.
  - intros y. by apply graft_leaf_only.
  - done.
  - done.
  - done.
  - apply Hv.
  - intros x Hx. split; [apply Hnodes; auto|]. unfold extended. rewrite decide_True by done.
    intros [->|Ha]; [|by apply (vb_merged _ _ _ _ _ Hv) in Hx as [_ []]].
    destruct (Hms n Hx) as [? Hbad]. rewrite (vb_fresh _ _ _ _ _ Hv) in Hbad. done.
  - intros _ s' (Hr' & Hi' & Hc' & Hroot'). split; [done|done| | | |].
    + destruct Hroot as (r & ? & ?). exists r. split; [congruence|done].
    + eapply covers_iff_on; [done| |exact Hc']. intros x y Hx%Hnodes Hy%Hnodes.
      apply linked_ancestor; [apply HI|done..].
    + intros h. rewrite Hnodes, lookup_insert_is_Some'. naive_solver.
    + apply insert_closed; [apply HI|apply Hv].
Qed.
End add_block.

(** ** Histories

    The stores that the entry points produce from an empty store, with the DAG
    they index; every call is given enough fuel for the blocks of the DAG. *)

Section history.
Context {T : Type} `{StoreLaws T}.

Inductive reach_state : T → Dag → Prop :=
| rs_init s s' :
    abs s = Memory.new → inquirer_init s = (Ok tt, s') →
    reach_state s' {[Hashes.ORIGIN := []]}
| rs_add fuel s P n ps sp ms s' :
    reach_state s P → valid_block P n ps sp ms → Z.of_nat (size P) < u64_max →
    (S (size P) < fuel)%nat →
    add_block fuel n sp ms s = (Ok tt, s') → reach_state s' (<[n := ps]> P)
| rs_hint fuel s P h s' :
    reach_state s P → is_Some (P !! h) → (size P < fuel)%nat →
    hint_virtual_selected_parent fuel h s = (Ok tt, s') → reach_state s' P.
End history.

Lemma slack_ok : 0 ≤ DEFAULT_REINDEX_SLACK.
Proof. by vm_compute. Qed.

Section steps.
Context (s : Mem) (P : Dag) (t : tree) (HI : dag_tree s P t).

Lemma add_block_safe fuel n ps sp ms :
  valid_block P n ps sp ms → Z.of_nat (size P) < u64_max → (S (size P) < fuel)%nat →
  safe (add_block fuel n sp ms) s (λ _ s', dag_tree s' (<[n := ps]> P) (graft sp n t)).
Proof using HI.
  intros Hv Hsz Hfuel. rewrite (dag_size _ _ _ HI) in Hsz, Hfuel.
  destruct (selected_data _ _ _ _ _ _ _ HI Hv) as [dp Hdp]. apply safe_bind.
  eapply safe_mono;
    [apply (add_tree_block_safe fuel s t sp n dp (di_rep _ _ _ HI) (di_idx _ _ _ HI)
       (di_root _ _ _ HI) Hdp); [| |exact Hsz| |exact slack_ok]|].
  - by eapply new_unknown.
  - apply Hv.
  - rewrite graft_nodes; [simpl; lia|apply HI|]. apply (rep_dom _ _ (di_rep _ _ _ HI)). eauto.
  - intros [] s1 Hadd. apply runs_safe. by eapply add_block_dag.
Qed.

Lemma add_block_room fuel n ps sp ms dp :
  valid_block P n ps sp ms → Z.of_nat (size P) < u64_max →
  Memory.map s !! sp = Some dp → free_from s sp dp < end_ (ivl (Memory.map s) sp) →
  runs (add_block fuel n sp ms) s (λ _ s', dag_tree s' (<[n := ps]> P) (graft sp n t)).
Proof using HI.
  intros Hv Hsz Hdp Hroom. rewrite (dag_size _ _ _ HI) in Hsz. apply runs_bind.
  eapply runs_mono;
    [apply (add_tree_block_room fuel s t sp n dp (di_rep _ _ _ HI) (di_idx _ _ _ HI)
       (di_root _ _ _ HI) Hdp); [| |exact Hsz|exact Hroom]|].
  - by eapply new_unknown.
  - apply Hv.
  - intros [] s1 Hadd. by eapply add_block_dag.
Qed.

Lemma hint_safe fuel h :
  is_Some (P !! h) → (size P < fuel)%nat →
  safe (hint_virtual_selected_parent fuel h) s (λ _ s', dag_tree s' P t).
Proof using HI.
  intros Hh Hfuel. rewrite (dag_size _ _ _ HI) in Hfuel. apply (di_dom _ _ _ HI) in Hh.
  eapply safe_mono; [apply (try_advancing_safe t fuel Hfuel _ _ slack_ok s h); [apply HI..|exact Hh]|].
  intros [] s' (Hr & Hi & Hroot & Hre). split; [done..| |apply HI|apply HI].
  eapply reindexed_covers; [done|apply HI].
Qed.

Lemma dag_query x y :
  is_Some (P !! x) → is_Some (P !! y) →
  ∃ r, is_dag_ancestor_of x y s = (Ok r, s) ∧ (r = true ↔ ancestor P x y).
Proof using HI.
  intros Hx%(di_dom _ _ _ HI) Hy%(di_dom _ _ _ HI). eapply is_dag_ancestor_of_ok; [apply HI..|done|done].
Qed.
End steps.

Section history_inv.
Context {T : Type} `{StoreLaws T}.

(** A run on the store is a run on its contents. *)
Lemma abs_run {E A} (m : M T E A) (m' : M Mem E A) s a s' :
  sim abs m m' → m s = (Ok a, s') → m' (abs s) = (Ok a, abs s').
Proof. intros Hs Hm. rewrite Hs, Hm. done. Qed.

Lemma reach_state_inv (s : T) P : reach_state s P → dag_inv (abs s) P.
Proof.
  induction 1 as [s s' Hnew Hrun|fuel s P n ps sp ms s' _ [t HI] Hv Hsz Hfuel Hrun
    |fuel s P h s' _ [t HI] Hh Hfuel Hrun].
  - eexists. apply init_dag_tree. rewrite <- Hnew. eapply abs_run; [|exact Hrun].
    apply sim_bind; [apply sim_lift|]. intros; apply sim_init_with_params.
  - apply (abs_run _ _ _ _ _ (sim_add_block fuel n sp ms)) in Hrun.
    pose proof (safe_elim _ _ _ _ _ (add_block_safe _ _ _ HI fuel n ps sp ms Hv Hsz Hfuel) Hrun) as HI'.
    eexists. exact HI'.
  - apply (abs_run _ _ _ _ _ (sim_try_advancing fuel h _ _)) in Hrun.
    pose proof (safe_elim _ _ _ _ _ (hint_safe _ _ _ HI fuel h Hh Hfuel) Hrun) as HI'.
    eexists. exact HI'.
Qed.
End history_inv.

(** ** Concrete histories

    Executable checks of the hypotheses above: [A] lists, for every block of [P],
    its ancestors. *)

Fixpoint ancestor_b (P : Dag) (fuel : nat) (x y : Hash) : bool :=
  bool_decide (x = y) || match fuel with
  | O => false
  | S f => match P !! y with Some ps => existsb (ancestor_b P f x) ps | None => false end
  end.

Definition subset_b (l k : list Hash) : bool := forallb (λ x, bool_decide (x ∈ k)) l.

Definition past_b (P A : Dag) (y : Hash) (l : list Hash) : bool :=
  bool_decide (y ∈ l) && forallb (λ x, ancestor_b P 20 x y) l
  && forallb (λ p, match A !! p with Some lp => subset_b lp l | None => false end)
       (default [] (P !! y)).
Definition pasts_b (P A : Dag) : bool :=
  bool_decide (dom P = dom A) && forallb (λ '(y, l), past_b P A y l) (map_to_list A).

Definition valid_block_b (P A : Dag) (n : Hash) (ps : list Hash) (sp : Hash) (ms : list Hash) : bool :=
  let past y := default [] (A !! y) in
  bool_decide (P !! n = None) && bool_decide (n ≠ Hashes.NONE)
  && forallb (λ p, bool_decide (is_Some (P !! p))) ps && bool_decide (sp ∈ ps)
  && bool_decide (NoDup ms) && forallb (λ p, subset_b (past p) (past sp ++ ms)) ps
  && forallb (λ x, existsb (λ p, bool_decide (x ∈ past p)) ps && bool_decide (x ∉ past sp)) ms.

Lemma ancestor_b_sound P fuel x y : ancestor_b P fuel x y = true → ancestor P x y.
Proof.
  revert y. induction fuel as [|f IH]; intros y; simpl;
    intros [->%bool_decide_eq_true_1|Hb]%orb_true_iff; try (by constructor); [done|].
  destruct (P !! y) as [ps|] eqn:Hy; [|done]. apply existsb_exists in Hb as (p & Hp & Hb).
  econstructor; [exact Hy|by apply list_elem_of_In|by apply IH].
Qed.

Lemma forallb_elem {A} (f : A → bool) l x : forallb f l = true → x ∈ l → f x = true.
Proof. rewrite forallb_forall. intros Hf Hx%list_elem_of_In. auto. Qed.
Lemma subset_b_sound l k x : subset_b l k = true → x ∈ l → x ∈ k.
Proof. intros Hs Hx. by eapply bool_decide_eq_true_1, (forallb_elem _ _ _ Hs Hx). Qed.

Section checks.
Context (P A : Dag) (Hchk : pasts_b P A = true).

Lemma past_dom y : is_Some (P !! y) → is_Some (A !! y).
Proof using Hchk.
  apply andb_true_iff in Hchk as [Hdom%bool_decide_eq_true_1 _].
  rewrite <- !elem_of_dom, Hdom. done.
Qed.
Lemma past_checked y l : A !! y = Some l → past_b P A y l = true.
Proof using Hchk.
  intros Hl. apply andb_true_iff in Hchk as [_ Hall].
  exact (forallb_elem _ _ (y, l) Hall (proj2 (elem_of_map_to_list A y l) Hl)).
Qed.

Lemma past_complete x y l : ancestor P x y → A !! y = Some l → x ∈ l.
Proof using Hchk.
  intros Ha. revert l. induction Ha as [|y ps p Hp Hin _ IH]; intros l Hl;
    pose proof (past_checked _ _ Hl) as Hb; unfold past_b in Hb; zbool.
  - by eapply bool_decide_eq_true_1.
  - match goal with H : forallb _ _ = true, H' : forallb _ _ = true |- _ => rename H' into Hps end.
    rewrite Hp in Hps. apply (forallb_elem _ _ _ Hps) in Hin.
    destruct (A !! p) as [lp|]; [|done]. eapply subset_b_sound; [exact Hin|]. by apply IH.
Qed.

Lemma ancestor_past x y : is_Some (P !! y) → ancestor P x y ↔ x ∈ default [] (A !! y).
Proof using Hchk.
  intros [l Hl]%past_dom. rewrite Hl. simpl. split.
  - intros Ha. by eapply past_complete.
  - intros Hx. pose proof (past_checked _ _ Hl) as Hb. unfold past_b in Hb. zbool.
    match goal with H : forallb (λ x, ancestor_b _ _ _ _) _ = true |- _ => rename H into Hanc end.
    by eapply ancestor_b_sound, (forallb_elem _ _ _ Hanc).
Qed.

Lemma valid_block_b_sound n ps sp ms :
  valid_block_b P A n ps sp ms = true → valid_block P n ps sp ms.
Proof using Hchk.
  unfold valid_block_b. rewrite !andb_true_iff, !bool_decide_eq_true.
  intros ((((((Hn & Hnone) & Hps) & Hsp) & Hnd) & Hms) & Hmd).
  assert (∀ p, p ∈ ps → is_Some (P !! p)) as Hknown.
  { intros p Hp. exact (bool_decide_eq_true_1 _ (forallb_elem _ _ _ Hps Hp)). }
  split; [done..| |].
  - intros x p Hp Ha. apply (ancestor_past x p) in Ha; [|auto].
    pose proof (forallb_elem _ _ _ Hms Hp) as Hsub. rewrite (ancestor_past x sp) by auto.
    eapply elem_of_app, subset_b_sound; [exact Hsub|done].
  - intros x Hx. pose proof (forallb_elem _ _ _ Hmd Hx) as Hb.
    apply andb_true_iff in Hb as [(p & Hp & Hin)%existsb_exists Hno].
    apply bool_decide_eq_true_1 in Hno, Hin. apply list_elem_of_In in Hp.
    rewrite (ancestor_past x sp) by auto. split; [|done].
    exists p. split; [done|]. apply ancestor_past; auto.
Qed.
End checks.

(** A history given as data: blocks [(new, parents, selected parent, mergeset)]
    and hints. *)
Inductive Event : Type :=
| NewBlock (n : Hash) (ps : list Hash) (sp : Hash) (ms : list Hash)
| NewHint (h : Hash).

Section events.
Context {T : Type} `{StoreLaws T}.

Definition play (st : T * Dag * Dag) (e : Event) : option (T * Dag * Dag) :=
  let '(s, P, A) := st in
  if negb ((S (size P) <? 50)%nat && pasts_b P A) then None else
  match e with
  | NewBlock n ps sp ms =>
      match valid_block_b P A n ps sp ms, add_block 50 n sp ms s with
      | true, (Ok _, s') =>
          Some (s', <[n := ps]> P, <[n := n :: remove_dups (ps ≫= λ p, default [] (A !! p))]> A)
      | _, _ => None
      end
  | NewHint h =>
      match bool_decide (is_Some (P !! h)), hint_virtual_selected_parent 50 h s with
      | true, (Ok _, s') => Some (s', P, A)
      | _, _ => None
      end
  end.

Fixpoint play_all (st : T * Dag * Dag) (es : list Event) : option (T * Dag * Dag) :=
  match es with
  | [] => Some st
  | e :: es' => st' ← play st e; play_all st' es'
  end.

Lemma play_sound s P A e s' P' A' :
  reach_state s P → play (s, P, A) e = Some (s', P', A') → reach_state s' P'.
Proof.
  intros Hs. unfold play. destruct (_ <? 50)%nat eqn:Hf; [|done].
  destruct (pasts_b P A) eqn:HA; [|done]. apply Nat.ltb_lt in Hf. simpl.
  destruct e as [n ps sp ms|h].
  - destruct (valid_block_b _ _ _ _ _ _) eqn:Hv; [|done].
    destruct (add_block _ _ _ _ _) as [[[]| | |] s1] eqn:Hadd; [|done..].
    intros [= <- <- _]. eapply (rs_add 50); [exact Hs| | |exact Hf|exact Hadd].
    + by eapply valid_block_b_sound.
    + unfold u64_max. lia.
  - case_bool_decide as Hh; [|done].
    destruct (hint_virtual_selected_parent _ _ _) as [[[]| | |] s1] eqn:Hhint; [|done..].
    intros [= <- <- _]. eapply (rs_hint 50); [exact Hs|exact Hh|lia|exact Hhint].
Qed.

Lemma play_all_sound es s P A s' P' A' :
  reach_state s P → play_all (s, P, A) es = Some (s', P', A') → reach_state s' P'.
Proof.
  revert s P A. induction es as [|e es IH]; intros s P A Hs; [by intros [= <- <- _]|].
  cbn [play_all]. destruct (play (s, P, A) e) as [[[s1 P1] A1]|] eqn:Hp; [|done].
  apply IH. by eapply play_sound.
Qed.

Definition genesis_state (s : T) : T * Dag * Dag :=
  (snd (inquirer_init s), {[Hashes.ORIGIN := []]}, {[Hashes.ORIGIN := [Hashes.ORIGIN]]}).
End events.

(** A history on the staging store over an empty database: a small DAG with two
    merging blocks, and a hint. *)
Definition ex_events : list Event :=
  [NewBlock 1%N [Hashes.ORIGIN] Hashes.ORIGIN []; NewBlock 2%N [1%N] 1%N [];
   NewBlock 3%N [1%N] 1%N []; NewBlock 4%N [2; 3]%N 2%N [3%N]; NewHint 4%N;
   NewBlock 5%N [3%N] 3%N []; NewBlock 6%N [5; 4]%N 5%N [2; 4]%N].
Definition ex_empty : Staging.StagingReachabilityStore := Staging.new (Db.mk ∅ None).
Definition ex_played : Staging.StagingReachabilityStore * Dag * Dag :=
  default (ex_empty, ∅, ∅) (play_all (genesis_state ex_empty) ex_events).
Definition ex_staging : Staging.StagingReachabilityStore := ex_played.1.1.
Definition ex_dag : Dag := ex_played.1.2.

(** The same history on the in-memory store. *)
Definition ex_memory : Mem :=
  (default (Memory.new, ∅, ∅) (play_all (genesis_state Memory.new) ex_events)).1.1.

Lemma played_reach {T} `{StoreLaws T} (s0 : T) es d :
  abs s0 = Memory.new → fst (inquirer_init s0) = Ok tt →
  bool_decide (is_Some (play_all (genesis_state s0) es)) = true →
  reach_state (default d (play_all (genesis_state s0) es)).1.1
              (default d (play_all (genesis_state s0) es)).1.2.
Proof.
  intros Hnew Hinit Hplay. destruct (play_all (genesis_state s0) es) as [[[s P] A]|] eqn:Hp;
    [|by apply bool_decide_eq_true_1 in Hplay as [? ?]].
  simpl. eapply play_all_sound; [|exact Hp].
  eapply rs_init; [exact Hnew|]. rewrite <- Hinit. by destruct (inquirer_init s0).
Qed.

Lemma ex_reach : reach_state ex_staging ex_dag.
Proof. apply played_reach; by vm_compute. Qed.
Lemma memory_reach_inv (s : Mem) P : reach_state s P → dag_inv s P.
Proof. exact (reach_state_inv s P). Qed.
Lemma ex_memory_reach :
  reach_state ex_memory (default (Memory.new, ∅, ∅) (play_all (genesis_state Memory.new) ex_events)).1.2.
Proof. apply played_reach; by vm_compute. Qed.
Lemma ex_memory_inv : dag_inv ex_memory ex_dag.
Proof.
  assert (bool_decide (ex_dag
    = (default (Memory.new, ∅, ∅) (play_all (genesis_state Memory.new) ex_events)).1.2) = true)
    as ->%bool_decide_eq_true_1 by by vm_compute.
  apply memory_reach_inv, ex_memory_reach.
Qed.
Lemma known_block (P : Dag) h : bool_decide (is_Some (P !! h)) = true → is_Some (P !! h).
Proof. apply bool_decide_eq_true_1. Qed.
Definition ex_pasts : Dag := ex_played.2.

(** ** Properties *)

(** Initialisation of an empty store gives an index of the DAG that has the
    origin only. *)
Theorem init_indexes_origin :
  ∃ s', inquirer_init Memory.new = (Ok tt, s') ∧ dag_inv s' {[Hashes.ORIGIN := []]}.
Proof.
  assert (∃ s', inquirer_init (T:=Mem) Memory.new = (Ok tt, s')) as [s' Hs'] by (eexists; by vm_compute).
  exists s'. split; [done|]. eexists. by apply init_dag_tree.
Qed.

(** C7: [add_block], on an index of a DAG and for a block that extends it, ends
    (the fuel of its loops suffices), and when it succeeds the store is an index
    of the DAG with the new block: the tree insertion, every interval reindexing
    it may trigger, and the updates of the future covering sets are right. *)
Theorem add_block_keeps_index (s : Mem) (P : Dag) (fuel : nat) n ps sp ms :
  dag_inv s P → valid_block P n ps sp ms → Z.of_nat (size P) < u64_max →
  (S (size P) < fuel)%nat →
  fst (add_block fuel n sp ms s) ≠ Fuel
  ∧ ∀ s', add_block fuel n sp ms s = (Ok tt, s') → dag_inv s' (<[n := ps]> P).
Proof.
  intros [t HI] Hv Hsz Hfuel. pose proof (add_block_safe s P t HI fuel n ps sp ms Hv Hsz Hfuel) as Hsafe.
  split; [by eapply safe_no_fuel|]. intros s' Hrun. eexists.
  exact (safe_elim _ _ _ _ _ Hsafe Hrun).
Qed.

(** C15: [add_block] succeeds, whatever the fuel, when the selected parent has
    room for one more child after its last child. *)
Theorem add_block_succeeds (s : Mem) (P : Dag) (fuel : nat) n ps sp ms dp :
  dag_inv s P → valid_block P n ps sp ms → Z.of_nat (size P) < u64_max →
  Memory.map s !! sp = Some dp → free_from s sp dp < end_ (ivl (Memory.map s) sp) →
  ∃ s', add_block fuel n sp ms s = (Ok tt, s') ∧ dag_inv s' (<[n := ps]> P).
Proof.
  intros [t HI] Hv Hsz Hdp Hroom.
  destruct (runs_elim _ _ _ (add_block_room s P t HI fuel n ps sp ms dp Hv Hsz Hdp Hroom))
    as ([] & s' & Hrun & HI'). exists s'. split; [done|]. eexists. exact HI'.
Qed.

(** [hint_virtual_selected_parent] ends, and when it succeeds the store still
    indexes the same DAG, whatever intervals were moved to advance the reindex
    root. *)
Theorem hint_keeps_index (s : Mem) (P : Dag) (fuel : nat) (h : Hash) :
  dag_inv s P → is_Some (P !! h) → (size P < fuel)%nat →
  fst (hint_virtual_selected_parent fuel h s) ≠ Fuel
  ∧ ∀ s', hint_virtual_selected_parent fuel h s = (Ok tt, s') → dag_inv s' P.
Proof.
  intros [t HI] Hh Hfuel. pose proof (hint_safe s P t HI fuel h Hh Hfuel) as Hsafe.
  split; [by eapply safe_no_fuel|]. intros s' Hrun. eexists.
  exact (safe_elim _ _ _ _ _ Hsafe Hrun).
Qed.

(** C6: on any store that implements [ReachabilityStore] and after any history of
    initialisation, additions of blocks and hints, [is_dag_ancestor_of] answers,
    for any two blocks added so far, whether the first is the second or one of
    its ancestors in the DAG; it does not change the contents of the store. *)
Theorem dag_queries_correct {T} `{StoreLaws T} (s : T) (P : Dag) (x y : Hash) :
  reach_state s P → is_Some (P !! x) → is_Some (P !! y) →
  ∃ r s', is_dag_ancestor_of x y s = (Ok r, s') ∧ abs s' = abs s
    ∧ (r = true ↔ ancestor P x y).
Proof.
  intros Hs Hx Hy. destruct (reach_state_inv s P Hs) as [t HI].
  destruct (dag_query (abs s) P t HI x y Hx Hy) as (r & Hr & Hiff).
  pose proof (sim_is_dag_ancestor_of x y s) as Hsim. rewrite Hr in Hsim.
  destruct (is_dag_ancestor_of x y s) as [o s'] eqn:E. simpl in Hsim. simplify_eq.
  exists r, s'. split_and!; [congruence..|done].
Qed.

Lemma dag_queries_correct_witness :
  ∃ r s', is_dag_ancestor_of 2%N 6%N ex_staging = (Ok r, s') ∧ abs s' = abs ex_staging
    ∧ (r = true ↔ ancestor ex_dag 2%N 6%N).
Proof.
  apply (dag_queries_correct ex_staging ex_dag 2%N 6%N);
    [exact ex_reach|apply known_block; by vm_compute..].
Defined.

Lemma hint_keeps_index_witness :
  fst (hint_virtual_selected_parent 50 6%N ex_memory) ≠ Fuel
  ∧ ∀ s', hint_virtual_selected_parent 50 6%N ex_memory = (Ok tt, s') → dag_inv s' ex_dag.
Proof.
  apply (hint_keeps_index ex_memory ex_dag 50 6%N);
    [exact ex_memory_inv|apply known_block; by vm_compute|apply Nat.ltb_lt; by vm_compute].
Defined.

Lemma add_block_keeps_index_witness :
  fst (add_block 50 7%N 6%N [] ex_memory) ≠ Fuel
  ∧ ∀ s', add_block 50 7%N 6%N [] ex_memory = (Ok tt, s') → dag_inv s' (<[7%N := [6%N]]> ex_dag).
Proof.
  apply (add_block_keeps_index ex_memory ex_dag 50 7%N [6%N] 6%N []);
    [exact ex_memory_inv|apply (valid_block_b_sound ex_dag ex_pasts); by vm_compute
    |apply Z.ltb_lt; by vm_compute|apply Nat.ltb_lt; by vm_compute].
Defined.

Lemma add_block_succeeds_witness :
  ∃ s', add_block 0 7%N 6%N [] ex_memory = (Ok tt, s') ∧ dag_inv s' (<[7%N := [6%N]]> ex_dag).
Proof.
  destruct (Memory.map ex_memory !! 6%N) as [dp|] eqn:E; [|by vm_compute in E].
  apply (add_block_succeeds ex_memory ex_dag 0 7%N [6%N] 6%N [] dp);
    [exact ex_memory_inv|apply (valid_block_b_sound ex_dag ex_pasts); by vm_compute
    |apply Z.ltb_lt; by vm_compute|exact E|].
  apply Z.ltb_lt. vm_compute in E. injection E as <-. by vm_compute.
Defined.

(** C16: [count_subtrees], started on any block of a store that represents a tree
    and with no recorded sizes, ends within as many turns as the tree has blocks
    (plus one), leaves the store as it is, and records for the block the number of
    blocks in its subtree; every size it records on the way is right too. *)
Theorem count_subtrees_correct (s : Mem) (t s0 : tree) (fuel : nat) (dep sl : Z) :
  represents (Memory.map s) t → subtree s0 t → (length (nodes t) < fuel)%nat →
  ∃ m, count_subtrees fuel (root s0) (mkCtx s ∅ dep sl) = (Ok tt, mkCtx s m dep sl)
    ∧ m !! root s0 = Some (tsize s0) ∧ sizes_ok t m.
Proof.
  intros Hr Hs Hfuel.
  destruct (runs_elim _ _ _ (count_subtrees_ok t s dep sl s0 Hr Hs fuel Hfuel ∅ (sizes_ok_empty t)))
    as ([] & c' & Hrun & m & -> & Hm & [z Hz]).
  exists m. split_and!; [done| |done]. destruct (Hm _ _ Hz) as (s1 & Hs1 & Hroot & -> & _).
  assert (s1 = s0) as ->; [|done]. eapply subtree_unique; [apply Hr|done..].
Qed.

(** [propagate_interval] on a block whose interval holds at least as many
    points as its subtree has blocks ends with success, touches only the
    intervals of the strict descendants of the block, and gives them intervals
    that index the whole subtree: nested along the tree, disjoint between
    siblings, and with a point of its own for every block. *)
Theorem propagate_interval_correct (s : Mem) (t s0 : tree) (fuel : nat) (dep sl : Z) :
  represents (Memory.map s) t → subtree s0 t → (length (nodes t) < fuel)%nat →
  valid (ivl (Memory.map s) (root s0)) → tsize s0 ≤ card (ivl (Memory.map s) (root s0)) →
  ∃ c', propagate_interval fuel (root s0) (mkCtx s ∅ dep sl) = (Ok tt, c')
    ∧ indexed (Memory.map (store c')) s0
    ∧ reindexed (Memory.map s) (Memory.map (store c'))
    ∧ ∀ x, (x ∉ nodes s0) ∨ x = root s0 → ivl (Memory.map (store c')) x = ivl (Memory.map s) x.
Proof.
  intros Hr Hs Hfuel Hv Hroom.
  destruct (runs_elim _ _ _ (propagate_interval_ok t fuel Hfuel (mkCtx s ∅ dep sl) s0 Hr
    (sizes_ok_empty t) Hs Hv Hroom)) as ([] & c' & Hrun & Hm & _ & Hix).
  exists c'. split_and!; [done|by apply indexed_iff|apply (mv_data _ _ _ _ Hm)|].
  intros x Hx. apply (mv_ivl _ _ _ _ Hm). naive_solver.
Qed.

Lemma count_subtrees_correct_witness :
  ∃ m, count_subtrees 10 1%N (mkCtx ex_store ∅ 0 0) = (Ok tt, mkCtx ex_store m 0 0)
    ∧ m !! 1%N = Some 6 ∧ sizes_ok ex_tree m.
Proof.
  apply (count_subtrees_correct ex_store ex_tree
    (Node 1%N [Node 2%N [Node 4%N [Node 5%N []]]; Node 3%N []; Node 6%N []]) 10 0 0);
    [apply check_data_sound, ex_store_check|eapply subtree_kid; [left|constructor]
    |apply Nat.ltb_lt; by vm_compute].
Defined.

Lemma propagate_interval_correct_witness :
  ∃ c', propagate_interval 10 1%N (mkCtx ex_store ∅ 0 0) = (Ok tt, c')
    ∧ indexed (Memory.map (store c')) (Node 1%N [Node 2%N [Node 4%N [Node 5%N []]]; Node 3%N []; Node 6%N []])
    ∧ reindexed (Memory.map ex_store) (Memory.map (store c'))
    ∧ ∀ x, (x ∉ nodes (Node 1%N [Node 2%N [Node 4%N [Node 5%N []]]; Node 3%N []; Node 6%N []])) ∨ x = 1%N →
        ivl (Memory.map (store c')) x = ivl (Memory.map ex_store) x.
Proof.
  apply (propagate_interval_correct ex_store ex_tree
    (Node 1%N [Node 2%N [Node 4%N [Node 5%N []]]; Node 3%N []; Node 6%N []]) 10 0 0);
    [apply check_data_sound, ex_store_check|eapply subtree_kid; [left|constructor]
    |apply Nat.ltb_lt; by vm_compute| |apply Z.leb_le; by vm_compute].
  unfold valid. split_and!; first [apply Z.leb_le; by vm_compute|apply Z.ltb_lt; by vm_compute].
Defined.
