(* ===== verification/ReachService.v ===== *)
(** * The reachability service

    [consensus/src/model/services/reachability.rs]: the trait
    [ReachabilityService], its implementation over a shared store, and the
    iterators along the selected chain.  Every call takes the read lock once and
    so sees one state of the store; the iterators take it at every movement, and
    are given the state of the store at each of their calls. *)

From S2P Require Import Prelude Hash Interval ReachStore Reachability ReachSim ReachTree ReachQuery ReachDag ReachAdd ReachMain.

(** The trait; [U] is the service with the state of the store it reads. *)
Class ReachabilityService (U : Type) : Type := {
  rs_is_chain_ancestor_of : U → Hash → Hash → outcome ReachabilityError bool;
  rs_is_dag_ancestor_of_result : U → Hash → Hash → outcome ReachabilityError bool;
  rs_is_dag_ancestor_of : U → Hash → Hash → outcome ReachabilityError bool;
  rs_is_dag_ancestor_of_any : U → Hash → list Hash → outcome ReachabilityError bool;
  rs_is_any_dag_ancestor : U → list Hash → Hash → outcome ReachabilityError bool;
  rs_is_any_dag_ancestor_result : U → list Hash → Hash → outcome ReachabilityError bool;
  rs_get_next_chain_ancestor : U → Hash → Hash → outcome ReachabilityError Hash;
}.

(** [Iterator::any] with a fallible predicate. *)
Fixpoint any_of {E A} (f : A → outcome E bool) (l : list A) : outcome E bool :=
  match l with
  | [] => mret false
  | x :: l' => b ← f x; if b : bool then mret true else any_of f l'
  end.

Section service.
Context {T : Type} `{ReachabilityStore T}.

(** The service with the state of its store. *)
Record MTReachabilityService : Type := mkService { service_store : T }.

Definition read_guard {A} (u : MTReachabilityService) (m : M T ReachabilityError A)
    : outcome ReachabilityError A := fst (m (service_store u)).

#[export] Instance mt_reachability_service : ReachabilityService MTReachabilityService := {|
  rs_is_chain_ancestor_of u this queried :=
    unwrap (read_guard u (is_chain_ancestor_of this queried));
  rs_is_dag_ancestor_of_result u this queried := read_guard u (is_dag_ancestor_of this queried);
  rs_is_dag_ancestor_of u this queried :=
    unwrap (read_guard u (is_dag_ancestor_of this queried));
  rs_is_dag_ancestor_of_any u this queried :=
    any_of (λ hash, unwrap (read_guard u (is_dag_ancestor_of this hash))) queried;
  rs_is_any_dag_ancestor u list queried :=
    any_of (λ hash, unwrap (read_guard u (is_dag_ancestor_of hash queried))) list;
  rs_is_any_dag_ancestor_result u list queried :=
    any_of (λ hash, read_guard u (is_dag_ancestor_of hash queried)) list;
  rs_get_next_chain_ancestor u descendant ancestor :=
    unwrap (read_guard u (get_next_chain_ancestor descendant ancestor));
|}.

(** ** The iterators *)

Record BackwardChainIterator : Type := mkBackward {
  b_current : option Hash; b_ancestor : Hash; b_inclusive : bool }.
Record ForwardChainIterator : Type := mkForward {
  f_current : option Hash; f_descendant : Hash; f_inclusive : bool }.

Definition backward_next (s : T) (it : BackwardChainIterator)
    : outcome ReachabilityError (option Hash * BackwardChainIterator) :=
  let '(mkBackward current ancestor inclusive) := it in
  match current with
  | Some current =>
      if bool_decide (current = ancestor) then
        if inclusive then mret (Some current, mkBackward None ancestor inclusive)
        else mret (None, mkBackward None ancestor inclusive)
      else
        assert (bool_decide (current ≠ Hashes.NONE));;
        next ← unwrap (fst (get_parent current s));
        mret (Some current, mkBackward (Some next) ancestor inclusive)
  | None => mret (None, it)
  end.

Definition forward_next (s : T) (it : ForwardChainIterator)
    : outcome ReachabilityError (option Hash * ForwardChainIterator) :=
  let '(mkForward current descendant inclusive) := it in
  match current with
  | Some current =>
      if bool_decide (current = descendant) then
        if inclusive then mret (Some current, mkForward None descendant inclusive)
        else mret (None, mkForward None descendant inclusive)
      else
        next ← unwrap (fst (get_next_chain_ancestor descendant current s));
        mret (Some current, mkForward (Some next) descendant inclusive)
  | None => mret (None, it)
  end.

Definition forward_chain_iterator (from_ancestor to_descendant : Hash) (inclusive : bool)
    : ForwardChainIterator := mkForward (Some from_ancestor) to_descendant inclusive.
Definition backward_chain_iterator (from_descendant to_ancestor : Hash) (inclusive : bool)
    : BackwardChainIterator := mkBackward (Some from_descendant) to_ancestor inclusive.
Definition default_backward_chain_iterator (from : Hash) : BackwardChainIterator :=
  mkBackward (Some from) Hashes.ORIGIN false.

(** [collect]: the items of an iterator, when call [i] finds the store in the
    state [stores i]. *)
Fixpoint collect {I} (next : T → I → outcome ReachabilityError (option Hash * I))
    (stores : nat → T) (fuel : nat) (it : I) : outcome ReachabilityError (list Hash) :=
  match fuel with
  | O => Fuel
  | S fuel' =>
      '(item, it') ← next (stores O) it;
      match item with
      | Some h => l ← collect next (stores ∘ S) fuel' it'; mret (h :: l)
      | None => mret []
      end
  end.
End service.
Arguments MTReachabilityService : clear implicits.

(** ** The service answers for the DAG *)

(** What a service promises about a DAG. *)
Class ServiceLaws {U} `{ReachabilityService U} (u : U) (P : Dag) : Prop := {
  sl_dag x y : is_Some (P !! x) → is_Some (P !! y) →
    ∃ b, rs_is_dag_ancestor_of u x y = Ok b ∧ (b = true ↔ ancestor P x y);
  sl_dag_result x y : is_Some (P !! x) → is_Some (P !! y) →
    ∃ b, rs_is_dag_ancestor_of_result u x y = Ok b ∧ (b = true ↔ ancestor P x y);
  sl_of_any x l : is_Some (P !! x) → Forall (λ y, is_Some (P !! y)) l →
    ∃ b, rs_is_dag_ancestor_of_any u x l = Ok b ∧ (b = true ↔ ∃ y, y ∈ l ∧ ancestor P x y);
  sl_any l y : is_Some (P !! y) → Forall (λ x, is_Some (P !! x)) l →
    ∃ b, rs_is_any_dag_ancestor u l y = Ok b ∧ (b = true ↔ ∃ x, x ∈ l ∧ ancestor P x y);
  sl_any_result l y : is_Some (P !! y) → Forall (λ x, is_Some (P !! x)) l →
    ∃ b, rs_is_any_dag_ancestor_result u l y = Ok b ∧ (b = true ↔ ∃ x, x ∈ l ∧ ancestor P x y);
}.

Lemma any_of_ok {E A} (f : A → outcome E bool) (Q : A → Prop) l :
  (∀ x, x ∈ l → ∃ b, f x = Ok b ∧ (b = true ↔ Q x)) →
  ∃ b, any_of f l = Ok b ∧ (b = true ↔ ∃ x, x ∈ l ∧ Q x).
Proof.
  induction l as [|x l IH]; intros Hf; simpl.
  - exists false. split; [done|]. split; [done|]. intros (y & Hy & _). by apply elem_of_nil in Hy.
  - destruct (Hf x) as (b & -> & Hb); [left|]. destruct b; cbn [mbind outcome_bind].
    + exists true. split; [done|]. split; [|done]. intros _. exists x. split; [left|by apply Hb].
    + destruct IH as (b' & -> & Hb'); [intros y Hy; apply Hf; by right|]. exists b'. split; [done|].
      rewrite Hb'. setoid_rewrite elem_of_cons. split; [naive_solver|].
      intros (y & [->|Hy] & HQ); [by apply Hb in HQ|eauto].
Qed.

Section laws.
Context {T : Type} `{StoreLaws T}.

Lemma service_dag (s : T) P x y : dag_inv (abs s) P → is_Some (P !! x) → is_Some (P !! y) →
  ∃ b, read_guard (mkService s) (is_dag_ancestor_of x y) = Ok b ∧ (b = true ↔ ancestor P x y).
Proof.
  intros [t HI] Hx Hy.
  destruct (dag_query (abs s) P t HI x y Hx Hy) as (r & Hr & Hiff).
  exists r. split; [|done]. unfold read_guard. simpl.
  pose proof (sim_is_dag_ancestor_of x y s) as Hsim. rewrite Hr in Hsim. by injection Hsim as Hsim _.
Qed.

Lemma mt_service_laws (s : T) P : dag_inv (abs s) P → ServiceLaws (mkService s) P.
Proof.
  intros Hs. pose proof (λ x y, service_dag s P x y Hs) as Hd.
  assert (∀ x y, is_Some (P !! x) → is_Some (P !! y) →
    ∃ b, unwrap (E':=ReachabilityError) (read_guard (mkService s) (is_dag_ancestor_of x y)) = Ok b
      ∧ (b = true ↔ ancestor P x y)) as Hu.
  { intros x y Hx Hy. destruct (Hd x y Hx Hy) as (b & -> & Hb). by exists b. }
  split; simpl; auto.
  - intros x l Hx Hl. rewrite Forall_forall in Hl. apply any_of_ok. auto.
  - intros l y Hy Hl. rewrite Forall_forall in Hl. apply (any_of_ok _ (λ x, ancestor P x y)). auto.
  - intros l y Hy Hl. rewrite Forall_forall in Hl. apply (any_of_ok _ (λ x, ancestor P x y)). auto.
Qed.

Lemma dag_wf (s : T) P : dag_inv (abs s) P → wf_data (Memory.map (abs s)) ∧ ∀ h, is_Some (P !! h) → is_Some (Memory.map (abs s) !! h).
Proof.
  intros [t HI]. split; [exists t; split; apply HI|]. intros h Hh. by apply (rep_dom _ _ (di_rep _ _ _ HI)), (di_dom _ _ _ HI).
Qed.

Lemma service_chain_answers (s : T) P x y : dag_inv (abs s) P → is_Some (P !! x) → is_Some (P !! y) →
  ∃ b, rs_is_chain_ancestor_of (mkService s) x y = Ok b ∧ (b = true ↔ chain (Memory.map (abs s)) x y).
Proof.
  intros HI Hx Hy. destruct (dag_wf s P HI) as [Hw Hk].
  destruct (chain_queries_correct (abs s) x y Hw (Hk x Hx) (Hk y Hy)) as [(r & Hr & Hiff) _]. exists r. split; [|done].
  pose proof (sim_is_chain_ancestor_of x y s) as Hsim. rewrite Hr in Hsim. injection Hsim as Hsim _.
  change (unwrap (E':=ReachabilityError) (fst (is_chain_ancestor_of x y s)) = Ok r). by rewrite <- Hsim.
Qed.

Lemma service_next_answers (s : T) P x y : dag_inv (abs s) P → is_Some (P !! x) → is_Some (P !! y) →
  let D := Memory.map (abs s) in
  (chain D x y ∧ x ≠ y → ∃ c dc, rs_get_next_chain_ancestor (mkService s) y x = Ok c ∧ D !! c = Some dc ∧ parent dc = x ∧ chain D c y)
  ∧ (¬ (chain D x y ∧ x ≠ y) → rs_get_next_chain_ancestor (mkService s) y x = Panic).
Proof.
  intros HI Hx Hy D. destruct (dag_wf s P HI) as [Hw Hk]. pose proof (sim_get_next_chain_ancestor y x s) as Hsim.
  destruct (get_next_chain_ancestor_correct (abs s) y x Hw (Hk y Hy) (Hk x Hx)) as [Hyes Hno].
  change (rs_get_next_chain_ancestor (mkService s) y x) with (unwrap (E':=ReachabilityError) (fst (get_next_chain_ancestor y x s))). split.
  - intros (c & dc & Hr & Hrest)%Hyes. exists c, dc. rewrite Hr in Hsim. injection Hsim as Hsim _. by rewrite <- Hsim.
  - intros Hr%Hno. rewrite Hr in Hsim. injection Hsim as Hsim _. by rewrite <- Hsim.
Qed.
End laws.

(** ** Paths along the chain *)

(** [path D a b l]: [l] lists the blocks of the chain from [a] up to [b]. *)
Inductive path (D : Data) (a : Hash) : Hash → list Hash → Prop :=
| path_refl : is_Some (D !! a) → path D a a [a]
| path_step b d l : D !! b = Some d → path D a (parent d) l → path D a b (l ++ [b]).

Lemma path_chain D a b : chain D a b ↔ ∃ l, path D a b l.
Proof.
  split.
  - induction 1 as [Ha|b d Hd _ [l IH]]; eauto using path_refl, path_step.
  - intros [l Hl]. induction Hl; eauto using chain_refl, chain_step.
Qed.

Lemma parent_height D p n t b d :
  shape D p n t → b ∈ nodes t → D !! b = Some d →
  b = root t ∨ ∃ dp, D !! parent d = Some dp ∧ height d = height dp + 1.
Proof.
  revert p n. induction t as [h ks IH] using tree_ind'; intros p n Hs Hb Hd.
  inversion Hs as [? ? ? ? d' Hd' Hp Hn Hc Hks]; subst. rewrite Forall_forall in IH, Hks.
  apply nodes_node in Hb as [->|(k & Hk & Hb)]; [by left|]. right.
  destruct (IH k Hk _ _ (Hks k Hk) Hb Hd) as [->|?]; [|done].
  destruct (shape_lookup _ _ _ _ (Hks k Hk)) as (dk & Hdk & Hpk & Hnk & _). simplify_eq. eauto.
Qed.

Section paths.
Context (D : Data) (t : tree) (Hr : represents D t).

Lemma path_height a b l :
  path D a b l → ∃ da db, D !! a = Some da ∧ D !! b = Some db
    ∧ height db = height da + Z.of_nat (length l) - 1 ∧ l ≠ [].
Proof using Hr.
  induction 1 as [[d Hd]|b d l Hd _ (da & dp & Ha & Hp & Hh & Hl)].
  - exists d, d. simpl. split_and!; [done..|lia|done].
  - exists da, d. rewrite length_app. simpl. split_and!; [done..| |by destruct l].
    assert (b ∈ nodes t) as Hb by (apply (rep_dom _ _ Hr); eauto).
    destruct (parent_height _ _ _ _ _ _ (rep_shape _ _ Hr) Hb Hd) as [->|(dp' & Hp' & Hhp)].
    + destruct (shape_lookup _ _ _ _ (rep_shape _ _ Hr)) as (d' & Hd' & Hpar & _).
      simplify_eq. rewrite Hpar in Hp. destruct (rep_none _ _ Hr).
      apply (rep_dom _ _ Hr). eauto.
    + simplify_eq. lia.
Qed.

Lemma path_unique a b l l' : path D a b l → path D a b l' → l = l'.
Proof using Hr.
  intros Hl. revert l'. induction Hl as [Ha|b d l Hd Hl IH]; intros l' Hl'.
  - inversion Hl' as [|? d l2 Hd Hl2]; subst; [done|].
    destruct (path_height _ _ _ Hl') as (? & ? & ? & ? & Hh & _).
    destruct (path_height _ _ _ Hl2) as (_ & _ & _ & _ & _ & Hne). simplify_eq.
    rewrite length_app in Hh. simpl in Hh. destruct l2; [done|]. simpl in Hh. lia.
  - inversion Hl' as [Hb|? d' l2 Hd' Hl2]; subst.
    + pose proof (path_step _ _ _ _ _ Hd Hl) as Hp.
      destruct (path_height _ _ _ Hp) as (? & ? & ? & ? & Hh & _).
      destruct (path_height _ _ _ Hl) as (_ & _ & _ & _ & _ & Hne). simplify_eq.
      rewrite length_app in Hh. simpl in Hh. destruct l; [done|]. simpl in Hh. lia.
    + simplify_eq. f_equal. by apply IH.
Qed.

Lemma path_inv a b l : path D a b l →
  head l = Some a ∧ ((a = b ∧ l = [a]) ∨ ∃ c l', l = a :: l' ∧ path D c b l').
Proof using.
  induction 1 as [Ha|b d l Hd Hl [Hh IH]]; [by auto|]. split; [by destruct l|]. right.
  destruct IH as [[Heq ->]|(c & l' & -> & Hc)].
  - exists b, [b]. split; [done|]. apply path_refl. eauto.
  - exists c, (l' ++ [b]). split; [done|]. by eapply path_step.
Qed.

Lemma path_cons a c dc b l : D !! c = Some dc → parent dc = a → is_Some (D !! a) →
  path D c b l → path D a b (a :: l).
Proof using.
  intros Hc Hp Ha. induction 1 as [_|b d l Hd _ IH].
  - rewrite <- Hp. apply (path_step D (parent dc) c dc [parent dc]); [done|].
    apply path_refl. by rewrite Hp.
  - by apply (path_step D a b d (a :: l)).
Qed.

Lemma path_strict a b d l : D !! b = Some d → path D a (parent d) l → a ≠ b.
Proof using Hr.
  intros Hd Hl ->. pose proof (path_step _ _ _ _ _ Hd Hl) as Hp.
  assert (is_Some (D !! b)) as Hb by eauto.
  pose proof (path_unique _ _ _ _ Hp (path_refl D b Hb)) as Heq.
  destruct (path_height _ _ _ Hl) as (_ & _ & _ & _ & _ & Hne). destruct l; [done|]. by destruct l.
Qed.
End paths.

(** A store that grew: the blocks it had keep their parents. *)
Definition extends (D D' : Data) : Prop :=
  ∀ h d, D !! h = Some d → ∃ d', D' !! h = Some d' ∧ parent d' = parent d.

Lemma path_extends D D' a b l : extends D D' → path D a b l → path D' a b l.
Proof.
  intros He. induction 1 as [[d Hd]|b d l Hd _ IH].
  - destruct (He _ _ Hd) as (d' & Hd' & _). apply path_refl. eauto.
  - destruct (He _ _ Hd) as (d' & Hd' & Hp). eapply path_step; [exact Hd'|]. by rewrite Hp.
Qed.

Section iterators.
Context {T : Type} `{StoreLaws T} (D : Data).

Definition grown (stores : nat → T) : Prop :=
  ∀ i, ∃ t, represents (Memory.map (abs (stores i))) t ∧ indexed (Memory.map (abs (stores i))) t
    ∧ extends D (Memory.map (abs (stores i))).

Lemma grown_tail stores : grown stores → grown (stores ∘ S).
Proof. intros Hg i. apply Hg. Qed.

Lemma service_parent (s : T) h d : Memory.map (abs s) !! h = Some d → fst (get_parent h s) = Ok (parent d).
Proof.
  intros Hd. pose proof (sim_get_parent h s) as Hsim. rewrite (mem_get_parent (abs s) h d Hd) in Hsim.
  by injection Hsim as Hsim _.
Qed.

Lemma backward_collect stores a b l incl fuel :
  grown stores → path D a b l → (length l < fuel)%nat →
  collect backward_next stores fuel (backward_chain_iterator b a incl)
  = Ok (if incl then reverse l else reverse (tail l)).
Proof.
  intros Hg Hl. revert stores fuel Hg. induction Hl as [Ha|b d l Hd Hl IH]; intros stores fuel Hg Hf.
  - destruct fuel as [|[|fuel]]; [simpl in Hf; lia..|]. cbn [collect backward_chain_iterator backward_next].
    rewrite bool_decide_eq_true_2 by done. by destruct incl.
  - destruct fuel as [|fuel]; [simpl in Hf; lia|]. rewrite length_app in Hf. simpl in Hf.
    cbn [collect backward_chain_iterator backward_next].
    destruct (Hg 0%nat) as (t & Hr & _ & He). destruct (He _ _ Hd) as (d' & Hd' & Hp).
    assert (b ≠ a) as Hne.
    { intros Heq. eapply (path_strict _ t Hr a b d' l); [done| |done]. rewrite Hp. by eapply path_extends. }
    rewrite bool_decide_eq_false_2 by done.
    rewrite bool_decide_eq_true_2.
    2: { intros ->. apply (rep_none _ _ Hr), (rep_dom _ _ Hr). eauto. }
    cbn [assert mbind outcome_bind]. rewrite (service_parent _ _ _ Hd'), Hp. cbn [unwrap mbind outcome_bind].
    change (mkBackward (Some (parent d)) a incl) with (backward_chain_iterator (parent d) a incl).
    change (mret (Some b, backward_chain_iterator (parent d) a incl))
      with (Ok (E:=ReachabilityError) (Some b, backward_chain_iterator (parent d) a incl)).
    cbn [mbind outcome_bind]. rewrite IH by (try apply grown_tail; done || lia).
    cbn [mbind outcome_bind]. f_equal. destruct (path_height _ t Hr a (parent d) l) as (_ & _ & _ & _ & _ & Hne').
    { by eapply path_extends. }
    destruct incl; [by rewrite reverse_app|]. destruct l as [|x l]; [done|]. simpl. by rewrite reverse_app.
Qed.

Lemma service_next (s : T) t a b :
  represents (Memory.map (abs s)) t → indexed (Memory.map (abs s)) t → below t a b → a ≠ b →
  ∃ c dc, fst (get_next_chain_ancestor b a s) = Ok c
    ∧ Memory.map (abs s) !! c = Some dc ∧ parent dc = a ∧ below t c b.
Proof.
  intros Hr Hi Hb Hne. destruct (next_chain_ancestor_ok (abs s) t b a Hr Hi Hb Hne)
    as (c & dc & Hrun & Hrest). exists c, dc. split; [|done].
  pose proof (sim_get_next_chain_ancestor b a s) as Hsim. rewrite Hrun in Hsim. by injection Hsim as Hsim _.
Qed.

(** One movement of the forward iterator before the end of the chain. *)
Lemma forward_step (s : T) t a c b l incl :
  represents (Memory.map (abs s)) t → indexed (Memory.map (abs s)) t →
  path (Memory.map (abs s)) a b (a :: l) → path (Memory.map (abs s)) c b l → a ≠ b →
  forward_next s (forward_chain_iterator a b incl) = Ok (Some a, forward_chain_iterator c b incl).
Proof.
  intros Hr Hi Hl Hc Hne. cbn [forward_chain_iterator forward_next]. rewrite bool_decide_eq_false_2 by done.
  destruct (service_next s t a b Hr Hi) as (c' & dc & Hnext & Hdc & Hpar & Hbel); [|done|].
  { apply (chain_below _ t _ _ Hr), path_chain. eauto. }
  apply (chain_below _ t _ _ Hr), path_chain in Hbel as [l2 Hl2].
  assert (l2 = l) as ->.
  { assert (a :: l2 = a :: l) as Heq; [|by injection Heq].
    eapply (path_unique _ t Hr); [eapply path_cons; [exact Hdc|exact Hpar| |exact Hl2]|exact Hl].
    by destruct (path_height _ t Hr _ _ _ Hl) as (? & ? & ? & _). }
  assert (c' = c) as ->.
  { destruct (path_inv _ _ _ _ Hl2) as [H1 _], (path_inv _ _ _ _ Hc) as [H2 _]. congruence. }
  by rewrite Hnext.
Qed.

Lemma path_end (s : T) t a l : represents (Memory.map (abs s)) t → path (Memory.map (abs s)) a a l → l = [a].
Proof.
  intros Hr Hl. eapply (path_unique _ t Hr); [exact Hl|]. apply path_refl.
  by destruct (path_height _ t Hr _ _ _ Hl) as (? & ? & ? & _).
Qed.

Lemma forward_collect stores a b l incl fuel :
  grown stores → path D a b l → (length l < fuel)%nat →
  collect forward_next stores fuel (forward_chain_iterator a b incl)
  = Ok (if incl then l else removelast l).
Proof.
  revert stores a l. induction fuel as [|fuel IH]; intros stores a l Hg Hl Hf; [lia|].
  destruct (Hg 0%nat) as (t & Hr & Hi & He). pose proof (path_extends _ _ _ _ _ He Hl) as Hl0.
  cbn [collect]. destruct (decide (a = b)) as [<-|Hne].
  { pose proof (path_end _ t _ _ Hr Hl0) as ->. cbn [forward_chain_iterator forward_next].
    rewrite bool_decide_eq_true_2 by done. destruct fuel; [simpl in Hf; lia|]. by destruct incl. }
  destruct (path_inv _ _ _ _ Hl) as [_ [[? _]|(c & l' & -> & Hc)]]; [done|].
  rewrite (forward_step (stores 0%nat) t a c b l' incl Hr Hi Hl0 (path_extends _ _ _ _ _ He Hc) Hne).
  cbn [mbind outcome_bind]. rewrite (IH (stores ∘ S) c l') by (try apply grown_tail; simpl in *; done || lia).
  cbn [mbind outcome_bind mret outcome_ret]. f_equal. destruct incl; [done|].
  destruct (path_inv _ _ _ _ Hc) as [Hh _]. by destruct l'.
Qed.
End iterators.

(** ** Properties *)

(** C17: the service over a store that a history of additions and hints produced
    answers all seven queries about blocks of the DAG.  The queries about the DAG return
    its ancestry, those over a list the disjunction over the list, and
    [is_chain_ancestor_of] whether the parent links of the store lead from the second
    block to the first; none of them fails or panics.  [get_next_chain_ancestor] returns
    the child of the ancestor on the chain to the descendant, and panics exactly when the
    first block is not a strict chain ancestor of the other. *)
Theorem service_answers_dag {T} `{StoreLaws T} (s : T) (P : Dag) (x y : Hash) (l : list Hash) :
  reach_state s P → is_Some (P !! x) → is_Some (P !! y) → Forall (λ z, is_Some (P !! z)) l →
  let D := Memory.map (abs s) in
  (∃ b, rs_is_dag_ancestor_of (mkService s) x y = Ok b ∧ (b = true ↔ ancestor P x y))
  ∧ (∃ b, rs_is_dag_ancestor_of_result (mkService s) x y = Ok b ∧ (b = true ↔ ancestor P x y))
  ∧ (∃ b, rs_is_dag_ancestor_of_any (mkService s) x l = Ok b ∧ (b = true ↔ ∃ z, z ∈ l ∧ ancestor P x z))
  ∧ (∃ b, rs_is_any_dag_ancestor (mkService s) l y = Ok b ∧ (b = true ↔ ∃ z, z ∈ l ∧ ancestor P z y))
  ∧ (∃ b, rs_is_any_dag_ancestor_result (mkService s) l y = Ok b
          ∧ (b = true ↔ ∃ z, z ∈ l ∧ ancestor P z y))
  ∧ (∃ b, rs_is_chain_ancestor_of (mkService s) x y = Ok b ∧ (b = true ↔ chain D x y))
  ∧ (chain D x y ∧ x ≠ y → ∃ c dc, rs_get_next_chain_ancestor (mkService s) y x = Ok c
       ∧ D !! c = Some dc ∧ parent dc = x ∧ chain D c y)
  ∧ (¬ (chain D x y ∧ x ≠ y) → rs_get_next_chain_ancestor (mkService s) y x = Panic).
Proof.
  intros Hs Hx Hy Hl D. pose proof (reach_state_inv s P Hs) as HI.
  destruct (mt_service_laws s P HI) as [H1 H2 H3 H4 H5]. destruct (service_next_answers s P x y HI Hx Hy) as [H6 H7].
  split_and!; [by apply H1|by apply H2|by apply H3|by apply H4|by apply H5|by apply service_chain_answers with P|exact H6|exact H7].
Qed.

Lemma service_answers_dag_witness : let D := Memory.map (abs ex_staging) in
  (∃ b, rs_is_dag_ancestor_of (mkService ex_staging) 2%N 6%N = Ok b ∧ (b = true ↔ ancestor ex_dag 2%N 6%N))
  ∧ (∃ b, rs_is_chain_ancestor_of (mkService ex_staging) 2%N 6%N = Ok b ∧ (b = true ↔ chain D 2%N 6%N))
  ∧ (∃ b, rs_is_any_dag_ancestor_result (mkService ex_staging) [3; 4]%N 6%N = Ok b
          ∧ (b = true ↔ ∃ z, z ∈ [3; 4]%N ∧ ancestor ex_dag z 6%N)).
Proof.
  destruct (service_answers_dag ex_staging ex_dag 2%N 6%N [3; 4]%N) as (H1 & _ & _ & _ & H5 & H6 & _);
    [exact ex_reach|apply known_block; by vm_compute..| |].
  - repeat constructor; apply known_block; by vm_compute.
  - exact (conj H1 (conj H6 H5)).
Defined.

(** The chain iterators, run while the store grows between their movements
    (blocks are added and intervals move, but no parent link changes), yield the
    selected chain between the two blocks: the forward iterator from the ancestor
    to the descendant, the backward iterator the same blocks in reverse, with the
    last item left out unless [inclusive]. *)
Theorem chain_iterators_correct {T} `{StoreLaws T} (D : Data) (stores : nat → T) (a b : Hash)
    (l : list Hash) (fuel : nat) :
  grown D stores → path D a b l → (length l < fuel)%nat →
  collect forward_next stores fuel (forward_chain_iterator a b true) = Ok l
  ∧ collect forward_next stores fuel (forward_chain_iterator a b false) = Ok (removelast l)
  ∧ collect backward_next stores fuel (backward_chain_iterator b a true) = Ok (reverse l)
  ∧ collect backward_next stores fuel (backward_chain_iterator b a false) = Ok (reverse (tail l)).
Proof.
  intros Hg Hl Hf. split_and!.
  - exact (forward_collect D stores a b l true fuel Hg Hl Hf).
  - exact (forward_collect D stores a b l false fuel Hg Hl Hf).
  - exact (backward_collect D stores a b l true fuel Hg Hl Hf).
  - exact (backward_collect D stores a b l false fuel Hg Hl Hf).
Qed.

Lemma chain_iterators_correct_witness :
  collect forward_next (λ _, ex_store) 9 (forward_chain_iterator 1%N 5%N true) = Ok [1; 2; 4; 5]%N
  ∧ collect forward_next (λ _, ex_store) 9 (forward_chain_iterator 1%N 5%N false) = Ok [1; 2; 4]%N
  ∧ collect backward_next (λ _, ex_store) 9 (backward_chain_iterator 5%N 1%N true) = Ok [5; 4; 2; 1]%N
  ∧ collect backward_next (λ _, ex_store) 9 (backward_chain_iterator 5%N 1%N false) = Ok [5; 4; 2]%N.
Proof.
  apply (chain_iterators_correct (Memory.map ex_store) (λ _, ex_store) 1%N 5%N [1; 2; 4; 5]%N 9).
  - intros i. exists ex_tree. destruct (check_data_sound _ _ ex_store_check) as [Hr Hi].
    split_and!; [exact Hr|exact Hi|]. intros h d Hd. eauto.
  - pose proof (λ h, known_dec ex_store h) as Hk.
    destruct (Hk 5%N) as [d5 H5]; [by vm_compute|]. destruct (Hk 4%N) as [d4 H4]; [by vm_compute|].
    destruct (Hk 2%N) as [d2 H2]; [by vm_compute|].
    apply (path_step _ _ 5%N d5 [1; 2; 4]%N H5).
    replace (parent d5) with 4%N by (vm_compute in H5; by injection H5 as <-).
    apply (path_step _ _ 4%N d4 [1; 2]%N H4).
    replace (parent d4) with 2%N by (vm_compute in H4; by injection H4 as <-).
    apply (path_step _ _ 2%N d2 [1]%N H2).
    replace (parent d2) with 1%N by (vm_compute in H2; by injection H2 as <-).
    apply path_refl, Hk. by vm_compute.
  - by apply Nat.ltb_lt.
Defined.
