(* ===== verification/Relations.v ===== *)
(** * Block relations

    [consensus/src/model/stores/relations.rs]: the parents and the children of
    every block, in memory and in the database. *)

From S2P Require Import Prelude Hash Interval ReachStore ReachTree ReachMain.

Class RelationsStoreReader (T : Type) : Type := {
  get_parents : T → Hash → outcome StoreError (list Hash);
  get_rel_children : T → Hash → outcome StoreError (list Hash);
  rel_has : T → Hash → outcome StoreError bool;
}.
Class RelationsStore (T : Type) `{RelationsStoreReader T} : Type := {
  rel_insert : Hash → list Hash → M T StoreError unit;
}.

Definition read_rel (prefix : StorePrefix) (m : gmap Hash (list Hash)) (hash : Hash)
    : outcome StoreError (list Hash) :=
  match m !! hash with
  | Some l => Ok l
  | None => Err (KeyNotFound (PrefixedKey prefix hash))
  end.

(** The loop over the parents: [hash] is pushed to the children of each; the loop
    ends with the error of a parent that is not in the store. *)
Fixpoint push_child_all (hash : Hash) (parents : list Hash) (children : gmap Hash (list Hash))
    : outcome StoreError unit * gmap Hash (list Hash) :=
  match parents with
  | [] => (Ok tt, children)
  | parent :: parents' =>
      match read_rel CHILDREN_PREFIX children parent with
      | Ok l => push_child_all hash parents' (<[parent := l ++ [hash]]> children)
      | Err e => (Err e, children)
      | Panic => (Panic, children)
      | Fuel => (Fuel, children)
      end
  end.

Module MemoryRel.
Record MemoryRelationsStore : Type := mk {
  parents_map : gmap Hash (list Hash);
  children_map : gmap Hash (list Hash);
}.
Definition new : MemoryRelationsStore := mk ∅ ∅.

Definition insert_ (hash : Hash) (parents : list Hash) : M MemoryRelationsStore StoreError unit := λ s,
  if bool_decide (is_Some (parents_map s !! hash)) then (Err (KeyAlreadyExists (HashText hash)), s)
  else
    let parents_map := <[hash := parents]> (parents_map s) in
    match push_child_all hash parents (children_map s) with
    | (Ok _, c) => (Ok tt, mk parents_map (<[hash := []]> c))
    | (o, c) => (o, mk parents_map c)
    end.
End MemoryRel.

#[export] Instance memory_rel_reader : RelationsStoreReader MemoryRel.MemoryRelationsStore := {|
  get_parents s := read_rel PARENTS_PREFIX (MemoryRel.parents_map s);
  get_rel_children s := read_rel CHILDREN_PREFIX (MemoryRel.children_map s);
  rel_has s hash := Ok (bool_decide (is_Some (MemoryRel.parents_map s !! hash)));
|}.
#[export] Instance memory_rel_store : RelationsStore MemoryRel.MemoryRelationsStore :=
  {| rel_insert := MemoryRel.insert_ |}.

Module DbRel.
Record DbRelationsStore : Type := mk {
  parents_access : gmap Hash (list Hash);
  children_access : gmap Hash (list Hash);
}.
Definition new : DbRelationsStore := mk ∅ ∅.

(** The debug assertion: a block with parents has children. *)
Definition has_ (s : DbRelationsStore) (hash : Hash) : outcome StoreError bool :=
  if bool_decide (is_Some (parents_access s !! hash)) then
    assert (bool_decide (is_Some (children_access s !! hash)));; mret true
  else mret false.

Definition insert_ (hash : Hash) (parents : list Hash) : M DbRelationsStore StoreError unit := λ s,
  match has_ s hash with
  | Ok true => (Err (KeyAlreadyExists (HashText hash)), s)
  | Ok false =>
      let parents_access := <[hash := parents]> (parents_access s) in
      let children := <[hash := []]> (children_access s) in
      let '(o, c) := push_child_all hash parents children in (o, mk parents_access c)
  | Err e => (Err e, s)
  | Panic => (Panic, s)
  | Fuel => (Fuel, s)
  end.
End DbRel.

#[export] Instance db_rel_reader : RelationsStoreReader DbRel.DbRelationsStore := {|
  get_parents s := read_rel PARENTS_PREFIX (DbRel.parents_access s);
  get_rel_children s := read_rel CHILDREN_PREFIX (DbRel.children_access s);
  rel_has := DbRel.has_;
|}.
#[export] Instance db_rel_store : RelationsStore DbRel.DbRelationsStore :=
  {| rel_insert := DbRel.insert_ |}.

(** ** The invariant *)

(** The children map is the inverse of the parents map. *)
Record rel_inv (P C : gmap Hash (list Hash)) : Prop := {
  ri_dom : dom C = dom P;
  ri_closed : closed P;
  ri_inverse : ∀ p l c, C !! p = Some l → c ∈ l ↔ ∃ ps, P !! c = Some ps ∧ p ∈ ps;
  ri_nodup : ∀ p l, C !! p = Some l → NoDup l;
  ri_distinct : ∀ h ps, P !! h = Some ps → NoDup ps;
}.

Lemma push_child_all_ok h ps C :
  NoDup ps → (∀ p, p ∈ ps → is_Some (C !! p)) →
  ∃ C', push_child_all h ps C = (Ok tt, C') ∧ dom C' = dom C
    ∧ ∀ p, C' !! p = (λ l, if decide (p ∈ ps) then l ++ [h] else l) <$> C !! p.
Proof.
  intros Hnd. revert C. induction Hnd as [|p ps Hp Hnd IH]; intros C HC; simpl.
  { exists C. split_and!; [done..|]. intros q. by destruct (C !! q). }
  destruct (HC p) as [l Hl]; [left|]. unfold read_rel. rewrite Hl.
  destruct (IH (<[p := l ++ [h]]> C)) as (C' & -> & Hdom & HC').
  { intros q Hq. apply lookup_insert_is_Some'. right. apply HC. by right. }
  exists C'. split; [done|]. split.
  { rewrite Hdom, dom_insert_L. assert (p ∈ dom C) by (apply elem_of_dom; eauto). set_solver. }
  intros q. rewrite HC'. destruct (decide (q = p)) as [->|Hqp].
  - rewrite lookup_insert_eq, Hl. simpl. rewrite decide_False by done. rewrite decide_True by left. done.
  - rewrite lookup_insert_ne by done. destruct (C !! q); simpl; [|done]. f_equal.
    destruct (decide (q ∈ ps)) as [Hq|Hq].
    + by rewrite decide_True by by right.
    + rewrite decide_False; [done|]. rewrite elem_of_cons. tauto.
Qed.

(** The maps after a successful insertion of a new block under known parents. *)
Lemma rel_inv_insert P C C' h ps :
  rel_inv P C → P !! h = None → NoDup ps → (∀ p, p ∈ ps → is_Some (P !! p)) →
  dom C' = {[h]} ∪ dom C → C' !! h = Some [] →
  (∀ p, p ≠ h → C' !! p = (λ l, if decide (p ∈ ps) then l ++ [h] else l) <$> C !! p) →
  rel_inv (<[h := ps]> P) C'.
Proof.
  intros [Hd Hcl Hinv Hnd Hdist] Hh Hps Hk Hd' Hnew Hold.
  assert (∀ p l, C !! p = Some l → h ∉ l) as Hfresh.
  { intros p l Hl Hin. apply (Hinv p l h Hl) in Hin as (qs & Hq & _). congruence. }
  assert (h ∉ ps) as Hself by (intros Hin; destruct (Hk h Hin); congruence).
  split.
  - by rewrite Hd', dom_insert_L, Hd.
  - by apply insert_closed.
  - intros p l c Hl. destruct (decide (p = h)) as [->|Hp].
    + rewrite Hnew in Hl. simplify_eq. split; [by intros ?%elem_of_nil|].
      intros (qs & Hq & Hin). apply lookup_insert_Some in Hq as [[<- <-]|[_ Hq]]; [done|].
      destruct (Hcl c qs h Hq Hin). congruence.
    + rewrite Hold in Hl by done. destruct (C !! p) as [l0|] eqn:Hl0; [|done]. simpl in Hl. simplify_eq.
      destruct (decide (c = h)) as [->|Hc].
      * setoid_rewrite lookup_insert_eq. case_decide as Hin.
        -- split; [eauto|]. intros _. apply elem_of_app. right. left.
        -- split; [by intros ?%(Hfresh p l0 Hl0)|]. intros (qs & ? & ?). by simplify_eq.
      * rewrite lookup_insert_ne by done. rewrite <- (Hinv p l0 c Hl0). case_decide; [|done].
        rewrite elem_of_app, list_elem_of_singleton. tauto.
  - intros p l Hl. destruct (decide (p = h)) as [->|Hp].
    + rewrite Hnew in Hl. simplify_eq. constructor.
    + rewrite Hold in Hl by done. destruct (C !! p) as [l0|] eqn:Hl0; [|done]. simpl in Hl. simplify_eq.
      case_decide; [|by eapply Hnd]. apply NoDup_app. split_and!; [by eapply Hnd| |apply NoDup_singleton].
      intros x Hx ->%list_elem_of_singleton. by eapply Hfresh.
  - intros x qs [[_ <-]|[_ Hq]]%lookup_insert_Some; [done|]. by eapply Hdist.
Qed.

(** The insertion of a new block, on both stores. *)
Lemma relations_insert_ok (P C : gmap Hash (list Hash)) (h : Hash) (ps : list Hash) :
  rel_inv P C → P !! h = None → NoDup ps → (∀ p, p ∈ ps → is_Some (P !! p)) →
  ∃ C', rel_insert h ps (MemoryRel.mk P C) = (Ok tt, MemoryRel.mk (<[h := ps]> P) C')
    ∧ rel_insert h ps (DbRel.mk P C) = (Ok tt, DbRel.mk (<[h := ps]> P) C')
    ∧ rel_inv (<[h := ps]> P) C'
    ∧ rel_insert h ps (DbRel.mk (<[h := ps]> P) C')
      = (Err (KeyAlreadyExists (HashText h)), DbRel.mk (<[h := ps]> P) C').
Proof.
  intros Hinv Hh Hnd Hk. pose proof Hinv as [Hd _ _ _ _].
  assert (∀ p, p ∈ ps → is_Some (C !! p)) as HkC.
  { intros p Hp. apply elem_of_dom. rewrite Hd. apply elem_of_dom. auto. }
  assert (C !! h = None) as HhC by (apply not_elem_of_dom; rewrite Hd; by apply not_elem_of_dom).
  assert (h ∉ ps) as Hself by (intros Hin; destruct (Hk h Hin); congruence).
  destruct (push_child_all_ok h ps C Hnd HkC) as (C1 & Hp1 & Hd1 & H1).
  destruct (push_child_all_ok h ps (<[h := []]> C) Hnd) as (C2 & Hp2 & Hd2 & H2).
  { intros p Hp. apply lookup_insert_is_Some'. eauto. }
  assert (C2 = <[h := []]> C1) as ->.
  { apply map_eq. intros p. rewrite H2. destruct (decide (p = h)) as [->|].
    - rewrite !lookup_insert_eq. simpl. by rewrite decide_False.
    - rewrite !lookup_insert_ne by done. by rewrite H1. }
  exists (<[h := []]> C1). split_and!.
  - simpl. unfold MemoryRel.insert_. simpl. rewrite Hh, bool_decide_eq_false_2 by (by intros [? ?]).
    by rewrite Hp1.
  - simpl. unfold DbRel.insert_, DbRel.has_. simpl. rewrite Hh, bool_decide_eq_false_2 by (by intros [? ?]).
    cbn [mret outcome_ret]. by rewrite Hp2.
  - eapply rel_inv_insert; eauto.
    + by rewrite dom_insert_L, Hd1.
    + apply lookup_insert_eq.
    + intros p Hp. by rewrite lookup_insert_ne, H1.
  - simpl. unfold DbRel.insert_, DbRel.has_. simpl. rewrite !lookup_insert_eq. done.
Qed.

(** ** Properties *)

(** Inserting a new block under known, distinct parents succeeds on both
    stores, records the parents, and keeps the children of every block equal to
    the blocks that list it as a parent, each once, with the new block last;
    inserting a block twice is refused and changes nothing. *)
Theorem relations_insert_correct (P C : gmap Hash (list Hash)) (h : Hash) (ps : list Hash) :
  rel_inv P C → P !! h = None → NoDup ps → (∀ p, p ∈ ps → is_Some (P !! p)) →
  ∃ C', rel_insert h ps (MemoryRel.mk P C) = (Ok tt, MemoryRel.mk (<[h := ps]> P) C')
    ∧ rel_insert h ps (DbRel.mk P C) = (Ok tt, DbRel.mk (<[h := ps]> P) C')
    ∧ rel_inv (<[h := ps]> P) C'
    ∧ rel_insert h ps (DbRel.mk (<[h := ps]> P) C')
      = (Err (KeyAlreadyExists (HashText h)), DbRel.mk (<[h := ps]> P) C').
Proof. apply relations_insert_ok. Qed.

Lemma relations_insert_correct_witness :
  ∃ C', rel_insert 2%N [1%N] (MemoryRel.mk {[1%N := []]} {[1%N := []]})
        = (Ok tt, MemoryRel.mk (<[2%N := [1%N]]> {[1%N := []]}) C')
    ∧ rel_insert 2%N [1%N] (DbRel.mk {[1%N := []]} {[1%N := []]})
        = (Ok tt, DbRel.mk (<[2%N := [1%N]]> {[1%N := []]}) C')
    ∧ rel_inv (<[2%N := [1%N]]> {[1%N := []]}) C'
    ∧ rel_insert 2%N [1%N] (DbRel.mk (<[2%N := [1%N]]> {[1%N := []]}) C')
      = (Err (KeyAlreadyExists (HashText 2%N)), DbRel.mk (<[2%N := [1%N]]> {[1%N := []]}) C').
Proof.
  apply (relations_insert_correct {[1%N := []]} {[1%N := []]} 2%N [1%N]).
  - split.
    + done.
    + intros y qs q [_ <-]%lookup_singleton_Some Hq. by apply elem_of_nil in Hq.
    + intros p l c [_ <-]%lookup_singleton_Some. split; [by intros ?%elem_of_nil|].
      intros (qs & [_ <-]%lookup_singleton_Some & Hq). by apply elem_of_nil in Hq.
    + intros p l [_ <-]%lookup_singleton_Some. constructor.
    + intros p l [_ <-]%lookup_singleton_Some. constructor.
  - done.
  - repeat constructor. apply not_elem_of_nil.
  - intros p ->%list_elem_of_singleton. by rewrite lookup_singleton_eq.
Defined.
