(* ===== verification/Headers.v ===== *)
(** * Block headers

    [consensus/core/src/header.rs] (the fields) and
    [consensus/src/model/stores/headers.rs]: the full headers and their compact
    data, read through the cache of full headers when it has the block.

    The hash of a header is a parameter of the code that needs it; it is not
    computed here. *)

From S2P Require Import Prelude Hash Interval ReachStore.

Record Header : Type := mkHeader {
  h_hash : Hash;
  h_version : Z;
  h_parents_by_level : list (list Hash);
  h_hash_merkle_root : Hash;
  h_accepted_id_merkle_root : Hash;
  h_utxo_commitment : Hash;
  h_timestamp : Z;
  h_bits : Z;
  h_nonce : Z;
  h_daa_score : Z;
  h_blue_work : Z;
  h_blue_score : Z;
  h_pruning_point : Hash;
}.

(** [direct_parents]: an index that panics when there is no level. *)
Definition direct_parents {E} (h : Header) : outcome E (list Hash) :=
  unwrap_opt (h_parents_by_level h !! 0%nat).

Record HeaderWithBlockLevel : Type := mkLevel { lv_header : Header; lv_block_level : Z }.
Record CompactHeaderData : Type := mkCompactHeader {
  ch_daa_score : Z; ch_timestamp : Z; ch_bits : Z; ch_blue_score : Z }.

Definition compact_header (h : Header) : CompactHeaderData :=
  mkCompactHeader (h_daa_score h) (h_timestamp h) (h_bits h) (h_blue_score h).

Class HeaderStoreReader (T : Type) : Type := {
  get_daa_score : T → Hash → outcome StoreError Z;
  get_header_blue_score : T → Hash → outcome StoreError Z;
  get_timestamp : T → Hash → outcome StoreError Z;
  get_bits : T → Hash → outcome StoreError Z;
  get_header : T → Hash → outcome StoreError Header;
  get_header_with_block_level : T → Hash → outcome StoreError HeaderWithBlockLevel;
  get_compact_header_data : T → Hash → outcome StoreError CompactHeaderData;
}.

(** The two accesses, and the full headers that are in the cache. *)
Record DbHeadersStore : Type := mkHeaders {
  compact_headers_access : gmap Hash CompactHeaderData;
  headers_access : gmap Hash HeaderWithBlockLevel;
  headers_cache : gmap Hash HeaderWithBlockLevel;
}.

Definition read_access {A} (prefix : StorePrefix) (m : gmap Hash A) (hash : Hash) : outcome StoreError A :=
  match m !! hash with
  | Some a => Ok a
  | None => Err (KeyNotFound (PrefixedKey prefix hash))
  end.

(** A field: from the cached full header, else from the compact data. *)
Definition read_compact {A} (s : DbHeadersStore) (hash : Hash)
    (from_header : Header → A) (from_compact : CompactHeaderData → A) : outcome StoreError A :=
  match headers_cache s !! hash with
  | Some header_with_block_level => Ok (from_header (lv_header header_with_block_level))
  | None =>
      d ← read_access COMPACT_HEADER_DATA_STORE_PREFIX (compact_headers_access s) hash;
      mret (from_compact d)
  end.

#[export] Instance db_header_reader : HeaderStoreReader DbHeadersStore := {|
  get_daa_score s hash := read_compact s hash h_daa_score ch_daa_score;
  get_header_blue_score s hash := read_compact s hash h_blue_score ch_blue_score;
  get_timestamp s hash := read_compact s hash h_timestamp ch_timestamp;
  get_bits s hash := read_compact s hash h_bits ch_bits;
  get_header s hash :=
    d ← read_access HEADERS_STORE_PREFIX (headers_access s) hash; mret (lv_header d);
  get_header_with_block_level s := read_access HEADERS_STORE_PREFIX (headers_access s);
  get_compact_header_data s hash := read_compact s hash compact_header (λ d, d);
|}.

(** [insert] and [insert_batch] differ in the order of the two writes only. *)
Definition insert_header (hash : Hash) (header : Header) (block_level : Z)
    : M DbHeadersStore StoreError unit := λ s,
  if bool_decide (is_Some (headers_access s !! hash)) then (Err (KeyAlreadyExists (HashText hash)), s)
  else (Ok tt, mkHeaders (<[hash := compact_header header]> (compact_headers_access s))
                 (<[hash := mkLevel header block_level]> (headers_access s))
                 (<[hash := mkLevel header block_level]> (headers_cache s))).

(** The cache drops an entry. *)
Definition evict_header (hash : Hash) (s : DbHeadersStore) : DbHeadersStore :=
  mkHeaders (compact_headers_access s) (headers_access s) (delete hash (headers_cache s)).
(** A read through the access fills the cache. *)
Definition fill_header (hash : Hash) (s : DbHeadersStore) : DbHeadersStore :=
  match headers_access s !! hash with
  | Some h => mkHeaders (compact_headers_access s) (headers_access s) (<[hash := h]> (headers_cache s))
  | None => s
  end.

Record headers_ok (s : DbHeadersStore) : Prop := {
  ho_compact : compact_headers_access s = (λ h, compact_header (lv_header h)) <$> headers_access s;
  ho_cache : headers_cache s ⊆ headers_access s;
}.

(** What the readers promise. *)
Definition header_field {A} (s : DbHeadersStore) (f : Header → A) (prefix : StorePrefix) (hash : Hash)
    : outcome StoreError A :=
  match headers_access s !! hash with
  | Some h => Ok (f (lv_header h))
  | None => Err (KeyNotFound (PrefixedKey prefix hash))
  end.

Lemma read_compact_ok {A} (s : DbHeadersStore) h (f : Header → A) (g : CompactHeaderData → A) :
  headers_ok s → (∀ x, g (compact_header x) = f x) →
  read_compact s h f g = header_field s f COMPACT_HEADER_DATA_STORE_PREFIX h.
Proof.
  intros [Hc Hs] Hg. unfold read_compact, header_field, read_access.
  destruct (headers_cache s !! h) as [x|] eqn:Hx.
  - by rewrite (lookup_weaken _ _ _ _ Hx Hs).
  - rewrite Hc, lookup_fmap. destruct (headers_access s !! h) as [x|]; simpl; [|done]. by rewrite Hg.
Qed.

Lemma insert_header_ok h x level s :
  headers_ok s → headers_access s !! h = None →
  ∃ s', insert_header h x level s = (Ok tt, s') ∧ headers_ok s'
    ∧ headers_access s' = <[h := mkLevel x level]> (headers_access s).
Proof.
  intros [Hc Hs] Hh. unfold insert_header. rewrite Hh, bool_decide_eq_false_2 by (by intros [? ?]).
  eexists. split; [reflexivity|]. split; [|done]. split; simpl.
  - by rewrite Hc, fmap_insert.
  - by apply insert_mono.
Qed.

(** ** Properties *)

(** Whatever part of the headers is cached, and after any insertion, eviction
    or cache fill, every reader returns the field of the stored full header, or
    "key not found" when there is none: the cache, the compact copy and the full
    header never disagree. *)
Theorem header_reads_consistent (s : DbHeadersStore) (h n : Hash) (x : Header) (level : Z) :
  headers_ok s →
  (get_daa_score s h = header_field s h_daa_score COMPACT_HEADER_DATA_STORE_PREFIX h
   ∧ get_header_blue_score s h = header_field s h_blue_score COMPACT_HEADER_DATA_STORE_PREFIX h
   ∧ get_timestamp s h = header_field s h_timestamp COMPACT_HEADER_DATA_STORE_PREFIX h
   ∧ get_bits s h = header_field s h_bits COMPACT_HEADER_DATA_STORE_PREFIX h
   ∧ get_header s h = header_field s (λ x, x) HEADERS_STORE_PREFIX h
   ∧ get_compact_header_data s h = header_field s compact_header COMPACT_HEADER_DATA_STORE_PREFIX h)
  ∧ headers_ok (snd (insert_header n x level s)) ∧ headers_ok (evict_header n s)
  ∧ headers_ok (fill_header n s).
Proof.
  intros Hs. split; [|split_and!].
  - split_and!; try (by apply read_compact_ok). simpl. unfold header_field, read_access.
    by destruct (headers_access s !! h).
  - destruct (headers_access s !! n) eqn:Hn.
    + unfold insert_header. by rewrite Hn.
    + by destruct (insert_header_ok n x level s Hs Hn) as (s' & -> & Hs' & _).
  - destruct Hs as [Hc Hs]. split; [done|]. simpl. etrans; [apply delete_subseteq|done].
  - unfold fill_header. destruct (headers_access s !! n) as [y|] eqn:Hn; [|done].
    destruct Hs as [Hc Hs]. split; [done|]. simpl. by apply insert_subseteq_l.
Qed.

Definition ex_header : Header := mkHeader 1%N 0 [[]] 0%N 0%N 0%N 7 0 0 3 0 5 0%N.
Definition ex_headers : DbHeadersStore :=
  evict_header 1%N (snd (insert_header 1%N ex_header 0 (mkHeaders ∅ ∅ ∅))).

Lemma header_reads_consistent_witness :
  get_timestamp ex_headers 1%N = header_field ex_headers h_timestamp COMPACT_HEADER_DATA_STORE_PREFIX 1%N.
Proof.
  destruct (header_reads_consistent ex_headers 1%N 1%N ex_header 0) as [(_ & _ & Ht & _) _].
  - split; [by vm_compute|]. assert (headers_cache ex_headers = ∅) as -> by by vm_compute. apply map_empty_subseteq.
  - exact Ht.
Defined.
