(* ===== verification/GhostdagStore.v ===== *)
(** * GHOSTDAG data

    [consensus/src/model/stores/ghostdag.rs]: the data GHOSTDAG computes for a
    block, the orders in which its mergeset is visited, and the in-memory and
    database stores of it; with [SortableBlock] of
    [consensus/src/processes/ghostdag/ordering.rs].

    [BlueWorkType] ([Uint192]) is represented by the number it stands for. *)

From S2P Require Import Prelude Hash Interval ReachStore.

(** ** Sortable blocks *)

Record SortableBlock : Type := mkSortable { sb_hash : Hash; sb_blue_work : Z }.

(** [PartialEq]: by hash; [Ord]: by blue work, then by hash. *)
Definition sb_eq (a b : SortableBlock) : bool := bool_decide (sb_hash a = sb_hash b).
Definition sb_cmp (a b : SortableBlock) : comparison :=
  match sb_blue_work a ?= sb_blue_work b with
  | Eq => Hashes.cmp (sb_hash a) (sb_hash b)
  | c => c
  end.

Definition sb_lt (a b : SortableBlock) : Prop := sb_cmp a b = Lt.
Definition sb_le (a b : SortableBlock) : Prop := sb_cmp a b ≠ Gt.

Lemma sb_cmp_spec a b :
  (sb_cmp a b = Lt ↔ sb_blue_work a < sb_blue_work b
     ∨ sb_blue_work a = sb_blue_work b ∧ (sb_hash a < sb_hash b)%N)
  ∧ (sb_cmp a b = Eq ↔ a = b).
Proof.
  destruct a as [h w], b as [k v]. unfold sb_cmp, Hashes.cmp. simpl.
  destruct (Z.compare_spec w v) as [->|?|?].
  - destruct (N.compare_spec h k) as [->|?|?]; (split; split; intros Hc; try done; try lia;
      try (injection Hc as ?; lia); try (destruct Hc; lia); auto).
  - split; split; intros Hc; auto; try done. injection Hc as ? ?. lia.
  - split; split; intros Hc; try done; [lia|]. injection Hc as ? ?. lia.
Qed.

#[global] Instance SortableBlock_eq_dec : EqDecision SortableBlock.
Proof. solve_decision. Defined.
#[global] Instance sb_le_dec : RelDecision sb_le.
Proof. unfold sb_le. solve_decision. Defined.

Lemma sb_cmp_antisym a b : sb_cmp b a = CompOpp (sb_cmp a b).
Proof.
  unfold sb_cmp, Hashes.cmp. rewrite (Z.compare_antisym (sb_blue_work a)), (N.compare_antisym (sb_hash a)).
  by destruct (sb_blue_work a ?= sb_blue_work b).
Qed.
#[global] Instance sb_lt_trans : Transitive sb_lt.
Proof. intros a b c. unfold sb_lt. rewrite !(proj1 (sb_cmp_spec _ _)). lia. Qed.
Lemma sb_le_lteq a b : sb_le a b ↔ sb_lt a b ∨ a = b.
Proof.
  unfold sb_le, sb_lt. pose proof (proj2 (sb_cmp_spec a b)) as Heq. destruct (sb_cmp a b); naive_solver.
Qed.
#[global] Instance sb_le_trans : Transitive sb_le.
Proof.
  intros a b c. rewrite !sb_le_lteq. intros [?| ->] [?| ->]; auto. left. by etrans.
Qed.
#[global] Instance sb_le_total : Total sb_le.
Proof. intros a b. unfold sb_le. rewrite (sb_cmp_antisym a b). destruct (sb_cmp a b); simpl; auto. Qed.
#[global] Instance sb_le_antisym : AntiSymm (=) sb_le.
Proof.
  intros a b. rewrite !sb_le_lteq. unfold sb_lt. rewrite (sb_cmp_antisym a b).
  destruct (sb_cmp a b); naive_solver.
Qed.

#[global] Instance sb_gt_antisym : AntiSymm (=) (flip sb_lt).
Proof.
  intros a b. unfold flip, sb_lt. rewrite (sb_cmp_antisym a b). by destruct (sb_cmp a b).
Qed.

(** ** The data of a block *)

(** [KType] is [u8]. *)
Definition ktype_add {E} (a b : Z) : outcome E Z := checked u8_max (a + b).

Record GhostdagData : Type := mkGhostdagData {
  blue_score : Z;
  blue_work : Z;
  selected_parent : Hash;
  mergeset_blues : list Hash;
  mergeset_reds : list Hash;
  blues_anticone_sizes : gmap Hash Z;
}.
Record CompactGhostdagData : Type := mkCompact {
  c_blue_score : Z; c_blue_work : Z; c_selected_parent : Hash }.

(** The capacity of the vector is computed in [KType]. *)
Definition new_with_selected_parent {E} (selected_parent : Hash) (k : Z) : outcome E GhostdagData :=
  _ ← ktype_add k 1;
  mret (mkGhostdagData 0 0 selected_parent [selected_parent] [] {[selected_parent := 0]}).

Definition mergeset_size (d : GhostdagData) : nat :=
  (length (mergeset_blues d) + length (mergeset_reds d))%nat.

Definition to_compact (d : GhostdagData) : CompactGhostdagData :=
  mkCompact (blue_score d) (blue_work d) (selected_parent d).

Definition add_blue {E} (d : GhostdagData) (block : Hash) (blue_anticone_size : Z)
    (block_blues_anticone_sizes : gmap Hash Z) : outcome E GhostdagData :=
  let mergeset_blues := mergeset_blues d ++ [block] in
  let sizes := <[block := blue_anticone_size]> (blues_anticone_sizes d) in
  sizes ← ofold (λ m '(blue, size), size' ← ktype_add size 1; mret (<[blue := size']> m))
            sizes (map_to_list block_blues_anticone_sizes);
  mret (mkGhostdagData (blue_score d) (blue_work d) (selected_parent d) mergeset_blues
          (mergeset_reds d) sizes).

Definition add_red (d : GhostdagData) (block : Hash) : GhostdagData :=
  mkGhostdagData (blue_score d) (blue_work d) (selected_parent d) (mergeset_blues d)
    (mergeset_reds d ++ [block]) (blues_anticone_sizes d).

Definition finalize_score_and_work (d : GhostdagData) (score work : Z) : GhostdagData :=
  mkGhostdagData score work (selected_parent d) (mergeset_blues d) (mergeset_reds d)
    (blues_anticone_sizes d).

Definition unordered_mergeset_without_selected_parent (d : GhostdagData) : list Hash :=
  drop 1 (mergeset_blues d) ++ mergeset_reds d.
Definition unordered_mergeset (d : GhostdagData) : list Hash :=
  mergeset_blues d ++ mergeset_reds d.

(** ** The stores *)

Class GhostdagStoreReader (T : Type) : Type := {
  get_blue_score : T → Hash → outcome StoreError Z;
  get_blue_work : T → Hash → outcome StoreError Z;
  get_selected_parent : T → Hash → outcome StoreError Hash;
  get_mergeset_blues : T → Hash → outcome StoreError (list Hash);
  get_mergeset_reds : T → Hash → outcome StoreError (list Hash);
  get_blues_anticone_sizes : T → Hash → outcome StoreError (gmap Hash Z);
  get_gd_data : T → Hash → outcome StoreError GhostdagData;
  get_compact_data : T → Hash → outcome StoreError CompactGhostdagData;
  gd_has : T → Hash → outcome StoreError bool;
}.
Class GhostdagStore (T : Type) `{GhostdagStoreReader T} : Type := {
  gd_insert : Hash → GhostdagData → M T StoreError unit;
}.

Definition read_key {A} (prefix : StorePrefix) (m : gmap Hash A) (hash : Hash)
    : outcome StoreError A :=
  match m !! hash with
  | Some a => Ok a
  | None => Err (KeyNotFound (PrefixedKey prefix hash))
  end.

(** [map[&hash]]: an index that panics on a missing key. *)
Definition index_map {E A} (m : gmap Hash A) (hash : Hash) : outcome E A := unwrap_opt (m !! hash).

Module MemoryGd.
Record MemoryGhostdagStore : Type := mk {
  blue_score_map : gmap Hash Z;
  blue_work_map : gmap Hash Z;
  selected_parent_map : gmap Hash Hash;
  mergeset_blues_map : gmap Hash (list Hash);
  mergeset_reds_map : gmap Hash (list Hash);
  blues_anticone_sizes_map : gmap Hash (gmap Hash Z);
}.
Definition new : MemoryGhostdagStore := mk ∅ ∅ ∅ ∅ ∅ ∅.

Definition has_ (s : MemoryGhostdagStore) (hash : Hash) : outcome StoreError bool :=
  Ok (bool_decide (is_Some (blue_score_map s !! hash))).

Definition get_data_ (s : MemoryGhostdagStore) (hash : Hash) : outcome StoreError GhostdagData :=
  b ← has_ s hash;
  if negb b then Err (KeyNotFound (PrefixedKey GHOSTDAG_PREFIX hash))
  else
    a ← index_map (blue_score_map s) hash; b ← index_map (blue_work_map s) hash;
    c ← index_map (selected_parent_map s) hash; d ← index_map (mergeset_blues_map s) hash;
    e ← index_map (mergeset_reds_map s) hash; f ← index_map (blues_anticone_sizes_map s) hash;
    mret (mkGhostdagData a b c d e f).

Definition insert_ (hash : Hash) (data : GhostdagData) : M MemoryGhostdagStore StoreError unit := λ s,
  match has_ s hash with
  | Ok true => (Err (KeyAlreadyExists (HashText hash)), s)
  | _ => (Ok tt,
      mk (<[hash := blue_score data]> (blue_score_map s))
         (<[hash := blue_work data]> (blue_work_map s))
         (<[hash := selected_parent data]> (selected_parent_map s))
         (<[hash := mergeset_blues data]> (mergeset_blues_map s))
         (<[hash := mergeset_reds data]> (mergeset_reds_map s))
         (<[hash := blues_anticone_sizes data]> (blues_anticone_sizes_map s)))
  end.
End MemoryGd.

#[export] Instance memory_gd_reader : GhostdagStoreReader MemoryGd.MemoryGhostdagStore := {|
  get_blue_score s := read_key GHOSTDAG_PREFIX (MemoryGd.blue_score_map s);
  get_blue_work s := read_key GHOSTDAG_PREFIX (MemoryGd.blue_work_map s);
  get_selected_parent s := read_key GHOSTDAG_PREFIX (MemoryGd.selected_parent_map s);
  get_mergeset_blues s := read_key GHOSTDAG_PREFIX (MemoryGd.mergeset_blues_map s);
  get_mergeset_reds s := read_key GHOSTDAG_PREFIX (MemoryGd.mergeset_reds_map s);
  get_blues_anticone_sizes s := read_key GHOSTDAG_PREFIX (MemoryGd.blues_anticone_sizes_map s);
  get_gd_data := MemoryGd.get_data_;
  get_compact_data s hash := d ← MemoryGd.get_data_ s hash; mret (to_compact d);
  gd_has := MemoryGd.has_;
|}.
#[export] Instance memory_gd_store : GhostdagStore MemoryGd.MemoryGhostdagStore :=
  {| gd_insert := MemoryGd.insert_ |}.

Module DbGd.
(** The contents that the two cached accesses give access to. *)
Record DbGhostdagStore : Type := mk {
  access : gmap Hash GhostdagData;
  compact_access : gmap Hash CompactGhostdagData;
}.
Definition new : DbGhostdagStore := mk ∅ ∅.

Definition insert_ (hash : Hash) (data : GhostdagData) : M DbGhostdagStore StoreError unit := λ s,
  if bool_decide (is_Some (access s !! hash)) then (Err (KeyAlreadyExists (HashText hash)), s)
  else
    let s := mk (<[hash := data]> (access s)) (compact_access s) in
    if bool_decide (is_Some (compact_access s !! hash)) then (Err (KeyAlreadyExists (HashText hash)), s)
    else (Ok tt, mk (access s) (<[hash := to_compact data]> (compact_access s))).

(** With a write batch, the second access is not tested for the key. *)
Definition insert_batch (hash : Hash) (data : GhostdagData) : M DbGhostdagStore StoreError unit := λ s,
  if bool_decide (is_Some (access s !! hash)) then (Err (KeyAlreadyExists (HashText hash)), s)
  else (Ok tt, mk (<[hash := data]> (access s)) (<[hash := to_compact data]> (compact_access s))).
End DbGd.

#[export] Instance db_gd_reader : GhostdagStoreReader DbGd.DbGhostdagStore := {|
  get_blue_score s hash := d ← read_key GHOSTDAG_PREFIX (DbGd.access s) hash; mret (blue_score d);
  get_blue_work s hash := d ← read_key GHOSTDAG_PREFIX (DbGd.access s) hash; mret (blue_work d);
  get_selected_parent s hash :=
    d ← read_key GHOSTDAG_PREFIX (DbGd.access s) hash; mret (selected_parent d);
  get_mergeset_blues s hash :=
    d ← read_key GHOSTDAG_PREFIX (DbGd.access s) hash; mret (mergeset_blues d);
  get_mergeset_reds s hash :=
    d ← read_key GHOSTDAG_PREFIX (DbGd.access s) hash; mret (mergeset_reds d);
  get_blues_anticone_sizes s hash :=
    d ← read_key GHOSTDAG_PREFIX (DbGd.access s) hash; mret (blues_anticone_sizes d);
  get_gd_data s := read_key GHOSTDAG_PREFIX (DbGd.access s);
  get_compact_data s := read_key COMPACT_GHOSTDAG_PREFIX (DbGd.compact_access s);
  gd_has s hash := Ok (bool_decide (is_Some (DbGd.access s !! hash)));
|}.
#[export] Instance db_gd_store : GhostdagStore DbGd.DbGhostdagStore :=
  {| gd_insert := DbGd.insert_ |}.

(** ** What a store promises

    It behaves as a map from blocks to their data. *)

Definition read_field {A} (m : gmap Hash GhostdagData) (f : GhostdagData → A) (hash : Hash)
    : outcome StoreError A :=
  match m !! hash with
  | Some d => Ok (f d)
  | None => Err (KeyNotFound (PrefixedKey GHOSTDAG_PREFIX hash))
  end.

Class GhostdagStoreLaws (T : Type) `{GhostdagStore T} : Type := {
  gd_abs : T → gmap Hash GhostdagData;
  gd_ok : T → Prop;
  law_blue_score s h : gd_ok s → get_blue_score s h = read_field (gd_abs s) blue_score h;
  law_blue_work s h : gd_ok s → get_blue_work s h = read_field (gd_abs s) blue_work h;
  law_selected_parent s h :
    gd_ok s → get_selected_parent s h = read_field (gd_abs s) selected_parent h;
  law_mergeset_blues s h : gd_ok s → get_mergeset_blues s h = read_field (gd_abs s) mergeset_blues h;
  law_mergeset_reds s h : gd_ok s → get_mergeset_reds s h = read_field (gd_abs s) mergeset_reds h;
  law_sizes s h :
    gd_ok s → get_blues_anticone_sizes s h = read_field (gd_abs s) blues_anticone_sizes h;
  law_data s h : gd_ok s → get_gd_data s h = read_field (gd_abs s) (λ d, d) h;
  law_compact s h d : gd_ok s → gd_abs s !! h = Some d → get_compact_data s h = Ok (to_compact d);
  law_has s h : gd_ok s → gd_has s h = Ok (bool_decide (is_Some (gd_abs s !! h)));
  law_insert_new s h d : gd_ok s → gd_abs s !! h = None →
    ∃ s', gd_insert h d s = (Ok tt, s') ∧ gd_ok s' ∧ gd_abs s' = <[h := d]> (gd_abs s);
  law_insert_old s h d : gd_ok s → is_Some (gd_abs s !! h) →
    gd_insert h d s = (Err (KeyAlreadyExists (HashText h)), s);
}.

(** The six maps of the in-memory store hold the fields of one map. *)
Record memory_holds (s : MemoryGd.MemoryGhostdagStore) (m : gmap Hash GhostdagData) : Prop := {
  mh_score : MemoryGd.blue_score_map s = blue_score <$> m;
  mh_work : MemoryGd.blue_work_map s = blue_work <$> m;
  mh_parent : MemoryGd.selected_parent_map s = selected_parent <$> m;
  mh_blues : MemoryGd.mergeset_blues_map s = mergeset_blues <$> m;
  mh_reds : MemoryGd.mergeset_reds_map s = mergeset_reds <$> m;
  mh_sizes : MemoryGd.blues_anticone_sizes_map s = blues_anticone_sizes <$> m;
}.

(** The map that the in-memory store holds, rebuilt block by block. *)
Definition memory_gd_abs (s : MemoryGd.MemoryGhostdagStore) : gmap Hash GhostdagData :=
  map_imap (λ h _, match MemoryGd.get_data_ s h with Ok d => Some d | _ => None end)
    (MemoryGd.blue_score_map s).

Lemma memory_holds_get s m h : memory_holds s m → MemoryGd.get_data_ s h = read_field m (λ d, d) h.
Proof.
  intros [H1 H2 H3 H4 H5 H6]. unfold MemoryGd.get_data_, MemoryGd.has_, read_field, index_map.
  rewrite H1, H2, H3, H4, H5, H6, !lookup_fmap. by destruct (m !! h) as [[]|].
Qed.

Lemma memory_holds_abs s m : memory_holds s m → memory_gd_abs s = m.
Proof.
  intros Hm. apply map_eq. intros h. unfold memory_gd_abs. rewrite map_lookup_imap, (mh_score _ _ Hm), lookup_fmap.
  rewrite (memory_holds_get s m h Hm). unfold read_field. by destruct (m !! h).
Qed.

Lemma read_key_field {A} (m : gmap Hash GhostdagData) (f : GhostdagData → A) h :
  read_key GHOSTDAG_PREFIX (f <$> m) h = read_field m f h.
Proof. unfold read_key, read_field. rewrite lookup_fmap. by destruct (m !! h). Qed.

Lemma memory_holds_insert s m h d :
  memory_holds s m → m !! h = None →
  ∃ s', MemoryGd.insert_ h d s = (Ok tt, s') ∧ memory_holds s' (<[h := d]> m).
Proof.
  intros [H1 H2 H3 H4 H5 H6] Hh. unfold MemoryGd.insert_, MemoryGd.has_.
  rewrite H1, lookup_fmap, Hh, bool_decide_eq_false_2 by (by intros [? ?]).
  eexists. split; [reflexivity|]. split; simpl; rewrite fmap_insert; congruence.
Qed.

#[export] Instance memory_gd_laws : GhostdagStoreLaws MemoryGd.MemoryGhostdagStore.
Proof.
  refine {| gd_abs := memory_gd_abs; gd_ok := λ s, ∃ m, memory_holds s m |}.
  1-6: intros s h [m Hm]; rewrite (memory_holds_abs s m Hm), <- read_key_field; simpl;
    by rewrite ?(mh_score _ _ Hm), ?(mh_work _ _ Hm), ?(mh_parent _ _ Hm), ?(mh_blues _ _ Hm),
      ?(mh_reds _ _ Hm), ?(mh_sizes _ _ Hm).
  - intros s h [m Hm]. rewrite (memory_holds_abs s m Hm). by apply memory_holds_get.
  - intros s h d [m Hm] Hd. rewrite (memory_holds_abs s m Hm) in Hd. simpl.
    rewrite (memory_holds_get s m h Hm). unfold read_field. by rewrite Hd.
  - intros s h [m Hm]. rewrite (memory_holds_abs s m Hm). simpl. unfold MemoryGd.has_.
    rewrite (mh_score _ _ Hm), lookup_fmap. f_equal. apply bool_decide_ext. by rewrite fmap_is_Some.
  - intros s h d [m Hm] Hh. rewrite (memory_holds_abs s m Hm) in *.
    destruct (memory_holds_insert s m h d Hm Hh) as (s' & Hs' & Hm'). exists s'.
    split_and!; [done|eauto|by apply memory_holds_abs].
  - intros s h d [m Hm] Hh. rewrite (memory_holds_abs s m Hm) in *. simpl. unfold MemoryGd.insert_, MemoryGd.has_.
    rewrite (mh_score _ _ Hm), lookup_fmap, bool_decide_eq_true_2 by by apply fmap_is_Some. done.
Defined.

#[export] Instance db_gd_laws : GhostdagStoreLaws DbGd.DbGhostdagStore.
Proof.
  refine {| gd_abs := DbGd.access; gd_ok := λ s, DbGd.compact_access s = to_compact <$> DbGd.access s |}.
  1-6: intros s h _; simpl; unfold read_key, read_field; by destruct (DbGd.access s !! h).
  - intros s h _. simpl. unfold read_key, read_field. by destruct (DbGd.access s !! h).
  - intros s h d Hs Hd. simpl. unfold read_key. by rewrite Hs, lookup_fmap, Hd.
  - done.
  - intros s h d Hs Hh. simpl. unfold DbGd.insert_. rewrite Hh, bool_decide_eq_false_2 by (by intros [? ?]).
    simpl. rewrite Hs, lookup_fmap, Hh, bool_decide_eq_false_2 by (by intros [? ?]).
    eexists. split_and!; [reflexivity| |done]. simpl. by rewrite fmap_insert.
  - intros s h d Hs Hh. simpl. unfold DbGd.insert_. by rewrite bool_decide_eq_true_2.
Defined.

(** ** The mergeset in order *)

(** [Itertools::merge_join_by], with a panic on equal items. *)
Fixpoint merge_join {E A} (cmp : A → A → comparison) (l : list A) : list A → outcome E (list A) :=
  match l with
  | [] => λ r, mret r
  | a :: l' =>
      fix inner (r : list A) : outcome E (list A) :=
        match r with
        | [] => mret l
        | b :: r' =>
            match cmp a b with
            | Lt => m ← merge_join cmp l' r; mret (a :: m)
            | Gt => m ← inner r'; mret (b :: m)
            | Eq => Panic
            end
        end
  end.

Section iterators.
Context {E T : Type} `{GhostdagStoreReader T} (store : T).

Definition sortable (h : Hash) : outcome E SortableBlock :=
  w ← unwrap (get_blue_work store h); mret (mkSortable h w).

(** The items, for a consumer that takes them all. *)
Definition ascending_mergeset_without_selected_parent (d : GhostdagData) : outcome E (list SortableBlock) :=
  blues ← omap_each sortable (drop 1 (mergeset_blues d));
  reds ← omap_each sortable (mergeset_reds d);
  merge_join sb_cmp blues reds.
Definition descending_mergeset_without_selected_parent (d : GhostdagData) : outcome E (list SortableBlock) :=
  blues ← omap_each sortable (reverse (drop 1 (mergeset_blues d)));
  reds ← omap_each sortable (reverse (mergeset_reds d));
  merge_join (λ a b, sb_cmp b a) blues reds.
Definition consensus_ordered_mergeset (d : GhostdagData) : outcome E (list Hash) :=
  l ← ascending_mergeset_without_selected_parent d; mret (selected_parent d :: map sb_hash l).
Definition consensus_ordered_mergeset_without_selected_parent (d : GhostdagData) : outcome E (list Hash) :=
  l ← ascending_mergeset_without_selected_parent d; mret (map sb_hash l).
End iterators.

Section merge.
Context {E A : Type} (cmp : A → A → comparison).
Abbreviation lt := (λ a b, cmp a b = Lt).
Context (Htrans : Transitive lt) (Hflip : ∀ a b, cmp a b = Gt → cmp b a = Lt).

Lemma merge_join_ok l r :
  StronglySorted lt l → StronglySorted lt r → (∀ a b, a ∈ l → b ∈ r → cmp a b ≠ Eq) →
  ∃ m, merge_join (E:=E) cmp l r = Ok m ∧ m ≡ₚ l ++ r ∧ StronglySorted lt m.
Proof using Htrans Hflip.
  intros Hl Hr. revert r Hr. induction Hl as [|a l Hl IHl Ha]; intros r Hr Hne; [by exists r|].
  induction Hr as [|b r Hr IHr Hb]; cbn.
  { exists (a :: l). rewrite app_nil_r. split_and!; [done..|]. by constructor. }
  destruct (cmp a b) eqn:Hc.
  - destruct (Hne a b); [left|left|done].
  - destruct (IHl (b :: r)) as (m & -> & Hm & Hs); [by constructor|intros x y Hx Hy; apply Hne; [by right|done]|].
    exists (a :: m). split_and!; [done|by rewrite Hm|]. constructor; [done|].
    rewrite Hm. apply Forall_app. split; [done|]. constructor; [done|].
    eapply Forall_impl; [exact Hb|]. intros y Hy. exact (Htrans a b y Hc Hy).
  - destruct IHr as (m & Hrun & Hm & Hs); [intros x y Hx Hy; apply Hne; [done|by right]|].
    cbn in Hrun. rewrite Hrun. exists (b :: m). split_and!; [done| |].
    + rewrite Hm. simpl. rewrite <- Permutation_middle. apply perm_swap.
    + constructor; [done|]. rewrite Hm. constructor; [by apply Hflip|]. apply Forall_app. split; [|done].
      eapply Forall_impl; [exact Ha|]. intros y Hy. exact (Htrans b a y (Hflip _ _ Hc) Hy).
Qed.
End merge.

Lemma omap_each_ok {E X Y} (f : X → outcome E Y) (g : X → Y) l :
  (∀ x, x ∈ l → f x = Ok (g x)) → omap_each f l = Ok (g <$> l).
Proof.
  induction l as [|x l IH]; intros Hf; [done|]. simpl. rewrite Hf by left. cbn [mbind outcome_bind].
  rewrite IH; [done|]. intros y Hy. apply Hf. by right.
Qed.

(** The blue work of a block of the store. *)
Definition work_of (m : gmap Hash GhostdagData) (h : Hash) : Z :=
  match m !! h with Some d => blue_work d | None => 0 end.
Definition as_sortable (m : gmap Hash GhostdagData) (h : Hash) : SortableBlock :=
  mkSortable h (work_of m h).

(** The data lists the blues after the selected parent and the reds in ascending
    order, and they are blocks of the store. *)
Record mergeset_ok (m : gmap Hash GhostdagData) (d : GhostdagData) : Prop := {
  mo_blues : StronglySorted sb_lt (as_sortable m <$> drop 1 (mergeset_blues d));
  mo_reds : StronglySorted sb_lt (as_sortable m <$> mergeset_reds d);
  mo_known : ∀ h, h ∈ unordered_mergeset_without_selected_parent d → is_Some (m !! h);
  mo_disjoint : ∀ h, h ∈ drop 1 (mergeset_blues d) → h ∈ mergeset_reds d → False;
}.

Section mergeset.
Context {E T : Type} `{GhostdagStoreLaws T} (s : T) (Hs : gd_ok s).
Abbreviation m := (gd_abs s).

Lemma sortable_ok h : is_Some (m !! h) → sortable (E:=E) s h = Ok (as_sortable m h).
Proof using Hs.
  intros [d Hd]. unfold sortable, as_sortable, work_of. rewrite law_blue_work by done.
  unfold read_field. by rewrite Hd.
Qed.

Context (d : GhostdagData) (Hd : mergeset_ok m d).

Lemma sortables_ok l : (∀ h, h ∈ l → h ∈ unordered_mergeset_without_selected_parent d) →
  omap_each (sortable (E:=E) s) l = Ok (as_sortable m <$> l).
Proof using Hs Hd. intros Hl. apply omap_each_ok. intros h Hh. apply sortable_ok, (mo_known _ _ Hd); auto. Qed.

Lemma StronglySorted_reverse {A} (R : A → A → Prop) l :
  StronglySorted R l → StronglySorted (flip R) (reverse l).
Proof using.
  induction 1 as [|x l _ IH Hx]; [constructor|]. rewrite reverse_cons.
  apply StronglySorted_app. split_and!; [|done|repeat constructor].
  intros y z Hy ->%list_elem_of_singleton. rewrite elem_of_reverse in Hy.
  rewrite Forall_forall in Hx. exact (Hx y Hy).
Qed.

Lemma mergeset_orders :
  ∃ l, ascending_mergeset_without_selected_parent (E:=E) s d = Ok l
    ∧ descending_mergeset_without_selected_parent (E:=E) s d = Ok (reverse l)
    ∧ StronglySorted sb_lt l
    ∧ l ≡ₚ as_sortable m <$> unordered_mergeset_without_selected_parent d.
Proof using Hs Hd.
  destruct Hd as [Hb Hrd Hk Hdis].
  assert (∀ a b, a ∈ as_sortable m <$> drop 1 (mergeset_blues d) → b ∈ as_sortable m <$> mergeset_reds d →
    sb_cmp a b ≠ Eq) as Hne.
  { intros a b (x & -> & Hx)%list_elem_of_fmap (y & -> & Hy)%list_elem_of_fmap Heq.
    apply sb_cmp_spec in Heq. injection Heq as -> _. eauto. }
  destruct (merge_join_ok (E:=E) sb_cmp sb_lt_trans) with (2 := Hb) (3 := Hrd) as (l & Hl & Hp & Hsrt).
  { intros a b. rewrite (sb_cmp_antisym a b). by destruct (sb_cmp a b). }
  { done. }
  destruct (merge_join_ok (E:=E) (λ a b, sb_cmp b a)) with (3 := StronglySorted_reverse _ _ Hb)
    (4 := StronglySorted_reverse _ _ Hrd) as (l' & Hl' & Hp' & Hsrt').
  { intros a b c Hab Hbc. exact (sb_lt_trans c b a Hbc Hab). }
  { intros a b. rewrite (sb_cmp_antisym b a). by destruct (sb_cmp b a). }
  { intros a b Ha Hb'. rewrite elem_of_reverse in Ha, Hb'. rewrite (sb_cmp_antisym a b).
    intros Hc. apply (Hne a b); [done..|]. by destruct (sb_cmp a b). }
  exists l. unfold ascending_mergeset_without_selected_parent, descending_mergeset_without_selected_parent.
  rewrite !sortables_ok by (intros h; unfold unordered_mergeset_without_selected_parent;
    rewrite ?elem_of_reverse, elem_of_app; auto).
  cbn [mbind outcome_bind]. rewrite Hl, !fmap_reverse, Hl'. split_and!; [done| |done|].
  - f_equal. eapply (StronglySorted_unique (flip sb_lt)); [done|by apply StronglySorted_reverse|].
    rewrite Hp', !reverse_Permutation, Hp. done.
  - unfold unordered_mergeset_without_selected_parent. by rewrite Hp, fmap_app.
Qed.
End mergeset.

(** Insertions one after the other, with the result of each. *)
Fixpoint insert_all {T} `{GhostdagStore T} (l : list (Hash * GhostdagData)) (s : T)
    : list (outcome StoreError unit) * T :=
  match l with
  | [] => ([], s)
  | (h, d) :: l' =>
      let '(r, s1) := gd_insert h d s in let '(rs, s2) := insert_all l' s1 in (r :: rs, s2)
  end.

Lemma insert_all_agree {T U} `{GhostdagStoreLaws T} `{GhostdagStoreLaws U} l (s : T) (u : U) :
  gd_ok s → gd_ok u → gd_abs s = gd_abs u →
  fst (insert_all l s) = fst (insert_all l u) ∧ gd_ok (snd (insert_all l s))
  ∧ gd_ok (snd (insert_all l u)) ∧ gd_abs (snd (insert_all l s)) = gd_abs (snd (insert_all l u)).
Proof.
  revert s u. induction l as [|[h d] l IH]; intros s u Hs Hu Habs; [done|]. simpl.
  destruct (gd_abs s !! h) as [d0|] eqn:Hh.
  - rewrite (law_insert_old s h d Hs), (law_insert_old u h d Hu) by (rewrite <- ?Habs; eauto).
    specialize (IH s u Hs Hu Habs). destruct (insert_all l s), (insert_all l u). naive_solver congruence.
  - destruct (law_insert_new s h d Hs Hh) as (s' & -> & Hs' & Ha).
    destruct (law_insert_new u h d Hu) as (u' & -> & Hu' & Hau); [by rewrite <- Habs|].
    destruct (IH s' u' Hs' Hu') as (? & ? & ? & ?); [congruence|].
    destruct (insert_all l s'), (insert_all l u'). simpl in *. naive_solver congruence.
Qed.

Lemma memory_new_ok : memory_holds MemoryGd.new ∅.
Proof. split; simpl; by rewrite fmap_empty. Qed.

(** ** Properties *)

(** The in-memory and the database store of GHOSTDAG data agree: after any
    sequence of insertions, whether each succeeded or failed because its key was
    there already is the same, and so is every later read, the errors included. *)
Theorem ghostdag_stores_agree (l : list (Hash * GhostdagData)) (h : Hash) :
  let '(r1, s1) := insert_all l MemoryGd.new in
  let '(r2, s2) := insert_all l DbGd.new in
  r1 = r2 ∧ get_gd_data s1 h = get_gd_data s2 h ∧ get_blue_work s1 h = get_blue_work s2 h
  ∧ get_blue_score s1 h = get_blue_score s2 h ∧ get_selected_parent s1 h = get_selected_parent s2 h
  ∧ get_blues_anticone_sizes s1 h = get_blues_anticone_sizes s2 h ∧ gd_has s1 h = gd_has s2 h.
Proof.
  destruct (insert_all_agree l MemoryGd.new DbGd.new) as (Hr & H1 & H2 & Ha).
  { exists ∅. apply memory_new_ok. }
  { simpl. by rewrite fmap_empty. }
  { exact (memory_holds_abs _ _ memory_new_ok). }
  destruct (insert_all l MemoryGd.new) as [r1 s1], (insert_all l DbGd.new) as [r2 s2]. cbn [fst snd] in *.
  rewrite !law_data, !law_blue_work, !law_blue_score, !law_selected_parent, !law_sizes, !law_has by done.
  split_and!; congruence || by rewrite Ha.
Qed.

(** When the blues after the selected parent and the reds are each in ascending
    order of blue work (ties broken by hash), the ascending iterator over the
    mergeset yields all of them once, in ascending order, and the descending
    iterator the same blocks in reverse; the consensus order is the selected
    parent followed by the ascending order. *)
Theorem mergeset_iterators_ordered {E T} `{GhostdagStoreLaws T} (s : T) (d : GhostdagData) :
  gd_ok s → mergeset_ok (gd_abs s) d →
  ∃ l, ascending_mergeset_without_selected_parent (E:=E) s d = Ok l
    ∧ descending_mergeset_without_selected_parent (E:=E) s d = Ok (reverse l)
    ∧ consensus_ordered_mergeset (E:=E) s d = Ok (selected_parent d :: map sb_hash l)
    ∧ StronglySorted sb_lt l
    ∧ map sb_hash l ≡ₚ unordered_mergeset_without_selected_parent d.
Proof.
  intros Hs Hd. destruct (mergeset_orders (E:=E) s Hs d Hd) as (l & Ha & Hde & Hsort & Hp).
  exists l. unfold consensus_ordered_mergeset. rewrite Ha. split_and!; [done..|].
  rewrite Hp. clear. induction (unordered_mergeset_without_selected_parent d) as [|x k IH]; [done|].
  rewrite fmap_cons. cbn [map]. by rewrite IH.
Qed.

Definition ex_gd (w : Z) : GhostdagData := mkGhostdagData 0 w 0%N [] [] ∅.
Definition ex_gd_store : DbGd.DbGhostdagStore :=
  snd (insert_all [(1%N, ex_gd 2); (2%N, ex_gd 7); (3%N, ex_gd 11); (4%N, ex_gd 4); (5%N, ex_gd 9);
                   (6%N, ex_gd 11)] DbGd.new).
Definition ex_gd_data : GhostdagData := mkGhostdagData 0 0 1%N [1; 2; 3]%N [4; 5; 6]%N ∅.

Lemma mergeset_iterators_ordered_witness :
  ∃ l, ascending_mergeset_without_selected_parent (E:=unit) ex_gd_store ex_gd_data = Ok l
    ∧ descending_mergeset_without_selected_parent (E:=unit) ex_gd_store ex_gd_data = Ok (reverse l)
    ∧ consensus_ordered_mergeset (E:=unit) ex_gd_store ex_gd_data = Ok (1%N :: map sb_hash l)
    ∧ StronglySorted sb_lt l
    ∧ map sb_hash l ≡ₚ unordered_mergeset_without_selected_parent ex_gd_data.
Proof.
  apply (mergeset_iterators_ordered ex_gd_store ex_gd_data); [by vm_compute|].
  split; [repeat constructor..| |].
  - intros h Hh. apply list_elem_of_In in Hh. simpl in Hh.
    repeat destruct Hh as [<-|Hh]; try done; eapply bool_decide_eq_true_1; by vm_compute.
  - intros h Hb Hr. apply list_elem_of_In in Hb, Hr. simpl in Hb, Hr.
    repeat destruct Hb as [<-|Hb]; try done; by repeat destruct Hr as [Hr|Hr].
Defined.
