(* ===== verification/Ghostdag.v ===== *)
(** * The GHOSTDAG protocol

    [consensus/src/processes/ghostdag/]: [protocol.rs], [mergeset.rs] and
    [ordering.rs].  The manager reads the GHOSTDAG store, the relations store, the
    headers store and the reachability service, each through its trait. *)

From S2P Require Import Prelude Hash Interval Uint Target ReachStore ReachService Relations Headers GhostdagStore.

Section protocol.
Context {E T R U V : Type} `{GhostdagStoreReader T} `{RelationsStoreReader R}
  `{ReachabilityService U} `{HeaderStoreReader V} (fuel : nat).

Record GhostdagManager : Type := mkManager {
  genesis_hash : Hash;
  k : Z;
  ghostdag_store : T;
  relations_store : R;
  headers_store : V;
  reachability_service : U;
}.

Context (self : GhostdagManager).

Definition genesis_ghostdag_data : GhostdagData := mkGhostdagData 0 0 Hashes.ORIGIN [] [] ∅.

(** ** [ordering.rs] *)

(** [Iterator::max]: the last of the greatest items. *)
Fixpoint max_from (best : SortableBlock) (l : list SortableBlock) : SortableBlock :=
  match l with
  | [] => best
  | x :: l' => max_from (match sb_cmp best x with Gt => best | _ => x end) l'
  end.
Definition max_of (l : list SortableBlock) : option SortableBlock :=
  match l with [] => None | x :: l' => Some (max_from x l') end.

Definition find_selected_parent (parents : list Hash) : outcome E Hash :=
  l ← omap_each (sortable (ghostdag_store self)) parents;
  best ← unwrap_opt (max_of l);
  mret (sb_hash best).

Definition sort_blocks (blocks : gset Hash) : outcome E (list Hash) :=
  keys ← omap_each (sortable (ghostdag_store self)) (elements blocks);
  mret (map sb_hash (merge_sort sb_le keys)).

(** ** [mergeset.rs] *)

Definition is_dag_ancestor (this queried : Hash) : outcome E bool :=
  unwrap (rs_is_dag_ancestor_of (reachability_service self) this queried).

(** The queue, the mergeset and the known past of the selected parent. *)
Definition MergesetState : Type := (list Hash * gset Hash * gset Hash)%type.

Definition mergeset_parent (selected_parent : Hash) (st : MergesetState) (parent : Hash)
    : outcome E MergesetState :=
  let '(queue, mergeset, selected_parent_past) := st in
  if bool_decide (parent ∈ mergeset) then mret st
  else if bool_decide (parent ∈ selected_parent_past) then mret st
  else
    b ← is_dag_ancestor parent selected_parent;
    if b : bool then mret (queue, mergeset, {[parent]} ∪ selected_parent_past)
    else mret (queue ++ [parent], {[parent]} ∪ mergeset, selected_parent_past).

Definition mergeset_loop (selected_parent : Hash) (st : MergesetState) : outcome E (gset Hash) :=
  oloop fuel (λ '(queue, mergeset, selected_parent_past),
    match queue with
    | [] => mret (inr mergeset)
    | current :: queue =>
        current_parents ← unwrap (get_parents (relations_store self) current);
        st ← ofold (mergeset_parent selected_parent) (queue, mergeset, selected_parent_past)
               current_parents;
        mret (inl st)
    end) st.

Definition ordered_mergeset_without_selected_parent (selected_parent : Hash) (parents : list Hash)
    : outcome E (list Hash) :=
  let queue := filter (λ p, p ≠ selected_parent) parents in
  mergeset ← mergeset_loop selected_parent (queue, list_to_set queue, ∅);
  sort_blocks mergeset.

(** ** [protocol.rs] *)

Record ChainBlock : Type := mkChainBlock { cb_hash : option Hash; cb_data : GhostdagData }.
Inductive ColoringState : Type := StateBlue | StateRed | StatePending.
Inductive ColoringOutput : Type :=
| OutputBlue (blue_anticone_size : Z) (blues_anticone_sizes : gmap Hash Z)
| OutputRed.

Definition blue_anticone_size (block : Hash) (context : GhostdagData) : outcome E Z :=
  oloop fuel (λ '(current_blues_anticone_sizes, current_selected_parent),
    match (current_blues_anticone_sizes : gmap Hash Z) !! block with
    | Some size => mret (inr size)
    | None =>
        if bool_decide (current_selected_parent = genesis_hash self)
           || bool_decide (current_selected_parent = Hashes.ORIGIN)
        then Panic
        else
          sizes ← unwrap (get_blues_anticone_sizes (ghostdag_store self) current_selected_parent);
          parent ← unwrap (get_selected_parent (ghostdag_store self) current_selected_parent);
          mret (inl (sizes, parent))
    end) (blues_anticone_sizes context, selected_parent context).

(** The loop over the blues of a chain block; the two mutable references are
    threaded. *)
Fixpoint check_blues (new_block_data : GhostdagData) (blue_candidate : Hash) (blues : list Hash)
    (sizes : gmap Hash Z) (size : Z) : outcome E (ColoringState * gmap Hash Z * Z) :=
  match blues with
  | [] => mret (StatePending, sizes, size)
  | block :: blues' =>
      b ← is_dag_ancestor block blue_candidate;
      if b : bool then check_blues new_block_data blue_candidate blues' sizes size
      else
        s ← blue_anticone_size block new_block_data;
        let sizes := <[block := s]> sizes in
        size ← ktype_add size 1;
        if k self <? size then mret (StateRed, sizes, size)
        else if s =? k self then mret (StateRed, sizes, size)
        else
          assert (s <=? k self);;
          check_blues new_block_data blue_candidate blues' sizes size
  end.

Definition check_blue_candidate_with_chain_block (new_block_data : GhostdagData)
    (chain_block : ChainBlock) (blue_candidate : Hash) (sizes : gmap Hash Z) (size : Z)
    : outcome E (ColoringState * gmap Hash Z * Z) :=
  early ← match cb_hash chain_block with
          | Some hash => is_dag_ancestor hash blue_candidate
          | None => mret false
          end;
  if early : bool then mret (StateBlue, sizes, size)
  else check_blues new_block_data blue_candidate (mergeset_blues (cb_data chain_block)) sizes size.

Definition check_blue_candidate (new_block_data : GhostdagData) (blue_candidate : Hash)
    : outcome E ColoringOutput :=
  k1 ← ktype_add (k self) 1;
  if Z.of_nat (length (mergeset_blues new_block_data)) mod 256 =? k1 then mret OutputRed
  else
    oloop fuel (λ '(chain_block, sizes, size),
      '(state, sizes, size) ←
        check_blue_candidate_with_chain_block new_block_data chain_block blue_candidate sizes size;
      match state with
      | StateBlue => mret (inr (OutputBlue size sizes))
      | StateRed => mret (inr OutputRed)
      | StatePending =>
          let parent := selected_parent (cb_data chain_block) in
          data ← unwrap (get_gd_data (ghostdag_store self) parent);
          mret (inl (mkChainBlock (Some parent) data, sizes, size))
      end) (mkChainBlock None new_block_data, ∅, 0).

(** One turn of the colouring loop. *)
Definition color (new_block_data : GhostdagData) (blue_candidate : Hash) : outcome E GhostdagData :=
  coloring ← check_blue_candidate new_block_data blue_candidate;
  match coloring with
  | OutputBlue size sizes => add_blue new_block_data blue_candidate size sizes
  | OutputRed => mret (add_red new_block_data blue_candidate)
  end.

(** The work of a block, and the checked additions of [BlueWorkType]. *)
Definition work_of_block (hash : Hash) : outcome E Uint.Uint :=
  bits ← unwrap (get_bits (headers_store self) hash); calc_work bits.
Definition work_add (a b : Z) : outcome E Z := checked (2 ^ 192 - 1) (a + b).

Definition ghostdag (parents : list Hash) : outcome E GhostdagData :=
  assert (negb (bool_decide (parents = [])));;
  selected_parent ← find_selected_parent parents;
  new_block_data ← new_with_selected_parent selected_parent (k self);
  ordered_mergeset ← ordered_mergeset_without_selected_parent selected_parent parents;
  new_block_data ← ofold color new_block_data ordered_mergeset;
  sp_score ← unwrap (get_blue_score (ghostdag_store self) selected_parent);
  blue_score ← add64 sp_score (Z.of_nat (length (mergeset_blues new_block_data)));
  works ← omap_each work_of_block (mergeset_blues new_block_data);
  added_blue_work ← Uint.sum LIMBS_192 works;
  sp_work ← unwrap (get_blue_work (ghostdag_store self) selected_parent);
  blue_work ← work_add sp_work (Uint.val added_blue_work);
  mret (finalize_score_and_work new_block_data blue_score blue_work).
End protocol.
