(* ===== verification/GhostdagInv.v ===== *)
(** * The invariant of the GHOSTDAG data

    [gd_dag] relates the DAG of blocks to the GHOSTDAG data stored for them: blue
    work grows along the DAG, and the blue set of every block is a k-cluster whose
    anticone sizes are the recorded ones.  The lemmas are the facts about the DAG
    that the protocol relies on. *)

From S2P Require Import Prelude Hash Interval Uint Target ReachStore ReachTree ReachMain ReachService Relations Headers GhostdagStore Ghostdag.

(** ** The invariant *)

Abbreviation GdMap := (gmap Hash GhostdagData).

(** The blue set of a block's data: its own blues and those of its selected chain;
    [hs] is that chain. *)
Inductive blues (m : GdMap) : GhostdagData → list Hash → list Hash → Prop :=
| blues_end d : selected_parent d = Hashes.ORIGIN → blues m d [] (mergeset_blues d)
| blues_step d d' hs l :
    m !! selected_parent d = Some d' → blues m d' hs l →
    blues m d (selected_parent d :: hs) (mergeset_blues d ++ l).

(** The blue anticone size recorded for [b] in the world of [d]: the entry nearest
    on the selected chain. *)
Inductive blue_size (m : GdMap) (b : Hash) : GhostdagData → Z → Prop :=
| bsize_here d z : blues_anticone_sizes d !! b = Some z → blue_size m b d z
| bsize_next d d' z :
    blues_anticone_sizes d !! b = None → m !! selected_parent d = Some d' →
    blue_size m b d' z → blue_size m b d z.

(** [A] lists the blocks of [l] in the anticone of [b]. *)
Definition anticone (P : Dag) (l : list Hash) (b : Hash) (A : list Hash) : Prop :=
  NoDup A ∧ ∀ c, c ∈ A ↔ c ∈ l ∧ ¬ ancestor P c b ∧ ¬ ancestor P b c.

(** The blue set is a k-cluster with the recorded anticone sizes. *)
Record colored (P : Dag) (m : GdMap) (k : Z) (d : GhostdagData) (hs l : list Hash) : Prop := {
  co_blues : blues m d hs l;
  co_nodup : NoDup l;
  co_size : ∀ b, b ∈ l → ∃ A, anticone P l b A ∧ blue_size m b d (Z.of_nat (length A))
    ∧ Z.of_nat (length A) ≤ k;
}.

(** The mergeset of a block with parents [ps] and selected parent [sp]. *)
Definition merged (P : Dag) (ps : list Hash) (sp x : Hash) : Prop :=
  (∃ p, p ∈ ps ∧ ancestor P x p) ∧ ¬ ancestor P x sp.

(** The data [d] is right for a block with parents [ps]. *)
Record gd_block (P : Dag) (m : GdMap) (k : Z) (ps : list Hash) (d : GhostdagData) : Prop := {
  gb_parents : ∀ p, p ∈ ps → is_Some (m !! p);
  gb_selected : selected_parent d ∈ ps;
  gb_work : ∀ p, p ∈ ps → work_of m p < blue_work d;
  gb_past : ∀ b, b ∈ mergeset_blues d → is_Some (m !! b) ∧ ∃ p, p ∈ ps ∧ ancestor P b p;
  gb_colored : ∃ hs l, colored P m k d hs l;
  gb_max : ∀ p, p ∈ ps → sb_le (as_sortable m p) (as_sortable m (selected_parent d));
  gb_order : mergeset_ok m d;
  gb_merged : ∀ x, x ∈ unordered_mergeset_without_selected_parent d ↔ merged P ps (selected_parent d) x;
  gb_split : ∀ x p, p ∈ ps → ancestor P x p →
    ancestor P x (selected_parent d) ∨ x ∈ unordered_mergeset_without_selected_parent d;
  gb_head : ∃ bs, mergeset_blues d = selected_parent d :: bs;
  gb_score : ∀ dsp, m !! selected_parent d = Some dsp →
    blue_score d = blue_score dsp + Z.of_nat (length (mergeset_blues d));
}.

Record gd_dag (P : Dag) (m : GdMap) (g : Hash) (k : Z) : Prop := {
  gd_closed : closed P;
  gd_origin : P !! Hashes.ORIGIN = Some [];
  gd_genesis : P !! g = Some [Hashes.ORIGIN];
  gd_genesis_data : m !! g = Some genesis_ghostdag_data;
  gd_dom : ∀ h, is_Some (m !! h) ↔ h ≠ Hashes.ORIGIN ∧ is_Some (P !! h);
  gd_root : ∀ h, is_Some (m !! h) → ancestor P g h;
  gd_blocks : ∀ h ps d, P !! h = Some ps → m !! h = Some d → h ≠ g → gd_block P m k ps d;
}.

Section dag.
Context (P : Dag) (m : GdMap) (g : Hash) (k : Z) (HG : gd_dag P m g k).

Lemma ancestor_trans x y z : ancestor P x y → ancestor P y z → ancestor P x z.
Proof using. intros Hxy. induction 1; [done|]. econstructor; eauto. Qed.

Lemma origin_unknown : m !! Hashes.ORIGIN = None.
Proof using HG. destruct (m !! Hashes.ORIGIN) eqn:Ho; [|done]. by destruct (proj1 (gd_dom _ _ _ _ HG Hashes.ORIGIN)) as [[] _]; eauto. Qed.

Lemma origin_ancestor x : ancestor P x Hashes.ORIGIN → x = Hashes.ORIGIN.
Proof using HG.
  pose proof (gd_origin _ _ _ _ HG) as Ho. revert Ho. generalize Hashes.ORIGIN. intros o Ho Ha.
  inversion Ha as [|? ps p Hps Hp]; [done|]. rewrite Ho in Hps. injection Hps as <-. by apply elem_of_nil in Hp.
Qed.

(** A known block is not reached from the origin. *)
Lemma known_past x p : is_Some (m !! x) → is_Some (P !! p) → ancestor P x p → is_Some (m !! p).
Proof using HG.
  intros Hx Hp Ha. apply (gd_dom _ _ _ _ HG). split; [|done]. intros Ho. rewrite Ho in Ha.
  apply origin_ancestor in Ha. rewrite Ha, origin_unknown in Hx. by destruct Hx.
Qed.

Lemma known_dag h : is_Some (m !! h) → is_Some (P !! h).
Proof using HG. intros Hh. by apply (gd_dom _ _ _ _ HG) in Hh as [_ ?]. Qed.

Lemma parents_of h d : m !! h = Some d → ∃ ps, P !! h = Some ps.
Proof using HG. intros Hd. destruct (known_dag h) as [ps ?]; eauto. Qed.

Lemma work_of_data h d : m !! h = Some d → work_of m h = blue_work d.
Proof using. intros Hd. unfold work_of. by rewrite Hd. Qed.

(** A parent other than the origin is a block with less work. *)
Lemma parent_work h ps p : P !! h = Some ps → is_Some (m !! h) → p ∈ ps → p ≠ Hashes.ORIGIN →
  is_Some (m !! p) ∧ work_of m p < work_of m h.
Proof using HG.
  intros Hps [d Hd] Hp Hpo. destruct (decide (h = g)) as [->|Hg].
  { rewrite (gd_genesis _ _ _ _ HG) in Hps. simplify_eq. by apply list_elem_of_singleton in Hp. }
  pose proof (gd_blocks _ _ _ _ HG h ps d Hps Hd Hg) as Hb. split; [by apply (gb_parents _ _ _ _ _ Hb)|].
  rewrite (work_of_data h d Hd). by apply (gb_work _ _ _ _ _ Hb).
Qed.

(** Blue work grows along the DAG. *)
Lemma ancestor_work x y : ancestor P x y → is_Some (m !! x) → is_Some (m !! y) →
  x = y ∨ work_of m x < work_of m y.
Proof using HG.
  intros Ha Hx. induction Ha as [|y ps p Hps Hp Ha IH]; intros Hy; [by left|]. right.
  destruct (decide (p = Hashes.ORIGIN)) as [->|Hpo].
  { inversion Ha as [|? qs q Hq Hin _]; subst.
    - rewrite origin_unknown in Hx. by destruct Hx.
    - rewrite (gd_origin _ _ _ _ HG) in Hq. simplify_eq. by apply elem_of_nil in Hin. }
  destruct (parent_work y ps p Hps Hy Hp Hpo) as [Hpm Hlt]. destruct (IH Hpm) as [->|]; lia.
Qed.

Lemma ancestor_antisym x y : is_Some (m !! x) → is_Some (m !! y) →
  ancestor P x y → ancestor P y x → x = y.
Proof using HG.
  intros Hx Hy H1 H2. destruct (ancestor_work x y H1 Hx Hy) as [?|?]; [done|].
  destruct (ancestor_work y x H2 Hy Hx) as [?|?]; [done|]. lia.
Qed.

(** The genesis ends every selected chain. *)
Lemma genesis_end d : m !! g = Some d →
  m !! selected_parent d = None ∧ mergeset_blues d = [] ∧ blues_anticone_sizes d = ∅ ∧ work_of m (selected_parent d) = blue_work d.
Proof using HG.
  intros Hd. rewrite (gd_genesis_data _ _ _ _ HG) in Hd. injection Hd as <-.
  assert (m !! selected_parent genesis_ghostdag_data = None) as Ho by apply origin_unknown.
  split_and!; [done..|]. unfold work_of. by rewrite Ho.
Qed.

(** The selected parent of a stored block that is not the genesis is stored. *)
Lemma selected_known h d : m !! h = Some d → h ≠ g →
  ∃ d', m !! selected_parent d = Some d' ∧ ancestor P (selected_parent d) h
    ∧ work_of m (selected_parent d) < blue_work d.
Proof using HG.
  intros Hd Hg. destruct (parents_of h d Hd) as [ps Hps].
  pose proof (gd_blocks _ _ _ _ HG h ps d Hps Hd Hg) as Hb.
  pose proof (gb_selected _ _ _ _ _ Hb) as Hsel. destruct (gb_parents _ _ _ _ _ Hb _ Hsel) as [d' Hd'].
  exists d'. split_and!; [done| |by apply (gb_work _ _ _ _ _ Hb)].
  econstructor; [exact Hps|exact Hsel|constructor].
Qed.

(** The blue set of a stored block is in its strict past. *)
Lemma own_blues_past h d b : m !! h = Some d → b ∈ mergeset_blues d →
  ancestor P b h ∧ is_Some (m !! b) ∧ work_of m b < work_of m h.
Proof using HG.
  intros Hd Hb. destruct (decide (h = g)) as [->|Hg].
  { destruct (genesis_end d Hd) as (_ & He & _). rewrite He in Hb. by apply elem_of_nil in Hb. }
  destruct (parents_of h d Hd) as [ps Hps]. pose proof (gd_blocks _ _ _ _ HG h ps d Hps Hd Hg) as Hgb.
  destruct (gb_past _ _ _ _ _ Hgb b Hb) as (Hbm & p & Hp & Ha). split_and!; [by econstructor|done|].
  pose proof (gb_parents _ _ _ _ _ Hgb p Hp) as Hpm. pose proof (gb_work _ _ _ _ _ Hgb p Hp).
  rewrite (work_of_data h d Hd). destruct (ancestor_work b p Ha Hbm Hpm) as [->|]; lia.
Qed.

Lemma blues_past d hs l : blues m d hs l → ∀ h, m !! h = Some d → ∀ b, b ∈ l →
  ancestor P b h ∧ is_Some (m !! b) ∧ work_of m b < work_of m h.
Proof using HG.
  induction 1 as [d Hsel|d d' hs l Hsel _ IH]; intros h Hd b Hb; [by eapply own_blues_past|].
  apply elem_of_app in Hb as [Hb|Hb]; [by eapply own_blues_past|].
  destruct (IH _ Hsel b Hb) as (Ha & Hbm & Hlt).
  destruct (decide (h = g)) as [->|Hg]; [destruct (genesis_end d Hd) as (He & _); congruence|].
  destruct (selected_known h d Hd Hg) as (? & _ & Ha' & Hlt').
  split_and!; [by eapply ancestor_trans|done|]. rewrite (work_of_data h d Hd). lia.
Qed.

(** Every stored block is coloured, the genesis trivially. *)
Lemma stored_colored h d : m !! h = Some d → ∃ hs l, colored P m k d hs l.
Proof using HG.
  intros Hd. destruct (decide (h = g)) as [->|Hg].
  - exists [], []. rewrite (gd_genesis_data _ _ _ _ HG) in Hd. injection Hd as <-.
    split; [by apply blues_end|constructor|]. intros b Hb. by apply elem_of_nil in Hb.
  - destruct (parents_of h d Hd) as [ps Hps]. apply (gb_colored _ _ _ _ _ (gd_blocks _ _ _ _ HG h ps d Hps Hd Hg)).
Qed.

(** The selected chain has no repetition, so it is no longer than the store. *)
Lemma chain_decreasing d hs l : blues m d hs l → ∀ h, h ∈ hs →
  is_Some (m !! h) ∧ work_of m h ≤ work_of m (selected_parent d).
Proof using HG.
  induction 1 as [|d d' hs l Hd' _ IH]; intros h Hh; [by apply elem_of_nil in Hh|].
  apply elem_of_cons in Hh as [->|Hh]; [split; [eauto|lia]|].
  destruct (IH h Hh) as [? Hle]. split; [done|]. destruct (decide (selected_parent d = g)) as [Hg|Hg].
  - rewrite (work_of_data _ _ Hd'). rewrite Hg in Hd'. destruct (genesis_end d' Hd') as (_ & _ & _ & He). lia.
  - destruct (selected_known _ _ Hd' Hg) as (? & _ & _ & Hlt). rewrite (work_of_data _ _ Hd'). lia.
Qed.

Lemma chain_nodup d hs l : blues m d hs l → NoDup hs.
Proof using HG.
  induction 1 as [|d d' hs l Hd' Hb IH]; constructor; [|done]. intros Hin.
  destruct (chain_decreasing _ _ _ Hb _ Hin) as [_ Hle].
  destruct (decide (selected_parent d = g)) as [Hg|Hg].
  - rewrite Hg in Hd'. destruct (genesis_end d' Hd') as (He & _).
    inversion Hb as [|? ? ? ? Hs]; subst; [by apply elem_of_nil in Hin|congruence].
  - destruct (selected_known _ _ Hd' Hg) as (? & _ & _ & Hlt). rewrite (work_of_data _ _ Hd') in Hle. lia.
Qed.

Lemma chain_length d hs l : blues m d hs l → (length hs ≤ size m)%nat.
Proof using HG.
  intros Hb. rewrite <- (size_dom (D:=gset Hash) m), <- (size_list_to_set (C:=gset Hash)) by by eapply chain_nodup.
  apply subseteq_size. intros h Hh. apply elem_of_list_to_set in Hh. apply elem_of_dom.
  by apply (chain_decreasing _ _ _ Hb).
Qed.
End dag.
