(* ===== verification/GhostdagMerge.v ===== *)
(** * The mergeset of a block

    [find_selected_parent], [ordered_mergeset_without_selected_parent] and
    [sort_blocks]: the selected parent is the parent of greatest blue work, and the
    mergeset is the part of the past of the new block that is not in the past of
    the selected parent, each block once, in ascending order of blue work. *)

From S2P Require Import Prelude Hash Interval Uint Target ReachStore ReachTree ReachMain ReachService Relations Headers GhostdagStore Ghostdag GhostdagInv.

(** What the components that the manager reads promise about the DAG [P] and the
    GHOSTDAG data [m]. *)
Record manager_ok {T R U V} `{GhostdagStoreLaws T} `{RelationsStoreReader R} `{ReachabilityService U}
    `{HeaderStoreReader V} (self : @GhostdagManager T R U V) (P : Dag) (m : GdMap) : Prop := {
  mk_ok : gd_ok (ghostdag_store self);
  mk_abs : gd_abs (ghostdag_store self) = m;
  mk_relations : ∀ h ps, P !! h = Some ps → get_parents (relations_store self) h = Ok ps;
  mk_service : ServiceLaws (reachability_service self) P;
  mk_dag : gd_dag P m (genesis_hash self) (k self);
}.

(** The parents that header validation lets through: known blocks, no two of which
    are related (a block may be listed twice). *)
Record parents_ok (P : Dag) (m : GdMap) (ps : list Hash) : Prop := {
  pk_nonempty : ps ≠ [];
  pk_known : ∀ p, p ∈ ps → is_Some (m !! p);
  pk_antichain : ∀ p q, p ∈ ps → q ∈ ps → ancestor P p q → p = q;
}.

(** ** Selection by order *)

Lemma strict_sorted l : StronglySorted sb_le l → NoDup l → StronglySorted sb_lt l.
Proof.
  induction 1 as [|x l Hl IH Hx]; intros Hnd; constructor; apply NoDup_cons in Hnd as [Hin Hnd]; [auto|].
  rewrite Forall_forall in *. intros y Hy. destruct (proj1 (sb_le_lteq x y) (Hx y Hy)) as [?| ->]; done.
Qed.

Lemma max_from_ok best l : max_from best l ∈ best :: l ∧ ∀ x, x ∈ best :: l → sb_le x (max_from best l).
Proof.
  revert best. induction l as [|y l IH]; intros best; simpl.
  { split; [left|]. intros x Hx%list_elem_of_singleton. subst x. apply sb_le_lteq. by right. }
  set (b := match sb_cmp best y with Gt => best | _ => y end).
  assert (b ∈ [best; y] ∧ sb_le best b ∧ sb_le y b) as (Hb & H1 & H2).
  { subst b. pose proof (sb_le_total best y) as Ht. unfold sb_le in *. destruct (sb_cmp best y) eqn:Hc;
      (split; [set_solver|]); split; try done; try (by rewrite Hc); try (apply sb_le_lteq; by right);
      destruct Ht; done. }
  destruct (IH b) as [Hin Hmax]. split.
  - apply elem_of_cons in Hin as [Hin|Hin]; [rewrite Hin; set_solver|set_solver].
  - intros x Hx. assert (sb_le b (max_from b l)) as Hbm by (apply Hmax; left).
    apply elem_of_cons in Hx as [->|[->|Hx]%elem_of_cons].
    + by transitivity b.
    + by transitivity b.
    + apply Hmax. by right.
Qed.

Section mergeset.
Context {E T R U V : Type} `{GhostdagStoreLaws T} `{RelationsStoreReader R}
  `{ReachabilityService U} `{HeaderStoreReader V} (fuel : nat).
Context (self : @GhostdagManager T R U V) (P : Dag) (m : GdMap) (HM : manager_ok self P m).

Lemma manager_sortable h : is_Some (m !! h) →
  sortable (E:=E) (ghostdag_store self) h = Ok (as_sortable m h).
Proof using HM. destruct HM as [Hok <- _ _ _]. by apply sortable_ok. Qed.

Lemma find_selected_parent_ok ps : ps ≠ [] → (∀ p, p ∈ ps → is_Some (m !! p)) →
  ∃ sp, find_selected_parent (E:=E) self ps = Ok sp ∧ sp ∈ ps
    ∧ ∀ p, p ∈ ps → sb_le (as_sortable m p) (as_sortable m sp).
Proof using HM.
  intros Hne Hk. unfold find_selected_parent.
  rewrite (omap_each_ok _ (as_sortable m)) by (intros; by apply manager_sortable, Hk).
  destruct ps as [|p ps]; [done|]. cbn [mbind outcome_bind fmap list_fmap max_of unwrap_opt mret outcome_ret].
  destruct (max_from_ok (as_sortable m p) (as_sortable m <$> ps)) as [Hin Hmax].
  change (as_sortable m p :: (as_sortable m <$> ps)) with (as_sortable m <$> p :: ps) in Hin, Hmax.
  apply list_elem_of_fmap in Hin as (q & Hq & Hin). exists q. rewrite Hq. split_and!; [done|done|].
  intros p' Hp'. rewrite <- Hq. apply Hmax. by apply list_elem_of_fmap_2.
Qed.

Lemma sort_blocks_ok ms : (∀ x, x ∈ ms → is_Some (m !! x)) →
  ∃ oms, sort_blocks (E:=E) self ms = Ok oms ∧ (∀ x, x ∈ oms ↔ x ∈ ms)
    ∧ StronglySorted sb_lt (as_sortable m <$> oms).
Proof using HM.
  intros Hk. unfold sort_blocks.
  rewrite (omap_each_ok _ (as_sortable m)) by (intros x Hx%elem_of_elements; by apply manager_sortable, Hk).
  cbn [mbind outcome_bind mret outcome_ret]. set (keys := as_sortable m <$> elements ms).
  pose proof (merge_sort_Permutation sb_le keys) as Hperm.
  assert (∀ sb, sb ∈ merge_sort sb_le keys → as_sortable m (sb_hash sb) = sb) as Hkey.
  { intros sb Hsb. rewrite Hperm in Hsb. apply list_elem_of_fmap in Hsb as (x & -> & _). done. }
  exists (map sb_hash (merge_sort sb_le keys)). split; [done|]. split.
  - intros x. change (map sb_hash) with (fmap (M:=list) sb_hash). rewrite Hperm. unfold keys.
    rewrite <- list_fmap_compose. rewrite list_elem_of_fmap. setoid_rewrite elem_of_elements.
    split; [by intros (y & -> & ?)|]. intros. by exists x.
  - change (map sb_hash) with (fmap (M:=list) sb_hash). rewrite <- list_fmap_compose.
    rewrite (fmap_self (as_sortable m ∘ sb_hash) _ Hkey). apply strict_sorted.
    + apply Sorted_StronglySorted; [exact _|]. apply Sorted_merge_sort. exact _.
    + rewrite Hperm. unfold keys. apply NoDup_fmap_2; [|apply NoDup_elements]. by intros ?? [=].
Qed.

(** ** The breadth-first search *)

Context (ps : list Hash) (sp : Hash) (HP : parents_ok P m ps) (Hsp : sp ∈ ps).

Lemma mk_known h : is_Some (m !! h) → is_Some (P !! h).
Proof using HM. apply (known_dag _ _ _ _ (mk_dag _ _ _ HM)). Qed.

Lemma service_ancestor x y : is_Some (P !! x) → is_Some (P !! y) →
  ∃ b, is_dag_ancestor (E:=E) self x y = Ok b ∧ (b = true ↔ ancestor P x y).
Proof using HM.
  intros Hx Hy. pose proof (mk_service _ _ _ HM) as HS. unfold is_dag_ancestor.
  destruct (sl_dag x y Hx Hy) as (b & -> & Hb). by exists b.
Qed.

(** A block of the mergeset is stored: the origin is in the past of everything. *)
Lemma merged_known x : merged P ps sp x → is_Some (m !! x).
Proof using HM HP Hsp.
  intros [(p & Hp & Ha) Hn]. pose proof (mk_dag _ _ _ HM) as HG.
  apply (gd_dom _ _ _ _ HG). split.
  - intros ->. apply Hn. eapply ancestor_trans; [|by apply (gd_root _ _ _ _ HG), (pk_known _ _ _ HP)].
    econstructor; [apply (gd_genesis _ _ _ _ HG)|left|constructor].
  - eapply ancestor_known; [apply (gd_closed _ _ _ _ HG)|by apply mk_known, (pk_known _ _ _ HP)|done].
Qed.

Lemma merged_parent x qs q : merged P ps sp x → P !! x = Some qs → q ∈ qs → ¬ ancestor P q sp →
  merged P ps sp q.
Proof using.
  intros [(p & Hp & Ha) _] Hqs Hq Hn. split; [|done]. exists p. split; [done|].
  eapply ancestor_trans; [|done]. econstructor; [done|done|constructor].
Qed.

Lemma other_parent p : p ∈ ps → p ≠ sp → merged P ps sp p.
Proof using HP Hsp.
  intros Hp Hne. split; [exists p; split; [done|constructor]|]. intros Ha. by apply Hne, (pk_antichain _ _ _ HP).
Qed.

(** The inner loop: the parents that are neither known to be merged nor in the past
    of the selected parent are appended. *)
Lemma mergeset_parents_ok qs q ms past :
  (∀ x, x ∈ qs → is_Some (P !! x)) → (∀ x, x ∈ past → ancestor P x sp) →
  ∃ new past', ofold (mergeset_parent (E:=E) self sp) (q, ms, past) qs = Ok (q ++ new, list_to_set new ∪ ms, past')
    ∧ NoDup new ∧ (∀ x, x ∈ new → x ∈ qs ∧ (x ∉ ms) ∧ ¬ ancestor P x sp)
    ∧ (∀ x, x ∈ past' → ancestor P x sp)
    ∧ (∀ x, x ∈ qs → x ∈ new ∨ x ∈ ms ∨ ancestor P x sp).
Proof using HM HP Hsp.
  revert q ms past. induction qs as [|y qs IH]; intros q ms past Hqs Hpast.
  { exists [], past. cbn [ofold mret outcome_ret]. rewrite app_nil_r.
    split_and!; [|constructor|set_solver|done|set_solver]. do 3 f_equal. set_solver. }
  assert (∀ x, x ∈ qs → is_Some (P !! x)) as Hqs' by (intros; apply Hqs; by right).
  cbn [ofold]. unfold mergeset_parent at 2. destruct (bool_decide_reflect (y ∈ ms)) as [Hy|Hy];
    cbn [mbind outcome_bind mret outcome_ret].
  { destruct (IH q ms past Hqs' Hpast) as (new & past' & -> & ? & ? & ? & ?). exists new, past'. set_solver. }
  destruct (bool_decide_reflect (y ∈ past)) as [Hyp|Hyp]; cbn [mbind outcome_bind mret outcome_ret].
  { destruct (IH q ms past Hqs' Hpast) as (new & past' & -> & ? & ? & ? & ?). exists new, past'. set_solver. }
  destruct (service_ancestor y sp) as (b & Hb & Hiff); [apply Hqs; left|by apply mk_known, (pk_known _ _ _ HP)|].
  rewrite Hb. cbn [mbind outcome_bind]. destruct b; cbn [mbind outcome_bind mret outcome_ret].
  - destruct (IH q ms ({[y]} ∪ past) Hqs') as (new & past' & -> & ? & ? & ? & ?).
    { intros x [->%elem_of_singleton|Hx]%elem_of_union; [by apply Hiff|auto]. }
    exists new, past'. pose proof (proj1 Hiff eq_refl). split_and!; [done|done|set_solver|done|].
    intros x [->|Hx]%elem_of_cons; [auto|auto].
  - assert (¬ ancestor P y sp) as Hny by (intros Ha; apply Hiff in Ha; done).
    destruct (IH (q ++ [y]) ({[y]} ∪ ms) past Hqs' Hpast) as (new & past' & -> & Hnd & Hnew & ? & Hall).
    exists (y :: new), past'. split_and!.
    + rewrite <- app_assoc. do 3 f_equal. set_solver.
    + constructor; [|done]. intros Hin. destruct (Hnew y Hin) as (_ & Hin' & _). set_solver.
    + intros x [->|Hx]%elem_of_cons; [split_and!; [left|done|done]|]. destruct (Hnew x Hx) as (? & ? & ?).
      split_and!; [by right|set_solver|done].
    + done.
    + intros x [->|Hx]%elem_of_cons; [left; left|]. destruct (Hall x Hx) as [?|[Hin|?]]; [left; by right| |auto].
      apply elem_of_union in Hin as [->%elem_of_singleton|?]; [left; left|auto].
Qed.

(** The search: what is queued is merged, and the parents of what left the queue are
    merged or in the past of the selected parent. *)
Record searching (n : nat) (st : MergesetState) : Prop := {
  se_queue : ∀ x, x ∈ st.1.1 → x ∈ st.1.2;
  se_merged : ∀ x, x ∈ st.1.2 → merged P ps sp x;
  se_past : ∀ x, x ∈ st.2 → ancestor P x sp;
  se_start : ∀ p, p ∈ ps → p ≠ sp → p ∈ st.1.2;
  se_done : ∀ x qs q, x ∈ st.1.2 → (x ∉ st.1.1) → P !! x = Some qs → q ∈ qs →
    q ∈ st.1.2 ∨ ancestor P q sp;
  se_measure : n = (length st.1.1 + (size m - size st.1.2))%nat;
}.

Lemma merged_bound (ms : gset Hash) : (∀ x, x ∈ ms → merged P ps sp x) → (size ms ≤ size m)%nat.
Proof using HM HP Hsp.
  intros Hms. rewrite <- (size_dom (D:=gset Hash) m). apply subseteq_size. intros x Hx.
  by apply elem_of_dom, merged_known, Hms.
Qed.

Lemma search_complete ms past n : searching n ([], ms, past) → ∀ x, x ∈ ms ↔ merged P ps sp x.
Proof using HM HP Hsp.
  intros [_ Hm _ Hst Hdone _] x. cbn in *. split; [apply Hm|]. intros [(p & Hp & Ha) Hn].
  assert (p ≠ sp) as Hne by (intros ->; done). specialize (Hst p Hp Hne). clear Hp Hne.
  induction Ha as [|y qs q Hq Hin Ha IH]; [done|].
  apply IH. destruct (Hdone y qs q Hst (not_elem_of_nil _) Hq Hin) as [?|Hs]; [done|].
  destruct Hn. by eapply ancestor_trans.
Qed.

Lemma mergeset_loop_ok : (length ps + size m < fuel)%nat →
  let queue := filter (λ p, p ≠ sp) ps in
  ∃ ms, mergeset_loop (E:=E) fuel self sp (queue, list_to_set queue, ∅) = Ok ms
    ∧ ∀ x, x ∈ ms ↔ merged P ps sp x.
Proof using HM HP Hsp.
  intros Hf queue. set (ms0 := list_to_set queue : gset Hash).
  assert (∀ x, x ∈ queue ↔ x ∈ ps ∧ x ≠ sp) as Hq by (intros x; unfold queue; rewrite list_elem_of_filter; tauto).
  assert (∀ x, x ∈ ms0 → merged P ps sp x) as Hms0.
  { intros x Hx%elem_of_list_to_set. apply Hq in Hx as [? ?]. by apply other_parent. }
  assert (length queue ≤ length ps)%nat as Hlen by apply length_filter.
  eapply (oloop_ok searching _ _ fuel (length queue + (size m - size ms0))); [|split; cbn|lia].
  - intros n [[[|x queue1] ms] past] Hs.
    { exists (inr ms). split; [done|]. by eapply search_complete. }
    destruct Hs as [Hqu Hm Hpa Hst Hdone Hn]. cbn in *.
    assert (x ∈ ms) as Hx by (apply Hqu; left).
    destruct (mk_known x (merged_known x (Hm x Hx))) as [qs Hqs].
    rewrite (mk_relations _ _ _ HM x qs Hqs). cbn [unwrap mbind outcome_bind].
    destruct (mergeset_parents_ok qs queue1 ms past) as (new & past' & -> & Hnd & Hnew & Hpa' & Hall); [|done|].
    { intros y Hy. by eapply (gd_closed _ _ _ _ (mk_dag _ _ _ HM)). }
    eexists. split; [done|]. cbn [mbind outcome_bind mret outcome_ret].
    assert (∀ y, y ∈ list_to_set new ∪ ms → merged P ps sp y) as Hm'.
    { intros y [Hy%elem_of_list_to_set|Hy]%elem_of_union; [|auto]. destruct (Hnew y Hy) as (? & _ & ?).
      eapply merged_parent; eauto. }
    eexists. split; [split; cbn|].
    + intros y [Hy|Hy]%elem_of_app; [|set_solver]. apply elem_of_union_r, Hqu. by right.
    + done.
    + done.
    + intros p Hp Hne. apply elem_of_union_r. auto.
    + intros y qs' q Hy Hny Hqs' Hqi. destruct (decide (y = x)) as [->|Hne].
      * simplify_eq. destruct (Hall q Hqi) as [?|[?|?]]; [left|left|by right]; set_solver.
      * apply elem_of_union in Hy as [Hy%elem_of_list_to_set|Hy]; [set_solver|].
        destruct (Hdone y qs' q Hy) as [?|?]; [set_solver|done|done|left; set_solver|by right].
    + done.
    + pose proof (merged_bound _ Hm') as Hb. rewrite size_union, size_list_to_set in * by set_solver.
      rewrite length_app. simpl in Hn. lia.
  - intros x Hx. by apply elem_of_list_to_set.
  - done.
  - set_solver.
  - intros p Hp Hne. apply elem_of_list_to_set, Hq. done.
  - intros x qs q Hx%elem_of_list_to_set. done.
  - done.
Qed.

(** The mergeset, in order. *)
Lemma ordered_mergeset_ok : (length ps + size m < fuel)%nat →
  ∃ oms, ordered_mergeset_without_selected_parent (E:=E) fuel self sp ps = Ok oms
    ∧ (∀ x, x ∈ oms ↔ merged P ps sp x) ∧ StronglySorted sb_lt (as_sortable m <$> oms).
Proof using HM HP Hsp.
  intros Hf. unfold ordered_mergeset_without_selected_parent.
  destruct (mergeset_loop_ok Hf) as (ms & -> & Hms). cbn [mbind outcome_bind].
  destruct (sort_blocks_ok ms) as (oms & -> & Hin & Hsort).
  { intros x Hx. by apply merged_known, Hms. }
  exists oms. split_and!; [done| |done]. intros x. by rewrite Hin.
Qed.
End mergeset.
