(* ===== verification/GhostdagColor.v ===== *)
(** * Colouring

    [check_blue_candidate], [blue_anticone_size] and [add_blue]: a candidate is
    coloured blue exactly when the two conditions of the protocol hold, and the
    recorded anticone sizes stay right. *)

From S2P Require Import Prelude Hash Interval Uint Target ReachStore ReachTree ReachMain ReachService Relations Headers GhostdagStore Ghostdag GhostdagInv GhostdagMerge.

(** ** Anticones *)

Lemma anticone_length P l b A B : anticone P l b A → anticone P l b B → length A = length B.
Proof.
  intros [HA1 HA2] [HB1 HB2]. apply Permutation_length, NoDup_Permutation; [done..|].
  intros x. by rewrite HA2, HB2.
Qed.

Lemma anticone_incl P l b A X : anticone P l b A → NoDup X →
  (∀ x, x ∈ X → x ∈ l ∧ ¬ ancestor P x b ∧ ¬ ancestor P b x) → (length X ≤ length A)%nat.
Proof.
  intros [HA HA'] HX Hin. apply submseteq_length, NoDup_submseteq; [done|]. intros x Hx. by apply HA', Hin.
Qed.

Lemma blue_size_fun m b d z z' : blue_size m b d z → blue_size m b d z' → z = z'.
Proof.
  intros Hz. revert z'. induction Hz as [d z Hz|d d' z Hz Hd _ IH]; inversion 1; subst; [congruence..|].
  apply IH. congruence.
Qed.

(** The two conditions under which a candidate may join the blue set [l] of a block
    with [n] merged blues: its blue anticone has at most [k] blocks, and each of
    them has fewer than [k] blue blocks in its own. *)
Definition fits (P : Dag) (k : Z) (l : list Hash) (c : Hash) : Prop :=
  ∃ A, anticone P l c A ∧ Z.of_nat (length A) ≤ k ∧
    ∀ b, b ∈ A → ∃ B, anticone P l b B ∧ Z.of_nat (length B) < k.

(** ** Recording a new blue *)

Lemma bump_sizes_ok {E} (kvs : list (Hash * Z)) (s : gmap Hash Z) :
  NoDup kvs.*1 → (∀ b z, (b, z) ∈ kvs → 0 ≤ z < 255) →
  ∃ s', ofold (λ m '(blue, size), size' ← ktype_add (E:=E) size 1; mret (<[blue := size']> m)) s kvs = Ok s'
    ∧ ∀ b, s' !! b = match (list_to_map kvs : gmap Hash Z) !! b with Some z => Some (z + 1) | None => s !! b end.
Proof.
  revert s. induction kvs as [|[c z] kvs IH]; intros s Hnd Hz; [by exists s|].
  apply NoDup_cons in Hnd as [Hc Hnd]. cbn [ofold]. unfold ktype_add at 2.
  destruct (Hz c z) as [? ?]; [left|]. rewrite checked_ok by (unfold u8_max; lia).
  cbn [mbind outcome_bind mret outcome_ret].
  destruct (IH (<[c := z + 1]> s) Hnd) as (s' & -> & Hs'); [intros b y Hy; apply (Hz b); by right|].
  exists s'. split; [done|]. intros b. rewrite Hs'. cbn [list_to_map foldr uncurry]. destruct (decide (b = c)) as [->|Hne].
  - rewrite not_elem_of_list_to_map_1 by done. by rewrite !lookup_insert_eq.
  - by rewrite !lookup_insert_ne by done.
Qed.

Lemma add_blue_ok {E} d c size (sizes : gmap Hash Z) : (∀ b z, sizes !! b = Some z → 0 ≤ z < 255) →
  ∃ d', add_blue (E:=E) d c size sizes = Ok d' ∧ selected_parent d' = selected_parent d
    ∧ mergeset_blues d' = mergeset_blues d ++ [c] ∧ mergeset_reds d' = mergeset_reds d
    ∧ ∀ b, blues_anticone_sizes d' !! b = match sizes !! b with
        | Some z => Some (z + 1)
        | None => if decide (b = c) then Some size else blues_anticone_sizes d !! b end.
Proof.
  intros Hz. unfold add_blue.
  destruct (bump_sizes_ok (E:=E) (map_to_list sizes) (<[c := size]> (blues_anticone_sizes d))) as (s' & -> & Hs').
  { apply NoDup_fst_map_to_list. }
  { intros b z Hb%elem_of_map_to_list. eauto. }
  cbn [mbind outcome_bind mret outcome_ret]. eexists. split_and!; [done..|]. intros b. cbn. rewrite Hs', list_to_map_to_list.
  destruct (sizes !! b); [done|]. destruct (decide (b = c)) as [->|]; [by rewrite lookup_insert_eq|by rewrite lookup_insert_ne].
Qed.

Section color.
Context {E T R U V : Type} `{GhostdagStoreLaws T} `{RelationsStoreReader R}
  `{ReachabilityService U} `{HeaderStoreReader V} (fuel : nat).
Context (self : @GhostdagManager T R U V) (P : Dag) (m : GdMap) (HM : manager_ok self P m).
Context (Hk : 0 ≤ k self < 255) (Hfuel : (size m < fuel)%nat).

Lemma manager_read {A} (f : GhostdagData → A) h d : m !! h = Some d →
  read_field (gd_abs (ghostdag_store self)) f h = Ok (f d).
Proof using HM. intros Hd. unfold read_field. by rewrite (mk_abs _ _ _ HM), Hd. Qed.

(** ** Reading a recorded size *)

Lemma blue_anticone_size_ok d hs l b z : blues m d hs l → (length hs < fuel)%nat → blue_size m b d z →
  blue_anticone_size (E:=E) fuel self b d = Ok z.
Proof using HM.
  intros Hb. unfold blue_anticone_size. pose proof (mk_dag _ _ _ HM) as HG. clear Hfuel. revert fuel.
  induction Hb as [d Hd|d d' hs l Hd Hb IH]; intros [|f] Hf Hz; try (simpl in Hf; lia); cbn [oloop];
    inversion Hz as [? ? Hs|? d2 ? Hs Hd2 Hz2]; subst; rewrite Hs; try done.
  - rewrite Hd, (origin_unknown _ _ _ _ HG) in Hd2. done.
  - rewrite Hd in Hd2. injection Hd2 as <-.
    assert (selected_parent d ≠ genesis_hash self) as Hg.
    { intros Hg. rewrite Hg in Hd. destruct (genesis_end _ _ _ _ HG d' Hd) as (He & _ & Hem & _).
      inversion Hz2; subst; [rewrite Hem, lookup_empty in *; done|congruence]. }
    assert (selected_parent d ≠ Hashes.ORIGIN) as Ho by (intros Ho; rewrite Ho, (origin_unknown _ _ _ _ HG) in Hd; done).
    rewrite !bool_decide_eq_false_2 by done. cbn [orb].
    rewrite law_sizes, law_selected_parent by apply (mk_ok _ _ _ HM).
    rewrite !(manager_read _ _ _ Hd). cbn [unwrap mbind outcome_bind mret outcome_ret].
    apply IH; [simpl in Hf; lia|done].
Qed.

(** ** Checking a candidate *)

Context (nd : GhostdagData) (hs l : list Hash) (HC : colored P m (k self) nd hs l).
Context (Hblues : ∀ b, b ∈ l → is_Some (m !! b)).
Context (c : Hash) (Hcm : is_Some (m !! c)) (Hc : ∀ b, b ∈ l → ¬ ancestor P c b).

(** The blues of [pre] seen so far that are not in the past of the candidate. *)
Record tracking (pre A : list Hash) (sizes : gmap Hash Z) (size : Z) : Prop := {
  tr_nodup : NoDup A;
  tr_in : ∀ b, b ∈ A ↔ b ∈ pre ∧ ¬ ancestor P b c;
  tr_dom : ∀ b, is_Some (sizes !! b) ↔ b ∈ A;
  tr_sizes : ∀ b z, sizes !! b = Some z → blue_size m b nd z ∧ z < k self;
  tr_size : size = Z.of_nat (length A) ∧ size ≤ k self;
}.

Lemma recorded b : b ∈ l → ∃ B, anticone P l b B ∧ blue_anticone_size (E:=E) fuel self b nd = Ok (Z.of_nat (length B))
  ∧ blue_size m b nd (Z.of_nat (length B)) ∧ Z.of_nat (length B) ≤ k self.
Proof using HM HC Hfuel.
  intros Hb. destruct (co_size _ _ _ _ _ _ HC b Hb) as (B & HB & Hz & Hle). exists B.
  split_and!; [done| |done|done]. eapply blue_anticone_size_ok; [apply (co_blues _ _ _ _ _ _ HC)| |done].
  pose proof (chain_length _ _ _ _ (mk_dag _ _ _ HM) _ _ _ (co_blues _ _ _ _ _ _ HC)). lia.
Qed.

Lemma check_blues_ok bs : ∀ pre A sizes size,
  NoDup (pre ++ bs) → (∀ b, b ∈ pre ++ bs → b ∈ l) → tracking pre A sizes size →
  ∃ st sizes' size', check_blues (E:=E) fuel self nd c bs sizes size = Ok (st, sizes', size')
    ∧ match st with
      | StatePending => ∃ A', tracking (pre ++ bs) A' sizes' size'
      | StateRed => ¬ fits P (k self) l c
      | StateBlue => False
      end.
Proof using HM Hk Hfuel HC Hblues Hcm Hc.
  induction bs as [|b bs IH]; intros pre A sizes size Hnd Hl Ht.
  { do 3 eexists. split; [done|]. rewrite app_nil_r. eauto. }
  assert (b ∈ l) as Hbl by (apply Hl; set_solver).
  assert (NoDup ((pre ++ [b]) ++ bs)) as Hnd' by by rewrite <- app_assoc.
  assert (∀ x, x ∈ (pre ++ [b]) ++ bs → x ∈ l) as Hl' by by rewrite <- app_assoc.
  replace (pre ++ b :: bs) with ((pre ++ [b]) ++ bs) by by rewrite <- app_assoc.
  assert (b ∉ pre) as Hpre by (apply NoDup_app in Hnd as (_ & Hn & _); intros Hin; apply (Hn b Hin); left).
  destruct (service_ancestor (E:=E) self P m HM b c) as (r & Hr & Hiff); [by apply (mk_known self P m HM); auto..|].
  cbn [check_blues]. rewrite Hr. cbn [mbind outcome_bind]. destruct Ht as [HA Hin Hdom Hsz [Hlen Hsk]].
  destruct r.
  { apply (IH _ A); [done|done|]. pose proof (proj1 Hiff eq_refl). split; [done| |done|done|done].
    intros x. rewrite Hin. set_solver. }
  assert (¬ ancestor P b c) as Hbc by (intros Ha; apply Hiff in Ha; done).
  assert (b ∉ A) as HbA by (rewrite Hin; tauto).
  destruct (recorded b Hbl) as (B & HB & -> & Hz & Hzk). cbn [mbind outcome_bind].
  unfold ktype_add at 1. rewrite checked_ok by (unfold u8_max; lia). cbn [mbind outcome_bind].
  assert (∀ x, x ∈ A ++ [b] ↔ x ∈ pre ++ [b] ∧ ¬ ancestor P x c) as Hin'.
  { intros x. rewrite !elem_of_app, Hin, list_elem_of_singleton. split; [|tauto]. intros [?| ->]; [tauto|auto]. }
  assert (NoDup (A ++ [b])) as HA'.
  { apply NoDup_app. split_and!; [done| |apply NoDup_singleton]. intros x Hx ->%list_elem_of_singleton. done. }
  destruct (k self <? size + 1) eqn:Hgt; zbool.
  { do 3 eexists. split; [done|]. intros (A0 & HA0 & Hle & _).
    pose proof (anticone_incl P l c A0 (A ++ [b]) HA0 HA') as Hincl. rewrite length_app in Hincl. simpl in Hincl.
    enough (length A + 1 ≤ length A0)%nat by lia. apply Hincl. intros x Hx.
    destruct (proj1 (Hin' x) Hx) as [Hxp Hxc]. assert (x ∈ l) as Hxl by (apply Hl'; set_solver). auto. }
  destruct (Z.of_nat (length B) =? k self) eqn:Heq; zbool.
  { do 3 eexists. split; [done|]. intros (A0 & HA0 & _ & Hall). destruct (Hall b) as (B' & HB' & Hlt).
    - apply HA0. auto.
    - rewrite (anticone_length P l b B' B HB' HB) in Hlt. lia. }
  unfold assert. rewrite (proj2 (Z.leb_le _ _)) by done. cbn [mbind outcome_bind].
  apply (IH _ (A ++ [b])); [done|done|]. split; [done|done| | |].
  - intros x. rewrite lookup_insert_is_Some', Hdom, elem_of_app, list_elem_of_singleton. naive_solver.
  - intros x z [[<- <-]|[_ Hx]]%lookup_insert_Some; [split; [done|lia]|auto].
  - rewrite length_app. simpl. lia.
Qed.

(** The answer: a candidate that fits comes with its blue anticone and the sizes
    recorded for it. *)
Definition answer (o : ColoringOutput) : Prop :=
  match o with
  | OutputBlue size sizes => ∃ A, tracking l A sizes size ∧ anticone P l c A ∧ fits P (k self) l c
      ∧ Z.of_nat (length (mergeset_blues nd)) ≠ k self + 1
  | OutputRed => ¬ fits P (k self) l c ∨ Z.of_nat (length (mergeset_blues nd)) = k self + 1
  end.

Lemma tracked_fits A sizes size : tracking l A sizes size → anticone P l c A ∧ fits P (k self) l c.
Proof using HC Hc.
  clear Hk Hfuel.
  intros [HA Hin Hdom Hsz [Hlen Hsk]].
  assert (anticone P l c A) as Hac by (split; [done|]; intros x; rewrite Hin; naive_solver).
  split; [done|]. exists A. split_and!; [done|lia|]. intros b Hb.
  destruct (proj1 (Hin b) Hb) as [Hbl _]. destruct (co_size _ _ _ _ _ _ HC b Hbl) as (B & HB & Hz & _).
  exists B. split; [done|]. destruct (proj2 (Hdom b) Hb) as [z Hbz]. destruct (Hsz b z Hbz) as [Hz' Hlt].
  by rewrite (blue_size_fun _ _ _ _ _ Hz Hz').
Qed.

Context (Hsp : is_Some (m !! selected_parent nd)).

(** The walk down the selected chain. *)
Definition walking (n : nat) (st : ChainBlock * gmap Hash Z * Z) : Prop :=
  let '(cb, sizes, size) := st in
  ∃ pre A hs' l', blues m (cb_data cb) hs' l' ∧ l = pre ++ l' ∧ tracking pre A sizes size
    ∧ n = length hs'
    ∧ match cb_hash cb with Some h => m !! h = Some (cb_data cb) | None => cb_data cb = nd end.

Lemma check_blue_candidate_ok : (length (mergeset_blues nd) ≤ 255)%nat →
  ∃ o, check_blue_candidate (E:=E) fuel self nd c = Ok o ∧ answer o.
Proof using HM Hk Hfuel HC Hsp Hblues Hcm Hc.
  intros Hlen. pose proof (mk_dag _ _ _ HM) as HG. unfold check_blue_candidate, ktype_add.
  rewrite checked_ok by (unfold u8_max; lia). cbn [mbind outcome_bind]. rewrite Z.mod_small by lia.
  destruct (_ =? _) eqn:Hfull; zbool; [exists OutputRed; split; [done|by right]|].
  pose proof (chain_length _ _ _ _ HG _ _ _ (co_blues _ _ _ _ _ _ HC)) as Hhs.
  eapply (oloop_ok walking _ answer fuel (length hs)); [|exists [], [], hs, l; split_and!; try done; [apply (co_blues _ _ _ _ _ _ HC)|]|lia].
  2:{ split; [constructor|set_solver| |set_solver|simpl; lia]. intros b. rewrite lookup_empty. split; [by intros [? ?]|set_solver]. }
  intros n [[[h d] sizes] size] (pre & A & hs' & l' & Hb & Hl & Ht & Hn & Hh). cbn [cb_data cb_hash] in *.
  unfold check_blue_candidate_with_chain_block. cbn [cb_hash cb_data].
  assert (∃ early : bool, match h with Some hash => is_dag_ancestor (E:=E) self hash c | None => mret false end = Ok early
    ∧ if early then ∃ h', h = Some h' ∧ ancestor P h' c
      else ∀ h', h = Some h' → ¬ ancestor P h' c) as (early & -> & Hearly).
  { destruct h as [h|]; [|by exists false].
    destruct (service_ancestor (E:=E) self P m HM h c) as (r & Hr & Hiff); [by apply (mk_known self P m HM); eauto..|].
    exists r. split; [done|]. destruct r; [exists h; split; [done|by apply Hiff]|].
    intros h' [= <-] Ha. apply Hiff in Ha. done. }
  cbn [mbind outcome_bind]. destruct early.
  { destruct Hearly as (h' & -> & Ha). eexists. split; [done|]. exists A.
    assert (tracking l A sizes size) as Ht'; [|split; [done|by destruct (tracked_fits A sizes size Ht')]].
    destruct Ht as [HA Hin Hdom Hsz Hs]. split; [done| |done|done|done]. intros b. rewrite Hin, Hl, elem_of_app.
    split; [tauto|]. intros [[?|Hb'] Hna]; [done|]. destruct Hna.
    eapply ancestor_trans; [|exact Ha]. by apply (blues_past _ _ _ _ HG _ _ _ Hb h' Hh). }
  pose proof (co_nodup _ _ _ _ _ _ HC) as Hnd.
  assert (∃ rest, l = (pre ++ mergeset_blues d) ++ rest) as [rest Hrest].
  { rewrite Hl. inversion Hb; subst; [exists []; by rewrite app_nil_r|]. eexists. by rewrite <- app_assoc. }
  destruct (check_blues_ok (mergeset_blues d) pre A sizes size) as (st & sizes' & size' & -> & Hst).
  { rewrite Hrest in Hnd. by apply NoDup_app in Hnd as (? & _). }
  { intros b Hbb. rewrite Hrest. apply elem_of_app. by left. }
  { done. }
  cbn [mbind outcome_bind]. destruct st; [done|exists (inr OutputRed); split; [done|by left]|].
  destruct Hst as (A' & Ht'). inversion Hb as [? Hend|? d' hs2 l2 Hd' Hb' Heq1]; subst.
  { exfalso. destruct h as [h|]; [|subst d; rewrite Hend, (origin_unknown _ _ _ _ HG) in Hsp; by destruct Hsp].
    destruct (decide (h = genesis_hash self)) as [->|Hg].
    - eapply Hearly; [done|]. by apply (gd_root _ _ _ _ HG).
    - destruct (selected_known _ _ _ _ HG h d Hh Hg) as (? & Hsel & _). rewrite Hend, (origin_unknown _ _ _ _ HG) in Hsel. done. }
  rewrite law_data by apply (mk_ok _ _ _ HM). rewrite (manager_read _ _ _ Hd'). cbn [unwrap mbind outcome_bind mret outcome_ret].
  eexists. split; [done|]. cbn. exists (length hs2). split; [|lia].
  exists (pre ++ mergeset_blues d), A', hs2, l2. split_and!; [done|by rewrite <- app_assoc|done|done|done].
Qed.
End color.
