(* ===== verification/GhostdagRun.v ===== *)
(** * The GHOSTDAG protocol against its specification

    The specification is the greedy colouring of the article: walk the mergeset in
    ascending order of blue work and make a block blue whenever the blue set stays
    a k-cluster ([greedy]).  [ghostdag] computes it, and the data it returns extends
    the invariant of the DAG. *)

From S2P Require Import Prelude Hash Interval Uint Target ReachStore ReachTree ReachMain ReachService Relations Headers GhostdagStore Ghostdag GhostdagInv GhostdagMerge GhostdagColor.

(** ** Specification *)

(** [greedy P k sp l0 ms bs rs]: colouring the blocks of [ms] in their order, over a
    selected parent [sp] whose blue set is [l0], gives the blues [bs], the selected
    parent first, and the reds [rs]. *)
Inductive greedy (P : Dag) (k : Z) (sp : Hash) (l0 : list Hash) : list Hash → list Hash → list Hash → Prop :=
| greedy_nil : greedy P k sp l0 [] [sp] []
| greedy_blue ms bs rs c :
    greedy P k sp l0 ms bs rs → Z.of_nat (length bs) ≤ k → fits P k (bs ++ l0) c →
    greedy P k sp l0 (ms ++ [c]) (bs ++ [c]) rs
| greedy_red ms bs rs c :
    greedy P k sp l0 ms bs rs → ¬ (Z.of_nat (length bs) ≤ k ∧ fits P k (bs ++ l0) c) →
    greedy P k sp l0 (ms ++ [c]) bs (rs ++ [c]).

Lemma greedy_shape P k sp l0 ms bs rs : 0 ≤ k → greedy P k sp l0 ms bs rs →
  ∃ bs', bs = sp :: bs' ∧ bs' `sublist_of` ms ∧ rs `sublist_of` ms ∧ bs' ++ rs ≡ₚ ms
    ∧ Z.of_nat (length bs) ≤ k + 1.
Proof.
  intros Hk. induction 1 as [|ms bs rs c _ (bs' & -> & Hb & Hr & Hp & Hl) Hlen _|ms bs rs c _ (bs' & -> & Hb & Hr & Hp & Hl) _].
  - exists []. split_and!; [done..|simpl; lia].
  - exists (bs' ++ [c]). split_and!.
    + done.
    + by apply sublist_app.
    + by apply sublist_inserts_r.
    + rewrite <- app_assoc, (Permutation_app_comm [c]), app_assoc, Hp. done.
    + simpl in *. rewrite length_app. simpl. lia.
  - exists bs'. split_and!; [done|by apply sublist_inserts_r|by apply sublist_app| |done].
    by rewrite app_assoc, Hp.
Qed.

(** ** The colouring loop *)

Lemma blue_size_ext m b d d' z : selected_parent d = selected_parent d' →
  blues_anticone_sizes d !! b = blues_anticone_sizes d' !! b → blue_size m b d z → blue_size m b d' z.
Proof.
  intros Hp Hs. inversion 1; subst; [apply bsize_here; congruence|].
  eapply bsize_next; [congruence|rewrite <- Hp; eassumption|done].
Qed.

Lemma colored_ext P m k d d' hs l : selected_parent d = selected_parent d' →
  mergeset_blues d = mergeset_blues d' → blues_anticone_sizes d = blues_anticone_sizes d' →
  colored P m k d hs l → colored P m k d' hs l.
Proof.
  intros Hp Hm Hs [Hb Hn Hz]. split; [|done|].
  - inversion Hb; subst; [rewrite Hm; apply blues_end; congruence|].
    rewrite Hm, Hp. apply (blues_step _ _ d'0); [congruence|done].
  - intros b Hbl. destruct (Hz b Hbl) as (A & ? & ? & ?). exists A. split_and!; [done| |done].
    eapply blue_size_ext; [done|by rewrite Hs|done].
Qed.

Section run.
Context {E T R U V : Type} `{GhostdagStoreLaws T} `{RelationsStoreReader R}
  `{ReachabilityService U} `{HeaderStoreReader V} (fuel : nat).
Context (self : @GhostdagManager T R U V) (P : Dag) (m : GdMap) (HM : manager_ok self P m).
Context (ps : list Hash) (sp : Hash) (HP : parents_ok P m ps) (Hsp : sp ∈ ps).
Context (dsp : GhostdagData) (Hdsp : m !! sp = Some dsp).
Context (hs0 l0 : list Hash) (HC0 : colored P m (k self) dsp hs0 l0).

Abbreviation HG := (mk_dag _ _ _ HM).

Lemma blues_of_sp b : b ∈ l0 → ancestor P b sp ∧ is_Some (m !! b) ∧ b ≠ sp.
Proof using HM Hdsp HC0.
  intros Hb. destruct (blues_past _ _ _ _ HG _ _ _ (co_blues _ _ _ _ _ _ HC0) sp Hdsp b Hb) as (? & ? & Hlt).
  split_and!; [done|done|]. intros ->. lia.
Qed.

Context (Hk : 0 ≤ k self < 255).

(** The state of the loop after the blocks of [pre]. *)
Record coloring (pre : list Hash) (nd : GhostdagData) : Prop := {
  cg_selected : selected_parent nd = sp;
  cg_spec : greedy P (k self) sp l0 pre (mergeset_blues nd) (mergeset_reds nd);
  cg_colored : colored P m (k self) nd (sp :: hs0) (mergeset_blues nd ++ l0);
}.

Lemma coloring_start d : new_with_selected_parent (E:=E) sp (k self) = Ok d → coloring [] d.
Proof using HM Hdsp HC0 Hk.
  unfold new_with_selected_parent, ktype_add. rewrite checked_ok by (unfold u8_max; lia).
  cbn [mbind outcome_bind mret outcome_ret]. intros [= <-].
  split; cbn [selected_parent mergeset_blues mergeset_reds]; [done|constructor|]. split.
  - apply (blues_step _ (mkGhostdagData 0 0 sp [sp] [] {[sp := 0]}) dsp); [done|apply (co_blues _ _ _ _ _ _ HC0)].
  - cbn. constructor; [|apply (co_nodup _ _ _ _ _ _ HC0)]. intros Hin. by destruct (blues_of_sp sp Hin) as (_ & _ & ?).
  - cbn [app]. intros b [->|Hb]%elem_of_cons.
    + exists []. split_and!; [|apply bsize_here; apply lookup_singleton_eq|simpl; lia].
      split; [constructor|]. intros x. split; [by intros ?%elem_of_nil|]. intros ([->|Hx]%elem_of_cons & Hn & _).
      * destruct Hn. constructor.
      * destruct Hn. by apply blues_of_sp.
    + destruct (blues_of_sp b Hb) as (Ha & _ & Hne).
      destruct (co_size _ _ _ _ _ _ HC0 b Hb) as (A & [HA1 HA2] & Hz & Hle). exists A. split_and!; [|by eapply bsize_next; [apply lookup_singleton_ne| |]|done].
      split; [done|]. intros x. rewrite HA2, elem_of_cons. split; [tauto|]. intros ([->|Hx] & Hn & Hn'); [done|auto].
Qed.

Context (oms : list Hash) (Homs : ∀ x, x ∈ oms ↔ merged P ps sp x) (Hsort : StronglySorted sb_lt (as_sortable m <$> oms)).

(** Nothing in the blue set is in the future of the next candidate. *)
Lemma candidate_last pre nd c b : pre ++ [c] `prefix_of` oms → coloring pre nd →
  b ∈ mergeset_blues nd ++ l0 → is_Some (m !! b) ∧ ¬ ancestor P c b.
Proof using HM Hdsp HC0 Hk HP Hsp Homs Hsort.
  intros [rest Hrest] Hc Hb.
  assert (merged P ps sp c) as Hcm by (apply Homs; rewrite Hrest; set_solver).
  destruct (greedy_shape _ _ _ _ _ _ _ (proj1 Hk) (cg_spec _ _ Hc)) as (bs' & Hbs & Hsub & _).
  rewrite Hbs in Hb. assert (b = sp ∨ b ∈ l0 ∨ b ∈ pre) as Hcase.
  { apply elem_of_app in Hb as [[->|Hb]%elem_of_cons|Hb]; [auto| |auto]. right. right.
    eapply elem_of_submseteq; [done|by apply sublist_submseteq]. }
  destruct Hcase as [->|[Hl0|Hpre]].
  - split; [eauto|apply Hcm].
  - destruct (blues_of_sp b Hl0) as (Ha & ? & _). split; [done|]. intros Hcb. apply Hcm. by eapply ancestor_trans.
  - assert (merged P ps sp b) as Hbm by (apply Homs; rewrite Hrest; set_solver).
    pose proof (merged_known self P m HM ps sp HP Hsp b Hbm) as Hbk. split; [done|]. intros Ha.
    assert (sb_lt (as_sortable m b) (as_sortable m c)) as Hlt.
    { rewrite Hrest, fmap_app, fmap_app in Hsort. apply StronglySorted_app in Hsort as (Hcr & Hs & _).
      apply StronglySorted_app in Hs as (Hcr' & _). apply Hcr'; [by apply list_elem_of_fmap_2|left]. }
    assert (work_of m b ≤ work_of m c) as Hle.
    { revert Hlt. unfold sb_lt, sb_cmp. cbn. destruct (Z.compare_spec (work_of m b) (work_of m c)); [lia|lia|done]. }
    destruct (ancestor_work _ _ _ _ HG c b Ha (merged_known self P m HM ps sp HP Hsp c Hcm) Hbk) as [->|]; [|lia].
    unfold sb_lt in Hlt. rewrite (proj2 (proj2 (sb_cmp_spec _ _))) in Hlt; done.
Qed.

Context (Hfuel : (size m < fuel)%nat).

(** The sizes after a candidate turned blue. *)
Lemma colored_add nd c A sizes size nd' :
  colored P m (k self) nd (sp :: hs0) (mergeset_blues nd ++ l0) → selected_parent nd = sp →
  (∀ b, b ∈ mergeset_blues nd ++ l0 → ¬ ancestor P c b) →
  tracking self P m nd c (mergeset_blues nd ++ l0) A sizes size → anticone P (mergeset_blues nd ++ l0) c A →
  selected_parent nd' = selected_parent nd → mergeset_blues nd' = mergeset_blues nd ++ [c] →
  (∀ b, blues_anticone_sizes nd' !! b = match sizes !! b with
        | Some z => Some (z + 1)
        | None => if decide (b = c) then Some size else blues_anticone_sizes nd !! b end) →
  colored P m (k self) nd' (sp :: hs0) (mergeset_blues nd' ++ l0).
Proof using Hdsp HC0.
  clear Hk Hfuel. intros [_ Hnd Hz] Hsel Hlast [HA Hin Hdom Hsz [Hsize Hsk]] Hac Hsel' Hbs Hnew. set (l := mergeset_blues nd ++ l0) in *.
  assert (c ∉ l) as Hcl by (intros Hc; apply (Hlast c Hc); constructor).
  assert (∀ x, x ∈ mergeset_blues nd' ++ l0 ↔ x ∈ l ∨ x = c) as Hl'.
  { intros x. unfold l. rewrite Hbs, !elem_of_app, list_elem_of_singleton. tauto. }
  split.
  - rewrite <- Hsel, <- Hsel'. apply (blues_step _ nd' dsp); [congruence|apply (co_blues _ _ _ _ _ _ HC0)].
  - rewrite Hbs, <- app_assoc, (Permutation_app_comm [c]), app_assoc. apply NoDup_app.
    split_and!; [done| |apply NoDup_singleton]. intros x Hx ->%list_elem_of_singleton. done.
  - assert (∀ b, b ∉ A → b ≠ c → ∀ z, blue_size m b nd z → blue_size m b nd' z) as Hkeep.
    { intros b HbA Hbc z. apply blue_size_ext; [done|]. rewrite Hnew, decide_False by done.
      destruct (sizes !! b) eqn:Hb; [|done]. destruct HbA. apply Hdom. eauto. }
    intros b [Hb| ->]%Hl'.
    + destruct (Hz b Hb) as (B & [HB HB'] & Hbz & Hle). destruct (decide (b ∈ A)) as [HbA|HbA].
      * destruct (proj2 (Hdom b) HbA) as [z Hbs']. destruct (Hsz b z Hbs') as [Hz' Hlt].
        pose proof (blue_size_fun _ _ _ _ _ Hbz Hz') as <-. exists (B ++ [c]).
        rewrite length_app, Nat2Z.inj_add. change (Z.of_nat (length [c])) with 1. split_and!; [|apply bsize_here; by rewrite Hnew, Hbs'|lia].
        split.
        -- apply NoDup_app. split_and!; [done| |apply NoDup_singleton]. intros x Hx ->%list_elem_of_singleton. by apply HB' in Hx as [? _].
        -- intros x. rewrite elem_of_app, list_elem_of_singleton, HB', Hl'. split; [|tauto].
           intros [?| ->]; [tauto|]. split_and!; [by right|auto|by apply Hin in HbA as [_ ?]].
      * exists B. split_and!; [|apply Hkeep; [done|by intros ->|done]|done].
        split; [done|]. intros x. rewrite HB', Hl'. split; [tauto|]. intros ([?| ->] & Hn & Hn'); [done|].
        destruct HbA. by apply Hin.
    + exists A. split_and!; [|apply bsize_here|lia].
      * destruct Hac as [_ Hac]. split; [done|]. intros x. rewrite Hac, Hl'. split; [tauto|].
        intros ([?| ->] & Hn & Hn'); [done|]. destruct Hn. constructor.
      * rewrite Hnew, decide_True by done. destruct (sizes !! c) eqn:Hc; [|by rewrite Hsize].
        destruct Hcl. apply (Hin c), Hdom. eauto.
Qed.

Lemma color_ok pre nd c : pre ++ [c] `prefix_of` oms → coloring pre nd →
  ∃ nd', color (E:=E) fuel self nd c = Ok nd' ∧ coloring (pre ++ [c]) nd'.
Proof using HM Hdsp HC0 Hk HP Hsp Homs Hsort Hfuel.
  intros Hpre Hc. destruct Hc as [Hsel Hspec Hcol] eqn:Hceq.
  pose proof (λ b, candidate_last pre nd c b Hpre Hc) as Hlast.
  destruct (greedy_shape _ _ _ _ _ _ _ (proj1 Hk) Hspec) as (bs' & Hbs & _ & _ & _ & Hlen).
  assert (is_Some (m !! c)) as Hcm.
  { apply (merged_known self P m HM ps sp HP Hsp), Homs. destruct Hpre as [rest ->]. set_solver. }
  destruct (check_blue_candidate_ok (E:=E) fuel self P m HM Hk Hfuel nd _ _ Hcol) with (c := c) as (o & Ho & Hans).
  { intros b Hb. by apply Hlast. }
  { done. }
  { intros b Hb. by apply Hlast. }
  { rewrite Hsel. eauto. }
  { lia. }
  unfold color. rewrite Ho. cbn [mbind outcome_bind]. destruct o as [size sizes|].
  - destruct Hans as (A & Ht & Hac & Hfit & Hne).
    destruct (add_blue_ok (E:=E) nd c size sizes) as (nd' & Hadd & Hsel' & Hbs' & Hrs' & Hnew).
    { intros b z Hz. destruct (tr_sizes _ _ _ _ _ _ _ _ _ Ht b z Hz) as [Hbz Hlt].
      assert (b ∈ mergeset_blues nd ++ l0) as Hbl by (apply (tr_in _ _ _ _ _ _ _ _ _ Ht), (tr_dom _ _ _ _ _ _ _ _ _ Ht); eauto).
      destruct (co_size _ _ _ _ _ _ Hcol b Hbl) as (B & _ & HB & _). rewrite (blue_size_fun _ _ _ _ _ Hbz HB) in *. lia. }
    exists nd'. split; [done|]. split; [congruence| |].
    + rewrite Hbs', Hrs'. apply greedy_blue; [done|lia|done].
    + eapply colored_add; [done|done|intros b Hb; by apply Hlast|done..].
  - eexists. split; [done|]. split; [done| |].
    + apply greedy_red; [done|]. intros [Hle Hfit]. cbn [add_red mergeset_blues] in *. destruct Hans as [?|?]; [done|lia].
    + by apply (colored_ext P m (k self) nd).
Qed.

(** The whole loop. *)
Lemma color_all_ok d : new_with_selected_parent (E:=E) sp (k self) = Ok d →
  ∃ nd, ofold (color (E:=E) fuel self) d oms = Ok nd ∧ coloring oms nd.
Proof using HM Hdsp HC0 Hk HP Hsp Homs Hsort Hfuel.
  intros Hd. apply ofold_ok; [by apply coloring_start|]. intros pre x nd. apply color_ok.
Qed.

(** ** Score and work *)

Context (Wmax : Z).

(** The work of a header. *)
Definition work_at (h : Hash) : Z :=
  match get_bits (headers_store self) h with Ok bits => 2 ^ 256 / (target_of bits + 1) | _ => 0 end.

(** Every stored block has a header with a target that work can be computed for. *)
Definition bits_ok : Prop := ∀ h, is_Some (m !! h) → ∃ bits,
  get_bits (headers_store self) h = Ok bits ∧ 0 ≤ bits < 2 ^ 32 ∧ bits / 2 ^ 24 ≤ 32 ∧ work_at h ≤ Wmax.

Context (HW : bits_ok) (HWmax : 0 ≤ Wmax < 2 ^ 192).

Lemma work_of_block_ok h : is_Some (m !! h) →
  ∃ w, work_of_block (E:=E) self h = Ok w ∧ Uint.wf 3 w ∧ Uint.val w = work_at h ∧ 1 ≤ work_at h.
Proof using HW HWmax.
  clear Hk Hfuel. intros Hh. destruct (HW h Hh) as (bits & Hb & Hr & He & Hle). unfold work_of_block, work_at in *. rewrite Hb in *.
  cbn [unwrap mbind outcome_bind]. apply (calc_work_value (E:=E) bits Hr He). lia.
Qed.

Lemma works_ok bs : (∀ b, b ∈ bs → is_Some (m !! b)) →
  ∃ ws, omap_each (work_of_block (E:=E) self) bs = Ok ws ∧ Forall (Uint.wf 3) ws
    ∧ Uint.val <$> ws = work_at <$> bs ∧ zsum (work_at <$> bs) ≤ Z.of_nat (length bs) * Wmax
    ∧ Z.of_nat (length bs) ≤ zsum (work_at <$> bs).
Proof using HW HWmax.
  clear Hk Hfuel. induction bs as [|b bs IH]; intros Hb; [exists []; split_and!; [done|constructor|done|simpl; lia|simpl; lia]|].
  destruct (work_of_block_ok b) as (w & Hw & Hwf & Hv & Hge); [apply Hb; left|].
  destruct IH as (ws & Hws & Hwfs & Hvs & Hle & Hlow); [intros x Hx; apply Hb; by right|].
  destruct (HW b) as (bits & _ & _ & _ & Hmax); [apply Hb; left|].
  exists (w :: ws). cbn [omap_each]. rewrite Hw. cbn [mbind outcome_bind]. rewrite Hws. cbn [mbind outcome_bind mret outcome_ret].
  rewrite !fmap_cons, zsum_cons. cbn [length]. split_and!; [done|by constructor|by rewrite Hv, Hvs|lia|lia].
Qed.
End run.

(** The data that the protocol assigns to a block with parents [ps]. *)
Record ghostdag_spec (P : Dag) (m : GdMap) (k : Z) (work : Hash → Z) (ps : list Hash) (d : GhostdagData) : Prop := {
  gs_selected : selected_parent d ∈ ps;
  gs_max : ∀ p, p ∈ ps → sb_le (as_sortable m p) (as_sortable m (selected_parent d));
  gs_greedy : ∃ dsp hs0 l0 oms, m !! selected_parent d = Some dsp ∧ blues m dsp hs0 l0
    ∧ (∀ x, x ∈ oms ↔ merged P ps (selected_parent d) x) ∧ StronglySorted sb_lt (as_sortable m <$> oms)
    ∧ greedy P k (selected_parent d) l0 oms (mergeset_blues d) (mergeset_reds d)
    ∧ blue_score d = blue_score dsp + Z.of_nat (length (mergeset_blues d))
    ∧ blue_work d = blue_work dsp + zsum (work <$> mergeset_blues d);
}.

(** Score and work of the parents leave room for one more block. *)
Definition room (m : GdMap) (k Wmax : Z) (ps : list Hash) : Prop := ∀ p d, p ∈ ps → m !! p = Some d →
  0 ≤ blue_score d ∧ blue_score d + k + 1 ≤ u64_max ∧ 0 ≤ blue_work d ∧ blue_work d + (k + 1) * Wmax < 2 ^ 192.

Lemma StronglySorted_sublist {A} (R : A → A → Prop) l k : StronglySorted R k → l `sublist_of` k → StronglySorted R l.
Proof.
  intros Hk Hl. revert Hk. induction Hl as [|x l k Hl IH|x l k Hl IH]; intros Hk; [done| |];
    inversion Hk as [|? ? Hk' Hx]; subst; [|auto]. constructor; [auto|].
  rewrite Forall_forall in *. intros y Hy. apply Hx. eapply elem_of_submseteq; [done|by apply sublist_submseteq].
Qed.

Lemma StronglySorted_irrefl_NoDup {A} (R : A → A → Prop) l : (∀ x, ¬ R x x) → StronglySorted R l → NoDup l.
Proof.
  intros HR. induction 1 as [|x l _ IH Hx]; constructor; [|done]. rewrite Forall_forall in Hx.
  intros Hin. by apply (HR x), Hx.
Qed.

(** Data that meets the specification is right. *)
Lemma spec_block (P : Dag) (m : GdMap) (g : Hash) (k : Z) (Hk : 0 ≤ k < 255) (HG : gd_dag P m g k) work ps d :
  parents_ok P m ps → ghostdag_spec P m k work ps d → work_of m (selected_parent d) < blue_work d →
  (∀ x y, is_Some (P !! x) → is_Some (P !! y) → ancestor P x y ∨ ¬ ancestor P x y) →
  (∃ hs l, colored P m k d hs l) → gd_block P m k ps d.
Proof.
  intros HP [Hsel Hmax (dsp & hs0 & l0 & oms & Hdsp & Hb0 & Homs & Hsort & Hgr & Hsc & _)] Hwork Hdec Hcol.
  destruct (greedy_shape _ _ _ _ _ _ _ (proj1 Hk) Hgr) as (bs' & Hbs & Hsub & Hrsub & Hperm & _).
  pose proof (pk_known _ _ _ HP) as Hpk.
  assert (∀ x, merged P ps (selected_parent d) x → is_Some (m !! x)) as Hmk.
  { intros x [(p & Hp & Ha) Hna]. apply (gd_dom _ _ _ _ HG). split.
    - intros ->. apply Hna. eapply ancestor_trans; [|apply (gd_root _ _ _ _ HG); eauto].
      econstructor; [apply (gd_genesis _ _ _ _ HG)|left|constructor].
    - eapply ancestor_known; [apply (gd_closed _ _ _ _ HG)|by apply (known_dag _ _ _ _ HG), Hpk|done]. }
  assert (∀ x, x ∈ unordered_mergeset_without_selected_parent d ↔ merged P ps (selected_parent d) x) as Hmer.
  { intros x. rewrite <- Homs, <- Hperm. unfold unordered_mergeset_without_selected_parent. by rewrite Hbs. }
  assert (NoDup (bs' ++ mergeset_reds d)) as Hnd.
  { rewrite Hperm. apply (NoDup_fmap_1 (as_sortable m)). eapply StronglySorted_irrefl_NoDup; [|done].
    intros x Hx. unfold sb_lt in Hx. by rewrite (proj2 (proj2 (sb_cmp_spec x x))) in Hx. }
  split.
  - done.
  - done.
  - intros p Hp. specialize (Hmax p Hp). revert Hmax. unfold sb_le, sb_cmp. cbn.
    destruct (Z.compare_spec (work_of m p) (work_of m (selected_parent d))); [lia|lia|done].
  - rewrite Hbs. intros b [->|Hb]%elem_of_cons; [split; [eauto|]; exists (selected_parent d); split; [done|constructor]|].
    assert (merged P ps (selected_parent d) b) as Hm.
    { apply Homs. eapply elem_of_submseteq; [done|by apply sublist_submseteq]. }
    split; [auto|apply Hm].
  - done.
  - done.
  - split.
    + rewrite Hbs. cbn [drop]. eapply StronglySorted_sublist; [done|by apply fmap_sublist].
    + eapply StronglySorted_sublist; [done|by apply fmap_sublist].
    + intros h Hh%Hmer. auto.
    + rewrite Hbs. cbn [drop]. intros h Hh Hr. apply NoDup_app in Hnd as (_ & Hn & _). by apply (Hn h).
  - done.
  - intros x p Hp Ha. pose proof (known_dag _ _ _ _ HG) as Hkd.
    assert (is_Some (P !! x)) as Hx by (eapply ancestor_known; [apply (gd_closed _ _ _ _ HG)|by apply Hkd, Hpk|done]).
    destruct (Hdec x (selected_parent d) Hx (Hkd _ (Hpk _ Hsel))) as [?|Hna]; [by left|right].
    apply Hmer. split; [eauto|done].
  - eauto.
  - congruence.
Qed.

Section whole.
Context {E T R U V : Type} `{GhostdagStoreLaws T} `{RelationsStoreReader R}
  `{ReachabilityService U} `{HeaderStoreReader V} (fuel : nat).
Context (self : @GhostdagManager T R U V) (P : Dag) (m : GdMap) (HM : manager_ok self P m).
Context (Hk : 0 ≤ k self < 255).
Context (Wmax : Z) (HW : bits_ok self m Wmax) (HWmax : 0 ≤ Wmax < 2 ^ 192).

Lemma ghostdag_ok ps : (length ps + size m < fuel)%nat → parents_ok P m ps → room m (k self) Wmax ps →
  ∃ d, ghostdag (E:=E) fuel self ps = Ok d ∧ ghostdag_spec P m (k self) (work_at self) ps d
    ∧ gd_block P m (k self) ps d.
Proof using HM Hk HW HWmax.
  intros Hfuel HP Hroom. unfold ghostdag, assert.
  rewrite bool_decide_eq_false_2 by apply (pk_nonempty _ _ _ HP). cbn [negb mbind outcome_bind].
  destruct (find_selected_parent_ok (E:=E) self P m HM ps (pk_nonempty _ _ _ HP) (pk_known _ _ _ HP)) as (sp & -> & Hsp & Hmax).
  cbn [mbind outcome_bind]. destruct (new_with_selected_parent (E:=E) sp (k self)) as [d0| | |] eqn:Hd0;
    try (revert Hd0; unfold new_with_selected_parent, ktype_add; rewrite checked_ok by (unfold u8_max; lia); done).
  cbn [mbind outcome_bind].
  destruct (ordered_mergeset_ok (E:=E) fuel self P m HM ps sp HP Hsp Hfuel) as (oms & -> & Homs & Hsort). cbn [mbind outcome_bind].
  destruct (pk_known _ _ _ HP sp Hsp) as [dsp Hdsp].
  destruct (stored_colored _ _ _ _ (mk_dag _ _ _ HM) sp dsp Hdsp) as (hs0 & l0 & HC0).
  destruct (color_all_ok (E:=E) fuel self P m HM ps sp HP Hsp dsp Hdsp hs0 l0 HC0 Hk oms Homs Hsort) with (d := d0) as (nd & -> & Hnd); [lia|done|].
  cbn [mbind outcome_bind]. destruct Hnd as [Hsel Hspec Hcol].
  destruct (greedy_shape _ _ _ _ _ _ _ (proj1 Hk) Hspec) as (bs' & Hbs & Hsub & _ & _ & Hlen).
  destruct (Hroom sp dsp Hsp Hdsp) as (Hs0 & Hs1 & Hw0 & Hw1).
  rewrite law_blue_score, law_blue_work by apply (mk_ok _ _ _ HM). rewrite !(manager_read self P m HM _ _ _ Hdsp).
  cbn [unwrap mbind outcome_bind]. rewrite add64_ok by (zify_u64; lia). cbn [mbind outcome_bind].
  destruct (works_ok (E:=E) self m Wmax HW HWmax (mergeset_blues nd)) as (ws & -> & Hwf & Hval & Hle & Hlow).
  { rewrite Hbs. intros b [->|Hb]%elem_of_cons; [eauto|]. apply (merged_known self P m HM ps sp HP Hsp), Homs.
    eapply elem_of_submseteq; [done|by apply sublist_submseteq]. }
  cbn [mbind outcome_bind]. assert (zsum (work_at self <$> mergeset_blues nd) ≤ (k self + 1) * Wmax) as Hsum by nia.
  destruct (Uint.sum_value (E:=E) LIMBS_192 ws Hwf) as (w & -> & _ & Hvw).
  { rewrite Hval. change (B ^ Z.of_nat LIMBS_192) with (2 ^ 192). lia. }
  cbn [mbind outcome_bind unwrap]. rewrite Hval in Hvw. unfold work_add. rewrite Hvw.
  assert (1 ≤ zsum (work_at self <$> mergeset_blues nd)) as Hpos by (rewrite Hbs in Hlow |- *; cbn [length] in Hlow; lia).
  rewrite checked_ok by lia. cbn [mbind outcome_bind mret outcome_ret]. eexists. split; [done|].
  set (d := finalize_score_and_work _ _ _).
  assert (ghostdag_spec P m (k self) (work_at self) ps d) as Hgs.
  { split; cbn; rewrite ?Hsel; [done|done|]. exists dsp, hs0, l0, oms. split_and!; [done|apply (co_blues _ _ _ _ _ _ HC0)|done..]. }
  split; [done|]. apply (spec_block P m _ _ Hk (mk_dag _ _ _ HM) (work_at self) ps d HP Hgs).
  - cbn. rewrite Hsel. rewrite (work_of_data _ _ _ Hdsp). lia.
  - intros x y Hx Hy. destruct (service_ancestor (E:=E) self P m HM x y Hx Hy) as ([] & _ & Hb); [left; by apply Hb|].
    right. intros Ha%Hb. done.
  - exists (sp :: hs0), (mergeset_blues nd ++ l0). by apply (colored_ext P m (k self) nd).
Qed.
End whole.

(** ** Extending the DAG *)

Section extend.
Context (P : Dag) (m : GdMap) (g : Hash) (k : Z) (HG : gd_dag P m g k).
Context (n : Hash) (ps : list Hash) (d : GhostdagData) (Hn : P !! n = None) (HP : parents_ok P m ps).
Abbreviation P' := (<[n := ps]> P).
Abbreviation m' := (<[n := d]> m).

Lemma fresh_data : m !! n = None.
Proof using HG Hn.
  destruct (m !! n) eqn:Hm; [|done]. destruct (known_dag _ _ _ _ HG n); [eauto|congruence].
Qed.

Lemma blues_grow d0 hs l : blues m d0 hs l → blues m' d0 hs l.
Proof using HG Hn.
  induction 1 as [|d0 d1 hs l Hd _ IH]; [by apply blues_end|]. apply (blues_step _ _ d1); [|done].
  rewrite lookup_insert_ne; [done|]. intros He. pose proof fresh_data. congruence.
Qed.

Lemma blue_size_grow b d0 z : blue_size m b d0 z → blue_size m' b d0 z.
Proof using HG Hn.
  induction 1 as [|d0 d1 z Hs Hd _ IH]; [by apply bsize_here|]. apply (bsize_next _ _ _ d1); [done| |done].
  rewrite lookup_insert_ne; [done|]. intros He. pose proof fresh_data. congruence.
Qed.

Lemma colored_grow d0 hs l : (∀ b, b ∈ l → is_Some (P !! b)) → colored P m k d0 hs l → colored P' m' k d0 hs l.
Proof using HG Hn.
  intros Hl [Hb Hnd Hz]. split; [by apply blues_grow|done|]. intros b Hbl.
  destruct (Hz b Hbl) as (A & [HA HA'] & ? & ?). exists A. split_and!; [|by apply blue_size_grow|done].
  split; [done|]. intros x. rewrite HA'. split; intros (Hx & H1 & H2).
  - by rewrite !(ancestor_old P n ps (gd_closed _ _ _ _ HG) Hn) by auto.
  - rewrite !(ancestor_old P n ps (gd_closed _ _ _ _ HG) Hn) in H1, H2 by auto. done.
Qed.

Lemma work_grow h : is_Some (m !! h) → work_of m' h = work_of m h.
Proof using HG Hn.
  intros [d0 Hd]. unfold work_of. rewrite lookup_insert_ne; [done|]. intros He. pose proof fresh_data. congruence.
Qed.

Lemma known_grow h : is_Some (m !! h) → is_Some (m' !! h).
Proof using. intros Hh. apply lookup_insert_is_Some'. by right. Qed.

Lemma sortable_grow h : is_Some (m !! h) → as_sortable m' h = as_sortable m h.
Proof using HG Hn. intros Hh. unfold as_sortable. by rewrite work_grow. Qed.

Lemma sortables_grow (l : list Hash) : (∀ h, h ∈ l → is_Some (m !! h)) → as_sortable m' <$> l = as_sortable m <$> l.
Proof using HG Hn.
  intros Hl. apply list_fmap_ext. intros i h Hh%list_elem_of_lookup_2. by apply sortable_grow, Hl.
Qed.

(** What is right of a block stays right. *)
Lemma gd_block_grow qs d0 : gd_block P m k qs d0 →
  (∀ l hs, colored P m k d0 hs l → ∀ b, b ∈ l → is_Some (m !! b)) → gd_block P' m' k qs d0.
Proof using HG Hn.
  intros [Hpar Hsel Hwork Hpast (hs & l & Hcol) Hmax [Ho1 Ho2 Ho3 Ho4] Hmer Hspl Hhead Hscore] Hknown.
  assert (∀ x p, p ∈ qs → ancestor P' x p ↔ ancestor P x p) as Hanc.
  { intros x p Hp. apply (ancestor_old P n ps (gd_closed _ _ _ _ HG) Hn). by apply (known_dag _ _ _ _ HG), Hpar. }
  split.
  - intros p Hp. by apply known_grow, Hpar.
  - done.
  - intros p Hp. rewrite work_grow by auto. auto.
  - intros b Hb. destruct (Hpast b Hb) as (Hbm & p & Hp & Ha). split; [by apply known_grow|]. exists p.
    split; [done|by apply Hanc].
  - exists hs, l. apply colored_grow; [|done]. intros b Hb. apply (known_dag _ _ _ _ HG). by eapply Hknown.
  - intros p Hp. rewrite !sortable_grow by auto. auto.
  - split.
    + rewrite sortables_grow; [done|]. intros h Hh. apply Ho3, elem_of_app. by left.
    + rewrite sortables_grow; [done|]. intros h Hh. apply Ho3, elem_of_app. by right.
    + intros h Hh. by apply known_grow, Ho3.
    + done.
  - intros x. rewrite Hmer. unfold merged. rewrite (Hanc x _ Hsel).
    split; intros [(p & Hp & Ha) Hna]; (split; [exists p; split; [done|by apply Hanc]|done]).
  - intros x p Hp Ha. rewrite (Hanc x _ Hsel). apply (Hspl x p Hp). by apply Hanc.
  - done.
  - intros dsp Hd. apply Hscore. rewrite lookup_insert_ne in Hd; [done|].
    intros He. destruct (Hpar _ Hsel). pose proof fresh_data. congruence.
Qed.

Lemma parents_old x p : p ∈ ps → ancestor P' x p ↔ ancestor P x p.
Proof using HG Hn HP.
  intros Hp. apply (ancestor_old P n ps (gd_closed _ _ _ _ HG) Hn). by apply (known_dag _ _ _ _ HG), (pk_known _ _ _ HP).
Qed.

Lemma gd_dag_extend : gd_block P m k ps d → gd_dag P' m' g k.
Proof using HG Hn HP.
  intros Hb. pose proof (known_dag _ _ _ _ HG) as Hkd. pose proof (pk_known _ _ _ HP) as Hpk.
  pose proof (gd_closed _ _ _ _ HG) as Hcl. pose proof (gb_selected _ _ _ _ _ Hb) as Hsel.
  assert (n ≠ Hashes.ORIGIN) as Hno by (intros Hno; rewrite Hno, (gd_origin _ _ _ _ HG) in Hn; done).
  assert (n ≠ g) as Hng by (intros Hng; rewrite Hng, (gd_genesis _ _ _ _ HG) in Hn; done).
  split.
  - apply insert_closed; [done|]. auto.
  - by rewrite lookup_insert_ne, (gd_origin _ _ _ _ HG).
  - by rewrite lookup_insert_ne, (gd_genesis _ _ _ _ HG).
  - by rewrite lookup_insert_ne, (gd_genesis_data _ _ _ _ HG).
  - intros h. rewrite !lookup_insert_is_Some'. rewrite (gd_dom _ _ _ _ HG). split; [|tauto].
    intros [<-|[? ?]]; [auto|auto].
  - intros h Hh%lookup_insert_is_Some'. destruct (decide (h = n)) as [->|Hhn].
    + econstructor; [apply lookup_insert_eq|exact Hsel|]. apply parents_old; [done|].
      apply (gd_root _ _ _ _ HG). eauto.
    + destruct Hh as [<-|Hh]; [done|]. apply (ancestor_old P n ps Hcl Hn); [auto|]. by apply (gd_root _ _ _ _ HG).
  - intros h qs d0 Hqs Hd0 Hhg. destruct (decide (h = n)) as [->|Hhn].
    + rewrite lookup_insert_eq in Hqs. rewrite lookup_insert_eq in Hd0. injection Hqs as <-. injection Hd0 as <-.
      apply gd_block_grow; [done|]. intros l hs Hcol b Hbl. destruct (co_blues _ _ _ _ _ _ Hcol) as [d1 Hs|d1 d2 hs1 l1 Hs Hb1].
      * by apply (gb_past _ _ _ _ _ Hb).
      * apply elem_of_app in Hbl as [Hbl|Hbl]; [by apply (gb_past _ _ _ _ _ Hb)|]. by apply (blues_past _ _ _ _ HG _ _ _ Hb1 _ Hs).
    + rewrite lookup_insert_ne in Hqs by done. rewrite lookup_insert_ne in Hd0 by done.
      apply gd_block_grow; [by apply (gd_blocks _ _ _ _ HG h)|]. intros l hs Hcol b Hbl.
      by apply (blues_past _ _ _ _ HG _ _ _ (co_blues _ _ _ _ _ _ Hcol) h Hd0).
Qed.
End extend.


(** The DAG of the genesis alone. *)
Definition genesis_dag (g : Hash) : Dag := <[g := [Hashes.ORIGIN]]> {[Hashes.ORIGIN := []]}.

Lemma gd_dag_genesis g k : g ≠ Hashes.ORIGIN → gd_dag (genesis_dag g) {[g := genesis_ghostdag_data]} g k.
Proof.
  intros Hg. unfold genesis_dag. split.
  - intros y ps p Hy Hp. apply lookup_insert_Some in Hy as [[<- <-]|[_ Hy]].
    + apply list_elem_of_singleton in Hp as ->. apply lookup_insert_is_Some'. right. rewrite lookup_singleton_eq. eauto.
    + apply lookup_singleton_Some in Hy as [_ <-]. by apply elem_of_nil in Hp.
  - by rewrite lookup_insert_ne, lookup_singleton_eq.
  - by rewrite lookup_insert_eq.
  - by rewrite lookup_singleton_eq.
  - intros h. rewrite lookup_singleton_is_Some, lookup_insert_is_Some', lookup_singleton_is_Some. split; [intros <-; auto|].
    intros [Hh [?|?]]; [done|congruence].
  - intros h Hh%lookup_singleton_is_Some. subst h. constructor.
  - intros h ps d _ Hd Hh. apply lookup_singleton_Some in Hd as [? _]. congruence.
Qed.

(** ** Properties *)

(** C8: [ghostdag], on stores and a reachability service that describe one DAG and
    for known parents no two of which are related, returns (no panic, no overflow
    while score and work have room, and as many turns of its loops as there are
    blocks) exactly the data of the specification: the selected parent is the parent
    of greatest blue work, the mergeset is the past of the block outside the past of
    the selected parent, in ascending blue work; it is coloured greedily, a block
    turning blue exactly when its blue anticone has at most [k] blocks and each of
    them has fewer than [k] in its own; score and work are those of the selected
    parent plus the number and the work of the blues. *)
Theorem ghostdag_refines_greedy {E T R U V} `{GhostdagStoreLaws T} `{RelationsStoreReader R}
    `{ReachabilityService U} `{HeaderStoreReader V} (fuel : nat) (self : @GhostdagManager T R U V)
    (P : Dag) (m : GdMap) (Wmax : Z) (ps : list Hash) :
  manager_ok self P m → 0 ≤ k self < 255 → (length ps + size m < fuel)%nat →
  bits_ok self m Wmax → 0 ≤ Wmax < 2 ^ 192 → parents_ok P m ps → room m (k self) Wmax ps →
  ∃ d, ghostdag (E:=E) fuel self ps = Ok d ∧ ghostdag_spec P m (k self) (work_at self) ps d.
Proof.
  intros HM Hk Hf HW HWm HP Hr.
  destruct (ghostdag_ok (E:=E) fuel self P m HM Hk Wmax HW HWm ps Hf HP Hr) as (d & ? & ? & _). eauto.
Qed.

(** C9: the blue set of every block is a k-cluster: data computed by [ghostdag] and
    stored for a new block extends the invariant, by which, for every stored block,
    the recorded anticone sizes are the numbers of blues in the anticone of each
    blue, none exceeds [k], and blue work grows along the DAG. *)
Theorem ghostdag_keeps_kclusters {E T R U V} `{GhostdagStoreLaws T} `{RelationsStoreReader R}
    `{ReachabilityService U} `{HeaderStoreReader V} (fuel : nat) (self : @GhostdagManager T R U V)
    (P : Dag) (m : GdMap) (Wmax : Z) (n : Hash) (ps : list Hash) (d : GhostdagData) :
  manager_ok self P m → 0 ≤ k self < 255 → (length ps + size m < fuel)%nat →
  bits_ok self m Wmax → 0 ≤ Wmax < 2 ^ 192 → parents_ok P m ps → room m (k self) Wmax ps →
  P !! n = None → ghostdag (E:=E) fuel self ps = Ok d →
  gd_dag (<[n := ps]> P) (<[n := d]> m) (genesis_hash self) (k self).
Proof.
  intros HM Hk Hf HW HWm HP Hr Hn Hd.
  destruct (ghostdag_ok (E:=E) fuel self P m HM Hk Wmax HW HWm ps Hf HP Hr) as (d' & Hd' & _ & Hb).
  rewrite Hd in Hd'. injection Hd' as <-.
  eapply gd_dag_extend; [apply HM|done..].
Qed.

(** ** Witnesses *)

(** The state after the genesis [1]. *)
Definition ex_reach_store : Memory.MemoryReachabilityStore := (default (Memory.new, ∅, ∅) (play_all (genesis_state Memory.new) [NewBlock 1%N [Hashes.ORIGIN] Hashes.ORIGIN []])).1.1.
Definition ex_genesis_data : GdMap := {[1%N := genesis_ghostdag_data]}.
Definition ex_manager : @GhostdagManager DbGd.DbGhostdagStore DbRel.DbRelationsStore (MTReachabilityService Memory.MemoryReachabilityStore) DbHeadersStore :=
  mkManager 1%N 18 (DbGd.mk ex_genesis_data (to_compact <$> ex_genesis_data)) (DbRel.mk (genesis_dag 1%N) ∅)
    (snd (insert_header 1%N (mkHeader 1%N 0 [[]] 0%N 0%N 0%N 7 0x1d00ffff 0 3 0 5 0%N) 0 (mkHeaders ∅ ∅ ∅)))
    (mkService ex_reach_store).

Lemma ex_manager_ok : manager_ok ex_manager (genesis_dag 1%N) ex_genesis_data.
Proof.
  split.
  - done.
  - done.
  - intros h ps Hps. change (read_rel PARENTS_PREFIX (genesis_dag 1%N) h = Ok ps). unfold read_rel. by rewrite Hps.
  - apply mt_service_laws, reach_state_inv. assert (bool_decide (genesis_dag 1%N
      = (default (Memory.new, ∅, ∅) (play_all (genesis_state Memory.new) [NewBlock 1%N [Hashes.ORIGIN] Hashes.ORIGIN []])).1.2) = true)
      as ->%bool_decide_eq_true_1 by by vm_compute.
    apply played_reach; by vm_compute.
  - apply gd_dag_genesis. intros Ho. assert (bool_decide (1%N = Hashes.ORIGIN) = false) as Hf%bool_decide_eq_false_1 by by vm_compute. done.
Qed.

Lemma ex_known (Q : Hash → Prop) : Q 1%N → ∀ h, is_Some (ex_genesis_data !! h) → Q h.
Proof. intros HQ h Hh. unfold ex_genesis_data in Hh. apply lookup_singleton_is_Some in Hh. by subst h. Qed.

Lemma ex_bits : bits_ok ex_manager ex_genesis_data (2 ^ 32 + 2 ^ 20).
Proof. refine (ex_known _ _). exists 0x1d00ffff. split_and!; [by vm_compute|done|done|done|]. apply Z.leb_le. by vm_compute. Qed.

Lemma ex_parents : parents_ok (genesis_dag 1%N) ex_genesis_data [1%N].
Proof.
  split; [done| |].
  - intros p ->%list_elem_of_singleton. unfold ex_genesis_data. rewrite lookup_singleton_eq. eauto.
  - by intros p q ->%list_elem_of_singleton ->%list_elem_of_singleton.
Qed.

Lemma ex_room : room ex_genesis_data 18 (2 ^ 32 + 2 ^ 20) [1%N].
Proof.
  intros p d ->%list_elem_of_singleton Hd. unfold ex_genesis_data in Hd. rewrite lookup_singleton_eq in Hd.
  injection Hd as <-. split_and!; [by apply Z.leb_le..|by apply Z.ltb_lt].
Qed.

Lemma ghostdag_refines_greedy_witness :
  ∃ d, ghostdag (E:=unit) 9 ex_manager [1%N] = Ok d
    ∧ ghostdag_spec (genesis_dag 1%N) ex_genesis_data 18 (work_at ex_manager) [1%N] d.
Proof.
  apply (ghostdag_refines_greedy 9 ex_manager (genesis_dag 1%N) ex_genesis_data (2 ^ 32 + 2 ^ 20) [1%N]);
    [exact ex_manager_ok|done|by apply Nat.ltb_lt|exact ex_bits|done|exact ex_parents|exact ex_room].
Defined.

Definition ex_next : GhostdagData := Eval vm_compute in
  match ghostdag (E:=unit) 9 ex_manager [1%N] with Ok d => d | _ => genesis_ghostdag_data end.

Lemma ghostdag_keeps_kclusters_witness :
  gd_dag (<[2%N := [1%N]]> (genesis_dag 1%N)) (<[2%N := ex_next]> ex_genesis_data) 1%N 18.
Proof.
  apply (ghostdag_keeps_kclusters (E:=unit) 9 ex_manager (genesis_dag 1%N) ex_genesis_data (2 ^ 32 + 2 ^ 20) 2%N [1%N]);
    [exact ex_manager_ok|done|by apply Nat.ltb_lt|exact ex_bits|done|exact ex_parents|exact ex_room|by vm_compute|].
  by vm_compute.
Defined.

(** The state after one more block, [2], and the data of a third one. *)
Definition ex_events2 : list Event :=
  [NewBlock 1%N [Hashes.ORIGIN] Hashes.ORIGIN []; NewBlock 2%N [1%N] 1%N []].
Definition ex_dag2 : Dag := <[2%N := [1%N]]> (genesis_dag 1%N).
Definition ex_data2 : GdMap := <[2%N := ex_next]> ex_genesis_data.
Definition ex_header (h : Hash) : Header := mkHeader h 0 [[]] 0%N 0%N 0%N 7 0x1d00ffff 0 3 0 5 1%N.
Definition ex_headers2 : DbHeadersStore :=
  snd (insert_header 2%N (ex_header 2%N) 0 (snd (insert_header 1%N (ex_header 1%N) 0 (mkHeaders ∅ ∅ ∅)))).
Definition ex_reach2 : Memory.MemoryReachabilityStore :=
  (default (Memory.new, ∅, ∅) (play_all (genesis_state Memory.new) ex_events2)).1.1.
Definition ex_gd_store2 : DbGd.DbGhostdagStore := DbGd.mk ex_data2 (to_compact <$> ex_data2).
Definition ex_manager2 : @GhostdagManager DbGd.DbGhostdagStore DbRel.DbRelationsStore (MTReachabilityService Memory.MemoryReachabilityStore) DbHeadersStore :=
  mkManager 1%N 18 ex_gd_store2 (DbRel.mk ex_dag2 ∅) ex_headers2 (mkService ex_reach2).

Lemma ex_reach2_ok : reach_state ex_reach2 ex_dag2.
Proof.
  assert (bool_decide (ex_dag2 = (default (Memory.new, ∅, ∅) (play_all (genesis_state Memory.new) ex_events2)).1.2) = true)
    as ->%bool_decide_eq_true_1 by by vm_compute.
  apply played_reach; by vm_compute.
Qed.

Lemma ex_dag2_ok : gd_dag ex_dag2 ex_data2 1%N 18.
Proof.
  destruct (ghostdag_ok (E:=unit) 9 ex_manager _ _ ex_manager_ok ltac:(done) _ ex_bits ltac:(done) [1%N]) as (d & Hd & _ & Hb);
    [by apply Nat.ltb_lt|exact ex_parents|exact ex_room|].
  assert (ghostdag (E:=unit) 9 ex_manager [1%N] = Ok ex_next) as Hn by (vm_compute; reflexivity).
  rewrite Hn in Hd. apply ok_inj in Hd. rewrite <- Hd in Hb.
  apply gd_dag_extend; [apply (mk_dag _ _ _ ex_manager_ok)|by vm_compute|exact ex_parents|exact Hb].
Qed.

Lemma ex_manager2_ok : manager_ok ex_manager2 ex_dag2 ex_data2.
Proof.
  split; [done|done| | |exact ex_dag2_ok].
  - intros h ps Hps. change (read_rel PARENTS_PREFIX ex_dag2 h = Ok ps). unfold read_rel. by rewrite Hps.
  - apply mt_service_laws, reach_state_inv, ex_reach2_ok.
Qed.

Lemma ex_known2 (Q : Hash → Prop) : Q 1%N → Q 2%N → ∀ h, is_Some (ex_data2 !! h) → Q h.
Proof.
  intros HQ1 HQ2 h Hh. unfold ex_data2 in Hh. apply lookup_insert_is_Some' in Hh as [<-|Hh]; [done|]. by apply ex_known.
Qed.

Definition ex_third : GhostdagData := Eval vm_compute in
  match ghostdag (E:=unit) 9 ex_manager2 [2%N] with Ok d => d | _ => genesis_ghostdag_data end.

Lemma ex_parents2 : parents_ok ex_dag2 ex_data2 [2%N].
Proof.
  split; [done| |].
  - intros p ->%list_elem_of_singleton. unfold ex_data2. rewrite lookup_insert_eq. eauto.
  - by intros p q ->%list_elem_of_singleton ->%list_elem_of_singleton.
Qed.

Lemma ex_third_block : gd_block ex_dag2 ex_data2 18 [2%N] ex_third.
Proof.
  destruct (ghostdag_ok (E:=unit) 9 ex_manager2 _ _ ex_manager2_ok ltac:(done) (2 ^ 32 + 2 ^ 20)) with (ps := [2%N]) as (d & Hd & _ & Hb).
  - refine (ex_known2 _ _ _); (exists 0x1d00ffff; split_and!; [by vm_compute|done|done|done|]; apply Z.leb_le; by vm_compute).
  - done.
  - by apply Nat.ltb_lt.
  - exact ex_parents2.
  - intros p d ->%list_elem_of_singleton Hd. unfold ex_data2 in Hd. rewrite lookup_insert_eq in Hd. apply (inj Some) in Hd. rewrite <- Hd.
    split_and!; [apply Z.leb_le; by vm_compute..|apply Z.ltb_lt; by vm_compute].
  - assert (ghostdag (E:=unit) 9 ex_manager2 [2%N] = Ok ex_third) as Hn by by vm_compute. rewrite Hn in Hd. by injection Hd as <-.
Qed.
