(* ===== verification/Window.v ===== *)
(** * Block windows

    [processes/traversal_manager.rs], [model/stores/block_window_cache.rs] and
    [processes/past_median_time.rs]: the blocks of greatest blue work in the past of
    a block, collected in a bounded heap along the selected chain, and the median
    time of such a window. *)

From S2P Require Import Prelude Hash Interval Uint Target ReachStore ReachMain ReachService Relations Headers GhostdagStore Ghostdag GhostdagInv.

(** ** The heap *)

(** [BinaryHeap<Reverse<SortableBlock>>]: its items, in an order that the library
    leaves open.  [peek] gives the greatest [Reverse], which is the least block. *)
Definition BlockWindowHeap : Type := list SortableBlock.

Fixpoint least (best : SortableBlock) (l : list SortableBlock) : SortableBlock :=
  match l with
  | [] => best
  | x :: l' => least (match sb_cmp x best with Lt => x | _ => best end) l'
  end.
Definition heap_peek (h : BlockWindowHeap) : option SortableBlock :=
  match h with [] => None | x :: l => Some (least x l) end.

Fixpoint remove_one (x : SortableBlock) (l : BlockWindowHeap) : BlockWindowHeap :=
  match l with
  | [] => []
  | y :: l' => if decide (x = y) then l' else y :: remove_one x l'
  end.
Definition heap_pop (h : BlockWindowHeap) : BlockWindowHeap :=
  match heap_peek h with Some x => remove_one x h | None => h end.
Definition heap_push (x : SortableBlock) (h : BlockWindowHeap) : BlockWindowHeap := x :: h.

Record BoundedSizeBlockHeap : Type := mkBounded { binary_heap : BlockWindowHeap; bounded_size : nat }.

Definition from_binary_heap (size : nat) (binary_heap : BlockWindowHeap) : BoundedSizeBlockHeap :=
  mkBounded binary_heap size.
Definition bounded_new (size : nat) : BoundedSizeBlockHeap := from_binary_heap size [].

(** [*max < r_sortable_block] on reversed blocks. *)
Definition reverse_lt (a b : SortableBlock) : bool :=
  match sb_cmp b a with Lt => true | _ => false end.

Definition try_push (hash : Hash) (blue_work : Z) (self : BoundedSizeBlockHeap) : bool * BoundedSizeBlockHeap :=
  let r_sortable_block := mkSortable hash blue_work in
  let heap := binary_heap self in
  if (length heap =? bounded_size self)%nat then
    let refused := match heap_peek heap with
                   | Some max => reverse_lt max r_sortable_block
                   | None => false
                   end in
    if refused then (false, self)
    else (true, mkBounded (heap_push r_sortable_block (heap_pop heap)) (bounded_size self))
  else (true, mkBounded (heap_push r_sortable_block heap) (bounded_size self)).

(** ** The traversal manager *)

Class BlockWindowCacheReader (U : Type) : Type := { cache_get : U → Hash → option BlockWindowHeap }.

(** The cache of windows: what it holds at the moment. *)
Definition BlockWindowCacheStore : Type := gmap Hash BlockWindowHeap.
#[export] Instance block_window_cache : BlockWindowCacheReader BlockWindowCacheStore := {|
  cache_get c hash := (c : gmap Hash BlockWindowHeap) !! hash
|}.

Record DagTraversalManager {T U : Type} : Type := mkTraversal {
  tm_genesis_hash : Hash;
  tm_ghostdag_store : T;
  block_window_cache_for_difficulty : U;
  block_window_cache_for_past_median_time : U;
  difficulty_window_size : nat;
  past_median_time_window_size : nat;
}.
Arguments DagTraversalManager : clear implicits.
Arguments mkTraversal {T U}.

Section traversal.
Context {E T U : Type} `{GhostdagStoreReader T} `{BlockWindowCacheReader U} (fuel : nat).
Context (self : DagTraversalManager T U).

Fixpoint push_while (l : list SortableBlock) (heap : BoundedSizeBlockHeap) : BoundedSizeBlockHeap :=
  match l with
  | [] => heap
  | block :: l' =>
      let '(pushed, heap) := try_push (sb_hash block) (sb_blue_work block) heap in
      if pushed then push_while l' heap else heap
  end.

Definition try_push_mergeset (heap : BoundedSizeBlockHeap) (ghostdag_data : GhostdagData)
    (selected_parent_blue_work : Z) : outcome E (bool * BoundedSizeBlockHeap) :=
  let '(pushed, heap) := try_push (selected_parent ghostdag_data) selected_parent_blue_work heap in
  if negb pushed then mret (true, heap)
  else
    l ← descending_mergeset_without_selected_parent (tm_ghostdag_store self) ghostdag_data;
    mret (false, push_while l heap).

(** The walk down the selected chain. *)
Definition window_walk (heap : BoundedSizeBlockHeap) (high_ghostdag_data : GhostdagData)
    : outcome E BoundedSizeBlockHeap :=
  oloop fuel (λ '(window_heap, current_ghostdag),
    assert (negb (Hashes.is_origin (selected_parent current_ghostdag)));;
    if bool_decide (selected_parent current_ghostdag = tm_genesis_hash self) then mret (inr window_heap)
    else
      parent_ghostdag ← unwrap (get_gd_data (tm_ghostdag_store self) (selected_parent current_ghostdag));
      '(too_low, window_heap) ← try_push_mergeset window_heap current_ghostdag (blue_work parent_ghostdag);
      if too_low : bool then mret (inr window_heap) else mret (inl (window_heap, parent_ghostdag)))
    (heap, high_ghostdag_data).

Definition window_cache (window_size : nat) : option U :=
  if (window_size =? difficulty_window_size self)%nat then Some (block_window_cache_for_difficulty self)
  else if (window_size =? past_median_time_window_size self)%nat
  then Some (block_window_cache_for_past_median_time self)
  else None.

Definition block_window (high_ghostdag_data : GhostdagData) (window_size : nat)
    : outcome E BlockWindowHeap :=
  if (window_size =? 0)%nat then mret []
  else
    match window_cache window_size ≫= (λ c, cache_get c (selected_parent high_ghostdag_data)) with
    | Some selected_parent_binary_heap =>
        let window_heap := from_binary_heap window_size selected_parent_binary_heap in
        if bool_decide (selected_parent high_ghostdag_data ≠ tm_genesis_hash self) then
          work ← unwrap (get_blue_work (tm_ghostdag_store self) (selected_parent high_ghostdag_data));
          '(_, window_heap) ← try_push_mergeset window_heap high_ghostdag_data work;
          mret (binary_heap window_heap)
        else mret (binary_heap window_heap)
    | None =>
        window_heap ← window_walk (bounded_new window_size) high_ghostdag_data;
        mret (binary_heap window_heap)
    end.
End traversal.

(** ** Past median time *)

Record PastMedianTimeManager {T U V : Type} : Type := mkMedian {
  pmt_headers_store : T;
  pmt_traversal_manager : DagTraversalManager U V;
  pmt_timestamp_deviation_tolerance : nat;
  pmt_genesis_timestamp : Z;
}.
Arguments PastMedianTimeManager : clear implicits.
Arguments mkMedian {T U V}.

Section median.
Context {E T U V : Type} `{HeaderStoreReader T} `{GhostdagStoreReader U} `{BlockWindowCacheReader V} (fuel : nat).
Context (self : PastMedianTimeManager T U V).

Definition calc_past_median_time (ghostdag_data : GhostdagData) : outcome E (Z * BlockWindowHeap) :=
  twice ← mul64 2 (Z.of_nat (pmt_timestamp_deviation_tolerance self));
  size ← sub64 twice 1;
  window ← block_window fuel (pmt_traversal_manager self) ghostdag_data (Z.to_nat size);
  if bool_decide (window = []) then mret (pmt_genesis_timestamp self, [])
  else
    window_timestamps ← omap_each (λ item, unwrap (get_timestamp (pmt_headers_store self) (sb_hash item))) window;
    let window_timestamps := merge_sort Z.le window_timestamps in
    t ← unwrap_opt (window_timestamps !! (length window_timestamps / 2)%nat);
    mret (t, window).
End median.
