(* ===== verification/WindowProof.v ===== *)
(** * Correctness of block windows

    A window holds the blocks of greatest blue work in the past of a block, the
    genesis excluded, whether it was read from the cache of the selected parent or
    collected along the chain; so nodes whose caches differ agree on the window, and
    on the median time they compute from it. *)

From S2P Require Import Prelude Hash Interval Uint Target ReachStore ReachMain ReachService Relations Headers GhostdagStore Ghostdag GhostdagInv GhostdagMerge GhostdagColor GhostdagRun Window.

(** ** The best of a set *)

(** [h] holds the [n] greatest elements of [S]. *)
Record top (n : nat) (S : SortableBlock → Prop) (h : BlockWindowHeap) : Prop := {
  top_nodup : NoDup h;
  top_in : ∀ x, x ∈ h → S x;
  top_length : (length h ≤ n)%nat;
  top_rest : ∀ y, S y → (y ∉ h) → length h = n ∧ ∀ x, x ∈ h → sb_lt y x;
}.

Lemma sb_lt_irrefl x : ¬ sb_lt x x.
Proof. unfold sb_lt. rewrite (proj2 (proj2 (sb_cmp_spec x x))); done. Qed.

Lemma sb_trichotomy x y : sb_lt x y ∨ x = y ∨ sb_lt y x.
Proof.
  destruct (sb_cmp x y) eqn:Hc; [right; left; by apply sb_cmp_spec|by left|right; right].
  unfold sb_lt. rewrite (sb_cmp_antisym x y), Hc. done.
Qed.

Lemma top_ext n S S' h : (∀ x, S x ↔ S' x) → top n S h → top n S' h.
Proof. intros HS [H1 H2 H3 H4]. split; [done| |done|]; intros x Hx; [by apply HS, H2|by apply H4, HS]. Qed.

(** The greatest [n] elements are determined. *)
Lemma top_incl n S h h' : top n S h → top n S h' → ∀ x, x ∈ h → x ∈ h'.
Proof.
  intros [Hn Hin Hl Hr] [Hn' Hin' Hl' Hr'] x Hx. destruct (decide (x ∈ h')) as [|Hx']; [done|].
  destruct (Hr' x (Hin x Hx) Hx') as [Hfull Hlt].
  assert (¬ ∀ y, y ∈ h' → y ∈ h) as Hno.
  { intros Hall. assert (length (x :: h') ≤ length h)%nat as Hle; [|simpl in Hle; lia].
    apply submseteq_length, NoDup_submseteq; [by constructor|]. intros y [->|Hy]%elem_of_cons; auto. }
  assert (∃ y, y ∈ h' ∧ y ∉ h) as (y & Hy & Hyn).
  { destruct (decide (Forall (λ y, y ∈ h) h')) as [Hf|Hf].
    - destruct Hno. by apply Forall_forall.
    - apply not_Forall_Exists in Hf; [|intros y; solve_decision]. apply Exists_exists in Hf as (y & ? & ?). eauto. }
  destruct (Hr y (Hin' y Hy) Hyn) as [_ Hlt']. destruct (sb_lt_irrefl x). by transitivity y; [apply Hlt|apply Hlt'].
Qed.

Lemma top_unique n S h h' : top n S h → top n S h' → h ≡ₚ h'.
Proof.
  intros Hh Hh'. apply NoDup_Permutation; [apply Hh|apply Hh'|]. intros x. split; by eapply top_incl.
Qed.

Lemma top_empty n : top n (λ _, False) [].
Proof. split; [constructor|set_solver|simpl; lia|done]. Qed.

(** An element below a full heap changes nothing. *)
Lemma top_skip n S h y : top n S h → length h = n → (∀ x, x ∈ h → sb_lt y x) → top n (λ x, S x ∨ x = y) h.
Proof.
  intros [H1 H2 H3 H4] Hf Hlt. split; [done|auto|done|]. intros z [Hz| ->] Hn; [by apply H4|auto].
Qed.

(** ** Heap operations *)

Lemma least_ok best l : least best l ∈ best :: l ∧ ∀ x, x ∈ best :: l → sb_le (least best l) x.
Proof.
  revert best. induction l as [|y l IH]; intros best; simpl.
  { split; [left|]. intros x ->%list_elem_of_singleton. apply sb_le_lteq. by right. }
  set (b := match sb_cmp y best with Lt => y | _ => best end).
  assert (b ∈ [best; y] ∧ sb_le b best ∧ sb_le b y) as (Hb & H1 & H2).
  { assert (sb_le best best ∧ sb_le y y) as [? ?] by (split; apply sb_le_lteq; by right).
    subst b. pose proof (sb_cmp_antisym y best) as Ha. unfold sb_le in *.
    destruct (sb_cmp y best) eqn:Hc; (split; [set_solver|]); split; try done; try congruence; by rewrite Ha. }
  destruct (IH b) as [Hin Hmin]. split.
  - apply elem_of_cons in Hin as [Hin|Hin]; [rewrite Hin; set_solver|set_solver].
  - intros x Hx. assert (sb_le (least b l) b) as Hbm by (apply Hmin; left).
    apply elem_of_cons in Hx as [->|[->|Hx]%elem_of_cons]; [by transitivity b..|]. apply Hmin. by right.
Qed.

Lemma heap_peek_ok h x : heap_peek h = Some x → x ∈ h ∧ ∀ y, y ∈ h → sb_le x y.
Proof. destruct h as [|b l]; [done|]. intros [= <-]. apply least_ok. Qed.

Lemma remove_one_ok x h : NoDup h → x ∈ h →
  NoDup (remove_one x h) ∧ length h = S (length (remove_one x h))
  ∧ ∀ y, y ∈ remove_one x h ↔ y ∈ h ∧ y ≠ x.
Proof.
  induction 1 as [|z h Hz Hnd IH]; [by intros ?%elem_of_nil|]. intros Hx. simpl.
  destruct (decide (x = z)) as [->|Hne].
  { split_and!; [done|done|]. intros y. rewrite elem_of_cons. split; [|naive_solver]. intros Hy. split; [auto|]. by intros ->. }
  apply elem_of_cons in Hx as [?|Hx]; [done|]. destruct (IH Hx) as (Hn & Hl & Hin). split_and!.
  - constructor; [|done]. rewrite Hin. tauto.
  - simpl. by rewrite Hl.
  - intros y. rewrite !elem_of_cons, Hin. naive_solver.
Qed.

Lemma try_push_ok n S heap hash work b heap' : (0 < n)%nat → bounded_size heap = n → top n S (binary_heap heap) →
  ¬ S (mkSortable hash work) → try_push hash work heap = (b, heap') →
  bounded_size heap' = n ∧ top n (λ x, S x ∨ x = mkSortable hash work) (binary_heap heap')
  ∧ (b = false → length (binary_heap heap') = n ∧ ∀ x, x ∈ binary_heap heap' → sb_lt (mkSortable hash work) x).
Proof.
  destruct heap as [h n']. cbn. intros Hn -> Ht HS. unfold try_push. cbn. set (r := mkSortable hash work) in *.
  pose proof Ht as [Hnd Hin Hlen Hrest]. assert (r ∉ h) as Hr by auto.
  destruct (Nat.eqb_spec (length h) n) as [Hf|Hf].
  - destruct (heap_peek h) as [mn|] eqn:Hp; [|destruct h; simpl in Hf; [lia|done]].
    destruct (heap_peek_ok h mn Hp) as [Hmn Hle]. unfold reverse_lt.
    destruct (sb_cmp r mn) eqn:Hc; [apply sb_cmp_spec in Hc; congruence| |].
    + intros [= <- <-]. cbn.
      assert (∀ x, x ∈ h → sb_lt r x) as Hlt.
      { intros x Hx. destruct (proj1 (sb_le_lteq mn x) (Hle x Hx)) as [?| ->]; [by transitivity mn|done]. }
      split_and!; [done|by apply top_skip|auto].
    + intros [= <- <-]. cbn. unfold heap_pop. rewrite Hp. destruct (remove_one_ok mn h Hnd Hmn) as (Hnd' & Hl' & Hin').
      assert (sb_lt mn r) as Hlt by (unfold sb_lt; rewrite (sb_cmp_antisym r mn), Hc; done).
      split_and!; [done| |done]. unfold heap_push. split.
      * constructor; [|done]. rewrite Hin'. tauto.
      * intros x [->|Hx]%elem_of_cons; [by right|]. left. apply Hin. by apply Hin' in Hx as [? _].
      * simpl. lia.
      * intros y [Hy| ->] Hny; [|destruct Hny; left]. split; [simpl; lia|].
        assert (y = mn ∨ sb_lt y mn) as Hymn.
        { destruct (decide (y ∈ h)) as [Hyh|Hyh]; [|right; by apply Hrest].
          left. destruct (decide (y = mn)); [done|]. destruct Hny. right. by apply Hin'. }
        intros x [->|Hx]%elem_of_cons.
        -- destruct Hymn as [->|?]; [done|by transitivity mn].
        -- apply Hin' in Hx as [Hx Hxn]. assert (sb_lt mn x) as Hmx.
           { destruct (proj1 (sb_le_lteq mn x) (Hle x Hx)) as [?|?]; [done|congruence]. }
           destruct Hymn as [->|?]; [done|by transitivity mn].
  - intros [= <- <-]. cbn. split_and!; [done| |done]. unfold heap_push. split.
    + by constructor.
    + intros x [->|Hx]%elem_of_cons; [by right|left; auto].
    + simpl. lia.
    + intros y [Hy| ->] Hny; [|destruct Hny; left]. destruct (Hrest y Hy) as [Hc _]; [|lia].
      intros Hyh. destruct Hny. by right.
Qed.

(** Pushing in descending order stops as soon as nothing more can enter. *)
Lemma push_while_ok n l : ∀ S heap, (0 < n)%nat → bounded_size heap = n → top n S (binary_heap heap) →
  StronglySorted (flip sb_lt) l → (∀ x, x ∈ l → ¬ S x) →
  bounded_size (push_while l heap) = n ∧ top n (λ x, S x ∨ x ∈ l) (binary_heap (push_while l heap)).
Proof.
  induction l as [|[h w] l IH]; intros S heap Hn Hsz Ht Hs Hnew; cbn [push_while].
  { split; [done|]. eapply top_ext; [|done]. set_solver. }
  apply StronglySorted_inv in Hs as [Hs Hlt]. rewrite Forall_forall in Hlt. cbn [sb_hash sb_blue_work].
  destruct (try_push h w heap) as [b heap'] eqn:Hp.
  destruct (try_push_ok n S heap h w b heap' Hn Hsz Ht) as (Hsz' & Ht' & Hstop); [apply Hnew; left|done|].
  destruct b.
  - destruct (IH _ heap' Hn Hsz' Ht' Hs) as [? Ht2].
    { intros x Hx [HS| ->]; [eapply Hnew; [by right|done]|]. by apply (sb_lt_irrefl (mkSortable h w)), Hlt. }
    split; [done|]. eapply top_ext; [|done]. intros x. rewrite elem_of_cons. tauto.
  - split; [done|]. destruct (Hstop eq_refl) as [Hfull Hall]. destruct Ht' as [H1 H2 H3 H4].
    split; [done| |done|].
    + intros x Hx. destruct (H2 x Hx) as [?| ->]; [by left|right; left].
    + intros y [Hy|[->|Hy]%elem_of_cons] Hny; [apply H4; auto|apply H4; auto|]. split; [done|].
      intros x Hx. transitivity (mkSortable h w); [by apply Hlt|by apply Hall].
Qed.

(** ** Windows of the DAG *)

Section windows.
Context (P : Dag) (m : GdMap) (g : Hash) (k : Z) (HG : gd_dag P m g k).

(** The past of a block with parents [ps], without the genesis. *)
Definition in_window (ps : list Hash) (x : Hash) : Prop :=
  is_Some (m !! x) ∧ x ≠ g ∧ ∃ p, p ∈ ps ∧ ancestor P x p.
Definition window_of (ps : list Hash) (sb : SortableBlock) : Prop :=
  ∃ x, sb = as_sortable m x ∧ in_window ps x.

Lemma window_of_block ps x : window_of ps (as_sortable m x) ↔ in_window ps x.
Proof using. split; [|by exists x]. intros (y & Heq & Hy). injection Heq as ->. done. Qed.

Lemma lower_work x y : work_of m x < work_of m y → sb_lt (as_sortable m x) (as_sortable m y).
Proof using. intros Hlt. apply sb_cmp_spec. by left. Qed.

Context (ps : list Hash) (d : GhostdagData) (Hd : gd_block P m k ps d).
Abbreviation sp := (selected_parent d).
Abbreviation ms := (unordered_mergeset_without_selected_parent d).

Lemma merged_below x : x ∈ ms → sb_lt (as_sortable m x) (as_sortable m sp).
Proof using HG Hd.
  intros Hx. pose proof (mo_known _ _ (gb_order _ _ _ _ _ Hd) x Hx) as Hk.
  apply (gb_merged _ _ _ _ _ Hd) in Hx as [(p & Hp & Ha) Hn].
  pose proof (gb_max _ _ _ _ _ Hd p Hp) as Hle. pose proof (gb_parents _ _ _ _ _ Hd p Hp) as Hpk.
  assert (p ≠ sp) as Hps by congruence.
  assert (sb_lt (as_sortable m p) (as_sortable m sp)) as Hlt.
  { apply sb_le_lteq in Hle as [?|Heq]; [done|]. by injection Heq. }
  destruct (ancestor_work _ _ _ _ HG x p Ha Hk Hpk) as [->|Hw]; [done|].
  transitivity (as_sortable m p); [by apply lower_work|done].
Qed.

Lemma genesis_window : sp = g → ∀ x, ¬ in_window ps x.
Proof using HG Hd.
  intros Hsp x (Hx & Hxg & p & Hp & Ha). pose proof (gb_parents _ _ _ _ _ Hd p Hp) as Hpk.
  pose proof (gb_max _ _ _ _ _ Hd p Hp) as Hle. rewrite Hsp in Hle.
  assert (p = g) as ->.
  { destruct (ancestor_work _ _ _ _ HG g p (gd_root _ _ _ _ HG p Hpk)) as [?|Hlt]; [eexists; apply (gd_genesis_data _ _ _ _ HG)|done|done|].
    apply sb_le_lteq in Hle as [Hc|Heq]; [|by injection Heq].
    destruct (sb_lt_irrefl (as_sortable m p)). transitivity (as_sortable m g); [done|by apply lower_work]. }
  destruct (ancestor_work _ _ _ _ HG x g Ha Hx Hpk) as [?|Hlt]; [done|].
  destruct (ancestor_work _ _ _ _ HG g x (gd_root _ _ _ _ HG x Hx) Hpk Hx) as [?|?]; [congruence|lia].
Qed.

Context (qs : list Hash) (Hqs : P !! sp = Some qs).

Lemma parent_window_below x : in_window qs x → sb_lt (as_sortable m x) (as_sortable m sp).
Proof using HG Hd Hqs.
  intros (Hx & _ & q & Hq & Ha). pose proof (gb_parents _ _ _ _ _ Hd _ (gb_selected _ _ _ _ _ Hd)) as Hs. apply lower_work.
  destruct (ancestor_work _ _ _ _ HG x sp) as [Heq|?]; [by econstructor|done|done| |done].
  assert (is_Some (m !! q)) as Hqk by (eapply (known_past _ _ _ _ HG x q Hx); [by eapply (gd_closed _ _ _ _ HG)|done]).
  destruct (parent_work _ _ _ _ HG sp qs q Hqs Hs Hq) as [_ Hlt].
  { intros ->. rewrite (origin_unknown _ _ _ _ HG) in Hqk. by destruct Hqk. }
  rewrite Heq in Ha. destruct (ancestor_work _ _ _ _ HG sp q Ha Hs Hqk) as [He|?]; [rewrite <- He in Hlt; lia|lia].
Qed.

Lemma window_split : sp ≠ g → ∀ x, in_window ps x ↔ x = sp ∨ x ∈ ms ∨ in_window qs x.
Proof using HG Hd Hqs.
  intros Hg x. pose proof (gb_selected _ _ _ _ _ Hd) as Hsel. pose proof (gb_parents _ _ _ _ _ Hd _ Hsel) as Hs. split.
  - intros (Hx & Hxg & p & Hp & Ha). destruct (gb_split _ _ _ _ _ Hd x p Hp Ha) as [Hsp|?]; [|auto].
    inversion Hsp as [|? rs r Hr Hin Har]; [by left|]. right. right. rewrite Hqs in Hr. injection Hr as <-. split_and!; eauto.
  - intros [->|[Hx|(Hx & Hxg & q & Hq & Ha)]].
    + split_and!; [done|done|]. exists sp. split; [done|constructor].
    + split_and!; [by apply (mo_known _ _ (gb_order _ _ _ _ _ Hd))| |by apply (gb_merged _ _ _ _ _ Hd)].
      apply (gb_merged _ _ _ _ _ Hd) in Hx as [_ Hn]. intros ->. apply Hn. by apply (gd_root _ _ _ _ HG).
    + split_and!; [done|done|]. exists sp. split; [done|]. by econstructor.
Qed.

(** The three parts do not overlap. *)
Lemma window_parts x : (x = sp ∨ x ∈ ms) → ¬ in_window qs x.
Proof using HG Hd Hqs.
  intros [->|Hx] Hin.
  - by apply (sb_lt_irrefl (as_sortable m sp)), parent_window_below.
  - apply (gb_merged _ _ _ _ _ Hd) in Hx as [_ Hn]. destruct Hin as (_ & _ & q & Hq & Ha). apply Hn. by econstructor.
Qed.
End windows.

(** ** The walk and the cache *)

(** What the traversal manager relies on: a store of right data, and caches that
    hold windows. *)
Record traversal_ok {T U} `{GhostdagStoreLaws T} `{BlockWindowCacheReader U} (self : DagTraversalManager T U)
    (P : Dag) (m : GdMap) (k : Z) : Prop := {
  tv_ok : gd_ok (tm_ghostdag_store self);
  tv_abs : gd_abs (tm_ghostdag_store self) = m;
  tv_dag : gd_dag P m (tm_genesis_hash self) k;
  tv_cache : ∀ n c h heap qs, window_cache self n = Some c → cache_get c h = Some heap →
    is_Some (m !! h) → P !! h = Some qs → top n (window_of P m (tm_genesis_hash self) qs) heap;
}.

Section walk.
Context {E T U : Type} `{GhostdagStoreLaws T} `{BlockWindowCacheReader U} (fuel : nat).
Context (self : DagTraversalManager T U) (P : Dag) (m : GdMap) (k : Z) (HT : traversal_ok self P m k).
Context (n : nat) (Hn : (0 < n)%nat).
Abbreviation g := (tm_genesis_hash self).
Abbreviation HG := (tv_dag _ _ _ _ HT).
Abbreviation window := (window_of P m g).

Lemma traversal_read {A} (f : GhostdagData → A) h d : m !! h = Some d →
  read_field (gd_abs (tm_ghostdag_store self)) f h = Ok (f d).
Proof using HT. intros Hd. unfold read_field. by rewrite (tv_abs _ _ _ _ HT), Hd. Qed.

(** The selected parent and the mergeset of a block are pushed, or the selected
    parent was already too low. *)
Lemma try_push_mergeset_ok ps d heap S : gd_block P m k ps d → bounded_size heap = n → top n S (binary_heap heap) →
  (∀ x, x = selected_parent d ∨ x ∈ unordered_mergeset_without_selected_parent d → ¬ S (as_sortable m x)) →
  ∃ b heap', try_push_mergeset (E:=E) self heap d (work_of m (selected_parent d)) = Ok (b, heap')
    ∧ bounded_size heap' = n
    ∧ top n (λ sb, S sb ∨ ∃ x, sb = as_sortable m x
        ∧ (x = selected_parent d ∨ x ∈ unordered_mergeset_without_selected_parent d)) (binary_heap heap')
    ∧ (b = true → length (binary_heap heap') = n
       ∧ ∀ x, x ∈ binary_heap heap' → sb_lt (as_sortable m (selected_parent d)) x).
Proof using HT Hn.
  intros Hd Hsz Ht Hnew. unfold try_push_mergeset. destruct (try_push _ _ heap) as [b1 heap1] eqn:Hp.
  destruct (try_push_ok n S heap _ _ b1 heap1 Hn Hsz Ht (Hnew _ (or_introl eq_refl)) Hp) as (Hsz1 & Ht1 & Hstop).
  change (mkSortable (selected_parent d) (work_of m (selected_parent d))) with (as_sortable m (selected_parent d)) in *.
  destruct b1; cbn [negb].
  - pose proof (gb_order _ _ _ _ _ Hd) as Ho. rewrite <- (tv_abs _ _ _ _ HT) in Ho.
    destruct (mergeset_orders (E:=E) (tm_ghostdag_store self) (tv_ok _ _ _ _ HT) d Ho) as (l & _ & -> & Hs & Hl).
    rewrite (tv_abs _ _ _ _ HT) in Hl. cbn [mbind outcome_bind mret outcome_ret].
    assert (∀ sb, sb ∈ reverse l ↔ ∃ x, sb = as_sortable m x ∧ x ∈ unordered_mergeset_without_selected_parent d) as Hin.
    { intros sb. rewrite elem_of_reverse, Hl, list_elem_of_fmap. done. }
    destruct (push_while_ok n (reverse l) _ heap1 Hn Hsz1 Ht1) as [Hsz2 Ht2].
    { by apply StronglySorted_reverse. }
    { intros sb (x & -> & Hx)%Hin [HS|Heq]; [by eapply Hnew; [right|]|].
      apply (sb_lt_irrefl (as_sortable m (selected_parent d))). rewrite <- Heq at 1. by apply (merged_below P m g k HG ps). }
    do 2 eexists. split_and!; [done|done| |done]. eapply top_ext; [|exact Ht2]. intros sb. cbv beta. rewrite Hin. naive_solver.
  - destruct (Hstop eq_refl) as [Hf Hall]. do 2 eexists. split_and!; [done|done| |done].
    destruct Ht1 as [H1' H2' H3' H4']. split; [done| |done|].
    + intros x Hx. destruct (H2' x Hx) as [?| ->]; [by left|right]. exists (selected_parent d). auto.
    + intros y [Hy|(x & -> & [->|Hx])] Hny; [by apply H4'; [left|]|by apply H4'; [right|]|]. split; [done|].
      intros z Hz. transitivity (as_sortable m (selected_parent d)); [by apply (merged_below P m g k HG ps)|auto].
Qed.

(** Once the selected parent is too low, so is all of its past. *)
Lemma too_low_rest ps d qs heap (S : SortableBlock → Prop) : gd_block P m k ps d → P !! selected_parent d = Some qs →
  length heap = n → (∀ x, x ∈ heap → sb_lt (as_sortable m (selected_parent d)) x) →
  top n S heap → top n (λ sb, S sb ∨ window qs sb) heap.
Proof using HT.
  intros Hd Hqs Hf Hall [H1' H2' H3' H4']. split; [done|auto|done|]. intros y [Hy|(x & -> & Hx)] Hny; [by apply H4'|].
  split; [done|]. intros z Hz. transitivity (as_sortable m (selected_parent d)); [|auto].
  by apply (parent_window_below P m g k HG ps d Hd qs Hqs).
Qed.

Lemma split_window ps d qs : gd_block P m k ps d → P !! selected_parent d = Some qs → selected_parent d ≠ g →
  ∀ sb, window ps sb ↔ (∃ x, sb = as_sortable m x
        ∧ (x = selected_parent d ∨ x ∈ unordered_mergeset_without_selected_parent d)) ∨ window qs sb.
Proof using HT.
  intros Hd Hqs Hg sb. pose proof (window_split P m g k HG ps d Hd qs Hqs Hg) as Hs. split.
  - intros (x & -> & Hx). apply Hs in Hx as [->|[Hx|Hx]]; [left|left|right]; eexists; eauto.
  - intros [(x & -> & Hx)|(x & -> & Hx)]; exists x; (split; [done|]); apply Hs; tauto.
Qed.

(** The blocks pushed so far and the window still to be walked make up the window. *)
Definition collecting (ps : list Hash) (j : nat) (st : BoundedSizeBlockHeap * GhostdagData) : Prop :=
  let '(heap, d) := st in
  ∃ S qs hs l, bounded_size heap = n ∧ top n S (binary_heap heap) ∧ gd_block P m k qs d
    ∧ blues m d hs l ∧ j = length hs ∧ (∀ sb, window ps sb ↔ S sb ∨ window qs sb)
    ∧ (∀ sb, S sb → ¬ window qs sb).

Lemma window_walk_ok ps d : gd_block P m k ps d → (size m < fuel)%nat →
  ∃ heap, window_walk (E:=E) fuel self (bounded_new n) d = Ok heap ∧ top n (window ps) (binary_heap heap).
Proof using HT Hn.
  intros Hd Hfuel. destruct (gb_colored _ _ _ _ _ Hd) as (hs0 & l0 & Hc0).
  pose proof (chain_length _ _ _ _ HG _ _ _ (co_blues _ _ _ _ _ _ Hc0)) as Hlen.
  apply (oloop_ok (collecting ps) _ _ fuel (length hs0)); [| |lia].
  2:{ exists (λ _, False), ps, hs0, l0. split_and!; [done|apply top_empty|done|apply (co_blues _ _ _ _ _ _ Hc0)|done|tauto|done]. }
  clear d Hd hs0 l0 Hc0 Hlen. intros j [heap d] (S & qs & hs & l & Hsz & Ht & Hd & Hb & -> & Hall & Hnew).
  pose proof (gb_parents _ _ _ _ _ Hd _ (gb_selected _ _ _ _ _ Hd)) as [d' Hd'].
  assert (Hashes.is_origin (selected_parent d) = false) as ->.
  { unfold Hashes.is_origin. apply bool_decide_eq_false_2. intros Ho. rewrite Ho, (origin_unknown _ _ _ _ HG) in Hd'. done. }
  cbn [negb assert mbind outcome_bind]. case_bool_decide as Hg.
  { exists (inr heap). split; [done|]. eapply top_ext; [|exact Ht]. intros sb. rewrite Hall. split; [auto|].
    intros [?|(x & _ & Hx)]; [done|]. by apply (genesis_window P m g k HG qs d Hd Hg) in Hx. }
  rewrite law_data by apply (tv_ok _ _ _ _ HT). rewrite (traversal_read _ _ _ Hd'). cbn [unwrap mbind outcome_bind].
  destruct (parents_of _ _ _ _ HG _ _ Hd') as [rs Hrs].
  pose proof (split_window qs d rs Hd Hrs Hg) as Hsplit.
  destruct (try_push_mergeset_ok qs d heap S Hd Hsz Ht) as (b & heap' & Hpush & Hsz' & Ht' & Hlow).
  { intros x Hx HS. apply (Hnew _ HS), Hsplit. left. eauto. }
  rewrite (work_of_data _ _ _ Hd') in Hpush. rewrite Hpush. cbn [mbind outcome_bind]. destruct b.
  - exists (inr heap'). split; [done|]. destruct (Hlow eq_refl) as [Hf Hlt].
    eapply top_ext; [|apply (too_low_rest qs d rs _ _ Hd Hrs Hf Hlt Ht')]. intros sb. rewrite Hall, Hsplit. tauto.
  - eexists. split; [done|]. inversion Hb as [? Ho|? d2 hs2 l2 Hd2 Hb2]; subst.
    { rewrite Ho, (origin_unknown _ _ _ _ HG) in Hd'. done. }
    rewrite Hd' in Hd2. injection Hd2 as <-. exists (length hs2). split; [|simpl; lia].
    eexists _, rs, hs2, l2. split_and!; [done|exact Ht'|by apply (gd_blocks _ _ _ _ HG (selected_parent d))|done|done| |].
    + intros sb. rewrite Hall, Hsplit. tauto.
    + intros sb [HS|(x & -> & Hx)] Hw.
      * apply (Hnew _ HS), Hsplit. by right.
      * apply window_of_block in Hw. by apply (window_parts P m g k HG qs d Hd rs Hrs x).
Qed.
End walk.

Section window.
Context {E T U : Type} `{GhostdagStoreLaws T} `{BlockWindowCacheReader U} (fuel : nat).
Context (self : DagTraversalManager T U) (P : Dag) (m : GdMap) (k : Z) (HT : traversal_ok self P m k).

Lemma block_window_ok ps d n : gd_block P m k ps d → (size m < fuel)%nat →
  ∃ heap, block_window (E:=E) fuel self d n = Ok heap ∧ top n (window_of P m (tm_genesis_hash self) ps) heap.
Proof using HT.
  intros Hd Hfuel. pose proof (tv_dag _ _ _ _ HT) as HG. unfold block_window.
  destruct (Nat.eqb_spec n 0) as [->|Hn].
  { exists []. split; [done|]. split; [constructor|set_solver|done|]. intros y _ _. split; [done|set_solver]. }
  destruct (window_cache self n ≫= _) as [heap|] eqn:Hc.
  - apply bind_Some in Hc as (c & Hc & Hget).
    pose proof (gb_parents _ _ _ _ _ Hd _ (gb_selected _ _ _ _ _ Hd)) as [d' Hd'].
    destruct (parents_of _ _ _ _ HG _ _ Hd') as [qs Hqs].
    pose proof (tv_cache _ _ _ _ HT n c _ heap qs Hc Hget (mk_is_Some _ _ Hd') Hqs) as Ht.
    case_bool_decide as Hg.
    + rewrite law_blue_work by apply (tv_ok _ _ _ _ HT). rewrite (traversal_read self P m k HT _ _ _ Hd'). cbn [unwrap mbind outcome_bind].
      pose proof (split_window self P m k HT ps d qs Hd Hqs Hg) as Hsplit.
      destruct (try_push_mergeset_ok (E:=E) self P m k HT n ltac:(lia) ps d (from_binary_heap n heap) _ Hd eq_refl Ht)
        as (b & heap' & Hpush & _ & Ht' & _).
      { intros x Hx Hw. apply window_of_block in Hw. by apply (window_parts P m _ k HG ps d Hd qs Hqs x). }
      rewrite (work_of_data _ _ _ Hd') in Hpush. rewrite Hpush. cbn [mbind outcome_bind mret outcome_ret]. eexists. split; [done|].
      eapply top_ext; [|exact Ht']. intros sb. rewrite Hsplit. tauto.
    + eexists. split; [done|]. cbn [from_binary_heap binary_heap]. eapply top_ext; [|exact Ht]. intros sb. split.
      * intros (x & _ & Hx). rewrite Hg, (gd_genesis _ _ _ _ HG) in Hqs. injection Hqs as <-. destruct Hx as (Hx & _ & p & Hp & Ha).
        apply list_elem_of_singleton in Hp. subst p. apply (origin_ancestor _ _ _ _ HG) in Ha.
        rewrite Ha, (origin_unknown _ _ _ _ HG) in Hx. by destruct Hx.
      * intros (x & _ & Hx). by apply (genesis_window P m _ k HG ps d Hd Hg) in Hx.
  - destruct (window_walk_ok (E:=E) fuel self P m k HT n ltac:(lia) ps d Hd Hfuel) as (heap & -> & Ht).
    cbn [mbind outcome_bind mret outcome_ret]. eauto.
Qed.
End window.

(** ** Properties *)

(** C10: [block_window] returns the window of a block: the [window_size] blocks of
    greatest blue work (ties broken by hash) among its ancestors other than the
    genesis, or all of them when there are fewer, whether the heap of the selected
    parent was cached or the selected chain had to be walked; the walk may stop
    early because the past of a block that is too low is lower still. *)
Theorem block_window_top {E T U} `{GhostdagStoreLaws T} `{BlockWindowCacheReader U} (fuel : nat)
    (self : DagTraversalManager T U) (P : Dag) (m : GdMap) (k : Z) (ps : list Hash) (d : GhostdagData)
    (window_size : nat) :
  traversal_ok self P m k → gd_block P m k ps d → (size m < fuel)%nat →
  ∃ heap, block_window (E:=E) fuel self d window_size = Ok heap
    ∧ top window_size (window_of P m (tm_genesis_hash self) ps) heap.
Proof. intros HT Hd Hf. by apply (block_window_ok fuel self P m k HT). Qed.

Definition ex_traversal : DagTraversalManager DbGd.DbGhostdagStore BlockWindowCacheStore :=
  mkTraversal 1%N ex_gd_store2 ∅ ∅ 5 3.

Lemma ex_traversal_ok : traversal_ok ex_traversal ex_dag2 ex_data2 18.
Proof.
  split; [done|done|exact ex_dag2_ok|]. intros n c h heap qs Hc Hget. exfalso. revert Hc. unfold window_cache. cbn.
  repeat case_match; intros [= <-]; change ((∅ : gmap Hash BlockWindowHeap) !! h = Some heap) in Hget; by rewrite lookup_empty in Hget.
Qed.

Lemma block_window_top_witness :
  ∃ heap, block_window (E:=unit) 9 ex_traversal ex_third 5 = Ok heap
    ∧ top 5 (window_of ex_dag2 ex_data2 1%N [2%N]) heap.
Proof.
  apply (block_window_top 9 ex_traversal ex_dag2 ex_data2 18 [2%N] ex_third 5);
    [exact ex_traversal_ok|exact ex_third_block|by apply Nat.ltb_lt].
Defined.

(** ** Median time *)

(** The median of a list of timestamps. *)
Definition median_of (default_time : Z) (l : list Z) : Z :=
  default default_time (merge_sort Z.le l !! (length l / 2)%nat).

Lemma median_perm t l l' : l ≡ₚ l' → median_of t l = median_of t l'.
Proof.
  intros Hp. unfold median_of. rewrite (Permutation_length Hp). do 2 f_equal.
  eapply (StronglySorted_unique Z.le).
  - apply Sorted_StronglySorted; [exact _|]. apply Sorted_merge_sort. exact _.
  - apply Sorted_StronglySorted; [exact _|]. apply Sorted_merge_sort. exact _.
  - by rewrite !merge_sort_Permutation.
Qed.

Section median.
Context {E T U V : Type} `{HeaderStoreReader T} `{GhostdagStoreLaws U} `{BlockWindowCacheReader V} (fuel : nat).
Context (self : PastMedianTimeManager T U V) (P : Dag) (m : GdMap) (k : Z) (ts : Hash → Z).
Context (HT : traversal_ok (pmt_traversal_manager self) P m k).
Context (Hts : ∀ h, is_Some (m !! h) → get_timestamp (pmt_headers_store self) h = Ok (ts h)).
Abbreviation g := (tm_genesis_hash (pmt_traversal_manager self)).
Abbreviation tol := (pmt_timestamp_deviation_tolerance self).

Lemma calc_past_median_time_ok ps d : (1 ≤ tol)%nat → 2 * Z.of_nat tol ≤ u64_max →
  gd_block P m k ps d → (size m < fuel)%nat →
  ∃ w, calc_past_median_time (E:=E) fuel self d = Ok (median_of (pmt_genesis_timestamp self) ((ts ∘ sb_hash) <$> w), w)
    ∧ top (2 * tol - 1) (window_of P m g ps) w.
Proof using HT Hts.
  intros Htol Hmax Hd Hf. unfold calc_past_median_time. rewrite mul64_ok by (unfold u64_max in *; lia). cbn [mbind outcome_bind].
  rewrite sub64_ok by (unfold u64_max in *; lia). cbn [mbind outcome_bind].
  replace (Z.to_nat (2 * Z.of_nat tol - 1)) with (2 * tol - 1)%nat by lia.
  destruct (block_window_ok (E:=E) fuel _ P m k HT ps d (2 * tol - 1) Hd Hf) as (w & -> & Ht). cbn [mbind outcome_bind].
  exists w. split; [|done]. case_bool_decide as Hw; [by subst w|].
  rewrite (omap_each_ok _ (ts ∘ sb_hash)).
  2:{ intros b Hb. destruct (top_in _ _ _ Ht b Hb) as (x & -> & Hx & _). cbn. by rewrite Hts. }
  cbn [mbind outcome_bind]. unfold median_of.
  set (l := merge_sort Z.le _). assert (length l = length w) as Hl.
  { unfold l. by rewrite merge_sort_Permutation, length_fmap. }
  rewrite length_fmap, Hl.
  destruct (lookup_lt_is_Some_2 l (length w / 2)) as [t Ht'].
  { rewrite Hl. destruct w; [done|]. apply Nat.div_lt; simpl; lia. }
  by rewrite Ht'.
Qed.
End median.
