(* ===== verification/Difficulty.v ===== *)
(** * Difficulty adjustment

    [processes/difficulty.rs]: the DAA score of a block, the blocks of its mergeset
    outside the difficulty window, and the target computed from the window. *)

From S2P Require Import Prelude Hash Interval Uint Target ReachStore ReachMain Headers GhostdagStore Window.

Record DifficultyManager {T : Type} : Type := mkDifficulty {
  dm_headers_store : T;
  dm_genesis_bits : Z;
  dm_window_size : nat;
  dm_target_time_per_block : Z;
}.
Arguments DifficultyManager : clear implicits.
Arguments mkDifficulty {T}.

Record DifficultyBlock : Type := mkDifficultyBlock {
  db_timestamp : Z; db_bits : Z; db_sortable_block : SortableBlock }.

Definition db_eq (a b : DifficultyBlock) : bool := sb_eq (db_sortable_block a) (db_sortable_block b).
Definition db_cmp (a b : DifficultyBlock) : comparison :=
  match db_timestamp a ?= db_timestamp b with
  | Eq => sb_cmp (db_sortable_block a) (db_sortable_block b)
  | c => c
  end.

(** [Itertools::position_minmax]: the first of the least and the last of the
    greatest items. *)
Fixpoint minmax_from {A} (cmp : A → A → comparison) (i : nat) (mn mx : nat * A) (l : list A) : nat * nat :=
  match l with
  | [] => (fst mn, fst mx)
  | x :: l' =>
      let mn := match cmp x (snd mn) with Lt => (i, x) | _ => mn end in
      let mx := match cmp x (snd mx) with Lt => mx | _ => (i, x) end in
      minmax_from cmp (S i) mn mx l'
  end.
Definition position_minmax {A} (cmp : A → A → comparison) (l : list A) : option (nat * nat) :=
  match l with [] => None | x :: l' => Some (minmax_from cmp 1 (0%nat, x) (0%nat, x) l') end.

(** [Vec::swap_remove]: the last item takes the place of the removed one. *)
Definition swap_remove {A} (i : nat) (l : list A) : option (list A) :=
  match l !! i, last l with
  | Some _, Some z => Some (take (pred (length l)) (<[i := z]> l))
  | _, _ => None
  end.

Section difficulty.
Context {E T : Type} `{HeaderStoreReader T} (self : DifficultyManager T).

Definition calc_daa_score_and_non_daa_mergeset_blocks (window_hashes : list Hash)
    (ghostdag_data : GhostdagData) : outcome E (Z * gset Hash) :=
  let mergeset : gset Hash := list_to_set (unordered_mergeset ghostdag_data) in
  let mergeset_daa : gset Hash :=
    list_to_set (take (size mergeset) (filter (λ h, h ∈ mergeset) window_hashes)) in
  let mergeset_non_daa := mergeset ∖ mergeset_daa in
  sp_daa_score ← unwrap (get_daa_score (dm_headers_store self) (selected_parent ghostdag_data));
  score ← add64 sp_daa_score (Z.of_nat (size mergeset_daa));
  mret (score, mergeset_non_daa).

Definition difficulty_block (item : SortableBlock) : outcome E DifficultyBlock :=
  data ← unwrap (get_compact_header_data (dm_headers_store self) (sb_hash item));
  mret (mkDifficultyBlock (ch_timestamp data) (ch_bits data) item).

Definition block_target (b : DifficultyBlock) : outcome E Uint.Uint :=
  t ← from_compact_target_bits (db_bits b); mret (uint320_from_uint256 t).

Definition calculate_difficulty_bits (window : BlockWindowHeap) : outcome E Z :=
  difficulty_blocks ← omap_each difficulty_block window;
  if (length difficulty_blocks <? dm_window_size self)%nat then mret (dm_genesis_bits self)
  else
    '(min_ts_index, max_ts_index) ← unwrap_opt (position_minmax db_cmp difficulty_blocks);
    min_block ← unwrap_opt (difficulty_blocks !! min_ts_index);
    max_block ← unwrap_opt (difficulty_blocks !! max_ts_index);
    difficulty_blocks ← unwrap_opt (swap_remove min_ts_index difficulty_blocks);
    let len := Z.of_nat (length difficulty_blocks) in
    targets ← omap_each block_target difficulty_blocks;
    targets_sum ← Uint.sum LIMBS_320 targets;
    average_target ← Uint.div_u64 LIMBS_320 targets_sum len;
    elapsed ← sub64 (db_timestamp max_block) (db_timestamp min_block);
    scaled ← Uint.mul_u64 average_target (Z.max elapsed 1);
    per_block ← Uint.div_u64 LIMBS_320 scaled (dm_target_time_per_block self);
    new_target ← Uint.div_u64 LIMBS_320 per_block len;
    target ← unwrap (uint256_try_from_uint320 new_target);
    compact_target_bits target.
End difficulty.
