(* ===== verification/DifficultyProof.v ===== *)
(** * Correctness of the difficulty adjustment

    The target that [calculate_difficulty_bits] encodes, as a formula of the window
    in order of timestamps, and what does not matter for it: the order of the heap
    and the contents of the window caches. *)

From S2P Require Import Prelude Hash Interval Uint Target ReachStore ReachMain Headers GhostdagStore Ghostdag GhostdagInv GhostdagMerge GhostdagColor GhostdagRun Window WindowProof Difficulty.

(** ** Positions and removal *)

Section minmax.
Context {A : Type} (cmp : A → A → comparison).
Abbreviation le := (λ a b, cmp a b ≠ Gt).
Context (Hrefl : ∀ a, le a a) (Htrans : ∀ a b c, le a b → le b c → le a c) (Hflip : ∀ a b, cmp a b ≠ Lt → le b a).

Lemma minmax_from_ok l : ∀ pre i0 x0 j0 z0,
  pre !! i0 = Some x0 → pre !! j0 = Some z0 → (∀ y, y ∈ pre → le x0 y) → (∀ y, y ∈ pre → le y z0) →
  ∃ i x j z, minmax_from cmp (length pre) (i0, x0) (j0, z0) l = (i, j)
    ∧ (pre ++ l) !! i = Some x ∧ (pre ++ l) !! j = Some z
    ∧ (∀ y, y ∈ pre ++ l → le x y) ∧ (∀ y, y ∈ pre ++ l → le y z).
Proof using Hrefl Htrans Hflip.
  induction l as [|y l IH]; intros pre i0 x0 j0 z0 Hi Hj Hmin Hmax.
  { exists i0, x0, j0, z0. rewrite app_nil_r. done. }
  cbn [minmax_from fst snd]. replace (pre ++ y :: l) with ((pre ++ [y]) ++ l) by by rewrite <- app_assoc.
  replace (S (length pre)) with (length (pre ++ [y])) by (rewrite length_app; simpl; lia).
  assert ((pre ++ [y]) !! length pre = Some y) as Hy by (by rewrite lookup_app_r, Nat.sub_diag by lia).
  assert (∀ i x, pre !! i = Some x → (pre ++ [y]) !! i = Some x) as Hold by (intros; by apply lookup_app_l_Some).
  assert (∃ i x, match cmp y x0 with Lt => (length pre, y) | _ => (i0, x0) end = (i, x)
    ∧ (pre ++ [y]) !! i = Some x ∧ ∀ v, v ∈ pre ++ [y] → le x v) as (i & x & -> & Hix & Hxmin).
  { destruct (cmp y x0) eqn:Hc; do 2 eexists; (split_and!; [done|by eauto|]);
      intros v [Hv| ->%list_elem_of_singleton]%elem_of_app; auto; try (apply Hflip; by rewrite Hc).
    apply (Htrans _ x0); [by rewrite Hc|auto]. }
  assert (∃ j z, match cmp y z0 with Lt => (j0, z0) | _ => (length pre, y) end = (j, z)
    ∧ (pre ++ [y]) !! j = Some z ∧ ∀ v, v ∈ pre ++ [y] → le v z) as (j & z & -> & Hjz & Hzmax).
  { destruct (cmp y z0) eqn:Hc; do 2 eexists; (split_and!; [done|by eauto|]);
      intros v [Hv| ->%list_elem_of_singleton]%elem_of_app; auto; try (by rewrite Hc).
    - apply (Htrans _ z0); [auto|]. apply Hflip. by rewrite Hc.
    - apply (Htrans _ z0); [auto|]. apply Hflip. by rewrite Hc. }
  by apply IH.
Qed.

Lemma position_minmax_ok l : l ≠ [] → ∃ i x j z, position_minmax cmp l = Some (i, j)
  ∧ l !! i = Some x ∧ l !! j = Some z ∧ (∀ y, y ∈ l → le x y) ∧ (∀ y, y ∈ l → le y z).
Proof using Hrefl Htrans Hflip.
  destruct l as [|a l]; [done|]. intros _. unfold position_minmax.
  destruct (minmax_from_ok l [a] 0 a 0 a) as (i & x & j & z & Hm & ? & ? & ? & ?); [done|done| | |].
  1,2: intros y ->%list_elem_of_singleton; apply Hrefl.
  simpl in Hm. rewrite Hm. by exists i, x, j, z.
Qed.
End minmax.

Lemma swap_remove_ok {A} (l : list A) i x : l !! i = Some x → ∃ l', swap_remove i l = Some l' ∧ l ≡ₚ x :: l'.
Proof.
  intros Hi. destruct l as [|z l0 _] using rev_ind; [done|]. unfold swap_remove. rewrite Hi, last_snoc. eexists. split; [done|].
  rewrite length_app, Nat.add_1_r. cbn [pred]. destruct (decide (i = length l0)) as [->|Hne].
  - rewrite lookup_app_r, Nat.sub_diag in Hi by lia. injection Hi as ->.
    rewrite insert_app_r_alt, Nat.sub_diag by lia. cbn. rewrite take_app_length. by rewrite Permutation_app_comm.
  - pose proof (lookup_lt_Some _ _ _ Hi) as Hlt. rewrite length_app in Hlt. simpl in Hlt.
    rewrite lookup_app_l in Hi by lia. rewrite insert_app_l by lia.
    rewrite <- (length_insert l0 i z), take_app_length.
    rewrite (insert_take_drop l0 i z) by lia. rewrite <- (take_drop_middle l0 i x Hi) at 1.
    rewrite <- app_assoc. cbn [app]. rewrite (Permutation_app_comm (drop (S i) l0)). cbn [app].
    by rewrite Permutation_middle.
Qed.

Lemma swap_remove_fmap {A B} (f : A → B) (l : list A) i :
  swap_remove i (f <$> l) = fmap (M:=list) f <$> swap_remove i l.
Proof.
  unfold swap_remove. rewrite list_lookup_fmap, fmap_last, length_fmap. destruct (l !! i); [|done]. cbn.
  destruct (last l); [|done]. cbn. by rewrite fmap_take, list_fmap_insert.
Qed.

Lemma zsum_perm l l' : l ≡ₚ l' → zsum l = zsum l'.
Proof. induction 1; rewrite ?zsum_cons in *; lia. Qed.

Lemma StronglySorted_last {A} (R : relation A) `{!Reflexive R} x l :
  StronglySorted R (x :: l) → default x (last l) ∈ x :: l ∧ ∀ y, y ∈ x :: l → R y (default x (last l)).
Proof.
  intros Hs. destruct l as [|z l _] using rev_ind; cbn.
  - split; [left|]. by intros y ->%list_elem_of_singleton.
  - rewrite last_snoc. cbn. split; [right; apply elem_of_app; right; left|]. rewrite app_comm_cons in Hs |- *.
    apply StronglySorted_app in Hs as (Hc & _). intros y [Hy| ->%list_elem_of_singleton]%elem_of_app; [|done].
    apply Hc; [done|left].
Qed.

(** ** The formula *)

Lemma db_cmp_refl a : db_cmp a a = Eq.
Proof. unfold db_cmp. rewrite Z.compare_refl. by apply sb_cmp_spec. Qed.

Lemma db_cmp_flip a b : db_cmp a b ≠ Lt → db_cmp b a ≠ Gt.
Proof.
  unfold db_cmp. rewrite (Z.compare_antisym (db_timestamp a)). destruct (db_timestamp a ?= db_timestamp b); cbn; [|done|done].
  rewrite (sb_cmp_antisym (db_sortable_block a)). by destruct (sb_cmp (db_sortable_block a) _).
Qed.

Lemma db_le_trans a b c : db_cmp a b ≠ Gt → db_cmp b c ≠ Gt → db_cmp a c ≠ Gt.
Proof.
  unfold db_cmp. destruct (Z.compare_spec (db_timestamp a) (db_timestamp b)), (Z.compare_spec (db_timestamp b) (db_timestamp c)),
    (Z.compare_spec (db_timestamp a) (db_timestamp c)); try done; try lia.
  exact (sb_le_trans (db_sortable_block a) (db_sortable_block b) (db_sortable_block c)).
Qed.

Section formula.
(** The data of a header, as the window sees it. *)
Context (data : Hash → CompactHeaderData).

Definition as_difficulty (item : SortableBlock) : DifficultyBlock :=
  mkDifficultyBlock (ch_timestamp (data (sb_hash item))) (ch_bits (data (sb_hash item))) item.
Definition item_le (a b : SortableBlock) : Prop := db_cmp (as_difficulty a) (as_difficulty b) ≠ Gt.

#[global] Instance item_le_dec : RelDecision item_le.
Proof using. intros a b. unfold item_le. apply _. Defined.
#[global] Instance item_le_total : Total item_le.
Proof using.
  intros a b. unfold item_le. destruct (db_cmp (as_difficulty a) (as_difficulty b)) eqn:Hc; [by left..|right].
  apply db_cmp_flip. by rewrite Hc.
Qed.
#[global] Instance item_le_trans : Transitive item_le.
Proof using. intros a b c. apply db_le_trans. Qed.
#[global] Instance item_le_antisym : AntiSymm (=) item_le.
Proof using.
  intros a b. unfold item_le, db_cmp. cbn [db_timestamp db_sortable_block as_difficulty].
  destruct (Z.compare_spec (ch_timestamp (data (sb_hash a))) (ch_timestamp (data (sb_hash b)))) as [Heq|Hlt|Hgt].
  - rewrite Heq, Z.compare_refl. apply sb_le_antisym.
  - rewrite (proj2 (Z.compare_gt_iff _ _) Hlt). done.
  - done.
Qed.

(** The window in order of timestamps. *)
Definition by_time (window : BlockWindowHeap) : list SortableBlock := merge_sort item_le window.

Lemma by_time_perm w w' : w ≡ₚ w' → by_time w = by_time w'.
Proof using.
  intros Hp. unfold by_time. eapply (StronglySorted_unique item_le).
  - apply Sorted_StronglySorted; [exact _|]. apply Sorted_merge_sort. exact _.
  - apply Sorted_StronglySorted; [exact _|]. apply Sorted_merge_sort. exact _.
  - by rewrite !merge_sort_Permutation.
Qed.

(** The target: the average target of all blocks but the earliest, scaled by the
    time the window took over the time it should have taken. *)
Definition next_target (time : Z) (window : BlockWindowHeap) : Z :=
  match by_time window with
  | [] => 0
  | first :: rest =>
      let L := Z.of_nat (length rest) in
      let elapsed := ch_timestamp (data (sb_hash (default first (last rest)))) - ch_timestamp (data (sb_hash first)) in
      zsum ((λ b, target_of (ch_bits (data (sb_hash b)))) <$> rest) / L * Z.max elapsed 1 / time / L
  end.

(** The header data is of the types it is declared with, and its target can be
    decoded. *)
Definition data_ok (c : CompactHeaderData) : Prop :=
  u64_ok (ch_timestamp c) ∧ 0 ≤ ch_bits c < 2 ^ 32 ∧ ch_bits c / 2 ^ 24 ≤ 32.

Context {E T : Type} `{HeaderStoreReader T} (self : DifficultyManager T).
Context (window : BlockWindowHeap).
Context (Hdata : ∀ b, b ∈ window → get_compact_header_data (dm_headers_store self) (sb_hash b) = Ok (data (sb_hash b))).

Lemma difficulty_blocks_ok : omap_each (difficulty_block (E:=E) self) window = Ok (as_difficulty <$> window).
Proof using Hdata.
  apply omap_each_ok. intros b Hb. unfold difficulty_block. rewrite (Hdata b Hb). done.
Qed.

Context (Hok : ∀ b, b ∈ window → data_ok (data (sb_hash b))).

Lemma targets_ok l : (∀ b, b ∈ l → b ∈ window) →
  ∃ ts, omap_each (block_target (E:=E)) (as_difficulty <$> l) = Ok ts ∧ Forall (Uint.wf 5) ts
    ∧ Uint.val <$> ts = (λ b, target_of (ch_bits (data (sb_hash b)))) <$> l
    ∧ 0 ≤ zsum (Uint.val <$> ts) ≤ Z.of_nat (length l) * 2 ^ 255.
Proof using Hok.
  induction l as [|b l IH]; intros Hl; [exists []; split_and!; [done|constructor|done|simpl; lia|simpl; lia]|].
  destruct (Hok b) as (_ & Hb & He); [apply Hl; left|].
  destruct (from_compact_ok (E:=E) _ Hb He) as (t & Ht & Hwf & Hv & Hlt).
  destruct IH as (ts & Hts & Hwfs & Hvs & Hs); [intros x Hx; apply Hl; by right|].
  exists (uint320_from_uint256 t :: ts). rewrite fmap_cons. cbn [omap_each]. unfold block_target at 2. cbn [db_bits as_difficulty].
  rewrite Ht. cbn [mbind outcome_bind mret outcome_ret]. rewrite Hts. cbn [mbind outcome_bind mret outcome_ret].
  assert (Uint.val (uint320_from_uint256 t) = Uint.val t) as Hvt.
  { unfold uint320_from_uint256. rewrite Uint.val_app. change (Uint.val [0]) with 0. lia. }
  pose proof (Uint.val_bound t (proj2 Hwf)).
  split_and!; [done| |by rewrite fmap_cons, Hvt, Hv, Hvs|rewrite fmap_cons, zsum_cons; lia|rewrite fmap_cons, zsum_cons; cbn [length]; lia].
  constructor; [|done]. destruct Hwf as [Hlen Hw]. split; [unfold uint320_from_uint256; rewrite length_app, Hlen; done|].
  apply Forall_app. split; [done|]. repeat constructor; done.
Qed.

Lemma by_time_parts a l' : window ≡ₚ a :: l' → (∀ b, b ∈ window → item_le a b) →
  ∃ rest, by_time window = a :: rest ∧ rest ≡ₚ l' ∧ default a (last rest) ∈ window
    ∧ ∀ b, b ∈ window → item_le b (default a (last rest)).
Proof using.
  intros Hp Hmin. pose proof (merge_sort_Permutation item_le window) as Hperm. fold (by_time window) in Hperm.
  assert (StronglySorted item_le (by_time window)) as Hs.
  { apply Sorted_StronglySorted; [exact _|]. apply Sorted_merge_sort. exact _. }
  assert (Reflexive item_le) as Hrefl by (intros x; unfold item_le; by rewrite db_cmp_refl).
  destruct (by_time window) as [|b rest] eqn:Hb; [by rewrite Hp in Hperm; apply Permutation_nil_cons in Hperm|].
  assert (b = a) as ->.
  { apply item_le_antisym.
    - apply StronglySorted_inv in Hs as [_ Hall]. rewrite Forall_forall in Hall.
      assert (a ∈ b :: rest) as Ha by (rewrite Hperm, Hp; left). apply elem_of_cons in Ha as [->|Ha]; [|auto].
      unfold item_le. by rewrite db_cmp_refl.
    - apply Hmin. rewrite <- Hperm. left. }
  exists rest. split_and!; [done| | |].
  - apply (Permutation_cons_inv (a := a)). by rewrite Hperm.
  - rewrite <- Hperm. by apply (StronglySorted_last item_le).
  - intros x Hx. rewrite <- Hperm in Hx. by apply (StronglySorted_last item_le).
Qed.

Context (Hsize : (dm_window_size self ≤ length window)%nat) (Hlen : 2 ≤ Z.of_nat (length window) ≤ u64_max).
Context (Htime : 0 < dm_target_time_per_block self ≤ u64_max).

Lemma calculate_difficulty_bits_ok :
  let t := next_target (dm_target_time_per_block self) window in
  calculate_difficulty_bits (E:=E) self window = if t <? 2 ^ 256 then Ok (compact_of t) else Panic.
Proof using Hdata Hok Hsize Hlen Htime.
  unfold calculate_difficulty_bits. rewrite difficulty_blocks_ok. cbn [mbind outcome_bind].
  rewrite length_fmap, (proj2 (Nat.ltb_ge _ _)) by done.
  destruct (position_minmax_ok db_cmp) with (l := as_difficulty <$> window) as (i & x & j & z & -> & Hi & Hj & Hmin & Hmax);
    [intros a; by rewrite db_cmp_refl|apply db_le_trans|apply db_cmp_flip|intros Hnil%(f_equal length); rewrite length_fmap in Hnil; simpl in Hnil; lia|].
  cbn [unwrap_opt mbind outcome_bind]. rewrite Hi, Hj. cbn [unwrap_opt mbind outcome_bind].
  rewrite list_lookup_fmap in Hi, Hj. apply fmap_Some in Hi as (a & Ha & ->). apply fmap_Some in Hj as (b & Hb & ->).
  rewrite swap_remove_fmap. destruct (swap_remove_ok window i a Ha) as (l' & -> & Hp). cbn [fmap option_fmap option_map unwrap_opt mbind outcome_bind].
  destruct (by_time_parts a l' Hp) as (rest & Hby & Hrest & Hlast & Hgreat).
  { intros c Hc. apply Hmin. by apply list_elem_of_fmap_2. }
  assert (b = default a (last rest)) as Hbl.
  { apply item_le_antisym; [apply Hgreat; by eapply list_elem_of_lookup_2|]. apply Hmax. by apply list_elem_of_fmap_2. }
  destruct (targets_ok l') as (ts & -> & Hwf & Hval & Hsum); [intros c Hc; rewrite Hp; by right|]. cbn [mbind outcome_bind].
  assert (Z.of_nat (length window) = Z.of_nat (length l') + 1) as Hl by (rewrite Hp; cbn [length]; lia).
  rewrite length_fmap. set (L := Z.of_nat (length l')) in *. unfold u64_max in *.
  destruct (Uint.sum_value (E:=E) 5 ts Hwf) as (s & Hs & Hwfs & Hvs).
  { change (B ^ Z.of_nat 5) with (2 ^ 320). lia. }
  unfold LIMBS_320. rewrite Hs. cbn [mbind outcome_bind]. rewrite Hval in Hvs, Hsum.
  set (sum := zsum _) in Hvs, Hsum.
  destruct (Uint.div_u64_value (E:=E) 5 s L Hwfs) as (avg & -> & Hwfa & Hva); [unfold word_ok, B; lia|lia|]. cbn [mbind outcome_bind].
  assert (u64_ok (ch_timestamp (data (sb_hash a))) ∧ u64_ok (ch_timestamp (data (sb_hash b)))) as [[Hta Hta'] [Htb Htb']].
  { split; apply Hok; by eapply list_elem_of_lookup_2. }
  assert (ch_timestamp (data (sb_hash a)) ≤ ch_timestamp (data (sb_hash b))) as Hab.
  { specialize (Hmax (as_difficulty a)). unfold db_cmp in Hmax. cbn in Hmax.
    destruct (Z.compare_spec (ch_timestamp (data (sb_hash a))) (ch_timestamp (data (sb_hash b)))); [lia|lia|].
    destruct Hmax; [|done]. apply list_elem_of_fmap_2. by eapply list_elem_of_lookup_2. }
  cbn [db_timestamp as_difficulty]. unfold u64_max in *. rewrite sub64_ok by (unfold u64_max; lia). cbn [mbind outcome_bind].
  set (el := Z.max _ 1). assert (1 ≤ el < B) as Hel by (unfold B, el; lia).
  assert (0 ≤ sum / L ≤ 2 ^ 255) as Havg by (split; [apply Z.div_pos; lia|apply Z.div_le_upper_bound; lia]).
  destruct (Uint.mul_u64_value (E:=E) 5 avg el Hwfa) as (sc & -> & Hwsc & Hvsc); [unfold word_ok; lia| |].
  { rewrite Hva, Hvs. change (B ^ Z.of_nat 5) with (2 ^ 320). unfold B in Hel. nia. }
  cbn [mbind outcome_bind].
  destruct (Uint.div_u64_value (E:=E) 5 sc (dm_target_time_per_block self) Hwsc) as (pb & -> & Hwpb & Hvpb); [unfold word_ok, B; lia|lia|]. cbn [mbind outcome_bind].
  destruct (Uint.div_u64_value (E:=E) 5 pb L Hwpb) as (nt & -> & Hwnt & Hvnt); [unfold word_ok, B; lia|lia|]. cbn [mbind outcome_bind].
  assert (Uint.val nt = next_target (dm_target_time_per_block self) window) as Hnt.
  { unfold next_target. rewrite Hby, Hvnt, Hvpb, Hvsc, Hva, Hvs, <- Hbl, (Permutation_length Hrest). unfold sum.
    by rewrite (zsum_perm _ _ (fmap_Permutation _ _ _ Hrest)). }
  destruct (narrow_256 nt Hwnt) as [Hn1 Hn2]. rewrite Hnt in Hn1, Hn2. destruct (Z.ltb_spec (next_target (dm_target_time_per_block self) window) (2 ^ 256)) as [Hc|Hc].
  - destruct (Hn1 Hc) as (r & -> & Hwr & Hvr). cbn [unwrap mbind outcome_bind].
    apply compact_code; [|done|done]. pose proof (Uint.val_bound r (proj2 Hwr)). lia.
  - by rewrite (Hn2 Hc).
Qed.
End formula.

(** ** Order does not matter *)

Lemma difficulty_perm {E T} `{HeaderStoreReader T} (self : DifficultyManager T) data v1 v2 :
  v1 ≡ₚ v2 →
  (∀ b, b ∈ v1 → get_compact_header_data (dm_headers_store self) (sb_hash b) = Ok (data (sb_hash b))
     ∧ data_ok (data (sb_hash b))) →
  Z.of_nat (length v1) ≤ u64_max → (2 ≤ dm_window_size self)%nat → 0 < dm_target_time_per_block self ≤ u64_max →
  calculate_difficulty_bits (E:=E) self v1 = calculate_difficulty_bits self v2.
Proof.
  intros Hp Hd Hlen Hsz Ht. pose proof (Permutation_length Hp) as Hl.
  assert (∀ b, b ∈ v2 → get_compact_header_data (dm_headers_store self) (sb_hash b) = Ok (data (sb_hash b))
     ∧ data_ok (data (sb_hash b))) as Hd2 by (intros b Hb; apply Hd; by rewrite Hp).
  destruct (decide (length v1 < dm_window_size self)%nat) as [Hlt|Hge].
  - unfold calculate_difficulty_bits.
    rewrite (difficulty_blocks_ok data self v1 (λ b Hb, proj1 (Hd b Hb))), (difficulty_blocks_ok data self v2 (λ b Hb, proj1 (Hd2 b Hb))).
    cbn [mbind outcome_bind]. rewrite !length_fmap, <- Hl. by rewrite (proj2 (Nat.ltb_lt _ _) Hlt).
  - rewrite (calculate_difficulty_bits_ok data self v1 (λ b Hb, proj1 (Hd b Hb)) (λ b Hb, proj2 (Hd b Hb))) by lia.
    rewrite (calculate_difficulty_bits_ok data self v2 (λ b Hb, proj1 (Hd2 b Hb)) (λ b Hb, proj2 (Hd2 b Hb))) by lia.
    unfold next_target. by rewrite (by_time_perm data v1 v2 Hp).
Qed.

Lemma daa_perm {E T} `{HeaderStoreReader T} (self : DifficultyManager T) l1 l2 d : NoDup l1 → l1 ≡ₚ l2 →
  calc_daa_score_and_non_daa_mergeset_blocks (E:=E) self l1 d
  = calc_daa_score_and_non_daa_mergeset_blocks self l2 d.
Proof.
  intros Hnd Hp. unfold calc_daa_score_and_non_daa_mergeset_blocks.
  set (ms := list_to_set (unordered_mergeset d) : gset Hash).
  assert (∀ l, NoDup l → take (size ms) (filter (λ h, h ∈ ms) l) = filter (λ h, h ∈ ms) l) as Htake.
  { intros l Hl. apply take_ge. rewrite <- (size_list_to_set (C:=gset Hash)) by by apply NoDup_filter.
    apply subseteq_size. intros h Hh%elem_of_list_to_set%list_elem_of_filter. tauto. }
  rewrite !Htake by (first [done|by rewrite <- Hp]). by rewrite (list_to_set_perm_L _ _ (filter_Permutation _ _ _ Hp)).
Qed.

(** ** Properties *)

(** C11: [calculate_difficulty_bits] is the formula: with fewer blocks than the
    window should have it returns the genesis bits; otherwise it encodes the average
    target of all blocks but the earliest one, multiplied by the time between the
    earliest and the latest timestamp and divided by the time those blocks should
    have taken; no intermediate value overflows, and the result panics only when the
    new target does not fit in 256 bits. *)
Theorem difficulty_bits_exact {E T} `{HeaderStoreReader T} (self : DifficultyManager T)
    (data : Hash → CompactHeaderData) (window : BlockWindowHeap) :
  (∀ b, b ∈ window → get_compact_header_data (dm_headers_store self) (sb_hash b) = Ok (data (sb_hash b))
     ∧ data_ok (data (sb_hash b))) →
  2 ≤ Z.of_nat (length window) ≤ u64_max → 0 < dm_target_time_per_block self ≤ u64_max →
  calculate_difficulty_bits (E:=E) self window =
    if (length window <? dm_window_size self)%nat then Ok (dm_genesis_bits self)
    else let t := next_target data (dm_target_time_per_block self) window in
         if t <? 2 ^ 256 then Ok (compact_of t) else Panic.
Proof.
  intros Hd Hlen Ht. destruct (Nat.ltb_spec (length window) (dm_window_size self)) as [Hlt|Hge].
  - unfold calculate_difficulty_bits. rewrite (difficulty_blocks_ok data self window (λ b Hb, proj1 (Hd b Hb))). cbn [mbind outcome_bind].
    by rewrite length_fmap, (proj2 (Nat.ltb_lt _ _)).
  - apply (calculate_difficulty_bits_ok data self window (λ b Hb, proj1 (Hd b Hb)) (λ b Hb, proj2 (Hd b Hb))); done.
Qed.

Definition ex_window : BlockWindowHeap := [mkSortable 1%N 5; mkSortable 2%N 7].
Definition ex_difficulty : DifficultyManager DbHeadersStore := mkDifficulty ex_headers2 0x1d00ffff 2 1000.
Definition ex_compact : CompactHeaderData := compact_header (ex_header 1%N).

Lemma difficulty_bits_exact_witness :
  calculate_difficulty_bits (E:=unit) ex_difficulty ex_window =
    let t := next_target (λ _, ex_compact) 1000 ex_window in if t <? 2 ^ 256 then Ok (compact_of t) else Panic.
Proof.
  refine (difficulty_bits_exact ex_difficulty (λ _, ex_compact) ex_window _ _ _); [|done|done].
  intros b [->|[->|[]%elem_of_nil]%elem_of_cons]%elem_of_cons; (split; [by vm_compute|]); by vm_compute.
Defined.

(** C12: what a node computes from a window depends on the DAG only: two nodes with
    the same blocks, whatever their stores and whatever windows they have cached,
    get the same past median time, the same difficulty bits, the same DAA score and
    the same blocks outside the difficulty window for a new block.  (The difficulty
    manager itself keeps no cache: one serves for both nodes.) *)
Theorem windows_deterministic {E T U1 V1 U2 V2} `{HeaderStoreReader T} `{GhostdagStoreLaws U1} `{BlockWindowCacheReader V1}
    `{GhostdagStoreLaws U2} `{BlockWindowCacheReader V2} (fuel : nat)
    (pm1 : PastMedianTimeManager T U1 V1) (pm2 : PastMedianTimeManager T U2 V2) (dm : DifficultyManager T)
    (P : Dag) (m : GdMap) (k : Z) (data : Hash → CompactHeaderData) (ps : list Hash) (d : GhostdagData) (n : nat) :
  let t1 := pmt_traversal_manager pm1 in
  let t2 := pmt_traversal_manager pm2 in
  traversal_ok t1 P m k → traversal_ok t2 P m k → tm_genesis_hash t1 = tm_genesis_hash t2 →
  gd_block P m k ps d → (size m < fuel)%nat →
  pmt_timestamp_deviation_tolerance pm1 = pmt_timestamp_deviation_tolerance pm2 →
  pmt_genesis_timestamp pm1 = pmt_genesis_timestamp pm2 →
  (1 ≤ pmt_timestamp_deviation_tolerance pm1)%nat → 2 * Z.of_nat (pmt_timestamp_deviation_tolerance pm1) ≤ u64_max →
  (∀ h, is_Some (m !! h) → get_timestamp (pmt_headers_store pm1) h = Ok (ch_timestamp (data h))
     ∧ get_timestamp (pmt_headers_store pm2) h = Ok (ch_timestamp (data h))
     ∧ get_compact_header_data (dm_headers_store dm) h = Ok (data h) ∧ data_ok (data h)) →
  2 ≤ Z.of_nat n ≤ u64_max → (2 ≤ dm_window_size dm)%nat → 0 < dm_target_time_per_block dm ≤ u64_max →
  ∃ time w1 w2 v1 v2,
    calc_past_median_time (E:=E) fuel pm1 d = Ok (time, w1) ∧ calc_past_median_time (E:=E) fuel pm2 d = Ok (time, w2)
    ∧ block_window (E:=E) fuel t1 d n = Ok v1 ∧ block_window (E:=E) fuel t2 d n = Ok v2
    ∧ calculate_difficulty_bits (E:=E) dm v1 = calculate_difficulty_bits (E:=E) dm v2
    ∧ calc_daa_score_and_non_daa_mergeset_blocks (E:=E) dm (map sb_hash v1) d
      = calc_daa_score_and_non_daa_mergeset_blocks (E:=E) dm (map sb_hash v2) d.
Proof.
  intros t1 t2 H1' H2' Hg Hd Hf Htol Hgt Htol1 Htol2 Hdata Hn Hws Htime.
  destruct (calc_past_median_time_ok (E:=E) fuel pm1 P m k (ch_timestamp ∘ data) H1') with (ps := ps) (d := d)
    as (w1 & -> & Hw1); [intros; by apply Hdata|done..|].
  destruct (calc_past_median_time_ok (E:=E) fuel pm2 P m k (ch_timestamp ∘ data) H2') with (ps := ps) (d := d)
    as (w2 & -> & Hw2); [intros; by apply Hdata|by rewrite <- Htol|by rewrite <- Htol|done..|].
  destruct (block_window_ok (E:=E) fuel t1 P m k H1' ps d n Hd Hf) as (v1 & -> & Hv1).
  destruct (block_window_ok (E:=E) fuel t2 P m k H2' ps d n Hd Hf) as (v2 & -> & Hv2).
  unfold t1, t2 in *. rewrite <- Hg in Hw2, Hv2. rewrite <- Htol in Hw2. rewrite <- Hgt.
  pose proof (top_unique _ _ _ _ Hw1 Hw2) as Hpw. pose proof (top_unique _ _ _ _ Hv1 Hv2) as Hpv.
  assert (∀ v, top n (window_of P m (tm_genesis_hash (pmt_traversal_manager pm1)) ps) v → ∀ b, b ∈ v → is_Some (m !! sb_hash b)) as Hk.
  { intros v Hv b Hb. destruct (top_in _ _ _ Hv b Hb) as (x & -> & Hx & _). done. }
  rewrite (median_perm _ _ _ (fmap_Permutation _ _ _ Hpw)). do 5 eexists. split_and!; [done..| |].
  - apply (difficulty_perm _ data); [done| |pose proof (top_length _ _ _ Hv1); lia|done|done].
    intros b Hb. destruct (Hdata _ (Hk _ Hv1 b Hb)) as (_ & _ & ? & ?). done.
  - apply daa_perm; [|by apply Permutation_map]. apply NoDup_fmap_2_strong; [|apply (top_nodup _ _ _ Hv1)].
    intros a b Ha Hb Hab. destruct (top_in _ _ _ Hv1 a Ha) as (x & -> & _), (top_in _ _ _ Hv1 b Hb) as (y & -> & _).
    cbn in Hab. by subst y.
Qed.

(** A second node: its difficulty cache holds the (empty) window of block [2]. *)
Definition ex_traversal_cached : DagTraversalManager DbGd.DbGhostdagStore BlockWindowCacheStore :=
  mkTraversal 1%N ex_gd_store2 {[2%N := []]} ∅ 5 3.

Lemma ex_traversal_cached_ok : traversal_ok ex_traversal_cached ex_dag2 ex_data2 18.
Proof.
  split; [done|done|exact ex_dag2_ok|]. intros n c h heap qs Hc Hget Hh Hqs. revert Hc. unfold window_cache. cbn [difficulty_window_size ex_traversal_cached].
  destruct (Nat.eqb_spec n 5) as [->|_].
  - intros [= <-]. change (({[2%N := []]} : gmap Hash BlockWindowHeap) !! h = Some heap) in Hget.
    apply lookup_singleton_Some in Hget as [<- <-]. unfold ex_dag2 in Hqs. rewrite lookup_insert_eq in Hqs. injection Hqs as <-.
    eapply top_ext; [|apply top_empty]. intros sb. split; [done|]. intros (x & _ & Hx & Hxg & p & Hp & Ha).
    apply list_elem_of_singleton in Hp as ->.
    pose proof ex_dag2_ok as HG. assert (is_Some (ex_data2 !! 1%N)) as H1 by (eexists; apply (gd_genesis_data _ _ _ _ HG)).
    destruct (ancestor_work _ _ _ _ HG x 1%N Ha Hx H1) as [?|?]; [done|].
    destruct (ancestor_work _ _ _ _ HG 1%N x (gd_root _ _ _ _ HG x Hx) H1 Hx) as [?|?]; [by destruct Hxg|lia].
  - case_match; [|done]. intros [= <-]. change ((∅ : gmap Hash BlockWindowHeap) !! h = Some heap) in Hget.
    by rewrite lookup_empty in Hget.
Qed.

Lemma windows_deterministic_witness :
  ∃ time w1 w2 v1 v2,
    calc_past_median_time (E:=unit) 9 (mkMedian ex_headers2 ex_traversal 2 0) ex_third = Ok (time, w1)
    ∧ calc_past_median_time (E:=unit) 9 (mkMedian ex_headers2 ex_traversal_cached 2 0) ex_third = Ok (time, w2)
    ∧ block_window (E:=unit) 9 ex_traversal ex_third 5 = Ok v1 ∧ block_window (E:=unit) 9 ex_traversal_cached ex_third 5 = Ok v2
    ∧ calculate_difficulty_bits (E:=unit) ex_difficulty v1 = calculate_difficulty_bits (E:=unit) ex_difficulty v2
    ∧ calc_daa_score_and_non_daa_mergeset_blocks (E:=unit) ex_difficulty (map sb_hash v1) ex_third
      = calc_daa_score_and_non_daa_mergeset_blocks (E:=unit) ex_difficulty (map sb_hash v2) ex_third.
Proof.
  apply (windows_deterministic 9 (mkMedian ex_headers2 ex_traversal 2 0) (mkMedian ex_headers2 ex_traversal_cached 2 0)
    ex_difficulty ex_dag2 ex_data2 18 (λ _, ex_compact) [2%N] ex_third 5);
    [exact ex_traversal_ok|exact ex_traversal_cached_ok|done|exact ex_third_block|by apply Nat.ltb_lt|done|done|by apply Nat.leb_le|done| |done|by apply Nat.leb_le|done].
  refine (ex_known2 _ _ _); (split_and!; [by vm_compute..|]); by vm_compute.
Defined.
