(* ===== verification/Stores.v ===== *)
(** * The small stores

    The stores of [consensus/src/model/stores/] that keep one value per block
    ([statuses.rs], [daa.rs], [depth.rs]), one per index ([past_pruning_points.rs])
    or one value only ([headers_selected_tip.rs], [pruning.rs], [tips.rs]), with the
    [BlockStatus] of [consensus/core/src/blockstatus.rs].  The direct and the batched
    form of a write leave the same contents once the batch is written. *)

From S2P Require Import Prelude Hash Interval Uint Target ReachStore Headers GhostdagStore.

(** ** Access *)

(** [StoreResultExtensions::unwrap_option]. *)
Definition unwrap_store_option {E A} (r : outcome StoreError A) : outcome E (option A) :=
  match r with
  | Ok value => Ok (Some value)
  | Err (KeyNotFound _) => Ok None
  | Err _ => Panic
  | Panic => Panic
  | Fuel => Fuel
  end.

(** [CachedDbItem::read]. *)
Definition read_item {A} (prefix : StorePrefix) (item : option A) : outcome StoreError A :=
  match item with Some x => Ok x | None => Err (KeyNotFound (ItemKey prefix)) end.

(** [has] followed by [write], as the append-only stores do. *)
Definition insert_new {A} (hash : Hash) (x : A) : M (gmap Hash A) StoreError unit := λ s,
  if bool_decide (is_Some (s !! hash)) then (Err (KeyAlreadyExists (HashText hash)), s)
  else (Ok tt, <[hash := x]> s).

(** ** Statuses *)

Inductive BlockStatus : Type :=
| StatusInvalid
| StatusUTXOValid
| StatusUTXOPendingVerification
| StatusDisqualifiedFromChain
| StatusHeaderOnly.

#[global] Instance BlockStatus_eq_dec : EqDecision BlockStatus.
Proof. solve_decision. Defined.

Definition has_block_body (self : BlockStatus) : bool :=
  match self with
  | StatusUTXOValid | StatusUTXOPendingVerification | StatusDisqualifiedFromChain => true
  | _ => false
  end.
Definition is_utxo_valid_or_pending (self : BlockStatus) : bool :=
  match self with StatusUTXOValid | StatusUTXOPendingVerification => true | _ => false end.

Class StatusesStoreReader (T : Type) : Type := {
  get_status : T → Hash → outcome StoreError BlockStatus;
  has_status : T → Hash → outcome StoreError bool;
}.

Record DbStatusesStore : Type := mkStatuses { statuses_access : gmap Hash BlockStatus }.

#[export] Instance db_statuses_reader : StatusesStoreReader DbStatusesStore := {|
  get_status s := read_access STATUSES_PREFIX (statuses_access s);
  has_status s hash := Ok (bool_decide (is_Some (statuses_access s !! hash)));
|}.

Definition set_status (hash : Hash) (status : BlockStatus) : M DbStatusesStore StoreError unit :=
  modify (λ s, mkStatuses (<[hash := status]> (statuses_access s))).

(** ** Blocks outside the difficulty window *)

Class DaaStoreReader (T : Type) : Type := {
  get_mergeset_non_daa : T → Hash → outcome StoreError (gset Hash) }.

Record DbDaaStore : Type := mkDaa { daa_access : gmap Hash (gset Hash) }.

#[export] Instance db_daa_reader : DaaStoreReader DbDaaStore := {|
  get_mergeset_non_daa s := read_access MERGESET_NON_DAA_PREFIX (daa_access s) |}.

Definition insert_daa (hash : Hash) (mergeset_non_daa : gset Hash) : M DbDaaStore StoreError unit := λ s,
  let '(o, m) := insert_new hash mergeset_non_daa (daa_access s) in (o, mkDaa m).

(** ** Depth *)

Class DepthStoreReader (T : Type) : Type := {
  merge_depth_root : T → Hash → outcome StoreError Hash;
  finality_point : T → Hash → outcome StoreError Hash;
}.

Record BlockDepthInfo : Type := mkDepthInfo { bd_merge_depth_root : Hash; bd_finality_point : Hash }.
Record DbDepthStore : Type := mkDepth { depth_access : gmap Hash BlockDepthInfo }.

#[export] Instance db_depth_reader : DepthStoreReader DbDepthStore := {|
  merge_depth_root s hash :=
    d ← read_access DEPTH_PREFIX (depth_access s) hash; mret (bd_merge_depth_root d);
  finality_point s hash :=
    d ← read_access DEPTH_PREFIX (depth_access s) hash; mret (bd_finality_point d);
|}.

Definition insert_depth (hash merge_depth_root finality_point : Hash) : M DbDepthStore StoreError unit := λ s,
  let '(o, m) := insert_new hash (mkDepthInfo merge_depth_root finality_point) (depth_access s) in (o, mkDepth m).

(** ** The selected tip of the headers *)

Class HeadersSelectedTipStoreReader (T : Type) : Type := { get_tip : T → outcome StoreError SortableBlock }.

Record DbHeadersSelectedTipStore : Type := mkTip { tip_access : option SortableBlock }.

#[export] Instance db_tip_reader : HeadersSelectedTipStoreReader DbHeadersSelectedTipStore := {|
  get_tip s := read_item HEADERS_SELECTED_TIP_NAME (tip_access s) |}.

Definition set_tip (block : SortableBlock) : M DbHeadersSelectedTipStore StoreError unit :=
  modify (λ _, mkTip (Some block)).

(** ** The pruning point *)

Record PruningPointInfo : Type := mkPruningInfo {
  pi_pruning_point : Hash; pi_candidate : Hash; pi_index : Z }.

Definition pruning_from_genesis (genesis_hash : Hash) : PruningPointInfo :=
  mkPruningInfo genesis_hash genesis_hash 0.
Definition decompose (self : PruningPointInfo) : Hash * Hash * Z :=
  (pi_pruning_point self, pi_candidate self, pi_index self).

Class PruningStoreReader (T : Type) : Type := {
  pruning_point : T → outcome StoreError Hash;
  pruning_point_candidate : T → outcome StoreError Hash;
  pruning_point_index : T → outcome StoreError Z;
  get_pruning : T → outcome StoreError PruningPointInfo;
}.

Record DbPruningStore : Type := mkPruning { pruning_access : option PruningPointInfo }.

Definition read_pruning (s : DbPruningStore) : outcome StoreError PruningPointInfo :=
  read_item PRUNING_POINT_KEY (pruning_access s).

#[export] Instance db_pruning_reader : PruningStoreReader DbPruningStore := {|
  pruning_point s := i ← read_pruning s; mret (pi_pruning_point i);
  pruning_point_candidate s := i ← read_pruning s; mret (pi_candidate i);
  pruning_point_index s := i ← read_pruning s; mret (pi_index i);
  get_pruning s := read_pruning s;
|}.

Definition set_pruning (pruning_point candidate : Hash) (index : Z) : M DbPruningStore StoreError unit :=
  modify (λ _, mkPruning (Some (mkPruningInfo pruning_point candidate index))).

(** ** Past pruning points *)

Class PastPruningPointsStoreReader (T : Type) : Type := {
  get_past_pruning_point : T → Z → outcome StoreError Hash }.

Record DbPastPruningPointsStore : Type := mkPastPruning { past_access : gmap Z Hash }.

#[export] Instance db_past_pruning_reader : PastPruningPointsStoreReader DbPastPruningPointsStore := {|
  get_past_pruning_point s index :=
    match past_access s !! index with
    | Some h => Ok h
    | None => Err (KeyNotFound (IndexKey PAST_PRUNING_POINTS_PREFIX index))
    end |}.

Definition insert_past_pruning_point (index : Z) (pruning_point : Hash)
    : M DbPastPruningPointsStore StoreError unit := λ s,
  if bool_decide (is_Some (past_access s !! index)) then (Err (KeyAlreadyExists (IndexText index)), s)
  else (Ok tt, mkPastPruning (<[index := pruning_point]> (past_access s))).

(** ** Tips *)

Class TipsStoreReader (T : Type) : Type := { get_tips : T → outcome StoreError (gset Hash) }.

Record DbTipsStore : Type := mkTips { tips_access : option (gset Hash) }.

#[export] Instance db_tips_reader : TipsStoreReader DbTipsStore := {|
  get_tips s := read_item BODY_TIPS_NAME (tips_access s) |}.

Definition init_tips (initial_tips : list Hash) : M DbTipsStore StoreError unit :=
  modify (λ _, mkTips (Some (list_to_set initial_tips))).

Definition update_tips (current_tips : gset Hash) (new_tip_parents : list Hash) (new_tip : Hash) : gset Hash :=
  {[ new_tip ]} ∪ foldl (λ tips parent, tips ∖ {[ parent ]}) current_tips new_tip_parents.

Definition add_tip (new_tip : Hash) (new_tip_parents : list Hash)
    : M DbTipsStore StoreError (gset Hash) := λ s,
  match read_item BODY_TIPS_NAME (tips_access s) with
  | Ok tips =>
      let tips := update_tips tips new_tip_parents new_tip in (Ok tips, mkTips (Some tips))
  | Err e => (Err e, s)
  | Panic => (Panic, s)
  | Fuel => (Fuel, s)
  end.
