(* ===== verification/Depth.v ===== *)
(** * Depth and pruning points

    [processes/block_depth.rs]: the merge depth root and the finality point of a
    block, found by a walk up its selected chain; [processes/pruning.rs]: the
    pruning points along the chain and the pruning point a header must declare. *)

From S2P Require Import Prelude Hash Interval Uint Target ReachStore Reachability ReachSim ReachTree ReachQuery ReachDag ReachMain ReachService Relations Headers GhostdagStore Stores.

(** [for block in forward_chain_iterator(..)] with a body that may [break]: it
    returns the next state on the left to go on, on the right to stop. *)
Definition chain_for {E T A} `{ReachabilityStore T} (fuel : nat) (s : T) (body : A → Hash → outcome E (A + A))
    (it : ForwardChainIterator) (a : A) : outcome E A :=
  oloop fuel (λ '(it, a),
    '(item, it) ← unwrap (forward_next s it);
    match item with
    | None => mret (inr a)
    | Some h => r ← body a h; match r with inl a => mret (inl (it, a)) | inr a => mret (inr a) end
    end) (it, a).

(** ** [block_depth.rs] *)

Record BlockDepthManager {S U V : Type} : Type := mkDepthManager {
  dpm_merge_depth : Z;
  dpm_finality_depth : Z;
  dpm_genesis_hash : Hash;
  dpm_depth_store : S;
  dpm_reachability_service : MTReachabilityService U;
  dpm_ghostdag_store : V;
}.
Arguments BlockDepthManager : clear implicits.
Arguments mkDepthManager {S U V}.

Section depth.
Context {E S U V : Type} `{DepthStoreReader S} `{ReachabilityStore U} `{GhostdagStoreReader V} (fuel : nat).
Context (self : BlockDepthManager S U V).

Definition dp_is_chain_ancestor_of (this queried : Hash) : outcome E bool :=
  unwrap (rs_is_chain_ancestor_of (dpm_reachability_service self) this queried).

(** One turn of the walk: stop at the first chain block of the required score. *)
Definition depth_step (required_blue_score : Z) (current chain_block : Hash) : outcome E (Hash + Hash) :=
  bs ← unwrap (get_blue_score (dpm_ghostdag_store self) chain_block);
  if required_blue_score <=? bs then mret (inr current) else mret (inl chain_block).

Definition calculate_block_at_depth (ghostdag_data : GhostdagData) (depth : Z) (pruning_point : Hash)
    : outcome E Hash :=
  assert ((depth =? dpm_merge_depth self) || (depth =? dpm_finality_depth self));;
  if blue_score ghostdag_data <? depth then mret (dpm_genesis_hash self)
  else
    pp_bs ← unwrap (get_blue_score (dpm_ghostdag_store self) pruning_point);
    limit ← add64 pp_bs depth;
    if blue_score ghostdag_data <? limit then mret Hashes.ORIGIN
    else
      b ← dp_is_chain_ancestor_of pruning_point (selected_parent ghostdag_data);
      if negb b then mret Hashes.ORIGIN
      else
        current ← (if depth =? dpm_merge_depth self
                   then unwrap (merge_depth_root (dpm_depth_store self) (selected_parent ghostdag_data))
                   else unwrap (finality_point (dpm_depth_store self) (selected_parent ghostdag_data)));
        let current := if bool_decide (current = Hashes.ORIGIN) then pruning_point else current in
        required_blue_score ← sub64 (blue_score ghostdag_data) depth;
        chain_for fuel (service_store (dpm_reachability_service self)) (depth_step required_blue_score)
          (forward_chain_iterator current (selected_parent ghostdag_data) true) current.

Definition calc_merge_depth_root (ghostdag_data : GhostdagData) (pruning_point : Hash) : outcome E Hash :=
  calculate_block_at_depth ghostdag_data (dpm_merge_depth self) pruning_point.
Definition calc_finality_point (ghostdag_data : GhostdagData) (pruning_point : Hash) : outcome E Hash :=
  calculate_block_at_depth ghostdag_data (dpm_finality_depth self) pruning_point.

(** [Iterator::filter] with a fallible predicate. *)
Fixpoint filter_of {A} (f : A → outcome E bool) (l : list A) : outcome E (list A) :=
  match l with
  | [] => mret []
  | x :: l' => b ← f x; r ← filter_of f l'; mret (if b : bool then x :: r else r)
  end.

Definition kosherizing_blues (ghostdag_data : GhostdagData) (merge_depth_root : Hash) : outcome E (list Hash) :=
  filter_of (λ blue, dp_is_chain_ancestor_of merge_depth_root blue) (mergeset_blues ghostdag_data).
End depth.

(** ** [pruning.rs] *)

Record PruningManager {S T U V : Type} : Type := mkPruningManager {
  prm_pruning_depth : Z;
  prm_finality_depth : Z;
  prm_genesis_hash : Hash;
  prm_reachability_service : MTReachabilityService T;
  prm_ghostdag_store : S;
  prm_headers_store : U;
  prm_past_pruning_points_store : V;
}.
Arguments PruningManager : clear implicits.
Arguments mkPruningManager {S T U V}.

Section pruning.
Context {E S T U V : Type} `{GhostdagStoreReader S} `{ReachabilityStore T} `{HeaderStoreReader U}
  `{PastPruningPointsStoreReader V} (fuel : nat).
Context (self : PruningManager S T U V).

Definition pr_is_chain_ancestor_of (this queried : Hash) : outcome E bool :=
  unwrap (rs_is_chain_ancestor_of (prm_reachability_service self) this queried).

(** [u64] division: panics on zero. *)
Definition finality_score (blue_score : Z) : outcome E Z :=
  if prm_finality_depth self =? 0 then Panic else mret (blue_score / prm_finality_depth self).

(** The new pruning points, the score of the latest one and the new candidate. *)
Definition PruningWalk : Type := (list Hash * Z * Hash)%type.

Definition pruning_step (pov_blue_score : Z) (st : PruningWalk) (selected_child : Hash)
    : outcome E (PruningWalk + PruningWalk) :=
  let '(new_pruning_points, latest_pruning_point_bs, new_candidate) := st in
  selected_child_bs ← unwrap (get_blue_score (prm_ghostdag_store self) selected_child);
  depth ← sub64 pov_blue_score selected_child_bs;
  if depth <? prm_pruning_depth self then mret (inr st)
  else
    candidate_score ← finality_score selected_child_bs;
    latest_score ← finality_score latest_pruning_point_bs;
    if latest_score <? candidate_score
    then mret (inl (new_pruning_points ++ [selected_child], selected_child_bs, selected_child))
    else mret (inl (new_pruning_points, latest_pruning_point_bs, selected_child)).

Definition next_pruning_points_and_candidate_by_ghostdag_data (ghostdag_data : CompactGhostdagData)
    (suggested_low_hash : option Hash) (current_candidate current_pruning_point : Hash)
    : outcome E (list Hash * Hash) :=
  low_hash ← match suggested_low_hash with
             | Some suggested =>
                 b ← pr_is_chain_ancestor_of suggested current_candidate;
                 if negb b then
                   b ← pr_is_chain_ancestor_of current_candidate suggested;
                   assert b;; mret suggested
                 else mret current_candidate
             | None => mret current_candidate
             end;
  (* The capacity of the vector of new points. *)
  finality_score (prm_pruning_depth self);;
  latest_pruning_point_bs ← unwrap (get_blue_score (prm_ghostdag_store self) current_pruning_point);
  '(new_pruning_points, _, new_candidate) ←
    chain_for fuel (service_store (prm_reachability_service self)) (pruning_step (c_blue_score ghostdag_data))
      (forward_chain_iterator low_hash (c_selected_parent ghostdag_data) true)
      ([], latest_pruning_point_bs, current_candidate);
  mret (new_pruning_points, new_candidate).

Definition is_pruning_point_in_pruning_depth (pov_blue_score : Z) (pruning_point : Hash) : outcome E bool :=
  pp_bs ← unwrap (get_header_blue_score (prm_headers_store self) pruning_point);
  limit ← add64 pp_bs (prm_pruning_depth self);
  mret (limit <=? pov_blue_score).

(** The walk down the past pruning points, from the index [i - 1]. *)
Fixpoint past_pruning_point (pov_blue_score : Z) (i : nat) : outcome E Hash :=
  match i with
  | O => mret (prm_genesis_hash self)
  | Datatypes.S i' =>
      past_pp ← unwrap (get_past_pruning_point (prm_past_pruning_points_store self) (Z.of_nat i'));
      b ← is_pruning_point_in_pruning_depth pov_blue_score past_pp;
      if b : bool then mret past_pp else past_pruning_point pov_blue_score i'
  end.

Definition expected_header_pruning_point (ghostdag_data : CompactGhostdagData) (pruning_info : PruningPointInfo)
    : outcome E Hash :=
  if bool_decide (c_selected_parent ghostdag_data = prm_genesis_hash self) then mret (prm_genesis_hash self)
  else
    let '(current_pruning_point, current_candidate, current_pruning_point_index) := decompose pruning_info in
    sp_header ← unwrap (get_header (prm_headers_store self) (c_selected_parent ghostdag_data));
    let sp_header_pp := h_pruning_point sp_header in
    sp_header_pp_blue_score ← unwrap (get_header_blue_score (prm_headers_store self) sp_header_pp);
    has_pruning_point_in_its_selected_chain ←
      pr_is_chain_ancestor_of current_pruning_point (c_selected_parent ghostdag_data);
    sp_score ← finality_score sp_header_pp_blue_score;
    next_score ← add64 sp_score 1;
    min_required_blue_score_for_next_pruning_point ← mul64 next_score (prm_finality_depth self);
    triggers ← (if has_pruning_point_in_its_selected_chain : bool then
                  required ← add64 min_required_blue_score_for_next_pruning_point (prm_pruning_depth self);
                  mret (required <=? c_blue_score ghostdag_data)
                else mret false);
    next_or_current_pp ←
      (if triggers : bool then
         r ← unwrap_option (rs_is_dag_ancestor_of_result (prm_reachability_service self)
                              current_pruning_point sp_header_pp);
         let suggested_low_hash := r ≫= (λ b : bool, if b then Some sp_header_pp else None) in
         '(new_pruning_points, _) ←
           next_pruning_points_and_candidate_by_ghostdag_data ghostdag_data suggested_low_hash
             current_candidate current_pruning_point;
         mret (default current_pruning_point (last new_pruning_points))
       else mret sp_header_pp);
    deep ← is_pruning_point_in_pruning_depth (c_blue_score ghostdag_data) next_or_current_pp;
    if deep : bool then mret next_or_current_pp
    else past_pruning_point (c_blue_score ghostdag_data) (Z.to_nat (current_pruning_point_index + 1)).
End pruning.
