(* ===== verification/SelectedChain.v ===== *)
(** * The selected chain

    The parents of the reachability tree are the selected parents, so the chain
    queries and the chain iterator of the reachability service answer about selected
    chains.  Blue scores grow along them. *)

From S2P Require Import Prelude Hash Interval Uint Target ReachStore Reachability ReachSim ReachTree ReachQuery ReachDag ReachMain ReachService Relations Headers GhostdagStore Ghostdag GhostdagInv Stores Depth.

(** [sel_chain m a b]: [a] is [b] or is reached from it by selected parents. *)
Inductive sel_chain (m : GdMap) (a : Hash) : Hash → Prop :=
| sc_refl : sel_chain m a a
| sc_step b d : m !! b = Some d → sel_chain m a (selected_parent d) → sel_chain m a b.

Definition score_of (m : GdMap) (h : Hash) : Z :=
  match m !! h with Some d => blue_score d | None => 0 end.

Lemma sel_chain_trans m a b c : sel_chain m a b → sel_chain m b c → sel_chain m a c.
Proof. intros Hab. induction 1; [done|]. by econstructor. Qed.

Lemma sel_chain_mono (m m' : GdMap) a b : m ⊆ m' → sel_chain m a b → sel_chain m' a b.
Proof.
  intros Hm. induction 1 as [|b d Hd _ IH]; [constructor|].
  econstructor; [by eapply lookup_weaken|done].
Qed.

(** The store [s] indexes the DAG, with the selected parents as tree parents. *)
Record chain_ok {T} `{StoreLaws T} (s : T) (P : Dag) (m : GdMap) : Prop := {
  ck_state : dag_inv (abs s) P;
  ck_parent h d gd : Memory.map (abs s) !! h = Some d → m !! h = Some gd → parent d = selected_parent gd;
}.

(** ** Loops over a chain *)

(** The loop over a list that [chain_for] runs over a chain. *)
Fixpoint fold_until {E A X} (body : A → X → outcome E (A + A)) (a : A) (l : list X) : outcome E A :=
  match l with
  | [] => mret a
  | x :: l' => r ← body a x; match r with inl a' => fold_until body a' l' | inr a' => mret a' end
  end.

Section walk.
Context {T : Type} `{StoreLaws T} (s : T) (t : tree).
Context (Hr : represents (Memory.map (abs s)) t) (Hi : indexed (Memory.map (abs s)) t).

Lemma chain_for_ok {E A} (body : A → Hash → outcome E (A + A)) fuel a b l acc :
  path (Memory.map (abs s)) a b l → (length l < fuel)%nat →
  chain_for fuel s body (forward_chain_iterator a b true) acc = fold_until body acc l.
Proof using Hr Hi.
  unfold chain_for. revert a l acc. induction fuel as [|fuel IH]; intros a l acc Hl Hf; [lia|].
  cbn [oloop]. destruct (decide (a = b)) as [<-|Hne].
  { pose proof (path_end s t _ _ Hr Hl) as ->. cbn [forward_chain_iterator forward_next].
    rewrite bool_decide_eq_true_2 by done. cbn [unwrap mbind outcome_bind mret outcome_ret fold_until].
    destruct (body acc a) as [[acc'|acc']| | |]; cbn [mbind outcome_bind mret outcome_ret]; try done.
    destruct fuel as [|fuel]; [simpl in Hf; lia|]. done. }
  destruct (path_inv _ _ _ _ Hl) as [_ [[? _]|(c & l' & -> & Hc)]]; [done|].
  rewrite (forward_step s t a c b l' true Hr Hi Hl Hc Hne).
  cbn [unwrap mbind outcome_bind mret outcome_ret fold_until].
  destruct (body acc a) as [[acc'|acc']| | |]; cbn [mbind outcome_bind mret outcome_ret]; try done.
  apply IH; [done|simpl in Hf; lia].
Qed.
End walk.

(** ** Chains of stored blocks *)

Section chains.
Context {T : Type} `{StoreLaws T} (s : T) (P : Dag) (m : GdMap) (g : Hash) (k : Z).
Context (HG : gd_dag P m g k) (HC : chain_ok s P m).

Lemma data_known h : is_Some (P !! h) → is_Some (Memory.map (abs s) !! h).
Proof using HC.
  destruct (ck_state _ _ _ HC) as [t Ht]. intros Hh.
  apply (rep_dom _ _ (di_rep _ _ _ Ht)). by apply (di_dom _ _ _ Ht).
Qed.

Lemma chain_ancestor a b : chain (Memory.map (abs s)) a b → ancestor P a b.
Proof using HC.
  destruct (ck_state _ _ _ HC) as [t Ht]. intros Hc.
  apply (chain_below _ t _ _ (di_rep _ _ _ Ht)) in Hc. destruct (below_in _ _ _ Hc) as [Ha Hb].
  apply (rep_dom _ _ (di_rep _ _ _ Ht)) in Ha as [d Hd].
  apply (cov_reach _ _ _ (di_cov _ _ _ Ht) a b d Hd Hb). by left.
Qed.

Lemma origin_chain a : is_Some (m !! a) → ¬ chain (Memory.map (abs s)) a Hashes.ORIGIN.
Proof using HG HC.
  intros Ha Hc. apply chain_ancestor, (origin_ancestor _ _ _ _ HG) in Hc.
  rewrite Hc, (origin_unknown _ _ _ _ HG) in Ha. by destruct Ha.
Qed.

(** The selected parent of a block above a stored one is stored. *)
Lemma chain_parent_known a b d : is_Some (m !! a) → Memory.map (abs s) !! b = Some d → is_Some (m !! b) →
  chain (Memory.map (abs s)) a (parent d) →
  ∃ gd gp, m !! b = Some gd ∧ parent d = selected_parent gd ∧ m !! selected_parent gd = Some gp
    ∧ blue_score gp < blue_score gd.
Proof using HG HC.
  intros Ha Hd [gd Hgd] Hc. pose proof (ck_parent _ _ _ HC _ _ _ Hd Hgd) as Hp.
  destruct (decide (b = g)) as [Hbg|Hb].
  { exfalso. rewrite Hbg, (gd_genesis_data _ _ _ _ HG) in Hgd. apply (inj Some) in Hgd. rewrite <- Hgd in Hp.
    change (parent d = Hashes.ORIGIN) in Hp. rewrite Hp in Hc. by apply (origin_chain a Ha) in Hc. }
  destruct (parents_of _ _ _ _ HG b gd Hgd) as [ps Hps].
  pose proof (gd_blocks _ _ _ _ HG b ps gd Hps Hgd Hb) as HB.
  destruct (gb_parents _ _ _ _ _ HB _ (gb_selected _ _ _ _ _ HB)) as [gp Hgp].
  exists gd, gp. split_and!; [done..|]. rewrite (gb_score _ _ _ _ _ HB gp Hgp).
  destruct (gb_head _ _ _ _ _ HB) as [bs ->]. simpl. lia.
Qed.

Lemma score_data h d : m !! h = Some d → score_of m h = blue_score d.
Proof using. unfold score_of. by intros ->. Qed.

(** The blocks of a chain between stored blocks are stored, with growing scores. *)
Lemma path_scores a b l : path (Memory.map (abs s)) a b l → is_Some (m !! a) → is_Some (m !! b) →
  Forall (λ x, is_Some (m !! x) ∧ score_of m x ≤ score_of m b) l
  ∧ StronglySorted (λ x y, score_of m x < score_of m y) l.
Proof using HG HC.
  intros Hl Ha. induction Hl as [Hd|b d l Hd Hl IH]; intros Hb.
  { split; [repeat constructor; try done; lia|repeat constructor]. }
  destruct (chain_parent_known a b d Ha Hd Hb) as (gd & gp & Hgd & Hp & Hgp & Hlt); [apply path_chain; eauto|].
  destruct IH as [Hk Hs]; [rewrite Hp; eauto|]. rewrite Hp, (score_data _ _ Hgp) in Hk.
  rewrite (score_data _ _ Hgd). split.
  - apply Forall_app. split; [eapply Forall_impl; [exact Hk|]; intros x [? ?]; split; [done|lia]|].
    repeat constructor; [eauto|]. rewrite (score_data _ _ Hgd). lia.
  - apply StronglySorted_app. split_and!; [|done|repeat constructor].
    intros x y Hx Hy. apply list_elem_of_singleton in Hy as ->. rewrite (score_data _ _ Hgd).
    rewrite Forall_forall in Hk. destruct (Hk x Hx). lia.
Qed.

Lemma path_length a b l : path (Memory.map (abs s)) a b l → is_Some (m !! a) → is_Some (m !! b) →
  (length l ≤ size m)%nat.
Proof using HG HC.
  intros Hl Ha Hb. destruct (path_scores a b l Hl Ha Hb) as [Hk Hs]. rewrite Forall_forall in Hk.
  assert (NoDup l) as Hnd.
  { clear -Hs. induction Hs as [|x l Hs IH Hx]; constructor; [|done]. intros Hin. rewrite Forall_forall in Hx.
    specialize (Hx x Hin). simpl in Hx. lia. }
  rewrite <- (size_dom (D:=gset Hash) m), <- (size_list_to_set (C:=gset Hash)) by done.
  apply subseteq_size. intros h Hh. apply elem_of_list_to_set in Hh. apply elem_of_dom. by apply Hk.
Qed.

(** Chains of the store are chains of selected parents. *)
Lemma chain_sel a b : is_Some (m !! a) → is_Some (m !! b) →
  chain (Memory.map (abs s)) a b ↔ sel_chain m a b.
Proof using HG HC.
  intros Ha Hb. split.
  - intros Hc. induction Hc as [|b d Hd Hc IH]; [constructor|].
    destruct (chain_parent_known a b d Ha Hd Hb Hc) as (gd & gp & Hgd & Hp & Hgp & _).
    econstructor; [exact Hgd|]. rewrite <- Hp. apply IH. rewrite Hp. eauto.
  - intros Hc. induction Hc as [|b gd Hgd Hc IH].
    { apply chain_refl, data_known. by eapply known_dag. }
    destruct (data_known b) as [d Hd]; [by eapply known_dag|].
    pose proof (ck_parent _ _ _ HC _ _ _ Hd Hgd) as Hp. econstructor; [exact Hd|]. rewrite Hp. apply IH.
    destruct (decide (b = g)) as [Hbg|Hbg]; [|by destruct (selected_known _ _ _ _ HG b gd Hgd Hbg) as (? & ? & _); eauto].
    exfalso. rewrite Hbg, (gd_genesis_data _ _ _ _ HG) in Hgd. apply (inj Some) in Hgd. rewrite <- Hgd in Hc.
    change (sel_chain m a Hashes.ORIGIN) in Hc. pose proof (origin_unknown _ _ _ _ HG) as Hno.
    revert Hc Hno. generalize Hashes.ORIGIN. intros o Hc Hno. inversion Hc as [|? ? Ho _]; [|congruence].
    subst. rewrite Hno in Ha. by destruct Ha.
Qed.

(** The genesis is on the selected chain of every block. *)
Lemma genesis_chain h : is_Some (m !! h) → sel_chain m g h.
Proof using HG.
  intros [d Hd]. destruct (stored_colored _ _ _ _ HG h d Hd) as (hs & l & [Hb _ _]). revert h Hd.
  induction Hb as [d Hsel|d d' hs l Hd' _ IH]; intros h Hd.
  - destruct (decide (h = g)) as [->|Hg]; [constructor|].
    destruct (selected_known _ _ _ _ HG h d Hd Hg) as (d' & Hd' & _). rewrite Hsel in Hd'.
    by rewrite (origin_unknown _ _ _ _ HG) in Hd'.
  - econstructor; [exact Hd|]. by apply IH.
Qed.

Lemma service_chain a b : is_Some (m !! a) → is_Some (m !! b) →
  ∃ r, rs_is_chain_ancestor_of (mkService s) a b = Ok r ∧ (r = true ↔ sel_chain m a b).
Proof using HG HC.
  intros Ha Hb. destruct (ck_state _ _ _ HC) as [t Ht].
  destruct (chain_query (abs s) t a b (di_rep _ _ _ Ht) (di_idx _ _ _ Ht)) as (r & Hr & Hiff).
  { apply data_known. by eapply known_dag. } { apply data_known. by eapply known_dag. }
  exists r. split; [|by rewrite Hiff, <- (chain_below _ t _ _ (di_rep _ _ _ Ht)), chain_sel].
  simpl. unfold read_guard. simpl.
  pose proof (sim_is_chain_ancestor_of a b s) as Hsim. rewrite Hr in Hsim. injection Hsim as Hsim _. by rewrite <- Hsim.
Qed.

(** A loop over the chain between two stored blocks. *)
Lemma chain_walk {E A} (body : A → Hash → outcome E (A + A)) fuel a b acc :
  is_Some (m !! a) → is_Some (m !! b) → sel_chain m a b → (size m < fuel)%nat →
  ∃ l, path (Memory.map (abs s)) a b l
    ∧ chain_for fuel s body (forward_chain_iterator a b true) acc = fold_until body acc l.
Proof using HG HC.
  intros Ha Hb Hc Hf. destruct (ck_state _ _ _ HC) as [t Ht].
  apply (chain_sel a b Ha Hb), path_chain in Hc as [l Hl]. exists l. split; [done|].
  apply (chain_for_ok s t); [apply (di_rep _ _ _ Ht)|apply (di_idx _ _ _ Ht)|done|].
  pose proof (path_length a b l Hl Ha Hb). lia.
Qed.
End chains.
