(* ===== verification/DepthProof.v ===== *)
(** * Correctness of depth roots and pruning points

    The walk of [calculate_block_at_depth] finds the chain block at the given depth
    below a block, starting from the root stored for its selected parent; the walk of
    the pruning manager finds the chain blocks whose finality score is new. *)

From S2P Require Import Prelude Hash Interval Uint Target ReachStore Reachability ReachSim ReachTree ReachQuery ReachDag ReachMain ReachService Relations Headers GhostdagStore Ghostdag GhostdagInv GhostdagMerge GhostdagColor GhostdagRun Stores Depth SelectedChain.

(** ** The specification *)

(** [r] is the block at [depth] below a block with data [d]: the chain block whose
    score is lower by [depth] or more, such that the next chain blocks are nearer. *)
Record at_depth (m : GdMap) (d : GhostdagData) (depth : Z) (r : Hash) : Prop := {
  ad_chain : sel_chain m r (selected_parent d);
  ad_deep : score_of m r + depth ≤ blue_score d;
  ad_next c : sel_chain m r c → sel_chain m c (selected_parent d) → c ≠ r →
    blue_score d ≤ score_of m c + depth;
}.

(** The walk that finds [r] begins at [start] and leaves it for blocks that are strictly
    deeper only, so that on the chain from [start] the block is determined. *)
Definition from_start (m : GdMap) (d : GhostdagData) (depth : Z) (start r : Hash) : Prop :=
  sel_chain m start r ∧ (r = start ∨ score_of m r + depth < blue_score d).

(** What the store keeps for a block: a root on its chain deep enough, the genesis,
    or the origin when there was none above the pruning point. *)
Definition root_ok (m : GdMap) (g : Hash) (depth : Z) (h r : Hash) : Prop :=
  r = Hashes.ORIGIN
  ∨ is_Some (m !! r) ∧ sel_chain m r h ∧ (r = g ∨ score_of m r + depth ≤ score_of m h).

(** ** Facts about chains *)

Section chains.
Context {T : Type} `{StoreLaws T} (s : T) (P : Dag) (m : GdMap) (g : Hash) (k : Z).
Context (HG : gd_dag P m g k) (HC : chain_ok s P m).
Local Abbreviation D := (Memory.map (abs s)).

Lemma sel_score a b : is_Some (m !! a) → is_Some (m !! b) → sel_chain m a b →
  a = b ∨ score_of m a < score_of m b.
Proof using HG HC.
  intros Ha Hb Hc. apply (chain_sel s P m g k HG HC a b Ha Hb) in Hc. revert Hb.
  induction Hc as [|b d Hd Hc IH]; intros Hb; [by left|]. right.
  destruct (chain_parent_known s P m g k HG HC a b d Ha Hd Hb Hc) as (gd & gp & Hgd & Hp & Hgp & Hlt).
  rewrite (score_data m b gd Hgd). rewrite Hp in IH. rewrite (score_data m _ gp Hgp) in IH.
  destruct IH as [->|]; [eauto|by rewrite (score_data m _ gp Hgp)|lia].
Qed.

Lemma path_app a b c l l' : path D a b l → path D b c l' → path D a c (l ++ tail l').
Proof using.
  intros Hl. induction 1 as [_|c d l' Hd Hl' IH]; [by rewrite app_nil_r|].
  destruct (path_inv D b (parent d) l' Hl') as [Hh _]. destruct l' as [|x l']; [done|]. simpl in *.
  rewrite app_assoc. by eapply path_step.
Qed.

Lemma path_last a b l : path D a b l → last l = Some b.
Proof using. destruct 1; [done|apply last_snoc]. Qed.

Lemma path_between a b c l : path D a b l → chain D a c → chain D c b → c ∈ l.
Proof using HC.
  destruct (ck_state _ _ _ HC) as [t Ht]. intros Hl Hac Hcb.
  apply path_chain in Hac as [l1 H1], Hcb as [l2 H2].
  rewrite (path_unique _ t (di_rep _ _ _ Ht) a b l _ Hl (path_app _ _ _ _ _ H1 H2)).
  apply elem_of_app. left. apply path_last in H1. by apply last_Some_elem_of.
Qed.

Lemma path_mid a b l x : path D a b l → x ∈ l → chain D a x ∧ chain D x b.
Proof using.
  induction 1 as [Ha|b d l Hd Hl IH]; intros Hx.
  - apply list_elem_of_singleton in Hx as ->. split; by apply chain_refl.
  - apply elem_of_app in Hx as [Hx|Hx%list_elem_of_singleton].
    + destruct (IH Hx). split; [done|]. by eapply chain_step.
    + rewrite Hx. split; [apply path_chain; eexists; by eapply path_step|apply chain_refl; eauto].
Qed.

Lemma path_mid_sel a b l x : path D a b l → is_Some (m !! a) → is_Some (m !! b) → x ∈ l →
  is_Some (m !! x) ∧ sel_chain m a x ∧ sel_chain m x b.
Proof using HG HC.
  intros Hl Ha Hb Hx. destruct (path_scores s P m g k HG HC a b l Hl Ha Hb) as [Hk _].
  rewrite Forall_forall in Hk. destruct (Hk x Hx) as [Hxk _]. destruct (path_mid a b l x Hl Hx).
  rewrite <- !(chain_sel s P m g k HG HC) by done. done.
Qed.

Lemma sel_known_up a b : is_Some (m !! a) → sel_chain m a b → is_Some (m !! b).
Proof using. destruct 2; eauto. Qed.
End chains.

Lemma score_nonneg {T} `{StoreLaws T} (s : T) P m g k h : gd_dag P m g k → chain_ok s P m →
  is_Some (m !! h) → 0 ≤ score_of m h.
Proof.
  intros HG HC Hh. assert (score_of m g = 0) as Hz.
  { rewrite (score_data m g _ (gd_genesis_data _ _ _ _ HG)). done. }
  destruct (sel_score s P m g k HG HC g h) as [<-|]; [|done|by apply (genesis_chain P m g k)|lia|lia].
  rewrite (gd_genesis_data _ _ _ _ HG). eauto.
Qed.

(** ** The walk to a depth *)

Section depth.
Context {E S U V : Type} `{DepthStoreReader S} `{StoreLaws U} `{GhostdagStoreLaws V}.
Context (self : BlockDepthManager S U V) (P : Dag) (m : GdMap) (k : Z).
Local Abbreviation store := (service_store (dpm_reachability_service self)).
Local Abbreviation g := (dpm_genesis_hash self).

Record depth_ok : Prop := {
  dk_chain : chain_ok store P m;
  dk_dag : gd_dag P m g k;
  dk_store : gd_ok (dpm_ghostdag_store self);
  dk_abs : gd_abs (dpm_ghostdag_store self) = m;
  dk_merge h : is_Some (m !! h) → ∃ r, merge_depth_root (dpm_depth_store self) h = Ok r
    ∧ root_ok m g (dpm_merge_depth self) h r;
  dk_finality h : is_Some (m !! h) → ∃ r, finality_point (dpm_depth_store self) h = Ok r
    ∧ root_ok m g (dpm_finality_depth self) h r;
}.
Context (HD : depth_ok).

Lemma read_score h : is_Some (m !! h) →
  unwrap (E':=E) (get_blue_score (dpm_ghostdag_store self) h) = Ok (score_of m h).
Proof using HD.
  intros [d Hd]. rewrite law_blue_score by apply (dk_store HD). unfold read_field.
  rewrite (dk_abs HD), Hd. cbn. by rewrite (score_data m h d Hd).
Qed.

Lemma depth_fold req cur l :
  Forall (λ x, is_Some (m !! x)) l → StronglySorted (λ x y, score_of m x < score_of m y) l →
  ∃ pre post, l = pre ++ post ∧ Forall (λ x, score_of m x < req) pre ∧ Forall (λ x, req ≤ score_of m x) post
    ∧ fold_until (E:=E) (depth_step self req) cur l = Ok (default cur (last pre)).
Proof using HD.
  intros Hk Hs. revert cur. induction Hs as [|x l Hs IH Hlt]; intros cur.
  { exists [], []. split_and!; by constructor. }
  apply Forall_cons in Hk as [Hx Hk]. cbn [fold_until]. unfold depth_step at 2. rewrite read_score by done.
  cbn [mbind outcome_bind]. destruct (Z.leb_spec req (score_of m x)) as [Hle|Hle].
  - exists [], (x :: l). split_and!; [done|constructor| |done].
    constructor; [done|]. eapply Forall_impl; [exact Hlt|]. simpl. intros; lia.
  - cbn [mbind outcome_bind mret outcome_ret]. destruct (IH Hk x) as (pre & post & -> & Hpre & Hpost & ->).
    exists (x :: pre), post. split_and!; [done|by constructor|done|].
    rewrite last_cons. by destruct (last pre).
Qed.

(** From a start on the chain that is deep enough the walk ends at the depth. *)
Lemma walk_ok fuel d dsp depth start :
  m !! selected_parent d = Some dsp → is_Some (m !! start) → sel_chain m start (selected_parent d) →
  score_of m start + depth ≤ blue_score d → (size m < fuel)%nat →
  ∃ r, chain_for (E:=E) fuel store (depth_step self (blue_score d - depth))
         (forward_chain_iterator start (selected_parent d) true) start = Ok r
    ∧ is_Some (m !! r) ∧ at_depth m d depth r ∧ from_start m d depth start r.
Proof using HD.
  intros Hsp Hst Hc Hdeep Hf. pose proof (dk_chain HD) as HC. pose proof (dk_dag HD) as HG.
  assert (is_Some (m !! selected_parent d)) as Hspk by eauto.
  destruct (chain_walk (E:=E) store P m g k HG HC (depth_step self (blue_score d - depth)) fuel
    start (selected_parent d) start Hst Hspk Hc Hf) as (l & Hl & ->).
  destruct (path_scores store P m g k HG HC _ _ _ Hl Hst Hspk) as [Hk Hs]. rewrite Forall_and in Hk.
  destruct Hk as [Hk _].
  destruct (depth_fold (blue_score d - depth) start l Hk Hs) as (pre & post & -> & Hpre & Hpost & ->).
  rewrite Forall_forall in Hk, Hpre, Hpost. exists (default start (last pre)). split; [done|].
  assert (is_Some (m !! default start (last pre)) ∧ sel_chain m start (default start (last pre))
    ∧ sel_chain m (default start (last pre)) (selected_parent d)
    ∧ score_of m (default start (last pre)) + depth ≤ blue_score d
    ∧ (default start (last pre) = start ∨ score_of m (default start (last pre)) + depth < blue_score d)) as (Hrk & Hsr & Hrc & Hrd & Hrs).
  { destruct (last pre) as [x|] eqn:Hlast; simpl; [|split_and!; try done; [constructor|by left]].
    apply last_Some_elem_of in Hlast as Hx. pose proof (Hpre x Hx).
    destruct (path_mid_sel store P m g k HG HC _ _ _ x Hl Hst Hspk) as (? & ? & ?); [set_solver|].
    split_and!; [done..|lia|right; lia]. }
  split; [done|]. split; [|by split]. split; [done|done|]. intros c Hrc' Hcs Hne.
  assert (is_Some (m !! c)) as Hck by (by eapply sel_known_up).
  destruct (sel_score store P m g k HG HC _ c Hrk Hck Hrc') as [|Hlt]; [done|].
  assert (c ∈ pre ++ post) as [Hcp|Hcp]%elem_of_app.
  { eapply (path_between store P m HC start (selected_parent d)); [done|..]; apply (chain_sel store P m g k HG HC); try done.
    by eapply sel_chain_trans. }
  - exfalso. apply list_elem_of_split in Hcp as (l1 & l2 & ->). rewrite last_app, last_cons in Hlt.
    destruct (last l2) as [y|] eqn:Hy; simpl in Hlt; [|lia].
    apply last_Some_elem_of in Hy. rewrite <- app_assoc in Hs. apply StronglySorted_app in Hs as (_ & _ & Hs).
    apply StronglySorted_inv in Hs as [_ Hs]. rewrite Forall_forall in Hs. assert (score_of m c < score_of m y) by (apply Hs; set_solver). lia.
  - specialize (Hpost c Hcp). simpl in Hpost. lia.
Qed.

(** Where the walk begins: the root stored for the selected parent, or the pruning point
    when none is stored. *)
Definition walk_start (d : GhostdagData) (depth : Z) (pp start : Hash) : Prop := ∃ r0,
  (if depth =? dpm_merge_depth self then merge_depth_root (dpm_depth_store self) (selected_parent d)
   else finality_point (dpm_depth_store self) (selected_parent d)) = Ok r0
  ∧ start = if bool_decide (r0 = Hashes.ORIGIN) then pp else r0.

(** The result of [calculate_block_at_depth]. *)
Definition depth_result (d : GhostdagData) (depth : Z) (pp r : Hash) : Prop :=
  (blue_score d < depth ∧ r = g)
  ∨ (depth ≤ blue_score d ∧ (blue_score d < score_of m pp + depth ∨ ¬ sel_chain m pp (selected_parent d))
     ∧ r = Hashes.ORIGIN)
  ∨ (score_of m pp + depth ≤ blue_score d ∧ sel_chain m pp (selected_parent d)
     ∧ is_Some (m !! r) ∧ at_depth m d depth r ∧ ∃ start, walk_start d depth pp start ∧ from_start m d depth start r).

Lemma block_at_depth_ok fuel ps d depth pp :
  gd_block P m k ps d → is_Some (m !! pp) → (depth = dpm_merge_depth self ∨ depth = dpm_finality_depth self) →
  0 ≤ depth → blue_score d ≤ u64_max → score_of m pp + depth ≤ u64_max → (size m < fuel)%nat →
  ∃ r, calculate_block_at_depth (E:=E) fuel self d depth pp = Ok r ∧ depth_result d depth pp r.
Proof using HD.
  intros Hd Hpp Hdepth Hd0 Hds Hpps Hf. pose proof (dk_chain HD) as HC. pose proof (dk_dag HD) as HG.
  pose proof (score_nonneg store P m g k pp HG HC Hpp) as Hpp0.
  unfold calculate_block_at_depth. rewrite (proj2 (orb_true_iff _ _)) by (rewrite !Z.eqb_eq; done).
  cbn [assert mbind outcome_bind]. destruct (Z.ltb_spec (blue_score d) depth) as [Hlt|Hge].
  { exists g. split; [done|]. by left. }
  rewrite read_score by done. cbn [mbind outcome_bind]. rewrite add64_ok by lia. cbn [mbind outcome_bind].
  destruct (Z.ltb_spec (blue_score d) (score_of m pp + depth)) as [Hlt2|Hge2].
  { exists Hashes.ORIGIN. split; [done|]. right; left. split_and!; [done|by left|done]. }
  assert (is_Some (m !! selected_parent d)) as Hsp by (eapply gb_parents; [done|by eapply gb_selected]).
  destruct (service_chain store P m g k HG HC pp (selected_parent d) Hpp Hsp) as (b & Hb & Hiff).
  unfold dp_is_chain_ancestor_of. destruct (dpm_reachability_service self) as [st] eqn:Hst.
  cbn [service_store] in *. rewrite Hb. cbn [unwrap mbind outcome_bind].
  destruct b; cbn [negb]; [|exists Hashes.ORIGIN; split; [done|]; right; left; split_and!; [done|right; by rewrite <- Hiff|done]].
  pose proof (proj1 Hiff eq_refl) as Hppc.
  assert (∃ r0, (if depth =? dpm_merge_depth self
                 then unwrap (E':=E) (merge_depth_root (dpm_depth_store self) (selected_parent d))
                 else unwrap (finality_point (dpm_depth_store self) (selected_parent d))) = Ok r0
            ∧ root_ok m g depth (selected_parent d) r0
            ∧ walk_start d depth pp (if bool_decide (r0 = Hashes.ORIGIN) then pp else r0)) as (r0 & -> & Hr0 & Hws).
  { unfold walk_start. destruct (Z.eqb_spec depth (dpm_merge_depth self)) as [->|Hne].
    - destruct (dk_merge HD _ Hsp) as (r & -> & Hr). by exists r; split_and!; [..|exists r].
    - destruct Hdepth as [?| ->]; [done|]. destruct (dk_finality HD _ Hsp) as (r & -> & Hr). by exists r; split_and!; [..|exists r]. }
  cbn [mbind outcome_bind]. rewrite sub64_ok by lia. cbn [mbind outcome_bind].
  set (start := if bool_decide (r0 = Hashes.ORIGIN) then pp else r0).
  assert (is_Some (m !! start) ∧ sel_chain m start (selected_parent d)
    ∧ score_of m start + depth ≤ blue_score d) as (Hs1 & Hs2 & Hs3).
  { unfold start. case_bool_decide as Ho; [done|]. destruct Hr0 as [?|(H1' & H2' & [->|H3'])]; [done|..].
    - split_and!; [done..|]. rewrite (score_data m g _ (gd_genesis_data _ _ _ _ HG)).
      unfold genesis_ghostdag_data; cbn [blue_score]. lia.
    - split_and!; [done..|]. destruct Hsp as [dsp Hdsp]. rewrite (score_data _ _ _ Hdsp) in H3'.
      pose proof (gb_score _ _ _ _ _ Hd dsp Hdsp). lia. }
  destruct Hsp as [dsp Hdsp].
  destruct (walk_ok fuel d dsp depth start Hdsp Hs1 Hs2 Hs3 Hf) as (r & Hr & Hrk & Hat & Hfs).
  rewrite Hst in Hr. exists r. split; [exact Hr|]. right; right. split_and!; try done. by exists start.
Qed.
End depth.

(** ** Pruning points *)

Lemma sel_chain_linear m a b c : sel_chain m a c → sel_chain m b c → sel_chain m a b ∨ sel_chain m b a.
Proof.
  intros Ha. induction Ha as [|c d Hd Ha IH]; intros Hb; [by right|].
  inversion Hb as [|? d' Hd' Hb']; subst; [left; by econstructor|]. simplify_eq. auto.
Qed.

Section pruning.
Context {E S T U V : Type} `{GhostdagStoreLaws S} `{StoreLaws T} `{HeaderStoreReader U} `{PastPruningPointsStoreReader V}.
Context (self : PruningManager S T U V) (P : Dag) (m : GdMap) (k : Z).
Local Abbreviation store := (service_store (prm_reachability_service self)).
Local Abbreviation g := (prm_genesis_hash self).

(** The finality score of a block. *)
Definition fin (h : Hash) : Z := score_of m h / prm_finality_depth self.
(** The block is deep enough below a block of score [pov] to be pruned. *)
Definition deep (pov : Z) (h : Hash) : Prop := score_of m h + prm_pruning_depth self ≤ pov.

Record pruning_ok : Prop := {
  pk_chain : chain_ok store P m;
  pk_dag : gd_dag P m g k;
  pk_store : gd_ok (prm_ghostdag_store self);
  pk_abs : gd_abs (prm_ghostdag_store self) = m;
  pk_score h : is_Some (m !! h) → get_header_blue_score (prm_headers_store self) h = Ok (score_of m h);
  pk_header h : is_Some (m !! h) → h ≠ g → ∃ x, get_header (prm_headers_store self) h = Ok x
    ∧ is_Some (m !! h_pruning_point x) ∧ sel_chain m (h_pruning_point x) h
    ∧ (h_pruning_point x = g ∨ deep (score_of m h) (h_pruning_point x));
  pk_finality : 0 < prm_finality_depth self;
  pk_depth : 0 ≤ prm_pruning_depth self;
  pk_bound h : is_Some (m !! h) →
    score_of m h + prm_finality_depth self + prm_pruning_depth self ≤ u64_max;
}.
Context (HP : pruning_ok).

Lemma pruning_score h : is_Some (m !! h) →
  unwrap (E':=E) (get_blue_score (prm_ghostdag_store self) h) = Ok (score_of m h).
Proof using HP.
  intros [d Hd]. rewrite law_blue_score by apply (pk_store HP). unfold read_field.
  rewrite (pk_abs HP), Hd. cbn. by rewrite (score_data m h d Hd).
Qed.

Lemma finality_score_ok z : finality_score (E:=E) self z = Ok (z / prm_finality_depth self).
Proof using HP.
  unfold finality_score. pose proof (pk_finality HP). by rewrite (proj2 (Z.eqb_neq _ _)) by lia.
Qed.

(** What the walk collects from the blocks [pre] that are deep enough. *)
Record points_ok (latest : Z) (pre points : list Hash) (latest' : Z) : Prop := {
  pt_sub x : x ∈ points → x ∈ pre ∧ latest / prm_finality_depth self < fin x;
  pt_sorted : StronglySorted (λ x y, fin x < fin y) points;
  pt_max x : x ∈ pre → fin x ≤ latest' / prm_finality_depth self;
  pt_le : latest / prm_finality_depth self ≤ latest' / prm_finality_depth self;
  pt_last : latest' = default latest (score_of m <$> last points);
}.

Lemma pruning_fold pov l pts lat cand :
  Forall (λ x, is_Some (m !! x) ∧ score_of m x ≤ pov) l → StronglySorted (λ x y, score_of m x < score_of m y) l →
  pov ≤ u64_max →
  ∃ pre post pts' lat', l = pre ++ post ∧ Forall (deep pov) pre ∧ Forall (λ x, ¬ deep pov x) post
    ∧ points_ok lat pre pts' lat'
    ∧ fold_until (E:=E) (pruning_step self pov) (pts, lat, cand) l = Ok (pts ++ pts', lat', default cand (last pre)).
Proof using HP.
  intros Hk Hs Hpov. revert pts lat cand. induction Hs as [|x l Hs IH Hlt]; intros pts lat cand.
  { exists [], [], [], lat. split_and!; [done|constructor|constructor| |by rewrite app_nil_r].
    split; [by intros ? ?%elem_of_nil|constructor|by intros ? ?%elem_of_nil|done|done]. }
  apply Forall_cons in Hk as [[Hx Hxp] Hk]. cbn [fold_until]. unfold pruning_step at 2.
  pose proof (score_nonneg store P m g k x (pk_dag HP) (pk_chain HP) Hx) as Hx0.
  rewrite pruning_score by done. cbn [mbind outcome_bind]. rewrite sub64_ok by lia. cbn [mbind outcome_bind].
  destruct (Z.ltb_spec (pov - score_of m x) (prm_pruning_depth self)) as [Hsh|Hdp].
  { exists [], (x :: l), [], lat. split_and!; [done|constructor| | |by rewrite app_nil_r].
    - constructor; [unfold deep; lia|]. eapply Forall_impl; [exact Hlt|]. unfold deep. simpl. intros; lia.
    - split; [by intros ? ?%elem_of_nil|constructor|by intros ? ?%elem_of_nil|done|done]. }
  rewrite !finality_score_ok. cbn [mbind outcome_bind].
  destruct (Z.ltb_spec (lat / prm_finality_depth self) (score_of m x / prm_finality_depth self)) as [Hnew|Hold];
    cbn [mbind outcome_bind mret outcome_ret].
  - destruct (IH Hk (pts ++ [x]) (score_of m x) x) as (pre & post & pts' & lat' & -> & Hpre & Hpost & Hpt & ->).
    exists (x :: pre), post, (x :: pts'), lat'.
    split_and!; [done|constructor; [unfold deep; lia|done]|done| |rewrite <- app_assoc, last_cons; by destruct (last pre)].
    destruct Hpt as [H1' H2' H3' H4' H5']. split.
    + intros y [->|Hy]%elem_of_cons; [split; [left|done]|]. destruct (H1' y Hy). split; [by right|lia].
    + constructor; [done|]. apply Forall_forall. intros y Hy. by destruct (H1' y Hy).
    + intros y [->|Hy]%elem_of_cons; [done|by apply H3'].
    + lia.
    + rewrite last_cons, H5'. by destruct (last pts').
  - destruct (IH Hk pts lat x) as (pre & post & pts' & lat' & -> & Hpre & Hpost & Hpt & ->).
    exists (x :: pre), post, pts', lat'.
    split_and!; [done|constructor; [unfold deep; lia|done]|done| |rewrite last_cons; by destruct (last pre)].
    destruct Hpt as [H1' H2' H3' H4' H5']. split; try done.
    + intros y Hy. destruct (H1' y Hy). split; [by right|done].
    + intros y [->|Hy]%elem_of_cons; [unfold fin; lia|by apply H3'].
Qed.

(** The pruning points above [pp] on the chain from [low] to [sp], seen from a block
    of score [pov], and the candidate for the next one. *)
Record next_points (low sp pp cand : Hash) (pov : Z) (points : list Hash) (cand' : Hash) : Prop := {
  np_point x : x ∈ points →
    is_Some (m !! x) ∧ sel_chain m low x ∧ sel_chain m x sp ∧ deep pov x ∧ fin pp < fin x;
  np_sorted : StronglySorted (λ x y, fin x < fin y) points;
  np_max c : sel_chain m low c → sel_chain m c sp → deep pov c → fin c ≤ fin (default pp (last points));
  np_candidate : is_Some (m !! cand')
    ∧ ((cand' = cand ∧ ∀ c, sel_chain m low c → sel_chain m c sp → ¬ deep pov c)
       ∨ (sel_chain m low cand' ∧ sel_chain m cand' sp ∧ deep pov cand'
          ∧ ∀ c, sel_chain m low c → sel_chain m c sp → deep pov c → sel_chain m c cand'));
}.

Lemma walk_points fuel low sp pp cand pov :
  is_Some (m !! low) → is_Some (m !! sp) → is_Some (m !! pp) → is_Some (m !! cand) →
  sel_chain m low sp → score_of m sp ≤ pov → pov ≤ u64_max → (size m < fuel)%nat →
  ∃ points latest cand', chain_for (E:=E) fuel store (pruning_step self pov) (forward_chain_iterator low sp true)
      ([], score_of m pp, cand) = Ok (points, latest, cand')
    ∧ next_points low sp pp cand pov points cand'.
Proof using HP.
  intros Hlow Hsp Hpp Hcand Hc Hpov Hpov' Hf. pose proof (pk_chain HP) as HC. pose proof (pk_dag HP) as HG.
  destruct (chain_walk (E:=E) store P m g k HG HC (pruning_step self pov) fuel low sp ([], score_of m pp, cand)
    Hlow Hsp Hc Hf) as (l & Hl & ->).
  destruct (path_scores store P m g k HG HC _ _ _ Hl Hlow Hsp) as [Hk Hs].
  destruct (pruning_fold pov l [] (score_of m pp) cand) as (pre & post & pts & lat & -> & Hpre & Hpost & Hpt & ->);
    [eapply Forall_impl; [exact Hk|]; simpl; intros x [? ?]; split; [done|lia]|done|done|].
  exists pts, lat, (default cand (last pre)). split; [done|]. rewrite Forall_forall in Hpre, Hpost.
  assert (∀ c, sel_chain m low c → sel_chain m c sp → c ∈ pre ++ post) as Hall.
  { intros c Hlc Hcs. pose proof (sel_known_up m _ _ Hlow Hlc). 
    eapply (path_between store P m HC low sp); [done|..]; by apply (chain_sel store P m g k HG HC). }
  assert (∀ c, sel_chain m low c → sel_chain m c sp → deep pov c → c ∈ pre) as Hdeep.
  { intros c Hlc Hcs Hd. pose proof (Hall c Hlc Hcs) as [?|Hp]%elem_of_app; [done|]. by destruct (Hpost c Hp). }
  pose proof (λ x, path_mid_sel store P m g k HG HC _ _ _ x Hl Hlow Hsp) as Hmid.
  destruct Hpt as [H1' H2' H3' H4' H5']. split.
  - intros x Hx. destruct (H1' x Hx) as [Hxp Hxf]. destruct (Hmid x) as (? & ? & ?); [set_solver|].
    split_and!; [done..|by apply Hpre|done].
  - done.
  - intros c Hlc Hcs Hd. etrans; [by apply H3', Hdeep|]. rewrite H5'. unfold fin. by destruct (last pts).
  - destruct (last pre) as [x|] eqn:Hx; simpl.
    + apply last_Some_elem_of in Hx as Hxp. destruct (Hmid x) as (Hxk & Hlx & Hxs); [set_solver|]. split; [done|].
      right. split_and!; [done..|by apply Hpre|]. intros c Hlc Hcs Hd.
      destruct (sel_chain_linear m c x sp Hcs Hxs) as [|Hxc]; [done|].
      pose proof (sel_known_up m _ _ Hlow Hlc) as Hck.
      destruct (sel_score store P m g k HG HC x c Hxk Hck Hxc) as [->|Hlt]; [constructor|]. exfalso.
      apply last_Some in Hx as [pre' ->]. specialize (Hdeep c Hlc Hcs Hd). apply StronglySorted_app in Hs as (_ & Hs & _).
      apply StronglySorted_app in Hs as (Hs & _). apply elem_of_app in Hdeep as [Hc'|Hc'%list_elem_of_singleton].
      * specialize (Hs c x Hc'). simpl in Hs. assert (score_of m c < score_of m x) by (apply Hs; set_solver). lia.
      * subst. lia.
    + split; [done|]. left. split; [done|]. intros c Hlc Hcs Hd. specialize (Hdeep c Hlc Hcs Hd).
      destruct pre; [by apply elem_of_nil in Hdeep|]. apply last_None in Hx. done.
Qed.

Lemma pruning_chain a b : is_Some (m !! a) → is_Some (m !! b) →
  ∃ r, pr_is_chain_ancestor_of (E:=E) self a b = Ok r ∧ (r = true ↔ sel_chain m a b).
Proof using HP.
  intros Ha Hb. destruct (service_chain store P m g k (pk_dag HP) (pk_chain HP) a b Ha Hb) as (r & Hr & Hiff).
  exists r. split; [|done]. unfold pr_is_chain_ancestor_of. destruct (prm_reachability_service self) as [st].
  change (rs_is_chain_ancestor_of (mkService st) a b = Ok r) in Hr. by rewrite Hr.
Qed.

Lemma next_points_ok fuel d suggested cand pp :
  is_Some (m !! c_selected_parent d) → is_Some (m !! pp) → is_Some (m !! cand) → sel_chain m cand (c_selected_parent d) →
  (∀ x, suggested = Some x → is_Some (m !! x) ∧ sel_chain m x (c_selected_parent d)) →
  score_of m (c_selected_parent d) ≤ c_blue_score d ≤ u64_max → (size m < fuel)%nat →
  ∃ points cand' low,
    next_pruning_points_and_candidate_by_ghostdag_data (E:=E) fuel self d suggested cand pp = Ok (points, cand')
    ∧ (low = cand ∨ suggested = Some low) ∧ sel_chain m cand low
    ∧ next_points low (c_selected_parent d) pp cand (c_blue_score d) points cand'.
Proof using HP.
  intros Hsp Hpp Hcand Hcs Hsug [Hpov Hpov'] Hf. unfold next_pruning_points_and_candidate_by_ghostdag_data.
  match goal with |- context [mbind _ ?x] => assert (∃ low, x = Ok low ∧ (low = cand ∨ suggested = Some low)
    ∧ is_Some (m !! low) ∧ sel_chain m cand low ∧ sel_chain m low (c_selected_parent d))
    as (low & -> & Hlow & Hlk & Hcl & Hls) end.
  { destruct suggested as [x|]; [|exists cand; split_and!; [done|by left|done|constructor|done]].
    destruct (Hsug x eq_refl) as [Hx Hxs].
    destruct (pruning_chain x cand Hx Hcand) as (b & -> & Hb). cbn [mbind outcome_bind].
    destruct b; cbn [negb]; [exists cand; split_and!; [done|by left|done|constructor|done]|].
    destruct (pruning_chain cand x Hcand Hx) as (b' & -> & Hb'). cbn [mbind outcome_bind].
    destruct (sel_chain_linear m x cand (c_selected_parent d) Hxs Hcs) as [Hxc|Hcx]; [by apply Hb in Hxc|].
    rewrite (proj2 Hb' Hcx). exists x. split_and!; [done|by right|done..]. }
  cbn [mbind outcome_bind]. rewrite finality_score_ok. cbn [mbind outcome_bind]. rewrite pruning_score by done.
  cbn [mbind outcome_bind].
  destruct (walk_points fuel low (c_selected_parent d) pp cand (c_blue_score d)) as (pts & lat & cand' & -> & Hn); try done.
  exists pts, cand', low. by split_and!.
Qed.

Lemma in_depth_ok pov h : is_Some (m !! h) →
  is_pruning_point_in_pruning_depth (E:=E) self pov h = Ok (score_of m h + prm_pruning_depth self <=? pov).
Proof using HP.
  intros Hh. unfold is_pruning_point_in_pruning_depth. rewrite (pk_score HP h Hh). cbn [unwrap mbind outcome_bind].
  pose proof (score_nonneg store P m g k h (pk_dag HP) (pk_chain HP) Hh). pose proof (pk_bound HP h Hh).
  pose proof (pk_depth HP). pose proof (pk_finality HP). by rewrite add64_ok by lia.
Qed.

Lemma past_point_ok pov n (Q : Hash → Prop) :
  Q g →
  (∀ i, (i < n)%nat → ∃ h, get_past_pruning_point (prm_past_pruning_points_store self) (Z.of_nat i) = Ok h
     ∧ is_Some (m !! h) ∧ Q h) →
  ∃ r, past_pruning_point (E:=E) self pov n = Ok r ∧ is_Some (m !! r) ∧ (r = g ∨ deep pov r) ∧ Q r.
Proof using HP.
  intros Hg. induction n as [|n IH]; intros Hn; simpl.
  { exists g. split_and!; [done| |by left|done]. rewrite (gd_genesis_data _ _ _ _ (pk_dag HP)). eauto. }
  destruct (Hn n) as (h & -> & Hh & HQ); [lia|]. cbn [unwrap mbind outcome_bind]. rewrite in_depth_ok by done.
  cbn [mbind outcome_bind]. destruct (Z.leb_spec (score_of m h + prm_pruning_depth self) pov).
  - exists h. split_and!; [done|done|by right|done].
  - apply IH. intros i Hi. apply Hn. lia.
Qed.

(** The pruning state a node holds: a pruning point, a candidate above it on every
    chain that has the pruning point, and the past pruning points. *)
Record info_ok (sp : Hash) (info : PruningPointInfo) : Prop := {
  io_point : is_Some (m !! pi_pruning_point info);
  io_candidate : is_Some (m !! pi_candidate info);
  io_chain : sel_chain m (pi_pruning_point info) sp → sel_chain m (pi_candidate info) sp;
  io_index : 0 ≤ pi_index info;
  io_past i : 0 ≤ i ≤ pi_index info →
    ∃ h, get_past_pruning_point (prm_past_pruning_points_store self) i = Ok h ∧ is_Some (m !! h)
      ∧ sel_chain m h (pi_pruning_point info);
}.

(** The score from which a block over [pp] can move the pruning point. *)
Definition next_trigger (pp : Hash) : Z := (fin pp + 1) * prm_finality_depth self + prm_pruning_depth self.

Lemma pruning_dag a b : is_Some (m !! a) → is_Some (m !! b) →
  ∃ r, rs_is_dag_ancestor_of_result (prm_reachability_service self) a b = Ok r.
Proof using HP.
  intros Ha Hb. destruct (mt_service_laws store P (ck_state _ _ _ (pk_chain HP))) as [_ Hres _ _ _].
  destruct (Hres a b) as (r & Hr & _); [by eapply known_dag; [apply (pk_dag HP)|]..|]. exists r.
  by destruct (prm_reachability_service self).
Qed.

(** The walk that a block of enough score triggers. *)
Lemma triggered_ok fuel ps d pp cand hpp :
  gd_block P m k ps d → blue_score d ≤ u64_max → is_Some (m !! pp) → is_Some (m !! cand) → is_Some (m !! hpp) →
  sel_chain m cand (selected_parent d) → sel_chain m hpp (selected_parent d) → sel_chain m pp (selected_parent d) →
  (size m < fuel)%nat →
  ∃ n, (r ← unwrap_option (rs_is_dag_ancestor_of_result (prm_reachability_service self) pp hpp);
        '(new_pruning_points, _) ←
          next_pruning_points_and_candidate_by_ghostdag_data (E:=E) fuel self (to_compact d)
            (r ≫= (λ b : bool, if b then Some hpp else None)) cand pp;
        mret (default pp (last new_pruning_points))) = Ok n
    ∧ is_Some (m !! n) ∧ sel_chain m n (selected_parent d)
    ∧ ∀ c, sel_chain m cand c → sel_chain m hpp c → sel_chain m c (selected_parent d) →
        deep (blue_score d) c → fin pp < fin c → deep (blue_score d) n ∧ fin c ≤ fin n.
Proof using HP.
  intros Hd Hds Hpp Hcand Hhpp Hcs Hhs Hps Hf.
  assert (is_Some (m !! selected_parent d)) as Hsp by (eapply gb_parents; [done|by eapply gb_selected]).
  destruct (pruning_dag pp hpp Hpp Hhpp) as [r ->]. cbn [unwrap_option mbind outcome_bind option_bind].
  destruct (next_points_ok fuel (to_compact d) (if r then Some hpp else None) cand pp)
    as (pts & cand' & low & -> & Hlow & Hcl & [Hpt _ Hmax _]); try done.
  { intros y Hy. destruct r; [|done]. by injection Hy as <-. }
  { unfold to_compact. cbn [c_selected_parent c_blue_score]. split; [|done]. destruct Hsp as [dsp Hdsp].
    rewrite (score_data m _ dsp Hdsp), (gb_score _ _ _ _ _ Hd dsp Hdsp). lia. }
  unfold to_compact in Hpt, Hmax. cbn [c_selected_parent c_blue_score] in *.
  exists (default pp (last pts)). split_and!; [done| | |].
  - destruct (last pts) as [y|] eqn:Hy; [|done]. apply last_Some_elem_of in Hy. by destruct (Hpt y Hy).
  - destruct (last pts) as [y|] eqn:Hy; [|done]. apply last_Some_elem_of in Hy. by destruct (Hpt y Hy) as (_ & _ & ? & _).
  - intros c H1' H2' H3' H4' H5'. assert (sel_chain m low c) as Hlc.
    { destruct Hlow as [->|Hlow]; [done|]. destruct r; [by injection Hlow as <-|done]. }
    pose proof (Hmax c Hlc H3' H4') as Hle. destruct (last pts) as [y|] eqn:Hy; simpl in *; [|lia].
    apply last_Some_elem_of in Hy. by destruct (Hpt y Hy) as (_ & _ & _ & ? & _).
Qed.

Lemma fin_bounds h : is_Some (m !! h) →
  0 ≤ fin h ∧ (fin h + 1) * prm_finality_depth self + prm_pruning_depth self ≤ u64_max.
Proof using HP.
  intros Hh. pose proof (pk_finality HP). pose proof (pk_bound HP h Hh).
  pose proof (score_nonneg store P m g k h (pk_dag HP) (pk_chain HP) Hh). unfold fin. split; [apply Z.div_pos; lia|].
  pose proof (Z.mul_div_le (score_of m h) (prm_finality_depth self)). lia.
Qed.

Lemma expected_point_ok fuel ps d info x :
  gd_block P m k ps d → blue_score d ≤ u64_max → info_ok (selected_parent d) info →
  get_header (prm_headers_store self) (selected_parent d) = Ok x → (size m < fuel)%nat →
  ∃ r, expected_header_pruning_point (E:=E) fuel self (to_compact d) info = Ok r ∧ is_Some (m !! r)
    ∧ sel_chain m r (selected_parent d) ∧ (r = g ∨ deep (blue_score d) r)
    ∧ (selected_parent d ≠ g → sel_chain m (pi_pruning_point info) (selected_parent d) →
       next_trigger (h_pruning_point x) ≤ blue_score d →
       ∀ c, sel_chain m (pi_candidate info) c → sel_chain m (h_pruning_point x) c → sel_chain m c (selected_parent d) →
         deep (blue_score d) c → fin (pi_pruning_point info) < fin c → fin c ≤ fin r).
Proof using HP.
  intros Hd Hds [Hpp Hcand Hchain Hidx Hpast] Hx Hf. unfold expected_header_pruning_point, to_compact.
  cbn [c_selected_parent c_blue_score]. case_bool_decide as Hg.
  { exists g. split_and!; [done| |rewrite Hg; constructor|by left|done]. rewrite (gd_genesis_data _ _ _ _ (pk_dag HP)). eauto. }
  assert (is_Some (m !! selected_parent d)) as Hsp by (eapply gb_parents; [done|by eapply gb_selected]).
  destruct info as [pp cand idx]. cbn [decompose pi_pruning_point pi_candidate pi_index] in *.
  destruct (pk_header HP _ Hsp Hg) as (x' & Hx' & Hxk & Hxc & Hxd). rewrite Hx in Hx'. apply ok_inj in Hx' as <-.
  rewrite Hx. cbn [unwrap mbind outcome_bind].
  rewrite (pk_score HP _ Hxk). cbn [unwrap mbind outcome_bind].
  destruct (pruning_chain pp (selected_parent d) Hpp Hsp) as (b & -> & Hb). cbn [mbind outcome_bind].
  rewrite finality_score_ok. cbn [mbind outcome_bind]. fold (fin (h_pruning_point x)).
  pose proof (pk_finality HP) as Hfin. pose proof (pk_depth HP) as Hpd. pose proof (fin_bounds _ Hxk) as [Hf0 Hf1].
  rewrite add64_ok by nia. cbn [mbind outcome_bind]. rewrite mul64_ok by nia. cbn [mbind outcome_bind].
  match goal with |- context [mbind _ ?t] => assert (t = Ok (b && (next_trigger (h_pruning_point x) <=? blue_score d))) as -> end.
  { destruct b; [|done]. rewrite add64_ok by nia. done. }
  cbn [mbind outcome_bind].
  match goal with |- context [mbind _ ?t] => assert (∃ n, t = Ok n ∧ is_Some (m !! n)
    ∧ sel_chain m n (selected_parent d) ∧ (b = false → n = h_pruning_point x) ∧ (b = true → next_trigger (h_pruning_point x) ≤ blue_score d →
       ∀ c, sel_chain m cand c → sel_chain m (h_pruning_point x) c → sel_chain m c (selected_parent d) →
         deep (blue_score d) c → fin pp < fin c →
         deep (blue_score d) n ∧ fin c ≤ fin n)) as (n & -> & Hn & Hns & Hnf & Hnc) end.
  { destruct (b && (next_trigger (h_pruning_point x) <=? blue_score d)) eqn:Htr.
    2: { exists (h_pruning_point x). split_and!; [done..|]. intros Hbt Hle. exfalso. rewrite Hbt in Htr. simpl in Htr.
         apply Z.leb_gt in Htr. lia. }
    apply andb_true_iff in Htr as [Hbt _]. rewrite Hb in Hbt.
    destruct (triggered_ok fuel ps d pp cand (h_pruning_point x)) as (n & Hn & Hnk & Hns & Hnc); try done; [by apply Hchain|].
    unfold to_compact in Hn. exists n. split_and!; [exact Hn|done|done|intros ->; apply Hb in Hbt; done|by intros _ _]. }
  cbn [mbind outcome_bind]. rewrite in_depth_ok by done. cbn [mbind outcome_bind].
  destruct (Z.leb_spec (score_of m n + prm_pruning_depth self) (blue_score d)) as [Hdp|Hsh].
  - exists n. split_and!; [done|done|done|by right|]. intros _ Hc Htr c H1' H2' H3' H4' H5'. apply Hb in Hc.
    by destruct (Hnc Hc Htr c H1' H2' H3' H4' H5').
  - destruct (past_point_ok (blue_score d) (Z.to_nat (idx + 1)) (λ h, b = true → sel_chain m h (selected_parent d)))
      as (r & -> & Hrk & Hr & Hr2);
      [intros _; by apply (genesis_chain P m g k (pk_dag HP))|..].
    { intros i Hi. destruct (Hpast (Z.of_nat i)) as (h & Hh & Hhk & Hhc); [lia|]. exists h. split_and!; [done..|].
      intros Hbt. eapply sel_chain_trans; [exact Hhc|]. by apply Hb. }
    assert (sel_chain m r (selected_parent d)) as Hrs.
    { destruct b; [by apply Hr2|]. destruct Hr as [->|Hrd]; [by apply (genesis_chain P m g k (pk_dag HP))|].
      exfalso. rewrite (Hnf eq_refl) in Hsh. unfold deep in Hrd, Hxd.
      pose proof (score_nonneg store P m g k r (pk_dag HP) (pk_chain HP) Hrk).
      destruct Hsp as [dsp Hdsp]. pose proof (gb_score _ _ _ _ _ Hd dsp Hdsp). rewrite (score_data m _ dsp Hdsp) in Hxd.
      destruct Hxd as [Hxg|Hxd]; [|lia]. rewrite Hxg, (score_data m g _ (gd_genesis_data _ _ _ _ (pk_dag HP))) in Hsh.
      change (blue_score genesis_ghostdag_data) with 0 in Hsh. lia. }
    exists r. split_and!; [done..|]. intros _ Hc Htr c H1' H2' H3' H4' H5'. apply Hb in Hc.
    destruct (Hnc Hc Htr c H1' H2' H3' H4' H5') as (Hdn & _). unfold deep in Hdn. lia.
Qed.
End pruning.

(** ** Properties *)

(** C13: [calc_merge_depth_root] and [calc_finality_point] return, without panicking,
    the genesis for a block whose blue score is below the depth; the origin when the
    pruning point is not that deep or not on the selected chain; and otherwise the block
    at the depth.  The walk begins at the root stored for the selected parent, or at the
    pruning point when that is the origin, and the result is the last block of the chain
    from there whose score is lower than that of the block by more than the depth, or the
    beginning itself when there is none; a later block whose score differs by exactly the
    depth is not chosen. *)
Theorem block_at_depth_correct {E S U V} `{DepthStoreReader S} `{StoreLaws U} `{GhostdagStoreLaws V}
    (fuel : nat) (self : BlockDepthManager S U V) (P : Dag) (m : GdMap) (k : Z) (ps : list Hash) (d : GhostdagData) (pp : Hash) :
  depth_ok self P m k → gd_block P m k ps d → is_Some (m !! pp) →
  0 ≤ dpm_merge_depth self → 0 ≤ dpm_finality_depth self → blue_score d ≤ u64_max →
  score_of m pp + dpm_merge_depth self ≤ u64_max → score_of m pp + dpm_finality_depth self ≤ u64_max →
  (size m < fuel)%nat →
  (∃ r, calc_merge_depth_root (E:=E) fuel self d pp = Ok r ∧ depth_result self m d (dpm_merge_depth self) pp r)
  ∧ (∃ r, calc_finality_point (E:=E) fuel self d pp = Ok r ∧ depth_result self m d (dpm_finality_depth self) pp r).
Proof. intros HD Hd Hpp. intros. split; eapply block_at_depth_ok; eauto. Qed.

(** C14: the pruning point that a header must declare is found without panicking: it
    is on the selected chain, and the genesis or a block deep enough below the header;
    and when the score of the header allows the pruning point to move and the chain
    has a block deep enough with a new finality score, its finality score is the
    greatest of these. *)
Theorem expected_pruning_point_correct {E S T U V} `{GhostdagStoreLaws S} `{StoreLaws T} `{HeaderStoreReader U}
    `{PastPruningPointsStoreReader V} (fuel : nat) (self : PruningManager S T U V) (P : Dag) (m : GdMap) (k : Z)
    (ps : list Hash) (d : GhostdagData) (info : PruningPointInfo) (x : Header) :
  pruning_ok self P m k → gd_block P m k ps d → blue_score d ≤ u64_max → info_ok self m (selected_parent d) info →
  get_header (prm_headers_store self) (selected_parent d) = Ok x → (size m < fuel)%nat →
  ∃ r, expected_header_pruning_point (E:=E) fuel self (to_compact d) info = Ok r ∧ is_Some (m !! r)
    ∧ sel_chain m r (selected_parent d) ∧ (r = prm_genesis_hash self ∨ deep self m (blue_score d) r)
    ∧ (selected_parent d ≠ prm_genesis_hash self → sel_chain m (pi_pruning_point info) (selected_parent d) →
       next_trigger self m (h_pruning_point x) ≤ blue_score d →
       ∀ c, sel_chain m (pi_candidate info) c → sel_chain m (h_pruning_point x) c → sel_chain m c (selected_parent d) →
         deep self m (blue_score d) c → fin self m (pi_pruning_point info) < fin self m c → fin self m c ≤ fin self m r).
Proof. intros HP Hd Hds Hi Hx Hf. by apply (expected_point_ok self P m k HP fuel ps). Qed.

(** ** Witnesses *)

Definition ex_depth_store : DbDepthStore :=
  mkDepth {[1%N := mkDepthInfo Hashes.ORIGIN Hashes.ORIGIN; 2%N := mkDepthInfo 1%N 1%N]}.
Definition ex_depth : BlockDepthManager DbDepthStore Memory.MemoryReachabilityStore DbGd.DbGhostdagStore :=
  mkDepthManager 1 1 1%N ex_depth_store (mkService ex_reach2) ex_gd_store2.

Lemma ex_chain_ok : chain_ok ex_reach2 ex_dag2 ex_data2.
Proof.
  split; [apply (reach_state_inv ex_reach2), ex_reach2_ok|]. intros h d gd Hd Hgd.
  assert (parent <$> Memory.map ex_reach2 !! h = selected_parent <$> ex_data2 !! h) as Heq.
  { assert (is_Some (ex_data2 !! h)) as Hh by eauto. clear d gd Hd Hgd. revert h Hh.
    refine (ex_known2 _ _ _); by vm_compute. }
  change (Memory.map (abs ex_reach2)) with (Memory.map ex_reach2) in Hd. rewrite Hd, Hgd in Heq. by apply (inj Some) in Heq.
Qed.

Lemma ex_depth_ok : depth_ok ex_depth ex_dag2 ex_data2 18.
Proof.
  split; [exact ex_chain_ok|exact ex_dag2_ok|done|done|..].
  - refine (ex_known2 _ _ _).
    + exists Hashes.ORIGIN. split; [by vm_compute|by left].
    + exists 1%N. split; [by vm_compute|]. right. split_and!; [by eexists; vm_compute| |by left].
      apply (genesis_chain _ _ _ _ ex_dag2_ok). by eexists; vm_compute.
  - refine (ex_known2 _ _ _).
    + exists Hashes.ORIGIN. split; [by vm_compute|by left].
    + exists 1%N. split; [by vm_compute|]. right. split_and!; [by eexists; vm_compute| |by left].
      apply (genesis_chain _ _ _ _ ex_dag2_ok). by eexists; vm_compute.
Qed.

Lemma block_at_depth_correct_witness :
  (∃ r, calc_merge_depth_root (E:=unit) 9 ex_depth ex_third 1%N = Ok r ∧ depth_result ex_depth ex_data2 ex_third 1 1%N r)
  ∧ (∃ r, calc_finality_point (E:=unit) 9 ex_depth ex_third 1%N = Ok r ∧ depth_result ex_depth ex_data2 ex_third 1 1%N r).
Proof.
  apply (block_at_depth_correct 9 ex_depth ex_dag2 ex_data2 18 [2%N] ex_third 1%N);
    [exact ex_depth_ok|exact ex_third_block|by eexists; vm_compute|done|done|apply Z.leb_le; by vm_compute..|by apply Nat.ltb_lt].
Defined.

Definition ex_scored (h : Hash) (score : Z) : Header := mkHeader h 0 [[]] 0%N 0%N 0%N 7 0x1d00ffff 0 3 0 score 1%N.
Definition ex_scored_headers : DbHeadersStore :=
  snd (insert_header 2%N (ex_scored 2%N 1) 0 (snd (insert_header 1%N (ex_scored 1%N 0) 0 (mkHeaders ∅ ∅ ∅)))).
Definition ex_pruning : PruningManager DbGd.DbGhostdagStore Memory.MemoryReachabilityStore DbHeadersStore DbPastPruningPointsStore :=
  mkPruningManager 1 1 1%N (mkService ex_reach2) ex_gd_store2 ex_scored_headers (mkPastPruning {[0 := 1%N]}).

Lemma ex_pruning_ok : pruning_ok ex_pruning ex_dag2 ex_data2 18.
Proof.
  split; [exact ex_chain_ok|exact ex_dag2_ok|done|done|..|done|done|].
  - refine (ex_known2 _ _ _); by vm_compute.
  - refine (ex_known2 _ _ _); intros Hne; [by destruct Hne|].
    exists (ex_scored 2%N 1). split_and!; [by vm_compute|by eexists; vm_compute| |by left].
    apply (genesis_chain _ _ _ _ ex_dag2_ok). by eexists; vm_compute.
  - refine (ex_known2 _ _ _); apply Z.leb_le; by vm_compute.
Qed.

Lemma ex_info_ok : info_ok ex_pruning ex_data2 2%N (pruning_from_genesis 1%N).
Proof.
  split; [by eexists; vm_compute|by eexists; vm_compute|done|done|].
  intros i Hi. change (0 ≤ i ≤ 0) in Hi. assert (i = 0) as -> by lia. exists 1%N.
  split_and!; [by vm_compute|by eexists; vm_compute|constructor].
Qed.

Lemma expected_pruning_point_correct_witness :
  ∃ r, expected_header_pruning_point (E:=unit) 9 ex_pruning (to_compact ex_third) (pruning_from_genesis 1%N) = Ok r
    ∧ is_Some (ex_data2 !! r) ∧ (r = 1%N ∨ deep ex_pruning ex_data2 (blue_score ex_third) r).
Proof.
  destruct (expected_pruning_point_correct (E:=unit) 9 ex_pruning ex_dag2 ex_data2 18 [2%N] ex_third
    (pruning_from_genesis 1%N) (ex_scored 2%N 1)) as (r & H1 & H2 & _ & H3 & _);
    [exact ex_pruning_ok|exact ex_third_block|apply Z.leb_le; by vm_compute|exact ex_info_ok|by vm_compute|by apply Nat.ltb_lt|].
  exists r. exact (conj H1 (conj H2 H3)).
Defined.

(** The pruning point moves: the third block sees the second as its pruning point. *)
Example ex_expected_point :
  expected_header_pruning_point (E:=unit) 9 ex_pruning (to_compact ex_third) (pruning_from_genesis 1%N) = Ok 2%N.
Proof. by vm_compute. Qed.
