(* ===== verification/Parents.v ===== *)
(** * Parents of a block at every level

    [processes/parents_builder.rs]: the parents a header must list at each level of
    the proofs, from the parents of its direct parents. *)

From S2P Require Import Prelude Hash Interval Uint Target ReachStore Reachability ReachMain ReachService Relations Headers GhostdagStore Stores Depth.

(** [Iterator::position] with a fallible predicate. *)
Fixpoint position_of {E A} (f : A → outcome E bool) (l : list A) : outcome E (option nat) :=
  match l with
  | [] => mret None
  | x :: l' => b ← f x; if b : bool then mret (Some 0%nat) else (r ← position_of f l'; mret (S <$> r))
  end.

(** [Vec::swap(0, i)]: panics out of range. *)
Definition swap_first {E A} (i : nat) (l : list A) : outcome E (list A) :=
  match l !! 0%nat, l !! i with
  | Some a, Some b => mret (<[0%nat := b]> (<[i := a]> l))
  | _, _ => Panic
  end.

(** [IndexSet]: the items in the order of their first insertion. *)
Definition index_insert (l : list Hash) (x : Hash) : list Hash :=
  if bool_decide (x ∈ l) then l else l ++ [x].
Definition index_extend (l xs : list Hash) : list Hash := foldl index_insert l xs.

(** [HashMap::retain] and [HashMap::values().any()] with a fallible predicate, in
    some order of the entries. *)
Fixpoint retain_of {E A} (f : A → outcome E bool) (l : list (Hash * A)) : outcome E (gmap Hash A) :=
  match l with
  | [] => mret ∅
  | (h, x) :: l' => b ← f x; r ← retain_of f l'; mret (if b : bool then <[h := x]> r else r)
  end.

Record ParentsManager {T U V : Type} : Type := mkParents {
  pam_max_block_level : nat;
  pam_genesis_hash : Hash;
  pam_headers_store : T;
  pam_reachability_service : MTReachabilityService U;
  pam_relations_store : V;
}.
Arguments ParentsManager : clear implicits.
Arguments mkParents {T U V}.

(** The candidates of a level with their reference blocks. *)
Abbreviation Candidates := (gmap Hash (list Hash)).

Section parents.
Context {E T U V : Type} `{HeaderStoreReader T} `{ReachabilityStore U} `{RelationsStoreReader V}.
Context (self : ParentsManager T U V).

Definition parents_at_level (header : Header) (level : nat) : outcome E (list Hash) :=
  direct ← direct_parents header;
  if bool_decide (direct = []) then mret []
  else
    match h_parents_by_level header !! level with
    | Some l => mret l
    | None => mret [pam_genesis_hash self]
    end.

(** [flat_map] of the parents of some headers. *)
Definition all_parents_at_level (level : nat) (headers : list HeaderWithBlockLevel) : outcome E (list Hash) :=
  l ← omap_each (λ h, parents_at_level (lv_header h) level) headers; mret (concat l).

Definition direct_candidates (level : nat) (headers : list HeaderWithBlockLevel) : Candidates :=
  list_to_map (reverse ((λ h, (h_hash (lv_header h), [h_hash (lv_header h)])) <$>
    filter (λ h, Z.of_nat level ≤ lv_block_level h) headers)).

(** The grandparents of a level, and the number of those that come from the first
    parent when no direct parent is at the level. *)
Definition grandparents_of (level : nat) (headers : list HeaderWithBlockLevel) (candidates : Candidates)
    : outcome E (list Hash * nat) :=
  if bool_decide (candidates = ∅) then
    first ← unwrap_opt (headers !! 0%nat);
    first_parents ← parents_at_level (lv_header first) level;
    let grandparents := index_extend [] first_parents in
    rest ← all_parents_at_level level (drop 1 headers);
    mret (index_extend grandparents rest, length grandparents)
  else
    l ← all_parents_at_level level (filter (λ h, lv_block_level h < Z.of_nat level) headers);
    mret (index_extend [] l, 0%nat).

Definition reference_blocks_of (level : nat) (origin_children_headers : list Header) (parent : Hash)
    : outcome E (list Hash) :=
  ofold (λ refs child_header,
    l ← parents_at_level child_header level;
    mret (if bool_decide (parent ∈ l) then refs ++ [h_hash child_header] else refs)) [] origin_children_headers.

(** One turn of the loop over the grandparents. *)
Definition add_candidate (level : nat) (origin_children : list Hash) (origin_children_headers : list Header)
    (first_parent_marker : nat) (candidates : Candidates) (item : nat * Hash) : outcome E Candidates :=
  let '(i, parent) := item in
  r ← unwrap_option (rs_is_any_dag_ancestor_result (pam_reachability_service self) origin_children parent);
  let is_in_origin_children_future := match r with Some b => b | None => false end in
  reference_blocks ← (if is_in_origin_children_future : bool then mret [parent]
                      else reference_blocks_of level origin_children_headers parent);
  if (i <? first_parent_marker)%nat then mret (<[parent := reference_blocks]> candidates)
  else if negb is_in_origin_children_future then mret candidates
  else
    let len_before_retain := size candidates in
    candidates ← retain_of (λ refs,
      b ← unwrap (rs_is_any_dag_ancestor (pam_reachability_service self) refs parent); mret (negb b))
      (map_to_list candidates);
    let is_any_candidate_ancestor_of := (size candidates <? len_before_retain)%nat in
    add ← (if is_any_candidate_ancestor_of then mret true
           else
             b ← any_of (λ '(_, candidate_references),
                   unwrap (rs_is_dag_ancestor_of_any (pam_reachability_service self) parent candidate_references))
                   (map_to_list candidates);
             mret (negb b));
    mret (if add : bool then <[parent := reference_blocks]> candidates else candidates).

Definition level_candidates (level : nat) (headers : list HeaderWithBlockLevel) (origin_children : list Hash)
    (origin_children_headers : list Header) : outcome E Candidates :=
  let candidates := direct_candidates level headers in
  '(grandparents, first_parent_marker) ← grandparents_of level headers candidates;
  ofold (add_candidate level origin_children origin_children_headers first_parent_marker) candidates
    (zip (seq 0 (length grandparents)) grandparents).

(** The levels from [level] on; [n] are left. *)
Fixpoint levels_from (level n : nat) (headers : list HeaderWithBlockLevel) (origin_children : list Hash)
    (origin_children_headers : list Header) : outcome E (list (list Hash)) :=
  match n with
  | O => mret []
  | S n' =>
      candidates ← level_candidates level headers origin_children origin_children_headers;
      if (0 <? level)%nat && (size candidates =? 1)%nat
         && bool_decide (is_Some (candidates !! pam_genesis_hash self))
      then mret []
      else
        rest ← levels_from (S level) n' headers origin_children origin_children_headers;
        mret ((map_to_list candidates).*1 :: rest)
  end.

Definition calc_block_parents (pruning_point : Hash) (direct_parents : list Hash) : outcome E (list (list Hash)) :=
  direct_parent_headers ←
    omap_each (λ parent, unwrap (get_header_with_block_level (pam_headers_store self) parent)) direct_parents;
  i ← position_of (λ parent, unwrap (rs_is_dag_ancestor_of (pam_reachability_service self) pruning_point parent))
        direct_parents;
  first_parent_in_future_of_pruning_point ← unwrap_opt i;
  direct_parent_headers ← swap_first first_parent_in_future_of_pruning_point direct_parent_headers;
  origin_children ← unwrap (get_rel_children (pam_relations_store self) Hashes.ORIGIN);
  origin_children_headers ← omap_each (λ parent, unwrap (get_header (pam_headers_store self) parent)) origin_children;
  levels_from 0 (pam_max_block_level self) direct_parent_headers origin_children origin_children_headers.
End parents.
