(* ===== verification/ParentsProof.v ===== *)
(** * Correctness of the parents of levels

    At every level the candidates that [calc_block_parents] keeps are the maximal
    ones, with respect to the order of the DAG, of the direct parents at the level
    and the parents at the level of the others. *)

From S2P Require Import Prelude Hash Interval Uint Target ReachStore Reachability ReachSim ReachMain ReachService Relations Headers GhostdagStore Ghostdag GhostdagInv GhostdagMerge GhostdagColor GhostdagRun Stores Depth Parents.

(** ** Index sets *)

Lemma index_insert_prefix l x : l `prefix_of` index_insert l x.
Proof. unfold index_insert. case_bool_decide; [done|]. by exists [x]. Qed.

Lemma index_extend_prefix l xs : l `prefix_of` index_extend l xs.
Proof.
  unfold index_extend. revert l. induction xs as [|x xs IH]; intros l; simpl; [done|].
  etrans; [apply index_insert_prefix|apply IH].
Qed.

Lemma index_extend_elem l xs x : x ∈ index_extend l xs ↔ x ∈ l ∨ x ∈ xs.
Proof.
  unfold index_extend. revert l. induction xs as [|y xs IH]; intros l; simpl; [set_solver|].
  rewrite IH. unfold index_insert. case_bool_decide; set_solver.
Qed.

(** ** Maximal blocks *)

Section maximal.
Context (P : Dag).

Definition maximal (S : Hash → Prop) (x : Hash) : Prop := S x ∧ ∀ y, S y → ancestor P x y → y = x.
Definition antichain (S : Hash → Prop) : Prop := ∀ x y, S x → S y → ancestor P x y → x = y.

(** The candidates are the maximal blocks of [S], each its own reference, and every
    block of [S] is below one of them. *)
Record holds_maximal (S : Hash → Prop) (C : Candidates) : Prop := {
  hm_refs x refs : C !! x = Some refs → refs = [x];
  hm_max x : is_Some (C !! x) ↔ maximal S x;
  hm_cover y : S y → ∃ c, maximal S c ∧ ancestor P y c;
}.

Lemma antichain_maximal S x : antichain S → maximal S x ↔ S x.
Proof. intros Ha. split; [by intros []|]. intros Hx. split; [done|]. intros y Hy Hxy. symmetry. by apply Ha. Qed.

Lemma holds_ext S S' C : (∀ x, S x ↔ S' x) → holds_maximal S C → holds_maximal S' C.
Proof.
  intros He [H1 H2 H3]. assert (∀ x, maximal S x ↔ maximal S' x) as Hm by (unfold maximal; naive_solver).
  split; [done|by intros x; rewrite <- Hm|]. intros y Hy. destruct (H3 y) as (c & Hc & Ha); [by apply He|].
  exists c. by rewrite <- Hm.
Qed.

(** Adding a block that is unrelated to the others. *)
Lemma holds_insert S C p : antichain (λ x, S x ∨ x = p) → holds_maximal S C →
  holds_maximal (λ x, S x ∨ x = p) (<[p := [p]]> C).
Proof.
  intros Ha [H1 H2 H3]. assert (antichain S) as Ha' by (intros x y ? ?; apply Ha; auto).
  split.
  - intros x refs. rewrite lookup_insert_Some. intros [[-> <-]|[_ Hx]]; [done|by apply H1].
  - intros x. rewrite (antichain_maximal _ _ Ha), lookup_insert_is_Some', H2, (antichain_maximal _ _ Ha'). naive_solver.
  - intros y Hy. exists y. split; [by apply antichain_maximal|constructor].
Qed.

(** Adding a block by comparing it with the candidates: [below] tells which of them
    are ancestors of it. *)
Lemma holds_add S C p (R : Candidates) (below : Hash → bool) (add : bool) :
  (∀ x y z, ancestor P x y → ancestor P y z → ancestor P x z) →
  (∀ x, S x → ancestor P x p → ancestor P p x → x = p) →
  holds_maximal S C →
  (∀ x, is_Some (C !! x) → below x = true ↔ ancestor P x p) →
  (∀ x refs, R !! x = Some refs ↔ C !! x = Some refs ∧ below x = false) →
  (if add then (∃ c, is_Some (C !! c) ∧ ancestor P c p) ∨ (∀ c, is_Some (R !! c) → ¬ ancestor P p c)
   else (∀ c, is_Some (C !! c) → ¬ ancestor P c p) ∧ ∃ c, is_Some (R !! c) ∧ ancestor P p c) →
  holds_maximal (λ x, S x ∨ x = p) (if add then <[p := [p]]> R else R).
Proof.
  intros Htrans Hanti [H1 H2 H3] Hb HR Hadd.
  assert (∀ x, is_Some (R !! x) ↔ maximal S x ∧ ¬ ancestor P x p) as HRm.
  { intros x. rewrite <- H2. unfold is_Some at 1. setoid_rewrite HR. split.
    - intros [refs [Hx Hf]]. assert (is_Some (C !! x)) as Hs by eauto. split; [done|]. rewrite <- (Hb x Hs), Hf. done.
    - intros [[refs Hx] Hn]. exists refs. split; [done|]. destruct (below x) eqn:Hbx; [|done].
      destruct Hn. apply Hb; eauto. }
  assert (∀ x, x ≠ p → maximal (λ x, S x ∨ x = p) x ↔ is_Some (R !! x)) as Hother.
  { intros x Hne. rewrite HRm. unfold maximal. split.
    - intros [[Hx|] Hm]; [|done]. split; [split; [done|]; intros y Hy; apply Hm; by left|].
      intros Ha. apply Hne. symmetry. apply (Hm p); [by right|done].
    - intros [[Hx Hm] Hn]. split; [by left|]. intros y [Hy| ->] Ha; [by apply Hm|done]. }
  assert (R !! p = None) as HRp.
  { destruct (R !! p) eqn:Hp; [|done]. destruct (proj1 (HRm p)) as [_ Hn]; [eauto|]. destruct Hn. constructor. }
  assert (∀ c, maximal S c → is_Some (R !! c) ∨ is_Some (C !! c) ∧ ancestor P c p) as Hsplit.
  { intros c Hc. destruct (below c) eqn:Hbc.
    - right. apply H2 in Hc as Hs. split; [done|]. by apply Hb.
    - left. apply H2 in Hc as [refs Hs]. exists refs. apply HR. done. }
  assert (maximal (λ x, S x ∨ x = p) p ↔ add = true) as Hp.
  { destruct add; [split; [done|intros _]|split; [intros [_ Hm]|done]].
    - split; [by right|]. intros y [Hy| ->] Ha; [|done]. destruct (H3 y Hy) as (c & Hc & Hyc).
      assert (ancestor P c p → y = p) as Hcp.
      { intros Hcp. apply Hanti; [done| |done]. by eapply Htrans. }
      destruct Hadd as [(c' & Hc' & Hc'p)|Hno].
      + apply Hanti; [done| |done]. apply H2 in Hc' as [_ Hm]. rewrite (Hm y Hy); [done|]. by eapply Htrans.
      + destruct (Hsplit c Hc) as [Hcr|[_ ?]]; [|by apply Hcp]. destruct (Hno c Hcr). by eapply Htrans.
    - destruct Hadd as [_ (c & Hc & Hpc)]. apply HRm in Hc as [[Hc _] Hn].
      rewrite (Hm c) in Hn by (by left || done). destruct Hn. constructor. }
  assert (∀ y, S y → ∃ c, maximal S c ∧ ancestor P y c ∧ (is_Some (R !! c) ∨ ancestor P y p ∧ add = true)) as Hcov.
  { intros y Hy. destruct (H3 y Hy) as (c & Hc & Hyc). exists c. split_and!; [done..|].
    destruct (Hsplit c Hc) as [?|[Hcs Hcp]]; [by left|]. right. split; [by eapply Htrans|].
    destruct add; [done|]. by destruct (proj1 Hadd c Hcs). }
  assert (∀ c, is_Some (R !! c) → c ≠ p) as HRne by (intros c Hc ->; rewrite HRp in Hc; by destruct Hc).
  split.
  - intros x refs. assert (R !! x = Some refs → refs = [x]) by (intros [Hx _]%HR; by apply H1).
    destruct add; [|done]. rewrite lookup_insert_Some. intros [[-> <-]|[_ Hx]]; auto.
  - intros x. destruct (decide (x = p)) as [->|Hne].
    + rewrite Hp. destruct add; [rewrite lookup_insert_eq; naive_solver|rewrite HRp]. split; [by intros []|done].
    + rewrite (Hother x Hne). destruct add; [by rewrite lookup_insert_ne|done].
  - intros y [Hy| ->].
    + destruct (Hcov y Hy) as (c & Hc & Hyc & [Hcr|[Hyp Ha]]).
      * exists c. split; [|done]. apply Hother; [by apply HRne|done].
      * exists p. split; [by apply Hp|done].
    + destruct add; [exists p; split; [by apply Hp|constructor]|]. destruct Hadd as [_ (c & Hc & Hpc)].
      exists c. split; [|done]. apply Hother; [by apply HRne|done].
Qed.
End maximal.

Lemma retain_ok {E} (f : list Hash → outcome E bool) (q : Hash → bool) (C : Candidates) :
  (∀ x refs, C !! x = Some refs → f refs = Ok (q x)) →
  ∃ R, retain_of f (map_to_list C) = Ok R
    ∧ ∀ x refs, R !! x = Some refs ↔ C !! x = Some refs ∧ q x = true.
Proof.
  intros Hf. assert (∀ l, NoDup l.*1 → (∀ x refs, (x, refs) ∈ l → f refs = Ok (q x)) →
    ∃ R, retain_of f l = Ok R ∧ ∀ x refs, R !! x = Some refs ↔ (x, refs) ∈ l ∧ q x = true) as Hgen.
  { induction l as [|[h r] l IH]; intros Hnd Hl; simpl.
    - exists ∅. split; [done|]. intros x refs. rewrite lookup_empty. set_solver.
    - apply NoDup_cons in Hnd as [Hh Hnd]. rewrite (Hl h r) by left. cbn [mbind outcome_bind].
      destruct IH as (R & -> & HR); [done|intros; apply Hl; by right|]. cbn [mbind outcome_bind].
      eexists. split; [reflexivity|]. intros x refs. simpl in Hh.
      assert ((h, refs) ∉ l) as Hno by (intros Hin; apply Hh, list_elem_of_fmap; by exists (h, refs)).
      destruct (decide (x = h)) as [->|Hne].
      + destruct (q h) eqn:Hq; [rewrite lookup_insert_eq|rewrite HR]; set_solver.
      + destruct (q h) eqn:Hq; [rewrite lookup_insert_ne by done|]; rewrite HR; set_solver. }
  destruct (Hgen (map_to_list C)) as (R & HR & Hiff).
  - apply NoDup_fst_map_to_list.
  - intros x refs Hx. by apply Hf, elem_of_map_to_list.
  - exists R. split; [done|]. intros x refs. by rewrite Hiff, elem_of_map_to_list.
Qed.
Lemma map_neq_missing (R C : Candidates) : R ⊆ C → R ≠ C → ∃ c refs, C !! c = Some refs ∧ R !! c = None.
Proof.
  intros Hs Hne. destruct (proj1 (map_subset_alt R C)) as [_ (c & Hn & refs & Hc)].
  { split; [done|]. intros Hcs. apply Hne. by apply (anti_symm (⊆)). }
  by exists c, refs.
Qed.

(** ** The levels of stored headers *)

(** The parents of a header at a level. *)
Definition at_level (g : Hash) (x : Header) (level : nat) : list Hash :=
  match h_parents_by_level x !! 0%nat with
  | None | Some [] => []
  | _ => default [g] (h_parents_by_level x !! level)
  end.

(** The blocks among which a header with the parents [xs] chooses at a level. *)
Definition level_set (g : Hash) (level : nat) (xs : list HeaderWithBlockLevel) (y : Hash) : Prop :=
  ∃ x, x ∈ xs ∧ ((Z.of_nat level ≤ lv_block_level x ∧ y = h_hash (lv_header x))
                 ∨ (lv_block_level x < Z.of_nat level ∧ y ∈ at_level g (lv_header x) level)).

(** A header whose parents at every level are known and unrelated. *)
Record header_ok (g : Hash) (P : Dag) (m : GdMap) (x : HeaderWithBlockLevel) : Prop := {
  ho_direct : is_Some (h_parents_by_level (lv_header x) !! 0%nat);
  ho_level : 0 ≤ lv_block_level x;
  ho_known level y : y ∈ at_level g (lv_header x) level → is_Some (m !! y);
  ho_antichain level : antichain P (λ y, y ∈ at_level g (lv_header x) level);
}.

Section levels.
Context {E T U V : Type} `{HeaderStoreReader T} `{StoreLaws U} `{RelationsStoreReader V}.
Context (self : ParentsManager T U V) (P : Dag) (m : GdMap) (k : Z).
Local Abbreviation g := (pam_genesis_hash self).

Record levels_ok : Prop := {
  lk_state : dag_inv (abs (service_store (pam_reachability_service self))) P;
  lk_dag : gd_dag P m g k;
  lk_header h : is_Some (m !! h) → ∃ x, get_header_with_block_level (pam_headers_store self) h = Ok x
    ∧ get_header (pam_headers_store self) h = Ok (lv_header x) ∧ h_hash (lv_header x) = h ∧ header_ok g P m x;
  lk_origin : ∃ oc, get_rel_children (pam_relations_store self) Hashes.ORIGIN = Ok oc ∧ g ∈ oc
    ∧ ∀ h, h ∈ oc → is_Some (m !! h);
}.
Context (HL : levels_ok).

Lemma level_service : ServiceLaws (pam_reachability_service self) P.
Proof using HL.
  pose proof (mt_service_laws _ P (lk_state HL)). by destruct (pam_reachability_service self).
Qed.

Lemma parents_at_level_ok x level : is_Some (h_parents_by_level x !! 0%nat) →
  parents_at_level (E:=E) self x level = Ok (at_level g x level).
Proof using.
  intros [direct Hd]. unfold parents_at_level, at_level, direct_parents. rewrite Hd. cbn [unwrap_opt mbind outcome_bind].
  destruct direct as [|y direct]; [done|]. rewrite bool_decide_eq_false_2 by done. by destruct (h_parents_by_level x !! level).
Qed.

Lemma all_parents_ok level xs : Forall (header_ok g P m) xs →
  ∃ l, all_parents_at_level (E:=E) self level xs = Ok l
    ∧ ∀ y, y ∈ l ↔ ∃ x, x ∈ xs ∧ y ∈ at_level g (lv_header x) level.
Proof using.
  intros Hxs. rewrite Forall_forall in Hxs. unfold all_parents_at_level.
  rewrite (omap_each_ok _ (λ x, at_level g (lv_header x) level)).
  2: { intros x Hx. by apply parents_at_level_ok, Hxs. }
  eexists. split; [reflexivity|]. intros y. rewrite list_elem_of_In, in_concat. split.
  - intros (l & Hl & Hy). apply list_elem_of_In in Hl. apply list_elem_of_In in Hy. apply list_elem_of_fmap in Hl as (x & -> & Hx). eauto.
  - intros (x & Hx & Hy). exists (at_level g (lv_header x) level).
    split; apply list_elem_of_In; [|done]. apply list_elem_of_fmap. eauto.
Qed.

Lemma direct_candidates_ok level xs y refs :
  direct_candidates level xs !! y = Some refs ↔
  refs = [y] ∧ ∃ x, x ∈ xs ∧ Z.of_nat level ≤ lv_block_level x ∧ y = h_hash (lv_header x).
Proof using.
  unfold direct_candidates. set (l := reverse _).
  assert (∀ y refs, (y, refs) ∈ l ↔ refs = [y] ∧ ∃ x, x ∈ xs ∧ Z.of_nat level ≤ lv_block_level x ∧ y = h_hash (lv_header x)) as Hl.
  { intros z r. unfold l. rewrite elem_of_reverse, list_elem_of_fmap. setoid_rewrite list_elem_of_filter. naive_solver. }
  split.
  - intros Hy. by apply Hl, elem_of_list_to_map_2.
  - intros (-> & Hx). assert (is_Some ((list_to_map l : Candidates) !! y)) as [r Hr].
    { apply elem_of_dom. rewrite dom_list_to_map, elem_of_list_to_set, list_elem_of_fmap.
      exists (y, [y]). split; [done|]. by apply Hl. }
    rewrite Hr. apply elem_of_list_to_map_2, Hl in Hr as [-> _]. done.
Qed.

Lemma level_query x y : is_Some (m !! x) → is_Some (m !! y) →
  ∃ b, unwrap (E':=E) (rs_is_any_dag_ancestor (pam_reachability_service self) [x] y) = Ok b
    ∧ (b = true ↔ ancestor P x y).
Proof using HL.
  intros Hx Hy. destruct level_service as [_ _ _ Hany _]. pose proof (λ h, known_dag P m g k (lk_dag HL) h) as Hk.
  destruct (Hany [x] y) as (b & -> & Hb); [by apply Hk|repeat constructor; by apply Hk|].
  exists b. split; [done|]. rewrite Hb. set_solver.
Qed.

Lemma any_candidate_ok p (R : Candidates) :
  is_Some (m !! p) → (∀ x refs, R !! x = Some refs → refs = [x] ∧ is_Some (m !! x)) →
  ∃ b, any_of (E:=E) (λ '(_, candidate_references),
         unwrap (rs_is_dag_ancestor_of_any (pam_reachability_service self) p candidate_references)) (map_to_list R) = Ok b
    ∧ (b = true ↔ ∃ c, is_Some (R !! c) ∧ ancestor P p c).
Proof using HL.
  intros Hp HR. destruct level_service as [_ _ Hof _ _]. pose proof (λ h, known_dag P m g k (lk_dag HL) h) as Hk.
  destruct (any_of_ok (E:=E) (λ '(_, candidate_references),
    unwrap (rs_is_dag_ancestor_of_any (pam_reachability_service self) p candidate_references))
    (λ '(c, _), ancestor P p c) (map_to_list R)) as (b & Hb & Hiff).
  - intros [x refs] Hx%elem_of_map_to_list. destruct (HR x refs Hx) as [-> Hxm].
    destruct (Hof p [x]) as (b & -> & Hb); [by apply Hk|repeat constructor; by apply Hk|].
    exists b. split; [done|]. rewrite Hb. set_solver.
  - exists b. split; [done|]. rewrite Hiff. split.
    + intros ([c refs] & Hc%elem_of_map_to_list & Ha). eauto.
    + intros (c & [refs Hc] & Ha). exists (c, refs). by rewrite elem_of_map_to_list.
Qed.

Lemma add_candidate_ok level oc och marker C i p (S : Hash → Prop) :
  (∀ h, h ∈ oc → is_Some (m !! h)) → g ∈ oc → is_Some (m !! p) → (∀ y, S y → is_Some (m !! y)) →
  holds_maximal P S C → ((i < marker)%nat → antichain P (λ y, S y ∨ y = p)) →
  ∃ C', add_candidate (E:=E) self level oc och marker C (i, p) = Ok C' ∧ holds_maximal P (λ y, S y ∨ y = p) C'.
Proof using HL.
  intros Hoc Hg Hp HS HC Hanti. pose proof (λ h, known_dag P m g k (lk_dag HL) h) as Hk.
  unfold add_candidate. destruct level_service as [_ _ _ _ Hres].
  destruct (Hres oc p) as (b & -> & Hb); [by apply Hk|by apply Forall_forall; intros; apply Hk, Hoc|].
  rewrite (proj2 Hb). 2: { exists g. split; [done|]. by apply (gd_root _ _ _ _ (lk_dag HL)). }
  cbn [unwrap_option mbind outcome_bind mret outcome_ret].
  destruct (Nat.ltb_spec i marker) as [Hi|Hi]; [eexists; split; [reflexivity|]; by apply holds_insert; auto|].
  cbn [negb].
  assert (∀ x refs, C !! x = Some refs → refs = [x] ∧ is_Some (m !! x)) as HCk.
  { intros x refs Hx. split; [by eapply hm_refs|]. apply HS. by apply (hm_max P S C HC x); eauto. }
  set (below := λ x, match unwrap (E':=E) (rs_is_any_dag_ancestor (pam_reachability_service self) [x] p) with
                     | Ok b => b | _ => false end).
  assert (∀ x, is_Some (C !! x) →
    unwrap (E':=E) (rs_is_any_dag_ancestor (pam_reachability_service self) [x] p) = Ok (below x)
    ∧ (below x = true ↔ ancestor P x p)) as Hbelow.
  { intros x [refs Hx]. destruct (HCk x refs Hx) as [_ Hxm]. destruct (level_query x p Hxm Hp) as (c & Hc & Hiff).
    unfold below. by rewrite Hc. }
  destruct (retain_ok (λ refs, b ← unwrap (E':=E) (rs_is_any_dag_ancestor (pam_reachability_service self) refs p); mret (negb b))
    (λ x, negb (below x)) C) as (R & -> & HR).
  { intros x refs Hx. destruct (HCk x refs Hx) as [-> _]. by rewrite (proj1 (Hbelow x ltac:(eauto))). }
  cbn [mbind outcome_bind].
  assert (∀ x refs, R !! x = Some refs ↔ C !! x = Some refs ∧ below x = false) as HR'
    by (intros; rewrite HR, negb_true_iff; done).
  assert (R ⊆ C) as Hsub by (apply map_subseteq_spec; intros x refs Hx; by apply HR' in Hx as [? _]).
  assert ((size R <? size C)%nat = true ↔ ∃ c, is_Some (C !! c) ∧ ancestor P c p) as Hsize.
  { rewrite Nat.ltb_lt. split.
    - intros Hlt. destruct (decide (R = C)) as [->|Hne]; [lia|].
      destruct (map_neq_missing R C Hsub Hne) as (c & refs & Hc & Hn). exists c. split; [eauto|].
      apply (Hbelow c); [eauto|]. destruct (below c) eqn:Hbc; [done|]. exfalso.
      rewrite (proj2 (HR' c refs)) in Hn; done.
    - intros (c & [refs Hc] & Ha). apply map_subset_size. apply map_subset_alt. split; [done|].
      exists c. split; [|eauto]. destruct (R !! c) eqn:Hr; [|done]. apply HR' in Hr as [_ Hr].
      apply (Hbelow c) in Ha; [congruence|eauto]. }
  assert (∀ x refs, R !! x = Some refs → refs = [x] ∧ is_Some (m !! x)) as HRk
    by (intros x refs [Hx _]%HR'; by apply HCk).
  assert (∀ x, S x → ancestor P x p → ancestor P p x → x = p) as Hasym.
  { intros x Hx ? ?. eapply (ancestor_antisym P m g k (lk_dag HL)); auto. }
  pose proof (λ add Ha, holds_add P S C p R below add (ancestor_trans P) Hasym HC (λ x Hx, proj2 (Hbelow x Hx)) HR' Ha) as Hadd.
  destruct (size R <? size C)%nat eqn:Hlt; cbn [mbind outcome_bind mret outcome_ret].
  - eexists. split; [reflexivity|]. apply (Hadd true). left. by apply Hsize.
  - destruct (any_candidate_ok p R Hp HRk) as (b' & -> & Hb'). cbn [mbind outcome_bind mret outcome_ret].
    eexists. split; [reflexivity|]. apply Hadd. destruct b'; simpl.
    + split; [intros c Hc Ha; assert (false = true) by (apply Hsize; eauto); done|by apply Hb'].
    + right. intros c Hc Ha. assert (false = true) by (apply Hb'; eauto). done.
Qed.

(** The headers of the direct parents, in any order. *)
Record direct_ok (xs : list HeaderWithBlockLevel) : Prop := {
  do_ok : Forall (header_ok g P m) xs;
  do_known x : x ∈ xs → is_Some (m !! h_hash (lv_header x));
  do_antichain : antichain P (λ y, ∃ x, x ∈ xs ∧ y = h_hash (lv_header x));
  do_nonempty : xs ≠ [];
}.

Lemma level_known xs level y : direct_ok xs → level_set g level xs y → is_Some (m !! y).
Proof using.
  intros [Hok Hk _ _] (x & Hx & [[_ ->]|[_ Hy]]); [by apply Hk|]. rewrite Forall_forall in Hok.
  by eapply ho_known; [apply Hok|].
Qed.

(** The grandparents complete the direct candidates to the set of the level, and the
    ones before the marker are unrelated. *)
Lemma grandparents_ok level xs : direct_ok xs →
  ∃ gps marker, grandparents_of (E:=E) self level xs (direct_candidates level xs) = Ok (gps, marker)
    ∧ (∀ y, (is_Some (direct_candidates level xs !! y) ∨ y ∈ gps) ↔ level_set g level xs y)
    ∧ ((0 < marker)%nat → direct_candidates level xs = ∅)
    ∧ antichain P (λ y, y ∈ take marker gps).
Proof using HL.
  intros [Hok Hk Ha Hne]. unfold grandparents_of.
  assert (∀ y, is_Some (direct_candidates level xs !! y) ↔
    ∃ x, x ∈ xs ∧ Z.of_nat level ≤ lv_block_level x ∧ y = h_hash (lv_header x)) as Hdir.
  { intros y. unfold is_Some. setoid_rewrite direct_candidates_ok. naive_solver. }
  case_bool_decide as Hemp.
  - destruct xs as [|x xs]; [done|]. cbn [lookup list_lookup unwrap_opt mbind outcome_bind drop].
    apply Forall_cons in Hok as [Hx Hxs]. rewrite parents_at_level_ok by apply Hx. cbn [mbind outcome_bind].
    rewrite drop_0.
    destruct (all_parents_ok level xs Hxs) as (l & Hl & Hiff). rewrite Hl. cbn [mbind outcome_bind mret outcome_ret].
    eexists _, _. split; [reflexivity|]. split_and!; [|done|].
    + intros y. rewrite Hdir, !index_extend_elem, Hiff. unfold level_set.
      assert (∀ x', x' ∈ x :: xs → lv_block_level x' < Z.of_nat level) as Hlow.
      { intros x' Hx'. apply Z.nle_gt. intros Hle. assert (is_Some (direct_candidates level (x :: xs) !! h_hash (lv_header x'))) as [? Hs]
          by (apply Hdir; eauto). by rewrite Hemp, lookup_empty in Hs. }
      split.
      * intros [(x' & Hx' & ? & ->)|[[?%elem_of_nil|Hy]|(x' & Hx' & Hy)]]; [eauto 8|done|..].
        -- exists x. split; [left|]. right. split; [apply Hlow; left|done].
        -- exists x'. split; [by right|]. right. split; [apply Hlow; by right|done].
      * intros (x' & Hx' & [[? ->]|[_ Hy]]); [left; eauto|]. right. apply elem_of_cons in Hx' as [->|Hx']; [by left; right|right; eauto].
    + destruct (index_extend_prefix (index_extend [] (at_level g (lv_header x) level)) l) as [k' ->].
      rewrite take_app_length. intros a b Ha' Hb'. rewrite index_extend_elem in Ha', Hb'.
      apply (ho_antichain _ _ _ x Hx level); set_solver.
  - destruct (all_parents_ok level (filter (λ h, lv_block_level h < Z.of_nat level) xs)) as (l & Hl & Hiff).
    { rewrite Forall_forall in Hok |- *. intros x [_ Hx]%list_elem_of_filter. by apply Hok. }
    rewrite Hl. cbn [mbind outcome_bind mret outcome_ret]. eexists _, _. split; [reflexivity|]. split_and!; [|lia|].
    + intros y. rewrite Hdir, index_extend_elem, Hiff. setoid_rewrite list_elem_of_filter. unfold level_set. set_solver.
    + intros a b. rewrite take_0. set_solver.
Qed.

Lemma zip_seq_prefix {A} (l : list A) n pre (x : nat * A) :
  pre ++ [x] `prefix_of` zip (seq n (length l)) l →
  x.1 = (n + length pre)%nat ∧ l !! length pre = Some x.2 ∧ pre.*2 = take (length pre) l.
Proof using.
  revert n pre. induction l as [|a l IH]; intros n pre; simpl.
  { intros Hp%prefix_nil_inv. by destruct pre. }
  destruct pre as [|y pre]; simpl; intros Hp.
  - apply prefix_cons_inv_1 in Hp as ->. simpl. split_and!; [lia|done|done].
  - apply prefix_cons_inv_1 in Hp as Hy. apply prefix_cons_inv_2 in Hp. destruct (IH _ _ Hp) as (H1' & H2' & H3'). subst y.
    split_and!; [lia|done|]. f_equal. exact H3'.
Qed.

Lemma level_candidates_ok level xs oc och :
  direct_ok xs → (∀ h, h ∈ oc → is_Some (m !! h)) → g ∈ oc →
  ∃ C, level_candidates (E:=E) self level xs oc och = Ok C ∧ holds_maximal P (level_set g level xs) C.
Proof using HL.
  intros Hxs Hoc Hg. destruct (grandparents_ok level xs Hxs) as (gps & marker & Hgp & Hset & Hmark & Hanti).
  unfold level_candidates. rewrite Hgp. cbn [mbind outcome_bind].
  set (S0 := λ y, is_Some (direct_candidates level xs !! y)).
  destruct (ofold_ok (λ pre C, holds_maximal P (λ y, S0 y ∨ y ∈ pre.*2) C)
    (add_candidate (E:=E) self level oc och marker) (direct_candidates level xs) (zip (seq 0 (length gps)) gps)) as (C & HC & HI).
  - assert (antichain P S0) as Ha0.
    { intros y z [r1 Hy] [r2 Hz]. apply direct_candidates_ok in Hy as (_ & x & ? & _ & ->).
      apply direct_candidates_ok in Hz as (_ & x' & ? & _ & ->). apply (do_antichain xs Hxs); eauto. }
    apply (holds_ext P S0); [set_solver|]. split.
    + intros x refs Hx. by apply direct_candidates_ok in Hx as [-> _].
    + intros x. by rewrite antichain_maximal.
    + intros y Hy. exists y. split; [|constructor]. by rewrite antichain_maximal.
  - intros pre [i p] C Hpre HI. destruct (zip_seq_prefix gps 0 pre (i, p) Hpre) as (Hi & Hp & Htake). simpl in Hi, Hp.
    assert (∀ y, S0 y ∨ y ∈ pre.*2 → level_set g level xs y) as Hsub.
    { intros y [Hy|Hy]; apply Hset; [by left|]. right. rewrite Htake, elem_of_take in Hy.
      destruct Hy as (j & Hj & _). by eapply list_elem_of_lookup_2. }
    assert (level_set g level xs p) as Hpl by (apply Hset; right; by eapply list_elem_of_lookup_2).
    destruct (add_candidate_ok level oc och marker C i p (λ y, S0 y ∨ y ∈ pre.*2) Hoc Hg) as (C' & -> & HC');
      [by eapply level_known|intros y Hy; by eapply level_known; [|apply Hsub]|done| |].
    + intros Hlt. assert (∀ y, ((S0 y ∨ y ∈ pre.*2) ∨ y = p) → y ∈ take marker gps) as Hin.
      { unfold S0. rewrite Hmark by lia. intros y [[Hy|Hy]| ->]; apply elem_of_take.
        - rewrite lookup_empty in Hy. by destruct Hy.
        - rewrite Htake, elem_of_take in Hy. destruct Hy as (j & Hj & ?). exists j. split; [done|lia].
        - exists (length pre). split; [done|lia]. }
      intros a b Ha Hb. apply Hanti; by apply Hin.
    + exists C'. split; [done|]. eapply holds_ext; [|exact HC']. intros y. rewrite fmap_app. simpl. set_solver.
  - exists C. split; [done|]. eapply holds_ext; [|exact HI]. intros y. cbv beta. rewrite <- Hset.
    replace ((zip (seq 0 (length gps)) gps).*2) with gps; [done|]. symmetry. apply snd_zip. by rewrite length_seq.
Qed.

(** The lists of parents from [level] on, [n] levels at most: the maximal blocks of
    each level, up to the first one above level 0 that has the genesis only. *)
Record levels_spec (xs : list HeaderWithBlockLevel) (level n : nat) (ls : list (list Hash)) : Prop := {
  ls_level i l : ls !! i = Some l → NoDup l ∧ ∀ y, y ∈ l ↔ maximal P (level_set g (level + i) xs) y;
  ls_length : (length ls ≤ n)%nat;
  ls_stop : (length ls < n)%nat → (0 < level + length ls)%nat
    ∧ ∀ y, maximal P (level_set g (level + length ls) xs) y ↔ y = g;
  ls_first i l : ls !! i = Some l → (0 < level + i)%nat → ¬ ∀ y, y ∈ l ↔ y = g;
}.

Lemma genesis_only (C : Candidates) :
  (size C =? 1)%nat && bool_decide (is_Some (C !! g)) = true ↔ ∀ y, is_Some (C !! y) ↔ y = g.
Proof using.
  rewrite andb_true_iff, Nat.eqb_eq, bool_decide_eq_true. split.
  - intros [Hs [r Hr]] y. split; [|intros ->; eauto].
    assert (delete g C = ∅) as Hd by (apply map_size_empty_inv; rewrite map_size_delete_Some by eauto; lia).
    intros [x Hx]. destruct (decide (y = g)) as [|Hne]; [done|].
    by rewrite <- (lookup_delete_ne C g y), Hd, lookup_empty in Hx by done.
  - intros Hy. destruct (proj2 (Hy g) eq_refl) as [r Hr]. split; [|eauto].
    assert (C = {[g := r]}) as ->; [|by rewrite map_size_singleton].
    apply map_eq. intros y. destruct (decide (y = g)) as [->|Hne]; [by rewrite lookup_singleton_eq|].
    rewrite lookup_singleton_ne by done. destruct (C !! y) eqn:Hc; [|done]. destruct Hne. by apply Hy.
Qed.

Lemma levels_from_ok xs oc och n level :
  direct_ok xs → (∀ h, h ∈ oc → is_Some (m !! h)) → g ∈ oc →
  ∃ ls, levels_from (E:=E) self level n xs oc och = Ok ls ∧ levels_spec xs level n ls.
Proof using HL.
  intros Hxs Hoc Hg. revert level. induction n as [|n IH]; intros level; simpl.
  { exists []. split; [done|]. split; [done|done|simpl; lia|done]. }
  destruct (level_candidates_ok level xs oc och Hxs Hoc Hg) as (C & -> & HC). cbn [mbind outcome_bind].
  pose proof (hm_max P _ C HC) as Hmax. pose proof (genesis_only C) as Hgo.
  assert (∀ y, y ∈ (map_to_list C).*1 ↔ is_Some (C !! y)) as Hkeys.
  { intros y. rewrite list_elem_of_fmap. split.
    - intros ([h r] & -> & Hr%elem_of_map_to_list). eauto.
    - intros [r Hr]. exists (y, r). by rewrite elem_of_map_to_list. }
  rewrite <- andb_assoc. destruct ((0 <? level)%nat && _) eqn:Hstop.
  - exists []. split; [done|]. apply andb_true_iff in Hstop as [H1' H2']. rewrite Hgo in H2'. apply Nat.ltb_lt in H1'.
    split; [done|simpl; lia| |done]. intros _. rewrite Nat.add_0_r. split; [done|]. intros y. by rewrite <- Hmax.
  - destruct (IH (S level)) as (ls & -> & [H1' H2' H3' H4']). cbn [mbind outcome_bind mret outcome_ret].
    eexists. split; [reflexivity|]. split.
    + intros [|i] l Hl; [injection Hl as <-|].
      * rewrite Nat.add_0_r. split; [apply NoDup_fst_map_to_list|]. intros y. by rewrite Hkeys.
      * replace (level + S i)%nat with (S level + i)%nat by lia. by apply H1'.
    + simpl. lia.
    + simpl. intros Hlt. replace (level + S (length ls))%nat with (S level + length ls)%nat by lia. apply H3'. lia.
    + intros [|i] l Hl Hpos; [injection Hl as <-|].
      * setoid_rewrite Hkeys. rewrite <- Hgo. rewrite Nat.add_0_r in Hpos.
        rewrite (proj2 (Nat.ltb_lt 0 level) Hpos) in Hstop. simpl in Hstop. by rewrite Hstop.
      * eapply H4'; [done|lia].
Qed.

Lemma position_ok {A} (f : A → outcome E bool) (Q : A → Prop) l x :
  (∀ y, y ∈ l → ∃ b, f y = Ok b ∧ (b = true ↔ Q y)) → x ∈ l → Q x →
  ∃ i, position_of f l = Ok (Some i) ∧ (i < length l)%nat.
Proof using.
  intros Hf Hx HQ. induction l as [|y l IH]; [by apply elem_of_nil in Hx|]. simpl.
  destruct (Hf y) as (b & -> & Hb); [left|]. cbn [mbind outcome_bind]. destruct b; [exists 0%nat; split; [done|lia]|].
  apply elem_of_cons in Hx as [->|Hx]; [by apply Hb in HQ|].
  destruct IH as (i & -> & Hi); [intros z Hz; apply Hf; by right|done|]. exists (S i). split; [done|lia].
Qed.

Lemma swap_ok {A} i (l : list A) : (i < length l)%nat →
  ∃ l', swap_first (E:=E) i l = Ok l' ∧ ∀ x, x ∈ l' ↔ x ∈ l.
Proof using.
  intros Hi. destruct (lookup_lt_is_Some_2 l i Hi) as [b Hb].
  destruct (lookup_lt_is_Some_2 l 0) as [a Ha]; [lia|]. unfold swap_first. rewrite Ha, Hb.
  eexists. split; [reflexivity|]. intros x. by rewrite (Permutation_insert_swap l i 0 b a Hb Ha).
Qed.

Lemma parent_headers_ok ps : parents_ok P m ps →
  ∃ xs, omap_each (E:=E) (λ p, unwrap (get_header_with_block_level (pam_headers_store self) p)) ps = Ok xs
    ∧ length xs = length ps
    ∧ (∀ x, x ∈ xs ↔ ∃ p, p ∈ ps ∧ get_header_with_block_level (pam_headers_store self) p = Ok x)
    ∧ (∀ y, (∃ x, x ∈ xs ∧ y = h_hash (lv_header x)) ↔ y ∈ ps) ∧ direct_ok xs.
Proof using HL.
  intros [Hne Hk Hanti].
  set (hdr := λ p, match get_header_with_block_level (pam_headers_store self) p with
                   | Ok x => x | _ => mkLevel (mkHeader 0%N 0 [] 0%N 0%N 0%N 0 0 0 0 0 0 0%N) 0 end).
  assert (∀ p, p ∈ ps → get_header_with_block_level (pam_headers_store self) p = Ok (hdr p)
    ∧ h_hash (lv_header (hdr p)) = p ∧ header_ok g P m (hdr p)) as Hhdr.
  { intros p Hp. destruct (lk_header HL p (Hk p Hp)) as (x & Hx & _ & Hh & Hxo). unfold hdr. by rewrite Hx. }
  exists (hdr <$> ps).
  assert (∀ y, (∃ x, x ∈ hdr <$> ps ∧ y = h_hash (lv_header x)) ↔ y ∈ ps) as Hset.
  { intros y. split.
    - intros (x & (p & -> & Hp)%list_elem_of_fmap & ->). by rewrite (proj1 (proj2 (Hhdr p Hp))).
    - intros Hy. exists (hdr y). split; [by apply list_elem_of_fmap_2|]. by rewrite (proj1 (proj2 (Hhdr y Hy))). }
  split_and!; [|by rewrite length_fmap| |done|].
  - apply omap_each_ok. intros p Hp. by rewrite (proj1 (Hhdr p Hp)).
  - intros x. rewrite list_elem_of_fmap. split.
    + intros (p & -> & Hp). exists p. split; [done|]. apply (Hhdr p Hp).
    + intros (p & Hp & Hx). exists p. split; [|done]. rewrite (proj1 (Hhdr p Hp)) in Hx. by apply ok_inj in Hx.
  - split.
    + apply Forall_forall. intros x (p & -> & Hp)%list_elem_of_fmap. apply (Hhdr p Hp).
    + intros x (p & -> & Hp)%list_elem_of_fmap. rewrite (proj1 (proj2 (Hhdr p Hp))). by apply Hk.
    + intros y z Hy Hz. apply Hanti; by apply Hset.
    + by destruct ps.
Qed.

Lemma direct_ok_ext xs xs' : (∀ x, x ∈ xs' ↔ x ∈ xs) → direct_ok xs → direct_ok xs'.
Proof using.
  intros He [H1' H2' H3' H4']. rewrite Forall_forall in H1'. split.
  - apply Forall_forall. intros x Hx. apply H1'. by apply He.
  - intros x Hx. apply H2'. by apply He.
  - intros y z (x1 & Hx1 & ->) (x2 & Hx2 & ->). apply He in Hx1, Hx2. apply H3'; eauto.
  - destruct xs as [|x xs]; [done|]. intros ->. apply (not_elem_of_nil x), He. left.
Qed.

(** At level 0 the maximal blocks are the direct parents. *)
Lemma level_zero xs y : direct_ok xs →
  maximal P (level_set g 0 xs) y ↔ ∃ x, x ∈ xs ∧ y = h_hash (lv_header x).
Proof using.
  intros [H1' H2' H3' H4']. rewrite Forall_forall in H1'.
  assert (∀ z, level_set g 0 xs z ↔ ∃ x, x ∈ xs ∧ z = h_hash (lv_header x)) as Hl.
  { intros z. unfold level_set. split.
    - intros (x & Hx & [[_ ->]|[Hlt _]]); [eauto|]. pose proof (ho_level _ _ _ x (H1' x Hx)). lia.
    - intros (x & Hx & ->). exists x. split; [done|]. left. split; [apply (ho_level _ _ _ x (H1' x Hx))|done]. }
  rewrite antichain_maximal; [apply Hl|]. intros a b Ha Hb. apply H3'; by apply Hl.
Qed.

Lemma calc_block_parents_ok ps pp :
  parents_ok P m ps → is_Some (m !! pp) → (∃ p, p ∈ ps ∧ ancestor P pp p) →
  ∃ xs ls, calc_block_parents (E:=E) self pp ps = Ok ls
    ∧ (∀ x, x ∈ xs ↔ ∃ p, p ∈ ps ∧ get_header_with_block_level (pam_headers_store self) p = Ok x)
    ∧ levels_spec xs 0 (pam_max_block_level self) ls
    ∧ (∀ l, ls !! 0%nat = Some l → ∀ y, y ∈ l ↔ y ∈ ps)
    ∧ (∀ level y, level_set g level xs y → ∃ c, maximal P (level_set g level xs) c ∧ ancestor P y c).
Proof using HL.
  intros Hps Hpp (p & Hp & Hanc). destruct (parent_headers_ok ps Hps) as (xs & Hxs & Hlen & Hmem & Hset & Hdir).
  unfold calc_block_parents. rewrite Hxs. cbn [mbind outcome_bind].
  pose proof (λ h, known_dag P m g k (lk_dag HL) h) as Hkn.
  destruct (position_ok (λ parent, unwrap (E':=E) (rs_is_dag_ancestor_of (pam_reachability_service self) pp parent))
    (ancestor P pp) ps p) as (i & -> & Hi); [|done|done|].
  { intros y Hy. destruct level_service as [Hd _ _ _ _].
    destruct (Hd pp y) as (b & -> & Hb); [by apply Hkn|by apply Hkn, (pk_known _ _ _ Hps)|]. by exists b. }
  cbn [unwrap_opt mbind outcome_bind]. destruct (swap_ok i xs) as (xs' & -> & Hperm); [lia|]. cbn [mbind outcome_bind].
  destruct (lk_origin HL) as (oc & -> & Hg & Hoc). cbn [unwrap mbind outcome_bind].
  assert (∃ och, omap_each (E:=E) (λ h, unwrap (get_header (pam_headers_store self) h)) oc = Ok och) as [och ->].
  { clear Hg. induction oc as [|h oc IH]; [by exists []|]. simpl. destruct (lk_header HL h) as (x & _ & -> & _); [apply Hoc; left|].
    destruct IH as [och Hoch]; [intros; apply Hoc; by right|]. rewrite Hoch. by eexists. }
  cbn [mbind outcome_bind]. pose proof (direct_ok_ext xs xs' Hperm Hdir) as Hdir'.
  destruct (levels_from_ok xs' oc och (pam_max_block_level self) 0 Hdir' Hoc Hg) as (ls & -> & Hls).
  exists xs', ls. split_and!; [done| |done| |].
  - intros x. by rewrite Hperm, Hmem.
  - intros l Hl y. destruct (ls_level _ _ _ _ Hls 0%nat l Hl) as [_ ->]. rewrite level_zero by done.
    rewrite <- Hset. by setoid_rewrite Hperm.
  - intros level. destruct (level_candidates_ok level xs' oc och Hdir' Hoc Hg) as (C & _ & HC). apply (hm_cover _ _ _ HC).
Qed.
End levels.

(** ** The past of the block

    When the stored headers list, at every level, the maximal blocks of their past at the
    level, so does the new one. *)

Section past.
Context {E T U V : Type} `{HeaderStoreReader T} `{StoreLaws U} `{RelationsStoreReader V}.
Context (self : ParentsManager T U V) (P : Dag) (m : GdMap) (k : Z) (HL : levels_ok self P m k).
Local Abbreviation g := (pam_genesis_hash self).
Local Abbreviation header_of := (get_header_with_block_level (pam_headers_store self)).

(** The blocks of [level] or higher in the past of a block over [ps]. *)
Definition past_at (level : nat) (ps : list Hash) (y : Hash) : Prop :=
  is_Some (m !! y) ∧ (∃ x, header_of y = Ok x ∧ Z.of_nat level ≤ lv_block_level x) ∧ ∃ p, p ∈ ps ∧ ancestor P y p.

(** [l] are the maximal ones, and all others are below them. *)
Record lists_maximal (level : nat) (ps l : list Hash) : Prop := {
  lm_max y : y ∈ l ↔ maximal P (past_at level ps) y;
  lm_cover y : past_at level ps y → ∃ c, c ∈ l ∧ ancestor P y c;
}.

(** The headers of all blocks but the genesis, which has the highest level, list them. *)
Record headers_canonical : Prop := {
  hc_genesis : ∃ x, header_of g = Ok x ∧ Z.of_nat (pam_max_block_level self) ≤ lv_block_level x;
  hc_lists h x qs level : h ≠ g → is_Some (m !! h) → header_of h = Ok x → P !! h = Some qs →
    (level < pam_max_block_level self)%nat → lists_maximal level qs (at_level g (lv_header x) level);
}.
Context (HC : headers_canonical).

Section block.
Context (ps : list Hash) (HP : parents_ok P m ps) (xs : list HeaderWithBlockLevel).
Context (Hxs : ∀ x, x ∈ xs ↔ ∃ p, p ∈ ps ∧ header_of p = Ok x).
Context (level : nat) (Hlev : (level < pam_max_block_level self)%nat).

Lemma header_hash_of p x : is_Some (m !! p) → header_of p = Ok x → h_hash (lv_header x) = p.
Proof using HL.
  intros Hp Hx. destruct (lk_header _ _ _ _ HL p Hp) as (x' & Hx' & _ & Hh & _). rewrite Hx in Hx'. by apply ok_inj in Hx' as <-.
Qed.

(** A parent below the level is not the genesis. *)
Lemma low_parent p x : is_Some (m !! p) → header_of p = Ok x → lv_block_level x < Z.of_nat level →
  ∃ qs, P !! p = Some qs ∧ lists_maximal level qs (at_level g (lv_header x) level).
Proof using HL HC Hlev.
  intros Hp Hx Hlt. destruct (known_dag _ _ _ _ (lk_dag _ _ _ _ HL) p Hp) as [qs Hqs]. exists qs. split; [done|].
  apply (hc_lists HC p); try done. intros ->. destruct (hc_genesis HC) as (y & Hy & Hge). rewrite Hx in Hy.
  apply ok_inj in Hy as <-. lia.
Qed.

Lemma level_in_past y : level_set g level xs y → past_at level ps y.
Proof using HL HC HP Hxs Hlev.
  intros (x & (p & Hp & Hx)%Hxs & Hcase). pose proof (pk_known _ _ _ HP p Hp) as Hpk. destruct Hcase as [[Hge ->]|[Hlt Hy]].
  - rewrite (header_hash_of p x) by done. split_and!; [done|eauto|]. exists p. split; [done|constructor].
  - destruct (low_parent p x Hpk Hx Hlt) as (qs & Hqs & Hl). apply (lm_max _ _ _ Hl) in Hy as [(Hm & Hx' & q & Hq & Ha) _].
    split_and!; [done..|]. exists p. split; [done|]. by econstructor.
Qed.

Lemma past_below_level y : past_at level ps y → ∃ c, level_set g level xs c ∧ ancestor P y c.
Proof using HL HC HP Hxs Hlev.
  intros (Hy & (xy & Hxy & Hge) & p & Hp & Ha). pose proof (pk_known _ _ _ HP p Hp) as Hpk.
  destruct (lk_header _ _ _ _ HL p Hpk) as (x & Hx & _ & Hh & _). destruct (Z.le_gt_cases (Z.of_nat level) (lv_block_level x)).
  { exists p. split; [|done]. exists x. split; [apply Hxs; eauto|]. by left. }
  destruct (low_parent p x Hpk Hx) as (qs & Hqs & Hl); [lia|].
  inversion Ha as [|? qs' q Hqs' Hq Haq]; [subst y; rewrite Hx in Hxy; apply ok_inj in Hxy as <-; lia|].
  rewrite Hqs in Hqs'. apply (inj Some) in Hqs' as <-.
  destruct (lm_cover _ _ _ Hl y) as (c & Hc & Hyc); [split_and!; eauto|].
  exists c. split; [|done]. exists x. split; [apply Hxs; eauto|]. right. split; [lia|done].
Qed.

Lemma level_maximal y : maximal P (level_set g level xs) y ↔ maximal P (past_at level ps) y.
Proof using HL HC HP Hxs Hlev.
  pose proof level_in_past as Hin. pose proof past_below_level as Hbelow. split; intros [Hy Hmax].
  - split; [by apply Hin|]. intros z Hz Hyz. destruct (Hbelow z Hz) as (c & Hc & Hzc).
    assert (c = y) as -> by (apply Hmax; [done|]; by eapply ancestor_trans).
    apply (ancestor_antisym P m g k (lk_dag _ _ _ _ HL)); [apply Hz|by apply Hin|done..].
  - destruct (Hbelow y Hy) as (c & Hc & Hyc). rewrite (Hmax c) in Hc by (try apply Hin; done).
    split; [done|]. intros z Hz. by apply Hmax, Hin.
Qed.

Lemma genesis_past : past_at level ps g.
Proof using HL HC HP Hlev.
  clear Hxs xs. destruct (hc_genesis HC) as (x & Hx & Hge). pose proof (lk_dag _ _ _ _ HL) as HG. split_and!.
  - rewrite (gd_genesis_data _ _ _ _ HG). eauto.
  - exists x. split; [done|lia].
  - pose proof (pk_nonempty _ _ _ HP) as Hne. pose proof (pk_known _ _ _ HP) as Hk. destruct ps as [|p l]; [done|].
    exists p. split; [left|]. by apply (gd_root _ _ _ _ HG), Hk; left.
Qed.
End block.

Lemma genesis_ancestor y : is_Some (m !! y) → ancestor P y g → y = g.
Proof using HL.
  intros Hy Ha. pose proof (lk_dag _ _ _ _ HL) as HG. apply (ancestor_antisym P m g k HG); [done| |done|by apply (gd_root _ _ _ _ HG)].
  rewrite (gd_genesis_data _ _ _ _ HG). eauto.
Qed.

Lemma past_at_mono l l' ps y : (l ≤ l')%nat → past_at l' ps y → past_at l ps y.
Proof using Type. intros Hl (Hy & (x & Hx & Hge) & Ha). split_and!; [done|exists x; split; [done|lia]|done]. Qed.

(** Above the level where only the genesis is left there is only the genesis. *)
Lemma genesis_left l level ps : parents_ok P m ps → (∀ y, past_at l ps y → ancestor P y g) → (l ≤ level)%nat →
  (level < pam_max_block_level self)%nat → lists_maximal level ps [g].
Proof using HL HC.
  intros HP Hl Hle Hlev. assert (∀ y, past_at level ps y → y = g) as Hg.
  { intros y Hy. apply genesis_ancestor; [apply Hy|]. apply Hl. by eapply past_at_mono. }
  pose proof (genesis_past ps HP level Hlev) as Hgp. split.
  - intros y. rewrite list_elem_of_singleton. split; [intros ->|by intros [?%Hg _]]. split; [done|]. by intros y ?%Hg.
  - intros y ->%Hg. exists g. split; [by left|constructor].
Qed.

Lemma calc_parents_past ps xs ls : parents_ok P m ps → (∀ x, x ∈ xs ↔ ∃ p, p ∈ ps ∧ header_of p = Ok x) →
  levels_spec self P xs 0 (pam_max_block_level self) ls →
  (∀ level y, level_set g level xs y → ∃ c, maximal P (level_set g level xs) c ∧ ancestor P y c) →
  ∀ level, (level < pam_max_block_level self)%nat → lists_maximal level ps (default [g] (ls !! level)).
Proof using HL HC.
  intros HP Hxs [H1' H2' H3' _] Hcov level Hlev.
  assert (∀ l, (l < pam_max_block_level self)%nat → ∀ y, past_at l ps y →
    ∃ c, maximal P (level_set g l xs) c ∧ ancestor P y c) as Hbelow.
  { intros l Hl y Hy. destruct (past_below_level ps HP xs Hxs l Hl y Hy) as (c & Hc & Hyc).
    destruct (Hcov l c Hc) as (c' & Hc' & Hcc). exists c'. split; [done|]. by eapply ancestor_trans. }
  destruct (ls !! level) as [l|] eqn:Hls; cbn [default].
  - destruct (H1' level l Hls) as [_ Hmem]. split.
    + intros y. rewrite Hmem. by apply level_maximal.
    + intros y Hy. destruct (Hbelow level Hlev y Hy) as (c & Hc & Hyc). exists c. by rewrite Hmem.
  - apply lookup_ge_None_1 in Hls. destruct H3' as [_ Hstop]; [lia|].
    apply (genesis_left (length ls)); [done| |done|done]. intros y Hy.
    destruct (Hbelow (length ls) ltac:(lia) y Hy) as (c & Hc & Hyc). by apply Hstop in Hc as ->.
Qed.
End past.

(** ** Properties *)

(** C19: the parents that a header must list.  On a node that holds all blocks since the
    genesis (as every node of the program does: nothing deletes blocks, so the reference
    blocks kept for pruned parents are not needed), [calc_block_parents] does not panic; its first
    level is the direct parents; at every level it lists, once each, the maximal blocks in
    the order of the DAG among the direct parents of that level and the level's parents
    that the headers of the others list; it stops at the first higher level where only the
    genesis is left.  If moreover the stored headers list at every level exactly the
    maximal blocks of their past at the level or above, then so does the result for the
    new block, a level past its end standing for the genesis. *)
Theorem block_parents_maximal {E T U V} `{HeaderStoreReader T} `{StoreLaws U} `{RelationsStoreReader V}
    (self : ParentsManager T U V) (P : Dag) (m : GdMap) (k : Z) (ps : list Hash) (pp : Hash) :
  levels_ok self P m k → parents_ok P m ps → is_Some (m !! pp) → (∃ p, p ∈ ps ∧ ancestor P pp p) →
  ∃ xs ls, calc_block_parents (E:=E) self pp ps = Ok ls
    ∧ (∀ x, x ∈ xs ↔ ∃ p, p ∈ ps ∧ get_header_with_block_level (pam_headers_store self) p = Ok x)
    ∧ levels_spec self P xs 0 (pam_max_block_level self) ls
    ∧ (∀ l, ls !! 0%nat = Some l → ∀ y, y ∈ l ↔ y ∈ ps)
    ∧ (headers_canonical self P m → ∀ level, (level < pam_max_block_level self)%nat →
        lists_maximal self P m level ps (default [pam_genesis_hash self] (ls !! level))).
Proof.
  intros HL Hps Hpp Hp. destruct (calc_block_parents_ok (E:=E) self P m k HL ps pp Hps Hpp Hp) as (xs & ls & Hls & Hxs & Hspec & Hzero & Hcov).
  exists xs, ls. split_and!; [done..|]. intros HC. by eapply calc_parents_past.
Qed.

(** ** Witness *)

Definition ex_leveled (h : Hash) (parents : list Hash) : Header := mkHeader h 0 [parents] 0%N 0%N 0%N 7 0x1d00ffff 0 3 0 0 1%N.
Definition ex_level_headers : DbHeadersStore :=
  snd (insert_header 2%N (ex_leveled 2%N [1%N]) 0 (snd (insert_header 1%N (ex_leveled 1%N []) 3 (mkHeaders ∅ ∅ ∅)))).
Definition ex_parents_manager : ParentsManager DbHeadersStore Memory.MemoryReachabilityStore DbRel.DbRelationsStore :=
  mkParents 3 1%N ex_level_headers (mkService ex_reach2) (DbRel.mk ex_dag2 {[Hashes.ORIGIN := [1%N]]}).

Lemma ex_leveled_ok h x : h_parents_by_level x = [h] → (h = [] ∨ h = [1%N]) →
  ∀ level y, y ∈ at_level 1%N x level → y = 1%N.
Proof.
  intros Hx Hh level y. unfold at_level. rewrite Hx. destruct Hh as [->| ->]; simpl; [by intros ?%elem_of_nil|].
  destruct level; simpl; by intros ?%list_elem_of_singleton.
Qed.

Lemma ex_header_ok h x level : h_parents_by_level x = [h] → (h = [] ∨ h = [1%N]) → 0 ≤ level →
  header_ok 1%N ex_dag2 ex_data2 (mkLevel x level).
Proof.
  intros Hx Hh Hl. pose proof (ex_leveled_ok h x Hx Hh) as Hal. split; simpl.
  - rewrite Hx. eauto.
  - done.
  - intros l y ->%Hal. by eexists; vm_compute.
  - by intros l y z ->%Hal ->%Hal.
Qed.

Lemma ex_levels_ok : levels_ok ex_parents_manager ex_dag2 ex_data2 18.
Proof.
  split; [apply (reach_state_inv ex_reach2), ex_reach2_ok|exact ex_dag2_ok| |].
  - refine (ex_known2 _ _ _).
    + exists (mkLevel (ex_leveled 1%N []) 3). split_and!; [by vm_compute..|]. apply (ex_header_ok []); [done|by left|done].
    + exists (mkLevel (ex_leveled 2%N [1%N]) 0). split_and!; [by vm_compute..|]. apply (ex_header_ok [1%N]); [done|by right|done].
  - exists [1%N]. split_and!; [by vm_compute|by left|]. intros h ->%list_elem_of_singleton. by eexists; vm_compute.
Qed.

Lemma ex_headers_canonical : headers_canonical ex_parents_manager ex_dag2 ex_data2.
Proof.
  split; [exists (mkLevel (ex_leveled 1%N []) 3); split; [by vm_compute|done]|].
  intros h x qs level Hh Hk. revert h Hk Hh. refine (ex_known2 _ _ _); [by intros []|]. intros _ Hx Hqs Hlev.
  assert (x = mkLevel (ex_leveled 2%N [1%N]) 0) as ->.
  { assert (get_header_with_block_level ex_level_headers 2%N = Ok (mkLevel (ex_leveled 2%N [1%N]) 0)) as Hx' by by vm_compute.
    change (pam_headers_store ex_parents_manager) with ex_level_headers in Hx. rewrite Hx in Hx'. by apply ok_inj in Hx'. }
  assert (qs = [1%N]) as -> by (vm_compute in Hqs; congruence).
  assert (at_level 1%N (ex_leveled 2%N [1%N]) level = [1%N]) as Hat by by destruct level.
  cbn [lv_header]. change (pam_genesis_hash ex_parents_manager) with 1%N. rewrite Hat.
  assert (∀ y, past_at ex_parents_manager ex_dag2 ex_data2 level [1%N] y → y = 1%N) as Hone.
  { intros y (Hy & _ & p & ->%list_elem_of_singleton & Ha). by apply (genesis_ancestor ex_parents_manager _ _ _ ex_levels_ok). }
  assert (past_at ex_parents_manager ex_dag2 ex_data2 level [1%N] 1%N) as Hg.
  { split_and!; [by eexists; vm_compute| |exists 1%N; split; [by left|constructor]].
    exists (mkLevel (ex_leveled 1%N []) 3). split; [by vm_compute|]. cbn in Hlev |- *. lia. }
  split; [intros y; rewrite list_elem_of_singleton; split; [intros ->|by intros [?%Hone _]]; split; [done|by intros z ?%Hone]|].
  intros y ->%Hone. exists 1%N. split; [by left|constructor].
Qed.

Lemma block_parents_maximal_witness :
  ∃ ls, calc_block_parents (E:=unit) ex_parents_manager 1%N [2%N] = Ok ls
    ∧ ∀ level, (level < 3)%nat → lists_maximal ex_parents_manager ex_dag2 ex_data2 level [2%N] (default [1%N] (ls !! level)).
Proof.
  destruct (block_parents_maximal (E:=unit) ex_parents_manager ex_dag2 ex_data2 18 [2%N] 1%N ex_levels_ok ex_parents2
    ltac:(by eexists; vm_compute)) as (xs & ls & Hls & _ & _ & _ & Hmax).
  - exists 2%N. split; [by left|]. apply (anc_step _ _ 2%N [1%N] 1%N); [done|by left|constructor].
  - exists ls. split; [exact Hls|exact (Hmax ex_headers_canonical)].
Defined.

(** One level: at level 1 only the genesis is left. *)
Example ex_block_parents : calc_block_parents (E:=unit) ex_parents_manager 1%N [2%N] = Ok [[2%N]].
Proof. by vm_compute. Qed.
