(* ===== verification/Errors.v ===== *)
(** * Rule errors and parameters

    The errors of [consensus/core/src/errors/] that the validation of blocks returns,
    the consensus parameters of [consensus/src/params.rs] and the constants of
    [consensus/core/src/constants.rs]. *)

From S2P Require Import Prelude Hash.

Record TransactionOutpoint : Type := mkOutpoint { op_transaction_id : Hash; op_index : Z }.

#[global] Instance TransactionOutpoint_eq_dec : EqDecision TransactionOutpoint.
Proof. solve_decision. Defined.

Inductive CoinbaseError : Type :=
| PayloadLenBelowMin (len min : Z)
| PayloadLenAboveMax (len max : Z)
| PayloadScriptPublicKeyLenAboveMax (len max : Z)
| PayloadCantContainScriptPublicKey (len min : Z).

Inductive TxRuleError : Type :=
| NoTxInputs
| TxDuplicateInputs
| TxHasGas
| NonCoinbaseTxHasPayload
| UnknownTxVersion (version : Z)
| TooManyInputs (count max : Z)
| TooManyOutputs (count max : Z)
| TooBigSignatureScript (index max : Z)
| TooBigScriptPublicKey (index max : Z)
| NotFinalized (index : Z)
| CoinbaseHasInputs (count : Z)
| CoinbaseTooManyOutputs (count max : Z)
| CoinbaseScriptPublicKeyTooLong (index : Z)
| ImmatureCoinbaseSpend (index : Z) (outpoint : TransactionOutpoint) (daa_score pov_daa_score maturity : Z)
| InputAmountOverflow
| InputAmountTooHigh
| TxOutZero (index : Z)
| TxOutTooHigh (index : Z)
| OutputsValueOverflow
| TotalTxOutTooHigh
| SpendTooHigh (spent total : Z)
| SequenceLockConditionsAreNotMet
| MissingTxOutpoints.

Inductive RuleError : Type :=
| WrongBlockVersion (version : Z)
| TimeTooFarIntoTheFuture (timestamp max : Z)
| NoParents
| TooManyParents (count max : Z)
| OriginParent
| InvalidParentsRelation (a b : Hash)
| InvalidParent (parent : Hash)
| MissingParents (parents : list Hash)
| PruningViolation (pruning_point : Hash)
| UnexpectedHeaderDaaScore (expected got : Z)
| UnexpectedHeaderBlueScore (expected got : Z)
| UnexpectedHeaderBlueWork (expected got : Z)
| UnexpectedDifficulty (got expected : Z)
| TimeTooOld (timestamp median : Z)
| KnownInvalid
| MergeSetTooBig (size limit : Z)
| ViolatingBoundedMergeDepth
| BadMerkleRoot (header calculated : Hash)
| NoTransactions
| FirstTxNotCoinbase
| MultipleCoinbases (index : Z)
| BadCoinbasePayload (e : CoinbaseError)
| BadCoinbasePayloadBlueScore (got expected : Z)
| TxInIsolationValidationFailed (tx : Hash) (e : TxRuleError)
| ExceedsMassLimit (limit : Z)
| DoubleSpendInSameBlock (outpoint : TransactionOutpoint)
| ChainedTransaction (outpoint : TransactionOutpoint)
| TxInContextFailed (tx : Hash) (e : TxRuleError)
| WrongSubsidy (expected got : Z)
| DuplicateTransactions (tx : Hash)
| InvalidPoW
| WrongHeaderPruningPoint (expected got : Hash)
| UnexpectedIndirectParents (expected got : list (list Hash))
| BadUTXOCommitment (block header calculated : Hash)
| BadAcceptedIDMerkleRoot (block header calculated : Hash)
| BadCoinbaseTransaction
| InvalidTransactionsInUtxoContext (invalid total : Z)
| InvalidTransactionsInNewBlock (txs : list (Hash * TxRuleError)).

Definition BLOCK_VERSION : Z := 1.

Record Params : Type := mkParams {
  p_genesis_hash : Hash;
  p_ghostdag_k : Z;
  p_timestamp_deviation_tolerance : Z;
  p_target_time_per_block : Z;
  p_max_block_parents : Z;
  p_difficulty_window_size : nat;
  p_genesis_timestamp : Z;
  p_genesis_bits : Z;
  p_mergeset_size_limit : Z;
  p_merge_depth : Z;
  p_finality_depth : Z;
  p_pruning_depth : Z;
  p_coinbase_payload_script_public_key_max_len : Z;
  p_max_coinbase_payload_len : Z;
  p_max_tx_inputs : Z;
  p_max_tx_outputs : Z;
  p_max_signature_script_len : Z;
  p_max_script_public_key_len : Z;
  p_mass_per_tx_byte : Z;
  p_mass_per_script_pub_key_byte : Z;
  p_mass_per_sig_op : Z;
  p_max_block_mass : Z;
  p_deflationary_phase_daa_score : Z;
  p_pre_deflationary_phase_base_subsidy : Z;
  p_coinbase_maturity : Z;
  p_skip_proof_of_work : bool;
  p_max_block_level : nat;
}.

Definition clone_with_skip_pow (self : Params) : Params :=
  mkParams (p_genesis_hash self) (p_ghostdag_k self) (p_timestamp_deviation_tolerance self)
    (p_target_time_per_block self) (p_max_block_parents self) (p_difficulty_window_size self)
    (p_genesis_timestamp self) (p_genesis_bits self) (p_mergeset_size_limit self) (p_merge_depth self)
    (p_finality_depth self) (p_pruning_depth self) (p_coinbase_payload_script_public_key_max_len self)
    (p_max_coinbase_payload_len self) (p_max_tx_inputs self) (p_max_tx_outputs self)
    (p_max_signature_script_len self) (p_max_script_public_key_len self) (p_mass_per_tx_byte self)
    (p_mass_per_script_pub_key_byte self) (p_mass_per_sig_op self) (p_max_block_mass self)
    (p_deflationary_phase_daa_score self) (p_pre_deflationary_phase_base_subsidy self) (p_coinbase_maturity
    self) true (p_max_block_level self).

(** Thirty-two bytes of value 1. *)
Definition MAINNET_GENESIS_HASH : Hash := Hashes.from_bytes (replicate 32 1%N).

Definition MAINNET_PARAMS : Params := {|
  p_genesis_hash := MAINNET_GENESIS_HASH;
  p_ghostdag_k := 18;
  p_timestamp_deviation_tolerance := 132;
  p_target_time_per_block := 1000;
  p_max_block_parents := 10;
  p_difficulty_window_size := 2641;
  p_genesis_timestamp := 1637609671037;
  p_genesis_bits := 486722099;
  p_mergeset_size_limit := 18 * 10;
  p_merge_depth := 3600;
  p_finality_depth := 86400;
  p_pruning_depth := 185798;
  p_coinbase_payload_script_public_key_max_len := 150;
  p_max_coinbase_payload_len := 204;
  p_max_tx_inputs := 1000000000;
  p_max_tx_outputs := 1000000000;
  p_max_signature_script_len := 1000000000;
  p_max_script_public_key_len := 1000000000;
  p_mass_per_tx_byte := 1;
  p_mass_per_script_pub_key_byte := 10;
  p_mass_per_sig_op := 1000;
  p_max_block_mass := 500000;
  p_deflationary_phase_daa_score := 15778800 - 259200;
  p_pre_deflationary_phase_base_subsidy := 50000000000;
  p_coinbase_maturity := 100;
  p_skip_proof_of_work := false;
  p_max_block_level := 225;
|}.
