(* ===== verification/HeaderProcessor.v ===== *)
(** * The header processor

    [consensus/src/pipeline/header_processor/]: the three stages of the validation
    of a header and the commit of a valid one to all the stores, over the managers
    that [consensus/src/consensus/mod.rs] builds from the parameters.

    The processor is the record of its parameters and of the contents of its stores.
    A call runs from one state to the next; the writes that the code collects in one
    batch are the writes of one call.  The clock is an argument, and the
    proof-of-work hash of a header, which external hash functions compute, is a
    parameter. *)

From S2P Require Import Prelude Hash Interval Uint Target ReachStore Reachability ReachMain ReachService Relations Headers GhostdagStore Ghostdag Window Difficulty Stores Depth Parents Errors.

Record HeaderProcessor : Type := mkProcessor {
  hp_params : Params;
  hp_relations_store : DbRel.DbRelationsStore;
  hp_reachability_store : Db.DbReachabilityStore;
  hp_ghostdag_store : DbGd.DbGhostdagStore;
  hp_statuses_store : DbStatusesStore;
  hp_pruning_store : DbPruningStore;
  hp_window_difficulty : BlockWindowCacheStore;
  hp_window_median : BlockWindowCacheStore;
  hp_daa_store : DbDaaStore;
  hp_headers_store : DbHeadersStore;
  hp_selected_tip_store : DbHeadersSelectedTipStore;
  hp_depth_store : DbDepthStore;
  hp_past_pruning_points_store : DbPastPruningPointsStore;
}.

Record HeaderProcessingContext : Type := mkContext {
  ctx_hash : Hash;
  ctx_header : Header;
  ctx_pruning_info : PruningPointInfo;
  ctx_ghostdag_data : option GhostdagData;
  ctx_window_difficulty : option BlockWindowHeap;
  ctx_window_median : option BlockWindowHeap;
  ctx_mergeset_non_daa : option (gset Hash);
  ctx_merge_depth_root : option Hash;
  ctx_finality_point : option Hash;
  ctx_block_level : option Z;
  ctx_non_pruned_parents : option (list Hash);
}.

Definition context_new (hash : Hash) (header : Header) (info : PruningPointInfo) : HeaderProcessingContext :=
  mkContext hash header info None None None None None None None None.

(** Assignments to the fields of the context. *)
Definition set_ghostdag_data (d : GhostdagData) (c : HeaderProcessingContext) : HeaderProcessingContext :=
  mkContext (ctx_hash c) (ctx_header c) (ctx_pruning_info c) (Some d) (ctx_window_difficulty c) (ctx_window_median c)
    (ctx_mergeset_non_daa c) (ctx_merge_depth_root c) (ctx_finality_point c) (ctx_block_level c) (ctx_non_pruned_parents c).
Definition set_window_difficulty (w : BlockWindowHeap) (c : HeaderProcessingContext) : HeaderProcessingContext :=
  mkContext (ctx_hash c) (ctx_header c) (ctx_pruning_info c) (ctx_ghostdag_data c) (Some w) (ctx_window_median c)
    (ctx_mergeset_non_daa c) (ctx_merge_depth_root c) (ctx_finality_point c) (ctx_block_level c) (ctx_non_pruned_parents c).
Definition set_window_median (w : BlockWindowHeap) (c : HeaderProcessingContext) : HeaderProcessingContext :=
  mkContext (ctx_hash c) (ctx_header c) (ctx_pruning_info c) (ctx_ghostdag_data c) (ctx_window_difficulty c) (Some w)
    (ctx_mergeset_non_daa c) (ctx_merge_depth_root c) (ctx_finality_point c) (ctx_block_level c) (ctx_non_pruned_parents c).
Definition set_mergeset_non_daa (x : gset Hash) (c : HeaderProcessingContext) : HeaderProcessingContext :=
  mkContext (ctx_hash c) (ctx_header c) (ctx_pruning_info c) (ctx_ghostdag_data c) (ctx_window_difficulty c)
    (ctx_window_median c) (Some x) (ctx_merge_depth_root c) (ctx_finality_point c) (ctx_block_level c)
    (ctx_non_pruned_parents c).
Definition set_depth_roots (root point : Hash) (c : HeaderProcessingContext) : HeaderProcessingContext :=
  mkContext (ctx_hash c) (ctx_header c) (ctx_pruning_info c) (ctx_ghostdag_data c) (ctx_window_difficulty c)
    (ctx_window_median c) (ctx_mergeset_non_daa c) (Some root) (Some point) (ctx_block_level c)
    (ctx_non_pruned_parents c).
Definition set_block_level (level : Z) (c : HeaderProcessingContext) : HeaderProcessingContext :=
  mkContext (ctx_hash c) (ctx_header c) (ctx_pruning_info c) (ctx_ghostdag_data c) (ctx_window_difficulty c)
    (ctx_window_median c) (ctx_mergeset_non_daa c) (ctx_merge_depth_root c) (ctx_finality_point c) (Some level)
    (ctx_non_pruned_parents c).
Definition set_non_pruned_parents (ps : list Hash) (c : HeaderProcessingContext) : HeaderProcessingContext :=
  mkContext (ctx_hash c) (ctx_header c) (ctx_pruning_info c) (ctx_ghostdag_data c) (ctx_window_difficulty c)
    (ctx_window_median c) (ctx_mergeset_non_daa c) (ctx_merge_depth_root c) (ctx_finality_point c) (ctx_block_level c)
    (Some ps).

(** Validation works on the context. *)
Abbreviation CM := (M HeaderProcessingContext RuleError).

Definition get_non_pruned_parents : CM (list Hash) :=
  c ← get;
  match ctx_non_pruned_parents c with
  | Some parents => mret parents
  | None => parents ← lift (direct_parents (ctx_header c)); modify (set_non_pruned_parents parents);; mret parents
  end.
Definition ctx_pruning_point (c : HeaderProcessingContext) : Hash := pi_pruning_point (ctx_pruning_info c).

(** [Cache::insert]: a full cache drops the entry at a random index first. *)
Definition cache_insert {A} (cache_size victim : nat) (key : Hash) (data : A) (c : gmap Hash A) : gmap Hash A :=
  if (cache_size =? 0)%nat then c
  else
    let c := if (size c =? cache_size)%nat
             then match map_to_list c !! victim with Some (k, _) => delete k c | None => c end
             else c in
    <[key := data]> c.

Section processor.
Context (fuel : nat) (pow_hash : Header → Uint.Uint) (window_cache_size : nat).

(** ** The managers *)

Section managers.
Context (self : HeaderProcessor).
Local Abbreviation params := (hp_params self).

Definition hp_service : MTReachabilityService Db.DbReachabilityStore := mkService (hp_reachability_store self).
Definition hp_ghostdag_manager :
    @GhostdagManager DbGd.DbGhostdagStore DbRel.DbRelationsStore (MTReachabilityService Db.DbReachabilityStore) DbHeadersStore :=
  mkManager (p_genesis_hash params) (p_ghostdag_k params) (hp_ghostdag_store self) (hp_relations_store self)
    (hp_headers_store self) hp_service.
Definition hp_traversal_manager : DagTraversalManager DbGd.DbGhostdagStore BlockWindowCacheStore :=
  mkTraversal (p_genesis_hash params) (hp_ghostdag_store self) (hp_window_difficulty self) (hp_window_median self)
    (p_difficulty_window_size params) (Z.to_nat (2 * p_timestamp_deviation_tolerance params - 1)).
Definition hp_median_manager : PastMedianTimeManager DbHeadersStore DbGd.DbGhostdagStore BlockWindowCacheStore :=
  mkMedian (hp_headers_store self) hp_traversal_manager (Z.to_nat (p_timestamp_deviation_tolerance params))
    (p_genesis_timestamp params).
Definition hp_difficulty_manager : DifficultyManager DbHeadersStore :=
  mkDifficulty (hp_headers_store self) (p_genesis_bits params) (p_difficulty_window_size params)
    (p_target_time_per_block params).
Definition hp_depth_manager : BlockDepthManager DbDepthStore Db.DbReachabilityStore DbGd.DbGhostdagStore :=
  mkDepthManager (p_merge_depth params) (p_finality_depth params) (p_genesis_hash params) (hp_depth_store self)
    hp_service (hp_ghostdag_store self).
Definition hp_pruning_manager :
    PruningManager DbGd.DbGhostdagStore Db.DbReachabilityStore DbHeadersStore DbPastPruningPointsStore :=
  mkPruningManager (p_pruning_depth params) (p_finality_depth params) (p_genesis_hash params) hp_service
    (hp_ghostdag_store self) (hp_headers_store self) (hp_past_pruning_points_store self).
Definition hp_parents_manager : ParentsManager DbHeadersStore Db.DbReachabilityStore DbRel.DbRelationsStore :=
  mkParents (p_max_block_level params) (p_genesis_hash params) (hp_headers_store self) hp_service
    (hp_relations_store self).

(** ** [pre_ghostdag_validation.rs] *)

Definition check_header_version (header : Header) : CM unit :=
  if negb (h_version header =? BLOCK_VERSION) then fail (WrongBlockVersion (h_version header)) else mret tt.

Definition check_block_timestamp_in_isolation (now : Z) (header : Header) : CM unit :=
  tolerance ← lift (mul64 (p_timestamp_deviation_tolerance params) (p_target_time_per_block params));
  max_block_time ← lift (add64 now tolerance);
  if max_block_time <? h_timestamp header then fail (TimeTooFarIntoTheFuture (h_timestamp header) max_block_time)
  else mret tt.

Definition check_parents_limit (header : Header) : CM unit :=
  parents ← lift (direct_parents header);
  if bool_decide (parents = []) then fail NoParents
  else if p_max_block_parents params <? Z.of_nat (length parents)
  then fail (TooManyParents (Z.of_nat (length parents)) (p_max_block_parents params))
  else mret tt.

Definition check_parents_not_origin (header : Header) : CM unit :=
  parents ← lift (direct_parents header);
  if existsb Hashes.is_origin parents then fail OriginParent else mret tt.

Definition validate_header_in_isolation (now : Z) (header : Header) : CM unit :=
  if bool_decide (h_hash header = p_genesis_hash params) then mret tt
  else
    check_header_version header;;
    check_block_timestamp_in_isolation now header;;
    check_parents_limit header;;
    check_parents_not_origin header.

Definition check_parents_exist (header : Header) : CM unit :=
  parents ← lift (direct_parents header);
  missing_parents ← lift (ofold (λ missing_parents parent,
    status ← unwrap_store_option (get_status (hp_statuses_store self) parent);
    match status with
    | None => mret (missing_parents ++ [parent])
    | Some StatusInvalid => Err (InvalidParent parent)
    | Some _ => mret missing_parents
    end) [] parents);
  if bool_decide (missing_parents = []) then mret tt else fail (MissingParents missing_parents).

Definition hp_is_dag_ancestor_of (this queried : Hash) : outcome RuleError bool :=
  unwrap (rs_is_dag_ancestor_of hp_service this queried).

Definition check_parents_incest : CM unit :=
  parents ← get_non_pruned_parents;
  for_each parents (λ parent_a,
    for_each parents (λ parent_b,
      if bool_decide (parent_a = parent_b) then mret tt
      else
        b ← lift (hp_is_dag_ancestor_of parent_a parent_b);
        if b : bool then fail (InvalidParentsRelation parent_a parent_b) else mret tt)).

Definition pre_ghostdag_validation (now : Z) (header : Header) : CM unit :=
  if bool_decide (h_hash header = p_genesis_hash params) then mret tt
  else
    validate_header_in_isolation now header;;
    check_parents_exist header;;
    check_parents_incest.

(** ** [pre_pow_validation.rs] *)

Definition check_pruning_violation : CM unit :=
  non_pruned_parents ← get_non_pruned_parents;
  if bool_decide (non_pruned_parents = []) then mret tt
  else
    c ← get;
    b ← lift (unwrap (rs_is_dag_ancestor_of_any hp_service (ctx_pruning_point c) non_pruned_parents));
    if negb b then fail (PruningViolation (ctx_pruning_point c)) else mret tt.

(** [State::check_pow]: the hash must not exceed the claimed target. *)
Definition check_pow (header : Header) : outcome RuleError (bool * Uint.Uint) :=
  target ← from_compact_target_bits (h_bits header);
  mret (match Uint.cmp (pow_hash header) target with Gt => false | _ => true end, pow_hash header).

Definition check_pow_and_calc_block_level (header : Header) : CM unit :=
  '(passed, pow) ← lift (check_pow header);
  if passed || p_skip_proof_of_work params then
    let signed_block_level := Z.of_nat (p_max_block_level params) - Uint.bits LIMBS_256 pow in
    modify (set_block_level (Z.max signed_block_level 0))
  else fail InvalidPoW.

Definition check_difficulty_and_daa_score (header : Header) : CM unit :=
  c ← get;
  ghostdag_data ← lift (unwrap_opt (ctx_ghostdag_data c));
  window ← lift (block_window fuel hp_traversal_manager ghostdag_data (p_difficulty_window_size params));
  '(daa_score, mergeset_non_daa) ←
    lift (calc_daa_score_and_non_daa_mergeset_blocks hp_difficulty_manager (map sb_hash window) ghostdag_data);
  if negb (daa_score =? h_daa_score header) then fail (UnexpectedHeaderDaaScore daa_score (h_daa_score header))
  else
    modify (set_mergeset_non_daa mergeset_non_daa);;
    expected_bits ← lift (calculate_difficulty_bits hp_difficulty_manager window);
    if negb (h_bits header =? expected_bits) then fail (UnexpectedDifficulty (h_bits header) expected_bits)
    else modify (set_window_difficulty window).

Definition pre_pow_validation (header : Header) : CM unit :=
  if bool_decide (h_hash header = p_genesis_hash params) then mret tt
  else
    check_pruning_violation;;
    check_pow_and_calc_block_level header;;
    check_difficulty_and_daa_score header.

(** ** [post_pow_validation.rs] *)

(** [ctx.ghostdag_data.as_ref().unwrap()]. *)
Definition the_ghostdag_data : CM GhostdagData := c ← get; lift (unwrap_opt (ctx_ghostdag_data c)).

Definition check_blue_score (header : Header) : CM unit :=
  d ← the_ghostdag_data;
  if negb (blue_score d =? h_blue_score header) then fail (UnexpectedHeaderBlueScore (blue_score d) (h_blue_score header))
  else mret tt.

Definition check_blue_work (header : Header) : CM unit :=
  d ← the_ghostdag_data;
  if negb (blue_work d =? h_blue_work header) then fail (UnexpectedHeaderBlueWork (blue_work d) (h_blue_work header))
  else mret tt.

Definition check_median_timestamp (header : Header) : CM unit :=
  d ← the_ghostdag_data;
  '(past_median_time, window) ← lift (calc_past_median_time fuel hp_median_manager d);
  modify (set_window_median window);;
  if h_timestamp header <=? past_median_time then fail (TimeTooOld (h_timestamp header) past_median_time) else mret tt.

Definition check_merge_size_limit : CM unit :=
  d ← the_ghostdag_data;
  let mergeset_size := Z.of_nat (mergeset_size d) in
  if p_mergeset_size_limit params <? mergeset_size then fail (MergeSetTooBig mergeset_size (p_mergeset_size_limit params))
  else mret tt.

(** One red block: it has the root in its past, or a kosherizing blue above it; the
    kosherizing blues are computed when they are first needed. *)
Definition check_red (gd_data : GhostdagData) (merge_depth_root : Hash) (kosherizing : option (list Hash)) (red : Hash)
    : outcome RuleError (option (list Hash)) :=
  b ← hp_is_dag_ancestor_of merge_depth_root red;
  if b : bool then mret kosherizing
  else
    blues ← match kosherizing with
            | Some blues => mret blues
            | None => kosherizing_blues hp_depth_manager gd_data merge_depth_root
            end;
    b ← unwrap (rs_is_dag_ancestor_of_any hp_service red blues);
    if negb b then Err ViolatingBoundedMergeDepth else mret (Some blues).

Definition check_bounded_merge_depth : CM unit :=
  gd_data ← the_ghostdag_data;
  c ← get;
  merge_depth_root ← lift (calc_merge_depth_root fuel hp_depth_manager gd_data (ctx_pruning_point c));
  finality_point ← lift (calc_finality_point fuel hp_depth_manager gd_data (ctx_pruning_point c));
  lift (ofold (check_red gd_data merge_depth_root) None (mergeset_reds gd_data));;
  modify (set_depth_roots merge_depth_root finality_point).

Definition check_pruning_point (header : Header) : CM unit :=
  gd_data ← the_ghostdag_data;
  c ← get;
  expected ← lift (expected_header_pruning_point fuel hp_pruning_manager (to_compact gd_data) (ctx_pruning_info c));
  if bool_decide (expected = h_pruning_point header) then mret tt
  else fail (WrongHeaderPruningPoint expected (h_pruning_point header)).

(** The parents of the header at a level are, as many as expected, the expected ones. *)
Definition level_matches (expected_level_parents header_level_parents : list Hash) : bool :=
  (length header_level_parents =? length expected_level_parents)%nat
  && forallb (λ header_parent, bool_decide (header_parent ∈ expected_level_parents)) header_level_parents.

Definition check_indirect_parents (header : Header) : CM unit :=
  parents ← lift (direct_parents header);
  c ← get;
  expected_block_parents ← lift (calc_block_parents hp_parents_manager (ctx_pruning_point c) parents);
  if negb (length (h_parents_by_level header) =? length expected_block_parents)%nat
     || negb (forallb (λ '(expected, got), level_matches expected got)
                (zip expected_block_parents (h_parents_by_level header)))
  then fail (UnexpectedIndirectParents expected_block_parents (h_parents_by_level header))
  else mret tt.

Definition post_pow_validation (header : Header) : CM unit :=
  check_blue_score header;;
  check_blue_work header;;
  check_median_timestamp header;;
  check_merge_size_limit;;
  check_bounded_merge_depth;;
  check_pruning_point header;;
  check_indirect_parents header.
End managers.

(** ** [processor.rs] *)

Abbreviation HM := (M HeaderProcessor RuleError).

(** A write to one of the stores; an error is unwrapped. *)
Definition on_field {S A} (view : HeaderProcessor → S) (update : S → HeaderProcessor → HeaderProcessor)
    (m : M S StoreError A) : HM A := λ s,
  let '(o, x) := m (view s) in (unwrap o, update x s).

Definition set_relations x (s : HeaderProcessor) : HeaderProcessor :=
  mkProcessor (hp_params s) x (hp_reachability_store s) (hp_ghostdag_store s) (hp_statuses_store s) (hp_pruning_store s)
    (hp_window_difficulty s) (hp_window_median s) (hp_daa_store s) (hp_headers_store s) (hp_selected_tip_store s)
    (hp_depth_store s) (hp_past_pruning_points_store s).
Definition set_reachability x (s : HeaderProcessor) : HeaderProcessor :=
  mkProcessor (hp_params s) (hp_relations_store s) x (hp_ghostdag_store s) (hp_statuses_store s) (hp_pruning_store s)
    (hp_window_difficulty s) (hp_window_median s) (hp_daa_store s) (hp_headers_store s) (hp_selected_tip_store s)
    (hp_depth_store s) (hp_past_pruning_points_store s).
Definition set_ghostdag x (s : HeaderProcessor) : HeaderProcessor :=
  mkProcessor (hp_params s) (hp_relations_store s) (hp_reachability_store s) x (hp_statuses_store s) (hp_pruning_store s)
    (hp_window_difficulty s) (hp_window_median s) (hp_daa_store s) (hp_headers_store s) (hp_selected_tip_store s)
    (hp_depth_store s) (hp_past_pruning_points_store s).
Definition set_statuses x (s : HeaderProcessor) : HeaderProcessor :=
  mkProcessor (hp_params s) (hp_relations_store s) (hp_reachability_store s) (hp_ghostdag_store s) x (hp_pruning_store s)
    (hp_window_difficulty s) (hp_window_median s) (hp_daa_store s) (hp_headers_store s) (hp_selected_tip_store s)
    (hp_depth_store s) (hp_past_pruning_points_store s).
Definition set_pruning_info x (s : HeaderProcessor) : HeaderProcessor :=
  mkProcessor (hp_params s) (hp_relations_store s) (hp_reachability_store s) (hp_ghostdag_store s) (hp_statuses_store s) x
    (hp_window_difficulty s) (hp_window_median s) (hp_daa_store s) (hp_headers_store s) (hp_selected_tip_store s)
    (hp_depth_store s) (hp_past_pruning_points_store s).
Definition set_windows w1 w2 (s : HeaderProcessor) : HeaderProcessor :=
  mkProcessor (hp_params s) (hp_relations_store s) (hp_reachability_store s) (hp_ghostdag_store s) (hp_statuses_store s)
    (hp_pruning_store s) w1 w2 (hp_daa_store s) (hp_headers_store s) (hp_selected_tip_store s)
    (hp_depth_store s) (hp_past_pruning_points_store s).
Definition set_daa x (s : HeaderProcessor) : HeaderProcessor :=
  mkProcessor (hp_params s) (hp_relations_store s) (hp_reachability_store s) (hp_ghostdag_store s) (hp_statuses_store s)
    (hp_pruning_store s) (hp_window_difficulty s) (hp_window_median s) x (hp_headers_store s) (hp_selected_tip_store s)
    (hp_depth_store s) (hp_past_pruning_points_store s).
Definition set_headers x (s : HeaderProcessor) : HeaderProcessor :=
  mkProcessor (hp_params s) (hp_relations_store s) (hp_reachability_store s) (hp_ghostdag_store s) (hp_statuses_store s)
    (hp_pruning_store s) (hp_window_difficulty s) (hp_window_median s) (hp_daa_store s) x (hp_selected_tip_store s)
    (hp_depth_store s) (hp_past_pruning_points_store s).
Definition set_selected_tip x (s : HeaderProcessor) : HeaderProcessor :=
  mkProcessor (hp_params s) (hp_relations_store s) (hp_reachability_store s) (hp_ghostdag_store s) (hp_statuses_store s)
    (hp_pruning_store s) (hp_window_difficulty s) (hp_window_median s) (hp_daa_store s) (hp_headers_store s) x
    (hp_depth_store s) (hp_past_pruning_points_store s).
Definition set_depths x (s : HeaderProcessor) : HeaderProcessor :=
  mkProcessor (hp_params s) (hp_relations_store s) (hp_reachability_store s) (hp_ghostdag_store s) (hp_statuses_store s)
    (hp_pruning_store s) (hp_window_difficulty s) (hp_window_median s) (hp_daa_store s) (hp_headers_store s)
    (hp_selected_tip_store s) x (hp_past_pruning_points_store s).

(** Run the validation of a context in the middle of a call. *)
Definition run_ctx {A} (m : CM A) (c : HeaderProcessingContext) : HM (A * HeaderProcessingContext) := λ s,
  match m c with
  | (Ok a, c') => (Ok (a, c'), s)
  | (Err e, _) => (Err e, s)
  | (Panic, _) => (Panic, s)
  | (Fuel, _) => (Fuel, s)
  end.

(** Run a reachability operation on the staging store, unwrapped. *)
Definition run_staging (m : M Staging.StagingReachabilityStore ReachabilityError unit)
    (staging : Staging.StagingReachabilityStore) : HM Staging.StagingReachabilityStore :=
  let '(o, staging') := m staging in lift (unwrap (o;; mret staging')).

Definition commit_header (rnd : nat * nat) (ctx : HeaderProcessingContext) (header : Header) : HM unit :=
  ghostdag_data ← lift (unwrap_opt (ctx_ghostdag_data ctx));
  on_field hp_ghostdag_store set_ghostdag (DbGd.insert_batch (ctx_hash ctx) ghostdag_data);;
  w1 ← lift (unwrap_opt (ctx_window_difficulty ctx));
  modify (λ s, set_windows (cache_insert window_cache_size rnd.1 (ctx_hash ctx) w1 (hp_window_difficulty s))
                           (hp_window_median s) s);;
  w2 ← lift (unwrap_opt (ctx_window_median ctx));
  modify (λ s, set_windows (hp_window_difficulty s)
                           (cache_insert window_cache_size rnd.2 (ctx_hash ctx) w2 (hp_window_median s)) s);;
  mergeset_non_daa ← lift (unwrap_opt (ctx_mergeset_non_daa ctx));
  on_field hp_daa_store set_daa (insert_daa (ctx_hash ctx) mergeset_non_daa);;
  block_level ← lift (unwrap_opt (ctx_block_level ctx));
  on_field hp_headers_store set_headers (insert_header (ctx_hash ctx) (ctx_header ctx) block_level);;
  merge_depth_root ← lift (unwrap_opt (ctx_merge_depth_root ctx));
  finality_point ← lift (unwrap_opt (ctx_finality_point ctx));
  on_field hp_depth_store set_depths (insert_depth (ctx_hash ctx) merge_depth_root finality_point);;
  s ← get;
  staging ← run_staging (add_block fuel (ctx_hash ctx) (selected_parent ghostdag_data)
                           (unordered_mergeset_without_selected_parent ghostdag_data))
              (Staging.new (hp_reachability_store s));
  prev_hst ← lift (unwrap (get_tip (hp_selected_tip_store s)));
  let new_tip := mkSortable (ctx_hash ctx) (h_blue_work header) in
  staging ← match sb_cmp new_tip prev_hst with
            | Gt =>
                staging ← run_staging (hint_virtual_selected_parent fuel (ctx_hash ctx)) staging;
                on_field hp_selected_tip_store set_selected_tip (set_tip new_tip);;
                mret staging
            | _ => mret staging
            end;
  parents ← lift (direct_parents header);
  on_field hp_relations_store set_relations
    (DbRel.insert_ (h_hash header) (if bool_decide (parents = []) then [Hashes.ORIGIN] else parents));;
  on_field hp_statuses_store set_statuses (set_status (ctx_hash ctx) StatusHeaderOnly);;
  let '(o, db) := Staging.commit staging in
  lift (unwrap o);;
  modify (set_reachability db).

Definition process_header (rnd : nat * nat) (now : Z) (header : Header) : HM BlockStatus :=
  self ← get;
  status_option ← lift (unwrap_store_option (get_status (hp_statuses_store self) (h_hash header)));
  match status_option with
  | Some StatusInvalid => fail KnownInvalid
  | Some status => mret status
  | None =>
      info ← lift (unwrap (get_pruning (hp_pruning_store self)));
      '(_, ctx) ← run_ctx (pre_ghostdag_validation self now header) (context_new (h_hash header) header info);
      parents ← lift (direct_parents header);
      data ← lift (ghostdag fuel (hp_ghostdag_manager self) parents);
      '(_, ctx) ← run_ctx (pre_pow_validation self header) (set_ghostdag_data data ctx);
      match post_pow_validation self header ctx with
      | (Ok _, ctx) => commit_header rnd ctx header;; mret StatusHeaderOnly
      | (Err e, ctx) =>
          on_field hp_statuses_store set_statuses (set_status (ctx_hash ctx) StatusInvalid);; fail e
      | (Panic, _) => lift Panic
      | (Fuel, _) => lift Fuel
      end
  end.

(** [header_from_precomputed_hash] of [test_helpers.rs]. *)
Definition header_from_precomputed_hash (hash : Hash) (parents : list Hash) : Header :=
  mkHeader hash BLOCK_VERSION [parents] 0%N 0%N 0%N 0 0 0 0 0 0 0%N.

(** The header of the genesis and the context it is committed with. *)
Definition genesis_header (p : Params) : Header :=
  let h := header_from_precomputed_hash (p_genesis_hash p) [] in
  mkHeader (h_hash h) (h_version h) (h_parents_by_level h) (h_hash_merkle_root h) (h_accepted_id_merkle_root h)
    (h_utxo_commitment h) (p_genesis_timestamp p) (p_genesis_bits p) (h_nonce h) (h_daa_score h) (h_blue_work h)
    (h_blue_score h) (h_pruning_point h).
Definition genesis_context (p : Params) : HeaderProcessingContext :=
  mkContext (p_genesis_hash p) (genesis_header p) (pruning_from_genesis (p_genesis_hash p))
    (Some genesis_ghostdag_data) (Some []) (Some []) (Some ∅) (Some Hashes.ORIGIN) (Some Hashes.ORIGIN)
    (Some (Z.of_nat (p_max_block_level p))) None.

Definition process_genesis_if_needed (rnd : nat * nat) : HM unit :=
  self ← get;
  let genesis := p_genesis_hash (hp_params self) in
  processed ← lift (unwrap (has_status (hp_statuses_store self) genesis));
  if processed : bool then mret tt
  else
    (* The result of this insertion is dropped. *)
    modify (λ s, set_relations (snd (DbRel.insert_ Hashes.ORIGIN [] (hp_relations_store s))) s);;
    on_field hp_selected_tip_store set_selected_tip (set_tip (mkSortable genesis 0));;
    on_field hp_pruning_store set_pruning_info (set_pruning genesis genesis 0);;
    commit_header rnd (genesis_context (hp_params self)) (genesis_header (hp_params self)).
End processor.
