(* ===== verification/HeaderInv.v ===== *)
(** * The invariant of the header processor

    First the staged reachability, then the invariant of all stores.  The header
    processor adds a block to a staging store over the database, hints
    the new tip, and commits.  The database store then indexes the grown DAG, and the
    parent of every block in the tree is what it was. *)

From S2P Require Import Prelude Hash Uint Target Interval ReachStore Reachability ReachSim ReachTree ReachQuery ReachDag ReachInsert ReachCount ReachPropagate ReachReindex ReachReclaim ReachWalk ReachAdd ReachConcentrate ReachAdvance ReachMain ReachService Relations Headers GhostdagStore Ghostdag GhostdagInv GhostdagMerge GhostdagColor GhostdagRun Window WindowProof Difficulty Stores Depth SelectedChain DepthProof Parents ParentsProof Errors HeaderProcessor.

(** ** Edges of a tree *)

(** [b] is a kid of [p]. *)
Definition edge (t : tree) (p b : Hash) : Prop :=
  ∃ s k, subtree s t ∧ root s = p ∧ k ∈ kids s ∧ root k = b.

Lemma tree_edge t b : b ∈ nodes t → b = root t ∨ ∃ p, edge t p b.
Proof.
  induction t as [h ks IH] using tree_ind'. rewrite Forall_forall in IH.
  intros [->|(k & Hk & Hb)]%nodes_node; [by left|]. right. destruct (IH k Hk Hb) as [->|(p & s & k' & Hs & Hr & Hk' & Hb')].
  - exists h, (Node h ks), k. split_and!; [constructor|done..].
  - exists p, s, k'. split_and!; [by eapply subtree_kid|done..].
Qed.

Lemma edge_parent D t p b : represents D t → edge t p b → ∃ d, D !! b = Some d ∧ parent d = p.
Proof.
  intros Hr (s & k & Hs & <- & Hk & <-). destruct (shape_subtree D _ _ s t Hs (rep_shape _ _ Hr)) as (p' & n' & Hsh).
  inversion Hsh as [? ? h ks d _ _ _ _ Hks]; subst. rewrite Forall_forall in Hks. specialize (Hks k Hk).
  destruct (shape_lookup _ _ _ _ Hks) as (d' & Hd' & Hp & _). exists d'. done.
Qed.

Lemma root_parent D t d : represents D t → D !! root t = Some d → parent d = Hashes.NONE.
Proof.
  intros Hr Hd. destruct (shape_lookup _ _ _ _ (rep_shape _ _ Hr)) as (d' & Hd' & Hp & _). congruence.
Qed.

Lemma graft_edge p n t a b : edge t a b → edge (graft p n t) a b.
Proof.
  intros (s & k & Hs & Hr & Hk & Hb). exists (graft p n s), (graft p n k). split_and!.
  - by apply graft_subtree.
  - by rewrite graft_root.
  - destruct s as [h ks]. simpl in *. apply elem_of_app. left. by apply list_elem_of_fmap_2.
  - by rewrite graft_root.
Qed.

Lemma graft_new_edge p n t : p ∈ nodes t → edge (graft p n t) p n.
Proof.
  intros Hp. assert (∃ s, subtree s t ∧ root s = p) as (s & Hs & Hr).
  { clear -Hp. induction t as [h ks IH] using tree_ind'. rewrite Forall_forall in IH.
    apply nodes_node in Hp as [->|(k & Hk & Hp)]; [by exists (Node h ks); split; [constructor|]|].
    destruct (IH k Hk Hp) as (s & Hs & Hr). exists s. split; [by eapply subtree_kid|done]. }
  exists (graft p n s), (Node n []). split_and!; [by apply graft_subtree|by rewrite graft_root| |done].
  destruct s as [h ks]. simpl in *. rewrite bool_decide_eq_true_2 by done. set_solver.
Qed.

(** The parents in a store that represents a tree, and in one that represents the
    tree with a new leaf. *)
Lemma graft_parents D D' t p n : represents D t → represents D' (graft p n t) → p ∈ nodes t → n ∉ nodes t →
  (∀ d', D' !! n = Some d' → parent d' = p)
  ∧ ∀ h d d', D !! h = Some d → D' !! h = Some d' → parent d' = parent d.
Proof.
  intros Hr Hr' Hp Hn. split.
  - intros d' Hd'. destruct (edge_parent D' _ p n Hr') as (d & Hd & Hpar); [by apply graft_new_edge|]. congruence.
  - intros h d d' Hd Hd'. assert (h ∈ nodes t) as Hh by (apply (rep_dom _ _ Hr); eauto).
    destruct (tree_edge t h Hh) as [->|(a & He)].
    + rewrite (root_parent D t d Hr Hd). apply (root_parent D' (graft p n t)); [done|]. by rewrite graft_root.
    + destruct (edge_parent D t a h Hr He) as (e & He1 & He2).
      destruct (edge_parent D' (graft p n t) a h Hr' (graft_edge _ _ _ _ _ He)) as (e' & He1' & He2'). congruence.
Qed.

(** ** The staging store *)

Lemma staging_new_abs (db : Db.DbReachabilityStore) : abs (Staging.new db) = abs db.
Proof.
  change (staging_abs (Staging.new db) = db_abs db). destruct db as [m r]. unfold staging_abs, db_abs. simpl.
  f_equal. apply (left_id_L ∅ (∪)).
Qed.

(** A program that a simulation relates to a safe one is safe. *)
Lemma sim_safe {T U E A} (abs : T → U) (m : M T E A) (m' : M U E A) s Q :
  sim abs m m' → safe m' (abs s) Q → safe m s (λ a s', Q a (abs s')).
Proof. intros Hsim. unfold safe. rewrite Hsim. destruct (m s) as [[] ?]; done. Qed.

Section staged.
Context (P : Dag) (t : tree) (fuel : nat).

Lemma stage_block db n ps sp ms :
  dag_tree (abs db) P t → valid_block P n ps sp ms → Z.of_nat (size P) < u64_max → (S (size P) < fuel)%nat →
  safe (add_block fuel n sp ms) (Staging.new db) (λ _ st, dag_tree (abs st) (<[n := ps]> P) (graft sp n t)).
Proof.
  intros HI Hv Hsz Hf. apply (sim_safe abs _ (add_block fuel n sp ms) _ (λ _ st, dag_tree st (<[n := ps]> P) (graft sp n t))); [apply sim_add_block|]. rewrite staging_new_abs. by apply add_block_safe.
Qed.

Lemma stage_hint (st : Staging.StagingReachabilityStore) h :
  dag_tree (abs st) P t → is_Some (P !! h) → (size P < fuel)%nat →
  safe (hint_virtual_selected_parent fuel h) st (λ _ st', dag_tree (abs st') P t).
Proof. intros HI Hh Hf. apply (sim_safe abs _ (hint_virtual_selected_parent fuel h) _ (λ _ st, dag_tree st P t)); [apply sim_try_advancing|]. by apply (hint_safe _ P t HI). Qed.
End staged.

Lemma stage_commit (st : Staging.StagingReachabilityStore) :
  ∃ db, Staging.commit st = (Ok tt, db) ∧ abs db = abs st.
Proof. apply commit_ok. Qed.

(** ** The invariant of the header processor

    [hp_inv] says what the stores of the processor hold together: the relations, the
    reachability index and the GHOSTDAG data describe one DAG, the caches hold windows
    of it, and the stored headers are the ones the rules prescribe.  Under it every
    manager the processor uses satisfies what its theorems ask for. *)

(** What the parameters must satisfy; [W] bounds the work of a block. *)
Record params_ok (p : Params) (W : Z) : Prop := {
  po_k : 0 ≤ p_ghostdag_k p < 255;
  po_tolerance : 1 ≤ p_timestamp_deviation_tolerance p;
  po_tolerance_max : 2 * p_timestamp_deviation_tolerance p ≤ u64_max;
  po_merge : 0 ≤ p_merge_depth p ≤ p_finality_depth p;
  po_finality : 0 < p_finality_depth p;
  po_pruning : 0 ≤ p_pruning_depth p;
  po_work : 0 ≤ W < 2 ^ 192;
  po_window : 2 ≤ Z.of_nat (p_difficulty_window_size p) ≤ u64_max;
  po_time : 0 < p_target_time_per_block p ≤ u64_max;
}.

(** The bits of a header stand for a target whose work is at most [W]. *)
Definition bits_good (W bits : Z) : Prop :=
  0 ≤ bits < 2 ^ 32 ∧ bits / 2 ^ 24 ≤ 32 ∧ 2 ^ 256 / (target_of bits + 1) ≤ W.

(** The header [x] stored for the block [h]. *)
Record stored_header (p : Params) (W : Z) (P : Dag) (m : GdMap) (h : Hash) (x : HeaderWithBlockLevel) : Prop := {
  sh_hash : h_hash (lv_header x) = h;
  sh_parents : h ≠ p_genesis_hash p → ∃ ps, P !! h = Some ps ∧ h_parents_by_level (lv_header x) !! 0%nat = Some ps;
  sh_levels : header_ok (p_genesis_hash p) P m x;
  sh_score : h_blue_score (lv_header x) = score_of m h;
  sh_pruning : h ≠ p_genesis_hash p → is_Some (m !! h_pruning_point (lv_header x))
    ∧ sel_chain m (h_pruning_point (lv_header x)) h
    ∧ (h_pruning_point (lv_header x) = p_genesis_hash p
       ∨ score_of m (h_pruning_point (lv_header x)) + p_pruning_depth p ≤ score_of m h);
  sh_bits : bits_good W (h_bits (lv_header x));
  sh_time : u64_ok (h_timestamp (lv_header x));
}.

(** The data stored by GHOSTDAG. *)
Definition hp_data (s : HeaderProcessor) : GdMap := DbGd.access (hp_ghostdag_store s).

(** The selected tip is the greatest block. *)
Definition tip_of (m : GdMap) (o : option SortableBlock) : Prop :=
  ∃ tip, o = Some (as_sortable m tip) ∧ is_Some (m !! tip)
    ∧ ∀ h, is_Some (m !! h) → sb_le (as_sortable m h) (as_sortable m tip).

Record hp_inv (W : Z) (s : HeaderProcessor) (P : Dag) : Prop := {
  hi_params : params_ok (hp_params s) W;
  hi_reach : chain_ok (hp_reachability_store s) P (hp_data s);
  hi_gd : gd_ok (hp_ghostdag_store s);
  hi_dag : gd_dag P (hp_data s) (p_genesis_hash (hp_params s)) (p_ghostdag_k (hp_params s));
  hi_parents : DbRel.parents_access (hp_relations_store s) = P;
  hi_relations : rel_inv P (DbRel.children_access (hp_relations_store s));
  hi_headers : headers_ok (hp_headers_store s);
  hi_header_dom h : is_Some (headers_access (hp_headers_store s) !! h) ↔ is_Some (hp_data s !! h);
  hi_header h x : headers_access (hp_headers_store s) !! h = Some x →
    stored_header (hp_params s) W P (hp_data s) h x;
  hi_status h : is_Some (hp_data s !! h) → is_Some (statuses_access (hp_statuses_store s) !! h);
  hi_valid h st : statuses_access (hp_statuses_store s) !! h = Some st → st ≠ StatusInvalid → is_Some (hp_data s !! h);
  hi_windows : traversal_ok (hp_traversal_manager s) P (hp_data s) (p_ghostdag_k (hp_params s));
  hi_cached h : is_Some (hp_window_difficulty s !! h) ∨ is_Some (hp_window_median s !! h) → is_Some (hp_data s !! h);
  hi_daa h : is_Some (daa_access (hp_daa_store s) !! h) ↔ is_Some (hp_data s !! h);
  hi_depth_dom h : is_Some (depth_access (hp_depth_store s) !! h) ↔ is_Some (hp_data s !! h);
  hi_depth h i : depth_access (hp_depth_store s) !! h = Some i →
    root_ok (hp_data s) (p_genesis_hash (hp_params s)) (p_merge_depth (hp_params s)) h (bd_merge_depth_root i)
    ∧ root_ok (hp_data s) (p_genesis_hash (hp_params s)) (p_finality_depth (hp_params s)) h (bd_finality_point i);
  hi_tip : tip_of (hp_data s) (tip_access (hp_selected_tip_store s));
}.

Section managers.
Context (W : Z) (s : HeaderProcessor) (P : Dag) (HI : hp_inv W s P).
Local Abbreviation m := (hp_data s).
Local Abbreviation p := (hp_params s).
Local Abbreviation g := (p_genesis_hash p).
Local Abbreviation K := (p_ghostdag_k p).

(** A field of a stored header. *)
Lemma stored_known h : is_Some (m !! h) →
  ∃ x, headers_access (hp_headers_store s) !! h = Some x ∧ stored_header p W P m h x.
Proof using HI. intros Hh. apply (hi_header_dom _ _ _ HI) in Hh as [x Hx]. exists x. split; [done|]. by apply (hi_header _ _ _ HI). Qed.

Lemma read_field_ok {A} (f : Header → A) prefix h x : headers_access (hp_headers_store s) !! h = Some x →
  header_field (hp_headers_store s) f prefix h = Ok (f (lv_header x)).
Proof using. intros Hx. unfold header_field. by rewrite Hx. Qed.

Lemma read_bits h : is_Some (m !! h) → ∃ bits, get_bits (hp_headers_store s) h = Ok bits ∧ bits_good W bits.
Proof using HI.
  intros Hh. destruct (stored_known h Hh) as (x & Hx & Hsx). exists (h_bits (lv_header x)). split; [|apply Hsx].
  simpl. rewrite (read_compact_ok _ h h_bits ch_bits (hi_headers _ _ _ HI)) by done. by apply read_field_ok.
Qed.

Lemma inv_manager : manager_ok (hp_ghostdag_manager s) P m.
Proof using HI.
  split; [apply HI|done| | |apply HI].
  - intros h ps Hps. simpl. unfold read_rel. by rewrite (hi_parents _ _ _ HI), Hps.
  - apply mt_service_laws, (ck_state _ _ _ (hi_reach _ _ _ HI)).
Qed.

Lemma inv_bits : bits_ok (hp_ghostdag_manager s) m W.
Proof using HI.
  intros h Hh. destruct (read_bits h Hh) as (bits & Hb & [H1 H1'] & H2 & H3). exists bits.
  split_and!; [done..|]. unfold work_at. cbn [headers_store hp_ghostdag_manager]. by rewrite Hb.
Qed.

Lemma inv_depth : depth_ok (hp_depth_manager s) P m K.
Proof using HI.
  split; [apply HI|apply HI|apply HI|done|..]; intros h Hh; apply (hi_depth_dom _ _ _ HI) in Hh as [i Hi];
    destruct (hi_depth _ _ _ HI h i Hi) as [H1 H2]; eexists; (split; [|eassumption]); simpl; unfold read_access; by rewrite Hi.
Qed.

(** The scores leave room for the arithmetic of the pruning rules. *)
Definition scores_fit : Prop := ∀ h, is_Some (m !! h) →
  score_of m h + p_finality_depth p + p_pruning_depth p ≤ u64_max.

Lemma inv_pruning : scores_fit → pruning_ok (hp_pruning_manager s) P m K.
Proof using HI.
  intros Hfit. split; [apply HI|apply HI|apply HI|done|..].
  - intros h Hh. destruct (stored_known h Hh) as (x & Hx & Hsx). simpl.
    rewrite (read_compact_ok _ h h_blue_score ch_blue_score (hi_headers _ _ _ HI)) by done.
    rewrite (read_field_ok _ _ h x Hx). f_equal. apply Hsx.
  - intros h Hh Hg. destruct (stored_known h Hh) as (x & Hx & Hsx). exists (lv_header x).
    split; [simpl; unfold read_access; by rewrite Hx|]. by apply (sh_pruning _ _ _ _ _ _ Hsx).
  - apply (po_finality _ _ (hi_params _ _ _ HI)).
  - apply (po_pruning _ _ (hi_params _ _ _ HI)).
  - exact Hfit.
Qed.

Lemma inv_levels : levels_ok (hp_parents_manager s) P m K.
Proof using HI.
  split; [apply (ck_state _ _ _ (hi_reach _ _ _ HI))|apply HI|..].
  - intros h Hh. destruct (stored_known h Hh) as (x & Hx & Hsx). exists x. simpl. unfold read_access. rewrite Hx.
    split_and!; [done|done|apply Hsx|apply Hsx].
  - pose proof (hi_dag _ _ _ HI) as HG. pose proof (hi_relations _ _ _ HI) as [Hd _ Hinv _].
    assert (is_Some (DbRel.children_access (hp_relations_store s) !! Hashes.ORIGIN)) as [oc Hoc].
    { apply elem_of_dom. rewrite Hd. apply elem_of_dom. rewrite (gd_origin _ _ _ _ HG). eauto. }
    exists oc. split_and!.
    + change (read_rel CHILDREN_PREFIX (DbRel.children_access (hp_relations_store s)) Hashes.ORIGIN = Ok oc).
      unfold read_rel. by rewrite Hoc.
    + apply (Hinv _ _ _ Hoc). exists [Hashes.ORIGIN]. split; [apply (gd_genesis _ _ _ _ HG)|by left].
    + intros h Hh. apply (Hinv _ _ _ Hoc) in Hh as (ps & Hps & Hin). apply (gd_dom _ _ _ _ HG).
      split; [|eauto]. intros ->. rewrite (gd_origin _ _ _ _ HG) in Hps. apply (inj Some) in Hps. rewrite <- Hps in Hin.
      by apply elem_of_nil in Hin.
Qed.

Lemma inv_service : ServiceLaws (hp_service s) P.
Proof using HI. apply mt_service_laws, (ck_state _ _ _ (hi_reach _ _ _ HI)). Qed.

Lemma inv_timestamps : ∃ ts, ∀ h, is_Some (m !! h) → get_timestamp (hp_headers_store s) h = Ok (ts h).
Proof using HI.
  exists (λ h, match headers_access (hp_headers_store s) !! h with Some x => h_timestamp (lv_header x) | None => 0 end).
  intros h Hh. destruct (stored_known h Hh) as (x & Hx & _). simpl.
  rewrite (read_compact_ok _ h h_timestamp ch_timestamp (hi_headers _ _ _ HI)) by done.
  rewrite (read_field_ok _ _ h x Hx). by rewrite Hx.
Qed.
End managers.
