(* ===== verification/HeaderValidate.v ===== *)
(** * Validation of headers

    Under the invariant of the processor, each stage of the validation of a header
    ends without a panic, and what it lets through is what the rules ask for. *)

From S2P Require Import Prelude Hash Interval Uint Target ReachStore Reachability ReachSim ReachTree ReachQuery ReachDag ReachMain ReachService Relations Headers GhostdagStore Ghostdag GhostdagInv GhostdagMerge GhostdagColor GhostdagRun Window WindowProof Difficulty DifficultyProof Stores Depth SelectedChain DepthProof Parents ParentsProof Errors HeaderProcessor HeaderInv.

(** The fields of a header have the ranges of their types, it lists its direct
    parents, and its target can be decoded; the clock leaves room for the tolerance. *)
Record header_fits (p : Params) (W now : Z) (header : Header) (ps : list Hash) : Prop := {
  hf_direct : h_parents_by_level header !! 0%nat = Some ps;
  hf_clock : 0 ≤ now ∧ now + p_timestamp_deviation_tolerance p * p_target_time_per_block p ≤ u64_max;
  hf_bits : bits_good W (h_bits header);
  hf_time : u64_ok (h_timestamp header);
}.

(** The data of the header stored for a block. *)
Definition header_data (s : HeaderProcessor) (h : Hash) : CompactHeaderData :=
  match headers_access (hp_headers_store s) !! h with
  | Some x => compact_header (lv_header x)
  | None => mkCompactHeader 0 0 0 0
  end.

(** The stored numbers leave room for one more block: scores, work, DAA scores, and
    the target that the difficulty rule computes from the window of the new block. *)
Record state_fits (W : Z) (s : HeaderProcessor) (P : Dag) (ps : list Hash) : Prop := {
  sf_room : room (hp_data s) (p_ghostdag_k (hp_params s)) W ps;
  sf_scores : scores_fit s;
  sf_size : Z.of_nat (size P) < u64_max;
  sf_daa h x : headers_access (hp_headers_store s) !! h = Some x → 0 ≤ h_daa_score (lv_header x)
    ∧ h_daa_score (lv_header x) + Z.of_nat (size (hp_data s)) ≤ u64_max;
  sf_target w : top (p_difficulty_window_size (hp_params s)) (window_of P (hp_data s) (p_genesis_hash (hp_params s)) ps) w →
    next_target (header_data s) (p_target_time_per_block (hp_params s)) w < 2 ^ 256;
}.

Section validate.
Context (fuel : nat) (pow_hash : Header → Uint.Uint).
Context (W : Z) (s : HeaderProcessor) (P : Dag) (HI : hp_inv W s P).
Local Abbreviation m := (hp_data s).
Local Abbreviation p := (hp_params s).
Local Abbreviation g := (p_genesis_hash p).
Local Abbreviation K := (p_ghostdag_k p).
Context (now : Z) (header : Header) (ps : list Hash) (HF : header_fits p W now header ps).
Context (Hnew : statuses_access (hp_statuses_store s) !! h_hash header = None).

Lemma not_genesis : h_hash header ≠ g.
Proof using HI Hnew.
  intros Hg. destruct (hi_status _ _ _ HI g) as [st Hst].
  - rewrite (gd_genesis_data _ _ _ _ (hi_dag _ _ _ HI)). eauto.
  - rewrite Hg in Hnew. congruence.
Qed.

Lemma direct_ps {E} : direct_parents (E:=E) header = Ok ps.
Proof using HF. unfold direct_parents. by rewrite (hf_direct _ _ _ _ _ HF). Qed.

(** ** Before GHOSTDAG *)

(** What the header has to meet by itself. *)
Record isolated : Prop := {
  is_version : h_version header = BLOCK_VERSION;
  is_future : h_timestamp header ≤ now + p_timestamp_deviation_tolerance p * p_target_time_per_block p;
  is_parents : ps ≠ [] ∧ Z.of_nat (length ps) ≤ p_max_block_parents p;
  is_origin : Hashes.ORIGIN ∉ ps;
}.

Lemma isolation_ok c : checks (validate_header_in_isolation s now header) c (λ _ c', c' = c ∧ isolated).
Proof using HI HF Hnew.
  unfold validate_header_in_isolation. rewrite bool_decide_eq_false_2 by apply not_genesis.
  apply checks_bind. unfold check_header_version. destruct (Z.eqb_spec (h_version header) BLOCK_VERSION) as [Hv|]; [|apply checks_fail]. apply checks_ret.
  apply checks_bind. unfold check_block_timestamp_in_isolation.
  destruct (hf_clock _ _ _ _ _ HF) as [Hn0 Hn1]. pose proof (hi_params _ _ _ HI) as Hp.
  pose proof (po_tolerance _ _ Hp). pose proof (po_time _ _ Hp).
  apply checks_bind. eapply checks_lift; [apply mul64_ok; unfold u64_max in *; nia|].
  apply checks_bind. eapply checks_lift; [apply add64_ok; unfold u64_max in *; nia|].
  destruct (Z.ltb_spec (now + p_timestamp_deviation_tolerance p * p_target_time_per_block p) (h_timestamp header)) as [|Htime];
    [apply checks_fail|]. apply checks_ret.
  apply checks_bind. unfold check_parents_limit. apply checks_bind. eapply checks_lift; [apply direct_ps|].
  case_bool_decide as Hne; [apply checks_fail|]. destruct (Z.ltb_spec (p_max_block_parents p) (Z.of_nat (length ps))); [apply checks_fail|].
  apply checks_ret. unfold check_parents_not_origin. apply checks_bind. eapply checks_lift; [apply direct_ps|].
  destruct (existsb Hashes.is_origin ps) eqn:Ho; [apply checks_fail|]. apply checks_ret. split; [done|]. split; [done|exact Htime|done|].
  intros Hin. assert (existsb Hashes.is_origin ps = true) as Ht; [|congruence]. apply existsb_exists.
  exists Hashes.ORIGIN. split; [by apply list_elem_of_In|]. by vm_compute.
Qed.

(** The loop over the statuses of the parents. *)
Lemma exist_fold qs acc :
  match ofold (E:=RuleError) (λ missing_parents parent,
    status ← unwrap_store_option (get_status (hp_statuses_store s) parent);
    match status with
    | None => mret (missing_parents ++ [parent])
    | Some StatusInvalid => Err (InvalidParent parent)
    | Some _ => mret missing_parents
    end) acc qs with
  | Ok r => acc `prefix_of` r ∧ (r = [] → ∀ q, q ∈ qs → is_Some (m !! q))
  | Err _ => True
  | _ => False
  end.
Proof using HI.
  revert acc. induction qs as [|q qs IH]; intros acc; cbn [ofold].
  { split; [done|]. by intros _ q ?%elem_of_nil. }
  cbn [get_status db_statuses_reader]. unfold read_access at 2.
  destruct (statuses_access (hp_statuses_store s) !! q) as [st|] eqn:Hst; cbn [unwrap_store_option mbind outcome_bind].
  - assert (st ≠ StatusInvalid → is_Some (m !! q)) as Hk by (intros; by eapply (hi_valid _ _ _ HI)).
    destruct st; cbn [mbind outcome_bind mret outcome_ret]; try done; specialize (IH acc);
      destruct (ofold _ acc qs) as [r|e| |]; try done; destruct IH as [Hr IH];
      (split; [done|]; intros Hnil x [->|Hx]%elem_of_cons; [by apply Hk|by apply IH]).
  - specialize (IH (acc ++ [q])). cbn [mbind outcome_bind mret outcome_ret]. destruct (ofold _ (acc ++ [q]) qs) as [r|e| |]; try done.
    destruct IH as [[l Hr] _]. split; [exists ([q] ++ l); by rewrite Hr, <- app_assoc|].
    intros ->. symmetry in Hr. by apply app_nil in Hr as [[? ?]%app_nil _].
Qed.

Lemma exist_ok c : checks (check_parents_exist s header) c (λ _ c', c' = c ∧ ∀ q, q ∈ ps → is_Some (m !! q)).
Proof using HI HF.
  unfold check_parents_exist. apply checks_bind. eapply checks_lift; [apply direct_ps|]. apply checks_bind.
  pose proof (exist_fold ps []) as Hfold. unfold checks, lift. destruct (ofold _ [] ps) as [r|e| |]; try done.
  case_bool_decide as Hr; [|done]. split; [done|]. by apply Hfold.
Qed.

(** ** Queries *)

Lemma hp_query a b : is_Some (P !! a) → is_Some (P !! b) →
  ∃ r, hp_is_dag_ancestor_of s a b = Ok r ∧ (r = true ↔ ancestor P a b).
Proof using HI.
  intros Ha Hb. destruct (inv_service _ _ _ HI) as [Hd _ _ _ _]. destruct (Hd a b Ha Hb) as (r & Hr & Hiff).
  exists r. split; [|done]. unfold hp_is_dag_ancestor_of. by rewrite Hr.
Qed.

Lemma incest_ok c : ctx_header c = header → ctx_non_pruned_parents c = None → (∀ q, q ∈ ps → is_Some (m !! q)) →
  checks (check_parents_incest s) c (λ _ c', c' = set_non_pruned_parents ps c
    ∧ ∀ a b, a ∈ ps → b ∈ ps → ancestor P a b → a = b).
Proof using HI HF.
  intros Hh Hnone Hk. unfold check_parents_incest, get_non_pruned_parents. apply checks_bind, checks_bind, checks_get.
  rewrite Hnone, Hh. apply checks_bind. eapply checks_lift; [apply direct_ps|]. apply checks_bind, checks_modify, checks_ret.
  set (c' := set_non_pruned_parents ps c).
  apply (checks_for_each (λ pre c1, c1 = c' ∧ ∀ a b, a ∈ pre → b ∈ ps → ancestor P a b → a = b)).
  - intros pre a c1 Hpre [-> Hdone]. eapply (checks_for_each (λ pre' c1, c1 = c' ∧ ∀ b, b ∈ pre' → ancestor P a b → a = b)).
    + intros pre' b c1 Hpre' [-> Hdone']. case_bool_decide as Hab.
      { apply checks_ret. split; [done|]. intros b' [Hb'| ->%list_elem_of_singleton]%elem_of_app; [by apply Hdone'|done]. }
      assert (a ∈ ps ∧ b ∈ ps) as [Ha Hb] by (split; [eapply elem_of_prefix; [|exact Hpre]|eapply elem_of_prefix; [|exact Hpre']]; apply elem_of_app; right; left).
      destruct (hp_query a b) as (r & Hr & Hiff); [by eapply known_dag; [apply (hi_dag _ _ _ HI)|apply Hk]..|].
      apply checks_bind. eapply checks_lift; [exact Hr|]. destruct r; [apply checks_fail|]. apply checks_ret. split; [done|].
      intros b' [Hb'| ->%list_elem_of_singleton]%elem_of_app; [by apply Hdone'|]. intros Ha'%Hiff. done.
    + intros c1 [-> Hall]. split; [done|]. intros x y [Hx| ->%list_elem_of_singleton]%elem_of_app Hy; [by apply Hdone|by apply Hall].
    + split; [done|]. by intros b ?%elem_of_nil.
  - intros c1 [-> Hall]. split; [done|]. intros a b Ha Hb. by apply Hall.
  - split; [done|]. by intros a b ?%elem_of_nil.
Qed.

Lemma pre_ghostdag_ok c : ctx_header c = header → ctx_non_pruned_parents c = None →
  checks (pre_ghostdag_validation s now header) c (λ _ c', c' = set_non_pruned_parents ps c
    ∧ parents_ok P m ps ∧ isolated).
Proof using HI HF Hnew.
  intros Hh Hnone. unfold pre_ghostdag_validation. rewrite bool_decide_eq_false_2 by apply not_genesis.
  apply checks_bind. eapply checks_mono; [apply isolation_ok|]. intros _ ? (-> & His).
  apply checks_bind. eapply checks_mono; [apply exist_ok|]. intros _ ? (-> & Hk).
  eapply checks_mono; [by apply incest_ok|]. intros _ ? (-> & Ha). split_and!; [done| |done].
  destruct (is_parents His). by split.
Qed.

(** ** Before the proof of work *)

Context (HS : state_fits W s P ps) (HP : parents_ok P m ps).
Context (d : GhostdagData) (HD : gd_block P m K ps d).
Lemma header_data_ok h : is_Some (m !! h) →
  get_compact_header_data (hp_headers_store s) h = Ok (header_data s h) ∧ data_ok (header_data s h).
Proof using HI.
  intros Hh. destruct (stored_known W s P HI h Hh) as (x & Hx & Hsx). unfold header_data. rewrite Hx. split.
  - simpl. rewrite (read_compact_ok _ h compact_header (λ d, d) (hi_headers _ _ _ HI)) by done. by apply read_field_ok.
  - destruct (sh_bits _ _ _ _ _ _ Hsx) as ([? ?] & ? & _). split_and!; [apply (sh_time _ _ _ _ _ _ Hsx)|done..].
Qed.

Lemma window_known n w : top n (window_of P m g ps) w → ∀ b, b ∈ w → is_Some (m !! sb_hash b).
Proof using. intros Hw b Hb. by destruct (top_in _ _ _ Hw b Hb) as (x & -> & Hx & _). Qed.

Lemma bits_calculated w : top (p_difficulty_window_size p) (window_of P m g ps) w →
  ∃ bits, calculate_difficulty_bits (E:=RuleError) (hp_difficulty_manager s) w = Ok bits.
Proof using HI HS.
  intros Hw. pose proof (window_known _ w Hw) as Hk. pose proof (hi_params _ _ _ HI) as Hp.
  assert (∀ b, b ∈ w → get_compact_header_data (dm_headers_store (hp_difficulty_manager s)) (sb_hash b) = Ok (header_data s (sb_hash b))
    ∧ data_ok (header_data s (sb_hash b))) as Hdata by (intros b Hb; by apply header_data_ok, Hk).
  destruct (Nat.ltb_spec (length w) (p_difficulty_window_size p)) as [Hlt|Hge].
  - unfold calculate_difficulty_bits. rewrite (difficulty_blocks_ok (header_data s)) by (intros b Hb; by apply Hdata).
    cbn [mbind outcome_bind]. rewrite length_fmap, (proj2 (Nat.ltb_lt _ _)) by done. by eexists.
  - pose proof (top_length _ _ _ Hw). pose proof (po_window _ _ Hp). pose proof (po_time _ _ Hp).
    rewrite (calculate_difficulty_bits_ok (header_data s)); [|intros b Hb; by apply Hdata|intros b Hb; by apply Hdata|done|lia|done].
    rewrite (proj2 (Z.ltb_lt _ _)) by by apply (sf_target _ _ _ _ HS). by eexists.
Qed.

Lemma mergeset_known x : x ∈ unordered_mergeset d → is_Some (m !! x).
Proof using HD.
  intros Hx. destruct (gb_order _ _ _ _ _ HD) as [_ _ Hk _].
  destruct (gb_head _ _ _ _ _ HD) as [bs Hbs].
  unfold unordered_mergeset in Hx. unfold unordered_mergeset_without_selected_parent in Hk. rewrite Hbs in Hx, Hk.
  apply elem_of_cons in Hx as [->|Hx]; [|by apply Hk].
  apply (gb_parents _ _ _ _ _ HD), (gb_selected _ _ _ _ _ HD).
Qed.

Lemma daa_calculated l : ∃ r, calc_daa_score_and_non_daa_mergeset_blocks (E:=RuleError) (hp_difficulty_manager s) l d = Ok r.
Proof using HI HS HD.
  unfold calc_daa_score_and_non_daa_mergeset_blocks.
  destruct (stored_known W s P HI (selected_parent d)) as (x & Hx & _).
  { apply (gb_parents _ _ _ _ _ HD), (gb_selected _ _ _ _ _ HD). }
  cbn [dm_headers_store hp_difficulty_manager get_daa_score db_header_reader].
  rewrite (read_compact_ok _ _ h_daa_score ch_daa_score (hi_headers _ _ _ HI)) by done. unfold header_field. rewrite Hx.
  cbn [unwrap mbind outcome_bind]. destruct (sf_daa _ _ _ _ HS _ x Hx) as [H0 H1].
  set (ms := list_to_set (unordered_mergeset d) : gset Hash).
  set (S := list_to_set (take (size ms) (filter (λ h, h ∈ ms) l)) : gset Hash).
  assert (size S ≤ size m)%nat as Hle.
  { rewrite <- (size_dom (D:=gset Hash) m). apply subseteq_size. intros y Hy. apply elem_of_list_to_set in Hy.
    apply elem_of_take in Hy as (i & Hy & _). apply list_elem_of_lookup_2, list_elem_of_filter in Hy as [Hy _].
    apply elem_of_list_to_set in Hy. by apply elem_of_dom, mergeset_known. }
  rewrite add64_ok by (unfold u64_max in *; lia). by eexists.
Qed.

(** What the second stage establishes. *)
Record pow_validated (c c' : HeaderProcessingContext) (pp : Hash) (level : Z) (nd : gset Hash) (w : BlockWindowHeap) : Prop := {
  pv_context : c' = set_window_difficulty w (set_mergeset_non_daa nd (set_block_level level c));
  pv_level : level = Z.max (Z.of_nat (p_max_block_level p) - Uint.bits LIMBS_256 (pow_hash header)) 0;
  pv_pow : p_skip_proof_of_work p = true ∨ Uint.val (pow_hash header) ≤ target_of (h_bits header);
  pv_window : top (p_difficulty_window_size p) (window_of P m g ps) w;
  pv_daa : calc_daa_score_and_non_daa_mergeset_blocks (E:=RuleError) (hp_difficulty_manager s) (map sb_hash w) d
    = Ok (h_daa_score header, nd);
  pv_bits : calculate_difficulty_bits (E:=RuleError) (hp_difficulty_manager s) w = Ok (h_bits header);
  pv_point : ∃ q, q ∈ ps ∧ ancestor P pp q;
}.

Lemma pruning_violation_ok c : ctx_non_pruned_parents c = Some ps → is_Some (m !! ctx_pruning_point c) →
  checks (check_pruning_violation s) c (λ _ c', c' = c ∧ ∃ q, q ∈ ps ∧ ancestor P (ctx_pruning_point c) q).
Proof using HI HP.
  intros Hc Hpp. unfold check_pruning_violation, get_non_pruned_parents. apply checks_bind, checks_bind, checks_get.
  rewrite Hc. apply checks_ret. rewrite bool_decide_eq_false_2 by apply (pk_nonempty _ _ _ HP).
  apply checks_bind, checks_get. destruct (inv_service _ _ _ HI) as [_ _ Hany _ _].
  destruct (Hany (ctx_pruning_point c) ps) as (b & Hb & Hiff).
  { by eapply known_dag; [apply (hi_dag _ _ _ HI)|]. }
  { apply Forall_forall. intros q Hq. eapply known_dag; [apply (hi_dag _ _ _ HI)|by apply (pk_known _ _ _ HP)]. }
  apply checks_bind. eapply checks_lift; [by rewrite Hb|]. destruct b; [|apply checks_fail]. apply checks_ret.
  split; [done|]. by apply Hiff.
Qed.

Lemma pow_level_ok c : Uint.wf 4 (pow_hash header) →
  checks (check_pow_and_calc_block_level pow_hash s header) c (λ _ c', ∃ level, c' = set_block_level level c
    ∧ level = Z.max (Z.of_nat (p_max_block_level p) - Uint.bits LIMBS_256 (pow_hash header)) 0
    ∧ (p_skip_proof_of_work p = true ∨ Uint.val (pow_hash header) ≤ target_of (h_bits header))).
Proof using HF.
  intros Hwf. unfold check_pow_and_calc_block_level, check_pow. destruct (hf_bits _ _ _ _ _ HF) as (Hb & He & _).
  destruct (from_compact_ok (E:=RuleError) _ Hb He) as (t & Ht & Hwt & Hvt & _). rewrite Ht.
  cbn [mbind outcome_bind mret outcome_ret]. apply checks_bind. eapply checks_lift; [reflexivity|]. cbv beta iota.
  destruct (match Uint.cmp _ _ with Gt => false | _ => true end || _) eqn:Hpass; [|apply checks_fail]. apply checks_modify. eexists. split_and!; [done|done|].
  apply orb_true_iff in Hpass as [Hc|?]; [right|by left]. rewrite <- Hvt.
  rewrite (Uint.cmp_ok 4) in Hc by done. revert Hc. destruct (Z.compare_spec (Uint.val (pow_hash header)) (Uint.val t)); [lia|lia|done].
Qed.

Context (Hfuel : (size m < fuel)%nat).

Lemma pre_pow_ok c : Uint.wf 4 (pow_hash header) → ctx_ghostdag_data c = Some d → ctx_non_pruned_parents c = Some ps →
  is_Some (m !! ctx_pruning_point c) →
  checks (pre_pow_validation fuel pow_hash s header) c (λ _ c', ∃ level nd w, pow_validated c c' (ctx_pruning_point c) level nd w).
Proof using HI HF Hnew HS HP HD Hfuel.
  intros Hwf Hd Hc Hpp. unfold pre_pow_validation. rewrite bool_decide_eq_false_2 by apply not_genesis.
  apply checks_bind. eapply checks_mono; [by apply pruning_violation_ok|]. intros _ ? [-> Hq].
  apply checks_bind. eapply checks_mono; [by apply pow_level_ok|]. intros _ ? (level & -> & Hl & Hpow).
  unfold check_difficulty_and_daa_score. apply checks_bind, checks_get. apply checks_bind.
  eapply checks_lift; [cbn [set_block_level ctx_ghostdag_data]; by rewrite Hd|].
  destruct (block_window_ok (E:=RuleError) fuel _ P m K (hi_windows _ _ _ HI) ps d (p_difficulty_window_size p) HD Hfuel) as (w & Hw & Ht).
  apply checks_bind. eapply checks_lift; [exact Hw|]. destruct (daa_calculated (map sb_hash w)) as [[score nd] Hdaa].
  apply checks_bind. eapply checks_lift; [exact Hdaa|]. cbv beta iota. destruct (Z.eqb_spec score (h_daa_score header)) as [->|]; [|apply checks_fail].
  apply checks_bind, checks_modify. destruct (bits_calculated w Ht) as [bits Hbits]. apply checks_bind.
  eapply checks_lift; [exact Hbits|]. cbv beta iota. destruct (Z.eqb_spec (h_bits header) bits) as [<-|]; [|apply checks_fail].
  apply checks_modify. exists level, nd, w. by split.
Qed.

(** ** After the proof of work *)

Context (info : PruningPointInfo) (Hinfo : info_ok (hp_pruning_manager s) m (selected_parent d) info).
Context (Hscore : blue_score d ≤ u64_max).
Local Abbreviation pp := (pi_pruning_point info).

(** The red [r] may be merged when the root is in its past, or a blue whose selected
    chain has the root is in its future. *)
Definition mergeable (root r : Hash) : Prop :=
  ancestor P root r ∨ ∃ b, b ∈ mergeset_blues d ∧ sel_chain m root b ∧ ancestor P r b.

Lemma blues_known b : b ∈ mergeset_blues d → is_Some (m !! b).
Proof using HD. intros Hb. by apply (gb_past _ _ _ _ _ HD). Qed.

Lemma reds_known r : r ∈ mergeset_reds d → is_Some (m !! r).
Proof using HD.
  intros Hr. apply mergeset_known. unfold unordered_mergeset. apply elem_of_app. by right.
Qed.

Lemma kosherizing_ok root : is_Some (m !! root) →
  ∃ bl, kosherizing_blues (E:=RuleError) (hp_depth_manager s) d root = Ok bl ∧ ∀ b, b ∈ bl ↔ b ∈ mergeset_blues d ∧ sel_chain m root b.
Proof using HI HD.
  clear pow_hash. intros Hroot. unfold kosherizing_blues. pose proof blues_known as Hk. revert Hk.
  induction (mergeset_blues d) as [|b bs IH]; intros Hk; cbn [filter_of].
  { exists []. split; [done|]. intros x. split; [by intros ?%elem_of_nil|by intros [?%elem_of_nil _]]. }
  unfold dp_is_chain_ancestor_of at 2.
  destruct (service_chain (hp_reachability_store s) P m g K (hi_dag _ _ _ HI) (hi_reach _ _ _ HI) root b) as (r & Hr & Hiff);
    [done|apply Hk; left|].
  change (dpm_reachability_service (hp_depth_manager s)) with (mkService (hp_reachability_store s)) at 1. rewrite Hr. cbn [unwrap mbind outcome_bind].
  destruct IH as (bl & -> & Hbl); [intros x Hx; apply Hk; by right|]. cbn [mbind outcome_bind mret outcome_ret].
  eexists. split; [done|]. intros x. destruct r.
  - rewrite !elem_of_cons, Hbl. split; [intros [->|?]; [split; [by left|by apply Hiff]|tauto]|tauto].
  - rewrite elem_of_cons, Hbl. split; [tauto|]. intros [[->|?] Hx]; [by apply Hiff in Hx|done].
Qed.

Lemma reds_fold root reds acc : (root = Hashes.ORIGIN ∨ is_Some (m !! root)) → (∀ r, r ∈ reds → is_Some (m !! r)) →
  (∀ bl, acc = Some bl → ∀ b, b ∈ bl ↔ b ∈ mergeset_blues d ∧ sel_chain m root b) →
  match ofold (check_red s d root) acc reds with
  | Ok _ => ∀ r, r ∈ reds → mergeable root r
  | Err _ => True
  | _ => False
  end.
Proof using HI HD.
  intros Hroot. pose proof (hi_dag _ _ _ HI) as HG. revert acc.
  induction reds as [|r reds IH]; intros acc Hk Hacc; cbn [ofold]; [by intros r ?%elem_of_nil|].
  assert (is_Some (m !! r)) as Hr by (apply Hk; left). unfold check_red at 2.
  destruct (hp_query root r) as (b & -> & Hb).
  { destruct Hroot as [->|?]; [rewrite (gd_origin _ _ _ _ HG); eauto|by eapply known_dag]. }
  { by eapply known_dag. }
  cbn [mbind outcome_bind]. destruct b.
  { cbn [mbind outcome_bind mret outcome_ret]. specialize (IH acc).
    destruct (ofold _ acc reds); try (apply IH; [intros x Hx; apply Hk; by right|done]).
    intros x [->|Hx]%elem_of_cons; [left; by apply Hb|]. apply IH; [intros y Hy; apply Hk; by right|done..]. }
  assert (is_Some (m !! root)) as Hrk.
  { destruct Hroot as [->|?]; [|done]. assert (false = true) as ?; [|done]. apply Hb.
    eapply ancestor_trans; [|by apply (gd_root _ _ _ _ HG)]. econstructor; [apply (gd_genesis _ _ _ _ HG)|left|constructor]. }
  assert (∃ bl, match acc with Some blues => mret blues | None => kosherizing_blues (E:=RuleError) (hp_depth_manager s) d root end = Ok bl
    ∧ ∀ b, b ∈ bl ↔ b ∈ mergeset_blues d ∧ sel_chain m root b) as (bl & -> & Hbl).
  { destruct acc as [bl|]; [exists bl; split; [done|by apply Hacc]|by apply kosherizing_ok]. }
  cbn [mbind outcome_bind]. destruct (inv_service _ _ _ HI) as [_ _ Hany _ _].
  destruct (Hany r bl) as (b & Hb' & Hiff); [by eapply known_dag| |].
  { apply Forall_forall. intros x [Hx _]%Hbl. eapply known_dag; [done|by apply blues_known]. }
  rewrite Hb'. cbn [unwrap mbind outcome_bind]. destruct b; [|done]. cbn [negb mbind outcome_bind mret outcome_ret].
  specialize (IH (Some bl)). destruct (ofold _ (Some bl) reds); try (apply IH; [intros x Hx; apply Hk; by right|by intros ? [= <-]]).
  intros x [->|Hx]%elem_of_cons; [|apply IH; [intros y Hy; apply Hk; by right|by intros ? [= <-]|done]].
  right. destruct (proj1 Hiff eq_refl) as (b & Hin & Ha). apply Hbl in Hin as [? ?]. eauto.
Qed.

Lemma depth_root_known depth pp' root : depth_result (hp_depth_manager s) m d depth pp' root →
  root = Hashes.ORIGIN ∨ is_Some (m !! root).
Proof using HI.
  intros [[_ ->]|[(_ & _ & ->)|(_ & _ & Hk & _)]]; [right|by left|by right].
  cbn. rewrite (gd_genesis_data _ _ _ _ (hi_dag _ _ _ HI)). eauto.
Qed.

Lemma merge_depth_ok c : ctx_ghostdag_data c = Some d → ctx_pruning_info c = info →
  checks (check_bounded_merge_depth fuel s) c (λ _ c', ∃ root point, c' = set_depth_roots root point c
    ∧ depth_result (hp_depth_manager s) m d (p_merge_depth p) pp root
    ∧ depth_result (hp_depth_manager s) m d (p_finality_depth p) pp point
    ∧ ∀ r, r ∈ mergeset_reds d → mergeable root r).
Proof using HI HS HD Hfuel Hinfo Hscore.
  intros Hd Hi. unfold check_bounded_merge_depth, the_ghostdag_data. apply checks_bind, checks_bind, checks_get.
  eapply checks_lift; [by rewrite Hd|]. apply checks_bind, checks_get. unfold ctx_pruning_point. rewrite Hi.
  pose proof (io_point _ _ _ _ Hinfo) as Hpp. pose proof (sf_scores _ _ _ _ HS _ Hpp) as Hfit.
  pose proof (hi_params _ _ _ HI) as Hp. destruct (po_merge _ _ Hp). pose proof (po_finality _ _ Hp). pose proof (po_pruning _ _ Hp).
  destruct (block_at_depth_ok (E:=RuleError) (hp_depth_manager s) P m K (inv_depth _ _ _ HI) fuel ps d (p_merge_depth p) pp)
    as (root & Hr & Hroot); [done|done|by left|lia|lia|lia|done|].
  destruct (block_at_depth_ok (E:=RuleError) (hp_depth_manager s) P m K (inv_depth _ _ _ HI) fuel ps d (p_finality_depth p) pp)
    as (point & Hf & Hpoint); [done|done|by right|lia|lia|lia|done|].
  apply checks_bind. eapply checks_lift; [exact Hr|]. apply checks_bind. eapply checks_lift; [exact Hf|]. apply checks_bind.
  pose proof (reds_fold root (mergeset_reds d) None (depth_root_known _ _ _ Hroot) reds_known ltac:(done)) as Hreds.
  unfold checks at 1, lift. destruct (ofold _ None (mergeset_reds d)) as [r| | |]; try done.
  apply checks_modify. exists root, point. done.
Qed.

(** The timestamps of the stored headers. *)
Definition header_time (h : Hash) : Z := ch_timestamp (header_data s h).

Lemma median_calculated : ∃ w, calc_past_median_time (E:=RuleError) fuel (hp_median_manager s) d
      = Ok (median_of (p_genesis_timestamp p) ((header_time ∘ sb_hash) <$> w), w)
    ∧ top (Z.to_nat (2 * p_timestamp_deviation_tolerance p - 1)) (window_of P m g ps) w.
Proof using HI HD Hfuel.
  pose proof (hi_params _ _ _ HI) as Hp. pose proof (po_tolerance _ _ Hp). pose proof (po_tolerance_max _ _ Hp).
  destruct (calc_past_median_time_ok (E:=RuleError) fuel (hp_median_manager s) P m K header_time) with (ps := ps) (d := d)
    as (w & Hw & Ht).
  - apply (hi_windows _ _ _ HI).
  - intros h Hh. destruct (stored_known W s P HI h Hh) as (x & Hx & _). simpl.
    rewrite (read_compact_ok _ h h_timestamp ch_timestamp (hi_headers _ _ _ HI)) by done.
    rewrite (read_field_ok s _ _ h x Hx). unfold header_time, header_data. by rewrite Hx.
  - cbn. lia.
  - cbn. lia.
  - done.
  - done.
  - cbn [hp_median_manager pmt_timestamp_deviation_tolerance] in Ht.
    replace (2 * Z.to_nat (p_timestamp_deviation_tolerance p) - 1)%nat
      with (Z.to_nat (2 * p_timestamp_deviation_tolerance p - 1)) in Ht by lia. by exists w.
Qed.

Lemma median_ok c : ctx_ghostdag_data c = Some d →
  checks (check_median_timestamp fuel s header) c (λ _ c', ∃ w, c' = set_window_median w c
    ∧ top (Z.to_nat (2 * p_timestamp_deviation_tolerance p - 1)) (window_of P m g ps) w
    ∧ median_of (p_genesis_timestamp p) ((header_time ∘ sb_hash) <$> w) < h_timestamp header).
Proof using HI HD Hfuel.
  intros Hd. unfold check_median_timestamp, the_ghostdag_data. apply checks_bind, checks_bind, checks_get.
  eapply checks_lift; [by rewrite Hd|]. destruct median_calculated as (w & Hw & Ht).
  apply checks_bind. eapply checks_lift; [exact Hw|]. cbv beta iota. apply checks_bind, checks_modify.
  case_match eqn:Hc; [apply checks_fail|]. apply Z.leb_gt in Hc. apply checks_ret. exists w. split_and!; [done..|]. exact Hc.
Qed.

Lemma pruning_point_ok c : ctx_ghostdag_data c = Some d → ctx_pruning_info c = info →
  checks (check_pruning_point fuel s header) c (λ _ c', c' = c ∧
    expected_header_pruning_point (E:=RuleError) fuel (hp_pruning_manager s) (to_compact d) info = Ok (h_pruning_point header)
    ∧ is_Some (m !! h_pruning_point header) ∧ sel_chain m (h_pruning_point header) (selected_parent d)
    ∧ (h_pruning_point header = g ∨ score_of m (h_pruning_point header) + p_pruning_depth p ≤ blue_score d)).
Proof using HI HS HD Hfuel Hinfo Hscore.
  intros Hd Hi. unfold check_pruning_point, the_ghostdag_data. apply checks_bind, checks_bind, checks_get.
  eapply checks_lift; [by rewrite Hd|]. apply checks_bind, checks_get. rewrite Hi.
  destruct (stored_known W s P HI (selected_parent d)) as (x & Hx & _).
  { apply (gb_parents _ _ _ _ _ HD), (gb_selected _ _ _ _ _ HD). }
  destruct (expected_point_ok (E:=RuleError) (hp_pruning_manager s) P m K (inv_pruning _ _ _ HI (sf_scores _ _ _ _ HS)) fuel ps d info (lv_header x))
    as (r & Hr & Hk & Hc & Hdeep & _); [done|done|done| |done|].
  { simpl. unfold read_access. by rewrite Hx. }
  apply checks_bind. eapply checks_lift; [exact Hr|]. case_bool_decide as He; [|apply checks_fail]. apply checks_ret. subst r. done.
Qed.

(** The parents of the header at a level are expected ones, as many as expected. *)
Record level_agrees (expected got : list Hash) : Prop := {
  la_length : length got = length expected;
  la_in y : y ∈ got → y ∈ expected;
}.

Lemma level_matches_ok expected got : level_matches expected got = true → level_agrees expected got.
Proof using.
  clear. unfold level_matches. rewrite andb_true_iff, Nat.eqb_eq. intros [Hl Hf]. split; [done|].
  intros y Hy. rewrite forallb_forall in Hf. specialize (Hf y). rewrite bool_decide_eq_true in Hf.
  by apply Hf, list_elem_of_In.
Qed.

(** The levels of the header are the prescribed ones. *)
Definition levels_agree : Prop := ∃ xs ls,
  (∀ x, x ∈ xs ↔ ∃ q, q ∈ ps ∧ headers_access (hp_headers_store s) !! q = Some x)
  ∧ levels_spec (hp_parents_manager s) P xs 0 (p_max_block_level p) ls
  ∧ (∀ l, ls !! 0%nat = Some l → ∀ y, y ∈ l ↔ y ∈ ps)
  ∧ Forall2 level_agrees ls (h_parents_by_level header).

Lemma indirect_ok c : ctx_pruning_info c = info → (∃ q, q ∈ ps ∧ ancestor P pp q) →
  checks (check_indirect_parents s header) c (λ _ c', c' = c ∧ levels_agree).
Proof using HI HF HP Hinfo.
  intros Hi Hq. unfold check_indirect_parents. apply checks_bind. eapply checks_lift; [apply direct_ps|].
  apply checks_bind, checks_get. unfold ctx_pruning_point. rewrite Hi.
  destruct (calc_block_parents_ok (E:=RuleError) (hp_parents_manager s) P m K (inv_levels _ _ _ HI) ps pp) as (xs & ls & Hls & Hxs & Hspec & Hzero & _);
    [done|apply (io_point _ _ _ _ Hinfo)|done|].
  apply checks_bind. eapply checks_lift; [exact Hls|]. destruct (_ || _) eqn:Hc; [apply checks_fail|]. apply checks_ret.
  split; [done|]. exists xs, ls. split_and!; [|done|done|].
  - intros x. rewrite Hxs. simpl. unfold read_access. split; intros (q & Hq' & Hx); exists q; (split; [done|]).
    + by destruct (headers_access _ !! q); [apply ok_inj in Hx as ->|].
    + by rewrite Hx.
  - apply orb_false_iff in Hc as [Hlen%negb_false_iff Hall%negb_false_iff]. apply Nat.eqb_eq in Hlen.
    clear -Hlen Hall. revert Hlen Hall. generalize (h_parents_by_level header).
    induction ls as [|l ls IH]; intros [|h hs] Hlen Hall; try done. simpl in Hlen, Hall.
    apply andb_true_iff in Hall as [H1 H2]. constructor; [by apply level_matches_ok|]. apply IH; [lia|done].
Qed.

(** What the third stage establishes. *)
Record post_validated (c c' : HeaderProcessingContext) (root point : Hash) (w : BlockWindowHeap) : Prop := {
  ov_context : c' = set_depth_roots root point (set_window_median w c);
  ov_score : h_blue_score header = blue_score d;
  ov_work : h_blue_work header = blue_work d;
  ov_window : top (Z.to_nat (2 * p_timestamp_deviation_tolerance p - 1)) (window_of P m g ps) w;
  ov_time : median_of (p_genesis_timestamp p) ((header_time ∘ sb_hash) <$> w) < h_timestamp header;
  ov_size : Z.of_nat (mergeset_size d) ≤ p_mergeset_size_limit p;
  ov_root : depth_result (hp_depth_manager s) m d (p_merge_depth p) pp root;
  ov_finality : depth_result (hp_depth_manager s) m d (p_finality_depth p) pp point;
  ov_reds r : r ∈ mergeset_reds d → mergeable root r;
  ov_pruning : expected_header_pruning_point (E:=RuleError) fuel (hp_pruning_manager s) (to_compact d) info = Ok (h_pruning_point header)
    ∧ is_Some (m !! h_pruning_point header) ∧ sel_chain m (h_pruning_point header) (selected_parent d)
    ∧ (h_pruning_point header = g ∨ score_of m (h_pruning_point header) + p_pruning_depth p ≤ blue_score d);
  ov_levels : levels_agree;
}.

Lemma post_pow_ok c : ctx_ghostdag_data c = Some d → ctx_pruning_info c = info → (∃ q, q ∈ ps ∧ ancestor P pp q) →
  checks (post_pow_validation fuel s header) c (λ _ c', ∃ root point w, post_validated c c' root point w).
Proof using HI HF HP HS HD Hfuel Hinfo Hscore.
  intros Hd Hi Hq. unfold post_pow_validation, check_blue_score, check_blue_work, check_merge_size_limit, the_ghostdag_data.
  do 3 apply checks_bind. apply checks_get. eapply checks_lift; [by rewrite Hd|].
  destruct (Z.eqb_spec (blue_score d) (h_blue_score header)) as [Hs|]; [|apply checks_fail]. apply checks_ret.
  do 3 apply checks_bind. apply checks_get. eapply checks_lift; [by rewrite Hd|].
  destruct (Z.eqb_spec (blue_work d) (h_blue_work header)) as [Hw|]; [|apply checks_fail]. apply checks_ret.
  apply checks_bind. eapply checks_mono; [by apply median_ok|]. intros _ ? (w & -> & Ht & Hmed).
  do 3 apply checks_bind. apply checks_get. eapply checks_lift; [cbn [set_window_median ctx_ghostdag_data]; by rewrite Hd|].
  case_match eqn:Hsz; [apply checks_fail|]. apply Z.ltb_ge in Hsz. apply checks_ret.
  apply checks_bind. eapply checks_mono; [by apply merge_depth_ok|]. intros _ ? (root & point & -> & Hr & Hf & Hreds).
  apply checks_bind. eapply checks_mono; [by apply pruning_point_ok|]. intros _ ? (-> & Hpr).
  eapply checks_mono; [by apply indirect_ok|]. intros _ ? (-> & Hlv). exists root, point, w. by split.
Qed.
End validate.
