(* ===== verification/HeaderCommit.v ===== *)
(** * The DAG grown by a validated header

    What the stores hold about the old blocks stays true when a block is added, and
    what the validation of a header established is what the stores must hold about
    the new block. *)

From S2P Require Import Prelude Hash Interval Uint Target ReachStore Reachability ReachSim ReachTree ReachQuery ReachDag ReachMain ReachService Relations Headers GhostdagStore Ghostdag GhostdagInv GhostdagMerge GhostdagColor GhostdagRun Window WindowProof Difficulty DifficultyProof Stores Depth SelectedChain DepthProof Parents ParentsProof Errors HeaderProcessor HeaderInv HeaderValidate.

Section grow.
Context (P : Dag) (m : GdMap) (g : Hash) (k : Z) (HG : gd_dag P m g k).
Context (n : Hash) (ps : list Hash) (d : GhostdagData) (Hn : P !! n = None) (HP : parents_ok P m ps) (HD : gd_block P m k ps d).
Abbreviation P' := (<[n := ps]> P).
Abbreviation m' := (<[n := d]> m).

Lemma fresh_new : m !! n = None.
Proof using HG Hn. eapply fresh_data; [exact HG|exact Hn]. Qed.

Lemma grow_sub : m ⊆ m'.
Proof using HG Hn. apply insert_subseteq, fresh_new. Qed.

Lemma grow_other h : is_Some (m !! h) → h ≠ n.
Proof using HG Hn. intros Hh ->. rewrite fresh_new in Hh. by destruct Hh. Qed.

Lemma grow_score h : is_Some (m !! h) → score_of m' h = score_of m h.
Proof using HG Hn. intros Hh. unfold score_of. rewrite lookup_insert_ne; [done|]. by apply not_eq_sym, grow_other. Qed.

Lemma grow_sortable h : h ≠ n → as_sortable m' h = as_sortable m h.
Proof using. intros Hh. unfold as_sortable, work_of. rewrite lookup_insert_ne; congruence. Qed.

Lemma grow_ancestor x y : is_Some (m !! y) → ancestor P' x y ↔ ancestor P x y.
Proof using HG Hn.
  intros Hy. apply ancestor_old; [apply (gd_closed _ _ _ _ HG)|done|]. by apply (known_dag _ _ _ _ HG).
Qed.

Lemma grow_chain a b : sel_chain m a b → sel_chain m' a b.
Proof using HG Hn. apply sel_chain_mono, grow_sub. Qed.

(** Windows of known parents do not change. *)
Lemma grow_window qs sb : (∀ q, q ∈ qs → is_Some (P !! q)) → window_of P' m' g qs sb ↔ window_of P m g qs sb.
Proof using HG Hn.
  pose proof (gd_closed _ _ _ _ HG) as Hcl. intros Hqs. split; intros (x & -> & Hx & Hxg & q & Hq & Ha).
  - apply (ancestor_old P n ps Hcl Hn) in Ha; [|auto].
    assert (x ≠ n) as Hxn by (intros ->; destruct (ancestor_known P n q Hcl (Hqs q Hq) Ha); congruence).
    rewrite lookup_insert_ne in Hx by done. exists x. split; [by apply grow_sortable|]. split_and!; eauto.
  - exists x. split; [symmetry; by apply grow_sortable, grow_other|]. split_and!; [by apply known_grow|done|].
    exists q. split; [done|]. apply (ancestor_old P n ps Hcl Hn); [auto|done].
Qed.

Lemma grow_top len qs w : (∀ q, q ∈ qs → is_Some (P !! q)) → top len (window_of P m g qs) w → top len (window_of P' m' g qs) w.
Proof using HG Hn. intros Hqs. apply top_ext. intros sb. by rewrite grow_window. Qed.

Lemma grow_header_ok x : header_ok g P m x → header_ok g P' m' x.
Proof using HG Hn.
  intros [H1 H2 H3 H4]. split; [done|done| |].
  - intros level y Hy. by apply known_grow, (H3 level).
  - intros level a b Ha Hb Hab. apply (H4 level); [done|done|]. by apply grow_ancestor in Hab; [|apply (H3 level)].
Qed.

Lemma grow_root_ok depth h r : is_Some (m !! h) → root_ok m g depth h r → root_ok m' g depth h r.
Proof using HG Hn.
  intros Hh [->|(Hr & Hc & Hs)]; [by left|right]. split_and!; [by apply known_grow|by apply grow_chain|].
  rewrite !grow_score by done. done.
Qed.

(** The chain of the new block goes through its selected parent. *)
Lemma new_chain a : sel_chain m a (selected_parent d) → sel_chain m' a n.
Proof using HG Hn. intros Ha. econstructor; [apply lookup_insert_eq|]. by apply grow_chain. Qed.

Lemma new_score : score_of m' n = blue_score d.
Proof using. unfold score_of. by rewrite lookup_insert_eq. Qed.

Lemma selected_stored : is_Some (m !! selected_parent d).
Proof using HD. apply (gb_parents _ _ _ _ _ HD), (gb_selected _ _ _ _ _ HD). Qed.

Lemma new_root_ok {S U V} `{DepthStoreReader S} `{StoreLaws U} `{GhostdagStoreLaws V} (dm : BlockDepthManager S U V) depth pp r :
  dpm_genesis_hash dm = g → depth_result dm m d depth pp r → root_ok m' g depth n r.
Proof using HG Hn HD.
  intros Hg [[_ ->]|[(_ & _ & ->)|(_ & _ & Hk & [Hc Hs _] & _)]]; [right|by left|right].
  - rewrite Hg. split_and!; [|apply new_chain, (genesis_chain P m g k HG), selected_stored|by left].
    apply known_grow. rewrite (gd_genesis_data _ _ _ _ HG). eauto.
  - split_and!; [by apply known_grow|by apply new_chain|]. right. by rewrite new_score, grow_score.
Qed.

Lemma grow_stored p W h x : p_genesis_hash p = g → is_Some (m !! h) → stored_header p W P m h x → stored_header p W P' m' h x.
Proof using HG Hn.
  intros Hg Hh [H1 H2 H3 H4 H5 H6 H7]. split; [done| | |by rewrite grow_score| |done|done].
  - intros Hne. destruct (H2 Hne) as (qs & Hq & Hl). exists qs. split; [|done]. rewrite lookup_insert_ne; [done|].
    intros Heq. rewrite <- Heq in Hq. congruence.
  - rewrite Hg in *. by apply grow_header_ok.
  - intros Hne. destruct (H5 Hne) as (Hk & Hc & Hd). split_and!; [by apply known_grow|by apply grow_chain|].
    by rewrite !grow_score.
Qed.

Lemma new_valid_block : n ≠ Hashes.NONE → valid_block P n ps (selected_parent d) (unordered_mergeset_without_selected_parent d).
Proof using HG Hn HP HD.
  intros Hnone. destruct (gb_order _ _ _ _ _ HD) as [Hb Hr Hk Hdis]. split.
  - done.
  - done.
  - intros q Hq. apply (known_dag _ _ _ _ HG). by apply (pk_known _ _ _ HP).
  - apply (gb_selected _ _ _ _ _ HD).
  - unfold unordered_mergeset_without_selected_parent. apply NoDup_app. split_and!.
    + eapply (NoDup_fmap_1 (as_sortable m)), StronglySorted_irrefl_NoDup; [|exact Hb]. apply sb_lt_irrefl.
    + intros x Hx Hxr. by apply (Hdis x).
    + eapply (NoDup_fmap_1 (as_sortable m)), StronglySorted_irrefl_NoDup; [|exact Hr]. apply sb_lt_irrefl.
  - apply (gb_split _ _ _ _ _ HD).
  - intros x Hx. by apply (gb_merged _ _ _ _ _ HD).
Qed.
End grow.

(** ** The new header *)

Section stored.
Context (W : Z) (s : HeaderProcessor) (P : Dag) (HI : hp_inv W s P).
Local Abbreviation m := (hp_data s).
Local Abbreviation p := (hp_params s).
Local Abbreviation g := (p_genesis_hash p).
Local Abbreviation K := (p_ghostdag_k p).
Context (now : Z) (header : Header) (ps : list Hash) (HF : header_fits p W now header ps) (HP : parents_ok P m ps).
Context (d : GhostdagData) (HD : gd_block P m K ps d).
Context (Hn : P !! h_hash header = None) (HL : levels_agree s P header ps).
Local Abbreviation P' := (<[h_hash header := ps]> P).
Local Abbreviation m' := (<[h_hash header := d]> m).

(** The direct parents of a header with the prescribed levels are distinct. *)
Lemma direct_nodup : NoDup ps.
Proof using HF HL.
  destruct HL as (xs & ls & _ & Hspec & Hzero & Hall).
  destruct (Forall2_lookup_r _ _ _ _ _ Hall (hf_direct _ _ _ _ _ HF)) as (l & Hl & [Hlen Hin]).
  destruct (ls_level _ _ _ _ _ _ Hspec 0%nat l Hl) as [Hnd _].
  assert (l ⊆+ ps) as Hsub by (apply NoDup_submseteq; [done|]; intros y Hy; by apply (Hzero l Hl)).
  assert (l ≡ₚ ps) as <-; [|done]. apply submseteq_length_Permutation; [done|lia].
Qed.

Lemma level_member xs level y : (∀ x, x ∈ xs ↔ ∃ q, q ∈ ps ∧ headers_access (hp_headers_store s) !! q = Some x) →
  level_set g level xs y → is_Some (m !! y).
Proof using HI HP.
  intros Hxs (x & Hx & [[_ ->]|[_ Hy]]); apply Hxs in Hx as (q & Hq & Hx); pose proof (hi_header _ _ _ HI q x Hx) as Hsx.
  - rewrite (sh_hash _ _ _ _ _ _ Hsx). by apply (pk_known _ _ _ HP).
  - by eapply ho_known; [apply Hsx|].
Qed.

Lemma new_at_level level : ∃ S : Hash → Prop, (∀ y, S y → is_Some (m !! y)) ∧ antichain P S
  ∧ ∀ y, y ∈ at_level g header level → S y.
Proof using HI HF HP HL.
  clear HD d. destruct HL as (xs & ls & Hxs & Hspec & _ & Hall).
  assert (at_level g header level = default [g] (h_parents_by_level header !! level)) as ->.
  { unfold at_level. rewrite (hf_direct _ _ _ _ _ HF). pose proof (pk_nonempty _ _ _ HP). by destruct ps. }
  destruct (h_parents_by_level header !! level) as [got|] eqn:Hgot; cbn [default].
  - destruct (Forall2_lookup_r _ _ _ _ _ Hall Hgot) as (l & Hl & [_ Hin]).
    destruct (ls_level _ _ _ _ _ _ Hspec level l Hl) as [_ Hmax]. exists (maximal P (level_set g level xs)). split_and!.
    + intros y [Hy _]. by apply (level_member xs level).
    + intros a b [_ Ha] [Hb _] Hab. symmetry. by apply Ha.
    + intros y Hy. by apply Hmax, Hin.
  - exists (λ y, y = g). split_and!.
    + intros y ->. rewrite (gd_genesis_data _ _ _ _ (hi_dag _ _ _ HI)). eauto.
    + by intros a b -> ->.
    + by intros y ->%list_elem_of_singleton.
Qed.

Lemma new_header_ok level : 0 ≤ level → header_ok g P' m' (mkLevel header level).
Proof using HI HF HP HD Hn HL.
  intros H0. split; [cbn; rewrite (hf_direct _ _ _ _ _ HF); eauto|done|..]; intros lv.
  - destruct (new_at_level lv) as (S & Hk & _ & Hin). intros y Hy. by apply known_grow, Hk, Hin.
  - destruct (new_at_level lv) as (S & Hk & Hac & Hin). intros a b Ha Hb Hab. apply Hac; [by apply Hin|by apply Hin|].
    by apply (grow_ancestor P m g K (hi_dag _ _ _ HI) _ ps Hn) in Hab; [|apply Hk, Hin].
Qed.

Lemma new_stored level : 0 ≤ level → h_blue_score header = blue_score d →
  is_Some (m !! h_pruning_point header) → sel_chain m (h_pruning_point header) (selected_parent d) →
  (h_pruning_point header = g ∨ score_of m (h_pruning_point header) + p_pruning_depth p ≤ blue_score d) →
  stored_header p W P' m' (h_hash header) (mkLevel header level).
Proof using HI HF HP HD Hn HL.
  intros H0 Hs Hk Hc Hdeep. pose proof (hi_dag _ _ _ HI) as HG. split.
  - done.
  - intros _. exists ps. split; [apply lookup_insert_eq|apply (hf_direct _ _ _ _ _ HF)].
  - by apply new_header_ok.
  - by rewrite new_score.
  - intros _. split_and!; [by apply known_grow|by eapply new_chain|]. cbn [lv_header].
    rewrite new_score, (grow_score P m g K HG) by done. done.
  - apply (hf_bits _ _ _ _ _ HF).
  - apply (hf_time _ _ _ _ _ HF).
Qed.
End stored.
