(* ===== verification/HeaderRun.v ===== *)
(** * Processing of headers

    [commit_header] writes a validated header to every store, and the stores then hold
    the grown DAG.  [process_header] composes the stages, and
    [process_genesis_if_needed] sets up the first state. *)

From S2P Require Import Prelude Hash Interval Uint Target ReachStore Reachability ReachSim ReachTree ReachQuery ReachDag ReachMain ReachInsert ReachService Relations Headers GhostdagStore Ghostdag GhostdagInv GhostdagMerge GhostdagColor GhostdagRun Window WindowProof Difficulty DifficultyProof Stores Depth SelectedChain DepthProof Parents ParentsProof Errors HeaderProcessor HeaderInv HeaderValidate HeaderCommit.

(** ** Rules for the steps of the commit *)

Section steps.
Context {S A : Type}.

Lemma field_ok (view : HeaderProcessor → S) update (f : M S StoreError A) s a x Q :
  f (view s) = (Ok a, x) → Q a (update x s) → safe (on_field view update f) s Q.
Proof. intros Hf HQ. unfold safe, on_field. by rewrite Hf. Qed.

Lemma unwrap_ok (o : option A) a s (Q : A → HeaderProcessor → Prop) : o = Some a → Q a s →
  safe (E:=RuleError) (lift (unwrap_opt o)) s Q.
Proof. by intros ->. Qed.
End steps.

Lemma staging_ok (f : M Staging.StagingReachabilityStore ReachabilityError unit) st s (R : Staging.StagingReachabilityStore → Prop)
    (Q : Staging.StagingReachabilityStore → HeaderProcessor → Prop) :
  safe f st (λ _ st', R st') → (∀ st', R st' → Q st' s) → safe (run_staging f st) s Q.
Proof. unfold safe, run_staging. intros Hf HQ. destruct (f st) as [[] st']; cbn; auto. Qed.

Lemma cache_insert_lookup {A} size victim n (x : A) c h y : cache_insert size victim n x c !! h = Some y →
  (h = n ∧ y = x) ∨ c !! h = Some y.
Proof.
  unfold cache_insert. destruct (size =? 0)%nat; [by right|]. intros [[<- <-]|[_ Hy]]%lookup_insert_Some; [by left|right].
  destruct (_ =? _)%nat; [|done]. destruct (map_to_list c !! victim) as [[v ?]|]; [|done].
  by apply lookup_delete_Some in Hy as [_ ?].
Qed.

Lemma insert_new_ok {A} (h : Hash) (x : A) c : c !! h = None → insert_new h x c = (Ok tt, <[h := x]> c).
Proof. intros Hc. unfold insert_new. by rewrite Hc, bool_decide_eq_false_2 by (by intros [? ?]). Qed.

(** ** The run of the commit *)

(** What the commit of the block [n] with parents [ps] leaves in the stores. *)
Record committed (fuel wcs : nat) (rnd : nat * nat) (s s' : HeaderProcessor) (P : Dag) (t : tree) (n : Hash) (ps : list Hash)
    (d : GhostdagData) (header : Header) (level : Z) (nd : gset Hash) (w1 w2 : BlockWindowHeap) (root point : Hash) : Prop := {
  cm_params : hp_params s' = hp_params s;
  cm_pruning : hp_pruning_store s' = hp_pruning_store s;
  cm_past : hp_past_pruning_points_store s' = hp_past_pruning_points_store s;
  cm_gd : hp_ghostdag_store s' = DbGd.mk (<[n := d]> (DbGd.access (hp_ghostdag_store s)))
    (<[n := to_compact d]> (DbGd.compact_access (hp_ghostdag_store s)));
  cm_difficulty : hp_window_difficulty s' = cache_insert wcs rnd.1 n w1 (hp_window_difficulty s);
  cm_median : hp_window_median s' = cache_insert wcs rnd.2 n w2 (hp_window_median s);
  cm_daa : daa_access (hp_daa_store s') = <[n := nd]> (daa_access (hp_daa_store s));
  cm_headers_ok : headers_ok (hp_headers_store s');
  cm_headers : headers_access (hp_headers_store s') = <[n := mkLevel header level]> (headers_access (hp_headers_store s));
  cm_depth : depth_access (hp_depth_store s') = <[n := mkDepthInfo root point]> (depth_access (hp_depth_store s));
  cm_reach : dag_tree (abs (hp_reachability_store s')) (<[n := ps]> P) (graft (selected_parent d) n t);
  cm_tip prev : tip_access (hp_selected_tip_store s) = Some prev →
    tip_access (hp_selected_tip_store s')
    = Some (match sb_cmp (mkSortable n (h_blue_work header)) prev with Gt => mkSortable n (h_blue_work header) | _ => prev end);
  cm_parents : DbRel.parents_access (hp_relations_store s') = <[n := ps]> P;
  cm_relations : rel_inv (<[n := ps]> P) (DbRel.children_access (hp_relations_store s'));
  cm_status : statuses_access (hp_statuses_store s') = <[n := StatusHeaderOnly]> (statuses_access (hp_statuses_store s));
}.

(** What the commit of a header means for the other processors: the header is stored,
    the block is marked, and nothing else is said about known blocks. *)
Record grown (s s' : HeaderProcessor) (header : Header) : Prop := {
  gr_params : hp_params s' = hp_params s;
  gr_headers : ∃ level, headers_access (hp_headers_store s')
    = <[h_hash header := mkLevel header level]> (headers_access (hp_headers_store s));
  gr_status : statuses_access (hp_statuses_store s')
    = <[h_hash header := StatusHeaderOnly]> (statuses_access (hp_statuses_store s));
  gr_pruning : hp_pruning_store s' = hp_pruning_store s;
  gr_past : hp_past_pruning_points_store s' = hp_past_pruning_points_store s;
  gr_data : ∃ d, hp_data s' = <[h_hash header := d]> (hp_data s);
  gr_daa : ∃ nd, daa_access (hp_daa_store s') = <[h_hash header := nd]> (daa_access (hp_daa_store s));
}.

Lemma committed_grown fuel wcs rnd s s' P t n ps d header level nd w1 w2 root point : n = h_hash header →
  committed fuel wcs rnd s s' P t n ps d header level nd w1 w2 root point → grown s s' header.
Proof.
  intros -> [C1 C2 C3 C4 C5 C6 C7 C8 C9 C10 C11 C12 C13 C14 C15].
  split; [done|by exists level|done|done|done|exists d; unfold hp_data; by rewrite C4|by exists nd].
Qed.

(** The hint about a new tip. *)
Lemma tip_step_ok fuel P t st tip prev n s (Q : Staging.StagingReachabilityStore → HeaderProcessor → Prop) :
  dag_tree (abs st) P t → is_Some (P !! n) → (size P < fuel)%nat →
  (∀ st', dag_tree (abs st') P t →
     Q st' (match sb_cmp tip prev with Gt => set_selected_tip (mkTip (Some tip)) s | _ => s end)) →
  safe (match sb_cmp tip prev with
        | Gt =>
            staging ← run_staging (hint_virtual_selected_parent fuel n) st;
            on_field hp_selected_tip_store set_selected_tip (set_tip tip);;
            mret staging
        | _ => mret st
        end) s Q.
Proof.
  intros Hst Hn Hf HQ. destruct (sb_cmp tip prev); [by apply safe_ret, HQ..|]. apply safe_bind.
  eapply staging_ok; [by apply (stage_hint P t)|]. intros st' Hst'. apply safe_bind. eapply field_ok; [done|].
  apply safe_ret. by apply HQ.
Qed.

Section run.
Context (fuel wcs : nat) (rnd : nat * nat) (s : HeaderProcessor) (P : Dag) (t : tree).
Context (header : Header) (ctx : HeaderProcessingContext) (parents : list Hash) (d : GhostdagData).
Context (level : Z) (nd : gset Hash) (w1 w2 : BlockWindowHeap) (root point : Hash).
Local Abbreviation n := (h_hash header).
Local Abbreviation ps := (if bool_decide (parents = []) then [Hashes.ORIGIN] else parents).

(** The context is complete. *)
Record complete : Prop := {
  ct_hash : ctx_hash ctx = n;
  ct_header : ctx_header ctx = header;
  ct_data : ctx_ghostdag_data ctx = Some d;
  ct_difficulty : ctx_window_difficulty ctx = Some w1;
  ct_median : ctx_window_median ctx = Some w2;
  ct_daa : ctx_mergeset_non_daa ctx = Some nd;
  ct_root : ctx_merge_depth_root ctx = Some root;
  ct_point : ctx_finality_point ctx = Some point;
  ct_level : ctx_block_level ctx = Some level;
}.

(** The block is new to every store, and its parents are known to the relations and
    the reachability store. *)
Record ready : Prop := {
  rd_gd : DbGd.access (hp_ghostdag_store s) !! n = None;
  rd_daa : daa_access (hp_daa_store s) !! n = None;
  rd_headers_ok : headers_ok (hp_headers_store s);
  rd_headers : headers_access (hp_headers_store s) !! n = None;
  rd_depth : depth_access (hp_depth_store s) !! n = None;
  rd_reach : dag_tree (abs (hp_reachability_store s)) P t;
  rd_block : valid_block P n ps (selected_parent d) (unordered_mergeset_without_selected_parent d);
  rd_size : Z.of_nat (size P) < u64_max;
  rd_fuel : (S (size P) < fuel)%nat;
  rd_tip : is_Some (tip_access (hp_selected_tip_store s));
  rd_parents : DbRel.parents_access (hp_relations_store s) = P;
  rd_relations : rel_inv P (DbRel.children_access (hp_relations_store s));
  rd_nodup : NoDup ps;
  rd_direct : h_parents_by_level header !! 0%nat = Some parents;
}.

Lemma commit_runs : complete → ready →
  safe (commit_header fuel wcs rnd ctx header) s (λ _ s', committed fuel wcs rnd s s' P t n ps d header level nd w1 w2 root point).
Proof.
  intros [Ch Chd Cd C1 C2 Cn Cr Cp Cl] [Rg Rd Rho Rh Rde Rt Rv Rs Rf [prev Rtip] Rp Rr Rn Rdir].
  unfold commit_header. rewrite Ch, Chd, Cd, C1, C2, Cn, Cr, Cp, Cl.
  apply safe_bind. eapply unwrap_ok; [done|]. apply safe_bind.
  eapply field_ok; [unfold DbGd.insert_batch; by rewrite Rg, bool_decide_eq_false_2 by (by intros [? ?])|].
  apply safe_bind. eapply unwrap_ok; [done|]. apply safe_bind, safe_ret. apply safe_bind. eapply unwrap_ok; [done|]. apply safe_bind, safe_ret.
  apply safe_bind. eapply unwrap_ok; [done|]. apply safe_bind.
  eapply field_ok; [unfold insert_daa; cbn; by rewrite (insert_new_ok _ _ _ Rd)|].
  apply safe_bind. eapply unwrap_ok; [done|]. apply safe_bind.
  destruct (insert_header_ok n header level (hp_headers_store s) Rho Rh) as (hs & Hhs & Hhok & Hha).
  eapply field_ok; [cbn; exact Hhs|].
  apply safe_bind. eapply unwrap_ok; [done|]. apply safe_bind. eapply unwrap_ok; [done|]. apply safe_bind.
  eapply field_ok; [unfold insert_depth; cbn; by rewrite (insert_new_ok _ _ _ Rde)|].
  apply safe_bind, safe_ret. apply safe_bind. eapply staging_ok; [cbn; by apply (stage_block P t fuel)|]. intros st Hst.
  apply safe_bind, safe_lift; [cbn; by rewrite Rtip|]. intros prev' Hprev. cbn in Hprev. rewrite Rtip in Hprev. apply ok_inj in Hprev as <-.
  apply safe_bind. eapply (tip_step_ok fuel); [exact Hst|rewrite lookup_insert_eq; eauto|rewrite map_size_insert_None by apply Rv; lia|].
  intros st' Hst'. apply safe_bind, safe_lift; [unfold direct_parents; by rewrite Rdir|].
  intros x Hx. unfold direct_parents in Hx. rewrite Rdir in Hx. apply ok_inj in Hx as <-.
  destruct (relations_insert_ok P (DbRel.children_access (hp_relations_store s)) n ps Rr) as (C' & _ & Hrel & Hrinv & _);
    [apply Rv|done|apply Rv|].
  set (s1 := match sb_cmp _ prev with Gt => _ | _ => _ end).
  assert (hp_relations_store s1 = hp_relations_store s ∧ hp_statuses_store s1 = hp_statuses_store s) as [Hr1 Hs1].
  { subst s1. by destruct (sb_cmp _ prev). }
  apply safe_bind. eapply field_ok; [rewrite Hr1|].
  { destruct (hp_relations_store s) as [pa ch]. cbn in Rp, Hrel. rewrite Rp. exact Hrel. }
  apply safe_bind. eapply field_ok; [done|]. destruct (stage_commit st') as (db & Hdb & Habs). rewrite Hdb.
  apply safe_bind, safe_lift; [done|]. intros _ _. unfold safe, modify. cbn [set_relations set_statuses hp_statuses_store]. rewrite Hs1.
  assert (∀ prev0, tip_access (hp_selected_tip_store s) = Some prev0 → prev0 = prev) as Hprev by congruence.
  split; [..|done]; try (by subst s1; destruct (sb_cmp _ prev)).
  - cbn [set_reachability hp_reachability_store]. by rewrite Habs.
  - intros prev0 ->%Hprev. subst s1. by destruct (sb_cmp _ prev).
Qed.
End run.

(** ** The stores after the commit *)

Section commit.
Context (fuel : nat) (window_cache_size : nat) (rnd : nat * nat).
Context (W : Z) (s : HeaderProcessor) (P : Dag) (HI : hp_inv W s P).
Local Abbreviation m := (hp_data s).
Local Abbreviation p := (hp_params s).
Local Abbreviation g := (p_genesis_hash p).
Local Abbreviation K := (p_ghostdag_k p).
Local Abbreviation HG := (hi_dag _ _ _ HI).
Context (n : Hash) (ps : list Hash) (d : GhostdagData) (Hn : P !! n = None) (HP : parents_ok P m ps) (HD : gd_block P m K ps d).
Local Abbreviation P' := (<[n := ps]> P).
Local Abbreviation m' := (<[n := d]> m).

Lemma ps_known q : q ∈ ps → is_Some (P !! q).
Proof using HI HP. intros Hq. apply (known_dag _ _ _ _ HG). by apply (pk_known _ _ _ HP). Qed.

(** A map with an entry for every block, after the insertion of the new one. *)
Lemma grow_dom {A} (c : gmap Hash A) x : (∀ h, is_Some (c !! h) ↔ is_Some (m !! h)) →
  ∀ h, is_Some (<[n := x]> c !! h) ↔ is_Some (m' !! h).
Proof using. intros Hc h. by rewrite !lookup_insert_is_Some', Hc. Qed.

Lemma dom_fresh {A} (c : gmap Hash A) : (∀ h, is_Some (c !! h) ↔ is_Some (m !! h)) → c !! n = None.
Proof using HI Hn.
  intros Hc. apply eq_None_not_Some. rewrite Hc. rewrite (fresh_new P m g K HG n Hn). by intros [? ?].
Qed.

Lemma new_chain_ok (db : Db.DbReachabilityStore) t : dag_tree (abs (hp_reachability_store s)) P t →
  dag_tree (abs db) P' (graft (selected_parent d) n t) → chain_ok db P' m'.
Proof using HI Hn HP HD.
  intros Ht Ht'. split; [by eexists|]. intros h dt gd Hdt Hgd.
  destruct (graft_parents _ _ t (selected_parent d) n (di_rep _ _ _ Ht) (di_rep _ _ _ Ht')) as [Hnew Hold].
  { apply (di_dom _ _ _ Ht), ps_known, (gb_selected _ _ _ _ _ HD). }
  { intros Hin%(di_dom _ _ _ Ht). rewrite Hn in Hin. by destruct Hin. }
  apply lookup_insert_Some in Hgd as [[<- <-]|[Hne Hgd]]; [by apply Hnew|].
  destruct (data_known (hp_reachability_store s) P m (hi_reach _ _ _ HI) h) as [d0 Hd0].
  { apply (known_dag _ _ _ _ HG). eauto. }
  rewrite (Hold h d0 dt Hd0 Hdt). by apply (ck_parent _ _ _ (hi_reach _ _ _ HI) h).
Qed.

Lemma new_windows gds w1 w2 wd wm :
  gd_ok gds → DbGd.access gds = m' →
  top (p_difficulty_window_size p) (window_of P m g ps) w1 →
  top (Z.to_nat (2 * p_timestamp_deviation_tolerance p - 1)) (window_of P m g ps) w2 →
  (∀ h y, wd !! h = Some y → (h = n ∧ y = w1) ∨ hp_window_difficulty s !! h = Some y) →
  (∀ h y, wm !! h = Some y → (h = n ∧ y = w2) ∨ hp_window_median s !! h = Some y) →
  traversal_ok (mkTraversal g gds wd wm (p_difficulty_window_size p)
    (Z.to_nat (2 * p_timestamp_deviation_tolerance p - 1))) P' m' K.
Proof using HI Hn HP HD.
  intros Hgd Ha H1 H2 Hwd Hwm. pose proof (hi_windows _ _ _ HI) as HT.
  split; [done|done|by apply (gd_dag_extend P m g K HG n ps)|].
  assert (∀ len c w h heap qs, window_cache (hp_traversal_manager s) len = Some c → top len (window_of P m g ps) w →
    (h = n ∧ heap = w) ∨ c !! h = Some heap → (c !! h = Some heap → is_Some (m !! h)) → P' !! h = Some qs →
    top len (window_of P' m' g qs) heap) as Hgen.
  { intros len c w h heap qs Hc Hw Hcase Hkn Hqs. destruct Hcase as [[-> ->]|Hold].
    - rewrite lookup_insert_eq in Hqs. injection Hqs as <-. apply (grow_top P m g K HG n ps d Hn); [apply ps_known|done].
    - pose proof (Hkn Hold) as Hk. rewrite lookup_insert_ne in Hqs by (apply not_eq_sym, (grow_other P m g K HG n Hn h Hk)).
      apply (grow_top P m g K HG n ps d Hn); [intros q Hq; by apply (gd_closed _ _ _ _ HG h qs)|].
      by apply (tv_cache _ _ _ _ HT len c h). }
  intros len c h heap qs Hc Hget _ Hqs. unfold window_cache in Hc. cbn in Hc, Hget.
  destruct (Nat.eqb_spec len (p_difficulty_window_size p)) as [->|Hne].
  - injection Hc as <-. apply (Hgen _ (hp_window_difficulty s) w1 h); [|done|by apply Hwd| |done].
    + unfold window_cache. cbn. by rewrite Nat.eqb_refl.
    + intros Hy. apply (hi_cached _ _ _ HI). left. eauto.
  - destruct (Nat.eqb_spec len (Z.to_nat (2 * p_timestamp_deviation_tolerance p - 1))) as [->|]; [|done].
    injection Hc as <-. apply (Hgen _ (hp_window_median s) w2 h); [|done|by apply Hwm| |done].
    + unfold window_cache. cbn. rewrite Nat.eqb_refl. by destruct (Nat.eqb_spec (Z.to_nat (2 * p_timestamp_deviation_tolerance p - 1)) (p_difficulty_window_size p)).
    + intros Hy. apply (hi_cached _ _ _ HI). right. eauto.
Qed.

Lemma old_sortable h : is_Some (m !! h) → as_sortable m' h = as_sortable m h.
Proof using HI Hn. intros Hh. by apply (sortable_grow P m g K HG). Qed.

Lemma tip_kept prev : tip_of m (Some prev) → sb_cmp (as_sortable m' n) prev ≠ Gt → tip_of m' (Some prev).
Proof using HI Hn.
  intros (tip & Htip & Hk & Hmax) Hle. injection Htip as ->. exists tip. rewrite (old_sortable tip Hk).
  split_and!; [done|by apply known_grow|]. intros h [<-|Hh]%lookup_insert_is_Some'; [done|].
  rewrite old_sortable by done. by apply Hmax.
Qed.

Lemma tip_moved prev : tip_of m (Some prev) → sb_cmp (as_sortable m' n) prev = Gt → tip_of m' (Some (as_sortable m' n)).
Proof using HI Hn.
  intros (tip & Htip & Hk & Hmax) Hgt. injection Htip as ->. exists n. split_and!; [done|rewrite lookup_insert_eq; eauto|].
  intros h [<-|Hh]%lookup_insert_is_Some'; [apply sb_le_lteq; by right|]. rewrite old_sortable by done.
  transitivity (as_sortable m tip); [by apply Hmax|]. unfold sb_le. rewrite sb_cmp_antisym, Hgt. done.
Qed.

(** The invariant after the commit of a validated header. *)
Lemma committed_inv wcs s' t header level nd w1 w2 root point pp now :
  n = h_hash header → header_fits p W now header ps → levels_agree s P header ps →
  dag_tree (abs (hp_reachability_store s)) P t →
  committed fuel wcs rnd s s' P t n ps d header level nd w1 w2 root point →
  0 ≤ level → h_blue_score header = blue_score d → h_blue_work header = blue_work d →
  top (p_difficulty_window_size p) (window_of P m g ps) w1 →
  top (Z.to_nat (2 * p_timestamp_deviation_tolerance p - 1)) (window_of P m g ps) w2 →
  depth_result (hp_depth_manager s) m d (p_merge_depth p) pp root →
  depth_result (hp_depth_manager s) m d (p_finality_depth p) pp point →
  is_Some (m !! h_pruning_point header) ∧ sel_chain m (h_pruning_point header) (selected_parent d)
    ∧ (h_pruning_point header = g ∨ score_of m (h_pruning_point header) + p_pruning_depth p ≤ blue_score d) →
  hp_inv W s' P' ∧ hp_data s' = m'.
Proof using HI Hn HP HD.
  intros Hnh HF HL Ht [Cp _ _ Cg Cwd Cwm Cdaa Cho Ch Cde Cr Ctip Cpar Crel Cst] Hlv Hsc Hwk Hw1 Hw2 Hroot Hpoint (Hpp & Hpc & Hpd).
  assert (hp_data s' = m') as Hdata by (unfold hp_data; by rewrite Cg). split; [|done].
  assert (gd_ok (hp_ghostdag_store s')) as Hgd.
  { rewrite Cg. change (<[n := to_compact d]> (DbGd.compact_access (hp_ghostdag_store s)) = to_compact <$> m').
    rewrite fmap_insert. f_equal. apply (hi_gd _ _ _ HI). }
  assert (∀ h, h ≠ n → is_Some (m' !! h) → is_Some (m !! h)) as Hold.
  { intros h Hne Hh. by rewrite lookup_insert_ne in Hh. }
  split; rewrite ?Cp, ?Hdata.
  - apply HI.
  - by apply (new_chain_ok _ t).
  - done.
  - by apply (gd_dag_extend P m g K HG n ps).
  - done.
  - done.
  - done.
  - rewrite Ch. apply grow_dom, (hi_header_dom _ _ _ HI).
  - intros h x. rewrite Ch. intros [[<- <-]|[Hne Hx]]%lookup_insert_Some.
    + rewrite Hnh in *. by eapply new_stored.
    + apply (grow_stored P m g K HG n ps d Hn); [done|apply (hi_header_dom _ _ _ HI); eauto|by apply (hi_header _ _ _ HI)].
  - intros h Hh. rewrite Cst. destruct (decide (h = n)) as [->|Hne]; [by rewrite lookup_insert_eq|].
    rewrite lookup_insert_ne in Hh by done. rewrite lookup_insert_ne by done. by apply (hi_status _ _ _ HI).
  - intros h st. rewrite Cst. intros [[<- _]|[Hne Hst]]%lookup_insert_Some Hv; [rewrite lookup_insert_eq; eauto|].
    rewrite lookup_insert_ne by done. by apply (hi_valid _ _ _ HI h st).
  - unfold hp_traversal_manager. rewrite Cp. apply (new_windows _ w1 w2); [done|done|done|done|..]; intros h y Hy.
    + rewrite Cwd in Hy. by apply cache_insert_lookup in Hy.
    + rewrite Cwm in Hy. by apply cache_insert_lookup in Hy.
  - intros h Hc. rewrite Cwd, Cwm in Hc. destruct (decide (h = n)) as [->|Hne]; [rewrite lookup_insert_eq; eauto|].
    apply known_grow, (hi_cached _ _ _ HI).
    destruct Hc as [[y Hy]|[y Hy]]; apply cache_insert_lookup in Hy as [[? _]|Hy]; try done; [left|right]; eauto.
  - rewrite Cdaa. apply grow_dom, (hi_daa _ _ _ HI).
  - rewrite Cde. apply grow_dom, (hi_depth_dom _ _ _ HI).
  - intros h i. rewrite Cde. intros [[<- <-]|[Hne Hi]]%lookup_insert_Some.
    + split; by eapply (new_root_ok P m g K HG n ps d Hn HD (hp_depth_manager s)).
    + destruct (hi_depth _ _ _ HI h i Hi) as [H1 H2].
      assert (is_Some (m !! h)) as Hh by (apply (hi_depth_dom _ _ _ HI); eauto).
      split; by apply (grow_root_ok P m g K HG n d Hn).
  - assert (mkSortable n (h_blue_work header) = as_sortable m' n) as Hs.
    { unfold as_sortable, work_of. by rewrite lookup_insert_eq, Hwk. }
    destruct (hi_tip _ _ _ HI) as (tip & Htip & Htk). rewrite (Ctip _ Htip), Hs.
    assert (tip_of m (Some (as_sortable m tip))) as Hprev by (exists tip; by split).
    destruct (sb_cmp (as_sortable m' n) (as_sortable m tip)) eqn:Hc.
    + apply tip_kept; [done|by rewrite Hc].
    + apply tip_kept; [done|by rewrite Hc].
    + by eapply tip_moved.
Qed.
End commit.
