(* ===== verification/HeaderMain.v ===== *)
(** * The header processor, composed

    [process_header] on a state that satisfies the invariant: what it accepts meets all
    the rules, the stores then hold the DAG with the new block, and what it refuses
    changes nothing but, after the proof of work was checked, the status of the
    header. *)

From S2P Require Import Prelude Hash Uint Target Interval ReachStore Reachability ReachSim ReachTree ReachQuery ReachDag ReachInsert ReachMain ReachService Relations Headers GhostdagStore Ghostdag GhostdagInv GhostdagMerge GhostdagColor GhostdagRun Window WindowProof Difficulty DifficultyProof Stores Depth SelectedChain DepthProof Parents ParentsProof Errors HeaderProcessor HeaderInv HeaderValidate HeaderCommit HeaderRun.

(** The header meets every rule: version, time and parents in isolation, its parents are
    known and unrelated, [d] is its GHOSTDAG data, and the two validation stages
    established the rest. *)
Definition accepted (fuel : nat) (pow_hash : Header → Uint.Uint) (now : Z) (s : HeaderProcessor) (P : Dag) (header : Header)
    (ps : list Hash) (info : PruningPointInfo) (d : GhostdagData) (c : HeaderProcessingContext) : Prop :=
  isolated s now header ps ∧ parents_ok P (hp_data s) ps
  ∧ ghostdag_spec P (hp_data s) (p_ghostdag_k (hp_params s)) (work_at (hp_ghostdag_manager s)) ps d
  ∧ gd_block P (hp_data s) (p_ghostdag_k (hp_params s)) ps d
  ∧ ∃ c1 level nd w1 root point w2,
      pow_validated pow_hash s P header ps d
        (set_ghostdag_data d (set_non_pruned_parents ps (context_new (h_hash header) header info))) c1
        (pi_pruning_point info) level nd w1
      ∧ post_validated fuel s P header ps d info c1 c root point w2.

(** The stores with the status of one block changed. *)
Definition with_status (h : Hash) (st : BlockStatus) (s : HeaderProcessor) : HeaderProcessor :=
  set_statuses (mkStatuses (<[h := st]> (statuses_access (hp_statuses_store s)))) s.
Definition marked_invalid (h : Hash) (s : HeaderProcessor) : HeaderProcessor := with_status h StatusInvalid s.

(** The status of a known block may change, and any block may be marked as invalid. *)
Lemma status_inv W s P h st : hp_inv W s P → (st ≠ StatusInvalid → is_Some (hp_data s !! h)) → hp_inv W (with_status h st s) P.
Proof.
  intros [H1 H2 H3 H4 H5 H6 H7 H8 H9 H10 H10' H11 H12 H13 H14 H15 H16] Hk. split; try done.
  - intros x Hx. cbn. destruct (decide (x = h)) as [->|Hne]; [by rewrite lookup_insert_eq|].
    rewrite lookup_insert_ne by done. by apply H10.
  - intros x st'. cbn. intros [[<- <-]|[_ Hst]]%lookup_insert_Some Hv; [by apply Hk|]. by apply (H10' x st').
Qed.

(** ** What programs do not do *)

(** [m] leaves the field [f] of the state alone, also when it fails. *)
Definition keeps {S E A X} (f : S → X) (m : M S E A) : Prop := ∀ s, f (snd (m s)) = f s.

(** [m] returns no error; it may panic. *)
Definition unfailing {S E A} (m : M S E A) : Prop := ∀ s e, fst (m s) ≠ Err e.

Create HintDb programs discriminated.

Section programs.
Context {S E X : Type} (f : S → X).

Lemma keeps_ret {A} (a : A) : keeps (E:=E) f (mret a).
Proof. done. Qed.
Lemma keeps_fail {A} (e : E) : keeps (A:=A) f (fail e).
Proof. done. Qed.
Lemma keeps_lift {A} (o : outcome E A) : keeps f (lift o).
Proof. done. Qed.
Lemma keeps_get : keeps (E:=E) f get.
Proof. done. Qed.
Lemma keeps_modify h : (∀ s, f (h s) = f s) → keeps (E:=E) f (modify h).
Proof. done. Qed.
Lemma keeps_bind {A B} (m : M S E A) (k : A → M S E B) : keeps f m → (∀ a, keeps f (k a)) → keeps f (m ≫= k).
Proof.
  intros Hm Hk s. specialize (Hm s). unfold mbind, M_bind. destruct (m s) as [[a| | |] s1]; simpl in *; [|done..].
  by rewrite Hk.
Qed.

Lemma unfailing_ret {A} (a : A) : unfailing (S:=S) (E:=E) (mret a).
Proof. done. Qed.
Lemma unfailing_get : unfailing (S:=S) (E:=E) get.
Proof. done. Qed.
Lemma unfailing_modify h : unfailing (S:=S) (E:=E) (modify h).
Proof. done. Qed.
Lemma unfailing_unwrap {E' A} (o : outcome E' A) : unfailing (S:=S) (E:=E) (lift (unwrap o)).
Proof. intros s e. by destruct o. Qed.
Lemma unfailing_option {A} (o : option A) : unfailing (S:=S) (E:=E) (lift (unwrap_opt o)).
Proof. intros s e. by destruct o. Qed.
Lemma unfailing_bind {A B} (m : M S E A) (k : A → M S E B) : unfailing m → (∀ a, unfailing (k a)) → unfailing (m ≫= k).
Proof.
  intros Hm Hk s e. specialize (Hm s). unfold mbind, M_bind. destruct (m s) as [[a|e'| |] s1]; simpl in *; [apply Hk|by destruct (Hm e')|done..].
Qed.
End programs.

#[export] Hint Resolve keeps_ret keeps_fail keeps_lift keeps_get keeps_modify keeps_bind
  unfailing_ret unfailing_get unfailing_modify unfailing_unwrap unfailing_option unfailing_bind : programs.

Lemma unfailing_field {S A} (view : HeaderProcessor → S) update (f : M S StoreError A) : unfailing (on_field view update f).
Proof. intros s e. unfold on_field. destruct (f (view s)) as [[] ?]; done. Qed.
Lemma unfailing_staging f st : unfailing (run_staging f st).
Proof. unfold run_staging. destruct (f st). apply unfailing_unwrap. Qed.
#[export] Hint Resolve unfailing_field unfailing_staging : programs.

Lemma commit_unfailing fuel wcs rnd ctx header : unfailing (commit_header fuel wcs rnd ctx header).
Proof.
  unfold commit_header, direct_parents.
  repeat first [ apply unfailing_bind; [solve [auto with programs]|intros ?] | solve [auto with programs]
               | apply unfailing_bind; [case_match|intros ?] | case_match ].
Qed.

(** The stages do not change the hash of the context. *)
Lemma post_hash fuel s header : keeps ctx_hash (post_pow_validation fuel s header).
Proof.
  unfold post_pow_validation, check_blue_score, check_blue_work, check_median_timestamp, check_merge_size_limit,
    check_bounded_merge_depth, check_pruning_point, check_indirect_parents, the_ghostdag_data.
  repeat first [ solve [auto with programs] | apply keeps_modify; done | apply keeps_bind; [|intros ?] | case_match ].
Qed.

Section main.
Context (fuel : nat) (pow_hash : Header → Uint.Uint) (wcs : nat) (rnd : nat * nat) (now : Z).
Context (W : Z) (s : HeaderProcessor) (P : Dag) (header : Header) (ps : list Hash) (info : PruningPointInfo).
Local Abbreviation m := (hp_data s).
Local Abbreviation p := (hp_params s).
Local Abbreviation g := (p_genesis_hash p).
Local Abbreviation K := (p_ghostdag_k p).
Local Abbreviation n := (h_hash header).

(** What is assumed of the header, the node and the hash functions. *)
Record processable : Prop := {
  pr_header : header_fits p W now header ps;
  pr_state : state_fits W s P ps;
  pr_pow : Uint.wf 4 (pow_hash header);
  pr_hash : n ≠ Hashes.NONE ∧ n ≠ Hashes.ORIGIN;
  pr_info : pruning_access (hp_pruning_store s) = Some info;
  pr_points sp : sp ∈ ps → info_ok (hp_pruning_manager s) m sp info;
  pr_fuel : (length ps + S (size P) < fuel)%nat;
}.
Context (HI : hp_inv W s P) (HR : processable).

Lemma invalid_inv : statuses_access (hp_statuses_store s) !! n = None → hp_inv W (marked_invalid n s) P.
Proof using HI.
  intros Hn. by apply status_inv.
Qed.

Lemma new_block : statuses_access (hp_statuses_store s) !! n = None → P !! n = None.
Proof using HI HR.
  intros Hn. destruct (P !! n) as [qs|] eqn:Hq; [|done]. exfalso.
  destruct (hi_status _ _ _ HI n) as [st Hst]; [|congruence].
  apply (gd_dom _ _ _ _ (hi_dag _ _ _ HI)). split; [apply (pr_hash HR)|eauto].
Qed.

Lemma data_size : (size m ≤ size P)%nat.
Proof using HI.
  rewrite <- (size_dom (D:=gset Hash) m), <- (size_dom (D:=gset Hash) P). apply subseteq_size. intros h Hh.
  apply elem_of_dom. apply elem_of_dom in Hh. by apply (known_dag _ _ _ _ (hi_dag _ _ _ HI)).
Qed.

Lemma ghostdag_runs : parents_ok P m ps → ∃ d, ghostdag (E:=RuleError) fuel (hp_ghostdag_manager s) ps = Ok d
  ∧ ghostdag_spec P m K (work_at (hp_ghostdag_manager s)) ps d ∧ gd_block P m K ps d ∧ blue_score d ≤ u64_max.
Proof using HI HR.
  intros HP. pose proof data_size. pose proof (pr_fuel HR). pose proof (hi_params _ _ _ HI) as Hp.
  destruct (ghostdag_ok (E:=RuleError) fuel (hp_ghostdag_manager s) P m (inv_manager _ _ _ HI) (po_k _ _ Hp) W
    (inv_bits _ _ _ HI) (po_work _ _ Hp) ps) as (d & Hd & Hspec & Hb); [lia|done|apply (sf_room _ _ _ _ (pr_state HR))|].
  exists d. split_and!; [done..|]. destruct Hspec as [Hsel _ (dsp & hs & l0 & oms & Hdsp & _ & _ & _ & Hgr & Hsc & _)].
  destruct (greedy_shape _ _ _ _ _ _ _ (proj1 (po_k _ _ Hp)) Hgr) as (_ & _ & _ & _ & _ & Hlen).
  destruct (sf_room _ _ _ _ (pr_state HR) _ dsp Hsel Hdsp). lia.
Qed.

Lemma commit_validated d c : statuses_access (hp_statuses_store s) !! n = None →
  accepted fuel pow_hash now s P header ps info d c →
  safe (commit_header fuel wcs rnd c header) s (λ _ s', (hp_inv W s' (<[n := ps]> P) ∧ hp_data s' = <[n := d]> m) ∧ grown s s' header).
Proof using HI HR.
  intros Hst (_ & HP & Hspec & HD & c1 & level & nd & w1 & root & point & w2 & [Hc1 Hlv0 _ Hw1 _ _ _]
    & [Hc Hsc Hwk Hw2 _ _ Hroot Hpoint _ [_ Hpr] HL]).
  assert (0 ≤ level) as Hlv by lia.
  pose proof (new_block Hst) as Hn. pose proof (hi_dag _ _ _ HI) as HG. pose proof (pr_header HR) as HF.
  destruct (ck_state _ _ _ (hi_reach _ _ _ HI)) as [t Ht].
  assert (NoDup ps) as Hnd by by eapply direct_nodup.
  assert (bool_decide (ps = []) = false) as Hne by (apply bool_decide_eq_false; apply (pk_nonempty _ _ _ HP)).
  eapply safe_mono; [eapply (commit_runs fuel wcs rnd s P t header c ps d level nd w1 w2 root point)|].
  - subst c c1. by split.
  - pose proof (pr_fuel HR). split; rewrite ?Hne.
    + by eapply fresh_data.
    + eapply dom_fresh; [done|done|apply HI].
    + apply HI.
    + eapply dom_fresh; [done|done|apply HI].
    + eapply dom_fresh; [done|done|apply HI].
    + done.
    + eapply new_valid_block; [done..|apply (pr_hash HR)].
    + apply (sf_size _ _ _ _ (pr_state HR)).
    + lia.
    + destruct (hi_tip _ _ _ HI) as (tip & -> & _). eauto.
    + apply HI.
    + apply HI.
    + done.
    + apply (hf_direct _ _ _ _ _ HF).
  - intros [] s' Hcm. cbn beta in Hcm. rewrite Hne in Hcm.
    split; [|by eapply committed_grown]. by eapply (committed_inv fuel rnd W s P HI n ps d Hn HP HD wcs s' t).
Qed.

(** The outcome of the three stages, run as [process_header] runs them. *)
Lemma stages_ok : statuses_access (hp_statuses_store s) !! n = None →
  match pre_ghostdag_validation s now header (context_new n header info) with
  | (Ok _, c) =>
      c = set_non_pruned_parents ps (context_new n header info)
      ∧ ∃ d, ghostdag (E:=RuleError) fuel (hp_ghostdag_manager s) ps = Ok d ∧
        match pre_pow_validation fuel pow_hash s header (set_ghostdag_data d c) with
        | (Ok _, c1) =>
            match post_pow_validation fuel s header c1 with
            | (Ok _, c2) => accepted fuel pow_hash now s P header ps info d c2
            | (Err _, c2) => ctx_hash c2 = n
            | _ => False
            end
        | (Err _, _) => True
        | _ => False
        end
  | (Err _, _) => True
  | _ => False
  end.
Proof using HI HR.
  intros Hst. pose proof (pr_header HR) as HF. pose proof data_size. pose proof (pr_fuel HR).
  pose proof (pre_ghostdag_ok W s P HI now header ps HF Hst (context_new n header info) eq_refl eq_refl) as Hpre.
  unfold checks in Hpre. destruct (pre_ghostdag_validation _ _ _ _) as [[?|?| |] c]; try done. destruct Hpre as (-> & HP & His).
  split; [done|]. destruct (ghostdag_runs HP) as (d & Hd & Hspec & HD & Hds). exists d. split; [done|].
  set (c0 := set_ghostdag_data d _). assert (info_ok (hp_pruning_manager s) m (selected_parent d) info) as Hinfo.
  { apply (pr_points HR), (gb_selected _ _ _ _ _ HD). }
  pose proof (pre_pow_ok fuel pow_hash W s P HI now header ps HF Hst (pr_state HR) HP d HD ltac:(lia) c0 (pr_pow HR) eq_refl eq_refl
    (io_point _ _ _ _ Hinfo)) as Hpow.
  unfold checks in Hpow. destruct (pre_pow_validation _ _ _ _ _) as [[?|?| |] c1]; try done.
  destruct Hpow as (level & nd & w1 & Hpow). pose proof (pv_context _ _ _ _ _ _ _ _ _ _ _ _ Hpow) as Hc1.
  pose proof (post_pow_ok fuel W s P HI now header ps HF (pr_state HR) HP d HD ltac:(lia) info Hinfo Hds c1) as Hpost.
  assert (ctx_hash c1 = n) as Hh by by subst c1.
  pose proof (post_hash fuel s header c1) as Hhash. unfold keeps in Hhash. unfold checks in Hpost.
  destruct (post_pow_validation _ _ _ _) as [[?|?| |] c2]; try (by destruct Hpost; [subst c1|subst c1|apply Hpow]).
  - destruct Hpost as (root & point & w2 & Hpost); [by subst c1|by subst c1|apply Hpow|].
    split_and!; [done..|]. by exists c1, level, nd, w1, root, point, w2.
  - simpl in Hhash. congruence.
Qed.

Lemma process_ok :
  match process_header fuel pow_hash wcs rnd now header s with
  | (Ok st, s') =>
      (s' = s ∧ statuses_access (hp_statuses_store s) !! n = Some st ∧ st ≠ StatusInvalid)
      ∨ (st = StatusHeaderOnly ∧ statuses_access (hp_statuses_store s) !! n = None
         ∧ hp_inv W s' (<[n := ps]> P) ∧ grown s s' header
         ∧ ∃ d c, accepted fuel pow_hash now s P header ps info d c ∧ hp_data s' = <[n := d]> m)
  | (Err _, s') => (s' = s ∨ (s' = marked_invalid n s ∧ statuses_access (hp_statuses_store s) !! n = None)) ∧ hp_inv W s' P
  | (Panic, _) => ∃ d c, accepted fuel pow_hash now s P header ps info d c
  | (Fuel, _) => False
  end.
Proof using HI HR.
  unfold process_header, mbind, M_bind, get. cbn [get_status db_statuses_reader]. unfold lift. cbn. unfold read_access.
  destruct (statuses_access (hp_statuses_store s) !! n) as [st|] eqn:Hst; cbn.
  { destruct st; cbn; first [by split; [left|] | by left]. }
  unfold read_pruning. rewrite (pr_info HR). cbn. pose proof (stages_ok Hst) as Hst'. unfold run_ctx.
  destruct (pre_ghostdag_validation _ _ _ _) as [[?|?| |] c]; try done; [|by split; [left|]].
  destruct Hst' as (-> & d & Hd & Hrest). rewrite (direct_ps W s now header ps (pr_header HR)), Hd.
  destruct (pre_pow_validation _ _ _ _ _) as [[?|?| |] c1]; try done; [|by split; [left|]].
  destruct (post_pow_validation _ _ _ _) as [[?|?| |] c2]; try done.
  - pose proof (commit_validated d c2 Hst Hrest) as Hcm. unfold safe in Hcm.
    destruct (commit_header _ _ _ _ _ s) as [[?|r| |] s'] eqn:Hrun; try done.
    + destruct Hcm as [[Hinv Hdata] Hgr]. right. split_and!; [done..|]. by exists d, c2.
    + by destruct (commit_unfailing fuel wcs rnd c2 header s r); rewrite Hrun.
    + eauto.
  - unfold on_field. cbn. rewrite Hrest. split; [by right|]. by apply invalid_inv.
Qed.
End main.

(** ** The genesis

    On empty stores [process_genesis_if_needed] sets up the state from which headers
    are processed; on any later state it does nothing. *)

(** A node before its first start: the stores are empty and the reachability store has
    been initialised. *)
Record fresh_node (s : HeaderProcessor) : Prop := {
  fn_relations : hp_relations_store s = DbRel.new;
  fn_reach : inquirer_init (T:=Db.DbReachabilityStore) (Db.mk ∅ None) = (Ok tt, hp_reachability_store s);
  fn_gd : hp_ghostdag_store s = DbGd.mk ∅ ∅;
  fn_status : statuses_access (hp_statuses_store s) = ∅;
  fn_difficulty : hp_window_difficulty s = ∅;
  fn_median : hp_window_median s = ∅;
  fn_daa : daa_access (hp_daa_store s) = ∅;
  fn_headers : hp_headers_store s = mkHeaders ∅ ∅ ∅;
  fn_depth : depth_access (hp_depth_store s) = ∅;
}.

Section genesis.
Context (W : Z) (s s' : HeaderProcessor).
Local Abbreviation p := (hp_params s).
Local Abbreviation g := (p_genesis_hash p).
Local Abbreviation m' := ({[g := genesis_ghostdag_data]} : GdMap).
Context (Hp : params_ok p W) (Hbits : bits_good W (p_genesis_bits p)) (Htime : u64_ok (p_genesis_timestamp p)).
Context (Hg : g ≠ Hashes.ORIGIN).

Lemma genesis_known (Q : Hash → Prop) : Q g → ∀ h, is_Some (m' !! h) → Q h.
Proof using. intros HQ h Hh. apply lookup_singleton_is_Some in Hh. by subst h. Qed.

Lemma genesis_stored : stored_header p W (genesis_dag g) m' g (mkLevel (genesis_header p) (Z.of_nat (p_max_block_level p))).
Proof using Hbits Htime.
  split; [done|done| | |done|done|done].
  - split; [by eexists|apply Nat2Z.is_nonneg|by intros level y ?%elem_of_nil|by intros level a b ?%elem_of_nil].
  - unfold score_of. by rewrite lookup_singleton_eq.
Qed.

Lemma genesis_window_empty len : top len (window_of (genesis_dag g) m' g [Hashes.ORIGIN]) [].
Proof using Hg.
  apply (top_ext len (λ _, False)); [|apply top_empty]. intros sb. split; [done|].
  intros (x & _ & Hx & Hne & _). apply lookup_singleton_is_Some in Hx. by destruct Hne.
Qed.

Lemma genesis_inv fuel wcs rnd t nd :
  dag_tree (abs (hp_reachability_store s)) {[Hashes.ORIGIN := []]} t →
  DbGd.access (hp_ghostdag_store s) = ∅ → DbGd.compact_access (hp_ghostdag_store s) = ∅ →
  statuses_access (hp_statuses_store s) = ∅ → hp_window_difficulty s = ∅ → hp_window_median s = ∅ →
  daa_access (hp_daa_store s) = ∅ → headers_access (hp_headers_store s) = ∅ → depth_access (hp_depth_store s) = ∅ →
  tip_access (hp_selected_tip_store s) = Some (mkSortable g 0) →
  committed fuel wcs rnd s s' {[Hashes.ORIGIN := []]} t g [Hashes.ORIGIN] genesis_ghostdag_data (genesis_header p)
    (Z.of_nat (p_max_block_level p)) nd [] [] Hashes.ORIGIN Hashes.ORIGIN →
  hp_inv W s' (genesis_dag g).
Proof using Hp Hbits Htime Hg.
  intros Ht Egd Ecd Est Ewd Ewm Edaa Ehd Ede Etip [Cp _ _ Cg Cwd Cwm Cdaa Cho Ch Cde Cr Ctip Cpar Crel Cst].
  rewrite Egd, Ecd, !insert_empty in Cg. rewrite Est, insert_empty in Cst. rewrite Edaa, insert_empty in Cdaa.
  rewrite Ehd, insert_empty in Ch. rewrite Ede, insert_empty in Cde. rewrite Ewd in Cwd. rewrite Ewm in Cwm.
  assert (hp_data s' = m') as Hdata by (unfold hp_data; by rewrite Cg).
  pose proof (gd_dag_genesis g (p_ghostdag_k p) Hg) as HG.
  assert (gd_ok (hp_ghostdag_store s')) as Hgd.
  { rewrite Cg. change (({[g := to_compact genesis_ghostdag_data]} : gmap Hash _) = to_compact <$> m'). by rewrite map_fmap_singleton. }
  assert (∀ A (x : A) h, is_Some (({[g := x]} : gmap Hash A) !! h) ↔ is_Some (m' !! h)) as Hdom.
  { intros A x h. by rewrite !lookup_singleton_is_Some. }
  assert (∀ size victim h (y : BlockWindowHeap), cache_insert size victim g [] ∅ !! h = Some y → h = g ∧ y = []) as Hcache.
  { intros size victim h y [?|Hy]%cache_insert_lookup; [done|]. by rewrite lookup_empty in Hy. }
  split; rewrite ?Cp, ?Hdata.
  - done.
  - split; [by eexists|]. intros h dt gd Hdt [<- <-]%lookup_singleton_Some.
    destruct (graft_parents _ _ t Hashes.ORIGIN g (di_rep _ _ _ Ht) (di_rep _ _ _ Cr)) as [Hnew _].
    + apply (di_dom _ _ _ Ht). rewrite lookup_singleton_eq. eauto.
    + intros Hin%(di_dom _ _ _ Ht). apply lookup_singleton_is_Some in Hin. by destruct Hg.
    + by apply Hnew.
  - done.
  - done.
  - done.
  - done.
  - done.
  - rewrite Ch. apply Hdom.
  - intros h x. rewrite Ch. intros [<- <-]%lookup_singleton_Some. apply genesis_stored.
  - intros h. rewrite Cst. apply Hdom.
  - intros h st. rewrite Cst. intros [<- _]%lookup_singleton_Some _. by apply (Hdom _ StatusHeaderOnly), lookup_singleton_is_Some.
  - unfold hp_traversal_manager. rewrite Cp. split; [done|done|done|].
    intros len c h heap qs Hc Hget _ Hqs. assert (h = g ∧ heap = []) as [-> ->].
    { unfold window_cache in Hc. cbn in Hc, Hget. rewrite Cwd, Cwm in Hc.
      repeat case_match; simplify_eq; by apply Hcache in Hget. }
    unfold genesis_dag in Hqs. rewrite lookup_insert_eq in Hqs. apply (inj Some) in Hqs as <-. apply genesis_window_empty.
  - intros h [[y Hy]|[y Hy]]; [rewrite Cwd in Hy|rewrite Cwm in Hy]; apply Hcache in Hy as [-> _]; rewrite lookup_singleton_eq; eauto.
  - rewrite Cdaa. apply Hdom.
  - rewrite Cde. apply Hdom.
  - intros h i. rewrite Cde. intros [_ <-]%lookup_singleton_Some. by split; left.
  - rewrite (Ctip _ Etip). exists g. split_and!.
    + unfold as_sortable, work_of. rewrite lookup_singleton_eq. by destruct (sb_cmp _ _).
    + rewrite lookup_singleton_eq. eauto.
    + refine (genesis_known _ _). apply sb_le_lteq. by right.
Qed.
End genesis.

(** ** The run *)

Lemma fresh_tree db : inquirer_init (T:=Db.DbReachabilityStore) (Db.mk ∅ None) = (Ok tt, db) →
  dag_tree (abs db) {[Hashes.ORIGIN := []]} (Node Hashes.ORIGIN []).
Proof.
  intros Hrun. apply init_dag_tree. apply (abs_run _ (inquirer_init (T:=Mem))) in Hrun; [exact Hrun|].
  apply sim_bind; [apply sim_lift|]. intros i. apply sim_init_with_params.
Qed.

Lemma origin_relations : rel_inv {[Hashes.ORIGIN := []]} {[Hashes.ORIGIN := []]}.
Proof.
  split.
  - done.
  - intros y ps q [<- <-]%lookup_singleton_Some Hq. by apply elem_of_nil in Hq.
  - intros q l c [<- <-]%lookup_singleton_Some. split; [by intros ?%elem_of_nil|].
    intros (ps & [_ <-]%lookup_singleton_Some & Hin). by apply elem_of_nil in Hin.
  - intros q l [_ <-]%lookup_singleton_Some. constructor.
  - intros q l [_ <-]%lookup_singleton_Some. constructor.
Qed.

Lemma genesis_valid g : g ≠ Hashes.ORIGIN → g ≠ Hashes.NONE →
  valid_block {[Hashes.ORIGIN := []]} g [Hashes.ORIGIN] Hashes.ORIGIN [].
Proof.
  intros Ho Hn. split.
  - rewrite lookup_singleton_ne; done.
  - done.
  - intros q ->%list_elem_of_singleton. rewrite lookup_singleton_eq. eauto.
  - by left.
  - constructor.
  - intros x q ->%list_elem_of_singleton. by left.
  - by intros x ?%elem_of_nil.
Qed.

Lemma process_genesis_ok fuel wcs rnd W s :
  fresh_node s → params_ok (hp_params s) W → bits_good W (p_genesis_bits (hp_params s)) →
  u64_ok (p_genesis_timestamp (hp_params s)) → p_genesis_hash (hp_params s) ≠ Hashes.ORIGIN →
  p_genesis_hash (hp_params s) ≠ Hashes.NONE → (2 < fuel)%nat →
  safe (process_genesis_if_needed fuel wcs rnd) s (λ _ s', hp_inv W s' (genesis_dag (p_genesis_hash (hp_params s)))
    ∧ pruning_access (hp_pruning_store s') = Some (pruning_from_genesis (p_genesis_hash (hp_params s)))
    ∧ hp_past_pruning_points_store s' = hp_past_pruning_points_store s ∧ hp_params s' = hp_params s
    ∧ statuses_access (hp_statuses_store s') = {[p_genesis_hash (hp_params s) := StatusHeaderOnly]}).
Proof.
  intros [Er Eq Eg Es Ed Em Eda Eh Ede] Hp Hb Ht Ho Hn Hf. set (g := p_genesis_hash (hp_params s)).
  unfold process_genesis_if_needed. apply safe_bind, safe_ret. apply safe_bind, safe_lift; [done|]. intros processed.
  cbn [has_status db_statuses_reader unwrap]. rewrite Es, lookup_empty, bool_decide_eq_false_2 by (by intros [? ?]). intros <-%ok_inj.
  apply safe_bind, safe_ret. apply safe_bind. eapply field_ok; [done|]. apply safe_bind. eapply field_ok; [done|].
  rewrite Er. set (s1 := set_pruning_info _ _).
  assert (hp_relations_store s1 = DbRel.mk {[Hashes.ORIGIN := []]} {[Hashes.ORIGIN := []]}) as Er1.
  { subst s1. cbn [set_pruning_info set_selected_tip set_relations hp_relations_store].
    unfold DbRel.insert_, DbRel.has_, DbRel.new. cbn [DbRel.parents_access DbRel.children_access].
    rewrite lookup_empty, bool_decide_eq_false_2 by (by intros [? ?]). cbn [mret outcome_ret push_child_all]. by rewrite !insert_empty. }
  pose proof (fresh_tree _ Eq) as Htree.
  eapply safe_mono; [eapply (commit_runs fuel wcs rnd s1 {[Hashes.ORIGIN := []]} (Node Hashes.ORIGIN [])
    (genesis_header (hp_params s)) (genesis_context (hp_params s)) [] genesis_ghostdag_data
    (Z.of_nat (p_max_block_level (hp_params s))) ∅ [] [] Hashes.ORIGIN Hashes.ORIGIN)|].
  - by split.
  - assert (bool_decide (([] : list Hash) = []) = true) as Hnil by by apply bool_decide_eq_true_2.
    split; rewrite ?Hnil, ?Er1; subst s1; cbn [set_pruning_info set_selected_tip set_relations hp_ghostdag_store hp_daa_store
      hp_headers_store hp_depth_store hp_reachability_store hp_selected_tip_store]; rewrite ?Eg, ?Eda, ?Eh, ?Ede.
    + apply lookup_empty.
    + apply lookup_empty.
    + by split.
    + apply lookup_empty.
    + apply lookup_empty.
    + exact Htree.
    + by apply genesis_valid.
    + rewrite map_size_singleton. done.
    + rewrite map_size_singleton. lia.
    + by eexists.
    + done.
    + apply origin_relations.
    + apply NoDup_singleton.
    + done.
  - intros [] s' Hcm. cbn beta in Hcm. rewrite bool_decide_eq_true_2 in Hcm by done. split_and!.
    + eapply (genesis_inv W s1 s'); [done|done|done|done|exact Htree|..|exact Hcm]; subst s1; cbn; rewrite ?Eg, ?Eh; done.
    + rewrite (cm_pruning _ _ _ _ _ _ _ _ _ _ _ _ _ _ _ _ _ Hcm). done.
    + rewrite (cm_past _ _ _ _ _ _ _ _ _ _ _ _ _ _ _ _ _ Hcm). done.
    + rewrite (cm_params _ _ _ _ _ _ _ _ _ _ _ _ _ _ _ _ _ Hcm). done.
    + rewrite (cm_status _ _ _ _ _ _ _ _ _ _ _ _ _ _ _ _ _ Hcm). subst s1. cbn. by rewrite Es, insert_empty.
Qed.

Lemma process_genesis_again fuel wcs rnd s : is_Some (statuses_access (hp_statuses_store s) !! p_genesis_hash (hp_params s)) →
  process_genesis_if_needed fuel wcs rnd s = (Ok tt, s).
Proof.
  intros Hg. unfold process_genesis_if_needed, mbind, M_bind, get, lift. cbn [has_status db_statuses_reader unwrap].
  by rewrite bool_decide_eq_true_2.
Qed.
