(* ===== verification/HeaderTheorems.v ===== *)
(** * Properties of the header processor

    The theorems on [process_genesis_if_needed] and [process_header], with a run on the
    parameters of the main network. *)

From S2P Require Import Prelude Hash Interval Uint Target ReachStore Reachability ReachSim ReachTree ReachQuery ReachDag ReachMain ReachService Relations Headers GhostdagStore Ghostdag GhostdagInv GhostdagMerge GhostdagColor GhostdagRun Window WindowProof Difficulty DifficultyProof Stores Depth SelectedChain DepthProof Parents ParentsProof Errors HeaderProcessor HeaderInv HeaderValidate HeaderCommit HeaderRun HeaderMain.

(** ** Properties *)


(** What C1 assumes of headers is needed: a header without a level, and one whose bits
    claim an exponent out of range, make the code panic. *)
Lemma no_level_panics fuel pow_hash wcs rnd now s header info :
  statuses_access (hp_statuses_store s) !! h_hash header = None → h_hash header ≠ p_genesis_hash (hp_params s) →
  pruning_access (hp_pruning_store s) = Some info → h_parents_by_level header = [] →
  h_version header = BLOCK_VERSION → 0 ≤ now →
  0 ≤ p_timestamp_deviation_tolerance (hp_params s) * p_target_time_per_block (hp_params s) →
  h_timestamp header ≤ now + p_timestamp_deviation_tolerance (hp_params s) * p_target_time_per_block (hp_params s) →
  now + p_timestamp_deviation_tolerance (hp_params s) * p_target_time_per_block (hp_params s) ≤ u64_max →
  process_header fuel pow_hash wcs rnd now header s = (Panic, s).
Proof.
  intros Hst Hg Hpr Hl Hv Hn Ht0 Ht Hmax. unfold process_header, mbind, M_bind, get, lift. cbn [get_status db_statuses_reader].
  unfold read_access. rewrite Hst. cbn [unwrap_store_option]. unfold read_pruning. cbn. unfold read_pruning. rewrite Hpr. cbn [unwrap].
  unfold run_ctx, pre_ghostdag_validation, validate_header_in_isolation, check_header_version, check_block_timestamp_in_isolation,
    check_parents_limit, direct_parents, mbind, M_bind, lift.
  rewrite bool_decide_eq_false_2 by done. rewrite (proj2 (Z.eqb_eq _ _) Hv). cbn [negb mret M_ret].
  rewrite mul64_ok by lia. rewrite add64_ok by lia. rewrite (proj2 (Z.ltb_ge _ _) Ht), Hl. done.
Qed.

Lemma exponent_panics pow_hash s header c : from_compact_target_bits (E:=RuleError) (h_bits header) = Panic →
  check_pow_and_calc_block_level pow_hash s header c = (Panic, c).
Proof. intros Hb. unfold check_pow_and_calc_block_level, check_pow. by rewrite Hb. Qed.
Lemma exponent_35_panics : from_compact_target_bits (E:=RuleError) (35 * 2 ^ 24 + 1) = Panic.
Proof. by vm_compute. Qed.

(** On a node that never ran, [process_genesis_if_needed] ends, and when it
    succeeds the stores satisfy [hp_inv] for the DAG of the genesis, with the genesis
    as pruning point; on a node that has the genesis it changes nothing. *)
Theorem process_genesis_correct (fuel wcs : nat) (rnd : nat * nat) (W : Z) (s : HeaderProcessor) :
  fresh_node s → params_ok (hp_params s) W → bits_good W (p_genesis_bits (hp_params s)) →
  u64_ok (p_genesis_timestamp (hp_params s)) → p_genesis_hash (hp_params s) ≠ Hashes.ORIGIN →
  p_genesis_hash (hp_params s) ≠ Hashes.NONE → (2 < fuel)%nat →
  fst (process_genesis_if_needed fuel wcs rnd s) ≠ Fuel
  ∧ ∀ s', process_genesis_if_needed fuel wcs rnd s = (Ok tt, s') →
    hp_inv W s' (genesis_dag (p_genesis_hash (hp_params s)))
    ∧ pruning_access (hp_pruning_store s') = Some (pruning_from_genesis (p_genesis_hash (hp_params s)))
    ∧ process_genesis_if_needed fuel wcs rnd s' = (Ok tt, s').
Proof.
  intros Hs Hp Hb Ht Ho Hn Hf. pose proof (process_genesis_ok fuel wcs rnd W s Hs Hp Hb Ht Ho Hn Hf) as Hrun.
  split; [by eapply safe_no_fuel|]. intros s' Hs'. destruct (safe_elim _ _ _ _ _ Hrun Hs') as (HI & Hpr & _ & Hpa & _).
  split_and!; [done|done|]. apply process_genesis_again. rewrite Hpa.
  apply (hi_status _ _ _ HI).
  apply (gd_dom _ _ _ _ (hi_dag _ _ _ HI)). split; [done|]. unfold genesis_dag. rewrite lookup_insert_eq. eauto.
Qed.

(** ** The first blocks of the main network *)

Definition ex_fresh : HeaderProcessor :=
  mkProcessor MAINNET_PARAMS DbRel.new (snd (inquirer_init (T:=Db.DbReachabilityStore) (Db.mk ∅ None))) (DbGd.mk ∅ ∅)
    (mkStatuses ∅) (mkPruning None) ∅ ∅ (mkDaa ∅) (mkHeaders ∅ ∅ ∅) (mkTip None) (mkDepth ∅)
    (mkPastPruning {[0 := MAINNET_GENESIS_HASH]}).
Definition ex_victims : nat * nat := (0%nat, 0%nat).
Definition ex_node : HeaderProcessor := snd (process_genesis_if_needed 16 2 ex_victims ex_fresh).
(** A proof-of-work hash that meets every target. *)
Definition ex_pow (h : Header) : Uint.Uint := [1; 0; 0; 0].
Definition ex_work : Z := Eval vm_compute in 2 ^ 256 / (target_of (p_genesis_bits MAINNET_PARAMS) + 1).
Definition ex_now : Z := 1637609700000.
Definition ex_header_over (root : Hash) : Header :=
  mkHeader 2%N BLOCK_VERSION [[MAINNET_GENESIS_HASH]] root 0%N 0%N 1637609672037 486722099 0 0 ex_work 1 MAINNET_GENESIS_HASH.
Definition ex_next_header : Header := ex_header_over 0%N.

Lemma ex_genesis_run : process_genesis_if_needed 16 2 ex_victims ex_fresh = (Ok tt, ex_node).
Proof.
  unfold ex_node. destruct (process_genesis_if_needed 16 2 ex_victims ex_fresh) as [o s] eqn:Hrun.
  assert (fst (process_genesis_if_needed 16 2 ex_victims ex_fresh) = Ok tt) as Ho by by vm_compute.
  rewrite Hrun in Ho. simpl in Ho. by rewrite Ho.
Qed.

Lemma ex_params_ok : params_ok MAINNET_PARAMS ex_work.
Proof. split; unfold ex_work, u64_max; cbn; lia. Qed.

Lemma ex_bits_good : bits_good ex_work (p_genesis_bits MAINNET_PARAMS).
Proof. split_and!; [done|done|by apply Z.leb_le|]. apply Z.leb_le. by vm_compute. Qed.

Lemma ex_fresh_node : fresh_node ex_fresh.
Proof. by split. Qed.

Lemma special_ne (a b : Hash) : bool_decide (a = b) = false → a ≠ b.
Proof. apply bool_decide_eq_false_1. Qed.

Lemma process_genesis_correct_witness :
  fst (process_genesis_if_needed 16 2 ex_victims ex_fresh) ≠ Fuel
  ∧ ∀ s', process_genesis_if_needed 16 2 ex_victims ex_fresh = (Ok tt, s') →
    hp_inv ex_work s' (genesis_dag MAINNET_GENESIS_HASH)
    ∧ pruning_access (hp_pruning_store s') = Some (pruning_from_genesis MAINNET_GENESIS_HASH)
    ∧ process_genesis_if_needed 16 2 ex_victims s' = (Ok tt, s').
Proof.
  apply (process_genesis_correct 16 2 ex_victims ex_work ex_fresh); [exact ex_fresh_node|exact ex_params_ok|exact ex_bits_good|..].
  - split; by apply Z.leb_le.
  - apply special_ne. by vm_compute.
  - apply special_ne. by vm_compute.
  - by apply Nat.ltb_lt.
Defined.

Lemma ex_node_inv : hp_inv ex_work ex_node (genesis_dag MAINNET_GENESIS_HASH)
  ∧ pruning_access (hp_pruning_store ex_node) = Some (pruning_from_genesis MAINNET_GENESIS_HASH)
  ∧ hp_past_pruning_points_store ex_node = mkPastPruning {[0 := MAINNET_GENESIS_HASH]} ∧ hp_params ex_node = MAINNET_PARAMS
  ∧ statuses_access (hp_statuses_store ex_node) = {[MAINNET_GENESIS_HASH := StatusHeaderOnly]}.
Proof.
  assert (hp_params ex_fresh = MAINNET_PARAMS) as Hp by done.
  assert (p_genesis_hash MAINNET_PARAMS = MAINNET_GENESIS_HASH) as Hg by done.
  pose proof (process_genesis_ok 16 2 ex_victims ex_work ex_fresh ex_fresh_node) as Hsafe. rewrite Hp, Hg in Hsafe.
  refine (safe_elim _ _ _ _ _ (Hsafe ex_params_ok ex_bits_good _ _ _ _) ex_genesis_run).
  - split; by apply Z.leb_le.
  - apply special_ne. by vm_compute.
  - apply special_ne. by vm_compute.
  - by apply Nat.ltb_lt.
Qed.

(** The data of a DAG with the genesis only. *)
Lemma genesis_only_data (m : GdMap) g k : gd_dag (genesis_dag g) m g k → m = {[g := genesis_ghostdag_data]}.
Proof.
  intros HG. apply map_eq. intros h. destruct (decide (h = g)) as [->|Hne].
  - by rewrite (gd_genesis_data _ _ _ _ HG), lookup_singleton_eq.
  - rewrite lookup_singleton_ne by done. apply eq_None_not_Some. intros [Ho Hh]%(gd_dom _ _ _ _ HG).
    unfold genesis_dag in Hh. apply lookup_insert_is_Some' in Hh as [?|Hh]; [done|]. apply lookup_singleton_is_Some in Hh. done.
Qed.

Lemma ex_node_data : hp_data ex_node = {[MAINNET_GENESIS_HASH := genesis_ghostdag_data]}.
Proof.
  destruct ex_node_inv as (HI & _ & _ & Hp & _). eapply genesis_only_data. pose proof (hi_dag _ _ _ HI) as HG. rewrite Hp in HG. exact HG.
Qed.

Lemma ex_only (Q : Hash → Prop) : Q MAINNET_GENESIS_HASH → ∀ h, is_Some (hp_data ex_node !! h) → Q h.
Proof. rewrite ex_node_data. intros HQ h Hh. apply lookup_singleton_is_Some in Hh. by rewrite <- Hh. Qed.

Lemma ex_score : score_of (hp_data ex_node) MAINNET_GENESIS_HASH = 0.
Proof. rewrite ex_node_data. unfold score_of. by rewrite lookup_singleton_eq. Qed.

Lemma ex_header_fits root : header_fits MAINNET_PARAMS ex_work ex_now (ex_header_over root) [MAINNET_GENESIS_HASH].
Proof. split; [done|split; by apply Z.leb_le|exact ex_bits_good|split; by apply Z.leb_le]. Qed.

Lemma ex_state_fits : state_fits ex_work ex_node (genesis_dag MAINNET_GENESIS_HASH) [MAINNET_GENESIS_HASH].
Proof.
  pose proof ex_node_inv as (HI & _ & _ & Hp & _). split.
  - rewrite ex_node_data. intros q d ->%list_elem_of_singleton Hd. rewrite lookup_singleton_eq in Hd. apply (inj Some) in Hd as <-.
    rewrite Hp. cbn [blue_score blue_work genesis_ghostdag_data p_ghostdag_k MAINNET_PARAMS]. unfold ex_work, u64_max. lia.
  - refine (ex_only _ _). rewrite ex_score, Hp. by apply Z.leb_le.
  - by apply Z.ltb_lt; vm_compute.
  - intros h x Hx. assert (is_Some (hp_data ex_node !! h)) as Hh by (apply (hi_header_dom _ _ _ HI); eauto).
    rewrite ex_node_data in Hh |- *. apply lookup_singleton_is_Some in Hh. subst h. rewrite map_size_singleton.
    assert (headers_access (hp_headers_store ex_node) !! MAINNET_GENESIS_HASH
      = Some (mkLevel (genesis_header MAINNET_PARAMS) 225)) as Hgx by by vm_compute.
    rewrite Hgx in Hx. apply (inj Some) in Hx as <-. split; by apply Z.leb_le.
  - intros w Hw. assert (w = []) as ->; [|by apply Z.ltb_lt].
    destruct w as [|b w]; [done|]. exfalso. destruct (top_in _ _ _ Hw b) as (x & _ & Hx & Hne & _); [left|].
    apply Hne. rewrite Hp. by apply (ex_only (λ x, x = MAINNET_GENESIS_HASH)).
Qed.

Lemma ex_points : info_ok (hp_pruning_manager ex_node) (hp_data ex_node) MAINNET_GENESIS_HASH (pruning_from_genesis MAINNET_GENESIS_HASH).
Proof.
  pose proof ex_node_inv as (HI & _ & Hpast & Hp & _).
  assert (is_Some (hp_data ex_node !! MAINNET_GENESIS_HASH)) as Hg by (rewrite ex_node_data, lookup_singleton_eq; eauto).
  split; [done|done|done|done|]. intros i Hi. assert (i = 0) as -> by (cbn in Hi; lia). exists MAINNET_GENESIS_HASH.
  split_and!; [|done|constructor]. unfold hp_pruning_manager. rewrite Hpast. by vm_compute.
Qed.

Lemma ex_processable root :
  processable 16 ex_pow ex_now ex_work ex_node (genesis_dag MAINNET_GENESIS_HASH) (ex_header_over root)
  [MAINNET_GENESIS_HASH] (pruning_from_genesis MAINNET_GENESIS_HASH).
Proof.
  pose proof ex_node_inv as (HI & Hpr & _ & Hp & _). split.
  - rewrite Hp. apply ex_header_fits.
  - exact ex_state_fits.
  - split; [done|]. repeat constructor; done.
  - split; apply special_ne; by vm_compute.
  - exact Hpr.
  - intros sp ->%list_elem_of_singleton. exact ex_points.
  - apply Nat.ltb_lt. by vm_compute.
Qed.


(** ** Repeated parents at higher levels *)

(** [check_indirect_parents] compares the number of parents at a level and tests
    that each one is expected, so a header that lists one expected parent twice in
    place of another passes: the parents of the levels above 0 are not determined by
    the past of the block.  (At level 0 the comparison is with the header's own direct
    parents, and a repetition is refused.) *)
Theorem indirect_parents_repetition (s : HeaderProcessor) (c : HeaderProcessingContext) (header : Header)
    (parents : list Hash) (a b : Hash) :
  calc_block_parents (E:=RuleError) (hp_parents_manager s) (ctx_pruning_point c) parents = Ok [parents; [a; b]] →
  h_parents_by_level header = [parents; [a; a]] →
  check_indirect_parents s header c = (Ok tt, c).
Proof.
  intros Hexp Hh. unfold check_indirect_parents, direct_parents. rewrite Hh.
  unfold mbind, M_bind, lift, get. cbn [lookup list_lookup unwrap_opt]. rewrite Hexp.
  assert (level_matches parents parents = true) as Hp.
  { unfold level_matches. rewrite Nat.eqb_refl. apply forallb_forall. intros x Hx. apply bool_decide_eq_true. by apply list_elem_of_In. }
  assert (level_matches [a; b] [a; a] = true) as Ha.
  { unfold level_matches. cbn. rewrite bool_decide_eq_true_2; [done|left]. }
  cbn [length zip zip_with forallb]. by rewrite Hp, Ha.
Qed.

(** Blocks 2 and 3 over the genesis, of level 1, and block 4 over both, of level 0. *)
Definition ex_level_pow (h : Header) : Uint.Uint :=
  if bool_decide (h_hash h = 4%N) then [0; 0; 0; 2 ^ 60] else [0; 0; 0; 2 ^ 31].
Definition ex_mined (s : HeaderProcessor) (h : Hash) (levels : list (list Hash)) (parents : list Hash) (daa time : Z) : Header :=
  match ghostdag (E:=unit) 20 (hp_ghostdag_manager s) parents with
  | Ok d => mkHeader h BLOCK_VERSION levels 0%N 0%N 0%N time 486722099 0 daa (blue_work d) (blue_score d) MAINNET_GENESIS_HASH
  | _ => ex_next_header
  end.
Definition ex_process (h : HeaderProcessor → Header) (s : HeaderProcessor) : HeaderProcessor :=
  snd (process_header 20 ex_level_pow 2 ex_victims ex_now (h s) s).
Definition ex_skip : HeaderProcessor :=
  mkProcessor (clone_with_skip_pow MAINNET_PARAMS) (hp_relations_store ex_fresh) (hp_reachability_store ex_fresh)
    (hp_ghostdag_store ex_fresh) (hp_statuses_store ex_fresh) (hp_pruning_store ex_fresh) ∅ ∅ (hp_daa_store ex_fresh)
    (hp_headers_store ex_fresh) (hp_selected_tip_store ex_fresh) (hp_depth_store ex_fresh) (hp_past_pruning_points_store ex_fresh).
Definition ex_node4 : HeaderProcessor :=
  let g := MAINNET_GENESIS_HASH in
  let s1 := snd (process_genesis_if_needed 20 2 ex_victims ex_skip) in
  let s2 := ex_process (λ s, ex_mined s 2%N [[g]] [g] 0 1637609672037) s1 in
  let s3 := ex_process (λ s, ex_mined s 3%N [[g]] [g] 0 1637609672038) s2 in
  ex_process (λ s, ex_mined s 4%N [[2%N; 3%N]; [2%N; 3%N]] [2%N; 3%N] 2 1637609673037) s3.
Definition ex_repeated : Header := ex_mined ex_node4 5%N [[4%N]; [2%N; 2%N]] [4%N] 3 1637609674037.

Lemma indirect_parents_repetition_witness :
  statuses_access (hp_statuses_store ex_node4) !! 4%N = Some StatusHeaderOnly
  ∧ check_indirect_parents ex_node4 ex_repeated (context_new 5%N ex_repeated (pruning_from_genesis MAINNET_GENESIS_HASH))
    = (Ok tt, context_new 5%N ex_repeated (pruning_from_genesis MAINNET_GENESIS_HASH))
  ∧ fst (process_header 20 ex_level_pow 2 ex_victims ex_now ex_repeated ex_node4) = Ok StatusHeaderOnly.
Proof.
  split; [vm_compute; reflexivity|]. split; [|vm_compute; reflexivity].
  apply (indirect_parents_repetition _ _ _ [4%N] 2%N 3%N); vm_compute; reflexivity.
Defined.
