(* ===== verification/Tx.v ===== *)
(** * Transactions

    The data of [consensus/core/src/tx.rs], [subnets.rs], [constants.rs], [block.rs]
    and [coinbase.rs]: transactions with their populated variants, blocks, and the
    records that describe a coinbase.  Bytes are numbers below 256, indices into a
    vector are [nat], the other integers are [Z]. *)

From S2P Require Import Prelude Hash Headers Errors.

Definition TX_VERSION : Z := 0.
Definition LOCK_TIME_THRESHOLD : Z := 500000000000.
Definition SOMPI_PER_KASPA : Z := 100000000.
Definition MAX_SOMPI : Z := 29000000000 * SOMPI_PER_KASPA.
Definition SEQUENCE_LOCK_TIME_MASK : Z := 4294967295.
Definition SEQUENCE_LOCK_TIME_DISABLED : Z := Z.shiftl 1 63.

(** ** Sub-networks *)

Module Subnets.
Definition SUBNETWORK_ID_SIZE : nat := 20.
Definition SubnetworkId : Type := list N.

Definition from_byte (b : N) : SubnetworkId := <[0%nat := b]> (replicate SUBNETWORK_ID_SIZE 0%N).
Definition from_bytes (bytes : list N) : SubnetworkId := bytes.

Definition SUBNETWORK_ID_NATIVE : SubnetworkId := from_byte 0.
Definition SUBNETWORK_ID_COINBASE : SubnetworkId := from_byte 1.
Definition SUBNETWORK_ID_REGISTRY : SubnetworkId := from_byte 2.

Definition is_builtin (self : SubnetworkId) : bool :=
  bool_decide (self = SUBNETWORK_ID_COINBASE) || bool_decide (self = SUBNETWORK_ID_REGISTRY).
Definition is_builtin_or_native (self : SubnetworkId) : bool :=
  bool_decide (self = SUBNETWORK_ID_NATIVE) || is_builtin self.
End Subnets.
Import Subnets.

(** ** Outputs, inputs, transactions *)

Record ScriptPublicKey : Type := mkSpk { spk_version : Z; spk_script : list N }.
Record UtxoEntry : Type := mkEntry {
  ue_amount : Z; ue_script_public_key : ScriptPublicKey; ue_block_daa_score : Z; ue_is_coinbase : bool }.
Record TransactionInput : Type := mkInput {
  in_previous_outpoint : TransactionOutpoint; in_signature_script : list N; in_sequence : Z; in_sig_op_count : Z }.
Record TransactionOutput : Type := mkOutput { out_value : Z; out_script_public_key : ScriptPublicKey }.

(** The field [tx_cached_id] is the private [id] of the struct. *)
Record Transaction : Type := mkTx {
  tx_version : Z;
  tx_inputs : list TransactionInput;
  tx_outputs : list TransactionOutput;
  tx_lock_time : Z;
  tx_subnetwork_id : SubnetworkId;
  tx_gas : Z;
  tx_payload : list N;
  tx_cached_id : Hash;
}.

#[global] Instance ScriptPublicKey_eq_dec : EqDecision ScriptPublicKey.
Proof. solve_decision. Defined.
#[global] Instance UtxoEntry_eq_dec : EqDecision UtxoEntry.
Proof. solve_decision. Defined.
#[global] Instance TransactionInput_eq_dec : EqDecision TransactionInput.
Proof. solve_decision. Defined.
#[global] Instance TransactionOutput_eq_dec : EqDecision TransactionOutput.
Proof. solve_decision. Defined.
#[global] Instance Transaction_eq_dec : EqDecision Transaction.
Proof. solve_decision. Defined.

Definition outpoint_key (o : TransactionOutpoint) : Hash * Z := (op_transaction_id o, op_index o).
#[global] Instance TransactionOutpoint_countable : Countable TransactionOutpoint.
Proof. refine (inj_countable' outpoint_key (λ '(i, n), mkOutpoint i n) _). by intros []. Defined.

Definition is_coinbase (self : Transaction) : bool :=
  bool_decide (tx_subnetwork_id self = SUBNETWORK_ID_COINBASE).
(** [Transaction::id]: the id computed by the last [finalize]. *)
Definition tx_id (self : Transaction) : Hash := tx_cached_id self.

(** ** Transactions with their entries

    [populated_input] indexes two vectors and panics out of range. *)

Class VerifiableTransaction (T : Type) : Type := {
  vt_tx : T → Transaction;
  populated_input : ∀ E, T → nat → outcome E (TransactionInput * UtxoEntry);
}.
Arguments populated_input {T _ E} self index.

Section verifiable.
Context {T : Type} `{VerifiableTransaction T}.

Definition vt_inputs (self : T) : list TransactionInput := tx_inputs (vt_tx self).
Definition vt_outputs (self : T) : list TransactionOutput := tx_outputs (vt_tx self).
Definition vt_is_coinbase (self : T) : bool := is_coinbase (vt_tx self).
Definition vt_id (self : T) : Hash := tx_id (vt_tx self).

(** The items of [PopulatedInputIterator], each produced when the loop asks for it. *)
Definition populated_inputs {E} (self : T) : list (outcome E (TransactionInput * UtxoEntry)) :=
  populated_input self <$> seq 0 (length (vt_inputs self)).
End verifiable.

Definition index_pair {E} (inputs : list TransactionInput) (entries : list UtxoEntry) (index : nat) :
    outcome E (TransactionInput * UtxoEntry) :=
  input ← unwrap_opt (inputs !! index);
  entry ← unwrap_opt (entries !! index);
  mret (input, entry).

Record PopulatedTransaction : Type := mkPopulated { pt_tx : Transaction; pt_entries : list UtxoEntry }.
Definition populated_new {E} (tx : Transaction) (entries : list UtxoEntry) : outcome E PopulatedTransaction :=
  assert (bool_decide (length (tx_inputs tx) = length entries));;
  mret (mkPopulated tx entries).
#[export] Instance populated_verifiable : VerifiableTransaction PopulatedTransaction := {|
  vt_tx := pt_tx;
  populated_input := λ E self index, index_pair (tx_inputs (pt_tx self)) (pt_entries self) index;
|}.

Record ValidatedTransaction : Type := mkValidated {
  vtx_tx : Transaction; vtx_entries : list UtxoEntry; vtx_calculated_fee : Z }.
Definition validated_new (populated_tx : PopulatedTransaction) (calculated_fee : Z) : ValidatedTransaction :=
  mkValidated (pt_tx populated_tx) (pt_entries populated_tx) calculated_fee.
Definition new_coinbase {E} (tx : Transaction) : outcome E ValidatedTransaction :=
  assert (is_coinbase tx);;
  mret (mkValidated tx [] 0).
#[export] Instance validated_verifiable : VerifiableTransaction ValidatedTransaction := {|
  vt_tx := vtx_tx;
  populated_input := λ E self index, index_pair (tx_inputs (vtx_tx self)) (vtx_entries self) index;
|}.

Record MutableTransaction : Type := mkMutable {
  mt_tx : Transaction; mt_entries : list (option UtxoEntry);
  mt_calculated_fee : option Z; mt_calculated_mass : option Z }.
Definition mutable_new (tx : Transaction) : MutableTransaction :=
  mkMutable tx (replicate (length (tx_inputs tx)) None) None None.
Definition with_entries {E} (tx : Transaction) (entries : list UtxoEntry) : outcome E MutableTransaction :=
  assert (bool_decide (length (tx_inputs tx) = length entries));;
  mret (mkMutable tx (Some <$> entries) None None).
Definition is_verifiable {E} (self : MutableTransaction) : outcome E bool :=
  assert (bool_decide (length (mt_entries self) = length (tx_inputs (mt_tx self))));;
  mret (forallb (λ e, bool_decide (is_Some e)) (mt_entries self)).
Definition is_fully_populated {E} (self : MutableTransaction) : outcome E bool :=
  v ← is_verifiable self;
  mret (v && bool_decide (is_Some (mt_calculated_fee self)) && bool_decide (is_Some (mt_calculated_mass self))).
Fixpoint missing_from {E} (tx : Transaction) (i : nat) (entries : list (option UtxoEntry)) :
    outcome E (list TransactionOutpoint) :=
  match entries with
  | [] => mret []
  | Some _ :: rest => missing_from tx (S i) rest
  | None :: rest =>
      input ← unwrap_opt (tx_inputs tx !! i);
      outpoints ← missing_from tx (S i) rest;
      mret (in_previous_outpoint input :: outpoints)
  end.
Definition missing_outpoints {E} (self : MutableTransaction) : outcome E (list TransactionOutpoint) :=
  assert (bool_decide (length (mt_entries self) = length (tx_inputs (mt_tx self))));;
  missing_from (mt_tx self) 0 (mt_entries self).

(** [MutableTransactionVerifiableWrapper], the value [as_verifiable] returns. *)
Record VerifiableWrapper : Type := mkWrapper { vw_inner : MutableTransaction }.
Definition as_verifiable {E} (self : MutableTransaction) : outcome E VerifiableWrapper :=
  v ← is_verifiable self;
  assert v;;
  mret (mkWrapper self).
#[export] Instance wrapper_verifiable : VerifiableTransaction VerifiableWrapper := {|
  vt_tx := λ self, mt_tx (vw_inner self);
  populated_input := λ E self index,
    input ← unwrap_opt (tx_inputs (mt_tx (vw_inner self)) !! index);
    slot ← unwrap_opt (mt_entries (vw_inner self) !! index);
    entry ← unwrap_opt slot;
    mret (input, entry);
|}.

(** ** Blocks and coinbase data *)

Record Block : Type := mkBlock { blk_header : Header; blk_transactions : list Transaction }.
Definition block_from_header (header : Header) : Block := mkBlock header [].
Definition is_header_only (self : Block) : bool := bool_decide (blk_transactions self = []).
Definition block_hash (self : Block) : Hash := h_hash (blk_header self).

Record MutableBlock : Type := mkMutableBlock { mb_header : Header; mb_transactions : list Transaction }.
Definition mutable_from_header (header : Header) : MutableBlock := mkMutableBlock header [].
Definition to_immutable (self : MutableBlock) : Block := mkBlock (mb_header self) (mb_transactions self).

Record MinerData : Type := mkMiner { md_script_public_key : ScriptPublicKey; md_extra_data : list N }.
Record CoinbaseData : Type := mkCoinbaseData { cd_blue_score : Z; cd_subsidy : Z; cd_miner_data : MinerData }.
Record BlockRewardData : Type := mkReward {
  rw_subsidy : Z; rw_total_fees : Z; rw_script_public_key : ScriptPublicKey }.
Record CoinbaseTransactionTemplate : Type := mkCoinbaseTemplate { ct_tx : Transaction; ct_has_red_reward : bool }.
Record BlockTemplate : Type := mkTemplate {
  bt_block : MutableBlock; bt_miner_data : MinerData; bt_coinbase_has_red_reward : bool;
  bt_selected_parent_timestamp : Z }.

(** ** Every input has its entry

    What the constructors guarantee: the iterator yields the inputs in order, each
    with the entry at its position. *)

Definition populated_with `{VerifiableTransaction T} (self : T) (entries : list UtxoEntry) : Prop :=
  length entries = length (vt_inputs self) ∧
  ∀ E, populated_inputs (E:=E) self = Ok <$> zip (vt_inputs self) entries.

Lemma index_pair_ok {E} (inputs : list TransactionInput) (entries : list UtxoEntry) :
  length entries = length inputs →
  index_pair (E:=E) inputs entries <$> seq 0 (length inputs) = Ok <$> zip inputs entries.
Proof.
  intros Hl. apply list_eq. intros i. rewrite !list_lookup_fmap.
  destruct (decide (i < length inputs)%nat) as [Hi|Hi].
  - rewrite lookup_seq_lt by done. simpl. unfold index_pair.
    destruct (lookup_lt_is_Some_2 inputs i) as [a Ha]; [done|].
    destruct (lookup_lt_is_Some_2 entries i) as [b Hb]; [lia|].
    by rewrite lookup_zip_with, Ha, Hb.
  - rewrite (lookup_ge_None_2 (seq _ _)) by (rewrite length_seq; lia).
    by rewrite (lookup_ge_None_2 (zip _ _)) by (rewrite length_zip_with; lia).
Qed.

Lemma populated_new_ok {E} (tx : Transaction) (entries : list UtxoEntry) t :
  populated_new (E:=E) tx entries = Ok t → vt_tx t = tx ∧ populated_with t entries.
Proof.
  unfold populated_new. case_bool_decide as Hl; [|done]. intros [= <-]. split; [done|].
  split; [done|]. intros ?. by apply index_pair_ok.
Qed.

Lemma validated_new_ok (t : PopulatedTransaction) (entries : list UtxoEntry) fee :
  populated_with t entries → pt_entries t = entries →
  populated_with (validated_new t fee) entries.
Proof. intros [Hl _] He. split; [done|]. intros ?. subst. by apply index_pair_ok. Qed.

(** A coinbase has no entries, so it must not have inputs either. *)
Lemma new_coinbase_ok {E} (tx : Transaction) t :
  new_coinbase (E:=E) tx = Ok t → tx_inputs tx = [] → vt_tx t = tx ∧ populated_with t [].
Proof.
  unfold new_coinbase. destruct (is_coinbase tx); [|done]. intros [= <-] Hn. split; [done|].
  unfold populated_with, populated_inputs, vt_inputs. simpl. by rewrite Hn.
Qed.

Lemma as_verifiable_ok {E} (self : MutableTransaction) w :
  as_verifiable (E:=E) self = Ok w →
  ∃ entries, mt_entries self = Some <$> entries ∧ vt_tx w = mt_tx self ∧ populated_with w entries.
Proof.
  unfold as_verifiable, is_verifiable. case_bool_decide as Hl; [|done]. cbn.
  destruct (forallb _ _) eqn:Hall; [|done]. intros [= <-].
  assert (∃ entries, mt_entries self = Some <$> entries) as [entries He].
  { clear Hl. induction (mt_entries self) as [|[e|] l IH]; simpl in *; [by exists []| |done].
    destruct (IH Hall) as [es ->]. by exists (e :: es). }
  exists entries. split_and!; [done|done|].
  rewrite He, length_fmap in Hl. split; [done|]. intros ?.
  unfold populated_inputs, vt_inputs. simpl. rewrite He. rewrite <-index_pair_ok by done.
  apply list_fmap_ext. intros _ i _. unfold index_pair. rewrite list_lookup_fmap.
  by destruct (_ !! i), (entries !! i).
Qed.
