(* ===== verification/Utxo.v ===== *)
(** * UTXO collections, diffs and views

    [consensus/core/src/utxo/]: collections of unspent outputs keyed by outpoint, the
    algebra of diffs, and views composed from a base and a diff.  The order in which
    Rust iterates a hash map is unspecified: it is the operation [iter] of the class
    [IterationOrder], of which only [IterationLaws] is known. *)

From stdpp Require Import strings.
From S2P Require Import Prelude Hash Errors Tx.

#[local] Open Scope Z_scope.

Abbreviation UtxoCollection := (gmap TransactionOutpoint UtxoEntry).

Class IterationOrder : Type := iter : UtxoCollection → list (TransactionOutpoint * UtxoEntry).
Class IterationLaws `{IterationOrder} : Prop := iter_perm : ∀ c, iter c ≡ₚ map_to_list c.

Inductive UtxoAlgebraError : Type :=
| DuplicateRemovePoint (o : TransactionOutpoint)
| DuplicateAddPoint (o : TransactionOutpoint)
| DoubleRemoveCall (o : TransactionOutpoint)
| DoubleAddCall (o : TransactionOutpoint)
| DiffIntersectionPoint (o : TransactionOutpoint) (what : string)
| General (what : string).

(** [PartialEq for UtxoAlgebraError] ignores the descriptions. *)
Definition error_eq (a b : UtxoAlgebraError) : bool :=
  match a, b with
  | DuplicateRemovePoint l, DuplicateRemovePoint r => bool_decide (l = r)
  | DuplicateAddPoint l, DuplicateAddPoint r => bool_decide (l = r)
  | DoubleRemoveCall l, DoubleRemoveCall r => bool_decide (l = r)
  | DoubleAddCall l, DoubleAddCall r => bool_decide (l = r)
  | DiffIntersectionPoint l _, DiffIntersectionPoint r _ => bool_decide (l = r)
  | General _, General _ => true
  | _, _ => false
  end.

(** ** Collections *)

Section collections.
Context `{IterationOrder}.

Definition contains_with_daa_score (self : UtxoCollection) (outpoint : TransactionOutpoint) (daa_score : Z) : bool :=
  match self !! outpoint with
  | Some entry => ue_block_daa_score entry =? daa_score
  | None => false
  end.

Definition add_collection (self other : UtxoCollection) : UtxoCollection :=
  foldl (λ acc '(k, v), <[k := v]> acc) self (iter other).

Definition remove_collection (self other : UtxoCollection) : UtxoCollection :=
  foldl (λ acc '(k, _), delete k acc) self (iter other).

Definition contains_key (self : UtxoCollection) (k : TransactionOutpoint) : bool :=
  bool_decide (is_Some (self !! k)).

Definition intersects (self other : UtxoCollection) : bool :=
  let '(keys, other) := if (size self <=? size other)%nat then (self, other) else (other, self) in
  existsb (λ '(k, _), contains_key other k) (iter keys).

(** The first item of the loop for which the body returns. *)
Fixpoint first_match (test : TransactionOutpoint → UtxoEntry → bool) (l : list (TransactionOutpoint * UtxoEntry)) :
    option TransactionOutpoint :=
  match l with
  | [] => None
  | (k, v) :: l' => if test k v then Some k else first_match test l'
  end.

Definition intersects_with_rule (self other : UtxoCollection)
    (rule : TransactionOutpoint → UtxoEntry → UtxoEntry → bool) : option TransactionOutpoint :=
  if (size self <=? size other)%nat
  then first_match (λ k v1, match other !! k with Some v2 => rule k v1 v2 | None => false end) (iter self)
  else first_match (λ k v2, match self !! k with Some v1 => rule k v1 v2 | None => false end) (iter other).

(** The loops of the three functions at the end of [utxo_collection.rs]: they return
    the new contents of their [&mut] collections. *)
Definition intersection_with_remainder_having_daa_score_in_place
    (this other result remainder : UtxoCollection) : UtxoCollection * UtxoCollection :=
  foldl (λ '(result, remainder) '(outpoint, entry),
    if contains_with_daa_score other outpoint (ue_block_daa_score entry)
    then (<[outpoint := entry]> result, remainder)
    else (result, <[outpoint := entry]> remainder)) (result, remainder) (iter this).

Definition subtraction_having_daa_score_in_place (this other result : UtxoCollection) : UtxoCollection :=
  foldl (λ result '(outpoint, entry),
    if negb (contains_with_daa_score other outpoint (ue_block_daa_score entry))
    then <[outpoint := entry]> result
    else result) result (iter this).

Definition subtraction_with_remainder_having_daa_score_in_place
    (this other result remainder : UtxoCollection) : UtxoCollection * UtxoCollection :=
  foldl (λ '(result, remainder) '(outpoint, entry),
    if negb (contains_with_daa_score other outpoint (ue_block_daa_score entry))
    then (<[outpoint := entry]> result, remainder)
    else (result, <[outpoint := entry]> remainder)) (result, remainder) (iter this).
End collections.

(** ** Diffs *)

Class ImmutableUtxoDiff (D : Type) : Type := { added : D → UtxoCollection; removed : D → UtxoCollection }.

Record UtxoDiff : Type := mkDiff { ud_add : UtxoCollection; ud_remove : UtxoCollection }.
#[export] Instance diff_immutable : ImmutableUtxoDiff UtxoDiff := {| added := ud_add; removed := ud_remove |}.
#[global] Instance diff_empty : Empty UtxoDiff := mkDiff ∅ ∅.

Record ReversedUtxoDiff : Type := mkReversed { rd_inner : UtxoDiff }.
#[export] Instance reversed_immutable : ImmutableUtxoDiff ReversedUtxoDiff := {|
  added := λ self, ud_remove (rd_inner self);
  removed := λ self, ud_add (rd_inner self);
|}.

Definition as_reversed (self : UtxoDiff) : ReversedUtxoDiff := mkReversed self.
Definition to_reversed (self : UtxoDiff) : UtxoDiff := mkDiff (ud_remove self) (ud_add self).

Section diffs.
Context `{IterationOrder}.

Definition reject (found : option TransactionOutpoint) (e : TransactionOutpoint → UtxoAlgebraError) :
    outcome UtxoAlgebraError unit :=
  match found with Some outpoint => Err (e outpoint) | None => Ok tt end.

Definition with_diff_in_place {D} `{ImmutableUtxoDiff D} (other : D) : M UtxoDiff UtxoAlgebraError unit :=
  self ← get;
  lift (reject (intersects_with_rule (removed other) (ud_remove self)
    (λ outpoint entry_to_add _, negb (contains_with_daa_score (ud_add self) outpoint (ue_block_daa_score entry_to_add))))
    DuplicateRemovePoint);;
  lift (reject (intersects_with_rule (added other) (ud_add self)
    (λ outpoint _ existing_entry,
       negb (contains_with_daa_score (removed other) outpoint (ue_block_daa_score existing_entry))))
    DuplicateAddPoint);;
  modify (λ self,
    let '(intersection, remove) := intersection_with_remainder_having_daa_score_in_place
      (removed other) (ud_add self) ∅ (ud_remove self) in
    mkDiff (remove_collection (ud_add self) intersection) remove);;
  modify (λ self,
    let '(intersection, add) := intersection_with_remainder_having_daa_score_in_place
      (added other) (ud_remove self) ∅ (ud_add self) in
    mkDiff add (remove_collection (ud_remove self) intersection)).

Definition with_diff {D} `{ImmutableUtxoDiff D} (self : UtxoDiff) (other : D) : outcome UtxoAlgebraError UtxoDiff :=
  let '(o, clone) := with_diff_in_place other self in
  o;; mret clone.

Definition diff_from {D} `{ImmutableUtxoDiff D} (self : UtxoDiff) (other : D) : outcome UtxoAlgebraError UtxoDiff :=
  reject (intersects_with_rule (ud_remove self) (added other)
    (λ outpoint this_entry other_entry,
       negb (negb (ue_block_daa_score other_entry =? ue_block_daa_score this_entry) &&
             (contains_with_daa_score (ud_add self) outpoint (ue_block_daa_score other_entry) ||
              contains_with_daa_score (removed other) outpoint (ue_block_daa_score this_entry)))))
    (λ o, DiffIntersectionPoint o "both in self.add and in other.remove");;
  reject (intersects_with_rule (ud_add self) (removed other)
    (λ outpoint this_entry other_entry,
       negb (negb (ue_block_daa_score other_entry =? ue_block_daa_score this_entry) &&
             (contains_with_daa_score (ud_remove self) outpoint (ue_block_daa_score other_entry) ||
              contains_with_daa_score (added other) outpoint (ue_block_daa_score this_entry)))))
    (λ o, DiffIntersectionPoint o "both in self.remove and in other.add");;
  reject (intersects_with_rule (ud_remove self) (removed other)
    (λ _ this_entry other_entry, negb (ue_block_daa_score other_entry =? ue_block_daa_score this_entry)))
    (λ o, DiffIntersectionPoint o
      "both in self.remove and other.remove with different DAA scores, with no corresponding entry in self.add");;
  let '(remove1, in_both_to_add) := subtraction_with_remainder_having_daa_score_in_place
    (ud_add self) (added other) ∅ ∅ in
  (if Bool.eqb (intersects in_both_to_add (ud_remove self)) (intersects in_both_to_add (removed other))
   then Ok tt
   else Err (General "diff_from: outpoint both in self.add, other.add, and only one of self.remove and other.remove"));;
  let remove := subtraction_having_daa_score_in_place (removed other) (ud_remove self) remove1 in
  let add1 := subtraction_having_daa_score_in_place (ud_remove self) (removed other) ∅ in
  let add := subtraction_having_daa_score_in_place (added other) (ud_add self) add1 in
  mret (mkDiff add remove).

Definition remove_entry (outpoint : TransactionOutpoint) (entry : UtxoEntry) : M UtxoDiff UtxoAlgebraError unit :=
  self ← get;
  if contains_with_daa_score (ud_add self) outpoint (ue_block_daa_score entry)
  then modify (λ self, mkDiff (delete outpoint (ud_add self)) (ud_remove self))
  else match ud_remove self !! outpoint with
       | None => modify (λ self, mkDiff (ud_add self) (<[outpoint := entry]> (ud_remove self)))
       | Some _ => fail (DoubleRemoveCall outpoint)
       end.

Definition add_entry (outpoint : TransactionOutpoint) (entry : UtxoEntry) : M UtxoDiff UtxoAlgebraError unit :=
  self ← get;
  if contains_with_daa_score (ud_remove self) outpoint (ue_block_daa_score entry)
  then modify (λ self, mkDiff (ud_add self) (delete outpoint (ud_remove self)))
  else match ud_add self !! outpoint with
       | None => modify (λ self, mkDiff (<[outpoint := entry]> (ud_add self)) (ud_remove self))
       | Some _ => fail (DoubleAddCall outpoint)
       end.

(** The outpoint and the entry of the [i]th output; [i as u32] truncates. *)
Definition output_utxo (tx_id : Hash) (is_coinbase : bool) (block_daa_score : Z) (i : nat) (output : TransactionOutput) :
    TransactionOutpoint * UtxoEntry :=
  (mkOutpoint tx_id (Z.of_nat i mod 2 ^ 32),
   mkEntry (out_value output) (out_script_public_key output) block_daa_score is_coinbase).

Definition add_transaction `{VerifiableTransaction T} (transaction : T) (block_daa_score : Z) :
    M UtxoDiff UtxoAlgebraError unit :=
  for_each (populated_inputs transaction) (λ item,
    '(input, entry) ← lift item;
    remove_entry (in_previous_outpoint input) entry);;
  for_each (imap (output_utxo (vt_id transaction) (vt_is_coinbase transaction) block_daa_score) (vt_outputs transaction))
    (λ '(outpoint, entry), add_entry outpoint entry).
End diffs.

(** ** Views *)

Class UtxoView (V : Type) : Type := view_get : V → TransactionOutpoint → option UtxoEntry.

#[export] Instance collection_view : UtxoView UtxoCollection := λ self outpoint, self !! outpoint.

Record ComposedUtxoView (V D : Type) : Type := mkComposed { cv_base : V; cv_diff : D }.
Arguments mkComposed {V D}.
Arguments cv_base {V D}.
Arguments cv_diff {V D}.

#[export] Instance composed_view `{UtxoView V, ImmutableUtxoDiff D} : UtxoView (ComposedUtxoView V D) :=
  λ self outpoint,
    match added (cv_diff self) !! outpoint with
    | Some entry => Some entry
    | None =>
        if contains_key (removed (cv_diff self)) outpoint then None
        else view_get (cv_base self) outpoint
    end.

Definition compose {V D} (self : V) (diff : D) : ComposedUtxoView V D := mkComposed self diff.
