(* ===== verification/UtxoProof.v ===== *)
(** * The algebra of UTXO diffs

    A diff describes a change of a set of unspent outputs: [apply d U] is the set after
    the change, [applies d U] says that the change makes sense on [U].  The operations
    of [UtxoDiff] are characterised outpoint by outpoint and then shown to compute
    composition, difference and inverse of such changes; [add_transaction] records
    what a transaction does to the set, and a composed view shows the changed set. *)

From stdpp Require Import strings.
From S2P Require Import Prelude Hash Errors Tx Utxo.

#[local] Open Scope Z_scope.

Section spec.
Context {D : Type} `{ImmutableUtxoDiff D}.

Definition apply (d : D) (U : UtxoCollection) : UtxoCollection := added d ∪ (U ∖ removed d).

Record applies (d : D) (U : UtxoCollection) : Prop := {
  ap_removed : removed d ⊆ U;
  ap_added : added d ##ₘ U ∖ removed d;
}.

(** No output is removed and added again with the same DAA score. *)
Definition normal (d : D) : Prop := ∀ o e e',
  added d !! o = Some e → removed d !! o = Some e' → ue_block_daa_score e ≠ ue_block_daa_score e'.
End spec.

(** Two collections never give one outpoint different entries of the same DAA score:
    an outpoint names the output of one transaction, which fixes all but the score. *)
Definition coherent (A B : UtxoCollection) : Prop := ∀ o e e',
  A !! o = Some e → B !! o = Some e' → ue_block_daa_score e = ue_block_daa_score e' → e = e'.

(** ** The same, at one outpoint *)

Definition apply_at (a r u : option UtxoEntry) : option UtxoEntry :=
  match a, r with
  | Some e, _ => Some e
  | None, Some _ => None
  | None, None => u
  end.
Definition applies_at (a r u : option UtxoEntry) : Prop :=
  match r with
  | Some e => u = Some e
  | None => a = None ∨ u = None
  end.
Definition same_daa (c : option UtxoEntry) (e : UtxoEntry) : bool :=
  match c with Some e' => ue_block_daa_score e' =? ue_block_daa_score e | None => false end.
Definition coherent_at (c c' : option UtxoEntry) : Prop :=
  match c, c' with
  | Some e, Some e' => ue_block_daa_score e = ue_block_daa_score e' → e = e'
  | _, _ => True
  end.
Definition normal_at (a r : option UtxoEntry) : Prop :=
  match a, r with
  | Some e, Some e' => ue_block_daa_score e ≠ ue_block_daa_score e'
  | _, _ => True
  end.

#[global] Instance coherent_at_dec a b : Decision (coherent_at a b).
Proof. destruct a, b; apply _. Defined.
#[global] Instance normal_at_dec a b : Decision (normal_at a b).
Proof. destruct a, b; apply _. Defined.

Lemma contains_same_daa c o e : contains_with_daa_score c o (ue_block_daa_score e) = same_daa (c !! o) e.
Proof. done. Qed.

Section pointwise.
Context {D : Type} `{ImmutableUtxoDiff D}.

Lemma lookup_apply (d : D) U o : apply d U !! o = apply_at (added d !! o) (removed d !! o) (U !! o).
Proof.
  unfold apply. rewrite lookup_union, lookup_difference.
  destruct (added d !! o), (removed d !! o), (U !! o); done.
Qed.

Lemma applies_pointwise (d : D) U :
  applies d U ↔ ∀ o, applies_at (added d !! o) (removed d !! o) (U !! o).
Proof.
  split.
  - intros [Hr Ha] o. unfold applies_at. destruct (removed d !! o) as [e|] eqn:He.
    + by apply (lookup_weaken (removed d)).
    + destruct (added d !! o) as [e'|] eqn:He'; [right|by left].
      pose proof (map_disjoint_Some_l _ _ _ _ Ha He') as Hn.
      rewrite lookup_difference, He in Hn. done.
  - intros Hat. split.
    + apply map_subseteq_spec. intros o e He. specialize (Hat o). by rewrite He in Hat.
    + apply map_disjoint_spec. intros o e e' He He'. specialize (Hat o).
      rewrite lookup_difference in He'. rewrite He in Hat.
      destruct (removed d !! o); simpl in *; naive_solver.
Qed.

Lemma normal_pointwise (d : D) : normal d ↔ ∀ o, normal_at (added d !! o) (removed d !! o).
Proof.
  split.
  - intros Hn o. unfold normal_at. destruct (added d !! o) eqn:?, (removed d !! o) eqn:?; eauto.
  - intros Hn o e e' He He'. specialize (Hn o). by rewrite He, He' in Hn.
Qed.
End pointwise.

Lemma coherent_pointwise A B : coherent A B ↔ ∀ o, coherent_at (A !! o) (B !! o).
Proof.
  split.
  - intros Hc o. unfold coherent_at. destruct (A !! o) eqn:?, (B !! o) eqn:?; eauto.
  - intros Hc o e e' He He'. specialize (Hc o). by rewrite He, He' in Hc.
Qed.

(** The three predicates are decided by visiting the entries. *)
Definition decide_iff {P Q : Prop} (PQ : P ↔ Q) `{Decision P} : Decision Q :=
  match decide P with left p => left (proj1 PQ p) | right n => right (λ q, n (proj2 PQ q)) end.

Lemma applies_entries `{ImmutableUtxoDiff D} (d : D) U :
  map_Forall (λ o e, U !! o = Some e) (removed d) ∧
  map_Forall (λ o _, removed d !! o ≠ None ∨ U !! o = None) (added d) ↔ applies d U.
Proof.
  rewrite applies_pointwise. split.
  - intros [Hr Ha] o. unfold applies_at. destruct (removed d !! o) eqn:Er; [by apply Hr|].
    destruct (added d !! o) eqn:Ea; [right|by left]. destruct (Ha o _ Ea); congruence.
  - intros Hat. split; intros o e He; specialize (Hat o); rewrite He in Hat; [done|].
    destruct (removed d !! o); [by left|]. right. by destruct Hat.
Qed.
Lemma coherent_entries A B : map_Forall (λ o e, coherent_at (Some e) (B !! o)) A ↔ coherent A B.
Proof.
  split.
  - intros Hf o e e' He He'. specialize (Hf o e He); cbn beta in Hf. by rewrite He' in Hf.
  - intros Hc o e He. destruct (B !! o) eqn:?; [|done]. intros ?. by eapply Hc.
Qed.
Lemma normal_entries `{ImmutableUtxoDiff D} (d : D) :
  map_Forall (λ o e, normal_at (Some e) (removed d !! o)) (added d) ↔ normal d.
Proof.
  split.
  - intros Hf o e e' He He'. specialize (Hf o e He); cbn beta in Hf. by rewrite He' in Hf.
  - intros Hc o e He. destruct (removed d !! o) eqn:?; [|done]. by eapply Hc.
Qed.
#[global] Instance applies_dec `{ImmutableUtxoDiff D} (d : D) U : Decision (applies d U) := decide_iff (applies_entries d U).
#[global] Instance coherent_dec A B : Decision (coherent A B) := decide_iff (coherent_entries A B).
#[global] Instance normal_dec `{ImmutableUtxoDiff D} (d : D) : Decision (normal d) := decide_iff (normal_entries d).

(** ** Loops over a collection *)

Section loops.
Context `{IterationOrder}.

(** A loop that touches, for each key, only what [obs] shows of that key. *)
Lemma foldl_obs {A X} (step : A → TransactionOutpoint * UtxoEntry → A) (obs : A → X)
    (g : UtxoEntry → X → X) o (a : A) l :
  NoDup l.*1 →
  (∀ a k e, k ≠ o → obs (step a (k, e)) = obs a) →
  (∀ a e, obs (step a (o, e)) = g e (obs a)) →
  obs (foldl step a l) = match (list_to_map l : UtxoCollection) !! o with Some e => g e (obs a) | None => obs a end.
Proof.
  intros Hnd Hne Heq. revert a. induction l as [|[k e] l IH]; intros a; [done|].
  apply NoDup_cons in Hnd as [Hk Hnd]. cbn [foldl]. rewrite IH by done. simpl.
  destruct (decide (k = o)) as [->|Hko].
  - rewrite lookup_insert_eq. rewrite not_elem_of_list_to_map_1 by done. apply Heq.
  - rewrite lookup_insert_ne by done. by rewrite Hne.
Qed.

Context `{!IterationLaws}.

Lemma iter_keys c : NoDup (iter c).*1.
Proof. rewrite (iter_perm c). apply NoDup_fst_map_to_list. Qed.

Lemma iter_map c : list_to_map (iter c) = c.
Proof. rewrite (list_to_map_proper _ (map_to_list c)); [apply list_to_map_to_list|apply iter_keys|apply iter_perm]. Qed.

Lemma elem_of_iter c o e : (o, e) ∈ iter c ↔ c !! o = Some e.
Proof. rewrite (iter_perm c). apply elem_of_map_to_list. Qed.

Lemma loop_obs {A X} (step : A → TransactionOutpoint * UtxoEntry → A) (obs : A → X)
    (g : UtxoEntry → X → X) o (a : A) c :
  (∀ a k e, k ≠ o → obs (step a (k, e)) = obs a) →
  (∀ a e, obs (step a (o, e)) = g e (obs a)) →
  obs (foldl step a (iter c)) = match c !! o with Some e => g e (obs a) | None => obs a end.
Proof. intros Hne Heq. rewrite (foldl_obs step obs g o) by (done || apply iter_keys). by rewrite iter_map. Qed.

Lemma lookup_add_collection self other o :
  add_collection self other !! o = match other !! o with Some e => Some e | None => self !! o end.
Proof.
  unfold add_collection. apply (loop_obs _ (λ m : UtxoCollection, m !! o) (λ e _, Some e)).
  - intros m k e Hk. by rewrite lookup_insert_ne.
  - intros m e. by rewrite lookup_insert_eq.
Qed.

Lemma lookup_remove_collection self other o :
  remove_collection self other !! o = match other !! o with Some _ => None | None => self !! o end.
Proof.
  unfold remove_collection. apply (loop_obs _ (λ m : UtxoCollection, m !! o) (λ _ _, None)).
  - intros m k e Hk. by rewrite lookup_delete_ne.
  - intros m e. by rewrite lookup_delete_eq.
Qed.

(** The two accumulators of a loop that sends each entry to one of them. *)
Lemma lookup_split (pick : TransactionOutpoint → UtxoEntry → bool) this (res rem : UtxoCollection) o :
  let r := foldl (λ '(res, rem) '(k, e), if pick k e then (<[k := e]> res, rem) else (res, <[k := e]> rem))
             (res, rem) (iter this) in
  r.1 !! o = match this !! o with Some e => if pick o e then Some e else res !! o | None => res !! o end ∧
  r.2 !! o = match this !! o with Some e => if pick o e then rem !! o else Some e | None => rem !! o end.
Proof.
  intros r. split; subst r.
  - apply (loop_obs _ (λ p : UtxoCollection * UtxoCollection, p.1 !! o) (λ e x, if pick o e then Some e else x)).
    + intros [m m'] k e Hk. destruct (pick k e); simpl; [by rewrite lookup_insert_ne|done].
    + intros [m m'] e. destruct (pick o e); simpl; [by rewrite lookup_insert_eq|done].
  - apply (loop_obs _ (λ p : UtxoCollection * UtxoCollection, p.2 !! o) (λ e x, if pick o e then x else Some e)).
    + intros [m m'] k e Hk. destruct (pick k e); simpl; [done|by rewrite lookup_insert_ne].
    + intros [m m'] e. destruct (pick o e); simpl; [done|by rewrite lookup_insert_eq].
Qed.

Lemma lookup_intersection this other res rem o :
  let r := intersection_with_remainder_having_daa_score_in_place this other res rem in
  r.1 !! o = match this !! o with Some e => if same_daa (other !! o) e then Some e else res !! o | None => res !! o end ∧
  r.2 !! o = match this !! o with Some e => if same_daa (other !! o) e then rem !! o else Some e | None => rem !! o end.
Proof. apply (lookup_split (λ k e, contains_with_daa_score other k (ue_block_daa_score e))). Qed.

Lemma lookup_subtraction_with_remainder this other res rem o :
  let r := subtraction_with_remainder_having_daa_score_in_place this other res rem in
  r.1 !! o = match this !! o with Some e => if same_daa (other !! o) e then res !! o else Some e | None => res !! o end ∧
  r.2 !! o = match this !! o with Some e => if same_daa (other !! o) e then Some e else rem !! o | None => rem !! o end.
Proof.
  intros r. pose proof (lookup_split (λ k e, negb (contains_with_daa_score other k (ue_block_daa_score e)))
    this res rem o) as [H1 H2]. split; [refine (eq_trans H1 _)|refine (eq_trans H2 _)];
    destruct (this !! o) as [e|]; try done; rewrite contains_same_daa; by destruct (same_daa (other !! o) e).
Qed.

Lemma lookup_subtraction this other res o :
  subtraction_having_daa_score_in_place this other res !! o =
  match this !! o with Some e => if same_daa (other !! o) e then res !! o else Some e | None => res !! o end.
Proof.
  apply (loop_obs _ (λ m : UtxoCollection, m !! o) (λ e x, if same_daa (other !! o) e then x else Some e)).
  - intros m k e Hk. destruct (negb _); [by rewrite lookup_insert_ne|done].
  - intros m e. rewrite contains_same_daa. destruct (same_daa _ _); simpl; [done|by rewrite lookup_insert_eq].
Qed.

(** ** Searches *)

Lemma first_match_None test l :
  first_match test l = None ↔ ∀ o e, (o, e) ∈ l → test o e = false.
Proof.
  induction l as [|[k v] l IH]; simpl; [set_solver|].
  destruct (test k v) eqn:Ht; [split; [done|]; intros Hf; rewrite (Hf k v) in Ht by left; done|].
  rewrite IH. split; intros Hf o e; [|set_solver]. intros [[= -> ->]|]%elem_of_cons; [done|eauto].
Qed.

Lemma first_match_Some test l o :
  first_match test l = Some o → ∃ e, (o, e) ∈ l ∧ test o e = true.
Proof.
  induction l as [|[k v] l IH]; simpl; [done|]. destruct (test k v) eqn:Ht.
  - intros [= <-]. exists v. split; [left|done].
  - intros (e & ? & ?)%IH. exists e. split; [by right|done].
Qed.

Lemma intersects_with_rule_None self other rule :
  intersects_with_rule self other rule = None ↔
  ∀ o a b, self !! o = Some a → other !! o = Some b → rule o a b = false.
Proof.
  unfold intersects_with_rule. destruct (_ <=? _)%nat; rewrite first_match_None; setoid_rewrite elem_of_iter; split.
  - intros Hf o a b Ha Hb. specialize (Hf o a Ha). by rewrite Hb in Hf.
  - intros Hf o a Ha. destruct (other !! o) eqn:Hb; eauto.
  - intros Hf o a b Ha Hb. specialize (Hf o b Hb). by rewrite Ha in Hf.
  - intros Hf o b Hb. destruct (self !! o) eqn:Ha; eauto.
Qed.

Lemma intersects_with_rule_Some self other rule o :
  intersects_with_rule self other rule = Some o →
  ∃ a b, self !! o = Some a ∧ other !! o = Some b ∧ rule o a b = true.
Proof.
  unfold intersects_with_rule.
  destruct (_ <=? _)%nat; intros (e & He%elem_of_iter & Ht)%first_match_Some; [destruct (other !! o) eqn:?|destruct (self !! o) eqn:?];
    naive_solver.
Qed.

Lemma intersects_spec self other :
  intersects self other = true ↔ ∃ o, is_Some (self !! o) ∧ is_Some (other !! o).
Proof.
  unfold intersects.
  assert (Hall : ∀ A B, existsb (λ '(k, _), contains_key B k) (iter A) = true ↔ ∃ o, is_Some (A !! o) ∧ is_Some (B !! o)).
  { intros A B. rewrite existsb_exists. split.
    - intros ([k e] & Hin%list_elem_of_In%elem_of_iter & Hk%bool_decide_eq_true). eauto.
    - intros (o & [e He] & Ho). exists (o, e). split; [by apply list_elem_of_In, elem_of_iter|by apply bool_decide_eq_true]. }
  destruct (_ <=? _)%nat; rewrite Hall; naive_solver.
Qed.
End loops.

(** All cases of what is present at an outpoint and which scores agree. *)
Ltac at_cases :=
  repeat match goal with
  | H : _ ∨ _ |- _ => destruct H; simplify_eq/=
  | |- context [?x =? ?y] => destruct (Z.eqb_spec x y); simplify_eq/=
  end; try done; split_and!; intros; simplify_eq/=; split_and?; intros; simplify_eq/=;
  first [done | by auto using Z.eqb_refl | by f_equal; auto | congruence].

(** ** Composition

    What [with_diff] leaves at an outpoint: first the removals of the second diff
    cancel additions of the first, then its additions cancel removals. *)

Section composition.
Context `{IterationOrder, !IterationLaws} `{ImmutableUtxoDiff D}.

Definition after_remove (a r r' : option UtxoEntry) : option UtxoEntry * option UtxoEntry :=
  match r' with
  | Some e => if same_daa a e then (None, r) else (a, Some e)
  | None => (a, r)
  end.
Definition after_add (a r a' : option UtxoEntry) : option UtxoEntry * option UtxoEntry :=
  match a' with
  | Some e => if same_daa r e then (a, None) else (Some e, r)
  | None => (a, r)
  end.
Definition compose_at (a r a' r' : option UtxoEntry) : option UtxoEntry * option UtxoEntry :=
  let '(a1, r1) := after_remove a r r' in after_add a1 r1 a'.

(** The checks find no offending outpoint. *)
Definition composable_at (a r a' r' : option UtxoEntry) : Prop :=
  (∀ e' e, r' = Some e' → r = Some e → same_daa a e' = true) ∧
  (∀ e' e, a' = Some e' → a = Some e → same_daa r' e = true).

Lemma with_diff_at (self : UtxoDiff) (other : D) :
  (∀ o, composable_at (ud_add self !! o) (ud_remove self !! o) (added other !! o) (removed other !! o)) →
  ∃ d, with_diff self other = Ok d ∧
    ∀ o, (ud_add d !! o, ud_remove d !! o) =
      compose_at (ud_add self !! o) (ud_remove self !! o) (added other !! o) (removed other !! o).
Proof.
  intros Hc. unfold with_diff, with_diff_in_place, get, modify, lift, reject, mbind, M_bind.
  rewrite (proj2 (intersects_with_rule_None _ _ _)).
  2:{ intros o e' e He' He. rewrite contains_same_daa. by rewrite (proj1 (Hc o) e' e). }
  rewrite (proj2 (intersects_with_rule_None _ _ _)).
  2:{ intros o e' e He' He. rewrite contains_same_daa. by rewrite (proj2 (Hc o) e' e). }
  destruct (intersection_with_remainder_having_daa_score_in_place (removed other) _ _ _) as [i1 r1] eqn:E1.
  cbn [ud_add ud_remove].
  destruct (intersection_with_remainder_having_daa_score_in_place (added other) _ _ _) as [i2 a2] eqn:E2.
  eexists. split; [done|]. intros o. cbn [ud_add ud_remove].
  pose proof (lookup_intersection (removed other) (ud_add self) ∅ (ud_remove self) o) as [L1 L2].
  pose proof (lookup_intersection (added other) r1 ∅ (remove_collection (ud_add self) i1) o) as [L3 L4].
  rewrite E1 in L1, L2. rewrite E2 in L3, L4. cbn in L1, L2, L3, L4. rewrite lookup_empty in L1, L3.
  rewrite lookup_remove_collection in L4 |- *. rewrite L4, L3, L2, L1.
  unfold compose_at, after_remove, after_add.
  destruct (removed other !! o) as [e|]; [destruct (same_daa (ud_add self !! o) e)|]; simpl;
    (destruct (added other !! o) as [e'|]; [|done]); repeat case_match; simplify_eq; done.
Qed.

(** The contradictions that the checks look for: an output removed by both diffs, or
    added by both, without being added or removed in between. *)
Definition removed_twice (self : UtxoDiff) (other : D) (o : TransactionOutpoint) : Prop := ∃ e e',
  removed other !! o = Some e ∧ ud_remove self !! o = Some e'
  ∧ ¬ ∃ a, ud_add self !! o = Some a ∧ ue_block_daa_score a = ue_block_daa_score e.
Definition added_twice (self : UtxoDiff) (other : D) (o : TransactionOutpoint) : Prop := ∃ e e',
  added other !! o = Some e ∧ ud_add self !! o = Some e'
  ∧ ¬ ∃ r, removed other !! o = Some r ∧ ue_block_daa_score r = ue_block_daa_score e'.

Lemma same_daa_true c e : same_daa c e = true ↔ ∃ a, c = Some a ∧ ue_block_daa_score a = ue_block_daa_score e.
Proof. unfold same_daa. destruct c as [a|]; [rewrite Z.eqb_eq|]; naive_solver. Qed.

Lemma with_diff_outcomes (self : UtxoDiff) (other : D) :
  match with_diff self other with
  | Ok _ => ∀ o, ¬ removed_twice self other o ∧ ¬ added_twice self other o
  | Err (DuplicateRemovePoint o) => removed_twice self other o
  | Err (DuplicateAddPoint o) => added_twice self other o ∧ ∀ o', ¬ removed_twice self other o'
  | _ => False
  end.
Proof.
  unfold with_diff, with_diff_in_place, get, modify, lift, reject, mbind, M_bind.
  destruct (intersects_with_rule (removed other) (ud_remove self) _) as [o|] eqn:HR1.
  { cbn. apply intersects_with_rule_Some in HR1 as (e & e' & He & He' & Hr). rewrite contains_same_daa in Hr.
    exists e, e'. split_and!; [done..|]. rewrite <- same_daa_true. by destruct (same_daa _ _). }
  assert (∀ o, ¬ removed_twice self other o) as Hnr.
  { rewrite intersects_with_rule_None in HR1. intros o (e & e' & He & He' & Hn). apply Hn, same_daa_true.
    specialize (HR1 o e e' He He'). rewrite contains_same_daa in HR1. by destruct (same_daa _ _). }
  destruct (intersects_with_rule (added other) (ud_add self) _) as [o|] eqn:HA2.
  { cbn. split; [|done]. apply intersects_with_rule_Some in HA2 as (e & e' & He & He' & Hr). rewrite contains_same_daa in Hr.
    exists e, e'. split_and!; [done..|]. rewrite <- same_daa_true. by destruct (same_daa _ _). }
  assert (∀ o, ¬ added_twice self other o) as Hna.
  { rewrite intersects_with_rule_None in HA2. intros o (e & e' & He & He' & Hn). apply Hn, same_daa_true.
    specialize (HA2 o e e' He He'). rewrite contains_same_daa in HA2. by destruct (same_daa _ _). }
  repeat case_match; simplify_eq; done.
Qed.

Lemma compose_at_ok (a r a' r' u : option UtxoEntry) :
  applies_at a r u → applies_at a' r' (apply_at a r u) → coherent_at u a' →
  composable_at a r a' r' ∧ ∀ b s, (b, s) = compose_at a r a' r' →
  applies_at b s u ∧ apply_at b s u = apply_at a' r' (apply_at a r u) ∧ (normal_at a r → normal_at b s).
Proof.
  unfold composable_at, compose_at, after_remove, after_add, applies_at, apply_at, coherent_at, normal_at, same_daa.
  intros. destruct a as [a|], r as [r|], a' as [a'|], r' as [r'|], u as [u|]; simplify_eq/=;
    at_cases.
Qed.

Lemma with_diff_ok (self : UtxoDiff) (other : D) U :
  applies self U → applies other (apply self U) → coherent U (added other) →
  ∃ d, with_diff self other = Ok d ∧ applies d U ∧ apply d U = apply other (apply self U) ∧ (normal self → normal d).
Proof.
  rewrite !applies_pointwise, coherent_pointwise. setoid_rewrite lookup_apply. intros Hs Ho Hc.
  destruct (with_diff_at self other) as (d & Hd & Hat).
  { intros o. by eapply compose_at_ok. }
  exists d. rewrite applies_pointwise, !normal_pointwise.
  assert (Hall : ∀ o, _) by
    (intros o; exact (proj2 (compose_at_ok _ _ _ _ _ (Hs o) (Ho o) (Hc o)) _ _ (Hat o))).
  split; [done|]. split_and!.
  - intros o. apply Hall.
  - apply map_eq. intros o. rewrite !lookup_apply. apply Hall.
  - intros Hn o. by apply Hall.
Qed.
End composition.

(** ** Difference

    What [diff_from] leaves at an outpoint. *)

Section difference.
Context `{IterationOrder, !IterationLaws} `{ImmutableUtxoDiff D}.

Definition subtract_at (this other result : option UtxoEntry) : option UtxoEntry :=
  match this with Some e => if same_daa other e then result else Some e | None => result end.
Definition difference_at (a r a' r' : option UtxoEntry) : option UtxoEntry * option UtxoEntry :=
  (subtract_at a' a (subtract_at r r' None), subtract_at r' r (subtract_at a a' None)).

Definition separable_at (a r a' r' : option UtxoEntry) : Prop :=
  (∀ e e', r = Some e → a' = Some e' → ue_block_daa_score e' ≠ ue_block_daa_score e ∧ (same_daa a e' || same_daa r' e)) ∧
  (∀ e e', a = Some e → r' = Some e' → ue_block_daa_score e' ≠ ue_block_daa_score e ∧ (same_daa r e' || same_daa a' e)) ∧
  (∀ e e', r = Some e → r' = Some e' → ue_block_daa_score e' = ue_block_daa_score e) ∧
  (∀ e e', a = Some e → a' = Some e' → ue_block_daa_score e' = ue_block_daa_score e → is_Some r ↔ is_Some r').

Lemma diff_from_at (self : UtxoDiff) (other : D) :
  (∀ o, separable_at (ud_add self !! o) (ud_remove self !! o) (added other !! o) (removed other !! o)) →
  ∃ d, diff_from self other = Ok d ∧
    ∀ o, (ud_add d !! o, ud_remove d !! o) =
      difference_at (ud_add self !! o) (ud_remove self !! o) (added other !! o) (removed other !! o).
Proof.
  intros Hs. unfold diff_from, reject.
  rewrite (proj2 (intersects_with_rule_None (ud_remove self) (added other) _)).
  2:{ intros o e e' He He'. rewrite !contains_same_daa. destruct (Hs o) as (Hk & _).
      destruct (Hk e e' He He') as [->%Z.eqb_neq ->%Is_true_eq_true]. done. }
  rewrite (proj2 (intersects_with_rule_None (ud_add self) (removed other) _)).
  2:{ intros o e e' He He'. rewrite !contains_same_daa. destruct (Hs o) as (_ & Hk & _).
      destruct (Hk e e' He He') as [->%Z.eqb_neq ->%Is_true_eq_true]. done. }
  rewrite (proj2 (intersects_with_rule_None (ud_remove self) (removed other) _)).
  2:{ intros o e e' He He'. destruct (Hs o) as (_ & _ & Hk & _). by rewrite (Hk e e'), Z.eqb_refl. }
  destruct (subtraction_with_remainder_having_daa_score_in_place _ _ _ _) as [r1 both] eqn:E1.
  assert (L : ∀ o, _) by (intros o; exact (lookup_subtraction_with_remainder (ud_add self) (added other) ∅ ∅ o)).
  rewrite E1 in L. cbn in L.
  rewrite (proj2 (eqb_true_iff _ _)).
  2:{ apply eq_true_iff_eq. rewrite !intersects_spec. f_equiv. intros o. destruct (Hs o) as (_ & _ & _ & H4).
      destruct (L o) as [_ ->]. destruct (ud_add self !! o) as [e|], (added other !! o) as [e'|]; simpl;
        rewrite ?lookup_empty; [|naive_solver..].
      destruct (Z.eqb_spec (ue_block_daa_score e') (ue_block_daa_score e)); naive_solver. }
  eexists. split; [done|]. intros o. cbn [ud_add ud_remove]. rewrite !lookup_subtraction, lookup_empty.
  by rewrite (proj1 (L o)), lookup_empty.
Qed.

Lemma difference_at_ok (a r a' r' u : option UtxoEntry) :
  applies_at a r u → applies_at a' r' u → normal_at a r → normal_at a' r' → coherent_at a a' →
  separable_at a r a' r' ∧ ∀ b s, (b, s) = difference_at a r a' r' →
  applies_at b s (apply_at a r u) ∧ apply_at b s (apply_at a r u) = apply_at a' r' u ∧ normal_at b s ∧
  (coherent_at u a' → coherent_at u b).
Proof.
  unfold separable_at, difference_at, subtract_at, applies_at, apply_at, coherent_at, normal_at, same_daa.
  intros. destruct a as [a|], r as [r|], a' as [a'|], r' as [r'|], u as [u|]; simplify_eq/=;
    at_cases.
Qed.

Lemma diff_from_ok (self : UtxoDiff) (other : D) U :
  applies self U → applies other U → normal self → normal other → coherent (added self) (added other) →
  ∃ d, diff_from self other = Ok d ∧ applies d (apply self U) ∧ apply d (apply self U) = apply other U ∧ normal d ∧
    (coherent U (added other) → coherent U (added d)).
Proof.
  rewrite !applies_pointwise, !normal_pointwise, coherent_pointwise. intros Hs Ho Hn Hm Hc.
  destruct (diff_from_at self other) as (d & Hd & Hat).
  { intros o. by eapply difference_at_ok. }
  exists d. rewrite applies_pointwise, normal_pointwise, !coherent_pointwise.
  assert (Hall : ∀ o, _) by
    (intros o; exact (proj2 (difference_at_ok _ _ _ _ _ (Hs o) (Ho o) (Hn o) (Hm o) (Hc o)) _ _ (Hat o))).
  split; [done|]. split_and!.
  - intros o. rewrite lookup_apply. apply Hall.
  - apply map_eq. intros o. rewrite !lookup_apply. apply Hall.
  - intros o. apply Hall.
  - intros Hu o. by apply Hall.
Qed.
End difference.

(** ** Reversal and views *)

Section reversal.
Context `{ImmutableUtxoDiff D}.

Lemma reversed_ok (d : UtxoDiff) U :
  applies d U → applies (as_reversed d) (apply d U) ∧ apply (as_reversed d) (apply d U) = U.
Proof.
  rewrite !applies_pointwise. setoid_rewrite lookup_apply. intros Hd. split.
  - intros o. specialize (Hd o). simpl in *. unfold applies_at, apply_at in *.
    destruct (ud_add d !! o), (ud_remove d !! o); naive_solver.
  - apply map_eq. intros o. rewrite !lookup_apply. specialize (Hd o). simpl in *. unfold applies_at, apply_at in *.
    destruct (ud_add d !! o), (ud_remove d !! o); naive_solver.
Qed.

Lemma to_reversed_same (d : UtxoDiff) U : apply (to_reversed d) U = apply (as_reversed d) U.
Proof. done. Qed.

(** A view shows a collection. *)
Definition shows `{UtxoView V} (v : V) (U : UtxoCollection) : Prop := ∀ o, view_get v o = U !! o.

Lemma composed_shows `{UtxoView V} (v : V) (d : D) U : shows v U → shows (compose v d) (apply d U).
Proof.
  intros Hv o. rewrite lookup_apply. unfold view_get, composed_view, compose, contains_key, apply_at. simpl.
  destruct (added d !! o); [done|]. case_bool_decide as Hr.
  - by destruct Hr as [? ->].
  - rewrite Hv. by apply eq_None_not_Some in Hr as ->.
Qed.
End reversal.

(** ** Transactions *)

Section transactions.
Context (U : UtxoCollection).

(** [d'] records the change of [U] into [W]. *)
Definition records (d d' : UtxoDiff) (W : UtxoCollection) : Prop :=
  applies d' U ∧ apply d' U = W ∧ (normal d → normal d').

(** A change of a diff at one outpoint. *)
Lemma records_at (d d' : UtxoDiff) o W :
  (∀ o', o' ≠ o → ud_add d' !! o' = ud_add d !! o' ∧ ud_remove d' !! o' = ud_remove d !! o') →
  (∀ o', o' ≠ o → W !! o' = apply d U !! o') →
  applies d U →
  applies_at (ud_add d' !! o) (ud_remove d' !! o) (U !! o) →
  apply_at (ud_add d' !! o) (ud_remove d' !! o) (U !! o) = W !! o →
  (normal_at (ud_add d !! o) (ud_remove d !! o) → normal_at (ud_add d' !! o) (ud_remove d' !! o)) →
  records d d' W.
Proof.
  unfold records. rewrite !applies_pointwise, !normal_pointwise. intros Hd HW Ha Hat Heq Hn. split_and!.
  - intros o'. destruct (decide (o' = o)) as [->|Ho]; [done|]. simpl. destruct (Hd o' Ho) as [-> ->]. apply Ha.
  - apply map_eq. intros o'. rewrite lookup_apply. destruct (decide (o' = o)) as [->|Ho]; [done|].
    rewrite HW by done. rewrite lookup_apply. simpl. by destruct (Hd o' Ho) as [-> ->].
  - intros Hnd o'. destruct (decide (o' = o)) as [->|Ho]; [apply Hn, Hnd|]. simpl.
    destruct (Hd o' Ho) as [-> ->]. apply Hnd.
Qed.

Lemma remove_entry_ok d o e :
  applies d U → apply d U !! o = Some e →
  runs (remove_entry o e) d (λ _ d', records d d' (delete o (apply d U))).
Proof.
  intros Ha Hv. pose proof (proj1 (applies_pointwise _ _) Ha o) as Hat. simpl in Hat.
  rewrite lookup_apply in Hv. simpl in Hv. unfold remove_entry. apply runs_bind, runs_get.
  rewrite contains_same_daa. unfold applies_at, apply_at in Hat, Hv.
  destruct (ud_add d !! o) as [a|] eqn:Hadd; simplify_eq/=.
  - rewrite Z.eqb_refl. eapply runs_intro; [done|]. apply (records_at _ _ o); simpl; try done.
    + intros o' Ho. by rewrite lookup_delete_ne.
    + intros o' Ho. by rewrite lookup_delete_ne.
    + rewrite lookup_delete_eq. destruct (ud_remove d !! o); naive_solver.
    + rewrite !lookup_delete_eq. destruct (ud_remove d !! o); simpl; naive_solver.
    + by rewrite lookup_delete_eq.
  - destruct (ud_remove d !! o) as [r|] eqn:Hr; simplify_eq/=.
    eapply runs_intro; [done|]. apply (records_at _ _ o); simpl; try done.
    + intros o' Ho. by rewrite lookup_insert_ne.
    + intros o' Ho. by rewrite lookup_delete_ne.
    + by rewrite lookup_insert_eq.
    + by rewrite Hadd, lookup_insert_eq, lookup_delete_eq.
    + by rewrite Hadd.
Qed.

Lemma add_entry_ok d o e :
  applies d U → apply d U !! o = None → coherent_at (U !! o) (Some e) →
  runs (add_entry o e) d (λ _ d', records d d' (<[o := e]> (apply d U))).
Proof.
  intros Ha Hv Hc. pose proof (proj1 (applies_pointwise _ _) Ha o) as Hat. simpl in Hat.
  rewrite lookup_apply in Hv. simpl in Hv. unfold add_entry. apply runs_bind, runs_get.
  rewrite contains_same_daa. unfold applies_at, apply_at in Hat, Hv.
  destruct (ud_add d !! o) as [a|] eqn:Hadd; simplify_eq/=.
  destruct (same_daa (ud_remove d !! o) e) eqn:Hs.
  - destruct (ud_remove d !! o) as [r|] eqn:Hr; simplify_eq/=. apply Z.eqb_eq in Hs. rewrite Hat in Hc.
    eapply runs_intro; [done|]. apply (records_at _ _ o); simpl; try done.
    + intros o' Ho. by rewrite lookup_delete_ne.
    + intros o' Ho. by rewrite lookup_insert_ne.
    + rewrite lookup_delete_eq. by left.
    + rewrite Hadd, lookup_delete_eq, lookup_insert_eq, Hat. simpl. by rewrite Hc.
    + by rewrite Hadd.
  - eapply runs_intro; [done|]. apply (records_at _ _ o); simpl; try done.
    + intros o' Ho. by rewrite lookup_insert_ne.
    + intros o' Ho. by rewrite lookup_insert_ne.
    + rewrite lookup_insert_eq. destruct (ud_remove d !! o); naive_solver.
    + by rewrite !lookup_insert_eq.
    + rewrite lookup_insert_eq. intros _. simpl in Hs. destruct (ud_remove d !! o) as [r|]; [|done].
      simpl in *. apply Z.eqb_neq in Hs. congruence.
Qed.

Definition spend (outpoints : list TransactionOutpoint) (V : UtxoCollection) : UtxoCollection :=
  foldl (λ V o, delete o V) V outpoints.
Definition create (outs : list (TransactionOutpoint * UtxoEntry)) (V : UtxoCollection) : UtxoCollection :=
  foldl (λ V '(o, e), <[o := e]> V) V outs.

Lemma records_trans d d1 d2 W W' : records d d1 W → records d1 d2 W' → records d d2 W'.
Proof. unfold records. naive_solver. Qed.

Lemma spend_runs (items : list (TransactionInput * UtxoEntry)) d :
  applies d U → NoDup (in_previous_outpoint ∘ fst <$> items) →
  Forall (λ p, apply d U !! in_previous_outpoint p.1 = Some p.2) items →
  runs (for_each (Ok <$> items) (λ item, '(input, entry) ← lift item; remove_entry (in_previous_outpoint input) entry))
    d (λ _ d', records d d' (spend (in_previous_outpoint ∘ fst <$> items) (apply d U))).
Proof.
  revert d. induction items as [|[i e] items IH]; intros d Ha Hnd Hf; [by apply runs_ret|].
  apply NoDup_cons in Hnd as [Hi Hnd]. apply Forall_cons in Hf as [He Hf]. cbn [for_each fmap list_fmap].
  apply runs_bind, runs_bind. eapply runs_lift; [done|].
  eapply runs_mono; [by apply remove_entry_ok|]. intros ? d1 Hr; cbn beta in Hr. pose proof Hr as (Ha1 & Hv1 & _).
  eapply runs_mono; [apply IH; [done|done|]|].
  - rewrite Hv1. apply Forall_forall. intros [i' e'] Hin. rewrite lookup_delete_ne.
    + by rewrite Forall_forall in Hf; apply (Hf (i', e')).
    + intros Heq. simpl in Heq. apply Hi. apply list_elem_of_fmap. by exists (i', e').
  - intros ? d2 Hr2; cbn beta in Hr2. rewrite Hv1 in Hr2. by eapply records_trans.
Qed.

Lemma create_runs (outs : list (TransactionOutpoint * UtxoEntry)) d :
  applies d U → NoDup outs.*1 → Forall (λ p, apply d U !! p.1 = None ∧ coherent_at (U !! p.1) (Some p.2)) outs →
  runs (for_each outs (λ '(outpoint, entry), add_entry outpoint entry))
    d (λ _ d', records d d' (create outs (apply d U))).
Proof.
  revert d. induction outs as [|[o e] outs IH]; intros d Ha Hnd Hf; [by apply runs_ret|].
  apply NoDup_cons in Hnd as [Hi Hnd]. apply Forall_cons in Hf as [[Ho Hc] Hf]. cbn [for_each].
  apply runs_bind. eapply runs_mono; [by apply add_entry_ok|]. intros ? d1 Hr; cbn beta in Hr. pose proof Hr as (Ha1 & Hv1 & _).
  eapply runs_mono; [apply IH; [done|done|]|].
  - rewrite Hv1. apply Forall_forall. intros [o' e'] Hin. rewrite Forall_forall in Hf.
    destruct (Hf _ Hin) as [Hn' Hc']. split; [|done]. rewrite lookup_insert_ne; [done|].
    intros Heq. simpl in Heq. apply Hi, list_elem_of_fmap. by exists (o', e').
  - intros ? d2 Hr2; cbn beta in Hr2. rewrite Hv1 in Hr2. by eapply records_trans.
Qed.
End transactions.

Lemma lookup_spend os V o : spend os V !! o = if decide (o ∈ os) then None else V !! o.
Proof.
  revert V. induction os as [|o' os IH]; intros V.
  - by rewrite decide_False by set_solver.
  - change (spend (o' :: os) V) with (spend os (delete o' V)). rewrite IH. destruct (decide (o ∈ os)); [by rewrite decide_True by set_solver|].
    destruct (decide (o = o')) as [->|Ho].
    + by rewrite lookup_delete_eq, decide_True by set_solver.
    + by rewrite lookup_delete_ne, decide_False by set_solver.
Qed.

Definition spent_outpoints `{VerifiableTransaction T} (t : T) : list TransactionOutpoint :=
  in_previous_outpoint <$> vt_inputs t.
Definition created_utxos `{VerifiableTransaction T} (t : T) (daa : Z) : list (TransactionOutpoint * UtxoEntry) :=
  imap (output_utxo (vt_id t) (vt_is_coinbase t) daa) (vt_outputs t).

(** [t] can be executed on [V]: its inputs are different outputs of [V], populated with
    their entries, and its own outputs are new. *)
Record executable `{VerifiableTransaction T} (t : T) (daa : Z) (V : UtxoCollection) : Prop := {
  ex_inputs : ∃ entries, populated_with t entries ∧
    Forall2 (λ i e, V !! in_previous_outpoint i = Some e) (vt_inputs t) entries;
  ex_distinct : NoDup (spent_outpoints t);
  ex_count : Z.of_nat (length (vt_outputs t)) ≤ 2 ^ 32;
  ex_fresh : Forall (λ p, spend (spent_outpoints t) V !! p.1 = None) (created_utxos t daa);
}.

(** The set after the transaction. *)
Definition execute `{VerifiableTransaction T} (t : T) (daa : Z) (V : UtxoCollection) : UtxoCollection :=
  create (created_utxos t daa) (spend (spent_outpoints t) V).

Section execution.
Context `{VerifiableTransaction T} (t : T) (daa : Z).

Lemma created_distinct : Z.of_nat (length (vt_outputs t)) ≤ 2 ^ 32 → NoDup (created_utxos t daa).*1.
Proof.
  intros Hl. unfold created_utxos. rewrite fmap_imap.
  apply NoDup_alt. intros i j o Hi Hj. rewrite list_lookup_imap in Hi, Hj.
  destruct (vt_outputs t !! i) eqn:Ei; [|done]. destruct (vt_outputs t !! j) eqn:Ej; [|done].
  apply lookup_lt_Some in Ei, Ej. simplify_eq/=. rewrite !Z.mod_small in * by lia. lia.
Qed.

Lemma add_transaction_ok U d :
  applies d U → executable t daa (apply d U) →
  Forall (λ p, coherent_at (U !! p.1) (Some p.2)) (created_utxos t daa) →
  runs (add_transaction t daa) d (λ _ d', records U d d' (execute t daa (apply d U))).
Proof.
  intros Ha [(entries & [Hl Hpop] & Hin) Hnd Hc Hf] Hco. unfold add_transaction. rewrite Hpop.
  assert (Hmap : in_previous_outpoint ∘ fst <$> zip (vt_inputs t) entries = spent_outpoints t).
  { unfold spent_outpoints. rewrite list_fmap_compose, fst_zip by lia. done. }
  apply runs_bind. eapply runs_mono.
  { apply (spend_runs U); [done|by rewrite Hmap|]. apply Forall_forall. intros [i e] Hie.
    apply list_elem_of_lookup in Hie as [n Hn]. apply lookup_zip_with_Some in Hn as (? & ? & [= -> ->] & Hi & He).
    by apply (Forall2_lookup_lr _ _ _ _ _ _ Hin Hi He). }
  intros ? d1 Hr; cbn beta in Hr. rewrite Hmap in Hr. pose proof Hr as (Ha1 & Hv1 & _).
  eapply runs_mono.
  { apply (create_runs U); [done|by apply created_distinct|]. rewrite Hv1. by apply Forall_and. }
  intros ? d2 Hr2; cbn beta in Hr2. rewrite Hv1 in Hr2. by eapply records_trans.
Qed.
End execution.

(** ** Properties *)

Section properties.
Context `{IterationOrder, !IterationLaws}.

(** C20: Composition.  When a diff applies to a UTXO set and a second one applies to the
    result, [with_diff] succeeds whatever order the hash maps are iterated in, the
    composed diff applies to the original set and has the effect of the first diff
    followed by the second; it stays normal (no output removed and added with the same
    DAA score) when the first diff is.  For any two diffs it fails exactly when they
    contradict each other: an outpoint is removed by both and was not added by the first
    with the score of the removal, or else is added by both and not removed by the second
    with the score of the first addition; the error names such an outpoint. *)
Theorem with_diff_correct {D} `{ImmutableUtxoDiff D} (self : UtxoDiff) (other : D) :
  (∀ U, applies self U → applies other (apply self U) → coherent U (added other) →
     ∃ d, with_diff self other = Ok d ∧ applies d U ∧ apply d U = apply other (apply self U) ∧ (normal self → normal d))
  ∧ match with_diff self other with
    | Ok _ => ∀ o, ¬ removed_twice self other o ∧ ¬ added_twice self other o
    | Err (DuplicateRemovePoint o) => removed_twice self other o
    | Err (DuplicateAddPoint o) => added_twice self other o ∧ ∀ o', ¬ removed_twice self other o'
    | _ => False
    end.
Proof. split; [intros U; apply with_diff_ok|apply with_diff_outcomes]. Qed.

(** Difference.  For two normal diffs over the same UTXO set, [diff_from] succeeds;
    its result leads from the set of the first to the set of the second, and composing
    the first diff with it gives a diff with the effect of the second. *)
Theorem diff_from_correct {D} `{ImmutableUtxoDiff D} (self : UtxoDiff) (other : D) (U : UtxoCollection) :
  applies self U → applies other U → normal self → normal other →
  coherent (added self) (added other) → coherent U (added other) →
  ∃ d d', diff_from self other = Ok d ∧ normal d ∧ applies d (apply self U) ∧
    apply d (apply self U) = apply other U ∧
    with_diff self d = Ok d' ∧ applies d' U ∧ apply d' U = apply other U.
Proof.
  intros Hs Ho Hn Hm Hc Hu. destruct (diff_from_ok self other U) as (d & Hd & Ha & He & Hnd & Hcd); try done.
  destruct (with_diff_ok self d U) as (d' & Hd' & Ha' & He' & _); [done|done|by apply Hcd|].
  exists d, d'. by rewrite He', He.
Qed.

(** Layers.  On top of a view of a UTXO set, two composed diff layers show the set
    after both changes, the single layer that [with_diff] computes shows the same, and
    a layer of the reversed diff hides a layer again. *)
Theorem layered_views_correct {V} `{UtxoView V} (base : V) (first second : UtxoDiff) (U : UtxoCollection) :
  shows base U → applies first U → applies second (apply first U) → coherent U (ud_add second) →
  (∀ o, view_get (compose (compose base first) second) o = apply second (apply first U) !! o) ∧
  (∃ d, with_diff first second = Ok d ∧
    ∀ o, view_get (compose base d) o = view_get (compose (compose base first) second) o) ∧
  (∀ o, view_get (compose (compose base first) (as_reversed first)) o = view_get base o).
Proof.
  intros Hb Hf Hd2 Hc. pose proof (composed_shows _ second _ (composed_shows _ first _ Hb)) as Hs.
  split; [exact Hs|]. split.
  - destruct (with_diff_ok first second U) as (d & Hd & _ & He & _); try done. exists d. split; [done|].
    intros o. rewrite Hs, <-He. by apply composed_shows.
  - intros o. rewrite Hb. rewrite (composed_shows _ (as_reversed first) _ (composed_shows _ first _ Hb)).
    by rewrite (proj2 (reversed_ok first U Hf)).
Qed.
End properties.

(** A transaction that can be executed on the set a diff describes (its inputs are
    distinct outputs of the set, populated with their entries, its outputs are new) is
    added to the diff without an error or a panic, and the diff then describes the set
    with the inputs spent and the outputs created; it stays normal. *)
Theorem add_transaction_correct {T} `{VerifiableTransaction T} (t : T) (daa : Z) (U : UtxoCollection) (d : UtxoDiff) :
  applies d U → executable t daa (apply d U) →
  Forall (λ p, coherent_at (U !! p.1) (Some p.2)) (created_utxos t daa) →
  ∃ d', add_transaction t daa d = (Ok tt, d') ∧ applies d' U ∧ (normal d → normal d') ∧
    ∀ o, view_get (compose U d') o = execute t daa (apply d U) !! o.
Proof.
  intros Ha He Hc. destruct (runs_elim _ _ _ (add_transaction_ok t daa U d Ha He Hc)) as ([] & d' & Hr & Ha' & Hv & Hn).
  exists d'. split_and!; [done|done|done|]. intros o. rewrite <-Hv. by apply composed_shows.
Qed.

(** ** Examples *)

Definition ex_spk : ScriptPublicKey := mkSpk 0 [32; 7; 172]%N.
Definition ex_op (tx : N) (i : Z) : TransactionOutpoint := mkOutpoint tx i.
Definition ex_entry (amount daa : Z) : UtxoEntry := mkEntry amount ex_spk daa false.

(** Output (1, 0) of the set was spent and accepted again with a later score. *)
Definition ex_set : UtxoCollection := <[ex_op 1 0 := ex_entry 10 3]> (<[ex_op 1 1 := ex_entry 20 3]> ∅).
Definition ex_first : UtxoDiff := mkDiff (<[ex_op 1 0 := ex_entry 10 5]> (<[ex_op 2 0 := ex_entry 4 5]> ∅))
  (<[ex_op 1 0 := ex_entry 10 3]> ∅).
Definition ex_second : UtxoDiff := mkDiff (<[ex_op 3 0 := ex_entry 13 6]> ∅)
  (<[ex_op 1 0 := ex_entry 10 5]> (<[ex_op 1 1 := ex_entry 20 3]> ∅)).
Definition ex_other : UtxoDiff := mkDiff (<[ex_op 1 0 := ex_entry 10 5]> (<[ex_op 4 0 := ex_entry 8 5]> ∅))
  (<[ex_op 1 0 := ex_entry 10 3]> (<[ex_op 1 1 := ex_entry 20 3]> ∅)).
Definition ex_tx : Transaction :=
  mkTx 0 [mkInput (ex_op 1 1) [] 0 0; mkInput (ex_op 2 0) [] 0 0] [mkOutput 24 ex_spk] 0
    Subnets.SUBNETWORK_ID_NATIVE 0 [] 9%N.
Definition ex_populated : PopulatedTransaction := mkPopulated ex_tx [ex_entry 20 3; ex_entry 4 5].

Definition list_order : IterationOrder := λ c, map_to_list c.
Lemma list_order_laws : @IterationLaws list_order.
Proof. by intros c. Qed.

Ltac decided := refine (bool_decide_unpack _ _); vm_compute; exact I.

Lemma with_diff_correct_witness : ∃ d,
  @with_diff list_order _ _ ex_first ex_second = Ok d ∧ applies d ex_set ∧
  apply d ex_set = apply ex_second (apply ex_first ex_set) ∧ (normal ex_first → normal d).
Proof. apply (@with_diff_correct list_order list_order_laws _ _ ex_first ex_second); decided. Defined.

Lemma diff_from_correct_witness : ∃ d d',
  @diff_from list_order _ _ ex_first ex_other = Ok d ∧ normal d ∧ applies d (apply ex_first ex_set) ∧
  apply d (apply ex_first ex_set) = apply ex_other ex_set ∧
  @with_diff list_order _ _ ex_first d = Ok d' ∧ applies d' ex_set ∧ apply d' ex_set = apply ex_other ex_set.
Proof. apply (@diff_from_correct list_order list_order_laws); decided. Defined.

Lemma layered_views_correct_witness :
  (∀ o, view_get (compose (compose ex_set ex_first) ex_second) o = apply ex_second (apply ex_first ex_set) !! o) ∧
  (∃ d, @with_diff list_order _ _ ex_first ex_second = Ok d ∧
    ∀ o, view_get (compose ex_set d) o = view_get (compose (compose ex_set ex_first) ex_second) o) ∧
  (∀ o, view_get (compose (compose ex_set ex_first) (as_reversed ex_first)) o = view_get ex_set o).
Proof. apply (@layered_views_correct list_order list_order_laws); [done|decided..]. Defined.

Lemma ex_executable : executable ex_populated 8 (apply ex_first ex_set).
Proof.
  split.
  - exists [ex_entry 20 3; ex_entry 4 5]. split; [by split|]. repeat constructor.
  - decided.
  - by vm_compute.
  - repeat constructor.
Qed.

Lemma add_transaction_correct_witness : ∃ d',
  add_transaction ex_populated 8 ex_first = (Ok tt, d') ∧ applies d' ex_set ∧ (normal ex_first → normal d') ∧
  ∀ o, view_get (compose ex_set d') o = execute ex_populated 8 (apply ex_first ex_set) !! o.
Proof. apply add_transaction_correct; [decided|apply ex_executable|decided]. Defined.
