(* ===== verification/Hashing.v ===== *)
(** * What is hashed

    [consensus/core/src/hashing/] and [sign.rs], [muhash.rs]: the bytes that are
    written into a hasher for a transaction, a header, a UTXO entry and a signature.
    The hash functions themselves are external: [digest] gives, for each hasher of
    [crypto/hashes/src/hashers.rs], the result of [finalize] after the given bytes. *)

From S2P Require Import Prelude Hash Errors Headers Tx.

Inductive HasherKind : Type :=
| TransactionHash
| TransactionID
| TransactionSigningHash
| BlockHash
| ProofOfWorkHash
| MerkleBranchHash
| MuHashElementHash
| MuHashFinalizeHash
| TransactionSigningHashECDSA.

Class Hashers : Type := digest : HasherKind → list N → Hash.

Definition ZERO_HASH : Hash := Hashes.from_bytes (replicate Hashes.HASH_SIZE 0%N).

(** ** [HasherExtensions]: the bytes each method writes *)

Definition le (n : nat) (x : Z) : list N := Hashes.le_bytes n (Z.to_N x).

Definition write_len (len : nat) : list N := le 8 (Z.of_nat len).
Definition write_bool (element : bool) : list N := if element then [1%N] else [0%N].
Definition write_u8 (element : Z) : list N := le 1 element.
Definition write_u16 (element : Z) : list N := le 2 element.
Definition write_u32 (element : Z) : list N := le 4 element.
Definition write_u64 (element : Z) : list N := le 8 element.
Definition write_var_bytes (bytes : list N) : list N := write_len (length bytes) ++ bytes.
Definition write_var_array (arr : list Hash) : list N :=
  write_len (length arr) ++ mjoin (Hashes.as_bytes <$> arr).

(** [BlueWorkType] has 24 bytes; the leading zeros are dropped. *)
Fixpoint skip_zeros (bytes : list N) : list N :=
  match bytes with
  | 0%N :: rest => skip_zeros rest
  | _ => bytes
  end.
Definition write_blue_work (work : Z) : list N :=
  write_var_bytes (skip_zeros (Hashes.to_bytes 24 (Z.to_N work))).

(** ** [hashing/tx.rs] *)

Definition TX_ENCODING_FULL : N := 0.
Definition TX_ENCODING_EXCLUDE_SIGNATURE_SCRIPT : N := 1.

Definition write_outpoint (outpoint : TransactionOutpoint) : list N :=
  Hashes.as_bytes (op_transaction_id outpoint) ++ write_u32 (op_index outpoint).

Definition write_input (encoding_flags : N) (input : TransactionInput) : list N :=
  write_outpoint (in_previous_outpoint input) ++
  (if negb (N.land encoding_flags TX_ENCODING_EXCLUDE_SIGNATURE_SCRIPT =? TX_ENCODING_EXCLUDE_SIGNATURE_SCRIPT)%N
   then write_var_bytes (in_signature_script input) ++ write_u8 (in_sig_op_count input)
   else write_var_bytes []) ++
  write_u64 (in_sequence input).

Definition write_output (output : TransactionOutput) : list N :=
  write_u64 (out_value output) ++
  write_u16 (spk_version (out_script_public_key output)) ++
  write_var_bytes (spk_script (out_script_public_key output)).

Definition write_transaction (tx : Transaction) (encoding_flags : N) : list N :=
  write_u16 (tx_version tx) ++ write_len (length (tx_inputs tx)) ++
  mjoin (write_input encoding_flags <$> tx_inputs tx) ++
  write_len (length (tx_outputs tx)) ++
  mjoin (write_output <$> tx_outputs tx) ++
  write_u64 (tx_lock_time tx) ++ tx_subnetwork_id tx ++ write_u64 (tx_gas tx) ++ write_var_bytes (tx_payload tx).

Section tx_hashing.
Context `{Hashers}.

Definition tx_hash (tx : Transaction) : Hash := digest TransactionHash (write_transaction tx TX_ENCODING_FULL).

(** [hashing::tx::id]. *)
Definition calc_tx_id (tx : Transaction) : Hash :=
  let encoding_flags := if is_coinbase tx then TX_ENCODING_FULL else TX_ENCODING_EXCLUDE_SIGNATURE_SCRIPT in
  digest TransactionID (write_transaction tx encoding_flags).

(** [Transaction::finalize] and [Transaction::new]. *)
Definition tx_finalize (tx : Transaction) : Transaction :=
  mkTx (tx_version tx) (tx_inputs tx) (tx_outputs tx) (tx_lock_time tx) (tx_subnetwork_id tx) (tx_gas tx)
    (tx_payload tx) (calc_tx_id tx).
Definition tx_new (version : Z) (inputs : list TransactionInput) (outputs : list TransactionOutput) (lock_time : Z)
    (subnetwork_id : Subnets.SubnetworkId) (gas : Z) (payload : list N) : Transaction :=
  tx_finalize (mkTx version inputs outputs lock_time subnetwork_id gas payload ZERO_HASH).

(** ** [hashing/header.rs] and [Header::new] *)

Definition header_bytes (header : Header) (nonce timestamp : Z) : list N :=
  write_u16 (h_version header) ++ write_len (length (h_parents_by_level header)) ++
  mjoin (write_var_array <$> h_parents_by_level header) ++
  Hashes.as_bytes (h_hash_merkle_root header) ++
  Hashes.as_bytes (h_accepted_id_merkle_root header) ++
  Hashes.as_bytes (h_utxo_commitment header) ++
  write_u64 timestamp ++ write_u32 (h_bits header) ++ write_u64 nonce ++
  write_u64 (h_daa_score header) ++ write_u64 (h_blue_score header) ++
  write_blue_work (h_blue_work header) ++
  Hashes.as_bytes (h_pruning_point header).

Definition hash_override_nonce_time (header : Header) (nonce timestamp : Z) : Hash :=
  digest BlockHash (header_bytes header nonce timestamp).
Definition header_hash (header : Header) : Hash :=
  hash_override_nonce_time header (h_nonce header) (h_timestamp header).

Definition header_finalize (h : Header) : Header :=
  mkHeader (header_hash h) (h_version h) (h_parents_by_level h) (h_hash_merkle_root h) (h_accepted_id_merkle_root h)
    (h_utxo_commitment h) (h_timestamp h) (h_bits h) (h_nonce h) (h_daa_score h) (h_blue_work h) (h_blue_score h)
    (h_pruning_point h).
Definition header_new (version : Z) (parents_by_level : list (list Hash))
    (hash_merkle_root accepted_id_merkle_root utxo_commitment : Hash)
    (timestamp bits nonce daa_score blue_work blue_score : Z) (pruning_point : Hash) : Header :=
  header_finalize (mkHeader ZERO_HASH version parents_by_level hash_merkle_root accepted_id_merkle_root utxo_commitment
    timestamp bits nonce daa_score blue_work blue_score pruning_point).
End tx_hashing.

(** ** [muhash.rs]: the bytes of an element of the UTXO multiset *)

Definition write_utxo (entry : UtxoEntry) (outpoint : TransactionOutpoint) : list N :=
  Hashes.as_bytes (op_transaction_id outpoint) ++ write_u32 (op_index outpoint) ++
  write_u64 (ue_block_daa_score entry) ++ write_u64 (ue_amount entry) ++ write_bool (ue_is_coinbase entry) ++
  write_u16 (spk_version (ue_script_public_key entry)) ++ write_var_bytes (spk_script (ue_script_public_key entry)).

(** ** [hashing/sighash_type.rs] *)

Module SigHash.
Definition SigHashType : Type := N.
Definition SIG_HASH_ALL : SigHashType := 1%N.
Definition SIG_HASH_NONE : SigHashType := 2%N.
Definition SIG_HASH_SINGLE : SigHashType := 4%N.
Definition SIG_HASH_ANY_ONE_CAN_PAY : SigHashType := 128%N.
Definition SIG_HASH_MASK : N := 7.

Definition ALLOWED_SIG_HASH_TYPES_VALUES : list N :=
  [SIG_HASH_ALL; SIG_HASH_NONE; SIG_HASH_SINGLE; N.lor SIG_HASH_ALL SIG_HASH_ANY_ONE_CAN_PAY;
   N.lor SIG_HASH_NONE SIG_HASH_ANY_ONE_CAN_PAY; N.lor SIG_HASH_SINGLE SIG_HASH_ANY_ONE_CAN_PAY].

Definition is_sighash_all (self : SigHashType) : bool := (N.land self SIG_HASH_MASK =? SIG_HASH_ALL)%N.
Definition is_sighash_none (self : SigHashType) : bool := (N.land self SIG_HASH_MASK =? SIG_HASH_NONE)%N.
Definition is_sighash_single (self : SigHashType) : bool := (N.land self SIG_HASH_MASK =? SIG_HASH_SINGLE)%N.
Definition is_sighash_anyone_can_pay (self : SigHashType) : bool :=
  (N.land self SIG_HASH_ANY_ONE_CAN_PAY =? SIG_HASH_ANY_ONE_CAN_PAY)%N.

Definition sighash_from_u8 (val : N) : option SigHashType :=
  if bool_decide (val ∈ ALLOWED_SIG_HASH_TYPES_VALUES) then Some val else None.

(** ** [hashing/sighash.rs] *)

Record SigHashReusedValues : Type := mkReused {
  rv_previous_outputs_hash : option Hash;
  rv_sequences_hash : option Hash;
  rv_sig_op_counts_hash : option Hash;
  rv_outputs_hash : option Hash;
}.
Definition reused_new : SigHashReusedValues := mkReused None None None None.

Section sighash.
Context `{Hashers} {E : Type}.

Definition hash_outpoint (outpoint : TransactionOutpoint) : list N :=
  Hashes.as_bytes (op_transaction_id outpoint) ++ write_u32 (op_index outpoint).
Definition hash_script_public_key (spk : ScriptPublicKey) : list N :=
  write_u16 (spk_version spk) ++ write_var_bytes (spk_script spk).
Definition hash_output (output : TransactionOutput) : list N :=
  write_u64 (out_value output) ++ hash_script_public_key (out_script_public_key output).

Definition previous_outputs_hash (tx : Transaction) (hash_type : SigHashType) : M SigHashReusedValues E Hash :=
  if is_sighash_anyone_can_pay hash_type then mret ZERO_HASH
  else
    reused_values ← get;
    match rv_previous_outputs_hash reused_values with
    | Some hash => mret hash
    | None =>
        let hash := digest TransactionSigningHash (mjoin ((λ input,
          Hashes.as_bytes (op_transaction_id (in_previous_outpoint input)) ++
          write_u32 (op_index (in_previous_outpoint input))) <$> tx_inputs tx)) in
        modify (λ rv, mkReused (Some hash) (rv_sequences_hash rv) (rv_sig_op_counts_hash rv) (rv_outputs_hash rv));;
        mret hash
    end.

Definition sequences_hash (tx : Transaction) (hash_type : SigHashType) : M SigHashReusedValues E Hash :=
  if is_sighash_single hash_type || is_sighash_anyone_can_pay hash_type || is_sighash_none hash_type
  then mret ZERO_HASH
  else
    reused_values ← get;
    match rv_sequences_hash reused_values with
    | Some hash => mret hash
    | None =>
        let hash := digest TransactionSigningHash (mjoin ((λ input, write_u64 (in_sequence input)) <$> tx_inputs tx)) in
        modify (λ rv, mkReused (rv_previous_outputs_hash rv) (Some hash) (rv_sig_op_counts_hash rv) (rv_outputs_hash rv));;
        mret hash
    end.

Definition sig_op_counts_hash (tx : Transaction) (hash_type : SigHashType) : M SigHashReusedValues E Hash :=
  if is_sighash_anyone_can_pay hash_type then mret ZERO_HASH
  else
    reused_values ← get;
    match rv_sig_op_counts_hash reused_values with
    | Some hash => mret hash
    | None =>
        let hash := digest TransactionSigningHash (mjoin ((λ input, write_u8 (in_sig_op_count input)) <$> tx_inputs tx)) in
        modify (λ rv, mkReused (rv_previous_outputs_hash rv) (rv_sequences_hash rv) (Some hash) (rv_outputs_hash rv));;
        mret hash
    end.

Definition payload_hash (tx : Transaction) : Hash :=
  if bool_decide (tx_subnetwork_id tx = Subnets.SUBNETWORK_ID_NATIVE) then ZERO_HASH
  else digest TransactionSigningHash (write_var_bytes (tx_payload tx)).

Definition outputs_hash (tx : Transaction) (hash_type : SigHashType) (input_index : nat) : M SigHashReusedValues E Hash :=
  if is_sighash_none hash_type then mret ZERO_HASH
  else if is_sighash_single hash_type then
    match tx_outputs tx !! input_index with
    | None => mret ZERO_HASH
    | Some output => mret (digest TransactionSigningHash (hash_output output))
    end
  else
    reused_values ← get;
    match rv_outputs_hash reused_values with
    | Some hash => mret hash
    | None =>
        let hash := digest TransactionSigningHash (mjoin (hash_output <$> tx_outputs tx)) in
        modify (λ rv, mkReused (rv_previous_outputs_hash rv) (rv_sequences_hash rv) (rv_sig_op_counts_hash rv) (Some hash));;
        mret hash
    end.

Definition calc_schnorr_signature_hash `{VerifiableTransaction T} (verifiable_tx : T) (input_index : nat)
    (hash_type : SigHashType) : M SigHashReusedValues E Hash :=
  '(input, entry) ← lift (populated_input verifiable_tx input_index);
  let tx := vt_tx verifiable_tx in
  previous ← previous_outputs_hash tx hash_type;
  sequences ← sequences_hash tx hash_type;
  sig_op_counts ← sig_op_counts_hash tx hash_type;
  outputs ← outputs_hash tx hash_type input_index;
  mret (digest TransactionSigningHash (
    write_u16 (tx_version tx) ++
    Hashes.as_bytes previous ++ Hashes.as_bytes sequences ++ Hashes.as_bytes sig_op_counts ++
    hash_outpoint (in_previous_outpoint input) ++ hash_script_public_key (ue_script_public_key entry) ++
    write_u64 (ue_amount entry) ++ write_u64 (in_sequence input) ++ write_u8 (in_sig_op_count input) ++
    Hashes.as_bytes outputs ++ write_u64 (tx_lock_time tx) ++ tx_subnetwork_id tx ++ write_u64 (tx_gas tx) ++
    Hashes.as_bytes (payload_hash tx) ++ write_u8 (Z.of_N hash_type))).

(** ** [sign.rs]

    The secp256k1 package: a private key of 32 bytes may be refused; a signature may
    depend on fresh randomness, here the number of the call. *)
Context {KeyPair : Type} (from_seckey_slice : list N → option KeyPair) (sign_schnorr : KeyPair → nat → Hash → list N).

Definition set_signature_script (mutable_tx : MutableTransaction) (i : nat) (script : list N) : outcome E MutableTransaction :=
  let tx := mt_tx mutable_tx in
  input ← unwrap_opt (tx_inputs tx !! i);
  let input' := mkInput (in_previous_outpoint input) script (in_sequence input) (in_sig_op_count input) in
  mret (mkMutable (mkTx (tx_version tx) (<[i := input']> (tx_inputs tx)) (tx_outputs tx) (tx_lock_time tx)
    (tx_subnetwork_id tx) (tx_gas tx) (tx_payload tx) (tx_cached_id tx))
    (mt_entries mutable_tx) (mt_calculated_fee mutable_tx) (mt_calculated_mass mutable_tx)).

Definition sign_input (schnorr_key : KeyPair) (mutable_tx : MutableTransaction) (i : nat) :
    M SigHashReusedValues E MutableTransaction :=
  verifiable ← lift (as_verifiable mutable_tx);
  sig_hash ← calc_schnorr_signature_hash verifiable i SIG_HASH_ALL;
  let sig := sign_schnorr schnorr_key i sig_hash in
  lift (set_signature_script mutable_tx i (65%N :: sig ++ [SIG_HASH_ALL])).

Definition sign (mutable_tx : MutableTransaction) (privkey : list N) : outcome E MutableTransaction :=
  schnorr_key ← unwrap_opt (from_seckey_slice privkey);
  fst (for_fold (seq 0 (length (tx_inputs (mt_tx mutable_tx)))) (sign_input schnorr_key) mutable_tx reused_new).
End sighash.
End SigHash.
