(* ===== verification/HashingProof.v ===== *)
(** * What a hash commits to

    The bytes written for a value determine the value: the encodings are
    self-delimiting, so that two values with the same hash are equal or exhibit a
    collision of the hash function.  The cache of [SigHashReusedValues] does not change
    a signature hash, and signing an input leaves the signature hashes of all inputs as
    they were. *)

From S2P Require Import Prelude Hash Errors Headers Tx Hashing.
Import SigHash.

(** ** Self-delimiting encodings *)

Definition decodable {A} (P : A → Prop) (f : A → list N) : Prop :=
  ∀ a b x y, P a → P b → f a ++ x = f b ++ y → a = b ∧ x = y.

Lemma decodable_fixed {A} (P : A → Prop) (f : A → list N) n :
  (∀ a, P a → length (f a) = n) → (∀ a b, P a → P b → f a = f b → a = b) → decodable P f.
Proof.
  intros Hl Hi a b x y Ha Hb Heq. apply app_inj_1 in Heq as [Hf ->]; [|by rewrite !Hl].
  split; [by apply Hi|done].
Qed.

(** An encoding of a part of the value. *)
Definition decodes {A B} (part : A → B) (P : A → Prop) (f : A → list N) : Prop :=
  ∀ a b x y, P a → P b → f a ++ x = f b ++ y → part a = part b ∧ x = y.

(** A list behind its length. *)
Lemma decodes_concat {A B} (part : A → B) (P : A → Prop) (f : A → list N) l k x y :
  decodes part P f → Forall P l → Forall P k → length l = length k →
  mjoin (f <$> l) ++ x = mjoin (f <$> k) ++ y → part <$> l = part <$> k ∧ x = y.
Proof.
  intros Hd Hl. revert k. induction Hl as [|a l Ha Hl IH]; intros [|b k] Hk Hlen Heq; try done.
  apply Forall_cons in Hk as [Hb Hk]. cbn in Heq. rewrite <-!app_assoc in Heq.
  apply Hd in Heq as [Hab Heq]; [|done..]. apply IH in Heq as [Hlk ->]; [|done|by injection Hlen].
  split; [|done]. cbn. by rewrite Hab, Hlk.
Qed.

Lemma decodable_concat {A} (P : A → Prop) (f : A → list N) l k x y :
  decodable P f → Forall P l → Forall P k → length l = length k →
  mjoin (f <$> l) ++ x = mjoin (f <$> k) ++ y → l = k ∧ x = y.
Proof.
  intros Hd Hl Hk Hlen Heq. apply (decodes_concat id P) in Heq as [Hlk ->]; [|done..].
  by rewrite !list_fmap_id in Hlk.
Qed.

Definition fits (n : nat) (x : Z) : Prop := 0 ≤ x < 256 ^ Z.of_nat n.
Definition hash_fits (h : Hash) : Prop := (h < 256 ^ 32)%N.

Lemma length_le_bytes n w : length (Hashes.le_bytes n w) = n.
Proof. revert w. induction n as [|n IH]; intros w; simpl; [done|]. by rewrite IH. Qed.

Lemma hash_of_le_bytes_le n w : (w < 256 ^ N.of_nat n)%N → Hashes.of_le_bytes (Hashes.le_bytes n w) = w.
Proof.
  revert w. induction n as [|n IH]; intros w Hw; [simpl in *; lia|].
  rewrite Nat2N.inj_succ, N.pow_succ_r' in Hw. cbn [Hashes.le_bytes Hashes.of_le_bytes]. rewrite IH.
  - pose proof (N.div_mod w 256). lia.
  - apply N.Div0.div_lt_upper_bound. lia.
Qed.

Lemma le_decodable n : decodable (fits n) (le n).
Proof.
  apply (decodable_fixed _ _ n); unfold le, fits.
  - intros a _. apply length_le_bytes.
  - intros a b Ha Hb Heq. apply Z2N.inj; [lia..|].
    rewrite <-(hash_of_le_bytes_le n (Z.to_N a)), <-(hash_of_le_bytes_le n (Z.to_N b)), Heq; [done|..];
      apply N2Z.inj_lt; rewrite N2Z.inj_pow, Z2N.id, nat_N_Z by lia; simpl; lia.
Qed.

Lemma hash_decodable : decodable hash_fits Hashes.as_bytes.
Proof.
  apply (decodable_fixed _ _ 32); unfold Hashes.as_bytes.
  - intros a _. apply Hashes.length_to_bytes.
  - intros a b Ha Hb Heq. rewrite <-(Hashes.from_bytes_to_bytes 32 a), <-(Hashes.from_bytes_to_bytes 32 b) by done.
    by f_equal.
Qed.

Lemma bytes_decodable n : decodable (λ l : list N, length l = n) id.
Proof. by apply (decodable_fixed _ _ n). Qed.

Definition len_fits {A} (l : list A) : Prop := fits 8 (Z.of_nat (length l)).

Lemma len_decodable {A} (l k : list A) x y :
  len_fits l → len_fits k → write_len (length l) ++ x = write_len (length k) ++ y → length l = length k ∧ x = y.
Proof. intros Hl Hk Heq. apply le_decodable in Heq as [?%Nat2Z.inj ->]; done. Qed.

Lemma var_bytes_decodable : decodable len_fits write_var_bytes.
Proof.
  intros a b x y Ha Hb Heq. unfold write_var_bytes in Heq. rewrite <-!app_assoc in Heq.
  apply len_decodable in Heq as [Hl Heq]; [|done..]. by apply app_inj_1 in Heq.
Qed.

Lemma var_array_decodable : decodable (λ l, len_fits l ∧ Forall hash_fits l) write_var_array.
Proof.
  intros a b x y [La Ha] [Lb Hb] Heq. unfold write_var_array in Heq. rewrite <-!app_assoc in Heq.
  apply len_decodable in Heq as [Hl Heq]; [|done..].
  by apply (decodable_concat _ _ _ _ _ _ hash_decodable) in Heq.
Qed.

Lemma bool_decodable : decodable (λ _, True) write_bool.
Proof. apply (decodable_fixed _ _ 1); [by intros []|by intros [] []]. Qed.

(** Dropping the leading zeros of a fixed number of bytes loses nothing. *)
Lemma from_bytes_skip_zeros l : Hashes.from_bytes (skip_zeros l) = Hashes.from_bytes l.
Proof. induction l as [|[|b] l IH]; [done| |done]. simpl. rewrite IH. done. Qed.

Lemma length_skip_zeros l : (length (skip_zeros l) ≤ length l)%nat.
Proof. induction l as [|[|b] l IH]; simpl; lia. Qed.

Lemma blue_work_decodable : decodable (fits 24) write_blue_work.
Proof.
  intros a b x y Ha Hb Heq. unfold write_blue_work in Heq.
  apply var_bytes_decodable in Heq as [Heq ->].
  - split; [|done]. apply (f_equal Hashes.from_bytes) in Heq. rewrite !from_bytes_skip_zeros in Heq.
    unfold fits in *. rewrite !Hashes.from_bytes_to_bytes in Heq; [lia|..];
      apply N2Z.inj_lt; rewrite N2Z.inj_pow, Z2N.id by lia; simpl; lia.
  - unfold len_fits, fits. pose proof (length_skip_zeros (Hashes.to_bytes 24 (Z.to_N a))) as Hl.
    rewrite Hashes.length_to_bytes in Hl. lia.
  - unfold len_fits, fits. pose proof (length_skip_zeros (Hashes.to_bytes 24 (Z.to_N b))) as Hl.
    rewrite Hashes.length_to_bytes in Hl. lia.
Qed.

(** [peel L H]: the next field of the equation [H] between two encodings is decided by
    [L]; the side conditions are found among the hypotheses. *)
Ltac peel L H :=
  rewrite <-?app_assoc in H; apply L in H as [? H]; [|by eauto..].

(** ** Values that fit their machine types *)

Record spk_fits (s : ScriptPublicKey) : Prop := { sf_version : fits 2 (spk_version s); sf_script : len_fits (spk_script s) }.
Record outpoint_fits (o : TransactionOutpoint) : Prop := {
  of_id : hash_fits (op_transaction_id o); of_index : fits 4 (op_index o) }.
Record entry_fits (e : UtxoEntry) : Prop := {
  ef_amount : fits 8 (ue_amount e); ef_spk : spk_fits (ue_script_public_key e); ef_daa : fits 8 (ue_block_daa_score e) }.
Record input_fits (i : TransactionInput) : Prop := {
  if_outpoint : outpoint_fits (in_previous_outpoint i); if_script : len_fits (in_signature_script i);
  if_sequence : fits 8 (in_sequence i); if_ops : fits 1 (in_sig_op_count i) }.
Record output_fits (o : TransactionOutput) : Prop := {
  of_value : fits 8 (out_value o); of_spk : spk_fits (out_script_public_key o) }.
Record tx_fits (tx : Transaction) : Prop := {
  tf_version : fits 2 (tx_version tx);
  tf_inputs : Forall input_fits (tx_inputs tx); tf_inputs_len : len_fits (tx_inputs tx);
  tf_outputs : Forall output_fits (tx_outputs tx); tf_outputs_len : len_fits (tx_outputs tx);
  tf_lock_time : fits 8 (tx_lock_time tx);
  tf_subnetwork : length (tx_subnetwork_id tx) = Subnets.SUBNETWORK_ID_SIZE;
  tf_gas : fits 8 (tx_gas tx); tf_payload : len_fits (tx_payload tx) }.
#[export] Hint Resolve sf_version sf_script of_id of_index ef_amount ef_spk ef_daa if_outpoint if_script if_sequence
  if_ops of_value of_spk tf_version tf_inputs tf_inputs_len tf_outputs tf_outputs_len tf_lock_time tf_subnetwork
  tf_gas tf_payload : core.

Ltac fields := cbn [spk_version spk_script op_transaction_id op_index ue_amount ue_script_public_key ue_block_daa_score
  ue_is_coinbase in_previous_outpoint in_signature_script in_sequence in_sig_op_count out_value out_script_public_key
  fst snd] in *.

Lemma spk_decodable : decodable spk_fits hash_script_public_key.
Proof.
  intros [v s] [v' s'] x y Ha Hb Heq. unfold hash_script_public_key in Heq. destruct Ha, Hb. fields.
  peel (le_decodable 2) Heq. peel var_bytes_decodable Heq. by subst.
Qed.

Lemma spk_bytes s x :
  write_u16 (spk_version s) ++ write_var_bytes (spk_script s) ++ x = hash_script_public_key s ++ x.
Proof. unfold hash_script_public_key. by rewrite <-app_assoc. Qed.

Lemma outpoint_decodable : decodable outpoint_fits write_outpoint.
Proof.
  intros [i n] [i' n'] x y Ha Hb Heq. unfold write_outpoint in Heq. destruct Ha, Hb. fields.
  peel hash_decodable Heq. peel (le_decodable 4) Heq. by subst.
Qed.

Lemma output_decodable : decodable output_fits write_output.
Proof.
  intros [v s] [v' s'] x y Ha Hb Heq. unfold write_output in Heq. destruct Ha, Hb. fields.
  peel (le_decodable 8) Heq. rewrite <-?app_assoc, !spk_bytes in Heq. peel spk_decodable Heq. by subst.
Qed.

Lemma utxo_decodable : decodable (λ p, entry_fits p.1 ∧ outpoint_fits p.2) (λ p, write_utxo p.1 p.2).
Proof.
  intros [[a s d c] [i n]] [[a' s' d' c'] [i' n']] x y [He Ho] [He' Ho'] Heq.
  unfold write_utxo in Heq. destruct He, He', Ho, Ho'. fields.
  peel hash_decodable Heq. peel (le_decodable 4) Heq. peel (le_decodable 8) Heq. peel (le_decodable 8) Heq.
  peel bool_decodable Heq. rewrite <-?app_assoc, !spk_bytes in Heq. peel spk_decodable Heq. by subst.
Qed.

(** ** Transactions *)

(** What the id of an ordinary transaction leaves out. *)
Definition unsigned_input (i : TransactionInput) : TransactionInput :=
  mkInput (in_previous_outpoint i) [] (in_sequence i) 0.
Definition without_id (tx : Transaction) : Transaction :=
  mkTx (tx_version tx) (tx_inputs tx) (tx_outputs tx) (tx_lock_time tx) (tx_subnetwork_id tx) (tx_gas tx)
    (tx_payload tx) ZERO_HASH.
Definition unsigned (tx : Transaction) : Transaction :=
  mkTx (tx_version tx) (unsigned_input <$> tx_inputs tx) (tx_outputs tx) (tx_lock_time tx) (tx_subnetwork_id tx)
    (tx_gas tx) (tx_payload tx) ZERO_HASH.

Lemma input_full_decodes : decodes id input_fits (write_input TX_ENCODING_FULL).
Proof.
  intros [o s q c] [o' s' q' c'] x y Ha Hb Heq. unfold write_input in Heq.
  change (negb (N.land TX_ENCODING_FULL TX_ENCODING_EXCLUDE_SIGNATURE_SCRIPT =? TX_ENCODING_EXCLUDE_SIGNATURE_SCRIPT)%N)
    with true in Heq. destruct Ha, Hb. fields.
  peel outpoint_decodable Heq. peel var_bytes_decodable Heq. peel (le_decodable 1) Heq. peel (le_decodable 8) Heq.
  by subst.
Qed.

Lemma input_unsigned_decodes :
  decodes unsigned_input input_fits (write_input TX_ENCODING_EXCLUDE_SIGNATURE_SCRIPT).
Proof.
  intros [o s q c] [o' s' q' c'] x y Ha Hb Heq. unfold write_input in Heq.
  change (negb (N.land TX_ENCODING_EXCLUDE_SIGNATURE_SCRIPT TX_ENCODING_EXCLUDE_SIGNATURE_SCRIPT =?
    TX_ENCODING_EXCLUDE_SIGNATURE_SCRIPT)%N) with false in Heq. destruct Ha, Hb. fields.
  peel outpoint_decodable Heq. rewrite <-?app_assoc in Heq. apply (app_inv_head (write_var_bytes [])) in Heq.
  peel (le_decodable 8) Heq. by subst.
Qed.

Lemma transaction_decodes (part : TransactionInput → TransactionInput) flags (a b : Transaction) :
  decodes part input_fits (write_input flags) → tx_fits a → tx_fits b →
  write_transaction a flags = write_transaction b flags →
  mkTx (tx_version a) (part <$> tx_inputs a) (tx_outputs a) (tx_lock_time a) (tx_subnetwork_id a) (tx_gas a)
    (tx_payload a) ZERO_HASH =
  mkTx (tx_version b) (part <$> tx_inputs b) (tx_outputs b) (tx_lock_time b) (tx_subnetwork_id b) (tx_gas b)
    (tx_payload b) ZERO_HASH.
Proof.
  intros Hp Ha Hb Heq. unfold write_transaction in Heq.
  rewrite <-(app_nil_r (write_var_bytes (tx_payload a))), <-(app_nil_r (write_var_bytes (tx_payload b))) in Heq.
  peel (le_decodable 2) Heq. peel (len_decodable (tx_inputs a)) Heq.
  apply (decodes_concat part input_fits) in Heq as [? Heq]; [|by eauto..].
  peel (len_decodable (tx_outputs a)) Heq.
  apply (decodable_concat output_fits) in Heq as [? Heq]; [|by eauto using output_decodable..].
  peel (le_decodable 8) Heq. apply (bytes_decodable Subnets.SUBNETWORK_ID_SIZE) in Heq as [? Heq]; [|by eauto..].
  peel (le_decodable 8) Heq. peel var_bytes_decodable Heq. by f_equal.
Qed.

(** ** Headers *)

Record header_fits (h : Header) : Prop := {
  hf_version : fits 2 (h_version h);
  hf_levels : len_fits (h_parents_by_level h);
  hf_parents : Forall (λ l, len_fits l ∧ Forall hash_fits l) (h_parents_by_level h);
  hf_hmr : hash_fits (h_hash_merkle_root h);
  hf_amr : hash_fits (h_accepted_id_merkle_root h);
  hf_utxo : hash_fits (h_utxo_commitment h);
  hf_time : fits 8 (h_timestamp h); hf_bits : fits 4 (h_bits h); hf_nonce : fits 8 (h_nonce h);
  hf_daa : fits 8 (h_daa_score h); hf_work : fits 24 (h_blue_work h); hf_score : fits 8 (h_blue_score h);
  hf_pruning : hash_fits (h_pruning_point h) }.
#[export] Hint Resolve hf_version hf_levels hf_parents hf_hmr hf_amr hf_utxo hf_time hf_bits hf_nonce hf_daa hf_work
  hf_score hf_pruning : core.

Definition without_hash (h : Header) : Header :=
  mkHeader ZERO_HASH (h_version h) (h_parents_by_level h) (h_hash_merkle_root h) (h_accepted_id_merkle_root h)
    (h_utxo_commitment h) (h_timestamp h) (h_bits h) (h_nonce h) (h_daa_score h) (h_blue_work h) (h_blue_score h)
    (h_pruning_point h).

Lemma header_decodes (a b : Header) :
  header_fits a → header_fits b →
  header_bytes a (h_nonce a) (h_timestamp a) = header_bytes b (h_nonce b) (h_timestamp b) →
  without_hash a = without_hash b.
Proof.
  intros Ha Hb Heq. unfold header_bytes in Heq.
  rewrite <-(app_nil_r (Hashes.as_bytes (h_pruning_point a))), <-(app_nil_r (Hashes.as_bytes (h_pruning_point b))) in Heq.
  peel (le_decodable 2) Heq. peel (len_decodable (h_parents_by_level a)) Heq.
  apply (decodable_concat _ _ _ _ _ _ var_array_decodable) in Heq as [? Heq]; [|by eauto..].
  peel hash_decodable Heq. peel hash_decodable Heq. peel hash_decodable Heq.
  peel (le_decodable 8) Heq. peel (le_decodable 4) Heq. peel (le_decodable 8) Heq. peel (le_decodable 8) Heq.
  peel (le_decodable 8) Heq. peel blue_work_decodable Heq. peel hash_decodable Heq.
  unfold without_hash. by f_equal.
Qed.

(** ** Collisions *)

Section commitments.
Context `{Hashers}.

(** Two different inputs of a hasher with the same digest. *)
Definition collision (k : HasherKind) : Prop := ∃ x y, x ≠ y ∧ digest k x = digest k y.

Lemma same_input k x y : digest k x = digest k y → collision k ∨ x = y.
Proof. intros Heq. destruct (decide (x = y)); [by right|left; by exists x, y]. Qed.

(** Without inputs the two encodings coincide. *)
Lemma no_inputs_flags tx flags flags' :
  tx_inputs tx = [] → write_transaction tx flags = write_transaction tx flags'.
Proof. intros Hn. unfold write_transaction. by rewrite Hn. Qed.

Definition coinbase_form (tx : Transaction) : Prop := is_coinbase tx = true → tx_inputs tx = [].

Lemma calc_tx_id_unsigned tx :
  coinbase_form tx → calc_tx_id tx = digest TransactionID (write_transaction tx TX_ENCODING_EXCLUDE_SIGNATURE_SCRIPT).
Proof.
  unfold coinbase_form, calc_tx_id. destruct (is_coinbase tx); [|done]. intros Hn.
  by rewrite (no_inputs_flags tx TX_ENCODING_FULL TX_ENCODING_EXCLUDE_SIGNATURE_SCRIPT) by auto.
Qed.

(** C21: Hashes commit to their objects.  Two transactions with the same hash are equal,
    two transactions with the same id are equal up to the signature scripts and their
    operation counts (payload, sub-network and lock time included), and two headers
    with the same hash agree in all fields, unless the digest has a collision.  The
    objects have fields of their types ([tx_fits], [header_fits]) and a coinbase
    transaction has no inputs ([coinbase_form]; the validation of transactions demands
    it). *)
Theorem hashes_commit (a b : Transaction) (h k : Header) :
  tx_fits a → tx_fits b → coinbase_form a → coinbase_form b → header_fits h → header_fits k →
  (tx_hash a = tx_hash b → collision TransactionHash ∨ without_id a = without_id b) ∧
  (calc_tx_id a = calc_tx_id b → collision TransactionID ∨ unsigned a = unsigned b) ∧
  (header_hash h = header_hash k → collision BlockHash ∨ without_hash h = without_hash k).
Proof.
  intros Ha Hb Ca Cb Hh Hk. split_and!.
  - intros [?|Heq]%same_input; [by left|right].
    pose proof (transaction_decodes id _ a b input_full_decodes Ha Hb Heq) as Hd. by rewrite !list_fmap_id in Hd.
  - rewrite !calc_tx_id_unsigned by done. intros [?|Heq]%same_input; [by left|right].
    by apply (transaction_decodes unsigned_input _ a b input_unsigned_decodes).
  - intros [?|Heq]%same_input; [by left|right]. by apply header_decodes.
Qed.
End commitments.

(** ** Signature hashes *)

Section sighash.
Context `{Hashers}.

Definition outpoints_bytes (tx : Transaction) : list N := mjoin ((λ input, write_outpoint (in_previous_outpoint input)) <$> tx_inputs tx).
Definition sequences_bytes (tx : Transaction) : list N := mjoin ((λ input, write_u64 (in_sequence input)) <$> tx_inputs tx).
Definition counts_bytes (tx : Transaction) : list N := mjoin ((λ input, write_u8 (in_sig_op_count input)) <$> tx_inputs tx).
Definition outputs_bytes (tx : Transaction) : list N := mjoin (hash_output <$> tx_outputs tx).

(** The four partial hashes without a cache. *)
Definition previous_of (tx : Transaction) (ty : SigHashType) : Hash :=
  if is_sighash_anyone_can_pay ty then ZERO_HASH else digest TransactionSigningHash (outpoints_bytes tx).
Definition sequences_of (tx : Transaction) (ty : SigHashType) : Hash :=
  if is_sighash_single ty || is_sighash_anyone_can_pay ty || is_sighash_none ty then ZERO_HASH
  else digest TransactionSigningHash (sequences_bytes tx).
Definition counts_of (tx : Transaction) (ty : SigHashType) : Hash :=
  if is_sighash_anyone_can_pay ty then ZERO_HASH else digest TransactionSigningHash (counts_bytes tx).
Definition outputs_of (tx : Transaction) (ty : SigHashType) (i : nat) : Hash :=
  if is_sighash_none ty then ZERO_HASH
  else if is_sighash_single ty then
    match tx_outputs tx !! i with Some o => digest TransactionSigningHash (hash_output o) | None => ZERO_HASH end
  else digest TransactionSigningHash (outputs_bytes tx).

(** The signed message. *)
Definition signature_message (tx : Transaction) (input : TransactionInput) (entry : UtxoEntry) (i : nat) (ty : SigHashType) : list N :=
  write_u16 (tx_version tx) ++
  Hashes.as_bytes (previous_of tx ty) ++ Hashes.as_bytes (sequences_of tx ty) ++ Hashes.as_bytes (counts_of tx ty) ++
  hash_outpoint (in_previous_outpoint input) ++ hash_script_public_key (ue_script_public_key entry) ++
  write_u64 (ue_amount entry) ++ write_u64 (in_sequence input) ++ write_u8 (in_sig_op_count input) ++
  Hashes.as_bytes (outputs_of tx ty i) ++ write_u64 (tx_lock_time tx) ++ tx_subnetwork_id tx ++ write_u64 (tx_gas tx) ++
  Hashes.as_bytes (payload_hash tx) ++ write_u8 (Z.of_N ty).

(** The cache holds hashes of the transaction. *)
Definition holds (slot : option Hash) (h : Hash) : Prop := slot = None ∨ slot = Some h.
Record reused_ok (tx : Transaction) (rv : SigHashReusedValues) : Prop := {
  ro_previous : holds (rv_previous_outputs_hash rv) (digest TransactionSigningHash (outpoints_bytes tx));
  ro_sequences : holds (rv_sequences_hash rv) (digest TransactionSigningHash (sequences_bytes tx));
  ro_counts : holds (rv_sig_op_counts_hash rv) (digest TransactionSigningHash (counts_bytes tx));
  ro_outputs : holds (rv_outputs_hash rv) (digest TransactionSigningHash (outputs_bytes tx));
}.

Lemma reused_new_ok tx : reused_ok tx reused_new.
Proof. split; by left. Qed.

Context {E : Type}.
Implicit Types (rv : SigHashReusedValues).

(** Each partial hash is the one without a cache, and the cache stays right. *)
Ltac cached := intros Hrv; pose proof Hrv as [H1 H2 H3 H4];
  repeat (case_match; [by apply runs_ret|]); apply runs_bind, runs_get;
  match goal with |- context [match ?slot with Some _ => _ | None => _ end] => destruct slot as [h|] eqn:Hs end;
  [unfold holds in *; apply runs_ret; split; [naive_solver|done]
  |apply runs_bind; eapply runs_intro; [done|]; apply runs_ret; split; [done|]; split; try done; by right].

Lemma previous_outputs_hash_ok tx ty rv :
  reused_ok tx rv → runs (E:=E) (previous_outputs_hash tx ty) rv (λ h rv', h = previous_of tx ty ∧ reused_ok tx rv').
Proof. unfold previous_outputs_hash, previous_of. cached. Qed.
Lemma sequences_hash_ok tx ty rv :
  reused_ok tx rv → runs (E:=E) (sequences_hash tx ty) rv (λ h rv', h = sequences_of tx ty ∧ reused_ok tx rv').
Proof. unfold sequences_hash, sequences_of. cached. Qed.
Lemma sig_op_counts_hash_ok tx ty rv :
  reused_ok tx rv → runs (E:=E) (sig_op_counts_hash tx ty) rv (λ h rv', h = counts_of tx ty ∧ reused_ok tx rv').
Proof. unfold sig_op_counts_hash, counts_of. cached. Qed.
Lemma outputs_hash_ok tx ty i rv :
  reused_ok tx rv → runs (E:=E) (outputs_hash tx ty i) rv (λ h rv', h = outputs_of tx ty i ∧ reused_ok tx rv').
Proof.
  unfold outputs_hash, outputs_of. intros Hrv. destruct (is_sighash_none ty); [by apply runs_ret|].
  destruct (is_sighash_single ty); [by destruct (tx_outputs tx !! i); apply runs_ret|]. revert Hrv. cached.
Qed.

Lemma calc_signature_hash_ok `{VerifiableTransaction T} (t : T) i input entry ty rv :
  populated_input (E:=E) t i = Ok (input, entry) → reused_ok (vt_tx t) rv →
  runs (E:=E) (calc_schnorr_signature_hash t i ty) rv (λ h rv',
    h = digest TransactionSigningHash (signature_message (vt_tx t) input entry i ty) ∧ reused_ok (vt_tx t) rv').
Proof.
  intros Hp Hrv. unfold calc_schnorr_signature_hash. apply runs_bind. eapply runs_lift; [exact Hp|].
  apply runs_bind. eapply runs_mono; [by apply previous_outputs_hash_ok|]. intros ? rv1 [-> H1].
  apply runs_bind. eapply runs_mono; [by apply sequences_hash_ok|]. intros ? rv2 [-> H2].
  apply runs_bind. eapply runs_mono; [by apply sig_op_counts_hash_ok|]. intros ? rv3 [-> H3].
  apply runs_bind. eapply runs_mono; [by apply outputs_hash_ok|]. intros ? rv4 [-> H4].
  by apply runs_ret.
Qed.
End sighash.

(** ** Signing *)

(** A transaction without its signature scripts; signature hashes depend on no more. *)
Definition unscripted_input (i : TransactionInput) : TransactionInput :=
  mkInput (in_previous_outpoint i) [] (in_sequence i) (in_sig_op_count i).
Definition unscripted (tx : Transaction) : Transaction :=
  mkTx (tx_version tx) (unscripted_input <$> tx_inputs tx) (tx_outputs tx) (tx_lock_time tx) (tx_subnetwork_id tx)
    (tx_gas tx) (tx_payload tx) (tx_cached_id tx).

Section signing.
Context `{Hashers}.

Lemma message_unscripted tx input entry i ty :
  signature_message (unscripted tx) (unscripted_input input) entry i ty = signature_message tx input entry i ty.
Proof.
  unfold signature_message, previous_of, sequences_of, counts_of, outputs_of, payload_hash,
    outpoints_bytes, sequences_bytes, counts_bytes, outputs_bytes.
  cbn [unscripted tx_inputs tx_outputs tx_version tx_lock_time tx_subnetwork_id tx_gas tx_payload].
  rewrite <-!list_fmap_compose. done.
Qed.

Lemma reused_unscripted tx rv : reused_ok (unscripted tx) rv ↔ reused_ok tx rv.
Proof.
  assert (outpoints_bytes (unscripted tx) = outpoints_bytes tx ∧ sequences_bytes (unscripted tx) = sequences_bytes tx ∧
    counts_bytes (unscripted tx) = counts_bytes tx ∧ outputs_bytes (unscripted tx) = outputs_bytes tx) as (H1 & H2 & H3 & H4).
  { unfold outpoints_bytes, sequences_bytes, counts_bytes, outputs_bytes. cbn [unscripted tx_inputs tx_outputs].
    by rewrite <-!list_fmap_compose. }
  split; intros [? ? ? ?]; split; congruence.
Qed.

Lemma reused_same tx tx' rv : unscripted tx = unscripted tx' → reused_ok tx rv → reused_ok tx' rv.
Proof. rewrite <-(reused_unscripted tx), <-(reused_unscripted tx'). by intros ->. Qed.

Lemma message_same tx tx' input input' entry i ty :
  unscripted tx = unscripted tx' → unscripted_input input = unscripted_input input' →
  signature_message tx input entry i ty = signature_message tx' input' entry i ty.
Proof. intros Ht Hi. by rewrite <-(message_unscripted tx), <-(message_unscripted tx'), Ht, Hi. Qed.

Lemma calc_tx_id_unscripted tx tx' :
  is_coinbase tx = false → unscripted tx = unscripted tx' → calc_tx_id tx = calc_tx_id tx'.
Proof.
  intros Hc Ht. assert (Hc' : is_coinbase tx' = false).
  { unfold is_coinbase in *. replace (tx_subnetwork_id tx') with (tx_subnetwork_id tx); [done|]. by injection Ht. }
  unfold calc_tx_id. rewrite Hc, Hc'. f_equal. unfold write_transaction.
  injection Ht as ? Hi ? ? ? ? ? ?.
  assert (Hb : ∀ l : list TransactionInput, write_input TX_ENCODING_EXCLUDE_SIGNATURE_SCRIPT <$> l =
    write_input TX_ENCODING_EXCLUDE_SIGNATURE_SCRIPT <$> (unscripted_input <$> l)).
  { intros l. by rewrite <-list_fmap_compose. }
  assert (length (tx_inputs tx) = length (tx_inputs tx')) as ->.
  { by rewrite <-(length_fmap unscripted_input (tx_inputs tx)), Hi, length_fmap. }
  rewrite (Hb (tx_inputs tx)), (Hb (tx_inputs tx')), Hi. congruence.
Qed.

Context {E KeyPair : Type} (sign_schnorr : KeyPair → nat → Hash → list N) (key : KeyPair).
Context (m0 : MutableTransaction) (entries : list UtxoEntry).
Hypothesis entries_some : mt_entries m0 = Some <$> entries.
Hypothesis entries_len : length entries = length (tx_inputs (mt_tx m0)).

Definition sighash_of (i : nat) (input : TransactionInput) (entry : UtxoEntry) : Hash :=
  digest TransactionSigningHash (signature_message (mt_tx m0) input entry i SIG_HASH_ALL).
Definition signature_script_of (i : nat) (input : TransactionInput) (entry : UtxoEntry) : list N :=
  65%N :: sign_schnorr key i (sighash_of i input entry) ++ [SIG_HASH_ALL].

(** The inputs below [j] are signed; nothing else has changed. *)
Record signed_below (j : nat) (m : MutableTransaction) : Prop := {
  sb_tx : unscripted (mt_tx m) = unscripted (mt_tx m0);
  sb_entries : mt_entries m = mt_entries m0;
  sb_signed : ∀ i input entry, (i < j)%nat → tx_inputs (mt_tx m) !! i = Some input → entries !! i = Some entry →
    in_signature_script input = signature_script_of i input entry;
}.

Lemma same_inputs m : unscripted (mt_tx m) = unscripted (mt_tx m0) →
  unscripted_input <$> tx_inputs (mt_tx m) = unscripted_input <$> tx_inputs (mt_tx m0).
Proof. clear. intros Hu. by injection Hu. Qed.

Lemma same_length m : unscripted (mt_tx m) = unscripted (mt_tx m0) → length (tx_inputs (mt_tx m)) = length entries.
Proof.
  intros Hu%same_inputs. by rewrite entries_len, <-(length_fmap unscripted_input), Hu, length_fmap.
Qed.

Lemma verifiable_now m :
  unscripted (mt_tx m) = unscripted (mt_tx m0) → mt_entries m = mt_entries m0 → as_verifiable (E:=E) m = Ok (mkWrapper m).
Proof.
  intros Hu He. unfold as_verifiable, is_verifiable. rewrite He, entries_some, length_fmap, (same_length m) by done.
  rewrite bool_decide_true by done. cbn. clear. by induction entries.
Qed.

Lemma sign_input_ok j m rv :
  (j < length entries)%nat → signed_below j m → reused_ok (mt_tx m0) rv →
  runs (E:=E) (sign_input sign_schnorr key m j) rv (λ m' rv', signed_below (S j) m' ∧ reused_ok (mt_tx m0) rv').
Proof.
  intros Hj [Ht He Hs] Hrv. unfold sign_input. apply runs_bind. eapply runs_lift; [by apply verifiable_now|].
  destruct (lookup_lt_is_Some_2 entries j) as [entry Hentry]; [done|].
  destruct (lookup_lt_is_Some_2 (tx_inputs (mt_tx m)) j) as [input Hinput]; [by rewrite same_length|].
  apply runs_bind. eapply runs_mono.
  { apply (calc_signature_hash_ok _ j input entry).
    - cbn. by rewrite Hinput, He, entries_some, list_lookup_fmap, Hentry.
    - by apply (reused_same (mt_tx m0)). }
  intros ? rv' [-> Hrv']. unfold set_signature_script. rewrite Hinput.
  eapply runs_lift; [done|]. split; [|by apply (reused_same (mt_tx m))].
  assert (Hkeep : ∀ script, unscripted_input <$> <[j := mkInput (in_previous_outpoint input) script (in_sequence input)
    (in_sig_op_count input)]> (tx_inputs (mt_tx m)) = unscripted_input <$> tx_inputs (mt_tx m)).
  { intros script. rewrite list_fmap_insert. apply list_insert_id. by rewrite list_lookup_fmap, Hinput. }
  split; cbn [mt_tx mt_entries tx_inputs].
  - rewrite <-Ht. unfold unscripted. cbn [mt_tx mt_entries tx_inputs tx_version tx_outputs tx_lock_time tx_subnetwork_id
      tx_gas tx_payload tx_cached_id]. by rewrite Hkeep.
  - done.
  - intros i input' entry' Hi Hin' Hen'. apply list_lookup_insert_Some in Hin' as [(<- & <- & _)|(Hne & Hin')].
    + rewrite Hentry in Hen'. injection Hen' as <-. cbn [in_signature_script]. unfold signature_script_of, sighash_of. cbn [vt_tx vw_inner wrapper_verifiable].
      assert (Hm : ∀ script, signature_message (mt_tx m) input entry j SIG_HASH_ALL =
        signature_message (mt_tx m0) (mkInput (in_previous_outpoint input) script (in_sequence input)
          (in_sig_op_count input)) entry j SIG_HASH_ALL) by (intros script; by apply message_same).
      by rewrite <-Hm.
    + apply Hs; [lia|done..].
Qed.

Lemma sign_loop_ok len start m rv :
  (start + len = length entries)%nat → signed_below start m → reused_ok (mt_tx m0) rv →
  runs (E:=E) (for_fold (seq start len) (sign_input sign_schnorr key) m) rv (λ m' _, signed_below (length entries) m').
Proof.
  revert start m rv. induction len as [|len IH]; intros start m rv Hl Hs Hrv; cbn [seq for_fold].
  - apply runs_ret. by replace (length entries) with start by lia.
  - apply runs_bind. eapply runs_mono; [apply sign_input_ok; [lia|done|done]|].
    intros m' rv' [Hs' Hrv']. apply IH; [lia|done|done].
Qed.
End signing.

(** C22: The cache of partial hashes is transparent: with reused values that belong to the
    transaction (an empty cache, or one left by earlier calls on it, of any type), the
    signature hash of a populated input is the digest of the message of that input,
    whatever was cached before, and the cache still belongs to the transaction. *)
Theorem signature_hash_cached `{Hashers} {E T} `{VerifiableTransaction T} (t : T) (entries : list UtxoEntry)
    (calls : list (nat * SigHashType)) :
  populated_with t entries → Forall (λ c, (c.1 < length entries)%nat) calls →
  ∃ rv, map_each (E:=E) calls (λ '(i, ty), calc_schnorr_signature_hash t i ty) reused_new =
    (omap_each (λ '(i, ty), '(input, entry) ← index_pair (vt_inputs t) entries i;
       mret (digest TransactionSigningHash (signature_message (vt_tx t) input entry i ty))) calls, rv).
Proof.
  intros [Hl Hp]. assert (Hrv : reused_ok (vt_tx t) reused_new) by apply reused_new_ok. revert Hrv.
  generalize reused_new as rv. induction calls as [|[i ty] calls IH]; intros rv Hrv Hf; [by exists rv|].
  apply Forall_cons in Hf as [Hi Hf]. simpl in Hi.
  destruct (lookup_lt_is_Some_2 entries i) as [entry Hentry]; [done|].
  destruct (lookup_lt_is_Some_2 (vt_inputs t) i) as [input Hinput]; [lia|].
  assert (Hpi : populated_input (E:=E) t i = Ok (input, entry)).
  { specialize (Hp E). apply (f_equal (λ l, l !! i)) in Hp. unfold populated_inputs in Hp.
    rewrite !list_lookup_fmap, lookup_seq_lt, lookup_zip_with, Hinput, Hentry in Hp by lia. by injection Hp. }
  destruct (runs_elim _ _ _ (calc_signature_hash_ok t i input entry ty rv Hpi Hrv)) as (h & rv' & Hc & -> & Hrv').
  destruct (IH rv' Hrv' Hf) as [rv'' Hcalls]. exists rv''. cbn [map_each omap_each].
  unfold mbind at 1, M_bind at 1. rewrite Hc. unfold mbind at 1, M_bind at 1. rewrite Hcalls.
  assert (Hix : index_pair (E:=E) (vt_inputs t) entries i = Ok (input, entry)) by (unfold index_pair; by rewrite Hinput, Hentry).
  rewrite Hix. cbn [mbind outcome_bind mret outcome_ret].
  by destruct (omap_each _ calls).
Qed.

(** [sign] succeeds on a fully populated transaction and signs every input: the
    returned transaction differs only in the signature scripts, keeps its id (unless it
    is a coinbase), and its signatures verify against the signature hashes computed
    from the returned transaction itself. *)
Theorem sign_correct `{Hashers} {E KeyPair PublicKey} (from_seckey_slice : list N → option KeyPair)
    (sign_schnorr : KeyPair → nat → Hash → list N) (public_key : KeyPair → PublicKey)
    (verify : PublicKey → Hash → list N → bool)
    (schnorr_verifies : ∀ key call msg, verify (public_key key) msg (sign_schnorr key call msg) = true)
    (tx : Transaction) (entries : list UtxoEntry) (privkey : list N) (key : KeyPair) (m : MutableTransaction) :
  from_seckey_slice privkey = Some key → with_entries (E:=E) tx entries = Ok m →
  ∃ m' w, sign (E:=E) from_seckey_slice sign_schnorr m privkey = Ok m' ∧ as_verifiable (E:=E) m' = Ok w ∧
    unscripted (mt_tx m') = unscripted tx ∧
    (is_coinbase tx = false → calc_tx_id (mt_tx m') = calc_tx_id tx) ∧
    ∀ i, (i < length (tx_inputs tx))%nat → ∃ input h sig,
      tx_inputs (mt_tx m') !! i = Some input ∧ in_signature_script input = 65%N :: sig ++ [SIG_HASH_ALL] ∧
      fst (calc_schnorr_signature_hash (E:=E) w i SIG_HASH_ALL reused_new) = Ok h ∧
      verify (public_key key) h sig = true.
Proof.
  intros Hkey Hm. unfold with_entries in Hm. case_bool_decide as Hl; [|done]. injection Hm as <-.
  set (m := mkMutable tx (Some <$> entries) None None).
  destruct (runs_elim _ _ _ (sign_loop_ok (E:=E) sign_schnorr key m entries eq_refl (eq_sym Hl) (length entries) 0 m reused_new
    eq_refl ltac:(split; [done|done|lia]) (reused_new_ok _))) as (m' & rv & Hrun & [Ht He Hs]).
  exists m', (mkWrapper m'). split_and!.
  - unfold sign. rewrite Hkey. cbn [unwrap_opt mbind outcome_bind]. change (mt_tx m) with tx. by rewrite Hl, Hrun.
  - by apply (verifiable_now m entries).
  - done.
  - intros Hc. symmetry. by apply calc_tx_id_unscripted.
  - intros i Hi. pose proof (same_length m entries (eq_sym Hl) m' Ht) as Hl'.
    destruct (lookup_lt_is_Some_2 entries i) as [entry Hentry]; [lia|].
    destruct (lookup_lt_is_Some_2 (tx_inputs (mt_tx m')) i) as [input Hinput]; [lia|].
    eexists input, (sighash_of m i input entry), _. split_and!; [done|by apply (Hs i input entry); [lia|..]| |apply schnorr_verifies].
    assert (Hpi : populated_input (E:=E) (mkWrapper m') i = Ok (input, entry)).
    { cbn. rewrite Hinput, He. cbn. by rewrite list_lookup_fmap, Hentry. }
    destruct (runs_elim _ _ _ (calc_signature_hash_ok (mkWrapper m') i input entry SIG_HASH_ALL reused_new Hpi
      (reused_new_ok _))) as (h & rv' & Hc & -> & _).
    rewrite Hc. cbn [fst vt_tx wrapper_verifiable vw_inner]. unfold sighash_of. do 2 f_equal. by apply message_same.
Qed.

(** ** Examples *)

(** A digest and a signature scheme that compute. *)
Definition sum_digest : Hashers := λ _ bytes, (foldl (λ a b, a * 257 + b + 1) 0 bytes mod 2 ^ 256)%N.
Definition concat_sign (key : N) (_ : nat) (msg : Hash) : list N := Hashes.as_bytes msg ++ Hashes.as_bytes key.
Definition concat_verify (key : N) (msg : Hash) (sig : list N) : bool := bool_decide (sig = concat_sign key 0 msg).

Definition ex_input (i : Z) : TransactionInput := mkInput (mkOutpoint 77%N i) [] i 1.
Definition ex_unsigned : Transaction :=
  mkTx 0 [ex_input 0; ex_input 1] [mkOutput 300 (mkSpk 0 [32; 5; 172]%N)] 1615462089000
    Subnets.SUBNETWORK_ID_NATIVE 0 [] 0%N.
Definition ex_signed : Transaction :=
  mkTx 0 [mkInput (mkOutpoint 77%N 0) [9%N] 0 1; ex_input 1] [mkOutput 300 (mkSpk 0 [32; 5; 172]%N)] 1615462089000
    Subnets.SUBNETWORK_ID_NATIVE 0 [] 0%N.
Definition ex_entries : list UtxoEntry :=
  [mkEntry 100 (mkSpk 0 [32; 5; 172]%N) 0 false; mkEntry 250 (mkSpk 0 [32; 6; 172]%N) 0 false].
Definition ex_hashed_header : Header := mkHeader 0%N 1 [[1%N; 2%N]; [1%N]] 5%N 6%N 7%N 234 23 567 0 123456 9 3%N.

Ltac fitting := repeat first [done | lia | constructor | progress unfold len_fits, fits, hash_fits; cbn].

Lemma hashes_commit_witness :
  (@tx_hash sum_digest ex_unsigned = @tx_hash sum_digest ex_signed →
     @collision sum_digest TransactionHash ∨ without_id ex_unsigned = without_id ex_signed) ∧
  (@calc_tx_id sum_digest ex_unsigned = @calc_tx_id sum_digest ex_signed →
     @collision sum_digest TransactionID ∨ unsigned ex_unsigned = unsigned ex_signed) ∧
  (@header_hash sum_digest ex_hashed_header = @header_hash sum_digest ex_hashed_header →
     @collision sum_digest BlockHash ∨ without_hash ex_hashed_header = without_hash ex_hashed_header).
Proof. apply (@hashes_commit sum_digest); fitting. Defined.

Definition ex_sighash_tx : PopulatedTransaction := mkPopulated ex_unsigned ex_entries.
Definition ex_calls : list (nat * SigHashType) :=
  [(0%nat, SIG_HASH_ALL); (1%nat, SIG_HASH_SINGLE); (0%nat, SIG_HASH_NONE); (1%nat, SIG_HASH_ALL)].

Lemma signature_hash_cached_witness : ∃ rv,
  map_each (E:=unit) ex_calls
    (λ '(i, ty), @calc_schnorr_signature_hash sum_digest _ _ _ ex_sighash_tx i ty) reused_new =
  (omap_each (λ '(i, ty), '(input, entry) ← index_pair (vt_inputs ex_sighash_tx) ex_entries i;
     mret (@digest sum_digest TransactionSigningHash
       (@signature_message sum_digest (vt_tx ex_sighash_tx) input entry i ty))) ex_calls, rv).
Proof.
  refine (@signature_hash_cached sum_digest unit PopulatedTransaction _ ex_sighash_tx ex_entries ex_calls _ _).
  - by split.
  - repeat constructor.
Defined.

Lemma sign_correct_witness : ∃ m' w,
  @sign sum_digest unit N (λ l, Some (Hashes.from_bytes l)) concat_sign
    (mkMutable ex_unsigned (Some <$> ex_entries) None None) [1%N; 2%N] = Ok m' ∧
  as_verifiable (E:=unit) m' = Ok w ∧ unscripted (mt_tx m') = unscripted ex_unsigned ∧
  (is_coinbase ex_unsigned = false → @calc_tx_id sum_digest (mt_tx m') = @calc_tx_id sum_digest ex_unsigned) ∧
  ∀ i, (i < length (tx_inputs ex_unsigned))%nat → ∃ input h sig,
    tx_inputs (mt_tx m') !! i = Some input ∧ in_signature_script input = 65%N :: sig ++ [SIG_HASH_ALL] ∧
    fst (@calc_schnorr_signature_hash sum_digest unit _ _ w i SIG_HASH_ALL reused_new) = Ok h ∧
    concat_verify 258%N h sig = true.
Proof.
  apply (@sign_correct sum_digest unit N N (λ l, Some (Hashes.from_bytes l)) concat_sign id concat_verify) with (entries := ex_entries).
  - intros key call msg. apply bool_decide_eq_true. reflexivity.
  - reflexivity.
  - reflexivity.
Defined.
