(* ===== verification/Merkle.v ===== *)
(** * Merkle trees

    [crypto/merkle/src/lib.rs] and [consensus/core/src/merkle.rs]: the root is computed
    in one vector that holds the leaves, padded to a power of two, followed by the
    levels above them.  It is shown to be the root of the tree built level by level,
    and to determine the leaves unless two of the inputs hashed for them collide. *)

From S2P Require Import Prelude Hash Errors Tx Hashing HashingProof.

Section merkle.
Context `{Hashers}.

Definition merkle_hash (left_hash right_hash : Hash) : Hash :=
  digest MerkleBranchHash (Hashes.as_bytes left_hash ++ Hashes.as_bytes right_hash).

Definition next_power_of_two (n : nat) : nat := (2 ^ Nat.log2_up n)%nat.

(** [v[i]] and [v[i] = x], which panic out of range. *)
Definition at_index {E A} (v : list A) (i : nat) : outcome E A := unwrap_opt (v !! i).
Definition set_index {E A} (v : list A) (i : nat) (x : A) : outcome E (list A) :=
  assert (i <? length v)%nat;; mret (<[i := x]> v).

(** [for (i, hash) in hashes.enumerate()]. *)
Fixpoint fill_leaves {E} (merkles : list (option Hash)) (i : nat) (hashes : list Hash) : outcome E (list (option Hash)) :=
  match hashes with
  | [] => mret merkles
  | hash :: rest => merkles' ← set_index merkles i (Some hash); fill_leaves merkles' (S i) rest
  end.

Definition merkle_step {E} (acc : list (option Hash) * nat) (i : nat) : outcome E (list (option Hash) * nat) :=
  let '(merkles, offset) := acc in
  l ← at_index merkles i;
  node ← match l with
    | None => mret None
    | Some left_hash => r ← at_index merkles (i + 1); mret (Some (merkle_hash left_hash (default ZERO_HASH r)))
    end;
  merkles' ← set_index merkles offset node;
  mret (merkles', S offset).

Definition calc_merkle_root {E} (hashes : list Hash) : outcome E Hash :=
  if (length hashes =? 0)%nat then mret ZERO_HASH
  else
    let next_pot := next_power_of_two (length hashes) in
    let vec_len := (2 * next_pot - 1)%nat in
    merkles ← fill_leaves (replicate vec_len None) 0 hashes;
    (* (0..vec_len - 1).step_by(2) *)
    '(merkles, _) ← ofold merkle_step (merkles, next_pot) ((λ t, 2 * t)%nat <$> seq 0 (next_pot - 1));
    root ← unwrap_opt (last merkles);
    unwrap_opt root.

Definition calc_hash_merkle_root {E} (txs : list Transaction) : outcome E Hash :=
  calc_merkle_root (tx_hash <$> txs).

(** ** The tree, level by level

    A level is paired up into the next; a hash without a partner is paired with zero.
    After as many levels as the number of leaves has bits, the root is left. *)

Fixpoint pair_up (l : list Hash) : list Hash :=
  match l with
  | a :: b :: rest => merkle_hash a b :: pair_up rest
  | [a] => [merkle_hash a ZERO_HASH]
  | [] => []
  end.
Definition merkle_root (hashes : list Hash) : Hash :=
  default ZERO_HASH (head (Nat.iter (Nat.log2_up (length hashes)) pair_up hashes)).

(** The same with the padding the code uses. *)
Definition parent (l r : option Hash) : option Hash :=
  match l with
  | None => None
  | Some left_hash => Some (merkle_hash left_hash (default ZERO_HASH r))
  end.
Fixpoint level_up (l : list (option Hash)) : list (option Hash) :=
  match l with
  | a :: b :: rest => parent a b :: level_up rest
  | _ => []
  end.
Definition pad (n : nat) (hashes : list Hash) : list (option Hash) :=
  (Some <$> hashes) ++ replicate (n - length hashes) None.

Lemma level_up_lookup l j a b :
  l !! (2 * j)%nat = Some a → l !! (2 * j + 1)%nat = Some b → level_up l !! j = Some (parent a b).
Proof.
  revert l. induction j as [|j IH]; intros l Ha Hb.
  - destruct l as [|x [|y l]]; simplify_eq/=. done.
  - replace (2 * S j)%nat with (S (S (2 * j))) in * by lia. destruct l as [|x [|y l]]; simplify_eq/=. by apply IH.
Qed.

Lemma level_up_length l n : length l = (2 * n)%nat → length (level_up l) = n.
Proof.
  revert l. induction n as [|n IH]; intros [|a [|b l]] Hl; simpl in *; try done; try lia. by rewrite IH by lia.
Qed.

Lemma iter_level_length m h l : length l = (2 ^ (m + h))%nat → length (Nat.iter h level_up l) = (2 ^ m)%nat.
Proof.
  revert m. induction h as [|h IH]; intros m Hl; simpl.
  - by rewrite Hl, Nat.add_0_r.
  - apply level_up_length. rewrite (IH (S m)); [done|]. by rewrite Hl, Nat.add_succ_r.
Qed.

(** ** The loops of [calc_merkle_root] *)

Lemma fill_leaves_ok {E} hashes : ∀ done n,
  fill_leaves (E:=E) ((Some <$> done) ++ replicate (length hashes + n) None) (length done) hashes =
  Ok ((Some <$> done ++ hashes) ++ replicate n None).
Proof.
  induction hashes as [|h hashes IH]; intros dn n; simpl; [by rewrite app_nil_r|].
  unfold set_index. rewrite (proj2 (Nat.ltb_lt _ _)) by (rewrite length_app, length_fmap; simpl; lia). cbn.
  rewrite insert_app_r_alt by (by rewrite length_fmap). rewrite length_fmap, Nat.sub_diag. cbn.
  specialize (IH (dn ++ [h]) n). rewrite fmap_app, <-!app_assoc, length_app in IH. simpl in IH.
  rewrite Nat.add_1_r in IH. by rewrite IH.
Qed.

(** The vector after [t] turns: a solved prefix, [None] beyond it. *)
Record turn (leaves : list (option Hash)) (t : nat) (v : list (option Hash)) : Prop := {
  tn_length : length v = (2 * length leaves - 1)%nat;
  tn_leaves : ∀ i, (i < length leaves)%nat → v !! i = leaves !! i;
  tn_nodes : ∀ s a b, (s < t)%nat → v !! (2 * s)%nat = Some a → v !! (2 * s + 1)%nat = Some b →
    v !! (length leaves + s)%nat = Some (parent a b);
}.

Lemma merkle_turns {E} leaves m : ∀ t v,
  (t + m <= length leaves - 1)%nat → turn leaves t v →
  ∃ v', ofold (E:=E) merkle_step (v, (length leaves + t)%nat) ((λ t, 2 * t)%nat <$> seq t m) =
    Ok (v', (length leaves + t + m)%nat) ∧ turn leaves (t + m) v'.
Proof.
  induction m as [|m IH]; intros t v Ht [Hl Hv Hn]; cbn [seq fmap list_fmap ofold].
  { exists v. split; [by rewrite Nat.add_0_r|]. by rewrite Nat.add_0_r. }
  destruct (lookup_lt_is_Some_2 v (2 * t)%nat) as [a Ha]; [lia|].
  destruct (lookup_lt_is_Some_2 v (2 * t + 1)%nat) as [b Hb]; [lia|].
  assert (Hstep : merkle_step (E:=E) (v, (length leaves + t)%nat) (2 * t) =
    Ok (<[(length leaves + t)%nat := parent a b]> v, S (length leaves + t))).
  { unfold merkle_step, at_index, set_index. rewrite Ha, Hb, (proj2 (Nat.ltb_lt _ _)) by lia. by destruct a. }
  rewrite Hstep. cbn [mbind outcome_bind]. destruct (IH (S t) (<[(length leaves + t)%nat := parent a b]> v)) as (v' & Hr & Htn).
  - lia.
  - split; [by rewrite length_insert| |].
    + intros i Hi. rewrite list_lookup_insert_ne by lia. by apply Hv.
    + intros s c d Hs. rewrite !list_lookup_insert_ne by lia. intros Hc Hd. destruct (decide (s = t)) as [->|Hst].
      * rewrite list_lookup_insert_eq by lia. congruence.
      * rewrite list_lookup_insert_ne by lia. apply Hn; [lia|done..].
  - exists v'. rewrite Nat.add_succ_r in Hr. rewrite Hr. split; [f_equal; f_equal; lia|].
    by replace (t + S m)%nat with (S t + m)%nat by lia.
Qed.

(** Level [h] lies where the levels below it end. *)
Lemma turn_levels leaves n v h : length leaves = (2 ^ n)%nat → turn leaves (length leaves - 1) v → (h <= n)%nat →
  ∀ j, (j < 2 ^ (n - h))%nat → v !! (2 ^ S n - 2 ^ (S n - h) + j)%nat = Nat.iter h level_up leaves !! j.
Proof.
  intros Hlen Htn Hh. pose proof Htn as [Hl Hv Hn]. rewrite Hlen in *.
  induction h as [|h IH]; intros j Hj.
  - replace (S n - 0)%nat with (S n) by lia. rewrite Nat.sub_diag. simpl. rewrite Nat.sub_0_r in Hj. by apply Hv.
  - specialize (IH ltac:(lia)).
    change (Nat.iter (S h) level_up leaves) with (level_up (Nat.iter h level_up leaves)).
    assert (Hp : (2 ^ (n - h) = 2 * 2 ^ (n - S h))%nat) by (rewrite <-Nat.pow_succ_r'; f_equal; lia).
    assert (Hp' : (2 ^ (S n - h) = 2 * 2 ^ (n - h))%nat) by (rewrite <-Nat.pow_succ_r'; f_equal; lia).
    assert (Hq : (2 ^ (n - h) <= 2 ^ n)%nat) by (apply Nat.pow_le_mono_r; lia).
    assert (Hpos : (0 < 2 ^ (n - S h))%nat) by (apply Nat.neq_0_lt_0, Nat.pow_nonzero; lia).
    assert (Hs : (2 ^ S n = 2 * 2 ^ n)%nat) by apply Nat.pow_succ_r'.
    replace (S n - S h)%nat with (n - h)%nat by lia.
    assert (Hll : length (Nat.iter h level_up leaves) = (2 ^ (n - h))%nat).
    { apply iter_level_length. rewrite Hlen. f_equal. lia. }
    destruct (lookup_lt_is_Some_2 (Nat.iter h level_up leaves) (2 * j)%nat) as [a Ha]; [lia|].
    destruct (lookup_lt_is_Some_2 (Nat.iter h level_up leaves) (2 * j + 1)%nat) as [b Hb]; [lia|].
    rewrite (level_up_lookup _ _ _ _ Ha Hb). rewrite <-IH in Ha, Hb by lia.
    replace (2 ^ S n - 2 ^ (n - h) + j)%nat with (2 ^ n + (2 ^ n - 2 ^ (n - h) + j))%nat by lia.
    apply Hn; [lia| |].
    + rewrite <-Ha. f_equal. lia.
    + rewrite <-Hb. f_equal. lia.
Qed.

Lemma pad_length n hashes : (length hashes <= n)%nat → length (pad n hashes) = n.
Proof. intros Hl. unfold pad. rewrite length_app, length_fmap, length_replicate. lia. Qed.

Lemma next_power_ge n : (0 < n)%nat → (n <= next_power_of_two n)%nat.
Proof. intros Hn. unfold next_power_of_two. by apply Nat.log2_log2_up_spec. Qed.

Lemma pair_up_length n l : (length l <= 2 * n)%nat → (length (pair_up l) <= n)%nat.
Proof.
  revert l. induction n as [|n IH]; intros [|a [|b l]] Hl; simpl in *; try lia.
  specialize (IH l ltac:(lia)). lia.
Qed.

Lemma pair_up_nonempty l : l ≠ [] → pair_up l ≠ [].
Proof. by destruct l as [|a [|b l]]. Qed.

Lemma level_up_pad n l : (length l <= 2 * n)%nat → level_up (pad (2 * n) l) = pad n (pair_up l).
Proof.
  revert l. induction n as [|n IH]; intros l Hl.
  - by destruct l as [|a l]; [|simpl in Hl; lia].
  - replace (2 * S n)%nat with (S (S (2 * n))) in * by lia. destruct l as [|a [|b l]].
    + specialize (IH [] ltac:(simpl; lia)). unfold pad in *. cbn [fmap list_fmap app length pair_up] in *.
      rewrite !Nat.sub_0_r in *. cbn [replicate level_up]. by rewrite IH.
    + specialize (IH [] ltac:(simpl; lia)). unfold pad in *. cbn [fmap list_fmap app length pair_up] in *.
      rewrite !Nat.sub_0_r in *. rewrite !Nat.sub_succ, !Nat.sub_0_r. cbn [replicate level_up]. by rewrite IH.
    + specialize (IH l ltac:(simpl in *; lia)). unfold pad in *. cbn [fmap list_fmap app length pair_up level_up] in *.
      rewrite !Nat.sub_succ. by rewrite IH.
Qed.

Lemma iter_level_pad h m l : (length l <= 2 ^ (m + h))%nat →
  Nat.iter h level_up (pad (2 ^ (m + h)) l) = pad (2 ^ m) (Nat.iter h pair_up l) ∧
  (length (Nat.iter h pair_up l) <= 2 ^ m)%nat.
Proof.
  revert m. induction h as [|h IH]; intros m Hl.
  - by rewrite Nat.add_0_r in *.
  - rewrite Nat.add_succ_r in *. destruct (IH (S m) Hl) as [He Hle]. rewrite Nat.pow_succ_r' in Hle.
    split; [|by apply pair_up_length].
    change (level_up (Nat.iter h level_up (pad (2 ^ (S m + h)) l)) = pad (2 ^ m) (pair_up (Nat.iter h pair_up l))).
    by rewrite He, Nat.pow_succ_r', level_up_pad.
Qed.

Lemma iter_pair_nonempty h l : l ≠ [] → Nat.iter h pair_up l ≠ [].
Proof. intros Hl. induction h; [done|]. by apply pair_up_nonempty. Qed.

Lemma calc_merkle_root_ok {E} (hashes : list Hash) : calc_merkle_root (E:=E) hashes = Ok (merkle_root hashes).
Proof.
  unfold calc_merkle_root. destruct (Nat.eqb_spec (length hashes) 0) as [Hz|Hz].
  { by apply length_zero_iff_nil in Hz as ->. }
  set (n := Nat.log2_up (length hashes)). set (np := next_power_of_two (length hashes)).
  pose proof (next_power_ge (length hashes) ltac:(lia)) as Hge. fold np in Hge.
  assert (Hpad : length (pad np hashes) = np) by by apply pad_length.
  replace (replicate (2 * np - 1) (@None Hash)) with ((Some <$> []) ++ replicate (length hashes + (2 * np - 1 - length hashes)) (@None Hash))
    by (simpl; f_equal; lia).
  rewrite (fill_leaves_ok hashes []). cbn [mbind outcome_bind app].
  assert (H0 : turn (pad np hashes) 0 ((Some <$> hashes) ++ replicate (2 * np - 1 - length hashes) None)).
  { split; rewrite ?Hpad.
    - rewrite length_app, length_fmap, length_replicate. lia.
    - intros i Hi. unfold pad. destruct (decide (i < length hashes)%nat).
      + by rewrite !lookup_app_l by (rewrite length_fmap; lia).
      + rewrite !lookup_app_r by (rewrite length_fmap; lia). rewrite length_fmap, !lookup_replicate_2 by lia. done.
    - lia. }
  destruct (merkle_turns (E:=E) (pad np hashes) (np - 1) 0 _ ltac:(lia) H0) as (v & Hr & Htn).
  rewrite Hpad, Nat.add_0_r in Hr. rewrite Hr. cbn [mbind outcome_bind]. rewrite Nat.add_0_l in Htn.
  assert (Hnp : np = (2 ^ n)%nat) by done.
  rewrite last_lookup. pose proof (tn_length _ _ _ Htn) as Hvl. rewrite Hvl, Hpad.
  pose proof (turn_levels (pad np hashes) n v n ltac:(by rewrite Hpad) ltac:(by rewrite Hpad) ltac:(lia) 0%nat) as Htop.
  replace (S n - n)%nat with 1%nat in Htop by lia. rewrite Nat.sub_diag, Nat.add_0_r, Nat.pow_succ_r' in Htop.
  replace (Init.Nat.pred (2 * np - 1))%nat with (2 * 2 ^ n - 2 ^ 1)%nat by (rewrite Hnp; simpl; lia).
  rewrite Htop by (simpl; lia). unfold merkle_root. fold n np.
  destruct (iter_level_pad n 0 hashes) as [He Hle]; [by rewrite Nat.add_0_l, <-Hnp|].
  rewrite Nat.add_0_l, <-Hnp in He. rewrite He.
  pose proof (iter_pair_nonempty n hashes ltac:(by intros ->)) as Hne.
  destruct (Nat.iter n pair_up hashes) as [|r rest]; done.
Qed.

(** ** The root determines the leaves

    The inputs the digest of the inner nodes is given on the way from a level to the
    root, level by level. *)

Definition node_input (a b : Hash) : list N := Hashes.as_bytes a ++ Hashes.as_bytes b.
Fixpoint level_inputs (l : list Hash) : list (list N) :=
  match l with
  | a :: b :: rest => node_input a b :: level_inputs rest
  | [a] => [node_input a ZERO_HASH]
  | [] => []
  end.
Fixpoint tree_inputs (h : nat) (l : list Hash) : list (list N) :=
  match h with
  | O => []
  | S h => level_inputs l ++ tree_inputs h (pair_up l)
  end.
Definition merkle_inputs (hashes : list Hash) : list (list N) :=
  tree_inputs (Nat.log2_up (length hashes)) hashes.

(** Two different inputs, one of either list, with the same digest. *)
Definition collide (xs ys : list (list N)) : Prop :=
  ∃ x y, x ∈ xs ∧ y ∈ ys ∧ x ≠ y ∧ digest MerkleBranchHash x = digest MerkleBranchHash y.

Lemma collide_mono xs ys xs' ys' : collide xs ys → xs ⊆ xs' → ys ⊆ ys' → collide xs' ys'.
Proof. intros (x & y & Hx & Hy & Hne & Heq) Hxs Hys. exists x, y. auto. Qed.

Lemma node_input_inj a b c d :
  hash_fits a → hash_fits b → hash_fits c → hash_fits d → node_input a b = node_input c d → a = c ∧ b = d.
Proof.
  unfold node_input. intros Ha Hb Hc Hd Heq. apply hash_decodable in Heq as [-> Heq]; [|done..].
  rewrite <-(app_nil_r (Hashes.as_bytes b)), <-(app_nil_r (Hashes.as_bytes d)) in Heq.
  by apply hash_decodable in Heq as [-> _].
Qed.

Lemma merkle_hash_inj a b c d :
  hash_fits a → hash_fits b → hash_fits c → hash_fits d →
  merkle_hash a b = merkle_hash c d → collide [node_input a b] [node_input c d] ∨ (a = c ∧ b = d).
Proof.
  intros Ha Hb Hc Hd Heq. destruct (decide (node_input a b = node_input c d)) as [Hi|Hi].
  - right. by apply node_input_inj.
  - left. exists (node_input a b), (node_input c d). rewrite !list_elem_of_singleton. done.
Qed.

Lemma pair_up_same_length l k : length l = length k → length (pair_up l) = length (pair_up k).
Proof.
  revert l k. fix IH 1. intros [|a [|b l]] [|c [|d k]] Hl; try done. simpl. f_equal. apply IH. by injection Hl.
Qed.

Lemma zero_fits : hash_fits ZERO_HASH.
Proof. done. Qed.

Lemma pair_up_inj l k :
  Forall hash_fits l → Forall hash_fits k → length l = length k → pair_up l = pair_up k →
  collide (level_inputs l) (level_inputs k) ∨ l = k.
Proof.
  revert l k. fix IH 1. intros [|a [|b l]] [|c [|d k]] Hl Hk Hlen Heq; try done; [by right|..].
  - injection Heq as Heq. apply Forall_inv in Hl, Hk.
    destruct (merkle_hash_inj a ZERO_HASH c ZERO_HASH) as [?|[-> _]];
      [done|apply zero_fits|done|apply zero_fits|done|by left|by right].
  - injection Heq as Hh Heq. apply Forall_cons in Hl as [Ha [Hb Hl]%Forall_cons].
    apply Forall_cons in Hk as [Hc [Hd Hk]%Forall_cons].
    destruct (merkle_hash_inj a b c d) as [Hcol|[-> ->]]; [done..| |].
    { left. apply (collide_mono _ _ _ _ Hcol); cbn [level_inputs]; set_solver. }
    destruct (IH l k) as [Hcol| ->]; [done|done|by injection Hlen|done| |by right].
    left. apply (collide_mono _ _ _ _ Hcol); cbn [level_inputs]; set_solver.
Qed.

Context (digest_fits : ∀ k bytes, hash_fits (digest k bytes)).

Lemma pair_up_fits l : Forall hash_fits (pair_up l).
Proof using digest_fits.
  revert l. fix IH 1. intros [|a [|b l]]; [constructor|constructor; [apply digest_fits|constructor]|].
  cbn [pair_up]. constructor; [apply digest_fits|apply IH].
Qed.

Lemma iter_pair_inj h : ∀ l k,
  Forall hash_fits l → Forall hash_fits k → length l = length k → Nat.iter h pair_up l = Nat.iter h pair_up k →
  collide (tree_inputs h l) (tree_inputs h k) ∨ l = k.
Proof using digest_fits.
  induction h as [|h IH]; intros l k Hl Hk Hlen; [by right|].
  rewrite !Nat.iter_succ_r. cbn [tree_inputs].
  intros [Hcol|Heq]%IH; [|apply pair_up_inj in Heq as [Hcol| ->]|auto using pair_up_fits, pair_up_same_length..]; try done;
    [left; apply (collide_mono _ _ _ _ Hcol); set_solver..|by right].
Qed.

(** The root is what the levels leave. *)
Lemma merkle_root_single t : t ≠ [] → Nat.iter (Nat.log2_up (length t)) pair_up t = [merkle_root t].
Proof.
  intros Ht. unfold merkle_root. pose proof (iter_pair_nonempty (Nat.log2_up (length t)) t Ht) as Hne.
  destruct (iter_level_pad (Nat.log2_up (length t)) 0 t) as [_ Hle].
  - rewrite Nat.add_0_l. apply next_power_ge. destruct t; simpl; [done|lia].
  - destruct (Nat.iter _ pair_up t) as [|r [|r' rest]]; [done|done|simpl in Hle; lia].
Qed.

(** C23: The vector computation of [calc_merkle_root] never panics and gives the root of
    the tree built level by level.  Two different lists of the same length have the same
    root only if the digest takes two different inputs to the same value that were
    hashed, one in the computation for the first list and one in that for the second:
    whoever presents other leaves under a root exhibits a collision. *)
Theorem calc_merkle_root_correct {E} (l k : list Hash) :
  Forall hash_fits l → Forall hash_fits k → length l = length k →
  calc_merkle_root (E:=E) l = Ok (merkle_root l) ∧
  (calc_merkle_root (E:=E) l = calc_merkle_root (E:=E) k → l = k ∨ collide (merkle_inputs l) (merkle_inputs k)).
Proof using digest_fits.
  intros Hl Hk Hlen. split; [apply calc_merkle_root_ok|]. rewrite !calc_merkle_root_ok. intros Heq%ok_inj.
  destruct (decide (l = [])) as [->|Hne]; [left; by destruct k|].
  assert (Hke : k ≠ []) by (intros ->; by destruct l).
  unfold merkle_inputs. destruct (iter_pair_inj (Nat.log2_up (length l)) l k) as [Hcol|He]; [done..| |rewrite <-Hlen; by right|by left].
  pose proof (merkle_root_single l Hne) as Hrl. pose proof (merkle_root_single k Hke) as Hrk. rewrite <-Hlen in Hrk. congruence.
Qed.
End merkle.

(** A digest with collisions: the sum of the bytes. *)
Definition byte_sum : Hashers := λ _ bytes, (foldl N.add 0 bytes mod 2 ^ 256)%N.

Lemma byte_sum_fits k bytes : hash_fits (@digest byte_sum k bytes).
Proof. apply N.mod_lt. done. Qed.

(** [3; 5; 8] and [5; 3; 8] have the same root, by a collision among the inputs hashed for
    them; the inputs hashed for [3; 5] and [3; 6] do not collide. *)
Lemma calc_merkle_root_correct_witness :
  (@calc_merkle_root byte_sum unit [3; 5; 8]%N = Ok (@merkle_root byte_sum [3; 5; 8]%N)) ∧
  @collide byte_sum (@merkle_inputs byte_sum [3; 5; 8]%N) (@merkle_inputs byte_sum [5; 3; 8]%N) ∧
  ¬ @collide byte_sum (@merkle_inputs byte_sum [3; 5]%N) (@merkle_inputs byte_sum [3; 6]%N).
Proof.
  pose proof (@calc_merkle_root_correct byte_sum byte_sum_fits unit [3; 5; 8]%N [5; 3; 8]%N
    ltac:(repeat constructor) ltac:(repeat constructor) eq_refl) as [Hok Heq].
  split; [exact Hok|split].
  - destruct Heq as [Heq|Heq]; [vm_compute; reflexivity|discriminate|exact Heq].
  - intros (x & y & Hx & Hy & _ & Hd). vm_compute in Hx, Hy.
    apply list_elem_of_singleton in Hx as ->. apply list_elem_of_singleton in Hy as ->.
    vm_compute in Hd. discriminate.
Defined.
