(* ===== verification/Database.v ===== *)
(** * Database access

    [consensus/src/model/stores/database/]: the cache with random eviction, the keys,
    the direct and batched writers, and the cached access and item built from them.
    RocksDB is a map from bytes to bytes whose operations succeed; a batch takes effect
    when it is written.  Serialisation is a parameter with its round trip as a law, the
    random number generator an arbitrary sequence of draws. *)

From S2P Require Import Prelude.

(** ** [IndexMap]: entries in insertion order, removal by swapping with the last *)

Section index_map.
Context {K V : Type} `{EqDecision K}.
Implicit Types (m : list (K * V)) (k : K) (v : V).

Fixpoint im_get m k : option V :=
  match m with
  | [] => None
  | (k', v) :: m' => if decide (k' = k) then Some v else im_get m' k
  end.
Fixpoint im_insert m k v : list (K * V) :=
  match m with
  | [] => [(k, v)]
  | (k', v') :: m' => if decide (k' = k) then (k, v) :: m' else (k', v') :: im_insert m' k v
  end.
Definition swap_remove_index m (i : nat) : list (K * V) :=
  match last m with
  | Some l => take (length m - 1) (<[i := l]> m)
  | None => m
  end.
Fixpoint im_index m k : option nat :=
  match m with
  | [] => None
  | (k', _) :: m' => if decide (k' = k) then Some 0%nat else S <$> im_index m' k
  end.
Definition swap_remove m k : list (K * V) :=
  match im_index m k with Some i => swap_remove_index m i | None => m end.
End index_map.

(** ** [Cache] *)

Section cache.
Context {K V : Type} `{EqDecision K} (draw : nat → nat).

(** [c_draws] counts the numbers drawn so far. *)
Record Cache : Type := mkCache { c_map : list (K * V); c_size : nat; c_draws : nat }.

Definition cache_new (size : nat) : Cache := mkCache [] size 0.
Definition cache_get (self : Cache) (key : K) : option V := im_get (c_map self) key.
Definition cache_contains_key (self : Cache) (key : K) : bool := bool_decide (is_Some (cache_get self key)).

Definition evict_if_full (self : Cache) : Cache :=
  if (length (c_map self) =? c_size self)%nat
  then mkCache (swap_remove_index (c_map self) (draw (c_draws self) mod c_size self)) (c_size self) (S (c_draws self))
  else self.
Definition cache_put (self : Cache) (key : K) (data : V) : Cache :=
  let self := evict_if_full self in mkCache (im_insert (c_map self) key data) (c_size self) (c_draws self).

Definition cache_insert (self : Cache) (key : K) (data : V) : Cache :=
  if (c_size self =? 0)%nat then self else cache_put self key data.
Definition cache_insert_many (self : Cache) (items : list (K * V)) : Cache :=
  if (c_size self =? 0)%nat then self else foldl (λ c '(key, data), cache_put c key data) self items.
Definition cache_remove (self : Cache) (key : K) : Cache :=
  if (c_size self =? 0)%nat then self else mkCache (swap_remove (c_map self) key) (c_size self) (c_draws self).
Definition cache_remove_many (self : Cache) (keys : list K) : Cache :=
  if (c_size self =? 0)%nat then self
  else mkCache (foldl swap_remove (c_map self) keys) (c_size self) (c_draws self).
End cache.
Arguments Cache : clear implicits.

(** ** Keys and writers *)

Definition SEP : N := 47.
Definition db_key (prefix key : list N) : list N := prefix ++ SEP :: key.
Definition prefix_only (prefix : list N) : list N := db_key prefix [].

Abbreviation Db := (gmap (list N) (list N)).
Inductive BatchOp : Type := BatchPut (key value : list N) | BatchDelete (key : list N).
Abbreviation WriteBatch := (list BatchOp).

Definition apply_op (db : Db) (op : BatchOp) : Db :=
  match op with BatchPut key value => <[key := value]> db | BatchDelete key => delete key db end.
(** [DB::write]: all operations of the batch, in order. *)
Definition db_write (db : Db) (batch : WriteBatch) : Db := foldl apply_op db batch.

Inductive DbWriter : Type := DirectDbWriter | BatchDbWriter.

Inductive DbError : Type := DbKeyNotFound (key : list N) | DeserializationError.

(** ** [CachedDbAccess] *)

Section access.
Context {K V : Type} `{EqDecision K} (draw : nat → nat).
Context (key_bytes : K → list N) (serialize : V → list N) (deserialize : list N → option V) (prefix : list N).

(** The database, the open batch and the cache of one store. *)
Record AccessState : Type := mkAccess { as_db : Db; as_batch : WriteBatch; as_cache : Cache K V }.

Definition set_cache (c : Cache K V) (s : AccessState) : AccessState := mkAccess (as_db s) (as_batch s) c.
Definition write_op (writer : DbWriter) (op : BatchOp) (s : AccessState) : AccessState :=
  match writer with
  | DirectDbWriter => mkAccess (apply_op (as_db s) op) (as_batch s) (as_cache s)
  | BatchDbWriter => mkAccess (as_db s) (as_batch s ++ [op]) (as_cache s)
  end.

Definition access_read_from_cache (key : K) : M AccessState DbError (option V) :=
  s ← get; mret (cache_get (as_cache s) key).

Definition access_has (key : K) : M AccessState DbError bool :=
  s ← get;
  mret (cache_contains_key (as_cache s) key || bool_decide (is_Some (as_db s !! db_key prefix (key_bytes key)))).

Definition access_read (key : K) : M AccessState DbError V :=
  s ← get;
  match cache_get (as_cache s) key with
  | Some data => mret data
  | None =>
      match as_db s !! db_key prefix (key_bytes key) with
      | Some slice =>
          match deserialize slice with
          | Some data => modify (λ s, set_cache (cache_insert draw (as_cache s) key data) s);; mret data
          | None => fail DeserializationError
          end
      | None => fail (DbKeyNotFound (db_key prefix (key_bytes key)))
      end
  end.

Definition access_write (writer : DbWriter) (key : K) (data : V) : M AccessState DbError unit :=
  modify (λ s, set_cache (cache_insert draw (as_cache s) key data) s);;
  modify (write_op writer (BatchPut (db_key prefix (key_bytes key)) (serialize data))).

Definition access_write_many (writer : DbWriter) (items : list (K * V)) : M AccessState DbError unit :=
  modify (λ s, set_cache (cache_insert_many draw (as_cache s) items) s);;
  for_each items (λ '(key, data), modify (write_op writer (BatchPut (db_key prefix (key_bytes key)) (serialize data)))).

Definition access_delete (writer : DbWriter) (key : K) : M AccessState DbError unit :=
  modify (λ s, set_cache (cache_remove (as_cache s) key) s);;
  modify (write_op writer (BatchDelete (db_key prefix (key_bytes key)))).

Definition access_delete_many (writer : DbWriter) (keys : list K) : M AccessState DbError unit :=
  modify (λ s, set_cache (cache_remove_many (as_cache s) keys) s);;
  for_each keys (λ key, modify (write_op writer (BatchDelete (db_key prefix (key_bytes key))))).

(** [db.write(batch)] in the caller. *)
Definition commit_batch : M AccessState DbError unit :=
  modify (λ s, mkAccess (db_write (as_db s) (as_batch s)) [] (as_cache s)).
End access.

(** ** [CachedDbItem] *)

Section item.
Context {T : Type} (serialize : T → list N) (deserialize : list N → option T) (key : list N).

Record ItemState : Type := mkItem { it_db : Db; it_batch : WriteBatch; it_cached : option T }.

Definition item_write_op (writer : DbWriter) (op : BatchOp) (s : ItemState) : ItemState :=
  match writer with
  | DirectDbWriter => mkItem (apply_op (it_db s) op) (it_batch s) (it_cached s)
  | BatchDbWriter => mkItem (it_db s) (it_batch s ++ [op]) (it_cached s)
  end.
Definition set_cached (item : option T) (s : ItemState) : ItemState := mkItem (it_db s) (it_batch s) item.

Definition item_load : M ItemState DbError T :=
  s ← get;
  match it_db s !! key with
  | Some slice => match deserialize slice with Some item => mret item | None => fail DeserializationError end
  | None => fail (DbKeyNotFound (prefix_only key))
  end.

Definition item_read : M ItemState DbError T :=
  s ← get;
  match it_cached s with
  | Some item => mret item
  | None => item ← item_load; modify (set_cached (Some item));; mret item
  end.

Definition item_write (writer : DbWriter) (item : T) : M ItemState DbError unit :=
  modify (set_cached (Some item));;
  modify (item_write_op writer (BatchPut key (serialize item))).

Definition item_update (writer : DbWriter) (op : T → T) : M ItemState DbError T :=
  s ← get;
  modify (set_cached None);;
  item ← match it_cached s with Some item => mret item | None => item_load end;
  let item := op item in
  modify (set_cached (Some item));;
  modify (item_write_op writer (BatchPut key (serialize item)));;
  mret item.
End item.
