(* ===== verification/DatabaseProof.v ===== *)
(** * The cached access refines a map

    A store that is accessed through [CachedDbAccess] behaves like a map with an open
    batch, whatever the cache evicts, provided that a key which the open batch
    overwrites or deletes is not read (and not written directly) before the batch is
    committed; [stale_read] shows that the condition is needed. *)

From S2P Require Import Prelude Database.

(** ** The index map *)

Section index_map.
Context {K V : Type} `{EqDecision K}.
Implicit Types (m : list (K * V)) (k : K) (v : V).

Lemma im_get_insert_eq m k v : im_get (im_insert m k v) k = Some v.
Proof. induction m as [|[k' v'] m IH]; simpl; repeat (case_decide; simpl); done. Qed.
Lemma im_get_insert_ne m k k' v : k ≠ k' → im_get (im_insert m k v) k' = im_get m k'.
Proof. intros Hk. induction m as [|[k'' v'] m IH]; simpl; repeat (case_decide; simpl); congruence. Qed.

Lemma im_get_elem m k v : NoDup m.*1 → im_get m k = Some v ↔ (k, v) ∈ m.
Proof.
  induction m as [|[k' v'] m IH]; cbn; [set_solver|]. intros [Hk Hnd]%NoDup_cons. case_decide as Hd.
  - subst. split; [intros [= ->]; left|]. intros [[= ->]|Hin]%elem_of_cons; [done|].
    destruct Hk. apply list_elem_of_fmap. by exists (k, v).
  - rewrite IH, elem_of_cons by done. naive_solver.
Qed.

Lemma im_insert_keys m k v k' : k' ∈ (im_insert m k v).*1 ↔ k' = k ∨ k' ∈ m.*1.
Proof. induction m as [|[k'' v'] m IH]; cbn; [set_solver|]. case_decide; cbn; set_solver. Qed.

Lemma im_insert_nodup m k v : NoDup m.*1 → NoDup (im_insert m k v).*1.
Proof.
  induction m as [|[k' v'] m IH]; cbn; [intros; apply NoDup_singleton|]. intros [Hk Hnd]%NoDup_cons.
  case_decide; cbn; [subst; by constructor|]. constructor; [|by apply IH]. rewrite im_insert_keys. naive_solver.
Qed.

Lemma im_insert_length m k v : (length (im_insert m k v) ≤ S (length m))%nat.
Proof. induction m as [|[k' v'] m IH]; cbn; [lia|]. case_decide; cbn; lia. Qed.

Lemma swap_remove_perm m i x : m !! i = Some x → m ≡ₚ x :: swap_remove_index m i.
Proof.
  unfold swap_remove_index. destruct (last m) as [l|] eqn:Hl; [|apply last_None in Hl; by subst].
  apply last_Some in Hl as [m' ->]. rewrite length_app, Nat.add_sub. intros Hi.
  destruct (decide (i < length m')%nat) as [Hlt|Hge].
  - rewrite lookup_app_l in Hi by done. rewrite insert_app_l by done.
    rewrite take_app_length' by (by rewrite length_insert). rewrite <-(take_drop_middle m' i x) at 1 by done.
    rewrite insert_take_drop by done. solve_Permutation.
  - rewrite lookup_app_r in Hi by lia. apply list_lookup_singleton_Some in Hi as [Hi <-].
    rewrite insert_app_r_alt by lia. rewrite Hi. cbn. rewrite take_app_length. solve_Permutation.
Qed.

Lemma swap_remove_submseteq m i : swap_remove_index m i ⊆+ m.
Proof.
  destruct (m !! i) as [x|] eqn:Hi.
  - rewrite (swap_remove_perm m i x Hi) at 2. by apply submseteq_cons.
  - unfold swap_remove_index. destruct (last m); [|done]. apply lookup_ge_None in Hi.
    rewrite list_insert_ge by done. apply sublist_submseteq, sublist_take.
Qed.

Lemma im_index_lookup m k i : im_index m k = Some i → ∃ v, m !! i = Some (k, v).
Proof.
  revert i. induction m as [|[k' v'] m IH]; intros i; cbn; [done|]. case_decide; [intros [= <-]; subst; by exists v'|].
  destruct (im_index m k) as [j|]; [|done]. intros [= <-]. by apply IH.
Qed.
Lemma im_index_None m k : im_index m k = None → k ∉ m.*1.
Proof.
  induction m as [|[k' v'] m IH]; cbn; [set_solver|]. case_decide; [done|].
  destruct (im_index m k); [done|]. set_solver.
Qed.

Lemma submseteq_nodup_keys m m' : m' ⊆+ m → NoDup m.*1 → NoDup m'.*1.
Proof. intros [r ->]%submseteq_Permutation. rewrite fmap_app. by intros [? _]%NoDup_app. Qed.
End index_map.

(** ** The cache *)

Section cache.
Context {K V : Type} `{EqDecision K} (draw : nat → nat).
Implicit Types (c : Cache K V) (k : K) (v : V) (P : K → V → Prop).

Definition cache_wf c : Prop := NoDup (c_map c).*1 ∧ (length (c_map c) <= c_size c)%nat.
(** All entries satisfy [P]. *)
Definition cache_holds c P : Prop := cache_wf c ∧ ∀ k v, cache_get c k = Some v → P k v.

Lemma cache_new_holds size P : cache_holds (cache_new size) P.
Proof. split; [split; [constructor|cbn; lia]|done]. Qed.

Lemma cache_holds_mono c P Q : cache_holds c P → (∀ k v, P k v → Q k v) → cache_holds c Q.
Proof. unfold cache_holds. naive_solver. Qed.

Lemma evict_holds c P : cache_holds c P → (0 < c_size c)%nat →
  cache_holds (evict_if_full draw c) P ∧ (length (c_map (evict_if_full draw c)) < c_size c)%nat
  ∧ c_size (evict_if_full draw c) = c_size c.
Proof.
  intros [[Hnd Hl] Hg] Hs. unfold evict_if_full. destruct (Nat.eqb_spec (length (c_map c)) (c_size c)) as [He|He].
  - set (m := swap_remove_index (c_map c) (draw (c_draws c) mod c_size c)).
    assert (Hsub : m ⊆+ c_map c) by apply swap_remove_submseteq.
    assert (Hnd' : NoDup m.*1) by by eapply submseteq_nodup_keys.
    destruct (lookup_lt_is_Some_2 (c_map c) (draw (c_draws c) mod c_size c)) as [x Hx].
    { rewrite He. apply Nat.mod_upper_bound. lia. }
    pose proof (Permutation_length (swap_remove_perm _ _ _ Hx)) as Hlen. cbn in Hlen. fold m in Hlen.
    split_and!; [split; [split; [done|cbn; lia]|]|cbn; lia|done].
    intros k v. unfold cache_get. cbn. rewrite im_get_elem by done. intros Hin. apply Hg. unfold cache_get.
    apply im_get_elem; [done|]. by eapply elem_of_submseteq.
  - split_and!; [done|lia|done].
Qed.

Lemma put_holds c P k v : cache_holds c P → (0 < c_size c)%nat →
  cache_holds (cache_put draw c k v) (λ k' v', if decide (k' = k) then v' = v else P k' v')
  ∧ c_size (cache_put draw c k v) = c_size c.
Proof.
  intros Hc Hs. destruct (evict_holds c P Hc Hs) as ([[Hnd _] Hg] & Hl & Hsz). unfold cache_put.
  set (e := evict_if_full draw c) in *. split; [|done]. split.
  - split; cbn; [by apply im_insert_nodup|]. pose proof (im_insert_length (c_map e) k v). lia.
  - intros k' v'. unfold cache_get. cbn. case_decide as Hk; [subst; rewrite im_get_insert_eq; congruence|].
    rewrite im_get_insert_ne by done. apply Hg.
Qed.

Lemma empty_holds c P Q : cache_holds c P → c_size c = 0%nat → cache_holds c Q.
Proof.
  intros [[Hnd Hl] _] Hs. split; [done|]. intros k v. unfold cache_get.
  destruct (c_map c); [done|]. cbn in Hl. lia.
Qed.

Lemma insert_holds c P k v : cache_holds c P →
  cache_holds (cache_insert draw c k v) (λ k' v', if decide (k' = k) then v' = v else P k' v').
Proof.
  intros Hc. unfold cache_insert. destruct (Nat.eqb_spec (c_size c) 0); [by eapply empty_holds|].
  apply put_holds; [done|lia].
Qed.

Lemma insert_many_holds (P : (K → option V) → K → V → Prop) c (f : K → option V) items :
  cache_holds c (λ k v, f k = Some v) →
  cache_holds (cache_insert_many draw c items)
    (λ k v, foldl (λ f '(k, v), λ k', if decide (k' = k) then Some v else f k') f items k = Some v).
Proof.
  clear P. intros Hc. unfold cache_insert_many. destruct (Nat.eqb_spec (c_size c) 0); [by eapply empty_holds|].
  revert c f Hc n. induction items as [|[k v] items IH]; intros c f Hc Hn; [done|].
  destruct (put_holds c _ k v Hc ltac:(lia)) as [Hp Hsz]. cbn [foldl]. apply IH; [|by rewrite Hsz].
  eapply cache_holds_mono; [exact Hp|]. intros k' v'. cbn. case_decide; congruence.
Qed.

Lemma remove_map_holds (m : list (K * V)) k : NoDup m.*1 →
  NoDup (swap_remove m k).*1 ∧ (length (swap_remove m k) <= length m)%nat ∧
  ∀ k' v', im_get (swap_remove m k) k' = Some v' → k' ≠ k ∧ im_get m k' = Some v'.
Proof.
  intros Hnd. unfold swap_remove. destruct (im_index m k) as [i|] eqn:Hi.
  - apply im_index_lookup in Hi as [v Hv]. pose proof (swap_remove_perm _ _ _ Hv) as Hp.
    assert (Hnd' : NoDup (k :: (swap_remove_index m i).*1)).
    { change (NoDup ((k, v) :: swap_remove_index m i).*1). by rewrite <-Hp. }
    apply NoDup_cons in Hnd' as [Hk Hnd']. split_and!; [done|rewrite Hp at 2; cbn; lia|].
    intros k' v'. rewrite !im_get_elem by done. intros Hin. split.
    + intros ->. apply Hk, list_elem_of_fmap. by exists (k, v').
    + rewrite Hp. by right.
  - apply im_index_None in Hi. split_and!; [done|lia|]. intros k' v' Hg. split; [|done].
    intros ->. apply Hi. apply im_get_elem in Hg; [|done]. apply list_elem_of_fmap. by exists (k, v').
Qed.

Lemma remove_many_holds c P keys : cache_holds c P →
  cache_holds (cache_remove_many c keys) (λ k v, (k ∉ keys) ∧ P k v).
Proof.
  intros Hc. unfold cache_remove_many. destruct (Nat.eqb_spec (c_size c) 0) as [Hz|Hz]; [by eapply empty_holds|].
  destruct Hc as [[Hnd Hl] Hg]. unfold cache_holds, cache_wf, cache_get in *. cbn.
  revert Hnd Hl Hg. generalize (c_map c) as m. induction keys as [|k keys IH]; intros m Hnd Hl Hg; cbn [foldl].
  - split; [done|]. intros. split; [set_solver|by apply Hg].
  - destruct (remove_map_holds m k Hnd) as (Hnd' & Hl' & Hg'). destruct (IH (swap_remove m k)) as [Hwf Hall]; [done|lia| |].
    { intros k' v' Hk'. by apply Hg, Hg'. }
    split; [done|]. intros k' v' Hk'. destruct (Hall k' v' Hk') as [Hnot HP]. split; [|done].
    intros [->|?]%elem_of_cons; [|done].
    assert (Hsub : ∀ keys m, NoDup m.*1 → ∀ v', im_get (foldl swap_remove m keys) k = Some v' → im_get m k = Some v').
    { clear. intros keys. induction keys as [|k0 keys IH]; intros m Hnd v'; cbn; [done|].
      destruct (remove_map_holds m k0 Hnd) as (Hnd' & _ & Hg'). intros Hk%IH; [|done]. by apply Hg'. }
    apply Hsub in Hk'; [|done]. by apply Hg' in Hk' as [? _].
Qed.

Lemma remove_holds c P k : cache_holds c P → cache_holds (cache_remove c k) (λ k' v', k' ≠ k ∧ P k' v').
Proof.
  intros Hc. pose proof (remove_many_holds c P [k] Hc) as Hr. unfold cache_remove_many in Hr. unfold cache_remove.
  destruct (c_size c =? 0)%nat; (eapply cache_holds_mono; [exact Hr|set_solver]).
Qed.
End cache.

(** ** Keys of different stores *)

Lemma db_key_inj p k p' k' : SEP ∉ p → SEP ∉ p' → db_key p k = db_key p' k' → p = p' ∧ k = k'.
Proof.
  unfold db_key. revert p'. induction p as [|a p IH]; intros [|b p'] Hp Hp' Heq; simplify_eq/=.
  - done.
  - destruct Hp'. left.
  - destruct Hp. left.
  - apply IH in H0 as [-> ->]; [done|set_solver..].
Qed.

(** ** The abstract store *)

Section abstract.
Context {K V : Type} `{Countable K}.

(** What is committed, and the operations of the open batch. *)
Record Abs : Type := mkAbs { ab_committed : gmap K V; ab_pending : list (K * option V) }.

Definition pend (m : gmap K V) (p : K * option V) : gmap K V :=
  match p.2 with Some v => <[p.1 := v]> m | None => delete p.1 m end.
(** What the store will be when the batch is committed. *)
Definition ab_next (a : Abs) : gmap K V := foldl pend (ab_committed a) (ab_pending a).

Inductive access_op : Type :=
| OpRead (k : K)
| OpHas (k : K)
| OpWrite (w : DbWriter) (k : K) (v : V)
| OpWriteMany (w : DbWriter) (items : list (K * V))
| OpDelete (w : DbWriter) (k : K)
| OpDeleteMany (w : DbWriter) (keys : list K)
| OpCommit.

(** The changes an operation makes, and through which writer. *)
Definition op_changes (op : access_op) : option (DbWriter * list (K * option V)) :=
  match op with
  | OpWrite w k v => Some (w, [(k, Some v)])
  | OpWriteMany w items => Some (w, (λ '(k, v), (k, Some v)) <$> items)
  | OpDelete w k => Some (w, [(k, None)])
  | OpDeleteMany w keys => Some (w, (λ k, (k, None)) <$> keys)
  | _ => None
  end.
Definition ab_step (a : Abs) (op : access_op) : Abs :=
  match op, op_changes op with
  | OpCommit, _ => mkAbs (ab_next a) []
  | _, Some (DirectDbWriter, cs) => mkAbs (foldl pend (ab_committed a) cs) (ab_pending a)
  | _, Some (BatchDbWriter, cs) => mkAbs (ab_committed a) (ab_pending a ++ cs)
  | _, None => a
  end.

(** The discipline: a key with a pending change is not written directly, and read only
    if it is new or keeps its value. *)
Definition allowed (a : Abs) (op : access_op) : Prop :=
  match op with
  | OpRead k => ab_committed a !! k = None ∨ ab_committed a !! k = ab_next a !! k
  | _ => match op_changes op with
         | Some (DirectDbWriter, cs) => ∀ k, k ∈ cs.*1 → k ∉ (ab_pending a).*1
         | _ => True
         end
  end.
Fixpoint disciplined (a : Abs) (ops : list access_op) : Prop :=
  match ops with
  | [] => True
  | op :: ops' => allowed a op ∧ disciplined (ab_step a op) ops'
  end.

Inductive access_result : Type := RUnit | RValue (v : V) | RBool (b : bool).

(** What may be observed: reads and queries are exact for keys without a pending
    change; a new key of the open batch may be seen or not. *)
Definition expected (a : Abs) (op : access_op) (r : outcome DbError access_result) : Prop :=
  match op with
  | OpRead k =>
      match r with
      | Ok (RValue v) => ab_next a !! k = Some v
      | Err (DbKeyNotFound _) => ab_committed a !! k = None
      | _ => False
      end
  | OpHas k =>
      match r with
      | Ok (RBool true) => is_Some (ab_committed a !! k) ∨ is_Some (ab_next a !! k)
      | Ok (RBool false) => ab_committed a !! k = None
      | _ => False
      end
  | _ => r = Ok RUnit
  end.
Fixpoint conforms (a : Abs) (ops : list access_op) (rs : list (outcome DbError access_result)) : Prop :=
  match ops, rs with
  | [], [] => True
  | op :: ops', r :: rs' => expected a op r ∧ conforms (ab_step a op) ops' rs'
  | _, _ => False
  end.

Lemma pend_lookup_ne m cs k : k ∉ cs.*1 → foldl pend m cs !! k = m !! k.
Proof.
  revert m. induction cs as [|[k' o] cs IH]; intros m Hk; cbn [foldl]; [done|]. rewrite IH by set_solver.
  unfold pend. destruct o; cbn; [apply lookup_insert_ne|apply lookup_delete_ne]; set_solver.
Qed.

(** Changes of a key that the later ones do not touch commute with them. *)
Lemma pend_commute m c cs : c.1 ∉ cs.*1 → foldl pend (pend m c) cs = pend (foldl pend m cs) c.
Proof.
  destruct c as [k o]. cbn. intros Hk. apply map_eq. intros k'. destruct (decide (k' = k)) as [->|Hne].
  - rewrite pend_lookup_ne by done. unfold pend. cbn. destruct o; [by rewrite !lookup_insert_eq|by rewrite !lookup_delete_eq].
  - assert (Hsame : ∀ m1 m2, m1 !! k' = m2 !! k' → foldl pend m1 cs !! k' = foldl pend m2 cs !! k').
    { clear -Hne. induction cs as [|[k1 o1] cs IH]; intros m1 m2 Heq; [done|]. cbn [foldl]. apply IH.
      unfold pend. cbn. destruct (decide (k1 = k')) as [->|]; destruct o1;
        by rewrite ?lookup_insert_eq, ?lookup_delete_eq, ?lookup_insert_ne, ?lookup_delete_ne. }
    unfold pend at 3. cbn. destruct o; rewrite ?lookup_insert_ne, ?lookup_delete_ne by done; apply Hsame; unfold pend; cbn;
      by rewrite ?lookup_insert_ne, ?lookup_delete_ne.
Qed.

Lemma pend_commute_list m cs ds : (∀ k, k ∈ cs.*1 → k ∉ ds.*1) →
  foldl pend (foldl pend m cs) ds = foldl pend (foldl pend m ds) cs.
Proof.
  revert m. induction cs as [|c cs IH]; intros m Hd; [done|]. cbn [foldl]. rewrite IH by set_solver.
  f_equal. apply pend_commute, Hd. destruct c; set_solver.
Qed.
End abstract.
Arguments Abs K V {_ _}.
Arguments access_op K V : clear implicits.

(** ** The simulation *)

Section simulation.
Context {K V : Type} `{Countable K} (draw : nat → nat).
Context (key_bytes : K → list N) (serialize : V → list N) (deserialize : list N → option V) (prefix : list N).
Context (key_bytes_inj : Inj (=) (=) key_bytes) (roundtrip : ∀ v, deserialize (serialize v) = Some v).
Implicit Types (s : AccessState (K:=K) (V:=V)) (a : Abs K V) (op : access_op K V).

Definition run_op op s : outcome DbError (access_result (V:=V)) * AccessState :=
  match op with
  | OpRead k => (RValue <$> access_read draw key_bytes deserialize prefix k) s
  | OpHas k => (RBool <$> access_has key_bytes prefix k) s
  | OpWrite w k v => (access_write draw key_bytes serialize prefix w k v;; mret RUnit) s
  | OpWriteMany w items => (access_write_many draw key_bytes serialize prefix w items;; mret RUnit) s
  | OpDelete w k => (access_delete key_bytes prefix w k;; mret RUnit) s
  | OpDeleteMany w keys => (access_delete_many key_bytes prefix w keys;; mret RUnit) s
  | OpCommit => (commit_batch;; mret RUnit) s
  end.
Fixpoint run_ops (ops : list (access_op K V)) s : list (outcome DbError (access_result (V:=V))) * AccessState :=
  match ops with
  | [] => ([], s)
  | op :: ops' => let '(r, s') := run_op op s in let '(rs, s'') := run_ops ops' s' in (r :: rs, s'')
  end.

Definition dbk (k : K) : list N := db_key prefix (key_bytes k).
Definition encode (c : K * option V) : BatchOp :=
  match c.2 with Some v => BatchPut (dbk c.1) (serialize v) | None => BatchDelete (dbk c.1) end.

(** The concrete state of a store stands for an abstract one; [db0] is the rest of the
    database. *)
Record represents (db0 : Db) s a : Prop := {
  rp_db : ∀ k, as_db s !! dbk k = serialize <$> ab_committed a !! k;
  rp_frame : ∀ key, (∀ k, key ≠ dbk k) → as_db s !! key = db0 !! key;
  rp_batch : as_batch s = encode <$> ab_pending a;
  rp_cache : cache_holds (as_cache s) (λ k v, ab_next a !! k = Some v);
}.

Lemma dbk_inj k k' : dbk k = dbk k' → k = k'.
Proof using key_bytes_inj. unfold dbk, db_key. intros Heq. by apply app_inv_head in Heq; simplify_eq. Qed.

Lemma apply_encoded (db : Db) (m : gmap K V) cs :
  (∀ k, db !! dbk k = serialize <$> m !! k) →
  ∀ k, foldl apply_op db (encode <$> cs) !! dbk k = serialize <$> foldl pend m cs !! k.
Proof using key_bytes_inj.
  revert db m. induction cs as [|[k' o] cs IH]; intros db m Hdb; cbn [foldl fmap list_fmap]; [done|].
  apply IH. intros k. unfold encode, pend. cbn. destruct (decide (k = k')) as [->|Hk]; destruct o; cbn.
  - by rewrite !lookup_insert_eq.
  - by rewrite !lookup_delete_eq.
  - rewrite !lookup_insert_ne; [apply Hdb|congruence|]. intros He%dbk_inj. congruence.
  - rewrite !lookup_delete_ne; [apply Hdb|congruence|]. intros He%dbk_inj. congruence.
Qed.

Lemma apply_encoded_frame (db : Db) cs key :
  (∀ k, key ≠ dbk k) → foldl apply_op db (encode <$> cs) !! key = db !! key.
Proof using Type.
  intros Hk. revert db. induction cs as [|[k' o] cs IH]; intros db; cbn [foldl fmap list_fmap]; [done|].
  rewrite IH. unfold encode. cbn. destruct o; cbn; [by rewrite lookup_insert_ne|by rewrite lookup_delete_ne].
Qed.

(** The writes of one operation. *)
Definition written (w : DbWriter) (cs : list (K * option V)) (c : Cache K V) s : AccessState :=
  match w with
  | DirectDbWriter => mkAccess (foldl apply_op (as_db s) (encode <$> cs)) (as_batch s) c
  | BatchDbWriter => mkAccess (as_db s) (as_batch s ++ (encode <$> cs)) c
  end.

Lemma write_loop {X} (f : X → K * option V) (body : X → M AccessState DbError unit) w (items : list X) s :
  (∀ x, body x = modify (write_op w (encode (f x)))) →
  for_each items body s = (Ok tt, written w (f <$> items) (as_cache s) s).
Proof using Type.
  intros Hg. revert s. induction items as [|x items IH]; intros s; cbn [for_each].
  - destruct s as [db b c], w; cbn; by rewrite ?app_nil_r.
  - unfold mbind, M_bind. rewrite Hg. cbn [modify]. rewrite IH. destruct s as [db b c], w; cbn; by rewrite <-?app_assoc.
Qed.

(** The state after the changes of an operation, for any cache that agrees with them. *)
Lemma changes_represent db0 s a w cs c :
  represents db0 s a →
  (w = DirectDbWriter → ∀ k, k ∈ cs.*1 → k ∉ (ab_pending a).*1) →
  cache_holds c (λ k v, foldl pend (ab_next a) cs !! k = Some v) →
  represents db0 (written w cs c s)
    (match w with
     | DirectDbWriter => mkAbs (foldl pend (ab_committed a) cs) (ab_pending a)
     | BatchDbWriter => mkAbs (ab_committed a) (ab_pending a ++ cs)
     end).
Proof using key_bytes_inj.
  intros [Hdb Hfr Hb Hc] Hd Hc'. destruct w; split; cbn [written as_db as_batch as_cache ab_committed ab_pending].
  - by apply apply_encoded.
  - intros key Hk. rewrite apply_encoded_frame by done. by apply Hfr.
  - done.
  - eapply cache_holds_mono; [exact Hc'|]. cbn. intros k v Hk. unfold ab_next. cbn. by rewrite pend_commute_list by auto.
  - done.
  - done.
  - by rewrite Hb, fmap_app.
  - eapply cache_holds_mono; [exact Hc'|]. cbn. intros k v Hk. unfold ab_next. cbn. by rewrite foldl_app.
Qed.

(** A function of keys updated along a list of writes is the map updated by them. *)
Lemma updated_lookup (m : gmap K V) (f : K → option V) items k :
  (∀ k, f k = m !! k) →
  foldl (λ f '(k, v), λ k', if decide (k' = k) then Some v else f k') f items k =
  foldl pend m ((λ '(k, v), (k, Some v)) <$> items) !! k.
Proof using Type.
  revert m f. induction items as [|[k' v] items IH]; intros m f Hf; cbn [foldl fmap list_fmap]; [apply Hf|].
  apply IH. intros k''. unfold pend. cbn. case_decide; [subst; by rewrite lookup_insert_eq|by rewrite lookup_insert_ne, Hf].
Qed.

Lemma deleted_lookup (m : gmap K V) keys k v :
  (k ∉ keys) ∧ m !! k = Some v → foldl pend m ((λ k, (k, None)) <$> keys) !! k = Some v.
Proof using Type.
  intros [Hk Hm]. rewrite pend_lookup_ne; [done|]. rewrite <-list_fmap_compose. cbn. by rewrite list_fmap_id.
Qed.

Lemma read_represents db0 s a k r s' :
  represents db0 s a → allowed a (OpRead k) → run_op (OpRead k) s = (r, s') → expected a (OpRead k) r ∧ represents db0 s' a.
Proof using key_bytes_inj roundtrip.
  intros Hr Hal. pose proof Hr as [Hdb Hfr Hb Hc]. cbn in Hal |- *. unfold access_read, fmap, M_fmap, mbind, M_bind, get.
  destruct (cache_get (as_cache s) k) as [v|] eqn:Hg.
  - intros [= <- <-]. split; [by apply Hc|done].
  - fold (dbk k). rewrite Hdb. destruct (ab_committed a !! k) as [v|] eqn:Hk; cbn [fmap option_fmap option_map].
    + rewrite roundtrip. intros [= <- <-]. assert (Hn : ab_next a !! k = Some v) by (destruct Hal; congruence).
      split; [done|]. split; cbn; [done|done|done|]. eapply cache_holds_mono; [by apply insert_holds|].
      cbn. intros k' v'. case_decide; [|done]. congruence.
    + intros [= <- <-]. done.
Qed.

Lemma has_represents db0 s a k r s' :
  represents db0 s a → run_op (OpHas k) s = (r, s') → expected a (OpHas k) r ∧ represents db0 s' a.
Proof using Type.
  intros Hr. pose proof Hr as [Hdb Hfr Hb Hc]. cbn. unfold access_has, fmap, M_fmap, mbind, M_bind, get, cache_contains_key.
  intros [= <- <-]. split; [|done]. fold (dbk k). rewrite Hdb. destruct (cache_get (as_cache s) k) as [v|] eqn:Hg; cbn.
  - right. exists v. by apply Hc.
  - destruct (ab_committed a !! k) as [v|]; cbn; [left; by exists v|done].
Qed.

(** An operation that changes the store, given the cache it leaves. *)
Lemma op_changes_represent db0 s a op w cs c :
  op_changes op = Some (w, cs) → represents db0 s a → allowed a op →
  cache_holds c (λ k v, foldl pend (ab_next a) cs !! k = Some v) →
  represents db0 (written w cs c s) (ab_step a op).
Proof using key_bytes_inj.
  intros Hop Hr Hal Hc.
  replace (ab_step a op) with (match w with
    | DirectDbWriter => mkAbs (foldl pend (ab_committed a) cs) (ab_pending a)
    | BatchDbWriter => mkAbs (ab_committed a) (ab_pending a ++ cs) end)
    by (destruct op; simplify_eq/=; by destruct w).
  apply changes_represent; [done| |done]. intros ->. destruct op; simplify_eq/=; exact Hal.
Qed.

Lemma write_represents db0 s a w k v :
  represents db0 s a → allowed a (OpWrite w k v) →
  ∃ s', run_op (OpWrite w k v) s = (Ok RUnit, s') ∧ represents db0 s' (ab_step a (OpWrite w k v)).
Proof using key_bytes_inj.
  intros Hr Hal. exists (written w [(k, Some v)] (cache_insert draw (as_cache s) k v) s). split; [by destruct s, w|].
  eapply op_changes_represent; [done..|]. eapply cache_holds_mono; [apply insert_holds, Hr|].
  cbn. intros k' v'. unfold pend. cbn. case_decide; [intros ->; subst; by rewrite lookup_insert_eq|by rewrite lookup_insert_ne].
Qed.

Lemma write_many_represents db0 s a w items :
  represents db0 s a → allowed a (OpWriteMany w items) →
  ∃ s', run_op (OpWriteMany w items) s = (Ok RUnit, s') ∧ represents db0 s' (ab_step a (OpWriteMany w items)).
Proof using key_bytes_inj.
  intros Hr Hal. eexists (written w ((λ '(k, v), (k, Some v)) <$> items) (cache_insert_many draw (as_cache s) items) s). split.
  - cbn. unfold access_write_many, mbind, M_bind. cbn [modify].
    rewrite (write_loop (λ '(k, v), (k, Some v)) _ w) by by intros []. by destruct s, w.
  - eapply op_changes_represent; [done..|].
    eapply cache_holds_mono; [apply (insert_many_holds draw (λ _ _ _, True) _ (λ k, ab_next a !! k)), Hr|].
    cbn. intros k' v' <-. symmetry. by apply updated_lookup.
Qed.

Lemma delete_represents db0 s a w k :
  represents db0 s a → allowed a (OpDelete w k) →
  ∃ s', run_op (OpDelete w k) s = (Ok RUnit, s') ∧ represents db0 s' (ab_step a (OpDelete w k)).
Proof using key_bytes_inj.
  intros Hr Hal. exists (written w [(k, None)] (cache_remove (as_cache s) k) s). split; [by destruct s, w|].
  eapply op_changes_represent; [done..|]. eapply cache_holds_mono; [apply remove_holds, Hr|].
  cbn. intros k' v' [Hk Hm]. unfold pend. cbn. by rewrite lookup_delete_ne.
Qed.

Lemma delete_many_represents db0 s a w keys :
  represents db0 s a → allowed a (OpDeleteMany w keys) →
  ∃ s', run_op (OpDeleteMany w keys) s = (Ok RUnit, s') ∧ represents db0 s' (ab_step a (OpDeleteMany w keys)).
Proof using key_bytes_inj.
  intros Hr Hal. exists (written w ((λ k, (k, None)) <$> keys) (cache_remove_many (as_cache s) keys) s). split.
  - cbn. unfold access_delete_many, mbind, M_bind. cbn [modify]. rewrite (write_loop (λ k, (k, None)) _ w) by done.
    by destruct s, w.
  - eapply op_changes_represent; [done..|]. eapply cache_holds_mono; [apply remove_many_holds, Hr|].
    cbn. intros k' v'. apply deleted_lookup.
Qed.

Lemma commit_represents db0 s a :
  represents db0 s a → ∃ s', run_op OpCommit s = (Ok RUnit, s') ∧ represents db0 s' (ab_step a OpCommit).
Proof using key_bytes_inj.
  intros [Hdb Hfr Hb Hc]. eexists. split; [done|].
  split; cbn [as_db as_batch as_cache ab_committed ab_pending ab_step]; rewrite ?Hb; [|intros key Hk|done|done].
  - by apply apply_encoded.
  - unfold db_write. rewrite apply_encoded_frame by done. by apply Hfr.
Qed.

Lemma op_represents db0 s a op :
  represents db0 s a → allowed a op →
  ∃ r s', run_op op s = (r, s') ∧ expected a op r ∧ represents db0 s' (ab_step a op).
Proof using key_bytes_inj roundtrip.
  intros Hr Hal. destruct op as [k|k|w k v|w items|w k|w keys|].
  - destruct (run_op (OpRead k) s) as [r s'] eqn:Hrun. exists r, s'. split; [done|]. by eapply read_represents.
  - destruct (run_op (OpHas k) s) as [r s'] eqn:Hrun. exists r, s'. split; [done|]. by eapply has_represents.
  - destruct (write_represents db0 s a w k v Hr Hal) as (s' & ? & ?). by exists (Ok RUnit), s'.
  - destruct (write_many_represents db0 s a w items Hr Hal) as (s' & ? & ?). by exists (Ok RUnit), s'.
  - destruct (delete_represents db0 s a w k Hr Hal) as (s' & ? & ?). by exists (Ok RUnit), s'.
  - destruct (delete_many_represents db0 s a w keys Hr Hal) as (s' & ? & ?). by exists (Ok RUnit), s'.
  - destruct (commit_represents db0 s a Hr) as (s' & ? & ?). by exists (Ok RUnit), s'.
Qed.

(** C24: The cached access refines a map.  Whatever the cache evicts, a disciplined history
    of reads, queries, direct and batched writes and deletes and commits observes what
    the abstract store allows (exact values for every key without a pending change), and
    afterwards the database holds exactly the abstract store under the keys of this
    store and is unchanged elsewhere; once the batch is committed every read returns the
    abstract value. *)
Theorem cached_access_refines (db0 : Db) (committed : gmap K V) (size : nat) (ops : list (access_op K V)) :
  (∀ k, db0 !! dbk k = serialize <$> committed !! k) → disciplined (mkAbs committed []) ops →
  let '(results, s') := run_ops ops (mkAccess db0 [] (cache_new size)) in
  let a' := foldl ab_step (mkAbs committed []) ops in
  conforms (mkAbs committed []) ops results ∧
  (∀ k, as_db s' !! dbk k = serialize <$> ab_committed a' !! k) ∧
  (∀ key, (∀ k, key ≠ dbk k) → as_db s' !! key = db0 !! key) ∧
  (ab_pending a' = [] → ∀ k, fst (access_read draw key_bytes deserialize prefix k s') =
     match ab_committed a' !! k with Some v => Ok v | None => Err (DbKeyNotFound (dbk k)) end).
Proof using key_bytes_inj roundtrip.
  intros Hdb. assert (Hr : represents db0 (mkAccess db0 [] (cache_new size)) (mkAbs committed []))
    by (split; [done|done|done|apply cache_new_holds]).
  revert Hr. generalize (mkAccess db0 [] (@cache_new K V size)) as s. generalize (mkAbs committed []) as a.
  clear committed Hdb. induction ops as [|op ops IH]; intros a s Hr Hd; cbn [run_ops].
  - pose proof Hr as [Hdb Hfr Hb Hc]. split_and!; [done|done|done|]. cbn [foldl]. intros Hp k.
    assert (Hn : ab_next a = ab_committed a) by (unfold ab_next; by rewrite Hp).
    unfold access_read, mbind, M_bind, get. destruct (cache_get (as_cache s) k) as [v|] eqn:Hg.
    + apply Hc in Hg. rewrite Hn in Hg. by rewrite Hg.
    + fold (dbk k). rewrite Hdb. destruct (ab_committed a !! k); cbn; [by rewrite roundtrip|done].
  - destruct Hd as [Hal Hd]. destruct (op_represents db0 s a op Hr Hal) as (r & s1 & -> & He & Hr1).
    specialize (IH (ab_step a op) s1 Hr1 Hd). destruct (run_ops ops s1) as [rs s2]. cbn [conforms foldl]. naive_solver.
Qed.
End simulation.

(** The discipline is needed: with a cache of one entry, the value that a batch replaces
    is read again after the cache has evicted the new one, and stays in the cache when
    the batch is committed. *)
Definition ex_store_ops : list (access_op N N) :=
  [OpWrite DirectDbWriter 1%N 10%N; OpWrite BatchDbWriter 1%N 11%N; OpWrite BatchDbWriter 2%N 20%N;
   OpRead 1%N; OpCommit; OpRead 1%N].
Lemma stale_read :
  last (fst (run_ops (λ _, 0%nat) (λ k, [k]) (λ v, [v]) head [115%N] ex_store_ops (mkAccess ∅ [] (cache_new 1)))) =
  Some (Ok (RValue 10%N)).
Proof. reflexivity. Qed.

Definition ex_good_ops : list (access_op N N) :=
  [OpWrite DirectDbWriter 1%N 10%N; OpWrite BatchDbWriter 1%N 11%N; OpWriteMany BatchDbWriter [(2%N, 20%N); (3%N, 30%N)];
   OpDelete BatchDbWriter 3%N; OpRead 2%N; OpCommit; OpRead 1%N; OpHas 3%N].

Lemma cached_access_refines_witness :
  let '(results, s') := run_ops (λ _, 0%nat) (λ k, [k]) (λ v, [v]) head [115%N] ex_good_ops (mkAccess ∅ [] (cache_new 1)) in
  let a' := foldl ab_step (mkAbs ∅ []) ex_good_ops in
  conforms (mkAbs ∅ []) ex_good_ops results ∧
  (∀ k, as_db s' !! dbk (λ k, [k]) [115%N] k = (λ v, [v]) <$> ab_committed a' !! k) ∧
  (∀ key, (∀ k, key ≠ dbk (λ k, [k]) [115%N] k) → as_db s' !! key = (∅ : Db) !! key) ∧
  (ab_pending a' = [] → ∀ k, fst (access_read (λ _, 0%nat) (λ k, [k]) head [115%N] k s') =
     match ab_committed a' !! k with Some v => Ok v | None => Err (DbKeyNotFound (dbk (λ k, [k]) [115%N] k)) end).
Proof.
  apply (cached_access_refines (K:=N) (V:=N) (λ _, 0%nat) (λ k, [k]) (λ v, [v]) head [115%N]).
  - by intros ? ? [= ->].
  - done.
  - intros k. by rewrite !lookup_empty.
  - vm_compute. repeat split; auto; set_solver.
Defined.

(** ** Items

    A cached item shows the last value written, committed or not, and an update applies
    its function to it. *)

Section items.
Context {T : Type} (serialize : T → list N) (deserialize : list N → option T) (key : list N).
Context (roundtrip : ∀ v, deserialize (serialize v) = Some v).

(** [v] is the value of the item: the batch, if it writes the item, writes [v]. *)
Record item_shows (s : ItemState (T:=T)) (v : T) : Prop := {
  is_next : db_write (it_db s) (it_batch s) !! key = Some (serialize v);
  is_cached : match it_cached s with Some v' => v' = v | None => it_db s !! key = Some (serialize v) end;
}.

Lemma item_read_ok s v : item_shows s v → runs (item_read deserialize key) s (λ v' s', v' = v ∧ item_shows s' v).
Proof using roundtrip.
  intros [Hn Hc]. unfold item_read, item_load. apply runs_bind, runs_get. destruct (it_cached s) as [v'|] eqn:Hs.
  - subst. apply runs_ret. split; [done|]. split; [done|]. by rewrite Hs.
  - apply runs_bind, runs_bind, runs_get. rewrite Hc, roundtrip. apply runs_ret, runs_bind. by eapply runs_intro.
Qed.

Lemma item_write_ok s w v :
  (w = DirectDbWriter → it_batch s = []) →
  runs (item_write serialize key w v) s (λ _ s', item_shows s' v ∧ it_db s' !! key = match w with DirectDbWriter => Some (serialize v) | _ => it_db s !! key end).
Proof using Type.
  intros Hd. unfold item_write. apply runs_bind. eapply runs_intro; [done|]. eapply runs_intro; [done|].
  destruct s as [db b c], w; cbn in *.
  - rewrite Hd by done. split; [split|]; cbn; by rewrite ?lookup_insert_eq.
  - split; [|done]. split; cbn; [|done]. unfold db_write. rewrite foldl_app. cbn. by rewrite lookup_insert_eq.
Qed.

Lemma item_update_ok s w v op :
  item_shows s v → (w = DirectDbWriter → it_batch s = []) →
  runs (item_update serialize deserialize key w op) s (λ v' s', v' = op v ∧ item_shows s' (op v)).
Proof using roundtrip.
  intros [Hn Hc] Hd. unfold item_update. apply runs_bind, runs_get, runs_bind. eapply runs_intro; [done|].
  apply runs_bind. eapply (runs_mono _ _ (λ v' s', v' = v ∧ s' = set_cached None s)).
  - destruct (it_cached s) as [v'|] eqn:Hs; [by subst; apply runs_ret|].
    unfold item_load. apply runs_bind, runs_get. cbn. by rewrite Hc, roundtrip.
  - intros ? ? [-> ->]. apply runs_bind. eapply runs_intro; [done|]. apply runs_bind. eapply runs_intro; [done|].
    apply runs_ret. split; [done|]. destruct s as [db b c], w; cbn in *.
    + rewrite Hd by done. split; cbn; by rewrite ?lookup_insert_eq.
    + split; cbn; [|done]. unfold db_write. rewrite foldl_app. cbn. by rewrite lookup_insert_eq.
Qed.
End items.
