(* ===== verification/TxValidator.v ===== *)
(** * Validation of transactions and their mass

    [consensus/src/processes/transaction_validator/] and [mass.rs]: the rules a
    transaction must meet in isolation, in the context of a block, and with its inputs
    populated.  The secp256k1 package is a parameter: which bytes are a public key or a
    signature, and when a signature is valid; parsed values are represented by their
    bytes. *)

From S2P Require Import Prelude Hash Errors Tx Hashing Database.
Import SigHash.

(** ** Mass *)

Record MassCalculator : Type := mkMass {
  mass_per_tx_byte : Z; mass_per_script_pub_key_byte : Z; mass_per_sig_op : Z }.

(** [size += n] for each [n], from [size]. *)
Definition add_all {E} (size : Z) (l : list Z) : outcome E Z := ofold add64 size l.

Definition outpoint_estimated_serialized_size : Z := 32 + 4.

Definition transaction_input_estimated_serialized_size {E} (input : TransactionInput) : outcome E Z :=
  add_all 0 [outpoint_estimated_serialized_size; 8; Z.of_nat (length (in_signature_script input)); 8].

Definition transaction_output_estimated_serialized_size {E} (output : TransactionOutput) : outcome E Z :=
  add_all 0 [8; 2; 8; Z.of_nat (length (spk_script (out_script_public_key output)))].

Definition transaction_estimated_serialized_size {E} (tx : Transaction) : outcome E Z :=
  size ← add_all 0 [2; 8];
  inputs ← omap_each transaction_input_estimated_serialized_size (tx_inputs tx);
  inputs_size ← sum64 inputs;
  size ← add_all size [inputs_size; 8];
  outputs ← omap_each transaction_output_estimated_serialized_size (tx_outputs tx);
  outputs_size ← sum64 outputs;
  add_all size [outputs_size; 8; 20; 8; 32; 8; Z.of_nat (length (tx_payload tx))].

Definition calc_tx_mass {E} (self : MassCalculator) (tx : Transaction) : outcome E Z :=
  if is_coinbase tx then mret 0
  else
    size ← transaction_estimated_serialized_size tx;
    mass_for_size ← mul64 size (mass_per_tx_byte self);
    spk_sizes ← omap_each (λ output, add64 2 (Z.of_nat (length (spk_script (out_script_public_key output))))) (tx_outputs tx);
    total_script_public_key_size ← sum64 spk_sizes;
    total_script_public_key_mass ← mul64 total_script_public_key_size (mass_per_script_pub_key_byte self);
    total_sigops ← sum64 (in_sig_op_count <$> tx_inputs tx);
    total_sigops_mass ← mul64 total_sigops (mass_per_sig_op self);
    m ← add64 mass_for_size total_script_public_key_mass;
    add64 m total_sigops_mass.

(** ** Validation in isolation *)

Record TransactionValidator : Type := mkValidator {
  tv_max_tx_inputs : Z;
  tv_max_tx_outputs : Z;
  tv_max_signature_script_len : Z;
  tv_max_script_public_key_len : Z;
  tv_ghostdag_k : Z;
  tv_coinbase_payload_script_public_key_max_len : Z;
  tv_coinbase_maturity : Z;
}.

Abbreviation TxResult := (outcome TxRuleError).

(** [iter().position(p)]. *)
Fixpoint position {A} (p : A → bool) (l : list A) : option nat :=
  match l with
  | [] => None
  | x :: l' => if p x then Some 0%nat else S <$> position p l'
  end.

Definition zlen {A} (l : list A) : Z := Z.of_nat (length l).

Section isolation.
Context (self : TransactionValidator).

Definition check_transaction_inputs_count (tx : Transaction) : TxResult unit :=
  if negb (is_coinbase tx) && bool_decide (tx_inputs tx = []) then Err NoTxInputs
  else if tv_max_tx_inputs self <? zlen (tx_inputs tx)
  then Err (TooManyInputs (zlen (tx_inputs tx)) (tv_max_tx_inputs self))
  else Ok tt.

Definition check_transaction_signature_scripts (tx : Transaction) : TxResult unit :=
  match position (λ input, tv_max_signature_script_len self <? zlen (in_signature_script input)) (tx_inputs tx) with
  | Some i => Err (TooBigSignatureScript (Z.of_nat i) (tv_max_signature_script_len self))
  | None => Ok tt
  end.

(** The error carries the number of inputs and its limit, as in the code. *)
Definition check_transaction_outputs_count (tx : Transaction) : TxResult unit :=
  if tv_max_tx_outputs self <? zlen (tx_outputs tx)
  then Err (TooManyOutputs (zlen (tx_inputs tx)) (tv_max_tx_inputs self))
  else Ok tt.

Definition check_transaction_script_public_keys (tx : Transaction) : TxResult unit :=
  match position (λ output, tv_max_script_public_key_len self <? zlen (spk_script (out_script_public_key output)))
    (tx_outputs tx) with
  | Some i => Err (TooBigScriptPublicKey (Z.of_nat i) (tv_max_script_public_key_len self))
  | None => Ok tt
  end.

Definition check_transaction_inputs_in_isolation (tx : Transaction) : TxResult unit :=
  check_transaction_inputs_count tx;; check_transaction_signature_scripts tx.

Definition check_transaction_outputs_in_isolation (tx : Transaction) : TxResult unit :=
  check_transaction_outputs_count tx;; check_transaction_script_public_keys tx.

Definition check_coinbase_in_isolation (tx : Transaction) : TxResult unit :=
  if negb (is_coinbase tx) then Ok tt
  else if negb (bool_decide (tx_inputs tx = [])) then Err (CoinbaseHasInputs (zlen (tx_inputs tx)))
  else
    let outputs_limit := tv_ghostdag_k self + 2 in
    if outputs_limit <? zlen (tx_outputs tx) then Err (CoinbaseTooManyOutputs (zlen (tx_outputs tx)) outputs_limit)
    else
      match position (λ output, tv_coinbase_payload_script_public_key_max_len self <?
                                zlen (spk_script (out_script_public_key output))) (tx_outputs tx) with
      | Some i => Err (CoinbaseScriptPublicKeyTooLong (Z.of_nat i))
      | None => Ok tt
      end.
End isolation.

(** [checked_add]. *)
Definition checked_add (a b : Z) : option Z := if a + b <=? u64_max then Some (a + b) else None.

Fixpoint check_output_values_from (i : nat) (total : Z) (outputs : list TransactionOutput) : TxResult unit :=
  match outputs with
  | [] => Ok tt
  | output :: rest =>
      if out_value output =? 0 then Err (TxOutZero (Z.of_nat i))
      else if MAX_SOMPI <? out_value output then Err (TxOutTooHigh (Z.of_nat i))
      else match checked_add total (out_value output) with
           | None => Err OutputsValueOverflow
           | Some new_total =>
               if MAX_SOMPI <? new_total then Err TotalTxOutTooHigh
               else check_output_values_from (S i) new_total rest
           end
  end.
Definition check_transaction_output_value_ranges (tx : Transaction) : TxResult unit :=
  check_output_values_from 0 0 (tx_outputs tx).

(** [existing.insert(x)] for each [x]: the first repetition. *)
Fixpoint first_duplicate `{Countable A} (existing : gset A) (l : list A) : option A :=
  match l with
  | [] => None
  | x :: l' => if bool_decide (x ∈ existing) then Some x else first_duplicate ({[x]} ∪ existing) l'
  end.
Definition check_duplicate_transaction_inputs (tx : Transaction) : TxResult unit :=
  match first_duplicate ∅ (in_previous_outpoint <$> tx_inputs tx) with
  | Some _ => Err TxDuplicateInputs
  | None => Ok tt
  end.

Definition check_gas (tx : Transaction) : TxResult unit := if 0 <? tx_gas tx then Err TxHasGas else Ok tt.
Definition check_transaction_payload (tx : Transaction) : TxResult unit :=
  if negb (is_coinbase tx) && negb (bool_decide (tx_payload tx = [])) then Err NonCoinbaseTxHasPayload else Ok tt.
Definition check_transaction_version (tx : Transaction) : TxResult unit :=
  if negb (tx_version tx =? TX_VERSION) then Err (UnknownTxVersion (tx_version tx)) else Ok tt.

Definition validate_tx_in_isolation (self : TransactionValidator) (tx : Transaction) : TxResult unit :=
  check_transaction_inputs_in_isolation self tx;;
  check_transaction_outputs_in_isolation self tx;;
  check_coinbase_in_isolation self tx;;
  check_transaction_output_value_ranges tx;;
  check_duplicate_transaction_inputs tx;;
  check_gas tx;;
  check_transaction_payload tx;;
  check_transaction_version tx.

(** ** Validation in the context of a block *)

Definition check_tx_is_finalized (tx : Transaction) (ctx_daa_score ctx_block_time : Z) : TxResult unit :=
  if tx_lock_time tx =? 0 then Ok tt
  else
    let block_time_or_daa_score := if tx_lock_time tx <? LOCK_TIME_THRESHOLD then ctx_daa_score else ctx_block_time in
    if tx_lock_time tx <? block_time_or_daa_score then Ok tt
    else match position (λ input, negb (in_sequence input =? u64_max)) (tx_inputs tx) with
         | Some i => Err (NotFinalized (Z.of_nat i))
         | None => Ok tt
         end.

Definition utxo_free_tx_validation (tx : Transaction) (ctx_daa_score ctx_block_time : Z) : TxResult unit :=
  check_tx_is_finalized tx ctx_daa_score ctx_block_time.

(** ** Validation with populated inputs *)

(** [x as i64] and the checked addition of [i64]. *)
Definition as_i64 (z : Z) : Z := if z <? 2 ^ 63 then z else z - 2 ^ 64.
Definition add_i64 {E} (a b : Z) : outcome E Z :=
  if (- 2 ^ 63 <=? a + b) && (a + b <? 2 ^ 63) then Ok (a + b) else Panic.

(** [&bytes[a..b]]. *)
Definition slice {E} (bytes : list N) (a b : nat) : outcome E (list N) :=
  if (b <=? length bytes)%nat then Ok (take (b - a) (drop a bytes)) else Panic.

Record SigCacheKey : Type := mkSigKey { sk_signature : list N; sk_pub_key : list N; sk_message : Hash }.
#[global] Instance SigCacheKey_eq_dec : EqDecision SigCacheKey.
Proof. solve_decision. Defined.
Abbreviation SigCache := (Cache SigCacheKey bool).

Section populated.
Context (self : TransactionValidator).
Context {T : Type} `{VerifiableTransaction T}.

(** [populated_inputs().enumerate().find(..)], then the error. *)
Fixpoint check_maturity_from (pov_daa_score : Z) (i : nat) (items : list (TxResult (TransactionInput * UtxoEntry))) : TxResult unit :=
  match items with
  | [] => Ok tt
  | item :: rest =>
      '(input, entry) ← item;
      immature ← (if ue_is_coinbase entry
                  then sum ← add64 (ue_block_daa_score entry) (tv_coinbase_maturity self); mret (pov_daa_score <? sum)
                  else mret false);
      if (immature : bool)
      then Err (ImmatureCoinbaseSpend (Z.of_nat i) (in_previous_outpoint input) (ue_block_daa_score entry) pov_daa_score
             (tv_coinbase_maturity self))
      else check_maturity_from pov_daa_score (S i) rest
  end.
Definition check_transaction_coinbase_maturity (tx : T) (pov_daa_score : Z) : TxResult unit :=
  check_maturity_from pov_daa_score 0 (populated_inputs tx).

Definition add_input_amount (total : Z) (item : TxResult (TransactionInput * UtxoEntry)) : TxResult Z :=
  '(_, entry) ← item;
  match checked_add total (ue_amount entry) with
  | None => Err InputAmountOverflow
  | Some new_total => if MAX_SOMPI <? new_total then Err InputAmountTooHigh else Ok new_total
  end.
Definition check_transaction_input_amounts (tx : T) : TxResult Z := ofold add_input_amount 0 (populated_inputs tx).

Definition check_transaction_output_values (tx : T) (total_in : Z) : TxResult Z :=
  total_out ← sum64 (out_value <$> vt_outputs tx);
  if total_in <? total_out then Err (SpendTooHigh total_out total_in) else Ok total_out.

Fixpoint sequence_locked (pov_daa_score : Z) (items : list (TxResult (TransactionInput * UtxoEntry))) : TxResult bool :=
  match items with
  | [] => Ok false
  | item :: rest =>
      '(input, entry) ← item;
      if Z.land (in_sequence input) SEQUENCE_LOCK_TIME_DISABLED =? SEQUENCE_LOCK_TIME_DISABLED
      then sequence_locked pov_daa_score rest
      else
        let relative_lock := as_i64 (Z.land (in_sequence input) SEQUENCE_LOCK_TIME_MASK) in
        sum ← add_i64 (as_i64 (ue_block_daa_score entry)) relative_lock;
        lock_daa_score ← add_i64 sum (-1);
        if pov_daa_score <=? lock_daa_score then Ok true else sequence_locked pov_daa_score rest
  end.
Definition check_sequence_lock (tx : T) (pov_daa_score : Z) : TxResult unit :=
  locked ← sequence_locked (as_i64 pov_daa_score) (populated_inputs tx);
  if (locked : bool) then Err SequenceLockConditionsAreNotMet else Ok tt.

Definition check_sig_op_counts (_ : T) : TxResult unit := Ok tt.

(** The package, and the randomness of the cache. *)
Context `{Hashers} (draw : nat → nat).
Context (pub_key_valid signature_valid : list N → bool) (verify : list N → Hash → list N → bool).

Definition check_script (tx : T) (i : nat) (item : TxResult (TransactionInput * UtxoEntry))
    (acc : SigHashReusedValues * SigCache) : TxResult (SigHashReusedValues * SigCache) :=
  let '(reused_values, sig_cache) := acc in
  '(input, entry) ← item;
  pk ← slice (spk_script (ue_script_public_key entry)) 1 33;
  assert (pub_key_valid pk);;
  sig ← slice (in_signature_script input) 1 65;
  assert (signature_valid sig);;
  let '(sig_hash, reused_values) := calc_schnorr_signature_hash tx i SIG_HASH_ALL reused_values in
  msg ← sig_hash;
  let key := mkSigKey sig pk msg in
  match cache_get sig_cache key with
  | Some valid => assert valid;; mret (reused_values, sig_cache)
  | None => assert (verify sig msg pk);; mret (reused_values, cache_insert draw sig_cache key true)
  end.

Fixpoint check_scripts_from (tx : T) (i : nat) (items : list (TxResult (TransactionInput * UtxoEntry)))
    (acc : SigHashReusedValues * SigCache) : TxResult (SigHashReusedValues * SigCache) :=
  match items with
  | [] => Ok acc
  | item :: rest => acc' ← check_script tx i item acc; check_scripts_from tx (S i) rest acc'
  end.
(** The new contents of the cache, which all validations share. *)
Definition check_scripts (tx : T) (sig_cache : SigCache) : TxResult SigCache :=
  '(_, sig_cache) ← check_scripts_from tx 0 (populated_inputs tx) (reused_new, sig_cache);
  mret sig_cache.

Definition validate_populated_transaction_and_get_fee (tx : T) (pov_daa_score : Z) (sig_cache : SigCache) :
    TxResult (Z * SigCache) :=
  check_transaction_coinbase_maturity tx pov_daa_score;;
  total_in ← check_transaction_input_amounts tx;
  total_out ← check_transaction_output_values tx total_in;
  check_sequence_lock tx pov_daa_score;;
  check_sig_op_counts tx;;
  sig_cache ← check_scripts tx sig_cache;
  fee ← sub64 total_in total_out;
  mret (fee, sig_cache).
End populated.
