(* ===== verification/TxValidatorProof.v ===== *)
(** * What the validation of transactions accepts

    The validator accepts a transaction exactly when it meets the rules stated here as
    propositions; the arithmetic of mass and fees does not overflow on transactions that
    passed the validation in isolation; the signature cache changes no verdict. *)

From S2P Require Import Prelude Hash Errors Tx Hashing HashingProof Database DatabaseProof TxValidator.
Import SigHash.

(** ** Searches *)

Lemma position_None {A} (p : A → bool) l : position p l = None ↔ Forall (λ x, p x = false) l.
Proof.
  induction l as [|x l IH]; cbn; [by split|]. rewrite Forall_cons. destruct (p x); [naive_solver|].
  destruct (position p l); cbn; naive_solver.
Qed.

Lemma first_duplicate_None `{Countable A} (existing : gset A) (l : list A) :
  first_duplicate existing l = None ↔ NoDup l ∧ ∀ x, x ∈ l → x ∉ existing.
Proof.
  revert existing. induction l as [|x l IH]; intros existing; cbn.
  { split; [|done]. intros _. split; [constructor|set_solver]. }
  case_bool_decide as Hx; [set_solver|]. rewrite IH, NoDup_cons. set_solver.
Qed.

(** A check as a proposition: it accepts exactly when [P] holds, and does not panic. *)
Definition decides {E} (o : outcome E unit) (P : Prop) : Prop :=
  match o with Ok _ => P | Err _ => ¬ P | _ => False end.

Section decides.
Context {E : Type}.
Implicit Types (o : outcome E unit) (P Q : Prop).

Lemma decides_ok o P : decides o P → o = Ok tt ↔ P.
Proof. unfold decides. destruct o as [[]| | |]; naive_solver. Qed.

Lemma decides_total o P : decides o P → o = Ok tt ∨ ∃ e, o = Err e.
Proof. unfold decides. destruct o as [[]| | |]; naive_solver. Qed.

Lemma decides_seq o1 o2 P Q : decides o1 P → (P → decides o2 Q) → decides (o1;; o2) (P ∧ Q).
Proof. unfold decides. destruct o1 as [[]| | |]; cbn; [|naive_solver..]. destruct o2; naive_solver. Qed.

Lemma decides_if (b : bool) (e : E) P : (b = true ↔ ¬ P) → (P ∨ ¬ P) → decides (if b then Err e else Ok tt) P.
Proof. unfold decides. destruct b; naive_solver. Qed.

Lemma decides_iff o P Q : (P ↔ Q) → decides o P → decides o Q.
Proof. unfold decides. destruct o; naive_solver. Qed.
End decides.

#[export] Instance decides_proper {E} (o : outcome E unit) : Proper (iff ==> iff) (decides o).
Proof. intros P Q HPQ. split; by apply decides_iff. Qed.

(** ** Isolation *)

Section isolation.
Context (self : TransactionValidator).

Definition script_len (o : TransactionOutput) : Z := zlen (spk_script (out_script_public_key o)).

(** Values are positive and their running sums stay within the supply. *)
Definition values_ok (outputs : list TransactionOutput) : Prop :=
  Forall (λ o, 0 < out_value o) outputs ∧ zsum (out_value <$> outputs) ≤ MAX_SOMPI.

Record isolated (tx : Transaction) : Prop := {
  iso_has_inputs : is_coinbase tx = false → tx_inputs tx ≠ [];
  iso_inputs_count : zlen (tx_inputs tx) ≤ tv_max_tx_inputs self;
  iso_scripts : Forall (λ i, zlen (in_signature_script i) ≤ tv_max_signature_script_len self) (tx_inputs tx);
  iso_outputs_count : zlen (tx_outputs tx) ≤ tv_max_tx_outputs self;
  iso_spks : Forall (λ o, script_len o ≤ tv_max_script_public_key_len self) (tx_outputs tx);
  iso_coinbase : is_coinbase tx = true → tx_inputs tx = [] ∧ zlen (tx_outputs tx) ≤ tv_ghostdag_k self + 2 ∧
    Forall (λ o, script_len o ≤ tv_coinbase_payload_script_public_key_max_len self) (tx_outputs tx);
  iso_values : values_ok (tx_outputs tx);
  iso_distinct : NoDup (in_previous_outpoint <$> tx_inputs tx);
  iso_gas : tx_gas tx ≤ 0;
  iso_payload : is_coinbase tx = false → tx_payload tx = [];
  iso_version : tx_version tx = TX_VERSION;
}.

Lemma position_decides {A E} (p : A → bool) (P : A → Prop) (l : list A) (e : nat → E) :
  (∀ x, p x = false ↔ P x) →
  decides (match position p l with Some i => Err (e i) | None => Ok tt end) (Forall P l).
Proof.
  intros Hp. assert (Hiff : position p l = None ↔ Forall P l).
  { rewrite position_None. by apply Forall_iff. }
  unfold decides. destruct (position p l); [|naive_solver]. naive_solver.
Qed.

Lemma values_sum_nonneg outputs : Forall (λ o, 0 < out_value o) outputs → 0 ≤ zsum (out_value <$> outputs).
Proof. clear. induction 1; cbn; [done|]. unfold zsum in *. lia. Qed.

Lemma output_values_decides outputs : ∀ i total, 0 ≤ total ≤ MAX_SOMPI → Forall (λ o, 0 ≤ out_value o) outputs →
  decides (check_output_values_from i total outputs)
    (Forall (λ o, 0 < out_value o) outputs ∧ total + zsum (out_value <$> outputs) ≤ MAX_SOMPI).
Proof.
  clear self. induction outputs as [|o outputs IH]; intros i total Ht Hf; cbn [check_output_values_from].
  { split; [constructor|]. cbn. lia. }
  apply Forall_cons in Hf as [Ho Hf]. change (zsum (out_value <$> o :: outputs)) with (out_value o + zsum (out_value <$> outputs)).
  destruct (Z.eqb_spec (out_value o) 0) as [Hz|Hz].
  { intros [[Hp _]%Forall_cons _]. lia. }
  destruct (Z.ltb_spec MAX_SOMPI (out_value o)) as [Hm|Hm].
  { intros [[Hp Hps]%Forall_cons Hs]. pose proof (values_sum_nonneg _ Hps). lia. }
  unfold checked_add. assert (MAX_SOMPI + MAX_SOMPI ≤ u64_max) by (vm_compute; done).
  rewrite (proj2 (Z.leb_le _ _)) by lia. destruct (Z.ltb_spec MAX_SOMPI (total + out_value o)) as [Hm'|Hm'].
  { intros [[Hp Hps]%Forall_cons Hs]. pose proof (values_sum_nonneg _ Hps). lia. }
  eapply decides_iff; [|apply IH; [lia|done]]. rewrite Forall_cons. split; intros [? ?]; split_and?; lia || tauto.
Qed.

Lemma inputs_decides tx : decides (check_transaction_inputs_in_isolation self tx)
  (((is_coinbase tx = false → tx_inputs tx ≠ []) ∧ zlen (tx_inputs tx) ≤ tv_max_tx_inputs self) ∧
   Forall (λ i, zlen (in_signature_script i) ≤ tv_max_signature_script_len self) (tx_inputs tx)).
Proof.
  apply decides_seq; [|intros _; apply position_decides; intros i; apply Z.ltb_ge].
  unfold check_transaction_inputs_count, decides. destruct (is_coinbase tx); cbn.
  - destruct (Z.ltb_spec (tv_max_tx_inputs self) (zlen (tx_inputs tx))); [intros [_ ?]; lia|done].
  - case_bool_decide as Hin; [naive_solver|].
    destruct (Z.ltb_spec (tv_max_tx_inputs self) (zlen (tx_inputs tx))); [intros [_ ?]; lia|done].
Qed.

Lemma outputs_decides tx : decides (check_transaction_outputs_in_isolation self tx)
  (zlen (tx_outputs tx) ≤ tv_max_tx_outputs self ∧
   Forall (λ o, script_len o ≤ tv_max_script_public_key_len self) (tx_outputs tx)).
Proof.
  apply decides_seq; [|intros _; apply position_decides; intros o; apply Z.ltb_ge].
  unfold check_transaction_outputs_count, decides.
  destruct (Z.ltb_spec (tv_max_tx_outputs self) (zlen (tx_outputs tx))); lia.
Qed.

Lemma coinbase_decides tx : decides (check_coinbase_in_isolation self tx)
  (is_coinbase tx = true → tx_inputs tx = [] ∧ zlen (tx_outputs tx) ≤ tv_ghostdag_k self + 2 ∧
   Forall (λ o, script_len o ≤ tv_coinbase_payload_script_public_key_max_len self) (tx_outputs tx)).
Proof.
  unfold check_coinbase_in_isolation. destruct (is_coinbase tx); cbn [negb]; [|done].
  case_bool_decide as Hin; cbn [negb]; [|intros Hc; by destruct (Hc eq_refl)].
  destruct (Z.ltb_spec (tv_ghostdag_k self + 2) (zlen (tx_outputs tx))).
  - intros Hc. destruct (Hc eq_refl). lia.
  - eapply decides_iff; [|apply (position_decides _ (λ o, script_len o ≤ tv_coinbase_payload_script_public_key_max_len self));
      intros o; apply Z.ltb_ge]. naive_solver.
Qed.

Lemma ranges_decides tx : Forall (λ o, 0 ≤ out_value o) (tx_outputs tx) →
  decides (check_transaction_output_value_ranges tx) (values_ok (tx_outputs tx)).
Proof. intros Hv. apply (output_values_decides (tx_outputs tx) 0 0); [by vm_compute|done]. Qed.

Lemma duplicates_decides tx :
  decides (check_duplicate_transaction_inputs tx) (NoDup (in_previous_outpoint <$> tx_inputs tx)).
Proof.
  unfold check_duplicate_transaction_inputs, decides.
  pose proof (first_duplicate_None ∅ (in_previous_outpoint <$> tx_inputs tx)) as Hd.
  destruct (first_duplicate ∅ _); set_solver.
Qed.

Lemma rest_decides tx : decides (check_gas tx;; check_transaction_payload tx;; check_transaction_version tx)
  (tx_gas tx ≤ 0 ∧ (is_coinbase tx = false → tx_payload tx = []) ∧ tx_version tx = TX_VERSION).
Proof.
  apply decides_seq; [|intros _; apply decides_seq; [|intros _]].
  - unfold check_gas, decides. destruct (Z.ltb_spec 0 (tx_gas tx)); lia.
  - unfold check_transaction_payload, decides. destruct (is_coinbase tx); cbn; [done|]. case_bool_decide; cbn; naive_solver.
  - unfold check_transaction_version, decides. by destruct (Z.eqb_spec (tx_version tx) TX_VERSION).
Qed.

Lemma validate_decides tx :
  Forall (λ o, 0 ≤ out_value o) (tx_outputs tx) → decides (validate_tx_in_isolation self tx) (isolated tx).
Proof.
  intros Hv. eapply decides_iff; [|apply decides_seq; [apply inputs_decides|intros _; apply decides_seq; [apply outputs_decides|
    intros _; apply decides_seq; [apply coinbase_decides|intros _; apply decides_seq; [by apply ranges_decides|
    intros _; apply decides_seq; [apply duplicates_decides|intros _; apply rest_decides]]]]]].
  split; [intros; split; naive_solver|intros []; tauto].
Qed.
End isolation.

(** ** Mass *)

Definition input_size (i : TransactionInput) : Z := 52 + zlen (in_signature_script i).
Definition output_size (o : TransactionOutput) : Z := 18 + script_len o.
Definition tx_size (tx : Transaction) : Z :=
  94 + zsum (input_size <$> tx_inputs tx) + zsum (output_size <$> tx_outputs tx) + zlen (tx_payload tx).
Definition tx_mass (self : MassCalculator) (tx : Transaction) : Z :=
  tx_size tx * mass_per_tx_byte self +
  zsum ((λ o, 2 + script_len o) <$> tx_outputs tx) * mass_per_script_pub_key_byte self +
  zsum (in_sig_op_count <$> tx_inputs tx) * mass_per_sig_op self.

(** The limits of the validator keep the mass within 64 bits. *)
Definition mass_limit (tv : TransactionValidator) (mc : MassCalculator) : Z :=
  (94 + tv_max_tx_inputs tv * (52 + tv_max_signature_script_len tv) +
   tv_max_tx_outputs tv * (18 + tv_max_script_public_key_len tv)) * mass_per_tx_byte mc +
  tv_max_tx_outputs tv * (2 + tv_max_script_public_key_len tv) * mass_per_script_pub_key_byte mc +
  tv_max_tx_inputs tv * 255 * mass_per_sig_op mc.
Record mass_params_ok (tv : TransactionValidator) (mc : MassCalculator) : Prop := {
  mp_byte : 1 ≤ mass_per_tx_byte mc; mp_spk : 0 ≤ mass_per_script_pub_key_byte mc; mp_ops : 1 ≤ mass_per_sig_op mc;
  mp_limit : mass_limit tv mc ≤ u64_max }.

Lemma zsum_between {A} (f : A → Z) (c n : Z) (l : list A) :
  Forall (λ x, 0 ≤ f x ≤ c) l → zlen l ≤ n → 0 ≤ c → 0 ≤ zsum (f <$> l) ≤ n * c.
Proof.
  intros Hf Hl Hc. assert (0 ≤ zsum (f <$> l) ≤ zlen l * c); [|nia]. clear Hl. unfold zlen.
  induction Hf as [|x l Hx Hf IH]; [cbn; lia|]. rewrite fmap_cons, zsum_cons. cbn [length]. nia.
Qed.

Lemma zsum_member {A} (f : A → Z) (l : list A) x : (∀ x, 0 ≤ f x) → x ∈ l → 0 ≤ f x ≤ zsum (f <$> l).
Proof.
  intros Hf. induction l as [|y l IH]; [set_solver|]. rewrite fmap_cons, zsum_cons.
  assert (0 ≤ zsum (f <$> l)) by (apply zsum_nonneg, Forall_fmap, Forall_true; apply Hf).
  intros [->|Hin]%elem_of_cons; [specialize (Hf y)|specialize (IH Hin); specialize (Hf y)]; lia.
Qed.

Lemma omap_each_values {E X Y} (f : X → outcome E Y) (g : X → Y) (l : list X) :
  Forall (λ x, f x = Ok (g x)) l → omap_each f l = Ok (g <$> l).
Proof. induction 1 as [|x l Hx _ IH]; [done|]. cbn. by rewrite Hx, IH. Qed.

Lemma add_all_ok {E} size l : 0 ≤ size → Forall (λ x, 0 ≤ x) l → size + zsum l ≤ u64_max →
  add_all (E:=E) size l = Ok (size + zsum l).
Proof.
  intros Hs Hl. revert size Hs. induction Hl as [|x l Hx Hl IH]; intros size Hs Hm; cbn [add_all ofold].
  - by rewrite Z.add_0_r.
  - rewrite zsum_cons in *. pose proof (zsum_nonneg l Hl). rewrite add64_ok by lia. cbn [mbind outcome_bind].
    fold (add_all (E:=E)). unfold add_all in IH. rewrite IH by lia. f_equal. lia.
Qed.

Section mass.
Context {E : Type} (tv : TransactionValidator) (mc : MassCalculator) (tx : Transaction).
Context (Hp : mass_params_ok tv mc) (Hiso : isolated tv tx) (Hnc : is_coinbase tx = false).
Context (Hops : Forall (λ i, 0 ≤ in_sig_op_count i ≤ 255) (tx_inputs tx)).
Context (Hlens : 0 ≤ tv_max_signature_script_len tv ∧ 0 ≤ tv_max_script_public_key_len tv).

Lemma inputs_bound : 0 ≤ zsum (input_size <$> tx_inputs tx) ≤ tv_max_tx_inputs tv * (52 + tv_max_signature_script_len tv).
Proof using Hiso Hlens.
  apply zsum_between; [|apply Hiso|lia]. eapply Forall_impl; [apply Hiso|]. cbn. unfold input_size, zlen. intros. lia.
Qed.
Lemma outputs_bound : 0 ≤ zsum (output_size <$> tx_outputs tx) ≤ tv_max_tx_outputs tv * (18 + tv_max_script_public_key_len tv).
Proof using Hiso Hlens.
  apply zsum_between; [|apply Hiso|lia]. eapply Forall_impl; [apply Hiso|]. cbn. unfold output_size, script_len, zlen. intros. lia.
Qed.
Lemma spks_bound : 0 ≤ zsum ((λ o, 2 + script_len o) <$> tx_outputs tx) ≤
  tv_max_tx_outputs tv * (2 + tv_max_script_public_key_len tv).
Proof using Hiso Hlens.
  apply zsum_between; [|apply Hiso|lia]. eapply Forall_impl; [apply Hiso|]. cbn. unfold script_len, zlen. intros. lia.
Qed.
Lemma ops_bound : 0 ≤ zsum (in_sig_op_count <$> tx_inputs tx) ≤ tv_max_tx_inputs tv * 255.
Proof using Hiso Hops. apply zsum_between; [done|apply Hiso|lia]. Qed.

Lemma counts_nonneg : 0 ≤ tv_max_tx_inputs tv ∧ 0 ≤ tv_max_tx_outputs tv.
Proof using Hiso. destruct Hiso as [_ Hi _ Ho _ _ _ _ _ _ _]. unfold zlen in *. lia. Qed.

(** The parts of the bound. *)
Lemma parts_bound :
  tx_size tx ≤ 94 + tv_max_tx_inputs tv * (52 + tv_max_signature_script_len tv) +
    tv_max_tx_outputs tv * (18 + tv_max_script_public_key_len tv) ∧ 94 ≤ tx_size tx ∧
  tx_size tx * mass_per_tx_byte mc +
  zsum ((λ o, 2 + script_len o) <$> tx_outputs tx) * mass_per_script_pub_key_byte mc +
  zsum (in_sig_op_count <$> tx_inputs tx) * mass_per_sig_op mc ≤ u64_max ∧ tx_size tx ≤ u64_max ∧
  zsum ((λ o, 2 + script_len o) <$> tx_outputs tx) ≤ u64_max ∧ zsum (in_sig_op_count <$> tx_inputs tx) ≤ u64_max.
Proof using Hp Hiso Hlens Hops Hnc.
  pose proof inputs_bound. pose proof outputs_bound. pose proof spks_bound. pose proof ops_bound. pose proof counts_nonneg.
  destruct Hp as [Hb1 Hb2 Hb3 Hb4]. unfold mass_limit in Hb4.
  assert (Hpay : zlen (tx_payload tx) = 0) by by rewrite (iso_payload _ _ Hiso Hnc).
  assert (Hsize : 94 ≤ tx_size tx ≤ 94 + tv_max_tx_inputs tv * (52 + tv_max_signature_script_len tv) +
    tv_max_tx_outputs tv * (18 + tv_max_script_public_key_len tv)) by (unfold tx_size; lia).
  assert (Hbig : ∀ x y z, 0 ≤ x ≤ y → 0 ≤ z → x * z ≤ y * z) by (intros; nia).
  pose proof (Hbig _ _ (mass_per_tx_byte mc) ltac:(split; [|exact (proj2 Hsize)]; lia) ltac:(lia)).
  pose proof (Hbig _ _ (mass_per_script_pub_key_byte mc) spks_bound Hb2).
  pose proof (Hbig _ _ (mass_per_sig_op mc) ops_bound ltac:(lia)).
  assert (tx_size tx ≤ u64_max) by nia.
  assert (zsum ((λ o, 2 + script_len o) <$> tx_outputs tx) ≤ zsum (output_size <$> tx_outputs tx)).
  { unfold output_size. clear. induction (tx_outputs tx) as [|o l IH]; [done|]. rewrite !fmap_cons, !zsum_cons. lia. }
  assert (zsum (in_sig_op_count <$> tx_inputs tx) ≤ tv_max_tx_inputs tv * 255) by lia.
  assert (0 ≤ zsum ((λ o, 2 + script_len o) <$> tx_outputs tx) * mass_per_script_pub_key_byte mc) by nia.
  assert (0 ≤ tx_size tx * mass_per_tx_byte mc) by nia.
  assert (zsum (in_sig_op_count <$> tx_inputs tx) ≤ zsum (in_sig_op_count <$> tx_inputs tx) * mass_per_sig_op mc) by nia.
  assert (zsum (output_size <$> tx_outputs tx) ≤ tx_size tx) by (unfold tx_size, zlen in *; lia).
  split_and!; lia.
Qed.

Lemma tx_sizes_nonneg : (∀ i, 0 ≤ input_size i) ∧ (∀ o, 0 ≤ output_size o) ∧ (∀ o, 0 ≤ 2 + script_len o).
Proof using Type. unfold input_size, output_size, script_len, zlen. split_and!; intros; lia. Qed.

Ltac sum_list := cbn [zsum foldr]; unfold u64_max, zlen in *; repeat constructor; lia.

Lemma tx_size_ok : transaction_estimated_serialized_size (E:=E) tx = Ok (tx_size tx).
Proof using Hp Hiso Hlens Hops Hnc.
  pose proof inputs_bound as Hi. pose proof outputs_bound as Ho. destruct parts_bound as (_ & _ & _ & Hmax & _ & _).
  destruct tx_sizes_nonneg as (Hni & Hno & _). unfold tx_size in *. unfold transaction_estimated_serialized_size.
  assert (Hpay : 0 ≤ zlen (tx_payload tx)) by (unfold zlen; lia).
  rewrite add_all_ok by sum_list. cbn [mbind outcome_bind]. rewrite (omap_each_values _ input_size).
  2:{ apply Forall_forall. intros i Hin. pose proof (zsum_member input_size _ _ Hni Hin) as Hz.
      unfold transaction_input_estimated_serialized_size, outpoint_estimated_serialized_size, input_size, zlen in *.
      rewrite add_all_ok by sum_list. f_equal. cbn [zsum foldr]. lia. }
  cbn [mbind outcome_bind]. rewrite sum64_ok by (try (apply Forall_fmap, Forall_true; apply Hni); lia).
  cbn [mbind outcome_bind]. rewrite add_all_ok by sum_list. cbn [mbind outcome_bind].
  rewrite (omap_each_values _ output_size).
  2:{ apply Forall_forall. intros o Hin. pose proof (zsum_member output_size _ _ Hno Hin) as Hz.
      unfold transaction_output_estimated_serialized_size, output_size, script_len, zlen in *.
      rewrite add_all_ok by sum_list. f_equal. cbn [zsum foldr]. lia. }
  cbn [mbind outcome_bind]. rewrite sum64_ok by (try (apply Forall_fmap, Forall_true; apply Hno); lia).
  cbn [mbind outcome_bind]. rewrite add_all_ok by sum_list. f_equal. cbn [zsum foldr]. unfold zlen. lia.
Qed.

Lemma calc_tx_mass_ok : calc_tx_mass (E:=E) mc tx = Ok (tx_mass mc tx).
Proof using Hp Hiso Hlens Hops Hnc.
  destruct parts_bound as (_ & Hs & Hmax & Hsz & Hk & Hc). destruct tx_sizes_nonneg as (_ & _ & Hns).
  pose proof spks_bound as Hsb. pose proof ops_bound as Hob. destruct Hp as [Hb1 Hb2 Hb3 _].
  assert (0 ≤ tx_size tx * mass_per_tx_byte mc) by nia.
  assert (0 ≤ zsum ((λ o, 2 + script_len o) <$> tx_outputs tx) * mass_per_script_pub_key_byte mc) by nia.
  assert (0 ≤ zsum (in_sig_op_count <$> tx_inputs tx) * mass_per_sig_op mc) by nia.
  unfold calc_tx_mass, tx_mass. rewrite Hnc, tx_size_ok. cbn [mbind outcome_bind]. rewrite mul64_ok by lia. cbn [mbind outcome_bind].
  rewrite (omap_each_values _ (λ o, 2 + script_len o)).
  2:{ apply Forall_forall. intros o Hin. pose proof (zsum_member (λ o, 2 + script_len o) _ _ Hns Hin) as Hz. cbn beta in Hz.
      unfold script_len, zlen in *. by rewrite add64_ok by lia. }
  cbn [mbind outcome_bind]. rewrite (sum64_ok (_ <$> tx_inputs tx)) by (try (apply Forall_fmap; eapply Forall_impl; [exact Hops|cbn; lia]); lia).
  rewrite sum64_ok by (try (apply Forall_fmap, Forall_true; apply Hns); lia).
  cbn [mbind outcome_bind]. rewrite mul64_ok by lia.
  cbn [mbind outcome_bind]. rewrite mul64_ok by lia. cbn [mbind outcome_bind].
  rewrite add64_ok by lia. cbn [mbind outcome_bind]. by rewrite add64_ok by lia.
Qed.
Lemma tx_mass_bound : 0 ≤ tx_mass mc tx ≤ mass_limit tv mc.
Proof using Hp Hiso Hlens Hops Hnc.
  destruct parts_bound as (Hsize & Hs & _). pose proof spks_bound as Hsb. pose proof ops_bound as Hob.
  destruct Hp as [Hb1 Hb2 Hb3 _]. unfold tx_mass, mass_limit.
  assert (Hbig : ∀ x y z, 0 ≤ x ≤ y → 0 ≤ z → 0 ≤ x * z ≤ y * z) by (intros; nia).
  pose proof (Hbig _ _ (mass_per_tx_byte mc) ltac:(split; [|exact Hsize]; lia) ltac:(lia)).
  pose proof (Hbig _ _ (mass_per_script_pub_key_byte mc) Hsb Hb2).
  pose proof (Hbig _ _ (mass_per_sig_op mc) Hob ltac:(lia)). lia.
Qed.
End mass.

(** ** Populated transactions *)

Section populated_rules.
Context (self : TransactionValidator).

Definition mature (pov : Z) (e : UtxoEntry) : Prop :=
  ue_is_coinbase e = true → ue_block_daa_score e + tv_coinbase_maturity self ≤ pov.
(** The relative lock of an input, in DAA score, unless it is disabled. *)
Definition unlocked (pov : Z) (p : TransactionInput * UtxoEntry) : Prop :=
  Z.testbit (in_sequence p.1) 63 = false → ue_block_daa_score p.2 + in_sequence p.1 mod 2 ^ 32 ≤ pov.

Record spend_rules (tx : Transaction) (entries : list UtxoEntry) (pov : Z) : Prop := {
  sr_mature : Forall (mature pov) entries;
  sr_amounts : zsum (ue_amount <$> entries) ≤ MAX_SOMPI;
  sr_balance : zsum (out_value <$> tx_outputs tx) ≤ zsum (ue_amount <$> entries);
  sr_unlocked : Forall (unlocked pov) (zip (tx_inputs tx) entries);
}.

(** The sizes for which the score arithmetic fits 64 bits, signed and unsigned. *)
Record spend_bounds (tx : Transaction) (entries : list UtxoEntry) (pov : Z) : Prop := {
  sd_amounts : Forall (λ e, 0 ≤ ue_amount e ≤ u64_max) entries;
  sd_scores : Forall (λ e, 0 ≤ ue_block_daa_score e < 2 ^ 62) entries;
  sd_sequences : Forall (λ i, 0 ≤ in_sequence i < 2 ^ 64) (tx_inputs tx);
  sd_maturity : 0 ≤ tv_coinbase_maturity self < 2 ^ 62;
  sd_pov : 0 ≤ pov < 2 ^ 63;
}.

Lemma maturity_decides pov items : ∀ i,
  Forall (λ p, 0 ≤ ue_block_daa_score p.2 < 2 ^ 62) items → 0 ≤ tv_coinbase_maturity self < 2 ^ 62 →
  decides (check_maturity_from self pov i (Ok <$> items)) (Forall (λ p, mature pov p.2) items).
Proof.
  induction items as [|[input e] items IH]; intros i Hf Hm; cbn [fmap list_fmap check_maturity_from]; [constructor|].
  apply Forall_cons in Hf as [He Hf]. cbn in He. cbn [mbind outcome_bind]. unfold mature in *.
  destruct (ue_is_coinbase e) eqn:Hc; cbn [mbind outcome_bind mret outcome_ret].
  - rewrite add64_ok by (unfold u64_max; lia). cbn [mbind outcome_bind mret outcome_ret].
    destruct (Z.ltb_spec pov (ue_block_daa_score e + tv_coinbase_maturity self)).
    + intros [Hp _]%Forall_cons. cbn in Hp. specialize (Hp Hc). lia.
    + eapply decides_iff; [|by apply (IH (S i))]. rewrite Forall_cons. naive_solver.
  - eapply decides_iff; [|by apply (IH (S i))]. rewrite Forall_cons. cbn. rewrite Hc. naive_solver.
Qed.

Lemma amounts_sum items : ∀ total, 0 ≤ total ≤ MAX_SOMPI → Forall (λ p : TransactionInput * UtxoEntry, 0 ≤ ue_amount p.2 ≤ u64_max) items →
  match ofold add_input_amount total (Ok <$> items) with
  | Ok r => r = total + zsum (ue_amount <$> items.*2) ∧ r ≤ MAX_SOMPI
  | Err _ => MAX_SOMPI < total + zsum (ue_amount <$> items.*2)
  | _ => False
  end.
Proof.
  clear self. induction items as [|[input e] items IH]; intros total Ht Hf; [cbn; lia|].
  apply Forall_cons in Hf as [He Hf]. cbn in He.
  assert (Hn : 0 ≤ zsum (ue_amount <$> items.*2)).
  { apply zsum_nonneg, Forall_fmap, Forall_fmap. eapply Forall_impl; [exact Hf|]. cbn. lia. }
  assert (Heq : zsum (ue_amount <$> ((input, e) :: items).*2) = ue_amount e + zsum (ue_amount <$> items.*2)) by done.
  rewrite Heq.
  cbn [fmap list_fmap ofold add_input_amount mbind outcome_bind]. unfold checked_add.
  assert (MAX_SOMPI ≤ u64_max) by by vm_compute.
  destruct (Z.leb_spec (total + ue_amount e) u64_max); cbn [mbind outcome_bind]; [|lia].
  destruct (Z.ltb_spec MAX_SOMPI (total + ue_amount e)); cbn [mbind outcome_bind]; [lia|].
  specialize (IH (total + ue_amount e) ltac:(lia) Hf).
  destruct (ofold add_input_amount _ _); try done; lia.
Qed.

Lemma land_mask x : 0 ≤ x → Z.land x SEQUENCE_LOCK_TIME_MASK = x mod 2 ^ 32.
Proof. intros Hx. change SEQUENCE_LOCK_TIME_MASK with (Z.ones 32). by apply Z.land_ones. Qed.

Lemma land_disabled x : 0 ≤ x < 2 ^ 64 →
  (Z.land x SEQUENCE_LOCK_TIME_DISABLED =? SEQUENCE_LOCK_TIME_DISABLED) = Z.testbit x 63.
Proof.
  intros Hx. change SEQUENCE_LOCK_TIME_DISABLED with (2 ^ 63). apply eq_true_iff_eq. rewrite Z.eqb_eq. split.
  - intros He. apply (f_equal (λ z, Z.testbit z 63)) in He. rewrite Z.land_spec, Z.pow2_bits_true in He by lia.
    by rewrite andb_true_r in He.
  - intros Ht. apply Z.bits_inj'. intros n Hn. rewrite Z.land_spec. destruct (decide (n = 63)) as [->|Hne].
    + by rewrite Ht, Z.pow2_bits_true.
    + rewrite (Z.pow2_bits_false 63 n) by lia. apply andb_false_r.
Qed.

Lemma sequence_decides pov items : 0 ≤ pov < 2 ^ 63 →
  Forall (λ p : TransactionInput * UtxoEntry, 0 ≤ in_sequence p.1 < 2 ^ 64 ∧ 0 ≤ ue_block_daa_score p.2 < 2 ^ 62) items →
  match sequence_locked pov (Ok <$> items) with
  | Ok locked => locked = false ↔ Forall (unlocked pov) items
  | _ => False
  end.
Proof.
  clear self. intros Hp. induction items as [|[input e] items IH]; intros Hf; cbn [fmap list_fmap sequence_locked]; [by split|].
  apply Forall_cons in Hf as [[Hq Hd] Hf]. cbn in Hq, Hd. specialize (IH Hf). cbn [mbind outcome_bind].
  rewrite land_disabled, land_mask by lia.
  assert (Hcons : Forall (unlocked pov) ((input, e) :: items) ↔
    (Z.testbit (in_sequence input) 63 = false → ue_block_daa_score e + in_sequence input mod 2 ^ 32 ≤ pov) ∧
    Forall (unlocked pov) items) by apply Forall_cons.
  destruct (Z.testbit (in_sequence input) 63) eqn:Hb.
  - destruct (sequence_locked pov _); try done. rewrite Hcons. naive_solver.
  - pose proof (Z.mod_pos_bound (in_sequence input) (2 ^ 32) ltac:(lia)) as Hm. unfold as_i64.
    destruct (Z.ltb_spec (in_sequence input mod 2 ^ 32) (2 ^ 63)); [|lia].
    destruct (Z.ltb_spec (ue_block_daa_score e) (2 ^ 63)); [|lia].
    unfold add_i64. rewrite (proj2 (andb_true_iff _ _)) by (rewrite Z.leb_le, Z.ltb_lt; lia). cbn [mbind outcome_bind].
    rewrite (proj2 (andb_true_iff _ _)) by (rewrite Z.leb_le, Z.ltb_lt; lia). cbn [mbind outcome_bind].
    destruct (Z.leb_spec pov (ue_block_daa_score e + in_sequence input mod 2 ^ 32 + -1)).
    + rewrite Hcons. split; [done|]. intros [Hu _]. specialize (Hu eq_refl). lia.
    + destruct (sequence_locked pov _); try done. rewrite Hcons. split; [|naive_solver]. intros Ha. split; [lia|naive_solver].
Qed.
End populated_rules.

(** ** Signatures *)

Section signatures.
Context `{Hashers} (draw : nat → nat).
Context (pub_key_valid signature_valid : list N → bool) (verify : list N → Hash → list N → bool).
Context {T : Type} `{VerifiableTransaction T} (t : T) (entries : list UtxoEntry) (Hpop : populated_with t entries).

Definition pub_key_of (e : UtxoEntry) : list N := take 32 (drop 1 (spk_script (ue_script_public_key e))).
Definition signature_of (i : TransactionInput) : list N := take 64 (drop 1 (in_signature_script i)).

(** The input at [i] carries a valid signature of its message by the owner of its entry. *)
Record signature_ok (i : nat) (p : TransactionInput * UtxoEntry) : Prop := {
  so_script : (33 <= length (spk_script (ue_script_public_key p.2)))%nat;
  so_key : pub_key_valid (pub_key_of p.2) = true;
  so_sigscript : (65 <= length (in_signature_script p.1))%nat;
  so_sig : signature_valid (signature_of p.1) = true;
  so_verifies : verify (signature_of p.1)
    (digest TransactionSigningHash (signature_message (vt_tx t) p.1 p.2 i SIG_HASH_ALL)) (pub_key_of p.2) = true;
}.

(** All entries of the cache are true verdicts. *)
Definition sig_cache_ok (c : SigCache) : Prop :=
  cache_holds c (λ k v, v = true ∧ verify (sk_signature k) (sk_message k) (sk_pub_key k) = true).

Lemma slice_ok {E} (l : list N) a b : (b <= length l)%nat → slice (E:=E) l a b = Ok (take (b - a) (drop a l)).
Proof. intros Hl. unfold slice. by rewrite (proj2 (Nat.leb_le _ _)). Qed.
Lemma slice_panic {E} (l : list N) a b : ¬ (b <= length l)%nat → slice (E:=E) l a b = Panic.
Proof. intros Hl. unfold slice. by rewrite (proj2 (Nat.leb_gt _ _)) by lia. Qed.

Lemma check_script_ok i p rv c :
  (vt_inputs t !! i, entries !! i) = (Some p.1, Some p.2) → reused_ok (vt_tx t) rv → sig_cache_ok c →
  match check_script draw pub_key_valid signature_valid verify t i (Ok p) (rv, c) with
  | Ok (rv', c') => signature_ok i p ∧ reused_ok (vt_tx t) rv' ∧ sig_cache_ok c'
  | Panic => ¬ signature_ok i p
  | _ => False
  end.
Proof using Hpop.
  destruct p as [input e]. intros [= Hin He] Hrv Hc. unfold check_script. cbn [mbind outcome_bind].
  destruct (decide (33 <= length (spk_script (ue_script_public_key e)))%nat) as [Hs|Hs].
  2:{ rewrite (slice_panic (spk_script _)) by done. intros []. cbn in *. lia. }
  rewrite (slice_ok (spk_script _)) by done. change (take (33 - 1) _) with (pub_key_of e). cbn [mbind outcome_bind].
  destruct (pub_key_valid (pub_key_of e)) eqn:Hk; cbn [assert mbind outcome_bind]; [|intros []; cbn in *; congruence].
  destruct (decide (65 <= length (in_signature_script input))%nat) as [Hg|Hg].
  2:{ rewrite slice_panic by done. intros []. cbn in *. lia. }
  rewrite slice_ok by done. change (take (65 - 1) _) with (signature_of input). cbn [mbind outcome_bind].
  destruct (signature_valid (signature_of input)) eqn:Hv; cbn [assert mbind outcome_bind]; [|intros []; cbn in *; congruence].
  assert (Hpi : populated_input (E:=TxRuleError) t i = Ok (input, e)).
  { destruct Hpop as [Hl Hp]. specialize (Hp TxRuleError). apply (f_equal (λ l, l !! i)) in Hp. unfold populated_inputs in Hp.
    pose proof (lookup_lt_Some _ _ _ Hin). rewrite !list_lookup_fmap, lookup_seq_lt, lookup_zip_with, Hin, He in Hp by done.
    by injection Hp. }
  destruct (runs_elim _ _ _ (calc_signature_hash_ok t i input e SIG_HASH_ALL rv Hpi Hrv)) as (h & rv' & -> & -> & Hrv').
  cbn [mbind outcome_bind]. set (msg := digest TransactionSigningHash _). set (key := mkSigKey _ _ msg).
  destruct (cache_get c key) as [v|] eqn:Hget.
  - destruct (proj2 Hc _ _ Hget) as [-> Hver]. cbn. done.
  - destruct (verify (signature_of input) msg (pub_key_of e)) eqn:Hver; cbn [assert mbind outcome_bind mret outcome_ret].
    + split; [done|]. split; [done|]. eapply cache_holds_mono; [by apply insert_holds|]. cbn. intros k v.
      case_decide; [|done]. intros ->. by subst.
    + intros []. cbn in *. subst msg. congruence.
Qed.

Lemma check_scripts_from_ok items : ∀ i rv c,
  (∀ j p, items !! j = Some p → (vt_inputs t !! (i + j)%nat, entries !! (i + j)%nat) = (Some p.1, Some p.2)) →
  reused_ok (vt_tx t) rv → sig_cache_ok c →
  match check_scripts_from draw pub_key_valid signature_valid verify t i (Ok <$> items) (rv, c) with
  | Ok (_, c') => (∀ j p, items !! j = Some p → signature_ok (i + j) p) ∧ sig_cache_ok c'
  | Panic => ¬ ∀ j p, items !! j = Some p → signature_ok (i + j) p
  | _ => False
  end.
Proof using Hpop.
  induction items as [|p items IH]; intros i rv c Hi Hrv Hc; cbn [fmap list_fmap check_scripts_from]; [done|].
  pose proof (check_script_ok i p rv c) as Hp. rewrite <-(Nat.add_0_r i) in Hp at 1. rewrite <-(Nat.add_0_r i) in Hp at 2.
  specialize (Hp (Hi 0%nat p eq_refl) Hrv Hc).
  destruct (check_script _ _ _ _ _ _ _ _) as [[rv' c']|e| |]; cbn [mbind outcome_bind]; try done.
  - destruct Hp as (Hs & Hrv' & Hc').
    specialize (IH (S i) rv' c' (λ j q Hj, ltac:(rewrite Nat.add_succ_comm; by apply Hi)) Hrv' Hc').
    assert (Hiff : (∀ j q, (p :: items) !! j = Some q → signature_ok (i + j) q) ↔ ∀ j q, items !! j = Some q → signature_ok (S i + j) q).
    { split; [intros Ha j q Hj; rewrite Nat.add_succ_comm; by apply Ha|].
      intros Ha [|j] q Hj; [cbn in Hj; simplify_eq; by rewrite Nat.add_0_r|].
      rewrite <-Nat.add_succ_comm. by apply Ha. }
    destruct (check_scripts_from _ _ _ _ _ _ _ _) as [[rv'' c'']|e| |]; try done; [|by rewrite Hiff].
    split; [apply Hiff, IH|apply IH].
  - intros Ha. apply Hp. rewrite <-(Nat.add_0_r i). by apply Ha.
Qed.

Lemma check_scripts_ok c : sig_cache_ok c →
  match check_scripts draw pub_key_valid signature_valid verify t c with
  | Ok c' => (∀ j p, zip (vt_inputs t) entries !! j = Some p → signature_ok j p) ∧ sig_cache_ok c'
  | Panic => ¬ ∀ j p, zip (vt_inputs t) entries !! j = Some p → signature_ok j p
  | _ => False
  end.
Proof using Hpop.
  intros Hc. unfold check_scripts. destruct Hpop as [Hl Hp]. rewrite Hp.
  pose proof (check_scripts_from_ok (zip (vt_inputs t) entries) 0 reused_new c) as Hs.
  destruct (check_scripts_from _ _ _ _ _ _ _ _) as [[rv' c']|e| |]; cbn [mbind outcome_bind mret outcome_ret]; apply Hs;
    try apply reused_new_ok; try done;
    (intros j p Hj; apply lookup_zip_with_Some in Hj as (a & b & -> & Ha & Hb); cbn; by rewrite Ha, Hb).
Qed.
End signatures.

Lemma zip_bounds (inputs : list TransactionInput) (entries : list UtxoEntry) :
  Forall (λ i, 0 ≤ in_sequence i < 2 ^ 64) inputs → Forall (λ e, 0 ≤ ue_block_daa_score e < 2 ^ 62) entries →
  Forall (λ p : TransactionInput * UtxoEntry, 0 ≤ in_sequence p.1 < 2 ^ 64 ∧ 0 ≤ ue_block_daa_score p.2 < 2 ^ 62) (zip inputs entries).
Proof.
  rewrite !Forall_lookup. intros Hi He j p Hj. apply lookup_zip_with_Some in Hj as (a & b & -> & Ha & Hb). eauto.
Qed.

Lemma populated_result `{Hashers} (draw : nat → nat) (pub_key_valid signature_valid : list N → bool)
    (verify : list N → Hash → list N → bool) {T} `{VerifiableTransaction T}
    (self : TransactionValidator) (t : T) (entries : list UtxoEntry) (pov : Z) (cache : SigCache) :
  populated_with t entries → isolated self (vt_tx t) → spend_bounds self (vt_tx t) entries pov →
  sig_cache_ok verify cache →
  let signed := ∀ j p, zip (vt_inputs t) entries !! j = Some p → signature_ok pub_key_valid signature_valid verify t j p in
  match validate_populated_transaction_and_get_fee self draw pub_key_valid signature_valid verify t pov cache with
  | Ok (fee, cache') => spend_rules self (vt_tx t) entries pov ∧ signed ∧ sig_cache_ok verify cache' ∧
      fee = zsum (ue_amount <$> entries) - zsum (out_value <$> tx_outputs (vt_tx t)) ∧ 0 ≤ fee ≤ MAX_SOMPI
  | Err _ => ¬ spend_rules self (vt_tx t) entries pov
  | Panic => spend_rules self (vt_tx t) entries pov ∧ ¬ signed
  | Fuel => False
  end.
Proof.
  intros Hpop Hiso [Ba Bs Bq Bm Bp] Hc signed. pose proof Hpop as [Hl Hp].
  assert (Hsnd : (zip (vt_inputs t) entries).*2 = entries) by (apply snd_zip; lia).
  assert (Hz : ∀ P : UtxoEntry → Prop, Forall P entries ↔ Forall (λ p : TransactionInput * UtxoEntry, P p.2) (zip (vt_inputs t) entries)).
  { intros P. rewrite <-Hsnd at 1. by rewrite Forall_fmap. }
  unfold validate_populated_transaction_and_get_fee, check_transaction_coinbase_maturity, check_transaction_input_amounts,
    check_sequence_lock. rewrite !Hp.
  pose proof (maturity_decides self pov (zip (vt_inputs t) entries) 0 (proj1 (Hz (λ e, 0 ≤ ue_block_daa_score e < 2 ^ 62)) Bs) Bm) as Hm.
  destruct (check_maturity_from _ _ _ _) as [[]|e| |]; cbn [decides mbind outcome_bind] in Hm |- *; try done.
  2:{ intros [Hmat _ _ _]. by apply Hm, (Hz (mature self pov)). }
  pose proof (amounts_sum (zip (vt_inputs t) entries) 0 ltac:(by vm_compute) (proj1 (Hz (λ e, 0 ≤ ue_amount e ≤ u64_max)) Ba)) as Ha. rewrite Hsnd, Z.add_0_l in Ha.
  destruct (ofold add_input_amount 0 _) as [total|e| |]; cbn [mbind outcome_bind]; try done.
  2:{ intros [_ Hamt _ _]. lia. }
  destruct Ha as [-> Hmax]. unfold check_transaction_output_values, vt_outputs.
  destruct (iso_values _ _ Hiso) as [Hpos Hsum].
  rewrite sum64_ok; [|apply Forall_fmap; eapply Forall_impl; [exact Hpos|cbn; lia]|assert (MAX_SOMPI ≤ u64_max) by (by vm_compute); lia].
  cbn [mbind outcome_bind]. destruct (Z.ltb_spec (zsum (ue_amount <$> entries)) (zsum (out_value <$> tx_outputs (vt_tx t)))) as [Hlt|Hge];
    cbn [mbind outcome_bind]; [intros [_ _ Hbal _]; lia|].
  assert (Has : as_i64 pov = pov) by (unfold as_i64; destruct (Z.ltb_spec pov (2 ^ 63)); lia). rewrite Has.
  pose proof (sequence_decides pov (zip (vt_inputs t) entries) Bp (zip_bounds _ _ Bq Bs)) as Hq.
  destruct (sequence_locked pov _) as [locked|e| |]; cbn [mbind outcome_bind]; try done.
  destruct locked; cbn [mbind outcome_bind].
  { intros [_ _ _ Hun]. by apply Hq in Hun. }
  assert (Hrules : spend_rules self (vt_tx t) entries pov) by (split; [by apply (Hz (mature self pov))|done|done|by apply Hq]).
  unfold check_sig_op_counts. cbn [mbind outcome_bind].
  pose proof (check_scripts_ok draw pub_key_valid signature_valid verify t entries Hpop cache Hc) as Hs.
  destruct (check_scripts _ _ _ _ _ _) as [c'|e| |]; cbn [mbind outcome_bind]; try done.
  pose proof (values_sum_nonneg _ Hpos). assert (MAX_SOMPI ≤ u64_max) by by vm_compute.
  rewrite sub64_ok by lia. cbn [mbind outcome_bind mret outcome_ret]. destruct Hs. split_and!; try done; lia.
Qed.

(** ** Properties *)

(** C25: Validation in isolation: for a transaction with unsigned output values, the
    validator accepts exactly the transactions that meet the rules (inputs unless a
    coinbase, all size limits, the form of a coinbase, positive values whose sum stays
    within the supply, distinct inputs, no gas, no payload unless a coinbase, the known
    version); it never panics, and the mass of a transaction it accepts is the intended
    sum, computed without overflow. *)
Theorem tx_isolation_correct (self : TransactionValidator) (mc : MassCalculator) (tx : Transaction) :
  Forall (λ o, 0 ≤ out_value o) (tx_outputs tx) → Forall (λ i, 0 ≤ in_sig_op_count i ≤ 255) (tx_inputs tx) →
  mass_params_ok self mc → 0 ≤ tv_max_signature_script_len self → 0 ≤ tv_max_script_public_key_len self →
  (validate_tx_in_isolation self tx = Ok tt ↔ isolated self tx) ∧
  (validate_tx_in_isolation self tx = Ok tt ∨ ∃ e, validate_tx_in_isolation self tx = Err e) ∧
  (validate_tx_in_isolation self tx = Ok tt → ∀ E,
     calc_tx_mass (E:=E) mc tx = Ok (if is_coinbase tx then 0 else tx_mass mc tx)).
Proof.
  intros Hv Hops Hmp Hl1 Hl2. pose proof (validate_decides self tx Hv) as Hd.
  split; [by apply decides_ok|]. split; [by eapply decides_total|]. intros Hok E.
  destruct (is_coinbase tx) eqn:Hc; [unfold calc_tx_mass; by rewrite Hc|].
  apply (calc_tx_mass_ok self); try done. by apply (decides_ok _ _ Hd).
Qed.

(** C26: Validation with populated inputs, of a transaction that is valid in isolation:
    the fee is returned exactly when all coinbase inputs are mature, the inputs stay
    within the supply and cover the outputs, the relative locks have passed and every
    input is properly signed; it is the difference of the two sums.  A broken rule is an
    error, a bad signature a panic; the verdicts kept in the shared signature cache
    stay true, and what the cache holds or evicts changes no result. *)
Theorem tx_populated_correct `{Hashers} (draw : nat → nat) (pub_key_valid signature_valid : list N → bool)
    (verify : list N → Hash → list N → bool) {T} `{VerifiableTransaction T}
    (self : TransactionValidator) (t : T) (entries : list UtxoEntry) (pov : Z) (cache : SigCache) :
  populated_with t entries → isolated self (vt_tx t) → spend_bounds self (vt_tx t) entries pov →
  sig_cache_ok verify cache →
  let signed := ∀ j p, zip (vt_inputs t) entries !! j = Some p → signature_ok pub_key_valid signature_valid verify t j p in
  match validate_populated_transaction_and_get_fee self draw pub_key_valid signature_valid verify t pov cache with
  | Ok (fee, cache') => spend_rules self (vt_tx t) entries pov ∧ signed ∧ sig_cache_ok verify cache' ∧
      fee = zsum (ue_amount <$> entries) - zsum (out_value <$> tx_outputs (vt_tx t)) ∧ 0 ≤ fee ≤ MAX_SOMPI
  | Err _ => ¬ spend_rules self (vt_tx t) entries pov
  | Panic => spend_rules self (vt_tx t) entries pov ∧ ¬ signed
  | Fuel => False
  end.
Proof. apply populated_result. Qed.

(** ** Examples on the parameters of the main network *)

Definition mainnet_validator : TransactionValidator :=
  mkValidator (p_max_tx_inputs MAINNET_PARAMS) (p_max_tx_outputs MAINNET_PARAMS) (p_max_signature_script_len MAINNET_PARAMS)
    (p_max_script_public_key_len MAINNET_PARAMS) (p_ghostdag_k MAINNET_PARAMS)
    (p_coinbase_payload_script_public_key_max_len MAINNET_PARAMS) (p_coinbase_maturity MAINNET_PARAMS).
Definition mainnet_mass : MassCalculator :=
  mkMass (p_mass_per_tx_byte MAINNET_PARAMS) (p_mass_per_script_pub_key_byte MAINNET_PARAMS) (p_mass_per_sig_op MAINNET_PARAMS).

Lemma mainnet_mass_ok : mass_params_ok mainnet_validator mainnet_mass.
Proof. split; by vm_compute. Qed.

Lemma tx_isolation_correct_witness :
  (validate_tx_in_isolation mainnet_validator ex_signed = Ok tt ↔ isolated mainnet_validator ex_signed) ∧
  (validate_tx_in_isolation mainnet_validator ex_signed = Ok tt ∨
   ∃ e, validate_tx_in_isolation mainnet_validator ex_signed = Err e) ∧
  (validate_tx_in_isolation mainnet_validator ex_signed = Ok tt → ∀ E,
     calc_tx_mass (E:=E) mainnet_mass ex_signed =
     Ok (if is_coinbase ex_signed then 0 else tx_mass mainnet_mass ex_signed)).
Proof.
  apply tx_isolation_correct; [repeat constructor; by vm_compute..|apply mainnet_mass_ok|by vm_compute|by vm_compute].
Defined.

(** A transaction whose signatures repeat the message, and a scheme that accepts them. *)
Definition repeat_verify (sig : list N) (msg : Hash) (_ : list N) : bool := bool_decide (take 32 sig = Hashes.as_bytes msg).
Definition ex_owner : ScriptPublicKey := mkSpk 0 (32%N :: replicate 32 7%N ++ [172%N]).
Definition ex_spend_entries : list UtxoEntry := [mkEntry 500 ex_owner 40 true; mkEntry 250 ex_owner 90 false].
Definition ex_message (i : nat) (input : TransactionInput) (entry : UtxoEntry) : Hash :=
  @digest sum_digest TransactionSigningHash (@signature_message sum_digest ex_unsigned input entry i SIG_HASH_ALL).
Definition ex_script (i : nat) (input : TransactionInput) (entry : UtxoEntry) : list N :=
  65%N :: Hashes.as_bytes (ex_message i input entry) ++ replicate 32 0%N ++ [1%N].
Definition ex_spend_tx : Transaction :=
  mkTx 0 [mkInput (mkOutpoint 77%N 0) (ex_script 0 (ex_input 0) (mkEntry 500 ex_owner 40 true)) 0 1;
          mkInput (mkOutpoint 77%N 1) (ex_script 1 (ex_input 1) (mkEntry 250 ex_owner 90 false)) 1 1]
    [mkOutput 300 (mkSpk 0 [32; 5; 172]%N)] 1615462089000 Subnets.SUBNETWORK_ID_NATIVE 0 [] 0%N.
Definition ex_spend : PopulatedTransaction := mkPopulated ex_spend_tx ex_spend_entries.

Lemma ex_spend_isolated : isolated mainnet_validator ex_spend_tx.
Proof.
  apply (decides_ok _ _ (validate_decides mainnet_validator ex_spend_tx ltac:(repeat constructor; by vm_compute))).
  by vm_compute.
Qed.

(** The fee of the example is the difference, 450. *)
Lemma ex_spend_fee : match @validate_populated_transaction_and_get_fee mainnet_validator _ _ sum_digest (λ n, n)
    (λ _, true) (λ _, true) repeat_verify ex_spend 150 (cache_new 1) with
  | Ok (fee, cache) => fee = 450 ∧ length (c_map cache) = 1%nat | _ => False end.
Proof. by vm_compute. Qed.

Lemma tx_populated_correct_witness :
  let signed := ∀ j p, zip (vt_inputs ex_spend) ex_spend_entries !! j = Some p →
    @signature_ok sum_digest (λ _, true) (λ _, true) repeat_verify _ _ ex_spend j p in
  match @validate_populated_transaction_and_get_fee mainnet_validator _ _ sum_digest (λ n, n)
    (λ _, true) (λ _, true) repeat_verify ex_spend 150 (cache_new 1) with
  | Ok (fee, cache') => spend_rules mainnet_validator (vt_tx ex_spend) ex_spend_entries 150 ∧ signed ∧ sig_cache_ok repeat_verify cache' ∧
      fee = zsum (ue_amount <$> ex_spend_entries) - zsum (out_value <$> tx_outputs (vt_tx ex_spend)) ∧ 0 ≤ fee ≤ MAX_SOMPI
  | Err _ => ¬ spend_rules mainnet_validator (vt_tx ex_spend) ex_spend_entries 150
  | Panic => spend_rules mainnet_validator (vt_tx ex_spend) ex_spend_entries 150 ∧ ¬ signed
  | Fuel => False
  end.
Proof.
  refine (@tx_populated_correct sum_digest (λ n, n) (λ _, true) (λ _, true) repeat_verify _ _
    mainnet_validator ex_spend ex_spend_entries 150 (cache_new 1) _ _ _ _).
  - split; [reflexivity|]. intros E. reflexivity.
  - exact ex_spend_isolated.
  - split; [repeat constructor; by vm_compute..|by vm_compute|by vm_compute].
  - apply cache_new_holds.
Defined.
