(* ===== verification/CoinbaseProof.v ===== *)
(** * The coinbase: payloads, emission, rewards

    The payload is parsed back to what was serialised and conversely; the subsidy
    schedule of the main network never pays out more than the supply limit; the coinbase
    a block must have pays exactly the rewards of its mergeset and is itself valid. *)

From S2P Require Import Prelude Hash GhostdagStore Errors Tx Hashing HashingProof Database DatabaseProof TxValidator TxValidatorProof Coinbase.

(** ** The parser *)

Lemma cb_le_of_le_bytes l : Hashes.bytes_ok l → Hashes.le_bytes (length l) (Hashes.of_le_bytes l) = l.
Proof.
  induction 1 as [|b l Hb _ IH]; [done|]. cbn [length Hashes.le_bytes Hashes.of_le_bytes]. f_equal.
  - rewrite N.mul_comm, N.Div0.mod_add. by apply N.mod_small.
  - rewrite N.mul_comm, N.div_add, N.div_small by lia. by rewrite N.add_0_l.
Qed.

Lemma le_of_array l n : length l = n → Hashes.bytes_ok l → le n (Z.of_N (Hashes.of_le_bytes l)) = l.
Proof. intros <- Hl. unfold le. rewrite N2Z.id. by apply cb_le_of_le_bytes. Qed.

Lemma of_le_bytes_fits l : Hashes.bytes_ok l → fits (length l) (Z.of_N (Hashes.of_le_bytes l)).
Proof.
  unfold fits. induction 1 as [|b l Hb _ IH]; [done|]. cbn [length Hashes.of_le_bytes].
  rewrite Nat2Z.inj_succ, Z.pow_succ_r by lia. lia.
Qed.

Lemma length_le n x : length (le n x) = n.
Proof. apply length_le_bytes. Qed.

Lemma parse_uint_app {E} n seg rest : length seg = n →
  parse_uint (E:=E) n (seg ++ rest) = (Ok (Z.of_N (Hashes.of_le_bytes seg)), rest).
Proof.
  intros <-. unfold parse_uint, parser_take, from_le_array, mbind, M_bind, lift.
  rewrite (proj2 (Nat.leb_le _ _)) by (rewrite length_app; lia).
  by rewrite take_app_length, drop_app_length, Nat.eqb_refl.
Qed.

Lemma parse_uint_le {E} n x rest : fits n x → parse_uint (E:=E) n (le n x ++ rest) = (Ok x, rest).
Proof.
  intros Hx. rewrite parse_uint_app by apply length_le. do 2 f_equal.
  unfold le, fits in *. rewrite hash_of_le_bytes_le; [lia|].
  apply N2Z.inj_lt. rewrite N2Z.inj_pow, Z2N.id, nat_N_Z by lia. simpl. lia.
Qed.

(** The fixed fields in front of a payload. *)
Lemma payload_split (p : list N) : (MIN_PAYLOAD_LENGTH <= length p)%nat →
  ∃ b s v l rest, p = b ++ s ++ v ++ l ++ rest ∧ length b = 8%nat ∧ length s = 8%nat ∧ length v = 2%nat ∧ length l = 1%nat.
Proof.
  change MIN_PAYLOAD_LENGTH with 19%nat. intros Hp.
  exists (take 8 p), (take 8 (drop 8 p)), (take 2 (drop 16 p)), (take 1 (drop 18 p)), (drop 19 p).
  rewrite !length_take, !length_drop. split_and!; try lia.
  rewrite <-(take_drop 8 p) at 1. f_equal. rewrite <-(take_drop 8 (drop 8 p)) at 1. f_equal. rewrite drop_drop.
  rewrite <-(take_drop 2 (drop (8 + 8) p)) at 1. f_equal. rewrite drop_drop.
  rewrite <-(take_drop 1 (drop (8 + 8 + 2) p)) at 1. f_equal. by rewrite drop_drop.
Qed.

Section payloads.
Context (self : CoinbaseManager).

Definition script_size (m : MinerData) : Z := Z.of_nat (length (spk_script (md_script_public_key m))).

(** The data fits its encoding and the limits. *)
Record payload_fits (d : CoinbaseData) : Prop := {
  pf_blue : fits 8 (cd_blue_score d);
  pf_subsidy : fits 8 (cd_subsidy d);
  pf_version : fits 2 (spk_version (md_script_public_key (cd_miner_data d)));
  pf_script : script_size (cd_miner_data d) ≤ cm_coinbase_payload_script_public_key_max_len self;
  pf_max : Z.of_nat MIN_PAYLOAD_LENGTH + script_size (cd_miner_data d) + zlen (md_extra_data (cd_miner_data d)) ≤
    cm_max_coinbase_payload_len self;
}.
Hypothesis max_len_u8 : 0 ≤ cm_coinbase_payload_script_public_key_max_len self ≤ 255.

Lemma serialize_ok d : script_size (cd_miner_data d) ≤ cm_coinbase_payload_script_public_key_max_len self →
  serialize_coinbase_payload self d = Ok (le 8 (cd_blue_score d) ++ le 8 (cd_subsidy d) ++ miner_bytes (cd_miner_data d)).
Proof using Type.
  clear. intros Hs. unfold serialize_coinbase_payload, check_miner_script. fold (script_size (cd_miner_data d)).
  by rewrite (proj2 (Z.ltb_ge _ _)).
Qed.

Lemma miner_bytes_split m : script_size m ≤ cm_coinbase_payload_script_public_key_max_len self →
  miner_bytes m = le 2 (spk_version (md_script_public_key m)) ++ le 1 (script_size m) ++
    spk_script (md_script_public_key m) ++ md_extra_data m.
Proof using max_len_u8. intros Hs. unfold miner_bytes, script_size in *. by rewrite Z.mod_small by lia. Qed.

Lemma roundtrip_parse d : payload_fits d →
  deserialize_coinbase_payload self (le 8 (cd_blue_score d) ++ le 8 (cd_subsidy d) ++ miner_bytes (cd_miner_data d)) = Ok d.
Proof using max_len_u8.
  intros [Hb Hs Hv Hl Hm]. rewrite miner_bytes_split by done. unfold deserialize_coinbase_payload.
  rewrite !length_app, !length_le. unfold script_size, zlen in *. destruct d as [b s [[v sc] ex]]. 
  cbn [cd_blue_score cd_subsidy cd_miner_data md_script_public_key spk_version spk_script md_extra_data] in *.
  rewrite (proj2 (Nat.ltb_ge _ _)) by (change MIN_PAYLOAD_LENGTH with 19%nat; lia).
  rewrite (proj2 (Z.ltb_ge _ _)) by (change MIN_PAYLOAD_LENGTH with 19%nat in Hm; lia).
  unfold parse_coinbase_payload, mbind, M_bind. rewrite !parse_uint_le by (done || (unfold fits; cbn; lia)).
  rewrite (proj2 (Z.ltb_ge _ _)) by lia. unfold get. rewrite (proj2 (Z.ltb_ge _ _)) by (rewrite length_app; lia).
  unfold parser_take. rewrite (proj2 (Nat.leb_le _ _)) by (rewrite length_app; lia).
  by rewrite Nat2Z.id, take_app_length, drop_app_length.
Qed.

(** Every payload is parsed or refused; a parsed one is what serialising gives. *)
Lemma deserialize_total p : Hashes.bytes_ok p →
  match deserialize_coinbase_payload self p with
  | Ok d => payload_fits d ∧ serialize_coinbase_payload self d = Ok p
  | Err _ => True
  | _ => False
  end.
Proof using max_len_u8.
  intros Hp. unfold deserialize_coinbase_payload.
  destruct (Nat.ltb_spec (length p) MIN_PAYLOAD_LENGTH) as [?|Hmin]; [done|].
  destruct (Z.ltb_spec (cm_max_coinbase_payload_len self) (Z.of_nat (length p))) as [?|Hmax]; [done|].
  destruct (payload_split p Hmin) as (b & s & v & l & rest & -> & Lb & Ls & Lv & Ll). unfold Hashes.bytes_ok in Hp.
  rewrite !Forall_app in Hp. destruct Hp as (Pb & Ps & Pv & Pl & Pr).
  unfold parse_coinbase_payload, mbind, M_bind. rewrite !parse_uint_app by done.
  set (len := Z.of_N (Hashes.of_le_bytes l)).
  destruct (Z.ltb_spec (cm_coinbase_payload_script_public_key_max_len self) len) as [?|Hl]; [done|]. unfold get.
  destruct (Z.ltb_spec (Z.of_nat (length rest)) len) as [?|Hrem]; [done|].
  unfold parser_take. rewrite (proj2 (Nat.leb_le _ _)) by lia. cbn [fst mret M_ret].
  set (m := mkMiner (mkSpk (Z.of_N (Hashes.of_le_bytes v)) (take (Z.to_nat len) rest)) (drop (Z.to_nat len) rest)).
  assert (Hsz : script_size m = len) by (unfold script_size; cbn; rewrite length_take; lia).
  assert (Hf : ∀ x n, length x = n → Forall (λ c, (c < 256)%N) x → fits n (Z.of_N (Hashes.of_le_bytes x)))
    by (intros x n <- Hx; by apply of_le_bytes_fits).
  split.
  - split; cbn [cd_blue_score cd_subsidy cd_miner_data]; [by apply Hf..|by rewrite Hsz|].
    rewrite !length_app in Hmax. rewrite Hsz. unfold zlen. cbn [md_extra_data m]. rewrite length_drop.
    change MIN_PAYLOAD_LENGTH with 19%nat in *. lia.
  - rewrite serialize_ok, miner_bytes_split by (cbn [cd_miner_data]; by rewrite Hsz). cbn [cd_miner_data]. rewrite Hsz.
    cbn [cd_blue_score cd_subsidy md_script_public_key spk_version spk_script md_extra_data m]. unfold len.
    rewrite !le_of_array by done. by rewrite take_drop.
Qed.

Lemma modify_ok d m p : serialize_coinbase_payload self d = Ok p →
  modify_coinbase_payload self p m =
  serialize_coinbase_payload self (mkCoinbaseData (cd_blue_score d) (cd_subsidy d) m).
Proof using Type.
  clear. unfold serialize_coinbase_payload, modify_coinbase_payload. cbn [cd_miner_data cd_blue_score cd_subsidy].
  destruct (check_miner_script self (cd_miner_data d)); [|done..]. cbn [mbind outcome_bind mret outcome_ret]. intros [= <-].
  destruct (check_miner_script self m); [|done..]. done.
Qed.
End payloads.

(** ** Emission *)

Definition mainnet_coinbase : CoinbaseManager :=
  mkCoinbaseManager (p_coinbase_payload_script_public_key_max_len MAINNET_PARAMS) (p_max_coinbase_payload_len MAINNET_PARAMS)
    (p_deflationary_phase_daa_score MAINNET_PARAMS) (p_pre_deflationary_phase_base_subsidy MAINNET_PARAMS).

Section emission.
Context (self : CoinbaseManager).
Hypothesis start_ok : 0 ≤ cm_deflationary_phase_daa_score self ≤ u64_max.

(** The schedule as a function. *)
Definition subsidy_at (daa : Z) : Z :=
  if daa <? cm_deflationary_phase_daa_score self then cm_pre_deflationary_phase_base_subsidy self
  else nth (Z.to_nat ((daa - cm_deflationary_phase_daa_score self) / SECONDS_PER_MONTH)) SUBSIDY_BY_MONTH_TABLE 0.

Lemma table_last : last SUBSIDY_BY_MONTH_TABLE = Some 0.
Proof using Type. done. Qed.

Lemma calc_block_subsidy_ok {E} daa : 0 ≤ daa ≤ u64_max → calc_block_subsidy (E:=E) self daa = Ok (subsidy_at daa).
Proof using start_ok.
  intros Hd. unfold calc_block_subsidy, subsidy_at. destruct (Z.ltb_spec daa (cm_deflationary_phase_daa_score self)); [done|].
  rewrite sub64_ok by lia. cbn [mbind outcome_bind].
  set (m := (daa - cm_deflationary_phase_daa_score self) / SECONDS_PER_MONTH).
  assert (0 ≤ m ≤ u64_max).
  { unfold m. split; [apply Z.div_pos; unfold SECONDS_PER_MONTH; lia|]. apply Z.div_le_upper_bound; unfold SECONDS_PER_MONTH; lia. }
  rewrite (proj2 (Z.leb_le m u64_max)) by lia. cbn [assert mbind outcome_bind].
  destruct (Z.leb_spec (Z.of_nat (length SUBSIDY_BY_MONTH_TABLE)) m) as [Hm|Hm].
  - rewrite table_last, nth_overflow by lia. done.
  - destruct (lookup_lt_is_Some_2 SUBSIDY_BY_MONTH_TABLE (Z.to_nat m)) as [v Hv]; [lia|]. rewrite Hv.
    by rewrite (nth_lookup_Some _ _ _ _ Hv).
Qed.

(** All that is paid up to a DAA score, with one block per score. *)
Definition emission (n : Z) : Z := zsum (subsidy_at <$> seqZ 0 n).

Lemma zsum_const (f : Z → Z) a n c : 0 ≤ n → (∀ d, a ≤ d < a + n → f d = c) → zsum (f <$> seqZ a n) = n * c.
Proof using Type.
  clear. intros Hn Hf. assert (Hl : Forall (λ d, f d = c) (seqZ a n)).
  { apply Forall_forall. intros d Hd. apply Hf. by apply elem_of_seqZ in Hd. }
  assert (Hlen : Z.of_nat (length (seqZ a n)) = n) by (rewrite length_seqZ; lia).
  replace (n * c) with (Z.of_nat (length (seqZ a n)) * c) by (by rewrite Hlen). clear Hlen Hf. induction Hl as [|x l Hx Hl IH]; [done|].
  rewrite fmap_cons, zsum_cons, Hx, IH. cbn [length]. lia.
Qed.

Lemma emission_app a n : 0 ≤ a → 0 ≤ n → emission (a + n) = emission a + zsum (subsidy_at <$> seqZ a n).
Proof using Type. intros Ha Hn. unfold emission. by rewrite seqZ_app, fmap_app, zsum_app by lia. Qed.

Lemma emission_months (m : nat) : (m <= length SUBSIDY_BY_MONTH_TABLE)%nat →
  emission (cm_deflationary_phase_daa_score self + SECONDS_PER_MONTH * Z.of_nat m) =
  cm_deflationary_phase_daa_score self * cm_pre_deflationary_phase_base_subsidy self +
  SECONDS_PER_MONTH * zsum (take m SUBSIDY_BY_MONTH_TABLE).
Proof using start_ok.
  induction m as [|m IH]; intros Hm.
  - rewrite Z.mul_0_r, Z.add_0_r. unfold emission. rewrite (zsum_const _ _ _ (cm_pre_deflationary_phase_base_subsidy self)).
    + rewrite take_0. change (zsum []) with 0. lia.
    + lia.
    + intros d Hd. unfold subsidy_at. by rewrite (proj2 (Z.ltb_lt _ _)) by lia.
  - rewrite Nat2Z.inj_succ, Z.mul_succ_r, Z.add_assoc. rewrite emission_app, IH by (unfold SECONDS_PER_MONTH; lia).
    destruct (lookup_lt_is_Some_2 SUBSIDY_BY_MONTH_TABLE m) as [c Hc]; [lia|].
    rewrite (zsum_const _ _ _ c); [|unfold SECONDS_PER_MONTH; lia|].
    + rewrite (take_S_r _ _ _ Hc), zsum_app. change (zsum [c]) with (c + 0). lia.
    + intros d Hd. unfold subsidy_at. rewrite (proj2 (Z.ltb_ge _ _)) by (unfold SECONDS_PER_MONTH in *; lia).
      replace ((d - cm_deflationary_phase_daa_score self) / SECONDS_PER_MONTH) with (Z.of_nat m).
      * rewrite Nat2Z.id. by apply nth_lookup_Some.
      * apply Z.div_unique with (r := d - cm_deflationary_phase_daa_score self - SECONDS_PER_MONTH * Z.of_nat m); lia.
Qed.

Lemma table_nonneg : Forall (λ x, 0 ≤ x) SUBSIDY_BY_MONTH_TABLE.
Proof using Type. by apply (bool_decide_unpack _). Qed.

Lemma subsidy_nonneg daa : 0 ≤ cm_pre_deflationary_phase_base_subsidy self → 0 ≤ subsidy_at daa.
Proof using Type.
  intros Hp. unfold subsidy_at. destruct (_ <? _); [done|].
  destruct (SUBSIDY_BY_MONTH_TABLE !! Z.to_nat ((daa - cm_deflationary_phase_daa_score self) / SECONDS_PER_MONTH)) as [v|] eqn:Hv.
  - rewrite (nth_lookup_Some _ _ _ _ Hv). pose proof table_nonneg as Ht. rewrite Forall_forall in Ht.
    apply Ht. by eapply list_elem_of_lookup_2.
  - apply lookup_ge_None in Hv. rewrite nth_overflow by done. done.
Qed.

(** What is paid in all. *)
Definition total_emission : Z :=
  cm_deflationary_phase_daa_score self * cm_pre_deflationary_phase_base_subsidy self +
  SECONDS_PER_MONTH * zsum SUBSIDY_BY_MONTH_TABLE.

Lemma emission_bound n : 0 ≤ cm_pre_deflationary_phase_base_subsidy self → 0 ≤ n → emission n ≤ total_emission.
Proof using start_ok.
  intros Hp Hn. set (last_daa := cm_deflationary_phase_daa_score self + SECONDS_PER_MONTH * Z.of_nat (length SUBSIDY_BY_MONTH_TABLE)).
  assert (Hlast : 0 ≤ last_daa) by (unfold last_daa, SECONDS_PER_MONTH; lia).
  assert (Hall : emission last_daa = total_emission).
  { unfold last_daa. rewrite emission_months by lia. by rewrite firstn_all. }
  assert (Hpart : ∀ a k, 0 ≤ zsum (subsidy_at <$> seqZ a k)).
  { intros a k. apply zsum_nonneg, Forall_fmap, Forall_true. intros. by apply subsidy_nonneg. }
  destruct (Z_le_gt_dec n last_daa) as [Hle|Hgt].
  - rewrite <-Hall. replace last_daa with (n + (last_daa - n)) by lia. rewrite emission_app by lia.
    specialize (Hpart n (last_daa - n)). lia.
  - replace n with (last_daa + (n - last_daa)) by lia. rewrite emission_app, Hall by lia.
    rewrite (zsum_const _ _ _ 0); [lia|lia|]. intros d Hd. unfold subsidy_at.
    rewrite (proj2 (Z.ltb_ge _ _)) by (unfold last_daa, SECONDS_PER_MONTH in *; lia). apply nth_overflow.
    apply Nat2Z.inj_le. rewrite Z2Nat.id by (apply Z.div_pos; unfold last_daa, SECONDS_PER_MONTH in *; lia).
    apply Z.div_le_lower_bound; unfold last_daa, SECONDS_PER_MONTH in *; lia.
Qed.
End emission.

(** ** The expected coinbase *)

Section rewards.
Context (self : CoinbaseManager) (rewards : gmap Hash BlockRewardData).

Definition reward_total (r : BlockRewardData) : Z := rw_subsidy r + rw_total_fees r.
(** The reward of a block of the mergeset. *)
Definition reward_of (h : Hash) : Z := from_option reward_total 0 (rewards !! h).
Definition script_of (h : Hash) : ScriptPublicKey := from_option rw_script_public_key (mkSpk 0 []) (rewards !! h).

(** The rewards of the listed blocks are known and their sum fits. *)
Record rewards_ok (blocks : list Hash) : Prop := {
  ro_known : Forall (λ h, is_Some (rewards !! h)) blocks;
  ro_nonneg : ∀ h r, rewards !! h = Some r → 0 ≤ rw_subsidy r ∧ 0 ≤ rw_total_fees r;
  ro_sum : zsum (reward_of <$> blocks) ≤ u64_max;
}.

Lemma reward_nonneg h : (∀ h r, rewards !! h = Some r → 0 ≤ rw_subsidy r ∧ 0 ≤ rw_total_fees r) → 0 ≤ reward_of h.
Proof. intros Hn. unfold reward_of, reward_total. destruct (rewards !! h) eqn:Hr; cbn; [|done]. apply Hn in Hr. lia. Qed.

Lemma rewards_cons h blocks : rewards_ok (h :: blocks) →
  rewards_ok blocks ∧ is_Some (rewards !! h) ∧ 0 ≤ reward_of h ≤ u64_max.
Proof.
  intros [Hk Hn Hs]. apply Forall_cons in Hk as [Hh Hk]. rewrite fmap_cons, zsum_cons in Hs.
  pose proof (reward_nonneg h Hn). assert (0 ≤ zsum (reward_of <$> blocks)).
  { apply zsum_nonneg, Forall_fmap, Forall_true. intros. by apply reward_nonneg. }
  split; [split; [done|done|lia]|]. split; [done|lia].
Qed.

Lemma block_reward_ok {E} h : is_Some (rewards !! h) → 0 ≤ reward_of h ≤ u64_max →
  block_reward (E:=E) rewards h = Ok (reward_of h, script_of h).
Proof.
  intros [r Hr]. unfold block_reward, reward_of, script_of. rewrite Hr. cbn. intros Hb. by rewrite add64_ok by done.
Qed.

(** One output per blue block with a reward. *)
Definition blue_outputs (blocks : list Hash) : list TransactionOutput :=
  (λ h, mkOutput (reward_of h) (script_of h)) <$> filter (λ h, 0 < reward_of h) blocks.

Lemma blue_outputs_ok {E} blocks : ∀ outputs, rewards_ok blocks →
  ofold (E:=E) (blue_output rewards) outputs blocks = Ok (outputs ++ blue_outputs blocks).
Proof.
  induction blocks as [|h blocks IH]; intros outputs Hr; [by rewrite app_nil_r|].
  destruct (rewards_cons h blocks Hr) as (Hr' & Hk & Hb). cbn [ofold]. unfold blue_output at 2.
  rewrite block_reward_ok by done. cbn [mbind outcome_bind mret outcome_ret]. rewrite IH by done. f_equal.
  unfold blue_outputs. rewrite filter_cons. destruct (Z.ltb_spec 0 (reward_of h)).
  - rewrite decide_True by done. cbn. by rewrite <-app_assoc.
  - by rewrite decide_False by lia.
Qed.

Lemma red_total_ok {E} blocks : ∀ total, 0 ≤ total → rewards_ok blocks → total + zsum (reward_of <$> blocks) ≤ u64_max →
  ofold (E:=E) (red_total rewards) total blocks = Ok (total + zsum (reward_of <$> blocks)).
Proof.
  induction blocks as [|h blocks IH]; intros total Ht Hr Hs; [cbn; by rewrite Z.add_0_r|].
  destruct (rewards_cons h blocks Hr) as (Hr' & Hk & Hb). rewrite fmap_cons, zsum_cons in *.
  assert (0 ≤ zsum (reward_of <$> blocks)).
  { apply zsum_nonneg, Forall_fmap, Forall_true. intros. by apply reward_nonneg, Hr'. }
  cbn [ofold]. unfold red_total at 2. rewrite block_reward_ok by done. cbn [mbind outcome_bind].
  rewrite add64_ok by lia. cbn [mbind outcome_bind]. rewrite IH by (done || lia). f_equal. lia.
Qed.

Lemma blue_outputs_sum blocks : rewards_ok blocks →
  zsum (out_value <$> blue_outputs blocks) = zsum (reward_of <$> blocks).
Proof.
  intros [_ Hn _]. unfold blue_outputs. induction blocks as [|h blocks IH]; [done|].
  rewrite filter_cons, (fmap_cons _ h), zsum_cons. pose proof (reward_nonneg h Hn). case_decide.
  - rewrite !fmap_cons, zsum_cons, IH. done.
  - rewrite IH. lia.
Qed.
End rewards.

Section expected.
Context `{Hashers} (self : CoinbaseManager) (tv : TransactionValidator).

(** The validator and the manager are built from the same parameters. *)
Record same_params : Prop := {
  sp_start : 0 ≤ cm_deflationary_phase_daa_score self ≤ u64_max;
  sp_u8 : 0 ≤ cm_coinbase_payload_script_public_key_max_len self ≤ 255;
  sp_spk : tv_coinbase_payload_script_public_key_max_len tv = cm_coinbase_payload_script_public_key_max_len self;
  sp_len : cm_coinbase_payload_script_public_key_max_len self ≤ tv_max_script_public_key_len tv;
  sp_inputs : 0 ≤ tv_max_tx_inputs tv;
  sp_outputs : tv_ghostdag_k tv + 2 ≤ tv_max_tx_outputs tv;
}.

Context (rewards : gmap Hash BlockRewardData) (non_daa : gset Hash) (gd : GhostdagData) (miner : MinerData).

Definition paid_blues : list Hash := in_daa non_daa (mergeset_blues gd).
Definition paid_reds : list Hash := in_daa non_daa (mergeset_reds gd).
Definition red_reward : Z := zsum (reward_of rewards <$> paid_reds).
Definition coinbase_outputs : list TransactionOutput :=
  blue_outputs rewards paid_blues ++ (if 0 <? red_reward then [mkOutput red_reward (md_script_public_key miner)] else []).

Record mergeset_ok : Prop := {
  mo_blues : zlen (mergeset_blues gd) ≤ tv_ghostdag_k tv + 1;
  mo_known : Forall (λ h, is_Some (rewards !! h)) (paid_blues ++ paid_reds);
  mo_nonneg : ∀ h r, rewards !! h = Some r → 0 ≤ rw_subsidy r ∧ 0 ≤ rw_total_fees r;
  mo_scripts : ∀ h r, rewards !! h = Some r →
    zlen (spk_script (rw_script_public_key r)) ≤ cm_coinbase_payload_script_public_key_max_len self;
  mo_sum : zsum (reward_of rewards <$> paid_blues ++ paid_reds) ≤ MAX_SOMPI;
}.
Hypothesis Hparams : same_params.
Hypothesis Hmerge : mergeset_ok.

Lemma sums_bound : 0 ≤ zsum (reward_of rewards <$> paid_blues) ∧ 0 ≤ red_reward ∧
  zsum (reward_of rewards <$> paid_blues) + red_reward ≤ MAX_SOMPI ∧ MAX_SOMPI ≤ u64_max.
Proof using Hmerge.
  destruct Hmerge as [_ _ Hn _ Hs]. rewrite fmap_app, zsum_app in Hs. unfold red_reward.
  split_and!; [|..|done|by vm_compute]; apply zsum_nonneg, Forall_fmap, Forall_true; intros; by apply reward_nonneg.
Qed.

Lemma paid_rewards_ok : rewards_ok rewards paid_blues ∧ rewards_ok rewards paid_reds.
Proof using Hmerge.
  destruct sums_bound as (? & ? & ? & ?). destruct Hmerge as [_ Hk Hn _ _]. apply Forall_app in Hk as [Hkb Hkr].
  split; split; try done; unfold red_reward in *; lia.
Qed.

Lemma coinbase_outputs_sum : zsum (out_value <$> coinbase_outputs) = zsum (reward_of rewards <$> paid_blues ++ paid_reds).
Proof using Hmerge.
  destruct paid_rewards_ok as [Hb _]. destruct sums_bound as (_ & Hr & _). unfold coinbase_outputs.
  rewrite !fmap_app, !zsum_app, (blue_outputs_sum _ _ Hb). fold red_reward. destruct (Z.ltb_spec 0 red_reward); cbn; lia.
Qed.

Hypothesis Hminer : script_size miner ≤ cm_coinbase_payload_script_public_key_max_len self.

Lemma coinbase_outputs_ok :
  Forall (λ o, 0 < out_value o ∧ script_len o ≤ cm_coinbase_payload_script_public_key_max_len self) coinbase_outputs ∧
  zlen coinbase_outputs ≤ tv_ghostdag_k tv + 2.
Proof using Hmerge Hminer Hparams.
  destruct Hmerge as [Hbl Hk Hn Hs _]. unfold coinbase_outputs. split.
  - apply Forall_app. split.
    + apply Forall_fmap, Forall_forall. intros h [Hpos Hh]%list_elem_of_filter. cbn. split; [done|].
      unfold script_len, script_of. cbn. destruct (rewards !! h) eqn:Hr; cbn; [by eapply Hs|]. unfold zlen. cbn. apply Hparams.
    + destruct (Z.ltb_spec 0 red_reward); [|constructor]. constructor; [|constructor]. done.
  - unfold zlen, blue_outputs in *. rewrite length_app, length_fmap.
    pose proof (length_filter (λ h, 0 < reward_of rewards h) paid_blues) as H1.
    pose proof (length_filter (λ h, h ∉ non_daa) (mergeset_blues gd)) as H2. fold (in_daa non_daa (mergeset_blues gd)) in H2.
    fold paid_blues in H2. destruct (0 <? red_reward); cbn [length]; lia.
Qed.

Lemma expected_isolated payload :
  isolated tv (tx_new TX_VERSION [] coinbase_outputs 0 Subnets.SUBNETWORK_ID_COINBASE 0 payload).
Proof using Hmerge Hminer Hparams.
  destruct coinbase_outputs_ok as [Hall Hlen]. destruct Hparams as [_ _ Hspk Hl Hi Ho].
  assert (Hcb : is_coinbase (tx_new TX_VERSION [] coinbase_outputs 0 Subnets.SUBNETWORK_ID_COINBASE 0 payload) = true) by done.
  split; cbn [tx_inputs tx_outputs tx_gas tx_payload tx_version tx_new tx_finalize]; try done; try congruence.
  - lia.
  - eapply Forall_impl; [exact Hall|]. cbn beta. intros o [_ ?]. lia.
  - intros _. split_and!; [done|done|]. eapply Forall_impl; [exact Hall|]. cbn beta. intros o [_ ?]. by rewrite Hspk.
  - split; [eapply Forall_impl; [exact Hall|]; cbn beta; naive_solver|]. rewrite coinbase_outputs_sum. apply Hmerge.
  - constructor.
Qed.

Lemma expected_ok daa : 0 ≤ daa ≤ u64_max →
  ∃ payload, serialize_coinbase_payload self (mkCoinbaseData (blue_score gd) (subsidy_at self daa) miner) = Ok payload ∧
    expected_coinbase_transaction self daa miner gd rewards non_daa =
    Ok (mkCoinbaseTemplate (tx_new TX_VERSION [] coinbase_outputs 0 Subnets.SUBNETWORK_ID_COINBASE 0 payload) (0 <? red_reward)).
Proof using Hmerge Hminer Hparams.
  intros Hd. destruct paid_rewards_ok as [Hb Hr]. destruct sums_bound as (? & ? & ? & ?).
  eexists. split; [by apply serialize_ok|]. unfold expected_coinbase_transaction. fold paid_blues paid_reds.
  rewrite blue_outputs_ok by done. cbn [mbind outcome_bind app]. unfold red_reward in *. rewrite red_total_ok by (done || lia).
  cbn [mbind outcome_bind]. rewrite calc_block_subsidy_ok by (done || apply Hparams). cbn [mbind outcome_bind].
  rewrite serialize_ok by done. cbn [mbind outcome_bind]. rewrite Z.add_0_l. unfold coinbase_outputs, red_reward.
  destruct (0 <? zsum (reward_of rewards <$> paid_reds)); [done|]. by rewrite app_nil_r.
Qed.
End expected.

(** ** Properties *)

(** The payload of a coinbase: data within the limits is serialised to bytes that
    parse back to it; replacing the miner part of a payload gives the payload with the
    new miner data; parsing arbitrary bytes never panics, and what it accepts is exactly
    what serialising the parsed data gives. *)
Theorem coinbase_payload_roundtrip (self : CoinbaseManager) (d : CoinbaseData) (m : MinerData) (bytes : list N) :
  0 ≤ cm_coinbase_payload_script_public_key_max_len self ≤ 255 → payload_fits self d → Hashes.bytes_ok bytes →
  (∃ p, serialize_coinbase_payload self d = Ok p ∧ deserialize_coinbase_payload self p = Ok d ∧
     modify_coinbase_payload self p m =
     serialize_coinbase_payload self (mkCoinbaseData (cd_blue_score d) (cd_subsidy d) m)) ∧
  match deserialize_coinbase_payload self bytes with
  | Ok d' => payload_fits self d' ∧ serialize_coinbase_payload self d' = Ok bytes
  | Err _ => True
  | _ => False
  end.
Proof.
  intros Hmax Hd Hb. split; [|by apply deserialize_total].
  eexists. split; [by apply serialize_ok, Hd|]. split; [by apply roundtrip_parse|].
  apply (modify_ok self d). by apply serialize_ok, Hd.
Qed.

(** C27: The emission of the main network: the subsidy is defined for every DAA score,
    and the sum of the subsidies of any number of scores stays below the supply limit
    [MAX_SOMPI] that the validation of outputs relies on. *)
Theorem mainnet_emission_bounded (n : Z) :
  (∀ E daa, 0 ≤ daa ≤ u64_max → calc_block_subsidy (E:=E) mainnet_coinbase daa = Ok (subsidy_at mainnet_coinbase daa)) ∧
  zsum (subsidy_at mainnet_coinbase <$> seqZ 0 n) ≤ total_emission mainnet_coinbase ∧
  total_emission mainnet_coinbase < MAX_SOMPI.
Proof.
  assert (Hs : 0 ≤ cm_deflationary_phase_daa_score mainnet_coinbase ≤ u64_max) by (by vm_compute).
  split; [intros; by apply calc_block_subsidy_ok|]. split; [|by vm_compute].
  destruct (Z_le_gt_dec 0 n).
  - apply emission_bound; [done|by vm_compute|done].
  - rewrite seqZ_nil by lia. by vm_compute.
Qed.

(** The expected coinbase: with the rewards of the merged blocks known and within the
    supply, building it succeeds; it is valid in isolation (in particular within the
    [k + 2] outputs), pays exactly the rewards of the merged blocks inside the DAA
    window, each blue block to its own script and the reds to the merging miner, and its
    payload reads back as the score, the subsidy of the DAA score and the miner data. *)
Theorem expected_coinbase_correct `{Hashers} (self : CoinbaseManager) (tv : TransactionValidator)
    (rewards : gmap Hash BlockRewardData) (non_daa : gset Hash) (gd : GhostdagData) (miner : MinerData) (daa : Z) :
  same_params self tv → mergeset_ok self tv rewards non_daa gd → 0 ≤ daa ≤ u64_max →
  payload_fits self (mkCoinbaseData (blue_score gd) (subsidy_at self daa) miner) →
  ∃ template, expected_coinbase_transaction self daa miner gd rewards non_daa = Ok template ∧
    validate_tx_in_isolation tv (ct_tx template) = Ok tt ∧
    tx_outputs (ct_tx template) = coinbase_outputs rewards non_daa gd miner ∧
    zsum (out_value <$> tx_outputs (ct_tx template)) =
      zsum (reward_of rewards <$> in_daa non_daa (mergeset_blues gd) ++ in_daa non_daa (mergeset_reds gd)) ∧
    deserialize_coinbase_payload self (tx_payload (ct_tx template)) =
      Ok (mkCoinbaseData (blue_score gd) (subsidy_at self daa) miner) ∧
    ct_has_red_reward template = bool_decide (0 < red_reward rewards non_daa gd).
Proof.
  intros Hp Hm Hd Hf. pose proof (pf_script _ _ Hf) as Hminer. cbn in Hminer.
  destruct (expected_ok self tv rewards non_daa gd miner Hp Hm Hminer daa Hd) as (payload & Hser & Hex).
  eexists. split; [exact Hex|]. cbn [ct_tx ct_has_red_reward].
  pose proof (expected_isolated self tv rewards non_daa gd miner Hp Hm Hminer payload) as Hiso. split_and!.
  - apply (decides_ok _ _ (validate_decides tv _ ltac:(eapply Forall_impl; [apply (iso_values _ _ Hiso)|cbn; lia]))). done.
  - done.
  - by apply (coinbase_outputs_sum self tv).
  - rewrite serialize_ok in Hser by done. injection Hser as <-. apply (roundtrip_parse self (sp_u8 _ _ Hp) _ Hf).
  - destruct (Z.ltb_spec 0 (red_reward rewards non_daa gd)); by case_bool_decide; lia || done.
Qed.

(** ** Examples *)

Definition ex_miner : MinerData := mkMiner (mkSpk 0 [32; 1; 172]%N) [107; 97]%N.
Definition ex_data : CoinbaseData := mkCoinbaseData 345 44000000000 ex_miner.
Definition ex_garbage : list N := [1; 2; 3]%N ++ replicate 20 9%N.

Lemma coinbase_payload_roundtrip_witness :
  (∃ p, serialize_coinbase_payload mainnet_coinbase ex_data = Ok p ∧
     deserialize_coinbase_payload mainnet_coinbase p = Ok ex_data ∧
     modify_coinbase_payload mainnet_coinbase p (mkMiner (mkSpk 1 [5%N]) []) =
     serialize_coinbase_payload mainnet_coinbase (mkCoinbaseData 345 44000000000 (mkMiner (mkSpk 1 [5%N]) []))) ∧
  match deserialize_coinbase_payload mainnet_coinbase ex_garbage with
  | Ok d' => payload_fits mainnet_coinbase d' ∧ serialize_coinbase_payload mainnet_coinbase d' = Ok ex_garbage
  | Err _ => True
  | _ => False
  end.
Proof.
  apply (coinbase_payload_roundtrip mainnet_coinbase ex_data (mkMiner (mkSpk 1 [5%N]) []) ex_garbage).
  - by vm_compute.
  - split; by vm_compute.
  - by apply (bool_decide_unpack _); vm_compute.
Defined.

Definition ex_rewards : gmap Hash BlockRewardData :=
  <[3%N := mkReward 44000000000 7 (mkSpk 0 [1%N])]> (<[4%N := mkReward 0 0 (mkSpk 0 [2%N])]>
  (<[5%N := mkReward 44000000000 0 (mkSpk 0 [3%N])]> (<[6%N := mkReward 44000000000 1 (mkSpk 0 [4%N])]> ∅))).
Definition ex_merging : GhostdagData := mkGhostdagData 345 1000 3%N [3%N; 4%N; 6%N] [5%N] ∅.

Lemma expected_coinbase_correct_witness :
  ∃ template, @expected_coinbase_transaction mainnet_coinbase sum_digest 16000000 ex_miner ex_merging ex_rewards {[6%N]} = Ok template ∧
    validate_tx_in_isolation mainnet_validator (ct_tx template) = Ok tt ∧
    tx_outputs (ct_tx template) = coinbase_outputs ex_rewards {[6%N]} ex_merging ex_miner ∧
    zsum (out_value <$> tx_outputs (ct_tx template)) =
      zsum (reward_of ex_rewards <$> in_daa {[6%N]} (mergeset_blues ex_merging) ++ in_daa {[6%N]} (mergeset_reds ex_merging)) ∧
    deserialize_coinbase_payload mainnet_coinbase (tx_payload (ct_tx template)) =
      Ok (mkCoinbaseData (blue_score ex_merging) (subsidy_at mainnet_coinbase 16000000) ex_miner) ∧
    ct_has_red_reward template = bool_decide (0 < red_reward ex_rewards {[6%N]} ex_merging).
Proof.
  refine (@expected_coinbase_correct sum_digest mainnet_coinbase mainnet_validator ex_rewards {[6%N]} ex_merging ex_miner 16000000 _ _ _ _).
  - split; by vm_compute.
  - split.
    + by vm_compute.
    + apply (bool_decide_unpack _). by vm_compute.
    + apply (bool_decide_unpack (map_Forall (λ _ r, 0 ≤ rw_subsidy r ∧ 0 ≤ rw_total_fees r) ex_rewards)). by vm_compute.
    + apply (bool_decide_unpack (map_Forall (λ _ r, zlen (spk_script (rw_script_public_key r)) ≤
        cm_coinbase_payload_script_public_key_max_len mainnet_coinbase) ex_rewards)). by vm_compute.
    + by vm_compute.
  - by vm_compute.
  - split; by vm_compute.
Defined.
