(* ===== verification/BodyProcessor.v ===== *)
(** * The body processor

    [consensus/src/pipeline/body_processor/]: validation of the transactions of a block
    in isolation and in the context of its header, and the commit of a valid body; with
    the store of transactions ([model/stores/block_transactions.rs]).

    The processor shares the stores of the header processor and adds the transactions
    and the body tips.  The managers are built from the parameters as
    [consensus/src/consensus/mod.rs] does. *)

From S2P Require Import Prelude Hash Interval Uint Target ReachStore Reachability ReachMain ReachService Relations Headers GhostdagStore Ghostdag Window Difficulty Stores Depth Parents Errors HeaderProcessor Tx Utxo Hashing Merkle Database TxValidator Coinbase.

(** ** The store of transactions *)

Record DbBlockTransactionsStore : Type := mkBlockTransactions { bt_access : gmap Hash (list Transaction) }.

Definition get_transactions (s : DbBlockTransactionsStore) (hash : Hash) : outcome StoreError (list Transaction) :=
  read_access BLOCK_TRANSACTIONS_PREFIX (bt_access s) hash.
Definition insert_transactions (hash : Hash) (transactions : list Transaction) :
    M DbBlockTransactionsStore StoreError unit := λ s,
  let '(o, m) := insert_new hash transactions (bt_access s) in (o, mkBlockTransactions m).

(** ** The processor *)

Record BlockBodyProcessor : Type := mkBodyProcessor {
  bp_stores : HeaderProcessor;
  bp_block_transactions_store : DbBlockTransactionsStore;
  bp_body_tips_store : DbTipsStore;
}.

Definition coinbase_manager_of (params : Params) : CoinbaseManager :=
  mkCoinbaseManager (p_coinbase_payload_script_public_key_max_len params) (p_max_coinbase_payload_len params)
    (p_deflationary_phase_daa_score params) (p_pre_deflationary_phase_base_subsidy params).
Definition mass_calculator_of (params : Params) : MassCalculator :=
  mkMass (p_mass_per_tx_byte params) (p_mass_per_script_pub_key_byte params) (p_mass_per_sig_op params).
Definition transaction_validator_of (params : Params) : TransactionValidator :=
  mkValidator (p_max_tx_inputs params) (p_max_tx_outputs params) (p_max_signature_script_len params)
    (p_max_script_public_key_len params) (p_ghostdag_k params) (p_coinbase_payload_script_public_key_max_len params)
    (p_coinbase_maturity params).

Abbreviation BlockResult := (outcome RuleError).

(** [block.transactions[0]]. *)
Definition first_transaction (block : Block) : BlockResult Transaction := unwrap_opt (blk_transactions block !! 0%nat).

Section validation.
Context `{Hashers} (fuel : nat) (self : BlockBodyProcessor).
Local Abbreviation params := (hp_params (bp_stores self)).

(** *** [body_validation_in_isolation.rs] *)

Definition check_has_transactions (block : Block) : BlockResult unit :=
  if bool_decide (blk_transactions block = []) then Err NoTransactions else Ok tt.

Definition check_hash_merkle_root (block : Block) : BlockResult unit :=
  calculated ← calc_hash_merkle_root (blk_transactions block);
  if bool_decide (calculated = h_hash_merkle_root (blk_header block)) then Ok tt
  else Err (BadMerkleRoot (h_hash_merkle_root (blk_header block)) calculated).

Definition check_only_one_coinbase (block : Block) : BlockResult unit :=
  first ← first_transaction block;
  if negb (is_coinbase first) then Err FirstTxNotCoinbase
  else match position is_coinbase (tail (blk_transactions block)) with
       | Some i => Err (MultipleCoinbases (Z.of_nat i))
       | None => Ok tt
       end.

(** [if let Err(e) = check(tx) { return Err(wrap(tx.id(), e)) }] for each transaction. *)
Definition check_each (wrap : Hash → TxRuleError → RuleError) (check : Transaction → TxResult unit)
    (txs : list Transaction) : BlockResult unit :=
  ofold (λ _ tx, match check tx with
                 | Ok _ => Ok tt
                 | Err e => Err (wrap (tx_id tx) e)
                 | Panic => Panic
                 | Fuel => Fuel
                 end) tt txs.

Definition check_transactions_in_isolation (block : Block) : BlockResult unit :=
  check_each TxInIsolationValidationFailed (validate_tx_in_isolation (transaction_validator_of params))
    (blk_transactions block).

Definition check_block_mass (block : Block) : BlockResult unit :=
  ofold (λ total_mass tx,
    mass ← calc_tx_mass (mass_calculator_of params) tx;
    total_mass ← add64 total_mass mass;
    if p_max_block_mass params <? total_mass then Err (ExceedsMassLimit (p_max_block_mass params)) else Ok total_mass)
    0 (blk_transactions block);;
  Ok tt.

(** [transactions.iter().flat_map(|tx| &tx.inputs)]. *)
Definition block_inputs (block : Block) : list TransactionInput := blk_transactions block ≫= tx_inputs.

Definition check_block_double_spends (block : Block) : BlockResult unit :=
  match first_duplicate ∅ (in_previous_outpoint <$> block_inputs block) with
  | Some outpoint => Err (DoubleSpendInSameBlock outpoint)
  | None => Ok tt
  end.

(** The outpoints of the outputs of a transaction; [index as u32] truncates. *)
Definition created_outpoints (tx : Transaction) : list TransactionOutpoint :=
  (λ index, mkOutpoint (tx_id tx) (Z.of_nat index mod 2 ^ 32)) <$> seq 0 (length (tx_outputs tx)).

Definition check_no_chained_transactions (block : Block) : BlockResult unit :=
  let block_created_outpoints : gset TransactionOutpoint :=
    list_to_set (blk_transactions block ≫= created_outpoints) in
  ofold (λ _ input,
    if bool_decide (in_previous_outpoint input ∈ block_created_outpoints)
    then Err (ChainedTransaction (in_previous_outpoint input)) else Ok tt) tt (block_inputs block).

Definition check_duplicate_transactions (block : Block) : BlockResult unit :=
  match first_duplicate ∅ (tx_id <$> blk_transactions block) with
  | Some id => Err (DuplicateTransactions id)
  | None => Ok tt
  end.

Definition validate_body_in_isolation (block : Block) : BlockResult unit :=
  check_has_transactions block;;
  check_hash_merkle_root block;;
  check_only_one_coinbase block;;
  check_transactions_in_isolation block;;
  check_block_mass block;;
  check_duplicate_transactions block;;
  check_block_double_spends block;;
  check_no_chained_transactions block.

(** *** [body_validation_in_context.rs] *)

(** The code leaves this check for later. *)
Definition check_block_is_not_pruned (_ : Block) : BlockResult unit := Ok tt.

Definition check_block_transactions_in_context (block : Block) : BlockResult unit :=
  data ← unwrap (get_gd_data (hp_ghostdag_store (bp_stores self)) (block_hash block));
  '(pmt, _) ← calc_past_median_time fuel (hp_median_manager (bp_stores self)) data;
  check_each TxInContextFailed (λ tx, utxo_free_tx_validation tx (h_daa_score (blk_header block)) pmt)
    (blk_transactions block).

(** The parents without a body. *)
Definition add_missing (missing : list Hash) (parent : Hash) : BlockResult (list Hash) :=
  status_option ← unwrap_store_option (get_status (hp_statuses_store (bp_stores self)) parent);
  match status_option with
  | Some status => if has_block_body status then mret missing else mret (missing ++ [parent])
  | None => mret (missing ++ [parent])
  end.
Definition missing_bodies (parents : list Hash) : BlockResult (list Hash) := ofold add_missing [] parents.

Definition check_parent_bodies_exist (block : Block) : BlockResult unit :=
  parents ← direct_parents (blk_header block);
  if bool_decide (parents = [p_genesis_hash params]) then Ok tt
  else
    missing ← missing_bodies parents;
    if bool_decide (missing = []) then Ok tt else Err (MissingParents missing).

Definition check_coinbase_blue_score_and_subsidy (block : Block) : BlockResult unit :=
  first ← first_transaction block;
  match deserialize_coinbase_payload (coinbase_manager_of params) (tx_payload first) with
  | Ok data =>
      if negb (cd_blue_score data =? h_blue_score (blk_header block))
      then Err (BadCoinbasePayloadBlueScore (cd_blue_score data) (h_blue_score (blk_header block)))
      else
        expected_subsidy ← calc_block_subsidy (coinbase_manager_of params) (h_daa_score (blk_header block));
        if negb (cd_subsidy data =? expected_subsidy) then Err (WrongSubsidy expected_subsidy (cd_subsidy data))
        else Ok tt
  | Err e => Err (BadCoinbasePayload e)
  | Panic => Panic
  | Fuel => Fuel
  end.

Definition validate_body_in_context (block : Block) : BlockResult unit :=
  check_parent_bodies_exist block;;
  check_coinbase_blue_score_and_subsidy block;;
  check_block_transactions_in_context block;;
  check_block_is_not_pruned block.

Definition validate_body (block : Block) : BlockResult unit :=
  validate_body_in_isolation block;;
  validate_body_in_context block.
End validation.

(** *** [processor.rs] *)

Abbreviation BM := (M BlockBodyProcessor RuleError).

(** A write to one of the stores; an error is unwrapped. *)
Definition on_body_field {S A} (view : BlockBodyProcessor → S) (update : S → BlockBodyProcessor → BlockBodyProcessor)
    (m : M S StoreError A) : BM A := λ s,
  let '(o, x) := m (view s) in (unwrap o, update x s).
Definition set_block_transactions x (s : BlockBodyProcessor) : BlockBodyProcessor :=
  mkBodyProcessor (bp_stores s) x (bp_body_tips_store s).
Definition set_body_tips x (s : BlockBodyProcessor) : BlockBodyProcessor :=
  mkBodyProcessor (bp_stores s) (bp_block_transactions_store s) x.
Definition bp_statuses_store (s : BlockBodyProcessor) : DbStatusesStore := hp_statuses_store (bp_stores s).
Definition set_body_statuses x (s : BlockBodyProcessor) : BlockBodyProcessor :=
  mkBodyProcessor (set_statuses x (bp_stores s)) (bp_block_transactions_store s) (bp_body_tips_store s).

Definition commit_body (hash : Hash) (parents : list Hash) (transactions : list Transaction) : BM unit :=
  on_body_field bp_block_transactions_store set_block_transactions (insert_transactions hash transactions);;
  on_body_field bp_body_tips_store set_body_tips (add_tip hash parents);;
  on_body_field bp_statuses_store set_body_statuses (set_status hash StatusUTXOPendingVerification).

(** The errors after which the block may still become valid. *)
Definition is_retryable (e : RuleError) : bool :=
  match e with BadMerkleRoot _ _ | MissingParents _ => true | _ => false end.

Definition process_block_body `{Hashers} (fuel : nat) (block : Block) : BM BlockStatus :=
  self ← get;
  status ← lift (unwrap (get_status (bp_statuses_store self) (block_hash block)));
  match status with
  | StatusInvalid => fail KnownInvalid
  | StatusHeaderOnly =>
      match validate_body fuel self block with
      | Ok _ =>
          parents ← lift (direct_parents (blk_header block));
          commit_body (block_hash block) parents (blk_transactions block);;
          mret StatusUTXOPendingVerification
      | Err e =>
          (if is_retryable e then mret tt
           else on_body_field bp_statuses_store set_body_statuses (set_status (block_hash block) StatusInvalid));;
          fail e
      | Panic => lift Panic
      | Fuel => lift Fuel
      end
  | _ => if has_block_body status then mret status else lift Panic
  end.

(** The coinbase payload of the genesis: blue score, subsidy, script version, script
    length, script, "kaspa-devnet". *)
Definition genesis_coinbase_payload : list N :=
  [0; 0; 0; 0; 0; 0; 0; 0; 0; 225; 245; 5; 0; 0; 0; 0; 0; 0; 1; 0;
   107; 97; 115; 112; 97; 45; 100; 101; 118; 110; 101; 116]%N.
Definition genesis_coinbase `{Hashers} : Transaction :=
  tx_new TX_VERSION [] [] 0 Subnets.SUBNETWORK_ID_COINBASE 0 genesis_coinbase_payload.

Definition process_genesis_body_if_needed `{Hashers} : BM unit :=
  self ← get;
  let genesis := p_genesis_hash (hp_params (bp_stores self)) in
  status ← lift (unwrap (get_status (bp_statuses_store self) genesis));
  match status with
  | StatusHeaderOnly =>
      on_body_field bp_body_tips_store set_body_tips (init_tips []);;
      commit_body genesis [] [genesis_coinbase]
  | _ => if has_block_body status then mret tt else lift Panic
  end.
