(* ===== verification/BodyProof.v ===== *)
(** * Validation of bodies

    What a body must satisfy, in isolation and in the context of its header, and that
    the validation accepts exactly the bodies that do, without a panic. *)

From S2P Require Import Prelude Hash Uint Target Interval ReachStore Reachability ReachSim ReachTree ReachQuery ReachDag ReachMain ReachService Relations Headers GhostdagStore Ghostdag GhostdagInv GhostdagMerge GhostdagColor GhostdagRun Window WindowProof Difficulty DifficultyProof Stores Depth SelectedChain DepthProof Parents ParentsProof Errors HeaderProcessor HeaderInv HeaderValidate HeaderCommit HeaderRun HeaderMain Tx Utxo Hashing Merkle Database TxValidator TxValidatorProof Coinbase CoinbaseProof BodyProcessor.

(** ** The rules *)

(** The limits fit together, so that sums of masses do not overflow and indices of
    outputs fit 32 bits. *)
Record body_params_ok (p : Params) : Prop := {
  bpo_mass : mass_params_ok (transaction_validator_of p) (mass_calculator_of p);
  bpo_sig : 0 ≤ p_max_signature_script_len p;
  bpo_spk : 0 ≤ p_max_script_public_key_len p;
  bpo_block_mass : 0 ≤ p_max_block_mass p;
  bpo_total : p_max_block_mass p + mass_limit (transaction_validator_of p) (mass_calculator_of p) ≤ u64_max;
  bpo_outputs : p_max_tx_outputs p ≤ 2 ^ 32;
  bpo_script : 0 ≤ p_coinbase_payload_script_public_key_max_len p ≤ 255;
  bpo_deflation : 0 ≤ p_deflationary_phase_daa_score p ≤ u64_max;
}.

(** The fields of a transaction have the ranges of their types. *)
Record tx_typed (tx : Transaction) : Prop := {
  tt_values : Forall (λ o, 0 ≤ out_value o) (tx_outputs tx);
  tt_ops : Forall (λ i, 0 ≤ in_sig_op_count i ≤ 255) (tx_inputs tx);
  tt_sequences : Forall (λ i, 0 ≤ in_sequence i < 2 ^ 64) (tx_inputs tx);
  tt_payload : Hashes.bytes_ok (tx_payload tx);
}.

Definition block_tx_mass (p : Params) (tx : Transaction) : Z :=
  if is_coinbase tx then 0 else tx_mass (mass_calculator_of p) tx.

Record body_isolated `{Hashers} (p : Params) (b : Block) : Prop := {
  bi_merkle : merkle_root (tx_hash <$> blk_transactions b) = h_hash_merkle_root (blk_header b);
  bi_coinbase : ∃ cb rest, blk_transactions b = cb :: rest ∧ is_coinbase cb = true ∧ Forall (λ tx, is_coinbase tx = false) rest;
  bi_txs : Forall (isolated (transaction_validator_of p)) (blk_transactions b);
  bi_mass : zsum (block_tx_mass p <$> blk_transactions b) ≤ p_max_block_mass p;
  bi_ids : NoDup (tx_id <$> blk_transactions b);
  bi_spends : NoDup (in_previous_outpoint <$> block_inputs b);
  bi_unchained : ∀ tx tx' input i, tx ∈ blk_transactions b → tx' ∈ blk_transactions b → input ∈ tx_inputs tx →
    (i < length (tx_outputs tx'))%nat → in_previous_outpoint input ≠ mkOutpoint (tx_id tx') (Z.of_nat i);
}.

(** The lock time of a transaction has passed, or no input respects it. *)
Definition final_tx (daa time : Z) (tx : Transaction) : Prop :=
  tx_lock_time tx = 0 ∨ tx_lock_time tx < (if tx_lock_time tx <? LOCK_TIME_THRESHOLD then daa else time)
  ∨ Forall (λ i, in_sequence i = u64_max) (tx_inputs tx).

Definition has_body (s : HeaderProcessor) (h : Hash) : Prop :=
  ∃ st, statuses_access (hp_statuses_store s) !! h = Some st ∧ has_block_body st = true.

(** The past median time of a block with parents [ps]. *)
Definition past_median (s : HeaderProcessor) (P : Dag) (ps : list Hash) (t : Z) : Prop :=
  ∃ w, top (Z.to_nat (2 * p_timestamp_deviation_tolerance (hp_params s) - 1))
         (window_of P (hp_data s) (p_genesis_hash (hp_params s)) ps) w
    ∧ t = median_of (p_genesis_timestamp (hp_params s)) ((header_time s ∘ sb_hash) <$> w).

(** The payload of the coinbase declares the score of the header and the subsidy due. *)
Definition payload_ok (p : Params) (header : Header) (txs : list Transaction) : Prop := ∃ cb rest data, txs = cb :: rest
  ∧ deserialize_coinbase_payload (coinbase_manager_of p) (tx_payload cb) = Ok data
  ∧ cd_blue_score data = h_blue_score header
  ∧ cd_subsidy data = subsidy_at (coinbase_manager_of p) (h_daa_score header).

Record body_in_context (s : HeaderProcessor) (P : Dag) (b : Block) (ps : list Hash) : Prop := {
  bc_parents : ∀ q, q ∈ ps → has_body s q;
  bc_payload : payload_ok (hp_params s) (blk_header b) (blk_transactions b);
  bc_final : ∃ t, past_median s P ps t ∧ Forall (final_tx (h_daa_score (blk_header b)) t) (blk_transactions b);
}.

(** ** Generic checks *)

Lemma check_each_decides (wrap : Hash → TxRuleError → RuleError) check (R : Transaction → Prop) txs :
  (∀ tx, tx ∈ txs → decides (check tx) (R tx)) → decides (check_each wrap check txs) (Forall R txs).
Proof.
  unfold check_each, decides. induction txs as [|tx txs IH]; intros Hc; cbn [ofold]; [by constructor|].
  pose proof (Hc tx ltac:(left)) as Htx. destruct (check tx) as [[]|e| |]; cbn; [|by rewrite Forall_cons; tauto|done|done].
  specialize (IH ltac:(intros; apply Hc; by right)). destruct (ofold _ tt txs) as [[]|e| |]; cbn; [by constructor| |done|done].
  rewrite Forall_cons. tauto.
Qed.

Lemma first_duplicate_decides `{Countable A} {E} (l : list A) (e : A → E) :
  decides (match first_duplicate ∅ l with Some x => Err (e x) | None => Ok tt end) (NoDup l).
Proof.
  pose proof (first_duplicate_None ∅ l) as Hd. unfold decides. destruct (first_duplicate ∅ l) as [x|].
  - intros Hn. assert (Some x = None) as Hx; [|done]. apply Hd. set_solver.
  - apply Hd. done.
Qed.

Lemma ofold_forall_decides {A E} (bad : A → bool) (e : A → E) (l : list A) :
  decides (ofold (λ _ x, if bad x then Err (e x) else Ok tt) tt l) (Forall (λ x, bad x = false) l).
Proof.
  unfold decides. induction l as [|x l IH]; cbn [ofold]; [by constructor|].
  destruct (bad x) eqn:Hb; cbn; [intros [? _]%Forall_cons; congruence|].
  destruct (ofold _ tt l) as [[]|?| |]; [by constructor|by intros [_ ?]%Forall_cons|done|done].
Qed.

(** ** In isolation *)

Section isolation.
Context `{Hashers} (self : BlockBodyProcessor) (b : Block).
Local Abbreviation p := (hp_params (bp_stores self)).
Local Abbreviation txs := (blk_transactions b).
Context (HP : body_params_ok p) (HT : Forall tx_typed txs).

Lemma only_one_coinbase_decides : decides (check_only_one_coinbase b)
  (∃ cb rest, txs = cb :: rest ∧ is_coinbase cb = true ∧ Forall (λ tx, is_coinbase tx = false) rest) ∨ txs = [].
Proof using Type.
  clear HT.
  unfold check_only_one_coinbase, first_transaction. destruct txs as [|cb rest]; [by right|left]. cbn.
  destruct (is_coinbase cb) eqn:Hc; cbn.
  - eapply decides_iff; [|apply (position_decides is_coinbase (λ tx, is_coinbase tx = false)); done].
    split; [by intros; exists cb, rest|]. by intros (? & ? & [= <- <-] & _ & ?).
  - intros (? & ? & [= <- <-] & ? & _). congruence.
Qed.

Lemma merkle_decides : decides (check_hash_merkle_root b) (merkle_root (tx_hash <$> txs) = h_hash_merkle_root (blk_header b)).
Proof using Type.
  clear HT. unfold check_hash_merkle_root, calc_hash_merkle_root. rewrite calc_merkle_root_ok. cbn [mbind outcome_bind].
  by case_bool_decide.
Qed.

Lemma tx_mass_known tx : tx ∈ txs → isolated (transaction_validator_of p) tx →
  calc_tx_mass (E:=RuleError) (mass_calculator_of p) tx = Ok (block_tx_mass p tx)
  ∧ 0 ≤ block_tx_mass p tx ≤ mass_limit (transaction_validator_of p) (mass_calculator_of p).
Proof using HP HT.
  intros Hin Hiso. rewrite Forall_forall in HT. destruct (HT tx Hin) as [_ Hops _].
  pose proof (bpo_mass _ HP) as Hm. pose proof (bpo_sig _ HP). pose proof (bpo_spk _ HP).
  unfold block_tx_mass. destruct (is_coinbase tx) eqn:Hc.
  - unfold calc_tx_mass. rewrite Hc. split; [done|]. split; [done|].
    destruct (counts_nonneg _ _ Hiso). unfold mass_limit. cbn in *. destruct Hm as [M1 M2 M3 _]. cbn in *. nia.
  - split; [by apply (calc_tx_mass_ok (transaction_validator_of p))|]. by apply tx_mass_bound.
Qed.

Lemma block_mass_decides : Forall (isolated (transaction_validator_of p)) txs →
  decides (check_block_mass self b) (zsum (block_tx_mass p <$> txs) ≤ p_max_block_mass p).
Proof using HP HT.
  intros Hiso. unfold check_block_mass. pose proof (bpo_block_mass _ HP). pose proof (bpo_total _ HP).
  assert (∀ l acc, l ⊆ txs → 0 ≤ acc ≤ p_max_block_mass p → decides (ofold (λ total_mass tx,
    mass ← calc_tx_mass (mass_calculator_of p) tx;
    total_mass ← add64 total_mass mass;
    if p_max_block_mass p <? total_mass then Err (ExceedsMassLimit (p_max_block_mass p)) else Ok total_mass) acc l;; Ok tt)
    (acc + zsum (block_tx_mass p <$> l) ≤ p_max_block_mass p)) as Hgen; [|by apply (Hgen txs 0)].
  rewrite Forall_forall in Hiso. induction l as [|tx l IH]; intros acc Hl Hacc.
  { cbn. lia. }
  destruct (tx_mass_known tx) as [Hm Hb]; [by apply Hl; left|apply Hiso; by apply Hl; left|].
  rewrite fmap_cons, zsum_cons. cbn [ofold]. rewrite Hm. cbn [mbind outcome_bind]. rewrite add64_ok by lia.
  cbn [mbind outcome_bind]. assert (0 ≤ zsum (block_tx_mass p <$> l)).
  { apply zsum_nonneg, Forall_fmap, Forall_forall. intros x Hx. apply (tx_mass_known x); [by apply Hl; right|apply Hiso, Hl; by right]. }
  destruct (Z.ltb_spec (p_max_block_mass p) (acc + block_tx_mass p tx)) as [Hgt|Hle]; [cbn; lia|].
  eapply decides_iff; [|apply IH; [by intros x Hx; apply Hl; right|lia]]. lia.
Qed.

Lemma chained_decides : Forall (isolated (transaction_validator_of p)) txs → decides (check_no_chained_transactions b)
  (∀ tx tx' input i, tx ∈ txs → tx' ∈ txs → input ∈ tx_inputs tx → (i < length (tx_outputs tx'))%nat →
   in_previous_outpoint input ≠ mkOutpoint (tx_id tx') (Z.of_nat i)).
Proof using HP.
  intros Hiso. rewrite Forall_forall in Hiso. eapply decides_iff; [|apply ofold_forall_decides]. rewrite Forall_forall.
  assert (∀ o, o ∈ (list_to_set (txs ≫= created_outpoints) : gset TransactionOutpoint) ↔
    ∃ tx' i, tx' ∈ txs ∧ (i < length (tx_outputs tx'))%nat ∧ o = mkOutpoint (tx_id tx') (Z.of_nat i)) as Hset.
  { intros o. rewrite elem_of_list_to_set, list_elem_of_bind. unfold created_outpoints.
    assert (∀ tx' i, tx' ∈ txs → (i < length (tx_outputs tx'))%nat → Z.of_nat i mod 2 ^ 32 = Z.of_nat i) as Hmod.
    { intros tx' i Hin Hi. apply Z.mod_small. pose proof (iso_outputs_count _ _ (Hiso tx' Hin)) as Hc.
      unfold zlen in Hc. cbn in Hc. pose proof (bpo_outputs _ HP). lia. }
    split.
    - intros (tx' & (i & -> & Hi%elem_of_seq)%list_elem_of_fmap & Hin). exists tx', i.
      rewrite (Hmod tx' i Hin) by lia. split_and!; [done|lia|done].
    - intros (tx' & i & Hin & Hi & ->). exists tx'. split; [|done]. apply list_elem_of_fmap. exists i.
      rewrite (Hmod tx' i Hin Hi). split; [done|]. apply elem_of_seq. lia. }
  split.
  - intros Hall tx tx' input i Htx Htx' Hin Hi Heq. specialize (Hall input). rewrite bool_decide_eq_false in Hall.
    apply Hall; [|apply Hset; by exists tx', i]. apply list_elem_of_bind. by exists tx.
  - intros Hall input (tx & Hin & Htx)%list_elem_of_bind. apply bool_decide_eq_false. intros (tx' & i & Htx' & Hi & Heq)%Hset.
    exact (Hall tx tx' input i Htx Htx' Hin Hi Heq).
Qed.

Lemma isolation_decides : decides (validate_body_in_isolation self b) (body_isolated p b).
Proof using HP HT.
  unfold validate_body_in_isolation. eapply decides_iff; cycle 1.
  - apply (decides_seq _ _ (txs ≠ [])).
    { unfold check_has_transactions, decides. by case_bool_decide; [intros []|]. }
    intros Hne. apply decides_seq; [exact merkle_decides|intros _].
    apply decides_seq; [destruct only_one_coinbase_decides as [Hc|?]; [exact Hc|done]|intros _].
    apply decides_seq.
    { apply check_each_decides. intros tx Htx. apply validate_decides. rewrite Forall_forall in HT. by apply HT. }
    intros Hiso. apply decides_seq; [by apply block_mass_decides|intros _].
    apply decides_seq; [apply first_duplicate_decides|intros _].
    apply decides_seq; [apply first_duplicate_decides|intros _]. by apply chained_decides.
  - split; [by intros (? & ? & ? & ? & ? & ? & ? & ?)|]. intros [? Hc ? ? ? ? ?]. split_and!; try done.
    destruct Hc as (cb & rest & -> & _). done.
Qed.
End isolation.

(** ** In context *)

(** The header of the block is the stored one. *)
Definition known_header (s : HeaderProcessor) (b : Block) : Prop :=
  ∃ x, headers_access (hp_headers_store s) !! block_hash b = Some x ∧ lv_header x = blk_header b.

Lemma final_decides daa time tx : decides (utxo_free_tx_validation tx daa time) (final_tx daa time tx).
Proof.
  unfold utxo_free_tx_validation, check_tx_is_finalized, final_tx.
  destruct (Z.eqb_spec (tx_lock_time tx) 0) as [Hz|Hz]; [by left|].
  set (bound := if tx_lock_time tx <? LOCK_TIME_THRESHOLD then daa else time).
  destruct (Z.ltb_spec (tx_lock_time tx) bound) as [Hl|Hl]; [by right; left|].
  eapply decides_iff; [|apply (position_decides _ (λ i, in_sequence i = u64_max))].
  - split; [by right; right|]. intros [?|[?|?]]; [done|lia|done].
  - intros i. by rewrite negb_false_iff, Z.eqb_eq.
Qed.

Section context.
Context `{Hashers} (fuel : nat) (W : Z) (self : BlockBodyProcessor) (P : Dag) (b : Block) (ps : list Hash).
Local Abbreviation s := (bp_stores self).
Local Abbreviation p := (hp_params s).
Local Abbreviation txs := (blk_transactions b).
Context (HI : hp_inv W s P) (HP : body_params_ok p) (HT : Forall tx_typed txs).
Context (Hgen : has_body s (p_genesis_hash p)) (Hne : block_hash b ≠ p_genesis_hash p).
Context (Hps : P !! block_hash b = Some ps) (Hh : known_header s b).
Context (Hdaa : 0 ≤ h_daa_score (blk_header b) ≤ u64_max) (Hfuel : (size (hp_data s) < fuel)%nat).

Lemma direct_known {E} : direct_parents (E:=E) (blk_header b) = Ok ps.
Proof using HI Hne Hps Hh.
  destruct Hh as (x & Hx & <-). destruct (sh_parents _ _ _ _ _ _ (hi_header _ _ _ HI _ _ Hx) Hne) as (qs & Hqs & Hd).
  rewrite Hps in Hqs. apply (inj Some) in Hqs as <-. unfold direct_parents. by rewrite Hd.
Qed.

Lemma has_body_dec q : {has_body s q} + {¬ has_body s q}.
Proof using Type.
  clear HT HI HP Hgen Hne Hps Hh Hdaa Hfuel. unfold has_body.
  destruct (statuses_access (hp_statuses_store s) !! q) as [st|]; [|right; by intros (? & ? & _)].
  destruct (has_block_body st) eqn:Hb; [left; eauto|right; intros (? & [= <-] & ?); congruence].
Qed.

Lemma add_missing_ok missing q :
  add_missing self missing q = Ok (if has_body_dec q then missing else missing ++ [q]).
Proof using Type.
  clear HT HI HP Hgen Hne Hps Hh Hdaa Hfuel. unfold add_missing. cbn [get_status db_statuses_reader]. unfold read_access.
  destruct (has_body_dec q) as [(st & -> & Hb)|Hn]; cbn [unwrap_store_option mbind outcome_bind]; [by rewrite Hb|].
  unfold has_body in Hn. destruct (statuses_access (hp_statuses_store s) !! q) as [st|]; cbn; [|done].
  destruct (has_block_body st) eqn:Hb; [|done]. destruct Hn. eauto.
Qed.

Lemma missing_fold qs : ∀ acc, ∃ l, ofold (add_missing self) acc qs = Ok (acc ++ l) ∧ (l = [] ↔ ∀ q, q ∈ qs → has_body s q).
Proof using Type.
  clear HT HI HP Hgen Hne Hps Hh Hdaa Hfuel. induction qs as [|q qs IH]; intros acc; cbn [ofold].
  { exists []. rewrite app_nil_r. split; [done|]. set_solver. }
  rewrite add_missing_ok. cbn [mbind outcome_bind]. destruct (has_body_dec q) as [Hq|Hq].
  - destruct (IH acc) as (l & Hl & Hiff). exists l. split; [exact Hl|]. rewrite Hiff. set_solver.
  - destruct (IH (acc ++ [q])) as (l & Hl & _). exists (q :: l). rewrite Hl, <- app_assoc. split; [done|].
    split; [done|]. intros Hall. destruct Hq. apply Hall. by left.
Qed.

Lemma parent_bodies_decides : decides (check_parent_bodies_exist self b) (∀ q, q ∈ ps → has_body s q).
Proof using HI Hne Hps Hh Hgen.
  unfold check_parent_bodies_exist. rewrite direct_known. cbn [mbind outcome_bind]. case_bool_decide as Hg.
  { rewrite Hg. intros q ->%list_elem_of_singleton. exact Hgen. }
  unfold missing_bodies. destruct (missing_fold ps []) as (l & -> & Hl). cbn [mbind outcome_bind app].
  rewrite <- Hl. by case_bool_decide.
Qed.

Lemma payload_decides : txs ≠ [] → decides (check_coinbase_blue_score_and_subsidy self b)
  (∃ cb rest data, txs = cb :: rest ∧ deserialize_coinbase_payload (coinbase_manager_of p) (tx_payload cb) = Ok data
   ∧ cd_blue_score data = h_blue_score (blk_header b)
   ∧ cd_subsidy data = subsidy_at (coinbase_manager_of p) (h_daa_score (blk_header b))).
Proof using HP HT Hdaa.
  intros Htx. unfold check_coinbase_blue_score_and_subsidy, first_transaction.
  destruct txs as [|cb rest]; [done|]. cbn [lookup list_lookup unwrap_opt mbind outcome_bind].
  pose proof (deserialize_total (coinbase_manager_of p) (bpo_script _ HP) (tx_payload cb)
    (tt_payload _ (Forall_inv HT))) as Hd. unfold decides.
  destruct (deserialize_coinbase_payload (coinbase_manager_of p) (tx_payload cb)) as [data|e| |] eqn:Hde; [| |done|done].
  2:{ intros (? & ? & ? & [= <- <-] & ? & _). congruence. }
  destruct (Z.eqb_spec (cd_blue_score data) (h_blue_score (blk_header b))) as [Hb|Hb]; cbn [negb].
  2:{ intros (? & ? & ? & [= <- <-] & Hx & ? & _). congruence. }
  rewrite (calc_block_subsidy_ok (coinbase_manager_of p) (bpo_deflation _ HP)) by done. cbn [mbind outcome_bind].
  destruct (Z.eqb_spec (cd_subsidy data) (subsidy_at (coinbase_manager_of p) (h_daa_score (blk_header b)))) as [Hs|Hs]; cbn [negb].
  - by exists cb, rest, data.
  - intros (? & ? & ? & [= <- <-] & Hx & _ & ?). congruence.
Qed.

Lemma in_context_decides : decides (check_block_transactions_in_context fuel self b)
  (∃ t, past_median s P ps t ∧ Forall (final_tx (h_daa_score (blk_header b)) t) txs).
Proof using HI Hne Hps Hh Hfuel.
  unfold check_block_transactions_in_context. destruct Hh as (x & Hx & _).
  destruct (proj1 (hi_header_dom _ _ _ HI _) (ex_intro _ _ Hx)) as [d Hd].
  pose proof (gd_blocks _ _ _ _ (hi_dag _ _ _ HI) _ _ _ Hps Hd Hne) as HD.
  cbn [get_gd_data db_gd_reader]. unfold read_key. unfold hp_data in Hd. rewrite Hd. cbn [unwrap mbind outcome_bind].
  destruct (median_calculated fuel W s P HI ps d HD Hfuel) as (w & -> & Hw). cbn [mbind outcome_bind].
  eapply decides_iff; [|apply check_each_decides; intros tx _; apply final_decides]. split.
  - intros Hall. eexists. split; [by exists w|exact Hall].
  - intros (t & (w' & Hw' & ->) & Hall). by rewrite (median_perm _ _ _ (fmap_Permutation _ _ _ (top_unique _ _ _ _ Hw Hw'))).
Qed.

Lemma context_decides : txs ≠ [] → decides (validate_body_in_context fuel self b) (body_in_context s P b ps).
Proof using All.
  intros Htx. unfold validate_body_in_context. eapply decides_iff; cycle 1.
  - apply decides_seq; [exact parent_bodies_decides|intros _]. apply decides_seq; [by apply payload_decides|intros _].
    apply decides_seq; [exact in_context_decides|intros _]. by instantiate (1 := True).
  - split; [by intros (? & ? & ? & ?)|]. by intros [].
Qed.

Lemma validate_body_decides : decides (validate_body fuel self b) (body_isolated p b ∧ body_in_context s P b ps).
Proof using All.
  apply decides_seq; [by apply isolation_decides|]. intros Hiso. apply context_decides.
  by destruct (bi_coinbase _ _ Hiso) as (? & ? & -> & _).
Qed.
End context.

(** ** The body processor, composed

    [body_inv] extends the invariant of the header processor to the bodies: exactly the
    blocks whose status says so have stored transactions, these meet the rules in
    isolation, the blocks with bodies are closed under parents, and the body tips are
    the blocks with bodies that no block with a body builds on.  Processing a body keeps
    it, and so does any history of headers and bodies. *)

(** The blocks of a set that no block of the set builds on. *)
Definition tips_of (bodies : Hash → Prop) (P : Dag) (T : gset Hash) : Prop :=
  ∀ h, h ∈ T ↔ bodies h ∧ ∀ c ps, bodies c → P !! c = Some ps → h ∉ ps.

Record body_inv `{Hashers} (W : Z) (s : BlockBodyProcessor) (P : Dag) : Prop := {
  by_headers : hp_inv W (bp_stores s) P;
  by_params : body_params_ok (hp_params (bp_stores s));
  by_stored h : is_Some (bt_access (bp_block_transactions_store s) !! h) ↔ has_body (bp_stores s) h;
  by_genesis : has_body (bp_stores s) (p_genesis_hash (hp_params (bp_stores s)));
  by_closed h ps q : has_body (bp_stores s) h → P !! h = Some ps → q ∈ ps → q ≠ Hashes.ORIGIN → has_body (bp_stores s) q;
  by_tips : ∃ T, tips_access (bp_body_tips_store s) = Some T ∧ tips_of (has_body (bp_stores s)) P T;
  by_rules h txs : bt_access (bp_block_transactions_store s) !! h = Some txs →
    h ≠ p_genesis_hash (hp_params (bp_stores s)) →
    ∃ x, headers_access (hp_headers_store (bp_stores s)) !! h = Some x
      ∧ body_isolated (hp_params (bp_stores s)) (mkBlock (lv_header x) txs)
      ∧ payload_ok (hp_params (bp_stores s)) (lv_header x) txs ∧ Forall tx_typed txs;
  by_genesis_txs : bt_access (bp_block_transactions_store s) !! p_genesis_hash (hp_params (bp_stores s)) = Some [genesis_coinbase];
}.

(** What is assumed of a block: its header was processed, its fields have the ranges of
    their types. *)
Record body_ready (s : HeaderProcessor) (b : Block) : Prop := {
  br_header : known_header s b;
  br_txs : Forall tx_typed (blk_transactions b);
  br_daa : 0 ≤ h_daa_score (blk_header b) ≤ u64_max;
}.

(** ** Which blocks have bodies *)

Lemma has_body_set s h st x : has_body (with_status h st s) x ↔
  (x = h ∧ has_block_body st = true) ∨ (x ≠ h ∧ has_body s x).
Proof.
  unfold has_body. cbn. destruct (decide (x = h)) as [->|Hne].
  - rewrite lookup_insert_eq. naive_solver.
  - rewrite lookup_insert_ne by done. naive_solver.
Qed.

(** A change of status that neither adds nor removes a body. *)
Lemma same_bodies s h st : (has_block_body st = true ↔ has_body s h) → ∀ x, has_body (with_status h st s) x ↔ has_body s x.
Proof. intros Hst x. rewrite has_body_set. destruct (decide (x = h)) as [->|Hne]; [rewrite Hst|]; tauto. Qed.

Lemma update_tips_spec T ps n h : h ∈ update_tips T ps n ↔ h = n ∨ (h ∈ T ∧ h ∉ ps).
Proof.
  unfold update_tips. rewrite elem_of_union, elem_of_singleton.
  assert (h ∈ foldl (λ tips parent, tips ∖ {[parent]}) T ps ↔ h ∈ T ∧ h ∉ ps) as ->; [|done].
  revert T. induction ps as [|q ps IH]; intros T; cbn [foldl]; [set_solver|]. rewrite IH. set_solver.
Qed.

Lemma tips_ext B B' P P' T : (∀ x, B x ↔ B' x) → (∀ x, B x → P' !! x = P !! x) → tips_of B P T → tips_of B' P' T.
Proof.
  intros HB HP HT h. rewrite (HT h), HB. split; intros [Hh Hc]; (split; [done|]); intros c ps Hb Hps.
  - apply (Hc c); [by apply HB|]. by rewrite <- HP by by apply HB.
  - apply (Hc c); [by apply HB|]. by rewrite HP.
Qed.

(** A new block over blocks of the set replaces its parents among the tips. *)
Lemma tips_grow B B' P T n ps : tips_of B P T → (∀ x, B' x ↔ x = n ∨ B x) → P !! n = Some ps → n ∉ ps →
  (∀ c qs, B c → P !! c = Some qs → n ∉ qs) → tips_of B' P (update_tips T ps n).
Proof.
  intros HT HB Hps Hn Hchild h. rewrite update_tips_spec, HB, (HT h). split.
  - intros [->|[[Hh Hc] Hin]].
    + split; [by left|]. intros c qs [->|Hc]%HB Hqs; [congruence|by eapply Hchild].
    + split; [by right|]. intros c qs [->|Hb]%HB Hqs; [congruence|by eapply Hc].
  - intros [[->|Hh] Hc]; [by left|]. right. split_and!; [done| |].
    + intros c qs Hb. apply Hc. apply HB. by right.
    + apply (Hc n); [|done]. apply HB. by left.
Qed.

Section body.
Context `{Hashers} (W : Z) (s : BlockBodyProcessor) (P : Dag) (HB : body_inv W s P).
Local Abbreviation p := (hp_params (bp_stores s)).
Local Abbreviation g := (p_genesis_hash p).

(** The processor with the status of a block changed. *)
Definition body_with_status (h : Hash) (st : BlockStatus) : BlockBodyProcessor :=
  mkBodyProcessor (with_status h st (bp_stores s)) (bp_block_transactions_store s) (bp_body_tips_store s).

(** Changing a status without adding or removing a body. *)
Lemma body_status_inv h st : (st ≠ StatusInvalid → is_Some (hp_data (bp_stores s) !! h)) →
  (has_block_body st = true ↔ has_body (bp_stores s) h) → body_inv W (body_with_status h st) P.
Proof using HB.
  intros Hk Hst. pose proof (same_bodies _ _ _ Hst) as Hb. destruct HB as [H1 H2 H3 H4 H5 H6 H7 H8].
  split; cbn [bp_stores body_with_status bp_block_transactions_store bp_body_tips_store].
  - by apply status_inv.
  - done.
  - intros x. rewrite Hb. apply H3.
  - by apply Hb.
  - intros x ps q. rewrite !Hb. apply H5.
  - destruct H6 as (T & HT & HS). exists T. split; [done|]. eapply tips_ext; [|done|exact HS]. intros x. by rewrite Hb.
  - done.
  - done.
Qed.

(** Committing a valid body. *)
Lemma commit_body_ok b ps : body_ready (bp_stores s) b → block_hash b ≠ g → P !! block_hash b = Some ps →
  statuses_access (bp_statuses_store s) !! block_hash b = Some StatusHeaderOnly →
  body_isolated p b → payload_ok p (blk_header b) (blk_transactions b) → (∀ q, q ∈ ps → has_body (bp_stores s) q) →
  ∃ s', commit_body (block_hash b) ps (blk_transactions b) s = (Ok tt, s') ∧ body_inv W s' P
    ∧ bp_stores s' = with_status (block_hash b) StatusUTXOPendingVerification (bp_stores s)
    ∧ bt_access (bp_block_transactions_store s') = <[block_hash b := blk_transactions b]> (bt_access (bp_block_transactions_store s)).
Proof using HB.
  intros HR Hg Hps Hst Hiso Hpay Hbp. set (n := block_hash b). destruct HB as [B1 B2 B3 B4 B5 B6 B7 B8].
  assert (¬ has_body (bp_stores s) n) as Hnb.
  { intros (st & Hst' & Hb). unfold bp_statuses_store, n in *. rewrite Hst in Hst'. by injection Hst' as <-. }
  assert (bt_access (bp_block_transactions_store s) !! n = None) as Hnew.
  { destruct (bt_access (bp_block_transactions_store s) !! n) eqn:Ht; [|done]. destruct Hnb. apply B3. eauto. }
  destruct B6 as (T & HT & HS).
  unfold commit_body, mbind, M_bind, on_body_field, insert_transactions, insert_new. rewrite Hnew, bool_decide_eq_false_2 by by intros [].
  cbn [bp_body_tips_store set_block_transactions]. unfold add_tip. rewrite HT. cbn [read_item].
  eexists. split; [reflexivity|]. cbn [set_body_tips set_body_statuses set_block_transactions bp_stores bp_block_transactions_store
    bp_body_tips_store bp_statuses_store]. split; [|done].
  change (set_statuses _ (bp_stores s)) with (with_status n StatusUTXOPendingVerification (bp_stores s)).
  assert (∀ x, has_body (with_status n StatusUTXOPendingVerification (bp_stores s)) x ↔ x = n ∨ has_body (bp_stores s) x) as Hb.
  { intros x. rewrite has_body_set. cbn. destruct (decide (x = n)) as [->|]; tauto. }
  assert (is_Some (hp_data (bp_stores s) !! n)) as Hk by by apply (hi_valid _ _ _ B1 n StatusHeaderOnly).
  split; cbn [set_body_tips set_body_statuses set_block_transactions bp_stores bp_block_transactions_store bp_body_tips_store
    bt_access tips_access].
  - by apply status_inv.
  - done.
  - intros x. rewrite Hb, <- B3, lookup_insert_is_Some'. naive_solver.
  - apply Hb. by right.
  - intros x qs q. rewrite !Hb. intros [->|Hx] Hqs Hq Ho.
    + right. unfold n in Hqs. rewrite Hps in Hqs. injection Hqs as <-. by apply Hbp.
    + right. by eapply B5.
  - eexists. split; [reflexivity|]. eapply tips_grow; [exact HS|done|exact Hps|by intros Hin; apply Hnb, Hbp|].
    intros c qs Hc Hqs Hin. apply Hnb. eapply B5; [done..|]. intros Ho. rewrite Ho in Hk.
    rewrite (origin_unknown _ _ _ _ (hi_dag _ _ _ B1)) in Hk. by destruct Hk.
  - intros x txs [[<- <-]|[Hne Htx]]%lookup_insert_Some Hxg; [|by apply B7].
    destruct (br_header _ _ HR) as (y & Hy & Heq). exists y. split; [done|]. rewrite Heq. split_and!; [by destruct b|done|apply (br_txs _ _ HR)].
  - rewrite lookup_insert_ne; [done|]. exact Hg.
Qed.

(** [process_block_body] on a block whose header is known. *)
Lemma process_body_ok fuel b : body_ready (bp_stores s) b → (size (hp_data (bp_stores s)) < fuel)%nat →
  ∃ st, statuses_access (bp_statuses_store s) !! block_hash b = Some st ∧
  match process_block_body fuel b s with
  | (Ok st', s') =>
      (s' = s ∧ st' = st ∧ has_block_body st = true)
      ∨ (st = StatusHeaderOnly ∧ st' = StatusUTXOPendingVerification
         ∧ (∃ ps, P !! block_hash b = Some ps ∧ body_isolated p b ∧ body_in_context (bp_stores s) P b ps)
         ∧ body_inv W s' P ∧ bp_stores s' = with_status (block_hash b) StatusUTXOPendingVerification (bp_stores s)
         ∧ bt_access (bp_block_transactions_store s')
           = <[block_hash b := blk_transactions b]> (bt_access (bp_block_transactions_store s)))
  | (Err e, s') =>
      (s' = s ∧ st = StatusInvalid ∧ e = KnownInvalid)
      ∨ (st = StatusHeaderOnly
         ∧ (∀ ps, P !! block_hash b = Some ps → ¬ (body_isolated p b ∧ body_in_context (bp_stores s) P b ps))
         ∧ s' = (if is_retryable e then s else body_with_status (block_hash b) StatusInvalid) ∧ body_inv W s' P)
  | _ => False
  end.
Proof using HB.
  intros HR Hf. pose proof (by_headers _ _ _ HB) as HI. destruct (br_header _ _ HR) as (x & Hx & _).
  pose proof (proj1 (hi_header_dom _ _ _ HI _) (ex_intro _ _ Hx)) as Hk.
  destruct (hi_status _ _ _ HI _ Hk) as [st Hst]. exists st. split; [done|].
  unfold process_block_body, mbind, M_bind, get, lift. cbn [get_status db_statuses_reader]. unfold read_access, bp_statuses_store.
  rewrite Hst. cbn [unwrap].
  assert (st = StatusHeaderOnly → block_hash b ≠ g) as Hg.
  { intros -> Hg. destruct (by_genesis _ _ _ HB) as (st & Hst' & Hb). rewrite <- Hg, Hst in Hst'. by injection Hst' as <-. }
  destruct st; cbn [has_block_body]; [by left|by left..|]. specialize (Hg eq_refl).
  destruct (proj2 (proj1 (gd_dom _ _ _ _ (hi_dag _ _ _ HI) _) Hk)) as [ps Hps].
  pose proof (validate_body_decides fuel W s P b ps HI (by_params _ _ _ HB) (br_txs _ _ HR) (by_genesis _ _ _ HB) Hg Hps
    (br_header _ _ HR) (br_daa _ _ HR) Hf) as Hv. unfold decides in Hv.
  destruct (validate_body fuel s b) as [[]|e| |]; [| |done|done].
  - rewrite (direct_known W s P b ps HI Hg Hps (br_header _ _ HR)). destruct Hv as [Hiso Hctx].
    destruct (commit_body_ok b ps HR Hg Hps Hst Hiso (bc_payload _ _ _ _ Hctx) (bc_parents _ _ _ _ Hctx)) as (s' & -> & HB' & Hs' & Ht').
    right. split_and!; try done. by exists ps.
  - assert (∀ qs, P !! block_hash b = Some qs → ¬ (body_isolated p b ∧ body_in_context (bp_stores s) P b qs)) as Hno.
    { intros qs Hqs. rewrite Hps in Hqs. injection Hqs as <-. exact Hv. }
    destruct (is_retryable e) eqn:Hr; unfold on_body_field, set_status, modify, fail; cbn; rewrite Hr;
      right; (split_and!; [done|exact Hno|done|]); [done|].
    apply body_status_inv; [done|]. split; [done|]. intros (st & Hst' & Hb). rewrite Hst in Hst'. by injection Hst' as <-.
Qed.
End body.
