(* ===== verification/BodyTheorems.v ===== *)
(** * Properties of the pipeline of headers and bodies

    The genesis, the step of a header and the step of a body keep [body_inv]; histories
    of such steps as a step relation; a run on the parameters of the main network. *)

From S2P Require Import Prelude Hash Interval Uint Target ReachStore Reachability ReachSim ReachTree ReachQuery ReachDag ReachMain ReachService Relations Headers GhostdagStore Ghostdag GhostdagInv GhostdagMerge GhostdagColor GhostdagRun Window WindowProof Difficulty DifficultyProof Stores Depth SelectedChain DepthProof Parents ParentsProof Errors HeaderProcessor HeaderInv HeaderValidate HeaderCommit HeaderRun HeaderMain HeaderTheorems Tx Utxo Hashing HashingProof Merkle Database TxValidator TxValidatorProof Coinbase CoinbaseProof BodyProcessor BodyProof.

(** ** The genesis *)

(** The header processor has the genesis only, the body stores are empty. *)
Record fresh_bodies (W : Z) (s : BlockBodyProcessor) : Prop := {
  fb_headers : hp_inv W (bp_stores s) (genesis_dag (p_genesis_hash (hp_params (bp_stores s))));
  fb_status : statuses_access (bp_statuses_store s) = {[p_genesis_hash (hp_params (bp_stores s)) := StatusHeaderOnly]};
  fb_params : body_params_ok (hp_params (bp_stores s));
  fb_txs : bt_access (bp_block_transactions_store s) = ∅;
}.

Lemma genesis_body_ok `{Hashers} W s : fresh_bodies W s → ∃ s', process_genesis_body_if_needed s = (Ok tt, s')
  ∧ body_inv W s' (genesis_dag (p_genesis_hash (hp_params (bp_stores s))))
  ∧ process_genesis_body_if_needed s' = (Ok tt, s')
  ∧ bp_stores s' = with_status (p_genesis_hash (hp_params (bp_stores s))) StatusUTXOPendingVerification (bp_stores s).
Proof.
  intros [HI Hst Hp Ht]. set (g := p_genesis_hash (hp_params (bp_stores s))) in *.
  assert (g ≠ Hashes.ORIGIN) as Ho.
  { intros Ho. pose proof (gd_origin _ _ _ _ (hi_dag _ _ _ HI)) as Hd. fold g in Hd. rewrite <- Ho in Hd.
    unfold genesis_dag in Hd. by rewrite lookup_insert_eq in Hd. }
  unfold process_genesis_body_if_needed, commit_body, mbind, M_bind, get, lift. fold g. cbn [get_status db_statuses_reader].
  unfold read_access. rewrite Hst, lookup_singleton_eq. cbn [unwrap].
  unfold on_body_field, init_tips, insert_transactions, insert_new, modify.
  cbn [bp_block_transactions_store set_body_tips]. rewrite Ht, lookup_empty, bool_decide_eq_false_2 by by intros [].
  eexists. split; [reflexivity|]. cbn [set_body_tips set_body_statuses set_block_transactions bp_stores bp_block_transactions_store
    bp_body_tips_store bp_statuses_store]. fold g.
  change (set_statuses _ (bp_stores s)) with (with_status g StatusUTXOPendingVerification (bp_stores s)).
  assert (∀ x, has_body (with_status g StatusUTXOPendingVerification (bp_stores s)) x ↔ x = g) as Hb.
  { intros x. rewrite has_body_set. cbn. split; [|by left]. intros [[-> _]|[Hne (st & Hst' & _)]]; [done|].
    unfold bp_statuses_store in Hst. rewrite Hst, lookup_singleton_ne in Hst' by done. done. }
  split_and!; [|cbn; by rewrite lookup_insert_eq|done].
  split; cbn [set_body_tips set_body_statuses set_block_transactions bp_stores bp_block_transactions_store bp_body_tips_store
    bt_access tips_access].
  - apply status_inv; [done|]. intros _. apply (gd_dom _ _ _ _ (hi_dag _ _ _ HI)). fold g. split; [done|].
    unfold genesis_dag. rewrite lookup_insert_eq. eauto.
  - done.
  - intros x. rewrite Hb, lookup_insert_is_Some', lookup_empty, is_Some_alt. naive_solver.
  - by apply Hb.
  - intros x ps q ->%Hb Hps Hq Hqo. unfold genesis_dag in Hps. rewrite lookup_insert_eq in Hps. injection Hps as <-.
    by apply list_elem_of_singleton in Hq.
  - eexists. split; [reflexivity|]. intros x. rewrite update_tips_spec, Hb. split; [|intros [-> _]; by left].
    intros [->|[Hx _]]; [|set_solver]. split; [done|]. intros c ps ->%Hb Hps. unfold genesis_dag in Hps.
    rewrite lookup_insert_eq in Hps. injection Hps as <-. by intros ?%list_elem_of_singleton.
  - intros x txs [[<- _]|[_ Hx]]%lookup_insert_Some Hne; [done|]. by rewrite lookup_empty in Hx.
  - apply lookup_insert_eq.
Qed.

(** ** Steps *)

Definition with_stores (s : BlockBodyProcessor) (h : HeaderProcessor) : BlockBodyProcessor :=
  mkBodyProcessor h (bp_block_transactions_store s) (bp_body_tips_store s).

(** The DAG that the relations store describes. *)
Definition node_dag (s : BlockBodyProcessor) : Dag := DbRel.parents_access (hp_relations_store (bp_stores s)).

Lemma body_inv_dag `{Hashers} W s P : body_inv W s P → P = node_dag s.
Proof. intros HB. symmetry. apply (hi_parents _ _ _ (by_headers _ _ _ HB)). Qed.

(** A new header. *)
Lemma header_grows `{Hashers} W s P s' header ps : body_inv W s P →
  statuses_access (bp_statuses_store s) !! h_hash header = None → hp_inv W s' (<[h_hash header := ps]> P) →
  grown (bp_stores s) s' header → body_inv W (with_stores s s') (<[h_hash header := ps]> P).
Proof.
  intros [B1 B2 B3 B4 B5 B6 B7 B8] Hst HI [Gp [level Gh] Gs _ _ _ _]. set (n := h_hash header) in *. unfold bp_statuses_store in Hst.
  assert (∀ x, has_body (bp_stores s) x ↔ has_body s' x) as Hb.
  { intros x. unfold has_body. rewrite Gs. destruct (decide (x = n)) as [->|Hne]; [|by rewrite lookup_insert_ne].
    rewrite lookup_insert_eq, Hst. split; [by intros (? & ? & _)|by intros (? & [= <-] & ?)]. }
  assert (∀ x, has_body (bp_stores s) x → x ≠ n) as Hne.
  { intros x (st & Hx & _) ->. congruence. }
  split; cbn [with_stores bp_stores bp_block_transactions_store bp_body_tips_store]; rewrite ?Gp.
  - done.
  - done.
  - intros x. by rewrite <- Hb.
  - by apply Hb.
  - intros x qs q Hx%Hb. rewrite lookup_insert_ne by (by apply not_eq_sym, Hne). rewrite <- Hb. by apply B5.
  - destruct B6 as (T & HT & HS). exists T. split; [done|]. eapply tips_ext; [exact Hb| |exact HS].
    intros x Hx. by rewrite lookup_insert_ne by (by apply not_eq_sym, Hne).
  - intros x txs Hx Hg. rewrite Gh. destruct (B7 x txs Hx Hg) as (y & Hy & Hiso). exists y. split; [|done].
    rewrite lookup_insert_ne; [done|]. apply not_eq_sym, Hne, B3. eauto.
  - done.
Qed.

Section steps.
Context `{Hashers} (fuel : nat) (pow_hash : Header → Uint.Uint) (wcs : nat) (W : Z).

(** One call of the header processor that did not crash, or one call of the body
    processor, on inputs in range. *)
Inductive node_step : BlockBodyProcessor → BlockBodyProcessor → Prop :=
| node_header s rnd now header ps info o s' :
    processable fuel pow_hash now W (bp_stores s) (node_dag s) header ps info →
    process_header fuel pow_hash wcs rnd now header (bp_stores s) = (o, s') → o ≠ Panic →
    node_step s (with_stores s s')
| node_body s b o s' :
    body_ready (bp_stores s) b → (size (hp_data (bp_stores s)) < fuel)%nat →
    process_block_body fuel b s = (o, s') → node_step s s'.

Lemma with_stores_self s : with_stores s (bp_stores s) = s.
Proof using Type. by destruct s. Qed.

(** What a step keeps: bodies are never lost or changed. *)
Definition bodies_kept (s s' : BlockBodyProcessor) : Prop :=
  (∀ h, has_body (bp_stores s) h → has_body (bp_stores s') h)
  ∧ bt_access (bp_block_transactions_store s) ⊆ bt_access (bp_block_transactions_store s')
  ∧ node_dag s ⊆ node_dag s'.

Lemma bodies_kept_refl s : bodies_kept s s.
Proof using Type. by split_and!. Qed.
Lemma bodies_kept_trans s1 s2 s3 : bodies_kept s1 s2 → bodies_kept s2 s3 → bodies_kept s1 s3.
Proof using Type. intros (A1 & A2 & A3) (B1 & B2 & B3). split_and!; [auto|by etrans..]. Qed.

Lemma header_step_ok s rnd now header ps info o s' : body_inv W s (node_dag s) →
  processable fuel pow_hash now W (bp_stores s) (node_dag s) header ps info →
  process_header fuel pow_hash wcs rnd now header (bp_stores s) = (o, s') → o ≠ Panic →
  body_inv W (with_stores s s') (node_dag (with_stores s s')) ∧ bodies_kept s (with_stores s s').
Proof using Type.
  intros HB HR Hrun Hno. pose proof (process_ok fuel pow_hash wcs rnd now W (bp_stores s) (node_dag s) header ps info
    (by_headers _ _ _ HB) HR) as Hok. rewrite Hrun in Hok. destruct o as [st|e| |]; [|clear Hno|done|done].
  - destruct Hok as [(-> & _)|(_ & Hst & HI & Hgr & _)].
    { rewrite with_stores_self. split; [done|apply bodies_kept_refl]. }
    pose proof (header_grows W s _ s' header ps HB Hst HI Hgr) as HB'. rewrite <- (body_inv_dag _ _ _ HB').
    split; [done|]. split_and!.
    + intros h (st' & Hh & Hb). exists st'. split; [|done]. cbn. rewrite (gr_status _ _ _ Hgr).
      rewrite lookup_insert_ne; [done|]. intros <-. unfold bp_statuses_store in Hst. congruence.
    + done.
    + rewrite <- (body_inv_dag _ _ _ HB'). apply insert_subseteq. destruct (node_dag s !! h_hash header) eqn:Hd; [|done]. exfalso.
      pose proof (by_headers _ _ _ HB) as HI0. destruct (hi_status _ _ _ HI0 (h_hash header)) as [st' Hst'].
      * apply (gd_dom _ _ _ _ (hi_dag _ _ _ HI0)). split; [apply (pr_hash _ _ _ _ _ _ _ _ _ HR)|eauto].
      * unfold bp_statuses_store in Hst. congruence.
  - destruct Hok as [[->|[-> Hst]] HI]; [by rewrite with_stores_self; split; [|apply bodies_kept_refl]|].
    assert (¬ has_body (bp_stores s) (h_hash header)) as Hnb by (intros (st & ? & _); congruence).
    split.
    + apply (body_status_inv W s (node_dag s) HB (h_hash header) StatusInvalid); [done|]. split; [done|]. by intros ?%Hnb.
    + split_and!; [|done|done]. intros h. cbn [with_stores bp_stores]. unfold marked_invalid.
      rewrite same_bodies; [done|]. split; [done|]. by intros ?%Hnb.
Qed.

Lemma body_step_ok s b o s' : body_inv W s (node_dag s) → body_ready (bp_stores s) b →
  (size (hp_data (bp_stores s)) < fuel)%nat → process_block_body fuel b s = (o, s') →
  body_inv W s' (node_dag s') ∧ bodies_kept s s'.
Proof using Type.
  intros HB HR Hf Hrun. destruct (process_body_ok W s (node_dag s) HB fuel b HR Hf) as (st & Hst & Hok). rewrite Hrun in Hok.
  unfold bp_statuses_store in Hst.
  destruct o as [st'|e| |]; [| |done|done].
  - destruct Hok as [(-> & _)|(-> & _ & _ & HB' & Hs' & Ht')]; [by split; [|apply bodies_kept_refl]|].
    assert (node_dag s' = node_dag s) as Hd by (unfold node_dag; by rewrite Hs'). rewrite Hd. split; [done|]. split_and!.
    + intros h Hh. rewrite Hs'. apply has_body_set. destruct (decide (h = block_hash b)); [by left|by right].
    + rewrite Ht'. apply insert_subseteq. apply eq_None_not_Some. intros Hn%(by_stored _ _ _ HB).
      destruct Hn as (st & Hst' & Hb). rewrite Hst in Hst'. by injection Hst' as <-.
    + by rewrite Hd.
  - destruct Hok as [(-> & _)|(-> & _ & -> & HB')]; [by split; [|apply bodies_kept_refl]|].
    destruct (is_retryable e); [by split; [|apply bodies_kept_refl]|]. split; [exact HB'|]. split_and!; [|done|done].
    intros h Hh. apply same_bodies; [|done]. split; [done|]. intros (st & Hst' & Hb). rewrite Hst in Hst'. by injection Hst' as <-.
Qed.
End steps.

(** ** Properties *)

(** C28: a body is accepted exactly when it meets the rules.  On a node that satisfies
    [body_inv], for a block whose header was processed, [process_block_body] never
    panics.  A block with a body gets its status back and a known invalid one is refused.
    A block with a header only is accepted if and only if its transactions meet the rules
    in isolation (merkle root, one coinbase, valid transactions, mass, distinct ids, no
    double or chained spends) and in context (bodies of the parents, score and subsidy of
    the coinbase, lock times); then its transactions are stored and the invariant holds.
    A refused block changes nothing if it may still become valid (missing parents, wrong
    merkle root), and otherwise only its status. *)
Theorem process_body_correct `{Hashers} (fuel : nat) (W : Z) (s : BlockBodyProcessor) (P : Dag) (b : Block) (ps : list Hash) :
  body_inv W s P → body_ready (bp_stores s) b → (size (hp_data (bp_stores s)) < fuel)%nat → P !! block_hash b = Some ps →
  let rules := body_isolated (hp_params (bp_stores s)) b ∧ body_in_context (bp_stores s) P b ps in
  ∃ st, statuses_access (bp_statuses_store s) !! block_hash b = Some st ∧
  match process_block_body fuel b s with
  | (Ok st', s') =>
      (s' = s ∧ st' = st ∧ has_block_body st = true)
      ∨ (st = StatusHeaderOnly ∧ rules ∧ st' = StatusUTXOPendingVerification ∧ body_inv W s' P
         ∧ bp_stores s' = with_status (block_hash b) StatusUTXOPendingVerification (bp_stores s)
         ∧ bt_access (bp_block_transactions_store s')
           = <[block_hash b := blk_transactions b]> (bt_access (bp_block_transactions_store s)))
  | (Err e, s') =>
      (s' = s ∧ st = StatusInvalid ∧ e = KnownInvalid)
      ∨ (st = StatusHeaderOnly ∧ ¬ rules ∧ body_inv W s' P
         ∧ s' = if is_retryable e then s else body_with_status s (block_hash b) StatusInvalid)
  | _ => False
  end.
Proof.
  intros HB HR Hf Hps rules. destruct (process_body_ok W s P HB fuel b HR Hf) as (st & Hst & Hok). exists st. split; [done|].
  destruct (process_block_body fuel b s) as [[st'|e| |] s']; [| |done|done].
  - destruct Hok as [?|(? & ? & (qs & Hqs & Hr) & ? & ? & ?)]; [by left|right]. rewrite Hps in Hqs. injection Hqs as <-. by split_and!.
  - destruct Hok as [?|(? & Hno & ? & ?)]; [by left|right]. split_and!; [done|by apply Hno|done..].
Qed.

(** C29: histories.  From a node with the genesis, any interleaving of calls of the header
    and of the body processor keeps [body_inv] for the DAG in the relations store: the
    blocks with bodies are closed under parents, every stored body meets the rules under
    its header, the body tips are the blocks with bodies that no body builds on.  Bodies
    and relations are never lost or changed on the way. *)
Theorem pipeline_history `{Hashers} (fuel : nat) (pow_hash : Header → Uint.Uint) (wcs : nat) (W : Z)
    (s0 s s' : BlockBodyProcessor) :
  fresh_bodies W s0 → process_genesis_body_if_needed s0 = (Ok tt, s) → rtc (node_step fuel pow_hash wcs W) s s' →
  body_inv W s' (node_dag s') ∧ bodies_kept s s' ∧ process_genesis_body_if_needed s' = (Ok tt, s').
Proof.
  intros Hfresh Hgen Hsteps. destruct (genesis_body_ok W s0 Hfresh) as (s1 & Hrun & HB & _).
  rewrite Hgen in Hrun. injection Hrun as <-. rewrite (body_inv_dag _ _ _ HB) in HB. clear Hfresh Hgen.
  assert (body_inv W s' (node_dag s') ∧ bodies_kept s s') as [HB' Hk].
  { induction Hsteps as [s|s s1 s2 Hstep _ IH]; [by split; [|apply bodies_kept_refl]|].
    assert (body_inv W s1 (node_dag s1) ∧ bodies_kept s s1) as [HB1 Hk1].
    { destruct Hstep; [by eapply header_step_ok|by eapply body_step_ok]. }
    destruct (IH HB1) as [? ?]. split; [done|]. by eapply bodies_kept_trans. }
  split_and!; [done|done|]. destruct (by_genesis _ _ _ HB') as (st & Hst & Hb).
  unfold process_genesis_body_if_needed, mbind, M_bind, get, lift. cbn [get_status db_statuses_reader].
  unfold read_access, bp_statuses_store. rewrite Hst. cbn [unwrap]. by destruct st.
Qed.

(** The index reported for a second coinbase is the one before it. *)
Lemma reported_coinbase_index header cb tx1 tx2 : is_coinbase cb = true → is_coinbase tx1 = false → is_coinbase tx2 = true →
  check_only_one_coinbase (mkBlock header [cb; tx1; tx2]) = Err (MultipleCoinbases 1).
Proof. intros H0 H1 H2. unfold check_only_one_coinbase. cbn. by rewrite H0, H1, H2. Qed.

(** ** The first body of the main network *)

Section example.
Definition ex_miner_script : list N := 32%N :: replicate 32 7%N ++ [172%N].
(** Blue score 1, the subsidy of the first phase, the script of the miner. *)
Definition ex_payload : list N := Hashing.le 8 1 ++ Hashing.le 8 50000000000 ++ Hashing.le 2 0 ++ [34%N] ++ ex_miner_script.

(** A hash that tells the coinbase transactions of the genesis and of the next block from
    one another and from all other data. *)
Definition ex_tx_bytes (payload : list N) : list N :=
  write_transaction (mkTx TX_VERSION [] [] 0 Subnets.SUBNETWORK_ID_COINBASE 0 payload ZERO_HASH) TX_ENCODING_FULL.
Definition ex_tx_digest (bytes : list N) : Hash :=
  if decide (bytes = ex_tx_bytes genesis_coinbase_payload) then 0%N
  else if decide (bytes = ex_tx_bytes ex_payload) then 1%N else 2%N.
Definition ex_digest : Hashers := λ kind bytes,
  match kind with TransactionHash | TransactionID => ex_tx_digest bytes | _ => 0%N end.
#[local] Existing Instance ex_digest.

Definition ex_bodies : BlockBodyProcessor := mkBodyProcessor ex_node (mkBlockTransactions ∅) (mkTips None).
Definition ex_with_genesis : BlockBodyProcessor := snd (process_genesis_body_if_needed ex_bodies).
Definition ex_coinbase : Transaction := tx_new TX_VERSION [] [] 0 Subnets.SUBNETWORK_ID_COINBASE 0 ex_payload.
Definition ex_root : Hash := Eval vm_compute in merkle_root [tx_hash ex_coinbase].
Definition ex_block : Block := mkBlock (ex_header_over ex_root) [ex_coinbase].
Definition ex_with_header : BlockBodyProcessor :=
  with_stores ex_with_genesis (snd (process_header 16 ex_pow 2 ex_victims ex_now (ex_header_over ex_root) (bp_stores ex_with_genesis))).

Lemma ex_body_params : body_params_ok MAINNET_PARAMS.
Proof. split; try (by apply Z.leb_le); try (split; by apply Z.leb_le). Qed.

Lemma ex_fresh_bodies : fresh_bodies ex_work ex_bodies.
Proof.
  destruct ex_node_inv as (HI & _ & _ & Hp & Hst). split; unfold bp_statuses_store; cbn [bp_stores ex_bodies]; rewrite ?Hp.
  - exact HI.
  - exact Hst.
  - exact ex_body_params.
  - done.
Qed.

Lemma ex_genesis_body_run : process_genesis_body_if_needed ex_bodies = (Ok tt, ex_with_genesis).
Proof.
  destruct (genesis_body_ok _ _ ex_fresh_bodies) as (s' & Hrun & _). unfold ex_with_genesis. by rewrite Hrun.
Qed.

Lemma ex_with_genesis_ok : body_inv ex_work ex_with_genesis (node_dag ex_with_genesis)
  ∧ bp_stores ex_with_genesis = with_status MAINNET_GENESIS_HASH StatusUTXOPendingVerification ex_node
  ∧ node_dag ex_with_genesis = genesis_dag MAINNET_GENESIS_HASH.
Proof.
  destruct (genesis_body_ok _ _ ex_fresh_bodies) as (s' & Hrun & HB & _ & Hs). pose proof ex_genesis_body_run as Hrun'.
  rewrite Hrun in Hrun'. apply (f_equal snd) in Hrun'. cbn [snd] in Hrun'. rewrite Hrun' in *.
  destruct ex_node_inv as (_ & _ & _ & Hp & _). cbn [bp_stores ex_bodies] in *. rewrite Hp in *.
  split_and!; [|exact Hs|symmetry; exact (body_inv_dag _ _ _ HB)]. rewrite <- (body_inv_dag _ _ _ HB). exact HB.
Qed.

(** Statuses play no part in what is assumed of a header. *)
Lemma processable_status fuel pow now W s P header ps info h st :
  processable fuel pow now W s P header ps info → processable fuel pow now W (with_status h st s) P header ps info.
Proof. intros [H1 [S1 S2 S3 S4 S5] H3 H4 H5 H6 H7]. split; [exact H1|split; [exact S1|exact S2|exact S3|exact S4|exact S5]|done..]. Qed.

Lemma ex_header_step : node_step 16 ex_pow 2 ex_work ex_with_genesis ex_with_header.
Proof.
  destruct ex_with_genesis_ok as (_ & Hs & Hd).
  destruct (process_header 16 ex_pow 2 ex_victims ex_now (ex_header_over ex_root) (bp_stores ex_with_genesis)) as [o s'] eqn:Hrun.
  unfold ex_with_header. rewrite Hrun. cbn [snd].
  apply (node_header 16 ex_pow 2 ex_work ex_with_genesis ex_victims ex_now (ex_header_over ex_root) [MAINNET_GENESIS_HASH]
    (pruning_from_genesis MAINNET_GENESIS_HASH) o s'); [|exact Hrun|].
  - rewrite Hs, Hd. apply processable_status, ex_processable.
  - assert (fst (process_header 16 ex_pow 2 ex_victims ex_now (ex_header_over ex_root) (bp_stores ex_with_genesis))
      = Ok StatusHeaderOnly) as Ho by by vm_compute. rewrite Hrun in Ho. cbn [fst] in Ho. by rewrite Ho.
Qed.

Lemma ex_with_header_inv : body_inv ex_work ex_with_header (node_dag ex_with_header).
Proof.
  destruct ex_with_genesis_ok as (HB & _). pose proof ex_header_step as Hstep.
  remember ex_with_genesis as s eqn:Hs. remember ex_with_header as s' eqn:Hs'. destruct Hstep; subst.
  - by eapply header_step_ok.
  - by eapply body_step_ok.
Qed.

Lemma ex_block_ready : body_ready (bp_stores ex_with_header) ex_block.
Proof.
  split.
  - exists (mkLevel (ex_header_over ex_root) 224). split; [by vm_compute|done].
  - repeat constructor; by vm_compute.
  - split; by apply Z.leb_le.
Qed.

Lemma ex_block_dag : node_dag ex_with_header !! block_hash ex_block = Some [MAINNET_GENESIS_HASH].
Proof. by vm_compute. Qed.

Lemma ex_fuel : (size (hp_data (bp_stores ex_with_header)) < 16)%nat.
Proof. apply Nat.ltb_lt. by vm_compute. Qed.

Lemma ex_block_run : fst (process_block_body 16 ex_block ex_with_header) = Ok StatusUTXOPendingVerification
  ∧ statuses_access (bp_statuses_store ex_with_header) !! block_hash ex_block = Some StatusHeaderOnly.
Proof. split; by vm_compute. Qed.

Lemma process_body_correct_witness :
  ∃ s', process_block_body 16 ex_block ex_with_header = (Ok StatusUTXOPendingVerification, s')
    ∧ body_isolated (hp_params (bp_stores ex_with_header)) ex_block
    ∧ body_inv ex_work s' (node_dag ex_with_header).
Proof.
  destruct (process_body_correct 16 ex_work ex_with_header (node_dag ex_with_header) ex_block [MAINNET_GENESIS_HASH]
    ex_with_header_inv ex_block_ready ex_fuel ex_block_dag) as (st & Hst & Hok). destruct ex_block_run as [Ho Hst'].
  rewrite Hst in Hst'. apply (inj Some) in Hst'.
  destruct (process_block_body 16 ex_block ex_with_header) as [o s']. cbn [fst] in Ho. rewrite Ho in Hok |- *.
  exists s'. split; [reflexivity|]. destruct Hok as [(_ & _ & Hb)|(_ & [Hr _] & _ & HB & _)].
  - rewrite Hst' in Hb. discriminate Hb.
  - split; assumption.
Defined.

Lemma ex_body_step : node_step 16 ex_pow 2 ex_work ex_with_header (snd (process_block_body 16 ex_block ex_with_header)).
Proof.
  destruct (process_block_body 16 ex_block ex_with_header) as [o s'] eqn:Hrun. cbn [snd].
  exact (node_body 16 ex_pow 2 ex_work ex_with_header ex_block o s' ex_block_ready ex_fuel Hrun).
Qed.

Lemma pipeline_history_witness :
  let s' := snd (process_block_body 16 ex_block ex_with_header) in
  body_inv ex_work s' (node_dag s') ∧ bodies_kept ex_with_genesis s' ∧ process_genesis_body_if_needed s' = (Ok tt, s').
Proof.
  apply (pipeline_history 16 ex_pow 2 ex_work ex_bodies ex_with_genesis); [exact ex_fresh_bodies|exact ex_genesis_body_run|].
  exact (rtc_l _ _ _ _ ex_header_step (rtc_once _ _ ex_body_step)).
Defined.
End example.
