(* ===== verification/Tasks.v ===== *)
(** * Tasks of the pipeline

    [consensus/src/pipeline/deps_manager.rs] and the loops around it: [worker] and
    [queue_block] of the header and of the body processor.  A worker thread receives
    blocks and registers them; jobs of a thread pool begin a block unless one of its
    parents is still pending, in which case the block is left with the parent and
    started again when the parent ends.

    The operations of the manager hold its lock from beginning to end, so each is one
    step; a run is any interleaving of steps of the worker and of the jobs. *)

From S2P Require Import Prelude Hash Headers Errors Stores Tx.

(** ** The manager *)

(** A handle of a one-shot channel to a caller. *)
Definition BlockResultSender : Type := nat.

Inductive BlockTask : Type :=
| Exit
| Process (block : Block) (result_transmitters : list BlockResultSender).

Record BlockTaskInternal : Type := mkTask {
  t_block : Block;
  t_result_transmitters : list BlockResultSender;
  t_dependent_tasks : list Hash;
}.
Definition task_new (block : Block) (result_transmitters : list BlockResultSender) : BlockTaskInternal :=
  mkTask block result_transmitters [].

(** The map behind the lock. *)
Abbreviation Pending := (gmap Hash BlockTaskInternal).
Abbreviation TM := (M Pending RuleError).

(** A second registration adds its senders, and the transactions if they were missing. *)
Definition task_merge (v : BlockTaskInternal) (block : Block) (result_transmitters : list BlockResultSender) : BlockTaskInternal :=
  mkTask (if is_header_only (t_block v) && negb (is_header_only block) then block else t_block v)
    (t_result_transmitters v ++ result_transmitters) (t_dependent_tasks v).

Definition register (block : Block) (result_transmitters : list BlockResultSender) : TM bool :=
  pending ← get;
  match pending !! block_hash block with
  | None =>
      modify (<[block_hash block := task_new block result_transmitters]>);;
      mret true
  | Some v =>
      modify (<[block_hash block := task_merge v block result_transmitters]>);;
      mret false
  end.

(** The first of the parents that is pending gets the task as a dependent. *)
Fixpoint leave_with (hash : Hash) (parents : list Hash) : TM bool :=
  match parents with
  | [] => mret false
  | parent :: parents' =>
      pending ← get;
      match pending !! parent with
      | Some task =>
          modify (<[parent := mkTask (t_block task) (t_result_transmitters task) (t_dependent_tasks task ++ [hash])]>);;
          mret true
      | None => leave_with hash parents'
      end
  end.

Definition try_begin (hash : Hash) : TM (option Block) :=
  pending ← get;
  task ← lift (unwrap_opt (pending !! hash));
  parents ← lift (direct_parents (blk_header (t_block task)));
  left_ ← leave_with hash parents;
  if left_ : bool then mret None else mret (Some (t_block task)).

(** [end]: the task that the callback is given, its dependents, and whether the map is
    empty, in which case the idle signal is given. *)
Definition end_task (hash : Hash) : TM (BlockTaskInternal * bool) :=
  pending ← get;
  task ← lift (unwrap_opt (pending !! hash));
  modify (delete hash);;
  pending ← get;
  mret (task, bool_decide (pending = ∅)).

(** [wait_for_idle]: whether the caller has to wait for the signal. *)
Definition must_wait : TM bool := pending ← get; mret (negb (bool_decide (pending = ∅))).

(** ** The processor around it *)

Inductive Stage : Type := HeaderStage | BodyStage.

(** The result of processing a block. *)
Abbreviation BlockOutcome := (outcome RuleError BlockStatus).
Definition is_err (res : BlockOutcome) : bool := match res with Err _ => true | _ => false end.

Inductive WorkerState : Type := Receiving | Waiting | Exited.

(** A job past [try_begin], with its result once there is one. *)
Record Job : Type := mkJob { j_hash : Hash; j_block : Block; j_result : option BlockOutcome }.

Record Pipeline (S : Type) : Type := mkPipeline {
  pl_pending : Pending;
  pl_worker : WorkerState;
  pl_spawned : list Hash;       (* jobs of the thread pool that have not begun *)
  pl_running : list Job;
  pl_sent : list BlockTask;     (* to the next processor *)
  pl_replies : list (BlockResultSender * BlockOutcome);
  pl_stores : S;
}.
Arguments mkPipeline {S}.
Arguments pl_pending {S}.
Arguments pl_worker {S}.
Arguments pl_spawned {S}.
Arguments pl_running {S}.
Arguments pl_sent {S}.
Arguments pl_replies {S}.
Arguments pl_stores {S}.

Section processor.
Context {S : Type} (stage : Stage) (process : Block → M S RuleError BlockStatus).
Local Abbreviation PM := (M (Pipeline S) RuleError).

(** Run an operation of the manager. *)
Definition on_pending {A} (m : TM A) : PM A := λ s,
  let '(o, pending) := m (pl_pending s) in
  (o, mkPipeline pending (pl_worker s) (pl_spawned s) (pl_running s) (pl_sent s) (pl_replies s) (pl_stores s)).
Definition set_worker (w : WorkerState) (s : Pipeline S) : Pipeline S :=
  mkPipeline (pl_pending s) w (pl_spawned s) (pl_running s) (pl_sent s) (pl_replies s) (pl_stores s).
Definition set_spawned (l : list Hash) (s : Pipeline S) : Pipeline S :=
  mkPipeline (pl_pending s) (pl_worker s) l (pl_running s) (pl_sent s) (pl_replies s) (pl_stores s).
Definition set_running (l : list Job) (s : Pipeline S) : Pipeline S :=
  mkPipeline (pl_pending s) (pl_worker s) (pl_spawned s) l (pl_sent s) (pl_replies s) (pl_stores s).
Definition send_task (t : BlockTask) (s : Pipeline S) : Pipeline S :=
  mkPipeline (pl_pending s) (pl_worker s) (pl_spawned s) (pl_running s) (pl_sent s ++ [t]) (pl_replies s) (pl_stores s).
Definition reply_all (ts : list BlockResultSender) (res : BlockOutcome) (s : Pipeline S) : Pipeline S :=
  mkPipeline (pl_pending s) (pl_worker s) (pl_spawned s) (pl_running s) (pl_sent s)
    (pl_replies s ++ ((λ t, (t, res)) <$> ts)) (pl_stores s).
Definition set_stores (x : S) (s : Pipeline S) : Pipeline S :=
  mkPipeline (pl_pending s) (pl_worker s) (pl_spawned s) (pl_running s) (pl_sent s) (pl_replies s) x.

(** [worker], for one received task. *)
Definition worker (task : BlockTask) : PM unit :=
  match task with
  | Process block result_transmitters =>
      new ← on_pending (register block result_transmitters);
      if new : bool then modify (λ s, set_spawned (pl_spawned s ++ [block_hash block]) s) else mret tt
  | Exit =>
      wait ← on_pending must_wait;
      if wait : bool then modify (set_worker Waiting)
      else modify (λ s, send_task Exit (set_worker Exited s))
  end.

(** The callback of [end]: the header processor also answers for blocks without
    transactions, the others go to the next processor. *)
Definition callback (res : BlockOutcome) (task : BlockTaskInternal) (s : Pipeline S) : Pipeline S :=
  if is_err res || match stage with HeaderStage => is_header_only (t_block task) | BodyStage => false end
  then reply_all (t_result_transmitters task) res s
  else send_task (Process (t_block task) (t_result_transmitters task)) s.

(** [queue_block], up to [try_begin]. *)
Definition queue_block_begin (hash : Hash) : PM unit :=
  o ← on_pending (try_begin hash);
  match o with
  | Some block => modify (λ s, set_running (pl_running s ++ [mkJob hash block None]) s)
  | None => mret tt
  end.

(** [queue_block], from [end] on; the signal wakes the worker that waits for it, which
    passes [Exit] on. *)
Definition queue_block_end (hash : Hash) (res : BlockOutcome) : PM unit :=
  '(task, idle) ← on_pending (end_task hash);
  modify (callback res task);;
  s ← get;
  (if idle : bool
   then match pl_worker s with
        | Waiting => modify (λ s, send_task Exit (set_worker Exited s))
        | _ => mret tt
        end
   else mret tt);;
  modify (λ s, set_spawned (pl_spawned s ++ t_dependent_tasks task) s).

(** ** Runs *)

Inductive Event : Type :=
| EvReceive (task : BlockTask)
| EvBegin (hash : Hash)      (* a job that begins to process *)
| EvLeave (hash : Hash)      (* a job that leaves its block with a parent *)
| EvProcess (hash : Hash)
| EvEnd (hash : Hash).

Inductive pl_step : Pipeline S → Event → Pipeline S → Prop :=
| step_receive s task s' :
    pl_worker s = Receiving → worker task s = (Ok tt, s') → pl_step s (EvReceive task) s'
| step_begin s l1 h l2 s' :
    pl_spawned s = l1 ++ h :: l2 → queue_block_begin h (set_spawned (l1 ++ l2) s) = (Ok tt, s') →
    pl_step s (if bool_decide (length (pl_running s') = length (pl_running s)) then EvLeave h else EvBegin h) s'
| step_process s l1 h b l2 o x :
    pl_running s = l1 ++ mkJob h b None :: l2 → process b (pl_stores s) = (o, x) → o ≠ Panic → o ≠ Fuel →
    pl_step s (EvProcess h) (set_running (l1 ++ mkJob h b (Some o) :: l2) (set_stores x s))
| step_end s l1 h b res l2 s' :
    pl_running s = l1 ++ mkJob h b (Some res) :: l2 →
    queue_block_end h res (set_running (l1 ++ l2) s) = (Ok tt, s') → pl_step s (EvEnd h) s'.

Inductive pl_run : Pipeline S → list Event → Pipeline S → Prop :=
| run_nil s : pl_run s [] s
| run_snoc s l s1 e s2 : pl_run s l s1 → pl_step s1 e s2 → pl_run s (l ++ [e]) s2.

(** A processor that has just been started. *)
Definition pipeline_new (x : S) : Pipeline S := mkPipeline ∅ Receiving [] [] [] [] x.
End processor.
