(* ===== verification/TasksProof.v ===== *)
(** * The task manager is safe and live

    Every pending block is in exactly one place (spawned, running, or left with a pending
    parent), so no block is lost or processed twice at a time and no job panics; a block
    begins only when none of its parents is pending; runs without new blocks end, and end
    idle; senders are answered or forwarded exactly once; [Exit] is passed on last. *)

From S2P Require Import Prelude Hash Headers Errors Stores Tx Tasks.
From Stdlib Require Import Permutation.

(** ** Counting *)

Definition count {A} `{EqDecision A} (h : A) (l : list A) : nat := length (filter (λ x, x = h) l).
#[global] Arguments count : simpl never.

Section count.
Context {A : Type} `{EqDecision A}.
Implicit Types (h x : A) (l k : list A).

Lemma count_app h l k : count h (l ++ k) = (count h l + count h k)%nat.
Proof. unfold count. by rewrite filter_app, length_app. Qed.
Lemma count_cons h x l : count h (x :: l) = ((if decide (x = h) then 1 else 0) + count h l)%nat.
Proof. unfold count. rewrite filter_cons. by destruct (decide (x = h)). Qed.
Lemma count_nil h : count h ([] : list A) = 0%nat.
Proof. done. Qed.
Lemma count_perm h l k : l ≡ₚ k → count h l = count h k.
Proof. unfold count. intros ->. done. Qed.
Lemma count_pos h l : (0 < count h l)%nat ↔ h ∈ l.
Proof.
  induction l as [|x l IH]; rewrite ?count_nil, ?count_cons; [split; [lia|by intros ?%elem_of_nil]|].
  rewrite elem_of_cons. destruct (decide (x = h)); [split; [by left|lia]|]. rewrite <- IH. split; [right; lia|]. intros [->|?]; [done|lia].
Qed.
Lemma count_block_nodup l : (∀ h, (count h l ≤ 1)%nat) → NoDup l.
Proof.
  induction l as [|x l IH]; intros Hc; [constructor|]. constructor.
  - intros Hin%count_pos. specialize (Hc x). rewrite count_cons in Hc. destruct (decide (x = x)); [lia|done].
  - apply IH. intros h. specialize (Hc h). rewrite count_cons in Hc. lia.
Qed.

Lemma count_perm_iff l k : (∀ h, count h l = count h k) → l ≡ₚ k.
Proof.
  revert k. induction l as [|x l IH]; intros k Hc.
  - destruct k as [|y k]; [done|]. specialize (Hc y). rewrite count_nil, count_cons in Hc. destruct (decide (y = y)); [lia|done].
  - assert (x ∈ k) as Hx. { apply count_pos. rewrite <- Hc, count_cons. destruct (decide (x = x)); [lia|done]. }
    apply list_elem_of_split in Hx as (k1 & k2 & ->). rewrite <- Permutation_middle. f_equiv. apply IH. intros h. specialize (Hc h).
    rewrite ?count_app, ?count_cons in *. lia.
Qed.
End count.

(** ** The places of a block *)

(** What the pending tasks hold. *)
Definition gather {A} (f : BlockTaskInternal → list A) (p : Pending) : list A := map_to_list p ≫= (λ x, f x.2).
Definition dependents (p : Pending) : list Hash := gather t_dependent_tasks p.
Definition keys (p : Pending) : list Hash := (map_to_list p).*1.

Lemma map_to_list_split (p : Pending) h t : p !! h = Some t → map_to_list p ≡ₚ (h, t) :: map_to_list (delete h p).
Proof. intros Hp. symmetry. by apply map_to_list_delete. Qed.

Lemma keys_split p h t : p !! h = Some t → keys p ≡ₚ h :: keys (delete h p).
Proof. intros Hp. unfold keys. by rewrite (map_to_list_split _ _ _ Hp). Qed.
Lemma gather_split {A} (f : BlockTaskInternal → list A) p h t : p !! h = Some t → gather f p ≡ₚ f t ++ gather f (delete h p).
Proof. intros Hp. unfold gather. by rewrite (map_to_list_split _ _ _ Hp). Qed.
Lemma gather_insert {A} (f : BlockTaskInternal → list A) p h t : gather f (<[h := t]> p) ≡ₚ f t ++ gather f (delete h p).
Proof. rewrite (gather_split _ _ h t) by apply lookup_insert_eq. by rewrite delete_insert_eq. Qed.

Lemma keys_insert p h t : keys (<[h := t]> p) ≡ₚ h :: keys (delete h p).
Proof. rewrite (keys_split _ h t) by apply lookup_insert_eq. by rewrite delete_insert_eq. Qed.

(** The counts before and after a change of the map. *)
Lemma counts_update p q t t' h : p !! q = Some t → count h (keys (<[q := t']> p)) = count h (keys p) ∧
  (count h (dependents (<[q := t']> p)) + count h (t_dependent_tasks t) = count h (dependents p) + count h (t_dependent_tasks t'))%nat.
Proof.
  intros Hp. rewrite (count_perm _ _ _ (keys_insert p q t')), (count_perm _ _ _ (keys_split _ _ _ Hp)).
  unfold dependents. rewrite (count_perm _ _ _ (gather_insert t_dependent_tasks p q t')), (count_perm _ _ _ (gather_split t_dependent_tasks _ _ _ Hp)), !count_app. lia.
Qed.
Lemma counts_new p q t h : p !! q = None → count h (keys (<[q := t]> p)) = count h (q :: keys p) ∧
  count h (dependents (<[q := t]> p)) = count h (t_dependent_tasks t ++ dependents p).
Proof.
  intros Hp. unfold dependents. rewrite (count_perm _ _ _ (keys_insert p q t)), (count_perm _ _ _ (gather_insert t_dependent_tasks p q t)).
  by rewrite delete_id.
Qed.
Lemma counts_delete p q t h : p !! q = Some t → count h (keys p) = count h (q :: keys (delete q p)) ∧
  count h (dependents p) = count h (t_dependent_tasks t ++ dependents (delete q p)).
Proof. intros Hp. split; apply count_perm; [by eapply keys_split|by apply gather_split]. Qed.

Ltac counting := rewrite ?fmap_app, ?fmap_cons, ?fmap_nil, ?count_app, ?count_cons, ?count_nil in *; cbn [j_hash] in *; lia.

Ltac fields := cbn [pl_pending pl_worker pl_spawned pl_running pl_sent pl_replies pl_stores set_worker set_spawned
  set_running send_task reply_all set_stores t_block t_result_transmitters t_dependent_tasks task_new].

Lemma keys_count p h : count h (keys p) = if decide (is_Some (p !! h)) then 1%nat else 0%nat.
Proof.
  assert (∀ x, x ∈ keys p ↔ is_Some (p !! x)) as Hin.
  { intros x. unfold keys. rewrite list_elem_of_fmap. split.
    - intros ([k t] & -> & Hk%elem_of_map_to_list). eauto.
    - intros [t Ht]. exists (x, t). split; [done|]. by apply elem_of_map_to_list. }
  destruct (decide (is_Some (p !! h))) as [[t Ht]|Hn].
  - rewrite (count_perm _ _ _ (keys_split _ _ _ Ht)), count_cons. destruct (decide (h = h)) as [_|]; [|done].
    assert (¬ (0 < count h (keys (delete h p)))%nat); [|lia]. rewrite count_pos. unfold keys. rewrite list_elem_of_fmap.
    intros ([k t'] & -> & Hk%elem_of_map_to_list). cbn in Hk. by rewrite lookup_delete_eq in Hk.
  - assert (¬ (0 < count h (keys p))%nat); [|lia]. by rewrite count_pos, Hin.
Qed.

Lemma elem_of_dependents p d : d ∈ dependents p ↔ ∃ h t, p !! h = Some t ∧ d ∈ t_dependent_tasks t.
Proof.
  unfold dependents, gather. rewrite list_elem_of_bind. split.
  - intros ([h t] & Hd & Hh%elem_of_map_to_list). eauto.
  - intros (h & t & Hh & Hd). exists (h, t). split; [done|]. by apply elem_of_map_to_list.
Qed.

Section tasks.
Context {S : Type} (stage : Stage) (process : Block → M S RuleError BlockStatus).
Context (parents : Hash → list Hash).
Local Abbreviation pstep := (pl_step stage process).
Local Abbreviation prun := (pl_run stage process).

(** A block that names the parents of its hash. *)
Definition block_ok (b : Block) : Prop := direct_parents (E:=RuleError) (blk_header b) = Ok (parents (block_hash b)).
Definition task_ok (t : BlockTask) : Prop := match t with Exit => True | Process b _ => block_ok b end.

Definition places (s : Pipeline S) : list Hash := pl_spawned s ++ (j_hash <$> pl_running s) ++ dependents (pl_pending s).

Record pl_inv (s : Pipeline S) : Prop := {
  pi_tasks h t : pl_pending s !! h = Some t → block_hash (t_block t) = h ∧ block_ok (t_block t);
  pi_places h : count h (places s) = count h (keys (pl_pending s));
  pi_deps h t d : pl_pending s !! h = Some t → d ∈ t_dependent_tasks t → h ∈ parents d;
  pi_waiting : pl_worker s = Waiting → pl_pending s ≠ ∅;
  pi_exited : pl_worker s = Exited → pl_pending s = ∅ ∧ ∃ l, pl_sent s = l ++ [Exit] ∧ Exit ∉ l;
  pi_open : pl_worker s ≠ Exited → Exit ∉ pl_sent s;
}.

Lemma inv_new x : pl_inv (pipeline_new x).
Proof. split; cbn; try done. by intros _ ?%elem_of_nil. Qed.

(** Whatever is in a place is pending. *)
Lemma placed_pending s h : pl_inv s → h ∈ places s → is_Some (pl_pending s !! h).
Proof.
  intros HI Hh%count_pos. rewrite (pi_places _ HI), keys_count in Hh. by destruct (decide (is_Some (pl_pending s !! h))) in Hh; [|lia].
Qed.

(** ** The operations *)

Lemma leave_with_ok h ps p :
  (∃ q t, q ∈ ps ∧ p !! q = Some t ∧ leave_with h ps p
     = (Ok true, <[q := mkTask (t_block t) (t_result_transmitters t) (t_dependent_tasks t ++ [h])]> p))
  ∨ ((∀ q, q ∈ ps → p !! q = None) ∧ leave_with h ps p = (Ok false, p)).
Proof.
  induction ps as [|q ps IH]; [right; split; [by intros ? ?%elem_of_nil|done]|].
  cbn [leave_with]. unfold mbind, M_bind, get, modify. destruct (p !! q) as [t|] eqn:Hq.
  - left. exists q, t. split_and!; [by left|done|done].
  - destruct IH as [(q' & t & Hq' & Ht & Hr)|[Hn Hr]].
    + left. exists q', t. split_and!; [by right|done|done].
    + right. split; [|done]. by intros x [->|Hx]%elem_of_cons; [|apply Hn].
Qed.

(** [try_begin] of a spawned job. *)
Lemma try_begin_ok s h : pl_inv s → h ∈ pl_spawned s → ∃ t, pl_pending s !! h = Some t ∧
  ((∃ q tq, q ∈ parents h ∧ pl_pending s !! q = Some tq ∧ try_begin h (pl_pending s)
      = (Ok None, <[q := mkTask (t_block tq) (t_result_transmitters tq) (t_dependent_tasks tq ++ [h])]> (pl_pending s)))
   ∨ ((∀ q, q ∈ parents h → pl_pending s !! q = None) ∧ try_begin h (pl_pending s) = (Ok (Some (t_block t)), pl_pending s))).
Proof.
  intros HI Hh. destruct (placed_pending s h HI) as [t Ht].
  { unfold places. rewrite elem_of_app. by left. }
  exists t. split; [done|]. destruct (pi_tasks _ HI h t Ht) as [Hb Hok]. unfold block_ok in Hok. rewrite Hb in Hok.
  unfold try_begin, mbind, M_bind, get, lift. rewrite Ht. cbn [unwrap_opt]. rewrite Hok.
  destruct (leave_with_ok h (parents h) (pl_pending s)) as [(q & tq & Hq & Htq & ->)|[Hn ->]].
  - left. by exists q, tq.
  - by right.
Qed.

(** A running job is pending. *)
Lemma running_pending s h : pl_inv s → h ∈ j_hash <$> pl_running s → is_Some (pl_pending s !! h).
Proof. intros HI Hh. apply placed_pending; [done|]. unfold places. rewrite !elem_of_app. tauto. Qed.

Lemma end_task_ok h (p : Pending) t : p !! h = Some t → end_task h p = (Ok (t, bool_decide (delete h p = ∅)), delete h p).
Proof. intros Ht. unfold end_task, mbind, M_bind, get, lift, modify. by rewrite Ht. Qed.

(** The tasks of an updated map. *)
Lemma tasks_update (p : Pending) q t : (∀ h t, p !! h = Some t → block_hash (t_block t) = h ∧ block_ok (t_block t)) →
  block_hash (t_block t) = q ∧ block_ok (t_block t) →
  ∀ h t', <[q := t]> p !! h = Some t' → block_hash (t_block t') = h ∧ block_ok (t_block t').
Proof. intros Hp Ht h t' [[<- <-]|[_ Hh]]%lookup_insert_Some; [done|by apply Hp]. Qed.

Lemma deps_update (p : Pending) q t : (∀ h t d, p !! h = Some t → d ∈ t_dependent_tasks t → h ∈ parents d) →
  (∀ d, d ∈ t_dependent_tasks t → q ∈ parents d) →
  ∀ h t' d, <[q := t]> p !! h = Some t' → d ∈ t_dependent_tasks t' → h ∈ parents d.
Proof. intros Hp Ht h t' d [[<- <-]|[_ Hh]]%lookup_insert_Some; [apply Ht|by eapply Hp]. Qed.

Lemma must_wait_ok p : must_wait p = (Ok (negb (bool_decide (p = ∅))), p).
Proof. done. Qed.

Lemma register_ok b ts p : register b ts p =
  match p !! block_hash b with
  | None => (Ok true, <[block_hash b := task_new b ts]> p)
  | Some v => (Ok false, <[block_hash b := task_merge v b ts]> p)
  end.
Proof. unfold register, mbind, M_bind, get, modify. by destruct (p !! block_hash b). Qed.

Lemma receive_inv s task s' : pl_inv s → task_ok task → pl_worker s = Receiving → worker task s = (Ok tt, s') → pl_inv s'.
Proof.
  intros HI Hok Hw. unfold worker. destruct task as [|b ts]; unfold mbind, M_bind, on_pending, get, modify.
  - rewrite must_wait_ok. destruct (decide (pl_pending s = ∅)) as [He|He];
      [rewrite bool_decide_eq_true_2 by done|rewrite bool_decide_eq_false_2 by done];
      cbn; intros [= <-]; destruct HI as [H1 H2 H3 H4 H5 H6]; split; cbn; try done.
    + intros _. split; [done|]. exists (pl_sent s). split; [done|]. apply H6. by rewrite Hw.
    + intros _. apply H6. by rewrite Hw.
  - rewrite register_ok. set (h := block_hash b). destruct (pl_pending s !! h) as [v|] eqn:Hv.
    + set (v' := task_merge v b ts). cbn. intros [= <-]. destruct HI as [H1 H2 H3 H4 H5 H6].
      assert (block_hash (t_block v') = h ∧ block_ok (t_block v') ∧ t_dependent_tasks v' = t_dependent_tasks v) as (Hh & Hb & Hd).
      { destruct (H1 h v Hv). unfold v', task_merge. cbn. by case_match. }
      split; fields; rewrite ?Hw; try done.
      * by apply tasks_update.
      * intros x. specialize (H2 x). unfold places in *. fields. destruct (counts_update _ _ _ v' x Hv) as [Hk Hdep].
        rewrite Hd in Hdep. counting.
      * apply deps_update; [done|]. rewrite Hd. intros d. by apply H3.
      * intros _. apply H6. by rewrite Hw.
    + cbn. intros [= <-]. destruct HI as [H1 H2 H3 H4 H5 H6]. split; fields; rewrite ?Hw; try done.
      * by apply tasks_update.
      * intros x. specialize (H2 x). unfold places in *. fields. destruct (counts_new _ _ (task_new b ts) x Hv) as [Hk Hdep].
        cbn [t_dependent_tasks task_new] in Hdep. counting.
      * apply deps_update; [done|]. by intros d ?%elem_of_nil.
      * intros _. apply H6. by rewrite Hw.
Qed.

Lemma begin_inv s l1 h l2 s' : pl_inv s → pl_spawned s = l1 ++ h :: l2 →
  queue_block_begin h (set_spawned (l1 ++ l2) s) = (Ok tt, s') → pl_inv s'.
Proof.
  intros HI Hsp. destruct (try_begin_ok s h HI) as (t & Ht & Hcase).
  { rewrite Hsp, elem_of_app, elem_of_cons. tauto. }
  unfold queue_block_begin, mbind, M_bind, on_pending. fields. destruct HI as [H1 H2 H3 H4 H5 H6].
  destruct Hcase as [(q & tq & Hq & Htq & ->)|[Hno ->]].
  - set (tq' := mkTask _ _ _). intros [= <-]. split; fields; try done.
    + apply tasks_update; [done|]. by destruct (H1 q tq Htq).
    + intros x. specialize (H2 x). unfold places in *. fields. rewrite Hsp in H2.
      destruct (counts_update _ _ _ tq' x Htq) as [Hk Hdep]. unfold tq' at 2 in Hdep. cbn [t_dependent_tasks] in Hdep. counting.
    + apply deps_update; [done|]. intros d. cbn [tq' t_dependent_tasks]. rewrite elem_of_app, list_elem_of_singleton.
      intros [Hd| ->]; [by eapply H3|done].
    + intros Hw He. apply H4 in Hw. by apply insert_non_empty in He.
    + intros Hw. destruct (H5 Hw) as [He _]. by rewrite He, lookup_empty in Htq.
  - intros [= <-]. split; fields; try done. intros x. specialize (H2 x). unfold places in *. fields. rewrite Hsp in H2. counting.
Qed.

Lemma process_inv s l1 h b l2 o x : pl_inv s → pl_running s = l1 ++ mkJob h b None :: l2 →
  pl_inv (set_running (l1 ++ mkJob h b (Some o) :: l2) (set_stores x s)).
Proof.
  intros [H1 H2 H3 H4 H5 H6] Hr. split; fields; try done. intros y. specialize (H2 y). unfold places in *. fields. rewrite Hr in H2. counting.
Qed.

Lemma sent_callback res task (s : Pipeline S) : Exit ∉ pl_sent s → Exit ∉ pl_sent (callback stage res task s).
Proof. unfold callback. case_match; fields; [done|]. rewrite elem_of_app, list_elem_of_singleton. by intros ? [?|?]. Qed.

Lemma callback_frame res task (s : Pipeline S) : pl_pending (callback stage res task s) = pl_pending s ∧
  pl_worker (callback stage res task s) = pl_worker s ∧ pl_spawned (callback stage res task s) = pl_spawned s ∧
  pl_running (callback stage res task s) = pl_running s.
Proof. unfold callback. by case_match. Qed.

(** What the end of a job does. *)
Lemma queue_block_end_ok (s : Pipeline S) h res t : pl_pending s !! h = Some t →
  queue_block_end stage h res s = (Ok tt,
    let s1 := callback stage res t (mkPipeline (delete h (pl_pending s)) (pl_worker s) (pl_spawned s) (pl_running s)
                (pl_sent s) (pl_replies s) (pl_stores s)) in
    let s2 := match pl_worker s with
              | Waiting => if bool_decide (delete h (pl_pending s) = ∅) then send_task Exit (set_worker Exited s1) else s1
              | _ => s1
              end in
    set_spawned (pl_spawned s ++ t_dependent_tasks t) s2).
Proof.
  intros Ht. unfold queue_block_end, mbind, M_bind, on_pending, get, modify. rewrite (end_task_ok _ _ _ Ht).
  set (s1 := callback _ _ _ _). destruct (callback_frame res t (mkPipeline (delete h (pl_pending s)) (pl_worker s) (pl_spawned s)
    (pl_running s) (pl_sent s) (pl_replies s) (pl_stores s))) as (_ & Hw & Hs & _). fold s1 in Hw, Hs. cbn [pl_worker pl_spawned] in Hw, Hs.
  rewrite Hw. destruct (bool_decide (delete h (pl_pending s) = ∅)), (pl_worker s); cbn [mret M_ret]; unfold mret, M_ret;
    fields; by rewrite Hs.
Qed.

Lemma end_inv s l1 h b res l2 s' : pl_inv s → pl_running s = l1 ++ mkJob h b (Some res) :: l2 →
  queue_block_end stage h res (set_running (l1 ++ l2) s) = (Ok tt, s') → pl_inv s'.
Proof.
  intros HI Hr Hrun. destruct (running_pending s h HI) as [t Ht].
  { rewrite Hr, fmap_app, fmap_cons, elem_of_app, elem_of_cons. cbn. tauto. }
  rewrite (queue_block_end_ok (set_running (l1 ++ l2) s) h res t Ht) in Hrun. cbv zeta in Hrun. revert Hrun. fields.
  destruct HI as [H1 H2 H3 H4 H5 H6].
  set (s0 := mkPipeline (delete h (pl_pending s)) _ _ _ _ _ _). set (s1 := callback stage res t s0).
  destruct (callback_frame res t s0) as (C1 & C2 & C3 & C4). fold s1 in C1, C2, C3, C4. cbn [s0 pl_pending pl_worker pl_spawned pl_running] in *.
  assert (pl_worker s ≠ Exited) as Hne.
  { intros Hw. destruct (H5 Hw) as [He _]. by rewrite He, lookup_empty in Ht. }
  assert (Exit ∉ pl_sent s1) as Hsent by (apply sent_callback; cbn; auto).
  assert (∀ x, count x ((pl_spawned s ++ t_dependent_tasks t) ++ (j_hash <$> l1 ++ l2) ++ dependents (delete h (pl_pending s)))
    = count x (keys (delete h (pl_pending s)))) as Hplaces.
  { intros x. specialize (H2 x). unfold places in H2. rewrite Hr in H2.
    destruct (counts_delete _ _ _ x Ht) as [Hk Hdep]. counting. }
  set (s2 := match pl_worker s with Waiting => _ | _ => _ end).
  assert (pl_pending s2 = delete h (pl_pending s) ∧ pl_running s2 = l1 ++ l2) as [Hp2 Hr2] by (unfold s2; repeat case_match; by split).
  intros [= <-]. split; fields; rewrite ?Hp2.
  - intros x tx [_ Hx]%lookup_delete_Some. by apply H1.
  - intros x. unfold places. fields. rewrite Hp2, Hr2. apply Hplaces.
  - intros x tx d [_ Hx]%lookup_delete_Some. by eapply H3.
  - unfold s2. destruct (pl_worker s) eqn:Hw; rewrite ?C2; try done. case_bool_decide; [done|]. by rewrite C2.
  - unfold s2. destruct (pl_worker s) eqn:Hw; rewrite ?C2; try done. case_bool_decide; [|by rewrite C2].
    intros _. split; [done|]. exists (pl_sent s1). by split.
  - unfold s2. destruct (pl_worker s) eqn:Hw; try done. case_bool_decide; fields; done.
Qed.

(** ** Every step keeps the invariant, and no step of a job panics *)

Definition event_ok (e : Event) : Prop := match e with EvReceive task => task_ok task | _ => True end.

Lemma step_inv s e s' : pl_inv s → event_ok e → pstep s e s' → pl_inv s'.
Proof.
  intros HI He Hstep. destruct Hstep.
  - by eapply receive_inv.
  - by eapply begin_inv.
  - by apply (process_inv s l1 h b l2 o x).
  - by eapply end_inv.
Qed.

Lemma run_inv s l s' : pl_inv s → Forall event_ok l → prun s l s' → pl_inv s'.
Proof.
  intros HI Hl Hrun. induction Hrun as [|s l s1 e s2 Hrun IH Hstep]; [done|]. apply Forall_app in Hl as [Hl He].
  eapply step_inv; [by apply IH|exact (Forall_inv He)|done].
Qed.

(** A job that was spawned can begin or leave its block, a job that has its result can
    end: neither panics. *)
Lemma begin_enabled s l1 h l2 : pl_inv s → pl_spawned s = l1 ++ h :: l2 →
  ∃ s', queue_block_begin h (set_spawned (l1 ++ l2) s) = (Ok tt, s') ∧ pl_stores s' = pl_stores s ∧
  pl_spawned s' = l1 ++ l2 ∧ size (pl_pending s') = size (pl_pending s) ∧
  ((pl_running s' = pl_running s ∧ ∃ q, q ∈ parents h ∧ is_Some (pl_pending s !! q)) ∨
   (∃ b, pl_running s' = pl_running s ++ [mkJob h b None] ∧ pl_pending s' = pl_pending s ∧ ∀ q, q ∈ parents h → pl_pending s !! q = None)).
Proof.
  intros HI Hsp. destruct (try_begin_ok s h HI) as (t & Ht & Hcase).
  { rewrite Hsp, elem_of_app, elem_of_cons. tauto. }
  unfold queue_block_begin, mbind, M_bind, on_pending. fields.
  destruct Hcase as [(q & tq & Hq & Htq & ->)|[Hno ->]]; eexists; (split; [reflexivity|]); fields;
    (split_and!; [done|done|try (apply map_size_insert_Some; eauto); done|]).
  - left. split; [done|]. exists q. eauto.
  - right. by exists (t_block t).
Qed.

Lemma end_enabled s l1 h b res l2 : pl_inv s → pl_running s = l1 ++ mkJob h b (Some res) :: l2 →
  ∃ t s', pl_pending s !! h = Some t ∧ queue_block_end stage h res (set_running (l1 ++ l2) s) = (Ok tt, s') ∧
    pl_pending s' = delete h (pl_pending s) ∧ pl_running s' = l1 ++ l2 ∧ pl_spawned s' = pl_spawned s ++ t_dependent_tasks t.
Proof.
  intros HI Hr. destruct (running_pending s h HI) as [t Ht].
  { rewrite Hr, fmap_app, fmap_cons, elem_of_app, elem_of_cons. cbn. tauto. }
  exists t. eexists. split; [done|]. rewrite (queue_block_end_ok (set_running (l1 ++ l2) s) h res t Ht). split; [reflexivity|].
  cbv zeta. fields. set (s0 := mkPipeline _ _ _ _ _ _ _). destruct (callback_frame res t s0) as (C1 & C2 & C3 & C4).
  repeat case_match; fields; rewrite ?C1, ?C4; done.
Qed.

(** ** Measure *)

(** Work left: each block that ends may start its dependents again. *)
Definition work (s : Pipeline S) : nat :=
  (2 * size (pl_pending s) * size (pl_pending s) + 3 * length (pl_spawned s)
   + sum_list_with (λ j, match j_result j with Some _ => 1 | None => 2 end)%nat (pl_running s))%nat.

Definition internal (e : Event) : Prop := match e with EvReceive _ => False | _ => True end.

(** The dependents of a task are other pending blocks, each once. *)
Lemma deps_length s h t : pl_inv s → pl_pending s !! h = Some t → h ∈ j_hash <$> pl_running s →
  (length (t_dependent_tasks t) < size (pl_pending s))%nat.
Proof.
  intros HI Ht Hh. assert (NoDup (t_dependent_tasks t)) as Hnd.
  { apply count_block_nodup. intros x. pose proof (pi_places _ HI x) as Hx. rewrite keys_count in Hx. unfold places in Hx.
    destruct (counts_delete _ _ _ x Ht) as [_ Hd]. destruct (decide _) in Hx; counting. }
  assert (list_to_set (t_dependent_tasks t) ⊆ dom (pl_pending s) ∖ {[h]}) as Hsub.
  { intros d Hd%elem_of_list_to_set. apply elem_of_difference. split.
    - apply elem_of_dom, placed_pending; [done|]. unfold places. rewrite !elem_of_app, elem_of_dependents. right; right; eauto.
    - intros ->%elem_of_singleton. pose proof (pi_places _ HI h) as Hx. rewrite keys_count in Hx.
      destruct (decide _) in Hx; unfold places in Hx; destruct (counts_delete _ _ _ h Ht) as [_ Hdep];
        apply count_pos in Hd, Hh; rewrite ?count_app in *; lia. }
  apply subseteq_size in Hsub. rewrite size_list_to_set in Hsub by done.
  rewrite size_difference in Hsub by (apply singleton_subseteq_l, elem_of_dom; eauto). rewrite size_singleton, size_dom in Hsub.
  assert (size (pl_pending s) ≠ 0)%nat; [|lia]. intros H0%map_size_empty_inv. by rewrite H0, lookup_empty in Ht.
Qed.

Lemma internal_decreases s e s' : pl_inv s → internal e → pstep s e s' → (work s' < work s)%nat.
Proof.
  intros HI He Hstep. destruct Hstep as [|s l1 h l2 s' Hsp Hrun|s l1 h b l2 o x Hr _ _ _|s l1 h b res l2 s' Hr Hrun]; [done|..].
  - destruct (begin_enabled s l1 h l2 HI Hsp) as (s1 & Hrun1 & _ & Hs & Hp & Hc). rewrite Hrun in Hrun1. injection Hrun1 as <-.
    unfold work. rewrite Hs, Hp, Hsp, !length_app. cbn [length].
    destruct Hc as [[-> _]|(b & -> & _)]; [lia|]. rewrite sum_list_with_app. cbn. lia.
  - unfold work. fields. rewrite Hr, !sum_list_with_app. cbn. lia.
  - destruct (end_enabled s l1 h b res l2 HI Hr) as (t & s1 & Ht & Hrun1 & Hp & Hr1 & Hs1). rewrite Hrun in Hrun1. injection Hrun1 as <-.
    assert (length (t_dependent_tasks t) < size (pl_pending s))%nat as Hd.
    { eapply deps_length; [done..|]. rewrite Hr, fmap_app, fmap_cons, elem_of_app, elem_of_cons. cbn. tauto. }
    unfold work. rewrite Hp, Hr1, Hs1, Hr, !length_app, !sum_list_with_app. cbn.
    rewrite map_size_delete_Some by eauto. nia.
Qed.

(** ** Senders *)

Definition senders_of (t : BlockTask) : list BlockResultSender := match t with Exit => [] | Process _ ts => ts end.
Definition received (l : list Event) : list BlockResultSender :=
  l ≫= λ e, match e with EvReceive t => senders_of t | _ => [] end.
Definition held (s : Pipeline S) : list BlockResultSender :=
  gather t_result_transmitters (pl_pending s) ++ (pl_sent s ≫= senders_of) ++ (pl_replies s).*1.

Lemma replies_fst (ts : list BlockResultSender) (res : BlockOutcome) : ((λ t, (t, res)) <$> ts).*1 = ts.
Proof. rewrite <- list_fmap_compose. induction ts; cbn; [done|]. by f_equal. Qed.

Lemma callback_held res t s x : count x (held (callback stage res t s)) = count x (held s ++ t_result_transmitters t).
Proof.
  unfold callback, held. case_match; fields; rewrite ?fmap_app, ?replies_fst, ?bind_app; cbn [senders_of];
    rewrite ?bind_singleton, ?app_nil_r, ?count_app; cbn [senders_of]; lia.
Qed.

Lemma counts_senders p q t x : p !! q = Some t → count x (gather t_result_transmitters p)
  = (count x (t_result_transmitters t) + count x (gather t_result_transmitters (delete q p)))%nat.
Proof. intros Hp. rewrite (count_perm _ _ _ (gather_split t_result_transmitters _ _ _ Hp)). apply count_app. Qed.
Lemma counts_senders_insert p q t x : count x (gather t_result_transmitters (<[q := t]> p))
  = (count x (t_result_transmitters t) + count x (gather t_result_transmitters (delete q p)))%nat.
Proof. rewrite (count_perm _ _ _ (gather_insert t_result_transmitters p q t)). apply count_app. Qed.

Lemma step_senders s e s' : pl_inv s → pstep s e s' → held s' ≡ₚ held s ++ received [e].
Proof.
  intros HI Hstep. apply count_perm_iff. intros x. rewrite count_app. destruct Hstep as [s task s' Hw Hrun|s l1 h l2 s' Hsp Hrun|s l1 h b l2 o y Hr _ _ _|s l1 h b res l2 s' Hr Hrun].
  - unfold received. rewrite bind_singleton. unfold worker in Hrun. destruct task as [|b ts]; cbn [senders_of].
    + revert Hrun. unfold mbind, M_bind, on_pending, modify. rewrite must_wait_ok.
      destruct (negb _); intros [= <-]; unfold held; fields; rewrite ?bind_app, ?bind_singleton; cbn [senders_of]; rewrite ?app_nil_r, ?count_nil; lia.
    + revert Hrun. unfold mbind, M_bind, on_pending, modify. rewrite register_ok.
      destruct (pl_pending s !! block_hash b) as [v|] eqn:Hv; cbn; intros [= <-]; unfold held; fields; rewrite ?count_app, counts_senders_insert.
      * rewrite (counts_senders _ _ _ x Hv). cbn. rewrite count_app. lia.
      * rewrite delete_id by done. cbn. lia.
  - assert (received [if bool_decide (length (pl_running s') = length (pl_running s)) then EvLeave h else EvBegin h] = []) as ->
      by (by case_bool_decide). rewrite count_nil.
    destruct (try_begin_ok s h HI) as (t & Ht & Hcase); [rewrite Hsp, elem_of_app, elem_of_cons; tauto|].
    revert Hrun. unfold queue_block_begin, mbind, M_bind, on_pending. fields.
    destruct Hcase as [(q & tq & Hq & Htq & ->)|[Hno ->]]; intros [= <-]; unfold held; fields; [|lia].
    rewrite ?count_app, counts_senders_insert, (counts_senders _ _ _ x Htq). cbn. lia.
  - change (received [EvProcess h]) with ([] : list BlockResultSender). rewrite count_nil. unfold held. fields. lia.
  - change (received [EvEnd h]) with ([] : list BlockResultSender). rewrite count_nil.
    destruct (running_pending s h HI) as [t Ht]; [rewrite Hr, fmap_app, fmap_cons, elem_of_app, elem_of_cons; cbn; tauto|].
    rewrite (queue_block_end_ok (set_running (l1 ++ l2) s) h res t Ht) in Hrun. cbv zeta in Hrun. revert Hrun. fields.
    set (s0 := mkPipeline _ _ _ _ _ _ _). intros [= <-].
    transitivity (count x (held (callback stage res t s0))).
    + set (s1 := callback stage res t s0). unfold held. repeat case_match; fields; rewrite ?bind_app, ?bind_singleton; cbn; by rewrite ?app_nil_r.
    + rewrite callback_held. unfold held. cbn [s0 pl_pending pl_sent pl_replies]. rewrite !count_app, (counts_senders _ _ _ x Ht). lia.
Qed.
End tasks.
