(* ===== verification/TasksTheorems.v ===== *)
(** * Properties of the task manager

    Order of processing, progress and termination, and the theorems on all runs of a
    processor around the task manager. *)

From S2P Require Import Prelude Hash Interval Uint Target ReachStore Reachability ReachSim ReachTree ReachQuery ReachDag ReachMain ReachService Relations Headers GhostdagStore Ghostdag GhostdagInv GhostdagMerge GhostdagColor GhostdagRun Window WindowProof Difficulty DifficultyProof Stores Depth SelectedChain DepthProof Parents ParentsProof Errors HeaderProcessor HeaderInv HeaderValidate HeaderCommit HeaderRun HeaderMain HeaderTheorems Tx Utxo Hashing HashingProof Merkle Database TxValidator TxValidatorProof Coinbase CoinbaseProof BodyProcessor BodyProof BodyTheorems Tasks TasksProof.

Section runs.
Context {S : Type} (stage : Stage) (process : Block → M S RuleError BlockStatus).
Context (parents : Hash → list Hash).
Local Abbreviation pstep := (pl_step stage process).
Local Abbreviation prun := (pl_run stage process).
Local Abbreviation inv := (pl_inv parents).
Local Abbreviation ok := (event_ok parents).

Lemma run_snoc_inv s l e s' : prun s (l ++ [e]) s' → ∃ s1, prun s l s1 ∧ pstep s1 e s'.
Proof.
  intros Hrun. remember (l ++ [e]) as k eqn:Hk. destruct Hrun as [|s k s1 e' s2 Hr Hs]; [by destruct l|].
  apply app_inj_tail in Hk as [-> ->]. eauto.
Qed.

Lemma run_app_inv s l1 l2 s' : prun s (l1 ++ l2) s' → ∃ s1, prun s l1 s1 ∧ prun s1 l2 s'.
Proof.
  revert s'. induction l2 as [|e l2 IH] using rev_ind; intros s'; [rewrite app_nil_r; exists s'; split; [done|constructor]|].
  rewrite app_assoc. intros (s1 & Hr & Hs)%run_snoc_inv. destruct (IH _ Hr) as (s2 & H1 & H2). exists s2. split; [done|]. by econstructor.
Qed.

Lemma run_cons_inv s e l s' : prun s (e :: l) s' → ∃ s1, pstep s e s1 ∧ prun s1 l s'.
Proof.
  intros (s1 & H1 & H2)%(run_app_inv s [e] l s'). exists s1. split; [|done].
  apply (run_snoc_inv s [] e) in H1 as (s2 & Hr & Hs). remember [] as k eqn:Hk. destruct Hr; [done|]. by destruct l0.
Qed.

Lemma run_cons s e s1 l s' : pstep s e s1 → prun s1 l s' → prun s (e :: l) s'.
Proof.
  intros Hs Hr. induction Hr as [s1|s1 l s2 e' s3 Hr IH Hs']; [apply (run_snoc stage process s [] s e s1); [constructor|done]|].
  rewrite app_comm_cons. econstructor; [by apply IH|done].
Qed.

(** ** Order *)

(** A received block is pending, and stays so until it ends. *)
Lemma received_pending s b ts s' : pstep s (EvReceive (Process b ts)) s' → is_Some (pl_pending s' !! block_hash b).
Proof.
  inversion 1 as [? ? ? Hw Hrun| | |]; subst; [|by case_bool_decide].
  revert Hrun. unfold worker, mbind, M_bind, on_pending, modify. rewrite register_ok.
  destruct (pl_pending s !! block_hash b); cbn; intros [= <-]; cbn; rewrite lookup_insert_eq; eauto.
Qed.

Lemma pending_step s e s' q : inv s → pstep s e s' → is_Some (pl_pending s !! q) → e = EvEnd q ∨ is_Some (pl_pending s' !! q).
Proof.
  intros HI Hstep Hq. destruct Hstep as [s task s' Hw Hrun|s l1 h l2 s' Hsp Hrun|s l1 h b l2 o y Hr _ _ _|s l1 h b res l2 s' Hr Hrun].
  - right. revert Hrun. unfold worker. destruct task as [|b ts]; unfold mbind, M_bind, on_pending, modify.
    + rewrite must_wait_ok. by destruct (negb _); intros [= <-].
    + rewrite register_ok. destruct (pl_pending s !! block_hash b); cbn; intros [= <-]; cbn; apply lookup_insert_is_Some'; by right.
  - right. destruct (try_begin_ok parents s h HI) as (t & Ht & Hcase); [rewrite Hsp, elem_of_app, elem_of_cons; tauto|].
    revert Hrun. unfold queue_block_begin, mbind, M_bind, on_pending. cbn [pl_pending set_spawned].
    destruct Hcase as [(q' & tq & Hq' & Htq & ->)|[Hno ->]]; intros [= <-]; cbn; [|done]. apply lookup_insert_is_Some'. by right.
  - by right.
  - destruct (decide (h = q)) as [->|Hne]; [by left|right]. destruct (end_enabled stage process parents s l1 h b res l2 HI Hr) as (t & s1 & Ht & Hrun1 & Hp & _). rewrite Hrun in Hrun1. injection Hrun1 as <-.
    by rewrite Hp, lookup_delete_ne.
Qed.

Lemma pending_run s l s' q : inv s → Forall ok l → prun s l s' → is_Some (pl_pending s !! q) →
  EvEnd q ∈ l ∨ is_Some (pl_pending s' !! q).
Proof.
  intros HI Hl Hrun Hq. induction Hrun as [|s l s1 e s2 Hrun IH Hstep]; [by right|]. apply Forall_app in Hl as [Hl He].
  rewrite elem_of_app, list_elem_of_singleton. destruct (IH HI Hl Hq) as [?|Hq1]; [by left; left|].
  destruct (pending_step s1 e s2 q) as [->|?]; [by apply (run_inv stage process parents s l)|done|done|by left; right|by right].
Qed.

Lemma begin_parents s h s' q : inv s → pstep s (EvBegin h) s' → q ∈ parents h → pl_pending s !! q = None.
Proof.
  intros HI Hstep Hq. remember (EvBegin h) as e eqn:He. destruct Hstep as [|s l1 h' l2 s' Hsp Hrun| |]; [done| |done|done].
  case_bool_decide as Hlen; [done|]. injection He as ->.
  destruct (begin_enabled parents s l1 h l2 HI Hsp) as (s1 & Hrun1 & _ & _ & _ & Hc). rewrite Hrun in Hrun1. injection Hrun1 as <-.
  destruct Hc as [[Hr _]|(b & _ & _ & Hno)]; [by rewrite Hr in Hlen|by apply Hno].
Qed.

(** ** Progress *)

Section progress.
Context (rank : Hash → nat) (parents_before : ∀ h q, q ∈ parents h → (rank q < rank h)%nat).

(** The pending block of least rank. *)
Lemma least_pending (p : Pending) : p ≠ ∅ → ∃ h, is_Some (p !! h) ∧ ∀ x, is_Some (p !! x) → (rank h ≤ rank x)%nat.
Proof.
  intros Hp. assert (Transitive (λ a b : Hash, (rank a ≤ rank b)%nat)) as Htr by (intros ? ? ?; lia).
  assert (∀ a b : Hash, Decision ((λ a b, (rank a ≤ rank b)%nat) a b)) as Hdec by (intros; apply _).
  destruct (minimal_exists_elem_of (λ a b, (rank a ≤ rank b)%nat) (dom p)) as (h & Hh & Hmin).
  { intros He%dom_empty_iff. done. }
  exists h. split; [by apply elem_of_dom|]. intros x Hx%elem_of_dom. destruct (Nat.le_ge_cases (rank h) (rank x)); [done|]. by apply Hmin.
Qed.

(** Processing the block of this job panics. *)
Definition panics (s : Pipeline S) (j : Job) : Prop :=
  j_result j = None ∧ (fst (process (j_block j) (pl_stores s)) = Panic ∨ fst (process (j_block j) (pl_stores s)) = Fuel).

(** While a block is pending, a job can take a step, or has panicked. *)
Lemma progress s : inv s → pl_pending s ≠ ∅ →
  (∃ e s', internal e ∧ pstep s e s') ∨ ∃ j, j ∈ pl_running s ∧ panics s j.
Proof using parents_before.
  intros HI Hp. destruct (pl_spawned s) as [|h l] eqn:Hsp.
  - destruct (pl_running s) as [|[h b [res|]] l] eqn:Hr.
    + exfalso. destruct (least_pending _ Hp) as (h & Hh & Hmin). pose proof (pi_places _ _ HI h) as Hc. rewrite keys_count in Hc.
      destruct (decide (is_Some (pl_pending s !! h))) in Hc; [|done]. unfold places in Hc. rewrite Hsp, Hr in Hc. cbn [app fmap list_fmap] in Hc.
      assert (h ∈ dependents (pl_pending s)) as Hd by (apply count_pos; lia). apply elem_of_dependents in Hd as (q & t & Hq & Hd).
      pose proof (parents_before h q (pi_deps _ _ HI q t h Hq Hd)). pose proof (Hmin q ltac:(eauto)). lia.
    + left. destruct (end_enabled stage process parents s [] h b res l HI Hr) as (t & s' & _ & Hrun & _). exists (EvEnd h), s'.
      split; [done|]. by apply (step_end stage process s [] h b res l).
    + destruct (process b (pl_stores s)) as [o x] eqn:Hb. destruct o eqn:Ho.
      1,2: left; eexists (EvProcess h), _; split; [done|]; by apply (step_process stage process s [] h b l o x); subst.
      all: right; exists (mkJob h b None); split; [by left|]; split; [done|]; cbn [j_block]; rewrite Hb; auto.
  - left. destruct (begin_enabled parents s [] h l HI Hsp) as (s' & Hrun & _). eexists _, s'.
    split; [|by apply (step_begin stage process s [] h l)]. by case_bool_decide.
Qed.
End progress.

Lemma internal_bound s l s' : inv s → Forall internal l → prun s l s' → (length l + work s' ≤ work s)%nat.
Proof.
  intros HI Hl Hrun. induction Hrun as [|s l s1 e s2 Hrun IH Hstep]; [done|]. apply Forall_app in Hl as [Hl He].
  assert (inv s1) as HI1.
  { eapply run_inv; [done| |done]. eapply Forall_impl; [exact Hl|]. by intros []. }
  pose proof (internal_decreases stage process parents s1 e s2 HI1 (Forall_inv He) Hstep). specialize (IH HI Hl).
  rewrite length_app. cbn [length]. lia.
Qed.

(** ** Blocks that can be processed *)

(** Under [I] a block that is ready for the stores is processed without a panic, [I] is
    kept, and blocks that are ready stay so. *)
Record processor_safe (I : S → Prop) (ready : S → Block → Prop) : Prop := {
  sf_runs : ∀ b x, I x → ready x b → fst (process b x) ≠ Panic ∧ fst (process b x) ≠ Fuel;
  sf_keeps : ∀ b x, I x → ready x b → I (snd (process b x));
  sf_ready : ∀ b c x, I x → ready x b → ready x c → ready (snd (process b x)) c;
}.

Section safe.
Context (I : S → Prop) (ready : S → Block → Prop) (Hsafe : processor_safe I ready).

(** Every block that is held is ready. *)
Record all_ready (s : Pipeline S) : Prop := {
  ar_stores : I (pl_stores s);
  ar_pending : ∀ h t, pl_pending s !! h = Some t → ready (pl_stores s) (t_block t);
  ar_running : ∀ j, j ∈ pl_running s → ready (pl_stores s) (j_block j);
}.
Definition event_ready (x : S) (e : Event) : Prop :=
  match e with EvReceive (Process b _) => ready x b | _ => True end.

Lemma ready_insert x (p : Pending) h t : ready x (t_block t) → (∀ h t, p !! h = Some t → ready x (t_block t)) →
  ∀ h' t', <[h := t]> p !! h' = Some t' → ready x (t_block t').
Proof using Type. intros Ht Hp h' t' [[_ <-]|[_ ?]]%lookup_insert_Some; eauto. Qed.

Lemma receive_ready s task s' : all_ready s → event_ready (pl_stores s) (EvReceive task) →
  worker task s = (Ok tt, s') → all_ready s' ∧ pl_stores s' = pl_stores s.
Proof using Hsafe.
  intros [H1 H2 H3] He. destruct task as [|b ts]; unfold worker, mbind, M_bind, on_pending, modify.
  - rewrite must_wait_ok. destruct (negb _); intros [= <-]; by split; [split|].
  - rewrite register_ok. cbn [event_ready] in He.
    destruct (pl_pending s !! block_hash b) as [t|] eqn:Ht; cbn; intros [= <-]; (split; [split|]); cbn; try done.
    + apply ready_insert; [|done]. cbn. destruct (_ && _); [done|by eapply H2].
    + by apply ready_insert.
Qed.

Lemma begin_ready s l1 h l2 s' : inv s → all_ready s → pl_spawned s = l1 ++ h :: l2 →
  queue_block_begin h (set_spawned (l1 ++ l2) s) = (Ok tt, s') → all_ready s' ∧ pl_stores s' = pl_stores s.
Proof using Hsafe.
  intros HI [H1 H2 H3] Hsp Hrun. destruct (try_begin_ok parents s h HI) as (t & Ht & Hcase); [rewrite Hsp; set_solver|].
  revert Hrun. unfold queue_block_begin, mbind, M_bind, on_pending. cbn [pl_pending set_spawned].
  destruct Hcase as [(q' & tq & Hq' & Htq & ->)|[Hno ->]]; intros [= <-]; (split; [split|]); cbn; try done.
  - apply ready_insert; [|done]. cbn. by eapply H2.
  - intros j [?| ->%list_elem_of_singleton]%elem_of_app; [by apply H3|]. by eapply H2.
Qed.

Lemma step_ready s e s' : inv s → all_ready s → event_ready (pl_stores s) e → pstep s e s' →
  all_ready s' ∧ ∀ c, ready (pl_stores s) c → ready (pl_stores s') c.
Proof using Hsafe.
  intros HI HA He Hstep. pose proof HA as [H1 H2 H3].
  destruct Hstep as [s task s' Hw Hrun|s l1 h l2 s' Hsp Hrun|s l1 h b l2 o y Hr Hrun _ _|s l1 h b res l2 s' Hr Hrun].
  - destruct (receive_ready s task s' HA He Hrun) as [? ->]. done.
  - destruct (begin_ready s l1 h l2 s' HI HA Hsp Hrun) as [? ->]. done.
  - assert (ready (pl_stores s) b) as Hb by (apply (H3 (mkJob h b None)); rewrite Hr; set_solver).
    pose proof (sf_keeps _ _ Hsafe b _ H1 Hb) as HI'. pose proof (λ c, sf_ready _ _ Hsafe b c _ H1 Hb) as Hk.
    rewrite Hrun in HI', Hk. cbn [snd] in HI', Hk. split; [split|]; cbn; [done|eauto| |done].
    intros j [?|[->|?]%elem_of_cons]%elem_of_app; [| |]; cbn; apply Hk; try done; apply H3; rewrite Hr; set_solver.
  - destruct (end_enabled stage process parents s l1 h b res l2 HI Hr) as (t & s1 & Ht & Hrun1 & Hp & Hrest).
    rewrite Hrun in Hrun1. injection Hrun1 as <-.
    assert (pl_stores s' = pl_stores s ∧ pl_running s' = l1 ++ l2) as [Hs Hru].
    { revert Hrun. unfold queue_block_end, mbind, M_bind, on_pending. cbn [pl_pending set_running].
      rewrite (end_task_ok _ _ _ Ht). unfold modify, get, callback.
      destruct (_ || _); cbn; destruct (bool_decide _); destruct (pl_worker s); by intros [= <-]. }
    split; [split|]; rewrite Hs; [done| | |done].
    + rewrite Hp. intros h' t' [_ ?]%lookup_delete_Some. by eapply H2.
    + rewrite Hru. intros j Hj. apply H3. rewrite Hr. set_solver.
Qed.

Lemma run_ready s l s' : inv s → all_ready s → Forall ok l → Forall (event_ready (pl_stores s)) l → prun s l s' →
  all_ready s' ∧ ∀ c, ready (pl_stores s) c → ready (pl_stores s') c.
Proof using Hsafe.
  intros HI HA Hl Hr Hrun. induction Hrun as [|s l s1 e s2 Hrun IH Hstep]; [done|].
  apply Forall_app in Hl as [Hl He]. apply Forall_app in Hr as [Hr Hre%Forall_inv].
  destruct (IH HI HA Hl Hr) as [HA1 Hk1]. destruct (step_ready s1 e s2) as [HA2 Hk2]; [|done| |done|auto].
  - by apply (run_inv stage process parents s l).
  - destruct e as [[|b ts]| | | |]; try done. by apply Hk1.
Qed.

Lemma ready_no_panic s j : all_ready s → j ∈ pl_running s → ¬ panics s j.
Proof using Hsafe.
  intros [H1 _ H3] Hj [_ Hp]. destruct (sf_runs _ _ Hsafe (j_block j) (pl_stores s) H1 (H3 j Hj)). by destruct Hp.
Qed.
End safe.

Lemma run_senders s l s' : inv s → Forall ok l → prun s l s' → held s' ≡ₚ held s ++ received l.
Proof.
  intros HI Hl Hrun. induction Hrun as [|s l s1 e s2 Hrun IH Hstep]; [by rewrite app_nil_r|]. apply Forall_app in Hl as [Hl He].
  rewrite (step_senders stage process parents s1 e s2); [|by apply (run_inv stage process parents s l)|done]. rewrite (IH HI Hl). unfold received.
  by rewrite bind_app, app_assoc.
Qed.
End runs.

(** ** Properties *)

Section theorems.
Context {S : Type} (stage : Stage) (process : Block → M S RuleError BlockStatus).
Context (parents : Hash → list Hash) (rank : Hash → nat).
(** Blocks are received with the parents that their hash commits to, and parents come
    before their children in some order. *)
Definition parents_precede : Prop := ∀ h q, q ∈ parents h → (rank q < rank h)%nat.
Local Abbreviation prun := (pl_run stage process).

(** C30: safety of the pipeline.  In every run of a processor, in which the worker and the
    jobs interleave arbitrarily: a spawned job never panics when it begins, a job with a
    result never panics when it ends; every pending block is in exactly one place
    (spawned, running, or left with one pending parent), so no block is lost and none is
    processed by two jobs at a time; the senders received are exactly those held by the
    pending tasks, forwarded with their blocks, or answered, each once; and after [Exit]
    was passed on nothing is pending and nothing else is sent.  The blocks received have
    a header with at least one level of parents, and the parents that their hashes commit
    to ([event_ok]). *)
Theorem pipeline_safe (x : S) (l : list Event) (s : Pipeline S) :
  Forall (event_ok parents) l → prun (pipeline_new x) l s →
  (∀ l1 h l2, pl_spawned s = l1 ++ h :: l2 → ∃ s', queue_block_begin h (set_spawned (l1 ++ l2) s) = (Ok tt, s')) ∧
  (∀ l1 h b res l2, pl_running s = l1 ++ mkJob h b (Some res) :: l2 →
     ∃ s', queue_block_end stage h res (set_running (l1 ++ l2) s) = (Ok tt, s')) ∧
  (∀ h, count h (pl_spawned s ++ (j_hash <$> pl_running s) ++ dependents (pl_pending s))
        = if decide (is_Some (pl_pending s !! h)) then 1%nat else 0%nat) ∧
  NoDup (j_hash <$> pl_running s) ∧
  gather t_result_transmitters (pl_pending s) ++ (pl_sent s ≫= senders_of) ++ (pl_replies s).*1 ≡ₚ received l ∧
  (Exit ∈ pl_sent s → pl_pending s = ∅ ∧ ∃ sent, pl_sent s = sent ++ [Exit] ∧ Exit ∉ sent).
Proof.
  intros Hl Hrun. pose proof (run_inv stage process parents _ _ _ (inv_new parents x) Hl Hrun) as HI. split_and!.
  - intros l1 h l2 Hsp. destruct (begin_enabled parents s l1 h l2 HI Hsp) as (s' & ? & _). eauto.
  - intros l1 h b res l2 Hr. destruct (end_enabled stage process parents s l1 h b res l2 HI Hr) as (t & s' & _ & ? & _). eauto.
  - intros h. rewrite <- keys_count. apply (pi_places _ _ HI).
  - apply count_block_nodup. intros h. pose proof (pi_places _ _ HI h) as Hc. rewrite keys_count in Hc. unfold places in Hc.
    rewrite !count_app in Hc. destruct (decide _) in Hc; lia.
  - exact (run_senders stage process parents _ _ _ (inv_new parents x) Hl Hrun).
  - intros Hex. destruct (pl_worker s) eqn:Hw; [| |by apply (pi_exited _ _ HI)];
      destruct (pi_open _ _ HI); rewrite ?Hw; done.
Qed.

(** C31: order.  A block that begins to be processed after a parent of it was received
    begins after that parent has ended: in every run, between the two events the parent
    ends. *)
Theorem parents_end_first (x : S) (l1 l2 l3 : list Event) (b : Block) (ts : list BlockResultSender) (c : Hash) (s : Pipeline S) :
  Forall (event_ok parents) (l1 ++ EvReceive (Process b ts) :: l2 ++ EvBegin c :: l3) →
  prun (pipeline_new x) (l1 ++ EvReceive (Process b ts) :: l2 ++ EvBegin c :: l3) s →
  block_hash b ∈ parents c → EvEnd (block_hash b) ∈ l2.
Proof.
  intros Hl Hrun Hpar. apply Forall_app in Hl as [Hl1 Hl]. apply Forall_cons in Hl as [He Hl]. apply Forall_app in Hl as [Hl2 _].
  apply run_app_inv in Hrun as (s1 & Hr1 & Hrun). apply run_cons_inv in Hrun as (s2 & Hs2 & Hrun).
  apply run_app_inv in Hrun as (s3 & Hr3 & Hrun). apply run_cons_inv in Hrun as (s4 & Hs4 & _).
  pose proof (run_inv stage process parents _ _ _ (inv_new parents x) Hl1 Hr1) as HI1.
  pose proof (step_inv stage process parents _ _ _ HI1 He Hs2) as HI2.
  pose proof (run_inv stage process parents _ _ _ HI2 Hl2 Hr3) as HI3.
  destruct (pending_run stage process parents _ _ _ _ HI2 Hl2 Hr3 (received_pending stage process _ _ _ _ Hs2)) as [|[t Ht]]; [done|].
  by rewrite (begin_parents stage process parents _ _ _ _ HI3 Hs4 Hpar) in Ht.
Qed.

(** Nothing is left to do. *)
Definition drained (s : Pipeline S) : Prop :=
  pl_pending s = ∅ ∧ pl_spawned s = [] ∧ pl_running s = [] ∧ pl_worker s ≠ Waiting.

Lemma empty_drained s : pl_inv parents s → pl_pending s = ∅ → drained s.
Proof.
  intros HI He. assert (places s = []) as Hp.
  { destruct (places s) as [|h p] eqn:Hp; [done|]. destruct (placed_pending parents s h HI) as [t Ht]; [rewrite Hp; by left|].
    by rewrite He, lookup_empty in Ht. }
  unfold places in Hp. apply app_eq_nil in Hp as [Hs [Hj _]%app_eq_nil]. apply fmap_nil_inv in Hj.
  split_and!; [done..|]. intros Hw. by destruct (pi_waiting _ _ HI Hw).
Qed.

Lemma internal_ok k : Forall internal k → Forall (event_ok parents) k.
Proof. intros Hk. eapply Forall_impl; [exact Hk|]. by intros []. Qed.

(** C32: no deadlock.  From every state that a run can reach the jobs alone take at most
    [work s] steps, whatever they do; and when they have come to rest, every block has
    ended, no job remains and a worker that waited for idleness has passed [Exit] on,
    unless a job is stopped by a panic while it processes its block.  No job is, if the
    blocks received are ready for a processor that, under an invariant of its stores that
    it keeps, does not panic on blocks that are ready; [process_block_body] is such a
    processor, with its invariant and the blocks whose headers were processed. *)
Theorem pipeline_drains (x : S) (l : list Event) (s : Pipeline S) :
  parents_precede → Forall (event_ok parents) l → prun (pipeline_new x) l s →
  ∀ k s', Forall internal k → prun s k s' →
  (length k ≤ work s)%nat ∧
  ((∃ e s2, internal e ∧ pl_step stage process s' e s2) ∨ drained s' ∨ ∃ j, j ∈ pl_running s' ∧ panics process s' j) ∧
  ∀ I ready, processor_safe process I ready → I x → Forall (event_ready ready x) l →
    ¬ ∃ j, j ∈ pl_running s' ∧ panics process s' j.
Proof.
  intros Hrank Hl Hrun k s' Hk Hr. pose proof (run_inv stage process parents _ _ _ (inv_new parents x) Hl Hrun) as HI.
  pose proof (run_inv stage process parents _ _ _ HI (internal_ok k Hk) Hr) as HI'. split_and!.
  - pose proof (internal_bound stage process parents s k s' HI Hk Hr). lia.
  - destruct (decide (pl_pending s' = ∅)) as [He|Hne]; [by right; left; apply empty_drained|].
    destruct (progress stage process parents rank Hrank s' HI' Hne) as [?|?]; [by left|by right; right].
  - intros I ready Hsafe Hx Hre (j & Hj & Hp).
    destruct (run_ready stage process parents I ready Hsafe (pipeline_new x) l s) as [HA _]; [apply inv_new| |done..|].
    { split; [done|intros ? ? Hn; cbn in Hn; by rewrite lookup_empty in Hn|by intros ? ?%elem_of_nil]. }
    destruct (run_ready stage process parents I ready Hsafe s k s') as [HA' _]; [done|done|by apply internal_ok| |done|].
    { eapply Forall_impl; [exact Hk|]. by intros []. }
    by eapply ready_no_panic.
Qed.
End theorems.

(** ** A run with a block that waits for its parent *)

Definition ex_task_block (h : Hash) (ps : list Hash) : Block :=
  mkBlock (mkHeader h BLOCK_VERSION [ps] 0%N 0%N 0%N 0 0 0 0 0 0 0%N) [].
Definition ex_parent : Block := ex_task_block 2%N [1%N].
Definition ex_child : Block := ex_task_block 3%N [2%N].
Definition ex_parents (h : Hash) : list Hash :=
  if bool_decide (h = 2%N) then [1%N] else if bool_decide (h = 3%N) then [2%N] else [].
Definition ex_process (b : Block) : M nat RuleError BlockStatus := λ n, (Ok StatusHeaderOnly, S n).

Definition ex_p0 : Pipeline nat := pipeline_new 0%nat.
Definition ex_p1 := snd (worker (Process ex_parent [7%nat]) ex_p0).
Definition ex_p2 := snd (worker (Process ex_child [8%nat]) ex_p1).
Definition ex_p3 := snd (queue_block_begin 3%N (set_spawned [2%N] ex_p2)).
Definition ex_p4 := snd (queue_block_begin 2%N (set_spawned [] ex_p3)).
Definition ex_p5 := set_running [mkJob 2%N ex_parent (Some (Ok StatusHeaderOnly))] (set_stores 1%nat ex_p4).
Definition ex_p6 := snd (queue_block_end BodyStage 2%N (Ok StatusHeaderOnly) (set_running [] ex_p5)).
Definition ex_p7 := snd (queue_block_begin 3%N (set_spawned [] ex_p6)).

Definition ex_before : list Event := [EvLeave 3%N; EvBegin 2%N; EvProcess 2%N; EvEnd 2%N].
Definition ex_events : list Event :=
  EvReceive (Process ex_parent [7%nat]) :: (EvReceive (Process ex_child [8%nat]) :: ex_before) ++ [EvBegin 3%N].

Lemma step_begin_event {S} stage process (s : Pipeline S) l1 h l2 s' e :
  pl_spawned s = l1 ++ h :: l2 → queue_block_begin h (set_spawned (l1 ++ l2) s) = (Ok tt, s') →
  e = (if bool_decide (length (pl_running s') = length (pl_running s)) then EvLeave h else EvBegin h) → pl_step stage process s e s'.
Proof. intros H1 H2 ->. by apply (step_begin stage process s l1 h l2). Qed.

Lemma ex_pipeline_run : pl_run BodyStage ex_process ex_p0 ex_events ex_p7.
Proof.
  apply (run_cons _ _ _ _ ex_p1); [by apply step_receive; vm_compute|].
  apply (run_cons _ _ _ _ ex_p2); [by apply step_receive; vm_compute|].
  apply (run_cons _ _ _ _ ex_p3); [by apply (step_begin_event _ _ _ [2%N] 3%N []); vm_compute|].
  apply (run_cons _ _ _ _ ex_p4); [by apply (step_begin_event _ _ _ [] 2%N []); vm_compute|].
  apply (run_cons _ _ _ _ ex_p5); [by apply (step_process _ _ ex_p4 [] 2%N ex_parent []); vm_compute|].
  apply (run_cons _ _ _ _ ex_p6); [by apply (step_end _ _ ex_p5 [] 2%N ex_parent (Ok StatusHeaderOnly) []); vm_compute|].
  apply (run_cons _ _ _ _ ex_p7); [by apply (step_begin_event _ _ _ [] 3%N []); vm_compute|]. constructor.
Qed.

Lemma ex_events_ok : Forall (event_ok ex_parents) ex_events.
Proof. repeat constructor. Qed.

Lemma ex_precede : parents_precede ex_parents N.to_nat.
Proof.
  intros h q. unfold ex_parents. case_bool_decide as H2; [intros ->%list_elem_of_singleton; subst; lia|].
  case_bool_decide as H3; [intros ->%list_elem_of_singleton; subst; lia|]. by intros ?%elem_of_nil.
Qed.

Lemma pipeline_safe_witness : NoDup (j_hash <$> pl_running ex_p7) ∧
  gather t_result_transmitters (pl_pending ex_p7) ++ (pl_sent ex_p7 ≫= senders_of) ++ (pl_replies ex_p7).*1 ≡ₚ [7%nat; 8%nat].
Proof.
  destruct (pipeline_safe BodyStage ex_process ex_parents 0%nat ex_events ex_p7 ex_events_ok ex_pipeline_run)
    as (_ & _ & _ & Hnd & Hs & _). split; [exact Hnd|exact Hs].
Defined.

Lemma parents_end_first_witness : EvEnd (block_hash ex_parent) ∈ EvReceive (Process ex_child [8%nat]) :: ex_before.
Proof.
  refine (parents_end_first BodyStage ex_process ex_parents 0%nat [] _ [] ex_parent [7%nat] 3%N ex_p7 ex_events_ok ex_pipeline_run _).
  apply list_elem_of_singleton. reflexivity.
Defined.

(** ** The body processor *)

Section bodies.
Context `{Hashers} (W : Z) (fuel : nat).

Definition body_node (s : BlockBodyProcessor) : Prop :=
  body_inv W s (node_dag s) ∧ (size (hp_data (bp_stores s)) < fuel)%nat.

Lemma body_processor_safe : processor_safe (process_block_body fuel) body_node (λ s b, body_ready (bp_stores s) b).
Proof.
  split.
  - intros b s [HB Hf] HR. destruct (process_body_ok W s (node_dag s) HB fuel b HR Hf) as (st & _ & Hok).
    by destruct (process_block_body fuel b s) as [[| | |] s'].
  - intros b s [HB Hf] HR. destruct (process_body_ok W s (node_dag s) HB fuel b HR Hf) as (st & Hst & Hok).
    destruct (process_block_body fuel b s) as [o s'] eqn:Hrun. cbn [snd]. split; [by eapply body_step_ok|].
    destruct o as [st'|e| |]; [| |done|done].
    + by destruct Hok as [(-> & _)|(_ & _ & _ & _ & -> & _)].
    + destruct Hok as [(-> & _)|(_ & _ & -> & _)]; [done|]. by destruct (is_retryable e).
  - intros b c s [HB Hf] HR [Hh Ht Hd]. destruct (process_body_ok W s (node_dag s) HB fuel b HR Hf) as (st & Hst & Hok).
    destruct (process_block_body fuel b s) as [[st'|e| |] s']; cbn [snd]; [| |done|done].
    + destruct Hok as [(-> & _)|(_ & _ & _ & _ & -> & _)]; done.
    + destruct Hok as [(-> & _)|(_ & _ & -> & _)]; [done|]. by destruct (is_retryable e).
Qed.
End bodies.

(** The first body of the main network is received. *)
Definition ex_body_parents (h : Hash) : list Hash :=
  if bool_decide (h = block_hash ex_block) then [MAINNET_GENESIS_HASH] else [].
Definition ex_body_rank (h : Hash) : nat := if bool_decide (h = block_hash ex_block) then 1%nat else 0%nat.
Definition ex_body_received : Pipeline BlockBodyProcessor :=
  snd (worker (Process ex_block [7%nat]) (pipeline_new ex_with_header)).

Lemma ex_body_run : pl_run BodyStage (@process_block_body ex_digest 16) (pipeline_new ex_with_header)
  [EvReceive (Process ex_block [7%nat])] ex_body_received.
Proof. apply (run_cons _ _ _ _ ex_body_received); [|constructor]. by apply step_receive. Qed.

Lemma ex_body_precede : parents_precede ex_body_parents ex_body_rank.
Proof.
  intros h q. unfold ex_body_parents, ex_body_rank. case_bool_decide as Hh; [|by intros ?%elem_of_nil].
  intros ->%list_elem_of_singleton. case_bool_decide as Hg; [by vm_compute in Hg|lia].
Qed.

Definition ex_body_begun : Pipeline BlockBodyProcessor :=
  set_running [mkJob (block_hash ex_block) ex_block None] (set_spawned [] ex_body_received).

Lemma ex_body_begin : pl_run BodyStage (@process_block_body ex_digest 16) ex_body_received
  [EvBegin (block_hash ex_block)] ex_body_begun.
Proof. apply (run_cons _ _ _ _ ex_body_begun); [|constructor]. by apply (step_begin_event _ _ _ [] (block_hash ex_block) []). Qed.

(** Once begun, its processing ends without a panic. *)
Lemma pipeline_drains_witness :
  ∃ e s2, internal e ∧ pl_step BodyStage (@process_block_body ex_digest 16) ex_body_begun e s2.
Proof.
  destruct (pipeline_drains BodyStage (@process_block_body ex_digest 16) ex_body_parents ex_body_rank ex_with_header
    [EvReceive (Process ex_block [7%nat])] ex_body_received ex_body_precede ltac:(by repeat constructor) ex_body_run
    [EvBegin (block_hash ex_block)] ex_body_begun ltac:(by repeat constructor) ex_body_begin) as (_ & Hcase & Hno).
  destruct Hcase as [Hstep|[(_ & _ & Hr & _)|Hp]]; [exact Hstep|discriminate Hr|].
  destruct (Hno _ _ (body_processor_safe ex_work 16) (conj ex_with_header_inv ex_fuel)
    ltac:(constructor; [exact ex_block_ready|constructor]) Hp).
Defined.
