(* ===== verification/U3072.v ===== *)
(** * The field of the multiset hash

    [crypto/muhash/src/u3072.rs]: numbers of 48 limbs modulo the prime 2^3072 - 1103717,
    with a multiplication that reduces while it sums the columns of the product.  The
    inverse calls the external natural numbers of malachite through
    [Uint3072::mod_inverse]: [natural_mod_inverse] is a parameter. *)

From S2P Require Import Prelude Uint.

Definition u128_max : Z := 2 ^ 128 - 1.
Definition add128 {E} (a b : Z) : outcome E Z := checked u128_max (a + b).

(** [overflow as Limb]. *)
Definition as_limb (b : bool) : Z := if b then 1 else 0.

(** [Natural::from_limbs_asc] is [val]; [into_limbs_asc], copied into [n] limbs. *)
Fixpoint limbs_of (n : nat) (v : Z) : Uint.Uint :=
  match n with O => [] | S n' => v mod B :: limbs_of n' (v / B) end.

Section inverse.
Context (natural_mod_inverse : Z → Z → option Z).

Definition mod_inverse {E} (n : nat) (self prime : Uint.Uint) : outcome E (option Uint.Uint) :=
  match natural_mod_inverse (Uint.val self) (Uint.val prime) with
  | None => mret None
  | Some v => assert (v <? B ^ Z.of_nat n);; mret (Some (limbs_of n v))
  end.
End inverse.

Module U3072.
Import Uint.

Definition LIMBS : nat := 48.
Definition PRIME_DIFF : Z := 1103717.

Definition zero : Uint := ZERO LIMBS.
Definition UINT_PRIME : Uint := <[0%nat := u64_max - (PRIME_DIFF - 1)]> (MAX LIMBS).
Definition one : Uint := <[0%nat := 1]> zero.

Definition is_overflow (self : Uint) : bool :=
  if limb self 0 <=? u64_max - PRIME_DIFF then false
  else forallb (λ limb, limb =? u64_max) (drop 1 self).

(** The loop of [full_reduce], and of the second reduction of [mul]: the limbs are
    added to the two words that are carried along. *)
Fixpoint carry_limbs (limbs : list Z) (low high : Z) : list Z * Z * Z :=
  match limbs with
  | [] => ([], low, high)
  | limb :: rest =>
      let '(low, overflow) := word_add low limb in
      let '(high, overflow) := word_add high (as_limb overflow) in
      let '(limbs', low', high') := carry_limbs rest high (as_limb overflow) in
      (low :: limbs', low', high')
  end.
Definition full_reduce (self : Uint) : Uint := (carry_limbs self PRIME_DIFF 0).1.1.

Definition mul_wide (a b : Z) : Z * Z := let t := a * b in (t mod B, Z.shiftr t 64).

Definition mulnadd3 {E} (c0 c1 d0 d1 d2 n : Z) : outcome E (Z * Z * Z) :=
  t ← add128 (d0 * n) c0;
  let c0 := t mod B in
  let t := Z.shiftr t 64 in
  x ← add128 (d1 * n) c1;
  t ← add128 t x;
  let c1 := t mod B in
  let t := Z.shiftr t 64 in
  y ← mul64 d2 n;
  c2 ← add64 (t mod B) y;
  mret (c0, c1, c2).

Definition muladd3 {E} (a b low high carry : Z) : outcome E (Z * Z * Z) :=
  let '(tl, th) := mul_wide a b in
  let '(low, overflow) := word_add low tl in
  th ← add64 th (as_limb overflow);
  let '(high, overflow) := word_add high th in
  carry ← add64 carry (as_limb overflow);
  mret (low, high, carry).

Definition muln2 {E} (low high n : Z) : outcome E (Z * Z) :=
  let tmp := low * n in
  let low := tmp mod B in
  tmp ← add128 (Z.shiftr tmp 64) (high * n);
  mret (low, tmp mod B).

(** [for i in l]: the products of one column, [self.limbs[i] * other.limbs[k - i]]. *)
Definition add_column {E} (self other : Uint) (k : nat) (l : list nat) (acc : Z * Z * Z) : outcome E (Z * Z * Z) :=
  ofold (λ '(low, high, carry) i, muladd3 (limb self i) (limb other (k - i)) low high carry) acc l.

(** The body of the loop over [j], up to the extraction of the limb. *)
Definition mul_column {E} (self other : Uint) (j : nat) (carry_low carry_high : Z) : outcome E (Z * Z * Z) :=
  let '(low, high) := mul_wide (limb self (j + 1)) (limb other (LIMBS + j - (1 + j))) in
  '(low, high, carry) ← add_column self other (LIMBS + j) (seq (2 + j) (LIMBS - (2 + j))) (low, high, 0);
  acc ← mulnadd3 carry_low carry_high low high carry PRIME_DIFF;
  add_column self other j (seq 0 (j + 1)) acc.

Definition mul_step {E} (self other : Uint) (st : Uint * (Z * Z * Z)) (j : nat) : outcome E (Uint * (Z * Z * Z)) :=
  let '(tmp, (carry_low, carry_high, _)) := st in
  '(carry_low, carry_high, carry_highest) ← mul_column self other j carry_low carry_high;
  mret (<[j := carry_low]> tmp, (carry_high, carry_highest, 0)).

Definition mul {E} (self other : Uint) : outcome E Uint :=
  '(tmp, (carry_low, carry_high, carry_highest)) ← ofold (mul_step self other) (one, (0, 0, 0)) (seq 0 (LIMBS - 1));
  assert (carry_highest =? 0);;
  '(carry_low, carry_high, carry_highest) ←
    add_column self other (LIMBS - 1) (seq 0 LIMBS) (carry_low, carry_high, carry_highest);
  let tmp := <[(LIMBS - 1)%nat := carry_low]> tmp in
  '(carry_low, carry_high) ← muln2 carry_high carry_highest PRIME_DIFF;
  let '(self, carry_low, carry_high) := carry_limbs tmp carry_low carry_high in
  assert (carry_high =? 0);;
  assert ((carry_low =? 0) || (carry_low =? 1));;
  let self := if is_overflow self then full_reduce self else self in
  mret (if negb (carry_low =? 0) then full_reduce self else self).

Section inverse.
Context (natural_mod_inverse : Z → Z → option Z).

(** With the check of a build with debug assertions. *)
Definition inverse {E} (self : Uint) : outcome E Uint :=
  let a := if is_overflow self then full_reduce self else self in
  if bool_decide (a = zero) then mret a
  else
    found ← mod_inverse natural_mod_inverse LIMBS a UINT_PRIME;
    inv ← unwrap_opt found;
    product ← mul inv a;
    assert (bool_decide (product = one));;
    mret inv.

Definition div {E} (self other : Uint) : outcome E Uint :=
  inv ← (if is_overflow other then inverse (full_reduce other) else inverse other);
  let self := if is_overflow self then full_reduce self else self in
  self ← mul self inv;
  mret (if is_overflow self then full_reduce self else self).
End inverse.

Definition from_le_bytes (bytes : list N) : Uint := Uint.from_le_bytes LIMBS (Z.of_N <$> bytes).
Definition to_le_bytes (self : Uint) : list N := Z.to_N <$> Uint.to_le_bytes self.

(** ** Correctness *)

(** The modulus. *)
Definition prime : Z := B ^ 48 - PRIME_DIFF.

Lemma prime_pos : 50 * B * PRIME_DIFF + PRIME_DIFF < prime.
Proof. unfold prime. vm_compute. done. Qed.

Lemma big_pow : B ^ 48 = B * B ^ 47.
Proof. by vm_compute. Qed.

Lemma max_tail l : Forall word_ok l → 0 ≤ val l < B ^ Z.of_nat (length l)
  ∧ (forallb (λ x, x =? u64_max) l = true ↔ val l = B ^ Z.of_nat (length l) - 1).
Proof.
  induction 1 as [|x l Hx _ IH].
  { split; [done|]. split; done. }
  destruct IH as [Hb IH]. cbn [forallb length]. rewrite val_cons, pow_S, andb_true_iff, Z.eqb_eq, IH.
  change u64_max with (B - 1). unfold word_ok in Hx. revert Hb Hx.
  generalize (B ^ Z.of_nat (length l)) (val l). intros q v Hb Hx. split; [nia|]. split; [nia|]. intros Heq.
  assert (v = q - 1) by nia. nia.
Qed.

Lemma is_overflow_ok a : wf LIMBS a → is_overflow a = (prime <=? val a).
Proof.
  intros [Hl Hw]. destruct a as [|x a]; [done|]. apply Forall_cons in Hw as [Hx Hw].
  assert (length a = 47%nat) as Hla by (cbn [length] in Hl; unfold LIMBS in Hl; lia).
  destruct (max_tail a Hw) as [Hb Hmax]. rewrite Hla in Hb, Hmax. change (Z.of_nat 47) with 47 in *.
  unfold is_overflow. change (limb (x :: a) 0) with x. change (drop 1 (x :: a)) with a. rewrite val_cons.
  unfold prime. rewrite big_pow. change u64_max with (B - 1) in *. unfold PRIME_DIFF, word_ok in *. revert Hb Hmax.
  generalize (B ^ 47) (val a). intros q v Hb Hmax. pose proof B_val.
  destruct (Z.leb_spec x (B - 1 - 1103717)); [symmetry; apply Z.leb_gt; nia|].
  destruct (forallb _ a).
  - assert (v = q - 1) by (by apply Hmax). symmetry. apply Z.leb_le. nia.
  - symmetry. apply Z.leb_gt. assert (v ≠ q - 1) by (intros Hv; by apply Hmax in Hv). nia.
Qed.

Lemma as_limb_word b : word_ok (as_limb b).
Proof. by destruct b. Qed.

(** [overflowing_add] keeps the sum. *)
Lemma word_add_ok x y : word_ok x → word_ok y →
  ∃ z c, word_add x y = (z, c) ∧ word_ok z ∧ z + B * as_limb c = x + y.
Proof.
  intros Hx Hy. unfold word_add. do 2 eexists. split; [done|]. unfold word_ok in *. pose proof B_val as HB.
  destruct (Z.leb_spec B (x + y)); cbn [as_limb]; split; try (apply Z.mod_pos_bound; done).
  - rewrite <- (Z.mod_unique (x + y) B 1 (x + y - B)); lia.
  - rewrite Z.mod_small; lia.
Qed.

Lemma carry_limbs_ok l low high : Forall word_ok l → word_ok low → word_ok high →
  ∃ r low' high', carry_limbs l low high = (r, low', high') ∧ wf (length l) r ∧ word_ok low' ∧ word_ok high'
    ∧ val r + B ^ Z.of_nat (length l) * (low' + B * high') = val l + low + B * high.
Proof.
  intros Hl. revert low high. induction Hl as [|x l Hx _ IH]; intros low high Hlow Hhigh; cbn [carry_limbs length].
  { do 3 eexists. split; [done|]. rewrite pow_0. change (val []) with 0. split_and!; try done. lia. }
  destruct (word_add_ok low x Hlow Hx) as (z & c & -> & Hz & Ez).
  destruct (word_add_ok high (as_limb c) Hhigh (as_limb_word c)) as (w & d & -> & Hw & Ew).
  destruct (IH w (as_limb d) Hw (as_limb_word d)) as (r & low' & high' & -> & Hr & Hl' & Hh' & Ev).
  do 3 eexists. split; [done|]. split_and!; [by apply wf_cons|done..|].
  rewrite !val_cons, pow_S. revert Ev Ew Ez. generalize (B ^ Z.of_nat (length l)). intros. nia.
Qed.

Lemma full_reduce_ok a : wf LIMBS a → wf LIMBS (full_reduce a) ∧ val (full_reduce a) = (val a + PRIME_DIFF) mod B ^ 48.
Proof.
  intros [Hl Hw]. unfold full_reduce.
  destruct (carry_limbs_ok a PRIME_DIFF 0 Hw) as (r & low & high & -> & Hr & Hlow & Hhigh & Hv); [done..|].
  rewrite Hl in Hr, Hv. split; [done|]. cbn [fst]. apply Z.mod_unique with (low + B * high).
  - left. pose proof (val_bound r (proj2 Hr)) as Hb. by rewrite (proj1 Hr) in Hb.
  - change (Z.of_nat LIMBS) with 48 in Hv. lia.
Qed.

(** *** Three words *)

Definition words3 (x : Z * Z * Z) : Prop := let '(low, high, carry) := x in word_ok low ∧ word_ok high ∧ word_ok carry.
Definition val3 (x : Z * Z * Z) : Z := let '(low, high, carry) := x in low + B * high + B * B * carry.

Lemma mul_wide_ok a b : word_ok a → word_ok b →
  ∃ tl th, mul_wide a b = (tl, th) ∧ word_ok tl ∧ 0 ≤ th ≤ B - 2 ∧ tl + B * th = a * b.
Proof.
  intros Ha Hb. unfold mul_wide. rewrite shiftr_B. do 2 eexists. split; [done|]. unfold word_ok in *.
  destruct (divmod_B (a * b)) as [Hd Hm]. split; [done|]. split; [|lia].
  split; [apply Z.div_pos; [nia|done]|]. pose proof B_val. nia.
Qed.

Lemma muladd3_ok {E} a b acc : word_ok a → word_ok b → words3 acc → val3 acc + a * b < B * B * B →
  ∃ acc', muladd3 (E:=E) a b acc.1.1 acc.1.2 acc.2 = Ok acc' ∧ words3 acc' ∧ val3 acc' = val3 acc + a * b.
Proof.
  destruct acc as [[low high] carry]. intros Ha Hb (Hlow & Hhigh & Hcarry) Hlt. unfold muladd3. cbn [fst snd].
  destruct (mul_wide_ok a b Ha Hb) as (tl & th & -> & Htl & Hth & Et).
  destruct (word_add_ok low tl Hlow Htl) as (l & c & -> & Hl & El).
  assert (0 ≤ as_limb c ≤ 1) as Hc by (destruct c; done).
  change (val3 (low, high, carry)) with (low + B * high + B * B * carry) in *.
  rewrite (add64_ok th) by (change u64_max with (B - 1); lia). cbn [mbind outcome_bind mret outcome_ret].
  destruct (word_add_ok high (th + as_limb c) Hhigh) as (h & d & -> & Hh & Eh); [unfold word_ok; lia|].
  assert (0 ≤ as_limb d ≤ 1) as Hd by (destruct d; done).
  assert (l + B * h + B * B * (carry + as_limb d) = low + B * high + B * B * carry + a * b) as Ev by nia.
  unfold word_ok in *. pose proof B_val as HB. assert (carry + as_limb d < B) by nia.
  rewrite (add64_ok carry) by (change u64_max with (B - 1); lia).
  eexists. split; [done|]. split; [|exact Ev]. split_and!; unfold word_ok; lia.
Qed.

(** The sum of the products of a column. *)
Definition column (self other : Uint) (k : nat) (l : list nat) : Z :=
  zsum ((λ i, limb self i * limb other (k - i)) <$> l).

Lemma column_bound a b k l : Forall word_ok a → Forall word_ok b →
  0 ≤ column a b k l ≤ Z.of_nat (length l) * (B * B).
Proof.
  intros Ha Hb. unfold column. induction l as [|i l IH]; cbn [fmap list_fmap length zsum foldr]; [lia|].
  fold (zsum ((λ i, limb a i * limb b (k - i)) <$> l)) in *.
  pose proof (limb_ok a i Ha) as H1. pose proof (limb_ok b (k - i) Hb) as H2. unfold word_ok in *. nia.
Qed.

Lemma add_column_ok {E} a b k l acc : Forall word_ok a → Forall word_ok b → words3 acc →
  val3 acc + column a b k l < B * B * B →
  ∃ acc', add_column (E:=E) a b k l acc = Ok acc' ∧ words3 acc' ∧ val3 acc' = val3 acc + column a b k l.
Proof.
  intros Ha Hb. unfold add_column. revert acc. induction l as [|i l IH]; intros acc Hacc Hlt.
  { exists acc. split; [done|]. split; [done|]. unfold column. simpl. lia. }
  change (column a b k (i :: l)) with (limb a i * limb b (k - i) + column a b k l) in *.
  pose proof (column_bound a b k l Ha Hb) as [Hc _]. cbn [ofold].
  destruct (muladd3_ok (E:=E) (limb a i) (limb b (k - i)) acc) as (acc' & Hm & Hw & Hv); [by apply limb_ok..|done|lia|].
  destruct acc as [[low high] carry]. cbn [fst snd] in Hm. rewrite Hm. cbn [mbind outcome_bind].
  destruct (IH acc' Hw) as (acc'' & -> & Hw' & Hv'); [lia|]. exists acc''. split_and!; [done..|lia].
Qed.

Lemma mulnadd3_ok {E} c0 c1 d : word_ok c0 → word_ok c1 → words3 d → d.2 ≤ 48 →
  ∃ acc, mulnadd3 (E:=E) c0 c1 d.1.1 d.1.2 d.2 PRIME_DIFF = Ok acc ∧ words3 acc
    ∧ val3 acc = c0 + B * c1 + PRIME_DIFF * val3 d.
Proof.
  destruct d as [[d0 d1] d2]. cbn [fst snd]. intros H0 H1 (Hd0 & Hd1 & Hd2) Hsmall. unfold mulnadd3, add128, word_ok, PRIME_DIFF in *.
  change (val3 (d0, d1, d2)) with (d0 + B * d1 + B * B * d2). pose proof B_val as HB. unfold u128_max.
  change (2 ^ 128) with (B * B). rewrite (checked_ok _ (d0 * 1103717 + c0)) by nia. cbn [mbind outcome_bind mret outcome_ret].
  rewrite shiftr_B. destruct (divmod_B (d0 * 1103717 + c0)) as [E0 M0].
  set (q0 := (d0 * 1103717 + c0) / B) in *. set (m0 := (d0 * 1103717 + c0) mod B) in *.
  assert (0 ≤ q0 ≤ 1103717) by nia. rewrite checked_ok by nia. cbn [mbind outcome_bind mret outcome_ret].
  rewrite checked_ok by nia. cbn [mbind outcome_bind mret outcome_ret].
  rewrite shiftr_B. set (t := q0 + (d1 * 1103717 + c1)) in *. destruct (divmod_B t) as [E1 M1].
  set (q1 := t / B) in *. set (m1 := t mod B) in *.
  assert (0 ≤ q1 ≤ 1103718) by (subst t; nia). rewrite (Z.mod_small q1) by lia.
  rewrite mul64_ok by (change u64_max with (B - 1); lia). cbn [mbind outcome_bind mret outcome_ret].
  rewrite add64_ok by (change u64_max with (B - 1); lia). eexists. split; [done|].
  split; [split_and!; unfold word_ok; lia|]. unfold val3. subst t. nia.
Qed.

(** *** The columns of the product *)

Lemma zsum_ext {A} (f g : A → Z) l : (∀ x, x ∈ l → f x = g x) → zsum (f <$> l) = zsum (g <$> l).
Proof. intros Hfg. f_equal. apply list_fmap_ext. intros i x Hx. by apply Hfg, list_elem_of_lookup_2 with i. Qed.
Lemma zsum_scale {A} (f : A → Z) c l : zsum ((λ x, c * f x) <$> l) = c * zsum (f <$> l).
Proof. induction l as [|x l IH]; [simpl; lia|]. rewrite !fmap_cons, !zsum_cons, IH. lia. Qed.
Lemma zsum_plus {A} (f g : A → Z) l : zsum ((λ x, f x + g x) <$> l) = zsum (f <$> l) + zsum (g <$> l).
Proof. induction l as [|x l IH]; [done|]. rewrite !fmap_cons, !zsum_cons, IH. lia. Qed.
Lemma zsum_exchange {A C} (f : A → C → Z) l k :
  zsum ((λ x, zsum ((λ y, f x y) <$> k)) <$> l) = zsum ((λ y, zsum ((λ x, f x y) <$> l)) <$> k).
Proof.
  induction l as [|x l IH].
  - induction k as [|y k IHk]; [done|]. by rewrite fmap_cons, zsum_cons, <- IHk.
  - rewrite fmap_cons, zsum_cons, IH, <- (zsum_plus (f x)). done.
Qed.
Lemma seq_plus i n : seq i n = Nat.add i <$> seq 0 n.
Proof. revert i. induction n as [|n IH]; intros i; [done|]. cbn [seq fmap list_fmap]. rewrite (IH (S i)), (IH 1%nat), <- list_fmap_compose. f_equal; [lia|]. apply list_fmap_ext. intros. simpl. lia. Qed.

Lemma val_sum l : val l = zsum ((λ j, B ^ Z.of_nat j * limb l j) <$> seq 0 (length l)).
Proof.
  induction l as [|x l IH]; [done|]. rewrite val_cons. cbn [length seq fmap list_fmap zsum foldr].
  rewrite (seq_plus 1), <- list_fmap_compose. change (limb (x :: l) 0) with x. rewrite pow_0, Z.mul_1_l. f_equal.
  rewrite IH, <- zsum_scale. apply zsum_ext. intros j _. cbn [compose Nat.add].
  change (limb (x :: l) (S j)) with (limb l j). rewrite pow_S. lia.
Qed.

Lemma pow_plus i j : B ^ Z.of_nat (i + j) = B ^ Z.of_nat i * B ^ Z.of_nat j.
Proof. rewrite Nat2Z.inj_add. apply Z.pow_add_r; lia. Qed.

(** The factor of [self.limbs[i]] in column [j], where a limb of weight [B ^ n] or more
    counts [X] times. *)
Definition entry (n : nat) (X : Z) (b : Uint) (j i : nat) : Z :=
  if (i <=? j)%nat then limb b (j - i) else X * limb b (n + j - i).

Lemma row_sum n X b i : length b = n → (i ≤ n)%nat →
  zsum ((λ j, B ^ Z.of_nat j * entry n X b j i) <$> seq 0 n)
  = B ^ Z.of_nat i * val (take (n - i) b) + X * val (drop (n - i) b).
Proof.
  intros Hl Hi. assert (seq 0 n = seq 0 i ++ seq i (n - i)) as ->.
  { replace n with (i + (n - i))%nat at 1 by lia. by rewrite seq_app. }
  rewrite fmap_app, zsum_app, Z.add_comm. f_equal.
  - rewrite (seq_plus i), <- list_fmap_compose, val_sum, length_take, <- zsum_scale.
    replace (_ `min` _)%nat with (n - i)%nat by lia. apply zsum_ext. intros j Hj%elem_of_seq. cbn [compose].
    unfold entry. rewrite (proj2 (Nat.leb_le _ _)) by lia. rewrite pow_plus, <- Z.mul_assoc. do 2 f_equal.
    replace (i + j - i)%nat with j by lia. unfold limb. rewrite !nth_lookup, lookup_take_lt by lia. done.
  - rewrite val_sum, length_drop, <- zsum_scale. replace (length b - (n - i))%nat with i by lia.
    apply zsum_ext. intros j Hj%elem_of_seq. unfold entry. rewrite (proj2 (Nat.leb_gt _ _)) by lia.
    unfold limb. rewrite !nth_lookup, lookup_drop. replace (n + j - i)%nat with (n - i + j)%nat by lia. lia.
Qed.

Definition wide_column (a b : Uint) (j : nat) : Z :=
  column a b j (seq 0 (j + 1)) + PRIME_DIFF * column a b (LIMBS + j) (seq (1 + j) (LIMBS - (1 + j))).

Lemma wide_column_entries a b j : (j < LIMBS)%nat →
  wide_column a b j = zsum ((λ i, limb a i * entry LIMBS PRIME_DIFF b j i) <$> seq 0 LIMBS).
Proof.
  intros Hj. assert (seq 0 LIMBS = seq 0 (j + 1) ++ seq (1 + j) (LIMBS - (1 + j))) as ->.
  { replace LIMBS with ((1 + j) + (LIMBS - (1 + j)))%nat at 1 by lia. rewrite seq_app. by rewrite (Nat.add_comm j). }
  rewrite fmap_app, zsum_app. unfold wide_column, column. f_equal.
  - apply zsum_ext. intros i Hi%elem_of_seq. unfold entry. by rewrite (proj2 (Nat.leb_le _ _)) by lia.
  - rewrite <- zsum_scale. apply zsum_ext. intros i Hi%elem_of_seq.
    unfold entry. rewrite (proj2 (Nat.leb_gt _ _)) by lia. lia.
Qed.

(** The columns, with the high ones counted [PRIME_DIFF] times, are the product up to a
    multiple of the modulus. *)
Lemma columns_product a b : wf LIMBS a → wf LIMBS b →
  ∃ q, val a * val b = zsum ((λ j, B ^ Z.of_nat j * wide_column a b j) <$> seq 0 LIMBS) + prime * q.
Proof.
  intros [Hla Ha] [Hlb Hb]. exists (zsum ((λ i, limb a i * val (drop (LIMBS - i) b)) <$> seq 0 LIMBS)).
  rewrite (zsum_ext _ (λ j, zsum ((λ i, limb a i * (B ^ Z.of_nat j * entry LIMBS PRIME_DIFF b j i)) <$> seq 0 LIMBS))).
  2:{ intros j Hj%elem_of_seq. rewrite wide_column_entries by lia. rewrite <- zsum_scale. apply zsum_ext. intros; lia. }
  rewrite zsum_exchange, <- zsum_scale, <- zsum_plus, (val_sum a), Hla, Z.mul_comm, <- zsum_scale.
  apply zsum_ext. intros i Hi%elem_of_seq. rewrite zsum_scale, row_sum by (done || lia).
  pose proof (val_take_drop (LIMBS - i) b) as Hsplit. rewrite Hsplit at 1 by lia.
  assert (B ^ 48 = B ^ Z.of_nat i * B ^ Z.of_nat (LIMBS - i)) as Hp.
  { rewrite <- pow_plus. replace (i + (LIMBS - i))%nat with LIMBS by lia. done. }
  unfold prime. rewrite Hp. ring.
Qed.

(** *** Multiplication *)

Section mul_proof.
Context {E : Type} (a b : Uint) (Hwa : wf LIMBS a) (Hwb : wf LIMBS b).

Lemma wide_column_bound j : (j < LIMBS)%nat → 0 ≤ wide_column a b j ≤ 48 * PRIME_DIFF * (B * B).
Proof using Hwa Hwb.
  intros Hj. destruct Hwa as [_ Ha], Hwb as [_ Hb]. unfold wide_column.
  pose proof (column_bound a b j (seq 0 (j + 1)) Ha Hb) as H1.
  pose proof (column_bound a b (LIMBS + j) (seq (1 + j) (LIMBS - (1 + j))) Ha Hb) as H2.
  rewrite length_seq in H1, H2. unfold LIMBS, PRIME_DIFF in *. pose proof B_val. nia.
Qed.

Lemma mul_column_ok j carry_low carry_high : (j < LIMBS - 1)%nat → word_ok carry_low → word_ok carry_high →
  ∃ acc, mul_column (E:=E) a b j carry_low carry_high = Ok acc ∧ words3 acc
    ∧ val3 acc = carry_low + B * carry_high + wide_column a b j.
Proof using Hwa Hwb.
  intros Hj Hlow Hhigh. destruct Hwa as [_ Ha], Hwb as [_ Hb]. unfold mul_column. pose proof B_val as HB.
  destruct (mul_wide_ok (limb a (j + 1)) (limb b (LIMBS + j - (1 + j)))) as (tl & th & -> & Htl & Hth & Et); [by apply limb_ok..|].
  assert (column a b (LIMBS + j) (seq (1 + j) (LIMBS - (1 + j))) =
    tl + B * th + column a b (LIMBS + j) (seq (2 + j) (LIMBS - (2 + j)))) as Hcol.
  { rewrite Et. unfold LIMBS in *. replace (48 - (1 + j))%nat with (S (48 - (2 + j))) by lia. cbn [seq]. unfold column.
    rewrite fmap_cons, zsum_cons. replace (j + 1)%nat with (1 + j)%nat by lia. done. }
  pose proof (column_bound a b (LIMBS + j) (seq (1 + j) (LIMBS - (1 + j))) Ha Hb) as Hb1. rewrite length_seq in Hb1.
  destruct (add_column_ok (E:=E) a b (LIMBS + j) (seq (2 + j) (LIMBS - (2 + j))) (tl, th, 0)) as (d & -> & Hd & Ed);
    [done..|split_and!; unfold word_ok in *; lia| |].
  { change (val3 (tl, th, 0)) with (tl + B * th + B * B * 0). unfold LIMBS in *. nia. }
  change (val3 (tl, th, 0)) with (tl + B * th + B * B * 0) in Ed.
  cbn [mbind outcome_bind mret outcome_ret]. destruct d as [[low high] carry].
  destruct (mulnadd3_ok (E:=E) carry_low carry_high (low, high, carry)) as (acc & Hacc & Hw & Ev); [done..| |].
  { destruct Hd as (Hd0 & Hd1 & Hd2). change (val3 (low, high, carry)) with (low + B * high + B * B * carry) in Ed.
    cbn [snd]. unfold word_ok, LIMBS in *. nia. }
  cbn [fst snd] in Hacc. rewrite Hacc. cbn [mbind outcome_bind mret outcome_ret].
  assert (val3 acc + column a b j (seq 0 (j + 1)) = carry_low + B * carry_high + wide_column a b j) as Esum.
  { rewrite Ev, Ed. unfold wide_column. rewrite Hcol. lia. }
  destruct (add_column_ok (E:=E) a b j (seq 0 (j + 1)) acc) as (acc' & -> & Hw' & Ev'); [done..| |exists acc'; split_and!; [done..|lia]].
  rewrite Esum. pose proof (wide_column_bound j ltac:(lia)). unfold word_ok, PRIME_DIFF in *. nia.
Qed.

(** After [j] columns. *)
Definition partial (j : nat) : Z := zsum ((λ i, B ^ Z.of_nat i * wide_column a b i) <$> seq 0 j).

Definition mul_inv (done : list nat) (st : Uint * (Z * Z * Z)) : Prop :=
  let '(tmp, (carry_low, carry_high, carry_highest)) := st in
  let j := length done in
  wf LIMBS tmp ∧ word_ok carry_low ∧ word_ok carry_high ∧ carry_highest = 0
  ∧ val (take j tmp) + B ^ Z.of_nat j * (carry_low + B * carry_high) = partial j.

Lemma take_insert_here (l : Uint) j x : (j < length l)%nat → take (S j) (<[j := x]> l) = take j l ++ [x].
Proof.
  clear. intros Hj. unfold Uint in *. rewrite (take_S_r _ j x).
  - rewrite take_insert_ge by lia. done.
  - by rewrite list_lookup_insert_eq.
Qed.

Lemma partial_S j : partial (S j) = partial j + B ^ Z.of_nat j * wide_column a b j.
Proof. unfold partial. rewrite seq_S, fmap_app, zsum_app. cbn [fmap list_fmap zsum foldr Nat.add]. lia. Qed.

(** One limb is extracted. *)
Lemma extract_ok tmp j low high carry acc : wf LIMBS tmp → (j < LIMBS)%nat → words3 (low, high, carry) →
  val3 (low, high, carry) = acc + wide_column a b j → val (take j tmp) + B ^ Z.of_nat j * acc = partial j →
  wf LIMBS (<[j := low]> tmp)
  ∧ val (take (S j) (<[j := low]> tmp)) + B ^ Z.of_nat (S j) * (high + B * carry) = partial (S j).
Proof using.
  intros Hwf Hj (Hlow & _ & _) Ev Ep. split; [by apply wf_insert|].
  rewrite take_insert_here by (destruct Hwf as [-> _]; lia). rewrite val_app, length_take_le by (destruct Hwf as [-> _]; lia).
  rewrite partial_S, pow_S, <- Ep. change (val [low]) with (low + B * 0). unfold val3 in Ev.
  revert Ev. generalize (B ^ Z.of_nat j). intros q Ev. nia.
Qed.

Lemma mul_loop_ok : ∃ st, ofold (mul_step (E:=E) a b) (one, (0, 0, 0)) (seq 0 (LIMBS - 1)) = Ok st
  ∧ mul_inv (seq 0 (LIMBS - 1)) st.
Proof using Hwa Hwb.
  apply ofold_ok.
  - cbn [mul_inv length take]. split_and!; [|done..|]. { split; [done|]. by apply (bool_decide_unpack (Forall word_ok one)). }
    rewrite pow_0. done.
  - intros pre j [tmp [[carry_low carry_high] carry_highest]] Hpre (Hwf & Hlow & Hhigh & _ & Ep).
    assert (length pre = j ∧ (j < LIMBS - 1)%nat) as [Hlen Hj].
    { destruct Hpre as [suf Hsuf]. pose proof (f_equal length Hsuf) as Hl. rewrite length_seq, !length_app in Hl.
      cbn [length] in Hl. assert (seq 0 (LIMBS - 1) !! length pre = Some j) as Hlk.
      { rewrite Hsuf, <- app_assoc. by apply list_lookup_middle. }
      apply lookup_seq in Hlk as [-> ?]. split; [lia|done]. }
    rewrite Hlen in Ep. unfold mul_step.
    destruct (mul_column_ok j carry_low carry_high Hj Hlow Hhigh) as ([[low high] carry] & -> & Hw & Ev).
    cbn [mbind outcome_bind mret outcome_ret]. eexists. split; [done|].
    destruct (extract_ok tmp j low high carry (carry_low + B * carry_high)) as [Hwf' Ep']; [done|lia|done..|].
    cbn [mul_inv]. rewrite length_app, Hlen, Nat.add_1_r. destruct Hw as (? & ? & ?). by split_and!.
Qed.

Lemma muln2_ok low high : word_ok low → 0 ≤ high ≤ 49 →
  ∃ l h, muln2 (E:=E) low high PRIME_DIFF = Ok (l, h) ∧ word_ok l ∧ word_ok h ∧ l + B * h = (low + B * high) * PRIME_DIFF.
Proof using.
  intros Hlow Hhigh. unfold muln2, add128, u128_max, word_ok, PRIME_DIFF in *. pose proof B_val as HB.
  rewrite shiftr_B. destruct (divmod_B (low * 1103717)) as [Ed Hm].
  set (q := low * 1103717 / B) in *. set (m := (low * 1103717) mod B) in *. assert (0 ≤ q ≤ 1103717) by nia.
  change (2 ^ 128) with (B * B). rewrite checked_ok by nia. cbn [mbind outcome_bind mret outcome_ret].
  rewrite (Z.mod_small (q + high * 1103717)) by lia. do 2 eexists. split; [done|]. split_and!; nia.
Qed.

(** The final reductions give the representative below the modulus. *)
Lemma reduce_ok r carry : wf LIMBS r → carry = 0 ∨ carry = 1 → val r + B ^ 48 * carry < B ^ 48 + 50 * B * PRIME_DIFF →
  let r1 := if is_overflow r then full_reduce r else r in
  let r2 := if negb (carry =? 0) then full_reduce r1 else r1 in
  wf LIMBS r2 ∧ val r2 = (val r + B ^ 48 * carry) mod prime.
Proof using.
  clear. intros Hwf Hcarry Hlt. cbn zeta. rewrite (is_overflow_ok r Hwf). pose proof prime_pos as Hp.
  pose proof (val_bound r (proj2 Hwf)) as Hb. rewrite (proj1 Hwf) in Hb. change (B ^ Z.of_nat LIMBS) with (B ^ 48) in Hb.
  destruct (full_reduce_ok r Hwf) as [Hwf' Ev]. unfold prime in *. revert Hb Hlt Ev Hp. unfold PRIME_DIFF.
  generalize (B ^ 48). intros Q Hb Hlt Ev Hp.
  destruct Hcarry as [-> | ->]; cbn [Z.eqb negb]; destruct (Z.leb_spec (Q - 1103717) (val r)) as [Hle|Hle]; [| |lia|].
  - split; [done|]. rewrite Ev, <- (Z.mod_unique (val r + 1103717) Q 1 (val r + 1103717 - Q)) by lia.
    apply Z.mod_unique with 1; lia.
  - split; [done|]. rewrite Z.mod_small; lia.
  - split; [done|]. rewrite Ev, Z.mod_small by lia. apply Z.mod_unique with 1; lia.
Qed.

Lemma mul_ok : ∃ r, mul (E:=E) a b = Ok r ∧ wf LIMBS r ∧ val r = (val a * val b) mod prime.
Proof using Hwa Hwb.
  unfold mul. destruct mul_loop_ok as ([tmp [[carry_low carry_high] ?]] & -> & Hwf & Hlow & Hhigh & -> & Ep).
  rewrite length_seq in Ep. cbn [mbind outcome_bind mret outcome_ret]. rewrite Z.eqb_refl. cbn [assert mbind outcome_bind].
  assert (wide_column a b (LIMBS - 1) = column a b (LIMBS - 1) (seq 0 LIMBS)) as Hcol.
  { unfold wide_column, column. simpl (seq (1 + _) _). simpl (LIMBS - 1 + 1)%nat. simpl (zsum ((_ : list Z))). lia. }
  pose proof (column_bound a b (LIMBS - 1) (seq 0 LIMBS) (proj2 Hwa) (proj2 Hwb)) as Hcb. rewrite length_seq in Hcb.
  change (Z.of_nat LIMBS) with 48 in Hcb. pose proof B_val as HB.
  destruct (add_column_ok (E:=E) a b (LIMBS - 1) (seq 0 LIMBS) (carry_low, carry_high, 0)) as ([[low high] carry] & -> & Hw & Ev);
    [apply Hwa|apply Hwb|done| |].
  { change (val3 (carry_low, carry_high, 0)) with (carry_low + B * carry_high + B * B * 0). unfold word_ok in *. nia. }
  cbn [mbind outcome_bind]. change (val3 (carry_low, carry_high, 0)) with (carry_low + B * carry_high + B * B * 0) in Ev.
  rewrite Z.mul_0_r, Z.add_0_r, <- Hcol in Ev.
  destruct (extract_ok tmp (LIMBS - 1) low high carry (carry_low + B * carry_high)) as [Hwf' Ep']; [done|unfold LIMBS; lia|done..|].
  change (S (LIMBS - 1)) with LIMBS in Ep'. rewrite take_ge in Ep' by (rewrite (proj1 Hwf'); lia).
  set (tmp' := <[(LIMBS - 1)%nat := low]> tmp) in *. destruct Hw as (Hw1 & Hw2 & Hw3).
  assert (carry ≤ 49) as Hsmall.
  { unfold val3 in Ev. rewrite Hcol in Ev. unfold word_ok in *. nia. }
  destruct (muln2_ok high carry Hw2) as (l & h & -> & Hl & Hh & Em); [unfold word_ok in Hw3; lia|].
  cbn [mbind outcome_bind]. change (carry_limbs _ l h) with (carry_limbs tmp' l h).
  destruct (carry_limbs_ok tmp' l h) as (r & cl & ch & -> & Hr & Hcl & Hch & Er); [apply Hwf'|done..|].
  rewrite (proj1 Hwf') in Hr, Er. change (Z.of_nat LIMBS) with 48 in *.
  pose proof (val_bound tmp' (proj2 Hwf')) as Hvb. rewrite (proj1 Hwf') in Hvb. change (Z.of_nat LIMBS) with 48 in Hvb.
  pose proof (val_bound r (proj2 Hr)) as Hrb.
  destruct (columns_product a b Hwa Hwb) as [q Hq]. change (zsum _) with (partial LIMBS) in Hq. rewrite <- Ep' in Hq.
  assert (val r + B ^ 48 * (cl + B * ch) < B ^ 48 + 50 * B * PRIME_DIFF) as Hlt.
  { rewrite Er, <- (Z.add_assoc (val tmp')), Em. assert (high + B * carry < 50 * B) as Hh50 by (unfold word_ok in Hw2; rewrite HB in *; lia).
    change (B ^ Z.of_nat LIMBS) with (B ^ 48) in *. unfold PRIME_DIFF. clear - Hvb Hh50. revert Hvb Hh50.
    generalize (B ^ 48) (val tmp') (high + B * carry). intros; lia. }
  assert (ch = 0 ∧ (cl = 0 ∨ cl = 1)) as [-> Hcl01].
  { pose proof prime_pos as Hpp. unfold prime, PRIME_DIFF in *. rewrite (proj1 Hr) in Hrb.
    change (B ^ Z.of_nat LIMBS) with (B ^ 48) in *. unfold word_ok in *. clear - Hlt Hrb Hpp Hcl Hch HB. revert Hlt Hrb Hpp.
    generalize (B ^ 48) (val r). intros Q v Hlt Hrb Hpp. assert (cl + B * ch < 2) by nia. nia. }
  rewrite Z.mul_0_r, Z.add_0_r in *. cbn [Z.eqb assert mbind outcome_bind].
  replace ((cl =? 0) || (cl =? 1)) with true by (destruct Hcl01; subst; done). cbn [assert mbind outcome_bind].
  destruct (reduce_ok r cl Hr Hcl01 Hlt) as [Hwr Hvr]. eexists. split; [done|]. split; [done|]. rewrite Hvr, Er, Hq.
  rewrite <- (Z.add_assoc (val tmp')), Em.
  replace (val tmp' + B ^ 48 * (high + B * carry) + prime * q)
    with (val tmp' + (high + B * carry) * PRIME_DIFF + ((high + B * carry) + q) * prime)
    by (unfold prime; generalize (B ^ 48); intros; ring).
  by rewrite Z.mod_add by (by vm_compute).
Qed.
End mul_proof.

(** *** Division *)

Lemma limbs_of_ok n v : 0 ≤ v < B ^ Z.of_nat n → wf n (limbs_of n v) ∧ val (limbs_of n v) = v.
Proof.
  revert v. induction n as [|n IH]; intros v Hv; cbn [limbs_of].
  { rewrite pow_0 in Hv. split; [done|]. change (val []) with 0. lia. }
  rewrite pow_S in Hv. destruct (divmod_B v) as [Hd Hm]. destruct (IH (v / B)) as [Hwf Hval].
  { split; [apply Z.div_pos; [lia|done]|]. apply Z.div_lt_upper_bound; [done|lia]. }
  split; [by apply wf_cons|]. rewrite val_cons, Hval. lia.
Qed.

Definition canon (a : Uint) : Uint := if is_overflow a then full_reduce a else a.

Lemma prime_gt : 1 < prime.
Proof. by vm_compute. Qed.

Lemma canon_ok a : wf LIMBS a → wf LIMBS (canon a) ∧ val (canon a) = val a mod prime.
Proof.
  intros Hwf. pose proof (val_bound a (proj2 Hwf)) as Hb. rewrite (proj1 Hwf) in Hb.
  destruct (reduce_ok a 0 Hwf) as [H1 H2]; [by left| |].
  { rewrite Z.mul_0_r. change (B ^ Z.of_nat LIMBS) with (B ^ 48) in Hb. pose proof B_val. unfold PRIME_DIFF.
    revert Hb. generalize (B ^ 48) (val a). intros; lia. }
  cbn [Z.eqb negb] in H1, H2. rewrite Z.mul_0_r, Z.add_0_r in H2. done.
Qed.

Lemma val_prime : val UINT_PRIME = prime.
Proof. by vm_compute. Qed.
Lemma wf_one : wf LIMBS one.
Proof. apply wf_insert; [apply wf_zero|done]. Qed.
Lemma val_one : val one = 1.
Proof. done. Qed.
Lemma zero_val a : wf LIMBS a → a = zero ↔ val a = 0.
Proof.
  intros Hwf. split; [intros ->; apply val_zero|]. intros Hv. apply (val_inj LIMBS); [done|apply wf_zero|].
  rewrite Hv. symmetry. apply val_zero.
Qed.

(** What malachite documents of [ModInverse], for a number below the modulus. *)
Definition InverseLaw (natural_mod_inverse : Z → Z → option Z) : Prop := ∀ x m, 0 < x < m →
  match natural_mod_inverse x m with
  | Some y => 0 < y < m ∧ (x * y) mod m = 1 mod m
  | None => Z.gcd x m ≠ 1
  end.

Section division.
Context (natural_mod_inverse : Z → Z → option Z) (HL : InverseLaw natural_mod_inverse) {E : Type}.

Lemma inverse_ok a : wf LIMBS a → Z.gcd (val a) prime = 1 →
  ∃ inv, inverse natural_mod_inverse (E:=E) a = Ok inv ∧ wf LIMBS inv ∧ (val a * val inv) mod prime = 1.
Proof using HL.
  intros Hwf Hg. unfold inverse. fold (canon a). destruct (canon_ok a Hwf) as [Hwf' Hv]. set (c := canon a) in *.
  pose proof prime_gt as Hp. pose proof (Z.mod_pos_bound (val a) prime ltac:(lia)) as Hb.
  assert (Z.gcd (val c) prime = 1) as Hg'. { rewrite Hv, Z.gcd_mod by lia. by rewrite Z.gcd_comm. }
  assert (val c ≠ 0) as Hnz. { intros Hz. rewrite Hz, Z.gcd_0_l in Hg'. lia. }
  rewrite bool_decide_eq_false_2 by (by rewrite zero_val).
  unfold mod_inverse. rewrite val_prime. pose proof (HL (val c) prime ltac:(lia)) as Hinv.
  destruct (natural_mod_inverse (val c) prime) as [y|]; [|done]. destruct Hinv as [Hy Hinv].
  rewrite (Z.mod_small 1) in Hinv by lia.
  assert (prime < B ^ Z.of_nat LIMBS) as Hlt by (by vm_compute). rewrite (proj2 (Z.ltb_lt _ _)) by lia.
  cbn [assert mbind outcome_bind mret outcome_ret unwrap_opt].
  destruct (limbs_of_ok LIMBS y) as [Hwy Hvy]; [lia|].
  destruct (mul_ok (E:=E) (limbs_of LIMBS y) c Hwy Hwf') as (r & -> & Hwr & Hvr). cbn [mbind outcome_bind].
  rewrite Hvy, Z.mul_comm, Hinv in Hvr. rewrite bool_decide_eq_true_2.
  2:{ apply (val_inj LIMBS); [done|apply wf_one|]. by rewrite Hvr. }
  eexists. split; [done|]. split; [done|]. rewrite Hvy. rewrite Hv in Hinv. by rewrite Z.mul_mod_idemp_l in Hinv by lia.
Qed.

Lemma div_ok a b : wf LIMBS a → wf LIMBS b → Z.gcd (val b) prime = 1 →
  ∃ r, div natural_mod_inverse (E:=E) a b = Ok r ∧ wf LIMBS r ∧ 0 ≤ val r < prime
    ∧ (val r * val b) mod prime = val a mod prime.
Proof using HL.
  intros Ha Hb Hg. unfold div. pose proof prime_gt as Hp.
  assert (∃ inv, (if is_overflow b then inverse natural_mod_inverse (full_reduce b) else inverse natural_mod_inverse b) = Ok (E:=E) inv
    ∧ wf LIMBS inv ∧ (val b * val inv) mod prime = 1) as (inv & -> & Hwi & Hinv).
  { destruct (is_overflow b) eqn:Ho; [|by apply inverse_ok]. destruct (canon_ok b Hb) as [Hwc Hvc].
    unfold canon in *. rewrite Ho in *. destruct (inverse_ok (full_reduce b)) as (inv & Hi & Hwi & Hm); [done| |].
    - rewrite Hvc, Z.gcd_mod by lia. by rewrite Z.gcd_comm.
    - exists inv. split_and!; [done..|]. rewrite Hvc, Z.mul_mod_idemp_l in Hm by lia. done. }
  cbn [mbind outcome_bind]. fold (canon a). destruct (canon_ok a Ha) as [Hwc Hvc].
  destruct (mul_ok (E:=E) (canon a) inv Hwc Hwi) as (r & -> & Hwr & Hvr). cbn [mbind outcome_bind mret outcome_ret].
  fold (canon r). destruct (canon_ok r Hwr) as [Hwr' Hvr']. eexists. split; [done|]. split; [done|].
  rewrite Hvr', Hvr, Z.mod_mod, Hvc, Z.mul_mod_idemp_l by lia. split; [apply Z.mod_pos_bound; lia|].
  rewrite Z.mul_mod_idemp_l by lia. replace (val a * val inv * val b) with (val a * (val b * val inv)) by ring.
  rewrite <- Z.mul_mod_idemp_r, Hinv by lia. by rewrite Z.mul_1_r.
Qed.
End division.
End U3072.
