(* ===== verification/MuHash.v ===== *)
(** * The multiset hash

    [crypto/muhash/src/lib.rs]: a multiset of byte strings is a fraction in the field of
    [U3072], with [consensus/core/src/muhash.rs], which keeps the multiset of a UTXO
    set.  The hash functions are those of [Hashers]; the stream generator ChaCha20 is
    the parameter [fill_bytes]: the given number of bytes, from a seed. *)

From S2P Require Import Prelude Hash Uint U3072 Errors Tx Utxo UtxoProof Hashing.

Definition ELEMENT_BIT_SIZE : nat := 3072.
Definition ELEMENT_BYTE_SIZE : nat := ELEMENT_BIT_SIZE / 8.
Definition SERIALIZED_MUHASH_SIZE : nat := ELEMENT_BYTE_SIZE.
(** The hash of [MuHash::new().finalize()]. *)
Definition EMPTY_MUHASH : Hash := Hashes.from_bytes
  [84; 78; 179; 20; 44; 0; 15; 10; 210; 199; 106; 196; 31; 66; 34; 171; 186; 186; 190; 216; 48; 238;
   175; 238; 75; 109; 197; 107; 82; 213; 202; 192]%N.

Class ElementStream : Type := fill_bytes : list N → nat → list N.

Record MuHash : Type := mkMuHash { numerator : Uint.Uint; denominator : Uint.Uint }.
Inductive OverflowError : Type := Overflow.
Inductive MuHashError : Type := NonNormalizedValue.

#[global] Instance MuHash_eq_dec : EqDecision MuHash.
Proof. unfold EqDecision, Decision. decide equality; apply (list_eq_dec (A:=Z)). Defined.

Definition muhash_new : MuHash := mkMuHash U3072.one U3072.one.

Definition set_numerator x (s : MuHash) : MuHash := mkMuHash x (denominator s).
Definition set_denominator x (s : MuHash) : MuHash := mkMuHash (numerator s) x.

(** [*field *= element]. *)
Definition mul_field {E} (view : MuHash → Uint.Uint) (update : Uint.Uint → MuHash → MuHash) (element : Uint.Uint) :
    M MuHash E unit :=
  self ← get;
  product ← lift (U3072.mul (view self) element);
  modify (update product).

Section muhash.
Context `{Hashers, ElementStream} (natural_mod_inverse : Z → Z → option Z) {E : Type}.

Definition data_to_element (data : list N) : Uint.Uint :=
  U3072.from_le_bytes (fill_bytes (Hashes.as_bytes (digest MuHashElementHash data)) ELEMENT_BYTE_SIZE).

Definition add_element (data : list N) : M MuHash E unit := mul_field numerator set_numerator (data_to_element data).
Definition remove_element (data : list N) : M MuHash E unit :=
  mul_field denominator set_denominator (data_to_element data).

(** [MuHashElementBuilder]: the field it borrows and the bytes written so far. *)
Record MuHashElementBuilder : Type := mkBuilder {
  eb_view : MuHash → Uint.Uint; eb_update : Uint.Uint → MuHash → MuHash; eb_written : list N }.
Definition add_element_builder : MuHashElementBuilder := mkBuilder numerator set_numerator [].
Definition remove_element_builder : MuHashElementBuilder := mkBuilder denominator set_denominator [].
Definition builder_update (data : list N) (self : MuHashElementBuilder) : MuHashElementBuilder :=
  mkBuilder (eb_view self) (eb_update self) (eb_written self ++ data).
Definition builder_finalize (self : MuHashElementBuilder) : M MuHash E unit :=
  mul_field (eb_view self) (eb_update self)
    (U3072.from_le_bytes (fill_bytes (Hashes.as_bytes (digest MuHashElementHash (eb_written self))) ELEMENT_BYTE_SIZE)).

Definition combine (other : MuHash) : M MuHash E unit :=
  mul_field numerator set_numerator (numerator other);;
  mul_field denominator set_denominator (denominator other).

Definition normalize : M MuHash E unit :=
  self ← get;
  quotient ← lift (U3072.div natural_mod_inverse (numerator self) (denominator self));
  modify (set_numerator quotient);;
  modify (set_denominator U3072.one).

Definition serialize : M MuHash E (list N) :=
  normalize;;
  self ← get;
  mret (U3072.to_le_bytes (numerator self)).

Definition finalize : M MuHash E Hash :=
  serialized ← serialize;
  mret (digest MuHashFinalizeHash serialized).

(** [MuHashExtensions::add_transaction]. *)
Definition muhash_add_transaction `{VerifiableTransaction T} (tx : T) (block_daa_score : Z) : M MuHash E unit :=
  for_each (populated_inputs tx) (λ item,
    '(input, entry) ← lift item;
    builder_finalize (builder_update (write_utxo entry (in_previous_outpoint input)) remove_element_builder));;
  for_each (imap (output_utxo (vt_id tx) (vt_is_coinbase tx) block_daa_score) (vt_outputs tx))
    (λ '(outpoint, entry), builder_finalize (builder_update (write_utxo entry outpoint) add_element_builder)).
End muhash.

Definition deserialize (data : list N) : outcome OverflowError MuHash :=
  let numerator := U3072.from_le_bytes data in
  if U3072.is_overflow numerator then Err Overflow else Ok (mkMuHash numerator U3072.one).

(** [TryFrom<MuHash> for Uint3072] and [From<Uint3072> for MuHash]. *)
Definition try_into_uint3072 (value : MuHash) : outcome MuHashError Uint.Uint :=
  if bool_decide (denominator value = U3072.one) then Ok (numerator value) else Err NonNormalizedValue.
Definition from_uint3072 (u : Uint.Uint) : MuHash := mkMuHash u U3072.one.

(** ** Correctness *)

(** What is assumed of the external functions: the inverse of malachite, the length of
    the generated stream, and that no element is a multiple of the modulus or shares a
    factor with it, so that every element can be removed. *)
Class MuHashLaws `{Hashers, ElementStream} (natural_mod_inverse : Z → Z → option Z) : Prop := {
  ml_inverse : U3072.InverseLaw natural_mod_inverse;
  ml_stream seed n : length (fill_bytes seed n) = n ∧ Hashes.bytes_ok (fill_bytes seed n);
  ml_unit data : Z.gcd (Uint.val (data_to_element data)) U3072.prime = 1;
}.

Section proof.
Context `{MuHashLaws natural_mod_inverse} {E : Type}.
Local Abbreviation p := U3072.prime.
Local Abbreviation wf := (Uint.wf U3072.LIMBS).

Definition element (data : list N) : Z := Uint.val (data_to_element data).

Lemma from_le_bytes_wf bytes : length bytes = ELEMENT_BYTE_SIZE → Hashes.bytes_ok bytes → wf (U3072.from_le_bytes bytes).
Proof using.
  intros Hl Hb. unfold U3072.from_le_bytes, Uint.from_le_bytes.
  destruct (Uint.join_chunks U3072.LIMBS (Z.of_N <$> bytes)) as [Hj Hc]; [by rewrite length_fmap, Hl|].
  split.
  - rewrite length_fmap. clear. revert bytes. generalize (U3072.LIMBS). intros n bytes.
    generalize (Z.of_N <$> bytes). induction n as [|n IH]; intros l; [done|]. cbn. by rewrite IH.
  - apply Forall_fmap, Forall_forall. intros c Hin. rewrite Forall_forall in Hc. apply Uint.of_le_bytes_word; [by apply Hc|].
    apply Forall_forall. intros x Hx. assert (x ∈ Z.of_N <$> bytes) as Hx'.
    { rewrite <- Hj. apply list_elem_of_join. eauto. }
    apply list_elem_of_fmap in Hx' as (b & -> & Hb'). unfold Hashes.bytes_ok in Hb. rewrite Forall_forall in Hb.
    specialize (Hb b Hb'). cbn beta in Hb. lia.
Qed.

Lemma element_wf data : wf (data_to_element data).
Proof using Type*. destruct (ml_stream (Hashes.as_bytes (digest MuHashElementHash data)) ELEMENT_BYTE_SIZE). by apply from_le_bytes_wf. Qed.

(** The fraction is [x] in the field. *)
Record fraction (m : MuHash) (x : Z) : Prop := {
  fr_numerator : wf (numerator m);
  fr_denominator : wf (denominator m);
  fr_unit : Z.gcd (Uint.val (denominator m)) p = 1;
  fr_value : Uint.val (numerator m) mod p = (x * Uint.val (denominator m)) mod p;
}.

Lemma fraction_new : fraction muhash_new 1.
Proof using. split; [apply U3072.wf_one|apply U3072.wf_one|apply Z.gcd_1_l|done]. Qed.

Lemma p_nz : p ≠ 0.
Proof using. pose proof U3072.prime_gt. lia. Qed.

Lemma gcd_mod_p a b : Z.gcd a p = 1 → Z.gcd b p = 1 → Z.gcd ((a * b) mod p) p = 1.
Proof using.
  intros Ha Hb. rewrite Z.gcd_mod by apply p_nz. rewrite Z.gcd_comm. by apply Z.coprime_mul_l.
Qed.

Lemma add_fraction m x data : fraction m x → runs (E:=E) (add_element data) m (λ _ m', fraction m' (x * element data)).
Proof using Type*.
  intros [F1 F2 F3 F4]. destruct (U3072.mul_ok (E:=E) (numerator m) (data_to_element data) F1 (element_wf data)) as (r & Hr & Hw & Hv).
  unfold add_element, mul_field, runs, mbind, M_bind, get, lift, modify. rewrite Hr. split; [done..|].
  cbn [numerator denominator set_numerator]. rewrite Hv, Z.mod_mod by apply p_nz. rewrite <- Z.mul_mod_idemp_l, F4 by apply p_nz.
  rewrite Z.mul_mod_idemp_l by apply p_nz. f_equal. unfold element. ring.
Qed.

Lemma remove_fraction m x data : fraction m (x * element data) → runs (E:=E) (remove_element data) m (λ _ m', fraction m' x).
Proof using Type*.
  intros [F1 F2 F3 F4]. destruct (U3072.mul_ok (E:=E) (denominator m) (data_to_element data) F2 (element_wf data)) as (r & Hr & Hw & Hv).
  unfold remove_element, mul_field, runs, mbind, M_bind, get, lift, modify. rewrite Hr.
  split; cbn [numerator denominator set_denominator]; [done..| |].
  - rewrite Hv. apply gcd_mod_p; [done|apply ml_unit].
  - rewrite F4, Hv, Z.mul_mod_idemp_r by apply p_nz. f_equal. unfold element. ring.
Qed.

(** Division in the field is unique. *)
Lemma cancel_unit a b d : Z.gcd d p = 1 → (a * d) mod p = (b * d) mod p → a mod p = b mod p.
Proof using.
  intros Hg Heq. pose proof p_nz. assert ((p | a * d - b * d)) as Hdiv.
  { apply Z.mod_divide; [done|]. by rewrite Zminus_mod, Heq, Z.sub_diag, Z.mod_0_l. }
  replace (a * d - b * d) with (d * (a - b)) in Hdiv by ring. rewrite Z.gcd_comm in Hg.
  apply Z.gauss in Hdiv; [|done]. apply Z.mod_divide in Hdiv; [|done].
  replace a with ((a - b) + b) by ring. by rewrite Zplus_mod, Hdiv, Z.add_0_l, Z.mod_mod.
Qed.

(** The normalised state. *)
Definition normal_form (x : Z) : MuHash := mkMuHash (limbs_of U3072.LIMBS (x mod p)) U3072.one.
Definition multiset_digest (x : Z) : Hash :=
  digest MuHashFinalizeHash (U3072.to_le_bytes (limbs_of U3072.LIMBS (x mod p))).

Lemma residue_limbs x : wf (limbs_of U3072.LIMBS (x mod p)) ∧ Uint.val (limbs_of U3072.LIMBS (x mod p)) = x mod p.
Proof using.
  apply U3072.limbs_of_ok. pose proof U3072.prime_gt. pose proof (Z.mod_pos_bound x p).
  assert (p < B ^ Z.of_nat U3072.LIMBS) by (by vm_compute). lia.
Qed.

Lemma fraction_normal_form x : fraction (normal_form x) x.
Proof using.
  destruct (residue_limbs x) as [Hw Hv]. split; cbn [numerator denominator normal_form]; [done|apply U3072.wf_one|apply Z.gcd_1_l|].
  rewrite Hv, U3072.val_one, Z.mul_1_r, Z.mod_mod by apply p_nz. done.
Qed.

Lemma normalize_fraction m x : fraction m x → normalize natural_mod_inverse (E:=E) m = (Ok tt, normal_form x).
Proof using Type*.
  intros [F1 F2 F3 F4]. destruct (U3072.div_ok _ ml_inverse (E:=E) (numerator m) (denominator m) F1 F2 F3) as (r & Hr & Hw & Hb & Hv).
  unfold normalize, mbind, M_bind, get, lift, modify. rewrite Hr. unfold normal_form, set_numerator, set_denominator. do 2 f_equal.
  destruct (residue_limbs x) as [Hw' Hv']. apply (Uint.val_inj U3072.LIMBS); [done..|]. rewrite Hv'.
  rewrite F4 in Hv. apply cancel_unit in Hv; [|done]. by rewrite Z.mod_small in Hv.
Qed.

Lemma finalize_fraction m x : fraction m x → finalize natural_mod_inverse (E:=E) m = (Ok (multiset_digest x), normal_form x).
Proof using Type*.
  intros Hf. unfold finalize, serialize, mbind, M_bind. by rewrite (normalize_fraction m x Hf).
Qed.

Lemma fraction_eq m x y : x mod p = y mod p → fraction m x → fraction m y.
Proof using. intros Hxy [F1 F2 F3 F4]. split; [done..|]. rewrite F4, <- Z.mul_mod_idemp_l, Hxy, Z.mul_mod_idemp_l by apply p_nz. done. Qed.

Lemma roundtrip_le a : wf a → U3072.from_le_bytes (U3072.to_le_bytes a) = a.
Proof using.
  intros Hw. unfold U3072.from_le_bytes, U3072.to_le_bytes. rewrite <- list_fmap_compose, fmap_self.
  - by destruct (Uint.bytes_roundtrip U3072.LIMBS a (replicate (8 * U3072.LIMBS) 0)) as [Hr _];
      [done|by rewrite length_replicate|by apply Forall_replicate|].
  - intros x Hx. unfold compose. apply Z2N.id. unfold Uint.to_le_bytes in Hx. apply list_elem_of_join in Hx as (c & Hxc & Hc).
    apply list_elem_of_fmap in Hc as (w & -> & _). pose proof (Uint.le_bytes_ok 8 w) as Hb.
    unfold Uint.bytes_ok in Hb. rewrite Forall_forall in Hb. by destruct (Hb x Hxc).
Qed.

(** *** The multiset of a UTXO set *)

Definition utxo_element (o : TransactionOutpoint) (e : UtxoEntry) : Z := element (write_utxo e o).
Definition utxo_product (U : UtxoCollection) : Z := map_fold (λ o e acc, utxo_element o e * acc) 1 U.

Lemma product_insert U o e : U !! o = None → utxo_product (<[o := e]> U) = utxo_element o e * utxo_product U.
Proof using. intros Ho. unfold utxo_product. apply (map_fold_insert_L (λ o e acc, utxo_element o e * acc)); [intros; lia|done]. Qed.
Lemma product_delete U o e : U !! o = Some e → utxo_product U = utxo_element o e * utxo_product (delete o U).
Proof using. intros Ho. unfold utxo_product. apply (map_fold_delete_L (λ o e acc, utxo_element o e * acc)); [intros; lia|done]. Qed.

(** The multiset holds exactly the entries of the set. *)
Definition commits (m : MuHash) (U : UtxoCollection) : Prop := fraction m (utxo_product U).

Lemma commits_empty : commits muhash_new ∅.
Proof using. unfold commits, utxo_product. rewrite map_fold_empty. apply fraction_new. Qed.

Lemma spend_commits (items : list (TransactionInput * UtxoEntry)) m V : commits m V →
  NoDup (in_previous_outpoint ∘ fst <$> items) → Forall (λ p, V !! in_previous_outpoint p.1 = Some p.2) items →
  runs (E:=E) (for_each (Ok <$> items) (λ item, '(input, entry) ← lift item;
    builder_finalize (builder_update (write_utxo entry (in_previous_outpoint input)) remove_element_builder)))
    m (λ _ m', commits m' (spend (in_previous_outpoint ∘ fst <$> items) V)).
Proof using Type*.
  revert m V. induction items as [|[i e] items IH]; intros m V Hm Hnd Hf; [by apply runs_ret|].
  apply NoDup_cons in Hnd as [Hi Hnd]. apply Forall_cons in Hf as [He Hf]. cbn [for_each fmap list_fmap fst snd] in *.
  apply runs_bind, runs_bind. eapply runs_lift; [done|].
  change (builder_finalize (builder_update ?d remove_element_builder)) with (remove_element (E:=E) d).
  unfold commits in Hm. rewrite (product_delete V _ _ He), Z.mul_comm in Hm.
  eapply runs_mono; [apply (remove_fraction _ _ _ Hm)|]. intros ? m' Hm'; cbn beta in Hm'.
  apply (IH m' (delete (in_previous_outpoint i) V)); [done|done|].
  apply Forall_forall. intros [i' e'] Hin. rewrite lookup_delete_ne.
  - rewrite Forall_forall in Hf. by apply (Hf (i', e')).
  - intros Heq. apply Hi. apply list_elem_of_fmap. by exists (i', e').
Qed.

Lemma create_commits (outs : list (TransactionOutpoint * UtxoEntry)) m V : commits m V →
  NoDup outs.*1 → Forall (λ p, V !! p.1 = None) outs →
  runs (E:=E) (for_each outs (λ '(outpoint, entry),
    builder_finalize (builder_update (write_utxo entry outpoint) add_element_builder)))
    m (λ _ m', commits m' (create outs V)).
Proof using Type*.
  revert m V. induction outs as [|[o e] outs IH]; intros m V Hm Hnd Hf; [by apply runs_ret|].
  apply NoDup_cons in Hnd as [Hi Hnd]. apply Forall_cons in Hf as [He Hf]. cbn [for_each fst snd] in *.
  apply runs_bind. change (builder_finalize (builder_update ?d add_element_builder)) with (add_element (E:=E) d).
  eapply runs_mono; [apply (add_fraction _ _ _ Hm)|]. intros ? m' Hm'; cbn beta in Hm'.
  apply (IH m' (<[o := e]> V)); [|done|].
  - unfold commits. rewrite product_insert by done. by rewrite Z.mul_comm.
  - apply Forall_forall. intros [o' e'] Hin. rewrite lookup_insert_ne.
    + rewrite Forall_forall in Hf. by apply (Hf (o', e')).
    + intros Heq. cbn [fst] in Heq. apply Hi, list_elem_of_fmap. by exists (o', e').
Qed.

Lemma add_transaction_commits `{VerifiableTransaction T} (t : T) daa m V : commits m V → executable t daa V →
  runs (muhash_add_transaction (E:=E) t daa) m (λ _ m', commits m' (execute t daa V)).
Proof using Type*.
  intros Hm [(entries & [Hl Hpop] & Hin) Hnd Hc Hf]. unfold muhash_add_transaction. rewrite Hpop.
  assert (in_previous_outpoint ∘ fst <$> zip (vt_inputs t) entries = spent_outpoints t) as Hmap.
  { unfold spent_outpoints. rewrite list_fmap_compose, fst_zip by lia. done. }
  apply runs_bind. eapply runs_mono.
  { apply (spend_commits _ m V); [done|by rewrite Hmap|]. apply Forall_forall. intros [i e] Hie.
    apply list_elem_of_lookup in Hie as [n Hn]. apply lookup_zip_with_Some in Hn as (? & ? & [= -> ->] & Hi & He).
    by apply (Forall2_lookup_lr _ _ _ _ _ _ Hin Hi He). }
  intros ? m' Hm'; cbn beta in Hm'. rewrite Hmap in Hm'.
  apply create_commits; [done|by apply created_distinct|done].
Qed.

(** *** Histories of additions and removals *)

Inductive MuOp : Type := OpAdd (data : list N) | OpRemove (data : list N).

Definition run_op (op : MuOp) : M MuHash E unit :=
  match op with OpAdd data => add_element data | OpRemove data => remove_element data end.
Definition run_ops (ops : list MuOp) : M MuHash E unit := for_each ops run_op.
Definition added_data (ops : list MuOp) : list (list N) := omap (λ op, match op with OpAdd d => Some d | _ => None end) ops.
Definition removed_data (ops : list MuOp) : list (list N) := omap (λ op, match op with OpRemove d => Some d | _ => None end) ops.
Definition product_of (l : list (list N)) : Z := foldr (λ d acc, element d * acc) 1 l.

Lemma product_of_app l k : product_of (l ++ k) = product_of l * product_of k.
Proof using. induction l as [|d l IH]; cbn [product_of foldr app]; [by rewrite Z.mul_1_l|]. unfold product_of in IH. rewrite IH. unfold product_of. ring. Qed.
Lemma product_of_perm l k : l ≡ₚ k → product_of l = product_of k.
Proof using.
  induction 1 as [|d l k _ IH|d d' l|l k j _ IH1 _ IH2]; [done| | |by rewrite IH1].
  - change (element d * product_of l = element d * product_of k). by rewrite IH.
  - change (element d' * (element d * product_of l) = element d * (element d' * product_of l)). ring.
Qed.
Lemma product_of_unit l : Z.gcd (product_of l) p = 1.
Proof using Type*. induction l as [|d l IH]; [apply Z.gcd_1_l|]. cbn [product_of foldr]. apply Z.coprime_mul_l; [apply ml_unit|done]. Qed.

Lemma run_ops_ok ops m x : fraction m x →
  ∃ m' y, run_ops ops m = (Ok tt, m') ∧ fraction m' y
    ∧ (y * product_of (removed_data ops)) mod p = (x * product_of (added_data ops)) mod p.
Proof using Type*.
  revert m x. induction ops as [|[d|d] ops IH]; intros m x Hm.
  - exists m, x. done.
  - destruct (runs_elim _ _ _ (add_fraction m x d Hm)) as ([] & m1 & Hr & Hm1).
    destruct (IH m1 _ Hm1) as (m' & y & Hrun & Hy & Heq). exists m', y. split_and!; [|done|].
    + unfold run_ops. cbn [for_each run_op]. unfold mbind, M_bind. by rewrite Hr.
    + change (added_data (OpAdd d :: ops)) with (d :: added_data ops).
      change (removed_data (OpAdd d :: ops)) with (removed_data ops). rewrite Heq. cbn [product_of foldr].
      fold (product_of (added_data ops)). f_equal. ring.
  - destruct (U3072.inverse_ok _ ml_inverse (E:=unit) (data_to_element d) (element_wf d) (ml_unit d)) as (inv & _ & _ & Hinv).
    fold (element d) in Hinv. set (i := Uint.val inv) in *.
    assert (fraction m (x * i * element d)) as Hm0.
    { apply (fraction_eq m x); [|done]. replace (x * i * element d) with (x * (element d * i)) by ring.
      rewrite <- Z.mul_mod_idemp_r, Hinv, Z.mul_1_r by apply p_nz. done. }
    destruct (runs_elim _ _ _ (remove_fraction m (x * i) d Hm0)) as ([] & m1 & Hr & Hm1).
    destruct (IH m1 _ Hm1) as (m' & y & Hrun & Hy & Heq). exists m', y. split_and!; [|done|].
    + unfold run_ops. cbn [for_each run_op]. unfold mbind, M_bind. by rewrite Hr.
    + change (removed_data (OpRemove d :: ops)) with (d :: removed_data ops).
      change (added_data (OpRemove d :: ops)) with (added_data ops). cbn [product_of foldr].
      fold (product_of (removed_data ops)).
      replace (y * (element d * product_of (removed_data ops))) with ((y * product_of (removed_data ops)) * element d) by ring.
      rewrite <- Z.mul_mod_idemp_l, Heq, Z.mul_mod_idemp_l by apply p_nz.
      replace (x * i * product_of (added_data ops) * element d) with (x * product_of (added_data ops) * (element d * i)) by ring.
      rewrite <- Z.mul_mod_idemp_r, Hinv, Z.mul_1_r by apply p_nz. done.
Qed.
End proof.

(** ** Properties *)

Section properties.
Context `{MuHashLaws natural_mod_inverse} {E : Type}.

(** C33: The multiset hash is a hash of the multiset.  Two histories of additions and
    removals in any order that leave the same multiset (what one adds and the other
    removes is what the other adds and the first removes) run without a panic and finish
    with the same hash and the same normalised state; the state is one the database can
    hold, and its serialised bytes give it back.  Assumed of the parameters
    ([MuHashLaws]): the external modular inverse inverts, the stream of an element has
    its length, and elements are coprime to the modulus (the digest does not hit one of
    the few residues that are not). *)
Theorem multiset_hash_correct (ops ops' : list MuOp) :
  added_data ops ++ removed_data ops' ≡ₚ added_data ops' ++ removed_data ops →
  ∃ m m' h n bytes,
    run_ops (E:=E) ops muhash_new = (Ok tt, m) ∧ run_ops (E:=E) ops' muhash_new = (Ok tt, m')
    ∧ finalize natural_mod_inverse (E:=E) m = (Ok h, n) ∧ finalize natural_mod_inverse (E:=E) m' = (Ok h, n)
    ∧ try_into_uint3072 n = Ok (numerator n) ∧ from_uint3072 (numerator n) = n
    ∧ serialize natural_mod_inverse (E:=E) m = (Ok bytes, n) ∧ deserialize bytes = Ok n.
Proof using Type*.
  intros Hperm. destruct (run_ops_ok (E:=E) ops muhash_new 1 fraction_new) as (m & x & Hm & Hx & Ex).
  destruct (run_ops_ok (E:=E) ops' muhash_new 1 fraction_new) as (m' & y & Hm' & Hy & Ey). rewrite Z.mul_1_l in Ex, Ey.
  assert (x mod U3072.prime = y mod U3072.prime) as Hxy.
  { apply product_of_perm in Hperm. rewrite !product_of_app in Hperm.
    apply cancel_unit with (product_of (removed_data ops) * product_of (removed_data ops')).
    - apply Z.coprime_mul_l; apply product_of_unit.
    - replace (x * (product_of (removed_data ops) * product_of (removed_data ops')))
        with (x * product_of (removed_data ops) * product_of (removed_data ops')) by ring.
      replace (y * (product_of (removed_data ops) * product_of (removed_data ops')))
        with (y * product_of (removed_data ops') * product_of (removed_data ops)) by ring.
      rewrite <- Z.mul_mod_idemp_l, Ex, Z.mul_mod_idemp_l, Hperm by apply p_nz.
      by rewrite <- (Z.mul_mod_idemp_l (y * _)), Ey, Z.mul_mod_idemp_l by apply p_nz. }
  exists m, m', (multiset_digest x), (normal_form x), (U3072.to_le_bytes (limbs_of U3072.LIMBS (x mod U3072.prime))).
  destruct (residue_limbs x) as [Hw Hv]. split_and!; [done|done|by apply finalize_fraction| |done|done| |].
  - apply finalize_fraction. by apply (fraction_eq m' y).
  - unfold serialize, mbind, M_bind. by rewrite (normalize_fraction m x Hx).
  - unfold deserialize. rewrite roundtrip_le by done. rewrite U3072.is_overflow_ok by done. rewrite Hv.
    pose proof U3072.prime_gt. by rewrite (proj2 (Z.leb_gt _ _)) by (apply Z.mod_pos_bound; lia).
Qed.
End properties.

(** ** An instance *)

Definition ex_inverse (x m : Z) : option Z := if Z.gcd x m =? 1 then Some (Z.invmod x m) else None.

Lemma ex_inverse_law : U3072.InverseLaw ex_inverse.
Proof.
  intros x m Hx. unfold ex_inverse. destruct (Z.eqb_spec (Z.gcd x m) 1) as [Hg|Hg]; [|done].
  pose proof (Z.invmod_coprime' x m Hg) as Hi. rewrite (Z.mul_comm x). split; [|done].
  assert (0 ≤ Z.invmod x m < m) by (apply Z.mod_pos_bound; lia). set (i := Z.invmod x m) in *. clearbody i.
  rewrite (Z.mod_small 1) in Hi by lia. destruct (decide (i = 0)) as [->|]; [|lia]. by rewrite Z.mod_0_l in Hi by lia.
Qed.

(** A hash that tells long data from short data, and a stream that spells the number 1
    or 2, which are units. *)
Definition ex_hashers : Hashers := λ _ data, if (3 <? length data)%nat then 1%N else 0%N.
Definition ex_stream : ElementStream := λ seed n,
  take n ((1 + nth 31 seed 0 mod 2)%N :: replicate n 0%N).

Lemma ex_muhash_laws : @MuHashLaws ex_hashers ex_stream ex_inverse.
Proof.
  split.
  - apply ex_inverse_law.
  - intros seed n. unfold fill_bytes, ex_stream. split.
    + rewrite length_take. cbn [length]. rewrite length_replicate. lia.
    + apply Forall_take. constructor; [|by apply Forall_replicate].
      pose proof (N.mod_lt (nth 31 seed 0%N) 2). lia.
  - intros data. unfold data_to_element, digest, ex_hashers. by destruct (3 <? length data)%nat; vm_compute.
Qed.

Lemma multiset_hash_correct_witness : ∃ m m' h n bytes,
  @run_ops ex_hashers ex_stream unit [OpAdd [1]; OpRemove [1; 2; 3; 4]; OpAdd [5]]%N muhash_new = (Ok tt, m)
  ∧ @run_ops ex_hashers ex_stream unit [OpAdd [5]; OpAdd [7]; OpRemove [7]; OpAdd [1]; OpRemove [1; 2; 3; 4]]%N muhash_new = (Ok tt, m')
  ∧ @finalize ex_hashers ex_inverse unit m = (Ok h, n) ∧ @finalize ex_hashers ex_inverse unit m' = (Ok h, n)
  ∧ try_into_uint3072 n = Ok (numerator n) ∧ from_uint3072 (numerator n) = n
  ∧ @serialize ex_inverse unit m = (Ok bytes, n) ∧ deserialize bytes = Ok n.
Proof.
  apply (@multiset_hash_correct ex_hashers ex_stream ex_inverse ex_muhash_laws unit
    [OpAdd [1]; OpRemove [1; 2; 3; 4]; OpAdd [5]]%N [OpAdd [5]; OpAdd [7]; OpRemove [7]; OpAdd [1]; OpRemove [1; 2; 3; 4]]%N).
  cbn. solve_Permutation.
Defined.
