(* ===== verification/VirtualStores.v ===== *)
(** * The stores of the virtual state

    [model/stores/{utxo_set,utxo_diffs,utxo_multisets,acceptance_data,virtual_state}.rs]
    and the pair [VirtualStores] of [consensus/src/consensus/mod.rs].  As for the other
    stores, the direct and the batched form of a write leave the same contents once the
    batch is written.  A UTXO is stored under 36 bytes that spell its outpoint. *)

From S2P Require Import Prelude Hash Interval Uint Target U3072 ReachStore Headers GhostdagStore Stores Errors Tx Utxo UtxoProof Hashing HashingProof MuHash.

(** ** The keys of UTXOs *)

Definition UTXO_KEY_SIZE : nat := (Hashes.HASH_SIZE + 4)%nat.

Definition utxo_key (outpoint : TransactionOutpoint) : list N :=
  Hashes.as_bytes (op_transaction_id outpoint) ++ le 4 (op_index outpoint).
Definition outpoint_of_key {E} (k : list N) : outcome E TransactionOutpoint :=
  transaction_id ← Hashes.from_slice (take Hashes.HASH_SIZE k);
  let index := drop Hashes.HASH_SIZE k in
  assert (bool_decide (length index = 4%nat));;
  mret (mkOutpoint transaction_id (Z.of_N (Hashes.of_le_bytes index))).

(** ** The UTXO set *)

Record DbUtxoSetStore : Type := mkUtxoSet { us_access : UtxoCollection }.

Definition get_utxo (self : DbUtxoSetStore) (outpoint : TransactionOutpoint) : outcome StoreError UtxoEntry :=
  match us_access self !! outpoint with
  | Some entry => Ok entry
  | None => Err (KeyNotFound (BytesKey VIRTUAL_UTXO_SET_PREFIX (utxo_key outpoint)))
  end.

(** [unwrap_option] of the read. *)
#[export] Instance utxo_set_view : UtxoView DbUtxoSetStore := λ self outpoint,
  match get_utxo self outpoint with Ok entry => Some entry | _ => None end.

(** [delete_many] of the removed keys, then [write_many] of the added entries. *)
Definition write_diff `{IterationOrder, ImmutableUtxoDiff D} (utxo_diff : D) : M DbUtxoSetStore StoreError unit :=
  modify (λ s, mkUtxoSet (remove_collection (us_access s) (removed utxo_diff)));;
  modify (λ s, mkUtxoSet (add_collection (us_access s) (added utxo_diff))).

(** ** Data of a chain block *)

Record DbUtxoDiffsStore : Type := mkUtxoDiffs { ud_access : gmap Hash UtxoDiff }.
Definition get_utxo_diff (s : DbUtxoDiffsStore) (hash : Hash) : outcome StoreError UtxoDiff :=
  read_access UTXO_DIFFS_PREFIX (ud_access s) hash.
Definition insert_utxo_diff (hash : Hash) (utxo_diff : UtxoDiff) : M DbUtxoDiffsStore StoreError unit := λ s,
  let '(o, m) := insert_new hash utxo_diff (ud_access s) in (o, mkUtxoDiffs m).

Record DbUtxoMultisetsStore : Type := mkUtxoMultisets { um_access : gmap Hash Uint.Uint }.
Definition get_multiset (s : DbUtxoMultisetsStore) (hash : Hash) : outcome StoreError MuHash :=
  u ← read_access UTXO_MULTISETS_PREFIX (um_access s) hash; mret (from_uint3072 u).
(** [has] comes first, then [try_into().expect(..)]. *)
Definition insert_multiset (hash : Hash) (multiset : MuHash) : M DbUtxoMultisetsStore StoreError unit := λ s,
  if bool_decide (is_Some (um_access s !! hash)) then (Err (KeyAlreadyExists (HashText hash)), s)
  else match try_into_uint3072 multiset with
       | Ok u => (Ok tt, mkUtxoMultisets (<[hash := u]> (um_access s)))
       | _ => (Panic, s)
       end.

Inductive AcceptanceData : Type := mkAcceptanceData.
Record DbAcceptanceDataStore : Type := mkAcceptance { ac_access : gmap Hash AcceptanceData }.
Definition get_acceptance_data (s : DbAcceptanceDataStore) (hash : Hash) : outcome StoreError AcceptanceData :=
  read_access ACCEPTANCE_DATA_PREFIX (ac_access s) hash.
Definition insert_acceptance_data (hash : Hash) (data : AcceptanceData) : M DbAcceptanceDataStore StoreError unit := λ s,
  let '(o, m) := insert_new hash data (ac_access s) in (o, mkAcceptance m).

(** ** The virtual state *)

Record VirtualState : Type := mkVirtual {
  vs_parents : list Hash;
  vs_ghostdag_data : GhostdagData;
  vs_daa_score : Z;
  vs_bits : Z;
  vs_past_median_time : Z;
  vs_multiset : MuHash;
  vs_utxo_diff : UtxoDiff;
  vs_accepted_tx_ids : list Hash;
  vs_mergeset_rewards : gmap Hash BlockRewardData;
  vs_mergeset_non_daa : gset Hash;
}.

Definition virtual_from_genesis (genesis_hash : Hash) (genesis_bits past_median_time : Z) (accepted_tx_ids : list Hash)
    (initial_ghostdag_data : GhostdagData) : VirtualState :=
  mkVirtual [genesis_hash] initial_ghostdag_data 0 genesis_bits past_median_time muhash_new ∅ accepted_tx_ids ∅
    {[ genesis_hash ]}.

Record DbVirtualStateStore : Type := mkVirtualStore { vst_access : option VirtualState }.
Definition get_virtual_state (s : DbVirtualStateStore) : outcome StoreError VirtualState :=
  read_item VIRTUAL_STATE_KEY (vst_access s).
Definition set_virtual_state (state : VirtualState) : M DbVirtualStateStore StoreError unit :=
  modify (λ _, mkVirtualStore (Some state)).

Record VirtualStores : Type := mkVirtualStores { vts_state : DbVirtualStateStore; vts_utxo_set : DbUtxoSetStore }.

(** ** Correctness *)

(** The keys spell the outpoints. *)
Definition outpoint_ok (o : TransactionOutpoint) : Prop :=
  (op_transaction_id o < 256 ^ 32)%N ∧ 0 ≤ op_index o < 2 ^ 32.

Lemma index_bytes i : 0 ≤ i < 2 ^ 32 → Z.of_N (Hashes.of_le_bytes (le 4 i)) = i.
Proof.
  intros Hi. unfold le. rewrite hash_of_le_bytes_le; [rewrite Z2N.id; lia|]. change (2 ^ 32) with 4294967296 in Hi.
  replace (256 ^ N.of_nat 4)%N with 4294967296%N by (by vm_compute). lia.
Qed.

Lemma utxo_key_ok {E} o : outpoint_ok o →
  length (utxo_key o) = UTXO_KEY_SIZE ∧ outpoint_of_key (E:=E) (utxo_key o) = Ok o.
Proof.
  intros [Hid Hix]. unfold utxo_key, outpoint_of_key, Hashes.from_slice.
  assert (length (Hashes.as_bytes (op_transaction_id o)) = Hashes.HASH_SIZE) as Hl by apply Hashes.length_to_bytes.
  assert (length (le 4 (op_index o)) = 4%nat) as Hl4 by apply length_le_bytes.
  pose proof (proj1 (proj2 Hashes.hash_representation) _ Hid) as Hr. apply index_bytes in Hix. clear Hid.
  destruct o as [id ix]. cbn [op_transaction_id op_index] in *. revert Hl Hl4 Hr Hix.
  generalize (Hashes.as_bytes id) (le 4 ix). intros a b Hl Hl4 Hr Hix.
  split; [by rewrite length_app, Hl, Hl4|]. rewrite take_app_length', drop_app_length', Hl by done.
  rewrite Nat.eqb_refl. cbn [mbind outcome_bind]. rewrite bool_decide_eq_true_2 by done.
  cbn [assert mbind outcome_bind mret outcome_ret]. by rewrite Hr, Hix.
Qed.

(** Writing a diff changes the set as the diff says. *)
Lemma write_diff_ok `{IterationOrder, !IterationLaws, ImmutableUtxoDiff D} (d : D) s :
  write_diff d s = (Ok tt, mkUtxoSet (apply d (us_access s))).
Proof.
  unfold write_diff, mbind, M_bind, modify. do 2 f_equal. apply map_eq. intros o.
  cbn [us_access]. rewrite lookup_add_collection, lookup_remove_collection, lookup_apply. unfold apply_at.
  by destruct (added d !! o), (removed d !! o).
Qed.

Lemma utxo_set_shows s : shows s (us_access s).
Proof. intros o. unfold view_get, utxo_set_view, get_utxo. by destruct (us_access s !! o). Qed.
