(* ===== verification/VirtualProcessor.v ===== *)
(** * The virtual processor

    [consensus/src/pipeline/virtual_processor/]: the UTXO state of a block relative to
    its selected parent and its verification ([utxo_validation.rs]), and the resolution
    of the virtual block over the body tips ([processor.rs]): the walk from the previous
    selected parent to the new one, the choice of the virtual parents, the new virtual
    state, the template of a new block, the pruning point.

    The processor shares the stores of the header and the body processor.  A call of
    [resolve_virtual] is modelled as one step: blocks that the other processors add
    while it runs are seen by the next call.  [rayon] runs the validation of the
    transactions of a block in parallel; they share only the signature cache, whose
    contents do not change results. *)

From S2P Require Import Prelude Hash Interval Uint Target U3072 ReachStore Reachability ReachMain ReachService Relations Headers GhostdagStore Ghostdag Window Difficulty Stores Depth Parents Errors HeaderProcessor Tx Utxo Hashing MuHash Merkle Database TxValidator Coinbase BodyProcessor VirtualStores.

(** What the processor uses from outside: the hash functions, the stream generator, the
    inverse of malachite, secp256k1, the random victims of the signature cache, and the
    order in which a set of hashes is iterated. *)
Class Externals : Type := {
  ext_hashers :: Hashers;
  ext_stream :: ElementStream;
  ext_iteration :: IterationOrder;
  ext_inverse : Z → Z → option Z;
  ext_pub_key_valid : list N → bool;
  ext_signature_valid : list N → bool;
  ext_verify : list N → Hash → list N → bool;
  ext_draw : nat → nat;
  ext_set_order : gset Hash → list Hash;
}.

(** ** [utxo_validation.rs] *)

Record UtxoProcessingContext : Type := mkUtxoContext {
  uc_ghostdag_data : GhostdagData;
  uc_multiset_hash : MuHash;
  uc_mergeset_diff : UtxoDiff;
  uc_accepted_tx_ids : list Hash;
  uc_mergeset_rewards : gmap Hash BlockRewardData;
}.

Definition utxo_context_new (ghostdag_data : GhostdagData) (selected_parent_multiset_hash : MuHash) : UtxoProcessingContext :=
  mkUtxoContext ghostdag_data selected_parent_multiset_hash ∅ [] ∅.
Definition uc_selected_parent (self : UtxoProcessingContext) : Hash := selected_parent (uc_ghostdag_data self).

Definition set_multiset_hash x (c : UtxoProcessingContext) : UtxoProcessingContext :=
  mkUtxoContext (uc_ghostdag_data c) x (uc_mergeset_diff c) (uc_accepted_tx_ids c) (uc_mergeset_rewards c).
Definition set_mergeset_diff x (c : UtxoProcessingContext) : UtxoProcessingContext :=
  mkUtxoContext (uc_ghostdag_data c) (uc_multiset_hash c) x (uc_accepted_tx_ids c) (uc_mergeset_rewards c).
Definition set_accepted_tx_ids x (c : UtxoProcessingContext) : UtxoProcessingContext :=
  mkUtxoContext (uc_ghostdag_data c) (uc_multiset_hash c) (uc_mergeset_diff c) x (uc_mergeset_rewards c).
Definition set_mergeset_rewards x (c : UtxoProcessingContext) : UtxoProcessingContext :=
  mkUtxoContext (uc_ghostdag_data c) (uc_multiset_hash c) (uc_mergeset_diff c) (uc_accepted_tx_ids c) x.

(** The calls run on a context and on the signature cache of the validator. *)
Abbreviation UM := (M (UtxoProcessingContext * SigCache)).

(** An operation on a field of the context; an error is unwrapped. *)
Definition on_utxo_field {E E' S A} (view : UtxoProcessingContext → S) (update : S → UtxoProcessingContext → UtxoProcessingContext)
    (m : M S E' A) : UM E A := λ '(c, cache),
  let '(o, x) := m (view c) in (unwrap o, (update x c, cache)).
Definition get_ctx {E} : UM E UtxoProcessingContext := λ '(c, cache), (Ok c, (c, cache)).
Definition modify_ctx {E} (f : UtxoProcessingContext → UtxoProcessingContext) : UM E unit := λ '(c, cache), (Ok tt, (f c, cache)).
Definition with_cache {E A} (m : M SigCache E A) : UM E A := λ '(c, cache), let '(o, cache') := m cache in (o, (c, cache')).

(** [sort] of hashes. *)
Definition sort_hashes (l : list Hash) : list Hash := merge_sort N.le l.

Section validation.
Context `{Externals} (self : BlockBodyProcessor).
Local Abbreviation params := (hp_params (bp_stores self)).

Section view.
Context {V : Type} `{UtxoView V}.

(** The entry of an input; the first miss ends the search. *)
Definition populate_input (utxo_view : V) (input : TransactionInput) : TxResult UtxoEntry :=
  match view_get utxo_view (in_previous_outpoint input) with
  | Some entry => Ok entry
  | None => Err MissingTxOutpoints
  end.

Definition validate_transaction_in_utxo_context (transaction : Transaction) (utxo_view : V) (pov_daa_score : Z) :
    M SigCache TxRuleError ValidatedTransaction := λ cache,
  match
    entries ← omap_each (populate_input utxo_view) (tx_inputs transaction);
    populated_tx ← populated_new transaction entries;
    '(calculated_fee, cache) ← validate_populated_transaction_and_get_fee (transaction_validator_of params) ext_draw
      ext_pub_key_valid ext_signature_valid ext_verify populated_tx pov_daa_score cache;
    mret (validated_new populated_tx calculated_fee, cache)
  with
  | Ok (validated_tx, cache) => (Ok validated_tx, cache)
  | Err e => (Err e, cache)
  | Panic => (Panic, cache)
  | Fuel => (Fuel, cache)
  end.

(** [filter_map(|tx| validate(tx).ok())] over all transactions but the coinbase. *)
Fixpoint validate_each {E} (txs : list Transaction) (utxo_view : V) (pov_daa_score : Z) :
    M SigCache E (list ValidatedTransaction) :=
  match txs with
  | [] => mret []
  | tx :: rest => λ cache,
      match validate_transaction_in_utxo_context tx utxo_view pov_daa_score cache with
      | (Ok validated_tx, cache) => (l ← validate_each rest utxo_view pov_daa_score; mret (validated_tx :: l)) cache
      | (Err _, cache) => validate_each rest utxo_view pov_daa_score cache
      | (Panic, cache) => (Panic, cache)
      | (Fuel, cache) => (Fuel, cache)
      end
  end.
Definition validate_transactions_in_parallel {E} (txs : list Transaction) (utxo_view : V) (pov_daa_score : Z) :
    M SigCache E (list ValidatedTransaction) := validate_each (drop 1 txs) utxo_view pov_daa_score.

End view.

(** The three calls that record an accepted transaction. *)
Definition accept_transaction {E} (tx : ValidatedTransaction) (pov_daa_score : Z) : UM E unit :=
  on_utxo_field uc_mergeset_diff set_mergeset_diff (add_transaction tx pov_daa_score);;
  on_utxo_field uc_multiset_hash set_multiset_hash (muhash_add_transaction (E:=unit) tx pov_daa_score);;
  modify_ctx (λ c, set_accepted_tx_ids (uc_accepted_tx_ids c ++ [vt_id tx]) c).

Section calculate.
Context {V : Type} `{UtxoView V}.

(** The body of the loop over the mergeset. *)
Definition merge_block {E} (selected_parent_utxo_view : V) (pov_daa_score : Z) (merged_block : Hash) (txs : list Transaction) :
    UM E unit :=
  ctx ← get_ctx;
  validated_transactions ← with_cache (validate_transactions_in_parallel txs
    (compose selected_parent_utxo_view (uc_mergeset_diff ctx)) pov_daa_score);
  block_fee ← for_fold validated_transactions (λ block_fee validated_tx,
    accept_transaction validated_tx pov_daa_score;;
    lift (add64 block_fee (vtx_calculated_fee validated_tx))) 0;
  coinbase ← lift (unwrap_opt (txs !! 0%nat));
  coinbase_data ← lift (unwrap (deserialize_coinbase_payload (coinbase_manager_of params) (tx_payload coinbase)));
  modify_ctx (λ c, set_mergeset_rewards
    (<[merged_block := mkReward (cd_subsidy coinbase_data) block_fee (md_script_public_key (cd_miner_data coinbase_data))]>
       (uc_mergeset_rewards c)) c).

Definition calculate_utxo_state {E} (selected_parent_utxo_view : V) (pov_daa_score : Z) : UM E unit :=
  ctx ← get_ctx;
  selected_parent_transactions ←
    lift (unwrap (get_transactions (bp_block_transactions_store self) (uc_selected_parent ctx)));
  coinbase ← lift (unwrap_opt (selected_parent_transactions !! 0%nat));
  validated_coinbase ← lift (new_coinbase coinbase);
  accept_transaction validated_coinbase pov_daa_score;;
  mergeset ← lift (consensus_ordered_mergeset_without_selected_parent (hp_ghostdag_store (bp_stores self)) (uc_ghostdag_data ctx));
  merge_block selected_parent_utxo_view pov_daa_score (uc_selected_parent ctx) selected_parent_transactions;;
  for_each mergeset (λ b,
    txs ← lift (unwrap (get_transactions (bp_block_transactions_store self) b));
    merge_block selected_parent_utxo_view pov_daa_score b txs);;
  modify_ctx (λ c, set_accepted_tx_ids (sort_hashes (uc_accepted_tx_ids c)) c).
End calculate.

Definition verify_coinbase_transaction (coinbase : Transaction) (daa_score : Z) (ghostdag_data : GhostdagData)
    (mergeset_rewards : gmap Hash BlockRewardData) (mergeset_non_daa : gset Hash) : BlockResult unit :=
  data ← unwrap (deserialize_coinbase_payload (coinbase_manager_of params) (tx_payload coinbase));
  expected_coinbase ← unwrap (expected_coinbase_transaction (coinbase_manager_of params) daa_score (cd_miner_data data)
    ghostdag_data mergeset_rewards mergeset_non_daa);
  if negb (bool_decide (tx_hash coinbase = tx_hash (ct_tx expected_coinbase))) then Err BadCoinbaseTransaction else Ok tt.

Definition verify_expected_utxo_state `{UtxoView V} (selected_parent_utxo_view : V) (header : Header) : UM RuleError unit :=
  expected_commitment ← on_utxo_field uc_multiset_hash set_multiset_hash (finalize (E:=unit) ext_inverse);
  if negb (bool_decide (expected_commitment = h_utxo_commitment header))
  then fail (BadUTXOCommitment (h_hash header) (h_utxo_commitment header) expected_commitment)
  else
    ctx ← get_ctx;
    expected_accepted_id_merkle_root ← lift (calc_merkle_root (uc_accepted_tx_ids ctx));
    if negb (bool_decide (expected_accepted_id_merkle_root = h_accepted_id_merkle_root header))
    then fail (BadAcceptedIDMerkleRoot (h_hash header) (h_accepted_id_merkle_root header) expected_accepted_id_merkle_root)
    else
      txs ← lift (unwrap (get_transactions (bp_block_transactions_store self) (h_hash header)));
      coinbase ← lift (unwrap_opt (txs !! 0%nat));
      mergeset_non_daa ← lift (unwrap (get_mergeset_non_daa (hp_daa_store (bp_stores self)) (h_hash header)));
      lift (verify_coinbase_transaction coinbase (h_daa_score header) (uc_ghostdag_data ctx) (uc_mergeset_rewards ctx)
        mergeset_non_daa);;
      validated_transactions ← with_cache (validate_transactions_in_parallel txs
        (compose selected_parent_utxo_view (uc_mergeset_diff ctx)) (h_daa_score header));
      expected ← lift (sub64 (zlen txs) 1);
      if zlen validated_transactions <? expected
      then fail (InvalidTransactionsInUtxoContext (expected - zlen validated_transactions) expected)
      else mret tt.

(** The mempool: an entry that is already there is kept. *)
Definition set_entry (i : nat) (entry : UtxoEntry) (tx : MutableTransaction) : MutableTransaction :=
  mkMutable (mt_tx tx) (<[i := Some entry]> (mt_entries tx)) (mt_calculated_fee tx) (mt_calculated_mass tx).
Definition set_calculated_fee (fee : Z) (tx : MutableTransaction) : MutableTransaction :=
  mkMutable (mt_tx tx) (mt_entries tx) (Some fee) (mt_calculated_mass tx).

Definition fill_entry `{UtxoView V} (utxo_view : V) (has_missing_outpoints : bool) (i : nat) : M MutableTransaction TxRuleError bool :=
  mutable_tx ← get;
  entry ← lift (unwrap_opt (mt_entries mutable_tx !! i));
  match entry with
  | Some _ => mret has_missing_outpoints
  | None =>
      input ← lift (unwrap_opt (tx_inputs (mt_tx mutable_tx) !! i));
      match view_get utxo_view (in_previous_outpoint input) with
      | Some entry => modify (set_entry i entry);; mret has_missing_outpoints
      | None => mret true
      end
  end.

(** The state is the transaction; the new contents of the cache are returned. *)
Definition validate_mempool_transaction_in_utxo_context `{UtxoView V} (utxo_view : V) (pov_daa_score : Z) (cache : SigCache) :
    M MutableTransaction TxRuleError SigCache :=
  mutable_tx ← get;
  has_missing_outpoints ← for_fold (seq 0 (length (tx_inputs (mt_tx mutable_tx)))) (fill_entry utxo_view) false;
  if (has_missing_outpoints : bool) then fail MissingTxOutpoints
  else
    mutable_tx ← get;
    verifiable ← lift (as_verifiable mutable_tx);
    '(calculated_fee, cache) ← lift (validate_populated_transaction_and_get_fee (transaction_validator_of params) ext_draw
      ext_pub_key_valid ext_signature_valid ext_verify verifiable pov_daa_score cache);
    modify (set_calculated_fee calculated_fee);;
    mret cache.
End validation.

(** ** [processor.rs] *)

Record VirtualStateProcessor : Type := mkVirtualProcessor {
  vp_body : BlockBodyProcessor;
  vp_utxo_diffs_store : DbUtxoDiffsStore;
  vp_utxo_multisets_store : DbUtxoMultisetsStore;
  vp_acceptance_data_store : DbAcceptanceDataStore;
  vp_virtual_stores : VirtualStores;
  vp_sig_cache : SigCache;
}.

Definition vp_stores (s : VirtualStateProcessor) : HeaderProcessor := bp_stores (vp_body s).
Definition vp_params (s : VirtualStateProcessor) : Params := hp_params (vp_stores s).
Definition vp_state_store (s : VirtualStateProcessor) : DbVirtualStateStore := vts_state (vp_virtual_stores s).
Definition vp_utxo_set (s : VirtualStateProcessor) : DbUtxoSetStore := vts_utxo_set (vp_virtual_stores s).
Definition vp_statuses_store (s : VirtualStateProcessor) : DbStatusesStore := bp_statuses_store (vp_body s).

Definition set_vp_body x (s : VirtualStateProcessor) : VirtualStateProcessor :=
  mkVirtualProcessor x (vp_utxo_diffs_store s) (vp_utxo_multisets_store s) (vp_acceptance_data_store s)
    (vp_virtual_stores s) (vp_sig_cache s).
Definition set_vp_statuses x (s : VirtualStateProcessor) : VirtualStateProcessor := set_vp_body (set_body_statuses x (vp_body s)) s.
Definition set_vp_stores x (s : VirtualStateProcessor) : VirtualStateProcessor :=
  set_vp_body (mkBodyProcessor x (bp_block_transactions_store (vp_body s)) (bp_body_tips_store (vp_body s))) s.
Definition set_vp_diffs x (s : VirtualStateProcessor) : VirtualStateProcessor :=
  mkVirtualProcessor (vp_body s) x (vp_utxo_multisets_store s) (vp_acceptance_data_store s) (vp_virtual_stores s) (vp_sig_cache s).
Definition set_vp_multisets x (s : VirtualStateProcessor) : VirtualStateProcessor :=
  mkVirtualProcessor (vp_body s) (vp_utxo_diffs_store s) x (vp_acceptance_data_store s) (vp_virtual_stores s) (vp_sig_cache s).
Definition set_vp_acceptance x (s : VirtualStateProcessor) : VirtualStateProcessor :=
  mkVirtualProcessor (vp_body s) (vp_utxo_diffs_store s) (vp_utxo_multisets_store s) x (vp_virtual_stores s) (vp_sig_cache s).
Definition set_vp_virtual x (s : VirtualStateProcessor) : VirtualStateProcessor :=
  mkVirtualProcessor (vp_body s) (vp_utxo_diffs_store s) (vp_utxo_multisets_store s) (vp_acceptance_data_store s) x (vp_sig_cache s).
Definition set_vp_cache x (s : VirtualStateProcessor) : VirtualStateProcessor :=
  mkVirtualProcessor (vp_body s) (vp_utxo_diffs_store s) (vp_utxo_multisets_store s) (vp_acceptance_data_store s)
    (vp_virtual_stores s) x.
Definition set_vp_state x (s : VirtualStateProcessor) : VirtualStateProcessor := set_vp_virtual (mkVirtualStores x (vp_utxo_set s)) s.
Definition set_vp_utxo_set x (s : VirtualStateProcessor) : VirtualStateProcessor := set_vp_virtual (mkVirtualStores (vp_state_store s) x) s.
Definition set_vp_pruning x (s : VirtualStateProcessor) : VirtualStateProcessor := set_vp_stores (set_pruning_info x (vp_stores s)) s.
Definition set_vp_past_pruning x (s : VirtualStateProcessor) : VirtualStateProcessor :=
  let h := vp_stores s in
  set_vp_stores (mkProcessor (hp_params h) (hp_relations_store h) (hp_reachability_store h) (hp_ghostdag_store h)
    (hp_statuses_store h) (hp_pruning_store h) (hp_window_difficulty h) (hp_window_median h) (hp_daa_store h)
    (hp_headers_store h) (hp_selected_tip_store h) (hp_depth_store h) x) s.

(** A write to one of the stores; an error is unwrapped. *)
Definition on_vp {E S A} (view : VirtualStateProcessor → S) (update : S → VirtualStateProcessor → VirtualStateProcessor)
    (m : M S StoreError A) : M VirtualStateProcessor E A := λ s,
  let '(o, x) := m (view s) in (unwrap o, update x s).

(** Run a validation with the shared signature cache: its result and the context. *)
Definition run_utxo {E E' A} (m : UM E' A) (c : UtxoProcessingContext) :
    M VirtualStateProcessor E (option E' * UtxoProcessingContext) := λ s,
  match m (c, vp_sig_cache s) with
  | (Ok _, (c, cache)) => (Ok (None, c), set_vp_cache cache s)
  | (Err e, (c, cache)) => (Ok (Some e, c), set_vp_cache cache s)
  | (Panic, (_, cache)) => (Panic, set_vp_cache cache s)
  | (Fuel, (_, cache)) => (Fuel, set_vp_cache cache s)
  end.

Inductive MergesetIncreaseResult : Type := Accepted (increase_size : Z) | Rejected (new_candidate : Hash).

(** [VecDeque::swap]: both indices must be in range. *)
Definition swap_at {E A} (i j : nat) (l : list A) : outcome E (list A) :=
  x ← unwrap_opt (l !! i);
  y ← unwrap_opt (l !! j);
  mret (<[j := x]> (<[i := y]> l)).

Section parents.
Context `{Externals} (fuel : nat) {E : Type} (self : HeaderProcessor).
Local Abbreviation params := (hp_params self).

Definition vp_is_dag_ancestor_of (a b : Hash) : outcome E bool := unwrap (rs_is_dag_ancestor_of (hp_service self) a b).

(** The state is the queue, the visited blocks and the size. *)
Definition increase_step (selected_parents : list Hash) (budget : Z) (st : list Hash * gset Hash * Z) :
    outcome E ((list Hash * gset Hash * Z) + MergesetIncreaseResult) :=
  let '(queue, visited, mergeset_increase) := st in
  match queue with
  | [] => mret (inr (Accepted mergeset_increase))
  | current :: queue =>
      past ← unwrap (rs_is_dag_ancestor_of_any (hp_service self) current selected_parents);
      if (past : bool) then mret (inl (queue, visited, mergeset_increase))
      else
        mergeset_increase ← add64 mergeset_increase 1;
        if budget <? mergeset_increase then mret (inr (Rejected current))
        else
          current_parents ← unwrap (get_parents (hp_relations_store self) current);
          let '(queue, visited) := foldl (λ '(queue, visited) parent,
            if bool_decide (parent ∈ (visited : gset Hash)) then (queue, visited)
            else (queue ++ [parent], {[parent]} ∪ visited)) (queue, visited) current_parents in
          mret (inl (queue, visited, mergeset_increase))
  end.

Definition mergeset_increase (selected_parents : list Hash) (candidate : Hash) (budget : Z) : outcome E MergesetIncreaseResult :=
  candidate_parents ← unwrap (get_parents (hp_relations_store self) candidate);
  oloop fuel (increase_step selected_parents budget) (candidate_parents, list_to_set candidate_parents, 1).

(** The two loops of the removal of parents that break the merge bound. *)
Definition find_bad_red (ghostdag_data : GhostdagData) (merge_depth_root : Hash) (st : option (list Hash) * list Hash) (red : Hash) :
    outcome E (option (list Hash) * list Hash) :=
  let '(loaded, bad_reds) := st in
  below ← vp_is_dag_ancestor_of merge_depth_root red;
  if (below : bool) then mret st
  else
    blues ← match loaded with
            | Some blues => mret blues
            | None => kosherizing_blues (hp_depth_manager self) ghostdag_data merge_depth_root
            end;
    kosher ← unwrap (rs_is_dag_ancestor_of_any (hp_service self) red blues);
    mret (Some blues, if (kosher : bool) then bad_reds else bad_reds ++ [red]).

Definition remove_bounded_merge_breaking_parents (virtual_parents : list Hash) : outcome E (list Hash * GhostdagData) :=
  ghostdag_data ← ghostdag fuel (hp_ghostdag_manager self) virtual_parents;
  info ← unwrap (get_pruning (hp_pruning_store self));
  pruning_point ← expected_header_pruning_point fuel (hp_pruning_manager self) (to_compact ghostdag_data) info;
  merge_depth_root ← calc_merge_depth_root fuel (hp_depth_manager self) ghostdag_data pruning_point;
  '(_, bad_reds) ← ofold (find_bad_red ghostdag_data merge_depth_root) (None, []) (mergeset_reds ghostdag_data);
  if bool_decide (bad_reds = []) then mret (virtual_parents, ghostdag_data)
  else
    virtual_parents ← filter_of (λ h, b ← unwrap (rs_is_any_dag_ancestor (hp_service self) bad_reds h); mret (negb b)) virtual_parents;
    ghostdag_data ← ghostdag fuel (hp_ghostdag_manager self) virtual_parents;
    mret (virtual_parents, ghostdag_data).

(** The candidates by descending blue work, at most [max_candidates] of them, with the
    last ones swapped into the second half of the additional parents. *)
Definition order_candidates (selected_parent : Hash) (candidates : list Hash) (max_block_parents : Z) : outcome E (list Hash) :=
  blocks ← omap_each (sortable (hp_ghostdag_store self)) (filter (λ h, h ≠ selected_parent) candidates);
  let candidates := sb_hash <$> take (Z.to_nat (max_block_parents * 3)) (merge_sort (λ a b, sb_le b a) blocks) in
  if max_block_parents <=? zlen candidates then
    max_additional_parents ← sub64 max_block_parents 1;
    j ← sub64 (zlen candidates) 1;
    '(candidates, _) ← ofold (λ '(candidates, j) i,
        candidates ← swap_at i (Z.to_nat j) candidates;
        j ← sub64 j 1;
        mret (candidates, j)) (candidates, j)
      (seq (Z.to_nat (max_additional_parents / 2)) (Z.to_nat (max_additional_parents - max_additional_parents / 2)));
    mret candidates
  else mret candidates.

(** One turn of the selection: the candidates, the parents and the size of the mergeset. *)
Definition pick_step (max_block_parents : Z) (st : list Hash * list Hash * Z) :
    outcome E ((list Hash * list Hash * Z) + (list Hash * Z)) :=
  let '(candidates, virtual_parents, mergeset_size) := st in
  match candidates with
  | [] => mret (inr (virtual_parents, mergeset_size))
  | candidate :: candidates =>
      if (p_mergeset_size_limit params <=? mergeset_size) || (max_block_parents <=? zlen virtual_parents)
      then mret (inr (virtual_parents, mergeset_size))
      else
        budget ← sub64 (p_mergeset_size_limit params) mergeset_size;
        increase ← mergeset_increase virtual_parents candidate budget;
        match increase with
        | Accepted increase_size =>
            mergeset_size ← add64 mergeset_size increase_size;
            mret (inl (candidates, virtual_parents ++ [candidate], mergeset_size))
        | Rejected new_candidate =>
            covered ← unwrap (rs_is_any_dag_ancestor (hp_service self) candidates new_candidate);
            if (covered : bool) then mret (inl (candidates, virtual_parents, mergeset_size))
            else
              candidates ← filter_of (λ h, b ← vp_is_dag_ancestor_of new_candidate h; mret (negb b)) candidates;
              mret (inl (candidates ++ [new_candidate], virtual_parents, mergeset_size))
        end
  end.

Definition pick_virtual_parents (selected_parent : Hash) (candidates : list Hash) : outcome E (list Hash * GhostdagData) :=
  let max_block_parents := p_max_block_parents params in
  candidates ← order_candidates selected_parent candidates max_block_parents;
  '(virtual_parents, mergeset_size) ← oloop fuel (pick_step max_block_parents) (candidates, [selected_parent], 1);
  assert (mergeset_size <=? p_mergeset_size_limit params);;
  assert (zlen virtual_parents <=? max_block_parents);;
  remove_bounded_merge_breaking_parents virtual_parents.
End parents.

Section processor.
Context `{Externals} (fuel : nat) {E : Type}.

Abbreviation VM := (M VirtualStateProcessor E).

(** [accumulated_diff.with_diff_in_place(diff).unwrap()]. *)
Definition accumulate {D} `{ImmutableUtxoDiff D} (accumulated_diff : UtxoDiff) (diff : D) : outcome E UtxoDiff :=
  let '(o, accumulated_diff) := with_diff_in_place diff accumulated_diff in
  unwrap o;; mret accumulated_diff.

(** The walk down to the split point. *)
Definition walk_down (self : VirtualStateProcessor) (prev_selected new_selected : Hash) (accumulated_diff : UtxoDiff) :
    outcome E (Hash * UtxoDiff) :=
  oloop fuel (λ '(it, accumulated_diff),
    '(item, it) ← unwrap (backward_next (hp_reachability_store (vp_stores self)) it);
    match item with
    | None => Panic
    | Some current =>
        b ← unwrap (rs_is_chain_ancestor_of (hp_service (vp_stores self)) current new_selected);
        if (b : bool) then mret (inr (current, accumulated_diff))
        else
          mergeset_diff ← unwrap (get_utxo_diff (vp_utxo_diffs_store self) current);
          accumulated_diff ← accumulate accumulated_diff (as_reversed mergeset_diff);
          mret (inl (it, accumulated_diff))
    end) (default_backward_chain_iterator prev_selected, accumulated_diff).

Definition commit_utxo_state (current : Hash) (mergeset_diff : UtxoDiff) (multiset : MuHash) (acceptance_data : AcceptanceData) : VM unit :=
  on_vp vp_utxo_diffs_store set_vp_diffs (insert_utxo_diff current mergeset_diff);;
  on_vp vp_utxo_multisets_store set_vp_multisets (insert_multiset current multiset);;
  on_vp vp_acceptance_data_store set_vp_acceptance (insert_acceptance_data current acceptance_data);;
  on_vp vp_statuses_store set_vp_statuses (set_status current StatusUTXOValid).

Definition disqualify (current : Hash) : VM unit :=
  on_vp vp_statuses_store set_vp_statuses (set_status current StatusDisqualifiedFromChain).

(** One block of the walk up: [selected_parent] and [current] are consecutive on the chain. *)
Definition resolve_chain_block (accumulated_diff : UtxoDiff) (pair : Hash * Hash) : VM UtxoDiff :=
  let '(selected_parent, current) := pair in
  self ← get;
  match get_utxo_diff (vp_utxo_diffs_store self) current with
  | Ok mergeset_diff => lift (accumulate accumulated_diff mergeset_diff)
  | Err (KeyNotFound _) =>
      status ← lift (unwrap (get_status (vp_statuses_store self) selected_parent));
      if bool_decide (status = StatusDisqualifiedFromChain) then disqualify current;; mret accumulated_diff
      else
        header ← lift (unwrap (get_header (hp_headers_store (vp_stores self)) current));
        mergeset_data ← lift (unwrap (get_gd_data (hp_ghostdag_store (vp_stores self)) current));
        selected_parent_multiset_hash ← lift (unwrap (get_multiset (vp_utxo_multisets_store self) selected_parent));
        let selected_parent_utxo_view := compose (vp_utxo_set self) accumulated_diff in
        '(_, ctx) ← run_utxo (E':=unit) (calculate_utxo_state (vp_body self) selected_parent_utxo_view (h_daa_score header))
          (utxo_context_new mergeset_data selected_parent_multiset_hash);
        '(res, ctx) ← run_utxo (verify_expected_utxo_state (vp_body self) selected_parent_utxo_view header) ctx;
        match res with
        | Some _ => disqualify current;; mret accumulated_diff
        | None =>
            accumulated_diff ← lift (accumulate accumulated_diff (uc_mergeset_diff ctx));
            commit_utxo_state current (uc_mergeset_diff ctx) (uc_multiset_hash ctx) mkAcceptanceData;;
            mret accumulated_diff
        end
  | _ => lift Panic
  end.

(** The pairs of [tuple_windows]. *)
Definition tuple_windows {A} (l : list A) : list (A * A) := zip l (tail l).

(** From the previous selected parent down to the split point and up to the new one. *)
Definition walk_to (prev_state : VirtualState) (new_selected : Hash) : VM UtxoDiff :=
  self ← get;
  let prev_selected := selected_parent (vs_ghostdag_data prev_state) in
  '(split_point, accumulated_diff) ← lift (walk_down self prev_selected new_selected (to_reversed (vs_utxo_diff prev_state)));
  chain ← lift (unwrap (collect forward_next (λ _, hp_reachability_store (vp_stores self)) fuel
    (forward_chain_iterator split_point new_selected true)));
  for_fold (tuple_windows chain) resolve_chain_block accumulated_diff.

(** The new virtual state, when the new selected parent is valid. *)
Definition update_virtual (tips : list Hash) (new_selected : Hash) (accumulated_diff : UtxoDiff) : VM unit :=
  self ← get;
  let hp := vp_stores self in
  '(virtual_parents, virtual_ghostdag_data) ← lift (pick_virtual_parents fuel hp new_selected tips);
  lift (assert (bool_decide (selected_parent virtual_ghostdag_data = new_selected)));;
  selected_parent_multiset_hash ←
    lift (unwrap (get_multiset (vp_utxo_multisets_store self) (selected_parent virtual_ghostdag_data)));
  let selected_parent_utxo_view := compose (vp_utxo_set self) accumulated_diff in
  window ← lift (block_window fuel (hp_traversal_manager hp) virtual_ghostdag_data (p_difficulty_window_size (hp_params hp)));
  '(virtual_daa_score, mergeset_non_daa) ← lift (calc_daa_score_and_non_daa_mergeset_blocks (hp_difficulty_manager hp)
    (sb_hash <$> window) virtual_ghostdag_data);
  virtual_bits ← lift (calculate_difficulty_bits (hp_difficulty_manager hp) window);
  '(virtual_past_median_time, _) ← lift (calc_past_median_time fuel (hp_median_manager hp) virtual_ghostdag_data);
  '(_, ctx) ← run_utxo (E':=unit) (calculate_utxo_state (vp_body self) selected_parent_utxo_view virtual_daa_score)
    (utxo_context_new virtual_ghostdag_data selected_parent_multiset_hash);
  accumulated_diff ← lift (accumulate accumulated_diff (uc_mergeset_diff ctx));
  let new_virtual_state := mkVirtual virtual_parents virtual_ghostdag_data virtual_daa_score virtual_bits
    virtual_past_median_time (uc_multiset_hash ctx) (uc_mergeset_diff ctx) (uc_accepted_tx_ids ctx)
    (uc_mergeset_rewards ctx) mergeset_non_daa in
  on_vp vp_utxo_set set_vp_utxo_set (write_diff accumulated_diff);;
  on_vp vp_state_store set_vp_state (set_virtual_state new_virtual_state).

Definition advance_pruning_point_and_candidate_if_possible : VM unit :=
  self ← get;
  virtual_state ← lift (unwrap (get_virtual_state (vp_state_store self)));
  let virtual_sp := selected_parent (vs_ghostdag_data virtual_state) in
  if bool_decide (virtual_sp = p_genesis_hash (vp_params self)) then mret tt
  else
    ghostdag_data ← lift (unwrap (get_compact_data (hp_ghostdag_store (vp_stores self)) virtual_sp));
    current_pruning_info ← lift (unwrap (get_pruning (hp_pruning_store (vp_stores self))));
    '(new_pruning_points, new_candidate) ← lift (next_pruning_points_and_candidate_by_ghostdag_data fuel
      (hp_pruning_manager (vp_stores self)) ghostdag_data None (pi_candidate current_pruning_info)
      (pi_pruning_point current_pruning_info));
    if negb (bool_decide (new_pruning_points = [])) then
      for_each (imap pair new_pruning_points) (λ '(i, past_pp),
        index ← lift (add64 (pi_index current_pruning_info) (Z.of_nat i));
        index ← lift (add64 index 1);
        on_vp (λ s, hp_past_pruning_points_store (vp_stores s)) set_vp_past_pruning (insert_past_pruning_point index past_pp));;
      new_pp_index ← lift (add64 (pi_index current_pruning_info) (zlen new_pruning_points));
      new_pp ← lift (unwrap_opt (last new_pruning_points));
      on_vp (λ s, hp_pruning_store (vp_stores s)) set_vp_pruning (set_pruning new_pp new_candidate new_pp_index)
    else if negb (bool_decide (new_candidate = pi_candidate current_pruning_info)) then
      on_vp (λ s, hp_pruning_store (vp_stores s)) set_vp_pruning
        (set_pruning (pi_pruning_point current_pruning_info) new_candidate (pi_index current_pruning_info))
    else mret tt.

Definition resolve_virtual : VM unit :=
  self ← get;
  prev_state ← lift (unwrap (get_virtual_state (vp_state_store self)));
  tip_set ← lift (unwrap (get_tips (bp_body_tips_store (vp_body self))));
  let tips := ext_set_order tip_set in
  new_selected ← lift (find_selected_parent (hp_ghostdag_manager (vp_stores self)) tips);
  accumulated_diff ← walk_to prev_state new_selected;
  self ← get;
  new_selected_status ← lift (unwrap (get_status (vp_statuses_store self) new_selected));
  match new_selected_status with
  | StatusUTXOValid => update_virtual tips new_selected accumulated_diff
  | StatusDisqualifiedFromChain => mret tt
  | _ => lift Panic
  end;;
  advance_pruning_point_and_candidate_if_possible.

(** The first pruning point, which may already be there. *)
Definition init_past_pruning_points (genesis : Hash) : VM unit := λ s,
  match insert_past_pruning_point 0 genesis (hp_past_pruning_points_store (vp_stores s)) with
  | (Ok _, x) => (Ok tt, set_vp_past_pruning x s)
  | (Err (KeyAlreadyExists _), _) =>
      (h ← unwrap (get_past_pruning_point (hp_past_pruning_points_store (vp_stores s)) 0);
       assert (bool_decide (h = genesis)), s)
  | (_, _) => (Panic, s)
  end.

Definition process_genesis_state_if_needed : VM unit :=
  self ← get;
  let genesis := p_genesis_hash (vp_params self) in
  status ← lift (unwrap (get_status (vp_statuses_store self) genesis));
  match status with
  | StatusUTXOPendingVerification =>
      txs ← lift (unwrap (get_transactions (bp_block_transactions_store (vp_body self)) genesis));
      first ← lift (unwrap_opt (txs !! 0%nat));
      data ← lift (ghostdag fuel (hp_ghostdag_manager (vp_stores self)) [genesis]);
      on_vp vp_state_store set_vp_state (set_virtual_state (virtual_from_genesis genesis (p_genesis_bits (vp_params self))
        (p_genesis_timestamp (vp_params self)) [tx_id first] data));;
      commit_utxo_state genesis ∅ muhash_new mkAcceptanceData;;
      init_past_pruning_points genesis
  | StatusUTXOValid => mret tt
  | _ => lift Panic
  end.

(** A batch of the worker: the virtual is resolved once for all blocks that wait, and
    each of them is answered with its status. *)
Definition answer_batch (blocks : list Block) : VM (list BlockStatus) :=
  resolve_virtual;;
  self ← get;
  lift (omap_each (λ block, unwrap (get_status (vp_statuses_store self) (block_hash block))) blocks).

(** *** The mempool and new blocks *)

(** The state of the call is the transaction; [self] is read under the lock. *)
Definition validate_mempool_transaction_and_populate (self : VirtualStateProcessor) : M MutableTransaction TxRuleError SigCache :=
  mutable_tx ← get;
  lift (validate_tx_in_isolation (transaction_validator_of (vp_params self)) (mt_tx mutable_tx));;
  virtual_state ← lift (unwrap (get_virtual_state (vp_state_store self)));
  lift (utxo_free_tx_validation (mt_tx mutable_tx) (vs_daa_score virtual_state) (vs_past_median_time virtual_state));;
  validate_mempool_transaction_in_utxo_context (vp_body self) (vp_utxo_set self) (vs_daa_score virtual_state) (vp_sig_cache self).

Definition validate_block_template_transaction (self : VirtualStateProcessor) (virtual_state : VirtualState) (tx : Transaction) :
    M SigCache TxRuleError unit :=
  lift (utxo_free_tx_validation tx (vs_daa_score virtual_state) (vs_past_median_time virtual_state));;
  validate_transaction_in_utxo_context (vp_body self) tx (vp_utxo_set self) (vs_daa_score virtual_state);;
  mret tt.

(** The ids and errors of the transactions that are not valid. *)
Fixpoint invalid_transactions (self : VirtualStateProcessor) (virtual_state : VirtualState) (txs : list Transaction) :
    M SigCache RuleError (list (Hash * TxRuleError)) :=
  match txs with
  | [] => mret []
  | tx :: rest => λ cache,
      match validate_block_template_transaction self virtual_state tx cache with
      | (Ok _, cache) => invalid_transactions self virtual_state rest cache
      | (Err e, cache) => (l ← invalid_transactions self virtual_state rest; mret ((tx_id tx, e) :: l)) cache
      | (Panic, cache) => (Panic, cache)
      | (Fuel, cache) => (Fuel, cache)
      end
  end.

Definition build_block_template (now : Z) (miner_data : MinerData) (txs : list Transaction) :
    M VirtualStateProcessor RuleError BlockTemplate := λ s,
  let '(o, cache) := (
    virtual_state ← lift (unwrap (get_virtual_state (vp_state_store s)));
    invalid ← invalid_transactions s virtual_state txs;
    if negb (bool_decide (invalid = [])) then fail (InvalidTransactionsInNewBlock invalid)
    else lift (
      info ← unwrap (get_pruning (hp_pruning_store (vp_stores s)));
      pruning_point ← expected_header_pruning_point fuel (hp_pruning_manager (vp_stores s))
        (to_compact (vs_ghostdag_data virtual_state)) info;
      coinbase ← unwrap (expected_coinbase_transaction (coinbase_manager_of (vp_params s)) (vs_daa_score virtual_state) miner_data
        (vs_ghostdag_data virtual_state) (vs_mergeset_rewards virtual_state) (vs_mergeset_non_daa virtual_state));
      let txs := ct_tx coinbase :: txs in
      parents_by_level ← calc_block_parents (hp_parents_manager (vp_stores s)) pruning_point (vs_parents virtual_state);
      hash_merkle_root ← calc_hash_merkle_root txs;
      accepted_id_merkle_root ← calc_merkle_root (vs_accepted_tx_ids virtual_state);
      utxo_commitment ← unwrap (fst (finalize (E:=unit) ext_inverse (vs_multiset virtual_state)));
      min_block_time ← add64 (vs_past_median_time virtual_state) 1;
      let header := header_new BLOCK_VERSION parents_by_level hash_merkle_root accepted_id_merkle_root utxo_commitment
        (Z.max min_block_time now) (vs_bits virtual_state) 0 (vs_daa_score virtual_state)
        (blue_work (vs_ghostdag_data virtual_state)) (blue_score (vs_ghostdag_data virtual_state)) pruning_point in
      selected_parent_timestamp ←
        unwrap (get_timestamp (hp_headers_store (vp_stores s)) (selected_parent (vs_ghostdag_data virtual_state)));
      mret (mkTemplate (mkMutableBlock header txs) miner_data (ct_has_red_reward coinbase) selected_parent_timestamp)))
    (vp_sig_cache s) in
  (o, set_vp_cache cache s).
End processor.
