(* ===== verification/VirtualUtxo.v ===== *)
(** * The UTXO state of the selected chain

    What the virtual processor is to compute, stated without its data structures: a
    block turns the UTXO set of its selected parent into its own by the coinbase of the
    selected parent and then, block by block in the order of the mergeset, by the
    transactions that are valid on the set before their block.  The invariant
    [ledger] of such states makes every accepted transaction executable: inputs exist
    and outputs are new. *)

From S2P Require Import Prelude Hash Errors Tx Utxo UtxoProof Hashing Database TxValidator TxValidatorProof.

(** ** Bodies *)

Section bodies.
Context (tv : TransactionValidator) (BT : gmap Hash (list Transaction)).

Definition stored (t : Transaction) : Prop := ∃ b txs, BT !! b = Some txs ∧ t ∈ txs.

(** Transactions that differ at most in their signatures. *)
Record same_tx (t t' : Transaction) : Prop := {
  st_spends : in_previous_outpoint <$> tx_inputs t = in_previous_outpoint <$> tx_inputs t';
  st_outputs : tx_outputs t = tx_outputs t';
  st_coinbase : is_coinbase t = is_coinbase t';
  st_payload : tx_payload t = tx_payload t';
}.

(** A transaction that a body may contain. *)
Record tx_sound (t : Transaction) : Prop := {
  ts_inputs : if is_coinbase t then tx_inputs t = [] else isolated tv t;
  ts_distinct : NoDup (in_previous_outpoint <$> tx_inputs t);
  ts_values : values_ok (tx_outputs t);
  ts_count : Z.of_nat (length (tx_outputs t)) ≤ 2 ^ 32;
  ts_sequences : Forall (λ i, 0 ≤ in_sequence i < 2 ^ 64) (tx_inputs t);
}.

(** The bodies that were accepted, without a collision of transaction ids. *)
Record bodies_ok : Prop := {
  bo_ids t t' : stored t → stored t' → tx_id t = tx_id t' → same_tx t t';
  bo_txs t : stored t → tx_sound t;
  bo_block b txs : BT !! b = Some txs → ∃ cb rest, txs = cb :: rest ∧ is_coinbase cb = true
    ∧ Forall (λ t, is_coinbase t = false) rest ∧ NoDup (in_previous_outpoint <$> (rest ≫= tx_inputs));
}.

(** The entry of an output of a stored transaction. *)
Definition source (o : TransactionOutpoint) (e : UtxoEntry) : Prop := ∃ t i out, stored t ∧ tx_outputs t !! i = Some out
  ∧ (o, e) = output_utxo (tx_id t) (is_coinbase t) (ue_block_daa_score e) i out.

(** ** States of the ledger *)

(** [A] are the ids of the transactions accepted so far: all outputs are theirs, and
    what they spent is gone for good. *)
Record ledger (U : UtxoCollection) (A : gset Hash) : Prop := {
  le_source o e : U !! o = Some e → op_transaction_id o ∈ A ∧ source o e;
  le_scores o e : U !! o = Some e → 0 ≤ ue_block_daa_score e < 2 ^ 62;
  le_spent t i : stored t → tx_id t ∈ A → i ∈ tx_inputs t →
    U !! in_previous_outpoint i = None ∧ op_transaction_id (in_previous_outpoint i) ∈ A;
}.

Lemma ledger_empty : ledger ∅ ∅.
Proof. split; [intros ?? He; by rewrite lookup_empty in He..|]. set_solver. Qed.

Definition populates (U : UtxoCollection) (t : Transaction) (entries : list UtxoEntry) : Prop :=
  Forall2 (λ i e, U !! in_previous_outpoint i = Some e) (tx_inputs t) entries.

Lemma populates_length U t entries : populates U t entries → length entries = length (tx_inputs t).
Proof. intros Hp. symmetry. by eapply Forall2_length. Qed.

Lemma validated_populated t entries fee U : populates U t entries → populated_with (mkValidated t entries fee) entries.
Proof.
  intros Hp. pose proof (populates_length _ _ _ Hp). split; [done|]. intros ?. by apply index_pair_ok.
Qed.

Section execution.
Context (HB : bodies_ok) (U : UtxoCollection) (A : gset Hash) (HL : ledger U A) (daa : Z) (Hdaa : 0 ≤ daa < 2 ^ 62).
Context (t : Transaction) (entries : list UtxoEntry) (fee : Z) (Ht : stored t) (Hp : populates U t entries).
Local Abbreviation v := (mkValidated t entries fee).

(** An accepted transaction cannot be accepted again: its inputs are gone. *)
Lemma input_fresh i : i ∈ tx_inputs t → tx_id t ∉ A.
Proof using HL Ht Hp.
  intros Hi HA. destruct (le_spent _ _ HL t i Ht HA Hi) as [Hn _].
  apply list_elem_of_lookup in Hi as [j Hj]. destruct (Forall2_lookup_l _ _ _ _ _ Hp Hj) as (e & _ & He). congruence.
Qed.

Lemma created_id o e : (o, e) ∈ created_utxos v daa → op_transaction_id o = tx_id t
  ∧ ue_block_daa_score e = daa ∧ source o e.
Proof using Ht.
  unfold created_utxos. intros Hin. apply elem_of_lookup_imap in Hin as (i & out & Heq & Hout).
  cbn [vt_id vt_tx validated_verifiable vtx_tx vt_is_coinbase vt_outputs] in *. unfold output_utxo in Heq.
  injection Heq as -> ->. split_and!; [done|done|]. exists t, i, out. split_and!; done.
Qed.

Lemma spent_in_ledger o : o ∈ spent_outpoints v → op_transaction_id o ∈ A ∧ is_Some (U !! o).
Proof using HL Hp.
  unfold spent_outpoints. intros (i & -> & Hi)%list_elem_of_fmap. apply list_elem_of_lookup in Hi as [j Hj].
  destruct (Forall2_lookup_l _ _ _ _ _ Hp Hj) as (e & _ & He). split; [|eauto]. by apply (le_source _ _ HL _ _ He).
Qed.

Lemma fresh_executable : tx_id t ∉ A → executable v daa U.
Proof using HB HL Ht Hp.
  intros HA. pose proof (bo_txs HB t Ht) as Hs. split.
  - exists entries. split; [by eapply validated_populated|done].
  - apply Hs.
  - apply Hs.
  - apply Forall_forall. intros [o e] Hin. cbn [fst]. rewrite lookup_spend.
    destruct (decide _); [done|]. destruct (U !! o) as [e'|] eqn:Ho; [|done].
    destruct (created_id o e Hin) as [Hid _]. destruct (le_source _ _ HL o e' Ho) as [HA' _]. congruence.
Qed.

Lemma lookup_create outs V o : NoDup outs.*1 → create outs V !! o =
  match list_to_map (M:=UtxoCollection) outs !! o with Some e => Some e | None => V !! o end.
Proof using.
  clear. revert V. induction outs as [|[o' e'] outs IH]; intros V Hnd; [by rewrite list_to_map_nil, lookup_empty|].
  apply NoDup_cons in Hnd as [Hn Hnd]. change (create ((o', e') :: outs) V) with (create outs (<[o' := e']> V)).
  rewrite IH by done. rewrite list_to_map_cons. destruct (decide (o = o')) as [->|Hne].
  - rewrite !lookup_insert_eq. by rewrite (not_elem_of_list_to_map_1 outs o' Hn).
  - rewrite !lookup_insert_ne by done. done.
Qed.

Lemma lookup_execute o : execute v daa U !! o =
  match list_to_map (M:=UtxoCollection) (created_utxos v daa) !! o with
  | Some e => Some e
  | None => if decide (o ∈ spent_outpoints v) then None else U !! o
  end.
Proof using HB Ht.
  unfold execute. rewrite lookup_create by (apply created_distinct, (bo_txs HB t Ht)). by rewrite lookup_spend.
Qed.

Lemma execute_ledger : tx_id t ∉ A → ledger (execute v daa U) ({[tx_id t]} ∪ A).
Proof using HB HL Ht Hp Hdaa.
  intros HA. assert (∀ o e, execute v daa U !! o = Some e →
    (U !! o = Some e ∧ o ∉ spent_outpoints v) ∨ (o, e) ∈ created_utxos v daa) as Hcases.
  { intros o e. rewrite lookup_execute. destruct (list_to_map _ !! o) as [e'|] eqn:Hm.
    - intros [= ->]. right. by apply elem_of_list_to_map_2 in Hm.
    - destruct (decide _); [done|]. by left. }
  split.
  - intros o e [[Ho _]|Hin]%Hcases.
    + destruct (le_source _ _ HL o e Ho). set_solver.
    + destruct (created_id o e Hin) as (Hid & _ & Hsrc). split; [set_solver|done].
  - intros o e [[Ho _]|Hin]%Hcases; [by eapply le_scores|]. destruct (created_id o e Hin) as (_ & -> & _). lia.
  - intros t' i Ht' Hid Hi.
    assert (op_transaction_id (in_previous_outpoint i) ∈ A ∧ (U !! in_previous_outpoint i = None ∨ in_previous_outpoint i ∈ spent_outpoints v)) as [HiA Hgone].
    { apply elem_of_union in Hid as [Hid|Hid].
      - apply elem_of_singleton in Hid. pose proof (st_spends _ _ (bo_ids HB t' t Ht' Ht Hid)) as Hsp.
        assert (in_previous_outpoint i ∈ spent_outpoints v) as Hin.
        { change (in_previous_outpoint i ∈ in_previous_outpoint <$> tx_inputs t). rewrite <- Hsp. apply list_elem_of_fmap. eauto. }
        split; [by apply spent_in_ledger|by right].
      - destruct (le_spent _ _ HL t' i Ht' Hid Hi). split; [done|by left]. }
    split; [|set_solver]. destruct (execute v daa U !! in_previous_outpoint i) as [e|] eqn:He; [|done]. exfalso.
    destruct (Hcases _ _ He) as [[Ho Hns]|Hin]; [naive_solver congruence|].
    destruct (created_id _ _ Hin) as [Heq _]. congruence.
Qed.
End execution.

(** ** Coins *)

Definition coins (V : UtxoCollection) : Z := map_fold (λ _ e acc, ue_amount e + acc) 0 V.

Lemma coins_insert V o e : V !! o = None → coins (<[o := e]> V) = ue_amount e + coins V.
Proof using. intros Ho. apply (map_fold_insert_L (λ _ e acc, ue_amount e + acc)); [intros; lia|done]. Qed.
Lemma coins_delete V o e : V !! o = Some e → coins V = ue_amount e + coins (delete o V).
Proof using. intros Ho. apply (map_fold_delete_L (λ _ e acc, ue_amount e + acc)); [intros; lia|done]. Qed.

Lemma coins_nonneg V : (∀ o e, V !! o = Some e → 0 ≤ ue_amount e) → 0 ≤ coins V.
Proof using.
  clear. intros Hall. induction V as [|o e V Ho IH] using map_ind; [done|]. rewrite coins_insert by done.
  pose proof (Hall o e (lookup_insert_eq _ _ _)). enough (0 ≤ coins V) by lia. apply IH. intros o' e' Ho'.
  apply (Hall o'). rewrite lookup_insert_ne; [done|]. congruence.
Qed.

Lemma coins_spend os es V : Forall2 (λ o e, V !! o = Some e) os es → NoDup os →
  coins (spend os V) = coins V - zsum (ue_amount <$> es).
Proof using.
  clear. revert es V. induction os as [|o os IH]; intros es V Hf Hnd.
  { apply Forall2_nil_inv_l in Hf as ->. cbn. lia. }
  apply Forall2_cons_inv_l in Hf as (e & es' & He & Hf & ->). apply NoDup_cons in Hnd as [Hn Hnd].
  change (spend (o :: os) V) with (spend os (delete o V)). rewrite (IH es'); [|clear IH|done].
  - rewrite (coins_delete V o e He). cbn [fmap list_fmap zsum foldr]. unfold zsum. cbn. lia.
  - apply Forall2_same_length_lookup_2; [by eapply Forall2_length|]. intros j x y Hx Hy.
    rewrite lookup_delete_ne; [exact (Forall2_lookup_lr _ _ _ _ _ _ Hf Hx Hy)|]. intros ->. apply Hn. by eapply list_elem_of_lookup_2.
Qed.

Lemma coins_create outs V : NoDup outs.*1 → Forall (λ p : TransactionOutpoint * UtxoEntry, V !! p.1 = None) outs →
  coins (create outs V) = coins V + zsum (ue_amount <$> outs.*2).
Proof using.
  clear. revert V. induction outs as [|[o e] outs IH]; intros V Hnd Hf; [cbn; lia|].
  apply NoDup_cons in Hnd as [Hn Hnd]. apply Forall_cons in Hf as [He Hf]. cbn [fst] in *.
  change (create ((o, e) :: outs) V) with (create outs (<[o := e]> V)). rewrite IH; [|done|].
  - rewrite coins_insert by done. cbn. unfold zsum. cbn. lia.
  - rewrite Forall_forall in Hf |- *. intros [o' e'] Hin. cbn. rewrite lookup_insert_ne; [exact (Hf _ Hin)|].
    intros ->. apply Hn, list_elem_of_fmap. by exists (o', e').
Qed.

Definition fee_of (t : Transaction) (entries : list UtxoEntry) : Z :=
  zsum (ue_amount <$> entries) - zsum (out_value <$> tx_outputs t).

Lemma created_amounts t entries fee daa :
  ue_amount <$> (created_utxos (mkValidated t entries fee) daa).*2 = out_value <$> tx_outputs t.
Proof using.
  apply list_eq. intros i. unfold created_utxos. rewrite !list_lookup_fmap, list_lookup_imap.
  cbn [vt_outputs vt_tx validated_verifiable vtx_tx]. unfold vt_outputs. cbn. by destruct (tx_outputs t !! i).
Qed.

Lemma coins_execute t entries fee daa V : populates V t entries → executable (mkValidated t entries fee) daa V →
  coins (execute (mkValidated t entries fee) daa V) = coins V - fee_of t entries.
Proof using.
  intros Hp [_ Hnd Hc Hf]. unfold execute. rewrite coins_create; [|by apply created_distinct|done].
  rewrite created_amounts, (coins_spend _ entries); [unfold fee_of; lia| |done].
  unfold spent_outpoints. by apply Forall2_fmap_l.
Qed.

(** ** The transactions of a block *)

Lemma spend_rules_iff t entries pov : spend_rules tv t entries pov ↔
  (Forall (mature tv pov) entries ∧ zsum (ue_amount <$> entries) ≤ MAX_SOMPI
   ∧ zsum (out_value <$> tx_outputs t) ≤ zsum (ue_amount <$> entries)) ∧ Forall (unlocked pov) (zip (tx_inputs t) entries).
Proof using. split; [intros []; tauto|]. intros ((?&?&?)&?). by split. Qed.
#[local] Instance mature_dec pov e : Decision (mature tv pov e).
Proof. unfold mature. apply _. Defined.
#[local] Instance unlocked_dec pov p : Decision (unlocked pov p).
Proof. unfold unlocked. apply _. Defined.
#[local] Instance spend_rules_dec t entries pov : Decision (spend_rules tv t entries pov).
Proof. refine (decide_iff (iff_sym (spend_rules_iff t entries pov))). Defined.

Definition populate (U : UtxoCollection) (t : Transaction) : option (list UtxoEntry) :=
  mapM (λ i, U !! in_previous_outpoint i) (tx_inputs t).
Lemma populate_ok U t entries : populate U t = Some entries ↔ populates U t entries.
Proof using. apply mapM_Some. Qed.

(** A transaction with its entries and its fee, when it is valid on [U]. *)
Definition accept (U : UtxoCollection) (pov : Z) (t : Transaction) : option ValidatedTransaction :=
  entries ← populate U t;
  if decide (spend_rules tv t entries pov) then Some (mkValidated t entries (fee_of t entries)) else None.
Definition accepted (U : UtxoCollection) (pov : Z) (txs : list Transaction) : list ValidatedTransaction := omap (accept U pov) txs.

Lemma accept_Some U pov t v : accept U pov t = Some v ↔
  vtx_tx v = t ∧ populates U t (vtx_entries v) ∧ spend_rules tv t (vtx_entries v) pov ∧ vtx_calculated_fee v = fee_of t (vtx_entries v).
Proof using.
  unfold accept. destruct (populate U t) as [entries|] eqn:Hp; cbn [mbind option_bind].
  - apply populate_ok in Hp as Hp'. destruct (decide _) as [Hr|Hr].
    + split; [intros [= <-]; done|]. destruct v as [t' es fee]. cbn. intros (-> & Hq & _ & ->).
      apply populate_ok in Hq. by simplify_eq.
    + split; [done|]. intros (_ & Hq%populate_ok & Hr' & _). by simplify_eq.
  - split; [done|]. intros (_ & Hq%populate_ok & _). by simplify_eq.
Qed.
Lemma accept_None U pov t : accept U pov t = None ↔ ∀ entries, populates U t entries → ¬ spend_rules tv t entries pov.
Proof using.
  split.
  - intros Hn entries Hp Hr. assert (accept U pov t = Some (mkValidated t entries (fee_of t entries))) by (by apply accept_Some). congruence.
  - intros Hall. destruct (accept U pov t) as [v|] eqn:Hv; [|done]. apply accept_Some in Hv as (_ & Hp & Hr & _). by destruct (Hall _ Hp).
Qed.

Definition execute_all (daa : Z) (l : list ValidatedTransaction) (U : UtxoCollection) : UtxoCollection :=
  foldl (λ U v, execute v daa U) U l.
Fixpoint executable_all (daa : Z) (l : list ValidatedTransaction) (U : UtxoCollection) : Prop :=
  match l with
  | [] => True
  | v :: l' => executable v daa U ∧ executable_all daa l' (execute v daa U)
  end.

Lemma execute_all_app daa l l' U : execute_all daa (l ++ l') U = execute_all daa l' (execute_all daa l U).
Proof using. apply foldl_app. Qed.
Lemma executable_all_app daa l l' U :
  executable_all daa (l ++ l') U ↔ executable_all daa l U ∧ executable_all daa l' (execute_all daa l U).
Proof using. revert U. induction l as [|v l IH]; intros U; cbn; [tauto|]. rewrite IH. tauto. Qed.

Definition ids_of (l : list ValidatedTransaction) : gset Hash := list_to_set (vt_id <$> l).
Lemma ids_of_app l l' : ids_of (l ++ l') = ids_of l ∪ ids_of l'.
Proof using. unfold ids_of. by rewrite fmap_app, list_to_set_app_L. Qed.

Definition fees (l : list ValidatedTransaction) : Z := zsum (vtx_calculated_fee <$> l).
Definition spends_of (l : list ValidatedTransaction) : list TransactionOutpoint := in_previous_outpoint <$> ((vtx_tx <$> l) ≫= tx_inputs).

(** A list of transactions that can run in this order, on the ledger [U], [A]. *)
Record run_ok (daa : Z) (U : UtxoCollection) (A : gset Hash) (l : list ValidatedTransaction) : Prop := {
  ro_executable : executable_all daa l U;
  ro_ledger : ledger (execute_all daa l U) (ids_of l ∪ A);
  ro_fees : 0 ≤ fees l;
  ro_coins : coins (execute_all daa l U) = coins U - fees l;
  ro_fresh : Forall (λ v, vt_id v ∉ A) l;
  ro_once : NoDup (vt_id <$> l);
}.

Lemma run_ok_nil daa U A : ledger U A → run_ok daa U A [].
Proof using. intros HL. split; [done|unfold ids_of; cbn; by rewrite union_empty_l_L|done|cbn; lia|constructor|constructor]. Qed.

Lemma run_ok_app daa U A l l' : run_ok daa U A l → run_ok daa (execute_all daa l U) (ids_of l ∪ A) l' → run_ok daa U A (l ++ l').
Proof using.
  intros [E1 L1 F1 C1 N1 D1] [E2 L2 F2 C2 N2 D2]. unfold fees in *. split.
  - by apply executable_all_app.
  - rewrite execute_all_app, ids_of_app. by replace (ids_of l ∪ ids_of l' ∪ A) with (ids_of l' ∪ (ids_of l ∪ A)) by set_solver.
  - unfold fees. rewrite fmap_app, zsum_app. lia.
  - unfold fees. rewrite execute_all_app, fmap_app, zsum_app, C2, C1. lia.
  - apply Forall_app. split; [done|]. eapply Forall_impl; [exact N2|]. set_solver.
  - rewrite fmap_app. apply NoDup_app. split_and!; [done| |done]. intros h Hh (v & -> & Hv)%list_elem_of_fmap.
    rewrite Forall_forall in N2. apply (N2 v Hv), elem_of_union_l, elem_of_list_to_set, Hh.
Qed.

Section block.
Context (HB : bodies_ok) (daa : Z) (Hdaa : 0 ≤ daa < 2 ^ 62).

(** Executing one transaction keeps the inputs of the others. *)
Lemma execute_keeps U A t entries fee o e : ledger U A → stored t → populates U t entries → tx_id t ∉ A →
  U !! o = Some e → o ∉ in_previous_outpoint <$> tx_inputs t → execute (mkValidated t entries fee) daa U !! o = Some e.
Proof using HB.
  intros HL Ht Hp HA Ho Hn. rewrite (lookup_execute HB) by done.
  destruct (list_to_map _ !! o) as [e'|] eqn:Hm.
  - apply elem_of_list_to_map_2 in Hm. destruct (created_id daa t entries fee Ht o e' Hm) as [Hid _].
    destruct (le_source _ _ HL o e Ho). congruence.
  - by rewrite decide_False.
Qed.

(** A sound transaction other than a coinbase has an input. *)
Lemma spender_input t : stored t → is_coinbase t = false → ∃ i, i ∈ tx_inputs t.
Proof using HB.
  intros Ht Hc. pose proof (ts_inputs _ (bo_txs HB t Ht)) as Hi. rewrite Hc in Hi.
  pose proof (iso_has_inputs _ _ Hi Hc) as Hne. destruct (tx_inputs t) as [|i l]; [done|]. exists i. left.
Qed.

Record acceptable (U : UtxoCollection) (v : ValidatedTransaction) : Prop := {
  ab_stored : stored (vtx_tx v);
  ab_spends : is_coinbase (vtx_tx v) = false;
  ab_populates : populates U (vtx_tx v) (vtx_entries v);
  ab_fee : vtx_calculated_fee v = fee_of (vtx_tx v) (vtx_entries v);
  ab_balance : 0 ≤ vtx_calculated_fee v;
}.

Lemma one_runs U A t entries fee : ledger U A → stored t → populates U t entries → tx_id t ∉ A →
  fee = fee_of t entries → 0 ≤ fee → run_ok daa U A [mkValidated t entries fee].
Proof using HB Hdaa.
  intros HL Ht Hp HA -> Hfee. pose proof (fresh_executable HB U A HL daa t entries (fee_of t entries) Ht Hp HA) as He. split.
  - by split.
  - unfold ids_of. cbn [fmap list_fmap list_to_set]. rewrite union_empty_r_L. by apply execute_ledger.
  - unfold fees. cbn. lia.
  - unfold fees. cbn [fmap list_fmap execute_all foldl]. rewrite coins_execute by done. cbn. lia.
  - by repeat constructor.
  - by apply NoDup_singleton.
Qed.

Lemma block_runs l U A : ledger U A → Forall (acceptable U) l → NoDup (spends_of l) → run_ok daa U A l.
Proof using HB Hdaa.
  revert U A. induction l as [|[t entries fee] l IH]; intros U A HL Hall Hnd; [by apply run_ok_nil|].
  apply Forall_cons in Hall as [[Ht Hc Hp Hfee Hbal] Hall]. cbn [vtx_tx vtx_entries vtx_calculated_fee] in *.
  destruct (spender_input t Ht Hc) as [i Hi]. pose proof (input_fresh U A HL t entries Ht Hp i Hi) as HA.
  unfold spends_of in Hnd. cbn [fmap list_fmap] in Hnd. rewrite bind_cons, fmap_app in Hnd. cbn [vtx_tx] in Hnd.
  apply NoDup_app in Hnd as (_ & Hdis & Hnd).
  pose proof (one_runs U A t entries fee HL Ht Hp HA Hfee Hbal) as Hone.
  apply (run_ok_app daa U A [mkValidated t entries fee] l); [done|]. apply IH; [apply Hone| |done].
  rewrite Forall_forall in Hall |- *. intros v' Hv'. destruct (Hall v' Hv') as [Ht' Hc' Hp' Hf' Hb'].
  split; [done..| |done|done]. apply Forall2_same_length_lookup_2; [by eapply Forall2_length|].
  intros j i' e' Hi' He'. assert (U !! in_previous_outpoint i' = Some e') as Hlk by (exact (Forall2_lookup_lr _ _ _ _ _ _ Hp' Hi' He')).
  eapply execute_keeps; [done..|]. intros Hin. apply (Hdis _ Hin). apply list_elem_of_fmap. exists i'. split; [done|].
  apply list_elem_of_bind. exists (vtx_tx v'). split; [by eapply list_elem_of_lookup_2|]. apply list_elem_of_fmap. eauto.
Qed.

Lemma accepted_spends U pov txs : spends_of (accepted U pov txs) `sublist_of` in_previous_outpoint <$> (txs ≫= tx_inputs).
Proof using.
  clear. unfold accepted, spends_of. induction txs as [|t txs IH]; [apply sublist_nil_l|]. cbn [omap list_omap].
  destruct (accept U pov t) as [v|] eqn:Hv; rewrite bind_cons, fmap_app; [|by apply sublist_inserts_l].
  apply accept_Some in Hv as [Hv _]. cbn [fmap list_fmap]. rewrite bind_cons, fmap_app, Hv. by apply sublist_app.
Qed.

Lemma accepted_runs U A b txs : ledger U A → BT !! b = Some txs → run_ok daa U A (accepted U daa (drop 1 txs)).
Proof using HB Hdaa.
  intros HL Hb. destruct (bo_block HB b txs Hb) as (cb & rest & -> & _ & Hrest & Hnd). change (drop 1 (cb :: rest)) with rest.
  apply block_runs; [done| |eapply sublist_NoDup; [exact Hnd|apply accepted_spends]].
  apply Forall_forall. intros v (t & Htin & (<- & Hp & Hr & Hfee)%accept_Some)%list_elem_of_omap.
  rewrite Forall_forall in Hrest. split; [|by apply Hrest|done|done|rewrite Hfee; unfold fee_of; destruct Hr; lia].
  exists b, (cb :: rest). split; [done|by right].
Qed.

(** ** Merging blocks *)

(** The transactions that each block adds, in order. *)
Fixpoint acceptance (U : UtxoCollection) (blocks : list (Hash * list Transaction)) : list (Hash * list ValidatedTransaction) :=
  match blocks with
  | [] => []
  | (b, txs) :: rest =>
      let l := accepted U daa (drop 1 txs) in (b, l) :: acceptance (execute_all daa l U) rest
  end.
Definition accepted_by (U : UtxoCollection) (blocks : list (Hash * list Transaction)) : list ValidatedTransaction :=
  concat (acceptance U blocks).*2.

Lemma acceptance_runs U A blocks : ledger U A → Forall (λ p, BT !! p.1 = Some p.2) blocks → run_ok daa U A (accepted_by U blocks).
Proof using HB Hdaa.
  revert U A. induction blocks as [|[b txs] blocks IH]; intros U A HL Hall; [by apply run_ok_nil|].
  apply Forall_cons in Hall as [Hb Hall]. cbn [fst snd] in Hb. pose proof (accepted_runs U A b txs HL Hb) as Hrun.
  apply (run_ok_app daa U A (accepted U daa (drop 1 txs)) (accepted_by (execute_all daa (accepted U daa (drop 1 txs)) U) blocks)); [done|].
  apply IH; [apply Hrun|done].
Qed.

(** The coinbase of the selected parent comes first. *)
Definition transition (U : UtxoCollection) (cb : Transaction) (blocks : list (Hash * list Transaction)) : list ValidatedTransaction :=
  let v := mkValidated cb [] 0 in v :: accepted_by (execute v daa U) blocks.

Lemma coinbase_executes U A cb : ledger U A → stored cb → is_coinbase cb = true → tx_id cb ∉ A →
  executable (mkValidated cb [] 0) daa U ∧ ledger (execute (mkValidated cb [] 0) daa U) ({[tx_id cb]} ∪ A)
  ∧ coins (execute (mkValidated cb [] 0) daa U) = coins U + zsum (out_value <$> tx_outputs cb).
Proof using HB Hdaa.
  intros HL Hs Hc HA. pose proof (ts_inputs _ (bo_txs HB cb Hs)) as Hi. rewrite Hc in Hi.
  assert (populates U cb []) as Hp by (unfold populates; by rewrite Hi).
  pose proof (fresh_executable HB U A HL daa cb [] 0 Hs Hp HA) as He. split_and!; [done|by apply execute_ledger|].
  rewrite coins_execute by done. unfold fee_of. cbn. lia.
Qed.
End block.
End bodies.
