(* ===== verification/VirtualCalc.v ===== *)
(** * The UTXO state of a block: proof

    [calculate_utxo_state] on a view of the UTXO set of the selected parent computes the
    transition of [VirtualUtxo]: the same accepted transactions, a difference that leads
    to the new set, a multiset hash of it, the sorted ids and the rewards of the merged
    blocks; it panics only on an accepted transaction that is not signed. *)

From S2P Require Import Prelude Hash Uint Interval ReachStore Headers GhostdagStore Ghostdag DifficultyProof Stores Errors HeaderProcessor Tx Utxo UtxoProof Hashing Merkle Database TxValidator TxValidatorProof Coinbase CoinbaseProof BodyProcessor U3072 MuHash VirtualStores VirtualProcessor VirtualUtxo.

(** ** Loops with an accumulator *)

Lemma runs_for_fold {S E X A} (I : list X → A → S → Prop) (l : list X) (f : A → X → M S E A) a s Q :
  (∀ x l' a s, I (x :: l') a s → runs (f a x) s (λ a' s', I l' a' s')) → (∀ a s, I [] a s → Q a s) →
  I l a s → runs (for_fold l f a) s Q.
Proof.
  intros Hf HQ. revert a s. induction l as [|x l IH]; intros a s HI; cbn [for_fold]; [apply runs_ret, HQ, HI|].
  apply runs_bind. eapply runs_mono; [by apply Hf|]. eauto.
Qed.

(** ** Programs that may panic

    [runs_unless bad m s Q]: [m] returns with [Q], or panics, and then [bad] holds. *)
Definition runs_unless {S E A} (bad : Prop) (m : M S E A) (s : S) (Q : A → S → Prop) : Prop :=
  match m s with (Ok a, s') => Q a s' | (Panic, _) => bad | _ => False end.

Section unless.
Context {S E : Type} (bad : Prop).

Lemma unless_runs {A} (m : M S E A) s Q : runs m s Q → runs_unless bad m s Q.
Proof. unfold runs, runs_unless. by destruct (m s) as [[] ?]. Qed.
Lemma unless_ret {A} (a : A) s (Q : A → S → Prop) : Q a s → runs_unless (E:=E) bad (mret a) s Q.
Proof. done. Qed.
Lemma unless_bind {A B} (m : M S E A) (k : A → M S E B) s Q :
  runs_unless bad m s (λ a s', runs_unless bad (k a) s' Q) → runs_unless bad (m ≫= k) s Q.
Proof. unfold runs_unless, mbind, M_bind. by destruct (m s) as [[] ?]. Qed.
Lemma unless_mono {A} (bad' : Prop) (m : M S E A) s (P Q : A → S → Prop) :
  runs_unless bad' m s P → (bad' → bad) → (∀ a s', P a s' → Q a s') → runs_unless bad m s Q.
Proof. unfold runs_unless. destruct (m s) as [[] ?]; eauto. Qed.
Lemma unless_lift {A} (o : outcome E A) a s (Q : A → S → Prop) : o = Ok a → Q a s → runs_unless bad (lift o) s Q.
Proof. by intros ->. Qed.
Lemma unless_get s (Q : S → S → Prop) : Q s s → runs_unless (E:=E) bad get s Q.
Proof. done. Qed.
Lemma unless_intro {A} (m : M S E A) s a s' (Q : A → S → Prop) : m s = (Ok a, s') → Q a s' → runs_unless bad m s Q.
Proof. unfold runs_unless. by intros ->. Qed.
Lemma unless_bind_inv {A B} (m : M S E A) (k : A → M S E B) s Q :
  runs_unless bad (m ≫= k) s Q → runs_unless bad m s (λ a s', runs_unless bad (k a) s' Q).
Proof. unfold runs_unless, mbind, M_bind. by destruct (m s) as [[] ?]. Qed.
Lemma unless_for_fold {X A} (I : list X → A → S → Prop) (l : list X) (f : A → X → M S E A) a s Q :
  (∀ x l' a s, I (x :: l') a s → runs_unless bad (f a x) s (λ a' s', I l' a' s')) → (∀ a s, I [] a s → Q a s) →
  I l a s → runs_unless bad (for_fold l f a) s Q.
Proof.
  intros Hf HQ. revert a s. induction l as [|x l IH]; intros a s HI; cbn [for_fold]; [apply unless_ret, HQ, HI|].
  apply unless_bind. eapply unless_mono; [by apply Hf|done|]. eauto.
Qed.
End unless.

Lemma runs_bind_inv {S E A B} (m : M S E A) (k : A → M S E B) s Q :
  runs (m ≫= k) s Q → runs m s (λ a s', runs (k a) s' Q).
Proof. unfold runs, mbind, M_bind. by destruct (m s) as [[] ?]. Qed.

Section calc.
Context `{X : Externals} {IL : IterationLaws} {ML : MuHashLaws ext_inverse} {E : Type}.
Context (self : BlockBodyProcessor).
Local Abbreviation params := (hp_params (bp_stores self)).
Local Abbreviation tv := (transaction_validator_of params).
Local Abbreviation cm := (coinbase_manager_of params).
Local Abbreviation BT := (bt_access (bp_block_transactions_store self)).

(** The transaction is signed by the owners of the outputs that it spends: the scripts of
    outputs are not interpreted, and an invalid signature is unwrapped, which panics. *)
Definition signed_tx (v : ValidatedTransaction) : Prop :=
  ∀ j p, zip (tx_inputs (vtx_tx v)) (vtx_entries v) !! j = Some p →
    signature_ok ext_pub_key_valid ext_signature_valid ext_verify (mkPopulated (vtx_tx v) (vtx_entries v)) j p.

Lemma coinbase_signed t fee : signed_tx (mkValidated t [] fee).
Proof. intros j p. cbn. by rewrite zip_with_nil_r, lookup_nil. Qed.

Record calc_env : Prop := {
  ce_bodies : bodies_ok tv BT;
  ce_maturity : 0 ≤ p_coinbase_maturity params < 2 ^ 62;
  ce_payload b txs : BT !! b = Some txs → ∃ cb data, txs !! 0%nat = Some cb
    ∧ deserialize_coinbase_payload cm (tx_payload cb) = Ok data ∧ payload_fits cm data;
  ce_length b txs : BT !! b = Some txs → zlen txs ≤ u64_max;
}.
Context (HE : calc_env).

(** ** Transactions *)

Lemma value_bounds outs out : values_ok outs → out ∈ outs → 0 < out_value out ≤ MAX_SOMPI.
Proof using.
  clear. intros [Hv Hs] Hin. apply list_elem_of_split in Hin as (l1 & l2 & ->).
  rewrite fmap_app, fmap_cons, zsum_app, zsum_cons in Hs. apply Forall_app in Hv as [H1 [H2 H3]%Forall_cons].
  pose proof (values_sum_nonneg l1 H1). pose proof (values_sum_nonneg l2 H3). lia.
Qed.

Lemma source_amount o e : source BT o e → 0 < ue_amount e ≤ MAX_SOMPI.
Proof using HE.
  intros (t & i & out & Ht & Hout & Heq). unfold output_utxo in Heq. injection Heq as _ Heq. rewrite Heq. cbn.
  eapply value_bounds; [apply (ts_values _ _ (bo_txs _ _ (ce_bodies HE) t Ht))|by eapply list_elem_of_lookup_2].
Qed.

Lemma populate_run {V} `{UtxoView V} (v : V) U (inputs : list TransactionInput) : shows v U →
  omap_each (populate_input v) inputs =
  match mapM (λ i, U !! in_previous_outpoint i) inputs with Some entries => Ok entries | None => Err MissingTxOutpoints end.
Proof using.
  clear. intros Hv. induction inputs as [|i inputs IH]; [done|]. cbn [omap_each mapM].
  assert (populate_input v i = match U !! in_previous_outpoint i with Some e => Ok e | None => Err MissingTxOutpoints end) as ->
    by (unfold populate_input; by rewrite Hv).
  destruct (U !! in_previous_outpoint i) as [e|]; cbn [mbind outcome_bind option_bind]; [|done]. rewrite IH.
  by destruct (mapM _ inputs).
Qed.

Section on_ledger.
Context (U : UtxoCollection) (A : gset Hash) (HL : ledger BT U A) (pov : Z) (Hpov : 0 ≤ pov < 2 ^ 62).
Context {V : Type} `{UtxoView V} (view : V) (Hview : shows view U).

Lemma populated_bounds t entries : stored BT t → populates U t entries →
  spend_bounds tv t entries pov ∧ Forall2 (λ i e, source BT (in_previous_outpoint i) e) (tx_inputs t) entries.
Proof using HE HL Hpov.
  intros Ht Hp. assert (∀ e, e ∈ entries → ∃ i, U !! in_previous_outpoint i = Some e) as Hin.
  { intros e [j Hj]%list_elem_of_lookup. destruct (Forall2_lookup_r _ _ _ _ _ Hp Hj) as (i & _ & Hi). eauto. }
  assert (MAX_SOMPI ≤ u64_max) by by vm_compute. split; [split|].
  - apply Forall_forall. intros e (i & Hi)%Hin. pose proof (source_amount _ _ (proj2 (le_source _ _ _ HL _ _ Hi))). lia.
  - apply Forall_forall. intros e (i & Hi)%Hin. exact (le_scores _ _ _ HL _ _ Hi).
  - apply (ts_sequences _ _ (bo_txs _ _ (ce_bodies HE) t Ht)).
  - apply (ce_maturity HE).
  - lia.
  - eapply Forall2_impl; [exact Hp|]. intros i e Hi. apply (le_source _ _ _ HL _ _ Hi).
Qed.

Lemma validate_tx_run t cache : stored BT t → is_coinbase t = false → sig_cache_ok ext_verify cache →
  ∃ cache', sig_cache_ok ext_verify cache' ∧
    match accept tv U pov t with
    | Some v => (signed_tx v ∧ validate_transaction_in_utxo_context self t view pov cache = (Ok v, cache')
          ∧ 0 ≤ vtx_calculated_fee v ≤ MAX_SOMPI)
        ∨ (¬ signed_tx v ∧ fst (validate_transaction_in_utxo_context self t view pov cache) = Panic)
    | None => ∃ e, validate_transaction_in_utxo_context self t view pov cache = (Err e, cache')
    end.
Proof using HE HL Hpov Hview.
  intros Ht Hc Hcache. unfold validate_transaction_in_utxo_context. rewrite (populate_run view U _ Hview).
  fold (populate U t). destruct (populate U t) as [entries|] eqn:Hp; cbn [mbind outcome_bind].
  2:{ exists cache. split; [done|]. unfold accept. rewrite Hp. cbn. eauto. }
  apply populate_ok in Hp as Hpop. destruct (populated_bounds t entries Ht Hpop) as [Hb Hsrc].
  unfold populated_new. rewrite bool_decide_eq_true_2 by (by eapply Forall2_length). cbn [assert mbind outcome_bind mret outcome_ret].
  pose proof (ts_inputs _ _ (bo_txs _ _ (ce_bodies HE) t Ht)) as Hiso. rewrite Hc in Hiso.
  assert (populated_with (mkPopulated t entries) entries) as Hw.
  { split; [symmetry; by eapply Forall2_length|]. intros ?. apply index_pair_ok. symmetry. by eapply Forall2_length. }
  pose proof (populated_result ext_draw ext_pub_key_valid ext_signature_valid ext_verify tv (mkPopulated t entries) entries pov cache
    Hw Hiso Hb Hcache) as Hr. cbn beta zeta in Hr. cbn [vt_tx populated_verifiable pt_tx] in Hr.
  destruct (validate_populated_transaction_and_get_fee _ _ _ _ _ _ _ _) as [[fee c']|e| |]; cbn [mbind outcome_bind mret outcome_ret].
  - destruct Hr as (Hrules & Hsig & Hc' & Hfee & Hbnd). exists c'. split; [done|]. unfold accept. rewrite Hp. cbn [mbind option_bind].
    destruct (decide _) as [_|]; [|done]. left. cbn [vtx_calculated_fee]. unfold fee_of. rewrite <- Hfee. split; [exact Hsig|].
    split; [|done]. unfold validated_new. done.
  - exists cache. split; [done|]. unfold accept. rewrite Hp. cbn [mbind option_bind]. destruct (decide _) as [|_]; [done|eauto].
  - destruct Hr as [Hrules Hn]. exists cache. split; [done|]. unfold accept. rewrite Hp. cbn [mbind option_bind].
    destruct (decide _) as [_|]; [|done]. right. split; [exact Hn|done].
  - done.
Qed.

Lemma validate_each_run txs cache : Forall (λ t, stored BT t ∧ is_coinbase t = false) txs → sig_cache_ok ext_verify cache →
  runs_unless (¬ Forall signed_tx (accepted tv U pov txs)) (validate_each (E:=E) self txs view pov) cache
    (λ l cache', l = accepted tv U pov txs ∧ Forall signed_tx l ∧ sig_cache_ok ext_verify cache'
      ∧ Forall (λ v, 0 ≤ vtx_calculated_fee v ≤ MAX_SOMPI) l).
Proof using HE HL Hpov Hview.
  revert cache. induction txs as [|t txs IH]; intros cache Hall Hcache; cbn [validate_each]; [by apply unless_ret|].
  apply Forall_cons in Hall as [[Ht Hc] Hall]. destruct (validate_tx_run t cache Ht Hc Hcache) as (cache' & Hc' & Hrun).
  unfold accepted. cbn [omap list_omap]. unfold runs_unless. destruct (accept tv U pov t) as [v|].
  - destruct Hrun as [(Hsig & -> & Hfee)|[Hno Hp]].
    2:{ destruct (validate_transaction_in_utxo_context _ _ _ _ _) as [o ?]. cbn [fst] in Hp. subst o. by intros [? _]%Forall_cons. }
    change (runs_unless (¬ Forall signed_tx (v :: accepted tv U pov txs)) (l ← validate_each (E:=E) self txs view pov; mret (v :: l)) cache'
      (λ l cache'', l = v :: accepted tv U pov txs ∧ Forall signed_tx l ∧ sig_cache_ok ext_verify cache'' ∧ Forall (λ v, 0 ≤ vtx_calculated_fee v ≤ MAX_SOMPI) l)).
    apply unless_bind. eapply unless_mono; [by apply IH|intros Hn [_ ?]%Forall_cons; by apply Hn|].
    intros l c'' (-> & Hs & Hc'' & Hfees). apply unless_ret. split_and!; [done|by constructor|done|by constructor].
  - destruct Hrun as [e ->]. by apply IH.
Qed.
End on_ledger.

(** ** The context *)

(** [st] records the change of [U0] into [W]. *)
Record ctx_ok (U0 W : UtxoCollection) (ids : list Hash) (gd : GhostdagData) (rewards : gmap Hash BlockRewardData)
    (st : UtxoProcessingContext * SigCache) : Prop := {
  co_applies : applies (uc_mergeset_diff st.1) U0;
  co_apply : apply (uc_mergeset_diff st.1) U0 = W;
  co_normal : normal (uc_mergeset_diff st.1);
  co_commits : commits (uc_multiset_hash st.1) W;
  co_ids : uc_accepted_tx_ids st.1 = ids;
  co_gd : uc_ghostdag_data st.1 = gd;
  co_rewards : uc_mergeset_rewards st.1 = rewards;
  co_cache : sig_cache_ok ext_verify st.2;
}.

Lemma empty_diff_ok U : applies (∅ : UtxoDiff) U ∧ apply (∅ : UtxoDiff) U = U ∧ normal (∅ : UtxoDiff).
Proof using.
  rewrite applies_pointwise, normal_pointwise. split_and!.
  - intros o. cbn. rewrite !lookup_empty. by left.
  - apply map_eq. intros o. rewrite lookup_apply. cbn. by rewrite !lookup_empty.
  - intros o. cbn. by rewrite !lookup_empty.
Qed.

Lemma ctx_new_ok U gd ms cache : commits ms U → sig_cache_ok ext_verify cache →
  ctx_ok U U [] gd ∅ (utxo_context_new gd ms, cache).
Proof using. intros Hm Hc. destruct (empty_diff_ok U) as (? & ? & ?). by split. Qed.

Lemma runs_field {E' S A} (view : UtxoProcessingContext → S) update (m : M S E' A) c cache Q :
  runs m (view c) (λ a x, Q a (update x c, cache)) → runs (E:=E) (on_utxo_field view update m) (c, cache) Q.
Proof using. unfold runs, on_utxo_field. by destruct (m (view c)) as [[] ?]. Qed.

Lemma created_op_id `{VerifiableTransaction T} (t : T) daa p : p ∈ created_utxos t daa → op_transaction_id p.1 = vt_id t.
Proof using. unfold created_utxos. intros (i & out & -> & _)%elem_of_lookup_imap. done. Qed.

Section accept.
Context (U0 : UtxoCollection) (A0 : gset Hash) (HL0 : ledger BT U0 A0) (pov : Z) (gd : GhostdagData).

Lemma accept_run W ids rewards v st : ctx_ok U0 W ids gd rewards st → executable v pov W → vt_id v ∉ A0 →
  runs (accept_transaction (E:=E) v pov) st (λ _ st', ctx_ok U0 (execute v pov W) (ids ++ [vt_id v]) gd rewards st').
Proof using HL0 IL ML.
  intros Hctx Hex Hn. destruct st as [c cache]. unfold accept_transaction. apply runs_bind.
  apply runs_field. pose proof (co_applies _ _ _ _ _ _ Hctx) as Ha. pose proof (co_apply _ _ _ _ _ _ Hctx) as Hw. cbn [fst snd] in *.
  eapply runs_mono.
  { apply (add_transaction_ok v pov U0 (uc_mergeset_diff c)); [done|by rewrite Hw|]. apply Forall_forall. intros p Hp.
    apply created_op_id in Hp as Hid. destruct (U0 !! p.1) as [e|] eqn:He; [|done].
    destruct (le_source _ _ _ HL0 _ _ He) as [HA _]. rewrite Hid in HA. by destruct Hn. }
  intros [] d' (Ha' & Hw' & Hn'). cbn beta. apply runs_bind, runs_field. cbn [uc_multiset_hash set_mergeset_diff].
  eapply runs_mono; [apply (add_transaction_commits v pov _ W); [apply Hctx|done]|].
  intros [] m' Hm'. cbn beta. destruct Hctx as [_ _ F3 F4 F5 F6 F7 F8]. cbn [fst snd] in *.
  rewrite Hw in Hw'.
  split; cbn; [done|exact Hw'|by apply Hn'|done|by rewrite F5|done..].
Qed.

Lemma accept_all_run l W ids rewards st fee : ctx_ok U0 W ids gd rewards st → executable_all pov l W →
  Forall (λ v, vt_id v ∉ A0) l → Forall (λ v, 0 ≤ vtx_calculated_fee v) l → 0 ≤ fee → fee + fees l ≤ u64_max →
  runs (E:=E) (for_fold l (λ block_fee validated_tx,
      accept_transaction validated_tx pov;; lift (add64 block_fee (vtx_calculated_fee validated_tx))) fee) st
    (λ fee' st', fee' = fee + fees l ∧ ctx_ok U0 (execute_all pov l W) (ids ++ (vt_id <$> l)) gd rewards st').
Proof using HL0 IL ML.
  revert W ids st fee. induction l as [|v l IH]; intros W ids st fee Hctx Hex Hfr Hpos Hf Hbnd; cbn [for_fold].
  { apply runs_ret. rewrite app_nil_r. split; [cbn; lia|done]. }
  apply Forall_cons in Hfr as [Hv Hfr]. apply Forall_cons in Hpos as [Hvp Hpos]. destruct Hex as [Hex Hexs].
  assert (fees (v :: l) = vtx_calculated_fee v + fees l) as Hfees by done. rewrite Hfees in *.
  assert (0 ≤ fees l) by (apply zsum_nonneg, Forall_fmap; done).
  apply runs_bind, runs_bind. eapply runs_mono; [by apply (accept_run W ids rewards v)|]. intros [] st' Hctx'. cbn beta.
  eapply runs_lift; [apply add64_ok; lia|]. eapply runs_mono; [apply (IH _ _ _ _ Hctx' Hexs Hfr Hpos); lia|].
  intros fee' st'' [-> Hc]. split; [lia|]. rewrite <- app_assoc in Hc. exact Hc.
Qed.
End accept.

(** ** Rewards *)

Definition body_data (txs : list Transaction) : option CoinbaseData :=
  cb ← txs !! 0%nat;
  match deserialize_coinbase_payload cm (tx_payload cb) with Ok data => Some data | _ => None end.
Definition reward_for (txs : list Transaction) (l : list ValidatedTransaction) : option BlockRewardData :=
  data ← body_data txs;
  Some (mkReward (cd_subsidy data) (fees l) (md_script_public_key (cd_miner_data data))).

Definition add_reward (rewards : gmap Hash BlockRewardData) (p : Hash * list ValidatedTransaction) : gmap Hash BlockRewardData :=
  match txs ← BT !! p.1; reward_for txs p.2 with Some r => <[p.1 := r]> rewards | None => rewards end.
Definition rewards_from (acc : list (Hash * list ValidatedTransaction)) : gmap Hash BlockRewardData := foldl add_reward ∅ acc.

Section merging.
Context (U0 : UtxoCollection) (A0 : gset Hash) (HL0 : ledger BT U0 A0) (pov : Z) (Hpov : 0 ≤ pov < 2 ^ 62) (gd : GhostdagData).
Context {V : Type} `{UtxoView V} (view : V) (Hview : shows view U0).

Lemma ledger_coins W A : ledger BT W A → 0 ≤ coins W.
Proof using HE.
  intros HL. apply coins_nonneg. intros o e Ho. pose proof (source_amount _ _ (proj2 (le_source _ _ _ HL _ _ Ho))). lia.
Qed.

Lemma merge_block_run b txs W A ids rewards st : BT !! b = Some txs → ledger BT W A → A0 ⊆ A → coins W ≤ u64_max →
  ctx_ok U0 W ids gd rewards st →
  let l := accepted tv W pov (drop 1 txs) in
  runs_unless (¬ Forall signed_tx l) (merge_block (E:=E) self view pov b txs) st (λ _ st', Forall signed_tx l ∧
    ctx_ok U0 (execute_all pov l W) (ids ++ (vt_id <$> l)) gd (add_reward rewards (b, l)) st').
Proof using HE HL0 Hpov Hview IL ML.
  intros Hb HL HA Hcoins Hctx. cbn beta zeta. destruct st as [c cache].
  pose proof (accepted_runs tv BT (ce_bodies HE) pov Hpov W A b txs HL Hb) as [Rex Rled Rfee Rcoins Rfresh _].
  destruct (bo_block _ _ (ce_bodies HE) b txs Hb) as (cb & rest & Htxs & _ & Hrest & _).
  unfold merge_block. apply unless_bind. change (runs_unless (E:=E) ?bad get_ctx (c, cache) ?Q) with (Q c (c, cache)). cbn beta.
  apply unless_bind. unfold with_cache at 1, runs_unless at 1.
  assert (shows (compose view (uc_mergeset_diff c)) W) as Hshow.
  { pose proof (co_apply _ _ _ _ _ _ Hctx) as Hw. cbn [fst] in Hw. rewrite <- Hw. by apply composed_shows. }
  assert (Forall (λ t, stored BT t ∧ is_coinbase t = false) (drop 1 txs)) as Hall.
  { rewrite Htxs. change (drop 1 (cb :: rest)) with rest. rewrite Forall_forall in Hrest |- *. intros t Ht. split; [|by apply Hrest].
    exists b, txs. split; [done|]. rewrite Htxs. by right. }
  pose proof (validate_each_run W A HL pov Hpov (compose view (uc_mergeset_diff c)) Hshow (drop 1 txs) cache Hall
    (co_cache _ _ _ _ _ _ Hctx)) as Hval. unfold runs_unless in Hval. unfold validate_transactions_in_parallel. cbn [fst snd].
  destruct (validate_each _ _ _ _ cache) as [[l|?| |] cache']; [|done|exact Hval|done]. destruct Hval as (-> & Hsig & Hcache' & Hpos).
  apply unless_bind. pose proof (ledger_coins _ _ Rled).
  eapply unless_mono; [apply (unless_runs False)| |].
  { apply (accept_all_run U0 A0 HL0 pov gd _ W ids rewards (c, cache') 0); [|done| | |lia|lia].
    - destruct Hctx. by split.
    - eapply Forall_impl; [exact Rfresh|]. set_solver.
    - eapply Forall_impl; [exact Hpos|]. cbn. lia. }
  { done. }
  intros fee st' [-> Hctx']. cbn beta. rewrite Z.add_0_l.
  destruct (ce_payload HE b txs Hb) as (cb' & data & Hcb' & Hdata & _).
  apply unless_bind. eapply unless_lift; [by rewrite Hcb'|]. apply unless_bind. eapply unless_lift; [by rewrite Hdata|].
  destruct st' as [c' cache'']. unfold runs_unless, modify_ctx. split; [exact Hsig|].
  unfold add_reward. cbn [fst snd]. rewrite Hb. cbn [mbind option_bind]. unfold reward_for, body_data. rewrite Hcb'. cbn [mbind option_bind].
  rewrite Hdata. cbn [mbind option_bind]. destruct Hctx' as [F1 F2 F3 F4 F5 F6 F7 F8]. cbn [fst snd] in *. by split; cbn; rewrite ?F7.
Qed.

Lemma merge_all_run blocks W A ids rewards st : Forall (λ p, BT !! p.1 = Some p.2) blocks → ledger BT W A → A0 ⊆ A → coins W ≤ u64_max →
  ctx_ok U0 W ids gd rewards st →
  runs_unless (E:=E) (¬ Forall signed_tx (accepted_by tv pov W blocks)) (for_each blocks (λ p, merge_block self view pov p.1 p.2)) st (λ _ st',
    Forall signed_tx (accepted_by tv pov W blocks) ∧ ctx_ok U0 (execute_all pov (accepted_by tv pov W blocks) W) (ids ++ (vt_id <$> accepted_by tv pov W blocks)) gd
      (foldl add_reward rewards (acceptance tv pov W blocks)) st').
Proof using HE HL0 Hpov Hview IL ML.
  revert W A ids rewards st. induction blocks as [|[b txs] blocks IH]; intros W A ids rewards st Hall HL HA Hc Hctx; cbn [for_each].
  { apply unless_ret. cbn. rewrite app_nil_r. by split. }
  apply Forall_cons in Hall as [Hb Hall]. cbn [fst snd] in *.
  unfold accepted_by. cbn [acceptance fmap list_fmap snd concat]. fold (accepted_by tv pov (execute_all pov (accepted tv W pov (drop 1 txs)) W) blocks).
  apply unless_bind. eapply unless_mono; [by apply (merge_block_run b txs W A ids rewards)|by intros Hn [? _]%Forall_app|].
  intros [] st' [Hs1 Hctx']. cbn beta zeta in Hctx'.
  pose proof (accepted_runs tv BT (ce_bodies HE) pov Hpov W A b txs HL Hb) as [Rex Rled Rfee Rcoins _ _].
  eapply unless_mono; [eapply (IH _ _ _ _ _ Hall Rled); [set_solver|lia|exact Hctx']|by intros Hn [_ ?]%Forall_app|].
  intros [] st'' [Hs2 Hctx'']. cbn beta in *. split; [by apply Forall_app|].
  cbn [foldl]. rewrite execute_all_app, fmap_app, app_assoc. exact Hctx''.
Qed.
End merging.

(** ** The whole state *)

Local Abbreviation GD := (gd_abs (hp_ghostdag_store (bp_stores self))).

(** The merged blocks in consensus order. *)
Record merge_order (gd : GhostdagData) (order : list Hash) : Prop := {
  mr_sorted : StronglySorted sb_lt (as_sortable GD <$> order);
  mr_perm : order ≡ₚ unordered_mergeset_without_selected_parent gd;
}.

Definition with_body (b : Hash) : Hash * list Transaction := (b, default [] (BT !! b)).
Definition merged_blocks (gd : GhostdagData) (order : list Hash) : list (Hash * list Transaction) :=
  with_body <$> selected_parent gd :: order.
Definition next_txs (pov : Z) (U : UtxoCollection) (gd : GhostdagData) (cb : Transaction) (order : list Hash) : list ValidatedTransaction :=
  transition tv pov U cb (merged_blocks gd order).
Definition next_rewards (pov : Z) (U : UtxoCollection) (gd : GhostdagData) (cb : Transaction) (order : list Hash) : gmap Hash BlockRewardData :=
  rewards_from (acceptance tv pov (execute (mkValidated cb [] 0) pov U) (merged_blocks gd order)).

Lemma merge_order_run gd : gd_ok (hp_ghostdag_store (bp_stores self)) → GhostdagStore.mergeset_ok GD gd →
  ∃ order, consensus_ordered_mergeset_without_selected_parent (E:=E) (hp_ghostdag_store (bp_stores self)) gd = Ok order
    ∧ merge_order gd order.
Proof using.
  intros Hs Hm. destruct (mergeset_orders (E:=E) (hp_ghostdag_store (bp_stores self)) Hs gd Hm) as (l & Hl & _ & Hsort & Hperm).
  unfold consensus_ordered_mergeset_without_selected_parent. rewrite Hl. cbn [mbind outcome_bind mret outcome_ret].
  exists (map sb_hash l). split; [done|]. assert (as_sortable GD <$> (sb_hash <$> l) = l) as Heq.
  { rewrite <- list_fmap_compose. rewrite <- (list_fmap_id l) at 2. apply list_fmap_ext. intros i x Hx.
    apply list_elem_of_lookup_2 in Hx. rewrite Hperm in Hx. by apply list_elem_of_fmap in Hx as (y & -> & _). }
  split; [by rewrite <- Heq in Hsort|]. change (map sb_hash l) with (sb_hash <$> l). rewrite Hperm, <- list_fmap_compose.
  change (sb_hash ∘ as_sortable GD <$> ?k) with ((λ h : Hash, h) <$> k). by rewrite list_fmap_id.
Qed.

Lemma body_lookup b : is_Some (BT !! b) → BT !! (with_body b).1 = Some (with_body b).2.
Proof using. intros [txs Htxs]. unfold with_body. cbn. by rewrite Htxs. Qed.

Record calc_ready (U : UtxoCollection) (A : gset Hash) (pov : Z) (gd : GhostdagData) (cb : Transaction) : Prop := {
  cr_ledger : ledger BT U A;
  cr_pov : 0 ≤ pov < 2 ^ 62;
  cr_store : gd_ok (hp_ghostdag_store (bp_stores self));
  cr_mergeset : GhostdagStore.mergeset_ok GD gd;
  cr_bodies : ∀ b, b ∈ selected_parent gd :: unordered_mergeset_without_selected_parent gd → is_Some (BT !! b);
  cr_coinbase : ∃ txs, BT !! selected_parent gd = Some txs ∧ txs !! 0%nat = Some cb;
  cr_fresh : tx_id cb ∉ A;
  cr_coins : coins U + zsum (out_value <$> tx_outputs cb) ≤ u64_max;
}.

Section ready.
Context (U : UtxoCollection) (A : gset Hash) (pov : Z) (gd : GhostdagData) (cb : Transaction) (HR : calc_ready U A pov gd cb).

Lemma ready_blocks order : merge_order gd order → Forall (λ p, BT !! p.1 = Some p.2) (merged_blocks gd order).
Proof using HR.
  intros Ho. apply Forall_fmap, Forall_forall. intros b Hb. apply body_lookup, (cr_bodies _ _ _ _ _ HR).
  apply elem_of_cons in Hb as [->|Hb]; [left|right]. by rewrite <- (mr_perm _ _ Ho).
Qed.

Lemma ready_coinbase : stored BT cb ∧ is_coinbase cb = true.
Proof using HE HR.
  destruct (cr_coinbase _ _ _ _ _ HR) as (txs & Htxs & Hcb). destruct (bo_block _ _ (ce_bodies HE) _ _ Htxs) as (cb' & rest & -> & Hc & _).
  cbn in Hcb. injection Hcb as ->. split; [|done]. exists (selected_parent gd), (cb :: rest). split; [done|left].
Qed.

(** The accepted transactions run in their order; only the coinbase creates coins. *)
Lemma next_runs order : merge_order gd order →
  let l := next_txs pov U gd cb order in
  executable_all pov l U ∧ ledger BT (execute_all pov l U) (ids_of l ∪ A) ∧ 0 ≤ fees l
  ∧ coins (execute_all pov l U) = coins U + zsum (out_value <$> tx_outputs cb) - fees l
  ∧ Forall (λ v, vt_id v ∉ A) l ∧ NoDup (vt_id <$> l).
Proof using HE HR IL ML.
  intros Ho. destruct ready_coinbase as [Hst Hc].
  destruct (coinbase_executes tv BT (ce_bodies HE) pov (cr_pov _ _ _ _ _ HR) U A cb (cr_ledger _ _ _ _ _ HR) Hst Hc (cr_fresh _ _ _ _ _ HR))
    as (Hex & Hled & Hcoins).
  pose proof (acceptance_runs tv BT (ce_bodies HE) pov (cr_pov _ _ _ _ _ HR) _ _ (merged_blocks gd order) Hled (ready_blocks order Ho))
    as [R1 R2 R3 R4 R5 R6]. unfold next_txs, transition. cbn zeta. set (l := accepted_by _ _ _ _) in *.
  assert (ids_of (mkValidated cb [] 0 :: l) = {[tx_id cb]} ∪ ids_of l) as Hids by done.
  assert (fees (mkValidated cb [] 0 :: l) = fees l) as Hf by done. rewrite Hf, Hids.
  change (execute_all pov (mkValidated cb [] 0 :: l) U) with (execute_all pov l (execute (mkValidated cb [] 0) pov U)). split_and!.
  - by split.
  - rewrite (comm_L (∪) {[tx_id cb]}), <- (assoc_L (∪)). exact R2.
  - done.
  - lia.
  - constructor; [apply HR|]. eapply Forall_impl; [exact R5|]. set_solver.
  - apply NoDup_cons. split; [|done]. intros (v & Hid & Hv)%list_elem_of_fmap. rewrite Forall_forall in R5. apply (R5 v Hv).
    change (tx_id cb = vt_id v) in Hid. set_solver.
Qed.

Lemma calculate_run {V} `{UtxoView V} (view : V) ms cache : shows view U → commits ms U → sig_cache_ok ext_verify cache →
  runs_unless (∃ order, merge_order gd order ∧ ¬ Forall signed_tx (next_txs pov U gd cb order))
    (calculate_utxo_state (E:=E) self view pov) (utxo_context_new gd ms, cache) (λ _ st', ∃ order, merge_order gd order
    ∧ Forall signed_tx (next_txs pov U gd cb order) ∧ ctx_ok U (execute_all pov (next_txs pov U gd cb order) U) (sort_hashes (vt_id <$> next_txs pov U gd cb order)) gd
        (next_rewards pov U gd cb order) st').
Proof using HE HR IL ML.
  intros Hview Hms Hcache. destruct HR as [HL Hpov Hs Hm Hbodies (txs & Htxs & Hcb) Hfresh Hcoins]. destruct ready_coinbase as [Hst Hc].
  destruct (coinbase_executes tv BT (ce_bodies HE) pov Hpov U A cb HL Hst Hc Hfresh) as (Hex & Hled & Hcoins').
  unfold calculate_utxo_state. apply unless_bind. change (runs_unless (E:=E) ?bad get_ctx ?s ?Q) with (Q s.1 s). cbn beta. cbn [fst].
  change (uc_selected_parent (utxo_context_new gd ms)) with (selected_parent gd). change (uc_ghostdag_data (utxo_context_new gd ms)) with gd.
  apply unless_bind. eapply unless_lift; [unfold get_transactions, read_access; by rewrite Htxs|]. apply unless_bind.
  eapply unless_lift; [by rewrite Hcb|]. apply unless_bind. eapply unless_lift; [unfold new_coinbase; by rewrite Hc|]. apply unless_bind.
  eapply unless_mono; [apply (unless_runs False), (accept_run U A HL pov gd U [] ∅ (mkValidated cb [] 0)); [by apply ctx_new_ok|done|done]|done|].
  intros [] st Hctx. cbn beta. destruct (merge_order_run gd Hs Hm) as (order & Hord & Ho). apply unless_bind. eapply unless_lift; [exact Hord|].
  apply unless_bind. assert (selected_parent gd ∈ selected_parent gd :: order) as Hsp by left.
  assert (∀ b, b ∈ order → BT !! b = Some (default [] (BT !! b))) as Hbody.
  { intros b Hb. destruct (Hbodies b) as [x Hx]; [right; by rewrite <- (mr_perm _ _ Ho)|]. by rewrite Hx. }
  assert (for_each order (λ b, txs ← lift (unwrap (get_transactions (bp_block_transactions_store self) b));
      merge_block (E:=E) self view pov b txs) = for_each (with_body <$> order) (λ p, merge_block self view pov p.1 p.2)) as ->.
  { clear - Hbody. induction order as [|b order IH]; [done|]. cbn [for_each fmap list_fmap].
    rewrite <- IH by (intros; apply Hbody; by right). assert (get_transactions (bp_block_transactions_store self) b = Ok (default [] (BT !! b))) as -> by (unfold get_transactions, read_access; by rewrite (Hbody b ltac:(left))). done. }
  pose proof (merge_all_run U A HL pov Hpov gd view Hview (merged_blocks gd order) _ _ _ _ st (ready_blocks order Ho) Hled ltac:(set_solver)
    ltac:(lia) Hctx) as Hrun. unfold merged_blocks in Hrun. rewrite fmap_cons in Hrun. cbn [for_each] in Hrun.
  apply unless_bind_inv in Hrun. 
  assert (merge_block (E:=E) self view pov (with_body (selected_parent gd)).1 (with_body (selected_parent gd)).2
    = merge_block self view pov (selected_parent gd) txs) as Hwb by (unfold with_body; by rewrite Htxs). rewrite Hwb in Hrun. clear Hwb.
  assert (¬ Forall signed_tx (accepted_by tv pov (execute (mkValidated cb [] 0) pov U) (with_body <$> selected_parent gd :: order)) →
    ∃ order, merge_order gd order ∧ ¬ Forall signed_tx (next_txs pov U gd cb order)) as Hbad.
  { intros Hn. exists order. split; [done|]. by intros [_ ?]%Forall_cons. }
  eapply unless_mono; [exact Hrun|exact Hbad|]. intros [] st1 Hrest. cbn beta in *. apply unless_bind. eapply unless_mono; [exact Hrest|exact Hbad|].
  intros [] [c cache'] [Hsig Hfin]. cbn beta in *. unfold runs_unless, modify_ctx. exists order. split; [done|].
  split; [constructor; [apply coinbase_signed|exact Hsig]|].
  destruct Hfin as [F1 F2 F3 F4 F5 F6 F7 F8]. cbn [fst snd] in *. split; cbn; [done|done|done|done| |done|done|done].
  by rewrite F5.
Qed.
End ready.
End calc.

(** ** Verification of the UTXO state of a block: proof

    The rewards that [calculate_utxo_state] collects are those of the merged blocks, so
    the expected coinbase can be built, and [verify_expected_utxo_state] accepts a block
    exactly when its header commits to the new UTXO set and to the accepted
    transactions, its coinbase pays the rewards, and its transactions are valid on the
    new set. *)

Lemma zsum_submseteq {A} (f : A → Z) (l k : list A) : (∀ x, 0 ≤ f x) → l ⊆+ k → zsum (f <$> l) ≤ zsum (f <$> k).
Proof.
  intros Hf [r Hr]%submseteq_Permutation. rewrite (zsum_perm (f <$> k) (f <$> l ++ r)) by (by rewrite Hr).
  rewrite fmap_app, zsum_app. enough (0 ≤ zsum (f <$> r)) by lia. by apply zsum_nonneg, Forall_fmap, Forall_true.
Qed.

(** The selected parent is the first blue, and no block is listed twice. *)
Record mergeset_shape (gd : GhostdagData) : Prop := {
  ms_head : ∃ bs, mergeset_blues gd = selected_parent gd :: bs;
  ms_nodup : NoDup (mergeset_blues gd ++ mergeset_reds gd);
}.

Section verify.
Context `{X : Externals} {IL : IterationLaws} {ML : MuHashLaws ext_inverse} {E : Type}.
Context (self : BlockBodyProcessor).
Local Abbreviation params := (hp_params (bp_stores self)).
Local Abbreviation tv := (transaction_validator_of params).
Local Abbreviation cm := (coinbase_manager_of params).
Local Abbreviation BT := (bt_access (bp_block_transactions_store self)).
Context (HE : calc_env self).

(** ** Rewards *)

(** The subsidy that the coinbase of a block declares. *)
Definition subsidy_of (b : Hash) : Z :=
  from_option cd_subsidy 0 (txs ← BT !! b; body_data self txs).

Lemma body_data_ok b txs : BT !! b = Some txs → ∃ data, body_data self txs = Some data ∧ payload_fits cm data ∧ subsidy_of b = cd_subsidy data.
Proof using HE.
  intros Hb. destruct (ce_payload _ HE b txs Hb) as (cb & data & Hcb & Hd & Hf). exists data.
  assert (body_data self txs = Some data) as Heq by (unfold body_data; rewrite Hcb; cbn [mbind option_bind]; by rewrite Hd).
  split_and!; [done|done|]. unfold subsidy_of. rewrite Hb. cbn [mbind option_bind]. by rewrite Heq.
Qed.

Lemma body_subsidy_nonneg b : 0 ≤ subsidy_of b.
Proof using HE.
  unfold subsidy_of. destruct (BT !! b) as [txs|] eqn:Hb; [|done]. destruct (body_data_ok b txs Hb) as (data & Hd & Hf & _).
  cbn [mbind option_bind]. rewrite Hd. cbn. apply Hf.
Qed.

Lemma rewards_fold acc rw b : NoDup acc.*1 →
  foldl (add_reward self) rw acc !! b =
  match list_to_map (M:=gmap Hash (list ValidatedTransaction)) acc !! b with
  | Some l => add_reward self rw (b, l) !! b
  | None => rw !! b
  end.
Proof using.
  clear. revert rw. induction acc as [|[b' l] acc IH]; intros rw Hnd; [by rewrite list_to_map_nil, lookup_empty|].
  apply NoDup_cons in Hnd as [Hn Hnd]. cbn [foldl fst] in *. rewrite IH by done. rewrite list_to_map_cons.
  assert (∀ b x, b ≠ b' → add_reward self (add_reward self rw (b', l)) (b, x) !! b = add_reward self rw (b, x) !! b) as Hother.
  { intros c x Hc. unfold add_reward. cbn [fst snd]. destruct (txs ← BT !! c; _); [by rewrite !lookup_insert_eq|].
    destruct (txs ← BT !! b'; _); [by rewrite lookup_insert_ne|done]. }
  destruct (decide (b = b')) as [->|Hne].
  - rewrite lookup_insert_eq. by rewrite (not_elem_of_list_to_map_1 acc b' Hn).
  - rewrite lookup_insert_ne by done. destruct (list_to_map acc !! b) as [x|] eqn:Hx; [by apply Hother|].
    unfold add_reward. cbn [fst snd]. destruct (txs ← BT !! b'; _); [by rewrite lookup_insert_ne|done].
Qed.

Section acc.
Context (acc : list (Hash * list ValidatedTransaction)) (Hnd : NoDup acc.*1) (Hbodies : Forall (λ p, is_Some (BT !! p.1)) acc).
Context (Hfees : Forall (λ p, 0 ≤ fees p.2) acc).
Local Abbreviation rewards := (rewards_from self acc).

Lemma reward_lookup b l : (b, l) ∈ acc → ∃ data r, rewards !! b = Some r ∧ payload_fits cm data
  ∧ r = mkReward (cd_subsidy data) (fees l) (md_script_public_key (cd_miner_data data)) ∧ subsidy_of b = cd_subsidy data.
Proof using HE Hnd Hbodies.
  intros Hin. unfold rewards_from. rewrite rewards_fold by done.
  rewrite (elem_of_list_to_map_1 acc b l Hnd Hin). rewrite Forall_forall in Hbodies. destruct (Hbodies _ Hin) as [txs Htxs]. cbn [fst] in Htxs.
  destruct (body_data_ok b txs Htxs) as (data & Hd & Hf & Hs). exists data. eexists. split_and!; [|done|reflexivity|done].
  unfold add_reward, reward_for. cbn [fst snd]. rewrite Htxs. cbn [mbind option_bind]. rewrite Hd. cbn [mbind option_bind].
  by rewrite lookup_insert_eq.
Qed.

Lemma reward_known b r : rewards !! b = Some r → ∃ l, (b, l) ∈ acc.
Proof using Hnd.
  unfold rewards_from. rewrite rewards_fold by done. destruct (list_to_map acc !! b) as [l|] eqn:Hl; [|by rewrite lookup_empty].
  intros _. exists l. by apply elem_of_list_to_map_2.
Qed.

Lemma rewards_sum : zsum (reward_of rewards <$> acc.*1) = zsum (subsidy_of <$> acc.*1) + fees (concat acc.*2).
Proof using HE Hnd Hbodies.
  assert (∀ b l, (b, l) ∈ acc → reward_of rewards b = subsidy_of b + fees l) as Hr.
  { intros b l Hin. destruct (reward_lookup b l Hin) as (data & r & Hlk & _ & -> & ->). unfold reward_of. by rewrite Hlk. }
  clear Hfees. revert Hr. generalize (rewards_from self acc). clear Hnd Hbodies. intros rw Hr.
  induction acc as [|[b l] k IH]; [done|]. cbn [fmap list_fmap fst snd concat]. rewrite !zsum_cons. unfold fees in *.
  rewrite fmap_app, zsum_app. rewrite (Hr b l ltac:(left)). rewrite IH by (intros; apply Hr; by right). unfold fees. lia.
Qed.

Section paid.
Context (gd : GhostdagData) (non_daa : gset Hash) (Hms : mergeset_shape gd).
Context (Hin : ∀ b, b ∈ mergeset_blues gd ++ mergeset_reds gd → b ∈ acc.*1).
Local Abbreviation paid := (paid_blues non_daa gd ++ paid_reds non_daa gd).

Lemma reward_bounds b r : rewards !! b = Some r → 0 ≤ rw_subsidy r ∧ 0 ≤ rw_total_fees r
  ∧ zlen (spk_script (rw_script_public_key r)) ≤ cm_coinbase_payload_script_public_key_max_len cm.
Proof using HE Hnd Hbodies Hfees.
  intros Hr. destruct (reward_known b r Hr) as [l Hl]. destruct (reward_lookup b l Hl) as (data & r' & Hlk & Hf & -> & _).
  rewrite Hlk in Hr. injection Hr as <-. cbn. rewrite Forall_forall in Hfees. specialize (Hfees _ Hl). cbn in Hfees.
  split_and!; [apply Hf|done|apply Hf].
Qed.

Lemma paid_merged : paid ⊆+ acc.*1.
Proof using Hms Hin.
  apply NoDup_submseteq.
  - eapply sublist_NoDup; [apply (ms_nodup _ Hms)|]. apply sublist_app; apply sublist_filter.
  - intros b Hb. apply Hin, elem_of_app. apply elem_of_app in Hb as [Hb|Hb]; apply list_elem_of_filter in Hb as [_ Hb]; [by left|by right].
Qed.

Lemma paid_sum : zsum (reward_of rewards <$> paid) ≤ zsum (subsidy_of <$> acc.*1) + fees (concat acc.*2).
Proof using HE Hnd Hbodies Hfees Hms Hin.
  etrans; [apply zsum_submseteq; [|apply paid_merged]|by rewrite rewards_sum].
  intros b. apply reward_nonneg. intros h r Hr. destruct (reward_bounds h r Hr) as (? & ? & _). done.
Qed.

(** What the rewards guarantee to the coinbase. *)
Lemma coinbase_rewards : zlen (mergeset_blues gd) ≤ p_ghostdag_k params + 1 →
  zsum (subsidy_of <$> acc.*1) + fees (concat acc.*2) ≤ MAX_SOMPI → CoinbaseProof.mergeset_ok cm tv rewards non_daa gd.
Proof using HE Hnd Hbodies Hfees Hms Hin.
  intros Hk Hsum. split.
  - done.
  - apply Forall_forall. intros b Hb. pose proof (elem_of_submseteq _ _ b Hb paid_merged) as Hb'.
    apply list_elem_of_fmap in Hb' as ([b' l] & -> & Hl). destruct (reward_lookup b' l Hl) as (? & r & Hr & _). eauto.
  - intros b r Hr. destruct (reward_bounds b r Hr) as (? & ? & _). done.
  - intros b r Hr. apply (reward_bounds b r Hr).
  - pose proof paid_sum. lia.
Qed.
End paid.
End acc.

(** ** The checks *)

(** What a block must commit to: [W], [ids] and [rewards] are its UTXO set, the sorted
    ids of the accepted transactions and the rewards of the merged blocks. *)
Record utxo_valid (header : Header) (W : UtxoCollection) (ids : list Hash) (gd : GhostdagData)
    (rewards : gmap Hash BlockRewardData) (non_daa : gset Hash) (cb : Transaction) (rest : list Transaction) : Prop := {
  uv_commitment : h_utxo_commitment header = multiset_digest (utxo_product W);
  uv_ids : h_accepted_id_merkle_root header = merkle_root ids;
  uv_coinbase : ∃ data template, deserialize_coinbase_payload cm (tx_payload cb) = Ok data
    ∧ expected_coinbase_transaction cm (h_daa_score header) (cd_miner_data data) gd rewards non_daa = Ok template
    ∧ tx_hash cb = tx_hash (ct_tx template);
  uv_txs : ∀ t, t ∈ rest → is_Some (accept tv W (h_daa_score header) t);
  uv_signed : Forall signed_tx (accepted tv W (h_daa_score header) rest);
}.

Lemma accepted_length U pov txs : (length (accepted tv U pov txs) ≤ length txs)%nat
  ∧ (length (accepted tv U pov txs) = length txs ↔ ∀ t, t ∈ txs → is_Some (accept tv U pov t)).
Proof using.
  unfold accepted. induction txs as [|t txs [IH1 IH2]]; [split; [done|split; [|done]]; intros _ t Ht; by apply elem_of_nil in Ht|].
  cbn [omap list_omap]. destruct (accept tv U pov t) as [v|] eqn:Hv; cbn [length].
  - split; [lia|]. rewrite Nat.succ_inj_wd, IH2. split.
    + intros Hall x [->|Hx]%elem_of_cons; [by rewrite Hv|by apply Hall].
    + intros Hall x Hx. apply Hall. by right.
  - split; [lia|]. split; [lia|]. intros Hall. destruct (Hall t ltac:(left)) as [v Hv']. congruence.
Qed.

Section one.
Context (U W : UtxoCollection) (A : gset Hash) (ids : list Hash) (gd : GhostdagData) (rewards : gmap Hash BlockRewardData).
Context (HLW : ledger BT W A) (Hparams : same_params cm tv).
Context (header : Header) (Hdaa : 0 ≤ h_daa_score header < 2 ^ 62) (non_daa : gset Hash).
Context (Hnon : daa_access (hp_daa_store (bp_stores self)) !! h_hash header = Some non_daa).
Context (cb : Transaction) (rest : list Transaction) (Hbody : BT !! h_hash header = Some (cb :: rest)).
Context (Hrew : CoinbaseProof.mergeset_ok cm tv rewards non_daa gd).
Context {V : Type} `{UtxoView V} (view : V) (Hview : shows view U).

Lemma verify_coinbase_decides : decides (verify_coinbase_transaction self cb (h_daa_score header) gd rewards non_daa)
  (∃ data template, deserialize_coinbase_payload cm (tx_payload cb) = Ok data
    ∧ expected_coinbase_transaction cm (h_daa_score header) (cd_miner_data data) gd rewards non_daa = Ok template
    ∧ tx_hash cb = tx_hash (ct_tx template)).
Proof using HE Hparams Hdaa Hbody Hrew.
  destruct (ce_payload _ HE _ _ Hbody) as (cb' & data & Hcb & Hd & Hf). cbn in Hcb. assert (cb' = cb) as -> by congruence. clear Hcb.
  unfold verify_coinbase_transaction. rewrite Hd. cbn [unwrap mbind outcome_bind].
  destruct (expected_ok cm tv rewards non_daa gd (cd_miner_data data) Hparams Hrew (pf_script _ _ Hf) (h_daa_score header)
    ltac:(unfold u64_max; lia)) as (payload & _ & Hex). rewrite Hex. cbn [unwrap mbind outcome_bind].
  case_bool_decide as Heq; cbn [negb decides].
  - exists data. eexists. split_and!; [done|exact Hex|done].
  - intros (data' & template & Hd' & Hex' & Heq'). assert (data' = data) as -> by congruence. rewrite Hex in Hex'. by injection Hex' as <-.
Qed.

Lemma verify_run st : ctx_ok U W ids gd rewards st →
  match verify_expected_utxo_state self view header st with
  | (Ok _, st') => utxo_valid header W ids gd rewards non_daa cb rest ∧ ctx_ok U W ids gd rewards st'
      ∧ uc_multiset_hash st'.1 = normal_form (utxo_product W)
  | (Err _, st') => ¬ utxo_valid header W ids gd rewards non_daa cb rest ∧ sig_cache_ok ext_verify st'.2
  | (Panic, _) => ¬ Forall signed_tx (accepted tv W (h_daa_score header) rest)
  | _ => False
  end.
Proof using HE HLW Hparams Hdaa Hnon Hbody Hrew Hview IL ML.
  intros Hctx. destruct st as [c cache]. pose proof Hctx as [F1 F2 F3 F4 F5 F6 F7 F8]. cbn [fst snd] in *.
  unfold verify_expected_utxo_state. unfold mbind at 1, M_bind at 1. unfold on_utxo_field.
  rewrite (finalize_fraction _ _ F4). cbn [unwrap]. case_bool_decide as Hcom; cbn [negb].
  2:{ cbn. split; [|done]. intros [Hv _ _ _ _]. congruence. }
  set (c1 := set_multiset_hash (normal_form (utxo_product W)) c).
  assert (ctx_ok U W ids gd rewards (c1, cache)) as Hctx1 by (split; cbn; try done; apply fraction_normal_form).
  unfold mbind at 1, M_bind at 1, get_ctx. unfold mbind at 1, M_bind at 1, lift. rewrite calc_merkle_root_ok.
  change (uc_accepted_tx_ids c1) with (uc_accepted_tx_ids c). rewrite F5. case_bool_decide as Hids; cbn [negb].
  2:{ cbn. split; [|done]. intros [_ Hv _ _ _]. congruence. }
  unfold mbind at 1, M_bind at 1, get_transactions, read_access. rewrite Hbody. cbn [unwrap].
  unfold mbind at 1, M_bind at 1. change ((cb :: rest) !! 0%nat) with (Some cb). cbn [unwrap_opt].
  unfold mbind at 1, M_bind at 1. change (get_mergeset_non_daa (hp_daa_store (bp_stores self)) (h_hash header)) with (read_access MERGESET_NON_DAA_PREFIX (daa_access (hp_daa_store (bp_stores self))) (h_hash header)). unfold read_access. rewrite Hnon. cbn [unwrap].
  unfold mbind at 1, M_bind at 1. change (uc_ghostdag_data c1) with (uc_ghostdag_data c). change (uc_mergeset_rewards c1) with (uc_mergeset_rewards c).
  rewrite F6, F7. pose proof verify_coinbase_decides as Hcb.
  destruct (verify_coinbase_transaction _ _ _ _ _ _) as [[]|e| |]; cbn [decides] in Hcb; [|split; [|done]; intros [_ _ Hv _ _]; tauto|done|done].
  assert (shows (compose view (uc_mergeset_diff c1)) W) as Hshow.
  { change (uc_mergeset_diff c1) with (uc_mergeset_diff c). rewrite <- F2. by apply composed_shows. }
  destruct (bo_block _ _ (ce_bodies _ HE) _ _ Hbody) as (cb' & rest' & Heq & _ & Hrest & _). injection Heq as <- <-.
  assert (Forall (λ t, stored BT t ∧ is_coinbase t = false) rest) as Hall.
  { rewrite Forall_forall in Hrest |- *. intros t Ht. split; [|by apply Hrest]. exists (h_hash header), (cb :: rest). split; [done|by right]. }
  pose proof (validate_each_run (E:=RuleError) self HE W A HLW (h_daa_score header) Hdaa (compose view (uc_mergeset_diff c1))
    Hshow rest cache Hall F8) as Hval. unfold runs_unless in Hval.
  unfold mbind at 1, M_bind at 1, with_cache, validate_transactions_in_parallel. change (drop 1 (cb :: rest)) with rest.
  destruct (validate_each _ _ _ _ cache) as [[l|?| |] cache']; [|done|exact Hval|done]. destruct Hval as (-> & Hsig & Hcache' & _).
  destruct (accepted_length W (h_daa_score header) rest) as [Hle Hall'].
  unfold mbind at 1, M_bind at 1. assert (zlen (cb :: rest) = 1 + zlen rest) as Hz by (unfold zlen; cbn [length]; lia). rewrite Hz.
  assert (ctx_ok U W ids gd rewards (c1, cache')) as Hctx2 by (destruct Hctx1; by split).
  pose proof (ce_length _ HE _ _ Hbody) as Hlen. rewrite Hz in Hlen. rewrite sub64_ok by (unfold zlen in *; lia).
  replace (1 + zlen rest - 1) with (zlen rest) by lia. destruct (Z.ltb_spec (zlen (accepted tv W (h_daa_score header) rest)) (zlen rest)) as [Hlt|Hge].
  - cbn. split; [|done]. intros [_ _ _ Hv _]. apply Hall' in Hv. unfold zlen in Hlt. lia.
  - cbn. split; [|done]. split; [done|done|done| |exact Hsig]. apply Hall'. unfold zlen in Hge. lia.
Qed.
End one.
End verify.
