(* ===== verification/VirtualChain.v ===== *)
(** * UTXO states along the selected chain

    [valid_chain] is what the virtual processor promises of a block: starting from the
    genesis, every block of the selected chain turns the UTXO set of its selected parent
    into its own and commits to it.  Under the invariant of the bodies such states are
    ledgers that never hold more coins than the merged blocks were granted, so the
    calculation of the next state cannot fail. *)

From S2P Require Import Prelude Hash Uint Interval ReachStore ReachSim ReachDag ReachMain Relations Headers GhostdagStore Ghostdag GhostdagInv GhostdagMerge GhostdagRun Window WindowProof DifficultyProof Stores SelectedChain DepthProof Errors HeaderProcessor HeaderInv Tx Utxo UtxoProof Hashing HashingProof Merkle Database TxValidator TxValidatorProof Coinbase CoinbaseProof BodyProcessor BodyProof U3072 MuHash VirtualStores VirtualProcessor VirtualUtxo VirtualCalc.

(** ** The mergeset of a block *)

Section mergeset.
Context (P : Dag) (m : GdMap) (g : Hash) (k : Z) (HG : gd_dag P m g k).
Context (ps : list Hash) (d : GhostdagData) (HD : gd_block P m k ps d).

Lemma merged_anticone x : x ∈ unordered_mergeset_without_selected_parent d →
  is_Some (m !! x) ∧ ¬ ancestor P x (selected_parent d) ∧ ¬ ancestor P (selected_parent d) x.
Proof using HG HD.
  intros Hx. assert (is_Some (m !! x)) as Hmx by (by apply (GhostdagStore.mo_known _ _ (gb_order _ _ _ _ _ HD))).
  apply (gb_merged _ _ _ _ _ HD) in Hx as [(p & Hp & Hxp) Hnot]. split_and!; [done|done|]. intros Hsx.
  pose proof (gb_parents _ _ _ _ _ HD p Hp) as Hmp. pose proof (gb_parents _ _ _ _ _ HD _ (gb_selected _ _ _ _ _ HD)) as Hms.
  assert (selected_parent d ≠ x) as Hne by (intros <-; by apply Hnot; constructor).
  pose proof (gb_max _ _ _ _ _ HD p Hp) as Hle.
  destruct (ancestor_work P m g k HG _ _ Hsx Hms Hmx) as [?|Hw1]; [done|].
  assert (work_of m x ≤ work_of m p) as Hw2 by (destruct (ancestor_work P m g k HG _ _ Hxp Hmx Hmp) as [->|?]; lia).
  assert (sb_lt (as_sortable m (selected_parent d)) (as_sortable m p)) as Hlt by (apply lower_work; lia).
  apply sb_le_lteq in Hle as [Hle|Hle]; [eapply sb_lt_irrefl, sb_lt_trans; eassumption|]. rewrite Hle in Hlt. by eapply sb_lt_irrefl.
Qed.

Lemma block_shape : mergeset_shape d ∧ zlen (mergeset_blues d) ≤ k + 1.
Proof using HG HD.
  destruct (gb_head _ _ _ _ _ HD) as [bs Hbs]. destruct (gb_colored _ _ _ _ _ HD) as (hs & l & [Hbl Hnd Hsz]).
  assert (∃ r, l = mergeset_blues d ++ r) as [r Hr] by (destruct Hbl; [exists []; by rewrite app_nil_r|eauto]).
  rewrite Hr, Hbs in Hnd. cbn [app] in Hnd. apply NoDup_cons in Hnd as [Hsp Hnd]. apply NoDup_app in Hnd as (Hndb & _ & _).
  assert (unordered_mergeset_without_selected_parent d = bs ++ mergeset_reds d) as Hun
    by (unfold unordered_mergeset_without_selected_parent; by rewrite Hbs).
  assert (∀ x, x ∈ bs ++ mergeset_reds d → ¬ ancestor P x (selected_parent d) ∧ ¬ ancestor P (selected_parent d) x) as Hanti.
  { intros x Hx. rewrite <- Hun in Hx. by apply merged_anticone in Hx as (_ & ? & ?). }
  split.
  - split; [eauto|]. rewrite Hbs. cbn [app]. apply NoDup_cons. split.
    + intros Hin. destruct (Hanti _ Hin) as [Hn _]. apply Hn. constructor.
    + pose proof (gb_order _ _ _ _ _ HD) as [Ob Or _ Odis]. rewrite Hbs in Ob, Odis. cbn [drop] in Ob, Odis.
      apply NoDup_app. split_and!; [done|intros x H1 H2; by apply (Odis x)|].
      apply (NoDup_fmap_1 (as_sortable m)). clear - Or. induction Or as [|x q Hq IH Hx]; constructor; [|done].
      intros Hin. rewrite Forall_forall in Hx. by apply (sb_lt_irrefl x), Hx.
  - destruct (Hsz (selected_parent d)) as (A & [HndA HA] & _ & HlenA); [rewrite Hr, Hbs; left|].
    assert (bs ⊆+ A) as Hsub.
    { apply NoDup_submseteq; [done|]. intros x Hx. apply HA. split; [rewrite Hr, Hbs; right; apply elem_of_app; by left|].
      apply Hanti, elem_of_app. by left. }
    apply submseteq_length in Hsub. unfold zlen. rewrite Hbs. cbn [length]. lia.
Qed.
End mergeset.

(** ** The world *)

Section chain.
Context `{X : Externals} {IL : IterationLaws} {ML : MuHashLaws ext_inverse}.
Context (W : Z) (s : BlockBodyProcessor) (P : Dag) (HI : body_inv W s P).
Local Abbreviation hp := (bp_stores s).
Local Abbreviation params := (hp_params hp).
Local Abbreviation tv := (transaction_validator_of params).
Local Abbreviation cm := (coinbase_manager_of params).
Local Abbreviation g := (p_genesis_hash params).
Local Abbreviation m := (hp_data hp).
Local Abbreviation BT := (bt_access (bp_block_transactions_store s)).

(** What is assumed of the blocks received so far, beyond the rules that the header and
    the body processor enforce: ids and hashes of transactions do not collide, scores and
    lengths fit their types, and the subsidies that the received blocks declare are
    together within the supply.  Signatures are not assumed. *)
Record world_ok : Prop := {
  wo_ids t t' : stored BT t → stored BT t' → tx_id t = tx_id t' → same_tx t t';
  wo_hashes t t' : stored BT t → is_coinbase t = true → tx_fits t' → tx_hash t = tx_hash t' → tx_outputs t = tx_outputs t';
  wo_daa h x : headers_access (hp_headers_store hp) !! h = Some x → 0 ≤ h_daa_score (lv_header x) < 2 ^ 62;
  wo_length b txs : BT !! b = Some txs → zlen txs ≤ u64_max;
  wo_emission : zsum (subsidy_of s <$> elements (dom BT)) ≤ MAX_SOMPI;
  wo_params : same_params cm tv;
  wo_maturity : 0 ≤ p_coinbase_maturity params < 2 ^ 62;
  wo_genesis_payload : 32 ≤ p_max_coinbase_payload_len params ≤ u64_max ∧ 1 ≤ p_coinbase_payload_script_public_key_max_len params;
}.
Context (HW : world_ok).

Lemma genesis_payload_ok : ∃ data, deserialize_coinbase_payload cm genesis_coinbase_payload = Ok data
  ∧ payload_fits cm data ∧ cd_blue_score data = 0.
Proof using HW HI.
  assert (Hashes.bytes_ok genesis_coinbase_payload) as Hb by (repeat constructor).
  pose proof (deserialize_total cm (bpo_script _ (by_params _ _ _ HI)) genesis_coinbase_payload Hb) as Ht.
  destruct (wo_genesis_payload HW) as [[H1 _] H2]. revert Ht. unfold deserialize_coinbase_payload.
  replace (length genesis_coinbase_payload <? MIN_PAYLOAD_LENGTH)%nat with false by (by vm_compute).
  replace (Z.of_nat (length genesis_coinbase_payload)) with 32 by (by vm_compute).
  cbn [cm_max_coinbase_payload_len coinbase_manager_of]. destruct (Z.ltb_spec (p_max_coinbase_payload_len params) 32) as [|_]; [lia|].
  unfold parse_coinbase_payload, mbind, M_bind.
  replace (parse_uint LENGTH_OF_BLUE_SCORE genesis_coinbase_payload) with (Ok (E:=CoinbaseError) 0, drop 8 genesis_coinbase_payload) by (by vm_compute).
  replace (parse_uint LENGTH_OF_SUBSIDY (drop 8 genesis_coinbase_payload)) with (Ok (E:=CoinbaseError) 100000000, drop 16 genesis_coinbase_payload) by (by vm_compute).
  replace (parse_uint LENGTH_OF_SCRIPT_PUB_KEY_VERSION (drop 16 genesis_coinbase_payload)) with (Ok (E:=CoinbaseError) 0, drop 18 genesis_coinbase_payload) by (by vm_compute).
  replace (parse_uint LENGTH_OF_SCRIPT_PUB_KEY_LENGTH (drop 18 genesis_coinbase_payload)) with (Ok (E:=CoinbaseError) 1, drop 19 genesis_coinbase_payload) by (by vm_compute).
  cbn [cm_coinbase_payload_script_public_key_max_len coinbase_manager_of].
  destruct (Z.ltb_spec (p_coinbase_payload_script_public_key_max_len params) 1) as [|_]; [lia|].
  cbn. intros [Hf _]. eexists. split_and!; [reflexivity|exact Hf|done].
Qed.

(** ** The environment of the calculation *)

Lemma stored_cases b txs : BT !! b = Some txs →
  (b = g ∧ txs = [genesis_coinbase])
  ∨ (b ≠ g ∧ ∃ x, headers_access (hp_headers_store hp) !! b = Some x ∧ body_isolated params (mkBlock (lv_header x) txs)
      ∧ payload_ok params (lv_header x) txs ∧ Forall tx_typed txs).
Proof using HI.
  intros Hb. destruct (decide (b = g)) as [->|Hne].
  - left. rewrite (by_genesis_txs _ _ _ HI) in Hb. by injection Hb as <-.
  - right. split; [done|]. by apply (by_rules _ _ _ HI).
Qed.

Lemma sound_tx t : isolated tv t → tx_typed t → tx_sound tv t.
Proof using HI.
  intros Hi Ht. pose proof (bpo_outputs _ (by_params _ _ _ HI)) as Ho. pose proof (iso_outputs_count _ _ Hi) as Hc. cbn in Hc. unfold zlen in Hc. split.
  - destruct (is_coinbase t) eqn:Hcb; [apply (iso_coinbase _ _ Hi Hcb)|done].
  - apply Hi.
  - apply Hi.
  - lia.
  - apply Ht.
Qed.

Lemma genesis_sound : tx_sound tv genesis_coinbase ∧ is_coinbase genesis_coinbase = true.
Proof using. split; [|done]. split; cbn; [done|constructor|by split; [constructor|vm_compute]|lia|constructor]. Qed.

Lemma chain_bodies : bodies_ok tv BT.
Proof using HI HW.
  split.
  - apply HW.
  - intros t (b & txs & Hb & Hin). destruct (stored_cases b txs Hb) as [[-> ->]|(_ & x & _ & Hiso & _ & Hty)].
    + apply list_elem_of_singleton in Hin as ->. apply genesis_sound.
    + rewrite Forall_forall in Hty. pose proof (bi_txs _ _ Hiso) as Hi. rewrite Forall_forall in Hi. apply sound_tx; auto.
  - intros b txs Hb. destruct (stored_cases b txs Hb) as [[-> ->]|(_ & x & _ & Hiso & _ & Hty)].
    + exists genesis_coinbase, []. split_and!; [done|apply genesis_sound|constructor|constructor].
    + destruct (bi_coinbase _ _ Hiso) as (cb & rest & Heq & Hc & Hr). cbn in Heq. exists cb, rest. split_and!; [done|done|done|].
      pose proof (bi_spends _ _ Hiso) as Hs. unfold block_inputs in Hs. cbn in Hs. rewrite Heq, bind_cons, fmap_app in Hs.
      by apply NoDup_app in Hs as (_ & _ & Hs).
Qed.

Lemma chain_env : calc_env s.
Proof using HI HW.
  split; [apply chain_bodies|apply HW| |apply HW].
  intros b txs Hb. destruct (stored_cases b txs Hb) as [[-> ->]|(_ & x & _ & Hiso & (cb & rest & data & -> & Hd & _) & Hty)].
  - destruct genesis_payload_ok as (data & Hd & Hf & _). exists genesis_coinbase, data. done.
  - exists cb, data. split_and!; [done|done|]. apply Forall_cons in Hty as [Hty _].
    pose proof (deserialize_total cm (bpo_script _ (by_params _ _ _ HI)) (tx_payload cb) (tt_payload _ Hty)) as Ht. rewrite Hd in Ht. apply Ht.
Qed.

Lemma known_body b : is_Some (BT !! b) → is_Some (m !! b).
Proof using HI.
  intros Hb. apply (by_stored _ _ _ HI) in Hb as (st & Hst & Hbody). apply (hi_valid _ _ _ (by_headers _ _ _ HI) b st Hst). by intros ->.
Qed.

(** The ancestors of a block with a body have bodies. *)
Lemma ancestor_body a b : is_Some (BT !! b) → ancestor P a b → a ≠ Hashes.ORIGIN → is_Some (BT !! a).
Proof using HI.
  intros Hb Ha Ho. revert Hb. induction Ha as [|b ps q Hps Hq Ha IH]; intros Hb; [done|].
  apply IH. destruct (decide (q = Hashes.ORIGIN)) as [->|Hqo].
  - by apply (origin_ancestor P m g _ (hi_dag _ _ _ (by_headers _ _ _ HI))) in Ha.
  - apply (by_stored _ _ _ HI). apply (by_closed _ _ _ HI b ps q); [|done..]. by apply (by_stored _ _ _ HI).
Qed.

Lemma body_score b cb rest : BT !! b = Some (cb :: rest) →
  ∃ data, deserialize_coinbase_payload cm (tx_payload cb) = Ok data ∧ cd_blue_score data = score_of m b.
Proof using HI HW.
  intros Hb. destruct (stored_cases b _ Hb) as [[-> Heq]|(Hne & x & Hx & _ & (cb' & rest' & data & Heq & Hd & Hs & _) & _)].
  - injection Heq as -> ->. destruct genesis_payload_ok as (data & Hd & _ & Hs). exists data. split; [done|].
    rewrite Hs. unfold score_of. by rewrite (gd_genesis_data _ _ _ _ (hi_dag _ _ _ (by_headers _ _ _ HI))).
  - injection Heq as <- <-. exists data. split; [done|]. rewrite Hs.
    apply (sh_score _ _ _ _ _ _ (hi_header _ _ _ (by_headers _ _ _ HI) b x Hx)).
Qed.

(** ** What was granted *)

Definition granted (M : gset Hash) : Z := zsum (subsidy_of s <$> elements M).

Lemma granted_mono M N : M ⊆ N → granted M ≤ granted N.
Proof using HI HW.
  intros Hs. unfold granted. apply zsum_submseteq; [apply (body_subsidy_nonneg _ chain_env)|]. by apply elements_submseteq.
Qed.
Lemma granted_union (l : list Hash) M : NoDup l → (∀ x, x ∈ l → x ∉ M) →
  granted (list_to_set l ∪ M) = zsum (subsidy_of s <$> l) + granted M.
Proof using.
  intros Hnd Hdis. unfold granted. rewrite <- zsum_app, <- fmap_app. apply zsum_perm. apply fmap_Permutation.
  rewrite elements_disj_union by (clear -Hdis; set_solver). f_equiv. by apply elements_list_to_set.
Qed.

(** ** States of the chain *)

Definition next_utxos (daa : Z) (U : UtxoCollection) (gd : GhostdagData) (cb : Transaction) (order : list Hash) : UtxoCollection :=
  execute_all daa (next_txs s daa U gd cb order) U.
Definition next_ids (daa : Z) (U : UtxoCollection) (gd : GhostdagData) (cb : Transaction) (order : list Hash) : list Hash :=
  sort_hashes (vt_id <$> next_txs s daa U gd cb order).

(** [valid_chain b U A M D]: [b] and its selected chain are valid, signatures included, [U] is the UTXO set
    after [b], [A] the ids of the accepted transactions, [M] the merged blocks and [D]
    the rewards that the coinbase of [b] may pay: the subsidies and fees of the blocks
    that [b] merges. *)
Inductive valid_chain : Hash → UtxoCollection → gset Hash → gset Hash → Z → Prop :=
| vc_genesis : valid_chain g ∅ ∅ ∅ 0
| vc_next b gd x cb rest cb' rest' order non_daa U A M D :
    b ≠ g → m !! b = Some gd → headers_access (hp_headers_store hp) !! b = Some x →
    valid_chain (selected_parent gd) U A M D →
    BT !! selected_parent gd = Some (cb :: rest) → BT !! b = Some (cb' :: rest') → merge_order s gd order →
    daa_access (hp_daa_store hp) !! b = Some non_daa →
    let daa := h_daa_score (lv_header x) in
    utxo_valid s (lv_header x) (next_utxos daa U gd cb order) (next_ids daa U gd cb order) gd
      (next_rewards s daa U gd cb order) non_daa cb' rest' →
    Forall signed_tx (next_txs s daa U gd cb order) →
    valid_chain b (next_utxos daa U gd cb order) (ids_of (next_txs s daa U gd cb order) ∪ A)
      (list_to_set (selected_parent gd :: order) ∪ M)
      (zsum (subsidy_of s <$> selected_parent gd :: order) + fees (next_txs s daa U gd cb order)).

(** The transition over the selected parent of [gd] accepts a transaction that is not
    signed. *)
Definition unsigned_over (gd : GhostdagData) (daa : Z) : Prop :=
  ∃ U A M D cb rest order, valid_chain (selected_parent gd) U A M D ∧ BT !! selected_parent gd = Some (cb :: rest)
    ∧ merge_order s gd order ∧ ¬ Forall signed_tx (next_txs s daa U gd cb order).

(** The block [b] accepts or holds a transaction that meets all rules but is not signed;
    the code panics on it. *)
Definition crashes (b : Hash) : Prop :=
  ∃ gd x U A M D cb rest cb' rest' order, b ≠ g ∧ m !! b = Some gd ∧ headers_access (hp_headers_store hp) !! b = Some x
    ∧ valid_chain (selected_parent gd) U A M D
    ∧ BT !! selected_parent gd = Some (cb :: rest) ∧ BT !! b = Some (cb' :: rest') ∧ merge_order s gd order
    ∧ let daa := h_daa_score (lv_header x) in
      ¬ (Forall signed_tx (next_txs s daa U gd cb order) ∧ Forall signed_tx (accepted tv (next_utxos daa U gd cb order) daa rest')).

Record chain_facts (b : Hash) (U : UtxoCollection) (A M : gset Hash) (D : Z) : Prop := {
  cf_body : is_Some (BT !! b);
  cf_ledger : ledger BT U A;
  cf_merged x : x ∈ M → x ≠ b ∧ ancestor P x b ∧ is_Some (BT !! x);
  cf_due : 0 ≤ D;
  cf_coins : coins U + D ≤ granted M;
  cf_ids i : i ∈ A → ∃ t, stored BT t ∧ tx_id t = i ∧ (is_coinbase t = true →
    ∃ data, deserialize_coinbase_payload cm (tx_payload t) = Ok data ∧ cd_blue_score data < score_of m b);
  cf_coinbase cb rest : BT !! b = Some (cb :: rest) → zsum (out_value <$> tx_outputs cb) ≤ D;
}.

Lemma genesis_facts : chain_facts g ∅ ∅ ∅ 0.
Proof using HI.
  split; [rewrite (by_genesis_txs _ _ _ HI); eauto|apply ledger_empty|clear; set_solver|done|done|clear; set_solver|].
  intros cb rest Hb. rewrite (by_genesis_txs _ _ _ HI) in Hb. by injection Hb as <- <-.
Qed.

Lemma granted_bound b U A M D : chain_facts b U A M D → granted M ≤ MAX_SOMPI.
Proof using HI HW.
  intros HF. etrans; [|apply (wo_emission HW)]. apply granted_mono. intros x Hx. apply elem_of_dom. by apply (cf_merged _ _ _ _ _ HF).
Qed.

(** ** The next block *)

Section next.
Context (ps : list Hash) (gd : GhostdagData) (HD : gd_block P m (p_ghostdag_k params) ps gd) (Hps : ∀ p, p ∈ ps → is_Some (BT !! p)).
Context (daa : Z) (Hdaa : 0 ≤ daa < 2 ^ 62).
Context (U : UtxoCollection) (A M : gset Hash) (D : Z) (HF : chain_facts (selected_parent gd) U A M D).
Context (cb : Transaction) (rest : list Transaction) (Hcb : BT !! selected_parent gd = Some (cb :: rest)).
Local Abbreviation sp := (selected_parent gd).

Lemma merged_body x : x ∈ sp :: unordered_mergeset_without_selected_parent gd → is_Some (BT !! x).
Proof using HI HD Hps.
  intros [->|Hx]%elem_of_cons; [apply Hps, HD|].
  assert (is_Some (m !! x)) as Hm by (by apply (GhostdagStore.mo_known _ _ (gb_order _ _ _ _ _ HD))).
  apply (gb_merged _ _ _ _ _ HD) in Hx as [(p & Hp & Hxp) _]. apply (ancestor_body x p); [by apply Hps|done|].
  intros ->. rewrite (origin_unknown P m g _ (hi_dag _ _ _ (by_headers _ _ _ HI))) in Hm. by destruct Hm.
Qed.

Lemma coinbase_fresh : tx_id cb ∉ A.
Proof using HI HW HF Hcb.
  intros HA. destruct (cf_ids _ _ _ _ _ HF _ HA) as (t & Ht & Hid & Hlt).
  assert (stored BT cb) as Hst by (exists sp, (cb :: rest); split; [done|left]).
  pose proof (wo_ids HW t cb Ht Hst Hid) as Hsame.
  destruct (bo_block _ _ chain_bodies _ _ Hcb) as (cb' & rest' & Heq & Hc & _). injection Heq as <- <-.
  destruct Hlt as (data & Hd & Hs); [by rewrite (st_coinbase _ _ Hsame)|].
  destruct (body_score _ _ _ Hcb) as (data' & Hd' & Hs'). rewrite (st_payload _ _ Hsame) in Hd. assert (data' = data) as -> by congruence. lia.
Qed.

Lemma next_ready : calc_ready s U A daa gd cb.
Proof using HI HW HD Hps Hdaa HF Hcb.
  split.
  - apply HF.
  - done.
  - apply (by_headers _ _ _ HI).
  - apply HD.
  - apply merged_body.
  - exists (cb :: rest). done.
  - apply coinbase_fresh.
  - pose proof (cf_coinbase _ _ _ _ _ HF cb rest Hcb). pose proof (cf_coins _ _ _ _ _ HF). pose proof (granted_bound _ _ _ _ _ HF).
    assert (MAX_SOMPI ≤ u64_max) by by vm_compute. lia.
Qed.

Context (order : list Hash) (Horder : merge_order s gd order).
Local Abbreviation l := (next_txs s daa U gd cb order).

Lemma next_blocks : NoDup (sp :: order) ∧ (∀ x, x ∈ sp :: order → x ∉ M) ∧ (∀ x, x ∈ sp :: order → is_Some (BT !! x))
  ∧ (∀ x, x ∈ mergeset_blues gd ++ mergeset_reds gd → x ∈ sp :: order).
Proof using HI HD Hps HF Horder.
  pose proof (hi_dag _ _ _ (by_headers _ _ _ HI)) as HG. destruct (block_shape P m g _ HG ps gd HD) as [[[bs Hbs] Hnd] _].
  assert (sp :: order ≡ₚ mergeset_blues gd ++ mergeset_reds gd) as Hp.
  { rewrite (mr_perm _ _ _ Horder). unfold unordered_mergeset_without_selected_parent. by rewrite Hbs. }
  split_and!.
  - by rewrite Hp.
  - intros x [->|Hx]%elem_of_cons HM; destruct (cf_merged _ _ _ _ _ HF _ HM) as (Hne & Ha & _); [done|].
    rewrite (mr_perm _ _ _ Horder) in Hx. by destruct (merged_anticone P m g _ HG ps gd HD x Hx) as (_ & Hn & _).
  - intros x Hx. apply merged_body. by rewrite <- (mr_perm _ _ _ Horder).
  - intros x. by rewrite Hp.
Qed.

Local Abbreviation subsidies := (zsum (subsidy_of s <$> sp :: order)).

Lemma next_granted : granted (list_to_set (sp :: order) ∪ M) = subsidies + granted M
  ∧ granted (list_to_set (sp :: order) ∪ M) ≤ MAX_SOMPI.
Proof using HI HW HD Hps HF Horder.
  destruct next_blocks as (Hnd & Hdis & Hb & _). split; [by apply granted_union|].
  etrans; [|apply (wo_emission HW)]. apply granted_mono. intros x [Hx|Hx]%elem_of_union; apply elem_of_dom.
  - apply Hb. by apply elem_of_list_to_set in Hx.
  - by apply (cf_merged _ _ _ _ _ HF).
Qed.

Lemma next_coins : 0 ≤ fees l ∧ 0 ≤ subsidies ∧ coins (next_utxos daa U gd cb order) + (subsidies + fees l) ≤ granted (list_to_set (sp :: order) ∪ M)
  ∧ subsidies + fees l ≤ MAX_SOMPI.
Proof using HI HW HD Hps Hdaa HF Hcb Horder IL ML.
  destruct (next_runs s chain_env U A daa gd cb next_ready order Horder) as (_ & Hled & Hf & Hc & _).
  destruct next_granted as [Hg Hmax]. pose proof (cf_coinbase _ _ _ _ _ HF cb rest Hcb). pose proof (cf_coins _ _ _ _ _ HF).
  pose proof (ledger_coins s chain_env _ _ Hled). unfold next_utxos.
  assert (0 ≤ subsidies) by (apply zsum_nonneg, Forall_fmap, Forall_true; intros; apply (body_subsidy_nonneg _ chain_env)).
  rewrite Hg in *. split_and!; lia.
Qed.

Lemma acceptance_blocks V blocks : (acceptance tv daa V blocks).*1 = blocks.*1.
Proof using. clear. revert V. induction blocks as [|[b txs] blocks IH]; intros V; [done|]. cbn [acceptance fmap list_fmap fst]. by rewrite IH. Qed.

Lemma acceptance_fees V B blocks : ledger BT V B → Forall (λ p, BT !! p.1 = Some p.2) blocks →
  Forall (λ p, 0 ≤ fees p.2) (acceptance tv daa V blocks).
Proof using HI HW Hdaa.
  revert V B. induction blocks as [|[b txs] blocks IH]; intros V B HL Hall; [constructor|].
  apply Forall_cons in Hall as [Hb Hall]. cbn [fst snd] in Hb.
  pose proof (accepted_runs tv BT chain_bodies daa Hdaa V B b txs HL Hb) as Hrun. cbn [acceptance]. constructor; [apply Hrun|].
  apply (IH _ _ (ro_ledger _ _ _ _ _ Hrun) Hall).
Qed.

Lemma next_mergeset_ok non_daa : CoinbaseProof.mergeset_ok cm tv (next_rewards s daa U gd cb order) non_daa gd
  ∧ zsum (reward_of (next_rewards s daa U gd cb order) <$> paid_blues non_daa gd ++ paid_reds non_daa gd) ≤ subsidies + fees l.
Proof using HI HW HD Hps Hdaa HF Hcb Horder IL ML.
  pose proof (hi_dag _ _ _ (by_headers _ _ _ HI)) as HG. destruct (block_shape P m g _ HG ps gd HD) as [Hshape Hk].
  destruct next_blocks as (Hnd & _ & Hb & Hin). destruct next_coins as (_ & _ & _ & Hsum).
  set (v := mkValidated cb [] 0). unfold next_rewards. fold v.
  set (acc := acceptance tv daa (execute v daa U) (merged_blocks s gd order)).
  assert (acc.*1 = sp :: order) as Hacc.
  { unfold acc. rewrite acceptance_blocks. unfold merged_blocks. rewrite <- list_fmap_compose. by rewrite list_fmap_id. }
  assert (fees (concat acc.*2) = fees l) as Hfees by done.
  assert (Forall (λ p, is_Some (BT !! p.1)) acc) as Hbodies.
  { apply Forall_forall. intros [b x] Hx. cbn [fst]. apply Hb. rewrite <- Hacc. apply list_elem_of_fmap. by exists (b, x). }
  assert (Forall (λ p, 0 ≤ fees p.2) acc) as Hpos.
  { destruct (ready_coinbase s chain_env U A daa gd cb next_ready) as [Hst Hc].
    destruct (coinbase_executes tv BT chain_bodies daa Hdaa U A cb (cf_ledger _ _ _ _ _ HF) Hst Hc coinbase_fresh) as (_ & Hled & _).
    apply (acceptance_fees _ _ _ Hled). by apply (ready_blocks s U A daa gd cb next_ready). }
  rewrite <- Hacc in Hnd, Hsum |- *. rewrite <- Hfees in Hsum |- *. assert (∀ b, b ∈ mergeset_blues gd ++ mergeset_reds gd → b ∈ acc.*1) as Hin' by (by rewrite Hacc).
  split; [by apply (coinbase_rewards s chain_env acc)|by apply (paid_sum s chain_env acc)].
Qed.

(** The expected coinbase fits its encoding. *)
Lemma rewards_scripts rewards acc b r : (∀ b r, rewards !! b = Some r → spk_fits (rw_script_public_key r)) →
  foldl (add_reward s) rewards acc !! b = Some r → spk_fits (rw_script_public_key r).
Proof using HI HW.
  clear HD Hps Hdaa HF Hcb Horder. revert rewards. induction acc as [|[c x] acc IH]; intros rewards Hr; cbn [foldl]; [apply Hr|].
  apply IH. clear IH b r. intros b r. unfold add_reward. cbn [fst snd]. destruct (BT !! c) as [txs|] eqn:Hc; [|apply Hr].
  destruct (ce_payload _ chain_env c txs Hc) as (cb' & data & Hcb' & Hdata & Hfit). cbn [mbind option_bind].
  unfold reward_for, body_data. rewrite Hcb'. cbn [mbind option_bind]. rewrite Hdata. cbn [mbind option_bind].
  rewrite lookup_insert_Some. intros [[_ <-]|[_ Hb]]; [|by apply (Hr b)]. cbn [rw_script_public_key]. split; [apply Hfit|].
  pose proof (pf_script _ _ Hfit). pose proof (sp_u8 _ _ (wo_params HW)). unfold script_size, zlen in *. unfold len_fits, fits. lia.
Qed.

Lemma expected_fits non_daa data payload : payload_fits cm data →
  serialize_coinbase_payload cm (mkCoinbaseData (blue_score gd) (subsidy_at cm daa) (cd_miner_data data)) = Ok payload →
  tx_fits (tx_new TX_VERSION [] (coinbase_outputs (next_rewards s daa U gd cb order) non_daa gd (cd_miner_data data)) 0
    Subnets.SUBNETWORK_ID_COINBASE 0 payload).
Proof using HI HW HD Hps Hdaa HF Hcb Horder IL ML.
  intros Hfit Hser. destruct (next_mergeset_ok non_daa) as [Hmo _]. pose proof (sp_u8 _ _ (wo_params HW)) as Hu8.
  rewrite serialize_ok in Hser by apply Hfit. apply (f_equal (λ o, match o with Ok x => length x | _ => 0%nat end)) in Hser.
  destruct (coinbase_outputs_ok cm tv _ non_daa gd (cd_miner_data data) (wo_params HW) Hmo (pf_script _ _ Hfit)) as [Hout Hlen].
  pose proof (coinbase_outputs_sum cm tv _ non_daa gd (cd_miner_data data) Hmo) as Hsum.
  pose proof (CoinbaseProof.mo_sum _ _ _ _ _ Hmo) as Hmax.
  assert (∀ o, o ∈ coinbase_outputs (next_rewards s daa U gd cb order) non_daa gd (cd_miner_data data) → fits 8 (out_value o)) as Hrange.
  { intros o Ho. rewrite <- Hsum in Hmax. rewrite Forall_forall in Hout. pose proof (Hout o Ho) as [Hpos _].
    enough (out_value o ≤ zsum (out_value <$> coinbase_outputs (next_rewards s daa U gd cb order) non_daa gd (cd_miner_data data))).
    { unfold fits. assert (MAX_SOMPI < 256 ^ Z.of_nat 8) by (by vm_compute). lia. }
    apply list_elem_of_split in Ho as (l1 & l2 & Heq). rewrite Heq in *. rewrite fmap_app, fmap_cons, zsum_app, zsum_cons.
    assert (∀ k, (∀ x, x ∈ k → x ∈ l1 ++ o :: l2) → 0 ≤ zsum (out_value <$> k)) as Hpart.
    { intros k Hk. apply zsum_nonneg, Forall_fmap, Forall_forall. intros x Hx. cbn. pose proof (Hout x (Hk x Hx)). lia. }
    pose proof (Hpart l1 ltac:(intros; apply elem_of_app; by left)). pose proof (Hpart l2 ltac:(intros; apply elem_of_app; right; by right)). lia. }
  split; change (tx_outputs (tx_new ?a ?b ?o ?c ?d ?e ?f)) with o; change (tx_payload (tx_new ?a ?b ?o ?c ?d ?e ?f)) with f.
  - done.
  - constructor.
  - done.
  - unfold coinbase_outputs in *. apply Forall_app in Hout as [Hb Hr]. apply Forall_app. split.
    + apply Forall_forall. intros o Ho. split; [by apply Hrange, elem_of_app; left|].
      apply list_elem_of_fmap in Ho as (h & -> & _). cbn [out_script_public_key]. unfold script_of.
      destruct (_ !! h) as [r|] eqn:Hr'; [|done]. cbn [from_option]. revert Hr'. apply rewards_scripts. by intros ? ? ?%lookup_empty_Some.
    + apply Forall_forall. intros o Ho. split; [by apply Hrange, elem_of_app; right|]. destruct (0 <? _); [|by apply elem_of_nil in Ho].
      apply list_elem_of_singleton in Ho as ->. split; [apply Hfit|]. pose proof (pf_script _ _ Hfit). unfold script_size in *.
      unfold len_fits, fits, zlen in *. cbn [out_script_public_key]. lia.
  - pose proof (po_k _ _ (hi_params _ _ _ (by_headers _ _ _ HI))). change (tv_ghostdag_k tv) with (p_ghostdag_k params) in Hlen.
    clear Hrange Hout. unfold len_fits, fits, zlen in *. lia.
  - done.
  - done.
  - done.
  - pose proof (pf_max _ _ Hfit) as Hm. pose proof (proj1 (wo_genesis_payload HW)) as [_ Hp].
    change (cm_max_coinbase_payload_len cm) with (p_max_coinbase_payload_len params) in Hm.
    cbn beta iota in Hser. unfold miner_bytes in Hser. rewrite !length_app in Hser. unfold le in Hser. rewrite !length_le_bytes in Hser.
    unfold script_size, zlen in Hm. change (Z.of_nat MIN_PAYLOAD_LENGTH) with 19 in Hm. cbn [cd_miner_data] in Hser.
    unfold len_fits, fits. unfold u64_max in Hp. lia.
Qed.

(** Accepted transactions are stored, and only the first is a coinbase. *)
Lemma acceptance_stored V blocks v : Forall (λ p, BT !! p.1 = Some p.2) blocks → v ∈ accepted_by tv daa V blocks →
  stored BT (vtx_tx v) ∧ is_coinbase (vtx_tx v) = false.
Proof using HI HW.
  intros Hall. revert V. induction Hall as [|[b txs] blocks Hb Hall IH]; intros V Hv; [by apply elem_of_nil in Hv|].
  unfold accepted_by in Hv. cbn [acceptance fmap list_fmap snd concat] in Hv. apply elem_of_app in Hv as [Hv|Hv]; [|by apply (IH _ Hv)].
  apply list_elem_of_omap in Hv as (t & Ht & (-> & _)%accept_Some). cbn [fst snd] in Hb.
  destruct (bo_block _ _ chain_bodies b txs Hb) as (cb' & rest' & -> & _ & Hr & _). change (drop 1 (cb' :: rest')) with rest' in Ht.
  rewrite Forall_forall in Hr. split; [|by apply Hr]. exists b, (cb' :: rest'). split; [done|by right].
Qed.

Lemma next_stored v : v ∈ l → v = mkValidated cb [] 0 ∨ stored BT (vtx_tx v) ∧ is_coinbase (vtx_tx v) = false.
Proof using HI HW HD Hps Hdaa HF Hcb Horder.
  intros [->|Hv]%elem_of_cons; [by left|right]. eapply acceptance_stored; [|exact Hv].
  by apply (ready_blocks s U A daa gd cb next_ready).
Qed.
End next.

(** ** Facts of valid chains *)

Lemma parents_body b ps gd : is_Some (BT !! b) → b ≠ g → P !! b = Some ps → m !! b = Some gd →
  gd_block P m (p_ghostdag_k params) ps gd ∧ ∀ p, p ∈ ps → is_Some (BT !! p).
Proof using HI.
  intros Hb Hne Hps Hgd. pose proof (hi_dag _ _ _ (by_headers _ _ _ HI)) as HG.
  pose proof (gd_blocks _ _ _ _ HG b ps gd Hps Hgd Hne) as HD. split; [done|]. intros p Hp.
  apply (ancestor_body p b Hb); [eapply anc_step; [done|done|constructor]|]. intros ->.
  pose proof (gb_parents _ _ _ _ _ HD _ Hp) as Ho. rewrite (origin_unknown P m g _ HG) in Ho. by destruct Ho.
Qed.

Lemma below_parent b ps p x : P !! b = Some ps → is_Some (m !! b) → p ∈ ps → is_Some (m !! p) → is_Some (m !! x) → ancestor P x p →
  x ≠ b ∧ ancestor P x b.
Proof using HI.
  intros Hps Hb Hp Hmp Hx Ha. pose proof (hi_dag _ _ _ (by_headers _ _ _ HI)) as HG. split; [|by eapply anc_step].
  intros ->. assert (p ≠ Hashes.ORIGIN) as Ho by (intros ->; rewrite (origin_unknown P m g _ HG) in Hmp; by destruct Hmp).
  destruct (parent_work P m g _ HG b ps p Hps Hb Hp Ho) as [_ Hlt]. destruct (ancestor_work P m g _ HG b p Ha Hb Hmp) as [->|?]; lia.
Qed.

Lemma selected_score b gd : m !! b = Some gd → b ≠ g → is_Some (m !! selected_parent gd) → score_of m (selected_parent gd) < score_of m b.
Proof using HI.
  intros Hgd Hne Hsp. pose proof (by_headers _ _ _ HI) as HH.
  destruct (sel_score _ P m g _ (hi_dag _ _ _ HH) (hi_reach _ _ _ HH) (selected_parent gd) b Hsp ltac:(eauto)) as [Heq|?]; [| |done].
  - eapply sc_step; [done|constructor].
  - exfalso. assert (is_Some (P !! b)) as [ps Hps] by (apply (gd_dom _ _ _ _ (hi_dag _ _ _ HH)); eauto).
    pose proof (gd_blocks _ _ _ _ (hi_dag _ _ _ HH) b ps gd Hps Hgd Hne) as HD.
    destruct (below_parent b ps (selected_parent gd) b) as [? _]; [done|eauto|apply HD|done|eauto|rewrite Heq; constructor|done].
Qed.

Lemma valid_facts b U A M D : valid_chain b U A M D → chain_facts b U A M D.
Proof using HI HW IL ML.
  induction 1 as [|b gd x cb rest cb' rest' order non_daa U A M D Hne Hgd Hx Hsp HF Hcb Hcb' Horder Hnon daa Hval _]; [apply genesis_facts|].
  pose proof (by_headers _ _ _ HI) as HH. pose proof (hi_dag _ _ _ HH) as HG.
  assert (is_Some (P !! b)) as [ps Hps] by (apply (gd_dom _ _ _ _ HG); eauto).
  destruct (parents_body b ps gd ltac:(eauto) Hne Hps Hgd) as [HD Hbodies].
  pose proof (wo_daa HW b x Hx) as Hdaa. fold daa in Hdaa.
  destruct (next_runs s chain_env U A daa gd cb (next_ready ps gd HD Hbodies daa Hdaa U A M D HF cb rest Hcb) order Horder)
    as (_ & Hled & _ & _ & _ & _).
  destruct (next_coins ps gd HD Hbodies daa Hdaa U A M D HF cb rest Hcb order Horder) as (Hf0 & Hs0 & Hcoins & Hmax).
  destruct (next_blocks ps gd HD Hbodies U A M D HF order Horder) as (Hnd & Hdis & Hb & Hin).
  pose proof (gb_parents _ _ _ _ _ HD _ (gb_selected _ _ _ _ _ HD)) as Hmsp.
  pose proof (selected_score b gd Hgd Hne Hmsp) as Hscore.
  split.
  - eauto.
  - exact Hled.
  - intros y [Hy|Hy]%elem_of_union.
    + apply elem_of_list_to_set in Hy. pose proof (Hb y Hy) as Hby. pose proof (known_body y Hby) as Hmy.
      apply elem_of_cons in Hy as [->|Hy].
      * destruct (below_parent b ps (selected_parent gd) (selected_parent gd)) as [? ?]; [done|eauto|apply HD|done|done|constructor|done].
      * rewrite (mr_perm _ _ _ Horder) in Hy. apply (gb_merged _ _ _ _ _ HD) in Hy as [(p & Hp & Ha) _].
        destruct (below_parent b ps p y) as [? ?]; [done|eauto|done|by apply (gb_parents _ _ _ _ _ HD)|done|done|done].
    + destruct (cf_merged _ _ _ _ _ HF y Hy) as (_ & Ha & Hby). pose proof (known_body y Hby) as Hmy.
      destruct (below_parent b ps (selected_parent gd) y) as [? ?]; [done|eauto|apply HD|done|done|done|done].
  - lia.
  - exact Hcoins.
  - intros i [Hi|Hi]%elem_of_union.
    + apply elem_of_list_to_set, list_elem_of_fmap in Hi as (v & -> & Hv).
      destruct (next_stored ps gd HD Hbodies daa Hdaa U A M D HF cb rest Hcb order Horder v Hv) as [->|[Hst Hc]].
      * exists cb. split_and!; [exists (selected_parent gd), (cb :: rest); split; [done|left]|done|]. intros _.
        destruct (body_score _ _ _ Hcb) as (data & Hd & Hs). exists data. split; [done|lia].
      * exists (vtx_tx v). split_and!; [done|done|]. by rewrite Hc.
    + destruct (cf_ids _ _ _ _ _ HF i Hi) as (t & Ht & Hid & Hdata). exists t. split_and!; [done|done|].
      intros Hc. destruct (Hdata Hc) as (data & Hd & Hlt). exists data. split; [done|lia].
  - intros c r Hcr. rewrite Hcb' in Hcr. injection Hcr as <- <-.
    destruct (next_mergeset_ok ps gd HD Hbodies daa Hdaa U A M D HF cb rest Hcb order Horder non_daa) as [Hmo Hpaid].
    destruct (uv_coinbase _ _ _ _ _ _ _ _ _ Hval) as (data & template & Hd & Hex & Hhash).
    destruct (ce_payload _ chain_env _ _ Hcb') as (c & data' & Hc & Hd' & Hfit). cbn in Hc. injection Hc as <-.
    assert (data' = data) as -> by congruence.
    destruct (expected_ok cm tv _ non_daa gd (cd_miner_data data) (wo_params HW) Hmo (pf_script _ _ Hfit) daa ltac:(unfold u64_max; lia))
      as (payload & Hser & Hex'). fold daa in Hex. rewrite Hex in Hex'. injection Hex' as ->. cbn [ct_tx] in Hhash.
    destruct (bo_block _ _ chain_bodies _ _ Hcb') as (c' & r' & Heq & Hcoin & _). injection Heq as <- <-.
    rewrite (wo_hashes HW cb' _ ltac:(exists b, (cb' :: rest'); split; [done|left]) Hcoin
      (expected_fits ps gd HD Hbodies daa Hdaa U A M D HF cb rest Hcb order Horder non_daa data payload Hfit Hser) Hhash). cbn [tx_outputs tx_new].
    etrans; [|exact Hpaid]. change (tx_outputs (tx_new ?a ?b ?o ?c ?d ?e ?f)) with o.
    by rewrite (coinbase_outputs_sum cm tv _ non_daa gd (cd_miner_data data) Hmo).
Qed.
End chain.
