(* ===== verification/VirtualMain.v ===== *)
(** * The virtual processor: the walk along the selected chain

    [virtual_inv] relates the stores of the virtual processor to the states of
    [VirtualChain]: the stored differences lead from the set of the selected parent to
    the set of the block, the stored multisets commit to them, the virtual UTXO set is
    the set of the virtual selected parent changed by the virtual difference.  The walk
    of [resolve_virtual] to any block with a body ends, marks exactly the blocks whose
    chain is valid, and ends with a difference from the virtual UTXO set to the set of
    the block. *)

From S2P Require Import Prelude Hash Uint Interval ReachStore ReachSim ReachTree ReachQuery ReachDag ReachMain ReachService Relations Headers GhostdagStore Ghostdag GhostdagInv GhostdagMerge GhostdagRun Window WindowProof DifficultyProof Stores SelectedChain DepthProof Errors HeaderProcessor HeaderInv HeaderRun HeaderMain Tx Utxo UtxoProof Hashing Merkle Database TxValidator TxValidatorProof Coinbase CoinbaseProof BodyProcessor BodyProof U3072 MuHash VirtualStores VirtualProcessor VirtualUtxo VirtualCalc VirtualChain.

(** ** The states of a chain are determined *)

Lemma sorted_unique (l k : list SortableBlock) : StronglySorted sb_lt l → StronglySorted sb_lt k → l ≡ₚ k → l = k.
Proof.
  intros Hl. revert k. induction Hl as [|x l Hl IH Hx]; intros k Hk Hp; [by apply Permutation_nil_l in Hp|].
  destruct Hk as [|y k Hk Hy]; [by apply Permutation_nil_r in Hp|]. rewrite Forall_forall in Hx, Hy.
  assert (x = y) as ->.
  { assert (x ∈ y :: k) as [?|Hxk]%elem_of_cons by (rewrite <- Hp; left); [done|].
    assert (y ∈ x :: l) as [?|Hyl]%elem_of_cons by (rewrite Hp; left); [done|].
    exfalso. eapply sb_lt_irrefl, sb_lt_trans; [apply Hx, Hyl|apply Hy, Hxk]. }
  f_equal. apply IH; [done|]. by apply Permutation_cons_inv in Hp.
Qed.

Section states.
Context `{X : Externals} {IL : IterationLaws} {ML : MuHashLaws ext_inverse}.

Lemma order_unique s gd o o' : merge_order s gd o → merge_order s gd o' → o = o'.
Proof using.
  clear. intros [S1 P1] [S2 P2]. eapply sorted_unique in S1; [|exact S2|by rewrite P1, P2].
  assert (sb_hash <$> (as_sortable (gd_abs (hp_ghostdag_store (bp_stores s))) <$> o')
    = sb_hash <$> (as_sortable (gd_abs (hp_ghostdag_store (bp_stores s))) <$> o)) as Heq by (by rewrite S1).
  rewrite <- !list_fmap_compose in Heq. change (sb_hash ∘ as_sortable ?q <$> ?l) with ((λ h : Hash, h) <$> l) in Heq.
  by rewrite !list_fmap_id in Heq.
Qed.

Lemma valid_unique s b U A M D U' A' M' D' : valid_chain s b U A M D → valid_chain s b U' A' M' D' →
  U' = U ∧ A' = A ∧ M' = M ∧ D' = D.
Proof using.
  intros HV. revert U' A' M' D'. induction HV as [|b gd x cb rest cb' rest' order nd U A M D Hne Hgd Hx Hsp IH Hcb Hcb' Ho Hnd daa Hval Hsig];
    intros U' A' M' D' HV'.
  - inversion HV'; [done|]. congruence.
  - inversion HV' as [|b2 gd2 x2 cb2 rest2 cb2' rest2' order2 nd2 U2 A2 M2 D2 Hne2 Hgd2 Hx2 Hsp2 Hcb2 Hcb2' Ho2 Hnd2 daa2 Hval2 _]; [congruence|].
    assert (gd2 = gd) as -> by congruence. assert (x2 = x) as -> by congruence.
    destruct (IH _ _ _ _ Hsp2) as (-> & -> & -> & ->). rewrite (order_unique s gd order2 order) by done.
    assert (cb2 = cb) as -> by congruence. done.
Qed.

(** A block that crashes the node is not valid. *)
Lemma crash_invalid s b U A M D : crashes s b → ¬ valid_chain s b U A M D.
Proof using.
  intros (gd & x & U0 & A0 & M0 & D0 & cb & rest & cb' & rest' & order & Hne & Hgd & Hx & Hsp & Hcb & Hcb' & Ho & Hbad) HV. apply Hbad.
  inversion HV as [|b2 gd2 x2 cb2 rest2 cb2' rest2' order2 nd2 U2 A2 M2 D2 Hne2 Hgd2 Hx2 Hsp2 Hcb2 Hcb2' Ho2 Hnd2 daa2 Hval2 Hsig2]; [congruence|].
  assert (gd2 = gd) as -> by congruence. assert (x2 = x) as -> by congruence.
  destruct (valid_unique _ _ _ _ _ _ _ _ _ _ Hsp Hsp2) as (-> & _). rewrite (order_unique s gd order2 order) in Hval2, Hsig2 by done.
  assert (cb2 = cb) as -> by congruence. assert (rest2' = rest') as -> by congruence.
  split; [exact Hsig2|exact (uv_signed _ _ _ _ _ _ _ _ _ Hval2)].
Qed.

(** ** Coherence *)

Section coherence.
Context (tv : TransactionValidator) (BT : gmap Hash (list Transaction)) (HB : bodies_ok tv BT).

Lemma source_unique o e e' : source BT o e → source BT o e' → ue_block_daa_score e = ue_block_daa_score e' → e = e'.
Proof using HB.
  intros (t & i & out & Ht & Hi & Heq) (t' & i' & out' & Ht' & Hi' & Heq') Hs. unfold output_utxo in Heq, Heq'.
  injection Heq as Ho He. injection Heq' as Ho' He'. rewrite Ho in Ho'. injection Ho' as Hid Hidx.
  pose proof (bo_ids _ _ HB t t' Ht Ht' Hid) as Hsame. rewrite (st_outputs _ _ Hsame) in Hi.
  pose proof (ts_count _ _ (bo_txs _ _ HB t' Ht')) as Hc. apply lookup_lt_Some in Hi as Hl. apply lookup_lt_Some in Hi' as Hl'.
  assert (i = i') as -> by (rewrite !Z.mod_small in Hidx by lia; lia). rewrite Hi in Hi'. injection Hi' as ->.
  rewrite He, He', Hs. by rewrite (st_coinbase _ _ Hsame).
Qed.
Definition sourced (V : UtxoCollection) : Prop := ∀ o e, V !! o = Some e → source BT o e.
Lemma sourced_coherent V C : sourced V → sourced C → coherent V C.
Proof using HB. intros HV HC o e e' Ho Ho' Hs. by eapply source_unique; [apply HV|apply HC|]. Qed.
End coherence.

(** One more difference on the accumulated one. *)
Lemma accumulate_run {E D} `{ImmutableUtxoDiff D} (acc : UtxoDiff) (d : D) V : applies acc V → applies d (apply acc V) → coherent V (added d) →
  ∃ acc', accumulate (E:=E) acc d = Ok acc' ∧ applies acc' V ∧ apply acc' V = apply d (apply acc V).
Proof using IL.
  intros Ha Hd Hc. destruct (with_diff_ok acc d V Ha Hd Hc) as (acc' & Hw & Ha' & He & _). exists acc'. split_and!; [|done|done].
  unfold accumulate. unfold with_diff in Hw. destruct (with_diff_in_place d acc) as [[[]|e| |] r]; cbn in *; by inversion Hw.
Qed.
End states.

(** ** Statuses do not matter to the chain *)

Section status.
Context `{X : Externals} {IL : IterationLaws} {ML : MuHashLaws ext_inverse}.
Context (x : DbStatusesStore) (s : BlockBodyProcessor).
Local Abbreviation s' := (set_body_statuses x s).

Lemma order_statuses gd order : merge_order s gd order ↔ merge_order s' gd order.
Proof using. split; intros []; by split. Qed.
Lemma valid_statuses header U ids gd rewards nd cb rest :
  utxo_valid s header U ids gd rewards nd cb rest ↔ utxo_valid s' header U ids gd rewards nd cb rest.
Proof using. split; intros []; by split. Qed.

Lemma chain_statuses b U A M D : valid_chain s b U A M D ↔ valid_chain s' b U A M D.
Proof using.
  split; induction 1 as [|b gd y cb rest cb' rest' order nd U A M D Hne Hgd Hy Hsp IH Hcb Hcb' Ho Hnd daa Hval Hsig].
  - apply (vc_genesis s').
  - refine (vc_next s' b gd y cb rest cb' rest' order nd U A M D Hne Hgd Hy IH Hcb Hcb' _ Hnd _ Hsig); [by apply order_statuses|].
    by apply (proj1 (valid_statuses _ _ _ _ _ _ _ _)).
  - apply (vc_genesis s).
  - refine (vc_next s b gd y cb rest cb' rest' order nd U A M D Hne Hgd Hy IH Hcb Hcb' _ Hnd _ Hsig); [by apply order_statuses|].
    by apply (proj2 (valid_statuses _ _ _ _ _ _ _ _)).
Qed.
Lemma crash_statuses b : crashes s' b → crashes s b.
Proof using.
  intros (gd & y & U & A & M & D & cb & rest & cb' & rest' & order & Hne & Hgd & Hy & Hsp & Hcb & Hcb' & Ho & Hbad).
  exists gd, y, U, A, M, D, cb, rest, cb', rest', order. apply chain_statuses in Hsp. apply order_statuses in Ho. by split_and!.
Qed.
Lemma over_statuses gd daa : unsigned_over s' gd daa → unsigned_over s gd daa.
Proof using.
  intros (U & A & M & D & cb & rest & order & Hsp & Hcb & Ho & Hbad). exists U, A, M, D, cb, rest, order.
  apply chain_statuses in Hsp. apply order_statuses in Ho. by split_and!.
Qed.
Lemma world_statuses : world_ok s → world_ok s'.
Proof using. intros []. by split. Qed.
End status.

Lemma body_inv_status `{Hashers} W s P h st : body_inv W s P → has_body (bp_stores s) h → has_block_body st = true →
  body_inv W (set_body_statuses (mkStatuses (<[h := st]> (statuses_access (bp_statuses_store s)))) s) P.
Proof.
  intros [F1 F2 F3 F4 F5 F6 F7 F8] Hh Hst.
  assert (∀ x, has_body (with_status h st (bp_stores s)) x ↔ has_body (bp_stores s) x) as Hb by (apply same_bodies; tauto).
  split; cbn [bp_stores set_body_statuses bp_block_transactions_store bp_body_tips_store].
  - apply (status_inv W (bp_stores s) P h st F1). intros _. destruct Hh as (st' & Hst' & Hb'). apply (hi_valid _ _ _ F1 h st' Hst'). by intros ->.
  - exact F2.
  - intros y. by rewrite F3, <- (Hb y).
  - by apply Hb.
  - intros y ps q Hy. rewrite Hb in Hy |- *. by apply F5.
  - destruct F6 as (T & HT & Htips). exists T. split; [done|]. eapply tips_ext; [|done|exact Htips]. intros y. by rewrite <- (Hb y).
  - exact F7.
  - exact F8.
Qed.

(** ** The invariant *)

Section main.
Context `{X : Externals} {IL : IterationLaws} {ML : MuHashLaws ext_inverse}.
Context (W : Z) (P : Dag) (fuel : nat).

Definition status_of (v : VirtualStateProcessor) (b : Hash) : option BlockStatus := statuses_access (vp_statuses_store v) !! b.
Definition diff_of (v : VirtualStateProcessor) (b : Hash) : option UtxoDiff := ud_access (vp_utxo_diffs_store v) !! b.
Definition genesis_of (v : VirtualStateProcessor) : Hash := p_genesis_hash (vp_params v).

(** The difference [d] leads from the set of the selected parent of [b] to [U]. *)
Definition leads_to (v : VirtualStateProcessor) (b : Hash) (d : UtxoDiff) (U : UtxoCollection) : Prop :=
  ∃ gd U0 A0 M0 D0, hp_data (vp_stores v) !! b = Some gd ∧ valid_chain (vp_body v) (selected_parent gd) U0 A0 M0 D0
    ∧ is_Some (diff_of v (selected_parent gd)) ∧ applies d U0 ∧ apply d U0 = U.

Record chain_inv (v : VirtualStateProcessor) : Prop := {
  ci_body : body_inv W (vp_body v) P;
  ci_world : world_ok (vp_body v);
  ci_status b : status_of v b = Some StatusUTXOValid ↔ is_Some (diff_of v b);
  ci_disqualified b : status_of v b = Some StatusDisqualifiedFromChain → ∀ U A M D, ¬ valid_chain (vp_body v) b U A M D;
  ci_genesis : is_Some (diff_of v (genesis_of v));
  ci_diffs b d : diff_of v b = Some d → ∃ U A M D, valid_chain (vp_body v) b U A M D
    ∧ (b ≠ genesis_of v → leads_to v b d U)
    ∧ ∃ u, um_access (vp_utxo_multisets_store v) !! b = Some u ∧ commits (from_uint3072 u) U;
  ci_multisets b : is_Some (um_access (vp_utxo_multisets_store v) !! b) ↔ is_Some (diff_of v b);
  ci_acceptance b : is_Some (ac_access (vp_acceptance_data_store v) !! b) ↔ is_Some (diff_of v b);
  ci_cache : sig_cache_ok ext_verify (vp_sig_cache v);
}.

(** The virtual UTXO set is the set of [b] changed by [d]. *)
Record shows_virtual (v : VirtualStateProcessor) (b : Hash) (d : UtxoDiff) : Prop := {
  sv_state : ∃ U A M D, valid_chain (vp_body v) b U A M D ∧ applies d U ∧ us_access (vp_utxo_set v) = apply d U;
  sv_valid : is_Some (diff_of v b);
  sv_sourced : sourced (bt_access (bp_block_transactions_store (vp_body v))) (us_access (vp_utxo_set v));
}.

Record virtual_inv (v : VirtualStateProcessor) : Prop := {
  vi_chain : chain_inv v;
  vi_virtual : ∃ vs, vst_access (vp_state_store v) = Some vs
    ∧ shows_virtual v (selected_parent (vs_ghostdag_data vs)) (vs_utxo_diff vs)
    ∧ commits (vs_multiset vs) (us_access (vp_utxo_set v)) ∧ coins (us_access (vp_utxo_set v)) ≤ MAX_SOMPI;
}.

(** [acc] leads from the virtual UTXO set to the set of [b]. *)
Record reaches (v : VirtualStateProcessor) (b : Hash) (acc : UtxoDiff) : Prop := {
  re_applies : applies acc (us_access (vp_utxo_set v));
  re_state : ∃ A M D, valid_chain (vp_body v) b (apply acc (us_access (vp_utxo_set v))) A M D;
  re_valid : is_Some (diff_of v b);
}.

Section walk.
Context (v : VirtualStateProcessor) (HC : chain_inv v).
Local Abbreviation hp := (vp_stores v).
Local Abbreviation m := (hp_data hp).
Local Abbreviation g := (genesis_of v).
Local Abbreviation BT := (bt_access (bp_block_transactions_store (vp_body v))).
Local Abbreviation V := (us_access (vp_utxo_set v)).

Lemma main_headers : hp_inv W hp P.
Proof using HC. apply (by_headers _ _ _ (ci_body _ HC)). Qed.
Lemma main_env : calc_env (vp_body v).
Proof using HC. apply (chain_env W (vp_body v) P (ci_body _ HC) (ci_world _ HC)). Qed.
Lemma main_bodies : bodies_ok (transaction_validator_of (vp_params v)) BT.
Proof using HC. apply (ce_bodies _ main_env). Qed.

Lemma valid_known b : is_Some (diff_of v b) → is_Some (BT !! b) ∧ is_Some (m !! b).
Proof using HC IL ML.
  intros [d Hd]. destruct (ci_diffs _ HC b d Hd) as (U & A & M & D & HV & _).
  pose proof (valid_facts W _ P (ci_body _ HC) (ci_world _ HC) _ _ _ _ _ HV) as HF.
  split; [apply HF|]. apply (known_body W _ P (ci_body _ HC)), HF.
Qed.

Lemma valid_sourced b U A M D : valid_chain (vp_body v) b U A M D → sourced BT U.
Proof using HC IL ML.
  intros HV o e Ho. pose proof (valid_facts W _ P (ci_body _ HC) (ci_world _ HC) _ _ _ _ _ HV) as HF.
  apply (le_source _ _ _ (cf_ledger _ _ _ _ _ _ _ HF) _ _ Ho).
Qed.

Lemma back_step b gd : m !! b = Some gd →
  backward_next (hp_reachability_store hp) (default_backward_chain_iterator b) = Ok (Some b, default_backward_chain_iterator (selected_parent gd)).
Proof using HC.
  intros Hgd. pose proof main_headers as HH. pose proof (hi_dag _ _ _ HH) as HG. pose proof (hi_reach _ _ _ HH) as HR.
  assert (is_Some (P !! b)) as HP by (apply (gd_dom _ _ _ _ HG); eauto).
  destruct (data_known _ P m HR b HP) as [d Hd]. unfold default_backward_chain_iterator. cbn [backward_next].
  rewrite bool_decide_eq_false_2.
  2:{ intros ->. rewrite (origin_unknown P m _ _ HG) in Hgd. done. }
  destruct (ck_state _ _ _ HR) as [t Ht]. rewrite bool_decide_eq_true_2.
  2:{ intros ->. apply (rep_none _ _ (di_rep _ _ _ Ht)), (rep_dom _ _ (di_rep _ _ _ Ht)). eauto. }
  cbn [assert mbind outcome_bind]. rewrite (service_parent _ _ _ Hd). cbn [unwrap mbind outcome_bind mret outcome_ret].
  by rewrite (ck_parent _ _ _ HR b d gd Hd Hgd).
Qed.

Context (Hsrc : sourced BT V) (Hfuel : (size m < fuel)%nat).

(** One step down: the difference of a block in reverse. *)
Lemma step_down {E} b acc : reaches v b acc → b ≠ g →
  ∃ gd d acc', m !! b = Some gd ∧ diff_of v b = Some d ∧ accumulate (E:=E) acc (as_reversed d) = Ok acc' ∧ reaches v (selected_parent gd) acc'.
Proof using HC Hsrc IL ML.
  intros [Ha (A & M & D & HV) [d Hd]] Hne. destruct (ci_diffs _ HC b d Hd) as (U & A' & M' & D' & HV' & Hlead & _).
  destruct (valid_unique _ _ _ _ _ _ _ _ _ _ HV HV') as (-> & _). destruct (Hlead Hne) as (gd & U0 & A0 & M0 & D0 & Hgd & HV0 & Hd0 & Hap & Heq).
  destruct (reversed_ok d U0 Hap) as [Hr1 Hr2]. rewrite Heq in Hr1, Hr2.
  destruct (accumulate_run (E:=E) acc (as_reversed d) V Ha Hr1) as (acc' & Hacc & Ha' & He').
  { apply (sourced_coherent _ _ (main_bodies)); [done|]. intros o e Ho. apply (valid_sourced _ _ _ _ _ HV0).
    eapply lookup_weaken; [exact Ho|apply Hap]. }
  exists gd, d, acc'. split_and!; [done|done|done|]. split; [done| |done]. rewrite He', Hr2. eauto.
Qed.

Lemma walk_down_run {E} b n acc : reaches v b acc → is_Some (m !! n) →
  ∃ c acc', walk_down fuel (E:=E) v b n acc = Ok (c, acc') ∧ sel_chain m c n ∧ reaches v c acc'.
Proof using HC Hsrc Hfuel IL ML.
  intros Hb Hn. pose proof main_headers as HH. pose proof (hi_dag _ _ _ HH) as HG. pose proof (hi_reach _ _ _ HH) as HR.
  assert (is_Some (m !! b)) as Hmb by apply (valid_known b (re_valid _ _ _ Hb)).
  assert (is_Some (m !! g)) as Hmg by (eexists; apply (gd_genesis_data _ _ _ _ HG)).
  pose proof (genesis_chain P m _ _ HG b Hmb) as Hgb. apply (chain_sel _ P m _ _ HG HR _ b Hmg Hmb), path_chain in Hgb as [l Hl].
  pose proof (path_length _ P m _ _ HG HR _ _ l Hl Hmg Hmb) as Hlen.
  destruct (oloop_ok (λ n' st, ∃ c l, st.1 = default_backward_chain_iterator c ∧ reaches v c st.2
      ∧ path (Memory.map (abs (hp_reachability_store hp))) g c l ∧ n' = length l)
    (λ '(it, accumulated_diff),
    '(item, it) ← unwrap (backward_next (hp_reachability_store (vp_stores v)) it);
    match item with
    | None => Panic
    | Some current =>
        b ← unwrap (rs_is_chain_ancestor_of (hp_service (vp_stores v)) current n);
        if (b : bool) then mret (inr (current, accumulated_diff))
        else
          mergeset_diff ← unwrap (get_utxo_diff (vp_utxo_diffs_store v) current);
          accumulated_diff ← accumulate accumulated_diff (as_reversed mergeset_diff);
          mret (inl (it, accumulated_diff))
    end : outcome E _) (λ st, sel_chain m st.1 n ∧ reaches v st.1 st.2) fuel (length l) (default_backward_chain_iterator b, acc)) as ([c acc'] & Hrun & Hres).
  - intros n' [it a] (c & l' & Hit & Hc & Hpath & ->). cbn [fst snd] in *. subst it. destruct (valid_known c (re_valid _ _ _ Hc)) as [_ [gd Hgd]].
    rewrite (back_step c gd Hgd). cbn [unwrap mbind outcome_bind].
    destruct (service_chain _ P m _ _ HG HR c n ltac:(eauto) Hn) as (r & Hr & Hiff). change (hp_service (vp_stores v)) with (mkService (hp_reachability_store hp)).
    rewrite Hr. cbn [unwrap mbind outcome_bind]. destruct r.
    + eexists. split; [reflexivity|]. cbn [fst snd]. split; [by apply Hiff|done].
    + destruct (decide (c = g)) as [->|Hne].
      { assert (false = true) as [=] by (apply Hiff, (genesis_chain P m _ _ HG n Hn)). }
      destruct (step_down (E:=E) c a Hc Hne) as (gd' & d & a' & Hgd' & Hd & Hacc & Hre). assert (gd' = gd) as -> by congruence.
      unfold get_utxo_diff, read_access. unfold diff_of in Hd. rewrite Hd. cbn [unwrap mbind outcome_bind]. rewrite Hacc. cbn [mbind outcome_bind mret outcome_ret].
      eexists. split; [reflexivity|]. cbn [fst snd]. inversion Hpath as [|c' dd l'' Hdd Hp]; [by subst|]. subst.
      exists (length l''). split; [|rewrite length_app; cbn; lia]. exists (selected_parent gd), l''. split_and!; [done|done| |done].
      by rewrite <- (ck_parent _ _ _ HR c dd gd Hdd Hgd).
  - exists b, l. done.
  - lia.
  - exists c, acc'. split; [exact Hrun|exact Hres].
Qed.
End walk.

(** ** Writes *)

(** [v'] has the chain of [v] and at least its valid blocks. *)
Record extends_chain (v v' : VirtualStateProcessor) : Prop := {
  ec_body : ∃ x, vp_body v' = set_body_statuses x (vp_body v);
  ec_virtual : vp_virtual_stores v' = vp_virtual_stores v;
  ec_diffs b d : diff_of v b = Some d → diff_of v' b = Some d;
}.

Lemma extends_refl v : extends_chain v v.
Proof using. split; [|done|done]. exists (bp_statuses_store (vp_body v)). by destruct v as [[[] ? ?] ? ? ? ? ?]. Qed.
Lemma extends_trans v v' v'' : extends_chain v v' → extends_chain v' v'' → extends_chain v v''.
Proof using.
  intros [[x Hx] V1 D1] [[y Hy] V2 D2]. split; [|congruence|auto]. exists y. by rewrite Hy, Hx.
Qed.

Lemma extends_valid v v' b U A M D : extends_chain v v' → valid_chain (vp_body v) b U A M D ↔ valid_chain (vp_body v') b U A M D.
Proof using. intros [[x ->] _ _]. apply chain_statuses. Qed.

Lemma extends_reaches v v' b acc : extends_chain v v' → reaches v b acc → reaches v' b acc.
Proof using.
  intros HX [Ha (A & M & D & HV) [d Hd]]. assert (vp_utxo_set v' = vp_utxo_set v) as Hu by (unfold vp_utxo_set; by rewrite (ec_virtual _ _ HX)).
  split; rewrite ?Hu; [done| |].
  - exists A, M, D. by apply (extends_valid v v').
  - exists d. by apply (ec_diffs _ _ HX).
Qed.

Lemma extends_leads v v' b d U : extends_chain v v' → leads_to v b d U → leads_to v' b d U.
Proof using.
  intros HX (gd & U0 & A0 & M0 & D0 & Hgd & HV & [d0 Hd0] & Ha & He). exists gd, U0, A0, M0, D0. split_and!; [| | |done|done].
  - destruct (ec_body _ _ HX) as [x Hx]. unfold vp_stores. by rewrite Hx.
  - by apply (extends_valid v v').
  - exists d0. by apply (ec_diffs _ _ HX).
Qed.

Definition with_vp_status (b : Hash) (st : BlockStatus) (v : VirtualStateProcessor) : VirtualStateProcessor :=
  set_vp_statuses (mkStatuses (<[b := st]> (statuses_access (vp_statuses_store v)))) v.

Lemma status_with b st v c : status_of (with_vp_status b st v) c = if decide (c = b) then Some st else status_of v c.
Proof using.
  unfold status_of. cbn. destruct (decide (c = b)) as [->|]; [by rewrite lookup_insert_eq|by rewrite lookup_insert_ne].
Qed.

Lemma with_status_extends b st v : extends_chain v (with_vp_status b st v).
Proof using. split; [|done|done]. eexists. reflexivity. Qed.

Lemma chain_has_body v b : chain_inv v → is_Some (bt_access (bp_block_transactions_store (vp_body v)) !! b) → has_body (vp_stores v) b.
Proof using. intros HC Hb. by apply (by_stored _ _ _ (ci_body _ HC)). Qed.

Lemma disqualify_run {E} v b : chain_inv v → is_Some (bt_access (bp_block_transactions_store (vp_body v)) !! b) →
  (∀ U A M D, ¬ valid_chain (vp_body v) b U A M D) →
  disqualify (E:=E) b v = (Ok tt, with_vp_status b StatusDisqualifiedFromChain v) ∧ chain_inv (with_vp_status b StatusDisqualifiedFromChain v).
Proof using.
  intros HC Hb Hinv. split; [done|]. pose proof (with_status_extends b StatusDisqualifiedFromChain v) as HX.
  assert (diff_of v b = None) as Hnd.
  { destruct (diff_of v b) as [d|] eqn:Hd; [|done]. destruct (ci_diffs _ HC b d Hd) as (U & A & M & D & HV & _). by destruct (Hinv U A M D). }
  destruct HC as [F1 F2 F3 F4 F5 F6 F7 F8 F9]. split.
  - apply (body_inv_status W (vp_body v) P b); [done| |done]. by apply (by_stored _ _ _ F1).
  - by apply world_statuses.
  - intros c. rewrite status_with. change (diff_of (with_vp_status b StatusDisqualifiedFromChain v) c) with (diff_of v c).
    destruct (decide (c = b)) as [->|]; [|apply F3]. rewrite Hnd. split; [done|]. by intros [? ?].
  - intros c. rewrite status_with. intros Hst U A M D HV. apply (extends_valid v _ c) in HV; [|done].
    destruct (decide (c = b)) as [->|]; [by eapply Hinv|by eapply F4].
  - exact F5.
  - intros c d Hd. destruct (F6 c d Hd) as (U & A & M & D & HV & Hl & Hu). exists U, A, M, D. split_and!; [|intros Hne; apply (extends_leads v); auto|done].
    by apply (extends_valid v).
  - exact F7.
  - exact F8.
  - exact F9.
Qed.

Definition commit_state (v : VirtualStateProcessor) (b : Hash) (d : UtxoDiff) (u : Uint.Uint) : VirtualStateProcessor :=
  with_vp_status b StatusUTXOValid
    (set_vp_acceptance (mkAcceptance (<[b := mkAcceptanceData]> (ac_access (vp_acceptance_data_store v))))
      (set_vp_multisets (mkUtxoMultisets (<[b := u]> (um_access (vp_utxo_multisets_store v))))
        (set_vp_diffs (mkUtxoDiffs (<[b := d]> (ud_access (vp_utxo_diffs_store v)))) v))).

Lemma commit_diff v b d u c : diff_of (commit_state v b d u) c = if decide (c = b) then Some d else diff_of v c.
Proof using. unfold diff_of. cbn. destruct (decide (c = b)) as [->|]; [by rewrite lookup_insert_eq|by rewrite lookup_insert_ne]. Qed.

Lemma commit_extends v b d u : diff_of v b = None → extends_chain v (commit_state v b d u).
Proof using.
  intros Hn. split; [eexists; reflexivity|done|]. intros c e Hc. rewrite commit_diff. by destruct (decide (c = b)) as [->|]; [congruence|].
Qed.

(** The four writes of a batch. *)
Lemma commit_new {E} v b d ms : diff_of v b = None → um_access (vp_utxo_multisets_store v) !! b = None →
  ac_access (vp_acceptance_data_store v) !! b = None → denominator ms = U3072.one →
  commit_utxo_state (E:=E) b d ms mkAcceptanceData v = (Ok tt, commit_state v b d (numerator ms)).
Proof using.
  intros Hn Hn1 Hn2 Hden.
  assert (insert_utxo_diff b d (vp_utxo_diffs_store v) = (Ok tt, mkUtxoDiffs (<[b := d]> (ud_access (vp_utxo_diffs_store v))))) as E1.
  { unfold insert_utxo_diff. by rewrite (insert_new_ok b d _ Hn). }
  assert (insert_multiset b ms (vp_utxo_multisets_store v) = (Ok tt, mkUtxoMultisets (<[b := numerator ms]> (um_access (vp_utxo_multisets_store v))))) as E2.
  { unfold insert_multiset. rewrite Hn1. rewrite bool_decide_eq_false_2 by (by intros [? ?]). unfold try_into_uint3072.
    by rewrite bool_decide_eq_true_2. }
  assert (insert_acceptance_data b mkAcceptanceData (vp_acceptance_data_store v)
    = (Ok tt, mkAcceptance (<[b := mkAcceptanceData]> (ac_access (vp_acceptance_data_store v))))) as E3.
  { unfold insert_acceptance_data. by rewrite (insert_new_ok b mkAcceptanceData _ Hn2). }
  unfold commit_utxo_state, mbind, M_bind. unfold on_vp at 1. rewrite E1. cbn [unwrap]. unfold on_vp at 1.
  cbn [vp_utxo_multisets_store set_vp_diffs]. rewrite E2. cbn [unwrap]. unfold on_vp at 1.
  cbn [vp_acceptance_data_store set_vp_diffs set_vp_multisets]. rewrite E3. done.
Qed.

Lemma commit_run {E} v b d x U A M D : chain_inv v → diff_of v b = None → is_Some (bt_access (bp_block_transactions_store (vp_body v)) !! b) →
  b ≠ genesis_of v → valid_chain (vp_body v) b U A M D → leads_to v b d U → commits (normal_form x) U →
  let u := numerator (normal_form x) in
  commit_utxo_state (E:=E) b d (normal_form x) mkAcceptanceData v = (Ok tt, commit_state v b d u) ∧ chain_inv (commit_state v b d u).
Proof using.
  intros HC Hn Hb Hne HV Hlead Hcom u. pose proof (commit_extends v b d u Hn) as HX.
  assert (∀ {A} (f : gmap Hash A), (∀ c, is_Some (f !! c) ↔ is_Some (diff_of v c)) → f !! b = None) as Hnone.
  { intros B f Hf. destruct (f !! b) eqn:Hfb; [|done]. destruct (proj1 (Hf b)) as [? ?]; [eauto|congruence]. }
  pose proof (Hnone _ _ (ci_multisets _ HC)) as Hn1. pose proof (Hnone _ _ (ci_acceptance _ HC)) as Hn2. split.
  - by apply commit_new.
  - destruct HC as [F1 F2 F3 F4 F5 F6 F7 F8 F9]. split.
    + apply (body_inv_status W (vp_body v) P b); [done| |done]. by apply (by_stored _ _ _ F1).
    + by apply world_statuses.
    + intros c. unfold commit_state at 1. rewrite status_with, commit_diff. destruct (decide (c = b)); [split; eauto|apply F3].
    + intros c. unfold commit_state at 1. rewrite status_with. destruct (decide (c = b)) as [->|]; [done|].
      intros Hst U' A' M' D' HV'. apply (extends_valid v _ c) in HV'; [|done]. by eapply F4.
    + change (genesis_of (commit_state v b d u)) with (genesis_of v). rewrite commit_diff. destruct (decide _); eauto.
    + intros c e. rewrite commit_diff. destruct (decide (c = b)) as [->|Hcb].
      * intros [= <-]. exists U, A, M, D. split_and!; [by apply (extends_valid v)|intros _; by apply (extends_leads v)|].
        exists u. split; [cbn; by rewrite lookup_insert_eq|exact Hcom].
      * intros He. destruct (F6 c e He) as (U' & A' & M' & D' & HV' & Hl & w & Hw & Hcw). exists U', A', M', D'.
        split_and!; [by apply (extends_valid v)|intros Hg; apply (extends_leads v); auto|]. exists w. split; [|done].
        cbn. by rewrite lookup_insert_ne by congruence.
    + intros c. rewrite commit_diff. cbn. destruct (decide (c = b)) as [->|]; [rewrite lookup_insert_eq; split; eauto|].
      rewrite lookup_insert_ne by congruence. apply F7.
    + intros c. rewrite commit_diff. cbn. destruct (decide (c = b)) as [->|]; [rewrite lookup_insert_eq; split; eauto|].
      rewrite lookup_insert_ne by congruence. apply F8.
    + exact F9.
Qed.

Lemma cache_inv v c : chain_inv v → sig_cache_ok ext_verify c → chain_inv (set_vp_cache c v) ∧ extends_chain v (set_vp_cache c v).
Proof using.
  intros [F1 F2 F3 F4 F5 F6 F7 F8 F9] Hc. split; [by split|]. split; [|done|done].
  exists (bp_statuses_store (vp_body v)). by destruct v as [[[] ? ?] ? ? ? ? ?].
Qed.

(** ** One block up *)

Section up.
Context (v : VirtualStateProcessor) (HC : chain_inv v).
Local Abbreviation hp := (vp_stores v).
Local Abbreviation m := (hp_data hp).
Local Abbreviation BT := (bt_access (bp_block_transactions_store (vp_body v))).
Local Abbreviation V := (us_access (vp_utxo_set v)).
Context (Hsrc : sourced BT V).
Context (cur : Hash) (gd : GhostdagData) (Hgd : m !! cur = Some gd) (Hne : cur ≠ genesis_of v) (Hbody : is_Some (BT !! cur)).
Local Abbreviation sp := (selected_parent gd).

(** A valid block is valid by its data. *)
Lemma valid_inv U' A' M' D' : valid_chain (vp_body v) cur U' A' M' D' → ∃ x cb rest cb' rest' order nd U A M D,
  headers_access (hp_headers_store hp) !! cur = Some x ∧ valid_chain (vp_body v) sp U A M D
  ∧ BT !! sp = Some (cb :: rest) ∧ BT !! cur = Some (cb' :: rest') ∧ merge_order (vp_body v) gd order
  ∧ daa_access (hp_daa_store hp) !! cur = Some nd
  ∧ let daa := h_daa_score (lv_header x) in
    utxo_valid (vp_body v) (lv_header x) (next_utxos (vp_body v) daa U gd cb order) (next_ids (vp_body v) daa U gd cb order) gd
      (next_rewards (vp_body v) daa U gd cb order) nd cb' rest'.
Proof using Hgd Hne.
  inversion 1 as [|b gd2 x cb rest cb' rest' order nd U A M D Hne2 Hgd2 Hx Hsp Hcb Hcb' Ho Hnd daa Hval Hsig]; [by destruct Hne|].
  assert (gd2 = gd) as -> by (pose proof Hgd as Hgd'; unfold vp_stores in Hgd'; congruence). exists x, cb, rest, cb', rest', order, nd, U, A, M, D. split_and!; done.
Qed.

Lemma up_stored acc d {E} : diff_of v cur = Some d → reaches v sp acc →
  ∃ acc', accumulate (E:=E) acc d = Ok acc' ∧ reaches v cur acc'.
Proof using HC Hsrc Hgd Hne IL ML.
  intros Hd [Ha (A & M & D & HV) _]. destruct (ci_diffs _ HC cur d Hd) as (U & A' & M' & D' & HV' & Hlead & _).
  destruct (Hlead Hne) as (gd2 & U0 & A0 & M0 & D0 & Hgd2 & HV0 & _ & Hap & Heq). assert (gd2 = gd) as -> by congruence.
  destruct (valid_unique _ _ _ _ _ _ _ _ _ _ HV HV0) as (-> & _).
  destruct (accumulate_run (E:=E) acc d V Ha Hap) as (acc' & Hacc & Ha' & He').
  { apply (sourced_coherent _ _ (main_bodies v HC)); [done|]. intros o e Ho. apply (valid_sourced v HC _ _ _ _ _ HV').
    rewrite <- Heq. by apply lookup_union_Some_l. }
  exists acc'. split; [done|]. split; [done| |eauto]. rewrite He', Heq. eauto.
Qed.

Lemma below_disqualified : status_of v sp = Some StatusDisqualifiedFromChain → ∀ U A M D, ¬ valid_chain (vp_body v) cur U A M D.
Proof using HC Hgd Hne.
  intros Hst U A M D HV. destruct (valid_inv _ _ _ _ HV) as (x & cb & rest & cb' & rest' & order & nd & U0 & A0 & M0 & D0 & _ & HV0 & _).
  by apply (ci_disqualified _ HC sp Hst U0 A0 M0 D0).
Qed.

(** What the calculation and the verification of [cur] work with. *)
Section on_parent.
Context (U : UtxoCollection) (A M : gset Hash) (D : Z) (HV : valid_chain (vp_body v) sp U A M D).

Lemma up_ready : ∃ x nd cb rest cb' rest' ps,
  headers_access (hp_headers_store hp) !! cur = Some x ∧ h_hash (lv_header x) = cur ∧ daa_access (hp_daa_store hp) !! cur = Some nd
  ∧ BT !! sp = Some (cb :: rest) ∧ BT !! cur = Some (cb' :: rest') ∧ 0 ≤ h_daa_score (lv_header x) < 2 ^ 62
  ∧ chain_facts (vp_body v) P sp U A M D ∧ gd_block P m (p_ghostdag_k (vp_params v)) ps gd ∧ (∀ p, p ∈ ps → is_Some (BT !! p)).
Proof using HC Hgd Hne Hbody HV IL ML.
  pose proof (main_headers v HC) as HH. pose proof (hi_dag _ _ _ HH) as HG.
  pose proof (valid_facts W _ P (ci_body _ HC) (ci_world _ HC) _ _ _ _ _ HV) as HF.
  assert (is_Some (headers_access (hp_headers_store hp) !! cur)) as [x Hx] by (apply (hi_header_dom _ _ _ HH); eauto).
  assert (is_Some (daa_access (hp_daa_store hp) !! cur)) as [nd Hnd] by (apply (hi_daa _ _ _ HH); eauto).
  destruct (cf_body _ _ _ _ _ _ _ HF) as [txs Htxs]. destruct Hbody as [txs' Htxs'].
  destruct (bo_block _ _ (main_bodies v HC) _ _ Htxs) as (cb & rest & -> & _).
  destruct (bo_block _ _ (main_bodies v HC) _ _ Htxs') as (cb' & rest' & -> & _).
  assert (is_Some (P !! cur)) as [ps Hps] by (apply (gd_dom _ _ _ _ HG); eauto).
  destruct (parents_body W (vp_body v) P (ci_body _ HC) cur ps gd ltac:(eauto) Hne Hps Hgd) as [HD Hpb].
  exists x, nd, cb, rest, cb', rest', ps.
  split_and!; [done|apply (hi_header _ _ _ HH cur x Hx)|done|done|done|exact (proj1 (wo_daa _ (ci_world _ HC) cur x Hx))|exact (proj2 (wo_daa _ (ci_world _ HC) cur x Hx))|done..].
Qed.

(** The outcome of the verification: the state of [cur] is committed, or [cur] is not
    valid, or an unsigned transaction makes it panic. *)
Definition verified (r : outcome RuleError unit * (UtxoProcessingContext * SigCache)) : Prop :=
  match r with
  | (Ok _, (c, cache)) => sig_cache_ok ext_verify cache ∧ applies (uc_mergeset_diff c) U
      ∧ ∃ A M D y, valid_chain (vp_body v) cur (apply (uc_mergeset_diff c) U) A M D
        ∧ uc_multiset_hash c = normal_form y ∧ commits (normal_form y) (apply (uc_mergeset_diff c) U)
  | (Err _, (c, cache)) => sig_cache_ok ext_verify cache ∧ ∀ U A M D, ¬ valid_chain (vp_body v) cur U A M D
  | (Panic, _) => crashes (vp_body v) cur
  | _ => False
  end.

Lemma up_verified : ∃ x, headers_access (hp_headers_store hp) !! cur = Some x
  ∧ ∀ (T : Type) (HT : UtxoView T) (view : T) ms cache, shows view U → commits ms U → sig_cache_ok ext_verify cache →
  runs_unless (crashes (vp_body v) cur) (calculate_utxo_state (E:=unit) (vp_body v) view (h_daa_score (lv_header x))) (utxo_context_new gd ms, cache)
    (λ _ st, verified (verify_expected_utxo_state (vp_body v) view (lv_header x) st)).
Proof using HC Hgd Hne Hbody HV IL ML.
  destruct up_ready as (x & nd & cb & rest & cb' & rest' & ps & Hx & Hhash & Hnd & Hcb & Hcb' & Hdaa & HF & HD & Hps).
  exists x. split; [done|]. intros T ? view ms cache Hview Hms Hcache.
  pose proof (next_ready W (vp_body v) P (ci_body _ HC) (ci_world _ HC) ps gd HD Hps _ Hdaa _ _ _ _ HF cb rest Hcb) as HR.
  assert (∀ order, merge_order (vp_body v) gd order →
    ¬ (Forall signed_tx (next_txs (vp_body v) (h_daa_score (lv_header x)) U gd cb order)
       ∧ Forall signed_tx (accepted (transaction_validator_of (vp_params v)) (next_utxos (vp_body v) (h_daa_score (lv_header x)) U gd cb order)
           (h_daa_score (lv_header x)) rest')) → crashes (vp_body v) cur) as Hcrash.
  { intros order Ho Hbad. exists gd, x, U, A, M, D, cb, rest, cb', rest', order. by split_and!. }
  eapply unless_mono; [apply (calculate_run (vp_body v) (main_env v HC) _ _ _ _ _ HR view ms cache Hview Hms Hcache)| |].
  { intros (order & Ho & Hbad). apply (Hcrash order Ho). by intros [? _]. }
  intros [] st (order & Ho & Hsig & Hctx). cbn beta.
  destruct (next_runs (vp_body v) (main_env v HC) _ _ _ _ _ HR order Ho) as (_ & Hled & _).
  destruct (next_mergeset_ok W (vp_body v) P (ci_body _ HC) (ci_world _ HC) ps gd HD Hps _ Hdaa _ _ _ _ HF cb rest Hcb order Ho nd) as [Hms' _].
  pose proof (verify_run (vp_body v) (main_env v HC) _ _ _ _ _ _ Hled (wo_params _ (ci_world _ HC)) (lv_header x) Hdaa nd
    ltac:(by rewrite Hhash) cb' rest' ltac:(by rewrite Hhash) Hms' view Hview st Hctx) as Hver.
  destruct (verify_expected_utxo_state (vp_body v) view (lv_header x) st) as [[u|e| |] [c' cache']]; [| |apply (Hcrash order Ho); by intros [_ ?]|done].
  - destruct Hver as (Hval & Hctx' & Hmu). cbn [fst] in Hmu. destruct Hctx' as [G1 G2 G3 G4 G5 G6 G7 G8]. cbn [fst snd] in *.
    split; [done|]. split; [done|]. rewrite G2. do 4 eexists. split; [|split; [exact Hmu|by rewrite <- Hmu]].
    exact (vc_next (vp_body v) cur gd x cb rest cb' rest' order nd _ A M D Hne Hgd Hx HV Hcb Hcb' Ho Hnd Hval Hsig).
  - destruct Hver as [Hval Hc]. split; [done|]. intros U2 A2 M2 D2 HV2. apply Hval.
    destruct (valid_inv _ _ _ _ HV2) as (x3 & cb3 & rest3 & cb3' & rest3' & order3 & nd3 & U3 & A3 & M3 & D3 & Hx3 & HV3 & Hcb3 & Hcb3' & Ho3 & Hnd3 & Hval3).
    assert (x3 = x) as -> by congruence. destruct (valid_unique _ _ _ _ _ _ _ _ _ _ HV HV3) as (-> & _).
    rewrite (order_unique (vp_body v) gd order3 order) in Hval3 by done. rewrite Hcb in Hcb3. rewrite Hcb' in Hcb3'. rewrite Hnd in Hnd3.
    injection Hcb3 as <- <-. injection Hcb3' as <- <-. injection Hnd3 as <-. exact Hval3.
Qed.
End on_parent.

(** One block of the walk up.  A block below which the chain is not valid stays so. *)
Definition resolved (w : VirtualStateProcessor) (b : Hash) (acc : UtxoDiff) : Prop :=
  reaches w b acc ∨ status_of w b = Some StatusDisqualifiedFromChain.

Lemma run_utxo_ok {E E' A} (bad : Prop) (m : UM E' A) c (Q : option E' * UtxoProcessingContext → VirtualStateProcessor → Prop) w :
  match m (c, vp_sig_cache w) with
  | (Ok _, (c', cache)) => Q (None, c') (set_vp_cache cache w)
  | (Err e, (c', cache)) => Q (Some e, c') (set_vp_cache cache w)
  | (Panic, _) => bad
  | _ => False
  end → runs_unless bad (run_utxo (E:=E) m c) w Q.
Proof using. unfold runs_unless, run_utxo. by destruct (m (c, vp_sig_cache w)) as [[] []]. Qed.

Lemma disqualified_run {E} w acc : chain_inv w → extends_chain v w → (∀ U A M D, ¬ valid_chain (vp_body v) cur U A M D) →
  runs (disqualify (E:=E) cur;; mret acc) w (λ acc' w', chain_inv w' ∧ extends_chain v w' ∧ resolved w' cur acc').
Proof using Hbody.
  intros Hw HX Hinv. destruct (disqualify_run (E:=E) w cur) as [Hrun Hw'].
  - done.
  - destruct (ec_body _ _ HX) as [y Hy]. by rewrite Hy.
  - intros U A M D HV. by apply (Hinv U A M D), (extends_valid v w).
  - apply runs_bind. eapply runs_intro; [exact Hrun|]. apply runs_ret. split_and!; [done| |right; rewrite status_with; by rewrite decide_True].
    eapply extends_trans; [exact HX|]. apply with_status_extends.
Qed.

Lemma read_status b st : status_of v b = Some st → get_status (vp_statuses_store v) b = Ok st.
Proof using. intros Hst. cbn [get_status db_statuses_reader]. unfold read_access. unfold status_of in Hst. by rewrite Hst. Qed.

Lemma read_header b x : headers_access (hp_headers_store hp) !! b = Some x → get_header (hp_headers_store hp) b = Ok (lv_header x).
Proof using. intros Hx. cbn [get_header db_header_reader]. unfold read_access. by rewrite Hx. Qed.

Lemma read_gd b d : m !! b = Some d → get_gd_data (hp_ghostdag_store hp) b = Ok d.
Proof using HC. intros Hd. rewrite (law_data _ _ (hi_gd _ _ _ (main_headers v HC))). unfold read_field. cbn. unfold hp_data in Hd. by rewrite Hd. Qed.

Lemma resolve_block {E} acc : resolved v sp acc →
  runs_unless (crashes (vp_body v) cur) (resolve_chain_block (E:=E) acc (sp, cur)) v (λ acc' v', chain_inv v' ∧ extends_chain v v' ∧ resolved v' cur acc').
Proof using HC Hsrc Hgd Hne Hbody IL ML.
  intros Hsp. unfold resolve_chain_block. apply unless_bind, unless_get. unfold get_utxo_diff, read_access.
  change (ud_access (vp_utxo_diffs_store v) !! cur) with (diff_of v cur). destruct (diff_of v cur) as [d|] eqn:Hd.
  { destruct Hsp as [Hre|Hst].
    - destruct (up_stored acc d (E:=E) Hd Hre) as (acc' & Hacc & Hre'). eapply unless_lift; [exact Hacc|].
      split_and!; [done|apply extends_refl|by left].
    - exfalso. destruct (ci_diffs _ HC cur d Hd) as (U & A & M & D & HV & _). by apply (below_disqualified Hst U A M D). }
  destruct Hsp as [Hre|Hst].
  2:{ apply unless_bind. eapply unless_lift; [by rewrite (read_status _ _ Hst)|].
      rewrite bool_decide_eq_true_2 by done. apply unless_runs, disqualified_run; [done|apply extends_refl|by apply below_disqualified]. }
  destruct (re_valid _ _ _ Hre) as [dsp Hdsp]. destruct (ci_diffs _ HC sp dsp Hdsp) as (Usp & Asp & Msp & Dsp & HVsp & _ & u & Hu & Hcom).
  destruct (re_state _ _ _ Hre) as (A & M & D & HV). destruct (valid_unique _ _ _ _ _ _ _ _ _ _ HV HVsp) as (-> & _).
  assert (status_of v sp = Some StatusUTXOValid) as Hst by (apply (ci_status _ HC); eauto).
  apply unless_bind. eapply unless_lift; [by rewrite (read_status _ _ Hst)|]. rewrite bool_decide_eq_false_2 by done.
  destruct (up_verified _ _ _ _ HV) as (x & Hx & Hver).
  apply unless_bind. eapply unless_lift; [by rewrite (read_header _ _ Hx)|].
  apply unless_bind. eapply unless_lift; [by rewrite (read_gd cur gd Hgd)|].
  apply unless_bind. eapply unless_lift; [unfold get_multiset, read_access; by rewrite Hu|].
  apply unless_bind. cbn [lv_header]. cbn zeta.
  specialize (Hver _ _ (compose (vp_utxo_set v) acc) (from_uint3072 u) (vp_sig_cache v) (composed_shows _ acc _ (utxo_set_shows _)) Hcom (ci_cache _ HC)).
  apply run_utxo_ok. unfold runs_unless in Hver.
  destruct (calculate_utxo_state _ _ _ _) as [[[]|?| |] [c cache]]; [|done|exact Hver|done]. cbn beta iota.
  apply unless_bind, run_utxo_ok. cbn [vp_sig_cache set_vp_cache]. unfold verified in Hver.
  destruct (verify_expected_utxo_state _ _ _ _) as [[[]|e| |] [c' cache']]; [| |exact Hver|done]; cbn beta iota.
  - destruct Hver as (Hcache & Hap & A' & M' & D' & y & HV' & Hmu & Hcom').
    change (set_vp_cache cache' (set_vp_cache cache v)) with (set_vp_cache cache' v).
    destruct (cache_inv v cache' HC Hcache) as [HCw HXw].
    destruct (accumulate_run (E:=E) acc (uc_mergeset_diff c') V (re_applies _ _ _ Hre) Hap) as (acc' & Hacc & Ha' & He').
    { apply (sourced_coherent _ _ (main_bodies v HC)); [done|]. intros o e Ho. apply (valid_sourced v HC _ _ _ _ _ HV').
      by apply lookup_union_Some_l. }
    apply unless_bind. eapply unless_lift; [exact Hacc|].
    destruct (commit_run (E:=E) (set_vp_cache cache' v) cur (uc_mergeset_diff c') y _ A' M' D' HCw Hd Hbody Hne HV') as [Hrun Hinv].
    { exists gd, (apply acc V), A, M, D. split_and!; [done|done|eauto|done|done]. }
    { done. }
    apply unless_bind. eapply unless_intro; [rewrite Hmu; exact Hrun|]. apply unless_ret. split_and!; [exact Hinv| |].
    + eapply extends_trans; [exact HXw|by apply commit_extends].
    + left. split; [exact Ha'| |rewrite commit_diff, decide_True by done; eauto]. exists A', M', D'.
      apply (extends_valid (set_vp_cache cache' v)); [by apply commit_extends|]. rewrite <- He' in HV'. exact HV'.
  - destruct Hver as [Hcache Hinv]. destruct (cache_inv v cache' HC Hcache) as [HCw HXw]. by apply unless_runs, disqualified_run.
Qed.
End up.

(** ** The whole walk *)

Section walk_to.
Context (v : VirtualStateProcessor) (HC : chain_inv v).
Local Abbreviation hp := (vp_stores v).
Local Abbreviation m := (hp_data hp).
Local Abbreviation BT := (bt_access (bp_block_transactions_store (vp_body v))).
Local Abbreviation V := (us_access (vp_utxo_set v)).

(** [rest] continues [c]: each block has the one before as its selected parent. *)
Fixpoint linked (c : Hash) (rest : list Hash) : Prop :=
  match rest with
  | [] => True
  | b :: rest => (∃ gd, m !! b = Some gd ∧ selected_parent gd = c) ∧ b ≠ genesis_of v ∧ is_Some (BT !! b) ∧ linked b rest
  end.

Lemma linked_snoc c rest b gd : linked c rest → last (c :: rest) = Some (selected_parent gd) → m !! b = Some gd → b ≠ genesis_of v →
  is_Some (BT !! b) → linked c (rest ++ [b]).
Proof using.
  revert c. induction rest as [|x rest IH]; intros c Hl Hlast Hgd Hne Hb; cbn [linked app] in *.
  - split_and!; [|done..]. exists gd. split; [done|]. by injection Hlast.
  - destruct Hl as (H1 & H2 & H3 & Hl). split_and!; [done..|]. by apply IH.
Qed.

Lemma path_linked a b l : path (Memory.map (abs (hp_reachability_store hp))) a b l → is_Some (m !! a) → is_Some (BT !! b) →
  ∃ rest, l = a :: rest ∧ last l = Some b ∧ linked a rest.
Proof using HC.
  intros Hl Ha. pose proof (main_headers v HC) as HH. pose proof (hi_dag _ _ _ HH) as HG. pose proof (hi_reach _ _ _ HH) as HR.
  induction Hl as [Hd|b d l Hd Hl IH]; intros Hb; [by exists []|].
  assert (is_Some (m !! b)) as Hmb by (by apply (known_body W _ P (ci_body _ HC))).
  destruct (chain_parent_known _ P m _ _ HG HR a b d Ha Hd Hmb) as (gd & gp & Hgd & Hp & Hgp & _); [apply path_chain; eauto|].
  assert (b ≠ genesis_of v) as Hne.
  { intros ->. unfold genesis_of, vp_params in Hgd. rewrite (gd_genesis_data _ _ _ _ HG) in Hgd. injection Hgd as <-.
    change (selected_parent _) with Hashes.ORIGIN in Hgp. by rewrite (origin_unknown P m _ _ HG) in Hgp. }
  assert (is_Some (P !! b)) as [ps Hps] by (apply (gd_dom _ _ _ _ HG); eauto).
  destruct (parents_body W (vp_body v) P (ci_body _ HC) b ps gd Hb Hne Hps Hgd) as [HD Hpb].
  destruct IH as (rest & -> & Hlast & Hlink); [rewrite Hp; apply Hpb, (gb_selected _ _ _ _ _ HD)|].
  exists (rest ++ [b]). split_and!; [done|by rewrite last_snoc|]. rewrite Hp in Hlast. by eapply linked_snoc.
Qed.

Lemma extends_linked w : extends_chain v w →
  bt_access (bp_block_transactions_store (vp_body w)) = BT ∧ hp_data (vp_stores w) = m ∧ genesis_of w = genesis_of v ∧ us_access (vp_utxo_set w) = V.
Proof using.
  intros HX. unfold vp_stores, genesis_of, vp_params, vp_stores, vp_utxo_set. rewrite (ec_virtual _ _ HX). by destruct (ec_body _ _ HX) as [y ->].
Qed.

Lemma linked_chain c rest b : linked c rest → last (c :: rest) = Some b → sel_chain m c b.
Proof using.
  revert c. induction rest as [|x rest IH]; intros c Hl Hlast; cbn [linked] in Hl; [injection Hlast as ->; constructor|].
  destruct Hl as ((gd & Hgd & <-) & _ & _ & Hl). eapply sel_chain_trans; [|by apply IH]. eapply sc_step; [done|constructor].
Qed.

(** A block of the selected chain of [b] crashes the node. *)
Definition chain_crashes (b : Hash) : Prop := ∃ x, sel_chain m x b ∧ crashes (vp_body v) x.

(** Up the chain from a block that is reached. *)
Lemma walk_up_run {E} c rest b acc : sourced BT V → linked c rest → last (c :: rest) = Some b → resolved v c acc →
  runs_unless (chain_crashes b) (for_fold (tuple_windows (c :: rest)) (resolve_chain_block (E:=E)) acc) v
    (λ acc' w, chain_inv w ∧ extends_chain v w ∧ resolved w b acc').
Proof using HC IL ML.
  intros Hsrc Hl Hlast Hres.
  apply (unless_for_fold _ (λ pairs acc w, ∃ c rest, pairs = tuple_windows (c :: rest) ∧ linked c rest ∧ last (c :: rest) = Some b
    ∧ chain_inv w ∧ extends_chain v w ∧ resolved w c acc)).
  - clear c rest acc Hl Hlast Hres. intros [x y] pairs acc w (c & rest & Hp & Hl & Hlast & Hw & HX & Hres).
    destruct rest as [|z rest]; [done|]. change (tuple_windows (c :: z :: rest)) with ((c, z) :: tuple_windows (z :: rest)) in Hp.
    injection Hp as -> -> ->. destruct Hl as ((gd & Hgd & <-) & Hne & Hb & Hl). destruct (extends_linked w HX) as (E1 & E2 & E3 & E4).
    eapply unless_mono; [apply (resolve_block w Hw); [by rewrite E1, E4|by rewrite E2|by rewrite E3|by rewrite E1|exact Hres]| |].
    { intros Hcr. exists z. split; [by eapply linked_chain|]. destruct (ec_body _ _ HX) as [y Hy]. rewrite Hy in Hcr. by apply crash_statuses in Hcr. }
    intros acc' w' (Hw' & HX' & Hres'). exists z, rest. split_and!; [done|done|done|done|by eapply extends_trans|done].
  - intros acc' w (c' & rest' & Hp & _ & Hlast' & Hw & HX & Hres'). destruct rest' as [|? ?]; [|done]. injection Hlast' as ->. done.
  - exists c, rest. split_and!; [done..|apply extends_refl|done].
Qed.
End walk_to.

(** From the virtual selected parent to any block with a body. *)
Lemma walk_to_run {E} v vs b : virtual_inv v → vst_access (vp_state_store v) = Some vs →
  is_Some (bt_access (bp_block_transactions_store (vp_body v)) !! b) → (size (hp_data (vp_stores v)) < fuel)%nat →
  runs_unless (chain_crashes v b) (walk_to (E:=E) fuel vs b) v (λ acc w, chain_inv w ∧ extends_chain v w ∧ resolved w b acc).
Proof using IL ML.
  intros [HC (vs' & Hvs' & [HU Hval Hsrc] & _)] Hvs Hb Hfuel. assert (vs' = vs) as -> by congruence.
  pose proof (main_headers v HC) as HH. pose proof (hi_dag _ _ _ HH) as HG. pose proof (hi_reach _ _ _ HH) as HR.
  assert (is_Some (hp_data (vp_stores v) !! b)) as Hmb by (by apply (known_body W _ P (ci_body _ HC))).
  destruct HU as (U & A & M & D & HV & Hap & HVU). destruct (reversed_ok _ _ Hap) as [Hr1 Hr2]. rewrite <- HVU in Hr1, Hr2.
  destruct (walk_down_run v HC Hsrc Hfuel (E:=E) (selected_parent (vs_ghostdag_data vs)) b (to_reversed (vs_utxo_diff vs))) as (c & acc & Hrun & Hsel & Hre).
  { split; [by destruct Hr1; split| |done]. exists A, M, D. by rewrite to_reversed_same, Hr2. }
  { done. }
  destruct (valid_known v HC c (re_valid _ _ _ Hre)) as [_ Hmc]. apply (chain_sel _ P _ _ _ HG HR c b Hmc Hmb), path_chain in Hsel as [l Hl].
  destruct (path_linked v HC c b l Hl Hmc Hb) as (rest & -> & Hlast & Hlink).
  unfold walk_to. apply unless_bind, unless_get. apply unless_bind. eapply unless_lift; [exact Hrun|]. cbn beta iota. apply unless_bind.
  eapply unless_lift.
  { erewrite forward_collect; [reflexivity| |exact Hl|]. 
    - intros i. destruct (ck_state _ _ _ HR) as [t Ht]. exists t. split_and!; [apply (di_rep _ _ _ Ht)|apply (di_idx _ _ _ Ht)|]. intros h d Hd. by exists d.
    - pose proof (path_length _ P _ _ _ HG HR _ _ _ Hl Hmc Hmb). lia. }
  apply walk_up_run; [done|done|done|done|by left].
Qed.
End main.
