(* ===== verification/VirtualParents.v ===== *)
(** * The parents of the virtual block

    [mergeset_increase] counts the blocks that a candidate adds to the mergeset, or
    names one that exceeds the budget.  [pick_virtual_parents] ends and returns an
    antichain of at most [max_block_parents] blocks with the selected parent first,
    whose mergeset is within the limit and within the merge depth. *)

From S2P Require Import Prelude Hash Uint Interval ReachStore ReachSim ReachTree ReachQuery ReachDag ReachMain ReachService Relations Headers GhostdagStore Ghostdag GhostdagInv GhostdagMerge GhostdagRun Window WindowProof DifficultyProof Stores Depth SelectedChain DepthProof Errors HeaderProcessor HeaderInv HeaderValidate Tx TxValidator VirtualProcessor VirtualCalc VirtualChain.

Section parents.
Context (fuel : nat) (W : Z) (s : HeaderProcessor) (P : Dag) (HI : hp_inv W s P).
Local Abbreviation m := (hp_data s).
Local Abbreviation g := (p_genesis_hash (hp_params s)).
Local Abbreviation K := (p_ghostdag_k (hp_params s)).

Lemma dag_inv_of : gd_dag P m g K.
Proof using HI. apply (hi_dag _ _ _ HI). Qed.
Lemma known_of h : is_Some (m !! h) → is_Some (P !! h).
Proof using HI. apply (known_dag _ _ _ _ dag_inv_of). Qed.

(** ** What a candidate adds *)

Section increase.
Context (sps : list Hash) (Hsps : sps ≠ []) (Hknown : ∀ p, p ∈ sps → is_Some (m !! p)).

Definition covered (x : Hash) : Prop := ∃ p, p ∈ sps ∧ ancestor P x p.
Definition adds (c x : Hash) : Prop := ancestor P x c ∧ ¬ covered x.

Lemma covered_genesis : covered g.
Proof using HI Hsps Hknown.
  assert (∃ p, p ∈ sps) as [p Hp] by (clear -Hsps; destruct sps as [|p l]; [done|exists p; left]).
  exists p. split; [done|]. by apply (gd_root _ _ _ _ dag_inv_of), Hknown.
Qed.

Lemma covered_origin : covered Hashes.ORIGIN.
Proof using HI Hsps Hknown.
  destruct covered_genesis as (p & Hp & Ha). exists p. split; [done|]. eapply ancestor_trans; [|exact Ha].
  econstructor; [apply (gd_genesis _ _ _ _ dag_inv_of)|left|constructor].
Qed.

Lemma covered_down x y : ancestor P x y → covered y → covered x.
Proof using. intros Hx (p & Hp & Ha). exists p. split; [done|]. by eapply ancestor_trans. Qed.

Lemma adds_known c x : is_Some (m !! c) → adds c x → is_Some (m !! x) ∧ x ≠ g.
Proof using HI Hsps Hknown.
  intros Hc [Ha Hn]. split.
  - apply (gd_dom _ _ _ _ dag_inv_of). split; [intros ->; apply Hn, covered_origin|].
    eapply ancestor_known; [apply (gd_closed _ _ _ _ dag_inv_of)|by apply known_of|done].
  - intros ->. apply Hn, covered_genesis.
Qed.

(** The parents of a block that is added. *)
Lemma adds_parents c x : is_Some (m !! c) → adds c x → ∃ qs, P !! x = Some qs ∧ NoDup qs
  ∧ get_parents (hp_relations_store s) x = Ok qs ∧ ∀ q, q ∈ qs → is_Some (m !! q) ∧ ancestor P q c ∧ q ≠ c.
Proof using HI Hsps Hknown.
  intros Hc Hx. destruct (adds_known c x Hc Hx) as [Hmx Hg]. destruct (known_of x Hmx) as [qs Hqs]. exists qs.
  split_and!; [done|by apply (ri_distinct _ _ (hi_relations _ _ _ HI) x)|by apply (mk_relations _ _ _ (inv_manager _ _ _ HI))|].
  destruct Hmx as [d Hd]. pose proof (gd_blocks _ _ _ _ dag_inv_of x qs d Hqs Hd Hg) as HB. intros q Hq.
  assert (ancestor P q x) as Hqx by (econstructor; [exact Hqs|exact Hq|constructor]). pose proof (gb_parents _ _ _ _ _ HB q Hq) as Hmq.
  split_and!; [done|eapply ancestor_trans; [exact Hqx|apply Hx]|]. intros ->.
  pose proof (gb_work _ _ _ _ _ HB c Hq) as Hlt. rewrite <- (work_of_data _ x d Hd) in Hlt.
  destruct (ancestor_work _ _ _ _ dag_inv_of x c (proj1 Hx)) as [->|?]; [eauto|done|lia|lia].
Qed.

(** The parents that were not seen are appended. *)
Lemma push_new qs queue (visited : gset Hash) : ∃ new,
  foldl (λ '(queue, visited) parent, if bool_decide (parent ∈ (visited : gset Hash)) then (queue, visited)
    else (queue ++ [parent], {[parent]} ∪ visited)) (queue, visited) qs = (queue ++ new, list_to_set new ∪ visited)
  ∧ NoDup new ∧ (∀ x, x ∈ new → x ∈ qs ∧ x ∉ visited) ∧ (∀ x, x ∈ qs → x ∈ new ∨ x ∈ visited).
Proof using.
  clear. revert queue visited. induction qs as [|y qs IH]; intros queue visited; cbn [foldl].
  { exists []. rewrite app_nil_r. split_and!; [f_equal; set_solver|constructor|set_solver|set_solver]. }
  case_bool_decide as Hy.
  - destruct (IH queue visited) as (new & -> & Hnd & Hnew & Hall). exists new. set_solver.
  - destruct (IH (queue ++ [y]) ({[y]} ∪ visited)) as (new & -> & Hnd & Hnew & Hall). exists (y :: new).
    split_and!; [f_equal; [by rewrite <- app_assoc|set_solver]|constructor; [|done]; intros Hin; set_solver|set_solver|set_solver].
Qed.

Record increasing (c : Hash) (budget : Z) (n : nat) (st : list Hash * gset Hash * Z) : Prop := {
  ic_visited x : x ∈ st.1.2 → is_Some (m !! x) ∧ ancestor P x c ∧ x ≠ c;
  ic_queue x : x ∈ st.1.1 → x ∈ st.1.2;
  ic_nodup : NoDup st.1.1;
  ic_counted : ∃ X : gset Hash, st.2 = Z.of_nat (size X) ∧ c ∈ X ∧ (∀ x, x ∈ X → adds c x ∧ (x ∉ st.1.1) ∧ (x = c ∨ x ∈ st.1.2))
    ∧ (∀ x qs q, x ∈ X → P !! x = Some qs → q ∈ qs → q ∈ st.1.2)
    ∧ (∀ x, x ∈ st.1.2 → x ∈ st.1.1 ∨ x ∈ X ∨ covered x);
  ic_budget : st.2 ≤ budget;
  ic_measure : n = (length st.1.1 + (size m - size st.1.2))%nat;
}.

Definition increase_result (c : Hash) (budget : Z) (r : MergesetIncreaseResult) : Prop :=
  match r with
  | Accepted n => n ≤ budget ∧ ∃ X : gset Hash, n = Z.of_nat (size X) ∧ ∀ x, x ∈ X ↔ adds c x
  | Rejected x => adds c x ∧ x ≠ c
  end.

Lemma known_bound (X : gset Hash) : (∀ x, x ∈ X → is_Some (m !! x)) → (size X ≤ size m)%nat.
Proof using.
  clear. intros HX. rewrite <- (size_dom (D:=gset Hash) m). apply subseteq_size. intros x Hx. by apply elem_of_dom, HX.
Qed.

Lemma increase_counted c (X visited : gset Hash) : ¬ covered c → c ∈ X → (∀ x, x ∈ X → adds c x) →
  (∀ x qs q, x ∈ X → P !! x = Some qs → q ∈ qs → q ∈ visited) → (∀ x, x ∈ visited → x ∈ X ∨ covered x) →
  ∀ x, x ∈ X ↔ adds c x.
Proof using.
  clear. intros Hc HcX HX Hcl Hvis x. split; [apply HX|]. intros [Ha Hn]. clear Hc HX. revert HcX.
  induction Ha as [|y qs q Hq Hin Ha IH]; intros Hy; [done|]. apply IH.
  destruct (Hvis q) as [?|Hcov]; [by eapply Hcl|done|]. destruct Hn. by eapply covered_down.
Qed.

Lemma increase_run {E} c budget : is_Some (m !! c) → ¬ covered c → 1 ≤ budget → Z.of_nat (size m) < u64_max → (size m < fuel)%nat →
  ∃ r, mergeset_increase (E:=E) fuel s sps c budget = Ok r ∧ increase_result c budget r.
Proof using HI Hsps Hknown.
  intros Hc Hn Hb Hsize Hfuel. assert (adds c c) as Hcc by (split; [constructor|done]).
  destruct (adds_parents c c Hc Hcc) as (qs & Hqs & Hnd & Hget & Hqk). unfold mergeset_increase. rewrite Hget. cbn [unwrap mbind outcome_bind].
  apply (oloop_ok (increasing c budget) _ _ fuel (length qs + (size m - size (list_to_set qs : gset Hash)))).
  - intros n [[[|x queue] visited] inc] [F1 F2 F3 (X & Hinc & F4 & F5 & F6 & F7) F8 F9]; cbn [fst snd] in *; subst inc.
    { exists (inr (Accepted (Z.of_nat (size X)))). split; [done|]. split; [done|]. exists X. split; [done|].
      apply (increase_counted c X visited); [done|done|intros; by apply F5|done|]. intros x Hx.
      destruct (F7 x Hx) as [Hq|?]; [by apply elem_of_nil in Hq|done]. }
    unfold increase_step. destruct (F1 x) as (Hmx & Hxc & Hne); [apply F2; left|].
    pose proof (inv_service _ _ _ HI) as HS.
    destruct (sl_of_any x sps (known_of x Hmx)) as (b & Hb' & Hiff); [apply Forall_forall; intros p Hp; by apply known_of, Hknown|].
    rewrite Hb'. cbn [unwrap mbind outcome_bind]. apply NoDup_cons in F3 as [Hxq F3]. destruct b.
    { eexists. split; [reflexivity|]. exists (length queue + (size m - size visited))%nat. split; [|cbn in F9; lia]. split; cbn [fst snd].
      - done.
      - intros y Hy. apply F2. by right.
      - done.
      - exists X. split_and!; [done|done| |done|].
        + intros y Hy. destruct (F5 y Hy) as (? & Hyq & ?). split_and!; [done| |done]. intros Hin. apply Hyq. by right.
        + intros y Hy. destruct (F7 y Hy) as [[->|?]%elem_of_cons|?]; [right; right; by apply Hiff|by left|by right].
      - done.
      - done. }
    assert (adds c x) as Hx.
    { split; [done|]. intros Hcov. by assert (false = true) by (by apply Hiff). }
    assert (x ∉ X) as HxX by (intros Hin; destruct (F5 x Hin) as (_ & Hq & _); apply Hq; left).
    assert (∀ y, y ∈ {[x]} ∪ X → is_Some (m !! y)) as HX.
    { intros y [->%elem_of_singleton|Hy]%elem_of_union; [done|]. by apply (adds_known c y Hc), F5. }
    pose proof (known_bound _ HX) as HsX. rewrite size_union, size_singleton in HsX by set_solver.
    rewrite add64_ok by lia. cbn [mbind outcome_bind]. destruct (Z.ltb_spec budget (Z.of_nat (size X) + 1)) as [Hlt|Hle].
    { eexists. split; [reflexivity|]. by split. }
    destruct (adds_parents c x Hc Hx) as (rs & Hrs & _ & Hget' & Hrk). rewrite Hget'. cbn [unwrap mbind outcome_bind].
    destruct (push_new rs queue visited) as (new & -> & Hnew & Hin & Hall). eexists. split; [reflexivity|].
    eexists. split; [split; cbn [fst snd]; [..|reflexivity]|].
    + intros y [Hy%elem_of_list_to_set|Hy]%elem_of_union; [|by apply F1]. destruct (Hin y Hy). by apply Hrk.
    + intros y [Hy|Hy]%elem_of_app; [apply elem_of_union_r, F2; by right|by apply elem_of_union_l, elem_of_list_to_set].
    + apply NoDup_app. split_and!; [done| |done]. intros y Hy Hy'. destruct (Hin y Hy') as [_ Hv]. apply Hv, F2. by right.
    + exists ({[x]} ∪ X). split_and!.
      * rewrite size_union, size_singleton by (clear -HxX; set_solver). lia.
      * by apply elem_of_union_r.
      * intros y [->%elem_of_singleton|Hy]%elem_of_union.
        -- split_and!; [done| |right; apply elem_of_union_r, F2; left]. intros [Hq|Hq]%elem_of_app; [done|].
           destruct (Hin x Hq) as [_ Hv]. apply Hv, F2. left.
        -- destruct (F5 y Hy) as (Hay & Hyq & Hvis). split_and!; [done| |destruct Hvis; [by left|right; by apply elem_of_union_r]].
           intros [Hq|Hq]%elem_of_app; [apply Hyq; by right|]. destruct (Hin y Hq) as [Hyr Hv]. destruct Hvis as [->|?]; [|done].
           by destruct (Hrk c Hyr) as (_ & _ & ?).
      * intros y ys q [->%elem_of_singleton|Hy]%elem_of_union Hys Hq.
        -- rewrite Hrs in Hys. injection Hys as <-. destruct (Hall q Hq); [by apply elem_of_union_l, elem_of_list_to_set|by apply elem_of_union_r].
        -- apply elem_of_union_r. by eapply F6.
      * intros y [Hy%elem_of_list_to_set|Hy]%elem_of_union; [left; apply elem_of_app; by right|].
        destruct (F7 y Hy) as [[->|?]%elem_of_cons|[?|?]]; [right; left; by apply elem_of_union_l, elem_of_singleton
          |left; apply elem_of_app; by left|right; left; by apply elem_of_union_r|by right; right].
    + lia.
    + assert (∀ y, y ∈ (list_to_set new : gset Hash) ∪ visited → is_Some (m !! y)) as Hk.
      { intros y [Hy%elem_of_list_to_set|Hy]%elem_of_union; [|by apply F1]. destruct (Hin y Hy). by apply Hrk. }
      pose proof (known_bound _ Hk) as Hkb. rewrite length_app.
      rewrite size_union, size_list_to_set in Hkb |- * by (done || (clear -Hin; set_solver)). cbn [length] in F9. lia.
  - split; cbn [fst snd].
    + intros x Hx%elem_of_list_to_set. by apply Hqk.
    + intros x Hx. by apply elem_of_list_to_set.
    + done.
    + exists {[c]}. rewrite size_singleton. split_and!; [done|by apply elem_of_singleton|..].
      * intros x ->%elem_of_singleton. split_and!; [done| |by left]. intros Hx. by destruct (Hqk c Hx) as (_ & _ & ?).
      * intros x xs q ->%elem_of_singleton Hxs Hq. rewrite Hqs in Hxs. injection Hxs as <-. by apply elem_of_list_to_set.
      * intros x Hx%elem_of_list_to_set. by left.
    + done.
    + done.
  - pose proof (size_list_to_set (C:=gset Hash) qs Hnd) as Hsz.
    pose proof (known_bound (list_to_set qs) ltac:(intros x Hx%elem_of_list_to_set; by apply Hqk)). lia.
Qed.
End increase.

(** ** The order of the candidates *)

Lemma swap_perm {E A} i j (l : list A) : (i < length l)%nat → (j < length l)%nat → ∃ l', swap_at (E:=E) i j l = Ok l' ∧ l' ≡ₚ l.
Proof using.
  clear. intros Hi Hj. destruct (lookup_lt_is_Some_2 l i Hi) as [x Hx]. destruct (lookup_lt_is_Some_2 l j Hj) as [y Hy].
  unfold swap_at. rewrite Hx, Hy. cbn [unwrap_opt mbind outcome_bind]. eexists. split; [reflexivity|].
  apply Permutation_inj. split; [by rewrite !length_insert|].
  exists (λ k, if decide (k = i) then j else if decide (k = j) then i else k). split.
  - intros a b. repeat case_decide; lia.
  - intros k. destruct (decide (k = j)) as [->|Hkj].
    + rewrite list_lookup_insert_eq by (by rewrite length_insert). destruct (decide (j = i)) as [->|]; [by rewrite Hx|]. by rewrite Hx.
    + rewrite list_lookup_insert_ne by done. destruct (decide (k = i)) as [->|]; [by rewrite list_lookup_insert_eq, Hy|].
      by rewrite list_lookup_insert_ne by done.
Qed.

Lemma swaps_run {E A} start n (l : list A) j : (start + n ≤ length l)%nat → Z.of_nat n ≤ j < Z.of_nat (length l) → j ≤ u64_max →
  ∃ l' j', ofold (λ '(candidates, j) i,
        candidates ← swap_at i (Z.to_nat j) candidates;
        j ← sub64 j 1;
        mret (candidates, j)) (l, j) (seq start n) = (Ok (l', j') : outcome E _) ∧ l' ≡ₚ l.
Proof using.
  clear. revert start l j. induction n as [|n IH]; intros start l j Hs Hj Hu; cbn [seq ofold]; [eauto|].
  destruct (swap_perm (E:=E) start (Z.to_nat j) l) as (l1 & -> & Hp); [lia|lia|]. cbn [mbind outcome_bind].
  rewrite sub64_ok by lia. cbn [mbind outcome_bind mret outcome_ret]. pose proof (Permutation_length Hp) as Hl.
  destruct (IH (S start) l1 (j - 1)) as (l2 & j' & Hr & Hp'); [lia|lia|lia|]. exists l2, j'. split; [exact Hr|by rewrite Hp'].
Qed.

Lemma order_run {E} sp tips mbp : NoDup tips → (∀ t, t ∈ tips → is_Some (m !! t)) → 1 ≤ mbp → Z.of_nat (length tips) ≤ u64_max →
  ∃ cands, order_candidates (E:=E) s sp tips mbp = Ok cands ∧ NoDup cands ∧ ∀ c, c ∈ cands → c ∈ tips ∧ c ≠ sp.
Proof using HI.
  intros Hnd Hk Hm Hu. unfold order_candidates.
  rewrite (omap_each_ok _ (as_sortable m)).
  2:{ intros x [_ Hx]%list_elem_of_filter. apply (manager_sortable (hp_ghostdag_manager s) P m (inv_manager _ _ _ HI)), Hk, Hx. }
  cbn [mbind outcome_bind]. set (sorted := merge_sort _ _). set (cands := sb_hash <$> take _ sorted).
  assert (sb_hash <$> sorted ≡ₚ filter (λ h, h ≠ sp) tips) as Hp.
  { unfold sorted. rewrite merge_sort_Permutation. rewrite <- list_fmap_compose.
    change (sb_hash ∘ as_sortable m <$> ?l) with ((λ h : Hash, h) <$> l). by rewrite list_fmap_id. }
  assert (cands `sublist_of` (sb_hash <$> sorted)) as Hsub by (apply fmap_sublist, sublist_take).
  assert (NoDup cands ∧ (∀ c, c ∈ cands → c ∈ tips ∧ c ≠ sp) ∧ (length cands ≤ length tips)%nat) as (Hc1 & Hc2 & Hc3).
  { split_and!.
    - eapply sublist_NoDup; [|exact Hsub]. rewrite Hp. by apply NoDup_filter.
    - intros c Hc. eapply elem_of_sublist in Hc; [|exact Hsub]. rewrite Hp in Hc. apply list_elem_of_filter in Hc as [? ?]. done.
    - etrans; [by apply sublist_length|]. rewrite Hp. apply length_filter. }
  destruct (Z.leb_spec mbp (zlen cands)) as [Hle|]; [|by exists cands]. unfold zlen in Hle.
  rewrite (sub64_ok mbp 1) by lia. unfold zlen. rewrite (sub64_ok (Z.of_nat (length cands)) 1) by lia.
  cbn [mbind outcome_bind].
  assert (0 ≤ (mbp - 1) / 2 ≤ mbp - 1) as Hhalf by (split; [apply Z.div_pos; lia|apply Z.div_le_upper_bound; lia]).
  destruct (swaps_run (E:=E) (Z.to_nat ((mbp - 1) / 2)) (Z.to_nat (mbp - 1 - (mbp - 1) / 2)) cands (Z.of_nat (length cands) - 1))
    as (l' & j' & -> & Hp'); [lia|lia|lia|]. cbn [mbind outcome_bind mret outcome_ret]. exists l'. split_and!; [done|by rewrite Hp'|].
  intros c. rewrite Hp'. apply Hc2.
Qed.

(** ** The selection *)

Lemma filter_of_ok {E A} (f : A → outcome E bool) (Q : A → Prop) l : (∀ x, x ∈ l → ∃ b, f x = Ok b ∧ (b = true ↔ Q x)) →
  ∃ r, filter_of f l = Ok r ∧ r `sublist_of` l ∧ ∀ x, x ∈ r ↔ x ∈ l ∧ Q x.
Proof using.
  clear. induction l as [|x l IH]; intros Hf; cbn [filter_of].
  { exists []. split_and!; [done|done|]. intros y. split; [by intros ?%elem_of_nil|by intros [?%elem_of_nil _]]. }
  destruct (Hf x) as (b & -> & Hb); [left|]. cbn [mbind outcome_bind]. destruct IH as (r & -> & Hs & Hr); [intros y Hy; apply Hf; by right|].
  cbn [mbind outcome_bind mret outcome_ret]. eexists. split; [reflexivity|]. destruct b.
  - split; [by apply sublist_skip|]. intros y. rewrite !elem_of_cons, Hr. destruct Hb as [Hb _]. naive_solver.
  - split; [by apply sublist_cons|]. intros y. rewrite elem_of_cons, Hr. split; [naive_solver|].
    intros [[->|?] HQ]; [by apply Hb in HQ|done].
Qed.

(** The number of blocks with less blue work. *)
Definition rank (h : Hash) : nat := length (filter (λ y, work_of m y < work_of m h) (elements (dom m))).
Definition rank_sum (l : list Hash) : nat := sum_list (S ∘ rank <$> l).

Lemma rank_less x c : is_Some (m !! x) → work_of m x < work_of m c → (rank x < rank c)%nat.
Proof using.
  clear. intros Hx Hlt. unfold rank. assert (x ∈ elements (dom m)) as Hin by (by apply elem_of_elements, elem_of_dom).
  apply list_elem_of_split in Hin as (l1 & l2 & ->). rewrite !filter_app, !filter_cons.
  rewrite (decide_False (P := work_of m x < work_of m x)) by lia. rewrite decide_True by done. rewrite !length_app. cbn [length].
  assert (∀ l, (length (filter (λ y, (work_of m y < work_of m x)%Z) l) ≤ length (filter (λ y, (work_of m y < work_of m c)%Z) l))%nat) as Hl.
  { intros l. induction l as [|y l IH]; [done|]. rewrite !filter_cons. repeat case_decide; cbn [length]; lia. }
  pose proof (Hl l1). pose proof (Hl l2). lia.
Qed.

Lemma rank_bound h : (S (rank h) ≤ S (size m))%nat.
Proof using.
  clear. unfold rank. pose proof (length_filter (λ y, (work_of m y < work_of m h)%Z) (elements (dom m))) as Hl.
  rewrite <- (size_dom (D:=gset Hash) m). unfold size, set_size. cbn. lia.
Qed.

Lemma rank_sum_bound l : (rank_sum l ≤ length l * S (size m))%nat.
Proof using. clear. induction l as [|x l IH]; [done|]. cbn. pose proof (rank_bound x). unfold rank_sum in IH. lia. Qed.

Lemma rank_sum_sublist l k : l `sublist_of` k → (rank_sum l ≤ rank_sum k)%nat.
Proof using. clear. induction 1; cbn; unfold rank_sum in *; lia. Qed.

Lemma rank_sum_snoc l x : rank_sum (l ++ [x]) = (rank_sum l + S (rank x))%nat.
Proof using. clear. induction l as [|y l IH]; cbn; unfold rank_sum in *; [lia|]. cbn. lia. Qed.

Section pick.
Context (sp : Hash) (tips : list Hash) (mbp limit : Z).
Context (Hknown : ∀ t, t ∈ tips → is_Some (m !! t)) (Hchain : ∀ t u, t ∈ tips → u ∈ tips → ancestor P t u → t = u).
Context (Hsp : sp ∈ tips) (Hmax : ∀ t, t ∈ tips → sb_le (as_sortable m t) (as_sortable m sp)).
Context (Hsize : Z.of_nat (size m) < u64_max).

Record picked (cands parents : list Hash) (n : Z) : Prop := {
  pc_head : head parents = Some sp;
  pc_below x : x ∈ cands ++ parents → is_Some (m !! x) ∧ ∃ t, t ∈ tips ∧ ancestor P x t;
  pc_nodup : NoDup (cands ++ parents);
  pc_antichain x y : x ∈ cands ++ parents → y ∈ cands ++ parents → ancestor P x y → x = y;
  pc_merged : ∃ X : gset Hash, n = 1 + Z.of_nat (size X) ∧ ∀ x, x ∈ X ↔ merged P parents sp x;
  pc_size : n ≤ limit;
  pc_count : zlen parents ≤ mbp;
}.

Lemma picked_parents cands parents n : picked cands parents n → parents_ok P m parents.
Proof using.
  clear. intros [F1 F2 F3 F4 F5 F6 F7]. split.
  - by intros ->.
  - intros p Hp. apply F2, elem_of_app. by right.
  - intros p q Hp Hq. apply F4; apply elem_of_app; by right.
Qed.

Lemma covered_dec parents x : (∀ p, p ∈ parents → is_Some (m !! p)) → is_Some (P !! x) → covered parents x ∨ ¬ covered parents x.
Proof using HI.
  intros Hk Hx. pose proof (inv_service _ _ _ HI) as HS.
  destruct (sl_of_any x parents Hx) as (b & _ & Hiff); [apply Forall_forall; intros p Hp; by apply known_of, Hk|].
  destruct b; [left; by apply Hiff|right; intros Hc; by assert (false = true) by (by apply Hiff)].
Qed.

(** A parent more. *)
Lemma picked_add c cands parents n k (X : gset Hash) : picked (c :: cands) parents n → n + k ≤ limit → zlen parents < mbp →
  k = Z.of_nat (size X) → (∀ x, x ∈ X ↔ adds parents c x) → picked cands (parents ++ [c]) (n + k).
Proof using HI.
  intros [F1 F2 F3 F4 (Y & -> & HY) F6 F7] Hlim Hlen -> HX.
  assert (cands ++ parents ++ [c] ≡ₚ (c :: cands) ++ parents) as Hp.
  { rewrite app_assoc, Permutation_app_comm. done. }
  split.
  - by destruct parents.
  - intros x. rewrite Hp. apply F2.
  - by rewrite Hp.
  - intros x y. rewrite !Hp. apply F4.
  - exists (X ∪ Y). split.
    + rewrite size_union; [lia|]. intros x Hx%HX Hy%HY. apply (proj2 Hx). destruct Hy as [(p & Hp' & Ha) _]. by exists p.
    + intros x. rewrite elem_of_union, HX, HY. unfold merged, adds, covered. split.
      * intros [[Ha Hn]|[(p & Hp' & Ha) Hn]].
        -- split; [exists c; split; [apply elem_of_app; right; left|done]|]. intros Hs. apply Hn. exists sp. split; [|done].
           by apply head_Some_elem_of.
        -- split; [|done]. exists p. split; [apply elem_of_app; by left|done].
      * intros [(p & [Hp'|Hp'%list_elem_of_singleton]%elem_of_app & Ha) Hn]; [right; eauto|]. subst p.
        destruct (covered_dec parents x) as [?|?]; [| |right; split; done|by left].
        -- intros q Hq. apply F2, elem_of_app. by right.
        -- eapply ancestor_known; [apply (gd_closed _ _ _ _ dag_inv_of)|apply known_of, F2; left|exact Ha].
  - lia.
  - unfold zlen in *. rewrite length_app. cbn. lia.
Qed.

Lemma picked_sub cands cands' parents n : picked cands parents n → cands' `sublist_of` cands → picked cands' parents n.
Proof using.
  clear. intros [F1 F2 F3 F4 F5 F6 F7] Hs. assert (cands' ++ parents `sublist_of` cands ++ parents) as Hs' by (by apply sublist_app).
  split; [done|..|done|done|done].
  - intros x Hx. apply F2. by eapply elem_of_sublist.
  - by eapply sublist_NoDup.
  - intros x y Hx Hy. apply F4; by eapply elem_of_sublist.
Qed.

(** A block of the past of a candidate instead of the candidate. *)
Lemma picked_replace c cands cands' parents n x : picked (c :: cands) parents n → adds parents c x →
  (∀ y, y ∈ cands → ¬ ancestor P y x) → cands' `sublist_of` cands → (∀ y, y ∈ cands' → ¬ ancestor P x y) →
  picked (cands' ++ [x]) parents n.
Proof using HI.
  intros HP' [Hxc Hxn] Hup Hs Hdown. pose proof (picked_parents _ _ _ HP') as [Hne Hk _]. pose proof (picked_sub _ cands' _ _ HP' ltac:(by apply sublist_cons)) as HS.
  destruct HP' as [F1 F2 F3 F4 F5 F6 F7]. destruct HS as [G1 G2 G3 G4 _ _ _]. destruct (F2 c) as [Hmc (t & Ht & Hct)]; [left|].
  destruct (adds_known parents Hne Hk c x Hmc) as [Hmx _]; [done|].
  assert ((cands' ++ [x]) ++ parents ≡ₚ x :: (cands' ++ parents)) as Hp.
  { rewrite <- app_assoc. apply Permutation_sym, Permutation_middle. }
  assert (∀ y, y ∈ cands' ++ parents → ¬ ancestor P y x ∧ ¬ ancestor P x y) as Hinc.
  { intros y Hy. apply elem_of_app in Hy as [Hy|Hy].
    - split; [apply Hup; by eapply elem_of_sublist|by apply Hdown].
    - split; [|intros Ha; apply Hxn; by exists y]. intros Ha. assert (y = c) as ->.
      { apply F4; [apply elem_of_app; by right|left|by eapply ancestor_trans]. }
      apply NoDup_cons in F3 as [Hc _]. apply Hc, elem_of_app. by right. }
  split; [done|..|done|done|done].
  - intros y. rewrite Hp. intros [->|Hy]%elem_of_cons; [|by apply G2]. split; [done|]. exists t. split; [done|]. by eapply ancestor_trans.
  - rewrite Hp. apply NoDup_cons. split; [|done]. intros Hx. destruct (Hinc x Hx) as [Hn _]. apply Hn. constructor.
  - intros y z. rewrite !Hp. intros [->|Hy]%elem_of_cons [->|Hz]%elem_of_cons; [done|..|by apply G4].
    + by destruct (Hinc z Hz).
    + by destruct (Hinc y Hy).
Qed.

Lemma pick_step_run {E} c cands parents n : p_mergeset_size_limit (hp_params s) = limit → 0 ≤ limit ≤ u64_max →
  (size m < fuel)%nat → picked (c :: cands) parents n → 1 ≤ n →
  ∃ r, pick_step (E:=E) fuel s mbp (c :: cands, parents, n) = Ok r ∧ match r with
    | inl (cands', parents', n') => picked cands' parents' n' ∧ 1 ≤ n' ∧ (rank_sum cands' < rank_sum (c :: cands))%nat
    | inr (parents', n') => parents' = parents ∧ n' = n
    end.
Proof using HI Hsize.
  intros Hlim Hu Hfuel HP' Hn. unfold pick_step. rewrite Hlim. destruct (_ || _) eqn:Hstop; [eexists; split; [reflexivity|done]|].
  apply orb_false_iff in Hstop as [H1%Z.leb_gt H2%Z.leb_gt]. rewrite sub64_ok by lia. cbn [mbind outcome_bind].
  pose proof (picked_parents _ _ _ HP') as [Hne Hk _]. destruct (pc_below _ _ _ HP' c) as [Hmc _]; [left|].
  assert (¬ covered parents c) as Hc.
  { intros (p & Hp & Ha). assert (c = p) as ->.
    { apply (pc_antichain _ _ _ HP'); [left|apply elem_of_app; by right|done]. }
    pose proof (pc_nodup _ _ _ HP') as [Hd _]%NoDup_cons. apply Hd, elem_of_app. by right. }
  destruct (increase_run parents Hne Hk (E:=E) c (limit - n) Hmc Hc) as (r & -> & Hr); [lia|done|done|]. cbn [mbind outcome_bind].
  assert (rank_sum (c :: cands) = (S (rank c) + rank_sum cands)%nat) as Hrank by done.
  destruct r as [k|x]; cbn [increase_result] in Hr.
  - destruct Hr as [Hk' (X & -> & HX)]. rewrite add64_ok by lia. cbn [mbind outcome_bind mret outcome_ret].
    eexists. split; [reflexivity|]. split_and!; [by eapply picked_add; [done|lia|done|done|done]|lia|lia].
  - destruct Hr as [Hx Hxc]. destruct (adds_known parents Hne Hk c x Hmc Hx) as [Hmx _]. pose proof (inv_service _ _ _ HI) as HS.
    assert (∀ y, y ∈ cands → is_Some (P !! y)) as Hcands.
    { intros y Hy. apply known_of, (pc_below _ _ _ HP'), elem_of_app. left. by right. }
    destruct (sl_any cands x (known_of x Hmx)) as (b & Hb & Hiff); [by apply Forall_forall|]. rewrite Hb. cbn [unwrap mbind outcome_bind].
    destruct b.
    { eexists. split; [reflexivity|]. split_and!; [eapply picked_sub; [exact HP'|by apply sublist_cons]|done|lia]. }
    destruct (filter_of_ok (λ h, b ← vp_is_dag_ancestor_of (E:=E) s x h; mret (negb b)) (λ h, ¬ ancestor P x h) cands) as (cands' & Hf & Hs & Hin).
    { intros y Hy. unfold vp_is_dag_ancestor_of. destruct (sl_dag x y (known_of x Hmx) (Hcands y Hy)) as (b & Hb' & Hiff').
      rewrite Hb'. cbn [unwrap mbind outcome_bind mret outcome_ret]. exists (negb b). split; [done|]. destruct b; cbn [negb].
      - split; [done|]. intros Hna. destruct Hna. by apply Hiff'.
      - split; [intros _ Ha; by apply Hiff' in Ha|done]. }
    rewrite Hf. cbn [mbind outcome_bind mret outcome_ret]. eexists. split; [reflexivity|]. split_and!; [|done|].
    + eapply picked_replace; [exact HP'|exact Hx| |exact Hs|by intros y [_ Hy]%Hin].
      intros y Hy Ha. by assert (false = true) by (apply Hiff; by exists y).
    + assert (rank x < rank c)%nat as Hlt.
      { apply rank_less; [done|]. destruct (ancestor_work _ _ _ _ dag_inv_of x c (proj1 Hx) Hmx Hmc) as [?|?]; [done|lia]. }
      pose proof (rank_sum_sublist _ _ Hs). rewrite rank_sum_snoc. lia.
Qed.

Lemma sp_first : 1 ≤ limit → 1 ≤ mbp → ∀ cands, NoDup cands → (∀ c, c ∈ cands → c ∈ tips ∧ c ≠ sp) → picked cands [sp] 1.
Proof using Hknown Hchain Hsp.
  intros Hl Hm cands Hnd Hc. assert (∀ x, x ∈ cands ++ [sp] → x ∈ tips) as Hin.
  { intros x [Hx|Hx%list_elem_of_singleton]%elem_of_app; [by apply Hc|by rewrite Hx]. }
  split; [done|..|done|unfold zlen; cbn; lia].
  - intros x Hx. split; [by apply Hknown, Hin|]. exists x. split; [by apply Hin|constructor].
  - apply NoDup_app. split_and!; [done| |apply NoDup_singleton]. intros x Hx ->%list_elem_of_singleton. by destruct (Hc sp Hx).
  - intros x y Hx Hy. apply Hchain; by apply Hin.
  - exists ∅. split; [by rewrite size_empty|]. intros x. split; [by intros ?%elem_of_empty|]. intros [(p & ->%list_elem_of_singleton & Ha) Hn]. done.
Qed.

(** The selection before the merge bound. *)
Lemma pick_loop_run {E} cands : p_mergeset_size_limit (hp_params s) = limit → 1 ≤ limit ≤ u64_max → 1 ≤ mbp →
  (length tips * S (size m) < fuel)%nat → (size m < fuel)%nat → NoDup cands → (∀ c, c ∈ cands → c ∈ tips ∧ c ≠ sp) →
  ∃ parents n, oloop fuel (pick_step (E:=E) fuel s mbp) (cands, [sp], 1) = Ok (parents, n) ∧ picked [] parents n.
Proof using HI Hknown Hchain Hsp Hsize.
  intros Hlim Hu Hm Hf Hf' Hnd Hc.
  destruct (oloop_ok (λ k st, picked st.1.1 st.1.2 st.2 ∧ 1 ≤ st.2 ∧ k = rank_sum st.1.1) (pick_step (E:=E) fuel s mbp)
    (λ r, picked [] r.1 r.2) fuel (rank_sum cands) (cands, [sp], 1)) as ([parents n] & Hrun & Hres).
  - intros k [[l parents] n] (HP' & Hn & ->). cbn [fst snd] in *. destruct l as [|c l].
    { eexists. split; [reflexivity|]. done. }
    destruct (pick_step_run (E:=E) c l parents n Hlim ltac:(lia) Hf' HP' Hn) as (r & -> & Hr). eexists. split; [reflexivity|].
    destruct r as [[[l' ps'] n']|[ps' n']]; cbn [fst snd].
    + destruct Hr as (H1 & H2 & H3). eauto 6.
    + destruct Hr as [-> ->]. eapply picked_sub; [exact HP'|apply sublist_nil_l].
  - cbn [fst snd]. split_and!; [apply sp_first; [lia|done|done|done]|done|done].
  - assert (length cands ≤ length tips)%nat as Hlen.
    { apply submseteq_length, NoDup_submseteq; [done|]. intros x Hx. by apply Hc. }
    pose proof (rank_sum_bound cands). nia.
  - exists parents, n. done.
Qed.

(** The selected parent of the parents that were picked is [sp]. *)
Lemma tips_selected parents K' d : (∀ x, x ∈ parents → is_Some (m !! x) ∧ ∃ t, t ∈ tips ∧ ancestor P x t) → sp ∈ parents →
  gd_block P m K' parents d → selected_parent d = sp.
Proof using HI Hmax Hknown.
  intros Hbelow Hin HD.
  assert (as_sortable m (selected_parent d) = as_sortable m sp) as Heq; [|by injection Heq].
  apply (anti_symm sb_le); [|by apply (gb_max _ _ _ _ _ HD)].
  destruct (Hbelow (selected_parent d)) as [Hk (t & Ht & Ha)]; [apply (gb_selected _ _ _ _ _ HD)|].
  etrans; [|by apply Hmax]. destruct (ancestor_work _ _ _ _ dag_inv_of _ _ Ha Hk (Hknown t Ht)) as [->|Hlt]; [apply sb_le_lteq; by right|].
  apply sb_le_lteq. left. apply (proj1 (sb_cmp_spec _ _)). by left.
Qed.

(** ** The merge bound *)

Section bound.
Context (ps : list Hash) (d : GhostdagData) (HD : gd_block P m K ps d).

Lemma bad_reds_run root reds acc bads : (root = Hashes.ORIGIN ∨ is_Some (m !! root)) → (∀ r, r ∈ reds → is_Some (m !! r)) →
  (∀ bl, acc = Some bl → ∀ b, b ∈ bl ↔ b ∈ mergeset_blues d ∧ sel_chain m root b) →
  ∃ acc' bads', ofold (find_bad_red (E:=RuleError) s d root) (acc, bads) reds = Ok (acc', bads')
    ∧ ∀ r, r ∈ bads' ↔ r ∈ bads ∨ r ∈ reds ∧ ¬ mergeable s P d root r.
Proof using HI HD.
  intros Hroot. pose proof dag_inv_of as HG. pose proof (inv_service _ _ _ HI) as HS. revert acc bads.
  induction reds as [|r reds IH]; intros acc bads Hk Hacc; cbn [ofold].
  { exists acc, bads. split; [done|]. intros r. split; [by left|]. by intros [?|[?%elem_of_nil _]]. }
  assert (is_Some (m !! r)) as Hr by (apply Hk; left). assert (∀ x, x ∈ reds → is_Some (m !! x)) as Hk' by (intros x Hx; apply Hk; by right).
  unfold find_bad_red at 2, vp_is_dag_ancestor_of. destruct (sl_dag root r) as (b & Hb & Hiff).
  { destruct Hroot as [->|?]; [rewrite (gd_origin _ _ _ _ HG); eauto|by apply known_of]. }
  { by apply known_of. }
  rewrite Hb. cbn [unwrap mbind outcome_bind]. destruct b.
  { cbn [mbind outcome_bind mret outcome_ret]. destruct (IH acc bads Hk' Hacc) as (acc' & bads' & -> & Hin). exists acc', bads'. split; [done|].
    intros x. rewrite Hin, elem_of_cons. split; [naive_solver|]. intros [?|[[->|?] Hn]]; [by left| |by right].
    destruct Hn. left. by apply Hiff. }
  assert (is_Some (m !! root)) as Hrk.
  { destruct Hroot as [->|?]; [|done]. assert (false = true) as ?; [|done]. apply Hiff.
    eapply ancestor_trans; [|by apply (gd_root _ _ _ _ HG)]. econstructor; [apply (gd_genesis _ _ _ _ HG)|left|constructor]. }
  assert (∃ bl, match acc with Some blues => mret blues | None => kosherizing_blues (E:=RuleError) (hp_depth_manager s) d root end = Ok bl
    ∧ ∀ b, b ∈ bl ↔ b ∈ mergeset_blues d ∧ sel_chain m root b) as (bl & -> & Hbl).
  { destruct acc as [bl|]; [exists bl; split; [done|by apply Hacc]|by apply (kosherizing_ok W s P HI ps d HD)]. }
  cbn [mbind outcome_bind]. destruct (sl_of_any r bl (known_of r Hr)) as (k & Hk0 & Hiff').
  { apply Forall_forall. intros x [Hx _]%Hbl. by apply known_of, (blues_known s P ps d HD). }
  rewrite Hk0. cbn [unwrap mbind outcome_bind mret outcome_ret].
  destruct (IH (Some bl) (if k then bads else bads ++ [r]) Hk') as (acc' & bads' & -> & Hin); [by intros ? [= <-]|].
  exists acc', bads'. split; [done|]. assert (k = true ↔ mergeable s P d root r) as Hmg.
  { rewrite Hiff'. unfold mergeable. split.
    - intros (y & [? ?]%Hbl & ?). right. eauto.
    - intros [Ha|(y & ? & ? & ?)]; [by apply Hiff in Ha|]. exists y. split; [by apply Hbl|done]. }
  intros x. rewrite Hin, elem_of_cons. destruct k.
  - split; [naive_solver|]. intros [?|[[->|?] Hn]]; [by left|by destruct Hn; apply Hmg|by right].
  - rewrite elem_of_app, list_elem_of_singleton. split; [|naive_solver].
    intros [[?| ->]|[? ?]]; [by left| |naive_solver]. right. split; [by left|]. intros Hm. by apply Hmg in Hm.
Qed.
End bound.

Context (info : PruningPointInfo) (Hinfo : info_ok (hp_pruning_manager s) m sp info) (Hget : pruning_access (hp_pruning_store s) = Some info).
Context (Hfits : ∀ ps, parents_ok P m ps → state_fits W s P ps).

Lemma ghostdag_run ps : parents_ok P m ps → (length ps + size m < fuel)%nat →
  ∃ d, ghostdag (E:=RuleError) fuel (hp_ghostdag_manager s) ps = Ok d ∧ gd_block P m K ps d ∧ blue_score d ≤ u64_max.
Proof using HI Hfits.
  intros HP' Hf. pose proof (hi_params _ _ _ HI) as Hp. pose proof (Hfits ps HP') as HF.
  destruct (ghostdag_ok (E:=RuleError) fuel (hp_ghostdag_manager s) P m (inv_manager _ _ _ HI) (po_k _ _ Hp) W
    (inv_bits _ _ _ HI) (po_work _ _ Hp) ps) as (d & Hd & Hspec & Hb); [lia|done|apply (sf_room _ _ _ _ HF)|].
  exists d. split_and!; [done..|]. destruct Hspec as [Hsel _ (dsp & hs & l0 & oms & Hdsp & _ & _ & _ & Hgr & Hsc & _)].
  destruct (greedy_shape _ _ _ _ _ _ _ (proj1 (po_k _ _ Hp)) Hgr) as (_ & _ & _ & _ & _ & Hlen).
  destruct (sf_room _ _ _ _ HF _ dsp Hsel Hdsp). lia.
Qed.

Lemma merged_mono parents parents' x : (∀ y, y ∈ parents' → y ∈ parents) → merged P parents' sp x → merged P parents sp x.
Proof using. clear. intros Hsub [(p & Hp & Ha) Hn]. split; [|done]. exists p. split; [by apply Hsub|done]. Qed.

(** A part of the parents that has the selected one. *)
Lemma picked_part parents n parents' d : picked [] parents n → parents' `sublist_of` parents → sp ∈ parents' →
  gd_block P m K parents' d → selected_parent d = sp → picked [] parents' (zlen (mergeset_blues d ++ mergeset_reds d)).
Proof using HI.
  intros [F1 F2 F3 F4 (X & -> & HX) F6 F7] Hs Hin HD Hsel. cbn [app] in *.
  assert (∀ y, y ∈ parents' → y ∈ parents) as Hsub by (intros y Hy; by eapply elem_of_sublist).
  destruct (block_shape P m g K dag_inv_of parents' d HD) as [Hshape _]. destruct (gb_head _ _ _ _ _ HD) as [bs Hbs].
  set (l := unordered_mergeset_without_selected_parent d). assert (mergeset_blues d ++ mergeset_reds d = sp :: l) as Hl.
  { unfold l, unordered_mergeset_without_selected_parent. by rewrite Hbs, <- Hsel. }
  pose proof (ms_nodup _ Hshape) as Hnd. rewrite Hl in Hnd. apply NoDup_cons in Hnd as [_ Hnd].
  assert (∀ x, x ∈ l ↔ merged P parents' sp x) as Hm by (intros x; unfold l; by rewrite (gb_merged _ _ _ _ _ HD), Hsel).
  assert (size (list_to_set l : gset Hash) ≤ size X)%nat as Hle.
  { apply subseteq_size. intros x Hx%elem_of_list_to_set. apply HX. apply (merged_mono parents parents'); [done|by apply Hm]. }
  rewrite size_list_to_set in Hle by done. split; cbn [app].
  - destruct parents as [|y rest]; [by destruct (not_elem_of_nil sp); apply Hsub|]. injection F1 as ->.
    apply sublist_cons_r in Hs as [Hs|(rest' & -> & _)]; [|done]. apply NoDup_cons in F3 as [Hn _]. destruct Hn. by eapply elem_of_sublist.
  - intros x Hx. by apply F2, Hsub.
  - eapply sublist_NoDup; [exact F3|exact Hs].
  - intros x y Hx Hy. by apply F4; apply Hsub.
  - exists (list_to_set l). rewrite Hl, size_list_to_set by done. split; [unfold zlen; cbn [length]; lia|]. intros x. by rewrite elem_of_list_to_set.
  - rewrite Hl. unfold zlen. cbn [length]. lia.
  - apply sublist_length in Hs. unfold zlen in *. lia.
Qed.

(** The reds in [bads] break the merge bound of the data over [parents]. *)
Lemma bounded_run parents n : picked [] parents n → (length parents + size m < fuel)%nat →
  ∃ parents' d, remove_bounded_merge_breaking_parents (E:=RuleError) fuel s parents = Ok (parents', d)
    ∧ gd_block P m K parents' d ∧ selected_parent d = sp ∧ blue_score d ≤ u64_max
    ∧ picked [] parents' (zlen (mergeset_blues d ++ mergeset_reds d)).
Proof using HI Hmax Hknown Hinfo Hget Hfits.
  intros HP' Hf. pose proof (picked_parents _ _ _ HP') as Hpar. destruct (ghostdag_run parents Hpar Hf) as (d & Hd & HD & Hs).
  assert (selected_parent d = sp) as Hsel by (apply (tips_selected parents K d); [apply HP'|apply head_Some_elem_of, HP'|done]). unfold remove_bounded_merge_breaking_parents. rewrite Hd. cbn [mbind outcome_bind].
  cbn [get_pruning db_pruning_reader]. unfold read_pruning, read_item. rewrite Hget. cbn [unwrap mbind outcome_bind].
  pose proof (Hfits parents Hpar) as HS. destruct (stored_known W s P HI (selected_parent d)) as (x & Hx & _).
  { apply (gb_parents _ _ _ _ _ HD), (gb_selected _ _ _ _ _ HD). }
  destruct (expected_point_ok (E:=RuleError) (hp_pruning_manager s) P m K (inv_pruning _ _ _ HI (sf_scores _ _ _ _ HS)) fuel parents d info (lv_header x))
    as (pp & Hpp & Hpk & _); [done|done|by rewrite Hsel| |lia|].
  { simpl. unfold read_access. by rewrite Hx. }
  rewrite Hpp. cbn [mbind outcome_bind]. unfold calc_merge_depth_root.
  pose proof (hi_params _ _ _ HI) as Hp. destruct (po_merge _ _ Hp). pose proof (po_finality _ _ Hp). pose proof (po_pruning _ _ Hp).
  pose proof (sf_scores _ _ _ _ HS _ Hpk) as Hfit.
  destruct (block_at_depth_ok (E:=RuleError) (hp_depth_manager s) P m K (inv_depth _ _ _ HI) fuel parents d (p_merge_depth (hp_params s)) pp)
    as (root & Hr & Hroot); [done|done|by left|lia|lia|lia|lia|]. 
  change (dpm_merge_depth (hp_depth_manager s)) with (p_merge_depth (hp_params s)). rewrite Hr. cbn [mbind outcome_bind].
  destruct (bad_reds_run parents d HD root (mergeset_reds d) None []) as (acc & bads & -> & Hbads);
    [by apply (depth_root_known W s P HI d _ _ _ Hroot)|by apply (reds_known s P parents d HD)|done|]. cbn [mbind outcome_bind].
  case_bool_decide as Hb.
  { exists parents, d. split_and!; [done|done|done|done|]. apply (picked_part parents n parents d); [done|done|apply head_Some_elem_of, HP'|done|done]. }
  pose proof (inv_service _ _ _ HI) as HL.
  assert (∀ r, r ∈ bads → is_Some (m !! r) ∧ merged P parents sp r) as Hbad.
  { intros r [?%elem_of_nil|[Hr' _]]%Hbads; [done|]. split; [by apply (reds_known s P parents d HD)|].
    rewrite <- Hsel. apply (gb_merged _ _ _ _ _ HD). unfold unordered_mergeset_without_selected_parent. apply elem_of_app. by right. }
  destruct (filter_of_ok (λ h, b ← unwrap (rs_is_any_dag_ancestor (hp_service s) bads h); mret (negb b) : outcome RuleError bool)
    (λ h, ¬ ∃ r, r ∈ bads ∧ ancestor P r h) parents) as (parents' & Hfl & Hsub & Hin).
  { intros y Hy. destruct (sl_any bads y) as (b & Hb' & Hiff); [by apply known_of, (pk_known _ _ _ Hpar)| |].
    { apply Forall_forall. intros r Hr'. by apply known_of, Hbad. }
    rewrite Hb'. cbn [unwrap mbind outcome_bind mret outcome_ret]. exists (negb b). split; [done|].
    rewrite <- Hiff. by destruct b. }
  rewrite Hfl. cbn [mbind outcome_bind]. assert (sp ∈ parents') as Hsp'.
  { apply Hin. split; [apply head_Some_elem_of, HP'|]. intros (r & Hr' & Ha). by destruct (Hbad r Hr') as [_ [_ Hn]]. }
  assert (parents_ok P m parents') as Hpar'.
  { destruct Hpar as [_ K1 K2]. split; [intros ->; by apply elem_of_nil in Hsp'|intros p Hp'; by apply K1, Hin|].
    intros p q Hp' Hq. by apply K2; apply Hin. }
  assert (length parents' ≤ length parents)%nat as Hlen by (by apply sublist_length).
  destruct (ghostdag_run parents' Hpar' ltac:(lia)) as (d' & -> & HD' & Hs'). cbn [mbind outcome_bind mret outcome_ret].
  assert (selected_parent d' = sp) as Hsel'.
  { apply (tips_selected parents' K d'); [|done|done]. intros y Hy. by apply (pc_below _ _ _ HP'), Hin. }
  exists parents', d'. split_and!; [done|done|done|done|]. by apply (picked_part parents n parents' d').
Qed.

(** The result of the whole selection. *)
Record virtual_parents_ok (parents : list Hash) (d : GhostdagData) : Prop := {
  vo_head : head parents = Some sp;
  vo_parents : parents_ok P m parents;
  vo_below x : x ∈ parents → ∃ t, t ∈ tips ∧ ancestor P x t;
  vo_nodup : NoDup parents;
  vo_count : zlen parents ≤ mbp;
  vo_data : gd_block P m K parents d;
  vo_selected : selected_parent d = sp;
  vo_score : blue_score d ≤ u64_max;
  vo_mergeset : zlen (mergeset_blues d ++ mergeset_reds d) ≤ limit;
}.

Lemma pick_run : NoDup tips → p_max_block_parents (hp_params s) = mbp → p_mergeset_size_limit (hp_params s) = limit →
  1 ≤ limit ≤ u64_max → 1 ≤ mbp → (S (length tips) * S (size m) < fuel)%nat →
  ∃ parents d, pick_virtual_parents (E:=RuleError) fuel s sp tips = Ok (parents, d) ∧ virtual_parents_ok parents d.
Proof using HI Hknown Hchain Hsp Hmax Hsize Hinfo Hget Hfits.
  intros Hnd Hm Hl Hlu Hmu Hf. assert (length tips ≤ size m)%nat as Hlen.
  { pose proof (known_bound (list_to_set tips) ltac:(intros x Hx%elem_of_list_to_set; by apply Hknown)) as Hb.
    by rewrite size_list_to_set in Hb. }
  unfold pick_virtual_parents. rewrite Hm, Hl.
  destruct (order_run (E:=RuleError) sp tips mbp Hnd Hknown Hmu) as (cands & -> & Hc1 & Hc2); [lia|]. cbn [mbind outcome_bind].
  destruct (pick_loop_run (E:=RuleError) cands Hl Hlu Hmu) as (parents & n & -> & HP'); [nia|nia|done|done|]. cbn [mbind outcome_bind].
  rewrite (proj2 (Z.leb_le n limit)) by apply HP'. rewrite (proj2 (Z.leb_le (zlen parents) mbp)) by apply HP'.
  cbn [assert mbind outcome_bind].
  assert (length parents ≤ size m)%nat as Hlp.
  { pose proof (known_bound (list_to_set parents) ltac:(intros x Hx%elem_of_list_to_set; by apply (pc_below _ _ _ HP'))) as Hb.
    rewrite size_list_to_set in Hb; [done|]. apply (pc_nodup _ _ _ HP'). }
  destruct (bounded_run parents n HP') as (parents' & d & -> & HD & Hsel & Hs & HP2).
  { destruct tips as [|t0 l0]; [by apply elem_of_nil in Hsp|]. cbn [length] in Hf. nia. }
  exists parents', d. split; [done|]. pose proof (picked_parents _ _ _ HP2) as Hpar. destruct HP2 as [F1 F2 F3 F4 F5 F6 F7].
  split; try done. intros x Hx. by apply F2.
Qed.
End pick.
End parents.
