(* ===== verification/VirtualUpdate.v ===== *)
(** * The new virtual state

    [resolve_virtual] walks to the greatest body tip; when it is valid the virtual block
    gets new parents and the virtual UTXO set becomes the set of the new virtual block;
    then the pruning point and its candidate move along the chain of the virtual
    selected parent.  The invariant of [VirtualMain] holds again. *)

From S2P Require Import Prelude Hash Uint Interval ReachStore ReachSim ReachTree ReachQuery ReachDag ReachMain ReachService Relations Headers GhostdagStore Ghostdag GhostdagInv GhostdagMerge GhostdagRun Window WindowProof Difficulty DifficultyProof Stores Depth SelectedChain DepthProof Errors HeaderProcessor HeaderInv HeaderValidate HeaderRun HeaderMain Tx Utxo UtxoProof Hashing Merkle Database TxValidator TxValidatorProof Coinbase CoinbaseProof BodyProcessor BodyProof U3072 MuHash VirtualStores VirtualProcessor VirtualUtxo VirtualCalc VirtualChain VirtualMain VirtualParents.

(** ** Changes of the pruning stores *)

Section pruning_change.
Context `{X : Externals} {IL : IterationLaws} {ML : MuHashLaws ext_inverse}.
Context (pr : DbPruningStore) (past : DbPastPruningPointsStore).

Definition with_pruning (v : VirtualStateProcessor) : VirtualStateProcessor := set_vp_past_pruning past (set_vp_pruning pr v).

Context (W : Z) (P : Dag) (v : VirtualStateProcessor).
Local Abbreviation v' := (with_pruning v).

Lemma order_pruning gd order : merge_order (vp_body v) gd order ↔ merge_order (vp_body v') gd order.
Proof using. split; intros []; by split. Qed.
Lemma valid_pruning header U ids gd rewards nd cb rest :
  utxo_valid (vp_body v) header U ids gd rewards nd cb rest ↔ utxo_valid (vp_body v') header U ids gd rewards nd cb rest.
Proof using. split; intros []; by split. Qed.

Lemma chain_pruning b U A M D : valid_chain (vp_body v) b U A M D ↔ valid_chain (vp_body v') b U A M D.
Proof using.
  split; induction 1 as [|b gd y cb rest cb' rest' order nd U A M D Hne Hgd Hy Hsp IH Hcb Hcb' Ho Hnd daa Hval Hsig].
  - apply (vc_genesis (vp_body v')).
  - refine (vc_next (vp_body v') b gd y cb rest cb' rest' order nd U A M D Hne Hgd Hy IH Hcb Hcb' _ Hnd _ Hsig); [by apply order_pruning|].
    by apply (proj1 (valid_pruning _ _ _ _ _ _ _ _)).
  - apply (vc_genesis (vp_body v)).
  - refine (vc_next (vp_body v) b gd y cb rest cb' rest' order nd U A M D Hne Hgd Hy IH Hcb Hcb' _ Hnd _ Hsig); [by apply order_pruning|].
    by apply (proj2 (valid_pruning _ _ _ _ _ _ _ _)).
Qed.

Lemma body_pruning : body_inv W (vp_body v) P → body_inv W (vp_body v') P.
Proof using. intros [F1 F2 F3 F4 F5 F6 F7 F8]. split; [|done..]. destruct F1. by split. Qed.

Lemma leads_pruning b d U : leads_to v b d U → leads_to v' b d U.
Proof using.
  intros (gd & U0 & A0 & M0 & D0 & Hgd & HV & Hd & Ha & He). exists gd, U0, A0, M0, D0. split_and!; [done| |done|done|done]. by apply chain_pruning.
Qed.

Lemma chain_inv_pruning : chain_inv W P v → chain_inv W P v'.
Proof using.
  intros [F1 F2 F3 F4 F5 F6 F7 F8 F9]. split; [by apply body_pruning|by destruct F2; split|exact F3|..|exact F7|exact F8|exact F9].
  - intros b Hst U A M D HV%chain_pruning. by apply (F4 b Hst U A M D).
  - exact F5.
  - intros b d Hd. destruct (F6 b d Hd) as (U & A & M & D & HV & Hl & Hu). exists U, A, M, D.
    split_and!; [by apply chain_pruning|intros Hne; by apply leads_pruning, Hl|exact Hu].
Qed.

Lemma virtual_inv_pruning : virtual_inv W P v → virtual_inv W P v'.
Proof using.
  intros [HC (vs & Hvs & [(U & A & M & D & HV & Ha & He) Hd Hs] & Hc & Hm)]. split; [by apply chain_inv_pruning|].
  exists vs. split_and!; [done| |done|done]. split; [|done|done]. exists U, A, M, D. split_and!; [|done|done]. by apply chain_pruning.
Qed.
End pruning_change.

(** ** The virtual block *)

Section update.
Context `{X : Externals} {IL : IterationLaws} {ML : MuHashLaws ext_inverse}.
Context (W : Z) (P : Dag) (fuel : nat).

(** Nothing overflows: scores, work and sizes leave room for one more block. *)
Record virtual_room (hp : HeaderProcessor) : Prop := {
  vr_fits ps : parents_ok P (hp_data hp) ps → state_fits W hp P ps;
  vr_daa h x : headers_access (hp_headers_store hp) !! h = Some x → h_daa_score (lv_header x) + Z.of_nat (size (hp_data hp)) < 2 ^ 62;
  vr_size : Z.of_nat (size (hp_data hp)) < u64_max;
  vr_limit : 1 ≤ p_mergeset_size_limit (hp_params hp) ≤ u64_max;
  vr_parents : 1 ≤ p_max_block_parents (hp_params hp);
  vr_index info : pruning_access (hp_pruning_store hp) = Some info → pi_index info + Z.of_nat (size (hp_data hp)) ≤ u64_max;
  vr_fuel : (S (size (hp_data hp)) * S (size (hp_data hp)) < fuel)%nat;
}.

Section virtual.
Context (v : VirtualStateProcessor) (HC : chain_inv W P v).
Local Abbreviation hp := (vp_stores v).
Local Abbreviation m := (hp_data hp).
Local Abbreviation BT := (bt_access (bp_block_transactions_store (vp_body v))).
Local Abbreviation V := (us_access (vp_utxo_set v)).
Context (Hsrc : sourced BT V) (HR : virtual_room hp).
Context (parents : list Hash) (d : GhostdagData) (HD : gd_block P m (p_ghostdag_k (vp_params v)) parents d).
Context (Hpar : parents_ok P m parents) (Hbodies : ∀ p, p ∈ parents → is_Some (BT !! p)).
Local Abbreviation sp := (selected_parent d).

(** The DAA score of the virtual block. *)
Lemma virtual_daa l : ∃ score nd, calc_daa_score_and_non_daa_mergeset_blocks (E:=RuleError) (hp_difficulty_manager hp) l d = Ok (score, nd)
  ∧ 0 ≤ score < 2 ^ 62.
Proof using HC HR HD Hpar.
  pose proof (main_headers W P v HC) as HH. pose proof (vr_fits _ HR parents Hpar) as HS.
  destruct (daa_calculated W hp P HH parents HS d HD l) as [[score nd] Hrun]. exists score, nd. split; [exact Hrun|]. revert Hrun.
  unfold calc_daa_score_and_non_daa_mergeset_blocks. destruct (stored_known W hp P HH sp) as (x & Hx & _).
  { apply (gb_parents _ _ _ _ _ HD), (gb_selected _ _ _ _ _ HD). }
  cbn [dm_headers_store hp_difficulty_manager get_daa_score db_header_reader].
  rewrite (read_compact_ok _ _ h_daa_score ch_daa_score (hi_headers _ _ _ HH)) by done. unfold header_field. rewrite Hx. cbn [unwrap mbind outcome_bind].
  set (ms := list_to_set (unordered_mergeset d) : gset Hash). set (S := list_to_set (take (size ms) (filter (λ h, h ∈ ms) l)) : gset Hash).
  assert (size S ≤ size m)%nat as Hle.
  { rewrite <- (size_dom (D:=gset Hash) m). apply subseteq_size. intros y Hy. apply elem_of_list_to_set in Hy.
    apply elem_of_take in Hy as (i & Hy & _). apply list_elem_of_lookup_2, list_elem_of_filter in Hy as [Hy _].
    apply elem_of_list_to_set in Hy. by apply elem_of_dom, (mergeset_known hp P parents d HD). }
  pose proof (vr_daa _ HR _ x Hx). pose proof (proj1 (wo_daa _ (ci_world _ _ _ HC) _ x Hx)).
  rewrite add64_ok by (unfold u64_max; lia). cbn [mbind outcome_bind mret outcome_ret]. intros [= <- _]. lia.
Qed.

(** The numbers of the virtual block. *)
Lemma virtual_numbers : ∃ window score nd bits time w,
  block_window (E:=RuleError) fuel (hp_traversal_manager hp) d (p_difficulty_window_size (hp_params hp)) = Ok window
  ∧ calc_daa_score_and_non_daa_mergeset_blocks (E:=RuleError) (hp_difficulty_manager hp) (sb_hash <$> window) d = Ok (score, nd)
  ∧ 0 ≤ score < 2 ^ 62
  ∧ calculate_difficulty_bits (E:=RuleError) (hp_difficulty_manager hp) window = Ok bits
  ∧ calc_past_median_time (E:=RuleError) fuel (hp_median_manager hp) d = Ok (time, w).
Proof using HC HR HD Hpar.
  pose proof (main_headers W P v HC) as HH. pose proof (vr_fits _ HR parents Hpar) as HS. pose proof (vr_fuel _ HR) as Hf.
  assert (size m < fuel)%nat as Hfuel by nia.
  destruct (block_window_ok (E:=RuleError) fuel _ P m _ (hi_windows _ _ _ HH) parents d (p_difficulty_window_size (hp_params hp)) HD Hfuel)
    as (window & Hw & Ht). destruct (virtual_daa (sb_hash <$> window)) as (score & nd & Hdaa & Hs).
  destruct (bits_calculated W hp P HH parents HS window Ht) as [bits Hbits].
  destruct (median_calculated fuel W hp P HH parents d HD Hfuel) as (w & Hmed & _).
  exists window, score, nd, bits, (median_of (p_genesis_timestamp (hp_params hp)) ((header_time hp ∘ sb_hash) <$> w)), w. done.
Qed.

Section state.
Context (acc : UtxoDiff) (Hre : reaches v sp acc).

Lemma virtual_run score : 0 ≤ score < 2 ^ 62 → ∃ ms, get_multiset (vp_utxo_multisets_store v) sp = Ok ms
  ∧ runs_unless (unsigned_over (vp_body v) d score) (run_utxo (E:=RuleError) (E':=unit) (calculate_utxo_state (vp_body v) (compose (vp_utxo_set v) acc) score) (utxo_context_new d ms)) v
    (λ r w, ∃ c cache acc', r = (None, c) ∧ w = set_vp_cache cache v ∧ sig_cache_ok ext_verify cache
      ∧ applies (uc_mergeset_diff c) (apply acc V) ∧ commits (uc_multiset_hash c) (apply (uc_mergeset_diff c) (apply acc V))
      ∧ coins (apply (uc_mergeset_diff c) (apply acc V)) ≤ MAX_SOMPI ∧ sourced BT (apply (uc_mergeset_diff c) (apply acc V))
      ∧ accumulate (E:=RuleError) acc (uc_mergeset_diff c) = Ok acc' ∧ apply acc' V = apply (uc_mergeset_diff c) (apply acc V)).
Proof using HC Hsrc HD Hbodies Hre IL ML.
  intros Hscore. destruct Hre as [Ha (A & M & D & HV) [dsp Hdsp]].
  destruct (ci_diffs _ _ _ HC sp dsp Hdsp) as (U & A' & M' & D' & HV' & _ & u & Hu & Hcom).
  destruct (valid_unique _ _ _ _ _ _ _ _ _ _ HV HV') as (-> & _). exists (from_uint3072 u).
  split; [unfold get_multiset, read_access; by rewrite Hu|].
  pose proof (valid_facts W _ P (ci_body _ _ _ HC) (ci_world _ _ _ HC) _ _ _ _ _ HV) as HF.
  destruct (cf_body _ _ _ _ _ _ _ HF) as [txs Htxs]. destruct (bo_block _ _ (main_bodies W P v HC) _ _ Htxs) as (cb & rest & -> & _).
  pose proof (next_ready W (vp_body v) P (ci_body _ _ _ HC) (ci_world _ _ _ HC) parents d HD Hbodies score Hscore _ _ _ _ HF cb rest Htxs) as HN.
  apply run_utxo_ok.
  pose proof (calculate_run (E:=unit) (vp_body v) (main_env W P v HC) _ _ _ _ _ HN (compose (vp_utxo_set v) acc) (from_uint3072 u) (vp_sig_cache v)
    (composed_shows _ acc _ (utxo_set_shows _)) Hcom (ci_cache _ _ _ HC)) as Hrun. unfold runs_unless in Hrun.
  destruct (calculate_utxo_state _ _ _ _) as [[[]|?| |] [c cache]]; [|done| |done].
  2:{ destruct Hrun as (order & Ho & Hbad). exists (apply acc V), A, M, D, cb, rest, order. by split_and!. }
  destruct Hrun as (order & Ho & _ & [G1 G2 G3 G4 G5 G6 G7 G8]). cbn [fst snd] in *.
  destruct (next_runs (vp_body v) (main_env W P v HC) _ _ _ _ _ HN order Ho) as (_ & Hled & Hfees & _).
  destruct (next_coins W (vp_body v) P (ci_body _ _ _ HC) (ci_world _ _ _ HC) parents d HD Hbodies score Hscore _ _ _ _ HF cb rest Htxs order Ho)
    as (Hf0 & Hs0 & Hcoins & _).
  destruct (next_granted W (vp_body v) P (ci_body _ _ _ HC) (ci_world _ _ _ HC) parents d HD Hbodies _ _ _ _ HF order Ho) as [_ Hmax].
  assert (sourced BT (apply (uc_mergeset_diff c) (apply acc V))) as Hs.
  { rewrite G2. intros o e Hoe. apply (le_source _ _ _ Hled _ _ Hoe). }
  destruct (accumulate_run (E:=RuleError) acc (uc_mergeset_diff c) V Ha G1) as (acc' & Hacc & Ha' & He').
  { apply (sourced_coherent _ _ (main_bodies W P v HC)); [done|]. intros o e Hoe. apply Hs. by apply lookup_union_Some_l. }
  exists c, cache, acc'. split_and!; [done|done|done|done|by rewrite G2| |done|done|done].
  rewrite G2. unfold next_utxos in Hcoins. lia.
Qed.
End state.
End virtual.

(** ** The body tips *)

(** The order in which the tips are listed. *)
Definition SetOrderLaw : Prop := ∀ T : gset Hash, ext_set_order T ≡ₚ elements T.

Lemma ancestor_child x y : ancestor P x y → x ≠ y → ∃ c ps, P !! c = Some ps ∧ x ∈ ps ∧ ancestor P c y.
Proof using.
  induction 1 as [|y ps q Hps Hq Ha IH]; [done|]. intros Hne. destruct (decide (x = q)) as [->|Hxq].
  - exists y, ps. split_and!; [done|done|constructor].
  - destruct (IH Hxq) as (c & cs & Hcs & Hx & Hc). exists c, cs. split_and!; [done|done|]. by econstructor.
Qed.

Lemma tips_antichain s T t u : body_inv W s P → tips_of (has_body (bp_stores s)) P T → t ∈ T → u ∈ T → ancestor P t u → t = u.
Proof using.
  intros HB HT Ht Hu Ha. destruct (decide (t = u)) as [|Hne]; [done|]. exfalso. destruct (ancestor_child t u Ha Hne) as (c & ps & Hps & Hin & Hc).
  apply HT in Ht as [_ Ht]. apply HT in Hu as [Hu _]. apply (Ht c ps); [|done|done]. apply (by_stored _ _ _ HB).
  apply (ancestor_body W s P HB c u); [by apply (by_stored _ _ _ HB)|done|]. intros ->.
  rewrite (gd_origin _ _ _ _ (hi_dag _ _ _ (by_headers _ _ _ HB))) in Hps. injection Hps as <-. by apply elem_of_nil in Hin.
Qed.

Lemma chain_inv_virtual x v : chain_inv W P v → chain_inv W P (set_vp_virtual x v).
Proof using. intros [F1 F2 F3 F4 F5 F6 F7 F8 F9]. by split. Qed.

(** What the tips are to the selection of parents. *)
Record tips_ok (v : VirtualStateProcessor) (tips : list Hash) (b : Hash) : Prop := {
  to_nodup : NoDup tips;
  to_bodies t : t ∈ tips → is_Some (bt_access (bp_block_transactions_store (vp_body v)) !! t);
  to_antichain t u : t ∈ tips → u ∈ tips → ancestor P t u → t = u;
  to_selected : b ∈ tips;
  to_max t : t ∈ tips → sb_le (as_sortable (hp_data (vp_stores v)) t) (as_sortable (hp_data (vp_stores v)) b);
}.

(** The body of greatest blue work has no child with a body. *)
Lemma greatest_body v : chain_inv W P v → let BT := bt_access (bp_block_transactions_store (vp_body v)) in
  ∃ t, is_Some (BT !! t) ∧ ∀ c ps, is_Some (BT !! c) → P !! c = Some ps → t ∉ ps.
Proof using.
  intros HC BT. pose proof (ci_body _ _ _ HC) as HB. pose proof (by_headers _ _ _ HB) as HH. pose proof (hi_dag _ _ _ HH) as HG.
  assert (∀ b, b ∈ elements (dom BT) → is_Some (BT !! b)) as Hel by (intros b Hb%elem_of_elements; by apply elem_of_dom).
  destruct (find_selected_parent_ok (E:=RuleError) (hp_ghostdag_manager (vp_stores v)) P _ (inv_manager _ _ _ HH) (elements (dom BT)))
    as (t & _ & Ht & Hmax).
  - intros Hnil. assert (genesis_of v ∈ elements (dom BT)) as Hg; [|rewrite Hnil in Hg; by apply elem_of_nil in Hg].
    apply elem_of_elements, elem_of_dom. exists [genesis_coinbase]. apply (by_genesis_txs _ _ _ HB).
  - intros b Hb. by apply (known_body W _ P HB), Hel.
  - exists t. split; [by apply Hel|]. intros c ps Hc Hps Hin. assert (is_Some (hp_data (vp_stores v) !! t)) as Hmt by (by apply (known_body W _ P HB), Hel).
    assert (is_Some (hp_data (vp_stores v) !! c)) as Hmc by (by apply (known_body W _ P HB)).
    destruct (parent_work P _ _ _ HG c ps t Hps Hmc Hin) as [_ Hlt]; [intros ->; destruct Hmt as [d Hd]; pose proof (origin_unknown P _ _ _ HG) as Ho; unfold vp_stores in Hd; congruence|].
    assert (sb_cmp (as_sortable (hp_data (vp_stores v)) t) (as_sortable (hp_data (vp_stores v)) c) = Lt) as Hcmp.
    { apply (proj1 (sb_cmp_spec _ _)). by left. }
    specialize (Hmax c ltac:(by apply elem_of_elements, elem_of_dom)). apply Hmax. rewrite sb_cmp_antisym.
    unfold vp_stores in Hcmp. unfold vp_stores. by rewrite Hcmp.
Qed.

Lemma tips_run v : chain_inv W P v → SetOrderLaw → ∃ T b, tips_access (bp_body_tips_store (vp_body v)) = Some T
  ∧ find_selected_parent (E:=RuleError) (hp_ghostdag_manager (vp_stores v)) (ext_set_order T) = Ok b ∧ tips_ok v (ext_set_order T) b.
Proof using.
  intros HC HO. pose proof (ci_body _ _ _ HC) as HB. pose proof (by_headers _ _ _ HB) as HH. destruct (by_tips _ _ _ HB) as (T & HT & Htips).
  assert (∀ t, t ∈ ext_set_order T ↔ t ∈ T) as Hin by (intros t; by rewrite (HO T), elem_of_elements).
  assert (∀ t, t ∈ T → is_Some (bt_access (bp_block_transactions_store (vp_body v)) !! t)) as Hbt.
  { intros t Ht. apply (by_stored _ _ _ HB). by apply Htips. }
  assert (ext_set_order T ≠ []) as Hne.
  { intros Hnil. assert (∀ t, t ∉ T) as Hno by (intros t Ht; apply Hin in Ht; rewrite Hnil in Ht; by apply elem_of_nil in Ht).
    destruct (greatest_body v HC) as (t & Ht & Hch). apply (Hno t), Htips. split; [by apply (by_stored _ _ _ HB)|].
    intros c ps Hc Hps Hin'. by apply (Hch c ps); [apply (by_stored _ _ _ HB)|..]. }
  destruct (find_selected_parent_ok (E:=RuleError) (hp_ghostdag_manager (vp_stores v)) P _ (inv_manager _ _ _ HH) (ext_set_order T) Hne)
    as (b & Hb & Hbin & Hmax).
  { intros t Ht%Hin. by apply (known_body W _ P HB), Hbt. }
  exists T, b. split_and!; [done|done|]. split; [rewrite (HO T); apply NoDup_elements|by intros t Ht%Hin; apply Hbt| |done|done].
  intros t u Ht%Hin Hu%Hin. by eapply tips_antichain.
Qed.

(** ** The pruning state *)

(** The pruning point, its candidate and the past pruning points lie on the selected
    chain of [b]. *)
Record pruning_state (v : VirtualStateProcessor) (b : Hash) (info : PruningPointInfo) : Prop := {
  pn_info : pruning_access (hp_pruning_store (vp_stores v)) = Some info;
  pn_point : is_Some (hp_data (vp_stores v) !! pi_pruning_point info);
  pn_candidate : is_Some (hp_data (vp_stores v) !! pi_candidate info);
  pn_above : sel_chain (hp_data (vp_stores v)) (pi_pruning_point info) (pi_candidate info);
  pn_index : 0 ≤ pi_index info;
  pn_past i : 0 ≤ i ≤ pi_index info → ∃ h, past_access (hp_past_pruning_points_store (vp_stores v)) !! i = Some h
    ∧ is_Some (hp_data (vp_stores v) !! h) ∧ sel_chain (hp_data (vp_stores v)) h (pi_pruning_point info);
  pn_fresh i : pi_index info < i → past_access (hp_past_pruning_points_store (vp_stores v)) !! i = None;
  pn_chain : b = genesis_of v ∧ pi_candidate info = b ∨ b ≠ genesis_of v ∧ ∃ gd, hp_data (vp_stores v) !! b = Some gd
    ∧ sel_chain (hp_data (vp_stores v)) (pi_candidate info) (selected_parent gd);
}.

Lemma pruning_info_ok v b info : pruning_state v b info → info_ok (hp_pruning_manager (vp_stores v)) (hp_data (vp_stores v)) b info.
Proof using.
  intros [F1 F2 F3 F4 F5 F6 F7 F8]. split; [done|done| |done|].
  - intros _. destruct F8 as [[_ ->]|(_ & gd & Hgd & Hc)]; [constructor|]. by econstructor.
  - intros i Hi. destruct (F6 i Hi) as (h & Hh & Hk & Hc). exists h. split_and!; [|done|done]. cbn. by rewrite Hh.
Qed.

(** The parents picked from the tips. *)
Lemma pick_tips v tips b info : chain_inv W P v → virtual_room (vp_stores v) → tips_ok v tips b → pruning_state v b info →
  ∃ parents d, pick_virtual_parents (E:=RuleError) fuel (vp_stores v) b tips = Ok (parents, d)
    ∧ virtual_parents_ok (vp_stores v) P b tips (p_max_block_parents (vp_params v)) (p_mergeset_size_limit (vp_params v)) parents d.
Proof using.
  intros HC HR HT HPr. pose proof (main_headers W P v HC) as HH. pose proof (vr_fuel _ HR) as Hfuel.
  assert (∀ t, t ∈ tips → is_Some (hp_data (vp_stores v) !! t)) as Hk.
  { intros t Ht. by apply (known_body W _ P (ci_body _ _ _ HC)), (to_bodies _ _ _ HT). }
  assert (length tips ≤ size (hp_data (vp_stores v)))%nat as Hlen.
  { rewrite <- (size_dom (D:=gset Hash)), <- (size_list_to_set (C:=gset Hash) tips) by apply HT. apply subseteq_size.
    intros x Hx%elem_of_list_to_set. by apply elem_of_dom, Hk. }
  destruct (pick_run fuel W (vp_stores v) P HH b tips (p_max_block_parents (vp_params v)) (p_mergeset_size_limit (vp_params v))
    Hk (to_antichain _ _ _ HT) (to_selected _ _ _ HT) (to_max _ _ _ HT) (vr_size _ HR) info (pruning_info_ok v b info HPr) (pn_info _ _ _ HPr)
    (vr_fits _ HR) (to_nodup _ _ _ HT)) as (parents & d & Hpick & HO); [done|done|apply HR|apply HR|nia|]. eauto.
Qed.

(** The transition of the virtual block over [b] accepts a transaction that is not
    signed. *)
Definition virtual_crashes (v : VirtualStateProcessor) (tips : list Hash) (b : Hash) : Prop := ∃ parents d score,
  virtual_parents_ok (vp_stores v) P b tips (p_max_block_parents (vp_params v)) (p_mergeset_size_limit (vp_params v)) parents d
  ∧ unsigned_over (vp_body v) d score.

Lemma update_run v tips b acc info : chain_inv W P v → sourced (bt_access (bp_block_transactions_store (vp_body v))) (us_access (vp_utxo_set v)) →
  virtual_room (vp_stores v) → tips_ok v tips b → reaches v b acc → pruning_state v b info →
  runs_unless (virtual_crashes v tips b) (update_virtual (E:=RuleError) fuel tips b acc) v (λ _ w, virtual_inv W P w ∧ vp_body w = vp_body v
    ∧ ∃ vs, vst_access (vp_state_store w) = Some vs
      ∧ virtual_parents_ok (vp_stores v) P b tips (p_max_block_parents (vp_params v)) (p_mergeset_size_limit (vp_params v))
          (vs_parents vs) (vs_ghostdag_data vs)).
Proof using IL ML.
  intros HC Hsrc HR HT Hre HPr. pose proof (main_headers W P v HC) as HH. pose proof (vr_fuel _ HR) as Hfuel.
  destruct (pick_tips v tips b info HC HR HT HPr) as (parents & d & Hpick & HO).
  unfold update_virtual. apply unless_bind, unless_get. apply unless_bind. eapply unless_lift; [exact Hpick|]. cbn beta iota.
  pose proof (vo_selected _ _ _ _ _ _ _ _ HO) as Hsel.
  apply unless_bind. eapply unless_lift; [rewrite bool_decide_eq_true_2 by done; reflexivity|].
  assert (∀ p, p ∈ parents → is_Some (bt_access (bp_block_transactions_store (vp_body v)) !! p)) as Hbodies.
  { intros p Hp. destruct (vo_below _ _ _ _ _ _ _ _ HO p Hp) as (t & Ht & Ha).
    apply (ancestor_body W _ P (ci_body _ _ _ HC) p t); [by apply (to_bodies _ _ _ HT)|done|]. intros ->.
    pose proof (pk_known _ _ _ (vo_parents _ _ _ _ _ _ _ _ HO) _ Hp) as Hm. by rewrite (origin_unknown P _ _ _ (hi_dag _ _ _ HH)) in Hm; destruct Hm. }
  destruct (virtual_numbers v HC HR parents d (vo_data _ _ _ _ _ _ _ _ HO) (vo_parents _ _ _ _ _ _ _ _ HO))
    as (window & score & nd & bits & time & w & Hwin & Hdaa & Hscore & Hbits & Htime).
  rewrite <- Hsel in Hre.
  destruct (virtual_run v HC Hsrc parents d (vo_data _ _ _ _ _ _ _ _ HO) Hbodies acc Hre score Hscore) as (ms & Hms & Hrun).
  apply unless_bind. eapply unless_lift; [by rewrite Hms|]. apply unless_bind. eapply unless_lift; [exact Hwin|]. apply unless_bind.
  eapply unless_lift; [exact Hdaa|]. cbn beta iota. apply unless_bind. eapply unless_lift; [exact Hbits|]. apply unless_bind.
  eapply unless_lift; [exact Htime|]. cbn beta iota. apply unless_bind. eapply unless_mono; [exact Hrun|intros Hbad; by exists parents, d, score|].
  intros r w' (c & cache & acc' & -> & -> & Hcache & Hap & Hcom & Hcoins & Hs & Hacc & He'). cbn beta iota.
  apply unless_bind. eapply unless_lift; [exact Hacc|]. apply unless_bind. eapply unless_intro.
  { unfold on_vp. rewrite write_diff_ok. reflexivity. }
  eapply unless_intro; [reflexivity|]. destruct (cache_inv W P v cache HC Hcache) as [HC' _].
  split_and!; [|done|eexists; split; [reflexivity|exact HO]]. split; [apply (chain_inv_virtual _ (set_vp_cache cache v)), HC'|].
  eexists. split; [reflexivity|]. cbn [vs_ghostdag_data vs_utxo_diff vs_multiset].
  change (us_access (vp_utxo_set (set_vp_state ?x (set_vp_utxo_set (mkUtxoSet ?U) ?w)))) with U.
  change (us_access (vp_utxo_set (set_vp_cache cache v))) with (us_access (vp_utxo_set v)). rewrite He'. split_and!; [|done|done].
  destruct (re_state _ _ _ Hre) as (A & M & D & HV). split.
  - exists (apply acc (us_access (vp_utxo_set v))), A, M, D. split_and!; [exact HV|done|done].
  - exact (re_valid _ _ _ Hre).
  - exact Hs.
Qed.

(** The new past pruning points, one after the other. *)
Fixpoint add_points (i : Z) (points : list Hash) (past : gmap Z Hash) : gmap Z Hash :=
  match points with [] => past | x :: points => add_points (i + 1) points (<[i := x]> past) end.

Lemma lookup_add_points i points past j : (j < i ∨ i + zlen points ≤ j → add_points i points past !! j = past !! j)
  ∧ (i ≤ j < i + zlen points → ∃ x, x ∈ points ∧ add_points i points past !! j = Some x).
Proof using.
  revert i past. induction points as [|x points IH]; intros i past; cbn [add_points]; [unfold zlen; cbn; split; [done|lia]|].
  destruct (IH (i + 1) (<[i := x]> past)) as [IH1 IH2]. unfold zlen in *. cbn [length]. split.
  - intros Hj. rewrite IH1 by lia. by rewrite lookup_insert_ne by lia.
  - intros Hj. destruct (decide (j = i)) as [->|Hne].
    + exists x. split; [left|]. rewrite IH1 by lia. by rewrite lookup_insert_eq.
    + destruct IH2 as (y & Hy & Hl); [lia|]. exists y. split; [by right|done].
Qed.

Lemma insert_points_run v points index k : (∀ i, index + Z.of_nat k < i → past_access (hp_past_pruning_points_store (vp_stores v)) !! i = None) →
  0 ≤ index → index + Z.of_nat k + zlen points ≤ u64_max →
  runs (for_each (imap (λ i x, ((k + i)%nat, x)) points) (λ '(i, past_pp),
        index ← lift (add64 index (Z.of_nat i));
        index ← lift (add64 index 1);
        on_vp (E:=RuleError) (λ s, hp_past_pruning_points_store (vp_stores s)) set_vp_past_pruning (insert_past_pruning_point index past_pp))) v
    (λ _ w, w = set_vp_past_pruning (mkPastPruning (add_points (index + Z.of_nat k + 1) points (past_access (hp_past_pruning_points_store (vp_stores v))))) v).
Proof using.
  revert v k. induction points as [|x points IH]; intros v k Hfresh H0 Hu.
  { apply runs_ret. cbn [add_points]. by destruct v as [[[? ? ? ? ? ? ? ? ? ? ? ? []] ? ?] ? ? ? ? ?]. }
  rewrite imap_cons. cbn [for_each]. apply runs_bind. rewrite Nat.add_0_r. unfold zlen in *. cbn [length] in Hu.
  apply runs_bind. eapply runs_lift; [apply add64_ok; lia|]. apply runs_bind. eapply runs_lift; [apply add64_ok; lia|].
  eapply runs_intro.
  { unfold on_vp, insert_past_pruning_point. rewrite Hfresh by lia. rewrite bool_decide_eq_false_2 by (by intros [? ?]). reflexivity. }
  eapply runs_mono.
  - rewrite (imap_ext _ (λ i y, ((S k + i)%nat, y))) by (intros; cbn; f_equal; lia). apply IH; [|done|lia].
    intros i Hi. cbn. rewrite lookup_insert_ne by lia. apply Hfresh. lia.
  - cbn beta. intros _ w ->. cbn [add_points]. replace (index + Z.of_nat (S k) + 1) with (index + Z.of_nat k + 1 + 1) by lia. done.
Qed.

Section advance.
Context (v : VirtualStateProcessor) (HC : chain_inv W P v) (HR : virtual_room (vp_stores v)).
Local Abbreviation hp := (vp_stores v).
Local Abbreviation m := (hp_data hp).
Local Abbreviation self := (hp_pruning_manager hp).
Context (b : Hash) (info : PruningPointInfo) (HPr : pruning_state v b info) (Hb : b ≠ genesis_of v).
Context (gd : GhostdagData) (Hgd : m !! b = Some gd) (points : list Hash) (cand : Hash).
Context (HN : next_points self m (pi_candidate info) (selected_parent gd) (pi_pruning_point info) (pi_candidate info) (blue_score gd) points cand).

Lemma candidate_chain : sel_chain m (pi_candidate info) (selected_parent gd).
Proof using HPr Hb Hgd. destruct (pn_chain _ _ _ HPr) as [[? _]|(_ & gd' & Hgd' & Hc)]; [done|]. rewrite Hgd in Hgd'. by injection Hgd' as <-. Qed.

Lemma new_candidate : sel_chain m (pi_candidate info) cand ∧ sel_chain m cand (selected_parent gd)
  ∧ ∀ x, x ∈ points → sel_chain m x cand.
Proof using HPr Hb Hgd HN.
  destruct (np_candidate _ _ _ _ _ _ _ _ _ HN) as [_ [[-> Hnone]|(H1 & H2 & H3 & H4)]].
  - split_and!; [constructor|apply candidate_chain|]. intros x Hx.
    destruct (np_point _ _ _ _ _ _ _ _ _ HN x Hx) as (_ & Hlx & Hxs & Hd & _). by destruct (Hnone x Hlx Hxs).
  - split_and!; [done|done|]. intros x Hx. destruct (np_point _ _ _ _ _ _ _ _ _ HN x Hx) as (_ & Hlx & Hxs & Hd & _). by apply H4.
Qed.

Lemma points_below x new : last points = Some new → x ∈ points → sel_chain m x new.
Proof using HC HN.
  clear HR HPr Hb Hgd.
  intros Hlast Hx. pose proof (main_headers W P v HC) as HH. apply last_Some in Hlast as Hl. destruct Hl as [pre Hl].
  assert (new ∈ points) as Hnew by (rewrite Hl; apply elem_of_app; right; left).
  destruct (np_point _ _ _ _ _ _ _ _ _ HN x Hx) as (Hkx & _ & Hxs & _). destruct (np_point _ _ _ _ _ _ _ _ _ HN new Hnew) as (Hkn & _ & Hns & _).
  destruct (sel_chain_linear m x new (selected_parent gd) Hxs Hns) as [|Hnx]; [done|].
  destruct (sel_score (hp_reachability_store hp) P m _ _ (hi_dag _ _ _ HH) (hi_reach _ _ _ HH) new x Hkn Hkx Hnx) as [->|Hlt]; [constructor|].
  exfalso. pose proof (np_sorted _ _ _ _ _ _ _ _ _ HN) as Hs. rewrite Hl in Hs, Hx. apply elem_of_app in Hx as [Hx|Hx%list_elem_of_singleton]; [|rewrite Hx in Hlt; lia].
  apply StronglySorted_app in Hs as (Hs & _). specialize (Hs x new Hx ltac:(left)). unfold fin in Hs. cbn beta in Hs.
  pose proof (po_finality _ _ (hi_params _ _ _ HH)) as Hf. cbn [prm_finality_depth hp_pruning_manager] in Hs.
  assert (score_of m new / p_finality_depth (hp_params hp) ≤ score_of m x / p_finality_depth (hp_params hp)) by (apply Z.div_le_mono; lia). lia.
Qed.

Lemma points_length : zlen points ≤ Z.of_nat (size m).
Proof using HN.
  clear HC HR HPr Hb Hgd.
  assert (NoDup points) as Hnd.
  { eapply (StronglySorted_irrefl_NoDup (λ x y, fin self m x < fin self m y)); [intros x; lia|apply (np_sorted _ _ _ _ _ _ _ _ _ HN)]. }
  unfold zlen. rewrite <- (size_list_to_set (C:=gset Hash) points), <- (size_dom (D:=gset Hash) m) by done.
  apply Nat2Z.inj_le, subseteq_size. intros x Hx%elem_of_list_to_set. apply elem_of_dom, (np_point _ _ _ _ _ _ _ _ _ HN x Hx).
Qed.

(** The new pruning point, and all past ones. *)
Lemma moved_point new : last points = Some new →
  let past := add_points (pi_index info + 1) points (past_access (hp_past_pruning_points_store hp)) in
  let info' := mkPruningInfo new cand (pi_index info + zlen points) in
  pruning_state (with_pruning (mkPruning (Some info')) (mkPastPruning past) v) b info'.
Proof using HC HPr Hb Hgd HN.
  intros Hlast past info'. destruct new_candidate as (Hc1 & Hc2 & Hc3). pose proof HPr as [F1 F2 F3 F4 F5 F6 F7 F8].
  assert (new ∈ points) as Hnew by (apply last_Some_elem_of, Hlast).
  destruct (np_point _ _ _ _ _ _ _ _ _ HN new Hnew) as (Hkn & Hln & Hns & _).
  assert (0 ≤ zlen points) as H0 by (unfold zlen; lia). split.
  - done.
  - exact Hkn.
  - apply (np_candidate _ _ _ _ _ _ _ _ _ HN).
  - by apply Hc3.
  - cbn. lia.
  - intros i Hi. cbn [pi_index pi_pruning_point info'] in *. destruct (lookup_add_points (pi_index info + 1) points (past_access (hp_past_pruning_points_store hp)) i) as [L1 L2].
    destruct (decide (i ≤ pi_index info)) as [Hle|Hgt].
    + destruct (F6 i ltac:(lia)) as (h & Hh & Hk & Hch). exists h. split_and!; [|done|].
      * change (past !! i = Some h). unfold past. rewrite L1 by lia. exact Hh.
      * eapply sel_chain_trans; [exact Hch|]. eapply sel_chain_trans; [exact F4|exact Hln].
    + destruct L2 as (x & Hx & Hl); [lia|]. exists x. split_and!; [exact Hl|apply (np_point _ _ _ _ _ _ _ _ _ HN x Hx)|by apply points_below].
  - intros i Hi. cbn [pi_index info'] in Hi. destruct (lookup_add_points (pi_index info + 1) points (past_access (hp_past_pruning_points_store hp)) i) as [L1 _].
    change (past !! i = None). unfold past. rewrite L1 by lia. apply F7. lia.
  - right. split; [done|]. exists gd. done.
Qed.

Lemma moved_candidate : points = [] →
  let info' := mkPruningInfo (pi_pruning_point info) cand (pi_index info) in
  pruning_state (with_pruning (mkPruning (Some info')) (hp_past_pruning_points_store hp) v) b info'.
Proof using HPr Hb Hgd HN.
  intros Hnil info'. destruct new_candidate as (Hc1 & Hc2 & _). pose proof HPr as [F1 F2 F3 F4 F5 F6 F7 F8]. split.
  - done.
  - exact F2.
  - apply (np_candidate _ _ _ _ _ _ _ _ _ HN).
  - by eapply sel_chain_trans.
  - done.
  - exact F6.
  - exact F7.
  - right. split; [done|]. exists gd. done.
Qed.
End advance.

Lemma with_pruning_same v : with_pruning (hp_pruning_store (vp_stores v)) (hp_past_pruning_points_store (vp_stores v)) v = v.
Proof using. by destruct v as [[[] ? ?] ? ? ? ? ?]. Qed.

Lemma advance_run v vs info : chain_inv W P v → virtual_room (vp_stores v) → vst_access (vp_state_store v) = Some vs →
  let b := selected_parent (vs_ghostdag_data vs) in is_Some (hp_data (vp_stores v) !! b) → pruning_state v b info →
  runs (advance_pruning_point_and_candidate_if_possible (E:=RuleError) fuel) v (λ _ w, ∃ pr past info', w = with_pruning pr past v
    ∧ pruning_state w b info' ∧ sel_chain (hp_data (vp_stores v)) (pi_pruning_point info) (pi_pruning_point info')).
Proof using.
  intros HC HR Hvs b [gd Hgd] HPr. pose proof (main_headers W P v HC) as HH. pose proof (hi_dag _ _ _ HH) as HG. pose proof (vr_fuel _ HR) as Hfuel.
  unfold advance_pruning_point_and_candidate_if_possible. apply runs_bind, runs_get. apply runs_bind.
  eapply runs_lift; [unfold get_virtual_state, read_item; by rewrite Hvs|]. fold b. case_bool_decide as Hg.
  { apply runs_ret. exists (hp_pruning_store (vp_stores v)), (hp_past_pruning_points_store (vp_stores v)), info.
    rewrite with_pruning_same. split_and!; [done|done|constructor]. }
  assert (is_Some (P !! b)) as [ps Hps] by (apply (gd_dom _ _ _ _ HG); eauto).
  pose proof (gd_blocks _ _ _ _ HG b ps gd Hps Hgd Hg) as HD. pose proof (gb_parents _ _ _ _ _ HD _ (gb_selected _ _ _ _ _ HD)) as [gp Hgp].
  assert (scores_fit (vp_stores v)) as Hfit.
  { eapply sf_scores, (vr_fits _ HR [b]). split; [done|by intros p ->%list_elem_of_singleton; eauto|].
    by intros p q ->%list_elem_of_singleton ->%list_elem_of_singleton. }
  apply runs_bind. eapply runs_lift; [rewrite (law_compact _ b gd (hi_gd _ _ _ HH)) by exact Hgd; reflexivity|].
  apply runs_bind. eapply runs_lift; [cbn [get_pruning db_pruning_reader]; unfold read_pruning, read_item; by rewrite (pn_info _ _ _ HPr)|].
  destruct (next_points_ok (E:=RuleError) (hp_pruning_manager (vp_stores v)) P (hp_data (vp_stores v)) _ (inv_pruning _ _ _ HH Hfit) fuel
    (to_compact gd) None (pi_candidate info) (pi_pruning_point info)) as (points & cand & low & Hrun & Hlow & _ & HN).
  - eauto.
  - apply HPr.
  - apply HPr.
  - by apply (candidate_chain v b info HPr Hg gd Hgd).
  - done.
  - cbn. rewrite (score_data _ _ _ Hgp), (gb_score _ _ _ _ _ HD gp Hgp). pose proof (Hfit b ltac:(eauto)) as Hs.
    rewrite (score_data _ _ _ Hgd), (gb_score _ _ _ _ _ HD gp Hgp) in Hs.
    pose proof (po_finality _ _ (hi_params _ _ _ HH)). pose proof (po_pruning _ _ (hi_params _ _ _ HH)). lia.
  - nia.
  - destruct Hlow as [->|?]; [|done]. apply runs_bind. eapply runs_lift; [exact Hrun|]. cbn beta iota.
    change (c_selected_parent (to_compact gd)) with (selected_parent gd) in HN. change (c_blue_score (to_compact gd)) with (blue_score gd) in HN.
    destruct (new_candidate v b info HPr Hg gd Hgd points cand HN) as (Hc1 & _).
    case_bool_decide as Hnil; cbn [negb].
    + case_bool_decide as Hcand; cbn [negb].
      * apply runs_ret. exists (hp_pruning_store (vp_stores v)), (hp_past_pruning_points_store (vp_stores v)), info.
        rewrite with_pruning_same. split_and!; [done|done|constructor].
      * eapply runs_intro; [reflexivity|]. set (info' := mkPruningInfo (pi_pruning_point info) cand (pi_index info)).
        exists (mkPruning (Some info')), (hp_past_pruning_points_store (vp_stores v)), info'.
        split_and!; [|by apply (moved_candidate v b info HPr Hg gd Hgd points cand HN)|constructor].
        by destruct v as [[[] ? ?] ? ? ? ? ?].
    + pose proof (points_length v info gd points cand HN) as Hlen. pose proof (vr_index _ HR _ (pn_info _ _ _ HPr)) as Hidx.
      destruct (last points) as [new|] eqn:Hlast; [|by apply last_None in Hlast].
      apply runs_bind. eapply runs_mono; [apply (insert_points_run v points (pi_index info) 0)|].
      * intros i Hi. apply (pn_fresh _ _ _ HPr). lia.
      * apply HPr.
      * lia.
      * intros _ w ->. apply runs_bind. eapply runs_lift; [apply add64_ok; pose proof (pn_index _ _ _ HPr); unfold zlen in *; lia|].
        apply runs_bind. eapply runs_lift; [reflexivity|]. eapply runs_intro; [reflexivity|].
        set (info' := mkPruningInfo new cand (pi_index info + zlen points)). replace (pi_index info + Z.of_nat 0 + 1) with (pi_index info + 1) by lia.
        set (past := add_points (pi_index info + 1) points (past_access (hp_past_pruning_points_store (vp_stores v)))).
        change (set_vp_pruning ?x (set_vp_past_pruning ?y v)) with (with_pruning x y v).
        exists (mkPruning (Some info')), (mkPastPruning past), info'.
        split_and!; [done|by apply (moved_point v HC b info HPr Hg gd Hgd points cand HN new)|].
        eapply sel_chain_trans; [apply HPr|]. apply (np_point _ _ _ _ _ _ _ _ _ HN). by apply last_Some_elem_of.
Qed.

(** ** The whole step *)

(** Statuses and stored differences do not matter here. *)
Section extended.
Context (v w : VirtualStateProcessor) (HX : extends_chain v w).

Lemma extends_room : virtual_room (vp_stores v) → virtual_room (vp_stores w).
Proof using HX.
  destruct (ec_body _ _ HX) as [x Hx]. unfold vp_stores. rewrite Hx. intros [F1 F2 F3 F4 F5 F6 F7].
  split; [|exact F2|exact F3|exact F4|exact F5|exact F6|exact F7]. intros ps HP. destruct (F1 ps HP). by split.
Qed.

Lemma extends_pruning b info : pruning_state v b info → pruning_state w b info.
Proof using HX.
  destruct (ec_body _ _ HX) as [x Hx]. intros [F1 F2 F3 F4 F5 F6 F7 F8].
  split; unfold genesis_of, vp_params, vp_stores in *; rewrite ?Hx; done.
Qed.

Lemma extends_tips tips b : tips_ok v tips b → tips_ok w tips b.
Proof using HX.
  destruct (ec_body _ _ HX) as [x Hx]. intros [F1 F2 F3 F4 F5]. split; unfold vp_stores in *; rewrite ?Hx; done.
Qed.

Lemma extends_virtual : chain_inv W P w → virtual_inv W P v → virtual_inv W P w.
Proof using HX.
  intros Hw [_ (vs & Hvs & [(U & A & M & D & HV & Ha & He) [d Hd] Hs] & Hc & Hm)]. split; [done|]. exists vs.
  unfold vp_state_store, vp_utxo_set in *. rewrite (ec_virtual _ _ HX). split_and!; [done| |done|done].
  split; unfold vp_utxo_set; rewrite ?(ec_virtual _ _ HX).
  - exists U, A, M, D. split_and!; [by apply (extends_valid v w)|done|done].
  - exists d. by apply (ec_diffs _ _ HX).
  - destruct (ec_body _ _ HX) as [x Hx]. by rewrite Hx.
Qed.
End extended.

(** The tip that the virtual block should select. *)
Definition selected_tip (v : VirtualStateProcessor) (b : Hash) : Prop := ∃ T, tips_access (bp_body_tips_store (vp_body v)) = Some T
  ∧ find_selected_parent (E:=RuleError) (hp_ghostdag_manager (vp_stores v)) (ext_set_order T) = Ok b.

(** What [resolve_virtual] reaches. *)
Record virtual_resolved (v w : VirtualStateProcessor) (b : Hash) (vs vs' : VirtualState) : Prop := {
  vd_tip : selected_tip v b;
  vd_status : status_of w b = Some StatusUTXOValid ∧ selected_parent (vs_ghostdag_data vs') = b
      ∧ (∃ U A M D, valid_chain (vp_body v) b U A M D)
      ∧ (∃ T, tips_access (bp_body_tips_store (vp_body v)) = Some T
          ∧ virtual_parents_ok (vp_stores v) P b (ext_set_order T) (p_max_block_parents (vp_params v)) (p_mergeset_size_limit (vp_params v))
              (vs_parents vs') (vs_ghostdag_data vs'))
    ∨ status_of w b = Some StatusDisqualifiedFromChain ∧ vs' = vs ∧ vp_utxo_set w = vp_utxo_set v
      ∧ ∀ U A M D, ¬ valid_chain (vp_body v) b U A M D;
}.

(** A block of the chain of the selected tip, or the virtual block over it, accepts a
    transaction that is not signed. *)
Definition tip_crashes (v : VirtualStateProcessor) : Prop := ∃ T b, tips_access (bp_body_tips_store (vp_body v)) = Some T
  ∧ selected_tip v b ∧ (chain_crashes v b ∨ virtual_crashes v (ext_set_order T) b).

Lemma resolve_run v vs info : virtual_inv W P v → vst_access (vp_state_store v) = Some vs → virtual_room (vp_stores v) → SetOrderLaw →
  pruning_state v (selected_parent (vs_ghostdag_data vs)) info → (∀ b, selected_tip v b → pruning_state v b info) →
  runs_unless (tip_crashes v) (resolve_virtual (E:=RuleError) fuel) v (λ _ w, virtual_inv W P w ∧ ∃ b vs' info', vst_access (vp_state_store w) = Some vs'
    ∧ virtual_resolved v w b vs vs' ∧ pruning_state w (selected_parent (vs_ghostdag_data vs')) info').
Proof using IL ML.
  intros HV Hvs HR HO HPr Hnew. pose proof (vi_chain _ _ _ HV) as HC. destruct (tips_run v HC HO) as (T & b & HT & Hb & Htips).
  pose proof (vr_fuel _ HR) as Hfuel. unfold resolve_virtual. apply unless_bind, unless_get. apply unless_bind.
  eapply unless_lift; [unfold get_virtual_state, read_item; by rewrite Hvs|]. apply unless_bind.
  eapply unless_lift; [cbn [get_tips db_tips_reader]; unfold read_item; by rewrite HT|]. apply unless_bind. eapply unless_lift; [exact Hb|].
  apply unless_bind. eapply unless_mono; [apply (walk_to_run W P fuel v vs b HV Hvs); [apply (to_bodies _ _ _ Htips), Htips|nia]| |].
  { intros Hcr. exists T, b. split_and!; [done|by exists T|by left]. }
  intros acc w (Hw & HX & Hres). cbn beta. apply unless_bind, unless_get.
  assert (selected_tip v b) as Hsel by (by exists T). specialize (Hnew b Hsel).
  pose proof (extends_room v w HX HR) as HRw. pose proof (extends_virtual v w HX Hw HV) as HVw.
  assert (is_Some (hp_data (vp_stores w) !! b)) as Hbk.
  { apply (known_body W _ P (ci_body _ _ _ Hw)), (to_bodies _ _ _ (extends_tips v w HX _ _ Htips)), Htips. }
  destruct Hres as [Hre|Hst].
  - assert (status_of w b = Some StatusUTXOValid) as Hst by (apply (ci_status _ _ _ Hw), Hre).
    apply unless_bind. eapply unless_lift; [by rewrite (read_status w b _ Hst)|].
    apply unless_bind. eapply unless_mono; [apply (update_run w (ext_set_order T) b acc info Hw); [|done|by apply (extends_tips v w)|done|by apply (extends_pruning v w)]| |].
    2:{ intros (parents & d & score & HO' & Hbad). exists T, b. split_and!; [done|done|right]. destruct (ec_body _ _ HX) as [x Hx].
        exists parents, d, score. unfold vp_params, vp_stores in *. rewrite Hx in HO', Hbad. split; [destruct HO'; by split|by apply over_statuses in Hbad]. }
    { destruct HVw as [_ (vs0 & _ & [_ _ Hs] & _)]. exact Hs. }
    intros _ w1 (HV1 & Hbody & vs' & Hvs' & HO'). pose proof (vo_selected _ _ _ _ _ _ _ _ HO') as Hsel'.
    assert (vp_stores w1 = vp_stores w) as Hst1 by (unfold vp_stores; by rewrite Hbody).
    assert (pruning_state w1 (selected_parent (vs_ghostdag_data vs')) info) as HP1.
    { rewrite Hsel'. destruct (extends_pruning v w HX b info Hnew) as [F1 F2 F3 F4 F5 F6 F7 F8].
      split; unfold genesis_of, vp_params in *; rewrite ?Hst1; done. }
    eapply unless_mono; [apply (unless_runs False), (advance_run w1 vs' info (vi_chain _ _ _ HV1)); [by rewrite Hst1|done|by rewrite Hst1, Hsel'|done]|done|].
    intros _ w2 (pr & past & info' & -> & HP2 & _). split; [by apply virtual_inv_pruning|]. exists b, vs', info'.
    split_and!; [exact Hvs'| |exact HP2]. split; [done|]. left. split_and!; [|done| |].
    + change (statuses_access (vp_statuses_store w1) !! b = Some StatusUTXOValid). unfold vp_statuses_store. rewrite Hbody. exact Hst.
    + destruct (re_state _ _ _ Hre) as (A & M & D & HVb). eexists _, A, M, D. by apply (extends_valid v w).
    + exists T. split; [done|]. destruct (ec_body _ _ HX) as [x Hx].
      unfold vp_params, vp_stores in *. rewrite Hx in HO'. destruct HO'. by split.
  - apply unless_bind. eapply unless_lift; [by rewrite (read_status w b _ Hst)|]. apply unless_bind, unless_ret.
    assert (vst_access (vp_state_store w) = Some vs) as Hvsw by (unfold vp_state_store; by rewrite (ec_virtual _ _ HX)).
    eapply unless_mono; [apply (unless_runs False), (advance_run w vs info Hw HRw Hvsw)|done|].
    { destruct HVw as [_ (vs0 & Hvs0 & [_ Hv0 _] & _)]. assert (vs0 = vs) as -> by congruence. by apply (valid_known W P w Hw). }
    { by apply (extends_pruning v w HX). }
    intros _ w2 (pr & past & info' & -> & HP2 & _). split; [by apply virtual_inv_pruning|]. exists b, vs, info'.
    split_and!; [exact Hvsw| |exact HP2]. split; [done|]. right. split_and!; [exact Hst|done| |].
    + change (vp_utxo_set w = vp_utxo_set v). unfold vp_utxo_set. by rewrite (ec_virtual _ _ HX).
    + intros U A M D HVb. by apply (ci_disqualified _ _ _ Hw b Hst U A M D), (extends_valid v w).
Qed.

(** ** The genesis *)

Record fresh_virtual (v : VirtualStateProcessor) : Prop := {
  fv_body : body_inv W (vp_body v) P;
  fv_world : world_ok (vp_body v);
  fv_pending : status_of v (genesis_of v) = Some StatusUTXOPendingVerification;
  fv_status b st : status_of v b = Some st → st ≠ StatusUTXOValid ∧ st ≠ StatusDisqualifiedFromChain;
  fv_diffs : ud_access (vp_utxo_diffs_store v) = ∅;
  fv_multisets : um_access (vp_utxo_multisets_store v) = ∅;
  fv_acceptance : ac_access (vp_acceptance_data_store v) = ∅;
  fv_utxo : us_access (vp_utxo_set v) = ∅;
  fv_past : past_access (hp_past_pruning_points_store (vp_stores v)) = ∅;
  fv_cache : sig_cache_ok ext_verify (vp_sig_cache v);
  fv_pruning : pruning_access (hp_pruning_store (vp_stores v)) = Some (pruning_from_genesis (genesis_of v));
  fv_room : virtual_room (vp_stores v);
}.

(** The state after the genesis. *)
Definition genesis_state (data : GhostdagData) (v : VirtualStateProcessor) : VirtualStateProcessor :=
  let g := genesis_of v in
  set_vp_past_pruning (mkPastPruning {[0 := g]}) (commit_state
    (set_vp_state (mkVirtualStore (Some (virtual_from_genesis g (p_genesis_bits (vp_params v)) (p_genesis_timestamp (vp_params v))
      [tx_id genesis_coinbase] data))) v) g ∅ (numerator muhash_new)).

Lemma genesis_run v : fresh_virtual v → ∃ data, selected_parent data = genesis_of v
  ∧ runs (process_genesis_state_if_needed (E:=RuleError) fuel) v (λ _ w, w = genesis_state data v).
Proof using.
  intros HF. pose proof (by_headers _ _ _ (fv_body _ HF)) as HH. pose proof (hi_dag _ _ _ HH) as HG. pose proof (vr_fuel _ (fv_room _ HF)) as Hfuel.
  assert (parents_ok P (hp_data (vp_stores v)) [genesis_of v]) as HP.
  { split; [done| |by intros p q ->%list_elem_of_singleton ->%list_elem_of_singleton].
    intros p ->%list_elem_of_singleton. eexists. apply (gd_genesis_data _ _ _ _ HG). }
  assert (1 ≤ size (hp_data (vp_stores v)))%nat as Hsize.
  { assert (size (hp_data (vp_stores v)) ≠ 0%nat); [|lia]. intros H0%map_size_empty_inv. pose proof (gd_genesis_data _ _ _ _ HG) as Hg.
    unfold vp_stores in H0. by rewrite H0 in Hg. }
  destruct (ghostdag_run fuel W (vp_stores v) P HH (vr_fits _ (fv_room _ HF)) [genesis_of v] HP) as (data & Hrun & HD & _); [cbn [length]; nia|].
  exists data. split; [by apply list_elem_of_singleton, (gb_selected _ _ _ _ _ HD)|].
  unfold process_genesis_state_if_needed. apply runs_bind, runs_get. apply runs_bind.
  eapply runs_lift; [by rewrite (read_status v (p_genesis_hash (vp_params v)) _ (fv_pending _ HF))|]. apply runs_bind.
  assert (bt_access (bp_block_transactions_store (vp_body v)) !! p_genesis_hash (vp_params v) = Some [genesis_coinbase]) as Htx
    by apply (by_genesis_txs _ _ _ (fv_body _ HF)).
  eapply runs_lift; [unfold get_transactions, read_access; by rewrite Htx|].
  apply runs_bind. eapply runs_lift; [reflexivity|]. apply runs_bind. eapply runs_lift; [exact Hrun|].
  apply runs_bind. eapply runs_intro; [reflexivity|]. apply runs_bind.
  set (v1 := set_vp_state _ v). eapply runs_intro; [apply (commit_new v1 (genesis_of v) ∅ muhash_new)|].
  - change (ud_access (vp_utxo_diffs_store v) !! genesis_of v = None). by rewrite (fv_diffs _ HF).
  - change (um_access (vp_utxo_multisets_store v) !! genesis_of v = None). by rewrite (fv_multisets _ HF).
  - change (ac_access (vp_acceptance_data_store v) !! genesis_of v = None). by rewrite (fv_acceptance _ HF).
  - done.
  - unfold init_past_pruning_points, insert_past_pruning_point, runs.
    change (past_access (hp_past_pruning_points_store (vp_stores (commit_state ?w ?b ?d ?u)))) with (past_access (hp_past_pruning_points_store (vp_stores w))).
    change (past_access (hp_past_pruning_points_store (vp_stores v1))) with (past_access (hp_past_pruning_points_store (vp_stores v))).
    rewrite (fv_past _ HF), lookup_empty. rewrite bool_decide_eq_false_2 by (by intros [? ?]). done.
Qed.

Lemma genesis_chain_inv v x : fresh_virtual v → chain_inv W P (commit_state (set_vp_state x v) (genesis_of v) ∅ (numerator muhash_new)).
Proof using ML.
  intros [F1 F2 F3 F4 F5 F6 F7 F8 F9 F10 _ _]. set (g := genesis_of v). set (w := commit_state _ _ _ _).
  assert (∀ c, diff_of w c = if decide (c = g) then Some ∅ else None) as Hd.
  { intros c. unfold w. rewrite commit_diff. destruct (decide (c = g)); [done|]. change (ud_access (vp_utxo_diffs_store v) !! c = None). by rewrite F5. }
  assert (∀ c, status_of w c = if decide (c = g) then Some StatusUTXOValid else status_of v c) as Hs by (intros c; unfold w, commit_state; by rewrite status_with).
  assert (∀ {B} (f : gmap Hash B) y c, f = ∅ → is_Some (<[g := y]> f !! c) ↔ is_Some (diff_of w c)) as Hone.
  { intros B f y c ->. rewrite Hd. destruct (decide (c = g)) as [->|Hne]; [rewrite lookup_insert_eq; split; eauto|].
    rewrite lookup_insert_ne by done. rewrite lookup_empty. done. }
  split.
  - apply (body_inv_status W (vp_body v) P g); [done|apply (by_genesis _ _ _ F1)|done].
  - by apply world_statuses.
  - intros c. rewrite Hs, Hd. destruct (decide (c = g)); [split; eauto|]. split; [intros Hst; by destruct (F4 c _ Hst)|by intros [? ?]].
  - intros c. rewrite Hs. destruct (decide (c = g)); [done|]. intros Hst. by destruct (F4 c _ Hst).
  - change (genesis_of w) with g. rewrite Hd, decide_True by done. eauto.
  - intros c d. rewrite Hd. destruct (decide (c = g)) as [->|]; [|done]. intros [= <-]. exists ∅, ∅, ∅, 0. split_and!; [|done|].
    + apply (vc_genesis (vp_body w)).
    + exists (numerator muhash_new). split; [cbn; apply lookup_insert_eq|apply commits_empty].
  - intros c. apply (Hone _ (um_access (vp_utxo_multisets_store v))), F6.
  - intros c. apply (Hone _ (ac_access (vp_acceptance_data_store v))), F7.
  - exact F10.
Qed.

Lemma genesis_virtual_inv v data : fresh_virtual v → selected_parent data = genesis_of v →
  virtual_inv W P (genesis_state data v)
  ∧ pruning_state (genesis_state data v) (genesis_of v) (pruning_from_genesis (genesis_of v)).
Proof using ML.
  intros HF Hsel. set (g := genesis_of v). set (vs := virtual_from_genesis g (p_genesis_bits (vp_params v)) (p_genesis_timestamp (vp_params v))
      [tx_id genesis_coinbase] data). set (w := commit_state (set_vp_state (mkVirtualStore (Some vs)) v) g ∅ (numerator muhash_new)).
  change (genesis_state data v) with (with_pruning (hp_pruning_store (vp_stores v)) (mkPastPruning {[0 := g]}) w).
  pose proof (genesis_chain_inv v (mkVirtualStore (Some vs)) HF) as HC. fold g w in HC. pose proof (main_headers W P w HC) as HH.
  assert (is_Some (hp_data (vp_stores w) !! g)) as Hg by (eexists; apply (gd_genesis_data _ _ _ _ (hi_dag _ _ _ HH))).
  split.
  - apply virtual_inv_pruning. split; [done|]. exists vs. change (us_access (vp_utxo_set w)) with (us_access (vp_utxo_set v)).
    rewrite (fv_utxo _ HF). split_and!; [done| |apply commits_empty|by vm_compute].
    change (selected_parent (vs_ghostdag_data vs)) with (selected_parent data). rewrite Hsel. destruct (empty_diff_ok ∅) as (E1 & E2 & _).
    split.
    + exists ∅, ∅, ∅, 0. split_and!; [apply (vc_genesis (vp_body w))|exact E1|]. change (us_access (vp_utxo_set v) = apply ∅ ∅). by rewrite (fv_utxo _ HF), E2.
    + apply (ci_genesis _ _ _ HC).
    + change (us_access (vp_utxo_set w)) with (us_access (vp_utxo_set v)). rewrite (fv_utxo _ HF). by intros o e ?%lookup_empty_Some.
  - split.
    + exact (fv_pruning _ HF).
    + exact Hg.
    + exact Hg.
    + constructor.
    + done.
    + intros i [H1 H2]. cbn in H2. assert (i = 0) as -> by lia. exists g. split_and!; [apply lookup_singleton_eq|exact Hg|constructor].
    + intros i Hi. cbn in Hi. apply lookup_singleton_ne. lia.
    + left. done.
Qed.
End update.
