(* ===== verification/VirtualHistory.v ===== *)
(** * The virtual processor beside the other processors

    Headers and bodies arrive while the virtual state is being resolved.  A new header or
    body does not change the states of the blocks with bodies, so the invariant of the
    virtual processor holds along every interleaving of calls of the three processors. *)

From S2P Require Import Prelude Hash Uint Interval ReachStore ReachSim ReachTree ReachQuery ReachDag ReachMain ReachService Relations Headers GhostdagStore Ghostdag GhostdagInv GhostdagMerge GhostdagRun Window WindowProof Difficulty DifficultyProof Stores Depth SelectedChain DepthProof Errors HeaderProcessor HeaderInv HeaderValidate HeaderRun HeaderMain Tx Utxo UtxoProof Hashing Merkle Database TxValidator TxValidatorProof Coinbase CoinbaseProof BodyProcessor BodyProof BodyTheorems U3072 MuHash VirtualStores VirtualProcessor VirtualUtxo VirtualCalc VirtualChain VirtualMain VirtualParents VirtualUpdate.

(** ** New blocks *)

Section grows.
Context `{X : Externals} {IL : IterationLaws} {ML : MuHashLaws ext_inverse}.

(** [s'] knows more blocks and the same about those of [s]. *)
Record grows (s s' : BlockBodyProcessor) : Prop := {
  gw_params : hp_params (bp_stores s') = hp_params (bp_stores s);
  gw_data : hp_data (bp_stores s) ⊆ hp_data (bp_stores s');
  gw_headers : headers_access (hp_headers_store (bp_stores s)) ⊆ headers_access (hp_headers_store (bp_stores s'));
  gw_daa : daa_access (hp_daa_store (bp_stores s)) ⊆ daa_access (hp_daa_store (bp_stores s'));
  gw_bodies : bt_access (bp_block_transactions_store s) ⊆ bt_access (bp_block_transactions_store s');
}.

Context (W : Z) (P : Dag) (s s' : BlockBodyProcessor) (HB : body_inv W s P) (HG : grows s s').
Local Abbreviation BT := (bt_access (bp_block_transactions_store s)).
Local Abbreviation BT' := (bt_access (bp_block_transactions_store s')).
Local Abbreviation m := (hp_data (bp_stores s)).
Local Abbreviation g := (p_genesis_hash (hp_params (bp_stores s))).

Lemma same_body b : is_Some (BT !! b) → BT' !! b = BT !! b.
Proof using HG. intros [txs Hb]. rewrite Hb. by eapply lookup_weaken; [|apply (gw_bodies _ _ HG)]. Qed.

Lemma same_data b : is_Some (BT !! b) → hp_data (bp_stores s') !! b = m !! b.
Proof using HB HG. intros Hb. destruct (known_body W s P HB b Hb) as [d Hd]. rewrite Hd. by eapply lookup_weaken; [|apply (gw_data _ _ HG)]. Qed.

Lemma merged_bodies b gd : is_Some (BT !! b) → b ≠ g → m !! b = Some gd →
  ∀ x, x ∈ selected_parent gd :: unordered_mergeset_without_selected_parent gd → is_Some (BT !! x).
Proof using HB.
  intros Hb Hne Hgd x Hx. pose proof (hi_dag _ _ _ (by_headers _ _ _ HB)) as HD0.
  assert (is_Some (P !! b)) as [ps Hps] by (apply (gd_dom _ _ _ _ HD0); eauto).
  destruct (parents_body W s P HB b ps gd Hb Hne Hps Hgd) as [HD Hpb]. apply elem_of_cons in Hx as [->|Hx].
  - apply Hpb, (gb_selected _ _ _ _ _ HD).
  - destruct (gb_order _ _ _ _ _ HD) as [_ _ Hk _]. destruct (Hk x Hx) as [dx Hdx].
    apply (gb_merged _ _ _ _ _ HD) in Hx as [(p & Hp & Ha) _]. apply (ancestor_body W s P HB x p); [by apply Hpb|done|].
    intros ->. by rewrite (origin_unknown P _ _ _ HD0) in Hdx.
Qed.

Section block.
Context (gd : GhostdagData) (Hms : ∀ x, x ∈ selected_parent gd :: unordered_mergeset_without_selected_parent gd → is_Some (BT !! x)).

Lemma grows_order order : merge_order s gd order ↔ merge_order s' gd order.
Proof using HB HG Hms.
  assert (order ≡ₚ unordered_mergeset_without_selected_parent gd →
    as_sortable (gd_abs (hp_ghostdag_store (bp_stores s'))) <$> order = as_sortable (gd_abs (hp_ghostdag_store (bp_stores s))) <$> order) as Heq.
  { intros Hp. apply list_fmap_ext. intros i x Hx. apply list_elem_of_lookup_2 in Hx. rewrite Hp in Hx. unfold as_sortable, work_of. f_equal.
    change (gd_abs (hp_ghostdag_store (bp_stores s'))) with (hp_data (bp_stores s')).
    change (gd_abs (hp_ghostdag_store (bp_stores s))) with m. by rewrite same_data by (apply Hms; by right). }
  split; intros [Hs Hp]; split; try done; [by rewrite (Heq Hp)|by rewrite <- (Heq Hp)].
Qed.

Context (order : list Hash) (Ho : order ≡ₚ unordered_mergeset_without_selected_parent gd).

Lemma order_bodies x : x ∈ selected_parent gd :: order → is_Some (BT !! x).
Proof using Hms Ho. intros Hx. apply Hms. by rewrite Ho in Hx. Qed.

Lemma grows_blocks : merged_blocks s' gd order = merged_blocks s gd order.
Proof using HG Hms Ho.
  apply list_fmap_ext. intros i x Hx%list_elem_of_lookup_2. unfold with_body. by rewrite same_body by (by apply order_bodies).
Qed.

Lemma grows_txs pov U cb : next_txs s' pov U gd cb order = next_txs s pov U gd cb order.
Proof using HG Hms Ho. unfold next_txs. by rewrite grows_blocks, (gw_params _ _ HG). Qed.

Lemma grows_rewards_from acc R : Forall (λ p, is_Some (BT !! p.1)) acc → foldl (add_reward s') R acc = foldl (add_reward s) R acc.
Proof using HG.
  intros Hacc. revert R. induction Hacc as [|p acc Hp Hacc IH]; intros R; [done|]. cbn [foldl]. rewrite IH. f_equal.
  unfold add_reward, reward_for, body_data. by rewrite same_body, (gw_params _ _ HG).
Qed.

Lemma acceptance_first tv pov V blocks : (acceptance tv pov V blocks).*1 = blocks.*1.
Proof using. clear. revert V. induction blocks as [|[b txs] blocks IH]; intros V; [done|]. cbn. by rewrite IH. Qed.

Lemma grows_rewards pov U cb : next_rewards s' pov U gd cb order = next_rewards s pov U gd cb order.
Proof using HG Hms Ho.
  unfold next_rewards, rewards_from. rewrite grows_blocks, (gw_params _ _ HG). apply grows_rewards_from.
  apply Forall_forall. intros p Hp. apply order_bodies. apply (list_elem_of_fmap_2 fst) in Hp. rewrite acceptance_first in Hp.
  unfold merged_blocks in Hp. rewrite <- list_fmap_compose in Hp. change (fst ∘ with_body s <$> ?l) with ((λ x : Hash, x) <$> l) in Hp.
  by rewrite list_fmap_id in Hp.
Qed.
End block.

Lemma grows_checks header U ids gd rewards nd cb rest :
  utxo_valid s header U ids gd rewards nd cb rest ↔ utxo_valid s' header U ids gd rewards nd cb rest.
Proof using HG. pose proof (gw_params _ _ HG) as Hp. split; intros []; split; rewrite ?Hp in *; done. Qed.

Lemma grows_valid b U A M D : is_Some (BT !! b) → valid_chain s b U A M D ↔ valid_chain s' b U A M D.
Proof using HB HG.
  pose proof (gw_params _ _ HG) as Hp. intros Hb. split.
  - intros HV. revert Hb. induction HV as [|b gd y cb rest cb' rest' order nd U A M D Hne Hgd Hy Hsp IH Hcb Hcb' Ho Hnd daa Hval Hsig]; intros Hb.
    { rewrite <- Hp. apply (vc_genesis s'). }
    pose proof (merged_bodies b gd Hb Hne Hgd) as Hms. pose proof (mr_perm _ _ _ Ho) as Hperm.
    assert (is_Some (BT !! selected_parent gd)) as Hbs by (apply Hms; left). specialize (IH Hbs).
    pose proof (vc_next s' b gd y cb rest cb' rest' order nd U A M D) as Hnext. cbn zeta in Hnext. unfold next_utxos, next_ids in *.
    rewrite (grows_txs gd Hms order Hperm), (grows_rewards gd Hms order Hperm) in Hnext.
    assert (subsidy_of s' <$> selected_parent gd :: order = subsidy_of s <$> selected_parent gd :: order) as Hsub.
    { apply list_fmap_ext. intros i x Hx%list_elem_of_lookup_2. unfold subsidy_of, body_data.
      by rewrite same_body, Hp by (by apply (order_bodies gd Hms order Hperm)). }
    rewrite Hsub in Hnext. apply Hnext.
    + by rewrite Hp.
    + by rewrite same_data.
    + by eapply lookup_weaken; [|apply (gw_headers _ _ HG)].
    + done.
    + by rewrite same_body.
    + by rewrite same_body.
    + by apply (grows_order gd Hms).
    + by eapply lookup_weaken; [|apply (gw_daa _ _ HG)].
    + by apply grows_checks.
    + exact Hsig.
  - intros HV. revert Hb. induction HV as [|b gd y cb rest cb' rest' order nd U A M D Hne Hgd Hy Hsp IH Hcb Hcb' Ho Hnd daa Hval Hsig]; intros Hb.
    { rewrite Hp. apply (vc_genesis s). }
    rewrite Hp in Hne. rewrite same_data in Hgd by done.
    pose proof (merged_bodies b gd Hb Hne Hgd) as Hms. pose proof (mr_perm _ _ _ Ho) as Hperm.
    assert (is_Some (BT !! selected_parent gd)) as Hbs by (apply Hms; left). specialize (IH Hbs). subst daa.
    unfold next_utxos, next_ids in *. rewrite (grows_txs gd Hms order Hperm) in *. rewrite (grows_rewards gd Hms order Hperm) in Hval.
    assert (subsidy_of s' <$> selected_parent gd :: order = subsidy_of s <$> selected_parent gd :: order) as ->.
    { apply list_fmap_ext. intros i x Hx%list_elem_of_lookup_2. unfold subsidy_of, body_data.
      by rewrite same_body, Hp by (by apply (order_bodies gd Hms order Hperm)). }
    pose proof (by_headers _ _ _ HB) as HH. assert (is_Some (m !! b)) as Hmb by eauto.
    destruct (proj2 (hi_header_dom _ _ _ HH b) Hmb) as [y' Hy']. destruct (proj2 (hi_daa _ _ _ HH b) Hmb) as [nd' Hnd'].
    assert (y' = y) as -> by (eapply lookup_weaken in Hy'; [|apply (gw_headers _ _ HG)]; congruence).
    assert (nd' = nd) as -> by (eapply lookup_weaken in Hnd'; [|apply (gw_daa _ _ HG)]; congruence).
    rewrite same_body in Hcb, Hcb' by done.
    refine (vc_next s b gd y cb rest cb' rest' order nd U A M D Hne Hgd Hy' IH Hcb Hcb' _ Hnd' _ Hsig); [by apply (grows_order gd Hms)|].
    by apply grows_checks.
Qed.
End grows.

(** ** The invariants on a node that grows *)

Section node.
Context `{X : Externals} {IL : IterationLaws} {ML : MuHashLaws ext_inverse}.

(** A step of the other processors leaves alone the statuses of the blocks with bodies. *)
Record node_grows (s s' : BlockBodyProcessor) : Prop := {
  ng_grows : grows s s';
  ng_status b : statuses_access (bp_statuses_store s') !! b = statuses_access (bp_statuses_store s) !! b
    ∨ bt_access (bp_block_transactions_store s) !! b = None
      ∧ statuses_access (bp_statuses_store s') !! b ≠ Some StatusUTXOValid
      ∧ statuses_access (bp_statuses_store s') !! b ≠ Some StatusDisqualifiedFromChain;
  ng_pruning : hp_pruning_store (bp_stores s') = hp_pruning_store (bp_stores s);
  ng_past : hp_past_pruning_points_store (bp_stores s') = hp_past_pruning_points_store (bp_stores s);
}.

Context (W : Z) (P P' : Dag) (v : VirtualStateProcessor) (s' : BlockBodyProcessor) (HN : node_grows (vp_body v) s').
Local Abbreviation s := (vp_body v).
Local Abbreviation v' := (set_vp_body s' v).
Local Abbreviation BT := (bt_access (bp_block_transactions_store s)).
Local Abbreviation HG := (ng_grows _ _ HN).

Lemma grows_source o e : source BT o e → source (bt_access (bp_block_transactions_store s')) o e.
Proof using HN.
  intros (t & i & out & (b & txs & Hb & Ht) & Hi & Heq). exists t, i, out. split_and!; [|done|done].
  exists b, txs. split; [|done]. eapply lookup_weaken; [exact Hb|apply (gw_bodies _ _ HG)].
Qed.

Lemma grows_genesis : genesis_of v' = genesis_of v.
Proof using HN. change (p_genesis_hash (hp_params (bp_stores s')) = p_genesis_hash (hp_params (bp_stores s))). by rewrite (gw_params _ _ HG). Qed.

Section chain.
Context (HC : chain_inv W P v).

Lemma grows_leads b d U : leads_to v b d U → leads_to v' b d U.
Proof using HN HC IL ML.
  intros (gd & U0 & A0 & M0 & D0 & Hgd & HV & Hd & Ha & He). exists gd, U0, A0, M0, D0. split_and!.
  - eapply lookup_weaken; [exact Hgd|apply (gw_data _ _ HG)].
  - apply (grows_valid W P s s' (ci_body _ _ _ HC) HG); [|done]. by apply (valid_known W P v HC).
  - done.
  - done.
  - done.
Qed.

Lemma grows_chain : body_inv W s' P' → world_ok s' → chain_inv W P' v'.
Proof using HN HC IL ML.
  intros HB HW. pose proof HC as [F1 F2 F3 F4 F5 F6 F7 F8 F9]. pose proof (ng_status _ _ HN) as Hst.
  assert (∀ b, is_Some (diff_of v b) → is_Some (BT !! b)) as Hbody by (intros b Hb; by apply (valid_known W P v HC)).
  split.
  - done.
  - done.
  - intros b. change (diff_of v' b) with (diff_of v b). change (status_of v' b) with (statuses_access (bp_statuses_store s') !! b).
    destruct (Hst b) as [->|(Hn & H1 & _)]; [apply F3|]. split; [done|]. intros Hd. destruct (Hbody b Hd) as [? ?]. congruence.
  - intros b. change (status_of v' b) with (statuses_access (bp_statuses_store s') !! b). intros Hd U A M D HV.
    destruct (Hst b) as [He|(_ & _ & H2)]; [|done]. rewrite He in Hd. apply (F4 b Hd U A M D).
    apply (grows_valid W P s s' F1 HG); [|done]. apply (by_stored _ _ _ F1). by exists StatusDisqualifiedFromChain.
  - rewrite grows_genesis. exact F5.
  - intros b d Hd. destruct (F6 b d Hd) as (U & A & M & D & HV & Hl & Hu). exists U, A, M, D. split_and!; [| |exact Hu].
    + apply (grows_valid W P s s' F1 HG); [|done]. apply Hbody. eauto.
    + rewrite grows_genesis. intros Hne. by apply grows_leads, Hl.
  - exact F7.
  - exact F8.
  - exact F9.
Qed.
End chain.

Lemma grows_virtual : virtual_inv W P v → body_inv W s' P' → world_ok s' → virtual_inv W P' v'.
Proof using HN IL ML.
  intros [HC (vs & Hvs & [(U & A & M & D & HV & Ha & He) Hd Hs] & Hc & Hm)] HB HW. split; [by apply grows_chain|].
  exists vs. split_and!; [done| |done|done]. split; [|done|].
  - exists U, A, M, D. split_and!; [|done|done]. apply (grows_valid W P s s' (ci_body _ _ _ HC) HG); [|done]. by apply (valid_known W P v HC).
  - intros o e Ho. by apply grows_source, Hs.
Qed.

Lemma grows_pruning b info : pruning_state v b info → pruning_state v' b info.
Proof using HN.
  intros [F1 F2 F3 F4 F5 F6 F7 F8]. pose proof (gw_data _ _ HG) as Hm. unfold vp_stores in *.
  assert (∀ x, is_Some (hp_data (bp_stores s) !! x) → is_Some (hp_data (bp_stores s') !! x)) as Hk.
  { intros x [d Hd]. exists d. by eapply lookup_weaken. }
  split; unfold vp_stores; cbn [vp_body set_vp_body]; rewrite ?(ng_pruning _ _ HN), ?(ng_past _ _ HN), ?grows_genesis.
  - done.
  - by apply Hk.
  - by apply Hk.
  - by apply (sel_chain_mono _ _ _ _ Hm).
  - done.
  - intros i Hi. destruct (F6 i Hi) as (h & Hh & Hkh & Hch). exists h. split_and!; [done|by apply Hk|by apply (sel_chain_mono _ _ _ _ Hm)].
  - done.
  - destruct F8 as [?|(Hne & gd & Hgd & Hch)]; [by left|right]. split; [done|]. exists gd.
    split; [by eapply lookup_weaken|by apply (sel_chain_mono _ _ _ _ Hm)].
Qed.
End node.

(** ** Steps *)

Section history.
Context `{X : Externals} {IL : IterationLaws} {ML : MuHashLaws ext_inverse}.
Context (fuel : nat) (pow_hash : Header → Uint.Uint) (wcs : nat) (W : Z).

Lemma grows_refl s : grows s s.
Proof using. by split. Qed.

Lemma node_grows_refl s : node_grows s s.
Proof using. split; [apply grows_refl|by left|done|done]. Qed.

(** A status of a block that has no body. *)
Lemma mark_grows s h st : bt_access (bp_block_transactions_store s) !! h = None → st ≠ StatusUTXOValid → st ≠ StatusDisqualifiedFromChain →
  node_grows s (with_stores s (with_status h st (bp_stores s))).
Proof using.
  intros Hn H1 H2. split; [by split| |done|done]. intros b.
  change (statuses_access (bp_statuses_store (with_stores s (with_status h st (bp_stores s)))) !! b)
    with (<[h := st]> (statuses_access (hp_statuses_store (bp_stores s))) !! b).
  destruct (decide (b = h)) as [->|Hne]; [|left; by rewrite lookup_insert_ne]. right. rewrite lookup_insert_eq.
  split_and!; [done|by intros [= ->]|by intros [= ->]].
Qed.

Lemma header_node_grows s rnd now header ps info o s' : body_inv W s (node_dag s) →
  processable fuel pow_hash now W (bp_stores s) (node_dag s) header ps info →
  process_header fuel pow_hash wcs rnd now header (bp_stores s) = (o, s') → o ≠ Panic → node_grows s (with_stores s s').
Proof using.
  intros HB HR Hrun Hno. pose proof (by_headers _ _ _ HB) as HH. pose proof (process_ok fuel pow_hash wcs rnd now W (bp_stores s) (node_dag s) header ps info HH HR) as Hok.
  rewrite Hrun in Hok. destruct o as [st|e| |]; [|clear Hno|done|done].
  - destruct Hok as [(-> & _)|(_ & Hst & _ & Hgr & _)]; [rewrite with_stores_self; apply node_grows_refl|].
    assert (hp_data (bp_stores s) !! h_hash header = None) as Hnew.
    { destruct (hp_data (bp_stores s) !! h_hash header) eqn:Hd; [|done]. destruct (hi_status _ _ _ HH (h_hash header)) as [? ?]; [eauto|congruence]. }
    assert (∀ {A} (f : gmap Hash A), (∀ h, is_Some (f !! h) ↔ is_Some (hp_data (bp_stores s) !! h)) → f !! h_hash header = None) as Hdom.
    { intros A f Hf. apply eq_None_not_Some. intros Hs%Hf. rewrite Hnew in Hs. by destruct Hs. }
    destruct Hgr as [G1 [level G2] G3 G4 G5 [d G6] [nd G7]]. split; [split|..]; cbn [with_stores bp_stores bp_block_transactions_store].
    + done.
    + rewrite G6. by apply insert_subseteq.
    + rewrite G2. apply insert_subseteq, Hdom, (hi_header_dom _ _ _ HH).
    + rewrite G7. apply insert_subseteq, Hdom, (hi_daa _ _ _ HH).
    + done.
    + intros b. change (statuses_access (bp_statuses_store (with_stores s s'))) with (statuses_access (hp_statuses_store s')). rewrite G3.
      destruct (decide (b = h_hash header)) as [->|Hne]; [|left; by rewrite lookup_insert_ne]. right. rewrite lookup_insert_eq. split_and!; [|done|done].
      apply eq_None_not_Some. intros (st' & Hst' & _)%(by_stored _ _ _ HB). congruence.
    + done.
    + done.
  - destruct Hok as [[->|[-> Hst]] _]; [rewrite with_stores_self; apply node_grows_refl|]. apply mark_grows; [|done|done].
    apply eq_None_not_Some. intros (st' & Hst' & _)%(by_stored _ _ _ HB). congruence.
Qed.

Lemma body_node_grows s b o s' : body_inv W s (node_dag s) → body_ready (bp_stores s) b →
  (size (hp_data (bp_stores s)) < fuel)%nat → process_block_body fuel b s = (o, s') → node_grows s s'.
Proof using.
  intros HB HR Hf Hrun. destruct (process_body_ok W s (node_dag s) HB fuel b HR Hf) as (st & Hst & Hok). rewrite Hrun in Hok. unfold bp_statuses_store in Hst.
  assert (st = StatusHeaderOnly → bt_access (bp_block_transactions_store s) !! block_hash b = None) as Hnew.
  { intros ->. apply eq_None_not_Some. intros (st' & Hst' & Hb)%(by_stored _ _ _ HB). rewrite Hst in Hst'. by injection Hst' as <-. }
  destruct o as [st'|e| |]; [| |done|done].
  - destruct Hok as [(-> & _)|(-> & _ & _ & _ & Hs' & Ht')]; [apply node_grows_refl|]. specialize (Hnew eq_refl).
    split; [split; rewrite ?Hs'|..]; [done|done|done|done|rewrite Ht'; by apply insert_subseteq| |by rewrite Hs'|by rewrite Hs'].
    intros x. unfold bp_statuses_store. rewrite Hs'.
    change (statuses_access (hp_statuses_store (with_status ?h ?st (bp_stores s)))) with (<[h := st]> (statuses_access (hp_statuses_store (bp_stores s)))).
    destruct (decide (x = block_hash b)) as [->|Hne]; [|left; by rewrite lookup_insert_ne]. right. by rewrite lookup_insert_eq.
  - destruct Hok as [(-> & _)|(-> & _ & -> & _)]; [apply node_grows_refl|]. destruct (is_retryable e); [apply node_grows_refl|].
    apply mark_grows; [by apply Hnew|done|done].
Qed.

(** What is assumed of a call of [resolve_virtual]: room for one more block, and no block
    that the pruning candidate is not below. *)
Record resolvable (v : VirtualStateProcessor) : Prop := {
  rv_room : virtual_room W (node_dag (vp_body v)) fuel (vp_stores v);
  rv_final b info : selected_tip v b → pruning_access (hp_pruning_store (vp_stores v)) = Some info → b ≠ genesis_of v →
    ∃ gd, hp_data (vp_stores v) !! b = Some gd ∧ sel_chain (hp_data (vp_stores v)) (pi_candidate info) (selected_parent gd);
}.

(** One call of one of the processors. *)
Inductive virtual_step : VirtualStateProcessor → VirtualStateProcessor → Prop :=
| virtual_node v s' : node_step fuel pow_hash wcs W (vp_body v) s' → world_ok s' → virtual_step v (set_vp_body s' v)
| virtual_resolve v o v' : resolvable v → resolve_virtual (E:=RuleError) fuel v = (o, v') → o ≠ Panic → virtual_step v v'.

(** The invariant of the node. *)
Definition node_inv (v : VirtualStateProcessor) : Prop := virtual_inv W (node_dag (vp_body v)) v
  ∧ ∃ vs info, vst_access (vp_state_store v) = Some vs ∧ pruning_state v (selected_parent (vs_ghostdag_data vs)) info.

Lemma node_step_keeps v s' : node_inv v → node_step fuel pow_hash wcs W (vp_body v) s' → world_ok s' → node_inv (set_vp_body s' v).
Proof using IL ML.
  intros [HV (vs & info & Hvs & HP)] Hstep HW. pose proof (ci_body _ _ _ (vi_chain _ _ _ HV)) as HB.
  assert (body_inv W s' (node_dag s') ∧ node_grows (vp_body v) s') as [HB' HN].
  { remember (vp_body v) as s eqn:Hs. destruct Hstep as [s rnd now header ps info' o h' HR Hrun Hno|s b o s' HR Hf Hrun].
    - split; [by eapply header_step_ok|by eapply header_node_grows].
    - split; [by eapply body_step_ok|by eapply body_node_grows]. }
  split; [by eapply grows_virtual|]. exists vs, info. split; [done|]. by apply grows_pruning.
Qed.
(** The genesis is the tip only while there is no other block. *)
Lemma genesis_tip P v b : chain_inv W P v → SetOrderLaw → selected_tip v (genesis_of v) →
  is_Some (bt_access (bp_block_transactions_store (vp_body v)) !! b) → b = genesis_of v.
Proof using.
  intros HC HO (T & HT & Hsel) Hb. pose proof (ci_body _ _ _ HC) as HB. pose proof (hi_dag _ _ _ (by_headers _ _ _ HB)) as HG.
  destruct (tips_run W P v HC HO) as (T' & t & HT' & Hsel' & Htips). rewrite HT in HT'. injection HT' as <-.
  assert (t = genesis_of v) as -> by congruence.
  destruct (decide (b = genesis_of v)) as [|Hne]; [done|]. exfalso.
  destruct (ancestor_child P (genesis_of v) b) as (c & ps & Hps & Hin & Hc); [apply (gd_root _ _ _ _ HG), (known_body W _ P HB), Hb|done|].
  assert (genesis_of v ∈ T) as Hg by (apply elem_of_elements; rewrite <- (HO T); apply (to_selected _ _ _ _ Htips)).
  destruct (by_tips _ _ _ HB) as (T' & HT' & Hof). rewrite HT in HT'. injection HT' as <-.
  apply Hof in Hg as [_ Hg]. apply (Hg c ps); [|done|done]. apply (by_stored _ _ _ HB).
  apply (ancestor_body W _ P HB c b); [done|done|]. intros ->. rewrite (gd_origin _ _ _ _ HG) in Hps. injection Hps as <-. by apply elem_of_nil in Hin.
Qed.

(** The pruning points are below the next selected tip. *)
Lemma next_pruning v : node_inv v → resolvable v → SetOrderLaw → ∀ b, selected_tip v b → ∃ info, pruning_state v b info.
Proof using IL ML.
  intros [HV (vs & info & Hvs & HP)] [HR Hfin] HO b Hb. exists info. pose proof (vi_chain _ _ _ HV) as HC.
  destruct HP as [F1 F2 F3 F4 F5 F6 F7 F8]. split; try done.
  destruct (decide (b = genesis_of v)) as [->|Hne]; [left|right; split; [done|by apply Hfin]].
  assert (selected_parent (vs_ghostdag_data vs) = genesis_of v) as Heq.
  { apply (genesis_tip _ v _ HC HO Hb). destruct HV as [_ (vs0 & Hvs0 & [_ Hd _] & _)]. assert (vs0 = vs) as -> by congruence.
    by apply (valid_known W _ v HC). }
  rewrite Heq in F8. by destruct F8 as [[_ ?]|[? _]].
Qed.

Lemma resolve_keeps v : node_inv v → resolvable v → SetOrderLaw →
  runs_unless (tip_crashes (node_dag (vp_body v)) v) (resolve_virtual (E:=RuleError) fuel) v (λ _ w, node_inv w ∧ node_dag (vp_body w) = node_dag (vp_body v)
    ∧ ∃ b vs vs', vst_access (vp_state_store v) = Some vs ∧ vst_access (vp_state_store w) = Some vs'
      ∧ virtual_resolved (node_dag (vp_body v)) v w b vs vs').
Proof using IL ML.
  intros HI HR HO. pose proof HI as [HV (vs & info & Hvs & HP)].
  eapply unless_mono; [apply (resolve_run W (node_dag (vp_body v)) fuel v vs info HV Hvs (rv_room _ HR) HO HP)|done|].
  - intros b Hb. destruct (next_pruning v HI HR HO b Hb) as [info' HP']. by rewrite (inj Some info info') by (by rewrite <- (pn_info _ _ _ HP), (pn_info _ _ _ HP')).
  - intros _ w (Hw & b & vs' & info' & Hvs' & Hres & HP').
    assert (node_dag (vp_body w) = node_dag (vp_body v)) as Hdag by (symmetry; apply (body_inv_dag _ _ _ (ci_body _ _ _ (vi_chain _ _ _ Hw)))).
    split_and!; [|done|by exists b, vs, vs']. split; [by rewrite Hdag|]. by exists vs', info'.
Qed.

Lemma virtual_step_keeps v v' : SetOrderLaw → node_inv v → virtual_step v v' → node_inv v'.
Proof using IL ML.
  intros HO HI Hstep. destruct Hstep as [v s' Hs HW|v o v' HR Hrun Hno]; [by apply node_step_keeps|].
  pose proof (resolve_keeps v HI HR HO) as Hk. unfold runs_unless in Hk. rewrite Hrun in Hk. destruct o; [by destruct Hk|done..].
Qed.

Lemma virtual_history v v' : SetOrderLaw → node_inv v → rtc virtual_step v v' → node_inv v'.
Proof using IL ML. intros HO HI Hr. induction Hr as [|v w v' Hs _ IH]; [done|]. by eapply IH, virtual_step_keeps. Qed.

Lemma genesis_node_inv v : fresh_virtual W (node_dag (vp_body v)) fuel v →
  runs (process_genesis_state_if_needed (E:=RuleError) fuel) v (λ _ w, node_inv w).
Proof using ML.
  intros HF. destruct (genesis_run W _ fuel v HF) as (data & Hsel & Hrun). eapply runs_mono; [exact Hrun|]. intros _ w ->.
  destruct (genesis_virtual_inv W _ fuel v data HF Hsel) as [HV HP]. split; [exact HV|]. do 2 eexists. split; [reflexivity|].
  cbn [vs_ghostdag_data virtual_from_genesis]. rewrite Hsel. exact HP.
Qed.
End history.
