(* ===== verification/VirtualTheorems.v ===== *)
(** * Properties of the virtual processor

    The claims about the virtual state, and a node of the main network on which they are
    applied: the genesis is processed, a block arrives and is resolved. *)

From S2P Require Import Prelude Hash Uint Interval ReachStore ReachSim ReachTree ReachQuery ReachDag ReachMain ReachService Relations Headers GhostdagStore Ghostdag GhostdagInv GhostdagMerge GhostdagRun Window WindowProof Difficulty DifficultyProof Stores Depth SelectedChain DepthProof Errors HeaderProcessor HeaderInv HeaderValidate HeaderRun HeaderMain HeaderTheorems Tx Utxo UtxoProof Hashing HashingProof Merkle Database DatabaseProof TxValidator TxValidatorProof Coinbase CoinbaseProof BodyProcessor BodyProof BodyTheorems U3072 MuHash VirtualStores VirtualProcessor VirtualUtxo VirtualCalc VirtualChain VirtualMain VirtualParents VirtualUpdate VirtualHistory.

Section theorems.
Context `{X : Externals} {IL : IterationLaws} {ML : MuHashLaws ext_inverse}.
Context (fuel : nat) (pow_hash : Header → Uint.Uint) (wcs : nat) (W : Z).

(** C2: histories of the whole node.  On a node with the body of the genesis the virtual
    processor sets up its state, and from then on the invariant holds along every
    interleaving of calls of the three processors that do not panic: the virtual UTXO set
    is the set of the virtual selected parent changed by the virtual difference, committed
    to by the virtual multiset, the stored differences and multisets are those of the
    valid chain blocks, statuses are right and the pruning points lie on the selected
    chain.  In every such state in which there is room for one more block and the pruning
    candidate is below the selected tip ([resolvable]), [resolve_virtual] either returns,
    and then the greatest body tip is the virtual selected parent if its chain is valid,
    and is disqualified with the virtual state unchanged if it is not; or it panics, and
    then a block of the chain of that tip, or the virtual block over it, accepts or holds
    a transaction that meets every other rule but has an invalid signature.  Assumed of the
    bodies received, whenever one arrives ([world_ok]): ids and hashes of transactions do
    not collide, the declared subsidies are together within the supply, DAA scores are
    below 2^62, lengths fit 64 bits; and of the headers what C1 assumes. *)
Theorem virtual_history_correct v : SetOrderLaw → fresh_virtual W (node_dag (vp_body v)) fuel v →
  ∃ v0, process_genesis_state_if_needed (E:=RuleError) fuel v = (Ok tt, v0)
    ∧ ∀ w, rtc (virtual_step fuel pow_hash wcs W) v0 w → node_inv W w
      ∧ (resolvable fuel W w → match resolve_virtual (E:=RuleError) fuel w with
          | (Ok _, w') => node_inv W w' ∧ ∃ b vs vs', vst_access (vp_state_store w) = Some vs ∧ vst_access (vp_state_store w') = Some vs'
              ∧ virtual_resolved (node_dag (vp_body w)) w w' b vs vs'
          | (Panic, _) => tip_crashes (node_dag (vp_body w)) w
          | _ => False
          end).
Proof using IL ML.
  intros HO HF. pose proof (genesis_node_inv fuel W v HF) as Hg. unfold runs in Hg.
  destruct (process_genesis_state_if_needed fuel v) as [[[]|?| |] v0]; try done. exists v0. split; [done|]. intros w Hr.
  assert (node_inv W w) as HI by (by eapply virtual_history). split; [done|]. intros HR.
  pose proof (resolve_keeps fuel W w HI HR HO) as Hk. unfold runs_unless in Hk.
  destruct (resolve_virtual fuel w) as [[[]|?| |] w']; [|done|exact Hk|done]. destruct Hk as (HI' & _ & Hres). by split.
Qed.

(** A chain with a block that crashes the node is not valid. *)
Lemma chain_crash_invalid v b : chain_inv W (node_dag (vp_body v)) v → chain_crashes v b → ∀ U A M D, ¬ valid_chain (vp_body v) b U A M D.
Proof using.
  intros HC (x & Hsel & Hcr). pose proof (hi_dag _ _ _ (by_headers _ _ _ (ci_body _ _ _ HC))) as HG.
  induction Hsel as [|b d Hd Hsel IH]; intros U A M D HV; [by eapply crash_invalid|].
  inversion HV as [Hg|? gd ? ? ? ? ? ? ? U0 A0 M0 D0 _ Hgd _ Hsp]; [|unfold vp_stores in Hd; replace gd with d in Hsp by congruence; by apply (IH U0 A0 M0 D0)].
  subst b. unfold vp_stores in Hd. rewrite (gd_genesis_data _ _ _ _ HG) in Hd. injection Hd as <-.
  destruct Hcr as (gx & _ & _ & _ & _ & _ & _ & _ & _ & _ & _ & _ & Hgx & _).
  assert (hp_data (bp_stores (vp_body v)) !! Hashes.ORIGIN = None) as Ho by exact (origin_unknown _ _ _ _ HG).
  change (selected_parent genesis_ghostdag_data) with Hashes.ORIGIN in Hsel.
  inversion Hsel as [|? d' Hd']; [subst x|unfold vp_stores in Hd']; congruence.
Qed.

(** C3: verification of the UTXO state of a chain block.  For a block with a body whose
    selected parent is valid with UTXO set [U], read through any view of [U] and with any
    multiset that commits to [U], [calculate_utxo_state] followed by
    [verify_expected_utxo_state] passes exactly when the block is a valid chain block
    (commitments, accepted ids, coinbase, transactions and their signatures): then the
    mergeset difference leads from [U] to the UTXO set of the block and the multiset is
    the normal form of its commitment.  It fails only if the block is not valid; and it
    panics only if a transaction that the block accepts or holds meets every other rule
    but has an invalid signature, and then the block is not valid either.  The node
    satisfies the invariant, with the assumptions on the bodies named in C2. *)
Theorem utxo_state_verified v cur gd U A M D : node_inv W v →
  is_Some (bt_access (bp_block_transactions_store (vp_body v)) !! cur) → cur ≠ genesis_of v →
  hp_data (vp_stores v) !! cur = Some gd → valid_chain (vp_body v) (selected_parent gd) U A M D →
  ∃ x, headers_access (hp_headers_store (vp_stores v)) !! cur = Some x
    ∧ (crashes (vp_body v) cur → ∀ U A M D, ¬ valid_chain (vp_body v) cur U A M D)
    ∧ ∀ (T : Type) (HT : UtxoView T) (view : T) ms cache, shows view U → commits ms U → sig_cache_ok ext_verify cache →
      match calculate_utxo_state (E:=unit) (vp_body v) view (h_daa_score (lv_header x)) (utxo_context_new gd ms, cache) with
      | (Ok _, st) => verified v cur U (verify_expected_utxo_state (vp_body v) view (lv_header x) st)
      | (Panic, _) => crashes (vp_body v) cur
      | _ => False
      end.
Proof using IL ML.
  intros [HV _] Hb Hne Hgd Hsp. pose proof (vi_chain _ _ _ HV) as HC.
  destruct (up_verified W _ v HC cur gd Hgd Hne Hb U A M D Hsp) as (x & Hx & Hrun). exists x. split; [done|].
  split; [intros Hcr ? ? ? ?; by apply crash_invalid|]. intros T HT view ms cache H1 H2 H3.
  pose proof (Hrun T HT view ms cache H1 H2 H3) as Hr. unfold runs_unless in Hr.
  destruct (calculate_utxo_state _ _ _ _) as [[[]|?| |] st]; done.
Qed.

(** C4: reorganisations.  [walk_to] moves from the virtual state to any block with a body.
    When it returns it has left the virtual stores alone and kept the invariant of the
    chain, and has decided whether the block is valid: if it is, the accumulated
    difference applied to the virtual UTXO set gives exactly the UTXO set of the block,
    whatever blocks were undone and redone on the way; if not, the block is disqualified.
    It panics only if a block of the chain accepts or holds a transaction that meets every
    other rule but has an invalid signature; then the block is not valid.  It does
    nothing else: it ends, and returns no error.  The node satisfies the invariant, with
    the assumptions on the bodies named in C2. *)
Theorem walk_to_correct v vs b : node_inv W v → vst_access (vp_state_store v) = Some vs →
  is_Some (bt_access (bp_block_transactions_store (vp_body v)) !! b) → (size (hp_data (vp_stores v)) < fuel)%nat →
  match walk_to (E:=RuleError) fuel vs b v with
  | (Ok acc, w) => chain_inv W (node_dag (vp_body v)) w ∧ vp_virtual_stores w = vp_virtual_stores v
    ∧ ((∃ A M D, status_of w b = Some StatusUTXOValid ∧ applies acc (us_access (vp_utxo_set v))
          ∧ valid_chain (vp_body v) b (apply acc (us_access (vp_utxo_set v))) A M D)
      ∨ status_of w b = Some StatusDisqualifiedFromChain ∧ ∀ U A M D, ¬ valid_chain (vp_body v) b U A M D)
  | (Panic, _) => chain_crashes v b ∧ ∀ U A M D, ¬ valid_chain (vp_body v) b U A M D
  | _ => False
  end.
Proof using IL ML.
  intros [HV _] Hvs Hb Hf. pose proof (walk_to_run (E:=RuleError) W _ fuel v vs b HV Hvs Hb Hf) as Hr. unfold runs_unless in Hr.
  destruct (walk_to fuel vs b v) as [[acc|?| |] w]; [|done|split; [done|apply chain_crash_invalid; [apply HV|done]]|done].
  destruct Hr as (Hw & HX & Hres).
  split_and!; [done|apply HX|]. destruct Hres as [[Ha (A & M & D & HVb) Hd]|Hst].
  - left. exists A, M, D. unfold vp_utxo_set in *. rewrite (ec_virtual _ _ HX) in *.
    split_and!; [by apply (ci_status _ _ _ Hw)|done|by apply (extends_valid v w)].
  - right. split; [done|]. intros U A M D HVb. by apply (ci_disqualified _ _ _ Hw b Hst U A M D), (extends_valid v w).
Qed.

(** C5: coins are conserved.  On a node that satisfies the invariant, with the assumptions
    on the bodies named in C2, the coins of the UTXO set of a valid chain block, together
    with the rewards that its coinbase may pay (the subsidies and fees of the blocks that
    it merges), are at most the subsidies declared by the blocks that its chain merges,
    each of which is counted once and is a proper ancestor of the block with a body; every
    entry of the set is an output of a transaction of a stored body, accepted by the chain. *)
Theorem supply_bounded v b U A M D : node_inv W v → valid_chain (vp_body v) b U A M D →
  0 ≤ D ∧ coins U + D ≤ granted (vp_body v) M
  ∧ (∀ x, x ∈ M → x ≠ b ∧ ancestor (node_dag (vp_body v)) x b ∧ is_Some (bt_access (bp_block_transactions_store (vp_body v)) !! x))
  ∧ ∀ o e, U !! o = Some e → op_transaction_id o ∈ A ∧ source (bt_access (bp_block_transactions_store (vp_body v))) o e.
Proof using IL ML.
  intros [HV _] Hb. pose proof (vi_chain _ _ _ HV) as HC.
  pose proof (valid_facts W _ _ (ci_body _ _ _ HC) (ci_world _ _ _ HC) _ _ _ _ _ Hb) as HF.
  split_and!; [apply HF|apply HF|apply (cf_merged _ _ _ _ _ _ _ HF)|].
  intros o e Ho. by apply (le_source _ _ _ (cf_ledger _ _ _ _ _ _ _ HF)).
Qed.

(** C34: the parents of the virtual block.  On a node that satisfies the invariant, with
    the pruning candidate below the greatest body tip and with room for one more block in
    the machine integers (scores, work and the bound of the loops; [resolvable]),
    [pick_virtual_parents] ends on the body tips: the parents are distinct
    blocks below tips, none an ancestor of another, headed by the greatest tip which is
    the selected parent, as many as the limit allows at most, with a mergeset within the
    limit of its size. *)
Theorem virtual_parents_correct v : node_inv W v → resolvable fuel W v → SetOrderLaw →
  ∃ T b parents d, tips_access (bp_body_tips_store (vp_body v)) = Some T ∧ b ∈ T
    ∧ (∀ t, t ∈ T → sb_le (as_sortable (hp_data (vp_stores v)) t) (as_sortable (hp_data (vp_stores v)) b))
    ∧ pick_virtual_parents (E:=RuleError) fuel (vp_stores v) b (ext_set_order T) = Ok (parents, d)
    ∧ virtual_parents_ok (vp_stores v) (node_dag (vp_body v)) b (ext_set_order T) (p_max_block_parents (vp_params v))
        (p_mergeset_size_limit (vp_params v)) parents d.
Proof using IL ML.
  intros HI HR HO. pose proof (vi_chain _ _ _ (proj1 HI)) as HC. destruct (tips_run W _ v HC HO) as (T & b & HT & Hb & Htips).
  destruct (next_pruning fuel W v HI HR HO b) as [info HP]; [by exists T|].
  destruct (pick_tips W _ fuel v (ext_set_order T) b info HC (rv_room _ _ _ HR) Htips HP) as (parents & d & Hpick & Hok).
  assert (∀ t, t ∈ ext_set_order T ↔ t ∈ T) as Hin by (intros t; by rewrite (HO T), elem_of_elements).
  exists T, b, parents, d. split_and!; [done|apply Hin, Htips|intros t Ht%Hin; by apply (to_max _ _ _ _ Htips)|done|done].
Qed.
End theorems.

(** The rewards that the coinbase of a valid block may pay. *)
Lemma valid_due `{X : Externals} s b gd U A M D : valid_chain s b U A M D → b ≠ p_genesis_hash (hp_params (bp_stores s)) →
  hp_data (bp_stores s) !! b = Some gd → ∃ cb order daa U0, merge_order s gd order
    ∧ D = zsum (subsidy_of s <$> selected_parent gd :: order) + fees (next_txs s daa U0 gd cb order).
Proof.
  inversion 1 as [|? gd2 x cb rest cb' rest' order nd U0 A0 M0 D0 Hne Hgd Hx Hsp Hcb Hcb' Ho Hnd daa Hval Hsig]; [done|].
  intros _ Hgd'. assert (gd2 = gd) as -> by congruence. by exists cb, order, daa, U0.
Qed.

(** ** A node of the main network *)

(** On a node of at most two blocks the windows are too small to move the target. *)
Lemma short_window_target data time w : (length w ≤ 1)%nat → next_target data time w = 0.
Proof. destruct w as [|x [|y w]]; cbn [length]; [done|intros _|lia]. unfold next_target, by_time. by destruct time. Qed.

Lemma window_short (P : Dag) (m : GdMap) g ps n w : (size m ≤ 2)%nat → is_Some (m !! g) → top n (window_of P m g ps) w → (length w ≤ 1)%nat.
Proof.
  intros Hs Hg HT. assert (w ⊆+ as_sortable m <$> elements (dom m ∖ {[g]} : gset Hash)) as Hsub.
  { apply NoDup_submseteq; [apply (top_nodup _ _ _ HT)|]. intros x Hx. destruct (top_in _ _ _ HT x Hx) as (h & -> & Hh & Hne & _).
    apply list_elem_of_fmap_2, elem_of_elements, elem_of_difference. split; [by apply elem_of_dom|by intros ?%elem_of_singleton]. }
  apply submseteq_length in Hsub. rewrite length_fmap in Hsub. change (length (elements ?X)) with (size X) in Hsub.
  rewrite size_difference, size_singleton, size_dom in Hsub by (by apply singleton_subseteq_l, elem_of_dom). lia.
Qed.

(** What is left to check of a node of at most two blocks. *)
Definition small_node (W : Z) (fuel : nat) (hp : HeaderProcessor) : Prop :=
  let m := hp_data hp in let p := hp_params hp in
  (size m ≤ 2)%nat ∧ is_Some (m !! p_genesis_hash p)
  ∧ map_Forall (λ _ d, 0 ≤ blue_score d ∧ blue_score d + p_ghostdag_k p + 1 ≤ u64_max ∧ 0 ≤ blue_work d
      ∧ blue_work d + (p_ghostdag_k p + 1) * W < 2 ^ 192 ∧ blue_score d + p_finality_depth p + p_pruning_depth p ≤ u64_max) m
  ∧ map_Forall (λ _ x, 0 ≤ h_daa_score (lv_header x) ∧ h_daa_score (lv_header x) < 1000) (headers_access (hp_headers_store hp))
  ∧ 1 ≤ p_mergeset_size_limit p ≤ u64_max ∧ 1 ≤ p_max_block_parents p
  ∧ (pi_index <$> pruning_access (hp_pruning_store hp)) = Some 0 ∧ (9 < fuel)%nat.
#[global] Instance small_node_dec W fuel hp : Decision (small_node W fuel hp).
Proof. unfold small_node. apply _. Defined.

Lemma small_room (W : Z) (P : Dag) (fuel : nat) (hp : HeaderProcessor) : (size P ≤ 3)%nat → small_node W fuel hp → virtual_room W P fuel hp.
Proof.
  intros HP (Hs & Hg & Hd & Hh & Hl & Hp & Hi & Hf). split.
  - intros ps Hps. split.
    + intros q d Hq Hqd. destruct (Hd q d Hqd) as (? & ? & ? & ? & _). done.
    + intros h [d Hhd]. unfold score_of. rewrite Hhd. by destruct (Hd h d Hhd) as (_ & _ & _ & _ & ?).
    + unfold u64_max. lia.
    + intros h x Hx. specialize (Hh h x Hx). cbn beta in Hh. unfold u64_max. lia.
    + intros w Hw. rewrite short_window_target; [by apply Z.ltb_lt|]. by eapply window_short.
  - intros h x Hx. specialize (Hh h x Hx). cbn beta in Hh. lia.
  - unfold u64_max. lia.
  - done.
  - done.
  - intros info Hinfo. rewrite Hinfo in Hi. injection Hi as ->. unfold u64_max. lia.
  - nia.
Qed.

Section example.
Definition ex_externals : Externals :=
  Build_Externals ex_digest ex_stream list_order ex_inverse (λ _, true) (λ _, true) (λ _ _ _, true) id elements.
#[local] Existing Instance ex_externals.

Lemma ex_virtual_laws : MuHashLaws ext_inverse.
Proof.
  split; [apply ex_inverse_law|apply (ml_stream (MuHashLaws:=ex_muhash_laws))|]. intros data. by vm_compute.
Qed.

Lemma ex_set_order : SetOrderLaw.
Proof. intros T. reflexivity. Qed.

(** The transactions of the example do not collide with any other. *)
Lemma ex_digest_table payload bytes : payload = genesis_coinbase_payload ∨ payload = ex_payload →
  ex_tx_digest (ex_tx_bytes payload) = ex_tx_digest bytes → bytes = ex_tx_bytes payload.
Proof.
  assert (ex_tx_bytes ex_payload ≠ ex_tx_bytes genesis_coinbase_payload) as Hne by (intros Heq; by vm_compute in Heq).
  intros [->| ->]; unfold ex_tx_digest; [rewrite decide_True by done|rewrite decide_False, decide_True by done]; by repeat case_decide.
Qed.

Lemma ex_hash_commits payload t : payload = genesis_coinbase_payload ∨ payload = ex_payload →
  tx_fits t → ex_tx_digest (ex_tx_bytes payload) = tx_hash t → tx_outputs t = [].
Proof.
  intros Hp Ht Hb%ex_digest_table; [|done]. apply (transaction_decodes id _ _ _ input_full_decodes Ht) in Hb.
  - by apply (f_equal tx_outputs) in Hb.
  - destruct Hp as [->| ->]; split; fitting.
Qed.

Definition small_world (s : BlockBodyProcessor) : Prop :=
  map_Forall (λ _ txs, txs = [genesis_coinbase] ∨ txs = [ex_coinbase]) (bt_access (bp_block_transactions_store s))
  ∧ map_Forall (λ _ x, 0 ≤ h_daa_score (lv_header x) ∧ h_daa_score (lv_header x) < 1000) (headers_access (hp_headers_store (bp_stores s)))
  ∧ zsum (subsidy_of s <$> elements (dom (bt_access (bp_block_transactions_store s)))) ≤ MAX_SOMPI.
#[local] Instance small_world_dec s : Decision (small_world s).
Proof. unfold small_world. apply _. Defined.

Lemma ex_world s : hp_params (bp_stores s) = MAINNET_PARAMS → small_world s → world_ok s.
Proof.
  intros Hp (Htx & Hdaa & Hem).
  assert (∀ t, stored (bt_access (bp_block_transactions_store s)) t → t = genesis_coinbase ∨ t = ex_coinbase) as Hst.
  { intros t (b & txs & Hb & Ht). destruct (Htx b txs Hb) as [->| ->]; apply list_elem_of_singleton in Ht; auto. }
  split.
  - intros t t' [->| ->]%Hst [->| ->]%Hst; try done; intros Heq; exfalso; by vm_compute in Heq.
  - intros t t' [->| ->]%Hst _ Hf Heq; symmetry; [apply (ex_hash_commits genesis_coinbase_payload)|apply (ex_hash_commits ex_payload)]; auto.
  - intros h x Hx. specialize (Hdaa h x Hx). cbn beta in Hdaa. lia.
  - intros b txs Hb. by destruct (Htx b txs Hb) as [->| ->].
  - done.
  - rewrite Hp. by split.
  - rewrite Hp. by split.
  - rewrite Hp. split; [split|]; by apply Z.leb_le.
Qed.

(** ** The states *)

(** The bodies of the genesis, before any past pruning point is known. *)
Definition ex_unset : VirtualStateProcessor :=
  mkVirtualProcessor ex_with_genesis (mkUtxoDiffs ∅) (mkUtxoMultisets ∅) (mkAcceptance ∅)
    (mkVirtualStores (mkVirtualStore None) (mkUtxoSet ∅)) (cache_new 8).
Definition ex_virtual : VirtualStateProcessor := set_vp_past_pruning (mkPastPruning ∅) ex_unset.
Definition ex_virtual0 : VirtualStateProcessor := snd (process_genesis_state_if_needed (E:=RuleError) 16 ex_virtual).
Definition ex_virtual1 : VirtualStateProcessor :=
  set_vp_body (with_stores (vp_body ex_virtual0)
    (snd (process_header 16 ex_pow 2 ex_victims ex_now (ex_header_over ex_root) (vp_stores ex_virtual0)))) ex_virtual0.
Definition ex_virtual2 : VirtualStateProcessor := set_vp_body (snd (process_block_body 16 ex_block (vp_body ex_virtual1))) ex_virtual1.
Definition ex_virtual3 : VirtualStateProcessor := snd (resolve_virtual (E:=RuleError) 16 ex_virtual2).

Lemma same_pruning v : set_vp_pruning (hp_pruning_store (vp_stores v)) v = v.
Proof. by destruct v as [[[] ? ?] ? ? ? ? ?]. Qed.

Lemma unset_past W past v : body_inv W (vp_body v) (node_dag (vp_body v)) →
  body_inv W (vp_body (set_vp_past_pruning past v)) (node_dag (vp_body (set_vp_past_pruning past v))).
Proof.
  intros HB. apply (body_pruning (hp_pruning_store (vp_stores v)) past) in HB. unfold with_pruning in HB. by rewrite same_pruning in HB.
Qed.

Lemma ex_params : vp_params ex_virtual = MAINNET_PARAMS.
Proof. by vm_compute. Qed.

Lemma ex_virtual_fresh : fresh_virtual ex_work (node_dag (vp_body ex_virtual)) 16 ex_virtual.
Proof.
  destruct ex_with_genesis_ok as (HB & _). split.
  - exact (unset_past ex_work (mkPastPruning ∅) ex_unset HB).
  - apply ex_world; [exact ex_params|]. apply (bool_decide_unpack _). by vm_compute.
  - by vm_compute.
  - intros b st Hb. assert (map_Forall (λ _ st, st ≠ StatusUTXOValid ∧ st ≠ StatusDisqualifiedFromChain)
      (statuses_access (vp_statuses_store ex_virtual))) as Hall by (apply (bool_decide_unpack _); by vm_compute). exact (Hall b st Hb).
  - done.
  - done.
  - done.
  - done.
  - done.
  - apply cache_new_holds.
  - by vm_compute.
  - apply small_room; [apply Nat.leb_le|apply (bool_decide_unpack _)]; by vm_compute.
Qed.

Lemma ex_virtual0_run : process_genesis_state_if_needed (E:=RuleError) 16 ex_virtual = (Ok tt, ex_virtual0).
Proof.
  unfold ex_virtual0. destruct (genesis_run _ _ _ _ ex_virtual_fresh) as (data & _ & Hrun). unfold runs in Hrun.
  by destruct (process_genesis_state_if_needed 16 ex_virtual) as [[[]|?| |] w].
Qed.

Lemma genesis_stores data v : hp_past_pruning_points_store (vp_stores v) = mkPastPruning {[0 := genesis_of v]} →
  vp_stores (genesis_state data (set_vp_past_pruning (mkPastPruning ∅) v)) = with_status (genesis_of v) StatusUTXOValid (vp_stores v).
Proof. destruct v as [[[] ? ?] ? ? ? ? ?]. cbn. by intros ->. Qed.

Lemma status_params h st s : hp_params (with_status h st s) = hp_params s.
Proof. done. Qed.
Lemma status_past h st s : hp_past_pruning_points_store (with_status h st s) = hp_past_pruning_points_store s.
Proof. done. Qed.
Lemma status_relations h st s : hp_relations_store (with_status h st s) = hp_relations_store s.
Proof. done. Qed.

Lemma ex_virtual0_stores : vp_stores ex_virtual0 = with_status MAINNET_GENESIS_HASH StatusUTXOValid
  (with_status MAINNET_GENESIS_HASH StatusUTXOPendingVerification ex_node).
Proof.
  destruct ex_with_genesis_ok as (_ & Hs & _). destruct ex_node_inv as (_ & _ & Hpast & Hp & _).
  destruct (genesis_run _ _ _ _ ex_virtual_fresh) as (data & _ & Hrun). unfold runs in Hrun. rewrite ex_virtual0_run in Hrun.
  rewrite Hrun. assert (vp_stores ex_unset = with_status MAINNET_GENESIS_HASH StatusUTXOPendingVerification ex_node) as Hv by exact Hs.
  assert (genesis_of ex_unset = MAINNET_GENESIS_HASH) as Hg.
  { change (p_genesis_hash (hp_params (vp_stores ex_unset)) = MAINNET_GENESIS_HASH). by rewrite Hv, status_params, Hp. }
  assert (hp_past_pruning_points_store (vp_stores ex_unset) = mkPastPruning {[0 := genesis_of ex_unset]}) as Hpp.
  { rewrite Hg, Hv, status_past. exact Hpast. }
  pose proof (genesis_stores data ex_unset Hpp) as Heq. rewrite Hg, Hv in Heq. exact Heq.
Qed.

Lemma ex_virtual0_dag : node_dag (vp_body ex_virtual0) = genesis_dag MAINNET_GENESIS_HASH.
Proof.
  change (DbRel.parents_access (hp_relations_store (vp_stores ex_virtual0)) = genesis_dag MAINNET_GENESIS_HASH). rewrite ex_virtual0_stores, !status_relations.
  apply (hi_parents _ _ _ (proj1 ex_node_inv)).
Qed.

Lemma ex_step1 : virtual_step 16 ex_pow 2 ex_work ex_virtual0 ex_virtual1.
Proof.
  destruct (process_header 16 ex_pow 2 ex_victims ex_now (ex_header_over ex_root) (vp_stores ex_virtual0)) as [o s'] eqn:Hrun.
  apply virtual_node; [|apply ex_world; [by vm_compute|]; apply (bool_decide_unpack _); by vm_compute].
  apply (node_header 16 ex_pow 2 ex_work (vp_body ex_virtual0) ex_victims ex_now (ex_header_over ex_root) [MAINNET_GENESIS_HASH]
    (pruning_from_genesis MAINNET_GENESIS_HASH) o).
  - rewrite ex_virtual0_dag. change (bp_stores (vp_body ex_virtual0)) with (vp_stores ex_virtual0). rewrite ex_virtual0_stores.
    by apply processable_status, processable_status, ex_processable.
  - change (bp_stores (vp_body ex_virtual0)) with (vp_stores ex_virtual0). by rewrite Hrun.
  - assert (fst (process_header 16 ex_pow 2 ex_victims ex_now (ex_header_over ex_root) (vp_stores ex_virtual0)) = Ok StatusHeaderOnly) as Ho
      by by vm_compute. rewrite Hrun in Ho. cbn [fst] in Ho. by rewrite Ho.
Qed.

Lemma ex_step2 : virtual_step 16 ex_pow 2 ex_work ex_virtual1 ex_virtual2.
Proof.
  destruct (process_block_body 16 ex_block (vp_body ex_virtual1)) as [o s'] eqn:Hrun.
  apply virtual_node; [|apply ex_world; [by vm_compute|]; apply (bool_decide_unpack _); by vm_compute].
  apply (node_body 16 ex_pow 2 ex_work (vp_body ex_virtual1) ex_block o).
  - split.
    + exists (mkLevel (ex_header_over ex_root) 224). split; [by vm_compute|done].
    + repeat constructor; by vm_compute.
    + split; by apply Z.leb_le.
  - apply Nat.ltb_lt. by vm_compute.
  - by rewrite Hrun.
Qed.

Lemma below_selected (m : GdMap) b c : selected_parent <$> m !! b = Some c → ∃ gd, m !! b = Some gd ∧ sel_chain m c (selected_parent gd).
Proof. destruct (m !! b) as [gd|]; [|done]. intros [= <-]. exists gd. split; [done|constructor]. Qed.

Lemma ex_resolvable : resolvable 16 ex_work ex_virtual2.
Proof.
  split; [apply small_room; [apply Nat.leb_le|apply (bool_decide_unpack _)]; by vm_compute|].
  intros b info (T & HT & Hb) Hinfo _.
  assert (match tips_access (bp_body_tips_store (vp_body ex_virtual2)) with
    | Some T => find_selected_parent (E:=RuleError) (hp_ghostdag_manager (vp_stores ex_virtual2)) (ext_set_order T) | None => Panic end = Ok 2%N)
    as Hok by by vm_compute. rewrite HT, Hb in Hok. injection Hok as ->.
  assert (selected_parent <$> hp_data (vp_stores ex_virtual2) !! 2%N = Some MAINNET_GENESIS_HASH) as Hsp by by vm_compute.
  assert (pi_candidate <$> pruning_access (hp_pruning_store (vp_stores ex_virtual2)) = Some MAINNET_GENESIS_HASH) as Hc by by vm_compute.
  rewrite Hinfo in Hc. apply (inj Some) in Hc. rewrite Hc. exact (below_selected _ _ _ Hsp).
Qed.

Lemma ex_history : rtc (virtual_step 16 ex_pow 2 ex_work) ex_virtual0 ex_virtual2.
Proof. exact (rtc_l _ _ _ _ ex_step1 (rtc_once _ _ ex_step2)). Qed.

Lemma ex_node_inv2 : node_inv ex_work ex_virtual2.
Proof.
  apply (virtual_history (X:=ex_externals) (IL:=list_order_laws) (ML:=ex_virtual_laws) 16 ex_pow 2 ex_work ex_virtual0 _ ex_set_order); [|exact ex_history].
  pose proof (genesis_node_inv (X:=ex_externals) (ML:=ex_virtual_laws) 16 ex_work ex_virtual ex_virtual_fresh) as Hg. unfold runs in Hg.
  rewrite ex_virtual0_run in Hg. exact Hg.
Qed.

(** The block becomes the virtual selected parent. *)
Lemma virtual_history_correct_witness : ∃ v0, process_genesis_state_if_needed (E:=RuleError) 16 ex_virtual = (Ok tt, v0)
  ∧ rtc (virtual_step 16 ex_pow 2 ex_work) v0 ex_virtual2
  ∧ ∃ w' b vs vs', resolve_virtual (E:=RuleError) 16 ex_virtual2 = (Ok tt, w') ∧ node_inv ex_work w'
      ∧ vst_access (vp_state_store ex_virtual2) = Some vs ∧ vst_access (vp_state_store w') = Some vs'
      ∧ virtual_resolved (node_dag (vp_body ex_virtual2)) ex_virtual2 w' b vs vs' ∧ status_of w' 2%N = Some StatusUTXOValid.
Proof.
  destruct (virtual_history_correct (X:=ex_externals) (IL:=list_order_laws) (ML:=ex_virtual_laws) 16 ex_pow 2 ex_work ex_virtual ex_set_order ex_virtual_fresh)
    as (v0 & Hrun & Hall). exists v0. rewrite ex_virtual0_run in Hrun. apply pair_eq in Hrun as [_ Hv]. rewrite <- Hv in Hall |- *.
  split; [exact ex_virtual0_run|].
  split; [exact ex_history|]. pose proof (proj2 (Hall ex_virtual2 ex_history) ex_resolvable) as Hres.
  assert (fst (resolve_virtual (E:=RuleError) 16 ex_virtual2) = Ok tt) as Hok by by vm_compute.
  assert (status_of (snd (resolve_virtual (E:=RuleError) 16 ex_virtual2)) 2%N = Some StatusUTXOValid) as Hst by by vm_compute.
  destruct (resolve_virtual (E:=RuleError) 16 ex_virtual2) as [o w']. cbn [fst] in Hok. rewrite Hok in Hres |- *.
  destruct Hres as (HI & b & vs & vs' & Hvs & Hvs' & Hres).
  exists w', b, vs, vs'. exact (conj eq_refl (conj HI (conj Hvs (conj Hvs' (conj Hres Hst))))).
Defined.

Definition ex_state : VirtualState := default (mkVirtual [] genesis_ghostdag_data 0 0 0 muhash_new ∅ [] ∅ ∅) (vst_access (vp_state_store ex_virtual2)).

Lemma ex_state_read : vst_access (vp_state_store ex_virtual2) = Some ex_state.
Proof. unfold ex_state. destruct ex_node_inv2 as [_ (vs & info & Hvs & _)]. by rewrite Hvs. Qed.

Lemma ex_walk_run : match walk_to (E:=RuleError) 16 ex_state 2%N ex_virtual2 with
  | (Ok _, w) => status_of w 2%N = Some StatusUTXOValid | _ => False end.
Proof. by vm_compute. Qed.

Lemma walk_to_correct_witness : ∃ acc w, walk_to (E:=RuleError) 16 ex_state 2%N ex_virtual2 = (Ok acc, w)
  ∧ (∃ A M D, status_of w 2%N = Some StatusUTXOValid ∧ applies acc (us_access (vp_utxo_set ex_virtual2))
      ∧ valid_chain (vp_body ex_virtual2) 2%N (apply acc (us_access (vp_utxo_set ex_virtual2))) A M D).
Proof.
  assert (is_Some (bt_access (bp_block_transactions_store (vp_body ex_virtual2)) !! 2%N)) as Hb
    by (apply bool_decide_unpack with (dec := is_Some_dec _); by vm_compute).
  assert (size (hp_data (vp_stores ex_virtual2)) < 16)%nat as Hf by (apply Nat.ltb_lt; by vm_compute).
  pose proof (walk_to_correct (X:=ex_externals) (IL:=list_order_laws) (ML:=ex_virtual_laws) 16 ex_work ex_virtual2 ex_state 2%N ex_node_inv2
    ex_state_read Hb Hf) as Hres. pose proof ex_walk_run as Hok.
  destruct (walk_to (E:=RuleError) 16 ex_state 2%N ex_virtual2) as [[acc|e| |] w]; [|destruct Hok..].
  exists acc, w. split; [reflexivity|]. destruct Hres as (_ & _ & [Hres|[Hst _]]); [exact Hres|]. rewrite Hst in Hok. discriminate Hok.
Defined.

Lemma virtual_parents_correct_witness : ∃ T b parents d, tips_access (bp_body_tips_store (vp_body ex_virtual2)) = Some T
  ∧ pick_virtual_parents (E:=RuleError) 16 (vp_stores ex_virtual2) b (elements T) = Ok (parents, d)
  ∧ virtual_parents_ok (vp_stores ex_virtual2) (node_dag (vp_body ex_virtual2)) b (elements T)
      (p_max_block_parents (vp_params ex_virtual2)) (p_mergeset_size_limit (vp_params ex_virtual2)) parents d.
Proof.
  destruct (virtual_parents_correct (X:=ex_externals) (IL:=list_order_laws) (ML:=ex_virtual_laws) 16 ex_work ex_virtual2 ex_node_inv2
    ex_resolvable ex_set_order) as (T & b & parents & d & HT & _ & _ & Hpick & Hok).
  exists T, b, parents, d. exact (conj HT (conj Hpick Hok)).
Defined.

Definition ex_gd : GhostdagData := default genesis_ghostdag_data (hp_data (vp_stores ex_virtual2) !! 2%N).
Definition ex_leveled_header : HeaderWithBlockLevel :=
  default (mkLevel (ex_header_over ex_root) 0) (headers_access (hp_headers_store (vp_stores ex_virtual2)) !! 2%N).

Lemma ex_gd_read : hp_data (vp_stores ex_virtual2) !! 2%N = Some ex_gd ∧ selected_parent ex_gd = genesis_of ex_virtual2
  ∧ 2%N ≠ genesis_of ex_virtual2 ∧ is_Some (bt_access (bp_block_transactions_store (vp_body ex_virtual2)) !! 2%N).
Proof.
  assert (is_Some (hp_data (vp_stores ex_virtual2) !! 2%N)) as [gd Hgd] by (apply bool_decide_unpack with (dec := is_Some_dec _); by vm_compute).
  split_and!; [unfold ex_gd; by rewrite Hgd|by vm_compute| |apply bool_decide_unpack with (dec := is_Some_dec _); by vm_compute].
  assert (bool_decide (2%N = genesis_of ex_virtual2) = false) as Hne by by vm_compute. exact (bool_decide_eq_false_1 _ Hne).
Qed.

Lemma ex_header_read : headers_access (hp_headers_store (vp_stores ex_virtual2)) !! 2%N = Some ex_leveled_header.
Proof.
  assert (is_Some (headers_access (hp_headers_store (vp_stores ex_virtual2)) !! 2%N)) as [x Hx]
    by (apply bool_decide_unpack with (dec := is_Some_dec _); by vm_compute). unfold ex_leveled_header. by rewrite Hx.
Qed.

Lemma ex_calculated : fst (calculate_utxo_state (E:=unit) (vp_body ex_virtual2) (mkUtxoSet ∅) (h_daa_score (lv_header ex_leveled_header))
  (utxo_context_new ex_gd muhash_new, cache_new 8)) = Ok tt.
Proof. by vm_compute. Qed.

Lemma utxo_state_verified_witness : ∃ st,
  calculate_utxo_state (E:=unit) (vp_body ex_virtual2) (mkUtxoSet ∅) (h_daa_score (lv_header ex_leveled_header))
    (utxo_context_new ex_gd muhash_new, cache_new 8) = (Ok tt, st)
  ∧ verified ex_virtual2 2%N ∅ (verify_expected_utxo_state (vp_body ex_virtual2) (mkUtxoSet ∅) (lv_header ex_leveled_header) st).
Proof.
  destruct ex_gd_read as (Hgd & Hsp & Hne & Hb).
  destruct (utxo_state_verified (X:=ex_externals) (IL:=list_order_laws) (ML:=ex_virtual_laws) ex_work ex_virtual2 2%N ex_gd ∅ ∅ ∅ 0 ex_node_inv2
    Hb Hne Hgd) as (x & Hx & _ & Hall); [rewrite Hsp; exact (vc_genesis (vp_body ex_virtual2))|].
  assert (Some x = Some ex_leveled_header) as Heq by exact (eq_trans (eq_sym Hx) ex_header_read).
  apply (inj Some) in Heq. rewrite Heq in Hall.
  pose proof (Hall DbUtxoSetStore _ (mkUtxoSet ∅) muhash_new (cache_new 8) (utxo_set_shows (mkUtxoSet ∅))
    ltac:(apply commits_empty; exact ex_virtual_laws) (cache_new_holds 8 _)) as Hver. pose proof ex_calculated as Hok.
  destruct (calculate_utxo_state (vp_body ex_virtual2) _ _ _) as [o st]. cbn [fst] in Hok. rewrite Hok in Hver |- *.
  exists st. exact (conj eq_refl Hver).
Defined.

(** The second block merges the genesis only. *)
Lemma ex_due gd : gd = ex_gd → unordered_mergeset_without_selected_parent gd = []
  ∧ ∀ daa U cb, zsum (subsidy_of (vp_body ex_virtual2) <$> [selected_parent gd]) + fees (next_txs (vp_body ex_virtual2) daa U gd cb []) = 100000000.
Proof.
  intros ->. destruct ex_gd_read as (_ & Hsp & _). rewrite Hsp. split; [by vm_compute|]. intros daa U cb.
  assert (with_body (vp_body ex_virtual2) (genesis_of ex_virtual2) = (genesis_of ex_virtual2, [genesis_coinbase])) as Hw by by vm_compute.
  unfold next_txs, merged_blocks. rewrite Hsp. cbn [fmap list_fmap]. rewrite Hw. 
  assert (subsidy_of (vp_body ex_virtual2) (genesis_of ex_virtual2) = 100000000) as -> by by vm_compute. done.
Qed.

(** The second block may pay out the subsidy of the genesis. *)
Lemma ex_chain : ∃ U A M, valid_chain (vp_body ex_virtual2) 2%N U A M 100000000.
Proof.
  destruct ex_gd_read as (Hgd & Hsp & Hne & Hb).
  assert (size (hp_data (vp_stores ex_virtual2)) < 16)%nat as Hf by (apply Nat.ltb_lt; by vm_compute).
  pose proof (walk_to_run (X:=ex_externals) (IL:=list_order_laws) (ML:=ex_virtual_laws) (E:=RuleError) ex_work _ 16 ex_virtual2 ex_state 2%N
    (proj1 ex_node_inv2) ex_state_read Hb Hf) as Hrun. unfold runs_unless in Hrun. pose proof ex_walk_run as Hok.
  destruct (walk_to 16 ex_state 2%N ex_virtual2) as [[acc|e| |] w]; [|destruct Hok..]. destruct Hrun as (Hw & HX & [[_ (A & M & D & HV) _]|Hst]).
  2:{ rewrite Hst in Hok. discriminate Hok. }
  apply (extends_valid ex_virtual2 w) in HV; [|done]. enough (D = 100000000) as <- by eauto.
  destruct (ex_due ex_gd eq_refl) as [Hm Hdue].
  destruct (valid_due (X:=ex_externals) _ _ _ _ _ _ _ HV Hne Hgd) as (cb & order & daa & U0 & Ho & HD).
  pose proof (mr_perm _ _ _ Ho) as Hp. rewrite Hm in Hp. apply Permutation_nil_r in Hp. rewrite Hp in HD.
  exact (eq_trans HD (Hdue daa U0 cb)).
Qed.

Lemma supply_bounded_witness : ∃ U A M, valid_chain (vp_body ex_virtual2) 2%N U A M 100000000
  ∧ coins U + 100000000 ≤ granted (vp_body ex_virtual2) M.
Proof.
  destruct ex_chain as (U & A & M & HV). exists U, A, M. split; [exact HV|].
  destruct (supply_bounded (X:=ex_externals) (IL:=list_order_laws) (ML:=ex_virtual_laws) ex_work ex_virtual2 2%N U A M 100000000 ex_node_inv2 HV)
    as (_ & Hc & _). exact Hc.
Defined.
End example.
