(* ===== verification/Addresses.v ===== *)
(** * Addresses

    [crypto/addresses/]: the text form of an address, its encoding in 5-bit characters
    with a checksum and its decoding.  Text is a list of its UTF-8 bytes.  Encoding and
    decoding round-trip, every outcome of the decoding is characterised, and a change of
    up to eight consecutive characters is always detected. *)

From Stdlib Require Import Ascii String Btauto.
From S2P Require Import Prelude.

(** ** [lib.rs] *)

Inductive AddressError : Type :=
| InvalidPrefix (prefix : list Z)
| MissingPrefix
| DecodingError (c : Z)
| BadChecksum.

Inductive Prefix : Type := Mainnet | Testnet | Devnet.

Definition bytes_of (s : string) : list Z := (λ c, Z.of_N (N_of_ascii c)) <$> list_ascii_of_string s.

Definition prefix_as_str (self : Prefix) : list Z :=
  match self with
  | Mainnet => bytes_of "kaspa"
  | Testnet => bytes_of "kaspatest"
  | Devnet => bytes_of "kaspadev"
  end.

Definition prefix_try_from (prefix : list Z) : outcome AddressError Prefix :=
  if bool_decide (prefix = bytes_of "kaspa") then Ok Mainnet
  else if bool_decide (prefix = bytes_of "kaspatest") then Ok Testnet
  else if bool_decide (prefix = bytes_of "kaspadev") then Ok Devnet
  else Err (InvalidPrefix prefix).

Record Address : Type := mkAddress { a_prefix : Prefix; a_payload : list Z; a_version : Z }.

(** ** [bech32.rs] *)

Definition CHARSET : list Z := bytes_of "qpzry9x8gf2tvdw0s3jn54khce6mua7l".
Definition REV_CHARSET : list Z := [
    100; 100; 100; 100; 100; 100; 100; 100; 100; 100; 100; 100; 100; 100; 100; 100; 100; 100; 100; 100; 100; 100; 100; 100; 100; 100;
    100; 100; 100; 100; 100; 100; 100; 100; 100; 100; 100; 100; 100; 100; 100; 100; 100; 100; 100; 100; 100; 100; 15; 100; 10; 17; 21;
    20; 26; 30; 7; 5; 100; 100; 100; 100; 100; 100; 100; 100; 100; 100; 100; 100; 100; 100; 100; 100; 100; 100; 100; 100; 100; 100;
    100; 100; 100; 100; 100; 100; 100; 100; 100; 100; 100; 100; 100; 100; 100; 100; 100; 29; 100; 24; 13; 25; 9; 8; 23; 100; 18; 22;
    31; 27; 19; 100; 1; 0; 3; 16; 11; 28; 12; 14; 6; 4; 2 ].

(** One value of [polymod]. *)
Definition polymod_step (c d : Z) : Z :=
  let c0 := Z.shiftr c 35 in
  let c := Z.lxor (Z.land (Z.shiftl (Z.land c 0x07ffffffff) 5) u64_max) d in
  let c := if negb (Z.land c0 0x01 =? 0) then Z.lxor c 0x98f2bc8e61 else c in
  let c := if negb (Z.land c0 0x02 =? 0) then Z.lxor c 0x79b76d99e2 else c in
  let c := if negb (Z.land c0 0x04 =? 0) then Z.lxor c 0xf33e5fb3c4 else c in
  let c := if negb (Z.land c0 0x08 =? 0) then Z.lxor c 0xae2eabe2a8 else c in
  if negb (Z.land c0 0x10 =? 0) then Z.lxor c 0x1e4f43e470 else c.

Definition polymod (values : list Z) : Z := Z.lxor (foldl polymod_step 1 values) 1.

Definition checksum (payload prefix : list Z) : Z := polymod (prefix ++ [0] ++ payload ++ replicate 8 0).

(** [vec[i] = x] panics out of range. *)
Definition set_group {E} (l : list Z) (i : nat) (x : Z) : outcome E (list Z) :=
  if (i <? length l)%nat then Ok (<[i := x]> l) else Panic.

(** The state of a conversion: the output, the next index, the buffer and its bits. *)
Record Conv : Type := mkConv { cv_out : list Z; cv_idx : nat; cv_buff : Z; cv_bits : Z }.

(** [while bits >= to]. *)
Definition conv_emit {E} (to : Z) (st : Conv) : outcome E (Conv + Conv) :=
  let '(mkConv out current_idx buff bits) := st in
  if to <=? bits then
    let bits := bits - to in
    out ← set_group out current_idx (Z.land (Z.shiftr buff bits) u8_max);
    let buff := Z.land buff (Z.shiftl 1 bits - 1) in
    mret (inl (mkConv out (S current_idx) buff bits))
  else mret (inr st).

(** The body of the loops over the input, from groups of [from] bits to groups of [to]. *)
Definition conv_push {E} (from to : Z) (st : Conv) (char : Z) : outcome E Conv :=
  let buff := Z.lor (Z.land (Z.shiftl (cv_buff st) from) u16_max) char in
  let bits := cv_bits st + from in
  oloop (S (Z.to_nat bits)) (conv_emit to) (mkConv (cv_out st) (cv_idx st) buff bits).

Definition conv8to5 {E} (payload : list Z) : outcome E (list Z) :=
  let padding := (if (length payload mod 5 =? 0)%nat then 0 else 1)%nat in
  st ← ofold (conv_push 8 5) (mkConv (replicate (length payload * 8 / 5 + padding) 0) 0 0 0) payload;
  if 0 <? cv_bits st
  then set_group (cv_out st) (cv_idx st) (Z.land (Z.land (Z.shiftl (cv_buff st) (5 - cv_bits st)) u16_max) u8_max)
  else mret (cv_out st).

Definition conv5to8 {E} (payload : list Z) : outcome E (list Z) :=
  st ← ofold (conv_push 5 8) (mkConv (replicate (length payload * 5 / 8) 0) 0 0 0) payload;
  mret (cv_out st).

(** [to_be_bytes] and [from_be_bytes]. *)
Fixpoint be_bytes (k : nat) (x : Z) : list Z :=
  match k with O => [] | S k => be_bytes k (x / 256) ++ [x mod 256] end.
Definition number (b : Z) (l : list Z) : Z := foldl (λ a d, a * b + d) 0 l.

Definition fivebit_prefix (prefix : Prefix) : list Z := (λ c, Z.land c 0x1f) <$> prefix_as_str prefix.

(** The characters are ASCII, so [String::from_utf8] takes them. *)
Definition encode_payload {E} (self : Address) : outcome E (list Z) :=
  fivebit_payload ← conv8to5 (a_version self :: a_payload self);
  let checksum := checksum fivebit_payload (fivebit_prefix (a_prefix self)) in
  checksum_u5 ← conv8to5 (drop 3 (be_bytes 8 checksum));
  chars ← omap_each (λ c, unwrap_opt (CHARSET !! Z.to_nat c)) (fivebit_payload ++ checksum_u5);
  assert (forallb (λ c, c <? 128) chars);;
  mret chars.

(** The scan over the letters stops at the first one that is not of the alphabet. *)
Definition char_value (b : Z) : outcome AddressError Z :=
  i ← unwrap_opt (REV_CHARSET !! Z.to_nat b);
  if i =? 100 then Err (DecodingError b) else mret i.

Definition decode_payload (prefix : Prefix) (address : list Z) : outcome AddressError Address :=
  address_u5 ← omap_each char_value address;
  mid ← sub64 (Z.of_nat (length address)) 8;
  let payload_u5 := take (Z.to_nat mid) address_u5 in
  let checksum_u5 := drop (Z.to_nat mid) address_u5 in
  checksum_bytes ← conv5to8 checksum_u5;
  assert (length (replicate 3 0%Z ++ checksum_bytes) =? 8)%nat;;
  let checksum_ := number 256 (replicate 3 0 ++ checksum_bytes) in
  if negb (checksum payload_u5 (fivebit_prefix prefix) =? checksum_) then Err BadChecksum
  else
    payload_u8 ← conv5to8 payload_u5;
    version ← unwrap_opt (payload_u8 !! 0%nat);
    mret (mkAddress prefix (drop 1 payload_u8) version).

(** [From<&Address> for String] and [TryFrom<String> for Address]. *)
Definition address_to_string {E} (address : Address) : outcome E (list Z) :=
  payload ← encode_payload address;
  mret (prefix_as_str (a_prefix address) ++ [58] ++ payload).

(** [split_once]: before and after the first occurrence. *)
Fixpoint split_once (c : Z) (value : list Z) : option (list Z * list Z) :=
  match value with
  | [] => None
  | x :: value => if x =? c then Some ([], value) else '(a, b) ← split_once c value; Some (x :: a, b)
  end.

Definition address_try_from (value : list Z) : outcome AddressError Address :=
  match split_once 58 value with
  | Some (prefix, payload) => prefix ← prefix_try_from prefix; decode_payload prefix payload
  | None => Err MissingPrefix
  end.

(** Two addresses of the tests of the crate. *)
Example zero_address : address_to_string (E:=unit) (mkAddress Mainnet (replicate 32 0) 0)
  = Ok (bytes_of "kaspa:qqqqqqqqqqqqqqqqqqqqqqqqqqqqqqqqqqqqqqqqqqqqqqqqqqqqqkx9awp4e").
Proof. by vm_compute. Qed.
Example zero_address_read : address_try_from (bytes_of "kaspa:qqqqqqqqqqqqqqqqqqqqqqqqqqqqqqqqqqqqqqqqqqqqqqqqqqqqqkx9awp4e")
  = Ok (mkAddress Mainnet (replicate 32 0) 0).
Proof. by vm_compute. Qed.

(** ** Numbers in a base *)

Definition digits (b : Z) (l : list Z) : Prop := Forall (λ d, 0 ≤ d < b) l.

Lemma number_app b l k : number b (l ++ k) = number b l * b ^ Z.of_nat (length k) + number b k.
Proof.
  unfold number. rewrite foldl_app. generalize (foldl (λ a d, a * b + d) 0 l). induction k as [|d k IH] using rev_ind; intros x.
  - cbn. rewrite Z.pow_0_r. lia.
  - rewrite !foldl_app, IH. cbn [foldl]. rewrite length_app. cbn [length]. rewrite Nat2Z.inj_add, Z.pow_add_r by lia. lia.
Qed.

Lemma number_snoc b l d : number b (l ++ [d]) = number b l * b + d.
Proof. unfold number. by rewrite foldl_app. Qed.

Lemma number_bound b l : 1 ≤ b → digits b l → 0 ≤ number b l < b ^ Z.of_nat (length l).
Proof.
  intros Hb. induction l as [|d l IH] using rev_ind; intros Hl; [cbn; lia|].
  apply Forall_app in Hl as [Hl Hd]. rewrite Forall_singleton in Hd. specialize (IH Hl).
  rewrite number_snoc, length_app. cbn [length]. rewrite Nat2Z.inj_add, Z.pow_add_r by lia. nia.
Qed.

Lemma number_inj b l k : 1 ≤ b → digits b l → digits b k → length l = length k → number b l = number b k → l = k.
Proof.
  intros Hb. revert k. induction l as [|d l IH] using rev_ind; intros k Hl Hk Hlen Heq.
  { by destruct k. }
  destruct k as [|e k _] using rev_ind; [rewrite length_app in Hlen; cbn in Hlen; lia|].
  apply Forall_app in Hl as [Hl Hd]. apply Forall_app in Hk as [Hk He]. rewrite Forall_singleton in Hd, He.
  rewrite !length_app in Hlen. cbn [length] in Hlen. rewrite !number_snoc in Heq.
  assert (d = e) as ->.
  { apply (f_equal (λ z, z mod b)) in Heq. cbn beta in Heq. rewrite !(Z.add_comm (_ * b)), !Z.mod_add, !Z.mod_small in Heq by lia. done. }
  assert (number b l = number b k) as Hn by nia. f_equal. apply IH; [done|done|lia|done].
Qed.

Lemma number_zeros b n : number b (replicate n 0) = 0.
Proof. induction n as [|n IH]; [done|]. by rewrite replicate_S_end, number_snoc, IH. Qed.

(** ** Conversion of groups of bits *)

Section conv.
Context {E : Type} (from to : Z) (Hfrom : 0 < from) (Hto : 0 < to) (Hsum : from + to ≤ 16) (H8 : to ≤ 8).
Context (n : nat) (input : list Z) (Hin : digits (2 ^ from) input) (Hroom : Z.of_nat (length input) * from / to ≤ Z.of_nat n).

(** After the groups [pre]; at most [max] bits are left. *)
Record converted (max : Z) (pre : list Z) (st : Conv) : Prop := {
  co_out : ∃ out, cv_out st = out ++ replicate (n - length out) 0 ∧ cv_idx st = length out ∧ (length out ≤ n)%nat ∧ digits (2 ^ to) out
    ∧ number (2 ^ to) out * 2 ^ cv_bits st + cv_buff st = number (2 ^ from) pre
    ∧ Z.of_nat (length out) * to + cv_bits st = Z.of_nat (length pre) * from;
  co_bits : 0 ≤ cv_bits st < max;
  co_buff : 0 ≤ cv_buff st < 2 ^ cv_bits st;
}.

Lemma emit_ok pre st : (length pre ≤ length input)%nat → converted (from + to) pre st →
  ∃ r, conv_emit (E:=E) to st = Ok r ∧ match r with
    | inl st' => converted (from + to) pre st' ∧ cv_bits st' < cv_bits st
    | inr st' => converted to pre st' end.
Proof using Hfrom Hto Hsum H8 Hroom.
  intros Hlen [(out & Hout & Hidx & Hn & Hd & Hnum & Hcount) Hbits Hbuff]. destruct st as [o idx buff bits].
  cbn [cv_out cv_idx cv_buff cv_bits] in *. subst o idx. unfold conv_emit.
  destruct (Z.leb_spec to bits) as [Hle|Hgt]; [|exists (inr (mkConv (out ++ replicate (n - length out) 0) (length out) buff bits));
    split; [done|]; split; [by exists out|cbn; lia|done]].
  assert (length out < n)%nat as Hlt.
  { assert (Z.of_nat (length out) + 1 ≤ Z.of_nat (length input) * from / to); [|lia]. apply Z.div_le_lower_bound; [lia|]. nia. }
  unfold set_group. rewrite length_app, length_replicate. replace (length out <? _)%nat with true by (symmetry; apply Nat.ltb_lt; lia).
  cbn [mbind outcome_bind mret outcome_ret]. eexists. split; [reflexivity|].
  assert (2 ^ bits = 2 ^ (bits - to) * 2 ^ to) as Hpow by (rewrite <- Z.pow_add_r by lia; f_equal; lia).
  assert (0 < 2 ^ (bits - to)) as Hp0 by (apply Z.pow_pos_nonneg; lia). assert (0 < 2 ^ to) as Ht0 by (apply Z.pow_pos_nonneg; lia).
  assert (2 ^ to ≤ 256) as Ht8 by (change 256 with (2 ^ 8); apply Z.pow_le_mono_r; lia).
  set (q := Z.shiftr buff (bits - to)). assert (q = buff / 2 ^ (bits - to)) as Hq by (apply Z.shiftr_div_pow2; lia).
  assert (0 ≤ q < 2 ^ to) as Hqb by (rewrite Hq; split; [apply Z.div_pos; lia|apply Z.div_lt_upper_bound; nia]).
  assert (Z.land q u8_max = q) as Hland by (change u8_max with (Z.ones 8); rewrite Z.land_ones by lia; apply Z.mod_small; lia).
  rewrite Hland. replace (Z.shiftl 1 (bits - to) - 1) with (Z.ones (bits - to)) by (unfold Z.ones; lia).
  rewrite Z.land_ones by lia. split; [|cbn; lia]. split; cbn [cv_out cv_idx cv_buff cv_bits].
  - exists (out ++ [q]). rewrite length_app. cbn [length]. split_and!.
    + rewrite insert_app_r_alt by lia. replace (length out - length out)%nat with 0%nat by lia.
      replace (n - length out)%nat with (S (n - (length out + 1))) by lia. cbn. by rewrite <- app_assoc.
    + lia.
    + lia.
    + apply Forall_app. split; [done|]. by apply Forall_singleton.
    + rewrite number_snoc. rewrite <- Hnum. pose proof (Z.div_mod buff (2 ^ (bits - to))). nia.
    + lia.
  - lia.
  - apply Z.mod_pos_bound. lia.
Qed.

Lemma push_ok pre x st : pre ++ [x] `prefix_of` input → converted to pre st →
  ∃ st', conv_push (E:=E) from to st x = Ok st' ∧ converted to (pre ++ [x]) st'.
Proof using Hfrom Hto Hsum H8 Hroom Hin.
  intros [post Hpost] [(out & Hout & Hidx & Hn & Hd & Hnum & Hcount) Hbits Hbuff].
  assert (0 ≤ x < 2 ^ from) as Hx.
  { unfold digits in Hin. rewrite Hpost in Hin. apply Forall_app in Hin as [Hin _]. apply Forall_app in Hin as [_ Hin]. by rewrite Forall_singleton in Hin. }
  assert (length (pre ++ [x]) ≤ length input)%nat as Hlen by (rewrite Hpost, (length_app (pre ++ [x])); lia).
  assert (Z.lor (Z.land (Z.shiftl (cv_buff st) from) u16_max) x = cv_buff st * 2 ^ from + x) as Hb.
  { assert (cv_buff st * 2 ^ from < 2 ^ 16).
    { apply Z.lt_le_trans with (2 ^ cv_bits st * 2 ^ from); [pose proof (Z.pow_pos_nonneg 2 from); nia|].
      rewrite <- Z.pow_add_r by lia. apply Z.pow_le_mono_r; lia. }
    rewrite Z.shiftl_mul_pow2 by lia. change u16_max with (Z.ones 16). rewrite Z.land_ones, Z.mod_small by nia.
    rewrite <- Z.shiftl_mul_pow2 by lia. rewrite <- Z.add_lor_land.
    assert (Z.land (Z.shiftl (cv_buff st) from) x = 0) as ->; [|rewrite Z.shiftl_mul_pow2; lia].
    apply Z.bits_inj'. intros i Hi. rewrite Z.land_spec, Z.bits_0. destruct (Z.ltb_spec i from).
    - by rewrite Z.shiftl_spec_low.
    - rewrite andb_false_intro2; [done|]. destruct (decide (x = 0)) as [->|]; [apply Z.bits_0|].
      apply Z.bits_above_log2; [lia|]. apply Z.log2_lt_pow2; [lia|]. apply Z.lt_le_trans with (2 ^ from); [lia|]. apply Z.pow_le_mono_r; lia. }
  unfold conv_push. rewrite Hb.
  apply (oloop_ok (λ k st', converted (from + to) (pre ++ [x]) st' ∧ k = Z.to_nat (cv_bits st')) _ (converted to (pre ++ [x])) _ (Z.to_nat (cv_bits st + from))).
  - intros k st' [HI ->]. destruct (emit_ok (pre ++ [x]) st' Hlen HI) as (r & Hr & Hok). exists r. split; [done|].
    destruct r as [st''|st'']; [|done]. destruct Hok as [HI' Hlt]. exists (Z.to_nat (cv_bits st'')). split; [done|]. pose proof (co_bits _ _ _ HI'). lia.
  - split; [|done]. split; cbn [cv_out cv_idx cv_buff cv_bits].
    + exists out. split_and!; [done|done|done|done| |rewrite length_app; cbn [length]; lia].
      rewrite number_snoc, <- Hnum, Z.pow_add_r by lia. lia.
    + lia.
    + rewrite Z.pow_add_r by lia. nia.
  - lia.
Qed.

Lemma convert_ok : ∃ st, ofold (conv_push (E:=E) from to) (mkConv (replicate n 0) 0 0 0) input = Ok st ∧ converted to input st.
Proof using Hfrom Hto Hsum H8 Hroom Hin.
  apply (ofold_ok (λ pre st, converted to pre st)).
  - split; cbn [cv_out cv_idx cv_buff cv_bits]; [|lia|lia]. exists []. cbn [app length]. rewrite Nat.sub_0_r. split_and!; [done|done|lia|constructor|done|lia].
  - intros pre x st Hpre HI. by apply push_ok.
Qed.
End conv.

Lemma conv8to5_ok {E} l : digits 256 l → ∃ o pad, conv8to5 (E:=E) l = Ok o ∧ digits 32 o ∧ 0 ≤ pad < 5
  ∧ 5 * Z.of_nat (length o) = 8 * Z.of_nat (length l) + pad ∧ number 32 o = number 256 l * 2 ^ pad.
Proof.
  intros Hl. unfold conv8to5. set (n := (length l * 8 / 5 + (if (length l mod 5 =? 0)%nat then 0 else 1))%nat).
  assert (Z.of_nat (length l) * 8 / 5 = Z.of_nat (length l * 8 / 5)) as Hdiv by (rewrite Nat2Z.inj_div; f_equal; lia).
  destruct (convert_ok (E:=E) 8 5 ltac:(lia) ltac:(lia) ltac:(lia) ltac:(lia) n l Hl) as (st & -> & [(out & Hout & Hidx & Hn & Hd & Hnum & Hcount) Hbits Hbuff]).
  { unfold n. lia. }
  cbn [mbind outcome_bind]. pose proof (Nat.div_mod_eq (length l) 5) as Hm. pose proof (Nat.mod_upper_bound (length l) 5 ltac:(lia)) as Hm5.
  pose proof (Nat.div_mod_eq (length l * 8) 5) as Hm'. pose proof (Nat.mod_upper_bound (length l * 8) 5 ltac:(lia)) as Hm5'.
  rewrite Hout, Hidx. destruct (Z.ltb_spec 0 (cv_bits st)) as [Hpos|Hz].
  - assert (n = S (length out)) as Hn1 by (unfold n; destruct (Nat.eqb_spec (length l mod 5) 0); lia).
    rewrite Hn1. replace (S (length out) - length out)%nat with 1%nat by lia. unfold set_group.
    rewrite length_app. cbn [replicate length]. replace (length out <? length out + 1)%nat with true by (symmetry; apply Nat.ltb_lt; lia).
    assert (2 ^ cv_bits st * 2 ^ (5 - cv_bits st) = 32) as Hp by (rewrite <- Z.pow_add_r by lia; by replace (cv_bits st + _) with 5 by lia).
    set (x := Z.land _ u8_max). assert (x = cv_buff st * 2 ^ (5 - cv_bits st) ∧ 0 ≤ x < 32) as [Hx Hx32].
    { unfold x. assert (0 < 2 ^ (5 - cv_bits st)) by (apply Z.pow_pos_nonneg; lia).
      assert (0 ≤ cv_buff st * 2 ^ (5 - cv_bits st) < 32) by nia.
      rewrite Z.shiftl_mul_pow2 by lia. change u16_max with (Z.ones 16). change u8_max with (Z.ones 8).
      rewrite !Z.land_ones, !Z.mod_small by (rewrite ?Z.mod_small; lia). lia. }
    exists (out ++ [x]), (5 - cv_bits st). split_and!; [| |lia|lia| |].
    + f_equal. rewrite insert_app_r_alt by lia. by replace (length out - length out)%nat with 0%nat by lia.
    + apply Forall_app. split; [done|]. by apply Forall_singleton.
    + rewrite length_app. cbn [length]. lia.
    + rewrite number_snoc, Hx. change (2 ^ 8) with 256 in Hnum. change (2 ^ 5) with 32 in Hnum. rewrite <- Hnum.
      rewrite <- Hp at 2. ring.
  - assert (cv_bits st = 0) as H0 by lia. assert (n = length out) as Hn1 by (unfold n; destruct (Nat.eqb_spec (length l mod 5) 0); lia).
    rewrite Hn1, Nat.sub_diag. cbn [replicate]. rewrite app_nil_r. exists out, 0. rewrite H0 in *.
    split_and!; [done|done|lia|lia|lia|]. change (2 ^ 5) with 32 in Hnum. change (2 ^ 8) with 256 in Hnum. lia.
Qed.

Lemma conv5to8_ok {E} l : digits 32 l → ∃ o r low, conv5to8 (E:=E) l = Ok o ∧ digits 256 o
  ∧ 5 * Z.of_nat (length l) = 8 * Z.of_nat (length o) + r ∧ 0 ≤ r < 8 ∧ number 32 l = number 256 o * 2 ^ r + low ∧ 0 ≤ low < 2 ^ r.
Proof.
  intros Hl. unfold conv5to8. set (n := (length l * 5 / 8)%nat).
  assert (Z.of_nat (length l) * 5 / 8 = Z.of_nat n) as Hdiv by (unfold n; rewrite Nat2Z.inj_div; f_equal; lia).
  destruct (convert_ok (E:=E) 5 8 ltac:(lia) ltac:(lia) ltac:(lia) ltac:(lia) n l Hl) as (st & -> & [(out & Hout & Hidx & Hn & Hd & Hnum & Hcount) Hbits Hbuff]).
  { lia. }
  cbn [mbind outcome_bind mret outcome_ret]. pose proof (Z.div_mod (Z.of_nat (length l) * 5) 8). pose proof (Z.mod_pos_bound (Z.of_nat (length l) * 5) 8).
  rewrite Hout. replace (n - length out)%nat with 0%nat by lia. cbn [replicate]. rewrite app_nil_r.
  exists out, (cv_bits st), (cv_buff st). change (2 ^ 8) with 256 in *. change (2 ^ 5) with 32 in *. split_and!; try done; try lia.
Qed.

(** Back and forth. *)
Lemma conv_roundtrip {E E'} l : digits 256 l → ∃ o, conv8to5 (E:=E) l = Ok o ∧ digits 32 o
  ∧ 5 * Z.of_nat (length o) < 8 * Z.of_nat (length l) + 5 ∧ conv5to8 (E:=E') o = Ok l.
Proof.
  intros Hl. destruct (conv8to5_ok (E:=E) l Hl) as (o & pad & Ho & Hd & Hpad & Hlen & Hnum).
  destruct (conv5to8_ok (E:=E') o Hd) as (l' & r & low & Hl' & Hd' & Hlen' & Hr & Hnum' & Hlow). exists o. split_and!; [done|done|lia|].
  rewrite Hl'. f_equal. apply (number_inj 256); [lia|done|done|lia|]. assert (r = pad) as -> by lia.
  pose proof (Z.pow_pos_nonneg 2 pad). nia.
Qed.

(** ** The checksum *)

Definition state_ok (c : Z) : Prop := 0 ≤ c < 2 ^ 40.

Definition when (b : bool) (g : Z) : Z := if b then g else 0.
Definition generator (c0 : Z) : Z :=
  Z.lxor (Z.lxor (Z.lxor (Z.lxor (when (Z.testbit c0 0) 0x98f2bc8e61) (when (Z.testbit c0 1) 0x79b76d99e2))
    (when (Z.testbit c0 2) 0xf33e5fb3c4)) (when (Z.testbit c0 3) 0xae2eabe2a8)) (when (Z.testbit c0 4) 0x1e4f43e470).

(** The step without its value is a linear map over bits. *)
Definition next (c : Z) : Z := Z.lxor (Z.shiftl (c mod 2 ^ 35) 5) (generator (c / 2 ^ 35)).

Lemma test_bit x i : 0 ≤ i → negb (Z.land x (2 ^ i) =? 0) = Z.testbit x i.
Proof.
  intros Hi. assert (Z.testbit (Z.land x (2 ^ i)) i = Z.testbit x i) as Hb by (rewrite Z.land_spec, Z.pow2_bits_true by lia; apply andb_true_r).
  destruct (Z.eqb_spec (Z.land x (2 ^ i)) 0) as [H0|Hn]; [by rewrite <- Hb, H0, Z.bits_0|]. cbn. symmetry. apply not_false_iff_true. intros Hf.
  apply Hn, Z.bits_inj'. intros j Hj. rewrite Z.land_spec, Z.bits_0, Z.pow2_bits_eqb by lia. destruct (Z.eqb_spec i j) as [<-|]; [by rewrite Hf|apply andb_false_r].
Qed.

Lemma shifted_bound c : state_ok c → 0 ≤ Z.shiftl (c mod 2 ^ 35) 5 < 2 ^ 40.
Proof. intros Hc. rewrite Z.shiftl_mul_pow2 by lia. pose proof (Z.mod_pos_bound c (2 ^ 35)). lia. Qed.

Lemma if_when (b : bool) c g : (if b then Z.lxor c g else c) = Z.lxor c (when b g).
Proof. destruct b; cbn [when]; by rewrite ?Z.lxor_0_r. Qed.

Lemma step_next c d : state_ok c → polymod_step c d = Z.lxor (next c) d.
Proof.
  intros Hc. unfold polymod_step. cbv zeta. rewrite !if_when. pose proof (test_bit (Z.shiftr c 35)) as Ht.
  pose proof (Ht 0 ltac:(lia)) as T0. pose proof (Ht 1 ltac:(lia)) as T1. pose proof (Ht 2 ltac:(lia)) as T2. pose proof (Ht 3 ltac:(lia)) as T3.
  pose proof (Ht 4 ltac:(lia)) as T4. change (2 ^ 0) with 1 in T0. change (2 ^ 1) with 2 in T1. change (2 ^ 2) with 4 in T2.
  change (2 ^ 3) with 8 in T3. change (2 ^ 4) with 16 in T4. rewrite T0, T1, T2, T3, T4.
  change 0x07ffffffff with (Z.ones 35). rewrite Z.land_ones by lia. pose proof (shifted_bound c Hc) as Hs.
  change u64_max with (Z.ones 64). rewrite (Z.land_ones _ 64), (Z.mod_small _ (2 ^ 64)) by lia.
  unfold next, generator. rewrite !Z.shiftr_div_pow2 by lia. apply Z.bits_inj'. intros i Hi. rewrite !Z.lxor_spec. btauto.
Qed.

Lemma when_xorb a b g : when (xorb a b) g = Z.lxor (when a g) (when b g).
Proof. destruct a, b; cbn [when xorb]; by rewrite ?Z.lxor_nilpotent, ?Z.lxor_0_l, ?Z.lxor_0_r. Qed.

Lemma next_linear x y : next (Z.lxor x y) = Z.lxor (next x) (next y).
Proof.
  unfold next. rewrite <- !Z.shiftr_div_pow2, <- !Z.land_ones by lia.
  assert (Z.land (Z.lxor x y) (Z.ones 35) = Z.lxor (Z.land x (Z.ones 35)) (Z.land y (Z.ones 35))) as ->.
  { apply Z.bits_inj'. intros i Hi. rewrite !Z.land_spec, !Z.lxor_spec, !Z.land_spec. btauto. }
  rewrite Z.shiftl_lxor, Z.shiftr_lxor. unfold generator. rewrite !Z.lxor_spec, !when_xorb.
  apply Z.bits_inj'. intros i Hi. rewrite !Z.lxor_spec. btauto.
Qed.

Lemma lxor_bound n x y : 0 ≤ n → 0 ≤ x < 2 ^ n → 0 ≤ y < 2 ^ n → 0 ≤ Z.lxor x y < 2 ^ n.
Proof.
  intros Hn Hx Hy. split; [apply Z.lxor_nonneg; lia|]. destruct (decide (Z.lxor x y = 0)) as [->|Hne]; [apply Z.pow_pos_nonneg; lia|].
  assert (0 ≤ Z.lxor x y) as H0 by (apply Z.lxor_nonneg; lia). apply Z.log2_lt_pow2; [lia|].
  pose proof (Z.log2_lxor x y ltac:(lia) ltac:(lia)) as Hl. destruct (decide (x = 0)) as [->|]; destruct (decide (y = 0)) as [->|].
  - done.
  - rewrite Z.lxor_0_l. apply Z.log2_lt_pow2; lia.
  - rewrite Z.lxor_0_r. apply Z.log2_lt_pow2; lia.
  - pose proof (proj1 (Z.log2_lt_pow2 x n ltac:(lia)) ltac:(lia)). pose proof (proj1 (Z.log2_lt_pow2 y n ltac:(lia)) ltac:(lia)). lia.
Qed.

(** The lowest five bits of the generator name the bits it was made of. *)
Lemma generator_ok c0 : 0 ≤ c0 < 32 → 0 ≤ generator c0 < 2 ^ 40 ∧ generator c0 mod 32 = c0.
Proof.
  intros Hc. assert (Forall (λ c0, (0 <=? generator c0) && (generator c0 <? 2 ^ 40) && (generator c0 mod 32 =? c0) = true) (seqZ 0 32)) as Hall.
  { repeat constructor. }
  rewrite Forall_forall in Hall. specialize (Hall c0). rewrite elem_of_seqZ in Hall. specialize (Hall ltac:(lia)).
  cbn beta in Hall. apply andb_true_iff in Hall as [[H1 H2]%andb_true_iff H3]. lia.
Qed.

Lemma top_bits c : state_ok c → 0 ≤ c / 2 ^ 35 < 32.
Proof. intros Hc. split; [apply Z.div_pos; unfold state_ok in Hc; lia|]. apply Z.div_lt_upper_bound; unfold state_ok in Hc; lia. Qed.

Lemma next_ok c : state_ok c → state_ok (next c).
Proof. intros Hc. apply lxor_bound; [lia|by apply shifted_bound|]. apply (generator_ok _ (top_bits c Hc)). Qed.

Lemma next_zero c : state_ok c → next c = 0 → c = 0.
Proof.
  intros Hc Hn. apply Z.lxor_eq in Hn. destruct (generator_ok _ (top_bits c Hc)) as [_ Hg].
  assert (c / 2 ^ 35 = 0) as H0.
  { rewrite <- Hg, <- Hn, Z.shiftl_mul_pow2 by lia. change (2 ^ 5) with 32. apply Z.mod_mul. lia. }
  rewrite H0 in Hn. change (generator 0) with 0 in Hn. rewrite Z.shiftl_mul_pow2 in Hn by lia.
  pose proof (Z.div_mod c (2 ^ 35)). lia.
Qed.

Lemma next_small c : 0 ≤ c < 2 ^ 35 → next c = c * 32.
Proof. intros Hc. unfold next. rewrite Z.div_small, Z.mod_small by lia. change (generator 0) with 0. rewrite Z.lxor_0_r. by rewrite Z.shiftl_mul_pow2. Qed.

Lemma step_ok c d : state_ok c → 0 ≤ d < 32 → state_ok (polymod_step c d).
Proof. intros Hc Hd. rewrite step_next by done. apply lxor_bound; [lia|by apply next_ok|lia]. Qed.

Lemma steps_ok c ds : state_ok c → digits 32 ds → state_ok (foldl polymod_step c ds).
Proof. intros Hc Hds. revert c Hc. induction Hds as [|d ds Hd _ IH]; intros c Hc; [done|]. by apply IH, step_ok. Qed.

(** Two runs that differ: their difference runs on. *)
Lemma steps_linear x y ds es : state_ok x → state_ok y → digits 32 ds → digits 32 es → length ds = length es →
  Z.lxor (foldl polymod_step x ds) (foldl polymod_step y es) = foldl polymod_step (Z.lxor x y) (zip_with Z.lxor ds es).
Proof.
  intros Hx Hy Hds. revert x y es Hx Hy. induction Hds as [|d ds Hd _ IH]; intros x y es Hx Hy Hes Hlen.
  { by destruct es. }
  destruct Hes as [|e es He Hes]; [done|]. cbn [foldl zip_with]. injection Hlen as Hlen. rewrite IH by (done || by apply step_ok).
  assert (state_ok (Z.lxor x y)) as Hxy by (apply (lxor_bound 40); [lia|done|done]).
  assert (Z.lxor (polymod_step x d) (polymod_step y e) = polymod_step (Z.lxor x y) (Z.lxor d e)) as ->; [|done].
  rewrite !step_next, next_linear by done. apply Z.bits_inj'. intros i Hi. rewrite !Z.lxor_spec. btauto.
Qed.

Lemma steps_short ds : digits 32 ds → (length ds ≤ 8)%nat → foldl polymod_step 0 ds = number 32 ds.
Proof.
  induction ds as [|d ds IH] using rev_ind; intros Hds Hlen; [done|]. apply Forall_app in Hds as [Hds Hd]. rewrite Forall_singleton in Hd.
  rewrite length_app in Hlen. cbn [length] in Hlen. rewrite foldl_app, IH, number_snoc by (done || lia). cbn [foldl].
  assert (0 ≤ number 32 ds < 2 ^ 35) as Hb.
  { pose proof (number_bound 32 ds ltac:(lia) Hds) as [? Hlt]. split; [done|]. eapply Z.lt_le_trans; [exact Hlt|].
    change (2 ^ 35) with (32 ^ 7). apply Z.pow_le_mono_r; lia. }
  rewrite step_next by (unfold state_ok; lia). rewrite next_small by done.
  rewrite <- Z.add_nocarry_lxor; [done|]. change 32 with (2 ^ 5). rewrite <- Z.shiftl_mul_pow2 by lia.
  apply Z.bits_inj'. intros i Hi. rewrite Z.land_spec, Z.bits_0. destruct (Z.ltb_spec i 5); [by rewrite Z.shiftl_spec_low|].
  apply andb_false_intro2. destruct (decide (d = 0)) as [->|]; [apply Z.bits_0|]. apply Z.bits_above_log2; [lia|].
  apply Z.log2_lt_pow2; [lia|]. apply Z.lt_le_trans with (2 ^ 5); [lia|]. apply Z.pow_le_mono_r; lia.
Qed.

Lemma steps_nonzero x n : state_ok x → x ≠ 0 → foldl polymod_step x (replicate n 0) ≠ 0.
Proof.
  revert x. induction n as [|n IH]; intros x Hx Hne; [done|]. cbn [replicate foldl]. apply IH; [by apply step_ok|].
  rewrite step_next, Z.lxor_0_r by done. intros H0. by apply Hne, next_zero.
Qed.

(** A codeword: the prefix, the payload and the checksum. *)
Definition codeword (prefix : Prefix) (u5 : list Z) : Prop := polymod (fivebit_prefix prefix ++ [0] ++ u5) = 0.

Lemma prefix_digits prefix : digits 32 (fivebit_prefix prefix).
Proof. destruct prefix; repeat (constructor; [split; [apply Z.leb_le|apply Z.ltb_lt]; by vm_compute|]); constructor. Qed.

Lemma start_ok prefix p : digits 32 p → state_ok (foldl polymod_step 1 (fivebit_prefix prefix ++ [0] ++ p)).
Proof.
  intros Hp. apply steps_ok; [unfold state_ok; lia|]. apply Forall_app. split; [apply prefix_digits|]. apply Forall_app.
  split; [|done]. apply Forall_singleton. lia.
Qed.

Lemma codeword_run prefix p u5 : codeword prefix (p ++ u5) ↔ foldl polymod_step (foldl polymod_step 1 (fivebit_prefix prefix ++ [0] ++ p)) u5 = 1.
Proof.
  unfold codeword, polymod. rewrite Z.lxor_eq_0_iff. by rewrite !app_assoc, foldl_app.
Qed.

(** The comparison of the checksums decides whether the characters are a codeword. *)
Lemma checksum_codeword prefix payload c5 : digits 32 payload → digits 32 c5 → length c5 = 8%nat →
  checksum payload (fivebit_prefix prefix) = number 32 c5 ↔ codeword prefix (payload ++ c5).
Proof.
  intros Hp Hc Hlen. rewrite codeword_run. set (s := foldl polymod_step 1 (fivebit_prefix prefix ++ [0] ++ payload)).
  assert (state_ok s) as Hs by (by apply start_ok).
  assert (checksum payload (fivebit_prefix prefix) = Z.lxor (foldl polymod_step s (replicate 8 0)) 1) as ->.
  { unfold checksum, polymod, s. by rewrite <- foldl_app, !app_assoc. }
  assert (Z.lxor (foldl polymod_step s (replicate 8 0)) (foldl polymod_step s c5) = number 32 c5) as <-.
  { rewrite steps_linear; [|done|done|by repeat constructor|done|done]. rewrite Z.lxor_nilpotent, <- steps_short by (done || lia). f_equal.
    destruct c5 as [|? [|? [|? [|? [|? [|? [|? [|? [|]]]]]]]]]; try done; cbn [replicate zip_with]; by rewrite !Z.lxor_0_l. }
  split; [|by intros ->]. intros Heq. apply (f_equal (Z.lxor (foldl polymod_step s (replicate 8 0)))) in Heq.
  by rewrite <- !Z.lxor_assoc, !Z.lxor_nilpotent, !Z.lxor_0_l in Heq.
Qed.

(** A change within eight consecutive characters leaves the code. *)
Lemma burst_detected prefix p e e' q : digits 32 p → digits 32 e → digits 32 e' → digits 32 q → length e = length e' → (length e ≤ 8)%nat →
  e ≠ e' → codeword prefix (p ++ e ++ q) → ¬ codeword prefix (p ++ e' ++ q).
Proof.
  intros Hp He He' Hq Hlen H8 Hne. rewrite !codeword_run. set (s := foldl polymod_step 1 _).
  assert (state_ok s) as Hs by (by apply start_ok). intros H1 H2.
  assert (digits 32 (zip_with Z.lxor e e')) as Hd.
  { clear - He He'. revert e' He'. induction He as [|x e Hx _ IH]; intros e' He'; [constructor|]. destruct He' as [|y e' Hy He']; constructor; [|by apply IH].
    by apply (lxor_bound 5). }
  assert (number 32 (zip_with Z.lxor e e') ≠ 0) as Hn.
  { intros H0. apply Hne. assert (zip_with Z.lxor e e' = replicate (length e) 0) as Hz.
    { apply (number_inj 32); [lia|done| |by rewrite length_zip_with_l_eq, length_replicate|].
      - apply Forall_replicate. lia.
      - rewrite H0. symmetry. apply number_zeros. }
    clear - Hz Hlen. revert e' Hlen Hz. induction e as [|x e IH]; intros [|y e'] Hlen Hz; try done. cbn in Hz. injection Hz as Hx Hz.
    apply Z.lxor_eq in Hx as ->. f_equal. apply IH; [by injection Hlen|done]. }
  apply (steps_nonzero (number 32 (zip_with Z.lxor e e')) (length q)); [|done|].
  - pose proof (number_bound 32 _ ltac:(lia) Hd) as [H0 Hlt]. split; [done|]. eapply Z.lt_le_trans; [exact Hlt|].
    change (2 ^ 40) with (32 ^ 8). rewrite length_zip_with_l_eq by done. apply Z.pow_le_mono_r; lia.
  - rewrite <- steps_short by (done || by rewrite length_zip_with_l_eq). rewrite <- foldl_app.
    assert (zip_with Z.lxor (e ++ q) (e' ++ q) = zip_with Z.lxor e e' ++ replicate (length q) 0) as <-.
    { rewrite zip_with_app by done. f_equal. clear. induction q as [|x q IH]; [done|]. cbn. by rewrite IH, Z.lxor_nilpotent. }
    rewrite <- (Z.lxor_nilpotent s) at 1. rewrite <- steps_linear; [by rewrite H1, H2|done|done| | |by rewrite !length_app, Hlen].
    + by apply Forall_app.
    + by apply Forall_app.
Qed.

(** ** Characters *)

Definition spells (b i : Z) : Prop := 0 ≤ i < 32 ∧ CHARSET !! Z.to_nat i = Some b.
(** The characters [s] spell the groups [u5]. *)
Definition spelled (s u5 : list Z) : Prop := Forall2 spells s u5.

Lemma charset_ok i : 0 ≤ i < 32 → ∃ b, spells b i ∧ 0 ≤ b < 123 ∧ char_value b = Ok i.
Proof.
  intros Hi. assert (Forall (λ i, match CHARSET !! Z.to_nat i with
    | Some b => (0 <=? b) && (b <? 123) && match char_value b with Ok j => j =? i | _ => false end = true | None => False end) (seqZ 0 32)) as Hall.
  { repeat constructor. }
  rewrite Forall_forall in Hall. specialize (Hall i). rewrite elem_of_seqZ in Hall. specialize (Hall ltac:(lia)). cbn beta in Hall.
  destruct (CHARSET !! Z.to_nat i) as [b|] eqn:Hb; [|done]. exists b. apply andb_true_iff in Hall as [[H1 H2]%andb_true_iff H3].
  split; [done|]. split; [lia|]. destruct (char_value b) as [j|?| |]; try done. f_equal. lia.
Qed.

Lemma char_value_ok b : 0 ≤ b → match char_value b with
  | Ok i => spells b i
  | Err e => e = DecodingError b ∧ b < 123 ∧ (b ∉ CHARSET)
  | Panic => 123 ≤ b
  | Fuel => False
  end.
Proof.
  intros Hb. destruct (decide (b < 123)) as [Hlt|Hge].
  - assert (Forall (λ b, match char_value b with
      | Ok i => (0 <=? i) && (i <? 32) && bool_decide (CHARSET !! Z.to_nat i = Some b) = true
      | Err (DecodingError c) => (c =? b) && negb (bool_decide (b ∈ CHARSET)) = true | _ => False end) (seqZ 0 123)) as Hall.
    { repeat constructor. }
    rewrite Forall_forall in Hall. specialize (Hall b). rewrite elem_of_seqZ in Hall. specialize (Hall ltac:(lia)). cbn beta in Hall.
    destruct (char_value b) as [i|e| |]; try done.
    + apply andb_true_iff in Hall as [[H1 H2]%andb_true_iff H3%bool_decide_eq_true_1]. split; [lia|done].
    + destruct e as [| |c|]; try done. apply andb_true_iff in Hall as [H1%Z.eqb_eq H2%negb_true_iff]. subst c. by apply bool_decide_eq_false_1 in H2.
  - unfold char_value. rewrite (proj2 (lookup_ge_None REV_CHARSET (Z.to_nat b))); [cbn; lia|]. change (length REV_CHARSET) with 123%nat. lia.
Qed.

Lemma spells_value b i : spells b i → char_value b = Ok i.
Proof.
  intros [Hi Hb]. destruct (charset_ok i Hi) as (b' & [_ Hb'] & _ & Hv). by rewrite Hb in Hb'; injection Hb' as <-.
Qed.

Lemma spelled_values s u5 : spelled s u5 → omap_each char_value s = Ok u5.
Proof. induction 1 as [|b i s u5 Hb _ IH]; [done|]. cbn [omap_each]. rewrite (spells_value b i Hb). cbn [mbind outcome_bind]. by rewrite IH. Qed.

Lemma spelled_digits s u5 : spelled s u5 → digits 32 u5 ∧ length s = length u5 ∧ Forall (λ b, b ∈ CHARSET) s.
Proof.
  intros Hs. split_and!; [|by eapply Forall2_length|].
  - induction Hs as [|b i s u5 [Hi _] _ IH]; by constructor.
  - induction Hs as [|b i s u5 [_ Hi] _ IH]; constructor; [by eapply list_elem_of_lookup_2|done].
Qed.

Lemma spell_exists s : Forall (λ b, b ∈ CHARSET) s → ∃ u5, spelled s u5.
Proof.
  induction 1 as [|b s Hb _ [u5 IH]]; [by exists []; constructor|]. apply list_elem_of_lookup in Hb as [i Hi]. exists (Z.of_nat i :: u5).
  constructor; [|done]. split; [|by rewrite Nat2Z.id]. apply lookup_lt_Some in Hi. change (length CHARSET) with 32%nat in Hi. lia.
Qed.

Lemma spelled_inj s s' u5 : spelled s u5 → spelled s' u5 → s = s'.
Proof.
  intros Hs. revert s'. induction Hs as [|b i s u5 [_ Hb] _ IH]; intros s' Hs'; inversion Hs' as [|b' ? s'' ? [_ Hb'] Hs'']; subst; [done|].
  f_equal; [congruence|by apply IH].
Qed.

Lemma letters_ok s : Forall (λ b, 0 ≤ b) s → match omap_each char_value s with
  | Ok u5 => spelled s u5
  | Err e => ∃ p c q, s = p ++ c :: q ∧ Forall (λ b, b ∈ CHARSET) p ∧ e = DecodingError c ∧ c < 123 ∧ (c ∉ CHARSET)
  | Panic => ∃ p c q, s = p ++ c :: q ∧ Forall (λ b, b ∈ CHARSET) p ∧ 123 ≤ c
  | Fuel => False
  end.
Proof.
  induction 1 as [|b s Hb Hs IH]; [constructor|]. cbn [omap_each]. pose proof (char_value_ok b Hb) as Hv.
  destruct (char_value b) as [i|e| |]; cbn [mbind outcome_bind]; [|by exists [], b, s; naive_solver|by exists [], b, s|done].
  assert (b ∈ CHARSET) as Hin by (destruct Hv as [_ Hv]; by eapply list_elem_of_lookup_2).
  destruct (omap_each char_value s) as [u5|e| |]; cbn [mbind outcome_bind mret outcome_ret]; [by constructor| | |done].
  - destruct IH as (p & c & q & -> & Hp & Hr). exists (b :: p), c, q. split_and!; [done|by constructor|apply Hr..].
  - destruct IH as (p & c & q & -> & Hp & Hr). exists (b :: p), c, q. split_and!; [done|by constructor|done].
Qed.

(** ** Decoding and encoding *)

(** [bytes] are the complete bytes of the bits of [u5]. *)
Definition unpacked (u5 bytes : list Z) : Prop := digits 256 bytes
  ∧ ∃ r low, 5 * Z.of_nat (length u5) = 8 * Z.of_nat (length bytes) + r ∧ 0 ≤ r < 8
    ∧ number 32 u5 = number 256 bytes * 2 ^ r + low ∧ 0 ≤ low < 2 ^ r.

Lemma unpack_ok {E} u5 : digits 32 u5 → ∃ bytes, conv5to8 (E:=E) u5 = Ok bytes ∧ unpacked u5 bytes.
Proof. intros Hu. destruct (conv5to8_ok (E:=E) u5 Hu) as (o & r & low & Ho & Hd & Hrest). exists o. split; [done|]. split; [done|]. by exists r, low. Qed.

(** The end of the decoding, when the characters are of the alphabet. *)
Lemma decode_spelled prefix s u5 : spelled s u5 → (8 ≤ length s)%nat → Z.of_nat (length s) ≤ u64_max →
  ∃ bytes, unpacked (take (length s - 8) u5) bytes ∧ (
    ¬ codeword prefix u5 ∧ decode_payload prefix s = Err BadChecksum
    ∨ codeword prefix u5 ∧ decode_payload prefix s = match bytes with
        | version :: payload => Ok (mkAddress prefix payload version) | [] => Panic end).
Proof.
  intros Hs H8 Hmax. destruct (spelled_digits s u5 Hs) as (Hd & Hlen & _).
  assert (digits 32 (take (length s - 8) u5)) as Hp by (by apply Forall_take). assert (digits 32 (drop (length s - 8) u5)) as Hc by (by apply Forall_drop).
  assert (length (drop (length s - 8) u5) = 8%nat) as Hc8 by (rewrite length_drop; lia).
  destruct (unpack_ok (E:=AddressError) _ Hp) as (bytes & Hb & Hub).
  destruct (unpack_ok (E:=AddressError) _ Hc) as (cb & Hcb & _ & r & low & Hcl & Hr & Hnum & Hlow). rewrite Hc8 in Hcl.
  assert (length cb = 5%nat) as Hcb5 by lia. assert (r = 0) as -> by lia. change (2 ^ 0) with 1 in *.
  assert (number 256 (replicate 3 0 ++ cb) = number 32 (drop (length s - 8) u5)) as Heq.
  { rewrite number_app, number_zeros. lia. }
  exists bytes. split; [done|]. unfold decode_payload. rewrite (spelled_values s u5 Hs). cbn [mbind outcome_bind].
  unfold sub64. rewrite checked_ok by lia. cbn [mbind outcome_bind]. replace (Z.to_nat (Z.of_nat (length s) - 8)) with (length s - 8)%nat by lia.
  rewrite Hcb. cbn [mbind outcome_bind]. rewrite length_app, length_replicate, Hcb5. cbn [Nat.add Nat.eqb assert mbind outcome_bind].
  rewrite Heq. pose proof (checksum_codeword prefix _ _ Hp Hc Hc8) as Hcw. rewrite take_drop in Hcw.
  destruct (Z.eqb_spec (checksum (take (length s - 8) u5) (fivebit_prefix prefix)) (number 32 (drop (length s - 8) u5))) as [He|Hne]; cbn [negb].
  - right. split; [by apply Hcw|]. rewrite Hb. cbn [mbind outcome_bind]. by destruct bytes.
  - left. split; [|done]. by rewrite <- Hcw.
Qed.

Lemma be_bytes_ok k x : digits 256 (be_bytes k x) ∧ length (be_bytes k x) = k ∧ number 256 (be_bytes k x) = x mod 256 ^ Z.of_nat k.
Proof.
  revert x. induction k as [|k IH]; intros x; cbn [be_bytes]; [split_and!; [constructor|done|]; change (256 ^ Z.of_nat 0) with 1; by rewrite Z.mod_1_r|].
  destruct (IH (x / 256)) as (Hd & Hl & Hn). split_and!.
  - apply Forall_app. split; [done|]. apply Forall_singleton. apply Z.mod_pos_bound. lia.
  - rewrite length_app, Hl. cbn. lia.
  - rewrite number_snoc, Hn. replace (Z.of_nat (S k)) with (1 + Z.of_nat k) by lia. rewrite Z.pow_add_r by lia.
    change (256 ^ 1) with 256. rewrite Z.rem_mul_r by lia. lia.
Qed.

Lemma spell_chars {E} u5 : digits 32 u5 → ∃ s, omap_each (E:=E) (λ c, unwrap_opt (CHARSET !! Z.to_nat c)) u5 = Ok s ∧ spelled s u5
  ∧ Forall (λ b, 0 ≤ b < 123) s.
Proof.
  induction 1 as [|i u5 Hi _ (s & Hs & Hsp & Hb)]; [exists []; split_and!; [done|constructor|constructor]|].
  destruct (charset_ok i Hi) as (b & [Hib Hc] & Hb' & _). exists (b :: s). cbn [omap_each]. rewrite Hc. cbn [unwrap_opt mbind outcome_bind].
  rewrite Hs. cbn [mbind outcome_bind]. split_and!; [done|by constructor|by constructor].
Qed.

(** The bytes of an address are bytes. *)
Definition address_ok (a : Address) : Prop := digits 256 (a_version a :: a_payload a) ∧ 2 * Z.of_nat (length (a_payload a)) + 20 ≤ u64_max.

Lemma encode_ok {E} a : address_ok a → ∃ s u5 p5, encode_payload (E:=E) a = Ok s ∧ spelled s u5 ∧ codeword (a_prefix a) u5
  ∧ (8 ≤ length s)%nat ∧ Z.of_nat (length s) ≤ u64_max ∧ take (length s - 8) u5 = p5 ∧ conv5to8 (E:=AddressError) p5 = Ok (a_version a :: a_payload a).
Proof.
  intros [Hd Hmax]. unfold encode_payload.
  destruct (conv_roundtrip (E:=E) (E':=AddressError) _ Hd) as (o & Ho & Hod & Hlen & Hback).
  rewrite Ho. cbn [mbind outcome_bind]. set (c := checksum o (fivebit_prefix (a_prefix a))).
  assert (state_ok c) as Hc.
  { apply (lxor_bound 40); [lia| |lia]. replace (fivebit_prefix (a_prefix a) ++ [0] ++ o ++ replicate 8 0) with (fivebit_prefix (a_prefix a) ++ [0] ++ (o ++ replicate 8 0)) by done.
    apply start_ok, Forall_app. split; [done|]. apply Forall_replicate. lia. }
  change (drop 3 (be_bytes 8 c)) with (be_bytes 5 c). destruct (be_bytes_ok 5 c) as (Hbd & Hbl & Hbn).
  destruct (conv8to5_ok (E:=E) _ Hbd) as (c5 & pad' & Hc5 & Hc5d & Hpad' & Hlen' & Hnum'). rewrite Hbl in Hlen'. assert (pad' = 0) as -> by lia.
  assert (number 32 c5 = c) as Hn.
  { rewrite Hnum', Hbn. change (256 ^ Z.of_nat 5) with (2 ^ 40). rewrite Z.mod_small by done. lia. }
  rewrite Hc5. cbn [mbind outcome_bind]. assert (digits 32 (o ++ c5)) as Hoc by (by apply Forall_app).
  destruct (spell_chars (E:=E) _ Hoc) as (s & Hs & Hsp & Hsb). rewrite Hs. cbn [mbind outcome_bind].
  assert (forallb (λ c, c <? 128) s = true) as ->.
  { apply forallb_forall. intros b Hb. rewrite Forall_forall in Hsb. specialize (Hsb b ltac:(by apply list_elem_of_In)). lia. }
  cbn [assert mbind outcome_bind]. destruct (spelled_digits _ _ Hsp) as (_ & Hl & _). rewrite length_app in Hl. cbn [length] in Hlen.
  exists s, (o ++ c5), o. split_and!; [done|done| |lia|lia| |done].
  - apply checksum_codeword; [done|done|lia|]. by rewrite Hn.
  - replace (length s - 8)%nat with (length o) by lia. apply take_app_length.
Qed.

Lemma split_prefix prefix payload : split_once 58 (prefix_as_str prefix ++ [58] ++ payload) = Some (prefix_as_str prefix, payload)
  ∧ prefix_try_from (prefix_as_str prefix) = Ok prefix.
Proof. by destruct prefix. Qed.

Lemma encoded_decodes {E} a : address_ok a → ∃ s, encode_payload (E:=E) a = Ok s ∧ decode_payload (a_prefix a) s = Ok a.
Proof.
  intros Ha. destruct (encode_ok (E:=E) a Ha) as (s & u5 & p5 & Hs & Hsp & Hcw & H8 & Hmax & Hp5 & Hback). exists s. split; [done|].
  destruct (decode_spelled (a_prefix a) s u5 Hsp H8 Hmax) as (bytes & Hub & [[Hn _]|[_ Hdec]]); [done|].
  assert (bytes = a_version a :: a_payload a) as ->; [|by destruct a].
  destruct Hub as [Hbd (r & low & Hl & Hr & Hn & Hlow)]. rewrite Hp5 in *.
  assert (digits 32 p5) as Hd by (rewrite <- Hp5; by apply Forall_take, (spelled_digits s u5)).
  destruct (unpack_ok (E:=AddressError) p5 Hd) as (bytes' & Hb' & [Hbd' (r' & low' & Hl' & Hr' & Hn' & Hlow')]). rewrite Hb' in Hback. injection Hback as ->.
  assert (r' = r) as -> by lia. apply (number_inj 256); [lia|done|done|lia|]. pose proof (Z.pow_pos_nonneg 2 r). nia.
Qed.

(** ** Properties *)

(** C36: addresses round-trip.  Every address of bytes has a text form, and reading that
    text gives the address back. *)
Theorem address_roundtrip {E} a : address_ok a → ∃ s, address_to_string (E:=E) a = Ok s ∧ address_try_from s = Ok a.
Proof.
  intros Ha. destruct (encoded_decodes (E:=E) a Ha) as (s & Hs & Hd). exists (prefix_as_str (a_prefix a) ++ [58] ++ s).
  unfold address_to_string, address_try_from. rewrite Hs. destruct (split_prefix (a_prefix a) s) as [-> ->]. done.
Qed.

Lemma address_roundtrip_witness : ∃ s, address_to_string (E:=unit) (mkAddress Testnet [1; 2; 255] 8) = Ok s
  ∧ address_try_from s = Ok (mkAddress Testnet [1; 2; 255] 8).
Proof. apply (address_roundtrip (mkAddress Testnet [1; 2; 255] 8)). split; apply (bool_decide_unpack _); vm_compute; exact I. Defined.

(** C37: the checksum detects bursts.  A text that differs from the text form of an address
    in at most eight consecutive characters of the payload, all of the alphabet, is
    refused with [BadChecksum]. *)
Theorem burst_refused {E} a p w w' q : address_ok a → encode_payload (E:=E) a = Ok (p ++ w ++ q) → length w' = length w → (length w ≤ 8)%nat →
  w' ≠ w → Forall (λ b, b ∈ CHARSET) w' → decode_payload (a_prefix a) (p ++ w' ++ q) = Err BadChecksum.
Proof.
  intros Ha Henc Hlen H8 Hne Hw'. destruct (encode_ok (E:=E) a Ha) as (s & u5 & p5 & Hs & Hsp & Hcw & Hs8 & Hmax & _). rewrite Henc in Hs. injection Hs as <-.
  apply Forall2_app_inv_l in Hsp as (up & uwq & Hp & Hwq & ->). apply Forall2_app_inv_l in Hwq as (uw & uq & Hw & Hq & ->).
  destruct (spell_exists w' Hw') as [uw' Huw']. destruct (spelled_digits _ _ Hp) as (Dp & Lp & _). destruct (spelled_digits _ _ Hw) as (Dw & Lw & _).
  destruct (spelled_digits _ _ Hq) as (Dq & Lq & _). destruct (spelled_digits _ _ Huw') as (Dw' & Lw' & _).
  assert (spelled (p ++ w' ++ q) (up ++ uw' ++ uq)) as Hsp' by (apply Forall2_app; [done|]; by apply Forall2_app).
  destruct (decode_spelled (a_prefix a) _ _ Hsp') as (bytes & _ & [[_ Hd]|[Hc _]]); [rewrite !length_app in *; lia..|done|].
  exfalso. apply (burst_detected (a_prefix a) up uw uw' uq); try done; [lia|lia|].
  intros <-. apply Hne. by apply (spelled_inj _ _ uw).
Qed.

(** One letter of the address of the tests is changed. *)
Lemma burst_refused_witness : decode_payload Mainnet (bytes_of "qqqqqqqqqqqqqqqqqqqqqqqqqqqqqqqqqqqqqpzqqqqqqqqqqqqqqkx9awp4e") = Err BadChecksum.
Proof.
  apply (burst_refused (E:=unit) (mkAddress Mainnet (replicate 32 0) 0) (replicate 37 113) (bytes_of "qq") (bytes_of "pz")
    (bytes_of "qqqqqqqqqqqqqqkx9awp4e")).
  - split; apply (bool_decide_unpack _); vm_compute; exact I.
  - vm_compute. reflexivity.
  - reflexivity.
  - apply Nat.leb_le. reflexivity.
  - discriminate.
  - repeat constructor; apply (bool_decide_unpack _); vm_compute; exact I.
Defined.

(** C38: all outcomes of the decoding.  A text of the alphabet of at least ten characters
    that is a codeword gives the address of its complete bytes; a character below 123 that
    is not of the alphabet is named by [DecodingError]; a text of the alphabet that is not
    a codeword is refused with [BadChecksum].  There are three panics: a character from
    123 on is outside the table of characters, a text shorter than the checksum cannot be
    split, and a codeword with less than one byte of payload has no version. *)
Theorem decode_outcomes prefix s : Forall (λ b, 0 ≤ b < 256) s → Z.of_nat (length s) ≤ u64_max →
  match decode_payload prefix s with
  | Ok a => ∃ u5, spelled s u5 ∧ codeword prefix u5 ∧ (10 ≤ length s)%nat ∧ a_prefix a = prefix
      ∧ unpacked (take (length s - 8) u5) (a_version a :: a_payload a)
  | Err (DecodingError c) => ∃ p q, s = p ++ c :: q ∧ Forall (λ b, b ∈ CHARSET) p ∧ (c ∉ CHARSET) ∧ c < 123
  | Err BadChecksum => ∃ u5, spelled s u5 ∧ (8 ≤ length s)%nat ∧ ¬ codeword prefix u5
  | Err _ => False
  | Panic => (∃ p c q, s = p ++ c :: q ∧ Forall (λ b, b ∈ CHARSET) p ∧ 123 ≤ c)
      ∨ Forall (λ b, b ∈ CHARSET) s ∧ (length s < 8)%nat
      ∨ ∃ u5, spelled s u5 ∧ codeword prefix u5 ∧ (8 ≤ length s < 10)%nat
  | Fuel => False
  end.
Proof.
  intros Hs Hmax. assert (Forall (λ b, 0 ≤ b) s) as H0 by (eapply Forall_impl; [exact Hs|]; cbn; lia).
  pose proof (letters_ok s H0) as Hl.
  destruct (omap_each char_value s) as [u5|e| |] eqn:Ho; cbn beta iota in Hl.
  - destruct (decide (8 ≤ length s)%nat) as [H8|Hlt].
    + destruct (decode_spelled prefix s u5 Hl H8 Hmax) as (bytes & Hub & [[Hn ->]|[Hc ->]]); [by exists u5|].
      destruct (spelled_digits s u5 Hl) as (_ & Hlen & _). pose proof Hub as [_ (r & low & Hr & Hr8 & _)]. rewrite length_take in Hr.
      destruct bytes as [|version payload]; cbn [length] in Hr.
      * right. right. exists u5. split_and!; [done|done|lia|lia].
      * exists u5. split_and!; [done|done|lia|done|done].
    + unfold decode_payload. rewrite Ho. cbn [mbind outcome_bind]. unfold sub64, checked.
      replace ((0 <=? Z.of_nat (length s) - 8) && (Z.of_nat (length s) - 8 <=? u64_max)) with false
        by (symmetry; apply andb_false_intro1, Z.leb_gt; lia).
      cbn [mbind outcome_bind]. right. left. split; [by apply (spelled_digits s u5)|lia].
  - unfold decode_payload. rewrite Ho. cbn [mbind outcome_bind]. destruct Hl as (p & c & q & -> & Hp & -> & Hc & Hn). by exists p, q.
  - unfold decode_payload. rewrite Ho. cbn [mbind outcome_bind]. by left.
  - done.
Qed.

(** A text of seven letters. *)
Lemma decode_outcomes_witness : let s := bytes_of "qqqqqqq" in decode_payload Mainnet s = Panic
  ∧ ((∃ p c q, s = p ++ c :: q ∧ Forall (λ b, b ∈ CHARSET) p ∧ 123 ≤ c)
    ∨ Forall (λ b, b ∈ CHARSET) s ∧ (length s < 8)%nat
    ∨ ∃ u5, spelled s u5 ∧ codeword Mainnet u5 ∧ (8 ≤ length s < 10)%nat).
Proof.
  pose proof (decode_outcomes Mainnet (bytes_of "qqqqqqq") ltac:(apply (bool_decide_unpack _); vm_compute; exact I) ltac:(apply (bool_decide_unpack _); vm_compute; exact I)) as Hd.
  assert (decode_payload Mainnet (bytes_of "qqqqqqq") = Panic) as Hp by (vm_compute; reflexivity). rewrite Hp in Hd. exact (conj Hp Hd).
Defined.
