(* ===== verification/Notifier.v ===== *)
(** * Notifications

    [rpc/core/src/notify/]: listeners register with the notifier and subscribe to events;
    one dispatcher task per event holds the listeners of the event, takes messages from
    its channel in order and broadcasts notifications; a subscriber passes the first and
    the last subscription on.

    An operation that holds the lock of the listeners, or that makes one atomic access,
    is one step.  [start], [unregister_listener] and [stop] are not: they release the
    lock or wait in between.  Each is a first step, which returns the call that is under
    way, and a function that takes the next step of such a call.  A dispatcher takes a
    message in one step: its map is its own, and between two sends of a broadcast only
    the closing of a channel could matter, of which then nothing is claimed.  Calls and turns of the tasks interleave; the notifier delivers
    what a notifier without channels and tasks would. *)

From S2P Require Import Prelude.

(** ** [events.rs], [api/notifications.rs], [stubs.rs] *)

Inductive EventType : Type :=
| EBlockAdded
| EVirtualSelectedParentChainChanged
| EFinalityConflicts
| EFinalityConflictResolved
| EUtxosChanged
| EVirtualSelectedParentBlueScoreChanged
| EVirtualDaaScoreChanged
| EPruningPointUTXOSetOverride
| ENewBlockTemplate.
#[global] Instance EventType_eq_dec : EqDecision EventType.
Proof. solve_decision. Defined.

Definition EVENT_TYPE_ARRAY : list EventType :=
  [EBlockAdded; EVirtualSelectedParentChainChanged; EFinalityConflicts; EFinalityConflictResolved; EUtxosChanged;
   EVirtualSelectedParentBlueScoreChanged; EVirtualDaaScoreChanged; EPruningPointUTXOSetOverride; ENewBlockTemplate].

Definition RpcUtxoAddress : Type := list Z.
#[global] Instance RpcUtxoAddress_eq_dec : EqDecision RpcUtxoAddress := _.
#[global] Instance RpcUtxoAddress_countable : Countable RpcUtxoAddress := _.

Inductive NotificationType : Type :=
| TBlockAdded
| TVirtualSelectedParentChainChanged
| TFinalityConflicts
| TFinalityConflictResolved
| TUtxosChanged (utxo_addresses : list RpcUtxoAddress)
| TVirtualSelectedParentBlueScoreChanged
| TVirtualDaaScoreChanged
| TPruningPointUTXOSetOverride
| TNewBlockTemplate.

(** The block of a notification is a number that stands for it. *)
Inductive Notification : Type :=
| NBlockAdded (block : N)
| NVirtualSelectedParentChainChanged
| NFinalityConflict
| NFinalityConflictResolved
| NUtxosChanged (utxo_address : RpcUtxoAddress)
| NVirtualSelectedParentBlueScoreChanged
| NVirtualDaaScoreChanged
| NPruningPointUTXOSetOverride
| NNewBlockTemplate.

Definition type_of_event (item : EventType) : NotificationType :=
  match item with
  | EBlockAdded => TBlockAdded
  | EVirtualSelectedParentChainChanged => TVirtualSelectedParentChainChanged
  | EFinalityConflicts => TFinalityConflicts
  | EFinalityConflictResolved => TFinalityConflictResolved
  | EUtxosChanged => TUtxosChanged []
  | EVirtualSelectedParentBlueScoreChanged => TVirtualSelectedParentBlueScoreChanged
  | EVirtualDaaScoreChanged => TVirtualDaaScoreChanged
  | EPruningPointUTXOSetOverride => TPruningPointUTXOSetOverride
  | ENewBlockTemplate => TNewBlockTemplate
  end.

Definition event_of_notification (item : Notification) : EventType :=
  match item with
  | NBlockAdded _ => EBlockAdded
  | NVirtualSelectedParentChainChanged => EVirtualSelectedParentChainChanged
  | NFinalityConflict => EFinalityConflicts
  | NFinalityConflictResolved => EFinalityConflictResolved
  | NUtxosChanged _ => EUtxosChanged
  | NVirtualSelectedParentBlueScoreChanged => EVirtualSelectedParentBlueScoreChanged
  | NVirtualDaaScoreChanged => EVirtualDaaScoreChanged
  | NPruningPointUTXOSetOverride => EPruningPointUTXOSetOverride
  | NNewBlockTemplate => ENewBlockTemplate
  end.

Definition event_of_type (item : NotificationType) : EventType :=
  match item with
  | TBlockAdded => EBlockAdded
  | TVirtualSelectedParentChainChanged => EVirtualSelectedParentChainChanged
  | TFinalityConflicts => EFinalityConflicts
  | TFinalityConflictResolved => EFinalityConflictResolved
  | TUtxosChanged _ => EUtxosChanged
  | TVirtualSelectedParentBlueScoreChanged => EVirtualSelectedParentBlueScoreChanged
  | TVirtualDaaScoreChanged => EVirtualDaaScoreChanged
  | TPruningPointUTXOSetOverride => EPruningPointUTXOSetOverride
  | TNewBlockTemplate => ENewBlockTemplate
  end.

(** One entry per event; indexing is application. *)
Definition EventArray (T : Type) : Type := EventType → T.
Definition index_mut {T} (array : EventArray T) (event : EventType) (x : T) : EventArray T :=
  λ e, if decide (e = event) then x else array e.

(** ** Channels: [utils/src/channel.rs]

    An unbounded channel keeps what was sent; sending fails when it is closed.  What the
    receivers have taken is not removed. *)

Record Channel : Type := mkChannel { ch_sent : list Notification; ch_closed : bool }.
Definition channel_default : Channel := mkChannel [] false.

(** [errors.rs]; the text of a general error is its bytes. *)
Inductive NotifyError : Type := General (message : list Z) | ChannelRecvError | ChannelSendError | AlreadyStoppedError.

(** ** [listener.rs] *)

Definition ListenerID : Type := Z.
Inductive ListenerUtxoNotificationFilterSetting : Type := All | FilteredByAddress.
#[global] Instance FilterSetting_eq_dec : EqDecision ListenerUtxoNotificationFilterSetting.
Proof. solve_decision. Defined.

(** The channel is named by its place in the store of channels: it may be shared. *)
Record Listener : Type := mkListener {
  l_id : ListenerID;
  l_channel : nat;
  l_active_event : EventArray bool;
  l_utxo_addresses : gset RpcUtxoAddress;
}.

Definition listener_new (id : ListenerID) (channel : nat) : Listener := mkListener id channel (λ _, false) ∅.
Definition listener_has (self : Listener) (event : EventType) : bool := l_active_event self event.

Definition toggle_utxo_addresses (utxo_addresses : list RpcUtxoAddress) (self : Listener) : bool * Listener :=
  let utxo_addresses := list_to_set utxo_addresses in
  if decide (utxo_addresses ≠ l_utxo_addresses self)
  then (true, mkListener (l_id self) (l_channel self) (l_active_event self) utxo_addresses)
  else (false, self).

Definition toggle (notification_type : NotificationType) (active : bool) (self : Listener) : bool * Listener :=
  let event := event_of_type notification_type in
  let '(changed, self) :=
    if negb (Bool.eqb (l_active_event self event) active)
    then (true, mkListener (l_id self) (l_channel self) (index_mut (l_active_event self) event active) (l_utxo_addresses self))
    else (false, self) in
  match notification_type with
  | TUtxosChanged utxo_addresses => toggle_utxo_addresses utxo_addresses self
  | _ => (changed, self)
  end.

Inductive Filter : Type := Unfiltered | FilterUtxoAddress (utxos_addresses : gset RpcUtxoAddress).

Definition filter_matches (self : Filter) (notification : Notification) : bool :=
  match self with
  | Unfiltered => true
  | FilterUtxoAddress utxos_addresses =>
      match notification with NUtxosChanged utxo_address => bool_decide (utxo_address ∈ utxos_addresses) | _ => false end
  end.

Record ListenerSenderSide : Type := mkSenderSide { ss_send_channel : nat; ss_filter : Filter }.

Definition sender_side_new (listener : Listener) (sending_changed_utxos : ListenerUtxoNotificationFilterSetting) (event : EventType) :
    ListenerSenderSide :=
  match event, sending_changed_utxos with
  | EUtxosChanged, FilteredByAddress => mkSenderSide (l_channel listener) (FilterUtxoAddress (l_utxo_addresses listener))
  | _, _ => mkSenderSide (l_channel listener) Unfiltered
  end.

(** ** [message.rs] *)

Inductive DispatchMessage : Type :=
| Send (notification : Notification)
| AddListener (id : ListenerID) (listener : ListenerSenderSide)
| RemoveListener (id : ListenerID)
| DispatchShutdown.

Inductive SubscribeMessage : Type :=
| StartEvent (notification_type : NotificationType)
| StopEvent (notification_type : NotificationType)
| SubscribeShutdown.

(** ** [subscriber.rs]

    The subscription manager is another component: its calls are recorded.
    [sb_running] says whether the task runs; the shutdown listener is triggered when it
    ends. *)

Record Subscriber : Type := mkSubscriber {
  sb_listener_id : ListenerID;
  sb_is_started : bool;
  sb_shutdown_listener : bool;
  sb_channel : list SubscribeMessage;
  sb_running : bool;
  sb_calls : list (bool * ListenerID * NotificationType);
}.

Definition subscriber_new (listener_id : ListenerID) : Subscriber := mkSubscriber listener_id false false [] false [].

Definition subscriber_start (self : Subscriber) : Subscriber :=
  if sb_is_started self then mkSubscriber (sb_listener_id self) true true (sb_channel self) (sb_running self) (sb_calls self)
  else mkSubscriber (sb_listener_id self) true true (sb_channel self) true (sb_calls self).

Definition subscriber_send (msg : SubscribeMessage) (self : Subscriber) : Subscriber :=
  mkSubscriber (sb_listener_id self) (sb_is_started self) (sb_shutdown_listener self) (sb_channel self ++ [msg]) (sb_running self) (sb_calls self).

(** One turn of the task that receives the subscriptions. *)
Definition subscriber_turn (self : Subscriber) : Subscriber :=
  let '(mkSubscriber id started listener channel running calls) := self in
  if running then
    match channel with
    | StartEvent notification_type :: channel => mkSubscriber id started listener channel true (calls ++ [(true, id, notification_type)])
    | StopEvent notification_type :: channel => mkSubscriber id started listener channel true (calls ++ [(false, id, notification_type)])
    | SubscribeShutdown :: channel => mkSubscriber id started listener channel false calls
    | [] => self
    end
  else self.

(** [stop_subscription_receiver_task] up to the wait for the end of the task. *)
Definition stop_subscriber (self : Subscriber) : outcome NotifyError Subscriber :=
  if sb_is_started self then
    let self := subscriber_send SubscribeShutdown
      (mkSubscriber (sb_listener_id self) false (sb_shutdown_listener self) (sb_channel self) (sb_running self) (sb_calls self)) in
    if sb_shutdown_listener self
    then mret (mkSubscriber (sb_listener_id self) (sb_is_started self) false (sb_channel self) (sb_running self) (sb_calls self))
    else Panic
  else Err AlreadyStoppedError.

(** ** [notifier.rs] *)

(** The variables of a dispatcher task; [d_running] says whether it runs. *)
Record Dispatcher : Type := mkDispatcher { d_listeners : gmap ListenerID ListenerSenderSide; d_need_subscribe : bool; d_running : bool }.

(** A dispatcher is [None] until it is spawned. The shutdown listener of an event is
    triggered when its dispatcher ends. Of the collector, another component, only its
    presence is kept. *)
Record Inner : Type := mkInner {
  in_listeners : gmap ListenerID Listener;
  in_is_started : bool;
  in_dispatcher_channel : EventArray (list DispatchMessage);
  in_shutdown_listener : EventArray bool;
  in_dispatcher : EventArray (option Dispatcher);
  in_collector : bool;
  in_subscriber : option Subscriber;
  in_sending_changed_utxos : ListenerUtxoNotificationFilterSetting;
  in_channels : gmap nat Channel;
}.

Definition set_listeners x (s : Inner) : Inner :=
  mkInner x (in_is_started s) (in_dispatcher_channel s) (in_shutdown_listener s) (in_dispatcher s) (in_collector s) (in_subscriber s) (in_sending_changed_utxos s) (in_channels s).
Definition set_dispatcher_channel x (s : Inner) : Inner :=
  mkInner (in_listeners s) (in_is_started s) x (in_shutdown_listener s) (in_dispatcher s) (in_collector s) (in_subscriber s) (in_sending_changed_utxos s) (in_channels s).
Definition set_shutdown_listener x (s : Inner) : Inner :=
  mkInner (in_listeners s) (in_is_started s) (in_dispatcher_channel s) x (in_dispatcher s) (in_collector s) (in_subscriber s) (in_sending_changed_utxos s) (in_channels s).
Definition set_dispatcher x (s : Inner) : Inner :=
  mkInner (in_listeners s) (in_is_started s) (in_dispatcher_channel s) (in_shutdown_listener s) x (in_collector s) (in_subscriber s) (in_sending_changed_utxos s) (in_channels s).
Definition set_subscriber x (s : Inner) : Inner :=
  mkInner (in_listeners s) (in_is_started s) (in_dispatcher_channel s) (in_shutdown_listener s) (in_dispatcher s) (in_collector s) x (in_sending_changed_utxos s) (in_channels s).
Definition set_channels x (s : Inner) : Inner :=
  mkInner (in_listeners s) (in_is_started s) (in_dispatcher_channel s) (in_shutdown_listener s) (in_dispatcher s) (in_collector s) (in_subscriber s) (in_sending_changed_utxos s) x.
Definition set_is_started x (s : Inner) : Inner :=
  mkInner (in_listeners s) x (in_dispatcher_channel s) (in_shutdown_listener s) (in_dispatcher s) (in_collector s) (in_subscriber s) (in_sending_changed_utxos s) (in_channels s).

Definition notifier_new (collector : bool) (subscriber : option Subscriber) (sending_changed_utxos : ListenerUtxoNotificationFilterSetting)
    (channels : gmap nat Channel) : Inner :=
  mkInner ∅ false (λ _, []) (λ _, false) (λ _, None) collector subscriber sending_changed_utxos channels.

Abbreviation NM := (M Inner NotifyError).

Definition is_closed (channels : gmap nat Channel) (c : nat) : bool := match channels !! c with Some ch => ch_closed ch | None => true end.

(** [ListenerSenderSide::try_send]. *)
Definition try_send (self : ListenerSenderSide) (notification : Notification) (channels : gmap nat Channel) :
    outcome NotifyError bool * gmap nat Channel :=
  if filter_matches (ss_filter self) notification then
    match channels !! ss_send_channel self with
    | Some (mkChannel sent false) => (Ok true, <[ss_send_channel self := mkChannel (sent ++ [notification]) false]> channels)
    | _ => (Err ChannelSendError, channels)
    end
  else (Ok false, channels).

(** [start]: the exchange of [is_started]; the call goes on with the subscriber and the
    dispatchers, one by one. *)
Inductive Starting : Type := StartSubscriber | StartDispatchers (events : list EventType).

Definition notifier_start : NM (option Starting) :=
  self ← get;
  if in_is_started self then mret None
  else modify (set_is_started true);; mret (Some StartSubscriber).

Definition start_next (call : Starting) : NM (option Starting) :=
  match call with
  | StartSubscriber =>
      modify (λ s, set_subscriber (subscriber_start <$> in_subscriber s) s);;
      mret (Some (StartDispatchers EVENT_TYPE_ARRAY))
  | StartDispatchers (event :: events) =>
      modify (λ s, set_shutdown_listener (index_mut (in_shutdown_listener s) event true) s);;
      modify (λ s, set_dispatcher (index_mut (in_dispatcher s) event (Some (mkDispatcher ∅ false true))) s);;
      mret (Some (StartDispatchers events))
  | StartDispatchers [] => mret None
  end.

(** The broadcast of a notification: the channels, and the closed listeners. *)
Definition broadcast (notification : Notification) (listeners : list (ListenerID * ListenerSenderSide)) (channels : gmap nat Channel) :
    gmap nat Channel * list ListenerID :=
  foldl (λ '(channels, purge) '(id, listener),
    match try_send listener notification channels with
    | (Err _, channels) => (channels, if is_closed channels (ss_send_channel listener) then purge ++ [id] else purge)
    | (_, channels) => (channels, purge)
    end) (channels, []) listeners.

(** A turn of a dispatcher task: the message, and the report at the head of the next turn. *)
Definition dispatch (event : EventType) (message : DispatchMessage) (d : Dispatcher) (s : Inner) : Inner :=
  let listeners := d_listeners d in
  let report_all_changes := bool_decide (event = EUtxosChanged) && bool_decide (in_sending_changed_utxos s = FilteredByAddress) in
  let next (listeners : gmap ListenerID ListenerSenderSide) (need_subscribe : bool) (s : Inner) : Inner :=
    let s := set_dispatcher (index_mut (in_dispatcher s) event (Some (mkDispatcher listeners need_subscribe true))) s in
    if need_subscribe then
      let message := if (0 <? size listeners)%nat then StartEvent (type_of_event event) else StopEvent (type_of_event event) in
      set_subscriber (subscriber_send message <$> in_subscriber s) s
    else s in
  match message with
  | Send notification =>
      let '(channels, purge) := broadcast notification (map_to_list listeners) (in_channels s) in
      let need_subscribe := negb (bool_decide (purge = [])) && (length purge =? size listeners)%nat || report_all_changes in
      next (foldr (λ id listeners, delete id listeners) listeners purge) need_subscribe (set_channels channels s)
  | AddListener id listener =>
      let need_subscribe := (size listeners =? 0)%nat || report_all_changes in
      next (<[id := listener]> listeners) need_subscribe s
  | RemoveListener id =>
      let listeners := delete id listeners in
      next listeners ((size listeners =? 0)%nat || report_all_changes) s
  | DispatchShutdown => set_dispatcher (index_mut (in_dispatcher s) event (Some (mkDispatcher listeners (d_need_subscribe d) false))) s
  end.

Definition dispatcher_turn (event : EventType) (s : Inner) : Inner :=
  match in_dispatcher s event, in_dispatcher_channel s event with
  | Some d, message :: messages =>
      if d_running d
      then dispatch event message d (set_dispatcher_channel (index_mut (in_dispatcher_channel s) event messages) s)
      else s
  | _, _ => s
  end.

(** The random identifiers are drawn from [rnd]; without a channel a new one is made. *)
Definition register_new_listener (fuel : nat) (rnd : nat → ListenerID) (channel : option nat) : NM (ListenerID * nat) :=
  self ← get;
  id ← lift (oloop fuel (λ i, if bool_decide (is_Some (in_listeners self !! rnd i)) then mret (inl (S i)) else mret (inr (rnd i))) 0%nat);
  c ← match channel with
      | Some c => mret c
      | None =>
          let c := fresh (dom (in_channels self)) in
          modify (λ s, set_channels (<[c := channel_default]> (in_channels s)) s);;
          mret c
      end;
  modify (λ s, set_listeners (<[id := listener_new id c]> (in_listeners s)) s);;
  mret (id, c).

(** The dispatcher channels are never closed. *)
Definition try_send_dispatch (event : EventType) (msg : DispatchMessage) : NM unit :=
  modify (λ s, set_dispatcher_channel (index_mut (in_dispatcher_channel s) event (in_dispatcher_channel s event ++ [msg])) s).

Definition start_notify (id : ListenerID) (notification_type : NotificationType) : NM unit :=
  let event := event_of_type notification_type in
  self ← get;
  match in_listeners self !! id with
  | Some listener =>
      let '(changed, listener) := toggle notification_type true listener in
      modify (λ s, set_listeners (<[id := listener]> (in_listeners s)) s);;
      if changed then
        try_send_dispatch event (AddListener (l_id listener) (sender_side_new listener (in_sending_changed_utxos self) event))
      else mret tt
  | None => mret tt
  end.

Definition stop_notify (id : ListenerID) (notification_type : NotificationType) : NM unit :=
  let event := event_of_type notification_type in
  self ← get;
  match in_listeners self !! id with
  | Some listener =>
      let '(changed, listener) := toggle notification_type false listener in
      modify (λ s, set_listeners (<[id := listener]> (in_listeners s)) s);;
      if changed then try_send_dispatch event (RemoveListener (l_id listener)) else mret tt
  | None => mret tt
  end.

Inductive SubscribeCommand : Type := CommandStart | CommandStop.
Definition command_of_i32 (item : Z) : SubscribeCommand := if item =? 1 then CommandStop else CommandStart.
Definition execute_subscribe_command (id : ListenerID) (notification_type : NotificationType) (command : SubscribeCommand) : NM unit :=
  match command with
  | CommandStart => start_notify id notification_type
  | CommandStop => stop_notify id notification_type
  end.

Definition notify (notification : Notification) : NM unit :=
  try_send_dispatch (event_of_notification notification) (Send notification).

Definition close_channel (c : nat) (channels : gmap nat Channel) : gmap nat Channel :=
  match channels !! c with Some ch => <[c := mkChannel (ch_sent ch) true]> channels | None => channels end.

(** [unregister_listener]: the removal, under the lock; the call goes on with
    [stop_notify] for each active event and closes the channel. *)
Record Leaving : Type := mkLeaving { lv_listener : Listener; lv_active_events : list EventType }.

Definition unregister_listener (id : ListenerID) : NM (option Leaving) :=
  self ← get;
  match in_listeners self !! id with
  | Some listener =>
      modify (λ s, set_listeners (delete id (in_listeners s)) s);;
      let active_events := filter (λ event, listener_has listener event = true) EVENT_TYPE_ARRAY in
      mret (Some (mkLeaving listener active_events))
  | None => mret None
  end.

Definition unregister_next (call : Leaving) : NM (option Leaving) :=
  match lv_active_events call with
  | event :: active_events =>
      stop_notify (l_id (lv_listener call)) (type_of_event event);;
      mret (Some (mkLeaving (lv_listener call) active_events))
  | [] =>
      modify (λ s, set_channels (close_channel (l_channel (lv_listener call)) (in_channels s)) s);;
      mret None
  end.

(** [stop]: the exchange of [is_started]; the call goes on with the collector, the
    dispatchers, one after the other, and the subscriber. *)
Inductive Stopping : Type :=
| StopCollector
| StopDispatchers (events : list EventType)
| AwaitDispatcher (event : EventType) (events : list EventType)
| AwaitSubscriber.

Definition notifier_stop : NM Stopping :=
  self ← get;
  if in_is_started self then
    modify (set_is_started false);;
    mret (if in_collector self then StopCollector else StopDispatchers EVENT_TYPE_ARRAY)
  else fail AlreadyStoppedError.

(** [stop_dispatcher_task] for one event, up to the wait for the end of its task. *)
Definition stop_dispatcher (event : EventType) : NM unit :=
  try_send_dispatch event DispatchShutdown;;
  self ← get;
  if in_shutdown_listener self event
  then modify (λ s, set_shutdown_listener (index_mut (in_shutdown_listener s) event false) s)
  else lift Panic.

Definition running (s : Inner) (event : EventType) : bool :=
  match in_dispatcher s event with Some d => d_running d | None => false end.

(** The next step of [stop]; [collector] is what the collector answers. A wait that has
    not ended is taken up again. *)
Definition stop_next (collector : outcome NotifyError unit) (call : Stopping) : NM (option Stopping) :=
  match call with
  | StopCollector => lift collector;; mret (Some (StopDispatchers EVENT_TYPE_ARRAY))
  | StopDispatchers (event :: events) => stop_dispatcher event;; mret (Some (AwaitDispatcher event events))
  | AwaitDispatcher event events =>
      self ← get;
      mret (Some (if running self event then call else StopDispatchers events))
  | StopDispatchers [] =>
      self ← get;
      match in_subscriber self with
      | Some subscriber =>
          subscriber ← lift (stop_subscriber subscriber);
          modify (set_subscriber (Some subscriber));;
          mret (Some AwaitSubscriber)
      | None => mret None
      end
  | AwaitSubscriber =>
      self ← get;
      mret (match in_subscriber self with Some subscriber => if sb_running subscriber then Some call else None | None => None end)
  end.

(** ** Runs *)

(** The notifier with the calls that are under way: [start], the calls of
    [unregister_listener], and [stop]. *)
Inductive StopState : Type := NotStopped | StopUnderWay (call : Stopping) | StopEnded (r : outcome NotifyError unit).

Record System : Type := mkSystem {
  sys_inner : Inner;
  sys_starting : option Starting;
  sys_leaving : gmap ListenerID Leaving;
  sys_stop : StopState;
}.
Definition set_inner s (y : System) : System := mkSystem s (sys_starting y) (sys_leaving y) (sys_stop y).

(** The calls of the clients, their further steps and the turns of the tasks. *)
Inductive Action : Type :=
| ARegister (fuel : nat) (rnd : nat → ListenerID) (channel : option nat)
| AStart (id : ListenerID) (notification_type : NotificationType)
| AStop (id : ListenerID) (notification_type : NotificationType)
| AUnregister (id : ListenerID)
| AUnregisterNext (id : ListenerID)
| ANotify (notification : Notification)
| ALaunch
| ALaunchNext
| AShutdown
| AShutdownNext (collector : outcome NotifyError unit)
| AClose (channel : nat)
| ADispatch (event : EventType)
| ASubscriber.

Definition act (a : Action) (y : System) : System :=
  let '(mkSystem s starting leaving stop) := y in
  match a with
  | ARegister fuel rnd channel => set_inner (snd (register_new_listener fuel rnd channel s)) y
  | AStart id notification_type => set_inner (snd (start_notify id notification_type s)) y
  | AStop id notification_type => set_inner (snd (stop_notify id notification_type s)) y
  | AUnregister id =>
      match unregister_listener id s with
      | (Ok (Some call), s) => mkSystem s starting (<[id := call]> leaving) stop
      | (_, s) => set_inner s y
      end
  | AUnregisterNext id =>
      match leaving !! id with
      | Some call =>
          match unregister_next call s with
          | (Ok (Some call), s) => mkSystem s starting (<[id := call]> leaving) stop
          | (_, s) => mkSystem s starting (delete id leaving) stop
          end
      | None => y
      end
  | ANotify notification => set_inner (snd (notify notification s)) y
  | ALaunch =>
      match notifier_start s with
      | (Ok (Some call), s) => mkSystem s (Some call) leaving stop
      | (_, s) => set_inner s y
      end
  | ALaunchNext =>
      match starting with
      | Some call =>
          match start_next call s with
          | (Ok starting, s) => mkSystem s starting leaving stop
          | (_, s) => set_inner s y
          end
      | None => y
      end
  | AShutdown =>
      match notifier_stop s with
      | (Ok call, s) => mkSystem s starting leaving (StopUnderWay call)
      | (_, s) => set_inner s y
      end
  | AShutdownNext collector =>
      match stop with
      | StopUnderWay call =>
          match stop_next collector call s with
          | (Ok (Some call), s) => mkSystem s starting leaving (StopUnderWay call)
          | (Ok None, s) => mkSystem s starting leaving (StopEnded (Ok tt))
          | (Err err, s) => mkSystem s starting leaving (StopEnded (Err err))
          | (Panic, s) => mkSystem s starting leaving (StopEnded Panic)
          | (Fuel, s) => mkSystem s starting leaving (StopEnded Fuel)
          end
      | _ => y
      end
  | AClose c => set_inner (set_channels (close_channel c (in_channels s)) s) y
  | ADispatch event => set_inner (dispatcher_turn event s) y
  | ASubscriber => set_inner (set_subscriber (subscriber_turn <$> in_subscriber s) s) y
  end.

(** A client registers with a channel that exists, and does not draw the identifier of a
    listener that is about to leave; the notifier is started before it is stopped, and
    not again after that. *)
Definition permitted (a : Action) (y : System) : Prop :=
  match a with
  | ARegister _ rnd channel => (∀ i, sys_leaving y !! rnd i = None) ∧ match channel with Some c => is_Some (in_channels (sys_inner y) !! c) | None => True end
  | ALaunch => sys_stop y = NotStopped
  | AShutdown => sys_starting y = None
  | _ => True
  end.

(** The listeners that have [event] active and receive on channel [c]. *)
Definition subscribed (event : EventType) (c : nat) (listeners : gmap ListenerID Listener) : gmap ListenerID Listener :=
  filter (λ p, l_channel p.2 = c ∧ l_active_event p.2 event = true) listeners.

(** A listener is served until its channel is closed: those that are about to leave count. *)
Definition departing (leaving : gmap ListenerID Leaving) : gmap ListenerID Listener := lv_listener <$> leaving.
Definition served (y : System) : gmap ListenerID Listener := in_listeners (sys_inner y) ∪ departing (sys_leaving y).

(** Whether the dispatcher of an event was told to shut down. *)
Definition is_shutdown (msg : DispatchMessage) : bool := match msg with DispatchShutdown => true | _ => false end.
Definition ended (s : Inner) (event : EventType) : bool := match in_dispatcher s event with Some d => negb (d_running d) | None => false end.
Definition ending (s : Inner) (event : EventType) : bool := existsb is_shutdown (in_dispatcher_channel s event) || ended s event.

(** What an action should bring to channel [c]: a notification that is issued before the
    dispatcher of its event is told to shut down, once for every listener that is
    subscribed then. *)
Definition due (event : EventType) (c : nat) (a : Action) (y : System) : list Notification :=
  match a with
  | ANotify n =>
      if decide (event_of_notification n = event)
      then if ending (sys_inner y) event then [] else replicate (size (subscribed event c (served y))) n
      else []
  | _ => []
  end.

(** Runs, with what is due on every channel. *)
Inductive run (y0 : System) : System → (EventType → nat → list Notification) → Prop :=
| run_refl : run y0 y0 (λ _ _, [])
| run_step y out a : run y0 y out → permitted a y → run y0 (act a y) (λ e c, out e c ++ due e c a y).

(** What channel [c] has received of [event]. *)
Definition received_on (event : EventType) (c : nat) (s : Inner) : list Notification :=
  match in_channels s !! c with Some ch => filter (λ n, event_of_notification n = event) (ch_sent ch) | None => [] end.

Definition open (s : Inner) (c : nat) : Prop := ∃ sent, in_channels s !! c = Some (mkChannel sent false).

(** ** The messages of a dispatcher *)

Lemma filter_none {A} (P : ListenerID * A → Prop) `{∀ x, Decision (P x)} (m : gmap ListenerID A) :
  (∀ id x, m !! id = Some x → ¬ P (id, x)) → filter P m = ∅.
Proof. intros Hn. apply map_empty. intros id. apply map_lookup_filter_None. right. intros x Hx. by apply Hn. Qed.

Definition active_map (s : Inner) (event : EventType) : gmap ListenerID ListenerSenderSide :=
  match in_dispatcher s event with Some d => d_listeners d | None => ∅ end.

(** The listeners once all messages are taken. *)
Definition settle1 (m : gmap ListenerID ListenerSenderSide) (msg : DispatchMessage) : gmap ListenerID ListenerSenderSide :=
  match msg with AddListener id ss => <[id := ss]> m | RemoveListener id => delete id m | _ => m end.
Definition settle (m : gmap ListenerID ListenerSenderSide) (q : list DispatchMessage) : gmap ListenerID ListenerSenderSide := foldl settle1 m q.

Definition on_channel (c : nat) (m : gmap ListenerID ListenerSenderSide) : gmap ListenerID ListenerSenderSide :=
  filter (λ p, ss_send_channel p.2 = c) m.

(** What the messages will bring to channel [c]. *)
Fixpoint pending (c : nat) (m : gmap ListenerID ListenerSenderSide) (q : list DispatchMessage) : list Notification :=
  match q with
  | [] => []
  | Send n :: q => replicate (size (on_channel c m)) n ++ pending c m q
  | msg :: q => pending c (settle1 m msg) q
  end.

Lemma pending_snoc c m q msg : pending c m (q ++ [msg]) = pending c m q ++ match msg with Send n => replicate (size (on_channel c (settle m q))) n | _ => [] end.
Proof.
  revert m. induction q as [|x q IH]; intros m; [by destruct msg; cbn; rewrite ?app_nil_r|].
  destruct x; cbn [pending app settle foldl]; rewrite IH; cbn [settle1]; by rewrite ?app_assoc.
Qed.

Lemma on_channel_settle1 c m m' msg : on_channel c m = on_channel c m' → on_channel c (settle1 m msg) = on_channel c (settle1 m' msg).
Proof.
  intros Heq. unfold on_channel in *. destruct msg as [n|id ss|id|]; cbn [settle1]; [done| | |done].
  - destruct (decide (ss_send_channel ss = c)) as [Hc|Hc].
    + by rewrite !map_filter_insert_True, Heq by done.
    + rewrite !map_filter_insert_False by done. by rewrite !map_filter_delete, Heq.
  - by rewrite !map_filter_delete, Heq.
Qed.

Lemma pending_ext c m m' q : on_channel c m = on_channel c m' → pending c m q = pending c m' q.
Proof.
  revert m m'. induction q as [|msg q IH]; intros m m' Heq; [done|].
  destruct msg; cbn [pending]; [by rewrite Heq, (IH m m')|by apply IH, on_channel_settle1..].
Qed.

Lemma settle_snoc m q msg : settle m (q ++ [msg]) = settle1 (settle m q) msg.
Proof. unfold settle. by rewrite foldl_app. Qed.

(** ** The broadcast *)

Definition append_to (k : nat) (n : Notification) (o : option Channel) : option Channel :=
  match o with Some (mkChannel sent false) => Some (mkChannel (sent ++ replicate k n) false) | _ => o end.

Lemma try_send_ok ss n channels : ss_filter ss = Unfiltered →
  ∃ r channels', try_send ss n channels = (r, channels')
    ∧ (∀ c, channels' !! c = append_to (if decide (ss_send_channel ss = c) then 1 else 0) n (channels !! c))
    ∧ match r with Ok _ => is_closed channels (ss_send_channel ss) = false | Err _ => is_closed channels (ss_send_channel ss) = true | _ => False end.
Proof.
  intros Hf. unfold try_send, is_closed. rewrite Hf. cbn [filter_matches].
  assert (∀ o, append_to 0 n o = o) as H0 by (intros [[sent []]|]; cbn; by rewrite ?app_nil_r).
  destruct (channels !! ss_send_channel ss) as [[sent []]|] eqn:Hc; cbn; eexists _, _; (split; [reflexivity|]); split; try done; intros c;
    (destruct (decide (ss_send_channel ss = c)) as [<-|Hne]; [|try (rewrite lookup_insert_ne by done); symmetry; apply H0]).
  - by rewrite Hc.
  - by rewrite lookup_insert_eq, Hc.
  - by rewrite Hc.
Qed.

Lemma append_closed channels channels' c : (∀ c, ∃ k n, channels' !! c = append_to k n (channels !! c)) → is_closed channels' c = is_closed channels c.
Proof. intros H. unfold is_closed. destruct (H c) as (k & n & ->). by destruct (channels !! c) as [[sent []]|]. Qed.

Lemma broadcast_from n (l : list (ListenerID * ListenerSenderSide)) channels (purge0 : list ListenerID) : Forall (λ p, ss_filter p.2 = Unfiltered) l →
  ∃ channels', foldl (λ '(channels, purge) '(id, listener),
    match try_send listener n channels with
    | (Err _, channels) => (channels, if is_closed channels (ss_send_channel listener) then purge ++ [id] else purge)
    | (_, channels) => (channels, purge)
    end) (channels, purge0) l = (channels', purge0 ++ (filter (λ p, is_closed channels (ss_send_channel p.2) = true) l).*1)
  ∧ ∀ c, channels' !! c = append_to (length (filter (λ p, ss_send_channel p.2 = c) l)) n (channels !! c).
Proof.
  intros Hl. revert channels purge0. induction Hl as [|[id ss] l Hf _ IH]; intros channels purge0.
  { exists channels. cbn. split; [by rewrite app_nil_r|]. intros c. destruct (channels !! c) as [[sent []]|]; cbn; by rewrite ?app_nil_r. }
  cbn [foldl]. destruct (try_send_ok ss n channels Hf) as (r & ch1 & Hs & Hch & Hr). rewrite Hs.
  assert (∀ c, is_closed ch1 c = is_closed channels c) as Hcl by (intros c; apply append_closed; intros c'; eexists _, _; apply Hch).
  assert (∀ channels' : gmap nat Channel, (∀ c, channels' !! c = append_to (length (filter (λ p, ss_send_channel p.2 = c) l)) n (ch1 !! c)) →
    ∀ c, channels' !! c = append_to (length (filter (λ p, ss_send_channel p.2 = c) ((id, ss) :: l))) n (channels !! c)) as Hcomp.
  { intros channels' Hc' c. rewrite Hc', Hch. cbn [snd]. rewrite filter_cons. cbn [snd]. destruct (decide (ss_send_channel ss = c)) as [Hc|Hc].
    - destruct (channels !! c) as [[sent []]|]; cbn; [done| |done]. by rewrite <- app_assoc.
    - destruct (channels !! c) as [[sent []]|]; cbn; [done| |done]. by rewrite app_nil_r. }
  assert (filter (λ p, is_closed ch1 (ss_send_channel p.2) = true) l = filter (λ p, is_closed channels (ss_send_channel p.2) = true) l) as Hfl.
  { apply list_filter_iff. intros p. by rewrite Hcl. }
  rewrite filter_cons. cbn [snd fst]. destruct r as [b|e| |]; try done.
  - destruct (IH ch1 purge0) as (channels' & -> & Hc'). exists channels'. rewrite Hfl, decide_False by congruence. split; [done|by apply Hcomp].
  - rewrite Hcl, Hr. destruct (IH ch1 (purge0 ++ [id])) as (channels' & -> & Hc'). exists channels'. rewrite Hfl, decide_True by done.
    split; [|by apply Hcomp]. by rewrite <- app_assoc.
Qed.

Lemma broadcast_ok n m channels : map_Forall (λ _ ss, ss_filter ss = Unfiltered) m →
  ∃ channels' purge, broadcast n (map_to_list m) channels = (channels', purge)
    ∧ (∀ id, id ∈ purge → ∃ ss, m !! id = Some ss ∧ is_closed channels (ss_send_channel ss) = true)
    ∧ ∀ c, channels' !! c = append_to (size (on_channel c m)) n (channels !! c).
Proof.
  intros Hm. destruct (broadcast_from n (map_to_list m) channels []) as (channels' & Hb & Hc).
  { apply Forall_forall. intros [id ss] Hin%elem_of_map_to_list. exact (Hm id ss Hin). }
  exists channels', ((filter (λ p, is_closed channels (ss_send_channel p.2) = true) (map_to_list m)).*1). split_and!; [exact Hb| |].
  - intros id ([id' ss] & -> & [Hcl Hin]%list_elem_of_filter)%list_elem_of_fmap. apply elem_of_map_to_list in Hin. by exists ss.
  - intros c. rewrite Hc. do 2 f_equal. unfold on_channel. rewrite <- length_map_to_list. apply Permutation_length.
    apply NoDup_Permutation.
    + apply NoDup_filter, NoDup_map_to_list.
    + apply NoDup_map_to_list.
    + intros [id ss]. rewrite list_elem_of_filter, !elem_of_map_to_list, map_lookup_filter_Some. naive_solver.
Qed.

Lemma purged_lookup (m : gmap ListenerID ListenerSenderSide) (purge : list ListenerID) id (ss : ListenerSenderSide) :
  foldr (λ id listeners, delete id listeners) m purge !! id = Some ss ↔ m !! id = Some ss ∧ id ∉ purge.
Proof. induction purge as [|x purge IH]; cbn [foldr]; [set_solver|]. rewrite lookup_delete_Some, IH. set_solver. Qed.

(** Purging closed listeners does not concern open channels. *)
Lemma on_channel_purge c m purge : (∀ id ss, id ∈ purge → m !! id = Some ss → ss_send_channel ss ≠ c) →
  on_channel c (foldr (λ id listeners, delete id listeners) m purge) = on_channel c m.
Proof.
  intros Hp. apply map_eq. intros id. apply option_eq. intros ss. unfold on_channel. rewrite !map_lookup_filter_Some. cbn [snd].
  rewrite purged_lookup. split; [naive_solver|]. intros [Hs Hc]. split_and!; [done| |done]. intros Hin. by apply (Hp id ss Hin Hs).
Qed.

(** ** The invariant of one event *)

Section event.
Context (e : EventType).
Implicit Types (ch : gmap nat Channel) (L : gmap ListenerID Listener) (m : gmap ListenerID ListenerSenderSide) (q : list DispatchMessage).

Definition opened ch (c : nat) : Prop := ∃ sent, ch !! c = Some (mkChannel sent false).
Definition shut ch (c : nat) : Prop := ∃ sent, ch !! c = Some (mkChannel sent true).
Definition taken ch (c : nat) : list Notification :=
  match ch !! c with Some x => filter (λ n, event_of_notification n = e) (ch_sent x) | None => [] end.
Definition plain ch (ss : ListenerSenderSide) : Prop := ss_filter ss = Unfiltered ∧ is_Some (ch !! ss_send_channel ss).
Definition message_ok ch (msg : DispatchMessage) : Prop :=
  match msg with Send n => event_of_notification n = e | AddListener _ ss => plain ch ss | RemoveListener _ => True | DispatchShutdown => False end.

(** The listeners with the event active are those that the dispatcher will know when its
    messages are taken, except for closed ones; what was received and what the messages
    will bring is what was due. *)
Record event_inv ch L m q (out : nat → list Notification) : Prop := {
  ev_queue : Forall (message_ok ch) q;
  ev_map : map_Forall (λ _ ss, plain ch ss) m;
  ev_listener id l : L !! id = Some l → l_id l = id ∧ is_Some (ch !! l_channel l);
  ev_active id l : L !! id = Some l → l_active_event l e = true →
    settle m q !! id = Some (mkSenderSide (l_channel l) Unfiltered) ∨ shut ch (l_channel l);
  ev_stale id ss : settle m q !! id = Some ss →
    (∃ l, L !! id = Some l ∧ l_active_event l e = true ∧ ss = mkSenderSide (l_channel l) Unfiltered) ∨ shut ch (ss_send_channel ss);
  ev_out c : opened ch c → taken ch c ++ pending c m q = out c;
  ev_fresh c : ch !! c = None → out c = [];
}.

Lemma settle_plain ch m q : Forall (message_ok ch) q → map_Forall (λ _ ss, plain ch ss) m → map_Forall (λ _ ss, plain ch ss) (settle m q).
Proof using.
  intros Hq. revert m. induction Hq as [|msg q Hmsg _ IH]; intros m Hm; [done|]. apply IH. destruct msg; cbn [settle1]; [done| | |done].
  - by apply map_Forall_insert_2.
  - by apply map_Forall_delete.
Qed.

(** The open listeners of a channel are the subscribed ones. *)
Lemma settled_count ch L m q out c : event_inv ch L m q out → opened ch c → size (on_channel c (settle m q)) = size (subscribed e c L).
Proof using.
  intros [F1 F2 F3 F4 F5 _ _] [sent Hc]. rewrite <- !(size_dom (D:=gset ListenerID)). f_equal. apply set_eq. intros id.
  unfold on_channel, subscribed. rewrite !elem_of_dom. split; intros [x Hx]; apply map_lookup_filter_Some in Hx as [Hx Hp]; cbn [snd] in Hp.
  - destruct (F5 id x Hx) as [(l & Hl & Ha & ->)|[sent' Hcl]]; [|congruence]. exists l. apply map_lookup_filter_Some. done.
  - destruct Hp as [Hp Ha]. destruct (F4 id x Hx Ha) as [Hs|[sent' Hcl]]; [|congruence]. eexists. apply map_lookup_filter_Some. split; [exact Hs|done].
Qed.

Lemma push_send ch L m q out n : event_of_notification n = e → event_inv ch L m q out →
  event_inv ch L m (q ++ [Send n]) (λ c, out c ++ replicate (size (subscribed e c L)) n).
Proof using.
  intros Hn HI. pose proof HI as [F1 F2 F3 F4 F5 F6 F7]. split.
  - apply Forall_app. split; [done|]. by apply Forall_singleton.
  - done.
  - done.
  - intros id l Hl Ha. rewrite settle_snoc. by apply F4.
  - intros id ss. rewrite settle_snoc. apply F5.
  - intros c Hc. rewrite pending_snoc, app_assoc, F6 by done. by rewrite (settled_count ch L m q out c HI Hc).
  - intros c Hc. rewrite F7 by done. assert (subscribed e c L = ∅) as ->; [|done]. apply filter_none. intros id l Hl [Hlc _]. cbn in Hlc.
    destruct (F3 id l Hl) as [_ [x Hx]]. congruence.
Qed.

(** A subscription that starts or is replaced. *)
Lemma push_add ch L m q out id l : l_id l = id → is_Some (ch !! l_channel l) → l_active_event l e = true →
  event_inv ch L m q out → event_inv ch (<[id := l]> L) m (q ++ [AddListener id (mkSenderSide (l_channel l) Unfiltered)]) out.
Proof using.
  intros Hid Hk Ha [F1 F2 F3 F4 F5 F6 F7]. split.
  - apply Forall_app. split; [done|]. by apply Forall_singleton.
  - done.
  - intros id' l' [[<- <-]|[Hne Hl']]%lookup_insert_Some; [done|by apply F3].
  - intros id' l' Hl' Ha'. rewrite settle_snoc. cbn [settle1]. apply lookup_insert_Some in Hl' as [[<- <-]|[Hne Hl']]; [left; apply lookup_insert_eq|].
    rewrite lookup_insert_ne by done. by apply F4.
  - intros id' ss. rewrite settle_snoc. cbn [settle1]. intros [[<- <-]|[Hne Hs]]%lookup_insert_Some; [left; exists l; by rewrite lookup_insert_eq|].
    destruct (F5 id' ss Hs) as [(l' & Hl' & Ha')|?]; [left; exists l'; by rewrite lookup_insert_ne|by right].
  - intros c Hc. rewrite pending_snoc, app_nil_r. by apply F6.
  - done.
Qed.

Lemma push_remove ch L m q out id l : l_id l = id → is_Some (ch !! l_channel l) → l_active_event l e = false →
  event_inv ch L m q out → event_inv ch (<[id := l]> L) m (q ++ [RemoveListener id]) out.
Proof using.
  intros Hid Hk Ha [F1 F2 F3 F4 F5 F6 F7]. split.
  - apply Forall_app. split; [done|]. by apply Forall_singleton.
  - done.
  - intros id' l' [[<- <-]|[Hne Hl']]%lookup_insert_Some; [done|by apply F3].
  - intros id' l' Hl' Ha'. rewrite settle_snoc. cbn [settle1]. apply lookup_insert_Some in Hl' as [[<- <-]|[Hne Hl']]; [congruence|].
    rewrite lookup_delete_ne by done. by apply F4.
  - intros id' ss. rewrite settle_snoc. cbn [settle1]. intros [Hne Hs]%lookup_delete_Some.
    destruct (F5 id' ss Hs) as [(l' & Hl' & Ha')|?]; [left; exists l'; by rewrite lookup_insert_ne|by right].
  - intros c Hc. rewrite pending_snoc, app_nil_r. by apply F6.
  - done.
Qed.

(** A listener that changes in another respect. *)
Lemma change_listener ch L m q out id l l0 : L !! id = Some l0 → l_id l = l_id l0 → l_channel l = l_channel l0 → l_active_event l e = l_active_event l0 e →
  event_inv ch L m q out → event_inv ch (<[id := l]> L) m q out.
Proof using.
  intros Hl0 Hid Hch Ha [F1 F2 F3 F4 F5 F6 F7]. destruct (F3 id l0 Hl0) as [Hid0 Hk0]. split; try done.
  - intros id' l' [[<- <-]|[Hne Hl']]%lookup_insert_Some; [rewrite Hid, Hch; done|by apply F3].
  - intros id' l' [[<- <-]|[Hne Hl']]%lookup_insert_Some Ha'; [|by apply F4]. rewrite Hch. apply F4; [done|congruence].
  - intros id' ss Hs. destruct (F5 id' ss Hs) as [(l' & Hl' & Ha')|?]; [left|by right].
    destruct (decide (id' = id)) as [->|Hne]; [exists l; rewrite lookup_insert_eq|exists l'; by rewrite lookup_insert_ne].
    assert (l' = l0) as -> by congruence. rewrite Ha, Hch. done.
Qed.

(** A new listener. *)
Lemma new_listener ch L m q out id c : L !! id = None → is_Some (ch !! c) → event_inv ch L m q out → event_inv ch (<[id := listener_new id c]> L) m q out.
Proof using.
  intros Hid Hc [F1 F2 F3 F4 F5 F6 F7]. split; try done.
  - intros id' l' [[<- <-]|[Hne Hl']]%lookup_insert_Some; [done|by apply F3].
  - intros id' l' [[<- <-]|[Hne Hl']]%lookup_insert_Some Ha'; [done|by apply F4].
  - intros id' ss Hs. destruct (F5 id' ss Hs) as [(l' & Hl' & Ha')|?]; [left|by right]. exists l'. rewrite lookup_insert_ne by congruence. done.
Qed.

(** A listener that leaves, with its channel. *)
Lemma drop_listener ch L m q out id l : L !! id = Some l → shut ch (l_channel l) → event_inv ch L m q out → event_inv ch (delete id L) m q out.
Proof using.
  intros Hl Hc [F1 F2 F3 F4 F5 F6 F7]. split; try done.
  - intros id' l' [Hne Hl']%lookup_delete_Some. by apply F3.
  - intros id' l' [Hne Hl']%lookup_delete_Some. by apply F4.
  - intros id' ss Hs. destruct (F5 id' ss Hs) as [(l' & Hl' & Ha')|?]; [|by right]. destruct (decide (id' = id)) as [->|Hne].
    + right. destruct Ha' as [_ ->]. cbn. congruence.
    + left. exists l'. by rewrite lookup_delete_ne.
Qed.

(** Channels that are closed, or that receive notifications of other events. *)
Lemma change_channels ch ch' L m q out : (∀ c, is_Some (ch !! c) ↔ is_Some (ch' !! c)) → (∀ c, shut ch c → shut ch' c) →
  (∀ c, opened ch' c → opened ch c ∧ taken ch' c = taken ch c) → event_inv ch L m q out → event_inv ch' L m q out.
Proof using.
  intros Hk Hcl Hop [F1 F2 F3 F4 F5 F6 F7].
  assert (∀ ss, plain ch ss → plain ch' ss) as Hpl by (intros ss [? ?]; split; [done|by apply Hk]). split.
  - eapply Forall_impl; [exact F1|]. intros [] ?; try done. by apply Hpl.
  - eapply map_Forall_impl; [exact F2|]. intros ? ? ?. by apply Hpl.
  - intros id l Hl. destruct (F3 id l Hl) as [? ?]. split; [done|by apply Hk].
  - intros id l Hl Ha. destruct (F4 id l Hl Ha) as [?|?]; [by left|right; by apply Hcl].
  - intros id ss Hs. destruct (F5 id ss Hs) as [?|?]; [by left|right; by apply Hcl].
  - intros c Hc. destruct (Hop c Hc) as [Ho ->]. by apply F6.
  - intros c Hc. apply F7. apply eq_None_not_Some. intros Hs%Hk. rewrite Hc in Hs. by destruct Hs.
Qed.

Lemma pending_unused c ch m q : ch !! c = None → Forall (message_ok ch) q → map_Forall (λ _ ss, plain ch ss) m → pending c m q = [].
Proof using.
  intros Hc Hq. revert m. induction Hq as [|msg q Hmsg _ IH]; intros m Hm; [done|].
  assert (on_channel c m = ∅) as Hno.
  { apply filter_none. intros id ss Hs Hsc. cbn in Hsc. destruct (Hm id ss Hs) as [_ [x Hx]]. congruence. }
  destruct msg; cbn [pending]; [rewrite Hno; by apply IH|apply IH..|done].
  - by apply map_Forall_insert_2.
  - by apply map_Forall_delete.
Qed.

(** A new channel. *)
Lemma new_channel ch L m q out c : ch !! c = None → event_inv ch L m q out → event_inv (<[c := channel_default]> ch) L m q out.
Proof using.
  intros Hc [F1 F2 F3 F4 F5 F6 F7].
  assert (∀ c', is_Some (ch !! c') → is_Some (<[c := channel_default]> ch !! c')) as Hk by (intros c' ?; apply lookup_insert_is_Some'; by right).
  assert (∀ ss, plain ch ss → plain (<[c := channel_default]> ch) ss) as Hpl by (intros ss [? ?]; split; [done|by apply Hk]). split.
  - eapply Forall_impl; [exact F1|]. intros [] ?; try done. by apply Hpl.
  - eapply map_Forall_impl; [exact F2|]. intros ? ? ?. by apply Hpl.
  - intros id l Hl. destruct (F3 id l Hl) as [? ?]. split; [done|by apply Hk].
  - intros id l Hl Ha. destruct (F4 id l Hl Ha) as [?|[sent Hcl]]; [by left|right]. exists sent. rewrite lookup_insert_ne; [done|congruence].
  - intros id ss Hs. destruct (F5 id ss Hs) as [?|[sent Hcl]]; [by left|right]. exists sent. rewrite lookup_insert_ne; [done|congruence].
  - intros c' Hc'. destruct (decide (c' = c)) as [->|Hne].
    + unfold taken. rewrite lookup_insert_eq. cbn. by rewrite (pending_unused c ch m q), F7.
    + unfold opened, taken in *. rewrite lookup_insert_ne in * by done. by apply F6.
  - intros c' [Hc' _]%lookup_insert_None. by apply F7.
Qed.
End event.

(** ** Turns of a dispatcher *)

Lemma append_zero n o : append_to 0 n o = o.
Proof. destruct o as [[sent []]|]; cbn; by rewrite ?app_nil_r. Qed.

Lemma broadcast_any n l (channels : gmap nat Channel) (purge : list ListenerID) :
  ∀ c, ∃ k, (foldl (λ '(channels, purge) '(id, listener),
    match try_send listener n channels with
    | (Err _, channels) => (channels, if is_closed channels (ss_send_channel listener) then purge ++ [id] else purge)
    | (_, channels) => (channels, purge)
    end) (channels, purge) l).1 !! c = append_to k n (channels !! c).
Proof.
  revert channels purge. induction l as [|[id ss] l IH]; intros channels purge c; [exists 0%nat; by rewrite append_zero|]. cbn [foldl].
  assert (∃ r ch1 k1, try_send ss n channels = (r, ch1) ∧ ch1 !! c = append_to k1 n (channels !! c)) as (r & ch1 & k1 & -> & Hk1).
  { unfold try_send. destruct (filter_matches (ss_filter ss) n); [|eexists _, _, 0%nat; split; [done|by rewrite append_zero]].
    destruct (channels !! ss_send_channel ss) as [[sent []]|] eqn:Hc; try (eexists _, _, 0%nat; split; [done|by rewrite append_zero]).
    destruct (decide (ss_send_channel ss = c)) as [<-|Hne].
    - eexists _, _, 1%nat. split; [done|]. by rewrite lookup_insert_eq, Hc.
    - eexists _, _, 0%nat. split; [done|]. by rewrite lookup_insert_ne, append_zero. }
  assert (∀ k2, append_to k2 n (append_to k1 n (channels !! c)) = append_to (k1 + k2) n (channels !! c)) as Hadd.
  { intros k2. destruct (channels !! c) as [[sent []]|]; cbn; try done. by rewrite <- app_assoc, replicate_add. }
  destruct r as [b|e| |].
  all: try (destruct (IH ch1 purge c) as [k2 Hk2]; exists (k1 + k2)%nat; rewrite Hk2, Hk1; apply Hadd).
  destruct (is_closed ch1 (ss_send_channel ss)).
  - destruct (IH ch1 (purge ++ [id]) c) as [k2 Hk2]; exists (k1 + k2)%nat; rewrite Hk2, Hk1; apply Hadd.
  - destruct (IH ch1 purge c) as [k2 Hk2]; exists (k1 + k2)%nat; rewrite Hk2, Hk1; apply Hadd.
Qed.

Section turns.
Context (e : EventType).
Implicit Types (ch : gmap nat Channel) (L : gmap ListenerID Listener) (m : gmap ListenerID ListenerSenderSide) (q : list DispatchMessage).

Lemma append_known ch ch' : (∀ c, ∃ k n, ch' !! c = append_to k n (ch !! c)) →
  (∀ c, is_Some (ch !! c) ↔ is_Some (ch' !! c)) ∧ (∀ c, shut ch c → shut ch' c) ∧ (∀ c, opened ch' c → opened ch c).
Proof using.
  intros H. split_and!; intros c; destruct (H c) as (k & n & Hc); unfold shut, opened; rewrite Hc;
    destruct (ch !! c) as [[sent []]|] eqn:Hch; cbn; unfold is_Some; naive_solver.
Qed.

(** A broadcast of another event. *)
Lemma other_broadcast ch ch' L m q out n0 : event_of_notification n0 ≠ e → (∀ c, ∃ k, ch' !! c = append_to k n0 (ch !! c)) →
  event_inv e ch L m q out → event_inv e ch' L m q out.
Proof using.
  intros Hn H. assert (∀ c, ∃ k n, ch' !! c = append_to k n (ch !! c)) as H' by (intros c; destruct (H c); eauto).
  destruct (append_known ch ch' H') as (Hk & Hc & Ho). apply change_channels; [done|done|]. intros c Hop. split; [by apply Ho|].
  destruct (H c) as [k Hk']. unfold taken. rewrite Hk'. destruct (ch !! c) as [[sent []]|]; cbn; [done| |done]. rewrite filter_app.
  assert (filter (λ n, event_of_notification n = e) (replicate k n0) = []) as ->; [|by rewrite app_nil_r].
  clear -Hn. induction k as [|k IH]; [done|]. cbn [replicate]. by rewrite filter_cons_False.
Qed.

Lemma take_change ch L m q out msg : (∀ n, msg ≠ Send n) → event_inv e ch L m (msg :: q) out → event_inv e ch L (settle1 m msg) q out.
Proof using.
  intros Hn [F1 F2 F3 F4 F5 F6 F7]. inversion F1 as [|? ? Hmsg Hq]; subst. split; try done.
  - destruct msg; cbn [settle1]; [done| | |done]; [by apply map_Forall_insert_2|by apply map_Forall_delete].
  - intros c Hc. rewrite <- F6 by done. destruct msg as [n| | |]; try done. by destruct (Hn n).
Qed.

Lemma settle_sub (Q : ListenerSenderSide → Prop) m m' q : (∀ id ss, m !! id = Some ss → m' !! id = Some ss ∨ Q ss) →
  ∀ id ss, settle m q !! id = Some ss → settle m' q !! id = Some ss ∨ Q ss.
Proof using.
  revert m m'. induction q as [|msg q IH]; intros m m' H; [exact H|]. apply IH. destruct msg as [n|id0 ss0|id0|]; cbn [settle1]; try done.
  - intros id ss [[<- <-]|[Hne Hs]]%lookup_insert_Some; [left; apply lookup_insert_eq|]. rewrite lookup_insert_ne by done. by apply H.
  - intros id ss [Hne Hs]%lookup_delete_Some. rewrite lookup_delete_ne by done. by apply H.
Qed.

Lemma take_send ch L m q out n ch' purge : event_inv e ch L m (Send n :: q) out →
  broadcast n (map_to_list m) ch = (ch', purge) →
  event_inv e ch' L (foldr (λ id listeners, delete id listeners) m purge) q out.
Proof using.
  intros HI Hb. pose proof HI as [F1 F2 F3 F4 F5 F6 F7]. inversion F1 as [|? ? Hn Hq]; subst. cbn in Hn.
  destruct (broadcast_ok n m ch) as (ch2 & purge2 & Hb2 & Hpurge & Hch).
  { eapply map_Forall_impl; [exact F2|]. by intros ? ? [? _]. }
  rewrite Hb in Hb2. injection Hb2 as <- <-. set (m' := foldr _ m purge).
  assert (∀ c, ∃ k n, ch' !! c = append_to k n (ch !! c)) as H' by (intros c; rewrite Hch; eauto).
  destruct (append_known ch ch' H') as (Hk & Hc & Ho).
  assert (∀ c, opened ch c → on_channel c m' = on_channel c m) as Hon.
  { intros c [sent Hop]. apply on_channel_purge. intros id ss Hin Hs Hsc. destruct (Hpurge id Hin) as (ss' & Hs' & Hcl).
    assert (ss' = ss) as -> by congruence. unfold is_closed in Hcl. by rewrite Hsc, Hop in Hcl. }
  assert (∀ ss, plain ch ss → plain ch' ss) as Hpl by (intros ss [? ?]; split; [done|by apply Hk]).
  assert (∀ id ss, m' !! id = Some ss → m !! id = Some ss) as Hsub.
  { by intros id ss [Hs _]%purged_lookup. }
  assert (∀ id ss, m !! id = Some ss → m' !! id = Some ss ∨ shut ch (ss_send_channel ss)) as Hkeep.
  { intros id ss Hs. unfold m'. destruct (decide (id ∈ purge)) as [Hin|Hni].
    - right. destruct (Hpurge id Hin) as (ss' & Hs' & Hcl). assert (ss' = ss) as -> by congruence. destruct (F2 id ss Hs) as [_ [[sent b] Hx]].
      unfold is_closed in Hcl. rewrite Hx in Hcl. cbn in Hcl. subst b. by exists sent.
    - left. by apply purged_lookup. }
  assert (∀ id ss, settle m' q !! id = Some ss → settle m q !! id = Some ss ∨ shut ch (ss_send_channel ss)) as Hs1.
  { apply (settle_sub (λ ss, shut ch (ss_send_channel ss))). intros id ss Hs. left. by apply Hsub. }
  assert (∀ id ss, settle m q !! id = Some ss → settle m' q !! id = Some ss ∨ shut ch (ss_send_channel ss)) as Hs2
    by (by apply (settle_sub (λ ss, shut ch (ss_send_channel ss)))).
  split.
  - eapply Forall_impl; [exact Hq|]. intros [] ?; try done. by apply Hpl.
  - intros id ss Hs. apply Hpl, (F2 id ss), Hsub, Hs.
  - intros id l Hl. destruct (F3 id l Hl) as [? ?]. split; [done|by apply Hk].
  - intros id l Hl Ha. destruct (F4 id l Hl Ha) as [Hs|?]; [|right; by apply Hc]. destruct (Hs2 id _ Hs) as [?|?]; [by left|right; by apply Hc].
  - intros id ss Hs. destruct (Hs1 id ss Hs) as [Hs'|?]; [|right; by apply Hc]. destruct (F5 id ss Hs') as [?|?]; [by left|right; by apply Hc].
  - intros c Hop'. pose proof (Ho c Hop') as Hop. rewrite <- F6 by done. cbn [pending]. rewrite (pending_ext c m' m q (Hon c Hop)), app_assoc.
    f_equal. destruct Hop as [sent Hop]. unfold taken. rewrite Hch, Hop. cbn [append_to ch_sent]. rewrite filter_app. f_equal.
    clear - Hn. induction (size (on_channel c m)) as [|k IH]; [done|]. cbn [replicate]. by rewrite filter_cons_True, IH.
  - intros c Hcn. apply F7. apply eq_None_not_Some. intros Hs%Hk. rewrite Hcn in Hs. by destruct Hs.
Qed.
End turns.

(** ** The invariant of the notifier *)

(** An event before its dispatcher is told to shut down; then the messages before the
    shutdown count, with the listeners of that time; then none. *)
Inductive event_state (e : EventType) (s : Inner) (X : gmap ListenerID Listener) (out : nat → list Notification) : Prop :=
| es_live : (∀ d, in_dispatcher s e = Some d → d_running d = true) →
    event_inv e (in_channels s) (in_listeners s ∪ X) (active_map s e) (in_dispatcher_channel s e) out → event_state e s X out
| es_ending L q q' d : in_dispatcher s e = Some d → d_running d = true → in_dispatcher_channel s e = q ++ DispatchShutdown :: q' →
    event_inv e (in_channels s) L (active_map s e) q out → event_state e s X out
| es_ended L d : in_dispatcher s e = Some d → d_running d = false →
    event_inv e (in_channels s) L (active_map s e) [] out → event_state e s X out.

(** [X] are the listeners that are about to leave. *)
Record notifier_inv (s : Inner) (X : gmap ListenerID Listener) (out : EventType → nat → list Notification) : Prop := {
  ni_apart : in_listeners s ##ₘ X;
  ni_listener id l : (in_listeners s ∪ X) !! id = Some l → l_id l = id ∧ is_Some (in_channels s !! l_channel l);
  ni_sends e n : Send n ∈ in_dispatcher_channel s e → event_of_notification n = e;
  ni_events e : e ≠ EUtxosChanged → event_state e s X (out e);
}.

Lemma index_mut_eq {T} (a : EventArray T) e x : index_mut a e x e = x.
Proof. unfold index_mut. by rewrite decide_True. Qed.
Lemma index_mut_ne {T} (a : EventArray T) e e' x : e' ≠ e → index_mut a e x e' = a e'.
Proof. intros Hne. unfold index_mut. by rewrite decide_False. Qed.

Lemma toggle_ok T active l : let '(changed, l') := toggle T active l in
  l_id l' = l_id l ∧ l_channel l' = l_channel l ∧ l_active_event l' (event_of_type T) = active
  ∧ (∀ e, e ≠ event_of_type T → l_active_event l' e = l_active_event l e)
  ∧ (event_of_type T ≠ EUtxosChanged → changed = negb (Bool.eqb (l_active_event l (event_of_type T)) active)).
Proof.
  unfold toggle. set (e := event_of_type T).
  assert (∀ l' b, (if negb (Bool.eqb (l_active_event l e) active)
    then (true, mkListener (l_id l) (l_channel l) (index_mut (l_active_event l) e active) (l_utxo_addresses l)) else (false, l)) = (b, l') →
    l_id l' = l_id l ∧ l_channel l' = l_channel l ∧ l_active_event l' e = active ∧ (∀ e', e' ≠ e → l_active_event l' e' = l_active_event l e')
    ∧ b = negb (Bool.eqb (l_active_event l e) active)) as Hif.
  { intros l' b. destruct (Bool.eqb (l_active_event l e) active) eqn:Heq; cbn [negb]; intros [= <- <-].
    - by apply Bool.eqb_prop in Heq.
    - cbn. split_and!; [done|done|apply index_mut_eq| |done]. intros e' He'. by apply index_mut_ne. }
  destruct (if negb (Bool.eqb (l_active_event l e) active)
    then (true, mkListener (l_id l) (l_channel l) (index_mut (l_active_event l) e active) (l_utxo_addresses l)) else (false, l)) as [b l'].
  destruct (Hif l' b eq_refl) as (H1 & H2 & H3 & H4 & H5).
  destruct T; try (split_and!; done). unfold toggle_utxo_addresses. case_decide; cbn; (split_and!; [done|done|done|done|]); intros Hne; by destruct Hne.
Qed.

Lemma close_ok ch c c' : close_channel c ch !! c' = match ch !! c' with Some x => Some (mkChannel (ch_sent x) (ch_closed x || bool_decide (c' = c))) | None => None end.
Proof.
  unfold close_channel. destruct (ch !! c) as [x|] eqn:Hc.
  - destruct (decide (c' = c)) as [->|Hne].
    + rewrite lookup_insert_eq, Hc, bool_decide_eq_true_2 by done. by rewrite orb_true_r.
    + rewrite lookup_insert_ne by done. destruct (ch !! c') as [[]|]; [|done]. by rewrite bool_decide_eq_false_2, orb_false_r.
  - destruct (ch !! c') as [[]|] eqn:Hc'; [|done]. rewrite bool_decide_eq_false_2 by congruence. by rewrite orb_false_r.
Qed.

Lemma close_inv e ch c L m q out : event_inv e ch L m q out → event_inv e (close_channel c ch) L m q out.
Proof.
  apply change_channels.
  - intros c'. rewrite close_ok. destruct (ch !! c'); unfold is_Some; naive_solver.
  - intros c' [sent Hc']. exists sent. by rewrite close_ok, Hc'.
  - intros c' [sent Hc']. rewrite close_ok in Hc'. unfold opened, taken. rewrite close_ok. destruct (ch !! c') as [[s b]|]; [|done].
    injection Hc' as <- Hb. apply orb_false_iff in Hb as [-> Hb]. cbn. split; [by exists s|done].
Qed.

Lemma out_ext e ch L m q out out' : (∀ c, out c = out' c) → event_inv e ch L m q out → event_inv e ch L m q out'.
Proof. intros Heq [F1 F2 F3 F4 F5 F6 F7]. split; try done; intros c; rewrite <- Heq; [apply F6|apply F7]. Qed.

Lemma shutdown_in q : existsb is_shutdown q = true ↔ DispatchShutdown ∈ q.
Proof.
  rewrite existsb_exists. split.
  - intros (x & Hx%list_elem_of_In & Hs). by destruct x.
  - intros Hin. exists DispatchShutdown. split; [by apply list_elem_of_In|done].
Qed.

Lemma messages_live e ch q : Forall (message_ok e ch) q → DispatchShutdown ∉ q.
Proof. intros Hq Hin. by apply (proj1 (Forall_forall _ _) Hq) in Hin. Qed.

Lemma live_ending e s (X : gmap ListenerID Listener) out : (∀ d, in_dispatcher s e = Some d → d_running d = true) →
  event_inv e (in_channels s) (in_listeners s ∪ X) (active_map s e) (in_dispatcher_channel s e) out → ending s e = false.
Proof.
  intros Hd HE. apply orb_false_iff. split.
  - apply not_true_is_false. rewrite shutdown_in. exact (messages_live _ _ _ (ev_queue _ _ _ _ _ _ HE)).
  - unfold ended. destruct (in_dispatcher s e) as [d|]; [|done]. by rewrite (Hd d).
Qed.

Lemma live_not_ending e s X out : event_state e s X out → ending s e = false →
  (∀ d, in_dispatcher s e = Some d → d_running d = true)
  ∧ event_inv e (in_channels s) (in_listeners s ∪ X) (active_map s e) (in_dispatcher_channel s e) out.
Proof.
  intros [Hd HE|L q q' d Hd Hr Hq _|L d Hd Hr _] [H1 H2]%orb_false_iff; [done| |].
  - assert (existsb is_shutdown (in_dispatcher_channel s e) = true) as Hs; [|congruence].
    apply shutdown_in. rewrite Hq. set_solver.
  - unfold ended in H2. by rewrite Hd, Hr in H2.
Qed.

(** A step that leaves the dispatcher of the event alone. *)
Lemma state_step e s s' X X' out out' : in_dispatcher s' e = in_dispatcher s e →
  (∃ tail, in_dispatcher_channel s' e = in_dispatcher_channel s e ++ tail) →
  (∀ L m q, event_inv e (in_channels s) L m q out → event_inv e (in_channels s') L m q out) →
  (ending s e = true → ∀ c, out' c = out c) →
  (ending s e = false → event_inv e (in_channels s) (in_listeners s ∪ X) (active_map s e) (in_dispatcher_channel s e) out →
    event_inv e (in_channels s') (in_listeners s' ∪ X') (active_map s e) (in_dispatcher_channel s' e) out') →
  event_state e s X out → event_state e s' X' out'.
Proof.
  intros Hd [tail Hq] Hch Hout Hlive HS. assert (active_map s' e = active_map s e) as Hm by (unfold active_map; by rewrite Hd).
  destruct HS as [Hr HE|L q q' d Hd' Hr Hq' HE|L d Hd' Hr HE].
  - apply es_live; [by rewrite Hd|]. rewrite Hm. apply Hlive; [|done]. by apply (live_ending e s X out Hr).
  - apply (es_ending _ _ _ _ L q (q' ++ tail) d); [congruence|done|rewrite Hq, Hq'; by rewrite <- app_assoc|]. rewrite Hm.
    apply (out_ext e _ _ _ _ out); [|by apply Hch]. intros c. symmetry. apply Hout. unfold ending. apply orb_true_iff. left. apply shutdown_in.
    rewrite Hq'. set_solver.
  - apply (es_ended _ _ _ _ L d); [congruence|done|]. rewrite Hm. apply (out_ext e _ _ _ _ out); [|by apply Hch]. intros c. symmetry. apply Hout.
    unfold ending, ended. by rewrite Hd', Hr, orb_true_r.
Qed.

(** What a turn changes. *)
Definition after_turn (msg : DispatchMessage) (m : gmap ListenerID ListenerSenderSide) (ch : gmap nat Channel) :
    gmap nat Channel * gmap ListenerID ListenerSenderSide :=
  match msg with
  | Send n => let '(ch', purge) := broadcast n (map_to_list m) ch in (ch', foldr (λ id listeners, delete id listeners) m purge)
  | _ => (ch, settle1 m msg)
  end.

Lemma dispatch_ok e0 msg d s : let s' := dispatch e0 msg d s in
  in_listeners s' = in_listeners s ∧ in_dispatcher_channel s' = in_dispatcher_channel s ∧ in_is_started s' = in_is_started s
  ∧ in_shutdown_listener s' = in_shutdown_listener s
  ∧ (∀ e, e ≠ e0 → in_dispatcher s' e = in_dispatcher s e)
  ∧ in_channels s' = fst (after_turn msg (d_listeners d) (in_channels s))
  ∧ ∃ d', in_dispatcher s' e0 = Some d' ∧ d_running d' = negb (is_shutdown msg) ∧ d_listeners d' = snd (after_turn msg (d_listeners d) (in_channels s)).
Proof.
  cbn zeta. destruct msg as [n|id ss|id|]; cbn -[broadcast].
  - destruct (broadcast n (map_to_list (d_listeners d)) (in_channels s)) as [ch' purge].
    match goal with |- context [if ?b then _ else _] => destruct b end; cbn; rewrite index_mut_eq; (split_and!; try done); eauto using index_mut_ne.
  - match goal with |- context [if ?b then _ else _] => destruct b end; cbn; rewrite index_mut_eq; (split_and!; try done); eauto using index_mut_ne.
  - match goal with |- context [if ?b then _ else _] => destruct b end; cbn; rewrite index_mut_eq; (split_and!; try done); eauto using index_mut_ne.
  - rewrite index_mut_eq. split_and!; try done; eauto using index_mut_ne.
Qed.

(** A turn of a running dispatcher takes the first message. *)
Lemma turn_ok e0 msg q d s : in_dispatcher s e0 = Some d → d_running d = true → in_dispatcher_channel s e0 = msg :: q →
  let s' := dispatcher_turn e0 s in
  in_listeners s' = in_listeners s ∧ in_is_started s' = in_is_started s ∧ in_shutdown_listener s' = in_shutdown_listener s
  ∧ in_dispatcher_channel s' e0 = q
  ∧ (∀ e, e ≠ e0 → in_dispatcher s' e = in_dispatcher s e ∧ in_dispatcher_channel s' e = in_dispatcher_channel s e)
  ∧ in_channels s' = fst (after_turn msg (active_map s e0) (in_channels s))
  ∧ active_map s' e0 = snd (after_turn msg (active_map s e0) (in_channels s))
  ∧ ∃ d', in_dispatcher s' e0 = Some d' ∧ d_running d' = negb (is_shutdown msg).
Proof.
  intros Hd Hr Hq. unfold dispatcher_turn, active_map at 1 3. rewrite Hd, Hq, Hr. cbn zeta.
  pose proof (dispatch_ok e0 msg d (set_dispatcher_channel (index_mut (in_dispatcher_channel s) e0 q) s)) as (H1 & H2 & H3 & H4 & H5 & H6 & d' & H7 & H8 & H9).
  cbn zeta in *. unfold active_map. rewrite H7, H2. cbn. rewrite index_mut_eq. split_and!; try done; [|by eauto].
  intros e He. split; [by apply H5|by apply index_mut_ne].
Qed.

Lemma turn_none e0 s : running s e0 = false ∨ in_dispatcher_channel s e0 = [] → dispatcher_turn e0 s = s.
Proof. unfold running, dispatcher_turn. destruct (in_dispatcher s e0) as [d|]; [|done]. destruct (in_dispatcher_channel s e0); [done|]. intros [->|?]; done. Qed.

Lemma running_some s e : running s e = true → ∃ d, in_dispatcher s e = Some d ∧ d_running d = true.
Proof. unfold running. destruct (in_dispatcher s e) as [d|]; [|done]. eauto. Qed.

Lemma turn_state e0 s X out : event_state e0 s X out → event_state e0 (dispatcher_turn e0 s) X out.
Proof.
  intros HS. destruct (running s e0) eqn:Hrun; [|by rewrite turn_none by auto]. apply running_some in Hrun as (d0 & Hd0 & Hr0).
  destruct (in_dispatcher_channel s e0) as [|msg q0] eqn:Hq0; [by rewrite turn_none by auto|].
  pose proof (turn_ok e0 msg q0 d0 s Hd0 Hr0 Hq0) as (Hl & _ & _ & Hq & _ & Hc & Hm & d' & Hd' & Hr'). set (s' := dispatcher_turn e0 s) in *.
  assert (∀ L q, event_inv e0 (in_channels s) L (active_map s e0) (msg :: q) out → msg ≠ DispatchShutdown ∧ event_inv e0 (in_channels s') L (active_map s' e0) q out) as Htake.
  { intros L q HE. split; [intros ->; destruct HE as [G _ _ _ _ _ _]; by inversion G|]. rewrite Hc, Hm. destruct msg as [m| | |]; cbn [after_turn fst snd]; try (by apply take_change in HE).
    destruct (broadcast m (map_to_list (active_map s e0)) (in_channels s)) as [ch' purge] eqn:Hb. by apply (take_send e0 (in_channels s) _ _ _ _ m). }
  destruct HS as [Hr HE|L q q' d Hd Hr Hqq HE|L d Hd Hr HE].
  - rewrite Hq0 in HE. destruct (Htake _ _ HE) as [Hne HE']. apply es_live.
    + intros d1 Hd1. rewrite Hd' in Hd1. injection Hd1 as <-. rewrite Hr'. by destruct msg.
    + by rewrite Hl, Hq.
  - destruct q as [|msg' q]; rewrite Hq0 in Hqq; injection Hqq as -> ->.
    + apply (es_ended _ _ _ _ L d'); [done|done|]. by rewrite Hc, Hm.
    + destruct (Htake _ _ HE) as [Hne HE']. apply (es_ending _ _ _ _ L q q' d'); [done| |done|done]. rewrite Hr'. by destruct msg'.
  - rewrite Hd0 in Hd. injection Hd as <-. congruence.
Qed.

Lemma change_known (ch ch' : gmap nat Channel) (L : gmap ListenerID Listener) : (∀ c, is_Some (ch !! c) → is_Some (ch' !! c)) →
  (∀ id l, L !! id = Some l → l_id l = id ∧ is_Some (ch !! l_channel l)) → ∀ id l, L !! id = Some l → l_id l = id ∧ is_Some (ch' !! l_channel l).
Proof. intros Hk HL id l Hl. destruct (HL id l Hl). auto. Qed.

Section steps.
Context (s : Inner) (X : gmap ListenerID Listener) (out : EventType → nat → list Notification) (HI : notifier_inv s X out).

Lemma pushed_sends e msg e' n : Send n ∈ index_mut (in_dispatcher_channel s) e (in_dispatcher_channel s e ++ [msg]) e' →
  (msg = Send n → event_of_notification n = e) → event_of_notification n = e'.
Proof using HI.
  intros Hin Hm. destruct (decide (e' = e)) as [->|Hne]; [|rewrite index_mut_ne in Hin by done; by apply (ni_sends _ _ _ HI)].
  rewrite index_mut_eq in Hin. apply elem_of_app in Hin as [Hin|Hin%list_elem_of_singleton]; [by apply (ni_sends _ _ _ HI)|by apply Hm].
Qed.

(** A subscription that is changed, with its message. *)
Definition toggled (id : ListenerID) (l : Listener) (msg : option (EventType * DispatchMessage)) : Inner :=
  let s := set_listeners (<[id := l]> (in_listeners s)) s in
  match msg with Some (e, msg) => set_dispatcher_channel (index_mut (in_dispatcher_channel s) e (in_dispatcher_channel s e ++ [msg])) s | None => s end.

Lemma toggled_queue id l msg e : in_dispatcher_channel (toggled id l msg) e
  = in_dispatcher_channel s e ++ match msg with Some (e', msg) => if decide (e = e') then [msg] else [] | None => [] end.
Proof using.
  destruct msg as [[e' msg]|]; cbn; [|by rewrite app_nil_r]. unfold index_mut. destruct (decide (e = e')) as [->|]; [done|by rewrite app_nil_r].
Qed.

Lemma toggled_inv id l0 T (active : bool) (msg : Listener → DispatchMessage) : in_listeners s !! id = Some l0 →
  (∀ l', l_id l' = id → event_of_type T ≠ EUtxosChanged → msg l' = if active then AddListener id (mkSenderSide (l_channel l') Unfiltered) else RemoveListener id) →
  (∀ l' n, msg l' ≠ Send n) →
  let '(changed, l') := toggle T active l0 in
  notifier_inv (toggled id l' (if (changed : bool) then Some (event_of_type T, msg l') else None)) X out.
Proof using HI.
  intros Hl0 Hmsg Hns. pose proof (toggle_ok T active l0) as Ht. destruct (toggle T active l0) as [changed l']. destruct Ht as (H1 & H2 & H3 & H4 & H5).
  set (r := (if changed then Some (event_of_type T, msg l') else None) : option (EventType * DispatchMessage)).
  assert (in_channels (toggled id l' r) = in_channels s ∧ in_listeners (toggled id l' r) = <[id := l']> (in_listeners s)
    ∧ in_dispatcher (toggled id l' r) = in_dispatcher s) as (Ec & El & Ed).
  { unfold r. by destruct changed. }
  pose proof (lookup_union_Some_l (in_listeners s) X id l0 Hl0) as Hu. destruct (ni_listener _ _ _ HI id l0 Hu) as [Hid Hk]. split.
  - rewrite El. apply map_disjoint_insert_l_2; [|apply HI]. exact (map_disjoint_Some_l _ _ _ _ (ni_apart _ _ _ HI) Hl0).
  - rewrite El, Ec, <- insert_union_l. intros id' l1 [[<- <-]|[Hne Hl1]]%lookup_insert_Some; [by rewrite H1, H2|by apply (ni_listener _ _ _ HI)].
  - intros e n Hin. rewrite toggled_queue in Hin. apply elem_of_app in Hin as [Hin|Hin]; [by apply (ni_sends _ _ _ HI)|].
    unfold r in Hin. destruct changed; [|by apply elem_of_nil in Hin]. destruct (decide _); [|by apply elem_of_nil in Hin].
    apply list_elem_of_singleton in Hin. by destruct (Hns l' n).
  - intros e He. apply (state_step e s _ X _ (out e) _); [by rewrite Ed|by eexists; apply toggled_queue|by rewrite Ec|done| |by apply (ni_events _ _ _ HI)].
    rewrite toggled_queue, Ec, El, <- insert_union_l. intros _ HE. destruct (decide (e = event_of_type T)) as [->|Hne].
    + unfold r. specialize (H5 He). subst changed. destruct (Bool.eqb (l_active_event l0 (event_of_type T)) active) eqn:Heq; cbn [negb].
      * apply Bool.eqb_prop in Heq. rewrite app_nil_r. apply (change_listener _ _ _ _ _ _ id l' l0); [done|done|done|congruence|done].
      * rewrite decide_True, (Hmsg l') by (try done; congruence). destruct active; [apply push_add|apply push_remove]; try done; congruence.
    + assert (match r with Some (e', msg) => if decide (e = e') then [msg] else [] | None => [] end = []) as ->.
      { unfold r. destruct changed; [|done]. by rewrite decide_False. }
      rewrite app_nil_r. apply (change_listener _ _ _ _ _ _ id l' l0); [done|done|done|by apply H4|done].
Qed.

Lemma start_inv id T : notifier_inv (snd (start_notify id T s)) X out.
Proof using HI.
  unfold start_notify, mbind, M_bind, get. destruct (in_listeners s !! id) as [l0|] eqn:Hl0; [|done].
  pose proof (toggled_inv id l0 T true (λ l', AddListener (l_id l') (sender_side_new l' (in_sending_changed_utxos s) (event_of_type T))) Hl0) as Ht.
  destruct (toggle T true l0) as [changed l']. destruct changed; (apply Ht; [|done]); intros l <- He; by destruct (event_of_type T).
Qed.

Lemma stop_inv id T : notifier_inv (snd (stop_notify id T s)) X out.
Proof using HI.
  unfold stop_notify, mbind, M_bind, get. destruct (in_listeners s !! id) as [l0|] eqn:Hl0; [|done].
  pose proof (toggled_inv id l0 T false (λ l', RemoveListener (l_id l')) Hl0) as Ht.
  destruct (toggle T false l0) as [changed l']. destruct changed; (apply Ht; [|done]); by intros l <- He.
Qed.

Lemma close_step c : notifier_inv (set_channels (close_channel c (in_channels s)) s) X out.
Proof using HI.
  destruct HI as [F0 F1 F2 F3]. split; [done| |done|].
  - apply (change_known (in_channels s)); [|done]. intros c' [x Hx]. cbn. rewrite close_ok, Hx. by eexists.
  - intros e He. apply (state_step e s _ X _ (out e) _); [done|by exists []; rewrite app_nil_r| |done| |by apply F3]; cbn; intros; by apply close_inv.
Qed.

(** A listener that leaves: first the listeners lose it, at the end its channel closes. *)
Lemma removed_inv id l : in_listeners s !! id = Some l → notifier_inv (set_listeners (delete id (in_listeners s)) s) (<[id := l]> X) out.
Proof using HI.
  intros Hl. destruct HI as [F0 F1 F2 F3].
  assert (delete id (in_listeners s) ∪ <[id := l]> X = in_listeners s ∪ X) as Heq.
  { rewrite <- insert_union_r by apply lookup_delete_eq. rewrite insert_union_l, insert_delete_id by done. done. }
  split; cbn.
  - apply map_disjoint_insert_r_2; [apply lookup_delete_eq|by apply map_disjoint_delete_l].
  - by rewrite Heq.
  - done.
  - intros e He. apply (state_step e s _ X _ (out e) _); [done|by exists []; rewrite app_nil_r|done|done| |by apply F3]. cbn. by rewrite Heq.
Qed.

Lemma left_inv id l : X !! id = Some l →
  notifier_inv (set_channels (close_channel (l_channel l) (in_channels s)) s) (delete id X) out.
Proof using HI.
  intros Hl. assert (in_listeners s !! id = None) as Hn by (exact (map_disjoint_Some_r _ _ _ _ (ni_apart _ _ _ HI) Hl)).
  assert (in_listeners s ∪ delete id X = delete id (in_listeners s ∪ X)) as Heq by (by rewrite delete_union, (delete_id (in_listeners s))).
  assert ((in_listeners s ∪ X) !! id = Some l) as Hu by (rewrite lookup_union_r; done).
  destruct (ni_listener _ _ _ HI id l Hu) as [_ [[sent b] Hc]]. destruct (close_step (l_channel l)) as [G0 G1 G2 _]. split.
  - cbn. by apply map_disjoint_delete_r.
  - cbn. rewrite Heq. intros id' l' [_ Hl']%lookup_delete_Some. by apply G1.
  - done.
  - intros e He. apply (state_step e s _ X _ (out e) _); [done|by exists []; rewrite app_nil_r| |done| |by apply (ni_events _ _ _ HI)]; cbn; [intros; by apply close_inv|].
    rewrite Heq. intros _ HE. apply (drop_listener e _ _ _ _ _ id l); [done| |by apply close_inv].
    exists sent. rewrite close_ok, Hc. cbn. by rewrite bool_decide_eq_true_2, orb_true_r.
Qed.

Lemma notify_inv n : notifier_inv (snd (notify n s)) X
  (λ e c, out e c ++ if decide (event_of_notification n = e) then if ending s e then [] else replicate (size (subscribed e c (in_listeners s ∪ X))) n else []).
Proof using HI.
  destruct HI as [F0 F1 F2 F3]. split; [done|done| |].
  - intros e n' Hin. cbn in Hin. apply (pushed_sends _ _ _ _ Hin). by intros [= <-].
  - intros e He. specialize (F3 e He). destruct (decide (event_of_notification n = e)) as [<-|Hne].
    + destruct (ending s (event_of_notification n)) eqn:Hend.
      * apply (state_step _ s _ X _ (out (event_of_notification n)) _); [done|by eexists; cbn; rewrite index_mut_eq|done|by intros; rewrite app_nil_r| |exact F3].
        congruence.
      * destruct (live_not_ending _ _ _ _ F3 Hend) as [Hd HE]. apply es_live; [done|]. cbn. rewrite index_mut_eq. by apply push_send.
    + apply (state_step e s _ X _ (out e) _); [done|exists []; cbn; by rewrite index_mut_ne, app_nil_r|done|by intros; rewrite app_nil_r| |exact F3].
      cbn. rewrite index_mut_ne by done. intros _. apply out_ext. intros c. by rewrite app_nil_r.
Qed.
End steps.

(** What the invariant does not mention. *)
Lemma inv_frame s s' X out : in_listeners s' = in_listeners s → in_channels s' = in_channels s → in_dispatcher_channel s' = in_dispatcher_channel s →
  in_dispatcher s' = in_dispatcher s → notifier_inv s X out → notifier_inv s' X out.
Proof.
  intros H1 H2 H3 H4 [F0 F1 F2 F3]. split; rewrite ?H1, ?H2, ?H3; try done. intros e He.
  apply (state_step e s _ X _ (out e) _); [by rewrite H4|exists []; by rewrite H3, app_nil_r|by rewrite H2|done|by rewrite H1, H2, H3|by apply F3].
Qed.

Section more_steps.
Context (s : Inner) (X : gmap ListenerID Listener) (out : EventType → nat → list Notification) (HI : notifier_inv s X out).

Lemma insert_step id c : in_listeners s !! id = None → X !! id = None → is_Some (in_channels s !! c) →
  notifier_inv (set_listeners (<[id := listener_new id c]> (in_listeners s)) s) X out.
Proof using HI.
  intros Hid HX Hc. destruct HI as [F0 F1 F2 F3]. split; cbn; [by apply map_disjoint_insert_l_2| |done|].
  - rewrite <- insert_union_l. intros id' l [[<- <-]|[Hne Hl]]%lookup_insert_Some; [done|by apply F1].
  - intros e He. apply (state_step e s _ X _ (out e) _); [done|by exists []; rewrite app_nil_r|done|done| |by apply F3].
    cbn. rewrite <- insert_union_l. intros _. apply new_listener; [|done]. by apply lookup_union_None.
Qed.

Lemma channel_step c : in_channels s !! c = None → notifier_inv (set_channels (<[c := channel_default]> (in_channels s)) s) X out.
Proof using HI.
  intros Hc. destruct HI as [F0 F1 F2 F3]. split; cbn; [done| |done|].
  - apply (change_known (in_channels s)); [|done]. intros c' Hc'. apply lookup_insert_is_Some'. by right.
  - intros e He. apply (state_step e s _ X _ (out e) _); [done|by exists []; rewrite app_nil_r| |done| |by apply F3]; cbn; intros; by apply new_channel.
Qed.

(** A turn takes a message of its event and keeps the others. *)
Lemma turn_inv e0 : notifier_inv (dispatcher_turn e0 s) X out.
Proof using HI.
  destruct (running s e0) eqn:Hrun; [|by rewrite turn_none by auto]. apply running_some in Hrun as (d & Hd & Hr).
  destruct (in_dispatcher_channel s e0) as [|msg q] eqn:Hq; [by rewrite turn_none by auto|].
  pose proof (turn_state e0 s X) as Hst. pose proof (turn_ok e0 msg q d s Hd Hr Hq) as (Hl & _ & _ & Hq' & Hoth & Hc & _). set (s' := dispatcher_turn e0 s) in *.
  assert (∀ c, ∃ k n, in_channels s' !! c = append_to k n (in_channels s !! c)) as Happ.
  { intros c. rewrite Hc. destruct msg as [n| | |]; cbn [after_turn fst]; try (exists 0%nat, NFinalityConflict; by rewrite append_zero).
    destruct (broadcast_any n (map_to_list (active_map s e0)) (in_channels s) [] c) as [k Hk]. exists k, n. rewrite <- Hk. unfold broadcast. by destruct (foldl _ _ _). }
  destruct HI as [F0 F1 F2 F3]. split.
  - by rewrite Hl.
  - rewrite Hl. apply (change_known (in_channels s)); [|done]. intros c. by apply (append_known _ _ Happ).
  - intros e n. destruct (decide (e = e0)) as [->|He]; [rewrite Hq'|rewrite (proj2 (Hoth e He)); apply F2]. intros Hin. apply F2. rewrite Hq. by right.
  - intros e He. destruct (decide (e = e0)) as [->|Hee]; [by apply Hst, F3|]. destruct (Hoth e Hee) as [Hd1 Hq1].
    assert (∀ L m q, event_inv e (in_channels s) L m q (out e) → event_inv e (in_channels s') L m q (out e)) as Hch.
    { intros L m q1 HE. rewrite Hc. destruct msg as [n| | |]; cbn [after_turn fst]; try done.
      apply (other_broadcast e (in_channels s) _ _ _ _ _ n); [|intros c|done].
      * rewrite (F2 e0 n); [done|]. rewrite Hq. by left.
      * destruct (broadcast_any n (map_to_list (active_map s e0)) (in_channels s) [] c) as [k Hk]. exists k. rewrite <- Hk. unfold broadcast. by destruct (foldl _ _ _). }
    apply (state_step e s _ X _ (out e) _); [done|exists []; by rewrite app_nil_r|done|done| |by apply F3]. rewrite Hl, Hq1. intros _. apply Hch.
Qed.

(** A dispatcher that is spawned. *)
Lemma spawn_inv e0 : in_dispatcher s e0 = None →
  notifier_inv (set_dispatcher (index_mut (in_dispatcher s) e0 (Some (mkDispatcher ∅ false true))) s) X out.
Proof using HI.
  intros Hn. destruct HI as [F0 F1 F2 F3]. split; try done. intros e He. specialize (F3 e He). destruct (decide (e = e0)) as [->|Hne].
  - destruct F3 as [_ HE|L q q' d Hd|L d Hd]; [|congruence..]. apply es_live; cbn; rewrite ?index_mut_eq; [by intros ? [= <-]|].
    unfold active_map in *. cbn. rewrite index_mut_eq. cbn. by rewrite Hn in HE.
  - apply (state_step e s _ X _ (out e) _); [by apply index_mut_ne|by exists []; rewrite app_nil_r|done|done|done|done].
Qed.

(** A dispatcher that is told to shut down. *)
Lemma shutdown_inv e0 : running s e0 = true → ending s e0 = false → notifier_inv (snd (try_send_dispatch e0 DispatchShutdown s)) X out.
Proof using HI.
  intros (d & Hd & Hr)%running_some Hend. destruct HI as [F0 F1 F2 F3]. split; [done|done| |].
  - intros e n Hin. cbn in Hin. by apply (pushed_sends s X out HI _ _ _ _ Hin).
  - intros e He. specialize (F3 e He). destruct (decide (e = e0)) as [->|Hne].
    + destruct (live_not_ending _ _ _ _ F3 Hend) as [_ HE].
      apply (es_ending _ _ _ _ (in_listeners s ∪ X) (in_dispatcher_channel s e0) [] d); [done|done|cbn; by rewrite index_mut_eq|done].
    + apply (state_step e s _ X _ (out e) _); [done|exists []; cbn; by rewrite index_mut_ne, app_nil_r|done|done|cbn; by rewrite index_mut_ne|done].
Qed.
End more_steps.

(** The drawn identifier is new. *)
Lemma drawn_id fuel rnd (L : gmap ListenerID Listener) i id :
  oloop (E := NotifyError) fuel (λ i, if bool_decide (is_Some (L !! rnd i)) then mret (inl (S i)) else mret (inr (rnd i))) i = Ok id →
  L !! id = None ∧ ∃ j, id = rnd j.
Proof.
  revert i. induction fuel as [|f IH]; intros i; [done|]. cbn [oloop]. case_bool_decide as Hk; cbn [mbind outcome_bind mret outcome_ret]; [apply IH|].
  intros [= <-]. split; [by apply eq_None_not_Some|by eexists].
Qed.

Lemma register_inv s X out fuel rnd channel : notifier_inv s X out → (∀ i, X !! rnd i = None) →
  match channel with Some c => is_Some (in_channels s !! c) | None => True end →
  notifier_inv (snd (register_new_listener fuel rnd channel s)) X out.
Proof.
  intros HI HX Ha. unfold register_new_listener, mbind, M_bind, get, lift. destruct (oloop _ _ _) as [id|err| |] eqn:Hid; try done.
  apply drawn_id in Hid as [Hid [j Hj]]. assert (X !! id = None) as HXid by (by rewrite Hj).
  destruct channel as [c|]; cbn; [by apply insert_step|].
  apply (insert_step (set_channels (<[fresh (dom (in_channels s)) := channel_default]> (in_channels s)) s) X out).
  - apply channel_step; [done|]. apply not_elem_of_dom, is_fresh.
  - done.
  - done.
  - cbn. rewrite lookup_insert_eq. by eexists.
Qed.

(** The calls of [stop_notify] that follow the removal of a listener find none. *)
Lemma stop_absent id T s : in_listeners s !! id = None → stop_notify id T s = (Ok tt, s).
Proof. intros Hn. unfold stop_notify, mbind, M_bind, get. by rewrite Hn. Qed.

Lemma inv_ext s X out out' : (∀ e c, out e c = out' e c) → notifier_inv s X out → notifier_inv s X out'.
Proof.
  intros Heq [F0 F1 F2 F3]. split; [done|done|done|]. intros e He. apply (state_step e s _ X _ (out e) _); [done|by exists []; rewrite app_nil_r|done|by intros; rewrite Heq| |by apply F3].
  intros _. by apply out_ext.
Qed.

(** ** The tasks *)

Lemma event_roundtrip e : event_of_type (type_of_event e) = e.
Proof. by destruct e. Qed.

(** What the subscriber was told about an event: a start or a stop, in order. *)
Definition report_of (e : EventType) (msg : SubscribeMessage) : option bool :=
  match msg with
  | StartEvent T => if decide (event_of_type T = e) then Some true else None
  | StopEvent T => if decide (event_of_type T = e) then Some false else None
  | SubscribeShutdown => None
  end.
Definition call_of (e : EventType) (call : bool * ListenerID * NotificationType) : option bool :=
  if decide (event_of_type call.2 = e) then Some call.1.1 else None.
Definition reported (e : EventType) (sb : Subscriber) : list bool := omap (call_of e) (sb_calls sb) ++ omap (report_of e) (sb_channel sb).

Definition told (e : EventType) (sb : Subscriber) : bool := default false (last (reported e sb)).
Definition known (m : gmap ListenerID ListenerSenderSide) : bool := (0 <? size m)%nat.
#[global] Arguments known : simpl never.

Lemma known_true m : (size m ≠ 0)%nat → known m = true.
Proof. intros Hm. unfold known. apply Nat.ltb_lt. lia. Qed.

(** The listeners that a broadcast purges. *)
Lemma purge_keys n (l : list (ListenerID * ListenerSenderSide)) (channels : gmap nat Channel) (purge0 : list ListenerID) :
  ∃ p, (foldl (λ '(channels, purge) '(id, listener),
    match try_send listener n channels with
    | (Err _, channels) => (channels, if is_closed channels (ss_send_channel listener) then purge ++ [id] else purge)
    | (_, channels) => (channels, purge)
    end) (channels, purge0) l).2 = purge0 ++ p ∧ p `sublist_of` l.*1.
Proof.
  revert channels purge0. induction l as [|[id ss] l IH]; intros channels purge0; [exists []; by rewrite app_nil_r|]. cbn [foldl fmap list_fmap].
  assert (∀ channels' purge', purge' = purge0 ∨ purge' = purge0 ++ [id] → ∃ p, (foldl (λ '(channels, purge) '(id, listener),
    match try_send listener n channels with
    | (Err _, channels) => (channels, if is_closed channels (ss_send_channel listener) then purge ++ [id] else purge)
    | (_, channels) => (channels, purge)
    end) (channels', purge') l).2 = purge0 ++ p ∧ p `sublist_of` id :: l.*1) as Hnext.
  { intros channels' purge' [->| ->]; destruct (IH channels' purge0) as (p & Hp & Hsub).
    - exists p. split; [done|by constructor].
    - destruct (IH channels' (purge0 ++ [id])) as (p' & -> & Hsub'). exists (id :: p'). rewrite <- app_assoc. split; [done|by constructor]. }
  destruct (try_send ss n channels) as [[| | |] ch1]; try (apply Hnext; by left). destruct (is_closed _ _); apply Hnext; auto.
Qed.

Lemma purge_known n m channels : let '(_, purge) := broadcast n (map_to_list m) channels in
  negb (bool_decide (purge = [])) && (length purge =? size m)%nat = false → known (foldr (λ id listeners, delete id listeners) m purge) = known m.
Proof.
  destruct (purge_keys n (map_to_list m) channels []) as (p & Hp & Hsub). unfold broadcast. destruct (foldl _ _ _) as [ch' purge]. cbn in Hp. subst purge.
  intros Hn. destruct (decide (p = [])) as [->|Hne]; [done|]. rewrite bool_decide_eq_false_2 in Hn by done. apply Nat.eqb_neq in Hn.
  pose proof (sublist_length _ _ Hsub) as Hlen. rewrite length_fmap, length_map_to_list in Hlen.
  assert (foldr (λ id listeners, delete id listeners) m p ≠ ∅) as Hm'.
  { intros Hem. apply Hn, Nat.le_antisymm; [done|]. rewrite <- length_map_to_list, <- (length_fmap fst). apply submseteq_length, NoDup_submseteq.
    - apply NoDup_fst_map_to_list.
    - intros id ([id' ss] & -> & Hin%elem_of_map_to_list)%list_elem_of_fmap. destruct (decide (id' ∈ p)) as [|Hni]; [done|]. cbn.
      assert (foldr (λ id listeners, delete id listeners) m p !! id' = Some ss) as Hs by (by apply purged_lookup). by rewrite Hem in Hs. }
  rewrite !known_true; [done| |by apply map_size_non_empty_iff]. destruct p; [done|]. cbn in Hlen. lia.
Qed.

(** A turn tells the subscriber when the first listener comes or the last one leaves. *)
Lemma dispatch_told e0 msg d s : msg ≠ DispatchShutdown → ∃ b,
  in_subscriber (dispatch e0 msg d s) = (if (b : bool) then subscriber_send (if known (active_map (dispatch e0 msg d s) e0) then StartEvent (type_of_event e0)
    else StopEvent (type_of_event e0)) <$> in_subscriber s else in_subscriber s)
  ∧ (b = false → known (active_map (dispatch e0 msg d s) e0) = known (d_listeners d)).
Proof.
  intros Hm. unfold active_map. destruct msg as [n|id ss|id|]; [| | |done]; cbn -[broadcast].
  - pose proof (purge_known n (d_listeners d) (in_channels s)) as Hp. destruct (broadcast n (map_to_list (d_listeners d)) (in_channels s)) as [ch' purge].
    match goal with |- context [if ?b then _ else _] => exists b; destruct b eqn:Hb end; cbn; rewrite index_mut_eq; (split; [done|]); [done|].
    intros _. apply orb_false_iff in Hb as [Hb _]. by apply Hp.
  - match goal with |- context [if ?b then _ else _] => exists b; destruct b eqn:Hb end; cbn; rewrite index_mut_eq; (split; [done|]); [done|].
    intros _. apply orb_false_iff in Hb as [Hb%Nat.eqb_neq _]. rewrite (known_true (d_listeners d)) by done. apply known_true.
    cbn [d_listeners]. rewrite map_size_insert. destruct (d_listeners d !! id); cbn; lia.
  - match goal with |- context [if ?b then _ else _] => exists b; destruct b eqn:Hb end; cbn; rewrite index_mut_eq; (split; [done|]); [done|].
    intros _. apply orb_false_iff in Hb as [Hb%Nat.eqb_neq _]. trans true; [by apply known_true|symmetry; apply known_true].
    cbn in Hb. rewrite map_size_delete in Hb. destruct (d_listeners d !! id); cbn in Hb; lia.
Qed.

Lemma told_send e e0 b sb : told e (subscriber_send (if (b : bool) then StartEvent (type_of_event e0) else StopEvent (type_of_event e0)) sb)
  = if decide (e = e0) then b else told e sb.
Proof.
  unfold told, reported. cbn. rewrite omap_app, app_assoc. destruct (decide (e = e0)) as [->|Hne].
  - destruct b; cbn; rewrite event_roundtrip, decide_True by done; by rewrite last_snoc.
  - destruct b; cbn; rewrite event_roundtrip, decide_False by done; by rewrite app_nil_r.
Qed.

(** The task of the subscriber takes its messages in order. *)
Lemma subscriber_turn_ok e sb : reported e (subscriber_turn sb) = reported e sb.
Proof.
  destruct sb as [id st sl [|msg ch] [] calls]; try done. cbn. unfold reported. destruct msg as [T|T|]; cbn; [| |done].
  all: rewrite omap_app, <- app_assoc; cbn; unfold call_of; cbn; by case_decide.
Qed.

(** The events whose dispatchers were not spawned yet, and those whose dispatchers were
    not told to shut down yet. *)
Definition launched (s : Inner) (stop : StopState) : bool := in_is_started s || match stop with NotStopped => false | _ => true end.
Definition unspawned (s : Inner) (starting : option Starting) (stop : StopState) : list EventType :=
  match starting with
  | Some StartSubscriber => EVENT_TYPE_ARRAY
  | Some (StartDispatchers events) => events
  | None => if launched s stop then [] else EVENT_TYPE_ARRAY
  end.
Definition unsent (stop : StopState) : list EventType :=
  match stop with
  | StopUnderWay (StopDispatchers events | AwaitDispatcher _ events) => events
  | StopUnderWay AwaitSubscriber | StopEnded (Ok _) => []
  | _ => EVENT_TYPE_ARRAY
  end.

Definition remaining (stop : StopState) : list EventType :=
  match stop with StopUnderWay (AwaitDispatcher event events) => event :: events | _ => unsent stop end.

Definition subscriber_launched (s : Inner) (starting : option Starting) (stop : StopState) : bool :=
  match starting with Some StartSubscriber => false | Some _ => true | None => launched s stop end.

Definition subscriber_state (launched : bool) (stop : StopState) (sb : Subscriber) : Prop :=
  match stop with
  | StopUnderWay AwaitSubscriber =>
      sb_running sb = true ∧ (∃ q, sb_channel sb = q ++ [SubscribeShutdown] ∧ (SubscribeShutdown ∉ q)) ∨ sb_running sb = false ∧ sb_channel sb = []
  | StopEnded (Ok _) => sb_running sb = false ∧ sb_channel sb = []
  | _ => (SubscribeShutdown ∉ sb_channel sb) ∧ sb_is_started sb = launched ∧ (launched = true → sb_running sb = true ∧ sb_shutdown_listener sb = true)
  end.

(** The dispatchers run from the start on until they were told to shut down, one after
    the other; the subscriber was last told whether there are listeners. *)
Record tasks_inv (s : Inner) (starting : option Starting) (stop : StopState) : Prop := {
  ti_nodup : NoDup (remaining stop) ∧ NoDup (unspawned s starting stop);
  ti_starting : is_Some starting → in_is_started s = true ∧ stop = NotStopped;
  ti_stopped : stop ≠ NotStopped → in_is_started s = false;
  ti_unspawned e : e ∈ unspawned s starting stop → in_dispatcher s e = None;
  ti_spawned e : e ∉ unspawned s starting stop → is_Some (in_dispatcher s e) ∧ (e ∈ unsent stop → in_shutdown_listener s e = true);
  ti_unsent e : e ∈ unsent stop → ending s e = false;
  ti_sent e : e ∉ unsent stop →
    ended s e = true ∨ running s e = true ∧ DispatchShutdown ∈ in_dispatcher_channel s e ∧ stop = StopUnderWay (AwaitDispatcher e (unsent stop));
  ti_subscriber sb : in_subscriber s = Some sb →
    subscriber_state (subscriber_launched s starting stop) stop sb ∧ ∀ e, told e sb = known (active_map s e);
}.

(** Calls that only send messages to the dispatchers. *)
Definition quiet (s s' : Inner) : Prop :=
  in_is_started s' = in_is_started s ∧ in_dispatcher s' = in_dispatcher s ∧ in_subscriber s' = in_subscriber s
  ∧ in_shutdown_listener s' = in_shutdown_listener s
  ∧ ∀ e, ∃ tail, in_dispatcher_channel s' e = in_dispatcher_channel s e ++ tail ∧ (DispatchShutdown ∉ tail).

Lemma ending_in s e : ending s e = true ↔ DispatchShutdown ∈ in_dispatcher_channel s e ∨ ended s e = true.
Proof. unfold ending. by rewrite orb_true_iff, shutdown_in. Qed.
Lemma ending_out s e : ending s e = false ↔ (DispatchShutdown ∉ in_dispatcher_channel s e) ∧ ended s e = false.
Proof. rewrite <- !not_true_iff_false, ending_in. naive_solver. Qed.

Lemma quiet_ending s s' e : quiet s s' → ending s' e = ending s e ∧ ended s' e = ended s e ∧ running s' e = running s e ∧ active_map s' e = active_map s e.
Proof.
  intros (_ & Hd & _ & _ & Hq). destruct (Hq e) as (tail & Ht & Hn). unfold ending, ended, running, active_map. rewrite Hd, Ht, existsb_app.
  assert (existsb is_shutdown tail = false) as -> by (apply not_true_is_false; by rewrite shutdown_in). by rewrite orb_false_r.
Qed.

Lemma quiet_inv s s' starting stop : quiet s s' → tasks_inv s starting stop → tasks_inv s' starting stop.
Proof.
  intros HQ [F1 F2 F3 F4 F5 F6 F7 F8]. pose proof HQ as (Hs & Hd & Hb & Hw & Hq).
  assert (unspawned s' starting stop = unspawned s starting stop ∧ subscriber_launched s' starting stop = subscriber_launched s starting stop) as [Hu Hl]
    by (unfold unspawned, subscriber_launched, launched; by rewrite Hs).
  split; rewrite ?Hu, ?Hs, ?Hd, ?Hw, ?Hb, ?Hl; try done.
  - intros e He. rewrite (proj1 (quiet_ending s s' e HQ)). by apply F6.
  - intros e He. destruct (quiet_ending s s' e HQ) as (_ & -> & -> & _). destruct (F7 e He) as [?|(? & ? & ?)]; [by left|right].
    destruct (Hq e) as (tail & -> & _). split_and!; [done|set_solver|done].
  - intros sb Hsb. destruct (F8 sb Hsb) as [G1 G2]. split; [done|]. intros e. destruct (quiet_ending s s' e HQ) as (_ & _ & _ & ->). apply G2.
Qed.

Lemma quiet_push e msg s s' : msg ≠ DispatchShutdown → in_dispatcher_channel s' = in_dispatcher_channel s → quiet s s' → quiet s (snd (try_send_dispatch e msg s')).
Proof.
  intros Hm Hq' (Hs & Hd & Hb & Hw & Hq). split_and!; [done|done|done|done|]. intros e'. cbn. rewrite Hq'. unfold index_mut. destruct (decide (e' = e)) as [->|].
  - exists [msg]. split; [done|]. set_solver.
  - exists []. rewrite app_nil_r. set_solver.
Qed.

Lemma quiet_same s s' : in_is_started s' = in_is_started s → in_dispatcher s' = in_dispatcher s → in_subscriber s' = in_subscriber s →
  in_shutdown_listener s' = in_shutdown_listener s → in_dispatcher_channel s' = in_dispatcher_channel s → quiet s s'.
Proof. intros H1 H2 H3 H4 H5. split_and!; try done. intros e. exists []. rewrite H5, app_nil_r. set_solver. Qed.

Lemma start_quiet id T s : quiet s (snd (start_notify id T s)).
Proof.
  unfold start_notify, mbind, M_bind, get. destruct (in_listeners s !! id) as [l|]; [|by apply quiet_same]. destruct (toggle T true l) as [[] l']; [|by apply quiet_same].
  apply quiet_push; [done|done|by apply quiet_same].
Qed.
Lemma stop_quiet id T s : quiet s (snd (stop_notify id T s)).
Proof.
  unfold stop_notify, mbind, M_bind, get. destruct (in_listeners s !! id) as [l|]; [|by apply quiet_same]. destruct (toggle T false l) as [[] l']; [|by apply quiet_same].
  apply quiet_push; [done|done|by apply quiet_same].
Qed.
Lemma register_quiet fuel rnd channel s : quiet s (snd (register_new_listener fuel rnd channel s)).
Proof. unfold register_new_listener, mbind, M_bind, get, lift. destruct (oloop _ _ _); [destruct channel|..]; by apply quiet_same. Qed.
Lemma unregister_quiet id s : quiet s (snd (unregister_listener id s)).
Proof. unfold unregister_listener, mbind, M_bind, get. destruct (in_listeners s !! id); by apply quiet_same. Qed.
Lemma unregister_next_quiet call s : quiet s (snd (unregister_next call s)).
Proof.
  unfold unregister_next. destruct (lv_active_events call) as [|event events]; [by apply quiet_same|]. unfold mbind, M_bind.
  pose proof (stop_quiet (l_id (lv_listener call)) (type_of_event event) s) as Hq. by destruct (stop_notify _ _ s) as [[] s'].
Qed.

Lemma running_ended s e : running s e = true → ended s e = false.
Proof. unfold running, ended. destruct (in_dispatcher s e) as [d|]; [|done]. by intros ->. Qed.

(** While a dispatcher runs the subscriber does. *)
Lemma live_subscriber e s starting stop : tasks_inv s starting stop → running s e = true →
  match stop with StopUnderWay AwaitSubscriber | StopEnded (Ok _) => False | _ => True end.
Proof.
  intros HT Hr%running_ended. pose proof (ti_sent _ _ _ HT e) as Hs. destruct stop as [|[]|[]]; try done; cbn in Hs;
    (destruct Hs as [?|(_ & _ & ?)]; [by intros ?%elem_of_nil|congruence|done]).
Qed.

Lemma turn_tasks e0 s starting stop : tasks_inv s starting stop → tasks_inv (dispatcher_turn e0 s) starting stop.
Proof.
  intros HT. destruct (running s e0) eqn:Hrun; [|by rewrite turn_none by auto]. pose proof Hrun as (d & Hd & Hr)%running_some.
  destruct (in_dispatcher_channel s e0) as [|msg q] eqn:Hq; [by rewrite turn_none by auto|].
  pose proof (turn_ok e0 msg q d s Hd Hr Hq) as (_ & Hs & Hw & Hq' & Hoth & _ & Hm & d' & Hd' & Hr').
  assert (∃ b, in_subscriber (dispatcher_turn e0 s) = (if (b : bool) then subscriber_send (if known (active_map (dispatcher_turn e0 s) e0) then StartEvent (type_of_event e0)
      else StopEvent (type_of_event e0)) <$> in_subscriber s else in_subscriber s)
    ∧ (b = false → known (active_map (dispatcher_turn e0 s) e0) = known (active_map s e0))) as (b & Hb & Hk).
  { assert (msg = DispatchShutdown ∨ msg ≠ DispatchShutdown) as [->|Hne] by (destruct msg; auto).
    - exists false. split; [|by rewrite Hm]. unfold dispatcher_turn. by rewrite Hd, Hq, Hr.
    - unfold dispatcher_turn, active_map at 3. rewrite Hd, Hq, Hr.
      exact (dispatch_told e0 msg d (set_dispatcher_channel (index_mut (in_dispatcher_channel s) e0 q) s) Hne). }
  set (s' := dispatcher_turn e0 s) in *.
  assert (∀ e, e ≠ e0 → ending s' e = ending s e ∧ ended s' e = ended s e ∧ running s' e = running s e ∧ active_map s' e = active_map s e) as Hsame.
  { intros e He. destruct (Hoth e He) as [H1 H2]. unfold ending, ended, running, active_map. by rewrite H1, H2. }
  assert (ended s' e0 = is_shutdown msg ∧ running s' e0 = negb (is_shutdown msg)) as [He0 Hr0].
  { unfold ended, running. rewrite Hd', Hr'. by rewrite negb_involutive. }
  pose proof HT as [F1 F2 F3 F4 F5 F6 F7 F8].
  assert (unspawned s' starting stop = unspawned s starting stop ∧ subscriber_launched s' starting stop = subscriber_launched s starting stop) as [Hu Hl]
    by (unfold unspawned, subscriber_launched, launched; by rewrite Hs).
  split; rewrite ?Hu, ?Hs, ?Hw, ?Hl; try done.
  - intros e He. destruct (decide (e = e0)) as [->|Hne]; [|rewrite (proj1 (Hoth e Hne)); by apply F4]. specialize (F4 e0 He). congruence.
  - intros e He. destruct (F5 e He) as [G1 G2]. split; [|done]. destruct (decide (e = e0)) as [->|Hne]; [by eexists|by rewrite (proj1 (Hoth e Hne))].
  - intros e He. specialize (F6 e He). destruct (decide (e = e0)) as [->|Hne]; [|by rewrite (proj1 (Hsame e Hne))].
    apply ending_out in F6 as [G1 _]. rewrite Hq in G1. apply not_elem_of_cons in G1 as [G1 G2]. apply ending_out. rewrite Hq', He0. split; [done|]. by destruct msg.
  - intros e He. specialize (F7 e He). destruct (decide (e = e0)) as [->|Hne].
    + destruct F7 as [G|(_ & G1 & G2)]; [apply running_ended in Hrun; congruence|]. rewrite He0, Hr0, Hq'. rewrite Hq in G1.
      destruct (is_shutdown msg) eqn:Hmsg; [by left|right]. split_and!; [done| |done]. apply elem_of_cons in G1 as [<-|G1]; [done|done].
    + destruct (Hsame e Hne) as (_ & -> & -> & _). by rewrite (proj2 (Hoth e Hne)).
  - intros sb'. rewrite Hb. intros Hsb'.
    assert (∃ sb, in_subscriber s = Some sb ∧ (sb' = if b then subscriber_send (if known (active_map s' e0) then StartEvent (type_of_event e0) else StopEvent (type_of_event e0)) sb else sb))
      as (sb & Hsb & ->).
    { destruct b; [|eauto]. apply fmap_Some in Hsb' as (sb & Hsb & ->). eauto. }
    destruct (F8 sb Hsb) as [G1 G2]. split.
    + destruct b; [|done]. pose proof (live_subscriber e0 s starting stop HT Hrun) as Hlive. destruct (known (active_map s' e0)); destruct stop as [|[]|[]]; try done; cbn in *;
        (destruct G1 as (G1 & G3 & G4); split_and!; [set_solver|done|done]).
    + intros e. assert (e ≠ e0 → active_map s' e = active_map s e) as Ho by (intros He; by apply Hsame).
      destruct b; [rewrite told_send; destruct (decide (e = e0)) as [->|He]; [done|by rewrite Ho]|].
      destruct (decide (e = e0)) as [->|He]; [|by rewrite Ho]. rewrite Hk by done. apply G2.
Qed.

Lemma subscriber_tasks s starting stop : tasks_inv s starting stop → tasks_inv (set_subscriber (subscriber_turn <$> in_subscriber s) s) starting stop.
Proof.
  intros [F1 F2 F3 F4 F5 F6 F7 F8]. split; try done. cbn. intros sb' (sb & Hsb & ->)%fmap_Some. destruct (F8 sb Hsb) as [G1 G2].
  split; [|intros e; unfold told; rewrite subscriber_turn_ok; apply G2].
  change (subscriber_launched (set_subscriber (subscriber_turn <$> in_subscriber s) s) starting stop) with (subscriber_launched s starting stop).
  clear - G1. destruct sb as [id st sl ch rn calls]. destruct rn; [|by destruct ch as [|[] ?]].
  assert (match stop with StopUnderWay AwaitSubscriber | StopEnded (Ok _) => False | _ => True end →
    subscriber_state (subscriber_launched s starting stop) stop (subscriber_turn (mkSubscriber id st sl ch true calls))) as Hlive.
  { destruct stop as [|[]|[]]; try done; intros _; cbn in G1 |- *; (destruct G1 as (G1 & G3 & G4); destruct ch as [|[] ch]; [done|split_and!; [set_solver|done|done]..|set_solver]). }
  destruct stop as [|[]|[]]; try (by apply Hlive); cbn in G1 |- *.
  - destruct G1 as [[_ (q & -> & Hq)]|[? _]]; [|done]. destruct q as [|[] q]; cbn; [by right| | |set_solver]; left; (split; [done|]); exists q; set_solver.
  - by destruct G1.
Qed.

(** ** Starting and stopping *)

Lemma launch_tasks s : in_is_started s = false → tasks_inv s None NotStopped → tasks_inv (set_is_started true s) (Some StartSubscriber) NotStopped.
Proof.
  intros Hs [F1 F2 F3 F4 F5 F6 F7 F8]. unfold unspawned, subscriber_launched, launched in *. rewrite Hs in *. cbn in *. split; try done.
Qed.

Lemma start_subscriber_tasks s : tasks_inv s (Some StartSubscriber) NotStopped →
  tasks_inv (set_subscriber (subscriber_start <$> in_subscriber s) s) (Some (StartDispatchers EVENT_TYPE_ARRAY)) NotStopped.
Proof.
  intros [F1 F2 F3 F4 F5 F6 F7 F8]. specialize (F2 ltac:(by eexists)). split; try done. cbn. intros sb' (sb & Hsb & ->)%fmap_Some. destruct (F8 sb Hsb) as [(G1 & G3 & G4) G2]. cbn in *.
  unfold subscriber_start. rewrite G3. done.
Qed.

Lemma spawn_tasks e events s : tasks_inv s (Some (StartDispatchers (e :: events))) NotStopped →
  tasks_inv (set_dispatcher (index_mut (in_dispatcher s) e (Some (mkDispatcher ∅ false true)))
    (set_shutdown_listener (index_mut (in_shutdown_listener s) e true) s)) (Some (StartDispatchers events)) NotStopped.
Proof.
  intros [[F1 F1'] F2 F3 F4 F5 F6 F7 F8]. cbn in F1', F4, F5, F7. apply NoDup_cons in F1' as [Hni Hnd]. specialize (F4 e ltac:(by left)) as Hn.
  specialize (F2 ltac:(by eexists)). set (s' := set_dispatcher _ _).
  assert (∀ e', active_map s' e' = active_map s e' ∧ ended s' e' = ended s e') as Hsame.
  { intros e'. unfold active_map, ended. cbn. unfold index_mut. destruct (decide (e' = e)) as [->|]; [by rewrite Hn|done]. }
  split; cbn [unspawned unsent]; try done.
  - intros e' He'. cbn. rewrite index_mut_ne by (intros ->; done). apply F4. by right.
  - intros e' He'. cbn. unfold index_mut. destruct (decide (e' = e)) as [->|]; [by split; [eexists|]|]. apply F5. by intros [->|?]%elem_of_cons.
  - intros e' He'. unfold ending. rewrite (proj2 (Hsame e')). by apply F6.
  - intros e' He'. by destruct (He' (ltac:(apply (bool_decide_unpack _); by destruct e') : e' ∈ EVENT_TYPE_ARRAY)).
  - intros sb Hsb. destruct (F8 sb Hsb) as [G1 G2]. split; [done|]. intros e'. rewrite (proj1 (Hsame e')). apply G2.
Qed.

Lemma started_tasks s : tasks_inv s (Some (StartDispatchers [])) NotStopped → tasks_inv s None NotStopped.
Proof.
  intros [F1 F2 F3 F4 F5 F6 F7 F8]. destruct F2 as [F2 _]; [by eexists|]. 
  assert (unspawned s None NotStopped = [] ∧ subscriber_launched s None NotStopped = true) as [Hu Hl]
    by (unfold unspawned, subscriber_launched, launched; by rewrite F2).
  split; rewrite ?Hu, ?Hl; done.
Qed.

Lemma all_events e : e ∈ EVENT_TYPE_ARRAY.
Proof. apply (bool_decide_unpack _). by destruct e. Qed.

(** What remains when [stop] changes its state and no dispatcher. *)
Lemma restate_tasks s stop stop' : unsent stop' = unsent stop → NotStopped ≠ stop → NotStopped ≠ stop' →
  (NoDup (remaining stop) → NoDup (remaining stop')) →
  (∀ e, e ∉ unsent stop → running s e = true → stop' = StopUnderWay (AwaitDispatcher e (unsent stop))) →
  (∀ sb, in_subscriber s = Some sb → subscriber_state true stop sb → subscriber_state true stop' sb) →
  tasks_inv s None stop → tasks_inv s None stop'.
Proof.
  intros Hu Hn Hn' Hnd Hr Hsb [F1 F2 F3 F4 F5 F6 F7 F8].
  assert (unspawned s None stop' = unspawned s None stop) as Hsp.
  { unfold unspawned, launched. by destruct stop, stop'. }
  assert (subscriber_launched s None stop = true ∧ subscriber_launched s None stop' = true) as [Hl Hl'].
  { unfold subscriber_launched, launched. split; [destruct stop|destruct stop']; done || apply orb_true_r. }
  split; rewrite ?Hsp, ?Hu; try done.
  - destruct F1 as [G1 G2]. split; [by apply Hnd|done].
  - intros _. apply F3. congruence.
  - intros e He. destruct (F7 e He) as [?|(? & ? & ?)]; [by left|right]. split_and!; [done|done|by apply Hr].
  - intros sb Hsb'. destruct (F8 sb Hsb') as [G1 G2]. rewrite Hl in G1. rewrite Hl'. split; [by apply Hsb|done].
Qed.

Lemma stop_tasks s (call : Stopping) : call = StopCollector ∨ call = StopDispatchers EVENT_TYPE_ARRAY → in_is_started s = true →
  tasks_inv s None NotStopped → tasks_inv (set_is_started false s) None (StopUnderWay call).
Proof.
  intros Hcall Hs [F1 F2 F3 F4 F5 F6 F7 F8]. unfold subscriber_launched, unspawned, launched in *. rewrite Hs in *. cbn in *.
  assert (unsent (StopUnderWay call) = EVENT_TYPE_ARRAY) as Hu by (by destruct Hcall as [-> | ->]).
  split; cbn [unspawned]; rewrite ?Hu; try done.
  - by destruct Hcall as [-> | ->].
  - intros e He. destruct (He (all_events e)).
  - intros sb Hsb. destruct (F8 sb Hsb) as [G1 G2]. split; [|done]. by destruct Hcall as [-> | ->].
Qed.

Lemma stopping_none s starting stop : tasks_inv s starting stop → stop ≠ NotStopped → starting = None.
Proof. intros HT Hne. destruct starting; [|done]. destruct (ti_starting _ _ _ HT) as [_ ?]; [by eexists|done]. Qed.

(** While [stop] is under way all dispatchers were spawned. *)
Lemma stopping_spawned s stop e : tasks_inv s None stop → stop ≠ NotStopped →
  is_Some (in_dispatcher s e) ∧ (e ∈ unsent stop → in_shutdown_listener s e = true ∧ running s e = true).
Proof.
  intros HT Hne. destruct (ti_spawned _ _ _ HT e) as [Hd Hl].
  { unfold unspawned, launched. destruct stop; [done|..]; rewrite orb_true_r; by intros ?%elem_of_nil. }
  split; [done|]. intros He. split; [by apply Hl|]. apply (ti_unsent _ _ _ HT), ending_out in He as [_ He]. unfold running, ended in *.
  destruct Hd as [d Hd]. rewrite Hd in *. by apply negb_false_iff in He.
Qed.

(** The dispatcher of the next event is told to shut down. *)
Definition told_shutdown (e : EventType) (s : Inner) : Inner :=
  let s := snd (try_send_dispatch e DispatchShutdown s) in set_shutdown_listener (index_mut (in_shutdown_listener s) e false) s.

Lemma stop_dispatcher_ok e events s : tasks_inv s None (StopUnderWay (StopDispatchers (e :: events))) → stop_dispatcher e s = (Ok tt, told_shutdown e s).
Proof.
  intros HT. destruct (stopping_spawned s _ e HT ltac:(done)) as [_ Hl]. destruct Hl as [Hl _]; [by left|].
  unfold stop_dispatcher, mbind, M_bind, get, try_send_dispatch, modify. cbn. by rewrite Hl.
Qed.

Lemma stop_dispatcher_tasks e events s : tasks_inv s None (StopUnderWay (StopDispatchers (e :: events))) →
  tasks_inv (told_shutdown e s) None (StopUnderWay (AwaitDispatcher e events)).
Proof.
  intros HT. destruct (stopping_spawned s _ e HT ltac:(done)) as [_ Hl]. destruct Hl as [_ Hr]; [by left|].
  destruct HT as [[F1 F1'] F2 F3 F4 F5 F6 F7 F8]. cbn in F1, F6, F7. pose proof F1 as [Hni Hnd]%NoDup_cons. split; cbn [unsent]; try done.
  - intros _. by apply F3.
  - intros e' He'. destruct (F5 e' He') as [G1 G2]. split; [done|]. intros Hin. cbn. rewrite index_mut_ne by (intros ->; done). apply G2. by right.
  - intros e' He'. assert (e' ≠ e) as Hne by (by intros ->). unfold ending. cbn. rewrite index_mut_ne by done. apply F6. by right.
  - intros e' He'. destruct (decide (e' = e)) as [->|Hne].
    + right. split_and!; [done| |done]. cbn. rewrite index_mut_eq. set_solver.
    + left. destruct (F7 e') as [?|(_ & _ & ?)]; [by intros [?|?]%elem_of_cons|done|done].
Qed.

(** The subscriber is told to shut down. *)
Lemma stop_subscriber_ok sb s : tasks_inv s None (StopUnderWay (StopDispatchers [])) → in_subscriber s = Some sb →
  ∃ sb', stop_subscriber sb = Ok sb' ∧ tasks_inv (set_subscriber (Some sb') s) None (StopUnderWay AwaitSubscriber).
Proof.
  intros HT Hsb. pose proof HT as [F1 F2 F3 F4 F5 F6 F7 F8]. destruct (F8 sb Hsb) as [(G1 & G3 & G4) G2].
  assert (subscriber_launched s None (StopUnderWay (StopDispatchers [])) = true) as Hl by apply orb_true_r. rewrite Hl in *. destruct (G4 eq_refl) as [G5 G6].
  eexists. split; [unfold stop_subscriber; rewrite G3; cbn; by rewrite G6|]. split; try done.
  - intros _. by apply F3.
  - intros e He. destruct (F7 e He) as [?|(_ & _ & ?)]; [by left|done].
  - cbn. intros ? [= <-]. split; [left; cbn; split; [done|by eexists]|]. intros e. etrans; [|apply G2]. unfold told, reported. cbn.
    rewrite omap_app. cbn. by rewrite app_nil_r.
Qed.

(** ** The steps of the system *)

Definition sys_inv (y : System) (out : EventType → nat → list Notification) : Prop :=
  notifier_inv (sys_inner y) (departing (sys_leaving y)) out ∧ tasks_inv (sys_inner y) (sys_starting y) (sys_stop y).

Lemma departing_id y out id call : sys_inv y out → sys_leaving y !! id = Some call →
  in_listeners (sys_inner y) !! id = None ∧ departing (sys_leaving y) !! id = Some (lv_listener call) ∧ l_id (lv_listener call) = id.
Proof.
  intros [HI _] Hc. assert (departing (sys_leaving y) !! id = Some (lv_listener call)) as Hd by (unfold departing; by rewrite lookup_fmap, Hc).
  pose proof (map_disjoint_Some_r _ _ _ _ (ni_apart _ _ _ HI) Hd) as Hn. split_and!; [done|done|].
  apply (ni_listener _ _ _ HI id). by rewrite lookup_union_r.
Qed.

Lemma unregister_sys id y out : sys_inv y out → sys_inv (act (AUnregister id) y) out.
Proof.
  destruct y as [s starting leaving stop]. intros [HI HT]. cbn [sys_inner sys_leaving sys_starting sys_stop] in *. cbn [act].
  pose proof (quiet_inv _ _ _ _ (unregister_quiet id s) HT) as HT'. unfold unregister_listener, mbind, M_bind, get in *.
  destruct (in_listeners s !! id) as [l|] eqn:Hl; [|done]. cbn in *. split; [|done]. cbn. unfold departing. rewrite fmap_insert. by apply removed_inv.
Qed.

Lemma unregister_next_sys id y out : sys_inv y out → sys_inv (act (AUnregisterNext id) y) out.
Proof.
  intros HS. pose proof (departing_id y out id) as Hdep. destruct y as [s starting leaving stop]. pose proof HS as [HI HT].
  cbn [sys_inner sys_leaving sys_starting sys_stop] in *. cbn [act]. destruct (leaving !! id) as [call|] eqn:Hc; [|done].
  destruct (Hdep call HS eq_refl) as (Hn & Hd & Hid). pose proof (quiet_inv _ _ _ _ (unregister_next_quiet call s) HT) as HT'.
  unfold unregister_next, mbind, M_bind in *. destruct call as [l [|event events]]; cbn [lv_listener lv_active_events] in *.
  - split; [|done]. cbn. unfold departing. rewrite fmap_delete. by apply left_inv.
  - rewrite stop_absent in * by (by rewrite Hid). split; [|done]. cbn. unfold departing in *. rewrite fmap_insert, insert_id; done.
Qed.

Lemma launch_sys y out : sys_inv y out → sys_stop y = NotStopped → sys_inv (act ALaunch y) out.
Proof.
  destruct y as [s starting leaving stop]. intros [HI HT] Hst. cbn in *. subst stop. unfold notifier_start, mbind, M_bind, get.
  destruct (in_is_started s) eqn:Hs; [done|]. cbn. destruct starting as [call|].
  { destruct (ti_starting _ _ _ HT) as [? _]; [by eexists|congruence]. }
  split; cbn; [by apply (inv_frame s)|by apply launch_tasks].
Qed.

Lemma launch_next_sys y out : sys_inv y out → sys_inv (act ALaunchNext y) out.
Proof.
  destruct y as [s starting leaving stop]. intros [HI HT]. cbn in HI, HT. cbn [act]. destruct starting as [call|]; [|done].
  destruct (ti_starting _ _ _ HT) as [_ ->]; [by eexists|]. destruct call as [|[|event events]]; cbn.
  - split; cbn; [by apply (inv_frame s)|by apply start_subscriber_tasks].
  - split; [done|by apply started_tasks].
  - split; cbn; [|exact (spawn_tasks event events s HT)]. apply (spawn_inv (set_shutdown_listener (index_mut (in_shutdown_listener s) event true) s)); [by apply (inv_frame s)|]. apply (ti_unspawned _ _ _ HT). by left.
Qed.

Lemma shutdown_sys y out : sys_inv y out → sys_starting y = None → sys_inv (act AShutdown y) out.
Proof.
  destruct y as [s starting leaving stop]. intros [HI HT] Hst. cbn in *. subst starting. unfold notifier_stop, mbind, M_bind, get.
  destruct (in_is_started s) eqn:Hs; [|done]. assert (stop = NotStopped) as ->.
  { destruct stop; [done|..]; (rewrite (ti_stopped _ _ _ HT) in Hs; done). }
  cbn. split; cbn; [by apply (inv_frame s)|]. apply stop_tasks; [|done|done]. destruct (in_collector s); auto.
Qed.

(** The steps of [stop]: only the collector makes it fail. *)
Lemma stop_step collector call s : tasks_inv s None (StopUnderWay call) →
  match call with
  | StopCollector => stop_next collector call s = (x ← collector; Ok (Some (StopDispatchers EVENT_TYPE_ARRAY)), s)
  | StopDispatchers (e :: events) => stop_next collector call s = (Ok (Some (AwaitDispatcher e events)), told_shutdown e s)
  | AwaitDispatcher e events => stop_next collector call s = (Ok (Some (if running s e then call else StopDispatchers events)), s)
  | StopDispatchers [] =>
      match in_subscriber s with
      | Some sb => ∃ sb', stop_next collector call s = (Ok (Some AwaitSubscriber), set_subscriber (Some sb') s)
          ∧ tasks_inv (set_subscriber (Some sb') s) None (StopUnderWay AwaitSubscriber)
      | None => stop_next collector call s = (Ok None, s)
      end
  | AwaitSubscriber => stop_next collector call s
      = (Ok (match in_subscriber s with Some sb => if sb_running sb then Some call else None | None => None end), s)
  end.
Proof.
  intros HT. destruct call as [|[|e events]|e events|]; try done.
  - by destruct collector.
  - destruct (in_subscriber s) as [sb|] eqn:Hsb.
    + destruct (stop_subscriber_ok sb s HT Hsb) as (sb' & Hs & HT'). exists sb'. split; [|done].
      unfold stop_next, mbind, M_bind, get, lift. by rewrite Hsb, Hs.
    + unfold stop_next, mbind, M_bind, get. by rewrite Hsb.
  - unfold stop_next, mbind, M_bind. by rewrite (stop_dispatcher_ok e events s HT).
Qed.

Lemma shutdown_next_sys collector y out : sys_inv y out → sys_inv (act (AShutdownNext collector) y) out.
Proof.
  destruct y as [s starting leaving stop]. intros [HI HT]. cbn in HI, HT. cbn [act]. destruct stop as [|call|r]; [done| |done].
  pose proof (stopping_none _ _ _ HT ltac:(done)) as ->. pose proof (stop_step collector call s HT) as Hst.
  destruct call as [|[|e events]|e events|].
  - rewrite Hst. destruct collector as [u|err| |]; (split; cbn; [done|]); apply (restate_tasks s (StopUnderWay StopCollector)); try done;
      intros e He; by destruct (He (all_events e)).
  - destruct (in_subscriber s) as [sb|] eqn:Hsb.
    + destruct Hst as (sb' & -> & HT'). split; cbn; [by apply (inv_frame s)|done].
    + rewrite Hst. split; cbn; [done|]. apply (restate_tasks s (StopUnderWay (StopDispatchers []))); try done; [|congruence].
      intros e He Hr. destruct (ti_sent _ _ _ HT e He) as [?|(_ & _ & ?)]; [|done]. apply running_ended in Hr. congruence.
  - rewrite Hst. split; cbn; [|by apply stop_dispatcher_tasks]. apply (inv_frame (snd (try_send_dispatch e DispatchShutdown s))); try done.
    apply shutdown_inv; [done| |].
    + apply (stopping_spawned s _ e HT); [done|by left].
    + apply (ti_unsent _ _ _ HT). by left.
  - rewrite Hst. destruct (running s e) eqn:Hr; [by split|]. split; cbn; [done|]. apply (restate_tasks s (StopUnderWay (AwaitDispatcher e events))); try done.
    { cbn. by intros [_ ?]%NoDup_cons. }
    intros e' He' Hr'. destruct (ti_sent _ _ _ HT e' He') as [?|(_ & _ & [= <-])]; [|congruence]. apply running_ended in Hr'. congruence.
  - rewrite Hst. destruct (in_subscriber s) as [sb|] eqn:Hsb; [destruct (sb_running sb) eqn:Hr; [by split|]|]; (split; cbn; [done|]);
      apply (restate_tasks s (StopUnderWay AwaitSubscriber)); try done.
    1,3: intros e He Hre; destruct (ti_sent _ _ _ HT e He) as [?|(_ & _ & ?)]; [apply running_ended in Hre; congruence|done].
    + rewrite Hsb. intros ? [= <-] [[? _]|?]; [congruence|done].
    + congruence.
Qed.

Lemma act_inv y out a : sys_inv y out → permitted a y → sys_inv (act a y) (λ e c, out e c ++ due e c a y).
Proof.
  intros HS Ha. assert (match a with ANotify _ => False | _ => True end → sys_inv (act a y) out → sys_inv (act a y) (λ e c, out e c ++ due e c a y)) as Hext.
  { intros Hn [HI HT]. split; [|done]. apply (inv_ext _ _ out); [|done]. intros e c. destruct a; try done; by rewrite app_nil_r. }
  destruct a as [fuel rnd channel|id T|id T|id|id|n| | | |collector|c|e|]; [| | | | |shelve|..]; apply Hext; try done.
  Unshelve.
  - destruct y as [s starting leaving stop]. destruct HS as [HI HT], Ha as [Hrnd Hch]. split; cbn -[register_new_listener].
    + apply register_inv; [done| |done]. intros i. unfold departing. by rewrite lookup_fmap, (Hrnd i : leaving !! rnd i = None).
    + eapply quiet_inv; [apply register_quiet|done].
  - destruct y as [s starting leaving stop]. destruct HS as [HI HT]. split; [by apply start_inv|by eapply quiet_inv; [apply start_quiet|]].
  - destruct y as [s starting leaving stop]. destruct HS as [HI HT]. split; [by apply stop_inv|by eapply quiet_inv; [apply stop_quiet|]].
  - by apply unregister_sys.
  - by apply unregister_next_sys.
  - by apply launch_sys.
  - by apply launch_next_sys.
  - by apply shutdown_sys.
  - by apply shutdown_next_sys.
  - destruct y as [s starting leaving stop]. destruct HS as [HI HT]. split; [by apply close_step|apply (quiet_inv s); [by apply quiet_same|done]].
  - destruct y as [s starting leaving stop]. destruct HS as [HI HT]. split; [by apply turn_inv|by apply turn_tasks].
  - destruct y as [s starting leaving stop]. destruct HS as [HI HT]. split; [by apply (inv_frame s)|by apply subscriber_tasks].
  - destruct y as [s starting leaving stop]. destruct HS as [HI HT]. split; [by apply notify_inv|].
    eapply quiet_inv; [|exact HT]. apply quiet_push; [done|done|by apply quiet_same].
Qed.

(** Systems at their creation: nothing was sent. *)
Definition created (y : System) : Prop := ∃ collector listener_id setting channels,
  (y = mkSystem (notifier_new collector None setting channels) None ∅ NotStopped
    ∨ y = mkSystem (notifier_new collector (Some (subscriber_new listener_id)) setting channels) None ∅ NotStopped)
  ∧ map_Forall (λ _ c, ch_sent c = []) channels.

Lemma created_inv y : created y → sys_inv y (λ _ _, []).
Proof.
  intros (collector & id & setting & channels & Hy & Hch). assert (∀ e, event_inv e channels (∅ ∪ departing ∅) ∅ [] (λ _, [])) as He.
  { intros e. split; try done.
    intros c _. unfold taken. destruct (channels !! c) as [x|] eqn:Hc; [|done]. by rewrite (Hch c x Hc). }
  assert (NoDup EVENT_TYPE_ARRAY) as Hnd by (apply (bool_decide_unpack _); by vm_compute).
  assert (∀ subscriber, (∀ sb, subscriber = Some sb → sb = subscriber_new id) →
    sys_inv (mkSystem (notifier_new collector subscriber setting channels) None ∅ NotStopped) (λ _ _, [])) as Hsys.
  { intros subscriber Hsb. split; split; try done.
    all: cbn [sys_inner sys_leaving sys_starting sys_stop].
    - by intros e n ?%elem_of_nil.
    - intros e _. by apply es_live.
    - by intros [? ?].
    - cbn. intros e Hni. by destruct (Hni (all_events e)).
    - cbn. intros e Hni. by destruct (Hni (all_events e)).
    - cbn. intros sb ->%Hsb. cbn. split; [|done]. split_and!; [by intros ?%elem_of_nil|done|done]. }
  destruct Hy as [-> | ->]; apply Hsys; congruence.
Qed.

Lemma system_run_inv y0 y out : created y0 → run y0 y out → sys_inv y out.
Proof. intros Hc. induction 1 as [|y out a _ HS Ha]; [by apply created_inv|by apply act_inv]. Qed.

(** ** Draining *)

(** The turns that take the messages of an event. *)
Definition drain (e : EventType) (s : Inner) : Inner := Nat.iter (length (in_dispatcher_channel s e)) (dispatcher_turn e) s.

Lemma turn_keeps e s c : open (dispatcher_turn e s) c ↔ open s c.
Proof.
  destruct (running s e) eqn:Hrun; [|by rewrite turn_none by auto]. apply running_some in Hrun as (d & Hd & Hr).
  destruct (in_dispatcher_channel s e) as [|msg q] eqn:Hq; [by rewrite turn_none by auto|].
  destruct (turn_ok e msg q d s Hd Hr Hq) as (_ & _ & _ & _ & _ & Hc & _). unfold open. rewrite Hc. destruct msg as [n| | |]; try done. cbn [after_turn].
  destruct (broadcast_any n (map_to_list (active_map s e)) (in_channels s) [] c) as [k Hk]. unfold broadcast. destruct (foldl _ _ _) as [ch' purge].
  cbn [fst] in *. rewrite Hk. destruct (in_channels s !! c) as [[sent []]|]; cbn; [|by split; intros _; eexists|]; done.
Qed.

Lemma received_taken e c s : received_on e c s = taken e (in_channels s) c.
Proof. done. Qed.

(** A dispatcher that takes its messages delivers what is due. *)
Lemma drained e s X out n c : event_state e s X out → is_Some (in_dispatcher s e) → (length (in_dispatcher_channel s e) ≤ n)%nat → open s c →
  received_on e c (Nat.iter n (dispatcher_turn e) s) = out c.
Proof.
  assert (∀ L m, event_inv e (in_channels s) L m [] out → open s c → received_on e c s = out c) as Hdone.
  { intros L m HE Hop. pose proof (ev_out _ _ _ _ _ _ HE c Hop) as Heq. cbn in Heq. by rewrite app_nil_r in Heq. }
  revert s Hdone. induction n as [|n IH]; intros s Hdone HS Hsome Hn Hop.
  - destruct (in_dispatcher_channel s e) as [|msg q] eqn:Hq; [|cbn in Hn; lia]. cbn.
    destruct HS as [_ HE|L q q' d _ _ Hqq _|L d _ _ HE]; [rewrite Hq in HE; by eapply Hdone|rewrite Hqq in Hq; by destruct q|by eapply Hdone].
  - rewrite Nat.iter_succ_r. destruct (running s e) eqn:Hrun.
    + pose proof Hrun as (d & Hd & Hr)%running_some. apply IH.
      * intros L m HE Ho. pose proof (ev_out _ _ _ _ _ _ HE c Ho) as Heq. cbn in Heq. by rewrite app_nil_r in Heq.
      * by apply turn_state.
      * destruct (in_dispatcher_channel s e) as [|msg q] eqn:Hq; [by rewrite turn_none by auto|].
        destruct (turn_ok e msg q d s Hd Hr Hq) as (_ & _ & _ & _ & _ & _ & _ & d' & -> & _). by eexists.
      * destruct (in_dispatcher_channel s e) as [|msg q] eqn:Hq; [rewrite turn_none, Hq by auto; cbn; lia|].
        destruct (turn_ok e msg q d s Hd Hr Hq) as (_ & _ & _ & -> & _). cbn in Hn. lia.
      * by apply turn_keeps.
    + assert (∀ k, Nat.iter k (dispatcher_turn e) s = s) as Hfix.
      { induction k as [|k IHk]; [done|]. rewrite Nat.iter_succ, IHk. apply turn_none. by left. }
      rewrite turn_none, Hfix by auto. destruct HS as [Hd HE|L q q' d Hd Hr _ _|L d _ _ HE]; [|unfold running in Hrun; by rewrite Hd, Hr in Hrun|by eapply Hdone].
      destruct Hsome as [d Hd']. unfold running in Hrun. rewrite Hd', (Hd d Hd') in Hrun. done.
Qed.

(** ** The progress of [stop] *)

Fixpoint before_shutdown (q : list DispatchMessage) : nat :=
  match q with [] => 0 | msg :: q => if is_shutdown msg then 0 else S (before_shutdown q) end.

Definition subscriber_runs (s : Inner) : bool := match in_subscriber s with Some sb => sb_running sb | None => false end.

(** The steps that [stop] still has to take, and the messages that the task it waits for
    still has to take. *)
Definition stop_work (y : System) : nat * nat :=
  let s := sys_inner y in
  match sys_stop y with
  | StopUnderWay StopCollector => (2 * length EVENT_TYPE_ARRAY + 3, 0)
  | StopUnderWay (StopDispatchers events) => (2 * length events + 2, 0)
  | StopUnderWay (AwaitDispatcher event events) =>
      (2 * length events + 3, if running s event then S (before_shutdown (in_dispatcher_channel s event)) else 0)
  | StopUnderWay AwaitSubscriber =>
      (1, if subscriber_runs s then S (match in_subscriber s with Some sb => length (sb_channel sb) | None => 0 end) else 0)
  | _ => (0, 0)
  end%nat.

Definition less_work (p q : nat * nat) : Prop := (p.1 < q.1)%nat ∨ p.1 = q.1 ∧ (p.2 < q.2)%nat.

Lemma less_work_wf : well_founded less_work.
Proof.
  intros [a b]. revert b. induction (lt_wf a) as [a _ IHa]. intros b. induction (lt_wf b) as [b _ IHb]. constructor. intros [a' b'] [Hlt|[Heq Hlt]]; cbn in *.
  - by apply IHa.
  - subst a'. by apply IHb.
Qed.

(** The action that [stop] waits for; the collector answers without an error. *)
Definition awaited (y : System) : Action :=
  match sys_stop y with
  | StopUnderWay (AwaitDispatcher event _) => if running (sys_inner y) event then ADispatch event else AShutdownNext (Ok tt)
  | StopUnderWay AwaitSubscriber => if subscriber_runs (sys_inner y) then ASubscriber else AShutdownNext (Ok tt)
  | _ => AShutdownNext (Ok tt)
  end.

Lemma before_app q tail : DispatchShutdown ∈ q → before_shutdown (q ++ tail) = before_shutdown q.
Proof.
  induction q as [|msg q IH]; [by intros ?%elem_of_nil|]. cbn. destruct (is_shutdown msg) eqn:Hm; [done|].
  intros [<-|Hin]%elem_of_cons; [done|]. by rewrite IH.
Qed.

(** A dispatcher that [stop] waits for has a shutdown among its messages. *)
Lemma awaited_shutdown s starting e events : tasks_inv s starting (StopUnderWay (AwaitDispatcher e events)) → running s e = true →
  DispatchShutdown ∈ in_dispatcher_channel s e.
Proof.
  intros HT Hr. destruct (ti_nodup _ _ _ HT) as [[Hni _]%NoDup_cons _].
  destruct (ti_sent _ _ _ HT e Hni) as [He|(_ & ? & _)]; [apply running_ended in Hr; congruence|done].
Qed.

Lemma quiet_work s s' starting leaving leaving' stop : quiet s s' → tasks_inv s starting stop →
  stop_work (mkSystem s' starting leaving' stop) = stop_work (mkSystem s starting leaving stop).
Proof.
  intros HQ HT. unfold stop_work, subscriber_runs. cbn. pose proof HQ as (_ & _ & Hb & _ & Hq). rewrite Hb. destruct stop as [|[]|]; try done.
  destruct (quiet_ending s s' event HQ) as (_ & _ & -> & _). destruct (running s event) eqn:Hr; [|done]. destruct (Hq event) as (tail & -> & _).
  by rewrite before_app by (by eapply awaited_shutdown).
Qed.

Lemma turn_work e y out : sys_inv y out →
  (stop_work (act (ADispatch e) y) = stop_work y ∨ less_work (stop_work (act (ADispatch e) y)) (stop_work y))
  ∧ ∀ events, sys_stop y = StopUnderWay (AwaitDispatcher e events) → running (sys_inner y) e = true → less_work (stop_work (act (ADispatch e) y)) (stop_work y).
Proof.
  destruct y as [s starting leaving stop]. intros [_ HT]. cbn in HT. cbn [act sys_stop sys_inner].
  assert (∀ events, stop = StopUnderWay (AwaitDispatcher e events) → running s e = true →
    less_work (stop_work (set_inner (dispatcher_turn e s) (mkSystem s starting leaving stop))) (stop_work (mkSystem s starting leaving stop))) as Hless.
  { intros events -> Hrun. pose proof (awaited_shutdown _ _ _ _ HT Hrun) as Hin. pose proof Hrun as (d & Hd & Hr)%running_some.
    destruct (in_dispatcher_channel s e) as [|msg q] eqn:Hq; [by apply elem_of_nil in Hin|].
    destruct (turn_ok e msg q d s Hd Hr Hq) as (_ & _ & _ & Hq' & _ & _ & _ & d' & Hd' & Hr'). right. split; [done|]. cbn. rewrite Hrun, Hq, Hq'.
    unfold running. rewrite Hd', Hr'. cbn. destruct (is_shutdown msg); cbn; lia. }
  split; [|done]. destruct (running s e) eqn:Hrun; [|rewrite turn_none by auto; by left].
  destruct stop as [|[| |e' events|]|r]; try (by left).
  - destruct (decide (e' = e)) as [->|Hne]; [right; by eapply Hless|left]. unfold stop_work. cbn.
    destruct (in_dispatcher_channel s e) as [|msg q] eqn:Hq; [by rewrite turn_none by auto|]. apply running_some in Hrun as (d & Hd & Hr).
    destruct (turn_ok e msg q d s Hd Hr Hq) as (_ & _ & _ & _ & Hoth & _). unfold running. by destruct (Hoth e' Hne) as [-> ->].
  - by destruct (live_subscriber e s starting _ HT Hrun).
Qed.

Lemma subscriber_work y out : sys_inv y out →
  (stop_work (act ASubscriber y) = stop_work y ∨ less_work (stop_work (act ASubscriber y)) (stop_work y))
  ∧ (sys_stop y = StopUnderWay AwaitSubscriber → subscriber_runs (sys_inner y) = true → less_work (stop_work (act ASubscriber y)) (stop_work y)).
Proof.
  destruct y as [s starting leaving stop]. intros [_ HT]. cbn in HT. cbn [act sys_stop sys_inner].
  assert (stop = StopUnderWay AwaitSubscriber → subscriber_runs s = true →
    less_work (stop_work (set_inner (set_subscriber (subscriber_turn <$> in_subscriber s) s) (mkSystem s starting leaving stop))) (stop_work (mkSystem s starting leaving stop))) as Hless.
  { intros -> Hrun. unfold subscriber_runs in Hrun. right. split; [done|]. unfold stop_work, subscriber_runs. cbn. destruct (in_subscriber s) as [sb|] eqn:Hsb; [|done].
    cbn. rewrite Hrun. destruct (ti_subscriber _ _ _ HT sb Hsb) as [G _]. cbn in G. destruct G as [[_ (q & Hq & _)]|[? _]]; [|congruence].
    destruct sb as [id st sl ch rn calls]. cbn in *. subst rn ch. destruct q as [|[] q]; cbn; lia. }
  split; [|done]. destruct stop as [|[| |e' events|]|r]; try (by left).
  destruct (subscriber_runs s) eqn:Hrun; [right; by apply Hless|left]. unfold stop_work, subscriber_runs in *. cbn. destruct (in_subscriber s) as [sb|]; [|done].
  destruct sb as [id st sl ch rn calls]. cbn in *. by subst rn.
Qed.

(** A step of [stop] itself, unless it waits. *)
Lemma next_work collector y out call : sys_inv y out → sys_stop y = StopUnderWay call →
  (stop_work (act (AShutdownNext collector) y) = stop_work y ∨ less_work (stop_work (act (AShutdownNext collector) y)) (stop_work y))
  ∧ (awaited y = AShutdownNext (Ok tt) → less_work (stop_work (act (AShutdownNext collector) y)) (stop_work y)).
Proof.
  destruct y as [s starting leaving stop]. intros [_ HT] Hst. cbn in HT, Hst. subst stop. pose proof (stopping_none _ _ _ HT ltac:(done)) as ->.
  pose proof (stop_step collector call s HT) as Hnext. cbn [act]. unfold awaited. cbn [sys_stop sys_inner].
  destruct call as [|[|e events]|e events|].
  - rewrite Hnext. destruct collector; (split; [right|intros _]); left; cbn; lia.
  - destruct (in_subscriber s) as [sb|].
    + destruct Hnext as (sb' & -> & _). (split; [right|intros _]); left; cbn; lia.
    + rewrite Hnext. (split; [right|intros _]); left; cbn; lia.
  - rewrite Hnext. (split; [right|intros _]); left; cbn; lia.
  - rewrite Hnext. destruct (running s e) eqn:Hr; [split; [by left|done]|]. (split; [right|intros _]); left; cbn; lia.
  - rewrite Hnext. unfold subscriber_runs. destruct (in_subscriber s) as [sb|]; [destruct (sb_running sb); [split; [by left|done]|]|]; (split; [right|intros _]); left; cbn; lia.
Qed.

(** No action gives [stop] more work; what it waits for takes some away. *)
Lemma work_steady y out a call : sys_inv y out → sys_stop y = StopUnderWay call → permitted a y →
  stop_work (act a y) = stop_work y ∨ less_work (stop_work (act a y)) (stop_work y).
Proof.
  intros HS Hst Ha. pose proof (turn_work) as Hturn. pose proof (subscriber_work y out HS) as [Hsub _]. pose proof HS as [_ HT].
  pose proof (stopping_none _ _ _ HT) as Hnone. pose proof (ti_stopped _ _ _ HT) as Hstop.
  rewrite Hst in Hnone, Hstop. specialize (Hnone ltac:(done)). specialize (Hstop ltac:(done)).
  assert (∀ s' leaving', quiet (sys_inner y) s' → stop_work (mkSystem s' (sys_starting y) leaving' (sys_stop y)) = stop_work y) as Hq.
  { intros s' leaving' HQ. destruct y as [s starting leaving stop]. by apply quiet_work. }
  destruct a as [fuel rnd channel|id T|id T|id|id|n| | | |collector|c|e|]; destruct y as [s starting leaving stop]; cbn [act sys_stop sys_inner sys_starting] in *.
  - left. apply Hq, register_quiet.
  - left. apply Hq, start_quiet.
  - left. apply Hq, stop_quiet.
  - left. pose proof (unregister_quiet id s) as HQ. destruct (unregister_listener id s) as [[[call'|]| | |] s']; by apply Hq.
  - left. destruct (leaving !! id) as [call'|]; [|done]. pose proof (unregister_next_quiet call' s) as HQ. destruct (unregister_next call' s) as [[[call''|]| | |] s']; by apply Hq.
  - left. apply Hq, quiet_push; [done|done|by apply quiet_same].
  - by rewrite Hst in Ha.
  - rewrite Hnone. by left.
  - left. unfold notifier_stop, mbind, M_bind, get. by rewrite Hstop.
  - by apply (next_work collector (mkSystem s starting leaving stop) out call).
  - left. by apply Hq, quiet_same.
  - by apply (Hturn e (mkSystem s starting leaving stop) out).
  - done.
Qed.

Lemma awaited_permitted y : permitted (awaited y) y.
Proof. unfold awaited. destruct (sys_stop y) as [|[]|]; try done; by destruct (_ : bool). Qed.

Lemma work_awaited y out call : sys_inv y out → sys_stop y = StopUnderWay call → less_work (stop_work (act (awaited y) y)) (stop_work y).
Proof.
  intros HS Hst. destruct (next_work (Ok tt) y out call HS Hst) as [_ Hnext]. unfold awaited in *. rewrite Hst in *.
  destruct call as [| |e events|]; try (by apply Hnext).
  - destruct (running (sys_inner y) e) eqn:Hr; [|by apply Hnext]. destruct (turn_work e y out HS) as [_ Ht]. by eapply Ht.
  - destruct (subscriber_runs (sys_inner y)) eqn:Hr; [|by apply Hnext]. destruct (subscriber_work y out HS) as [_ Ht]. by apply Ht.
Qed.

Lemma awaited_result y out call : sys_inv y out → sys_stop y = StopUnderWay call →
  sys_stop (act (awaited y) y) = StopEnded (Ok tt) ∨ ∃ call', sys_stop (act (awaited y) y) = StopUnderWay call'.
Proof.
  destruct y as [s starting leaving stop]. intros [_ HT] Hst. cbn in HT, Hst. subst stop. pose proof (stopping_none _ _ _ HT ltac:(done)) as ->.
  pose proof (stop_step (Ok tt) call s HT) as Hnext.
  assert (sys_stop (act (AShutdownNext (Ok tt)) (mkSystem s None leaving (StopUnderWay call))) = StopEnded (Ok tt)
    ∨ ∃ call', sys_stop (act (AShutdownNext (Ok tt)) (mkSystem s None leaving (StopUnderWay call))) = StopUnderWay call') as Hn.
  { cbn [act]. destruct call as [|[|e events]|e events|]; try (rewrite Hnext; cbn; by eauto).
    - destruct (in_subscriber s) as [sb|]; [destruct Hnext as (sb' & -> & _)|rewrite Hnext]; cbn; eauto.
    - rewrite Hnext. destruct (in_subscriber s) as [sb|]; [destruct (sb_running sb)|]; cbn; eauto. }
  unfold awaited. cbn [sys_stop sys_inner]. destruct call as [| |e events|]; try done; [destruct (running s e)|destruct (subscriber_runs s)]; try done; right; by eexists.
Qed.

(** When only what [stop] waits for happens, it ends. *)
Definition waited (n : nat) (y : System) : System := Nat.iter n (λ y, act (awaited y) y) y.

Lemma waited_ends y out call : sys_inv y out → sys_stop y = StopUnderWay call → ∃ n, sys_stop (waited n y) = StopEnded (Ok tt).
Proof.
  remember (stop_work y) as w eqn:Hw. revert y out call Hw. induction (less_work_wf w) as [w _ IH]. intros y out call -> HS Hst.
  destruct (awaited_result y out call HS Hst) as [Hend|[call' Hst']]; [by exists 1%nat|].
  destruct (IH _ (work_awaited y out call HS Hst) _ _ call' eq_refl (act_inv y out _ HS (awaited_permitted y)) Hst') as [n Hn].
  exists (S n). unfold waited in *. by rewrite Nat.iter_succ_r.
Qed.

(** ** Theorems *)

(** C39: the notifier delivers what it owes. In every run of a new notifier, where the
    steps of registrations, subscriptions, notifications, [unregister_listener], [start]
    and [stop], the closing of channels by clients and the turns of the dispatchers and of
    the subscriber interleave arbitrarily, an open channel has received of every event but
    the changes of UTXOs a prefix of what a notifier without queues would have sent: each
    notification, once per listener subscribed when it was issued, in the order of issue;
    once the dispatcher has taken its messages, all of it. A listener that is being
    unregistered counts until its channel is closed; what is issued after a dispatcher was
    told to shut down does not count. The subscriber was last told to start exactly the
    events whose dispatchers have listeners. Assumed of the clients ([permitted]): they
    register with existing channels, the random identifiers are not those of listeners
    that are just being unregistered, [stop] is called after [start] has returned and
    [start] not again after that. *)
Theorem notifier_refines y0 y out : created y0 → run y0 y out → let s := sys_inner y in
  (∀ e c, e ≠ EUtxosChanged → open s c →
    received_on e c s `prefix_of` out e c ∧ (is_Some (in_dispatcher s e) → received_on e c (drain e s) = out e c))
  ∧ ∀ sb e, in_subscriber s = Some sb → told e sb = known (active_map s e).
Proof.
  intros Hc Hr. destruct (system_run_inv y0 y out Hc Hr) as [HI HT]. cbn zeta. split.
  - intros e c He Hop. pose proof (ni_events _ _ _ HI e He) as HS. split.
    + destruct HS as [_ HE|L q q' d _ _ _ HE|L d _ _ HE]; eexists; symmetry; by apply (ev_out _ _ _ _ _ _ HE).
    + intros Hd. by eapply drained.
  - intros sb e Hsb. by apply (ti_subscriber _ _ _ HT).
Qed.

(** C40: stopping delivers what is due and ends. In every run as above, [stop] answers
    [AlreadyStoppedError] when the notifier is not started. Under way, it fails only if
    the collector does, before anything else is stopped: it does not panic. Whatever
    clients and other tasks do meanwhile, its remaining work never grows, and the step
    that it waits for, its own or that of a dispatcher or of the subscriber, takes some
    away in a well-founded order, so that it ends. A dispatcher that has ended has
    delivered to the open channels all that was due, that is, all that was issued before
    it was told to shut down; it takes nothing that comes later from its queue. When [stop] has ended
    without an error all dispatchers have, and the subscriber has taken all reports. *)
Theorem notifier_stop_correct y0 y out : created y0 → run y0 y out → let s := sys_inner y in
  (in_is_started s = false → notifier_stop s = (Err AlreadyStoppedError, s))
  ∧ (∀ call, sys_stop y = StopUnderWay call →
      (∀ collector r s', stop_next collector call s = (r, s') →
        match r with Ok _ => True | _ => call = StopCollector ∧ s' = s ∧ collector = (x ← r; Ok tt) end)
      ∧ (∀ a, permitted a y → stop_work (act a y) = stop_work y ∨ less_work (stop_work (act a y)) (stop_work y))
      ∧ less_work (stop_work (act (awaited y) y)) (stop_work y) ∧ well_founded less_work
      ∧ ∃ n, sys_stop (waited n y) = StopEnded (Ok tt))
  ∧ (∀ e, ended s e = true → dispatcher_turn e s = s ∧ ∀ c, e ≠ EUtxosChanged → open s c → received_on e c s = out e c)
  ∧ (sys_stop y = StopEnded (Ok tt) → (∀ e, ended s e = true)
      ∧ ∀ sb, in_subscriber s = Some sb → sb_running sb = false ∧ sb_channel sb = [] ∧ ∀ e, told e sb = known (active_map s e)).
Proof.
  intros Hc Hr. pose proof (system_run_inv y0 y out Hc Hr) as HS. pose proof HS as [HI HT]. cbn zeta. split_and!.
  - intros Hs. unfold notifier_stop, mbind, M_bind, get. by rewrite Hs.
  - intros call Hst. split_and!; [|intros a Ha; by eapply work_steady|by eapply work_awaited|exact less_work_wf|by eapply waited_ends].
    intros collector r s' Hn. pose proof HT as HT'. rewrite Hst in HT'. pose proof (stopping_none _ _ _ HT' ltac:(done)) as Hnone. rewrite Hnone in HT'.
    pose proof (stop_step collector call (sys_inner y) HT') as Hst'. destruct call as [|[|e events]|e events|]; try (rewrite Hst' in Hn; by injection Hn as <- <-).
    + rewrite Hst' in Hn. by destruct collector as [[]| | |]; injection Hn as <- <-.
    + destruct (in_subscriber (sys_inner y)) as [sb|]; [destruct Hst' as (sb' & Hst' & _)|]; rewrite Hst' in Hn; by injection Hn as <- <-.
  - intros e Hend. split.
    { apply turn_none. left. unfold ended, running in *. destruct (in_dispatcher _ e); [|done]. by apply negb_true_iff in Hend. }
    intros c He Hop. destruct (ni_events _ _ _ HI e He) as [Hd HE|L q q' d Hd Hr' _ _|L d _ _ HE]; unfold ended in Hend.
    + destruct (in_dispatcher (sys_inner y) e) as [d|]; [|done]. by rewrite (Hd d eq_refl) in Hend.
    + by rewrite Hd, Hr' in Hend.
    + pose proof (ev_out _ _ _ _ _ _ HE c Hop) as Heq. cbn in Heq. by rewrite app_nil_r in Heq.
  - intros Hst. split.
    + intros e. destruct (ti_sent _ _ _ HT e) as [?|(_ & _ & ?)]; [rewrite Hst; by intros ?%elem_of_nil|done|congruence].
    + intros sb Hsb. destruct (ti_subscriber _ _ _ HT sb Hsb) as [G1 G2]. rewrite Hst in G1. destruct G1. done.
Qed.

(** The addresses of a subscription to changes of UTXOs decide alone whether a change is
    reported: a first subscription without addresses is not passed to the dispatcher. *)
Theorem utxos_subscription_lost id l s : in_listeners s !! id = Some l → l_utxo_addresses l = ∅ →
  start_notify id (TUtxosChanged []) s
  = (Ok tt, set_listeners (<[id := snd (toggle (TUtxosChanged []) true l)]> (in_listeners s)) s)
  ∧ l_active_event (snd (toggle (TUtxosChanged []) true l)) EUtxosChanged = true.
Proof.
  intros Hl Ha. assert (toggle (TUtxosChanged []) true l = (false, snd (toggle (TUtxosChanged []) true l))) as Ht.
  { unfold toggle. cbn [event_of_type]. destruct (negb _); unfold toggle_utxo_addresses; cbn; rewrite Ha; by rewrite decide_False by (by intros []). }
  split.
  - unfold start_notify, mbind, M_bind, get. rewrite Hl. destruct (toggle (TUtxosChanged []) true l) as [b l']. by injection Ht as ->.
  - pose proof (toggle_ok (TUtxosChanged []) true l) as Hok. rewrite Ht in Hok. apply Hok.
Qed.

(** Unregistering a listener sends no message to the dispatchers: its calls of
    [stop_notify] find no listener. *)
Theorem unregister_tells_nobody y0 y out id : created y0 → run y0 y out →
  (let s' := snd (unregister_listener id (sys_inner y)) in
   in_dispatcher_channel s' = in_dispatcher_channel (sys_inner y) ∧ in_dispatcher s' = in_dispatcher (sys_inner y))
  ∧ ∀ call, sys_leaving y !! id = Some call → let s' := snd (unregister_next call (sys_inner y)) in
    in_dispatcher_channel s' = in_dispatcher_channel (sys_inner y) ∧ in_dispatcher s' = in_dispatcher (sys_inner y).
Proof.
  intros Hc Hr. pose proof (system_run_inv y0 y out Hc Hr) as HS. split.
  - unfold unregister_listener, mbind, M_bind, get. by destruct (in_listeners (sys_inner y) !! id).
  - intros call Hcall. destruct (departing_id y out id call HS Hcall) as (Hn & _ & Hid). unfold unregister_next, mbind, M_bind.
    destruct (lv_active_events call) as [|event events]; [done|]. by rewrite Hid, stop_absent.
Qed.

(** When the collector fails to stop, so does [stop], and every further call: the
    notifier counts as stopped while its dispatchers run on. *)
Theorem failed_stop_final y0 y out err : created y0 → run y0 y out → sys_stop y = StopUnderWay StopCollector →
  let y' := act (AShutdownNext (Err err)) y in
  sys_stop y' = StopEnded (Err err) ∧ (∀ e, running (sys_inner y') e = true)
  ∧ notifier_stop (sys_inner y') = (Err AlreadyStoppedError, sys_inner y').
Proof.
  intros Hc Hr Hst. destruct (system_run_inv y0 y out Hc Hr) as [_ HT]. destruct y as [s starting leaving stop]. cbn in Hst, HT. subst stop.
  pose proof (stopping_none _ _ _ HT ltac:(done)) as ->. cbn. split_and!; [done| |].
  - intros e. apply (stopping_spawned s _ e HT); [done|apply all_events].
  - change (notifier_stop s = (Err AlreadyStoppedError, s)). unfold notifier_stop, mbind, M_bind, get. by rewrite (ti_stopped _ _ _ HT).
Qed.

(** A run: two listeners share a channel, one of them joins between two notifications;
    the other one is being unregistered when the last but one is issued, and the last one
    comes after the shutdown. *)
Definition ex_created : System := mkSystem (notifier_new true (Some (subscriber_new 1)) All {[ 0%nat := channel_default ]}) None ∅ NotStopped.
Definition ex_actions : list Action :=
  ALaunch :: replicate 11 ALaunchNext ++
  [ARegister 4 (λ i, 7 + Z.of_nat i) (Some 0%nat); AStart 7 TBlockAdded; ANotify (NBlockAdded 5); ADispatch EBlockAdded;
   ARegister 4 (λ i, 7 + Z.of_nat i) (Some 0%nat); AStart 8 TBlockAdded; ANotify (NBlockAdded 6); ADispatch EBlockAdded; ASubscriber;
   AUnregister 7; AUnregisterNext 7; ANotify (NBlockAdded 7)].
Definition ex_stop_actions : list Action :=
  [AShutdown; AShutdownNext (Ok tt); AShutdownNext (Ok tt); ANotify (NBlockAdded 8);
   ADispatch EBlockAdded; ADispatch EBlockAdded; ADispatch EBlockAdded; ADispatch EBlockAdded; AShutdownNext (Ok tt)].
Definition ex_notifier : System := foldl (λ y a, act a y) ex_created ex_actions.
Definition ex_stopping : System := foldl (λ y a, act a y) ex_notifier ex_stop_actions.

Definition ex_received : list Notification := [NBlockAdded 5; NBlockAdded 6; NBlockAdded 6; NBlockAdded 7; NBlockAdded 7].

Ltac ex_run := repeat (apply run_step; [|by (split; [done|by eexists]) || done]); first [apply run_refl|eassumption].

Lemma ex_notifier_run : created ex_created ∧ ∃ out, run ex_created ex_notifier out ∧ out EBlockAdded 0%nat = ex_received.
Proof.
  split.
  - exists true, 1, All, {[ 0%nat := channel_default ]}. split; [by right|]. by apply map_Forall_singleton.
  - eexists. split; [ex_run|]. by vm_compute.
Qed.

Lemma ex_stopping_run : ∃ out, run ex_created ex_stopping out ∧ out EBlockAdded 0%nat = ex_received.
Proof. eexists. split; [ex_run|]. by vm_compute. Qed.

Lemma ex_notifier_open : open (sys_inner ex_notifier) 0 ∧ open (sys_inner ex_stopping) 0.
Proof. split; eexists; vm_compute; reflexivity. Qed.

Lemma notifier_refines_witness : created ex_created ∧ (∃ out, run ex_created ex_notifier out ∧ out EBlockAdded 0%nat = ex_received)
  ∧ is_Some (sys_leaving ex_notifier !! 7)
  ∧ received_on EBlockAdded 0 (sys_inner ex_notifier) = [NBlockAdded 5] ∧ received_on EBlockAdded 0 (drain EBlockAdded (sys_inner ex_notifier)) = ex_received.
Proof.
  destruct ex_notifier_run as [Hc (out & Hr & Ho)].
  refine (conj Hc (conj (ex_intro _ out (conj Hr Ho)) (conj _ (conj _ _)))); [by eexists; vm_compute|by vm_compute|].
  destruct (notifier_refines ex_created ex_notifier out Hc Hr) as [H _]. rewrite <- Ho. apply H; [done|apply ex_notifier_open|by eexists; vm_compute].
Defined.

Lemma notifier_stop_correct_witness : created ex_created ∧ (∃ out, run ex_created ex_stopping out ∧ out EBlockAdded 0%nat = ex_received)
  ∧ in_dispatcher_channel (sys_inner ex_stopping) EBlockAdded = [Send (NBlockAdded 8)]
  ∧ received_on EBlockAdded 0 (sys_inner ex_stopping) = ex_received
  ∧ ∃ n, sys_stop (waited n ex_stopping) = StopEnded (Ok tt).
Proof.
  destruct ex_notifier_run as [Hc _]. destruct ex_stopping_run as (out & Hr & Ho).
  destruct (notifier_stop_correct ex_created ex_stopping out Hc Hr) as (_ & Hstop & Hend & _).
  refine (conj Hc (conj (ex_intro _ out (conj Hr Ho)) (conj _ (conj _ _)))); [by vm_compute| |].
  - rewrite <- Ho. apply Hend; [by vm_compute|done|apply ex_notifier_open].
  - apply (Hstop (StopDispatchers (drop 1 EVENT_TYPE_ARRAY))). by vm_compute.
Defined.
